(* ===== verification/_CoqProject ===== *)
-Q . S2P
Prelude.v
Tnum.v
Bounds.v
Insn.v
Alu.v
Branch.v
Ctx.v
State.v
Concrete.v
Exec.v
Sim.v
StateEq.v
Liveness.v
Cfg.v
Helper.v
Mem.v
Call.v
Step.v
Mini.v
ConcreteMem.v
ConcreteRun.v
Env.v
CrossMem.v
Cross.v
SpecRange.v
SpecState.v
SpecRun.v
SpecSafe.v
SpecCheck.v
Klog.v
Oracle.v
Reduce.v
ReducePasses.v
ReduceOperand.v
ReduceAnchor.v
ReduceDriver.v
Replay.v
Prng.v
Generator.v
Mutator.v
Triage.v
Smt.v
Synth.v
