(* ===== verification/Prelude.v ===== *)
(** A verification library for rand-verifier, a user-space model of the eBPF
    verifier with a concrete interpreter that checks it (the Rust crate under
    src/src).

    ** The program and its model

    The program loads a list of 8-byte slots, decodes it, checks its control flow,
    explores its paths with abstract register states, prunes paths by comparing
    states, and finally runs the program on exact values and reports every
    concrete state that no abstract one covers.  Each part has a file, and the
    definitions keep the names of the source:

    - [Prelude] (this file): Rust's integers as [Z] with casts and wrap-around
      written out, bit lemmas, the [result] type and the tactics of the library.
    - [Tnum] (tnum.rs): tracked numbers and their arithmetic.
    - [Bounds] (state.rs, [ScalarBounds]): four intervals and a tracked number, [synced].
    - [Insn] (insn.rs, fuzz/insn_lib.rs): instructions, decoder, encoder, opcode lists.
    - [Alu] (exec.rs [apply_alu], concrete.rs evaluators): interval and tracked-number
      transfer functions and the exact operations.
    - [Branch] (exec.rs): [refine_cmp], static verdicts, JSET and 32-bit jumps.
    - [Ctx] (ctx.rs, prog_type.rs): program types and their context field tables.
    - [State] (state.rs, error.rs): registers, stack bytes, spilled slots, frames,
      references, entry and return of subprograms, the failures.
    - [Concrete] (concrete.rs): concrete values, states, register instructions, coverage.
    - [Exec] (exec.rs): the register arms of [step].
    - [Sim]: register instructions of [Exec] against those of [Concrete]; [value_in] is
      the meaning of an abstract register.
    - [StateEq] (state_eq.rs): identity map, [states_equal], [clean_state].
    - [Liveness] (liveness.rs): uses and definitions, static successors, the iteration.
    - [Cfg] (cfg.rs): subprograms, depth-first search, loop heads, stack-depth checks.
    - [Helper] (helper.rs): helper and kfunc prototypes, argument checks.
    - [Mem] (exec.rs): stack, map-value, buffer, context and packet accesses, atomics.
    - [Call] (exec.rs): helpers, dynptrs, kfuncs, the reference table.
    - [Step] (exec.rs): [step], conditional jumps with links and null checks, [successors].
    - [Mini] (mini.rs): the worklist, checkpoints, pruning, precision marks, limits.
    - [ConcreteMem], [ConcreteRun] (concrete.rs): memory arms, branches, calls, maps, the
      exhaustive run and [check_coverage].
    - [Env] (env.rs): loading with map resolution, [verify], reports.
    - [CrossMem], [Cross]: one step of [Step.successors] against one step of
      [ConcreteRun.concrete_successors], stacks byte by byte, links and null checks.
    - The independent specification (spec/), a second verifier with one interval per
      scalar: [SpecRange] (value.rs and the interval part of runner.rs), [SpecState]
      (state.rs, helper.rs, the operations on one state), [SpecRun] (branches, dispatch,
      the worklist with its visited set), [SpecSafe] and [SpecCheck] (its theorems).
    - The testcase reducer (fuzz/reduce/): [Reduce] (fixup.rs, ddmin.rs: deletion with
      re-based branches, the oracle's memo table, delta debugging), [ReducePasses]
      (passes.rs: reachability, dead code, backward slice, dead branch sides),
      [ReduceOperand] (operand.rs: smaller immediates and offsets, immediate forms,
      register lowering), [ReduceAnchor] (passes.rs: where a run of the verifier locates
      the failure), [ReduceDriver] (driver.rs: the cycle and its fixpoint).
    - The campaign's judgement of a program: [Klog] (klog.rs: the kernel's log and its
      categories of reasons), [Oracle] (diff.rs, fuzz/oracle.rs: sides, known differences,
      surface gaps, the classification), [Replay] (fuzz/reduce/replay.rs, driver.rs
      [reduce_finding], bin/fuzz.rs [meta_json]: a finding on disk, its replay, the
      invariant its reduction preserves), [Triage] (fuzz/triage.rs: findings grouped by
      their cause, with counts, representatives and an order of analysis).
    - The programs of a campaign: [Prng] (fuzz/prng.rs: the stream of random words and
      the mixing of seeds), [Generator] (fuzz/generator.rs, idiom.rs and the pools of
      insn_lib.rs: weighted programs and the idiom templates), [Mutator] (mutator.rs: the
      four mutations and the structural check of a mutant).
    - The harness that checks the abstract operators: [Smt] (smt/tnum.rs, range.rs,
      verify.rs, bin/smt_verify.rs: encodings as bit-vector terms over an interface of the
      solver, queries, exhaustive and random checks), [Synth] (smt/synth.rs, the searches
      of bin/witness_synth.rs: candidate operators, witnesses and their programs).
    Interaction: [Env.verify] calls [Cfg], [Mini] and [ConcreteRun]; [Mini.expand] calls
    [Step.successors], which calls [Exec], [Mem], [Call] and [Branch]; [Mini] prunes with
    [StateEq] on states cleaned by [Liveness].  State is passed explicitly; a Rust
    [Result] is [result]; a Rust panic (a failed [expect], an index past the end) is the
    failure [Panicked] of the abstract side, the value [Panic] of the concrete one,
    [SpecPanic] of the specification, [IndexPanics] of [Liveness.analyze], and [None] in
    the walks over the checkpoints of [Mini].  [Oracle]
    compares the report of [Env], the verdict of [SpecRun] and the kernel's; the two
    verifiers share only [Ctx], [Insn] and the map registry.  A drawing of [Generator] or
    [Mutator] passes the state of [Prng] along and may panic; [Mutator] draws instructions
    from [Generator] and asks [Cfg] about its mutants, and the theorem of [Generator] is
    that [Cfg] accepts what it draws.  [Replay] runs the loop of
    [ReduceDriver] with an oracle that asks [Oracle.classify].

    Integers are those of a release build (the README builds with [cargo build
    --release]): where an overflow can happen the sum wraps ([Alu.interval_mod],
    [ReduceOperand.offset_candidates], [SpecState.mark_range_init],
    [SpecState.mark_buffer], the stack pointers of [Concrete]); a debug build would panic
    there.  Where the library shows that no overflow happens ([SpecState], [Smt], [Synth],
    the branch counts of [Mini]) the definitions stop on one, so that the theorem says
    that none does, in either build.

    ** What the theorems show

    - Domains: every operation of tracked numbers and intervals contains the exact result
      ([Tnum], [Bounds]), [apply_alu] does on the shapes it is sound on ([Alu]), and
      refinement keeps the words of each side of a branch but one ([Branch]).  Where the code
      loses a value, the soundness theorem names the condition that excludes it
      ([..._covered]) and an instance of the loss stands beside it, or in a closed
      [..._gaps] theorem.
    - Types and panics: [State.state_typed] is preserved by every step, and on typed states
      a decoded instruction panics only if it calls [bpf_dynptr_write] ([Step], [Mini]).
    - Exploration: it ends; it panics only on that call, or where the liveness analysis does;
      its branch counts are exactly the pending paths below a state by its chain (not all
      paths: the return of a subprogram is left out); and an accepted program has every
      state its transfer function reaches analyzed or pruned against an equal one ([Mini]).
    - Pruning: what [StateEq.states_equal] accepts is subsumed register by register.
    - Simulation: on the covered instructions, from states that describe each other, every
      concrete successor is described by a computed one and the concrete machine does not
      panic ([Sim], [CrossMem], [Cross]); identities of linked scalars and nullable pointers are a
      hypothesis, since the code reuses them in loops ([Step.branch_gaps]).
    - Control flow, liveness: soundness and termination of the search, edges confined to
      their subprogram, exactness of the call-chain check and of the data-flow iteration,
      which panics on exactly the programs that end with a returning call ([Cfg], [Liveness]).
    - Concrete run: a conclusive run is closed under successors, where the load from a map
      value is followed for the contents of the memory at the visit, and the coverage report
      is exact ([ConcreteRun]); a clean acceptance excludes both kinds of report, and every
      state that is reached up to the first load from a map value is in the run ([Env]).
    - Formats: encoding and decoding round trips ([Insn]), store and load round trips
      ([Mem], [ConcreteMem], [SpecCheck]).
    - Specification: interval operations and comparisons contain the exact results
      ([SpecRange]); well-formed states are kept, nothing panics, every decoded program has
      a verdict within a budget of 2^31 steps, stack accesses stay in the frame, and an accepted
      program never gets stuck ([SpecCheck]).
    - Reducer: a deletion moves every jump and 64-bit compare to the image of its target and
      no other branch ([Reduce]), the structural passes keep the graph they follow of what is
      reachable and every path in it to the failure ([ReducePasses]), immediate forms compute
      the same ([ReduceOperand]); delta debugging ends and is 1-minimal on one-slot
      instructions, and the driver reaches a fixpoint for any oracle, by a lexicographic order
      that every candidate decreases, unless the verifier panics on the way ([ReduceDriver]).
    - Campaign: each of the twelve classifications is characterised by the sides, a program
      reported as rejected without need executes safely, a soundness finding has a concrete
      witness ([Oracle]); a kernel log is read exactly ([Klog]); what is read back of a
      written finding with a plain name is exactly known, and its reduction ends and still exhibits it ([Replay]); the groups of
      findings partition them, for any order of the findings ([Triage]).
    - Generation: the random stream takes every word once per period and seeds are mixed
      without loss ([Prng]); every drawn program round-trips through its encoding and
      passes the checks of [Cfg], and drawing it ends without a panic ([Generator]); without
      two-slot instructions a mutant differs from its seed in one place and passes the same checks ([Mutator]).
    - Harness: the encodings compute the operators of [Tnum] and [SpecRange] under the
      semantics of SMT-LIB, a query reports exactly the unsound pairs, and a run of the
      harness reports nothing, with any solver whose answers are right and at any width
      and size ([Smt]); witnesses are genuine and their programs compute the operation
      outside of a named gap ([Synth]).

    ** Bounds and fuel

    Each fuel is a function of the input, and a theorem shows the result does not run out:
    [tnum_mul_fuel] 64 bits; [stacksafe] 512 bytes; [Liveness] 256 n + 1 rounds; [Cfg] search
    n (n + 3) + 1 steps and one call frame per subprogram; [Mini] and [ConcreteRun]
    max_steps + 2 iterations, and so does [SpecRun]; chains of checkpoints one more than
    there are checkpoints;
    fresh reference numbers one more than are held; delta debugging (n + 1)^2 + 1 rounds,
    a traversal of the reducer's graph one step per edge and two more;
    a loop that waits for a draw 2^64 turns, the period of the stream, in which every
    value comes up ([Prng]).  The reducer's own
    loop has no such bound in the input: its theorem gives a fuel for each run.

    ** Not modelled

    Reading files and the JSON side car, Display and report rendering, debug prints and
    statistics that no decision reads; the loop of a fuzzing campaign and its bookkeeping
    (bin/fuzz.rs, fuzz/novelty.rs, regression.rs, qemu.rs), which weighs seeds by
    floating-point scores and drives virtual machines and external processes, and with it
    the draw of a float and the weighted choice; the files of a reduction: the contents of a
    finding's files are arguments, and the evaluation of a program, which runs the verifier
    and the kernel, is a parameter of the reducer that returns; the external
    solver, an interface with the laws of SMT-LIB, of which [Smt.Trial] is an instance; the
    ranking of witnesses by a floating-point ratio; system calls and process control
    (krun.rs, trace.rs).  Iteration orders of hash maps are parameters where the result could
    depend on them. *)
From Stdlib Require Import ZArith Lia List Bool Btauto.
From stdpp Require Import base list.
Open Scope Z_scope.

(** * Fallible code: [Result<A, E>] *)

Inductive result (E A : Type) : Type :=
| Ok (a : A)
| Err (e : E).
Arguments Ok {E A} a.
Arguments Err {E A} e.

Definition rbind {E A B} (m : result E A) (k : A -> result E B) : result E B :=
  match m with Ok a => k a | Err e => Err e end.

Declare Scope result_scope.
Delimit Scope result_scope with result.
Notation "'let?' x ':=' m 'in' k" := (rbind m (fun x => k))
  (at level 10, x pattern, m at level 100, k at level 200) : result_scope.
Notation "m ';;?' k" := (rbind m (fun _ => k))
  (at level 100, k at level 200, right associativity) : result_scope.
Open Scope result_scope.

Definition is_ok {E A} (m : result E A) : bool :=
  match m with Ok _ => true | Err _ => false end.

Lemma rbind_ok {E A B} (m : result E A) (k : A -> result E B) b :
  rbind m k = Ok b -> exists a, m = Ok a /\ k a = Ok b.
Proof. destruct m; simpl; [eauto | discriminate]. Qed.

(** * Machine integers *)

(** [x as u64], [x as i64], ... : the value of [x] reduced to the width and
    read in the target's signedness. *)
Definition as_u (w x : Z) : Z := x mod 2 ^ w.
Definition as_i (w x : Z) : Z :=
  let u := x mod 2 ^ w in if u <? 2 ^ (w - 1) then u else u - 2 ^ w.

Abbreviation as_u8 := (as_u 8).
Abbreviation as_u16 := (as_u 16).
Abbreviation as_u32 := (as_u 32).
Abbreviation as_u64 := (as_u 64).
Abbreviation as_i8 := (as_i 8).
Abbreviation as_i16 := (as_i 16).
Abbreviation as_i32 := (as_i 32).
Abbreviation as_i64 := (as_i 64).

Abbreviation U64_MAX := 18446744073709551615 (only parsing).
Abbreviation I64_MAX := 9223372036854775807 (only parsing).
Abbreviation I64_MIN := (-9223372036854775808) (only parsing).
Abbreviation U32_MAX := 4294967295 (only parsing).
Abbreviation I32_MAX := 2147483647 (only parsing).
Abbreviation I32_MIN := (-2147483648) (only parsing).

(** The value ranges of the types. *)
Abbreviation is_u64 x := (0 <= x <= 18446744073709551615).
Abbreviation is_i64 x := (-9223372036854775808 <= x <= 9223372036854775807).
Abbreviation is_u32 x := (0 <= x <= 4294967295).
Abbreviation is_i32 x := (-2147483648 <= x <= 2147483647).

(** Bitwise complement [!x] at width [w]. *)
Definition unot (w x : Z) : Z := Z.lxor (Z.ones w) x.

(** [wrapping_add], [wrapping_sub], [wrapping_mul] of the unsigned types. *)
Definition wadd (w a b : Z) : Z := as_u w (a + b).
Definition wsub (w a b : Z) : Z := as_u w (a - b).
Definition wmul (w a b : Z) : Z := as_u w (a * b).

(** [u64::rotate_left]. *)
Definition rotate_left (x k : Z) : Z :=
  Z.lor (as_u64 (Z.shiftl x k)) (Z.shiftr x (64 - k)).

(** [a.checked_add(b)] and the like: [None] outside [lo, hi]. *)
Definition checked (lo hi x : Z) : option Z :=
  if (lo <=? x) && (x <=? hi) then Some x else None.
(** [a.saturating_add(b)] and the like. *)
Definition saturate (lo hi x : Z) : Z := Z.max lo (Z.min hi x).

(** * Arithmetic lemmas *)

Lemma as_u_range w x : 0 <= w -> 0 <= as_u w x < 2 ^ w.
Proof. intros. apply Z.mod_pos_bound. lia. Qed.

Lemma as_u_small w x : 0 <= x < 2 ^ w -> as_u w x = x.
Proof. intros. apply Z.mod_small. lia. Qed.

Lemma as_u64_id x : is_u64 x -> as_u64 x = x.
Proof. intros. apply as_u_small. lia. Qed.

Lemma as_u64_range x : is_u64 (as_u64 x).
Proof. pose proof (as_u_range 64 x). lia. Qed.

Lemma as_u32_range x : is_u32 (as_u32 x).
Proof. pose proof (as_u_range 32 x). lia. Qed.

Lemma as_i64_range x : is_i64 (as_i64 x).
Proof.
  unfold as_i. pose proof (Z.mod_pos_bound x (2 ^ 64)).
  destruct (Z.ltb_spec (x mod 2 ^ 64) (2 ^ (64 - 1))); lia.
Qed.

Lemma as_i32_range x : is_i32 (as_i32 x).
Proof.
  unfold as_i. pose proof (Z.mod_pos_bound x (2 ^ 32)).
  destruct (Z.ltb_spec (x mod 2 ^ 32) (2 ^ (32 - 1))); lia.
Qed.

Lemma as_i64_nonneg x : is_u64 x -> x <= I64_MAX -> as_i64 x = x.
Proof.
  intros. unfold as_i. rewrite Z.mod_small by lia.
  destruct (Z.ltb_spec x (2 ^ (64 - 1))); lia.
Qed.

Lemma as_i64_neg x : is_u64 x -> I64_MAX < x -> as_i64 x = x - 2 ^ 64.
Proof.
  intros. unfold as_i. rewrite Z.mod_small by lia.
  destruct (Z.ltb_spec x (2 ^ (64 - 1))); lia.
Qed.

Lemma as_i64_id x : is_i64 x -> as_i64 x = x.
Proof.
  intros. unfold as_i.
  destruct (Z.lt_ge_cases x 0) as [Hn|Hn].
  - replace (x mod 2 ^ 64) with (x + 2 ^ 64).
    + destruct (Z.ltb_spec (x + 2 ^ 64) (2 ^ (64 - 1))); lia.
    + rewrite <- (Z_mod_plus_full x 1 (2 ^ 64)). rewrite Z.mod_small; lia.
  - rewrite Z.mod_small by lia.
    destruct (Z.ltb_spec x (2 ^ (64 - 1))); lia.
Qed.

Lemma as_u64_nonneg x : is_i64 x -> 0 <= x -> as_u64 x = x.
Proof. intros. apply as_u_small. lia. Qed.

Lemma as_u64_neg x : is_i64 x -> x < 0 -> as_u64 x = x + 2 ^ 64.
Proof.
  intros. unfold as_u. rewrite <- (Z_mod_plus_full x 1 (2 ^ 64)).
  rewrite Z.mod_small; lia.
Qed.

(** The two readings of a 64-bit word determine each other. *)
Lemma as_u64_as_i64 x : is_u64 x -> as_u64 (as_i64 x) = x.
Proof.
  intros. destruct (Z.le_gt_cases x I64_MAX).
  - rewrite as_i64_nonneg, as_u64_id; lia.
  - rewrite as_i64_neg, as_u64_neg; lia.
Qed.

Lemma as_i64_as_u64 x : is_i64 x -> as_i64 (as_u64 x) = x.
Proof.
  intros. destruct (Z.lt_ge_cases x 0).
  - rewrite as_u64_neg, as_i64_neg; lia.
  - rewrite as_u64_nonneg, as_i64_nonneg; lia.
Qed.

Lemma as_i_mod w x : as_i w (x mod 2 ^ w) = as_i w x.
Proof. unfold as_i. rewrite Z.mod_mod_divide; [done|]. exists 1. lia. Qed.

Lemma as_u_mod w x : as_u w (x mod 2 ^ w) = as_u w x.
Proof. unfold as_u. rewrite Z.mod_mod_divide; [done|]. exists 1. lia. Qed.

Lemma as_u_idem w x : as_u w (as_u w x) = as_u w x.
Proof. apply as_u_mod. Qed.

Lemma as_i64_as_u64_any x : as_i64 (as_u64 x) = as_i64 x.
Proof. apply as_i_mod. Qed.

(** A tactic that turns the casts of in-range values into linear facts: for
    every [as_i64 x] / [as_u64 x] of the goal it adds the defining case split. *)
Ltac cast_facts :=
  repeat match goal with
  | |- context [as_i 64 ?x] =>
      let H := fresh in assert (H := as_i64_range x);
      first [ rewrite (as_i64_nonneg x) in * by lia
            | rewrite (as_i64_neg x) in * by lia
            | rewrite (as_i64_id x) in * by lia ]
  | |- context [as_u 64 ?x] =>
      first [ rewrite (as_u64_id x) in * by lia
            | rewrite (as_u64_neg x) in * by lia ]
  end.

(** Split the boolean tests of hypotheses and goal into propositions. *)
Ltac bool_hyps :=
  repeat match goal with
  | H : andb _ _ = true |- _ => apply andb_true_iff in H; destruct H
  | H : andb _ _ = false |- _ => apply andb_false_iff in H
  | H : orb _ _ = true |- _ => apply orb_true_iff in H
  | H : orb _ _ = false |- _ => apply orb_false_iff in H; destruct H
  | H : negb _ = true |- _ => apply negb_true_iff in H
  | H : negb _ = false |- _ => apply negb_false_iff in H
  | H : (_ <=? _) = true |- _ => apply Z.leb_le in H
  | H : (_ <=? _) = false |- _ => apply Z.leb_gt in H
  | H : (_ <? _) = true |- _ => apply Z.ltb_lt in H
  | H : (_ <? _) = false |- _ => apply Z.ltb_ge in H
  | H : (_ =? _) = true |- _ => apply Z.eqb_eq in H
  | H : (_ =? _) = false |- _ => apply Z.eqb_neq in H
  end.

(** Linear arithmetic with divisions and remainders by constants. *)
Ltac div_lia := Z.to_euclidean_division_equations; lia.

(** Case on every boolean test of the goal. *)
Ltac case_tests :=
  repeat match goal with
  | |- context [?a <=? ?b] => destruct (Z.leb_spec a b); simpl
  | |- context [?a <? ?b] => destruct (Z.ltb_spec a b); simpl
  | |- context [?a =? ?b] => destruct (Z.eqb_spec a b); simpl
  end.

(** * Bits *)

Lemma testbit_high w x i : 0 <= x < 2 ^ w -> 0 <= w <= i -> Z.testbit x i = false.
Proof.
  intros Hx Hi. rewrite <- (Z.mod_small x (2 ^ w)) by lia.
  apply Z.mod_pow2_bits_high. lia.
Qed.

Lemma testbit_u64_high x i : is_u64 x -> 64 <= i -> Z.testbit x i = false.
Proof. intros. apply (testbit_high 64); lia. Qed.

Lemma unot_spec w x i :
  0 <= w -> 0 <= i -> Z.testbit (unot w x) i = xorb (i <? w) (Z.testbit x i).
Proof.
  intros. unfold unot. rewrite Z.lxor_spec. f_equal.
  destruct (Z.ltb_spec i w).
  - apply Z.ones_spec_low; lia.
  - apply Z.ones_spec_high; lia.
Qed.

Lemma as_u_spec w x i :
  0 <= w -> 0 <= i -> Z.testbit (as_u w x) i = (i <? w) && Z.testbit x i.
Proof.
  intros. unfold as_u. destruct (Z.ltb_spec i w); simpl.
  - apply Z.mod_pow2_bits_low; lia.
  - apply Z.mod_pow2_bits_high; lia.
Qed.

(** [x & m == 0] below [w] bits, and other bit-determined ranges. *)
Lemma bits_range w x :
  0 <= w -> (forall i, w <= i -> Z.testbit x i = false) -> 0 <= x < 2 ^ w.
Proof.
  intros Hw H. replace x with (x mod 2 ^ w).
  - apply Z.mod_pos_bound. lia.
  - apply Z.bits_inj'. intros i Hi. destruct (Z.lt_ge_cases i w).
    + apply Z.mod_pow2_bits_low; lia.
    + rewrite Z.mod_pow2_bits_high by lia. symmetry; apply H; lia.
Qed.

Lemma bits_u64 x :
  (forall i, 64 <= i -> Z.testbit x i = false) -> is_u64 x.
Proof. intros H. pose proof (bits_range 64 x ltac:(lia) H). lia. Qed.

(** Equality of two 64-bit words, bit by bit. *)
Lemma u64_ext x y :
  is_u64 x -> is_u64 y ->
  (forall i, 0 <= i < 64 -> Z.testbit x i = Z.testbit y i) -> x = y.
Proof.
  intros Hx Hy H. apply Z.bits_inj'. intros i Hi.
  destruct (Z.lt_ge_cases i 64); [apply H; lia|].
  rewrite !testbit_u64_high; auto.
Qed.

Create HintDb bits.
Create Rewrite HintDb bits.
#[export] Hint Rewrite Z.land_spec Z.lor_spec Z.lxor_spec Z.ldiff_spec Z.testbit_0_l : bits.
#[export] Hint Rewrite unot_spec as_u_spec using lia : bits.
#[export] Hint Rewrite Z.shiftr_spec Z.shiftl_spec using lia : bits.
#[export] Hint Rewrite Z.bits_m1 using lia : bits.

(** Discharge a bit equation at a fixed index [i]: the words' bits become
    booleans, the index is compared with the width, the rest is propositional. *)
Ltac gen_bit x i :=
  let b := fresh "b" in set (b := Z.testbit x i) in *; clearbody b; destruct b; simpl in *.
Ltac bool_cases :=
  repeat match goal with
  | H : context [Z.testbit ?x ?i] |- _ => gen_bit x i
  | |- context [Z.testbit ?x ?i] => gen_bit x i
  end; try congruence; try done.

Lemma land_u64 x y : is_u64 x -> is_u64 (Z.land x y).
Proof.
  intros. apply bits_u64. intros i Hi. rewrite Z.land_spec, testbit_u64_high; auto.
Qed.
Lemma land_u64_r x y : is_u64 y -> is_u64 (Z.land x y).
Proof. intros. rewrite Z.land_comm. by apply land_u64. Qed.
Lemma lor_u64 x y : is_u64 x -> is_u64 y -> is_u64 (Z.lor x y).
Proof.
  intros. apply bits_u64. intros i Hi. rewrite Z.lor_spec, !testbit_u64_high; auto.
Qed.
Lemma lxor_u64 x y : is_u64 x -> is_u64 y -> is_u64 (Z.lxor x y).
Proof.
  intros. apply bits_u64. intros i Hi. rewrite Z.lxor_spec, !testbit_u64_high; auto.
Qed.
Lemma unot_u64 x : is_u64 x -> is_u64 (unot 64 x).
Proof.
  intros. apply bits_u64. intros i Hi.
  rewrite unot_spec, testbit_u64_high by lia. case_tests; lia || done.
Qed.
#[export] Hint Resolve land_u64 land_u64_r lor_u64 lxor_u64 unot_u64 as_u64_range : bits.

(** Bitwise inclusion implies the order of the values. *)
Lemma bits_le x y :
  0 <= x -> 0 <= y ->
  (forall i, 0 <= i -> Z.testbit x i = true -> Z.testbit y i = true) -> x <= y.
Proof.
  intros Hx Hy H. apply Z.ldiff_le; [lia|]. apply Z.bits_inj'. intros i Hi.
  rewrite Z.ldiff_spec, Z.testbit_0_l. specialize (H i Hi). bool_cases.
  by specialize (H eq_refl).
Qed.

Lemma mod_le_bits x y k :
  0 <= k ->
  (forall i, 0 <= i < k -> Z.testbit x i = true -> Z.testbit y i = true) ->
  x mod 2 ^ k <= y mod 2 ^ k.
Proof.
  intros Hk H. apply bits_le.
  - pose proof (Z.mod_pos_bound x (2 ^ k)). lia.
  - pose proof (Z.mod_pos_bound y (2 ^ k)). lia.
  - intros i Hi. destruct (Z.lt_ge_cases i k).
    + rewrite !Z.mod_pow2_bits_low by lia. apply H. lia.
    + rewrite Z.mod_pow2_bits_high by lia. discriminate.
Qed.

(** * Carries and borrows *)

Lemma div_pow2_parity x k : 0 <= k -> Z.testbit x k = Z.odd (x / 2 ^ k).
Proof.
  intros. rewrite <- Z.bit0_odd, Z.div_pow2_bits; [f_equal; lia|lia|lia].
Qed.

(** Bit [k] of a sum is the exclusive or of the bits and of the carry out of
    the lower [k] bits. *)
Lemma add_bit x y k :
  0 <= k ->
  Z.testbit (x + y) k =
  xorb (xorb (Z.testbit x k) (Z.testbit y k)) (2 ^ k <=? x mod 2 ^ k + y mod 2 ^ k).
Proof.
  intros Hk. rewrite !div_pow2_parity by lia.
  assert (Hp : 0 < 2 ^ k) by lia.
  pose proof (Z.mod_pos_bound x _ Hp). pose proof (Z.mod_pos_bound y _ Hp).
  rewrite (Z.div_mod x (2 ^ k)) at 1 by lia.
  rewrite (Z.div_mod y (2 ^ k)) at 1 by lia.
  set (q1 := x / 2 ^ k) in *. set (q2 := y / 2 ^ k) in *.
  set (r1 := x mod 2 ^ k) in *. set (r2 := y mod 2 ^ k) in *.
  destruct (Z.leb_spec (2 ^ k) (r1 + r2)).
  - replace ((2 ^ k * q1 + r1 + (2 ^ k * q2 + r2)) / 2 ^ k) with (q1 + q2 + 1).
    + rewrite !Z.odd_add. simpl (Z.odd 1). btauto.
    + apply Z.div_unique with (r1 + r2 - 2 ^ k); lia.
  - replace ((2 ^ k * q1 + r1 + (2 ^ k * q2 + r2)) / 2 ^ k) with (q1 + q2).
    + rewrite !Z.odd_add. simpl (Z.odd 1). btauto.
    + apply Z.div_unique with (r1 + r2); lia.
Qed.

(** Bit [k] of a difference likewise, with the borrow. *)
Lemma sub_bit x y k :
  0 <= k ->
  Z.testbit (x - y) k =
  xorb (xorb (Z.testbit x k) (Z.testbit y k)) (x mod 2 ^ k <? y mod 2 ^ k).
Proof.
  intros Hk. rewrite !div_pow2_parity by lia.
  assert (Hp : 0 < 2 ^ k) by lia.
  pose proof (Z.mod_pos_bound x _ Hp). pose proof (Z.mod_pos_bound y _ Hp).
  rewrite (Z.div_mod x (2 ^ k)) at 1 by lia.
  rewrite (Z.div_mod y (2 ^ k)) at 1 by lia.
  set (q1 := x / 2 ^ k) in *. set (q2 := y / 2 ^ k) in *.
  set (r1 := x mod 2 ^ k) in *. set (r2 := y mod 2 ^ k) in *.
  destruct (Z.ltb_spec r1 r2).
  - replace ((2 ^ k * q1 + r1 - (2 ^ k * q2 + r2)) / 2 ^ k) with (q1 - q2 - 1).
    + rewrite !Z.odd_sub. simpl (Z.odd 1). btauto.
    + apply Z.div_unique with (r1 - r2 + 2 ^ k); lia.
  - replace ((2 ^ k * q1 + r1 - (2 ^ k * q2 + r2)) / 2 ^ k) with (q1 - q2).
    + rewrite !Z.odd_sub. simpl (Z.odd 1). btauto.
    + apply Z.div_unique with (r1 - r2); lia.
Qed.

(** * Abstract values and what they stand for *)

(** An abstract domain over 64-bit words: [abs_wf] is the representation
    invariant of the type, [gamma a v] says that the word [v] is one of the
    values [a] describes.  Tracked numbers, the scalar bounds of the verifier
    and the ranges of the independent specification are instances. *)
Class Abstraction (A : Type) := {
  abs_wf : A -> Prop;
  gamma : A -> Z -> Prop;
  gamma_u64 : forall a v, gamma a v -> is_u64 v
}.
Notation "v '∈γ' a" := (gamma a v) (at level 70).

(** A binary (resp. unary) operation on abstract values over-approximates a
    word operation: invariants are preserved and no result is lost. *)
Definition sound2 `{Abstraction A} (F : A -> A -> A) (f : Z -> Z -> Z) : Prop :=
  forall a b, abs_wf a -> abs_wf b ->
  abs_wf (F a b) /\ (forall x y, x ∈γ a -> y ∈γ b -> f x y ∈γ F a b).
Definition sound1 `{Abstraction A} (F : A -> A) (f : Z -> Z) : Prop :=
  forall a, abs_wf a -> abs_wf (F a) /\ (forall x, x ∈γ a -> f x ∈γ F a).
