(* ===== verification/Tnum.v ===== *)
(** Tracked numbers (src/src/tnum.rs): the record, every operation of the
    [impl Tnum] block, and the membership test the concrete engine uses
    (src/src/concrete.rs, [tnum_contains]).  The theorems show that each
    operation over-approximates the 64-bit word operation it abstracts, that
    [subsumes] decides inclusion, that [from_range] is the best tracked number
    of an interval, and that the multiplication loop terminates. *)
From Stdlib Require Import ZArith Lia List Bool Btauto.
From stdpp Require Import base list.
From S2P Require Import Prelude.
Open Scope Z_scope.

(** * Data and operations *)

Record Tnum := mkTnum { tvalue : Z; tmask : Z }.

Definition tnum_constant (value : Z) : Tnum := mkTnum value 0.
Definition tnum_unknown : Tnum := mkTnum 0 U64_MAX.
Definition tnum_is_constant (t : Tnum) : bool := tmask t =? 0.
Definition tnum_is_unknown (t : Tnum) : bool := tmask t =? U64_MAX.
Definition tnum_known_ones (t : Tnum) : Z := Z.land (tvalue t) (unot 64 (tmask t)).

Definition tnum_add (a b : Tnum) : Tnum :=
  let sm := wadd 64 (tmask a) (tmask b) in
  let sv := wadd 64 (tvalue a) (tvalue b) in
  let sigma := wadd 64 sm sv in
  let chi := Z.lxor sigma sv in
  let mu := Z.lor (Z.lor chi (tmask a)) (tmask b) in
  mkTnum (Z.land sv (unot 64 mu)) mu.

Definition tnum_sub (a b : Tnum) : Tnum :=
  let dv := wsub 64 (tvalue a) (tvalue b) in
  let alpha := wadd 64 dv (tmask a) in
  let beta := wsub 64 dv (tmask b) in
  let chi := Z.lxor alpha beta in
  let mu := Z.lor (Z.lor chi (tmask a)) (tmask b) in
  mkTnum (Z.land dv (unot 64 mu)) mu.

Definition tnum_xor (a b : Tnum) : Tnum :=
  let value := Z.lxor (tvalue a) (tvalue b) in
  let mask := Z.lor (tmask a) (tmask b) in
  mkTnum (Z.land value (unot 64 mask)) mask.

(** [u64::checked_shl(k).unwrap_or(0)] and [u64::checked_shr(k).unwrap_or(0)];
    the count is a [u32]. *)
Definition shl64 (v k : Z) : Z := if k <? 64 then as_u64 (Z.shiftl v k) else 0.
Definition shr64 (v k : Z) : Z := if k <? 64 then Z.shiftr v k else 0.

Definition tnum_lshift (t : Tnum) (k : Z) : Tnum :=
  mkTnum (shl64 (tvalue t) k) (shl64 (tmask t) k).
Definition tnum_rshift (t : Tnum) (k : Z) : Tnum :=
  mkTnum (shr64 (tvalue t) k) (shr64 (tmask t) k).

(** [(v as i64).checked_shr(k)], with the sign fill for counts of 64 and up. *)
Definition sar64 (v k : Z) : Z :=
  if k <? 64 then as_u64 (Z.shiftr (as_i64 v) k)
  else if as_i64 v <? 0 then U64_MAX else 0.
Definition tnum_arshift (t : Tnum) (k : Z) : Tnum :=
  mkTnum (sar64 (tvalue t) k) (sar64 (tmask t) k).

Definition tnum_subreg (t : Tnum) : Tnum :=
  mkTnum (as_u32 (tvalue t)) (as_u32 (tmask t)).

(** [u64::leading_zeros]. *)
Definition leading_zeros (x : Z) : Z := if x =? 0 then 64 else 63 - Z.log2 x.

Definition tnum_from_range (min max : Z) : Tnum :=
  let chi := Z.lxor min max in
  if chi =? 0 then tnum_constant min
  else
    let bits := 64 - leading_zeros chi in
    let mask := if bits =? 64 then U64_MAX else Z.shiftl 1 bits - 1 in
    mkTnum (Z.land min (unot 64 mask)) mask.

Definition tnum_and (a b : Tnum) : Tnum :=
  let alpha := Z.lor (tvalue a) (tmask a) in
  let beta := Z.lor (tvalue b) (tmask b) in
  let value := Z.land (tvalue a) (tvalue b) in
  let mask := Z.lxor (Z.land alpha beta) value in
  mkTnum value mask.

Definition tnum_or (a b : Tnum) : Tnum :=
  let known_one := Z.lor (tnum_known_ones a) (tnum_known_ones b) in
  let known_zero :=
    Z.land (Z.land (unot 64 (tvalue a)) (unot 64 (tmask a)))
           (Z.land (unot 64 (tvalue b)) (unot 64 (tmask b))) in
  mkTnum known_one (unot 64 (Z.lor known_one known_zero)).

Definition tnum_union (a b : Tnum) : Tnum :=
  let v := Z.land (tvalue a) (tvalue b) in
  let mu := Z.lor (Z.lor (Z.lxor (tvalue a) (tvalue b)) (tmask a)) (tmask b) in
  mkTnum (Z.land v (unot 64 mu)) mu.

Definition tnum_intersect (a b : Tnum) : Tnum :=
  let v := Z.lor (tvalue a) (tvalue b) in
  let mu := Z.land (tmask a) (tmask b) in
  mkTnum (Z.land v (unot 64 mu)) mu.

Definition tnum_subsumes (s o : Tnum) : bool :=
  (Z.land (tmask o) (unot 64 (tmask s)) =? 0) &&
  (Z.land (tvalue o) (unot 64 (tmask s)) =? Z.land (tvalue s) (unot 64 (tmask s))).

(** The long multiplication: one iteration of the [while] per unit of fuel,
    [None] when the fuel runs out before the loop's condition is false. *)
Fixpoint tnum_mul_loop (fuel : nat) (acc a b : Tnum) : option Tnum :=
  match fuel with
  | O => None
  | S n =>
      if negb (tvalue a =? 0) || negb (tmask a =? 0) then
        let acc' :=
          if negb (Z.land (tvalue a) 1 =? 0) then tnum_add acc b
          else if negb (Z.land (tmask a) 1 =? 0) then tnum_union acc (tnum_add acc b)
          else acc in
        tnum_mul_loop n acc' (tnum_rshift a 1) (tnum_lshift b 1)
      else Some acc
  end.
Definition tnum_mul_fuel : nat := 65.
Definition tnum_mul (a b : Tnum) : option Tnum :=
  tnum_mul_loop tnum_mul_fuel (tnum_constant 0) a b.

(** The concrete engine's membership test. *)
Definition tnum_contains (t : Tnum) (value : Z) : bool :=
  Z.land value (unot 64 (tmask t)) =? Z.land (tvalue t) (unot 64 (tmask t)).

(** Representation invariant: both fields are 64-bit words and no bit is both
    known one and unknown. *)
Definition tnum_wf (t : Tnum) : Prop :=
  is_u64 (tvalue t) /\ is_u64 (tmask t) /\ Z.land (tvalue t) (tmask t) = 0.

#[global] Instance tnum_eq_dec : EqDecision Tnum.
Proof. solve_decision. Defined.

Definition tnum_mem (t : Tnum) (v : Z) : Prop := is_u64 v /\ tnum_contains t v = true.
#[global] Instance tnum_abstraction : Abstraction Tnum := {
  abs_wf := tnum_wf;
  gamma := tnum_mem;
  gamma_u64 := fun t v H => proj1 H
}.

(** * Bit-level reading of membership *)

Lemma tnum_wf_bit t i :
  tnum_wf t -> Z.testbit (tvalue t) i = true -> Z.testbit (tmask t) i = false.
Proof.
  intros (_ & _ & H) Hv. apply (f_equal (fun x => Z.testbit x i)) in H.
  rewrite Z.land_spec, Z.testbit_0_l, Hv in H. done.
Qed.

Lemma tnum_wf_intro v m :
  is_u64 v -> is_u64 m ->
  (forall i, 0 <= i < 64 -> Z.testbit v i = true -> Z.testbit m i = false) ->
  tnum_wf (mkTnum v m).
Proof.
  intros Hv Hm H. split_and!; simpl; [lia|lia|lia|lia|].
  apply u64_ext; [by apply land_u64|lia|]. intros i Hi.
  rewrite Z.land_spec, Z.testbit_0_l. specialize (H i Hi). bool_cases.
  by specialize (H eq_refl).
Qed.

Lemma tnum_mem_bits t v :
  is_u64 (tvalue t) -> is_u64 (tmask t) ->
  tnum_mem t v <->
  is_u64 v /\ (forall i, 0 <= i < 64 -> Z.testbit (tmask t) i = false ->
               Z.testbit v i = Z.testbit (tvalue t) i).
Proof.
  intros Hv Hm. unfold tnum_mem, tnum_contains. rewrite Z.eqb_eq.
  split; intros [Hw H]; (split; [done|]).
  - intros i Hi Hmi. apply (f_equal (fun x => Z.testbit x i)) in H.
    autorewrite with bits in H. rewrite Hmi in H.
    replace (i <? 64) with true in H by (symmetry; lia). simpl in H.
    by rewrite !andb_true_r in H.
  - apply u64_ext; [by apply land_u64..|]. intros i Hi.
    autorewrite with bits. specialize (H i Hi).
    replace (i <? 64) with true by (symmetry; lia).
    destruct (Z.testbit (tmask t) i); simpl; [by rewrite !andb_false_r|].
    by rewrite H.
Qed.

(** Every well-formed value of the domain has a member. *)
Lemma tnum_mem_value t : tnum_wf t -> tnum_mem t (tvalue t).
Proof. intros (? & ? & _). by apply tnum_mem_bits. Qed.

(** The largest member: all unknown bits set. *)
Lemma tnum_mem_max t : tnum_wf t -> tnum_mem t (Z.lor (tvalue t) (tmask t)).
Proof.
  intros (? & ? & _). apply tnum_mem_bits; [done..|]. split; [by apply lor_u64|].
  intros i Hi Hm. rewrite Z.lor_spec, Hm. btauto.
Qed.

Lemma tnum_lor_add t : tnum_wf t -> Z.lor (tvalue t) (tmask t) = tvalue t + tmask t.
Proof.
  intros (Hv & Hm & H). rewrite <- Z.add_lor_land, H. lia.
Qed.

(** Introduce the bits of two members. *)
Ltac mem_bits H :=
  apply tnum_mem_bits in H; [destruct H as [? H]|solve [eauto with bits]..].

(** Prove a membership bit by bit; the index and its bound are introduced. *)
Ltac prove_mem :=
  apply tnum_mem_bits; simpl;
    [solve [eauto 8 with bits]..|split; [solve [eauto 8 with bits]|intros i Hi Hmi]].

(** Comparison of a bit index with the width. *)
Ltac idx :=
  repeat match goal with
  | H : 0 <= ?i < 64 |- context [?i <? 64] =>
      replace (i <? 64) with true by (symmetry; apply Z.ltb_lt; lia)
  | H : 0 <= ?i < 64, K : context [?i <? 64] |- _ =>
      replace (i <? 64) with true in K by (symmetry; apply Z.ltb_lt; lia)
  end.

(** * Bitwise operations *)

Lemma masked_wf v mu :
  is_u64 v -> is_u64 mu -> tnum_wf (mkTnum (Z.land v (unot 64 mu)) mu).
Proof.
  intros. apply tnum_wf_intro; [by apply land_u64|done|]. intros i Hi.
  autorewrite with bits. idx. bool_cases.
Qed.

Lemma masked_mem v mu x :
  is_u64 v -> is_u64 mu -> is_u64 x ->
  (forall i, 0 <= i < 64 -> Z.testbit mu i = false -> Z.testbit x i = Z.testbit v i) ->
  tnum_mem (mkTnum (Z.land v (unot 64 mu)) mu) x.
Proof.
  intros Hv Hmu Hx H. apply tnum_mem_bits; simpl; [by apply land_u64|done|].
  split; [done|]. intros i Hi Hm. rewrite (H i Hi Hm).
  autorewrite with bits. idx. rewrite Hm. simpl. btauto.
Qed.

Section bitwise.
Context (a b : Tnum) (Ha : tnum_wf a) (Hb : tnum_wf b).

Lemma tnum_fields_u64 :
  is_u64 (tvalue a) /\ is_u64 (tmask a) /\ is_u64 (tvalue b) /\ is_u64 (tmask b).
Proof using Ha Hb. destruct Ha as (?&?&?), Hb as (?&?&?). done. Qed.

Lemma tnum_bit_cases i :
  (Z.testbit (tvalue a) i = true -> Z.testbit (tmask a) i = false) /\
  (Z.testbit (tvalue b) i = true -> Z.testbit (tmask b) i = false).
Proof using Ha Hb. split; intros; by apply tnum_wf_bit. Qed.
End bitwise.

Lemma tnum_mem_bit t x i :
  tnum_wf t -> tnum_mem t x -> 0 <= i < 64 ->
  Z.testbit (tmask t) i = false -> Z.testbit x i = Z.testbit (tvalue t) i.
Proof. intros (?&?&_) Hx. apply tnum_mem_bits in Hx; [|done..]. by apply Hx. Qed.

(** Turn the membership of two operands into facts about one bit. *)
Ltac operand_bits a b Ha Hb Hx Hy i Hi :=
  pose proof (tnum_mem_bit a _ i Ha Hx Hi);
  pose proof (tnum_mem_bit b _ i Hb Hy Hi);
  destruct (tnum_bit_cases a b Ha Hb i).

Ltac split_bits :=
  repeat match goal with
  | H : context [Z.testbit ?x ?i] |- _ => gen_bit x i
  | |- context [Z.testbit ?x ?i] => gen_bit x i
  end;
  repeat match goal with
  | H : ?a = ?a -> _ |- _ => specialize (H eq_refl)
  end; congruence.

Lemma tnum_and_ok : sound2 tnum_and Z.land.
Proof.
  intros a b Ha Hb. destruct (tnum_fields_u64 a b Ha Hb) as (?&?&?&?).
  split.
  - apply tnum_wf_intro; [eauto 8 with bits..|]. intros i Hi.
    autorewrite with bits. destruct (tnum_bit_cases a b Ha Hb i). split_bits.
  - intros x y Hx Hy. pose proof (gamma_u64 _ _ Hx). pose proof (gamma_u64 _ _ Hy).
    prove_mem. autorewrite with bits in *. operand_bits a b Ha Hb Hx Hy i Hi.
    clear Hx Hy Ha Hb. split_bits.
Qed.

Lemma tnum_or_ok : sound2 tnum_or Z.lor.
Proof.
  intros a b Ha Hb. destruct (tnum_fields_u64 a b Ha Hb) as (?&?&?&?).
  unfold tnum_or, tnum_known_ones. split.
  - apply tnum_wf_intro; [eauto 9 with bits..|]. intros i Hi.
    autorewrite with bits. idx. destruct (tnum_bit_cases a b Ha Hb i).
    clear Ha Hb. split_bits.
  - intros x y Hx Hy. pose proof (gamma_u64 _ _ Hx). pose proof (gamma_u64 _ _ Hy).
    apply tnum_mem_bits; simpl; [eauto 9 with bits..|].
    split; [eauto 9 with bits|intros i Hi Hmi].
    autorewrite with bits in *. idx. operand_bits a b Ha Hb Hx Hy i Hi.
    clear Hx Hy Ha Hb. split_bits.
Qed.

Lemma tnum_xor_ok : sound2 tnum_xor Z.lxor.
Proof.
  intros a b Ha Hb. destruct (tnum_fields_u64 a b Ha Hb) as (?&?&?&?). split.
  - apply masked_wf; eauto with bits.
  - intros x y Hx Hy. pose proof (gamma_u64 _ _ Hx). pose proof (gamma_u64 _ _ Hy).
    apply masked_mem; [eauto with bits..|]. intros i Hi Hmi.
    autorewrite with bits in *. operand_bits a b Ha Hb Hx Hy i Hi.
    clear Hx Hy Ha Hb. split_bits.
Qed.

Lemma tnum_union_ok a b :
  tnum_wf a -> tnum_wf b ->
  tnum_wf (tnum_union a b) /\
  (forall x, tnum_mem a x \/ tnum_mem b x -> tnum_mem (tnum_union a b) x).
Proof.
  intros Ha Hb. destruct (tnum_fields_u64 a b Ha Hb) as (?&?&?&?). split.
  - apply masked_wf; eauto with bits.
  - intros x Hx. assert (is_u64 x) by (destruct Hx as [[]|[]]; done).
    apply masked_mem; [eauto with bits..|]. intros i Hi Hmi.
    autorewrite with bits in *. destruct Hx as [Hx|Hx].
    + pose proof (tnum_mem_bit a x i Ha Hx Hi). clear Hx Ha Hb. split_bits.
    + pose proof (tnum_mem_bit b x i Hb Hx Hi). clear Hx Ha Hb. split_bits.
Qed.

Lemma tnum_intersect_ok a b :
  tnum_wf a -> tnum_wf b ->
  tnum_wf (tnum_intersect a b) /\
  (forall x, tnum_mem a x -> tnum_mem b x -> tnum_mem (tnum_intersect a b) x).
Proof.
  intros Ha Hb. destruct (tnum_fields_u64 a b Ha Hb) as (?&?&?&?). split.
  - apply masked_wf; eauto with bits.
  - intros x Hx Hy. assert (is_u64 x) by (destruct Hx; done).
    apply masked_mem; [eauto with bits..|]. intros i Hi Hmi.
    autorewrite with bits in *. operand_bits a b Ha Hb Hx Hy i Hi.
    clear Hx Hy Ha Hb. split_bits.
Qed.

(** * Addition and subtraction *)

(** Below bit [k] a member lies between the all-unknown-bits-clear and the
    all-unknown-bits-set members, also modulo [2^k]. *)
Lemma tnum_mod_bounds t x k :
  tnum_wf t -> tnum_mem t x -> 0 <= k <= 64 ->
  tvalue t mod 2 ^ k <= x mod 2 ^ k <= (tvalue t + tmask t) mod 2 ^ k.
Proof.
  intros Ht Hx Hk. rewrite <- tnum_lor_add by done. split.
  - apply mod_le_bits; [lia|]. intros i Hi Hv.
    rewrite (tnum_mem_bit t x i); auto; [lia|]. by apply tnum_wf_bit.
  - apply mod_le_bits; [lia|]. intros i Hi Hv. rewrite Z.lor_spec.
    destruct (Z.testbit (tmask t) i) eqn:Hm; [btauto|].
    rewrite <- (tnum_mem_bit t x i), Hv; auto; lia.
Qed.

(** At a known bit [k] the two extreme members agree with every member. *)
Lemma tnum_known_bit t x k :
  tnum_wf t -> tnum_mem t x -> 0 <= k < 64 -> Z.testbit (tmask t) k = false ->
  Z.testbit x k = Z.testbit (tvalue t) k /\
  Z.testbit (tvalue t + tmask t) k = Z.testbit (tvalue t) k.
Proof.
  intros Ht Hx Hk Hm. split; [by apply tnum_mem_bit|].
  rewrite <- tnum_lor_add, Z.lor_spec, Hm by done. btauto.
Qed.

Lemma wadd_bit w a b i :
  0 <= i < w -> Z.testbit (wadd w a b) i = Z.testbit (a + b) i.
Proof.
  intros. unfold wadd. rewrite as_u_spec by lia.
  replace (i <? w) with true by (symmetry; lia). done.
Qed.

Lemma wsub_bit w a b i :
  0 <= i < w -> Z.testbit (wsub w a b) i = Z.testbit (a - b) i.
Proof.
  intros. unfold wsub. rewrite as_u_spec by lia.
  replace (i <? w) with true by (symmetry; lia). done.
Qed.

Lemma wadd_wadd w a b c d :
  wadd w (wadd w a b) (wadd w c d) = as_u w ((c + a) + (d + b)).
Proof. unfold wadd, as_u. rewrite <- Zplus_mod. f_equal. lia. Qed.

(** [tnum_add] over-approximates the wrapping sum. *)
Lemma tnum_add_ok : sound2 tnum_add (wadd 64).
Proof.
  intros a b Ha Hb. destruct (tnum_fields_u64 a b Ha Hb) as (?&?&?&?).
  unfold tnum_add. cbv zeta. split.
  - apply masked_wf; unfold wadd; eauto 9 with bits.
  - intros x y Hx Hy. apply masked_mem; [unfold wadd; eauto 9 with bits..|].
    intros k Hk Hmu. autorewrite with bits in Hmu.
    apply orb_false_iff in Hmu as [Hmu Hmb]. apply orb_false_iff in Hmu as [Hchi Hma].
    rewrite wadd_wadd in Hchi. rewrite as_u_spec in Hchi by lia. idx. simpl in Hchi.
    rewrite wadd_bit in Hchi |- * by lia. rewrite wadd_bit by lia.
    rewrite (add_bit (_ + _)), (add_bit (tvalue a) (tvalue b)) in Hchi by lia.
    rewrite (add_bit x), (add_bit (tvalue a) (tvalue b)) by lia.
    destruct (tnum_known_bit a x k Ha Hx Hk Hma) as [Hxk HAk].
    destruct (tnum_known_bit b y k Hb Hy Hk Hmb) as [Hyk HBk].
    rewrite Hxk, Hyk. rewrite HAk, HBk in Hchi.
    pose proof (tnum_mod_bounds a x k Ha Hx ltac:(lia)).
    pose proof (tnum_mod_bounds b y k Hb Hy ltac:(lia)).
    f_equal. revert Hchi. case_tests; try lia; split_bits.
Qed.

Lemma wadd_wsub w a b c : wadd w (wsub w a b) c = as_u w ((a + c) - b).
Proof.
  unfold wadd, wsub, as_u. rewrite Zplus_mod_idemp_l. f_equal. lia.
Qed.
Lemma wsub_wsub w a b c : wsub w (wsub w a b) c = as_u w (a - (b + c)).
Proof.
  unfold wsub, as_u. rewrite Zminus_mod_idemp_l. f_equal. lia.
Qed.

(** [tnum_sub] over-approximates the wrapping difference. *)
Lemma tnum_sub_ok : sound2 tnum_sub (wsub 64).
Proof.
  intros a b Ha Hb. destruct (tnum_fields_u64 a b Ha Hb) as (?&?&?&?).
  unfold tnum_sub. cbv zeta. split.
  - apply masked_wf; unfold wadd, wsub; eauto 9 with bits.
  - intros x y Hx Hy. apply masked_mem; [unfold wadd, wsub; eauto 9 with bits..|].
    intros k Hk Hmu. autorewrite with bits in Hmu.
    apply orb_false_iff in Hmu as [Hmu Hmb]. apply orb_false_iff in Hmu as [Hchi Hma].
    rewrite wadd_wsub, wsub_wsub in Hchi. rewrite !as_u_spec in Hchi by lia.
    idx. simpl in Hchi. rewrite !wsub_bit by lia.
    rewrite (sub_bit (_ + _)), (sub_bit (tvalue a) (_ + _)) in Hchi by lia.
    rewrite (sub_bit x), (sub_bit (tvalue a) (tvalue b)) by lia.
    destruct (tnum_known_bit a x k Ha Hx Hk Hma) as [Hxk HAk].
    destruct (tnum_known_bit b y k Hb Hy Hk Hmb) as [Hyk HBk].
    rewrite Hxk, Hyk. rewrite HAk, HBk in Hchi.
    pose proof (tnum_mod_bounds a x k Ha Hx ltac:(lia)).
    pose proof (tnum_mod_bounds b y k Hb Hy ltac:(lia)).
    f_equal. revert Hchi. case_tests; try lia; split_bits.
Qed.

(** * Shifts and truncation *)

Lemma shl64_bit v k i :
  0 <= k -> 0 <= i < 64 ->
  Z.testbit (shl64 v k) i = (k <? 64) && Z.testbit v (i - k).
Proof.
  intros Hk Hi. unfold shl64. destruct (Z.ltb_spec k 64); simpl; [|apply Z.testbit_0_l].
  rewrite as_u_spec, Z.shiftl_spec by lia. idx. done.
Qed.

Lemma shr64_bit v k i :
  is_u64 v -> 0 <= k -> 0 <= i < 64 -> Z.testbit (shr64 v k) i = Z.testbit v (i + k).
Proof.
  intros Hv Hk Hi. unfold shr64. destruct (Z.ltb_spec k 64).
  - rewrite Z.shiftr_spec by lia. done.
  - rewrite Z.testbit_0_l, testbit_u64_high; lia || done.
Qed.

Lemma sub_2_64_bit v j :
  is_u64 v -> 0 <= j < 64 -> Z.testbit (v - 2 ^ 64) j = Z.testbit v j.
Proof.
  intros Hv Hj. rewrite <- (Z.mod_pow2_bits_low (v - 2 ^ 64) 64) by lia.
  replace ((v - 2 ^ 64) mod 2 ^ 64) with v; [done|].
  rewrite <- (Z_mod_plus_full _ 1), Z.mod_small; lia.
Qed.

Lemma negative_high_bit v j : -2 ^ 63 <= v < 0 -> 63 <= j -> Z.testbit v j = true.
Proof.
  intros. rewrite <- (Z.lnot_involutive v), Z.lnot_spec by lia.
  rewrite (testbit_high 63); [done|unfold Z.lnot; lia|lia].
Qed.

Lemma as_i64_bit v j :
  is_u64 v -> 0 <= j -> Z.testbit (as_i64 v) j = Z.testbit v (Z.min j 63).
Proof.
  intros Hv Hj. destruct (Z.le_gt_cases v I64_MAX).
  - rewrite as_i64_nonneg by lia. destruct (Z.lt_ge_cases j 63); [f_equal; lia|].
    rewrite Z.min_r by lia. rewrite !(testbit_high 63); lia || done.
  - rewrite as_i64_neg by lia. destruct (Z.lt_ge_cases j 63).
    + rewrite sub_2_64_bit by lia. f_equal. lia.
    + rewrite Z.min_r, <- (sub_2_64_bit v 63) by lia.
      rewrite !negative_high_bit; lia || done.
Qed.

Lemma sar64_u64 v k : is_u64 (sar64 v k).
Proof. unfold sar64. pose proof (as_u64_range (Z.shiftr (as_i64 v) k)). case_tests; lia. Qed.

Lemma sar64_bit v k i :
  is_u64 v -> 0 <= k -> 0 <= i < 64 ->
  Z.testbit (sar64 v k) i = Z.testbit v (Z.min (i + k) 63).
Proof.
  intros Hv Hk Hi. unfold sar64. destruct (Z.ltb_spec k 64).
  - rewrite as_u_spec, Z.shiftr_spec, as_i64_bit by lia. idx. done.
  - rewrite Z.min_r by lia. destruct (Z.le_gt_cases v I64_MAX).
    + rewrite as_i64_nonneg by lia. rewrite (testbit_high 63 v) by lia.
      case_tests; [lia|apply Z.testbit_0_l].
    + rewrite as_i64_neg, (proj2 (Z.ltb_lt _ _)) by lia.
      change U64_MAX with (Z.ones 64). rewrite Z.ones_spec_low by lia.
      symmetry. rewrite Z.testbit_true by lia.
      replace (v / 2 ^ 63) with 1; [done|]. apply Z.div_unique with (v - 2 ^ 63); lia.
Qed.

Lemma shl64_u64 v k : is_u64 (shl64 v k).
Proof. unfold shl64. pose proof (as_u64_range (Z.shiftl v k)). case_tests; lia. Qed.

Lemma shr64_u64 v k : is_u64 v -> 0 <= k -> is_u64 (shr64 v k).
Proof.
  intros. unfold shr64. destruct (Z.ltb_spec k 64); [|lia].
  rewrite Z.shiftr_div_pow2 by lia. pose proof (Z.div_pos v (2 ^ k)).
  pose proof (Z.div_le_upper_bound v (2 ^ k) v ltac:(lia) ltac:(nia)). lia.
Qed.
#[export] Hint Resolve sar64_u64 shl64_u64 shr64_u64 : bits.

(** The three shifts, at every count including 64 and more. *)
Lemma tnum_lshift_ok k :
  0 <= k -> sound1 (fun t => tnum_lshift t k) (fun x => shl64 x k).
Proof.
  intros Hk t Ht. pose proof Ht as (?&?&_). split.
  - apply tnum_wf_intro; [eauto with bits..|]. intros i Hi. rewrite !shl64_bit by lia.
    destruct (k <? 64); simpl; [|done]. by apply tnum_wf_bit.
  - intros x Hx. prove_mem. rewrite !shl64_bit in * by lia.
    destruct (Z.ltb_spec k 64); simpl in *; [|done].
    destruct (Z.lt_ge_cases i k).
    + rewrite !Z.testbit_neg_r by lia. done.
    + apply (tnum_mem_bit t); auto; lia.
Qed.

Lemma tnum_rshift_ok k :
  0 <= k -> sound1 (fun t => tnum_rshift t k) (fun x => shr64 x k).
Proof.
  intros Hk t Ht. pose proof Ht as (?&?&_). split.
  - apply tnum_wf_intro; [eauto with bits..|]. intros i Hi. rewrite !shr64_bit by lia.
    by apply tnum_wf_bit.
  - intros x Hx. pose proof (gamma_u64 _ _ Hx). prove_mem.
    rewrite !shr64_bit in * by lia. destruct (Z.lt_ge_cases (i + k) 64).
    + apply (tnum_mem_bit t); auto; lia.
    + rewrite !testbit_u64_high; lia || done.
Qed.

Lemma tnum_arshift_ok k :
  0 <= k -> sound1 (fun t => tnum_arshift t k) (fun x => sar64 x k).
Proof.
  intros Hk t Ht. pose proof Ht as (?&?&_). split.
  - apply tnum_wf_intro; [eauto with bits..|]. intros i Hi. rewrite !sar64_bit by lia.
    by apply tnum_wf_bit.
  - intros x Hx. pose proof (gamma_u64 _ _ Hx). prove_mem.
    rewrite !sar64_bit in * by lia. apply (tnum_mem_bit t); auto; lia.
Qed.

Lemma as_u32_u64 v : is_u64 (as_u32 v).
Proof. pose proof (as_u32_range v). lia. Qed.
#[export] Hint Resolve as_u32_u64 : bits.

Lemma tnum_subreg_ok : sound1 tnum_subreg as_u32.
Proof.
  intros t Ht. pose proof Ht as (?&?&_). split.
  - apply tnum_wf_intro; [eauto with bits..|]. intros i Hi.
    autorewrite with bits. destruct (i <? 32); simpl; [|done]. by apply tnum_wf_bit.
  - intros x Hx. prove_mem. autorewrite with bits in *.
    destruct (i <? 32); simpl in *; [|done]. by apply (tnum_mem_bit t).
Qed.

(** * Intervals *)

Lemma log2_bits x i : 0 < x -> Z.log2 x < i -> Z.testbit x i = false.
Proof. intros. apply Z.bits_above_log2; lia. Qed.

(** The highest bit at which the ends of an interval differ. *)
Section from_range.
Context (lo hi : Z) (Hlo : is_u64 lo) (Hhi : is_u64 hi) (Hle : lo <= hi).
Let chi := Z.lxor lo hi.
Let h := Z.log2 chi.

Lemma chi_pos : chi <> 0 -> 0 < chi.
Proof using Hlo Hhi. intros. assert (0 <= chi) by (apply Z.lxor_nonneg; lia). lia. Qed.

Lemma chi_log2 : chi <> 0 -> 0 <= h < 64.
Proof using Hlo Hhi.
  intros Hc. pose proof (chi_pos Hc). split; [apply Z.log2_nonneg|].
  apply Z.log2_lt_pow2; [done|].
  pose proof (lxor_u64 lo hi Hlo Hhi). fold chi in H0. lia.
Qed.

(** Above bit [h] every value of the interval has the bits of [lo]. *)
Lemma interval_high_bits v i :
  chi <> 0 -> lo <= v <= hi -> h < i -> Z.testbit v i = Z.testbit lo i.
Proof using Hlo Hhi Hle.
  intros Hc Hv Hi. pose proof (chi_log2 Hc). pose proof (chi_pos Hc).
  assert (Heq : Z.shiftr lo (h + 1) = Z.shiftr hi (h + 1)).
  { apply Z.lxor_eq. rewrite <- Z.shiftr_lxor. apply Z.bits_inj'. intros n Hn.
    rewrite Z.shiftr_spec, Z.testbit_0_l by lia. apply log2_bits; [done|].
    fold chi h. lia. }
  rewrite !Z.shiftr_div_pow2 in Heq by lia.
  assert (Hmid : v / 2 ^ (h + 1) = lo / 2 ^ (h + 1)).
  { pose proof (Z.div_le_mono lo v (2 ^ (h + 1)) ltac:(lia) ltac:(lia)).
    pose proof (Z.div_le_mono v hi (2 ^ (h + 1)) ltac:(lia) ltac:(lia)). lia. }
  replace i with (i - (h + 1) + (h + 1)) by lia.
  rewrite <- !Z.div_pow2_bits, Hmid by lia. done.
Qed.

(** At bit [h] the lower end has a zero and the upper end a one. *)
Lemma interval_split_bit :
  chi <> 0 -> Z.testbit lo h = false /\ Z.testbit hi h = true.
Proof using Hlo Hhi Hle.
  intros Hc. pose proof (chi_log2 Hc). pose proof (chi_pos Hc).
  assert (Hx : Z.testbit chi h = true) by (apply Z.bit_log2; lia).
  unfold chi in Hx. rewrite Z.lxor_spec in Hx.
  destruct (Z.testbit lo h) eqn:Hl, (Z.testbit hi h) eqn:Hr; try done.
  (* lo has the one: lo > hi *)
  exfalso. apply (Z.lt_irrefl lo). eapply Z.le_lt_trans; [exact Hle|].
  rewrite (Z.div_mod hi (2 ^ (h + 1))), (Z.div_mod lo (2 ^ (h + 1))) by lia.
  assert (Hq : hi / 2 ^ (h + 1) = lo / 2 ^ (h + 1)).
  { apply Z.bits_inj'. intros n Hn. rewrite !Z.div_pow2_bits by lia.
    apply interval_high_bits; [done|lia|lia]. }
  rewrite Hq. apply Zplus_lt_compat_l.
  apply Z.lt_le_trans with (2 ^ h).
  - apply (bits_range h); [lia|]. intros i Hi.
    destruct (Z.eq_dec i h) as [->|]; [rewrite Z.mod_pow2_bits_low by lia; done|].
    rewrite Z.mod_pow2_bits_high; lia || done.
  - rewrite <- (Z.mod_small (2 ^ h) (2 ^ (h + 1))).
    + apply mod_le_bits; [lia|]. intros i Hi.
      rewrite Z.pow2_bits_eqb by lia. intros Hb. apply Z.eqb_eq in Hb as <-. done.
    + split; [lia|]. apply Z.pow_lt_mono_r; lia.
Qed.
End from_range.

Lemma range_mask_bit n i :
  0 <= n <= 64 -> 0 <= i < 64 ->
  Z.testbit (if n =? 64 then U64_MAX else Z.shiftl 1 n - 1) i = (i <? n).
Proof.
  intros Hn Hi. replace (if n =? 64 then _ else _) with (Z.ones n).
  - apply Z.testbit_ones_nonneg; lia.
  - destruct (Z.eqb_spec n 64) as [->|]; [done|]. rewrite Z.ones_equiv, Z.shiftl_mul_pow2; lia.
Qed.

Lemma range_mask_u64 n :
  0 <= n <= 64 -> is_u64 (if n =? 64 then U64_MAX else Z.shiftl 1 n - 1).
Proof.
  intros. destruct (Z.eqb_spec n 64); [lia|]. rewrite Z.shiftl_mul_pow2 by lia.
  pose proof (Z.pow_le_mono_r 2 n 63). lia.
Qed.

Lemma tnum_from_range_ok lo hi :
  is_u64 lo -> is_u64 hi -> lo <= hi ->
  tnum_wf (tnum_from_range lo hi) /\
  (forall v, lo <= v <= hi -> tnum_mem (tnum_from_range lo hi) v).
Proof.
  intros Hlo Hhi Hle. unfold tnum_from_range.
  destruct (Z.eqb_spec (Z.lxor lo hi) 0) as [Hc|Hc].
  - apply Z.lxor_eq in Hc as <-. split.
    + apply tnum_wf_intro; [lia..|]. intros. apply Z.testbit_0_l.
    + intros v Hv. replace v with lo by lia. by apply tnum_mem_bits.
  - pose proof (chi_log2 lo hi Hlo Hhi Hc) as Hh.
    unfold leading_zeros. rewrite (proj2 (Z.eqb_neq _ _) Hc).
    set (h := Z.log2 (Z.lxor lo hi)) in *. replace (64 - (63 - h)) with (h + 1) by lia.
    pose proof (range_mask_u64 (h + 1) ltac:(lia)) as Hm. split.
    + by apply masked_wf.
    + intros v Hv. apply masked_mem; [lia|done|lia|]. intros i Hi Hmi.
      rewrite range_mask_bit in Hmi by lia. apply Z.ltb_ge in Hmi.
      apply (interval_high_bits lo hi); [done..|]. fold h. lia.
Qed.

Lemma tnum_subsumes_bits s o :
  tnum_wf s -> tnum_wf o ->
  tnum_subsumes s o = true <->
  (forall i, 0 <= i < 64 -> Z.testbit (tmask s) i = false ->
   Z.testbit (tmask o) i = false /\ Z.testbit (tvalue o) i = Z.testbit (tvalue s) i).
Proof.
  intros Hs Ho. destruct (tnum_fields_u64 s o Hs Ho) as (?&?&?&?).
  unfold tnum_subsumes. rewrite andb_true_iff, !Z.eqb_eq. split.
  - intros [H3 H4] i Hi Hm.
    apply (f_equal (fun x => Z.testbit x i)) in H3, H4.
    autorewrite with bits in H3, H4. idx. rewrite Hm in H3, H4. simpl in *.
    rewrite !andb_true_r in *. done.
  - intros Hall. split; apply u64_ext; eauto with bits; try lia;
      intros i Hi; specialize (Hall i Hi);
      autorewrite with bits; idx; destruct (Z.testbit (tmask s) i); simpl;
      rewrite ?andb_false_r, ?andb_true_r; try done; by apply Hall.
Qed.

(** [subsumes] decides inclusion of the described sets. *)
Lemma tnum_subsumes_iff s o :
  tnum_wf s -> tnum_wf o ->
  tnum_subsumes s o = true <-> (forall v, tnum_mem o v -> tnum_mem s v).
Proof.
  intros Hs Ho. destruct (tnum_fields_u64 s o Hs Ho) as (?&?&?&?).
  rewrite tnum_subsumes_bits by done. split.
  - intros Hall v Hv. pose proof Hv as [Hu _]. apply tnum_mem_bits; [done..|].
    split; [done|]. intros i Hi Hm. destruct (Hall i Hi Hm) as [Hmo <-].
    by apply (tnum_mem_bit o).
  - intros Hall i Hi Hm.
    pose proof (Hall _ (tnum_mem_value o Ho)) as Hv.
    pose proof (Hall _ (tnum_mem_max o Ho)) as Hx.
    apply (tnum_mem_bit s _ i Hs) in Hv, Hx; [|done..]. rewrite Z.lor_spec in Hx.
    rewrite <- Hv in *. pose proof (tnum_wf_bit o i Ho).
    clear - Hv Hx H3. destruct (Z.testbit (tmask o) i), (Z.testbit (tvalue o) i);
      simpl in *; auto; by specialize (H3 eq_refl).
Qed.

(** Subtracting one from a multiple of [2^i] flips bit [i]. *)
Lemma pred_flips_bit q i :
  0 <= i -> Z.testbit (q * 2 ^ i - 1) i = negb (Z.testbit (q * 2 ^ i) i).
Proof.
  intros Hi. rewrite !div_pow2_parity, Z.div_mul by lia.
  replace ((q * 2 ^ i - 1) / 2 ^ i) with (q - 1)
    by (apply Z.div_unique with (2 ^ i - 1); lia).
  rewrite Z.odd_sub. simpl (Z.odd 1). btauto.
Qed.

(** Below the highest differing bit the interval has two members that differ. *)
Lemma interval_differs lo hi i :
  is_u64 lo -> is_u64 hi -> lo <= hi -> Z.lxor lo hi <> 0 ->
  0 <= i <= Z.log2 (Z.lxor lo hi) ->
  exists p, lo <= p - 1 /\ p <= hi /\ Z.testbit (p - 1) i = negb (Z.testbit p i).
Proof.
  intros Hlo Hhi Hle Hc Hi. pose proof (chi_log2 lo hi Hlo Hhi Hc) as Hh.
  destruct (interval_split_bit lo hi Hlo Hhi Hle Hc) as [Hl0 Hh1].
  set (h := Z.log2 (Z.lxor lo hi)) in *. exists (hi / 2 ^ h * 2 ^ h).
  assert (lo / 2 ^ h < hi / 2 ^ h).
  { pose proof (Z.div_le_mono lo hi (2 ^ h) ltac:(lia) Hle).
    assert (lo / 2 ^ h <> hi / 2 ^ h); [|lia]. intros Heq.
    rewrite div_pow2_parity, Heq, <- div_pow2_parity, Hh1 in Hl0 by lia. done. }
  pose proof (Z.mul_succ_div_gt lo (2 ^ h) ltac:(lia)).
  pose proof (Z.mul_div_le hi (2 ^ h) ltac:(lia)).
  split_and!; [nia|lia|].
  replace (hi / 2 ^ h * 2 ^ h) with (hi / 2 ^ h * 2 ^ (h - i) * 2 ^ i).
  - apply pred_flips_bit. lia.
  - rewrite <- Z.mul_assoc, <- Z.pow_add_r by lia. do 2 f_equal. lia.
Qed.

(** No tracked number that contains the whole interval is more precise. *)
Lemma tnum_from_range_best lo hi t :
  is_u64 lo -> is_u64 hi -> lo <= hi -> tnum_wf t ->
  (forall v, lo <= v <= hi -> tnum_mem t v) ->
  tnum_subsumes t (tnum_from_range lo hi) = true.
Proof.
  intros Hlo Hhi Hle Ht Hall. destruct (tnum_from_range_ok lo hi Hlo Hhi Hle) as [Hr _].
  apply tnum_subsumes_iff; [done..|]. intros v Hv. pose proof Hv as [Hu _].
  pose proof Ht as (?&?&_).
  apply tnum_mem_bits; [done..|]. split; [done|]. intros i Hi Hm.
  assert (Hbl := tnum_mem_bit t lo i Ht (Hall lo ltac:(lia)) Hi Hm).
  rewrite <- Hbl. revert Hv Hr. unfold tnum_from_range.
  destruct (Z.eqb_spec (Z.lxor lo hi) 0) as [Hc|Hc]; intros Hv Hr.
  { apply (tnum_mem_bit (tnum_constant lo)); [done..|apply Z.testbit_0_l]. }
  pose proof (chi_log2 lo hi Hlo Hhi Hc) as Hh.
  unfold leading_zeros in *. rewrite (proj2 (Z.eqb_neq _ _) Hc) in *.
  destruct (Z.le_gt_cases i (Z.log2 (Z.lxor lo hi))) as [Hih|Hih].
  - destruct (interval_differs lo hi i Hlo Hhi Hle Hc ltac:(lia)) as (p & Hp1 & Hp2 & Hd).
    exfalso. rewrite (tnum_mem_bit t p i Ht (Hall p ltac:(lia)) Hi Hm) in Hd.
    rewrite (tnum_mem_bit t (p - 1) i Ht (Hall (p - 1) ltac:(lia)) Hi Hm) in Hd.
    destruct (Z.testbit (tvalue t) i); done.
  - set (h := Z.log2 (Z.lxor lo hi)) in *. replace (64 - (63 - h)) with (h + 1) in * by lia.
    assert (Hmi : Z.testbit (if h + 1 =? 64 then U64_MAX else Z.shiftl 1 (h + 1) - 1) i = false)
      by (rewrite range_mask_bit by lia; lia).
    rewrite (tnum_mem_bit _ v i Hr Hv Hi Hmi). simpl.
    rewrite Z.land_spec, unot_spec, Hmi by lia. idx. simpl. btauto.
Qed.

(** * Multiplication *)

Lemma rshift_one v : is_u64 v -> shr64 v 1 = v / 2.
Proof. intros. unfold shr64. change (1 <? 64) with true. rewrite Z.shiftr_div_pow2 by lia. done. Qed.

Lemma land_one v : Z.land v 1 = if Z.testbit v 0 then 1 else 0.
Proof.
  apply Z.bits_inj'. intros i Hi. rewrite Z.land_spec.
  destruct (Z.eq_dec i 0) as [->|].
  - destruct (Z.testbit v 0); done.
  - replace (Z.testbit 1 i) with false.
    + rewrite andb_false_r. destruct (Z.testbit v 0).
      * symmetry. apply (testbit_high 1); lia.
      * symmetry. apply Z.testbit_0_l.
    + symmetry. apply (testbit_high 1); lia.
Qed.

Lemma odd_part v : v = 2 * (v / 2) + (if Z.testbit v 0 then 1 else 0).
Proof. rewrite Z.bit0_odd, (Zdiv2_odd_eqn v) at 1. rewrite Z.div2_div. lia. Qed.

(** One step of the long multiplication on the concrete side. *)
Lemma mul_step c x y :
  is_u64 x ->
  wadd 64 (if Z.testbit x 0 then wadd 64 c y else c) (wmul 64 (shr64 x 1) (shl64 y 1)) =
  wadd 64 c (wmul 64 x y).
Proof.
  intros Hx. rewrite rshift_one by done. unfold wadd, wmul, shl64, as_u.
  change (1 <? 64) with true. cbv iota. rewrite Z.shiftl_mul_pow2 by lia.
  rewrite Zmult_mod_idemp_r, !Zplus_mod_idemp_r.
  replace (c + x * y) with (c + (2 * (x / 2) + (if Z.testbit x 0 then 1 else 0)) * y)
    by (rewrite <- odd_part; done).
  destruct (Z.testbit x 0); rewrite ?Zplus_mod_idemp_l; f_equal; lia.
Qed.

Lemma wadd_comm w a b : wadd w a b = wadd w b a.
Proof. unfold wadd. f_equal. lia. Qed.

(** The accumulator after one iteration of the loop covers the concrete step,
    whichever of the three branches the loop takes. *)
Lemma tnum_mul_acc acc a b c x y :
  tnum_wf acc -> tnum_wf a -> tnum_wf b ->
  tnum_mem acc c -> tnum_mem a x -> tnum_mem b y ->
  let acc' :=
    if negb (Z.land (tvalue a) 1 =? 0) then tnum_add acc b
    else if negb (Z.land (tmask a) 1 =? 0) then tnum_union acc (tnum_add acc b)
    else acc in
  tnum_wf acc' /\ tnum_mem acc' (if Z.testbit x 0 then wadd 64 c y else c).
Proof.
  intros Hacc Ha Hb Hc Hx Hy. destruct (tnum_add_ok acc b Hacc Hb) as [Hs Hsum].
  pose proof (tnum_mem_bit a x 0 Ha Hx ltac:(lia)) as Hbit.
  pose proof (tnum_wf_bit a 0 Ha) as Hdisj.
  destruct (tnum_union_ok acc _ Hacc Hs) as [Hu Hun].
  rewrite !land_one. destruct (Z.testbit (tvalue a) 0); cbn -[Z.testbit].
  - rewrite Hbit by auto. split; [done|]. by apply Hsum.
  - destruct (Z.testbit (tmask a) 0); cbn -[Z.testbit].
    + split; [done|]. apply Hun. destruct (Z.testbit x 0); [right|by left]. by apply Hsum.
    + rewrite Hbit by done. done.
Qed.

Lemma tnum_mul_loop_ok fuel acc a b r :
  tnum_wf acc -> tnum_wf a -> tnum_wf b ->
  tnum_mul_loop fuel acc a b = Some r ->
  (exists c, tnum_mem acc c) ->
  tnum_wf r /\
  (forall c x y, tnum_mem acc c -> tnum_mem a x -> tnum_mem b y ->
   tnum_mem r (wadd 64 c (wmul 64 x y))).
Proof.
  revert acc a b. induction fuel as [|n IH]; intros acc a b Hacc Ha Hb Hr Hne; [done|].
  simpl in Hr. destruct (tnum_rshift_ok 1 ltac:(lia) a Ha) as [Ha' Hax].
  destruct (tnum_lshift_ok 1 ltac:(lia) b Hb) as [Hb' Hby].
  destruct (negb (tvalue a =? 0) || negb (tmask a =? 0)) eqn:Hz.
  - destruct Hne as [c0 Hc0].
    destruct (tnum_mul_acc acc a b c0 _ _ Hacc Ha Hb Hc0 (tnum_mem_value a Ha)
      (tnum_mem_value b Hb)) as [Hacc' Hc0'].
    destruct (IH _ _ _ Hacc' Ha' Hb' Hr ltac:(eauto)) as [Hwf Hin]. split; [done|].
    intros c x y Hc Hx Hy. rewrite <- mul_step by (by destruct Hx).
    apply Hin; [|by apply Hax|by apply Hby]. by apply tnum_mul_acc.
  - injection Hr as <-. split; [done|]. intros c x y Hc Hx Hy. bool_hyps.
    assert (x = 0) as ->.
    { pose proof Hx as [Hu _]. apply u64_ext; [done|lia|]. intros i Hi.
      rewrite (tnum_mem_bit a x i Ha Hx Hi), H, Z.testbit_0_l; [done|].
      rewrite H0. apply Z.testbit_0_l. }
    pose proof Hc as [Hcu _]. unfold wadd, wmul. rewrite Z.mul_0_l, (as_u64_id 0), Z.add_0_r by lia.
    by rewrite as_u64_id.
Qed.

(** Termination: [n] halvings empty fields below [2^n]. *)
Lemma tnum_mul_loop_total n acc a b :
  is_u64 (tvalue a) -> is_u64 (tmask a) ->
  tvalue a < 2 ^ Z.of_nat n -> tmask a < 2 ^ Z.of_nat n ->
  is_Some (tnum_mul_loop (S n) acc a b).
Proof.
  revert acc a b. induction n as [|n IH]; intros acc a b Hv Hm Hv' Hm'.
  - simpl in *. replace (tvalue a) with 0 by lia. replace (tmask a) with 0 by lia.
    simpl. eauto.
  - cbn [tnum_mul_loop]. destruct (negb (tvalue a =? 0) || negb (tmask a =? 0)); [|eauto].
    rewrite Nat2Z.inj_succ, Z.pow_succ_r in Hv', Hm' by lia.
    apply IH; simpl; rewrite rshift_one by done.
    + div_lia.
    + div_lia.
    + apply Z.div_lt_upper_bound; lia.
    + apply Z.div_lt_upper_bound; lia.
Qed.

Lemma tnum_constant_ok v :
  is_u64 v -> tnum_wf (tnum_constant v) /\ (forall x, tnum_mem (tnum_constant v) x <-> x = v).
Proof.
  intros Hv. assert (Hwf : tnum_wf (tnum_constant v)).
  { apply tnum_wf_intro; [lia..|]. intros. apply Z.testbit_0_l. }
  split; [done|]. intros x. split; [|intros ->; by apply tnum_mem_value].
  intros Hx. pose proof Hx as [Hu _]. apply u64_ext; [done..|]. intros i Hi.
  rewrite (tnum_mem_bit _ x i Hwf Hx Hi); [done|apply Z.testbit_0_l].
Qed.

Lemma tnum_unknown_ok :
  tnum_wf tnum_unknown /\ (forall x, is_u64 x -> tnum_mem tnum_unknown x).
Proof.
  split; [done|]. intros x Hx. apply tnum_mem_bits; [done..|]. split; [done|].
  intros i Hi Hm. exfalso. change (tmask tnum_unknown) with (Z.ones 64) in Hm.
  by rewrite Z.ones_spec_low in Hm by lia.
Qed.

(** Exactly one member means a constant. *)
Lemma tnum_is_constant_iff t :
  tnum_wf t -> tnum_is_constant t = true <-> (forall x, tnum_mem t x <-> x = tvalue t).
Proof.
  intros Ht. unfold tnum_is_constant. rewrite Z.eqb_eq. split.
  - intros Hm x. destruct t as [v m]; simpl in *. subst m.
    destruct Ht as (?&?&_). by apply (tnum_constant_ok v).
  - intros Hall. pose proof (proj1 (Hall _) (tnum_mem_max t Ht)) as Heq.
    rewrite tnum_lor_add in Heq by done. lia.
Qed.

(** * Properties *)

(** Addition and subtraction of tracked numbers lose no result: for members
    of the operands the wrapping sum and difference of the words are members of
    the abstract sum and difference, whose representation invariant holds. *)
Theorem tnum_arith_sound (a b : Tnum) (x y : Z) :
  tnum_wf a -> tnum_wf b -> tnum_mem a x -> tnum_mem b y ->
  (tnum_wf (tnum_add a b) /\ tnum_mem (tnum_add a b) (wadd 64 x y)) /\
  (tnum_wf (tnum_sub a b) /\ tnum_mem (tnum_sub a b) (wsub 64 x y)).
Proof.
  intros Ha Hb Hx Hy. destruct (tnum_add_ok a b Ha Hb) as [? Hadd].
  destruct (tnum_sub_ok a b Ha Hb) as [? Hsub].
  split; (split; [done|]); [by apply Hadd|by apply Hsub].
Qed.

Lemma tnum_arith_sound_witness :
  let a := mkTnum 1 2 in let b := mkTnum 4 3 in
  (tnum_wf (tnum_add a b) /\ tnum_mem (tnum_add a b) (wadd 64 3 6)) /\
  (tnum_wf (tnum_sub a b) /\ tnum_mem (tnum_sub a b) (wsub 64 3 6)).
Proof.
  intros a b. apply (tnum_arith_sound a b 3 6);
    unfold a, b, tnum_wf, tnum_mem; vm_compute; intuition discriminate.
Defined.

(** The all-zero and all-one choices of unknown bits are both members. *)
Lemma tnum_extremes t :
  tnum_wf t -> tnum_mem t (tvalue t) /\ tnum_mem t (tvalue t + tmask t).
Proof.
  intros Ht. split; [by apply tnum_mem_value|]. rewrite <- tnum_lor_add by done.
  by apply tnum_mem_max.
Qed.

(** A member with an unknown bit flipped, the others as in [tvalue]. *)
Lemma tnum_flip t k :
  tnum_wf t -> 0 <= k < 64 -> Z.testbit (tmask t) k = true ->
  tnum_mem t (Z.lor (tvalue t) (2 ^ k)) /\
  Z.lor (tvalue t) (2 ^ k) = tvalue t + 2 ^ k.
Proof.
  intros Ht Hk Hm. pose proof Ht as (?&?&_).
  assert (Hv : Z.testbit (tvalue t) k = false).
  { destruct (Z.testbit (tvalue t) k) eqn:E; [|done]. apply tnum_wf_bit in E; [congruence|done]. }
  assert (0 < 2 ^ k < 2 ^ 64) by (split; [lia|apply Z.pow_lt_mono_r; lia]). split.
  - apply tnum_mem_bits; [done..|]. split; [apply lor_u64; lia|].
    intros i Hi Hmi. rewrite Z.lor_spec, Z.pow2_bits_eqb by lia.
    destruct (Z.eqb_spec k i) as [->|]; [congruence|]. btauto.
  - rewrite <- Z.add_lor_land.
    replace (Z.land (tvalue t) (2 ^ k)) with 0; [lia|].
    symmetry. apply Z.bits_inj'. intros i Hi.
    rewrite Z.land_spec, Z.pow2_bits_eqb, Z.testbit_0_l by lia.
    destruct (Z.eqb_spec k i) as [<-|]; [by rewrite Hv|]. btauto.
Qed.

(** Adding or subtracting [2^k] flips bit [k] of a 64-bit word. *)
Lemma add_pow2_flips x k :
  0 <= k < 64 -> Z.testbit (as_u64 (x + 2 ^ k)) k = negb (Z.testbit (as_u64 x) k).
Proof.
  intros. rewrite !as_u_spec, add_bit, Z.pow2_bits_true by lia. idx. simpl.
  replace (2 ^ k mod 2 ^ k) with 0 by (symmetry; apply Z.mod_same; lia).
  pose proof (Z.mod_pos_bound x (2 ^ k)).
  rewrite (proj2 (Z.leb_gt _ _)) by lia. destruct (Z.testbit x k); done.
Qed.

Lemma sub_pow2_flips x k :
  0 <= k < 64 -> Z.testbit (as_u64 (x - 2 ^ k)) k = negb (Z.testbit (as_u64 x) k).
Proof.
  intros. replace x with (x - 2 ^ k + 2 ^ k) at 2 by lia.
  rewrite add_pow2_flips by lia. by rewrite negb_involutive.
Qed.

(** Two members that differ at bit [k] make the bit unknown. *)
Lemma tnum_mem_differ t x y k :
  tnum_wf t -> tnum_mem t x -> tnum_mem t y -> 0 <= k < 64 ->
  Z.testbit x k <> Z.testbit y k -> Z.testbit (tmask t) k = true.
Proof.
  intros Ht Hx Hy Hk Hd. destruct (Z.testbit (tmask t) k) eqn:Hm; [done|].
  by rewrite (tnum_mem_bit t x k), (tnum_mem_bit t y k) in Hd.
Qed.

(** If every known bit of [t] is known with that value in [masked v mu], [t]
    subsumes it. *)
Lemma masked_subsumed t v mu :
  tnum_wf t -> is_u64 v -> is_u64 mu ->
  (forall i, 0 <= i < 64 -> Z.testbit (tmask t) i = false ->
   Z.testbit mu i = false /\ Z.testbit v i = Z.testbit (tvalue t) i) ->
  tnum_subsumes t (mkTnum (Z.land v (unot 64 mu)) mu) = true.
Proof.
  intros Ht Hv Hmu H. apply tnum_subsumes_bits; [done|by apply masked_wf|].
  intros i Hi Hm. simpl. destruct (H i Hi Hm) as [Hmui <-]. split; [done|].
  rewrite Z.land_spec, unot_spec, Hmui by lia. idx. simpl. btauto.
Qed.

Section best.
Context (a b t : Tnum) (Ha : tnum_wf a) (Hb : tnum_wf b) (Ht : tnum_wf t).

Lemma sum_unknown_bits k :
  (forall x y, tnum_mem a x -> tnum_mem b y -> tnum_mem t (wadd 64 x y)) ->
  0 <= k < 64 -> Z.testbit (tmask t) k = false ->
  Z.testbit (tmask a) k = false /\ Z.testbit (tmask b) k = false.
Proof using Ha Hb Ht.
  intros H Hk Hm. pose proof (tnum_mem_value a Ha) as Hva. pose proof (tnum_mem_value b Hb) as Hvb.
  split; [destruct (Z.testbit (tmask a) k) eqn:E|destruct (Z.testbit (tmask b) k) eqn:E]; try done;
    exfalso; assert (true = false); try done; rewrite <- Hm; symmetry.
  - destruct (tnum_flip a k Ha Hk E) as [Hf Hsum].
    apply (tnum_mem_differ t _ _ k Ht (H _ _ Hva Hvb) (H _ _ Hf Hvb) Hk).
    rewrite Hsum. unfold wadd. replace (tvalue a + 2 ^ k + tvalue b) with (tvalue a + tvalue b + 2 ^ k) by lia.
    rewrite add_pow2_flips by lia. apply not_eq_sym, no_fixpoint_negb.
  - destruct (tnum_flip b k Hb Hk E) as [Hf Hsum].
    apply (tnum_mem_differ t _ _ k Ht (H _ _ Hva Hvb) (H _ _ Hva Hf) Hk).
    rewrite Hsum. unfold wadd. rewrite Z.add_assoc.
    rewrite add_pow2_flips by lia. apply not_eq_sym, no_fixpoint_negb.
Qed.

Lemma difference_unknown_bits k :
  (forall x y, tnum_mem a x -> tnum_mem b y -> tnum_mem t (wsub 64 x y)) ->
  0 <= k < 64 -> Z.testbit (tmask t) k = false ->
  Z.testbit (tmask a) k = false /\ Z.testbit (tmask b) k = false.
Proof using Ha Hb Ht.
  intros H Hk Hm. pose proof (tnum_mem_value a Ha) as Hva. pose proof (tnum_mem_value b Hb) as Hvb.
  split; [destruct (Z.testbit (tmask a) k) eqn:E|destruct (Z.testbit (tmask b) k) eqn:E]; try done;
    exfalso; assert (true = false); try done; rewrite <- Hm; symmetry.
  - destruct (tnum_flip a k Ha Hk E) as [Hf Hsum].
    apply (tnum_mem_differ t _ _ k Ht (H _ _ Hva Hvb) (H _ _ Hf Hvb) Hk).
    rewrite Hsum. unfold wsub. replace (tvalue a + 2 ^ k - tvalue b) with (tvalue a - tvalue b + 2 ^ k) by lia.
    rewrite add_pow2_flips by lia. apply not_eq_sym, no_fixpoint_negb.
  - destruct (tnum_flip b k Hb Hk E) as [Hf Hsum].
    apply (tnum_mem_differ t _ _ k Ht (H _ _ Hva Hvb) (H _ _ Hva Hf) Hk).
    rewrite Hsum. unfold wsub. rewrite Z.sub_add_distr.
    rewrite sub_pow2_flips by lia. apply not_eq_sym, no_fixpoint_negb.
Qed.
End best.

(** Addition and subtraction are optimal: a well-formed tracked number that
    describes every sum (every difference) of members of the operands subsumes
    the result of [add] ([sub]). *)
Theorem tnum_arith_best (a b t : Tnum) :
  tnum_wf a -> tnum_wf b -> tnum_wf t ->
  ((forall x y, tnum_mem a x -> tnum_mem b y -> tnum_mem t (wadd 64 x y)) ->
   tnum_subsumes t (tnum_add a b) = true) /\
  ((forall x y, tnum_mem a x -> tnum_mem b y -> tnum_mem t (wsub 64 x y)) ->
   tnum_subsumes t (tnum_sub a b) = true).
Proof.
  intros Ha Hb Ht. destruct (tnum_fields_u64 a b Ha Hb) as (?&?&?&?).
  destruct (tnum_extremes a Ha) as [Ha0 Ha1], (tnum_extremes b Hb) as [Hb0 Hb1].
  split; intros Hall; apply masked_subsumed;
    try (repeat first [done|apply lor_u64|apply lxor_u64|apply as_u64_range]);
    intros k Hk Hm.
  - destruct (sum_unknown_bits a b t Ha Hb Ht k Hall Hk Hm) as [Hma Hmb].
    rewrite wadd_wadd. rewrite !Z.lor_spec, Z.lxor_spec, Hma, Hmb.
    change (as_u64 _) with (wadd 64 (tvalue a + tmask a) (tvalue b + tmask b)).
    rewrite (tnum_mem_bit t (wadd 64 (tvalue a + tmask a) _) k), (tnum_mem_bit t (wadd 64 (tvalue a) _) k)
      by auto. by destruct (Z.testbit (tvalue t) k).
  - destruct (difference_unknown_bits a b t Ha Hb Ht k Hall Hk Hm) as [Hma Hmb].
    rewrite wadd_wsub, wsub_wsub. rewrite !Z.lor_spec, Z.lxor_spec, Hma, Hmb.
    change (as_u64 (tvalue a + _ - _)) with (wsub 64 (tvalue a + tmask a) (tvalue b)).
    change (as_u64 (tvalue a - _)) with (wsub 64 (tvalue a) (tvalue b + tmask b)).
    rewrite (tnum_mem_bit t (wsub 64 (tvalue a + tmask a) _) k),
      (tnum_mem_bit t (wsub 64 (tvalue a) (_ + _)) k), (tnum_mem_bit t (wsub 64 (tvalue a) (tvalue b)) k)
      by auto. by destruct (Z.testbit (tvalue t) k).
Qed.

(** Multiplication always terminates within its 65 iterations, and its
    result describes every wrapping product of members of the operands. *)
Theorem tnum_mul_sound (a b : Tnum) :
  tnum_wf a -> tnum_wf b ->
  exists r, tnum_mul a b = Some r /\ tnum_wf r /\
    forall x y, tnum_mem a x -> tnum_mem b y -> tnum_mem r (wmul 64 x y).
Proof.
  intros Ha Hb. pose proof Ha as (?&?&_).
  destruct (tnum_mul_loop_total 64 (tnum_constant 0) a b) as [r Hr]; [lia..|].
  destruct (tnum_constant_ok 0 ltac:(lia)) as [Hz Hm0].
  destruct (tnum_mul_loop_ok _ _ _ _ _ Hz Ha Hb Hr) as [Hwf Hin].
  { exists 0. by apply Hm0. }
  exists r. split_and!; [done|done|]. intros x y Hx Hy.
  specialize (Hin 0 x y (proj2 (Hm0 0) eq_refl) Hx Hy). unfold wadd in Hin.
  rewrite Z.add_0_l in Hin. unfold wmul in *.
  rewrite as_u64_id in Hin; [done|apply as_u64_range].
Qed.

Lemma tnum_mul_sound_witness :
  exists r, tnum_mul (mkTnum 1 2) (mkTnum 4 1) = Some r /\ tnum_wf r /\
    forall x y, tnum_mem (mkTnum 1 2) x -> tnum_mem (mkTnum 4 1) y -> tnum_mem r (wmul 64 x y).
Proof. apply tnum_mul_sound; unfold tnum_wf; vm_compute; intuition discriminate. Defined.

(** The bitwise operations, the union and the intersection are sound: [and],
    [or], [xor] describe the operation on members, the union the members of
    either operand, the intersection the common members. *)
Theorem tnum_bitwise_sound (a b : Tnum) :
  tnum_wf a -> tnum_wf b ->
  (forall x y, tnum_mem a x -> tnum_mem b y ->
     tnum_mem (tnum_and a b) (Z.land x y) /\ tnum_mem (tnum_or a b) (Z.lor x y) /\
     tnum_mem (tnum_xor a b) (Z.lxor x y)) /\
  (forall x, tnum_mem a x \/ tnum_mem b x -> tnum_mem (tnum_union a b) x) /\
  (forall x, tnum_mem a x -> tnum_mem b x -> tnum_mem (tnum_intersect a b) x) /\
  (tnum_wf (tnum_and a b) /\ tnum_wf (tnum_or a b) /\ tnum_wf (tnum_xor a b) /\
   tnum_wf (tnum_union a b) /\ tnum_wf (tnum_intersect a b)).
Proof.
  intros Ha Hb. destruct (tnum_and_ok a b Ha Hb) as [? Hand].
  destruct (tnum_or_ok a b Ha Hb) as [? Hor], (tnum_xor_ok a b Ha Hb) as [? Hxor].
  destruct (tnum_union_ok a b Ha Hb), (tnum_intersect_ok a b Ha Hb).
  split_and!; try done. intros x y Hx Hy.
  split_and!; [by apply Hand|by apply Hor|by apply Hxor].
Qed.

Lemma tnum_bitwise_sound_witness :
  tnum_mem (tnum_and (mkTnum 1 2) (mkTnum 4 1)) (Z.land 3 5) /\
  tnum_mem (tnum_intersect (mkTnum 1 2) (mkTnum 0 3)) 3.
Proof.
  split.
  - apply (tnum_bitwise_sound (mkTnum 1 2) (mkTnum 4 1));
      unfold tnum_wf, tnum_mem; vm_compute; intuition discriminate.
  - apply (tnum_bitwise_sound (mkTnum 1 2) (mkTnum 0 3));
      unfold tnum_wf, tnum_mem; vm_compute; intuition discriminate.
Defined.

(** The shifts are sound at every count (0 to 2^32, counts of 64 and more
    included) and so is the truncation to the lower half. *)
Theorem tnum_shift_sound (t : Tnum) (x k : Z) :
  tnum_wf t -> tnum_mem t x -> 0 <= k ->
  (tnum_wf (tnum_lshift t k) /\ tnum_mem (tnum_lshift t k) (shl64 x k)) /\
  (tnum_wf (tnum_rshift t k) /\ tnum_mem (tnum_rshift t k) (shr64 x k)) /\
  (tnum_wf (tnum_arshift t k) /\ tnum_mem (tnum_arshift t k) (sar64 x k)) /\
  (tnum_wf (tnum_subreg t) /\ tnum_mem (tnum_subreg t) (as_u32 x)).
Proof.
  intros Ht Hx Hk. destruct (tnum_lshift_ok k Hk t Ht) as [? Hl].
  destruct (tnum_rshift_ok k Hk t Ht) as [? Hr], (tnum_arshift_ok k Hk t Ht) as [? Hs].
  destruct (tnum_subreg_ok t Ht) as [? Hm].
  split_and!; try done; [by apply Hl|by apply Hr|by apply Hs|by apply Hm].
Qed.

Lemma tnum_shift_sound_witness :
  tnum_mem (tnum_arshift (mkTnum (2 ^ 63) 6) 65) (sar64 (2 ^ 63 + 2) 65).
Proof.
  apply (tnum_shift_sound (mkTnum (2 ^ 63) 6) (2 ^ 63 + 2) 65);
    unfold tnum_wf, tnum_mem; vm_compute; intuition discriminate.
Defined.

(** [from_range] returns the smallest tracked number covering an interval:
    it describes every value in between, and every well-formed tracked number
    that does so subsumes it. *)
Theorem tnum_from_range_smallest (lo hi : Z) :
  0 <= lo -> lo <= hi -> hi <= U64_MAX ->
  (forall v, lo <= v <= hi -> tnum_mem (tnum_from_range lo hi) v) /\
  (forall t, tnum_wf t -> (forall v, lo <= v <= hi -> tnum_mem t v) ->
   tnum_subsumes t (tnum_from_range lo hi) = true).
Proof.
  intros. split.
  - apply tnum_from_range_ok; lia.
  - intros t Ht. apply tnum_from_range_best; lia || done.
Qed.

Lemma tnum_from_range_smallest_witness :
  tnum_mem (tnum_from_range 100 200) 150 /\
  tnum_subsumes (mkTnum 0 255) (tnum_from_range 100 101) = true.
Proof.
  split; [apply (tnum_from_range_smallest 100 200); lia|].
  apply (tnum_from_range_smallest 100 101); try lia.
  - unfold tnum_wf; vm_compute; intuition discriminate.
  - intros v Hv. assert (v = 100 \/ v = 101) as [-> | ->] by lia;
      unfold tnum_mem; vm_compute; intuition discriminate.
Defined.

(** [subsumes] decides inclusion: it answers true exactly when every member
    of the second tracked number is a member of the first. *)
Theorem tnum_subsumes_inclusion (s o : Tnum) :
  tnum_wf s -> tnum_wf o ->
  tnum_subsumes s o = true <-> (forall v, tnum_mem o v -> tnum_mem s v).
Proof. apply tnum_subsumes_iff. Qed.

Lemma tnum_subsumes_inclusion_witness :
  tnum_subsumes (mkTnum 1 2) (mkTnum 1 6) = true <->
  (forall v, tnum_mem (mkTnum 1 6) v -> tnum_mem (mkTnum 1 2) v).
Proof. apply tnum_subsumes_inclusion; unfold tnum_wf; vm_compute; intuition discriminate. Defined.

Lemma tnum_arith_best_witness :
  tnum_subsumes (mkTnum 0 7) (tnum_add (mkTnum 1 2) (mkTnum 2 0)) = true.
Proof.
  assert (Hwf : forall v m, In (v, m) [(1, 2); (2, 0); (0, 7); (1, 6)] -> tnum_wf (mkTnum v m)).
  { intros v m [H|[H|[H|[H|[]]]]]; injection H as <- <-; unfold tnum_wf;
      vm_compute; intuition discriminate. }
  apply (tnum_arith_best (mkTnum 1 2) (mkTnum 2 0) (mkTnum 0 7));
    [apply Hwf; simpl; tauto..|]. intros x y Hx Hy.
  apply (proj1 (tnum_subsumes_iff (mkTnum 0 7) (mkTnum 1 6) (Hwf 0 7 ltac:(simpl; tauto))
    (Hwf 1 6 ltac:(simpl; tauto))) ltac:(vm_compute; reflexivity)).
  exact (proj2 (tnum_add_ok (mkTnum 1 2) (mkTnum 2 0) (Hwf 1 2 ltac:(simpl; tauto))
    (Hwf 2 0 ltac:(simpl; tauto))) x y Hx Hy).
Defined.
