(* ===== verification/Bounds.v ===== *)
(** Scalar bounds (src/src/state.rs, [ScalarBounds]): the signed and unsigned
    ranges, their 32-bit views and the tracked number of a scalar register, the
    constructors, and [synced], the reconciliation of the views that runs after
    every ALU operation and branch refinement.  The theorems: [synced] keeps
    every described value, re-derives sound 32-bit views, never widens, and
    never turns an empty range into a non-empty one. *)
From Stdlib Require Import ZArith Lia List Bool.
From stdpp Require Import base list.
From S2P Require Import Prelude Tnum.
Open Scope Z_scope.

Record ScalarBounds := mkBounds {
  smin : Z; smax : Z;           (* i64 *)
  umin : Z; umax : Z;           (* u64 *)
  s32_min : Z; s32_max : Z;     (* i32 *)
  u32_min : Z; u32_max : Z;     (* u32 *)
  tnum : Tnum;
  precise : bool;
  id : Z;                       (* u32, 0 = not linked *)
  delta : Z                     (* i32 *)
}.

#[global] Instance scalar_bounds_eq_dec : EqDecision ScalarBounds.
Proof. solve_decision. Defined.

Definition bounds_constant (value : Z) : ScalarBounds :=
  mkBounds value value (as_u64 value) (as_u64 value) (as_i32 value) (as_i32 value)
    (as_u32 (as_u64 value)) (as_u32 (as_u64 value)) (tnum_constant (as_u64 value))
    false 0 0.

Definition bounds_is_constant (b : ScalarBounds) : bool :=
  (smin b =? smax b) && (umin b =? umax b) && tnum_is_constant (tnum b).

Definition bounds_signed (b : ScalarBounds) : Z * Z := (smin b, smax b).
Definition bounds_unsigned (b : ScalarBounds) : Z * Z := (umin b, umax b).

(** Bounds from the two 64-bit ranges and a tracked number, the 32-bit views
    at their full ranges: the struct literal the source writes before [synced]. *)
Definition mk64 (sm sx um ux : Z) (t : Tnum) (i d : Z) : ScalarBounds :=
  mkBounds sm sx um ux I32_MIN I32_MAX 0 U32_MAX t false i d.

Definition bounds_unknown : ScalarBounds :=
  mk64 I64_MIN I64_MAX 0 U64_MAX tnum_unknown 0 0.

Definition bounds_is_zero (b : ScalarBounds) : bool :=
  (smin b =? 0) && (smax b =? 0) && (umin b =? 0) && (umax b =? 0).

(** The 64-bit part of [synced]: the signed and unsigned ranges. *)
Definition sync64 (b : ScalarBounds) : Z * Z * (Z * Z) :=
  if (0 <=? smin b) || (smax b <? 0) then
    let lo := Z.max (as_u64 (smin b)) (umin b) in
    let hi := Z.min (as_u64 (smax b)) (umax b) in
    ((as_i64 lo, as_i64 hi), (lo, hi))
  else if umax b <? Z.shiftl 1 63 then
    ((as_i64 (umin b), Z.min (smax b) (as_i64 (umax b))), (umin b, umax b))
  else if Z.shiftl 1 63 <=? umin b then
    ((Z.max (smin b) (as_i64 (umin b)), as_i64 (umax b)), (umin b, umax b))
  else ((smin b, smax b), (umin b, umax b)).

(** The derived 32-bit views. *)
Definition sync_u32 (um ux : Z) : Z * Z :=
  if Z.shiftr um 32 =? Z.shiftr ux 32 then (as_u32 um, as_u32 ux) else (0, U32_MAX).
Definition sync_s32 (sm sx : Z) : Z * Z :=
  if Z.shiftr (as_u64 sm) 32 =? Z.shiftr (as_u64 sx) 32 then
    let lo := as_i32 sm in
    let hi := as_i32 sx in
    if lo <=? hi then (lo, hi) else (I32_MIN, I32_MAX)
  else (I32_MIN, I32_MAX).

Definition synced (b : ScalarBounds) : ScalarBounds :=
  if (smax b <? smin b) || (umax b <? umin b) then b
  else
    let '((sm, sx), (um, ux)) := sync64 b in
    let '(u32l, u32h) := sync_u32 um ux in
    let '(s32l, s32h) := sync_s32 sm sx in
    mkBounds sm sx um ux s32l s32h u32l u32h
      (tnum_intersect (tnum b) (tnum_from_range um ux))
      (precise b) (id b) (delta b).

Definition bounds_from_signed (min max : Z) : ScalarBounds :=
  synced
    (if (min <? 0) && (0 <=? max) then mk64 min max 0 U64_MAX tnum_unknown 0 0
     else mk64 min max (as_u64 min) (as_u64 max) tnum_unknown 0 0).

(** * Meaning *)

(** The fields hold values of their types. *)
Definition bounds_wf (b : ScalarBounds) : Prop :=
  is_i64 (smin b) /\ is_i64 (smax b) /\ is_u64 (umin b) /\ is_u64 (umax b) /\
  is_i32 (s32_min b) /\ is_i32 (s32_max b) /\ is_u32 (u32_min b) /\ is_u32 (u32_max b) /\
  tnum_wf (tnum b).

(** The 64-bit views admit the word [v]: the test of the concrete engine's
    coverage check on a precise scalar. *)
Definition mem64 (b : ScalarBounds) (v : Z) : Prop :=
  is_u64 v /\ smin b <= as_i64 v <= smax b /\ umin b <= v <= umax b /\ tnum_mem (tnum b) v.
(** The 32-bit views admit the low half of [v]. *)
Definition mem32 (b : ScalarBounds) (v : Z) : Prop :=
  s32_min b <= as_i32 v <= s32_max b /\ u32_min b <= as_u32 v <= u32_max b.
Definition bounds_mem (b : ScalarBounds) (v : Z) : Prop := mem64 b v /\ mem32 b v.

#[global] Instance bounds_abstraction : Abstraction ScalarBounds := {
  abs_wf := bounds_wf;
  gamma := bounds_mem;
  gamma_u64 := fun b v H => proj1 (proj1 H)
}.

(** The range is marked infeasible. *)
Definition bounds_empty (b : ScalarBounds) : bool :=
  (smax b <? smin b) || (umax b <? umin b).

(** * The 32-bit views *)

Lemma shiftr_32 x : Z.shiftr x 32 = x / 2 ^ 32.
Proof. apply Z.shiftr_div_pow2. lia. Qed.

Lemma as_u32_div x : as_u32 x = x - 2 ^ 32 * (x / 2 ^ 32).
Proof. unfold as_u. pose proof (Z.div_mod x (2 ^ 32)). lia. Qed.

Lemma sync_u32_ok um ux v :
  is_u64 um -> is_u64 ux -> um <= v <= ux ->
  fst (sync_u32 um ux) <= as_u32 v <= snd (sync_u32 um ux).
Proof.
  intros. unfold sync_u32. rewrite !shiftr_32. pose proof (as_u32_range v).
  destruct (Z.eqb_spec (um / 2 ^ 32) (ux / 2 ^ 32)); simpl; [|lia].
  rewrite !as_u32_div. div_lia.
Qed.

Lemma as_u32_as_u64 x : as_u32 (as_u64 x) = as_u32 x.
Proof. unfold as_u. rewrite Z.mod_mod_divide; [done|]. exists (2 ^ 32). lia. Qed.

Lemma as_u64_sub_i64 v : is_u64 v -> as_i64 v = v \/ as_i64 v = v - 2 ^ 64.
Proof.
  intros. destruct (Z.le_gt_cases v I64_MAX).
  - left. apply as_i64_nonneg; lia.
  - right. apply as_i64_neg; lia.
Qed.

Lemma as_u32_as_i64 v : is_u64 v -> as_u32 (as_i64 v) = as_u32 v.
Proof.
  intros Hv. rewrite <- (as_u32_as_u64 (as_i64 v)), as_u64_as_i64; done.
Qed.

Lemma as_i32_of_u32 x : as_i32 x = if as_u32 x <? 2 ^ 31 then as_u32 x else as_u32 x - 2 ^ 32.
Proof. done. Qed.

(** Values within one 32-bit window on whose ends the sign of the low half
    does not decrease keep it in between. *)
Lemma as_i32_window a b x :
  a <= x <= b -> a / 2 ^ 32 = b / 2 ^ 32 -> as_i32 a <= as_i32 b ->
  as_i32 a <= as_i32 x <= as_i32 b.
Proof.
  intros Hx Hw. rewrite !as_i32_of_u32, !as_u32_div.
  assert (x / 2 ^ 32 = a / 2 ^ 32) as -> by div_lia.
  rewrite <- Hw. assert (b < 2 ^ 32 * (a / 2 ^ 32) + 2 ^ 32) by div_lia.
  assert (2 ^ 32 * (a / 2 ^ 32) <= a) by div_lia.
  set (q := a / 2 ^ 32) in *. clearbody q. case_tests; lia.
Qed.

Lemma as_i32_as_i64 v : is_u64 v -> as_i32 (as_i64 v) = as_i32 v.
Proof. intros. by rewrite !as_i32_of_u32, as_u32_as_i64. Qed.

Lemma same_window_signed a b :
  is_i64 a -> is_i64 b -> as_u64 a / 2 ^ 32 = as_u64 b / 2 ^ 32 -> a / 2 ^ 32 = b / 2 ^ 32.
Proof.
  intros Ha Hb. destruct (Z.lt_ge_cases a 0), (Z.lt_ge_cases b 0);
    rewrite ?(as_u64_neg a), ?(as_u64_neg b), ?(as_u64_nonneg a), ?(as_u64_nonneg b) by lia;
    intros; div_lia.
Qed.

Lemma sync_s32_ok sm sx v :
  is_i64 sm -> is_i64 sx -> is_u64 v -> sm <= as_i64 v <= sx ->
  fst (sync_s32 sm sx) <= as_i32 v <= snd (sync_s32 sm sx).
Proof.
  intros Hm Hx Hv Hin. unfold sync_s32. rewrite !shiftr_32. pose proof (as_i32_range v).
  destruct (Z.eqb_spec (as_u64 sm / 2 ^ 32) (as_u64 sx / 2 ^ 32)) as [He|]; simpl; [|lia].
  apply same_window_signed in He; [|done..].
  destruct (Z.leb_spec (as_i32 sm) (as_i32 sx)); simpl; [|lia].
  rewrite <- (as_i32_as_i64 v) by done. by apply as_i32_window.
Qed.

Lemma sync_s32_range sm sx : is_i32 (fst (sync_s32 sm sx)) /\ is_i32 (snd (sync_s32 sm sx)).
Proof.
  unfold sync_s32. pose proof (as_i32_range sm). pose proof (as_i32_range sx).
  destruct (_ =? _); simpl; [|lia]. destruct (_ <=? _); simpl; lia.
Qed.

Lemma sync_u32_range um ux : is_u32 (fst (sync_u32 um ux)) /\ is_u32 (snd (sync_u32 um ux)).
Proof.
  unfold sync_u32. pose proof (as_u32_range um). pose proof (as_u32_range ux).
  destruct (_ =? _); simpl; lia.
Qed.

(** * The 64-bit views *)

Lemma shiftl_1_63 : Z.shiftl 1 63 = 2 ^ 63.
Proof. done. Qed.

(** The signed view is the unsigned one on each side of the sign bit. *)
Lemma as_u64_mono a b :
  is_i64 a -> is_i64 b -> a <= b -> (0 <= a \/ b < 0) -> as_u64 a <= as_u64 b.
Proof.
  intros. destruct (Z.lt_ge_cases a 0), (Z.lt_ge_cases b 0);
    rewrite ?(as_u64_neg a), ?(as_u64_neg b), ?(as_u64_nonneg a), ?(as_u64_nonneg b) by lia; lia.
Qed.

Ltac view v :=
  let H := fresh "Hview" in
  destruct (Z.le_gt_cases v I64_MAX) as [H|H];
  [rewrite ?(as_i64_nonneg v) in * by lia | rewrite ?(as_i64_neg v) in * by lia].

Ltac uview v :=
  let H := fresh "Hview" in
  destruct (Z.lt_ge_cases v 0) as [H|H];
  [rewrite ?(as_u64_neg v) in * by lia | rewrite ?(as_u64_nonneg v) in * by lia].

(** [sync64] describes the same words. *)
Lemma sync64_iff b v :
  bounds_wf b -> is_u64 v -> smin b <= smax b -> umin b <= umax b ->
  let '((sm, sx), (um, ux)) := sync64 b in
  smin b <= as_i64 v <= smax b /\ umin b <= v <= umax b <->
  sm <= as_i64 v <= sx /\ um <= v <= ux.
Proof.
  intros (Hsm & Hsx & Hum & Hux & _) Hv Hs Hu. unfold sync64. rewrite shiftl_1_63.
  destruct (Z.leb_spec 0 (smin b)), (Z.ltb_spec (smax b) 0); simpl; try lia.
  - uview (smin b); uview (smax b); try lia.
    view (Z.max (smin b) (umin b)); view (Z.min (smax b) (umax b)); view v; lia.
  - uview (smin b); uview (smax b); try lia.
    view (Z.max (smin b + 2 ^ 64) (umin b)); view (Z.min (smax b + 2 ^ 64) (umax b)); view v; lia.
  - destruct (Z.ltb_spec (umax b) (2 ^ 63)).
    + view (umin b); view (umax b); view v; lia.
    + destruct (Z.leb_spec (2 ^ 63) (umin b)); [|lia].
      view (umin b); view (umax b); view v; lia.
Qed.

Lemma sync64_range b :
  bounds_wf b ->
  let '((sm, sx), (um, ux)) := sync64 b in
  is_i64 sm /\ is_i64 sx /\ is_u64 um /\ is_u64 ux.
Proof.
  intros (Hsm & Hsx & Hum & Hux & _). unfold sync64.
  pose proof (as_u64_range (smin b)). pose proof (as_u64_range (smax b)).
  pose proof (as_i64_range (umin b)). pose proof (as_i64_range (umax b)).
  destruct (_ || _).
  - repeat split; try apply as_i64_range; lia.
  - destruct (_ <? _); [|destruct (_ <=? _)]; repeat split; lia.
Qed.

Lemma tnum_from_range_wf lo hi : is_u64 lo -> is_u64 hi -> tnum_wf (tnum_from_range lo hi).
Proof.
  intros Hlo Hhi. unfold tnum_from_range. destruct (Z.eqb_spec (Z.lxor lo hi) 0) as [|Hc].
  - by apply tnum_constant_ok.
  - pose proof (chi_log2 lo hi Hlo Hhi Hc). unfold leading_zeros.
    rewrite (proj2 (Z.eqb_neq _ _) Hc). apply masked_wf; [done|]. apply range_mask_u64. lia.
Qed.

(** * [synced] *)

Lemma synced_wf b : bounds_wf b -> bounds_wf (synced b).
Proof.
  intros Hb. unfold synced. destruct (_ || _); [done|].
  pose proof (sync64_range b Hb) as Hr. destruct (sync64 b) as [[sm sx] [um ux]].
  pose proof (sync_u32_range um ux). pose proof (sync_s32_range sm sx).
  destruct (sync_u32 um ux), (sync_s32 sm sx); simpl in *.
  destruct Hr as (?&?&?&?). unfold bounds_wf; simpl. split_and!; try lia.
  apply tnum_intersect_ok; [apply Hb|by apply tnum_from_range_wf].
Qed.

(** Every described word survives, with sound 32-bit views. *)
Lemma synced_mem b v : bounds_wf b -> mem64 b v -> bounds_mem (synced b) v.
Proof.
  intros Hb (Hv & Hs & Hu & Ht). unfold synced.
  replace ((smax b <? smin b) || (umax b <? umin b)) with false
    by (symmetry; rewrite orb_false_iff; lia).
  pose proof (sync64_range b Hb) as Hr.
  pose proof (sync64_iff b v Hb Hv ltac:(lia) ltac:(lia)) as Hi.
  destruct (sync64 b) as [[sm sx] [um ux]]. apply proj1 in Hi.
  destruct Hi as [Hs' Hu']; [done|]. destruct Hr as (?&?&?&?).
  pose proof (sync_u32_ok um ux v ltac:(lia) ltac:(lia) Hu').
  pose proof (sync_s32_ok sm sx v ltac:(lia) ltac:(lia) Hv Hs').
  destruct (sync_u32 um ux), (sync_s32 sm sx); simpl in *.
  split; [split_and!; simpl; try done; try lia|split; simpl; lia].
  apply tnum_intersect_ok; [apply Hb|by apply tnum_from_range_wf|done|].
  apply tnum_from_range_ok; lia.
Qed.

(** A word of the intersection of compatible tracked numbers is in both. *)
Lemma tnum_intersect_inv a b x w :
  tnum_wf a -> tnum_wf b -> tnum_mem a w -> tnum_mem b w ->
  tnum_mem (tnum_intersect a b) x -> tnum_mem a x.
Proof.
  intros Ha Hb Hwa Hwb Hx. destruct (tnum_fields_u64 a b Ha Hb) as (?&?&?&?).
  destruct (tnum_intersect_ok a b Ha Hb) as [Hwf _]. pose proof Hx as [Hu _].
  apply tnum_mem_bits; [done..|]. split; [done|]. intros i Hi Hm.
  assert (Hmi : Z.testbit (tmask (tnum_intersect a b)) i = false).
  { simpl. rewrite Z.land_spec, Hm. done. }
  rewrite (tnum_mem_bit _ x i Hwf Hx Hi Hmi). simpl in *.
  pose proof (tnum_mem_bit a w i Ha Hwa Hi). pose proof (tnum_mem_bit b w i Hb Hwb Hi).
  destruct (tnum_bit_cases a b Ha Hb i).
  autorewrite with bits in *. idx. clear Hwa Hwb Ha Hb Hx. split_bits.
Qed.

(** No described word appears that was not there before: [synced] is exact on
    every range that describes something. *)
Lemma synced_exact b v w :
  bounds_wf b -> mem64 b w -> mem64 (synced b) v -> mem64 b v.
Proof.
  intros Hb (Hw & Hs & Hu & Ht). unfold synced.
  replace ((smax b <? smin b) || (umax b <? umin b)) with false
    by (symmetry; rewrite orb_false_iff; lia).
  pose proof (sync64_range b Hb) as Hr.
  pose proof (fun v Hv => sync64_iff b v Hb Hv ltac:(lia) ltac:(lia)) as Hi.
  destruct (sync64 b) as [[sm sx] [um ux]]. destruct Hr as (?&?&?&?).
  destruct (sync_u32 um ux), (sync_s32 sm sx); simpl in *.
  destruct (proj1 (Hi w Hw) (conj Hs Hu)) as [_ Hwu].
  intros (Hv & Hvs & Hvu & Hvt). simpl in *.
  destruct (proj2 (Hi v Hv) (conj Hvs Hvu)) as [? ?].
  split_and!; try done; try lia.
  eapply (tnum_intersect_inv _ (tnum_from_range um ux) _ w); [apply Hb| |done| |exact Hvt].
  - by apply tnum_from_range_wf.
  - apply tnum_from_range_ok; lia.
Qed.

(** An infeasible range stays infeasible. *)
Lemma synced_empty b : bounds_empty b = true -> synced b = b.
Proof. intros H. unfold synced. unfold bounds_empty in H. by rewrite H. Qed.

(** * Constructors *)

Lemma as_u32_as_i32 x : as_i32 (as_u64 x) = as_i32 x.
Proof. by rewrite !as_i32_of_u32, as_u32_as_u64. Qed.

Lemma bounds_constant_wf v : is_i64 v -> bounds_wf (bounds_constant v).
Proof.
  intros. pose proof (as_u64_range v). pose proof (as_u32_range (as_u64 v)).
  pose proof (as_i32_range v).
  unfold bounds_wf; simpl. split_and!; try lia. by apply tnum_constant_ok.
Qed.

Lemma bounds_constant_mem v x :
  is_i64 v -> bounds_mem (bounds_constant v) x <-> x = as_u64 v.
Proof.
  intros Hv. pose proof (as_u64_range v) as Hu. split.
  - intros [(Hx & _ & ? & _) _]. simpl in *. lia.
  - intros ->. split; [split_and!|split]; simpl; try lia.
    + by rewrite as_i64_as_u64 by done.
    + by rewrite as_i64_as_u64 by done.
    + by apply tnum_constant_ok.
    + by rewrite as_u32_as_i32.
Qed.

Lemma bounds_unknown_wf : bounds_wf bounds_unknown.
Proof. unfold bounds_wf; simpl. split_and!; lia || apply tnum_unknown_ok. Qed.

Lemma bounds_unknown_mem v : is_u64 v -> bounds_mem bounds_unknown v.
Proof.
  intros Hv. pose proof (as_i64_range v). pose proof (as_i32_range v).
  pose proof (as_u32_range v).
  split; [split_and!|split]; simpl; try lia. by apply tnum_unknown_ok.
Qed.

Lemma from_signed_mem lo hi x :
  is_i64 lo -> is_i64 hi -> lo <= hi ->
  bounds_wf (bounds_from_signed lo hi) /\
  (bounds_mem (bounds_from_signed lo hi) x <-> is_u64 x /\ lo <= as_i64 x <= hi).
Proof.
  intros Hlo Hhi Hle. unfold bounds_from_signed.
  set (b := if (lo <? 0) && (0 <=? hi) then _ else _).
  assert (Hwf : bounds_wf b).
  { pose proof (as_u64_range lo). pose proof (as_u64_range hi).
    unfold b. destruct (_ && _); unfold bounds_wf; simpl; split_and!;
      lia || apply tnum_unknown_ok. }
  assert (Hmem : forall x, mem64 b x <-> is_u64 x /\ lo <= as_i64 x <= hi).
  { intros y. split.
    - intros (? & ? & _). unfold b in *. destruct (_ && _); simpl in *; done.
    - intros [Hy Hin]. pose proof (proj2 tnum_unknown_ok y Hy). unfold b, mem64.
      destruct (Z.ltb_spec lo 0), (Z.leb_spec 0 hi); simpl; split_and!; try lia; try done;
        uview lo; uview hi; view y; lia. }
  split; [by apply synced_wf|]. split.
  - intros [Hx _]. apply Hmem. apply (synced_exact b x (as_u64 lo)); [done| |done].
    apply Hmem. split; [apply as_u64_range|]. rewrite as_i64_as_u64 by done. lia.
  - intros Hx. apply synced_mem; [done|]. by apply Hmem.
Qed.

(** A constant describes exactly its value, and only constants pass the test. *)
Lemma is_constant_mem b v :
  bounds_wf b -> bounds_mem b v -> bounds_is_constant b = true ->
  v = as_u64 (smin b) /\ v = umin b /\ as_i64 v = smin b.
Proof.
  intros Hb [(Hv & Hs & Hu & _) _] Hc. unfold bounds_is_constant in Hc. bool_hyps.
  assert (as_i64 v = smin b) as Heq by lia. rewrite <- Heq, as_u64_as_i64 by done.
  split_and!; lia.
Qed.

(** * Properties *)

Lemma from_signed_wf lo hi : is_i64 lo -> is_i64 hi -> lo <= hi -> bounds_wf (bounds_from_signed lo hi).
Proof. intros. apply (from_signed_mem lo hi 0); lia. Qed.

(** [synced] is sound and exact: on a range that describes something the
    synchronised bounds describe the same words, their fields hold values of
    their types and their 32-bit views admit the low half of every word. *)
Theorem synced_same_words (b : ScalarBounds) (w v : Z) :
  bounds_wf b -> mem64 b w ->
  bounds_wf (synced b) /\ (mem64 (synced b) v <-> mem64 b v) /\
  (mem64 b v -> mem32 (synced b) v).
Proof.
  intros Hb Hw. split_and!.
  - by apply synced_wf.
  - split; [by apply (synced_exact b v w)|]. intros Hv. by apply synced_mem.
  - intros Hv. by apply synced_mem.
Qed.

Lemma synced_same_words_witness :
  mem64 (synced (mk64 (-5) 100 3 U64_MAX tnum_unknown 0 0)) 50 <->
  mem64 (mk64 (-5) 100 3 U64_MAX tnum_unknown 0 0) 50.
Proof.
  apply (synced_same_words (mk64 (-5) 100 3 U64_MAX tnum_unknown 0 0) 7 50);
    unfold bounds_wf, mem64, tnum_wf, tnum_mem; vm_compute; intuition discriminate.
Defined.

(** An empty range is the mark of an infeasible branch: it describes no
    word and [synced] leaves it as it is. *)
Theorem synced_keeps_infeasible (b : ScalarBounds) :
  bounds_empty b = true -> synced b = b /\ (forall v, ~ bounds_mem (synced b) v).
Proof.
  intros H. split; [by apply synced_empty|]. rewrite synced_empty by done.
  intros v [(_ & ? & ? & _) _]. unfold bounds_empty in H. bool_hyps. destruct H; bool_hyps; lia.
Qed.

Lemma synced_keeps_infeasible_witness :
  let b := mk64 5 4 0 10 tnum_unknown 0 0 in
  synced b = b /\ (forall v, ~ bounds_mem (synced b) v).
Proof. intros b. apply synced_keeps_infeasible. reflexivity. Defined.

(** The constructors mean what they say: a constant describes exactly its
    bits, [from_signed] exactly the words whose signed reading lies in the
    interval, and the unknown scalar every word. *)
Theorem bounds_constructors (lo hi x : Z) :
  I64_MIN <= lo -> lo <= hi -> hi <= I64_MAX -> 0 <= x -> x <= U64_MAX ->
  (bounds_mem (bounds_constant lo) x <-> x = as_u64 lo) /\
  (bounds_mem (bounds_from_signed lo hi) x <-> lo <= as_i64 x <= hi) /\
  bounds_mem bounds_unknown x.
Proof.
  intros. destruct (from_signed_mem lo hi x ltac:(lia) ltac:(lia) ltac:(lia)) as [_ Hm].
  split_and!.
  - apply bounds_constant_mem. lia.
  - rewrite Hm. split; [by intros [_ ?]|]. intros; split; [lia|done].
  - apply bounds_unknown_mem. lia.
Qed.

Lemma bounds_constructors_witness :
  bounds_mem (bounds_from_signed (-4) 9) U64_MAX <-> -4 <= as_i64 U64_MAX <= 9.
Proof. apply (bounds_constructors (-4) 9 U64_MAX); lia. Defined.
