(* ===== verification/Insn.v ===== *)
(** The instruction set and its binary format (src/src/insn.rs), and the encoder
    of the program generator (src/src/fuzz/insn_lib.rs).  Instructions, the
    decoder of one 8-byte slot with every rejection in its order, the two-slot
    ldimm64, whole programs, and the inverse encoder.  The theorems: decoding an
    encoded instruction gives it back, every decoded instruction is well-formed,
    a decoded program has one entry per slot, and which reserved fields the
    decoder does not look at. *)
From Stdlib Require Import ZArith Lia List Bool String.
From stdpp Require Import base list strings.
From S2P Require Import Prelude.
Open Scope Z_scope.

(** * Opcodes, operand kinds and instructions *)

Module opcode.
  Abbreviation MOV_IMM := 0xb7 (only parsing).
  Abbreviation LD_IMM64 := 0x18 (only parsing).
  Abbreviation PSEUDO_MAP_FD := 1 (only parsing).
  Abbreviation PSEUDO_MAP_VALUE := 2 (only parsing).
  Abbreviation MOV_REG := 0xbf (only parsing).
  Abbreviation ADD_IMM := 0x07 (only parsing).
  Abbreviation ADD_REG := 0x0f (only parsing).
  Abbreviation SUB_IMM := 0x17 (only parsing).
  Abbreviation SUB_REG := 0x1f (only parsing).
  Abbreviation AND_IMM := 0x57 (only parsing).
  Abbreviation AND_REG := 0x5f (only parsing).
  Abbreviation OR_IMM := 0x47 (only parsing).
  Abbreviation OR_REG := 0x4f (only parsing).
  Abbreviation XOR_IMM := 0xa7 (only parsing).
  Abbreviation XOR_REG := 0xaf (only parsing).
  Abbreviation LSH_IMM := 0x67 (only parsing).
  Abbreviation LSH_REG := 0x6f (only parsing).
  Abbreviation RSH_IMM := 0x77 (only parsing).
  Abbreviation RSH_REG := 0x7f (only parsing).
  Abbreviation ARSH_IMM := 0xc7 (only parsing).
  Abbreviation ARSH_REG := 0xcf (only parsing).
  Abbreviation MUL_IMM := 0x27 (only parsing).
  Abbreviation MUL_REG := 0x2f (only parsing).
  Abbreviation DIV_IMM := 0x37 (only parsing).
  Abbreviation DIV_REG := 0x3f (only parsing).
  Abbreviation MOD_IMM := 0x97 (only parsing).
  Abbreviation MOD_REG := 0x9f (only parsing).
  Abbreviation NEG := 0x87 (only parsing).
  Abbreviation ADD32_IMM := 0x04 (only parsing).
  Abbreviation ADD32_REG := 0x0c (only parsing).
  Abbreviation SUB32_IMM := 0x14 (only parsing).
  Abbreviation SUB32_REG := 0x1c (only parsing).
  Abbreviation AND32_IMM := 0x54 (only parsing).
  Abbreviation AND32_REG := 0x5c (only parsing).
  Abbreviation OR32_IMM := 0x44 (only parsing).
  Abbreviation OR32_REG := 0x4c (only parsing).
  Abbreviation XOR32_IMM := 0xa4 (only parsing).
  Abbreviation XOR32_REG := 0xac (only parsing).
  Abbreviation LSH32_IMM := 0x64 (only parsing).
  Abbreviation LSH32_REG := 0x6c (only parsing).
  Abbreviation RSH32_IMM := 0x74 (only parsing).
  Abbreviation RSH32_REG := 0x7c (only parsing).
  Abbreviation ARSH32_IMM := 0xc4 (only parsing).
  Abbreviation ARSH32_REG := 0xcc (only parsing).
  Abbreviation MUL32_IMM := 0x24 (only parsing).
  Abbreviation MUL32_REG := 0x2c (only parsing).
  Abbreviation DIV32_IMM := 0x34 (only parsing).
  Abbreviation DIV32_REG := 0x3c (only parsing).
  Abbreviation MOD32_IMM := 0x94 (only parsing).
  Abbreviation MOD32_REG := 0x9c (only parsing).
  Abbreviation NEG32 := 0x84 (only parsing).
  Abbreviation MOV32_IMM := 0xb4 (only parsing).
  Abbreviation MOV32_REG := 0xbc (only parsing).
  Abbreviation LD_STACK := 0x79 (only parsing).
  Abbreviation ST_STACK := 0x7b (only parsing).
  Abbreviation JMP := 0x05 (only parsing).
  Abbreviation JEQ := 0x1d (only parsing).
  Abbreviation JEQ_IMM := 0x15 (only parsing).
  Abbreviation JNE := 0x5d (only parsing).
  Abbreviation JNE_IMM := 0x55 (only parsing).
  Abbreviation JGT := 0x2d (only parsing).
  Abbreviation JGT_IMM := 0x25 (only parsing).
  Abbreviation JGE := 0x3d (only parsing).
  Abbreviation JGE_IMM := 0x35 (only parsing).
  Abbreviation JLT := 0xad (only parsing).
  Abbreviation JLT_IMM := 0xa5 (only parsing).
  Abbreviation JLE := 0xbd (only parsing).
  Abbreviation JLE_IMM := 0xb5 (only parsing).
  Abbreviation JSGT := 0x6d (only parsing).
  Abbreviation JSGT_IMM := 0x65 (only parsing).
  Abbreviation JSGE := 0x7d (only parsing).
  Abbreviation JSGE_IMM := 0x75 (only parsing).
  Abbreviation JSLT := 0xcd (only parsing).
  Abbreviation JSLT_IMM := 0xc5 (only parsing).
  Abbreviation JSLE := 0xdd (only parsing).
  Abbreviation JSLE_IMM := 0xd5 (only parsing).
  Abbreviation JSET := 0x4d (only parsing).
  Abbreviation JSET_IMM := 0x45 (only parsing).
  Abbreviation CALL := 0x85 (only parsing).
  Abbreviation EXIT := 0x95 (only parsing).
  Abbreviation JMP32_JEQ_IMM := 0x16 (only parsing).
  Abbreviation JMP32_JEQ := 0x1e (only parsing).
  Abbreviation JMP32_JGT_IMM := 0x26 (only parsing).
  Abbreviation JMP32_JGT := 0x2e (only parsing).
  Abbreviation JMP32_JGE_IMM := 0x36 (only parsing).
  Abbreviation JMP32_JGE := 0x3e (only parsing).
  Abbreviation JMP32_JNE_IMM := 0x56 (only parsing).
  Abbreviation JMP32_JNE := 0x5e (only parsing).
  Abbreviation JMP32_JSGT_IMM := 0x66 (only parsing).
  Abbreviation JMP32_JSGT := 0x6e (only parsing).
  Abbreviation JMP32_JSGE_IMM := 0x76 (only parsing).
  Abbreviation JMP32_JSGE := 0x7e (only parsing).
  Abbreviation JMP32_JLT_IMM := 0xa6 (only parsing).
  Abbreviation JMP32_JLT := 0xae (only parsing).
  Abbreviation JMP32_JLE_IMM := 0xb6 (only parsing).
  Abbreviation JMP32_JLE := 0xbe (only parsing).
  Abbreviation JMP32_JSLT_IMM := 0xc6 (only parsing).
  Abbreviation JMP32_JSLT := 0xce (only parsing).
  Abbreviation JMP32_JSLE_IMM := 0xd6 (only parsing).
  Abbreviation JMP32_JSLE := 0xde (only parsing).
  Abbreviation ATOMIC_W := 0xc3 (only parsing).
  Abbreviation ATOMIC_DW := 0xdb (only parsing).
  Abbreviation FETCH := 0x01 (only parsing).
  Abbreviation LD_ABS := 0x20 (only parsing).
  Abbreviation LD_ABS_H := 0x28 (only parsing).
  Abbreviation LD_ABS_B := 0x30 (only parsing).
  Abbreviation LD_ABS_DW := 0x38 (only parsing).
  Abbreviation LD_IND := 0x40 (only parsing).
  Abbreviation LD_IND_H := 0x48 (only parsing).
  Abbreviation LD_IND_B := 0x50 (only parsing).
  Abbreviation LD_IND_DW := 0x58 (only parsing).
End opcode.

Module MemSize.
Inductive MemSize := B | H | W | DW.
Definition bytes (s : MemSize) : Z :=
  match s with B => 1 | H => 2 | W => 4 | DW => 8 end.
End MemSize.
Abbreviation MemSize := MemSize.MemSize.

Module MulHigh.
Inductive MulHigh := Low | UnsignedHigh | SignedHigh.
Definition from_off (off : Z) : option MulHigh :=
  match off with
  | 0 => Some Low
  | 1 => Some UnsignedHigh
  | 2 => Some SignedHigh
  | _ => None
  end.
Definition to_off (m : MulHigh) : Z :=
  match m with Low => 0 | UnsignedHigh => 1 | SignedHigh => 2 end.
End MulHigh.
Abbreviation MulHigh := MulHigh.MulHigh.

Module AtomicOp.
Inductive AtomicOp := Add | Or | And | Xor | Xchg | Cmpxchg.
Definition from_imm (imm : Z) : option AtomicOp :=
  match Z.land imm 0xf0 with
  | 0x00 => Some Add
  | 0x40 => Some Or
  | 0x50 => Some And
  | 0xa0 => Some Xor
  | 0xe0 => Some Xchg
  | 0xf0 => Some Cmpxchg
  | _ => None
  end.
Definition to_imm (op : AtomicOp) : Z :=
  match op with
  | Add => 0x00 | Or => 0x40 | And => 0x50 | Xor => 0xa0 | Xchg => 0xe0 | Cmpxchg => 0xf0
  end.
Definition requires_fetch (op : AtomicOp) : bool :=
  match op with Xchg | Cmpxchg => true | _ => false end.
End AtomicOp.
Abbreviation AtomicOp := AtomicOp.AtomicOp.

Module Jmp32Op.
Inductive Jmp32Op := Eq | Ne | Gt | Ge | Lt | Le | Sgt | Sge | Slt | Sle.
End Jmp32Op.
Abbreviation Jmp32Op := Jmp32Op.Jmp32Op.

#[global] Instance mem_size_eq_dec : EqDecision MemSize.
Proof. solve_decision. Defined.
#[global] Instance mul_high_eq_dec : EqDecision MulHigh.
Proof. solve_decision. Defined.
#[global] Instance atomic_op_eq_dec : EqDecision AtomicOp.
Proof. solve_decision. Defined.
#[global] Instance jmp32_op_eq_dec : EqDecision Jmp32Op.
Proof. solve_decision. Defined.

Module BpfInsn.
Inductive BpfInsn :=
| MovImm (dst imm : Z)
| MovReg (dst src : Z)
| Mov32Imm (dst imm : Z)
| Mov32Reg (dst src : Z)
| MulImm (dst imm : Z) (high : MulHigh)
| MulReg (dst src : Z) (high : MulHigh)
| DivImm (dst imm : Z)
| DivReg (dst src : Z)
| ModImm (dst imm : Z)
| ModReg (dst src : Z)
| Neg (dst : Z)
| Mul32Imm (dst imm : Z)
| Mul32Reg (dst src : Z)
| Div32Imm (dst imm : Z)
| Div32Reg (dst src : Z)
| Mod32Imm (dst imm : Z)
| Mod32Reg (dst src : Z)
| Neg32 (dst : Z)
| AddImm (dst imm : Z)
| AddReg (dst src : Z)
| SubImm (dst imm : Z)
| SubReg (dst src : Z)
| AndImm (dst imm : Z)
| AndReg (dst src : Z)
| OrImm (dst imm : Z)
| OrReg (dst src : Z)
| XorImm (dst imm : Z)
| XorReg (dst src : Z)
| LshImm (dst imm : Z)
| LshReg (dst src : Z)
| RshImm (dst imm : Z)
| RshReg (dst src : Z)
| ArshImm (dst imm : Z)
| ArshReg (dst src : Z)
| Add32Imm (dst imm : Z)
| Add32Reg (dst src : Z)
| Sub32Imm (dst imm : Z)
| Sub32Reg (dst src : Z)
| And32Imm (dst imm : Z)
| And32Reg (dst src : Z)
| Or32Imm (dst imm : Z)
| Or32Reg (dst src : Z)
| Xor32Imm (dst imm : Z)
| Xor32Reg (dst src : Z)
| Lsh32Imm (dst imm : Z)
| Lsh32Reg (dst src : Z)
| Rsh32Imm (dst imm : Z)
| Rsh32Reg (dst src : Z)
| Arsh32Imm (dst imm : Z)
| Arsh32Reg (dst src : Z)
| LdMem (dst base offset : Z) (size : MemSize) (sign_extend : bool)
| StMem (src base offset : Z) (size : MemSize)
| StMemImm (imm base offset : Z) (size : MemSize)
| LdImm64 (dst imm : Z)
| LdMapFd (dst fd key_size value_size map_type : Z)
| LdMapValue (dst fd offset key_size value_size : Z)
| LdImm64Second (imm_hi : Z)
| Jeq (dst src offset : Z)
| Jne (dst src offset : Z)
| Jgt (dst src offset : Z)
| Jge (dst src offset : Z)
| Jlt (dst src offset : Z)
| Jle (dst src offset : Z)
| Jsgt (dst src offset : Z)
| Jsge (dst src offset : Z)
| Jslt (dst src offset : Z)
| Jsle (dst src offset : Z)
| JeqImm (dst imm offset : Z)
| JneImm (dst imm offset : Z)
| JgtImm (dst imm offset : Z)
| JgeImm (dst imm offset : Z)
| JltImm (dst imm offset : Z)
| JleImm (dst imm offset : Z)
| JsgtImm (dst imm offset : Z)
| JsgeImm (dst imm offset : Z)
| JsltImm (dst imm offset : Z)
| JsleImm (dst imm offset : Z)
| Jmp (offset : Z)
| Jset (dst src offset : Z)
| JsetImm (dst imm offset : Z)
| Jmp32 (dst : Z) (src imm : option Z) (offset : Z) (op : Jmp32Op)
| Atomic (dst src offset : Z) (size : MemSize) (op : AtomicOp) (fetch : bool)
| LdAbs (size : MemSize) (imm : Z)
| LdInd (src : Z) (size : MemSize) (imm : Z)
| Call (imm : Z)
| CallSub (offset : Z)
| CallKfunc (btf_id : Z)
| Exit.
End BpfInsn.
Abbreviation BpfInsn := BpfInsn.BpfInsn.
#[global] Instance bpf_insn_eq_dec : EqDecision BpfInsn.
Proof. solve_decision. Defined.

Definition is_conditional_branch (insn : BpfInsn) : bool :=
  match insn with
  | BpfInsn.Jeq _ _ _
  | BpfInsn.Jne _ _ _
  | BpfInsn.Jgt _ _ _
  | BpfInsn.Jge _ _ _
  | BpfInsn.Jlt _ _ _
  | BpfInsn.Jle _ _ _
  | BpfInsn.Jsgt _ _ _
  | BpfInsn.Jsge _ _ _
  | BpfInsn.Jslt _ _ _
  | BpfInsn.Jsle _ _ _
  | BpfInsn.JeqImm _ _ _
  | BpfInsn.JneImm _ _ _
  | BpfInsn.JgtImm _ _ _
  | BpfInsn.JgeImm _ _ _
  | BpfInsn.JltImm _ _ _
  | BpfInsn.JleImm _ _ _
  | BpfInsn.JsgtImm _ _ _
  | BpfInsn.JsgeImm _ _ _
  | BpfInsn.JsltImm _ _ _
  | BpfInsn.JsleImm _ _ _
  | BpfInsn.Jset _ _ _
  | BpfInsn.JsetImm _ _ _
  | BpfInsn.Jmp32 _ _ _ _ _ => true
  | _ => false
  end.

Definition is_control_flow (insn : BpfInsn) : bool :=
  match insn with
  | BpfInsn.Exit | BpfInsn.Jmp _ => true
  | _ => is_conditional_branch insn
  end.

(** * Decoding *)

(** Why a slot is rejected. *)
Inductive DecodeError :=
| UnknownOpcode (op : Z)
| Unsupported (op : Z) (reason : string)
| InvalidRegister (reg : Z)
| ReservedFields (message : string)
| InvalidInstructionLength (actual : Z)
| LdImm64Truncated
| DivisionByZero.

Definition is_supported_alu (op : Z) : bool :=
  match op with
  | opcode.MOV_IMM | opcode.MOV_REG | opcode.MOV32_IMM | opcode.MOV32_REG | opcode.ADD_IMM
  | opcode.ADD_REG | opcode.SUB_IMM | opcode.SUB_REG | opcode.AND_IMM | opcode.AND_REG
  | opcode.OR_IMM | opcode.OR_REG | opcode.XOR_IMM | opcode.XOR_REG | opcode.LSH_IMM
  | opcode.LSH_REG | opcode.RSH_IMM | opcode.RSH_REG | opcode.ARSH_IMM | opcode.ARSH_REG
  | opcode.ADD32_IMM | opcode.ADD32_REG | opcode.SUB32_IMM | opcode.SUB32_REG
  | opcode.AND32_IMM | opcode.AND32_REG | opcode.OR32_IMM | opcode.OR32_REG | opcode.XOR32_IMM
  | opcode.XOR32_REG | opcode.LSH32_IMM | opcode.LSH32_REG | opcode.RSH32_IMM
  | opcode.RSH32_REG | opcode.ARSH32_IMM | opcode.ARSH32_REG | opcode.MUL_IMM | opcode.MUL_REG
  | opcode.DIV_IMM | opcode.DIV_REG | opcode.MOD_IMM | opcode.MOD_REG | opcode.NEG
  | opcode.MUL32_IMM | opcode.MUL32_REG | opcode.DIV32_IMM | opcode.DIV32_REG
  | opcode.MOD32_IMM | opcode.MOD32_REG | opcode.NEG32 => true
  | _ => false
  end.

(** [None]: the opcode is not in the kernel's instruction table. *)
Definition unsupported_reason (op : Z) : option string :=
  match Z.land op 0x07 with
  | 0x00 => Some "BPF_LD legacy absolute/indirect loads are not implemented"
  | 0x02 => Some "BPF_ST (store-immediate) is not implemented"
  | 0x06 => Some "BPF_JMP32 (32-bit compares) is not implemented"
  | 0x01 => Some "only 8-byte loads from the stack frame are implemented"
  | 0x03 => Some "only 8-byte stores to the stack frame are implemented"
  | 0x04 | 0x07 =>
      match Z.land op 0xf0 with
      | 0xd0 => Some "BPF_END is not implemented"
      | 0xb0 => Some "32-bit MOV (BPF_ALU | BPF_MOV) is not implemented"
      | _ => None
      end
  | 0x05 =>
      match op with
      | 0x45 | 0x4d => Some "BPF_JSET is not implemented"
      | 0x0d => Some "indirect jumps (BPF_JA|BPF_X) are not implemented"
      | _ => None
      end
  | _ => None
  end%string.

(** [i16::from_le_bytes], [u32::from_le_bytes], [i32::from_le_bytes]. *)
Definition u16_le (b0 b1 : Z) : Z := b0 + 256 * b1.
Definition u32_le (b0 b1 b2 b3 : Z) : Z := b0 + 256 * (b1 + 256 * (b2 + 256 * b3)).
Definition i16_le (b0 b1 : Z) : Z := as_i16 (u16_le b0 b1).
Definition i32_le (b0 b1 b2 b3 : Z) : Z := as_i32 (u32_le b0 b1 b2 b3).

(** The kernel's BPF_SRC bit, and the reserved operand field of each form. *)
Definition is_x (op : Z) : bool := negb (Z.land op 0x08 =? 0).
Definition src_form_reserved (op src imm : Z) : bool :=
  (is_x op && negb (imm =? 0)) || (negb (is_x op) && negb (src =? 0)).

(** The instruction of a supported ALU opcode. *)
Definition alu_insn (op dst src imm : Z) (high : MulHigh) : BpfInsn :=
  match op with
  | opcode.MOV_IMM => BpfInsn.MovImm dst imm
  | opcode.MOV_REG => BpfInsn.MovReg dst src
  | opcode.MOV32_IMM => BpfInsn.Mov32Imm dst imm
  | opcode.MOV32_REG => BpfInsn.Mov32Reg dst src
  | opcode.ADD_IMM => BpfInsn.AddImm dst imm
  | opcode.ADD_REG => BpfInsn.AddReg dst src
  | opcode.SUB_IMM => BpfInsn.SubImm dst imm
  | opcode.SUB_REG => BpfInsn.SubReg dst src
  | opcode.AND_IMM => BpfInsn.AndImm dst imm
  | opcode.AND_REG => BpfInsn.AndReg dst src
  | opcode.OR_IMM => BpfInsn.OrImm dst imm
  | opcode.OR_REG => BpfInsn.OrReg dst src
  | opcode.XOR_IMM => BpfInsn.XorImm dst imm
  | opcode.XOR_REG => BpfInsn.XorReg dst src
  | opcode.LSH_IMM => BpfInsn.LshImm dst imm
  | opcode.LSH_REG => BpfInsn.LshReg dst src
  | opcode.RSH_IMM => BpfInsn.RshImm dst imm
  | opcode.RSH_REG => BpfInsn.RshReg dst src
  | opcode.ARSH_IMM => BpfInsn.ArshImm dst imm
  | opcode.ARSH_REG => BpfInsn.ArshReg dst src
  | opcode.ADD32_IMM => BpfInsn.Add32Imm dst imm
  | opcode.ADD32_REG => BpfInsn.Add32Reg dst src
  | opcode.SUB32_IMM => BpfInsn.Sub32Imm dst imm
  | opcode.SUB32_REG => BpfInsn.Sub32Reg dst src
  | opcode.AND32_IMM => BpfInsn.And32Imm dst imm
  | opcode.AND32_REG => BpfInsn.And32Reg dst src
  | opcode.OR32_IMM => BpfInsn.Or32Imm dst imm
  | opcode.OR32_REG => BpfInsn.Or32Reg dst src
  | opcode.XOR32_IMM => BpfInsn.Xor32Imm dst imm
  | opcode.XOR32_REG => BpfInsn.Xor32Reg dst src
  | opcode.LSH32_IMM => BpfInsn.Lsh32Imm dst imm
  | opcode.LSH32_REG => BpfInsn.Lsh32Reg dst src
  | opcode.RSH32_IMM => BpfInsn.Rsh32Imm dst imm
  | opcode.RSH32_REG => BpfInsn.Rsh32Reg dst src
  | opcode.ARSH32_IMM => BpfInsn.Arsh32Imm dst imm
  | opcode.ARSH32_REG => BpfInsn.Arsh32Reg dst src
  | opcode.MUL_IMM => BpfInsn.MulImm dst imm high
  | opcode.MUL_REG => BpfInsn.MulReg dst src high
  | opcode.DIV_IMM => BpfInsn.DivImm dst imm
  | opcode.DIV_REG => BpfInsn.DivReg dst src
  | opcode.MOD_IMM => BpfInsn.ModImm dst imm
  | opcode.MOD_REG => BpfInsn.ModReg dst src
  | opcode.NEG => BpfInsn.Neg dst
  | opcode.MUL32_IMM => BpfInsn.Mul32Imm dst imm
  | opcode.MUL32_REG => BpfInsn.Mul32Reg dst src
  | opcode.DIV32_IMM => BpfInsn.Div32Imm dst imm
  | opcode.DIV32_REG => BpfInsn.Div32Reg dst src
  | opcode.MOD32_IMM => BpfInsn.Mod32Imm dst imm
  | opcode.MOD32_REG => BpfInsn.Mod32Reg dst src
  | opcode.NEG32 => BpfInsn.Neg32 dst
  | _ => BpfInsn.Exit (* unreachable!() *)
  end.

(** The instruction of a compare opcode; [None] for the other opcodes. *)
Definition cmp_insn (op dst src imm offset : Z) : option BpfInsn :=
  match op with
  | opcode.JEQ => Some (BpfInsn.Jeq dst src offset)
  | opcode.JNE => Some (BpfInsn.Jne dst src offset)
  | opcode.JGT => Some (BpfInsn.Jgt dst src offset)
  | opcode.JGE => Some (BpfInsn.Jge dst src offset)
  | opcode.JLT => Some (BpfInsn.Jlt dst src offset)
  | opcode.JLE => Some (BpfInsn.Jle dst src offset)
  | opcode.JSGT => Some (BpfInsn.Jsgt dst src offset)
  | opcode.JSGE => Some (BpfInsn.Jsge dst src offset)
  | opcode.JSLT => Some (BpfInsn.Jslt dst src offset)
  | opcode.JSLE => Some (BpfInsn.Jsle dst src offset)
  | opcode.JEQ_IMM => Some (BpfInsn.JeqImm dst imm offset)
  | opcode.JNE_IMM => Some (BpfInsn.JneImm dst imm offset)
  | opcode.JGT_IMM => Some (BpfInsn.JgtImm dst imm offset)
  | opcode.JGE_IMM => Some (BpfInsn.JgeImm dst imm offset)
  | opcode.JLT_IMM => Some (BpfInsn.JltImm dst imm offset)
  | opcode.JLE_IMM => Some (BpfInsn.JleImm dst imm offset)
  | opcode.JSGT_IMM => Some (BpfInsn.JsgtImm dst imm offset)
  | opcode.JSGE_IMM => Some (BpfInsn.JsgeImm dst imm offset)
  | opcode.JSLT_IMM => Some (BpfInsn.JsltImm dst imm offset)
  | opcode.JSLE_IMM => Some (BpfInsn.JsleImm dst imm offset)
  | _ => None
  end.

Definition is_div_mod_imm (op : Z) : bool :=
  match op with
  | opcode.DIV_IMM | opcode.MOD_IMM | opcode.DIV32_IMM | opcode.MOD32_IMM => true
  | _ => false
  end.

(** The arm of the supported ALU opcodes. *)
Definition parse_alu (op dst src offset imm : Z) : result DecodeError BpfInsn :=
  let mul64 := (op =? opcode.MUL_IMM) || (op =? opcode.MUL_REG) in
  let high :=
    if mul64 then MulHigh.from_off offset
    else if offset =? 0 then Some MulHigh.Low else None in
  let reserved :=
    if (op =? opcode.MOV_IMM) || (op =? opcode.MOV_REG)
    then ReservedFields "BPF_MOV uses reserved fields"
    else ReservedFields "BPF_ALU uses reserved fields" in
  match high with
  | None => Err reserved
  | Some high =>
      if src_form_reserved op src imm then Err reserved
      else if is_div_mod_imm op && (imm =? 0) then Err DivisionByZero
      else Ok (alu_insn op dst src imm high)
  end.

Definition is_jmp32 (op : Z) : bool :=
  match op with
  | opcode.JMP32_JEQ | opcode.JMP32_JNE | opcode.JMP32_JGT | opcode.JMP32_JGE
  | opcode.JMP32_JLT | opcode.JMP32_JLE | opcode.JMP32_JSGT | opcode.JMP32_JSGE
  | opcode.JMP32_JSLT | opcode.JMP32_JSLE | opcode.JMP32_JEQ_IMM | opcode.JMP32_JNE_IMM
  | opcode.JMP32_JGT_IMM | opcode.JMP32_JGE_IMM | opcode.JMP32_JLT_IMM | opcode.JMP32_JLE_IMM
  | opcode.JMP32_JSGT_IMM | opcode.JMP32_JSGE_IMM | opcode.JMP32_JSLT_IMM
  | opcode.JMP32_JSLE_IMM => true
  | _ => false
  end.

Definition jmp32_op (op : Z) : Jmp32Op :=
  match Z.land op 0xf0 with
  | 0x10 => Jmp32Op.Eq
  | 0x20 => Jmp32Op.Gt
  | 0x30 => Jmp32Op.Ge
  | 0x50 => Jmp32Op.Ne
  | 0x60 => Jmp32Op.Sgt
  | 0x70 => Jmp32Op.Sge
  | 0xa0 => Jmp32Op.Lt
  | 0xb0 => Jmp32Op.Le
  | 0xc0 => Jmp32Op.Slt
  | _ => Jmp32Op.Sle (* 0xd0; the rest is unreachable!() *)
  end.

(** Bits 3 and 4 of the opcode of a memory access. *)
Definition size_of_op (op : Z) : MemSize :=
  match Z.land (Z.shiftr op 3) 0x3 with
  | 0x0 => MemSize.W
  | 0x1 => MemSize.H
  | 0x2 => MemSize.B
  | _ => MemSize.DW
  end.

Definition is_packet_load (op : Z) : bool :=
  match op with
  | opcode.LD_ABS | opcode.LD_ABS_H | opcode.LD_ABS_B
  | opcode.LD_IND | opcode.LD_IND_H | opcode.LD_IND_B => true
  | _ => false
  end.

Definition parse_packet_load (op dst src imm : Z) : result DecodeError BpfInsn :=
  if negb (dst =? 0) then Err (ReservedFields "BPF_LD ABS/IND uses reserved fields")
  else if op <? 0x40 then
    if negb (src =? 0) then Err (ReservedFields "BPF_LD ABS uses reserved fields")
    else Ok (BpfInsn.LdAbs (size_of_op op) imm)
  else Ok (BpfInsn.LdInd src (size_of_op op) imm).

Definition parse_call (dst src offset imm : Z) : result DecodeError BpfInsn :=
  if negb (dst =? 0) || negb (offset =? 0) then Err (ReservedFields "BPF_CALL uses reserved fields")
  else match src with
       | 0 => Ok (BpfInsn.Call imm)
       | 1 => Ok (BpfInsn.CallSub imm)
       | 2 => Ok (BpfInsn.CallKfunc imm)
       | _ => Err (ReservedFields "BPF_CALL uses reserved fields")
       end.

(** The guard of the memory-access arm: LDX, ST and STX in mode MEM, and LDX
    in mode MEMSX. *)
Definition is_mem_access (op : Z) : bool :=
  ((Z.land op 0xe0 =? 0x60) && ((1 <=? Z.land op 0x07) && (Z.land op 0x07 <=? 3))) ||
  ((Z.land op 0xe0 =? 0x80) && (Z.land op 0x07 =? 0x01)).

Definition parse_mem (op dst src offset imm : Z) : result DecodeError BpfInsn :=
  let size := size_of_op op in
  if negb (imm =? 0) && negb (Z.land op 0x07 =? 0x02) then
    Err (ReservedFields "memory access uses reserved fields")
  else
    let sign_extend := Z.land op 0xe0 =? 0x80 in
    match Z.land op 0x07 with
    | 0x01 => Ok (BpfInsn.LdMem dst src offset size sign_extend)
    | 0x02 => Ok (BpfInsn.StMemImm imm dst offset size)
    | 0x03 => Ok (BpfInsn.StMem src dst offset size)
    | _ => Err (Unsupported op "memory access with an unsupported modifier")
    end.

Definition parse_atomic (op dst src offset imm : Z) : result DecodeError BpfInsn :=
  let size := if op =? opcode.ATOMIC_W then MemSize.W else MemSize.DW in
  if negb (Z.land imm 0x0e =? 0) then Err (ReservedFields "BPF_ATOMIC uses reserved fields")
  else match AtomicOp.from_imm imm with
       | None => Err (Unsupported op "unknown atomic operation")
       | Some atomic_op =>
           let fetch := negb (Z.land imm opcode.FETCH =? 0) in
           if AtomicOp.requires_fetch atomic_op && negb fetch then
             Err (ReservedFields "BPF_ATOMIC uses reserved fields")
           else Ok (BpfInsn.Atomic dst src offset size atomic_op fetch)
       end.

(** [match op], the arms in order. *)
Definition decode_op (op dst src offset imm : Z) : result DecodeError BpfInsn :=
  if is_supported_alu op then parse_alu op dst src offset imm
  else match cmp_insn op dst src imm offset with
  | Some insn =>
      if src_form_reserved op src imm then Err (ReservedFields "BPF_JMP uses reserved fields")
      else Ok insn
  | None =>
  if (op =? opcode.JSET) || (op =? opcode.JSET_IMM) then
    if src_form_reserved op src imm then Err (ReservedFields "BPF_JMP uses reserved fields")
    else Ok (if is_x op then BpfInsn.Jset dst src offset else BpfInsn.JsetImm dst imm offset)
  else if is_jmp32 op then
    if src_form_reserved op src imm then Err (ReservedFields "BPF_JMP32 uses reserved fields")
    else Ok (BpfInsn.Jmp32 dst (if is_x op then Some src else None)
               (if is_x op then None else Some imm) offset (jmp32_op op))
  else if is_packet_load op then parse_packet_load op dst src imm
  else if op =? opcode.JMP then
    if negb (src =? 0) || negb (dst =? 0) || negb (imm =? 0) then
      Err (ReservedFields "BPF_JA uses reserved fields")
    else Ok (BpfInsn.Jmp offset)
  else if op =? opcode.CALL then parse_call dst src offset imm
  else if op =? opcode.EXIT then
    if negb (src =? 0) || negb (dst =? 0) || negb (imm =? 0) then
      Err (ReservedFields "BPF_EXIT uses reserved fields")
    else Ok BpfInsn.Exit
  else if op =? opcode.LD_IMM64 then Err LdImm64Truncated
  else if is_mem_access op then parse_mem op dst src offset imm
  else if (op =? opcode.ATOMIC_W) || (op =? opcode.ATOMIC_DW) then parse_atomic op dst src offset imm
  else match unsupported_reason op with
       | Some reason => Err (Unsupported op reason)
       | None => Err (UnknownOpcode op)
       end
  end.

(** Decode one 8-byte slot: length, register range, then the opcode. *)
Definition parse_insn (bytes : list Z) : result DecodeError BpfInsn :=
  match bytes with
  | [op; regs; o0; o1; i0; i1; i2; i3] =>
      let dst := Z.land regs 0x0F in
      let src := Z.land (Z.shiftr regs 4) 0x0F in
      let offset := i16_le o0 o1 in
      let imm := i32_le i0 i1 i2 i3 in
      if 10 <? dst then Err (InvalidRegister dst)
      else if 10 <? src then Err (InvalidRegister src)
      else decode_op op dst src offset imm
  | _ => Err (InvalidInstructionLength (Z.of_nat (length bytes)))
  end.

(** Decode the two slots of ldimm64. *)
Definition parse_ldimm64 (first second : list Z) : result DecodeError BpfInsn :=
  match first, second with
  | [f0; regs; o0; o1; l0; l1; l2; l3], [s0; s1; s2; s3; h0; h1; h2; h3] =>
      let dst := Z.land regs 0x0F in
      let src := Z.land (Z.shiftr regs 4) 0x0F in
      let offset := i16_le o0 o1 in
      let imm_lo := u32_le l0 l1 l2 l3 in
      let imm_hi := u32_le h0 h1 h2 h3 in
      if 10 <? dst then Err (InvalidRegister dst)
      else if negb (offset =? 0) then Err (ReservedFields "BPF_LD uses reserved fields")
      else if negb (s0 =? 0) || negb (s1 =? 0) || negb (i16_le s2 s3 =? 0) then
        Err (ReservedFields "invalid second part of bpf_ldimm64 insn")
      else match src with
           | 0 => Ok (BpfInsn.LdImm64 dst (Z.lor (Z.shiftl imm_hi 32) imm_lo))
           | opcode.PSEUDO_MAP_FD =>
               if negb (imm_hi =? 0) then
                 Err (ReservedFields "BPF_PSEUDO_MAP_FD uses the second slot as a reserved field")
               else Ok (BpfInsn.LdMapFd dst imm_lo 0 0 0)
           | opcode.PSEUDO_MAP_VALUE => Ok (BpfInsn.LdMapValue dst imm_lo imm_hi 0 0)
           | _ => Err (Unsupported 0x18 "unknown ldimm64 pseudo class")
           end
  | _, _ =>
      if negb (Z.of_nat (length first) =? 8)
      then Err (InvalidInstructionLength (Z.of_nat (length first)))
      else Err (InvalidInstructionLength (Z.of_nat (length second)))
  end.

(** [bytes.as_chunks::<8>()]: the whole slots and the remainder. *)
Fixpoint as_chunks (bytes : list Z) : list (list Z) * list Z :=
  match bytes with
  | b0 :: b1 :: b2 :: b3 :: b4 :: b5 :: b6 :: b7 :: rest =>
      let '(chunks, remainder) := as_chunks rest in
      ([b0; b1; b2; b3; b4; b5; b6; b7] :: chunks, remainder)
  | _ => ([], bytes)
  end.

(** The loop of [decode_program] over the slots not decoded yet; [idx] is the
    slot index. *)
Fixpoint decode_slots (idx : Z) (chunks : list (list Z))
  : result (Z * DecodeError) (list BpfInsn) :=
  let single c rest :=
    match parse_insn c with
    | Err e => Err (idx, e)
    | Ok insn => let? insns := decode_slots (idx + 1) rest in Ok (insn :: insns)
    end in
  match chunks with
  | [] => Ok []
  | c :: rest =>
      if hd 0 c =? opcode.LD_IMM64 then
        match rest with
        | [] => Err (idx, LdImm64Truncated)
        | second :: rest' =>
            match parse_ldimm64 c second with
            | Err e => Err (idx, e)
            | Ok insn =>
                let? insns := decode_slots (idx + 2) rest' in
                Ok (insn
                    :: BpfInsn.LdImm64Second
                         (u32_le (nth 4 second 0) (nth 5 second 0) (nth 6 second 0) (nth 7 second 0))
                    :: insns)
            end
        end
      else single c rest
  end.

Definition decode_program (bytes : list Z) : result (Z * DecodeError) (list BpfInsn) :=
  let '(chunks, remainder) := as_chunks bytes in
  match decode_slots 0 chunks with
  | Err e => Err e
  | Ok insns =>
      match remainder with
      | [] => Ok insns
      | _ => Err (Z.of_nat (length chunks), InvalidInstructionLength (Z.of_nat (length remainder)))
      end
  end.

(** * Encoding *)

(** The opcode pair (register form, immediate form) of a JMP32 compare. *)
Definition jmp32_opcodes (op : Jmp32Op) : Z * Z :=
  match op with
  | Jmp32Op.Eq => (opcode.JMP32_JEQ, opcode.JMP32_JEQ_IMM)
  | Jmp32Op.Ne => (opcode.JMP32_JNE, opcode.JMP32_JNE_IMM)
  | Jmp32Op.Gt => (opcode.JMP32_JGT, opcode.JMP32_JGT_IMM)
  | Jmp32Op.Ge => (opcode.JMP32_JGE, opcode.JMP32_JGE_IMM)
  | Jmp32Op.Lt => (opcode.JMP32_JLT, opcode.JMP32_JLT_IMM)
  | Jmp32Op.Le => (opcode.JMP32_JLE, opcode.JMP32_JLE_IMM)
  | Jmp32Op.Sgt => (opcode.JMP32_JSGT, opcode.JMP32_JSGT_IMM)
  | Jmp32Op.Sge => (opcode.JMP32_JSGE, opcode.JMP32_JSGE_IMM)
  | Jmp32Op.Slt => (opcode.JMP32_JSLT, opcode.JMP32_JSLT_IMM)
  | Jmp32Op.Sle => (opcode.JMP32_JSLE, opcode.JMP32_JSLE_IMM)
  end.

(** The fields (code, dst, src, off, imm) of an instruction; [None] where the
    encoder panics. *)
Definition encode_fields (insn : BpfInsn) : option (Z * Z * Z * Z * Z) :=
  match insn with
  | BpfInsn.Jmp32 dst src imm offset op =>
      match src, imm with
      | Some s, _ => Some (fst (jmp32_opcodes op), dst, s, offset, 0)
      | None, Some i => Some (snd (jmp32_opcodes op), dst, 0, offset, i)
      | None, None => None
      end
  | BpfInsn.Atomic dst src offset size op fetch =>
      Some (match size with MemSize.W => opcode.ATOMIC_W | _ => opcode.ATOMIC_DW end,
            dst, src, offset, Z.lor (AtomicOp.to_imm op) (if fetch then 1 else 0))
  | BpfInsn.LdMem dst base offset size sign_extend =>
      match (match size, sign_extend with
             | MemSize.W, false => Some 0x61
             | MemSize.H, false => Some 0x69
             | MemSize.B, false => Some 0x71
             | MemSize.DW, false => Some 0x79
             | MemSize.W, true => Some 0x81
             | MemSize.H, true => Some 0x89
             | MemSize.B, true => Some 0x91
             | MemSize.DW, true => None
             end) with
      | Some code => Some (code, dst, base, offset, 0)
      | None => None
      end
  | BpfInsn.StMem src base offset size =>
      Some (match size with MemSize.W => 0x63 | MemSize.H => 0x6b | MemSize.B => 0x73 | MemSize.DW => 0x7b end,
            base, src, offset, 0)
  | BpfInsn.StMemImm imm base offset size =>
      Some (match size with MemSize.W => 0x62 | MemSize.H => 0x6a | MemSize.B => 0x72 | MemSize.DW => 0x7a end,
            base, 0, offset, imm)
  | BpfInsn.MovImm dst imm => Some (opcode.MOV_IMM, dst, 0, 0, imm)
  | BpfInsn.MovReg dst src => Some (opcode.MOV_REG, dst, src, 0, 0)
  | BpfInsn.Mov32Imm dst imm => Some (opcode.MOV32_IMM, dst, 0, 0, imm)
  | BpfInsn.Mov32Reg dst src => Some (opcode.MOV32_REG, dst, src, 0, 0)
  | BpfInsn.Jset dst src offset => Some (opcode.JSET, dst, src, offset, 0)
  | BpfInsn.JsetImm dst imm offset => Some (opcode.JSET_IMM, dst, 0, offset, imm)
  | BpfInsn.LdAbs size imm =>
      Some (match size with MemSize.W => opcode.LD_ABS | MemSize.H => opcode.LD_ABS_H | MemSize.B => opcode.LD_ABS_B | MemSize.DW => opcode.LD_ABS_DW end, 0, 0, 0, imm)
  | BpfInsn.LdInd src size imm =>
      Some (match size with MemSize.W => opcode.LD_IND | MemSize.H => opcode.LD_IND_H | MemSize.B => opcode.LD_IND_B | MemSize.DW => opcode.LD_IND_DW end, 0, src, 0, imm)
  | BpfInsn.AddImm dst imm => Some (opcode.ADD_IMM, dst, 0, 0, imm)
  | BpfInsn.AddReg dst src => Some (opcode.ADD_REG, dst, src, 0, 0)
  | BpfInsn.SubImm dst imm => Some (opcode.SUB_IMM, dst, 0, 0, imm)
  | BpfInsn.SubReg dst src => Some (opcode.SUB_REG, dst, src, 0, 0)
  | BpfInsn.AndImm dst imm => Some (opcode.AND_IMM, dst, 0, 0, imm)
  | BpfInsn.AndReg dst src => Some (opcode.AND_REG, dst, src, 0, 0)
  | BpfInsn.OrImm dst imm => Some (opcode.OR_IMM, dst, 0, 0, imm)
  | BpfInsn.OrReg dst src => Some (opcode.OR_REG, dst, src, 0, 0)
  | BpfInsn.XorImm dst imm => Some (opcode.XOR_IMM, dst, 0, 0, imm)
  | BpfInsn.XorReg dst src => Some (opcode.XOR_REG, dst, src, 0, 0)
  | BpfInsn.LshImm dst imm => Some (opcode.LSH_IMM, dst, 0, 0, imm)
  | BpfInsn.LshReg dst src => Some (opcode.LSH_REG, dst, src, 0, 0)
  | BpfInsn.RshImm dst imm => Some (opcode.RSH_IMM, dst, 0, 0, imm)
  | BpfInsn.RshReg dst src => Some (opcode.RSH_REG, dst, src, 0, 0)
  | BpfInsn.ArshImm dst imm => Some (opcode.ARSH_IMM, dst, 0, 0, imm)
  | BpfInsn.ArshReg dst src => Some (opcode.ARSH_REG, dst, src, 0, 0)
  | BpfInsn.MulImm dst imm high => Some (opcode.MUL_IMM, dst, 0, MulHigh.to_off high, imm)
  | BpfInsn.MulReg dst src high => Some (opcode.MUL_REG, dst, src, MulHigh.to_off high, 0)
  | BpfInsn.DivImm dst imm => Some (opcode.DIV_IMM, dst, 0, 0, imm)
  | BpfInsn.DivReg dst src => Some (opcode.DIV_REG, dst, src, 0, 0)
  | BpfInsn.ModImm dst imm => Some (opcode.MOD_IMM, dst, 0, 0, imm)
  | BpfInsn.ModReg dst src => Some (opcode.MOD_REG, dst, src, 0, 0)
  | BpfInsn.Neg dst => Some (opcode.NEG, dst, 0, 0, 0)
  | BpfInsn.Add32Imm dst imm => Some (opcode.ADD32_IMM, dst, 0, 0, imm)
  | BpfInsn.Add32Reg dst src => Some (opcode.ADD32_REG, dst, src, 0, 0)
  | BpfInsn.Sub32Imm dst imm => Some (opcode.SUB32_IMM, dst, 0, 0, imm)
  | BpfInsn.Sub32Reg dst src => Some (opcode.SUB32_REG, dst, src, 0, 0)
  | BpfInsn.And32Imm dst imm => Some (opcode.AND32_IMM, dst, 0, 0, imm)
  | BpfInsn.And32Reg dst src => Some (opcode.AND32_REG, dst, src, 0, 0)
  | BpfInsn.Or32Imm dst imm => Some (opcode.OR32_IMM, dst, 0, 0, imm)
  | BpfInsn.Or32Reg dst src => Some (opcode.OR32_REG, dst, src, 0, 0)
  | BpfInsn.Xor32Imm dst imm => Some (opcode.XOR32_IMM, dst, 0, 0, imm)
  | BpfInsn.Xor32Reg dst src => Some (opcode.XOR32_REG, dst, src, 0, 0)
  | BpfInsn.Lsh32Imm dst imm => Some (opcode.LSH32_IMM, dst, 0, 0, imm)
  | BpfInsn.Lsh32Reg dst src => Some (opcode.LSH32_REG, dst, src, 0, 0)
  | BpfInsn.Rsh32Imm dst imm => Some (opcode.RSH32_IMM, dst, 0, 0, imm)
  | BpfInsn.Rsh32Reg dst src => Some (opcode.RSH32_REG, dst, src, 0, 0)
  | BpfInsn.Arsh32Imm dst imm => Some (opcode.ARSH32_IMM, dst, 0, 0, imm)
  | BpfInsn.Arsh32Reg dst src => Some (opcode.ARSH32_REG, dst, src, 0, 0)
  | BpfInsn.Mul32Imm dst imm => Some (opcode.MUL32_IMM, dst, 0, 0, imm)
  | BpfInsn.Mul32Reg dst src => Some (opcode.MUL32_REG, dst, src, 0, 0)
  | BpfInsn.Div32Imm dst imm => Some (opcode.DIV32_IMM, dst, 0, 0, imm)
  | BpfInsn.Div32Reg dst src => Some (opcode.DIV32_REG, dst, src, 0, 0)
  | BpfInsn.Mod32Imm dst imm => Some (opcode.MOD32_IMM, dst, 0, 0, imm)
  | BpfInsn.Mod32Reg dst src => Some (opcode.MOD32_REG, dst, src, 0, 0)
  | BpfInsn.Neg32 dst => Some (opcode.NEG32, dst, 0, 0, 0)
  | BpfInsn.LdImm64 dst imm => Some (opcode.LD_IMM64, dst, 0, 0, as_i32 (as_u32 imm))
  | BpfInsn.LdMapFd dst fd _ _ _ => Some (opcode.LD_IMM64, dst, opcode.PSEUDO_MAP_FD, 0, as_i32 fd)
  | BpfInsn.LdMapValue dst fd _ _ _ => Some (opcode.LD_IMM64, dst, opcode.PSEUDO_MAP_VALUE, 0, as_i32 fd)
  | BpfInsn.LdImm64Second imm_hi => Some (0x00, 0, 0, 0, as_i32 imm_hi)
  | BpfInsn.Jeq dst src offset => Some (opcode.JEQ, dst, src, offset, 0)
  | BpfInsn.Jne dst src offset => Some (opcode.JNE, dst, src, offset, 0)
  | BpfInsn.Jgt dst src offset => Some (opcode.JGT, dst, src, offset, 0)
  | BpfInsn.Jge dst src offset => Some (opcode.JGE, dst, src, offset, 0)
  | BpfInsn.Jlt dst src offset => Some (opcode.JLT, dst, src, offset, 0)
  | BpfInsn.Jle dst src offset => Some (opcode.JLE, dst, src, offset, 0)
  | BpfInsn.Jsgt dst src offset => Some (opcode.JSGT, dst, src, offset, 0)
  | BpfInsn.Jsge dst src offset => Some (opcode.JSGE, dst, src, offset, 0)
  | BpfInsn.Jslt dst src offset => Some (opcode.JSLT, dst, src, offset, 0)
  | BpfInsn.Jsle dst src offset => Some (opcode.JSLE, dst, src, offset, 0)
  | BpfInsn.JeqImm dst imm offset => Some (opcode.JEQ_IMM, dst, 0, offset, imm)
  | BpfInsn.JneImm dst imm offset => Some (opcode.JNE_IMM, dst, 0, offset, imm)
  | BpfInsn.JgtImm dst imm offset => Some (opcode.JGT_IMM, dst, 0, offset, imm)
  | BpfInsn.JgeImm dst imm offset => Some (opcode.JGE_IMM, dst, 0, offset, imm)
  | BpfInsn.JltImm dst imm offset => Some (opcode.JLT_IMM, dst, 0, offset, imm)
  | BpfInsn.JleImm dst imm offset => Some (opcode.JLE_IMM, dst, 0, offset, imm)
  | BpfInsn.JsgtImm dst imm offset => Some (opcode.JSGT_IMM, dst, 0, offset, imm)
  | BpfInsn.JsgeImm dst imm offset => Some (opcode.JSGE_IMM, dst, 0, offset, imm)
  | BpfInsn.JsltImm dst imm offset => Some (opcode.JSLT_IMM, dst, 0, offset, imm)
  | BpfInsn.JsleImm dst imm offset => Some (opcode.JSLE_IMM, dst, 0, offset, imm)
  | BpfInsn.Jmp offset => Some (opcode.JMP, 0, 0, offset, 0)
  | BpfInsn.Call imm => Some (opcode.CALL, 0, 0, 0, imm)
  | BpfInsn.CallSub offset => Some (opcode.CALL, 0, 1, 0, offset)
  | BpfInsn.CallKfunc btf_id => Some (opcode.CALL, 0, 2, 0, btf_id)
  | BpfInsn.Exit => Some (opcode.EXIT, 0, 0, 0, 0)
  end.

(** [to_le_bytes] of an i16 and an i32. *)
Definition le16 (x : Z) : list Z := [as_u8 x; as_u8 (Z.shiftr x 8)].
Definition le32 (x : Z) : list Z :=
  [as_u8 x; as_u8 (Z.shiftr x 8); as_u8 (Z.shiftr x 16); as_u8 (Z.shiftr x 24)].

Definition encode (insn : BpfInsn) : option (list Z) :=
  match encode_fields insn with
  | None => None
  | Some (code, dst, src, off, imm) =>
      Some (code :: Z.lor (as_u8 (Z.shiftl src 4)) (Z.land dst 0x0F) :: le16 off ++ le32 imm)
  end.

(** The opcode family of the campaign's coverage counters. *)
Open Scope string_scope.
Definition opcode_family (insn : BpfInsn) : string :=
  match insn with
  | BpfInsn.MovImm _ _ | BpfInsn.MovReg _ _ | BpfInsn.AddImm _ _ | BpfInsn.AddReg _ _
  | BpfInsn.SubImm _ _ | BpfInsn.SubReg _ _ | BpfInsn.AndImm _ _ | BpfInsn.AndReg _ _
  | BpfInsn.OrImm _ _ | BpfInsn.OrReg _ _ | BpfInsn.XorImm _ _ | BpfInsn.XorReg _ _
  | BpfInsn.LshImm _ _ | BpfInsn.LshReg _ _ | BpfInsn.RshImm _ _ | BpfInsn.RshReg _ _
  | BpfInsn.ArshImm _ _ | BpfInsn.ArshReg _ _ | BpfInsn.MulImm _ _ _ | BpfInsn.MulReg _ _ _
  | BpfInsn.DivImm _ _ | BpfInsn.DivReg _ _ | BpfInsn.ModImm _ _ | BpfInsn.ModReg _ _
  | BpfInsn.Neg _ => "alu64"
  | BpfInsn.Mov32Imm _ _ | BpfInsn.Mov32Reg _ _ | BpfInsn.Add32Imm _ _ | BpfInsn.Add32Reg _ _
  | BpfInsn.Sub32Imm _ _ | BpfInsn.Sub32Reg _ _ | BpfInsn.And32Imm _ _ | BpfInsn.And32Reg _ _
  | BpfInsn.Or32Imm _ _ | BpfInsn.Or32Reg _ _ | BpfInsn.Xor32Imm _ _ | BpfInsn.Xor32Reg _ _
  | BpfInsn.Lsh32Imm _ _ | BpfInsn.Lsh32Reg _ _ | BpfInsn.Rsh32Imm _ _ | BpfInsn.Rsh32Reg _ _
  | BpfInsn.Arsh32Imm _ _ | BpfInsn.Arsh32Reg _ _ | BpfInsn.Mul32Imm _ _ | BpfInsn.Mul32Reg _ _
  | BpfInsn.Div32Imm _ _ | BpfInsn.Div32Reg _ _ | BpfInsn.Mod32Imm _ _ | BpfInsn.Mod32Reg _ _
  | BpfInsn.Neg32 _ => "alu32"
  | BpfInsn.Jset _ _ _ | BpfInsn.JsetImm _ _ _ | BpfInsn.Jmp32 _ _ _ _ _ | BpfInsn.Jeq _ _ _
  | BpfInsn.JeqImm _ _ _ | BpfInsn.Jne _ _ _ | BpfInsn.JneImm _ _ _ => "cmp_eq"
  | BpfInsn.Jgt _ _ _ | BpfInsn.JgtImm _ _ _ | BpfInsn.Jge _ _ _ | BpfInsn.JgeImm _ _ _
  | BpfInsn.Jlt _ _ _ | BpfInsn.JltImm _ _ _ | BpfInsn.Jle _ _ _ | BpfInsn.JleImm _ _ _ => "cmp_unsigned"
  | BpfInsn.Jsgt _ _ _ | BpfInsn.JsgtImm _ _ _ | BpfInsn.Jsge _ _ _ | BpfInsn.JsgeImm _ _ _
  | BpfInsn.Jslt _ _ _ | BpfInsn.JsltImm _ _ _ | BpfInsn.Jsle _ _ _ | BpfInsn.JsleImm _ _ _ => "cmp_signed"
  | BpfInsn.LdMem _ _ _ _ _ | BpfInsn.StMem _ _ _ _ | BpfInsn.StMemImm _ _ _ _ => "stack"
  | BpfInsn.LdImm64 _ _ | BpfInsn.LdMapFd _ _ _ _ _ | BpfInsn.LdMapValue _ _ _ _ _
  | BpfInsn.LdImm64Second _ => "ldimm64"
  | BpfInsn.Call _ => "helper"
  | BpfInsn.CallSub _ | BpfInsn.CallKfunc _ => "subcall"
  | BpfInsn.Atomic _ _ _ _ _ _ => "atomic"
  | BpfInsn.LdAbs _ _ | BpfInsn.LdInd _ _ _ => "ldabs"
  | BpfInsn.Jmp _ => "jmp"
  | BpfInsn.Exit => "exit"
  end.
Close Scope string_scope.

(** * Well-formed instructions *)

Definition in_range (lo hi x : Z) : bool := (lo <=? x) && (x <=? hi).

(** What an instruction of one slot satisfies after decoding: register numbers
    up to 10, offset and immediate of their types, no division by a zero
    immediate, an atomic access of 4 or 8 bytes that fetches when it has to,
    one operand of a JMP32, no 8-byte packet load. *)
Definition insn_shape (insn : BpfInsn) : bool :=
  match insn with
  | BpfInsn.DivImm _ imm | BpfInsn.ModImm _ imm | BpfInsn.Div32Imm _ imm
  | BpfInsn.Mod32Imm _ imm => negb (imm =? 0)
  | BpfInsn.Jmp32 _ src imm _ _ =>
      match src, imm with Some _, None | None, Some _ => true | _, _ => false end
  | BpfInsn.Atomic _ _ _ size op fetch =>
      match size with MemSize.W | MemSize.DW => true | _ => false end &&
      (negb (AtomicOp.requires_fetch op) || fetch)
  | BpfInsn.LdAbs size _ | BpfInsn.LdInd _ size _ =>
      match size with MemSize.DW => false | _ => true end
  | BpfInsn.LdImm64 _ _ | BpfInsn.LdMapFd _ _ _ _ _ | BpfInsn.LdMapValue _ _ _ _ _
  | BpfInsn.LdImm64Second _ => false
  | _ => true
  end.

Definition insn_wf (insn : BpfInsn) : bool :=
  match encode_fields insn with
  | None => false
  | Some (_, dst, src, off, imm) =>
      in_range 0 10 dst && in_range 0 10 src && in_range (-32768) 32767 off &&
      in_range I32_MIN I32_MAX imm && insn_shape insn
  end.

(** The reserved fields the decoder does not look at: the immediate of NEG,
    the source register of a store of an immediate, the offset of a packet
    load or an exit, and the upper bits of an atomic operation's immediate. *)
Definition ignored_fields (op src offset imm : Z) : bool :=
  match op with
  | opcode.NEG | opcode.NEG32 => negb (imm =? 0)
  | 0x62 | 0x6a | 0x72 | 0x7a => negb (src =? 0)
  | opcode.LD_ABS | opcode.LD_ABS_H | opcode.LD_ABS_B
  | opcode.LD_IND | opcode.LD_IND_H | opcode.LD_IND_B => negb (offset =? 0)
  | opcode.ATOMIC_W | opcode.ATOMIC_DW => negb (in_range 0 255 imm)
  | opcode.EXIT => negb (offset =? 0)
  | _ => false
  end.

(** * Bytes and fields *)

#[global] Arguments in_range : simpl never.

Lemma as_i16_spec x : -32768 <= as_i16 x <= 32767 /\ as_u16 (as_i16 x) = as_u16 x.
Proof.
  unfold as_i, as_u. pose proof (Z.mod_pos_bound x (2 ^ 16) ltac:(lia)).
  destruct (Z.ltb_spec (x mod 2 ^ 16) (2 ^ (16 - 1))); (split; [lia|]); div_lia.
Qed.

Lemma as_u32_as_i32_id x : as_u32 (as_i32 x) = as_u32 x.
Proof.
  unfold as_i, as_u. pose proof (Z.mod_pos_bound x (2 ^ 32) ltac:(lia)).
  destruct (Z.ltb_spec (x mod 2 ^ 32) (2 ^ (32 - 1))); div_lia.
Qed.

Lemma as_i16_of_le x : -32768 <= x <= 32767 -> i16_le (as_u8 x) (as_u8 (Z.shiftr x 8)) = x.
Proof.
  intros. unfold i16_le, u16_le, as_u, as_i. rewrite Z.shiftr_div_pow2 by lia.
  destruct (Z.ltb_spec ((x mod 2 ^ 8 + 256 * ((x / 2 ^ 8) mod 2 ^ 8)) mod 2 ^ 16) (2 ^ (16 - 1)));
    div_lia.
Qed.

Lemma u32_le_mod x :
  u32_le (as_u8 x) (as_u8 (Z.shiftr x 8)) (as_u8 (Z.shiftr x 16)) (as_u8 (Z.shiftr x 24)) = as_u32 x.
Proof.
  unfold u32_le, as_u. rewrite !Z.shiftr_div_pow2 by lia.
  replace (x / 2 ^ 16) with (x / 2 ^ 8 / 2 ^ 8) by (rewrite Z.div_div by lia; f_equal; lia).
  replace (x / 2 ^ 24) with (x / 2 ^ 8 / 2 ^ 8 / 2 ^ 8) by (rewrite !Z.div_div by lia; f_equal; lia).
  div_lia.
Qed.

Lemma i32_le_id x :
  is_i32 x ->
  i32_le (as_u8 x) (as_u8 (Z.shiftr x 8)) (as_u8 (Z.shiftr x 16)) (as_u8 (Z.shiftr x 24)) = x.
Proof.
  intros. unfold i32_le. rewrite u32_le_mod. unfold as_u. rewrite as_i_mod.
  unfold as_i. destruct (Z.ltb_spec (x mod 2 ^ 32) (2 ^ (32 - 1))); div_lia.
Qed.

Lemma le16_id b0 b1 :
  0 <= b0 < 256 -> 0 <= b1 < 256 -> le16 (i16_le b0 b1) = [b0; b1].
Proof.
  intros. unfold le16, i16_le, u16_le, as_u, as_i. rewrite Z.shiftr_div_pow2 by lia.
  destruct (Z.ltb_spec ((b0 + 256 * b1) mod 2 ^ 16) (2 ^ (16 - 1))); f_equal; [|f_equal| |f_equal];
    div_lia.
Qed.

Lemma le32_id b0 b1 b2 b3 :
  0 <= b0 < 256 -> 0 <= b1 < 256 -> 0 <= b2 < 256 -> 0 <= b3 < 256 ->
  le32 (i32_le b0 b1 b2 b3) = [b0; b1; b2; b3].
Proof.
  intros. unfold le32, i32_le. set (u := u32_le b0 b1 b2 b3).
  assert (Hu : 0 <= u < 2 ^ 32) by (subst u; unfold u32_le; lia).
  assert (Hk : exists k, as_i32 u = u + k * 2 ^ 32).
  { unfold as_i. rewrite (Z.mod_small u) by lia.
    destruct (Z.ltb_spec u (2 ^ (32 - 1))); [exists 0|exists (-1)]; lia. }
  destruct Hk as [k ->]. unfold as_u. rewrite !Z.shiftr_div_pow2 by lia.
  subst u. unfold u32_le.
  replace ((b0 + 256 * (b1 + 256 * (b2 + 256 * b3)) + k * 2 ^ 32) / 2 ^ 8)
    with (b1 + 256 * (b2 + 256 * b3) + k * 2 ^ 24) by div_lia.
  replace ((b0 + 256 * (b1 + 256 * (b2 + 256 * b3)) + k * 2 ^ 32) / 2 ^ 16)
    with (b2 + 256 * b3 + k * 2 ^ 16) by div_lia.
  replace ((b0 + 256 * (b1 + 256 * (b2 + 256 * b3)) + k * 2 ^ 32) / 2 ^ 24)
    with (b3 + k * 2 ^ 8) by div_lia.
  repeat f_equal; div_lia.
Qed.

(** The register byte: destination in the low nibble, source in the high one. *)
Lemma regs_byte dst src :
  0 <= dst <= 10 -> 0 <= src <= 10 ->
  let regs := Z.lor (as_u8 (Z.shiftl src 4)) (Z.land dst 0x0F) in
  0 <= regs < 256 /\ Z.land regs 0x0F = dst /\ Z.land (Z.shiftr regs 4) 0x0F = src.
Proof.
  intros Hd Hs.
  assert (Hd' : In dst (map Z.of_nat (seq 0 11))).
  { apply in_map_iff. exists (Z.to_nat dst). split; [lia|]. apply in_seq. lia. }
  assert (Hs' : In src (map Z.of_nat (seq 0 11))).
  { apply in_map_iff. exists (Z.to_nat src). split; [lia|]. apply in_seq. lia. }
  cbn in Hd', Hs'.
  repeat (destruct Hd' as [<-|Hd']); try done; repeat (destruct Hs' as [<-|Hs']); try done;
    cbv; intuition discriminate.
Qed.

Lemma regs_byte_inv regs :
  0 <= regs < 256 ->
  Z.lor (as_u8 (Z.shiftl (Z.land (Z.shiftr regs 4) 0x0F) 4)) (Z.land (Z.land regs 0x0F) 0x0F) = regs.
Proof.
  intros. change 0x0F with (Z.ones 4). rewrite !Z.land_ones, Z.mod_mod by lia.
  rewrite <- (Z.lxor_lor _ _), <- Z.add_nocarry_lxor.
  - rewrite Z.shiftl_mul_pow2, Z.shiftr_div_pow2 by lia. unfold as_u. div_lia.
  - apply Z.bits_inj'. intros i Hi. rewrite Z.land_spec, as_u_spec, Z.testbit_0_l by lia.
    destruct (Z.lt_ge_cases i 4).
    + rewrite Z.shiftl_spec_low by lia. by rewrite andb_false_r.
    + rewrite (Z.mod_pow2_bits_high regs 4 i) by lia. by rewrite andb_false_r.
  - apply Z.bits_inj'. intros i Hi. rewrite Z.land_spec, as_u_spec, Z.testbit_0_l by lia.
    destruct (Z.lt_ge_cases i 4).
    + rewrite Z.shiftl_spec_low by lia. by rewrite andb_false_r.
    + rewrite (Z.mod_pow2_bits_high regs 4 i) by lia. by rewrite andb_false_r.
Qed.

Lemma nibble x : 0 <= Z.land x 0x0F < 16.
Proof. change 0x0F with (Z.ones 4). rewrite Z.land_ones by lia. apply Z.mod_pos_bound. lia. Qed.

(** * The opcode dispatch *)

(** Encoded fields dispatch back to the instruction. *)
Lemma decode_op_encoded insn op dst src offset imm :
  encode_fields insn = Some (op, dst, src, offset, imm) -> insn_shape insn = true ->
  decode_op op dst src offset imm = Ok insn.
Proof.
  intros He Hs. destruct insn; cbn in He, Hs; try discriminate;
    repeat match goal with
    | H : context [match ?x with _ => _ end] |- _ => is_var x; destruct x; cbn in *; try discriminate
    end; injection He as <- <- <- <- <-; try reflexivity;
    match goal with
    | m : MulHigh |- _ => destruct m; reflexivity
    | o : Jmp32Op |- _ => destruct o; reflexivity
    | o : AtomicOp |- _ => destruct o; first [reflexivity | discriminate Hs]
    | x : Z |- context [decode_op _ _ 0 _ ?x] =>
        cbv - [Z.eqb]; destruct (Z.eqb x 0); first [reflexivity | discriminate Hs]
    end.
Qed.

Lemma u8_list op : 0 <= op < 256 -> In op (map Z.of_nat (seq 0 256)).
Proof. intros. apply in_map_iff. exists (Z.to_nat op). split; [lia|]. apply in_seq. lia. Qed.

Lemma from_off_inv off m : MulHigh.from_off off = Some m -> off = MulHigh.to_off m.
Proof.
  unfold MulHigh.from_off. intros H. destruct off as [|[|[]|]|]; simplify_eq; reflexivity.
Qed.

Lemma to_off_range m : in_range (-32768) 32767 (MulHigh.to_off m) = true.
Proof. by destruct m. Qed.

Lemma from_imm_inv imm op :
  AtomicOp.from_imm imm = Some op -> Z.land imm 0x0e = 0 -> in_range 0 255 imm = true ->
  Z.lor (AtomicOp.to_imm op) (if negb (Z.land imm 1 =? 0) then 1 else 0) = imm.
Proof.
  intros Ho Hz Hr. assert (Hin : In imm (map Z.of_nat (seq 0 256))).
  { apply u8_list. unfold in_range in Hr. lia. }
  vm_compute in Hin. clear Hr.
  repeat (destruct Hin as [<-|Hin]; [first [discriminate Hz|injection Ho as <-; reflexivity|discriminate Ho]|]).
  done.
Qed.

Lemma atomic_imm_range op (fetch : bool) :
  in_range I32_MIN I32_MAX (Z.lor (AtomicOp.to_imm op) (if fetch then 1 else 0)) = true.
Proof. by destruct op, fetch. Qed.

Ltac accept_tests :=
  repeat match goal with
  | H : match ?x with _ => _ end = Ok _ |- _ => destruct x eqn:?; try discriminate H
  | H : match ?x with _ => _ end = Some _ |- _ => destruct x eqn:?; try discriminate H
  end; simplify_eq/=; bool_hyps; subst;
  repeat match goal with
  | H : MulHigh.from_off ?o = Some _ |- _ => apply from_off_inv in H; subst o
  end.
Ltac accept_wf :=
  rewrite ?to_off_range, ?atomic_imm_range;
  repeat match goal with H : in_range _ _ _ = true |- _ => rewrite H; clear H end;
  repeat match goal with H : _ <> 0 |- _ => rewrite (proj2 (Z.eqb_neq _ _) H); clear H end;
  try match goal with H : AtomicOp.requires_fetch _ = false \/ _ |- _ =>
    destruct H as [H|H%negb_false_iff]; rewrite H; simpl
  end; rewrite ?orb_true_r; reflexivity.
Ltac accept_fields :=
  bool_hyps; subst; cbn;
  first [reflexivity | by rewrite from_imm_inv].

(** The other direction: what the dispatch accepts is well-formed, except for
    the 8-byte sign-extending load (opcode 0x99), and encodes back to the same
    fields when no reserved field was ignored. *)
Lemma decode_op_accepts op dst src offset imm insn :
  0 <= op < 256 -> in_range 0 10 dst = true -> in_range 0 10 src = true ->
  in_range (-32768) 32767 offset = true -> in_range I32_MIN I32_MAX imm = true ->
  decode_op op dst src offset imm = Ok insn ->
  (insn_wf insn = true \/ insn = BpfInsn.LdMem dst src offset MemSize.DW true) /\
  (insn_wf insn = true -> ignored_fields op src offset imm = false ->
   encode_fields insn = Some (op, dst, src, offset, imm)).
Proof.
  intros Hop Hd Hs Ho Hi. apply u8_list in Hop. vm_compute in Hop.
  repeat (destruct Hop as [<-|Hop]); [..|done]; intros H; try discriminate H.
  all: unfold decode_op in H; cbn in H;
    unfold parse_alu, parse_packet_load, parse_call, parse_mem, parse_atomic,
      src_form_reserved, is_x, size_of_op in H; cbn in H; rewrite ?andb_true_r in H; accept_tests.
  all: split; [first [left; unfold insn_wf; cbn; accept_wf | right; reflexivity]
              |intros Hwf Hig; cbn in Hig; first [discriminate Hwf | accept_fields]].
Qed.

(** * One slot *)

Definition is_byte (b : Z) : Prop := 0 <= b < 256.

(** [ignored_fields] of a raw slot. *)
Definition slot_ignored (bytes : list Z) : bool :=
  match bytes with
  | [op; regs; o0; o1; i0; i1; i2; i3] =>
      ignored_fields op (Z.land (Z.shiftr regs 4) 0x0F) (i16_le o0 o1) (i32_le i0 i1 i2 i3)
  | _ => false
  end.

Lemma in_range_iff lo hi x : in_range lo hi x = true <-> lo <= x <= hi.
Proof. unfold in_range. rewrite andb_true_iff, !Z.leb_le. done. Qed.

Lemma as_u8_byte x : is_byte (as_u8 x).
Proof. unfold is_byte. pose proof (as_u_range 8 x). lia. Qed.

Lemma encode_op_byte insn op dst src offset imm :
  encode_fields insn = Some (op, dst, src, offset, imm) -> is_byte op.
Proof.
  unfold is_byte. intros He. destruct insn; cbn in He;
    repeat match goal with
    | H : context [match ?x with _ => _ end] |- _ => is_var x; destruct x; cbn in *; try discriminate
    end; injection He; intros; subst; try lia;
    match goal with o : Jmp32Op |- _ => destruct o; cbn; lia end.
Qed.

Lemma parse_encoded insn :
  insn_wf insn = true ->
  exists bytes, encode insn = Some bytes /\ Forall is_byte bytes /\ parse_insn bytes = Ok insn.
Proof.
  unfold insn_wf, encode. destruct (encode_fields insn) as [[[[[op dst] src] off] imm]|] eqn:He; [|done].
  rewrite !andb_true_iff, !in_range_iff. intros [[[[Hd Hs] Ho] Hi] Hshape].
  destruct (regs_byte dst src Hd Hs) as (Hrb & Hrd & Hrs). eexists. split; [reflexivity|]. split.
  - pose proof (encode_op_byte _ _ _ _ _ _ He). unfold le16, le32. simpl.
    repeat (constructor; [first [done|apply as_u8_byte]|]). constructor.
  - unfold le16, le32. cbn [app parse_insn]. cbv zeta. rewrite Hrd, Hrs.
    rewrite as_i16_of_le, i32_le_id by lia.
    rewrite !(proj2 (Z.ltb_ge 10 _)) by lia. by apply decode_op_encoded.
Qed.

Lemma parse_accepts bytes insn :
  Forall is_byte bytes -> parse_insn bytes = Ok insn ->
  (insn_wf insn = true \/
   exists dst base offset, base <= 10 /\ insn = BpfInsn.LdMem dst base offset MemSize.DW true) /\
  (insn_wf insn = true -> slot_ignored bytes = false -> encode insn = Some bytes).
Proof.
  intros Hb Hp. do 9 (destruct bytes as [|? bytes]; try discriminate Hp).
  repeat match goal with
  | H : Forall _ (_ :: _) |- _ => apply Forall_cons in H; destruct H as [? H]; unfold is_byte in *
  end.
  cbn [parse_insn] in Hp. cbv zeta in Hp.
  destruct (Z.ltb_spec 10 (Z.land z0 0x0F)); [done|].
  destruct (Z.ltb_spec 10 (Z.land (Z.shiftr z0 4) 0x0F)); [done|].
  pose proof (nibble z0). pose proof (nibble (Z.shiftr z0 4)).
  destruct (as_i16_spec (u16_le z1 z2)) as [Ho _].
  pose proof (as_i32_range (u32_le z3 z4 z5 z6)) as Hi.
  apply decode_op_accepts in Hp as [Hwf Henc]; [|lia|apply in_range_iff; first [lia|done]..].
  split.
  - destruct Hwf as [?|Hl]; [by left|right; eauto 6].
  - intros Hw Hig. unfold encode. rewrite (Henc Hw Hig).
    by rewrite regs_byte_inv, le16_id, le32_id by lia.
Qed.

(** * Whole programs *)

(** [insns.iter().flat_map(encode).collect()]; [None] where [encode] panics. *)
Fixpoint encode_program (insns : list BpfInsn) : option (list Z) :=
  match insns with
  | [] => Some []
  | insn :: rest =>
      match encode insn, encode_program rest with
      | Some b, Some bs => Some (b ++ bs)
      | _, _ => None
      end
  end.

(** The two entries of an ldimm64: the constant, map or map-value form and the
    marker that carries the second slot's immediate. *)
Definition ldimm64_pair (first : BpfInsn) (imm_hi : Z) : bool :=
  in_range 0 U32_MAX imm_hi &&
  match first with
  | BpfInsn.LdImm64 dst imm =>
      in_range 0 10 dst && in_range 0 U64_MAX imm && (imm_hi =? Z.shiftr imm 32)
  | BpfInsn.LdMapFd dst fd key_size value_size map_type =>
      in_range 0 10 dst && in_range 0 U32_MAX fd && (key_size =? 0) && (value_size =? 0) &&
      (map_type =? 0) && (imm_hi =? 0)
  | BpfInsn.LdMapValue dst fd offset key_size value_size =>
      in_range 0 10 dst && in_range 0 U32_MAX fd && (offset =? imm_hi) && (key_size =? 0) &&
      (value_size =? 0)
  | _ => false
  end.

(** A slot stream: well-formed single slots and ldimm64 pairs. *)
Fixpoint program_wf (insns : list BpfInsn) : bool :=
  match insns with
  | [] => true
  | first :: rest =>
      if insn_wf first then program_wf rest
      else match rest with
           | BpfInsn.LdImm64Second imm_hi :: rest' => ldimm64_pair first imm_hi && program_wf rest'
           | _ => false
           end
  end.

Lemma encode_length insn bytes : encode insn = Some bytes -> length bytes = 8%nat.
Proof.
  unfold encode. destruct (encode_fields insn) as [[[[[? ?] ?] ?] ?]|]; [|done].
  intros H. injection H as <-. reflexivity.
Qed.

Lemma as_chunks_app slot rest :
  length slot = 8%nat ->
  as_chunks (slot ++ rest) = (slot :: fst (as_chunks rest), snd (as_chunks rest)).
Proof.
  intros. do 9 (destruct slot as [|? slot]; try discriminate).
  simpl. by destruct (as_chunks rest).
Qed.

Lemma encoded_head insn bytes :
  insn_wf insn = true -> encode insn = Some bytes -> (hd 0 bytes =? opcode.LD_IMM64) = false.
Proof.
  unfold insn_wf, encode. destruct (encode_fields insn) as [[[[[op dst] src] off] imm]|] eqn:He; [|done].
  rewrite !andb_true_iff. intros [_ Hs] Hb. injection Hb as <-. cbn [hd app].
  apply Z.eqb_neq. intros ->. pose proof (decode_op_encoded _ _ _ _ _ _ He Hs) as Hd.
  discriminate Hd.
Qed.

Lemma decode_single idx insn bytes chunks :
  insn_wf insn = true -> encode insn = Some bytes ->
  decode_slots idx (bytes :: chunks) =
    (let? insns := decode_slots (idx + 1) chunks in Ok (insn :: insns)).
Proof.
  intros Hw He. destruct (parse_encoded insn Hw) as (b & Hb & _ & Hp).
  rewrite He in Hb. injection Hb as <-. cbn [decode_slots].
  rewrite (encoded_head insn bytes Hw He). cbv zeta. by rewrite Hp.
Qed.

(** The second slot of an ldimm64 and its immediate. *)
Lemma second_slot hi :
  is_u32 hi ->
  exists b0 b1 b2 b3,
    encode (BpfInsn.LdImm64Second hi) = Some [0; 0; 0; 0; b0; b1; b2; b3] /\
    u32_le b0 b1 b2 b3 = hi.
Proof.
  intros. do 4 eexists. split; [reflexivity|]. rewrite u32_le_mod, as_u32_as_i32_id.
  unfold as_u. apply Z.mod_small. lia.
Qed.

Lemma wide_imm imm :
  is_u64 imm -> Z.lor (Z.shiftl (Z.shiftr imm 32) 32) (as_u32 imm) = imm.
Proof.
  intros. apply Z.bits_inj'. intros i Hi. rewrite Z.lor_spec, as_u_spec by lia.
  destruct (Z.ltb_spec i 32).
  - by rewrite Z.shiftl_spec_low by lia.
  - rewrite Z.shiftl_spec, Z.shiftr_spec by lia. simpl. rewrite orb_false_r. f_equal. lia.
Qed.

(** The decoder on a first slot with register byte [dst]/[src] and immediate
    word [lo], and a second slot with immediate word [hi]. *)
Lemma parse_pair dst src lo h0 h1 h2 h3 :
  0 <= dst <= 10 -> 0 <= src <= 10 ->
  parse_ldimm64
    (0x18 :: Z.lor (as_u8 (Z.shiftl src 4)) (Z.land dst 0x0F) :: le16 0 ++ le32 (as_i32 lo))
    [0; 0; 0; 0; h0; h1; h2; h3] =
  (let hi := u32_le h0 h1 h2 h3 in
   match src with
   | 0 => Ok (BpfInsn.LdImm64 dst (Z.lor (Z.shiftl hi 32) (as_u32 lo)))
   | opcode.PSEUDO_MAP_FD =>
       if negb (hi =? 0) then
         Err (ReservedFields "BPF_PSEUDO_MAP_FD uses the second slot as a reserved field")
       else Ok (BpfInsn.LdMapFd dst (as_u32 lo) 0 0 0)
   | opcode.PSEUDO_MAP_VALUE => Ok (BpfInsn.LdMapValue dst (as_u32 lo) hi 0 0)
   | _ => Err (Unsupported 0x18 "unknown ldimm64 pseudo class")
   end).
Proof.
  intros Hd Hs. destruct (regs_byte dst src Hd Hs) as (_ & Hrd & Hrs).
  unfold le16, le32. cbn [app parse_ldimm64]. cbv zeta. rewrite Hrd, Hrs.
  rewrite as_i16_of_le by lia. rewrite (proj2 (Z.ltb_ge 10 dst)) by lia.
  rewrite u32_le_mod, as_u32_as_i32_id. reflexivity.
Qed.

Lemma as_u32_small x : is_u32 x -> as_u32 x = x.
Proof. intros. apply as_u_small. lia. Qed.

Lemma decode_pair idx first hi chunks :
  ldimm64_pair first hi = true ->
  exists b1 b2,
    encode first = Some b1 /\ encode (BpfInsn.LdImm64Second hi) = Some b2 /\
    decode_slots idx (b1 :: b2 :: chunks) =
      (let? insns := decode_slots (idx + 2) chunks in
       Ok (first :: BpfInsn.LdImm64Second hi :: insns)).
Proof.
  unfold ldimm64_pair. rewrite andb_true_iff, in_range_iff. intros [Hhi Hf].
  destruct (second_slot hi Hhi) as (h0 & h1 & h2 & h3 & He2 & Hw).
  assert (Hstep : forall dst src lo,
    0 <= dst <= 10 -> 0 <= src <= 10 ->
    encode_fields first = Some (0x18, dst, src, 0, as_i32 lo) ->
    parse_ldimm64 (0x18 :: Z.lor (as_u8 (Z.shiftl src 4)) (Z.land dst 0x0F) :: le16 0 ++ le32 (as_i32 lo))
      [0; 0; 0; 0; h0; h1; h2; h3] = Ok first ->
    exists b1 b2, encode first = Some b1 /\ encode (BpfInsn.LdImm64Second hi) = Some b2 /\
      decode_slots idx (b1 :: b2 :: chunks) =
        (let? insns := decode_slots (idx + 2) chunks in
         Ok (first :: BpfInsn.LdImm64Second hi :: insns))).
  { intros dst src lo Hd Hs He Hp. unfold encode at 1. rewrite He.
    do 2 eexists. split; [reflexivity|]. split; [exact He2|].
    cbn [decode_slots hd app]. cbv zeta. cbn [Z.eqb Pos.eqb].
    rewrite Hp. cbn [nth]. by rewrite Hw. }
  destruct first; try done; rewrite ?andb_true_iff, ?in_range_iff, ?Z.eqb_eq in Hf.
  - apply (Hstep dst 0 (as_u32 imm)); [lia|lia|reflexivity|].
    rewrite parse_pair by lia. cbv zeta. rewrite Hw. destruct Hf as [[_ ?] ->].
    rewrite as_u_idem. by rewrite wide_imm by lia.
  - destruct Hf as (((((?&?)&->)&->)&->)&->). apply (Hstep dst 1 fd); [lia|lia|reflexivity|].
    rewrite parse_pair by lia. cbv zeta. rewrite Hw. cbn. by rewrite as_u32_small.
  - destruct Hf as ((((?&?)&->)&->)&->). apply (Hstep dst 2 fd); [lia|lia|reflexivity|].
    rewrite parse_pair by lia. cbv zeta. rewrite Hw. by rewrite as_u32_small.
Qed.

Lemma decode_encoded n idx insns :
  (length insns <= n)%nat -> program_wf insns = true ->
  exists bytes, encode_program insns = Some bytes /\ snd (as_chunks bytes) = [] /\
    decode_slots idx (fst (as_chunks bytes)) = Ok insns.
Proof.
  revert idx insns. induction n as [|n IH]; intros idx [|first rest] Hn Hw;
    simpl in Hn; try lia; try (by exists []).
  cbn [program_wf] in Hw. destruct (insn_wf first) eqn:Hf.
  - destruct (IH (idx + 1) rest ltac:(lia) Hw) as (bs & Hbs & Hrem & Hdec).
    destruct (parse_encoded first Hf) as (b & Hb & _ & _). cbn [encode_program].
    rewrite Hb, Hbs. eexists. split; [reflexivity|].
    rewrite as_chunks_app by (by apply encode_length in Hb). cbn [fst snd].
    split; [done|]. rewrite (decode_single idx first b) by done. by rewrite Hdec.
  - destruct rest as [|[] rest']; try done. apply andb_true_iff in Hw as [Hp Hw].
    simpl in Hn. destruct (IH (idx + 2) rest' ltac:(lia) Hw) as (bs & Hbs & Hrem & Hdec).
    destruct (decode_pair idx first imm_hi (fst (as_chunks bs)) Hp) as (b1 & b2 & Hb1 & Hb2 & Hd).
    cbn [encode_program]. rewrite Hb1, Hb2, Hbs. eexists. split; [reflexivity|].
    rewrite !as_chunks_app by (by eapply encode_length). cbn [fst snd].
    split; [done|]. by rewrite Hd, Hdec.
Qed.

(** The load the decoder accepts although the instruction set has no such
    opcode: a sign-extending load of 8 bytes. *)
Definition is_wide_sign_load (insn : BpfInsn) : bool :=
  match insn with BpfInsn.LdMem _ _ _ MemSize.DW true => true | _ => false end.

Lemma u32_le_range b0 b1 b2 b3 :
  is_byte b0 -> is_byte b1 -> is_byte b2 -> is_byte b3 -> is_u32 (u32_le b0 b1 b2 b3).
Proof. unfold is_byte, u32_le. lia. Qed.

Lemma wide_imm_range hi lo :
  is_u32 hi -> is_u32 lo ->
  is_u64 (Z.lor (Z.shiftl hi 32) lo) /\ Z.shiftr (Z.lor (Z.shiftl hi 32) lo) 32 = hi.
Proof.
  intros. split.
  - apply bits_u64. intros i Hi. rewrite Z.lor_spec, Z.shiftl_spec by lia.
    rewrite !(testbit_high 32) by lia. done.
  - apply Z.bits_inj'. intros i Hi.
    rewrite Z.shiftr_spec, Z.lor_spec, Z.shiftl_spec by lia.
    rewrite (testbit_high 32 lo) by lia. rewrite orb_false_r. f_equal. lia.
Qed.

Definition is_slot (bytes : list Z) : Prop := length bytes = 8%nat /\ Forall is_byte bytes.

Ltac slot_bytes H :=
  let Hl := fresh in destruct H as [Hl H];
  match type of H with Forall _ ?l =>
    do 8 (destruct l as [|? l]; [discriminate Hl|]); destruct l; [|discriminate Hl]
  end;
  repeat (let Hb := fresh "Hb" in apply Forall_cons in H; destruct H as [Hb H]);
  clear Hl H.

Lemma parse_pair_accepts first second insn :
  is_slot first -> is_slot second -> parse_ldimm64 first second = Ok insn ->
  ldimm64_pair insn
    (u32_le (nth 4 second 0) (nth 5 second 0) (nth 6 second 0) (nth 7 second 0)) = true.
Proof.
  intros Hf Hs Hp. slot_bytes Hf. slot_bytes Hs. cbn [parse_ldimm64 nth] in *. cbv zeta in Hp.
  match type of Hp with context [Z.land (Z.shiftr ?r 4) _] => rename r into regs end.
  destruct (Z.ltb_spec 10 (Z.land regs 0x0F)); [done|].
  pose proof (nibble regs). destruct (negb _) in Hp; [done|].
  destruct (negb _ || negb _ || negb _) in Hp; [done|].
  assert (Hlo : is_u32 (u32_le z3 z4 z5 z6)) by (by apply u32_le_range).
  assert (Hhi : is_u32 (u32_le z11 z12 z13 z14)) by (by apply u32_le_range).
  set (lo := u32_le z3 z4 z5 z6) in *. set (hi := u32_le z11 z12 z13 z14) in *.
  destruct (wide_imm_range hi lo Hhi Hlo) as [Hw Hwr].
  destruct (Z.land (Z.shiftr regs 4) 15) as [|[|[]|]|] eqn:Esrc; try discriminate Hp.
  - injection Hp as <-. unfold ldimm64_pair.
    rewrite !andb_true_iff, !in_range_iff, Z.eqb_eq. split_and!; lia.
  - injection Hp as <-. unfold ldimm64_pair.
    rewrite !andb_true_iff, !in_range_iff, !Z.eqb_eq. split_and!; lia.
  - destruct (Z.eqb_spec hi 0) as [Hz|]; [|discriminate Hp]. injection Hp as <-.
    unfold ldimm64_pair. rewrite !andb_true_iff, !in_range_iff, !Z.eqb_eq. split_and!; lia.
Qed.

Lemma as_chunks_slots n bytes :
  (length bytes <= n)%nat -> Forall is_byte bytes ->
  Forall is_slot (fst (as_chunks bytes)) /\
  length bytes = (8 * length (fst (as_chunks bytes)) + length (snd (as_chunks bytes)))%nat.
Proof.
  revert bytes. induction n as [|n IH]; intros bytes Hn Hb.
  { destruct bytes; [|simpl in Hn; lia]. by split. }
  do 8 (destruct bytes as [|? bytes]; [split; [constructor|reflexivity]|]).
  match goal with |- context [as_chunks ?l] =>
    match l with
    | ?a :: ?b :: ?c :: ?d :: ?e :: ?f :: ?g :: ?h :: ?t =>
        change l with ([a; b; c; d; e; f; g; h] ++ t) in *
    end
  end.
  apply Forall_app in Hb as [Hb1 Hb2]. rewrite length_app in Hn. simpl in Hn.
  destruct (IH bytes) as [Hs Hlen]; [lia|done|].
  rewrite as_chunks_app by done. cbn [fst snd]. split.
  - by constructor.
  - rewrite length_app, Hlen. simpl. lia.
Qed.

Lemma pair_not_single insn hi : ldimm64_pair insn hi = true -> insn_wf insn = false.
Proof.
  unfold ldimm64_pair. rewrite andb_true_iff. intros [_ Hf].
  destruct insn; try discriminate Hf; unfold insn_wf; cbn; by rewrite andb_false_r.
Qed.

Lemma decode_slots_accepts n idx chunks insns :
  (length chunks <= n)%nat -> Forall is_slot chunks ->
  decode_slots idx chunks = Ok insns ->
  length insns = length chunks /\
  (existsb is_wide_sign_load insns = false -> program_wf insns = true).
Proof.
  revert idx chunks insns. induction n as [|n IH]; intros idx [|c rest] insns Hn Hs Hd;
    simpl in Hn; try lia; try (by injection Hd as <-).
  apply Forall_cons in Hs as [Hc Hs]. cbn [decode_slots] in Hd. cbv zeta in Hd.
  destruct (hd 0 c =? opcode.LD_IMM64).
  - destruct rest as [|second rest]; [done|]. apply Forall_cons in Hs as [Hsec Hs].
    destruct (parse_ldimm64 c second) as [insn|] eqn:Hp; [|done].
    apply rbind_ok in Hd as (rest' & Hrest & Heq). injection Heq as <-.
    simpl in Hn. destruct (IH (idx + 2) rest rest' ltac:(lia) Hs Hrest) as [Hlen Hwf].
    pose proof (parse_pair_accepts _ _ _ Hc Hsec Hp) as Hpair.
    split; [simpl; lia|]. cbn [existsb]. rewrite !orb_false_iff. intros (_ & _ & Hex).
    specialize (Hwf Hex). cbn [program_wf].
    rewrite (pair_not_single insn _ Hpair).
    rewrite Hpair, Hwf. done.
  - destruct (parse_insn c) as [insn|] eqn:Hp; [|done].
    apply rbind_ok in Hd as (rest' & Hrest & Heq). injection Heq as <-.
    destruct (IH (idx + 1) rest rest' ltac:(lia) Hs Hrest) as [Hlen Hwf].
    split; [simpl; lia|]. cbn [existsb]. rewrite orb_false_iff. intros [Hl Hex].
    destruct (parse_accepts c insn (proj2 Hc) Hp) as [[Hw|(d & b & o & _ & ->)] _]; [|done].
    cbn [program_wf]. rewrite Hw. by apply Hwf.
Qed.

(** C18: decoding inverts encoding: every well-formed instruction encodes to
    eight bytes from which the decoder reads the same instruction. *)
Theorem decode_encode_roundtrip (insn : BpfInsn) :
  insn_wf insn = true ->
  exists bytes, encode insn = Some bytes /\ Forall is_byte bytes /\ parse_insn bytes = Ok insn.
Proof. apply parse_encoded. Qed.

Lemma decode_encode_roundtrip_witness :
  exists bytes, encode (BpfInsn.Jmp32 3 (Some 10) None (-7) Jmp32Op.Sle) = Some bytes /\
    Forall is_byte bytes /\
    parse_insn bytes = Ok (BpfInsn.Jmp32 3 (Some 10) None (-7) Jmp32Op.Sle).
Proof. apply decode_encode_roundtrip. reflexivity. Defined.

(** Whatever eight bytes the decoder accepts, the instruction is well-formed
    or a sign-extending 8-byte load; it encodes back to the same bytes whenever
    the bytes leave the fields the decoder ignores at zero. *)
Theorem decoded_insn_wf (bytes : list Z) (insn : BpfInsn) :
  Forall is_byte bytes -> parse_insn bytes = Ok insn ->
  (insn_wf insn = true \/
   exists dst base offset, insn = BpfInsn.LdMem dst base offset MemSize.DW true) /\
  (insn_wf insn = true -> slot_ignored bytes = false -> encode insn = Some bytes).
Proof.
  intros Hb Hp. destruct (parse_accepts bytes insn Hb Hp) as [[?|(dst & base & offset & _ & ?)] He]; eauto 6.
Qed.

Lemma decoded_insn_wf_witness :
  exists bytes insn, parse_insn bytes = Ok insn /\ insn = BpfInsn.AddImm 3 (-2) /\
    encode insn = Some bytes.
Proof.
  exists [0x07; 3; 0; 0; 0xfe; 0xff; 0xff; 0xff], (BpfInsn.AddImm 3 (-2)).
  split; [reflexivity|]. split; [reflexivity|].
  apply (decoded_insn_wf [0x07; 3; 0; 0; 0xfe; 0xff; 0xff; 0xff] (BpfInsn.AddImm 3 (-2)));
    try reflexivity. repeat constructor; unfold is_byte; lia.
Defined.

(** A program of well-formed slots and ldimm64 pairs survives encoding and
    decoding unchanged. *)
Theorem program_roundtrip (insns : list BpfInsn) :
  program_wf insns = true ->
  exists bytes, encode_program insns = Some bytes /\ decode_program bytes = Ok insns.
Proof.
  intros Hw. destruct (decode_encoded (length insns) 0 insns (le_n _) Hw) as (bs & Hbs & Hrem & Hdec).
  exists bs. split; [done|]. unfold decode_program. destruct (as_chunks bs). simpl in *.
  by rewrite Hdec, Hrem.
Qed.

Lemma program_roundtrip_witness :
  exists bytes,
    encode_program [BpfInsn.LdImm64 1 0x1_0000_0002; BpfInsn.LdImm64Second 1; BpfInsn.Exit] = Some bytes /\
    decode_program bytes = Ok [BpfInsn.LdImm64 1 0x1_0000_0002; BpfInsn.LdImm64Second 1; BpfInsn.Exit].
Proof. apply program_roundtrip. vm_compute. reflexivity. Defined.

(** A decoded program has exactly one entry per eight bytes, so slot numbers
    are list positions, and its ldimm64 entries come in pairs whose marker holds
    the upper immediate; all other entries are well-formed instructions. *)
Theorem decoded_program_slots (bytes : list Z) (insns : list BpfInsn) :
  Forall is_byte bytes -> decode_program bytes = Ok insns ->
  length bytes = (8 * length insns)%nat /\
  (existsb is_wide_sign_load insns = false -> program_wf insns = true).
Proof.
  intros Hb. destruct (as_chunks_slots (length bytes) bytes (le_n _) Hb) as [Hs Hlen].
  unfold decode_program. destruct (as_chunks bytes) as [chunks rest]. simpl in *.
  destruct (decode_slots 0 chunks) as [is'|] eqn:Hd; [|done]. destruct rest; [|done].
  intros H. injection H as <-.
  destruct (decode_slots_accepts (length chunks) 0 chunks is' (le_n _) Hs Hd) as [Hl Hw].
  split; [|done]. simpl in Hlen. lia.
Qed.

Lemma decoded_program_slots_witness :
  length [0xb7; 0; 0; 0; 0; 0; 0; 0; 0x95; 0; 0; 0; 0; 0; 0; 0] =
    (8 * length [BpfInsn.MovImm 0 0; BpfInsn.Exit])%nat /\
  (existsb is_wide_sign_load [BpfInsn.MovImm 0 0; BpfInsn.Exit] = false ->
   program_wf [BpfInsn.MovImm 0 0; BpfInsn.Exit] = true).
Proof.
  apply decoded_program_slots; [|reflexivity]. repeat constructor; unfold is_byte; lia.
Defined.

(** The decoder's gaps. It accepts the opcode 0x99, which no encoder can
    produce (the encoder panics on it), and it drops the immediate of NEG, the
    source register of a store of an immediate, the offset of a packet load and
    the upper bits of an atomic operation's immediate, although these fields are
    reserved. *)
Theorem decoder_gaps :
  (exists insn, parse_insn [0x99; 0x21; 0; 0; 0; 0; 0; 0] = Ok insn /\ encode insn = None) /\
  parse_insn [0x87; 1; 0; 0; 5; 0; 0; 0] = Ok (BpfInsn.Neg 1) /\
  parse_insn [0x7a; 0x3a; 0xf8; 0xff; 1; 0; 0; 0] = Ok (BpfInsn.StMemImm 1 10 (-8) MemSize.DW) /\
  parse_insn [0x20; 0; 4; 0; 14; 0; 0; 0] = Ok (BpfInsn.LdAbs MemSize.W 14) /\
  parse_insn [0xdb; 0x21; 0; 0; 0; 1; 0; 0] =
    Ok (BpfInsn.Atomic 1 2 0 MemSize.DW AtomicOp.Add false).
Proof. split; [by eexists|]. repeat split. Qed.
