(* ===== verification/Alu.v ===== *)
(** The scalar ALU (src/src/exec.rs): the exact word operations the abstract
    and the concrete engine share ([alu_const64], [alu_const32], [hmul_const]),
    the interval and tracked-number transfer functions, and [apply_alu], the
    transfer function of a scalar register.  The soundness theorems say which
    operations over-approximate the word operation for all operands and, for
    the few that do not, under which condition they do; the counterexamples
    give the operands for which the computed range misses the real result. *)
From Stdlib Require Import ZArith Lia List Bool Btauto.
From stdpp Require Import base list.
From S2P Require Import Prelude Tnum Bounds Insn.
Open Scope Z_scope.

Inductive AluOp := Add | Sub | And | Or | Xor | Lsh | Rsh | Arsh | Mul | Div | Mod | Neg.
Inductive AluWidth := W64 | W32.
#[global] Instance alu_op_eq_dec : EqDecision AluOp.
Proof. solve_decision. Defined.
#[global] Instance alu_width_eq_dec : EqDecision AluWidth.
Proof. solve_decision. Defined.

Definition is_shift (op : AluOp) : bool :=
  match op with Lsh | Rsh | Arsh => true | _ => false end.

(** * Exact word operations *)

Definition alu_const64 (op : AluOp) (a b : Z) : Z :=
  match op with
  | Add => wadd 64 a b
  | Sub => wsub 64 a b
  | And => Z.land a b
  | Or => Z.lor a b
  | Xor => Z.lxor a b
  | Mul => wmul 64 a b
  | Div => if b =? 0 then 0 else a / b
  | Mod => if b =? 0 then a else a mod b
  | Neg => wsub 64 0 a
  | Lsh => as_u64 (Z.shiftl a (Z.land (as_u32 b) 63))
  | Rsh => Z.shiftr a (Z.land (as_u32 b) 63)
  | Arsh => as_u64 (Z.shiftr (as_i64 a) (Z.land b 63))
  end.

Definition alu_const32 (op : AluOp) (a0 b0 : Z) : Z :=
  let a := as_u32 a0 in
  let b := as_u32 b0 in
  match op with
  | Add => wadd 32 a b
  | Sub => wsub 32 a b
  | And => Z.land a b
  | Or => Z.lor a b
  | Xor => Z.lxor a b
  | Mul => wmul 32 a b
  | Div => if b =? 0 then 0 else a / b
  | Mod => if b =? 0 then a else a mod b
  | Neg => wsub 32 0 a
  | Lsh => as_u32 (Z.shiftl a (Z.land b 31))
  | Rsh => Z.shiftr a (Z.land b 31)
  | Arsh => as_u32 (Z.shiftr (as_i32 a) (Z.land b 31))
  end.

(** The dispatch on the width (src/src/concrete.rs, [alu_value]). *)
Definition alu_value (op : AluOp) (width : AluWidth) (a b : Z) : Z :=
  match width with W64 => alu_const64 op a b | W32 => alu_const32 op a b end.


Definition hmul_const (a b : Z) (high : MulHigh) : Z :=
  match high with
  | MulHigh.Low => wmul 64 a b
  | MulHigh.UnsignedHigh => as_u64 (Z.shiftr (a * b) 64)
  | MulHigh.SignedHigh => as_u64 (Z.shiftr (as_i64 a * as_i64 b) 64)
  end.

(** * 64-bit ranges *)

Definition full_s64 : Z * Z := (I64_MIN, I64_MAX).
Definition full_u64 : Z * Z := (0, U64_MAX).
Definition full_u32 : Z * Z := (0, U32_MAX).

Definition checked_i64 : Z -> option Z := checked I64_MIN I64_MAX.
Definition checked_u64 : Z -> option Z := checked 0 U64_MAX.

Definition shift64_by_const (op : AluOp) (dmin dmax k : Z) : Z * Z :=
  match op with
  | Lsh =>
      if dmin <? 0 then full_s64
      else if k =? 0 then (dmin, dmax)
      else if negb (Z.shiftr (as_u64 dmin) (64 - k) =? Z.shiftr (as_u64 dmax) (64 - k))
      then full_s64
      else
        let lo := as_u64 (Z.shiftl (as_u64 dmin) k) in
        let hi := as_u64 (Z.shiftl (as_u64 dmax) k) in
        if (Z.shiftl 1 63 <=? lo) || (hi <? Z.shiftl 1 63) then (as_i64 lo, as_i64 hi)
        else full_s64
  | Rsh =>
      if dmin <? 0 then full_s64
      else (as_i64 (Z.shiftr (as_u64 dmin) k), as_i64 (Z.shiftr (as_u64 dmax) k))
  | _ (* Arsh; the callers pass shifts only *) => (Z.shiftr dmin k, Z.shiftr dmax k)
  end.

Definition shift64_range (op : AluOp) (dmin dmax smin smax : Z) : Z * Z :=
  if smin =? smax then shift64_by_const op dmin dmax (as_u32 smin)
  else
    match op with
    | Lsh => full_s64
    | Rsh => if 0 <=? dmin then (0, dmax) else full_s64
    | _ (* Arsh *) => (Z.shiftr dmin 63, dmax)
    end.

(** Smallest and largest of the four endpoint products. *)
Definition product_range (a b c d : Z) : Z * Z :=
  let ps := [a * c; a * d; b * c; b * d] in
  (fold_left Z.min ps (2 ^ 127 - 1), fold_left Z.max ps (- 2 ^ 127)).

Definition alu64_signed (op : AluOp) (d s : Z * Z) : Z * Z :=
  let '(dmin, dmax) := d in
  let '(smin, smax) := s in
  if (dmin =? dmax) && (smin =? smax) then
    let bits := alu_const64 op (as_u64 dmin) (as_u64 smin) in (as_i64 bits, as_i64 bits)
  else
    match op with
    | Add =>
        match checked_i64 (dmin + smin), checked_i64 (dmax + smax) with
        | Some lo, Some hi => (lo, hi)
        | _, _ => full_s64
        end
    | Sub =>
        match checked_i64 (dmin - smax), checked_i64 (dmax - smin) with
        | Some lo, Some hi => (lo, hi)
        | _, _ => full_s64
        end
    | And => if (0 <=? dmin) && (0 <=? smin) then (0, Z.min dmax smax) else full_s64
    | Or => if (0 <=? dmin) && (0 <=? smin) then (Z.max dmin smin, I64_MAX) else full_s64
    | Xor => if (0 <=? dmin) && (0 <=? smin) then (0, I64_MAX) else full_s64
    | Mul =>
        let '(lo, hi) := product_range dmin dmax smin smax in
        if (lo <? I64_MIN) || (I64_MAX <? hi) then full_s64 else (lo, hi)
    | Div => full_s64
    | Mod =>
        if (smin =? smax) && negb (smin =? 0) then
          let bound := as_i64 (saturate 0 U64_MAX (Z.abs smin - 1)) in (- bound, bound)
        else full_s64
    | Neg => full_s64
    | Lsh | Rsh | Arsh => shift64_range op dmin dmax smin smax
    end.

(** The unsigned endpoint products: the fold starts from 0 for the maximum. *)
Definition product_range_u (a b c d : Z) : Z * Z :=
  let ps := [a * c; a * d; b * c; b * d] in
  (fold_left Z.min ps (2 ^ 128 - 1), fold_left Z.max ps 0).

Definition alu64_unsigned (op : AluOp) (d s : Z * Z) : Z * Z :=
  let '(dmin, dmax) := d in
  let '(smin, smax) := s in
  match op with
  | Add =>
      match checked_u64 (dmin + smin), checked_u64 (dmax + smax) with
      | Some lo, Some hi => (lo, hi)
      | _, _ => full_u64
      end
  | Sub =>
      match checked_u64 (dmin - smax), checked_u64 (dmax - smin) with
      | Some lo, Some hi => (lo, hi)
      | _, _ => full_u64
      end
  | And => (0, Z.min dmax smax)
  | Or => (Z.max dmin smin, U64_MAX)
  | Xor => full_u64
  | Mul =>
      let '(lo, hi) := product_range_u dmin dmax smin smax in
      if U64_MAX <? hi then full_u64 else (lo, hi)
  | Div => if smin =? 0 then full_u64 else (dmin / Z.max smax 1, dmax / smin)
  | Mod => if smin =? 0 then full_u64 else (0, wsub 64 smax 1)
  | Neg => full_u64
  | Lsh =>
      if (smin =? smax) && (dmax <=? Z.shiftr U64_MAX (as_u32 smin))
      then (as_u64 (Z.shiftl dmin (as_u32 smin)), as_u64 (Z.shiftl dmax (as_u32 smin)))
      else full_u64
  | Rsh =>
      if smin =? smax
      then (Z.shiftr dmin (as_u32 smin), Z.shiftr dmax (as_u32 smin))
      else (0, dmax)
  | Arsh => full_u64
  end.

(** * 32-bit ranges *)

(** [hi - lo] is an [i64] subtraction: it wraps in a release build. *)
Definition interval_mod (lo hi : Z) : Z * Z :=
  if (as_i64 (hi - lo) <? 4294967296) && (lo mod 4294967296 <=? hi mod 4294967296)
  then (as_u32 (lo mod 4294967296), as_u32 (hi mod 4294967296))
  else full_u32.

Definition shift32_range (op : AluOp) (d s : Z * Z) : Z * Z :=
  let '(d0, d1) := d in
  let '(s0, s1) := s in
  if negb (s0 =? s1) then
    match op with
    | Lsh => full_u32
    | Rsh => (0, d1)
    | _ (* Arsh *) => full_u32
    end
  else
    let k := s0 in
    match op with
    | Lsh =>
        if 32 <=? k then (0, 0)
        else if k =? 0 then (d0, d1)
        else if d1 <? as_u32 (Z.shiftl 1 (32 - k))
        then (as_u32 (Z.shiftl d0 k), as_u32 (Z.shiftl d1 k))
        else full_u32
    | Rsh => if 32 <=? k then (0, 0) else (Z.shiftr d0 k, Z.shiftr d1 k)
    | _ (* Arsh *) =>
        if 32 <=? k then
          if as_i32 d0 <? 0 then (U32_MAX, U32_MAX) else (0, 0)
        else (as_u32 (Z.shiftr (as_i32 d0) k), as_u32 (Z.shiftr (as_i32 d1) k))
    end.

Definition alu32_range (op : AluOp) (d s : Z * Z) : Z * Z :=
  let '(d0, d1) := d in
  let '(s0, s1) := s in
  match op with
  | Add => interval_mod (d0 + s0) (d1 + s1)
  | Sub => interval_mod (d0 - s1) (d1 - s0)
  | And => (0, Z.min d1 s1)
  | Or => (Z.max d0 s0, U32_MAX)
  | Xor => full_u32
  | Mul =>
      let lo := d0 * s0 in
      let hi := d1 * s1 in
      interval_mod (as_i64 lo) (as_i64 hi)
  | Div => if s0 =? 0 then full_u32 else (d0 / Z.max s1 1, d1 / s0)
  | Mod => if s0 =? 0 then full_u32 else (0, saturate 0 U32_MAX (s1 - 1))
  | Neg => full_u32
  | Lsh | Rsh | Arsh => shift32_range op d s
  end.

(** * Tracked numbers and the whole transfer function *)

Definition alu_tnum (op : AluOp) (d s : Tnum) (amount_min amount_max : Z) : Tnum :=
  match op with
  | Add => tnum_add d s
  | Sub => tnum_sub d s
  | And => tnum_and d s
  | Or => tnum_or d s
  | Xor => tnum_xor d s
  | Mul | Div | Mod | Neg => tnum_unknown
  | Lsh | Rsh | Arsh =>
      if negb (amount_min =? amount_max) then tnum_unknown
      else
        match op with
        | Lsh => tnum_lshift d (as_u32 amount_min)
        | Rsh => tnum_rshift d (as_u32 amount_min)
        | _ (* Arsh *) => tnum_arshift d (as_u32 amount_min)
        end
  end.

Definition apply_alu_inner (op : AluOp) (width : AluWidth) (d s : ScalarBounds) : ScalarBounds :=
  let bitness := match width with W64 => 64 | W32 => 32 end in
  if is_shift op && ((smin s <? 0) || (bitness <=? smax s)) then bounds_unknown
  else if bounds_is_constant d && bounds_is_constant s then
    bounds_constant (as_i64 (alu_value op width (as_u64 (smin d)) (as_u64 (smin s))))
  else
    match width with
    | W64 =>
        let '(sm, sx) := alu64_signed op (bounds_signed d) (bounds_signed s) in
        let amount := if is_shift op then (as_u64 (smin s), as_u64 (smax s))
                      else bounds_unsigned s in
        let '(um, ux) := alu64_unsigned op (bounds_unsigned d) amount in
        synced (mk64 sm sx um ux (alu_tnum op (tnum d) (tnum s) (smin s) (smax s))
                  (id d) (delta d))
    | W32 =>
        let '(rmin, rmax) := alu32_range op (u32_min d, u32_max d) (u32_min s, u32_max s) in
        synced (mk64 rmin rmax rmin rmax
                  (tnum_subreg (alu_tnum op (tnum d) (tnum s) (smin s) (smax s)))
                  (id d) (delta d))
    end.

Definition with_link (b : ScalarBounds) (i d : Z) : ScalarBounds :=
  mkBounds (smin b) (smax b) (umin b) (umax b) (s32_min b) (s32_max b)
    (u32_min b) (u32_max b) (tnum b) (precise b) i d.

Definition apply_linking (op : AluOp) (width : AluWidth) (result dst src : ScalarBounds)
    : ScalarBounds :=
  if (bool_decide (op = Add) || bool_decide (op = Sub)) && bounds_is_constant src then
    if negb (bool_decide (width = W64)) then with_link result 0 0
    else if (id dst =? 0) || negb (id result =? id dst) || negb (delta result =? 0)
    then with_link result 0 0
    else
      let off := if bool_decide (op = Sub) then - smin src else smin src in
      if (I32_MIN <=? off) && (off <=? I32_MAX) then with_link result (id result) off
      else with_link result 0 0
  else with_link result 0 0.

Definition apply_alu (op : AluOp) (width : AluWidth) (d s : ScalarBounds) : ScalarBounds :=
  apply_linking op width (apply_alu_inner op width d s) d s.

(** * Word lemmas *)

Lemma as_i64_mod x y : x mod 2 ^ 64 = y mod 2 ^ 64 -> as_i64 x = as_i64 y.
Proof. intros H. rewrite <- (as_i_mod 64 x), <- (as_i_mod 64 y). by rewrite H. Qed.

Lemma as_i64_congr v : is_u64 v -> as_i64 v mod 2 ^ 64 = v.
Proof. apply as_u64_as_i64. Qed.

Lemma as_i64_add a b : is_u64 a -> is_u64 b -> as_i64 (wadd 64 a b) = as_i64 (as_i64 a + as_i64 b).
Proof.
  intros. unfold wadd. rewrite as_i64_as_u64_any. apply as_i64_mod.
  by rewrite (Zplus_mod (as_i64 a)), !as_i64_congr by done.
Qed.

Lemma as_i64_sub a b : is_u64 a -> is_u64 b -> as_i64 (wsub 64 a b) = as_i64 (as_i64 a - as_i64 b).
Proof.
  intros. unfold wsub. rewrite as_i64_as_u64_any. apply as_i64_mod.
  by rewrite (Zminus_mod (as_i64 a)), !as_i64_congr by done.
Qed.

Lemma as_i64_mul a b : is_u64 a -> is_u64 b -> as_i64 (wmul 64 a b) = as_i64 (as_i64 a * as_i64 b).
Proof.
  intros. unfold wmul. rewrite as_i64_as_u64_any. apply as_i64_mod.
  by rewrite (Zmult_mod (as_i64 a)), !as_i64_congr by done.
Qed.

Lemma checked_spec lo hi x : 
  match checked lo hi x with Some y => y = x /\ lo <= x <= hi | None => True end.
Proof.
  unfold checked. destruct (Z.leb_spec lo x), (Z.leb_spec x hi); simpl; done || lia.
Qed.

Lemma land_bounds a b : 0 <= a -> 0 <= b -> 0 <= Z.land a b <= Z.min a b.
Proof.
  intros. assert (0 <= Z.land a b) by (apply Z.land_nonneg; lia). split; [done|].
  apply Z.min_glb; apply bits_le; try lia; intros i _; rewrite Z.land_spec;
    intros Hb; apply andb_true_iff in Hb as [? ?]; done.
Qed.

Lemma lor_bounds a b : 0 <= a -> 0 <= b -> Z.max a b <= Z.lor a b.
Proof.
  intros. assert (0 <= Z.lor a b) by (apply Z.lor_nonneg; lia).
  apply Z.max_lub; apply bits_le; try lia; intros i _; rewrite Z.lor_spec;
    intros ->; btauto.
Qed.

(** Bitwise results of words below [2^w] stay below [2^w]. *)
Lemma lor_below w a b : 0 <= w -> 0 <= a < 2 ^ w -> 0 <= b < 2 ^ w -> 0 <= Z.lor a b < 2 ^ w.
Proof.
  intros. apply bits_range; [lia|]. intros i Hi.
  rewrite Z.lor_spec, (testbit_high w a), (testbit_high w b); done || lia.
Qed.

Lemma lxor_below w a b : 0 <= w -> 0 <= a < 2 ^ w -> 0 <= b < 2 ^ w -> 0 <= Z.lxor a b < 2 ^ w.
Proof.
  intros. apply bits_range; [lia|]. intros i Hi.
  rewrite Z.lxor_spec, (testbit_high w a), (testbit_high w b); done || lia.
Qed.

(** Masked shift amounts that are in range are unchanged. *)
Lemma land_63 b : 0 <= b < 64 -> Z.land b 63 = b.
Proof.
  intros. change 63 with (Z.ones 6). rewrite Z.land_ones by lia. apply Z.mod_small. lia.
Qed.
Lemma land_31 b : 0 <= b < 32 -> Z.land b 31 = b.
Proof.
  intros. change 31 with (Z.ones 5). rewrite Z.land_ones by lia. apply Z.mod_small. lia.
Qed.
Lemma as_u32_id b : is_u32 b -> as_u32 b = b.
Proof. intros. apply as_u_small. lia. Qed.

Lemma shiftr_mono a b k : 0 <= k -> a <= b -> Z.shiftr a k <= Z.shiftr b k.
Proof. intros. rewrite !Z.shiftr_div_pow2 by lia. apply Z.div_le_mono; lia. Qed.

Lemma shiftr_shrinks a k : 0 <= k -> 0 <= a -> 0 <= Z.shiftr a k <= a.
Proof.
  intros. rewrite Z.shiftr_div_pow2 by lia. split; [apply Z.div_pos; lia|].
  apply Z.div_le_upper_bound; nia.
Qed.

Lemma shiftr_negative a k m : 0 <= k -> - m <= a < 0 -> - m <= Z.shiftr a k < 0.
Proof.
  intros Hk Ha. rewrite Z.shiftr_div_pow2 by lia. assert (1 <= 2 ^ k) by lia. split.
  - apply Z.div_le_lower_bound; nia.
  - apply Z.div_lt_upper_bound; nia.
Qed.

Lemma shiftr_i64 a k : 0 <= k -> is_i64 a -> is_i64 (Z.shiftr a k).
Proof.
  intros Hk Ha. destruct (Z.lt_ge_cases a 0).
  - pose proof (shiftr_negative a k (2 ^ 63)). lia.
  - pose proof (shiftr_shrinks a k). lia.
Qed.

Lemma shiftr_63_nonneg a : 0 <= a <= I64_MAX -> Z.shiftr a 63 = 0.
Proof. intros. rewrite Z.shiftr_div_pow2 by lia. apply Z.div_small. lia. Qed.

(** A shift within one block of size [2^(w-k)] is an affine map. *)
Lemma shl_block w a k :
  0 <= k <= w -> as_u w (Z.shiftl a k) = a * 2 ^ k - a / 2 ^ (w - k) * 2 ^ w.
Proof.
  intros. rewrite Z.shiftl_mul_pow2 by lia. unfold as_u.
  rewrite Z.mod_eq by lia. replace (2 ^ w) with (2 ^ (w - k) * 2 ^ k).
  - rewrite Z.div_mul_cancel_r by lia. lia.
  - rewrite <- Z.pow_add_r by lia. f_equal. lia.
Qed.

Lemma shl_mono w a b c k :
  0 <= k <= w -> a <= b <= c -> a / 2 ^ (w - k) = c / 2 ^ (w - k) ->
  as_u w (Z.shiftl a k) <= as_u w (Z.shiftl b k) <= as_u w (Z.shiftl c k).
Proof.
  intros Hk Hb Hq. rewrite !shl_block by lia.
  pose proof (Z.div_le_mono a b (2 ^ (w - k)) ltac:(lia) ltac:(lia)).
  pose proof (Z.div_le_mono b c (2 ^ (w - k)) ltac:(lia) ltac:(lia)).
  assert (b / 2 ^ (w - k) = a / 2 ^ (w - k)) as -> by lia. rewrite <- Hq. nia.
Qed.

(** The four endpoint products bound every product of the two ranges. *)
Lemma mul_endpoints a b c d x y :
  a <= x <= b -> c <= y <= d ->
  Z.min (Z.min (a * c) (a * d)) (Z.min (b * c) (b * d)) <= x * y <=
  Z.max (Z.max (a * c) (a * d)) (Z.max (b * c) (b * d)).
Proof.
  intros Hx Hy.
  assert (Z.min (a * y) (b * y) <= x * y <= Z.max (a * y) (b * y)) by
    (destruct (Z.le_ge_cases 0 y); nia).
  assert (forall e, Z.min (e * c) (e * d) <= e * y <= Z.max (e * c) (e * d)) as He by
    (intros e; destruct (Z.le_ge_cases 0 e); nia).
  pose proof (He a). pose proof (He b). lia.
Qed.

(** * Soundness of the interval functions *)

Definition within (r : Z * Z) (x : Z) : Prop := fst r <= x <= snd r.

Lemma full_s64_within v : within full_s64 (as_i64 v).
Proof. pose proof (as_i64_range v). unfold within; simpl. lia. Qed.
Lemma full_u64_within v : is_u64 v -> within full_u64 v.
Proof. done. Qed.
#[export] Hint Resolve full_s64_within : core.

(** Shifts of a signed range by an amount below the width. *)
Lemma shift64_by_const_sound op dmin dmax k a :
  is_shift op = true -> is_i64 dmin -> is_i64 dmax -> 0 <= k < 64 -> is_u64 a ->
  within (dmin, dmax) (as_i64 a) ->
  within (shift64_by_const op dmin dmax k) (as_i64 (alu_const64 op a k)).
Proof.
  intros Hop Hm Hx Hk Ha Hin. unfold within in Hin; simpl in Hin.
  destruct op; try done; unfold shift64_by_const, alu_const64;
    rewrite ?as_u32_id, ?land_63 by lia.
  - (* Lsh *)
    destruct (Z.ltb_spec dmin 0); [done|].
    assert (as_i64 a = a) as Heq by (view a; lia). rewrite Heq in Hin.
    destruct (Z.eqb_spec k 0) as [->|].
    { rewrite Z.shiftl_0_r, as_u64_id by done. rewrite Heq. done. }
    rewrite !as_u64_nonneg by lia. rewrite !Z.shiftr_div_pow2 by lia.
    destruct (Z.eqb_spec (dmin / 2 ^ (64 - k)) (dmax / 2 ^ (64 - k))) as [Hq|]; simpl; [|done].
    pose proof (shl_mono 64 dmin a dmax k ltac:(lia) Hin Hq) as Hs.
    pose proof (as_u64_range (Z.shiftl dmin k)). pose proof (as_u64_range (Z.shiftl dmax k)).
    rewrite shiftl_1_63.
    set (lo := as_u64 (Z.shiftl dmin k)) in *. set (hi := as_u64 (Z.shiftl dmax k)) in *.
    set (r := as_u64 (Z.shiftl a k)) in *.
    destruct (Z.leb_spec (2 ^ 63) lo), (Z.ltb_spec hi (2 ^ 63)); simpl; try done;
      unfold within; simpl; view lo; view hi; view r; lia.
  - (* Rsh *)
    destruct (Z.ltb_spec dmin 0); [done|].
    assert (as_i64 a = a) as Heq by (view a; lia). rewrite Heq in Hin.
    rewrite !as_u64_nonneg by lia. unfold within; simpl.
    pose proof (shiftr_mono dmin a k). pose proof (shiftr_mono a dmax k).
    pose proof (shiftr_shrinks dmin k). pose proof (shiftr_shrinks a k).
    pose proof (shiftr_shrinks dmax k).
    rewrite !as_i64_nonneg; lia.
  - (* Arsh *)
    unfold within; simpl. rewrite as_i64_as_u64 by (apply shiftr_i64; lia).
    split; apply shiftr_mono; lia.
Qed.

(** Operations on ranges the source handles soundly: an arithmetic shift by a
    variable amount needs a non-negative operand, a signed remainder by a
    constant a positive divisor. *)
Definition signed_covered (op : AluOp) (d s : Z * Z) : bool :=
  match op with
  | Arsh => (fst s =? snd s) || (0 <=? fst d)
  | Mod => negb (fst s =? snd s) || (0 <=? fst s)
  | _ => true
  end.

Lemma shift64_range_sound op dmin dmax smin smax a b :
  is_shift op = true -> is_i64 dmin -> is_i64 dmax -> is_u64 a ->
  within (dmin, dmax) (as_i64 a) -> within (smin, smax) b -> 0 <= smin -> smax < 64 ->
  signed_covered op (dmin, dmax) (smin, smax) = true ->
  within (shift64_range op dmin dmax smin smax) (as_i64 (alu_const64 op a b)).
Proof.
  intros Hop Hm Hx Ha Hin Hb Hs0 Hs1 Hc. unfold within in Hb; simpl in Hb, Hc.
  unfold shift64_range. destruct (Z.eqb_spec smin smax) as [<-|].
  { assert (b = smin) as -> by lia. rewrite as_u32_id by lia.
    by apply shift64_by_const_sound; [..|lia| |]. }
  unfold within in Hin; simpl in Hin.
  destruct op; try done; simpl in Hc; simpl; bool_hyps.
  - rewrite as_u32_id, land_63 by lia. destruct (Z.leb_spec 0 dmin); [|done].
    assert (as_i64 a = a) as Heq by (view a; lia). rewrite Heq in Hin.
    pose proof (shiftr_shrinks a b). unfold within; simpl. rewrite as_i64_nonneg; lia.
  - rewrite land_63 by lia. destruct Hc as [Hc|Hc]; bool_hyps; [lia|].
    assert (as_i64 a = a) as Heq by (view a; lia). rewrite Heq in *.
    pose proof (shiftr_shrinks a b). rewrite as_u64_id by lia.
    unfold within; simpl. rewrite shiftr_63_nonneg, as_i64_nonneg by lia. lia.
Qed.

Lemma fold_min4 i p q r t :
  p <= i -> fold_left Z.min [p; q; r; t] i = Z.min (Z.min p q) (Z.min r t).
Proof. intros. simpl. rewrite (Z.min_r i p), <- !Z.min_assoc by done. done. Qed.
Lemma fold_max4 i p q r t :
  i <= p -> fold_left Z.max [p; q; r; t] i = Z.max (Z.max p q) (Z.max r t).
Proof. intros. simpl. rewrite (Z.max_r i p), <- !Z.max_assoc by done. done. Qed.

Lemma product_range_within a b c d x y :
  is_i64 a -> is_i64 c -> a <= x <= b -> c <= y <= d ->
  within (product_range a b c d) (x * y).
Proof.
  intros Ha Hc Hx Hy. pose proof (mul_endpoints a b c d x y Hx Hy) as Hm.
  assert (Hp : Z.abs (a * c) <= 2 ^ 63 * 2 ^ 63)
    by (rewrite Z.abs_mul; apply Z.mul_le_mono_nonneg; lia).
  unfold within, product_range. cbn [fst snd]. rewrite fold_min4, fold_max4 by lia. done.
Qed.

(** A result computed without overflow is read back in the signed view. *)
Lemma signed_result r lo hi : is_i64 lo -> is_i64 hi -> lo <= r <= hi -> within (lo, hi) (as_i64 r).
Proof. intros. unfold within; simpl. rewrite as_i64_id; lia. Qed.

Lemma i64_nonneg_u64 a : is_u64 a -> 0 <= as_i64 a -> as_i64 a = a.
Proof. intros. view a; lia. Qed.

(** The branches of [alu64_signed] after the constant case. *)
Lemma alu64_signed_ranges op dmin dmax smin smax a b :
  is_i64 dmin -> is_i64 dmax -> is_i64 smin -> is_i64 smax ->
  is_u64 a -> is_u64 b -> dmin <= as_i64 a <= dmax -> smin <= as_i64 b <= smax ->
  is_shift op = false -> op <> Mod ->
  (dmin =? dmax) && (smin =? smax) = false ->
  within (alu64_signed op (dmin, dmax) (smin, smax)) (as_i64 (alu_const64 op a b)).
Proof.
  intros Hd0 Hd1 Hs0 Hs1 Ha Hb Hin Hin' Hop Hmod Hne. unfold alu64_signed. cbv beta iota. rewrite Hne.
  destruct op; try done; unfold alu_const64.
  - unfold checked_i64. pose proof (checked_spec I64_MIN I64_MAX (dmin + smin)).
    pose proof (checked_spec I64_MIN I64_MAX (dmax + smax)).
    destruct (checked _ _ (dmin + smin)), (checked _ _ (dmax + smax)); try done.
    rewrite as_i64_add by done. apply signed_result; lia.
  - unfold checked_i64. pose proof (checked_spec I64_MIN I64_MAX (dmin - smax)).
    pose proof (checked_spec I64_MIN I64_MAX (dmax - smin)).
    destruct (checked _ _ (dmin - smax)), (checked _ _ (dmax - smin)); try done.
    rewrite as_i64_sub by done. apply signed_result; lia.
  - destruct (Z.leb_spec 0 dmin), (Z.leb_spec 0 smin); simpl; try done.
    pose proof (i64_nonneg_u64 a). pose proof (i64_nonneg_u64 b).
    pose proof (land_bounds a b). apply signed_result; lia.
  - destruct (Z.leb_spec 0 dmin), (Z.leb_spec 0 smin); simpl; try done.
    pose proof (i64_nonneg_u64 a). pose proof (i64_nonneg_u64 b).
    pose proof (lor_bounds a b). pose proof (lor_below 63 a b). apply signed_result; lia.
  - destruct (Z.leb_spec 0 dmin), (Z.leb_spec 0 smin); simpl; try done.
    pose proof (i64_nonneg_u64 a). pose proof (i64_nonneg_u64 b).
    pose proof (lxor_below 63 a b). apply signed_result; lia.
  - pose proof (product_range_within dmin dmax smin smax _ _ Hd0 Hs0 Hin Hin') as Hp.
    destruct (product_range dmin dmax smin smax) as [lo hi].
    destruct (Z.ltb_spec lo I64_MIN), (Z.ltb_spec I64_MAX hi); simpl; try done.
    rewrite as_i64_mul by done. unfold within in Hp; simpl in Hp. apply signed_result; lia.
Qed.

Lemma alu64_signed_sound op d s a b :
  is_i64 (fst d) -> is_i64 (snd d) -> is_i64 (fst s) -> is_i64 (snd s) ->
  is_u64 a -> is_u64 b -> within d (as_i64 a) -> within s (as_i64 b) ->
  (is_shift op = true -> 0 <= fst s /\ snd s < 64) ->
  signed_covered op d s = true ->
  within (alu64_signed op d s) (as_i64 (alu_const64 op a b)).
Proof.
  destruct d as [dmin dmax], s as [smin smax]; cbn [fst snd].
  intros Hd0 Hd1 Hs0 Hs1 Ha Hb Hin Hin' Hsh Hc.
  unfold within in Hin, Hin'; simpl in Hin, Hin'.
  destruct ((dmin =? dmax) && (smin =? smax)) eqn:Hconst.
  { unfold alu64_signed. cbv beta iota. rewrite Hconst. bool_hyps. subst dmax smax.
    replace dmin with (as_i64 a) by lia. replace smin with (as_i64 b) by lia.
    rewrite !as_u64_as_i64 by done. unfold within; simpl; lia. }
  destruct (is_shift op) eqn:Hop.
  { destruct (Hsh eq_refl). assert (as_i64 b = b) as Hb' by (apply i64_nonneg_u64; lia).
    rewrite Hb' in Hin'. unfold alu64_signed. cbv beta iota. rewrite Hconst.
    replace (match op with Add => _ | _ => _ end)
      with (shift64_range op dmin dmax smin smax) by (by destruct op).
    by apply shift64_range_sound. }
  destruct (decide (op = Mod)) as [->|]; [|by apply alu64_signed_ranges].
  unfold alu64_signed. cbv beta iota. rewrite Hconst. simpl in Hc.
  destruct (Z.eqb_spec smin smax) as [<-|], (Z.eqb_spec smin 0); simpl in *; try done.
  bool_hyps. pose proof (i64_nonneg_u64 b). assert (b = smin) as -> by lia.
  unfold alu_const64. destruct (Z.eqb_spec smin 0); [lia|].
  pose proof (Z.mod_pos_bound a smin). unfold saturate. rewrite Z.abs_eq by lia.
  rewrite (as_i64_id (Z.max _ _)) by lia. apply signed_result; lia.
Qed.

(** ** Unsigned ranges *)

Lemma product_range_u_within a b c d x y :
  is_u64 a -> is_u64 c -> a <= x <= b -> c <= y <= d ->
  within (product_range_u a b c d) (x * y).
Proof.
  intros Ha Hc Hx Hy. pose proof (mul_endpoints a b c d x y Hx Hy) as Hm.
  assert (Hp : 0 <= a * c <= 2 ^ 64 * 2 ^ 64)
    by (split; [lia|apply Z.mul_le_mono_nonneg; lia]).
  assert (Hq : a * c <= 2 ^ 128 - 1) by (assert (a * c <= (2 ^ 64 - 1) * (2 ^ 64 - 1))
    by (apply Z.mul_le_mono_nonneg; lia); lia).
  unfold within, product_range_u. cbn [fst snd]. rewrite fold_min4, fold_max4 by lia. done.
Qed.

Lemma wadd64_small a b : is_u64 (a + b) -> wadd 64 a b = a + b.
Proof. apply as_u64_id. Qed.
Lemma wsub64_small a b : is_u64 (a - b) -> wsub 64 a b = a - b.
Proof. apply as_u64_id. Qed.

(** Quotients of ranges with a positive divisor. *)
Lemma div_range a b c d x y :
  0 <= a -> a <= x <= b -> 0 < c -> c <= y <= d -> a / Z.max d 1 <= x / y <= b / c.
Proof.
  intros. rewrite Z.max_l by lia. split.
  - transitivity (x / d); [apply Z.div_le_mono; lia|]. apply Z.div_le_compat_l; lia.
  - transitivity (x / c); [apply Z.div_le_compat_l; lia|apply Z.div_le_mono; lia].
Qed.

Lemma alu64_unsigned_sound op d s a b :
  is_u64 (fst d) -> is_u64 (snd d) -> is_u64 (fst s) -> is_u64 (snd s) ->
  is_u64 a -> is_u64 b -> within d a -> within s b ->
  (is_shift op = true -> snd s < 64) ->
  within (alu64_unsigned op d s) (alu_const64 op a b).
Proof.
  destruct d as [dmin dmax], s as [smin smax]; cbn [fst snd].
  intros Hd0 Hd1 Hs0 Hs1 Ha Hb Hin Hin' Hsh.
  unfold within in Hin, Hin'; simpl in Hin, Hin'.
  destruct op; unfold alu64_unsigned, alu_const64; cbv beta iota.
  - unfold checked_u64. pose proof (checked_spec 0 U64_MAX (dmin + smin)).
    pose proof (checked_spec 0 U64_MAX (dmax + smax)).
    destruct (checked _ _ (dmin + smin)), (checked _ _ (dmax + smax)); try apply as_u64_range.
    rewrite wadd64_small by lia. unfold within; simpl. lia.
  - unfold checked_u64. pose proof (checked_spec 0 U64_MAX (dmin - smax)).
    pose proof (checked_spec 0 U64_MAX (dmax - smin)).
    destruct (checked _ _ (dmin - smax)), (checked _ _ (dmax - smin)); try apply as_u64_range.
    rewrite wsub64_small by lia. unfold within; simpl. lia.
  - pose proof (land_bounds a b). unfold within; simpl. lia.
  - pose proof (lor_bounds a b). pose proof (lor_u64 a b). unfold within; simpl. lia.
  - pose proof (lxor_u64 a b). unfold within; simpl. lia.
  - specialize (Hsh eq_refl). rewrite !as_u32_id, land_63 by lia.
    destruct (Z.eqb_spec smin smax) as [<-|]; simpl; [|apply as_u64_range].
    assert (b = smin) as -> by lia.
    destruct (Z.leb_spec dmax (Z.shiftr U64_MAX smin)) as [Hm|]; [|apply as_u64_range].
    assert (dmax * 2 ^ smin <= U64_MAX).
    { rewrite Z.shiftr_div_pow2 in Hm by lia. pose proof (Z.mul_div_le U64_MAX (2 ^ smin)). nia. }
    unfold within; simpl. rewrite !Z.shiftl_mul_pow2, !as_u64_id by nia. nia.
  - specialize (Hsh eq_refl). rewrite !as_u32_id, land_63 by lia.
    destruct (Z.eqb_spec smin smax) as [<-|]; simpl.
    + assert (b = smin) as -> by lia. split; apply shiftr_mono; simpl; lia.
    + pose proof (shiftr_shrinks a b). unfold within; simpl. lia.
  - apply as_u64_range.
  - pose proof (product_range_u_within dmin dmax smin smax a b Hd0 Hs0 Hin Hin') as Hp.
    destruct (product_range_u dmin dmax smin smax) as [lo hi].
    destruct (Z.ltb_spec U64_MAX hi); [apply as_u64_range|].
    unfold within in *; simpl in *. unfold wmul. rewrite as_u64_id by nia. done.
  - destruct (Z.eqb_spec smin 0), (Z.eqb_spec b 0); try lia; unfold within; simpl; try lia.
    + pose proof (Z.div_pos a b). pose proof (Z.div_le_upper_bound a b a). nia.
    + apply div_range; lia.
  - destruct (Z.eqb_spec smin 0), (Z.eqb_spec b 0); try lia; unfold within; simpl; try lia;
      pose proof (Z.mod_pos_bound a b); [lia|]. rewrite wsub64_small; lia.
  - apply as_u64_range.
Qed.

(** ** 32-bit ranges *)

Lemma interval_mod_sound lo hi x :
  is_i64 (hi - lo) -> lo <= x <= hi -> within (interval_mod lo hi) (as_u32 x).
Proof.
  intros Hf Hx. unfold interval_mod. rewrite as_i64_id by done.
  pose proof (as_u32_range x). change 4294967296 with (2 ^ 32).
  destruct (Z.ltb_spec (hi - lo) (2 ^ 32)), (Z.leb_spec (lo mod 2 ^ 32) (hi mod 2 ^ 32));
    simpl; try done.
  pose proof (Z.mod_pos_bound lo (2 ^ 32)). pose proof (Z.mod_pos_bound hi (2 ^ 32)).
  rewrite !as_u32_id by lia. unfold within, as_u in *; simpl. div_lia.
Qed.

(** The 32-bit operations the source handles soundly: a product of ranges must
    not exceed the signed 64-bit range. *)
Definition range32_covered (op : AluOp) (d s : Z * Z) : bool :=
  match op with Mul => snd d * snd s <=? I64_MAX | _ => true end.

(** An arithmetic shift is monotone on unsigned words too: the sign bit stays. *)
Lemma sar32_mono a b k :
  is_u32 a -> is_u32 b -> a <= b -> 0 <= k < 32 ->
  as_u32 (Z.shiftr (as_i32 a) k) <= as_u32 (Z.shiftr (as_i32 b) k).
Proof.
  intros Ha Hb Hab Hk.
  assert (Hs : forall x, is_u32 x ->
    as_u32 (Z.shiftr (as_i32 x) k) =
    if x <? 2 ^ 31 then Z.shiftr x k else Z.shiftr (x - 2 ^ 32) k + 2 ^ 32).
  { intros x Hx. rewrite as_i32_of_u32, (as_u32_id x) by done. destruct (Z.ltb_spec x (2 ^ 31)).
    - pose proof (shiftr_shrinks x k). rewrite as_u32_id; lia.
    - pose proof (shiftr_negative (x - 2 ^ 32) k (2 ^ 31)).
      unfold as_u. rewrite <- (Z_mod_plus_full _ 1), Z.mod_small; lia. }
  rewrite !Hs by done.
  destruct (Z.ltb_spec a (2 ^ 31)), (Z.ltb_spec b (2 ^ 31)); try lia.
  - apply shiftr_mono; lia.
  - pose proof (shiftr_shrinks a k). pose proof (shiftr_negative (b - 2 ^ 32) k (2 ^ 31)). lia.
  - pose proof (shiftr_mono (a - 2 ^ 32) (b - 2 ^ 32) k). lia.
Qed.

Lemma shift32_range_sound op d s a b :
  is_shift op = true -> is_u32 (fst d) -> is_u32 (snd d) -> is_u32 a ->
  within d a -> within s b -> 0 <= b < 32 ->
  within (shift32_range op d s) (alu_const32 op a b).
Proof.
  destruct d as [d0 d1], s as [s0 s1]; cbn [fst snd].
  intros Hop Hd0 Hd1 Ha Hin Hin' Hb. unfold within in Hin, Hin'; simpl in Hin, Hin'.
  assert (Hl : Z.land b 31 = b) by (apply land_31; lia).
  destruct op; try done; unfold shift32_range, alu_const32; cbv beta iota;
    rewrite (as_u32_id a), (as_u32_id b), Hl by lia;
    destruct (Z.eqb_spec s0 s1) as [<-|]; cbn [negb]; try apply as_u32_range;
    try (assert (b = s0) as -> by lia);
    try (rewrite (proj2 (Z.leb_gt 32 s0)) by lia).
  - destruct (Z.eqb_spec s0 0) as [->|].
    { rewrite Z.shiftl_0_r, as_u32_id by lia. done. }
    assert (Hp : 0 < 2 ^ (32 - s0) < 2 ^ 32) by (split; [lia|apply Z.pow_lt_mono_r; lia]).
    rewrite Z.shiftl_1_l, (as_u32_id (2 ^ _)) by lia.
    destruct (Z.ltb_spec d1 (2 ^ (32 - s0))); [|apply as_u32_range].
    apply (shl_mono 32); [lia|done|]. rewrite !Z.div_small by lia. done.
  - split; apply shiftr_mono; simpl; lia.
  - pose proof (shiftr_shrinks a b). unfold within; simpl. lia.
  - split; apply sar32_mono; simpl; lia.
Qed.

Lemma as_u32_small_range x : is_u32 x -> within full_u32 x.
Proof. done. Qed.

Lemma alu32_range_sound op d s a b :
  is_u32 (fst d) -> is_u32 (snd d) -> is_u32 (fst s) -> is_u32 (snd s) ->
  is_u32 a -> is_u32 b -> within d a -> within s b ->
  (is_shift op = true -> b < 32) -> range32_covered op d s = true ->
  within (alu32_range op d s) (alu_const32 op a b).
Proof.
  destruct d as [d0 d1], s as [s0 s1]; cbn [fst snd].
  intros Hd0 Hd1 Hs0 Hs1 Ha Hb Hin Hin' Hsh Hc.
  unfold within in Hin, Hin'; simpl in Hin, Hin'. unfold range32_covered in Hc; simpl in Hc.
  destruct (is_shift op) eqn:Hop.
  { replace (alu32_range op (d0, d1) (s0, s1)) with (shift32_range op (d0, d1) (s0, s1))
      by (by destruct op).
    specialize (Hsh eq_refl). apply shift32_range_sound; simpl; try done; lia. }
  destruct op; try done; unfold alu32_range, alu_const32; cbv beta iota;
    rewrite ?(as_u32_id a), ?(as_u32_id b) by done.
  - apply interval_mod_sound; lia.
  - apply interval_mod_sound; lia.
  - pose proof (land_bounds a b). unfold within; simpl. lia.
  - pose proof (lor_bounds a b). pose proof (lor_below 32 a b). unfold within; simpl. lia.
  - pose proof (lxor_below 32 a b). unfold within; simpl. lia.
  - bool_hyps. assert (0 <= d0 * s0 <= a * b /\ a * b <= d1 * s1) by nia.
    rewrite !as_i64_id by lia. apply interval_mod_sound; lia.
  - destruct (Z.eqb_spec s0 0), (Z.eqb_spec b 0); try lia; unfold within; simpl; try lia.
    + pose proof (Z.div_pos a b). pose proof (Z.div_le_upper_bound a b a). nia.
    + apply div_range; lia.
  - unfold saturate.
    destruct (Z.eqb_spec s0 0), (Z.eqb_spec b 0); try lia; unfold within; simpl; try lia;
      pose proof (Z.mod_pos_bound a b); lia.
  - apply as_u32_range.
Qed.

(** * Results stay in their types *)

Definition typed (lo hi : Z) (r : Z * Z) : Prop := lo <= fst r <= hi /\ lo <= snd r <= hi.

Lemma shift64_range_typed op dmin dmax smin smax :
  is_i64 dmin -> is_i64 dmax -> is_i64 smin ->
  typed I64_MIN I64_MAX (shift64_range op dmin dmax smin smax).
Proof.
  intros. unfold shift64_range, shift64_by_const, typed.
  pose proof (as_u32_range smin).
  pose proof (shiftr_i64 dmin (as_u32 smin)). pose proof (shiftr_i64 dmax (as_u32 smin)).
  pose proof (shiftr_i64 dmin 63).
  destruct op, (smin =? smax); simpl; repeat case_match; simpl in *; simplify_eq;
    try lia; split; apply as_i64_range.
Qed.

Lemma product_range_order a b c d :
  fst (product_range a b c d) <= a * c <= snd (product_range a b c d) .
Proof. unfold product_range. simpl. lia. Qed.

Lemma alu64_signed_typed op d s :
  typed I64_MIN I64_MAX d -> typed I64_MIN I64_MAX s ->
  typed I64_MIN I64_MAX (alu64_signed op d s).
Proof.
  destruct d as [dmin dmax], s as [smin smax]. intros [Hd0 Hd1] [Hs0 Hs1]. cbn [fst snd] in *.
  unfold alu64_signed. cbv beta iota. destruct ((dmin =? dmax) && (smin =? smax)).
  { split; apply as_i64_range. }
  destruct op; unfold checked_i64;
    try (by apply shift64_range_typed); try (unfold typed; simpl; lia).
  - pose proof (checked_spec I64_MIN I64_MAX (dmin + smin)).
    pose proof (checked_spec I64_MIN I64_MAX (dmax + smax)).
    destruct (checked _ _ (dmin + smin)), (checked _ _ (dmax + smax)); unfold typed; simpl; lia.
  - pose proof (checked_spec I64_MIN I64_MAX (dmin - smax)).
    pose proof (checked_spec I64_MIN I64_MAX (dmax - smin)).
    destruct (checked _ _ (dmin - smax)), (checked _ _ (dmax - smin)); unfold typed; simpl; lia.
  - unfold typed. destruct (_ && _); simpl; lia.
  - unfold typed. destruct (Z.leb_spec 0 dmin), (Z.leb_spec 0 smin); simpl; lia.
  - unfold typed. destruct (_ && _); simpl; lia.
  - pose proof (product_range_order dmin dmax smin smax).
    destruct (product_range dmin dmax smin smax) as [lo hi]. unfold typed. simpl in *.
    destruct (Z.ltb_spec lo I64_MIN), (Z.ltb_spec I64_MAX hi); simpl; lia.
  - unfold typed, saturate. destruct (_ && _); simpl; [|lia]. rewrite as_i64_id; lia.
Qed.

Lemma alu64_unsigned_typed op d s :
  typed 0 U64_MAX d -> typed 0 U64_MAX s ->
  typed 0 U64_MAX (alu64_unsigned op d s).
Proof.
  destruct d as [dmin dmax], s as [smin smax]. intros [Hd0 Hd1] [Hs0 Hs1]. simpl in *.
  destruct op; unfold checked_u64; unfold typed; try (simpl; lia).
  - pose proof (checked_spec 0 U64_MAX (dmin + smin)).
    pose proof (checked_spec 0 U64_MAX (dmax + smax)).
    destruct (checked _ _ (dmin + smin)), (checked _ _ (dmax + smax)); simpl; lia.
  - pose proof (checked_spec 0 U64_MAX (dmin - smax)).
    pose proof (checked_spec 0 U64_MAX (dmax - smin)).
    destruct (checked _ _ (dmin - smax)), (checked _ _ (dmax - smin)); simpl; lia.
  - destruct (_ && _); simpl; [|lia]. split; apply as_u64_range.
  - pose proof (as_u32_range smin). pose proof (shiftr_shrinks dmin (as_u32 smin)).
    pose proof (shiftr_shrinks dmax (as_u32 smin)). destruct (_ =? _); simpl; lia.
  - assert (0 <= dmin * smin /\ 0 <= dmin * smax /\ 0 <= dmax * smin /\ 0 <= dmax * smax) by nia.
    unfold product_range_u. simpl. set (hi := Z.max _ (dmax * smax)).
    destruct (Z.ltb_spec U64_MAX hi); simpl; lia.
  - destruct (Z.eqb_spec smin 0); simpl; [lia|].
    pose proof (Z.div_pos dmin (Z.max smax 1)). pose proof (Z.div_pos dmax smin).
    pose proof (Z.div_le_upper_bound dmin (Z.max smax 1) dmin).
    pose proof (Z.div_le_upper_bound dmax smin dmax). nia.
  - pose proof (as_u64_range (smax - 1)). destruct (_ =? _); simpl; unfold wsub; lia.
Qed.

Lemma interval_mod_typed lo hi : typed 0 U32_MAX (interval_mod lo hi).
Proof.
  unfold interval_mod, typed. destruct (_ && _); simpl; [|lia]. split; apply as_u32_range.
Qed.

Lemma alu32_range_typed op d s :
  typed 0 U32_MAX d -> typed 0 U32_MAX s -> typed 0 U32_MAX (alu32_range op d s).
Proof.
  destruct d as [d0 d1], s as [s0 s1]. intros [Hd0 Hd1] [Hs0 Hs1]. simpl in *.
  pose proof (shiftr_shrinks d0 s0). pose proof (shiftr_shrinks d1 s0).
  destruct op; simpl; try apply interval_mod_typed; unfold typed, saturate; simpl;
    try (repeat case_match; simpl; try lia; split; apply as_u32_range).
  destruct (Z.eqb_spec s0 0); simpl; [lia|].
  pose proof (Z.div_pos d0 (Z.max s1 1)). pose proof (Z.div_pos d1 s0).
  pose proof (Z.div_le_upper_bound d0 (Z.max s1 1) d0).
  pose proof (Z.div_le_upper_bound d1 s0 d1). nia.
Qed.

(** * Tracked numbers *)

Lemma tnum_unknown_mem x : is_u64 x -> tnum_mem tnum_unknown x.
Proof. apply tnum_unknown_ok. Qed.

Lemma shiftr_u64 a k : is_u64 a -> 0 <= k -> is_u64 (Z.shiftr a k).
Proof. intros. pose proof (shiftr_shrinks a k). lia. Qed.

Lemma quotient_bound m a b : 0 <= a <= m -> 0 <= b -> 0 <= (if b =? 0 then 0 else a / b) <= m.
Proof.
  intros. destruct (Z.eqb_spec b 0); [lia|].
  pose proof (Z.div_pos a b). pose proof (Z.div_le_upper_bound a b a). nia.
Qed.
Lemma remainder_bound m a b : 0 <= a <= m -> 0 <= b <= m -> 0 <= (if b =? 0 then a else a mod b) <= m.
Proof. intros. destruct (Z.eqb_spec b 0); [lia|]. pose proof (Z.mod_pos_bound a b). lia. Qed.

Lemma land_nonneg_r a b : 0 <= b -> 0 <= Z.land a b.
Proof. intros. apply Z.land_nonneg. lia. Qed.

(** The word operations produce words. *)
Lemma alu_const64_u64 op a b : is_u64 a -> is_u64 b -> is_u64 (alu_const64 op a b).
Proof.
  intros Ha Hb. destruct op; unfold alu_const64, wadd, wsub, wmul;
    solve [eauto with bits | apply shiftr_u64; [done|by apply land_nonneg_r]
          | apply quotient_bound; lia | apply remainder_bound; lia].
Qed.

Lemma alu_const32_u32 op a b : is_u32 (alu_const32 op a b).
Proof.
  unfold alu_const32. pose proof (as_u32_range a). pose proof (as_u32_range b).
  set (x := as_u32 a) in *. set (y := as_u32 b) in *. clearbody x y.
  pose proof (land_bounds x y). pose proof (lor_below 32 x y). pose proof (lxor_below 32 x y).
  pose proof (shiftr_shrinks x (Z.land y 31)). pose proof (land_nonneg_r y 31).
  destruct op; unfold wadd, wsub, wmul;
    solve [apply as_u32_range | lia | apply quotient_bound; lia | apply remainder_bound; lia].
Qed.

Lemma shl64_const a b : is_u64 a -> 0 <= b < 64 -> alu_const64 Lsh a b = shl64 a b.
Proof.
  intros. unfold alu_const64, shl64. rewrite as_u32_id, land_63 by lia.
  by rewrite (proj2 (Z.ltb_lt b 64)) by lia.
Qed.
Lemma shr64_const a b : is_u64 a -> 0 <= b < 64 -> alu_const64 Rsh a b = shr64 a b.
Proof.
  intros. unfold alu_const64, shr64. rewrite as_u32_id, land_63 by lia.
  by rewrite (proj2 (Z.ltb_lt b 64)) by lia.
Qed.
Lemma sar64_const a b : is_u64 a -> 0 <= b < 64 -> alu_const64 Arsh a b = sar64 a b.
Proof.
  intros. unfold alu_const64, sar64. rewrite land_63 by lia.
  by rewrite (proj2 (Z.ltb_lt b 64)) by lia.
Qed.

Lemma alu_tnum_wf op d s lo hi : tnum_wf d -> tnum_wf s -> tnum_wf (alu_tnum op d s lo hi).
Proof.
  intros Hd Hs. pose proof (as_u32_range lo). destruct op; simpl;
    try (by apply tnum_add_ok); try (by apply tnum_sub_ok); try (by apply tnum_and_ok);
    try (by apply tnum_or_ok); try (by apply tnum_xor_ok); try apply tnum_unknown_ok;
    destruct (negb _); try apply tnum_unknown_ok.
  - apply tnum_lshift_ok; [lia|done].
  - apply tnum_rshift_ok; [lia|done].
  - apply tnum_arshift_ok; [lia|done].
Qed.

Lemma alu_tnum_sound op d s lo hi a b :
  tnum_wf d -> tnum_wf s -> tnum_mem d a -> tnum_mem s b ->
  (is_shift op = true -> 0 <= lo /\ hi < 64 /\ lo <= b <= hi) ->
  tnum_mem (alu_tnum op d s lo hi) (alu_const64 op a b).
Proof.
  intros Hd Hs Ha Hb Hsh. pose proof Ha as [Hau _]. pose proof Hb as [Hbu _].
  pose proof (alu_const64_u64 op a b Hau Hbu) as Hr.
  destruct op; cbn [alu_tnum]; try (by apply tnum_unknown_mem).
  - by apply tnum_add_ok.
  - by apply tnum_sub_ok.
  - by apply tnum_and_ok.
  - by apply tnum_or_ok.
  - by apply tnum_xor_ok.
  - destruct (Hsh eq_refl) as (?&?&?).
    destruct (Z.eqb_spec lo hi) as [<-|]; cbn [negb]; [|by apply tnum_unknown_mem].
    assert (b = lo) as -> by lia. rewrite shl64_const, as_u32_id by lia.
    apply (tnum_lshift_ok lo); [lia|done..].
  - destruct (Hsh eq_refl) as (?&?&?).
    destruct (Z.eqb_spec lo hi) as [<-|]; cbn [negb]; [|by apply tnum_unknown_mem].
    assert (b = lo) as -> by lia. rewrite shr64_const, as_u32_id by lia.
    apply (tnum_rshift_ok lo); [lia|done..].
  - destruct (Hsh eq_refl) as (?&?&?).
    destruct (Z.eqb_spec lo hi) as [<-|]; cbn [negb]; [|by apply tnum_unknown_mem].
    assert (b = lo) as -> by lia. rewrite sar64_const, as_u32_id by lia.
    apply (tnum_arshift_ok lo); [lia|done..].
Qed.

(** Truncating the 64-bit tracked number is sound for a right shift only when
    no bit of the upper half can be shifted in, and for an arithmetic one only
    when the sign bit of the lower half is known to be clear as well. *)
Definition tnum_below (w : Z) (t : Tnum) : bool := (tvalue t <? 2 ^ w) && (tmask t <? 2 ^ w).
Definition tnum32_covered (op : AluOp) (d : Tnum) (lo hi : Z) : bool :=
  match op with
  | Rsh => negb (lo =? hi) || tnum_below 32 d
  | Arsh => negb (lo =? hi) || tnum_below 31 d
  | _ => true
  end.

Lemma tnum_below_mem w t x :
  0 <= w <= 64 -> tnum_wf t -> tnum_mem t x -> tnum_below w t = true -> 0 <= x < 2 ^ w.
Proof.
  intros Hw Ht Hx Hb. unfold tnum_below in Hb. bool_hyps. pose proof Ht as (?&?&_).
  pose proof Hx as [Hu _]. apply bits_range; [lia|]. intros i Hi.
  destruct (Z.lt_ge_cases i 64); [|apply testbit_u64_high; lia].
  rewrite (tnum_mem_bit t x i Ht Hx) by
    (try lia; apply (testbit_high w); lia). apply (testbit_high w); lia.
Qed.

Lemma as_u32_bitwise f g x y :
  (forall i, 0 <= i -> Z.testbit (f x y) i = g (Z.testbit x i) (Z.testbit y i)) ->
  (forall i, 0 <= i -> Z.testbit (f (as_u32 x) (as_u32 y)) i =
                       g (Z.testbit (as_u32 x) i) (Z.testbit (as_u32 y) i)) ->
  g false false = false ->
  as_u32 (f x y) = f (as_u32 x) (as_u32 y).
Proof.
  intros Hf Hf' Hg. apply Z.bits_inj'. intros i Hi.
  rewrite Hf', !as_u_spec, Hf by lia. by destruct (i <? 32).
Qed.

(** The low halves of the 64-bit results are the 32-bit results. *)
Lemma low_half_arith a b :
  as_u32 (wadd 64 a b) = wadd 32 (as_u32 a) (as_u32 b) /\
  as_u32 (wsub 64 a b) = wsub 32 (as_u32 a) (as_u32 b).
Proof.
  unfold wadd, wsub. rewrite !as_u32_as_u64. unfold as_u.
  split; [apply Zplus_mod|apply Zminus_mod].
Qed.

Lemma low_half_shl a k :
  0 <= k < 32 -> as_u32 (shl64 a k) = as_u32 (Z.shiftl (as_u32 a) k).
Proof.
  intros. unfold shl64. rewrite (proj2 (Z.ltb_lt k 64)), as_u32_as_u64 by lia.
  apply Z.bits_inj'. intros i Hi. rewrite !as_u_spec, !Z.shiftl_spec by lia.
  destruct (Z.ltb_spec i 32); simpl; [|done]. destruct (Z.lt_ge_cases i k).
  - rewrite !Z.testbit_neg_r; lia || done.
  - rewrite as_u_spec by lia. by rewrite (proj2 (Z.ltb_lt _ 32)) by lia.
Qed.

Lemma alu_tnum32_sound op d s lo hi a b :
  tnum_wf d -> tnum_wf s -> tnum_mem d a -> tnum_mem s b ->
  (is_shift op = true -> 0 <= lo /\ hi < 32 /\ lo <= b <= hi) ->
  tnum32_covered op d lo hi = true ->
  tnum_mem (tnum_subreg (alu_tnum op d s lo hi)) (alu_const32 op a b).
Proof.
  intros Hd Hs Ha Hb Hsh Hc. pose proof Ha as [Hau _]. pose proof Hb as [Hbu _].
  assert (H64 : tnum_mem (alu_tnum op d s lo hi) (alu_const64 op a b)).
  { apply alu_tnum_sound; try done. intros Hop. destruct (Hsh Hop); lia. }
  pose proof (alu_tnum_wf op d s lo hi Hd Hs) as Hwf.
  assert (Hlow : as_u32 (alu_const64 op a b) = alu_const32 op a b ->
    tnum_mem (tnum_subreg (alu_tnum op d s lo hi)) (alu_const32 op a b)).
  { intros <-. by apply tnum_subreg_ok. }
  assert (Hunk : alu_tnum op d s lo hi = tnum_unknown ->
    tnum_mem (tnum_subreg (alu_tnum op d s lo hi)) (alu_const32 op a b)).
  { intros ->. pose proof (alu_const32_u32 op a b). rewrite <- (as_u32_id (alu_const32 op a b)) by done.
    apply tnum_subreg_ok; [apply tnum_unknown_ok|]. apply tnum_unknown_mem. lia. }
  destruct op; try (by apply Hunk); simpl in Hc.
  - apply Hlow. apply low_half_arith.
  - apply Hlow. apply low_half_arith.
  - apply Hlow. apply (as_u32_bitwise Z.land andb); intros; [apply Z.land_spec..|done].
  - apply Hlow. apply (as_u32_bitwise Z.lor orb); intros; [apply Z.lor_spec..|done].
  - apply Hlow. apply (as_u32_bitwise Z.lxor xorb); intros; [apply Z.lxor_spec..|done].
  - destruct (Hsh eq_refl) as (?&?&?). apply Hlow. rewrite shl64_const by lia.
    unfold alu_const32. rewrite (as_u32_id b), land_31 by lia. apply low_half_shl. lia.
  - destruct (Hsh eq_refl) as (?&?&?).
    destruct (Z.eqb_spec lo hi); [|apply Hunk; simpl; by rewrite (proj2 (Z.eqb_neq lo hi))].
    apply Hlow. pose proof (tnum_below_mem 32 d a ltac:(lia) Hd Ha Hc).
    rewrite shr64_const by lia. unfold shr64, alu_const32.
    rewrite (as_u32_id a), (as_u32_id b), land_31, (proj2 (Z.ltb_lt b 64)) by lia.
    pose proof (shiftr_shrinks a b). apply as_u32_id. lia.
  - destruct (Hsh eq_refl) as (?&?&?).
    destruct (Z.eqb_spec lo hi); [|apply Hunk; simpl; by rewrite (proj2 (Z.eqb_neq lo hi))].
    apply Hlow. pose proof (tnum_below_mem 31 d a ltac:(lia) Hd Ha Hc).
    unfold alu_const64, alu_const32. rewrite as_i32_of_u32.
    rewrite (as_u32_id a), (as_u32_id b), as_i64_nonneg, land_31, land_63 by lia.
    rewrite (as_u32_id a), (proj2 (Z.ltb_lt a (2 ^ 31))) by lia.
    by rewrite as_u32_as_u64.
Qed.

(** * The transfer function of a scalar register *)

Definition width_bits (w : AluWidth) : Z := match w with W64 => 64 | W32 => 32 end.

(** The operand shapes for which the transfer function is sound: everything but
    the four cases described with [signed_covered], [range32_covered] and
    [tnum32_covered]. *)
Definition alu_covered (op : AluOp) (width : AluWidth) (d s : ScalarBounds) : bool :=
  (is_shift op && ((smin s <? 0) || (width_bits width <=? smax s))) ||
  (bounds_is_constant d && bounds_is_constant s) ||
  match width with
  | W64 => signed_covered op (bounds_signed d) (bounds_signed s)
  | W32 => range32_covered op (u32_min d, u32_max d) (u32_min s, u32_max s) &&
           tnum32_covered op (tnum d) (smin s) (smax s)
  end.

(** A concrete pair of operands on which the transfer function loses the
    result: both inputs are described and the output is not. *)
Definition misses (op : AluOp) (w : AluWidth) (d s : ScalarBounds) (a b : Z) : Prop :=
  bounds_wf d /\ bounds_wf s /\ bounds_mem d a /\ bounds_mem s b /\
  ~ bounds_mem (apply_alu op w d s) (alu_value op w a b).

Lemma alu_const32_low op a b : alu_const32 op (as_u32 a) (as_u32 b) = alu_const32 op a b.
Proof. unfold alu_const32. by rewrite !as_u_idem by lia. Qed.

Lemma alu_value_u64 op w a b : is_u64 a -> is_u64 b -> is_u64 (alu_value op w a b).
Proof.
  intros. destruct w; simpl; [by apply alu_const64_u64|].
  pose proof (alu_const32_u32 op a b). lia.
Qed.

Section transfer.
Context (op : AluOp) (d s : ScalarBounds) (a b : Z).
Context (Hd : bounds_wf d) (Hs : bounds_wf s) (Ha : bounds_mem d a) (Hb : bounds_mem s b).

(** An amount checked on the signed view is the same in the unsigned one. *)
Lemma shift_amount w :
  (is_shift op && ((smin s <? 0) || (w <=? smax s))) = false -> is_shift op = true ->
  0 <= smin s /\ smax s < w /\ smin s <= b <= smax s.
Proof using Hs Hb.
  intros Hsh Hop. rewrite Hop in Hsh. simpl in Hsh. bool_hyps.
  destruct Hb as [(Hbu & ? & _) _]. pose proof (i64_nonneg_u64 b). lia.
Qed.

Lemma transfer64_mem :
  (is_shift op && ((smin s <? 0) || (64 <=? smax s))) = false ->
  signed_covered op (bounds_signed d) (bounds_signed s) = true ->
  let '(sm, sx) := alu64_signed op (bounds_signed d) (bounds_signed s) in
  let '(um, ux) := alu64_unsigned op (bounds_unsigned d)
    (if is_shift op then (as_u64 (smin s), as_u64 (smax s)) else bounds_unsigned s) in
  mem64 (mk64 sm sx um ux (alu_tnum op (tnum d) (tnum s) (smin s) (smax s)) (id d) (delta d))
    (alu_const64 op a b).
Proof using Hd Hs Ha Hb.
  intros Hsh Hc. pose proof (shift_amount 64 Hsh) as Hamt.
  destruct Hd as (?&?&?&?&_&_&_&_&?), Hs as (?&?&?&?&_&_&_&_&?).
  destruct Ha as [(Hau & Has & Haun & Hat) _], Hb as [(Hbu & Hbs & Hbun & Hbt) _].
  assert (HS : within (alu64_signed op (bounds_signed d) (bounds_signed s))
    (as_i64 (alu_const64 op a b))).
  { apply alu64_signed_sound; simpl; try done. intros Hop. destruct (Hamt Hop); lia. }
  assert (HU : within (alu64_unsigned op (bounds_unsigned d)
    (if is_shift op then (as_u64 (smin s), as_u64 (smax s)) else bounds_unsigned s))
    (alu_const64 op a b)).
  { destruct (is_shift op) eqn:Hop.
    - destruct (Hamt eq_refl) as (?&?&?). rewrite !as_u64_nonneg by lia.
      apply alu64_unsigned_sound; unfold within; simpl; try done; lia.
    - apply alu64_unsigned_sound; unfold within; simpl; try done. congruence. }
  destruct (alu64_signed _ _ _), (alu64_unsigned _ _ _). unfold within in *; simpl in *.
  split_and!; simpl; try lia; try by apply alu_const64_u64.
  by apply alu_tnum_sound.
Qed.

Lemma transfer32_mem :
  (is_shift op && ((smin s <? 0) || (32 <=? smax s))) = false ->
  range32_covered op (u32_min d, u32_max d) (u32_min s, u32_max s) = true ->
  tnum32_covered op (tnum d) (smin s) (smax s) = true ->
  let '(rmin, rmax) := alu32_range op (u32_min d, u32_max d) (u32_min s, u32_max s) in
  mem64 (mk64 rmin rmax rmin rmax
           (tnum_subreg (alu_tnum op (tnum d) (tnum s) (smin s) (smax s))) (id d) (delta d))
    (alu_const32 op a b).
Proof using Hd Hs Ha Hb.
  intros Hsh Hc Hct. pose proof (shift_amount 32 Hsh) as Hamt.
  destruct Hd as (?&?&?&?&_&_&?&?&?), Hs as (?&?&?&?&_&_&?&?&?).
  destruct Ha as [(Hau & _ & _ & Hat) [_ Ha32]], Hb as [(Hbu & _ & _ & Hbt) [_ Hb32]].
  pose proof (alu_const32_u32 op a b) as Hr.
  assert (HR : within (alu32_range op (u32_min d, u32_max d) (u32_min s, u32_max s))
    (alu_const32 op a b)).
  { rewrite <- alu_const32_low.
    apply alu32_range_sound; simpl; try done; try apply as_u32_range.
    intros Hop. destruct (Hamt Hop). rewrite as_u32_id; lia. }
  destruct (alu32_range _ _ _). unfold within in HR; simpl in HR.
  split_and!; simpl; try lia; try (rewrite as_i64_nonneg; lia).
  apply alu_tnum32_sound; done.
Qed.
End transfer.

Lemma alu_linking_views op w r d s :
  exists i dl, apply_linking op w r d s = with_link r i dl.
Proof. unfold apply_linking. repeat case_match; eauto. Qed.

Lemma with_link_wf b i dl : bounds_wf (with_link b i dl) <-> bounds_wf b.
Proof. done. Qed.
Lemma with_link_mem b i dl v : bounds_mem (with_link b i dl) v <-> bounds_mem b v.
Proof. done. Qed.

(** The unsynchronised results hold values of their types. *)
Lemma raw64_wf op d s amt :
  bounds_wf d -> bounds_wf s -> typed 0 U64_MAX amt ->
  let '(sm, sx) := alu64_signed op (bounds_signed d) (bounds_signed s) in
  let '(um, ux) := alu64_unsigned op (bounds_unsigned d) amt in
  bounds_wf (mk64 sm sx um ux (alu_tnum op (tnum d) (tnum s) (smin s) (smax s)) (id d) (delta d)).
Proof.
  intros (?&?&?&?&_&_&?&?&?) (?&?&?&?&_&_&?&?&?) Hamt.
  pose proof (alu64_signed_typed op (bounds_signed d) (bounds_signed s) ltac:(done) ltac:(done)).
  pose proof (alu64_unsigned_typed op (bounds_unsigned d) amt ltac:(done) Hamt).
  destruct (alu64_signed _ _ _), (alu64_unsigned _ _ _). unfold typed in *; simpl in *.
  assert (tnum_wf (alu_tnum op (tnum d) (tnum s) (smin s) (smax s))) by (by apply alu_tnum_wf).
  unfold bounds_wf; simpl. split_and!; lia || done.
Qed.

Lemma raw32_wf op d s :
  bounds_wf d -> bounds_wf s ->
  let '(rmin, rmax) := alu32_range op (u32_min d, u32_max d) (u32_min s, u32_max s) in
  bounds_wf (mk64 rmin rmax rmin rmax
    (tnum_subreg (alu_tnum op (tnum d) (tnum s) (smin s) (smax s))) (id d) (delta d)).
Proof.
  intros (?&?&?&?&_&_&?&?&?) (?&?&?&?&_&_&?&?&?).
  pose proof (alu32_range_typed op (u32_min d, u32_max d) (u32_min s, u32_max s)
    ltac:(done) ltac:(done)).
  destruct (alu32_range _ _ _). unfold typed in *; simpl in *.
  assert (tnum_wf (tnum_subreg (alu_tnum op (tnum d) (tnum s) (smin s) (smax s))))
    by (apply tnum_subreg_ok; by apply alu_tnum_wf).
  unfold bounds_wf; simpl. split_and!; lia || done.
Qed.

Lemma amount_typed op s :
  bounds_wf s ->
  typed 0 U64_MAX (if is_shift op then (as_u64 (smin s), as_u64 (smax s)) else bounds_unsigned s).
Proof.
  intros (?&?&?&?&_). destruct (is_shift op); split; simpl; try apply as_u64_range; lia.
Qed.

Lemma alu_inner_wf op w d s :
  bounds_wf d -> bounds_wf s -> bounds_wf (apply_alu_inner op w d s).
Proof.
  intros Hd Hs. unfold apply_alu_inner. cbv zeta.
  destruct (is_shift op && _) eqn:Hsh; [apply bounds_unknown_wf|].
  destruct (bounds_is_constant d && bounds_is_constant s).
  { apply bounds_constant_wf. apply as_i64_range. }
  destruct w.
  - pose proof (raw64_wf op d s _ Hd Hs (amount_typed op s Hs)) as Hw.
    destruct (alu64_signed _ _ _), (alu64_unsigned _ _ _). by apply synced_wf.
  - pose proof (raw32_wf op d s Hd Hs) as Hw.
    destruct (alu32_range _ _ _). by apply synced_wf.
Qed.

Lemma apply_alu_wf op w d s : bounds_wf d -> bounds_wf s -> bounds_wf (apply_alu op w d s).
Proof.
  intros. unfold apply_alu. destruct (alu_linking_views op w (apply_alu_inner op w d s) d s)
    as (i & dl & ->). apply with_link_wf. by apply alu_inner_wf.
Qed.

Lemma alu_inner_mem op w d s a b :
  bounds_wf d -> bounds_wf s -> bounds_mem d a -> bounds_mem s b ->
  alu_covered op w d s = true ->
  bounds_mem (apply_alu_inner op w d s) (alu_value op w a b).
Proof.
  intros Hd Hs Ha Hb Hc. pose proof Ha as [[Hau _] _]. pose proof Hb as [[Hbu _] _].
  pose proof (alu_value_u64 op w a b Hau Hbu) as Hr.
  unfold apply_alu_inner, alu_covered in *. cbv zeta.
  change (match w with W64 => 64 | W32 => 32 end) with (width_bits w).
  destruct (is_shift op && _) eqn:Hsh; [by apply bounds_unknown_mem|].
  destruct (bounds_is_constant d && bounds_is_constant s) eqn:Hk.
  { apply andb_true_iff in Hk as [Hkd Hks].
    destruct (is_constant_mem d a Hd Ha Hkd) as (<- & _ & _).
    destruct (is_constant_mem s b Hs Hb Hks) as (<- & _ & _).
    apply bounds_constant_mem; [apply as_i64_range|]. by rewrite as_u64_as_i64. }
  destruct w; cbn [orb] in Hc.
  - pose proof (transfer64_mem op d s a b Hd Hs Ha Hb Hsh Hc) as Hm.
    pose proof (raw64_wf op d s _ Hd Hs (amount_typed op s Hs)) as Hw.
    destruct (alu64_signed _ _ _), (alu64_unsigned _ _ _). by apply synced_mem.
  - apply andb_true_iff in Hc as [Hc Hct].
    pose proof (transfer32_mem op d s a b Hd Hs Ha Hb Hsh Hc Hct) as Hm.
    pose proof (raw32_wf op d s Hd Hs) as Hw.
    destruct (alu32_range _ _ _). by apply synced_mem.
Qed.

Lemma apply_alu_mem op w d s a b :
  bounds_wf d -> bounds_wf s -> bounds_mem d a -> bounds_mem s b ->
  alu_covered op w d s = true ->
  bounds_mem (apply_alu op w d s) (alu_value op w a b).
Proof.
  intros. unfold apply_alu. destruct (alu_linking_views op w (apply_alu_inner op w d s) d s)
    as (i & dl & ->). apply with_link_mem. by apply alu_inner_mem.
Qed.

(** * Where the transfer function misses results *)

(** A result outside the unsigned or the signed view is not described. *)
Lemma not_described b v :
  ((umin b <=? v) && (v <=? umax b)) && ((smin b <=? as_i64 v) && (as_i64 v <=? smax b)) = false ->
  ~ bounds_mem b v.
Proof.
  intros H [(_ & ? & ? & _) _]. assert (true = false); [|done]. rewrite <- H. symmetry.
  rewrite !andb_true_iff, !Z.leb_le. lia.
Qed.

Lemma tnum_not_described b v : tnum_contains (tnum b) v = false -> ~ bounds_mem b v.
Proof. intros H [(_ & _ & _ & [_ Ht]) _]. congruence. Qed.

Ltac member := apply from_signed_mem; [lia|lia|lia|]; vm_compute; intuition discriminate.

(** Five operand pairs outside [alu_covered]. *)
Lemma alu_losses :
  misses Mul W32 bounds_unknown bounds_unknown 2 2 /\
  misses Arsh W64 (bounds_from_signed (-100) 10) (bounds_from_signed 0 1) (as_u64 (-100)) 0 /\
  misses Mod W64 (bounds_from_signed 0 10) (bounds_constant (-3)) 5 (as_u64 (-3)) /\
  misses Rsh W32 (bounds_from_signed (2 ^ 32) (2 ^ 32 + 1)) (bounds_constant 1) (2 ^ 32 + 1) 1 /\
  misses Arsh W32 (bounds_from_signed (2 ^ 32) (2 ^ 32 + 1)) (bounds_constant 1) (2 ^ 32 + 1) 1.
Proof.
  unfold misses. split_and!;
    lazymatch goal with
    | |- bounds_wf bounds_unknown => apply bounds_unknown_wf
    | |- bounds_wf (bounds_constant _) => apply bounds_constant_wf; lia
    | |- bounds_wf (bounds_from_signed _ _) => apply from_signed_wf; lia
    | |- bounds_mem bounds_unknown _ => apply bounds_unknown_mem; lia
    | |- bounds_mem (bounds_constant _) _ => apply bounds_constant_mem; [lia|reflexivity]
    | |- bounds_mem (bounds_from_signed _ _) _ => member
    | |- ~ bounds_mem _ _ =>
        first [apply not_described; vm_compute; reflexivity
              |apply tnum_not_described; vm_compute; reflexivity]
    end.
Qed.

(** C14: the transfer function of a scalar ALU instruction computes, from
    well-formed bounds that describe the two operand words, well-formed bounds for
    every operation and width; and they describe the word the instruction produces
    on every operand shape that [alu_covered] accepts.  Four shapes are excluded
    (unless both operands are constants, or the amount of a shift may lie outside
    the width): a 64-bit arithmetic right shift of a possibly negative operand by a
    variable amount, a 64-bit remainder by a negative constant, a 32-bit product of
    ranges whose upper ends multiply to 2^63 or more, and a 32-bit right shift by a
    constant of an operand that may have bits in the upper half (for the arithmetic
    one: from bit 31 on).  On these the result is really lost: the last five clauses
    are instances. *)
Theorem apply_alu_sound (op : AluOp) (w : AluWidth) (d s : ScalarBounds) (a b : Z) :
  bounds_wf d -> bounds_wf s -> bounds_mem d a -> bounds_mem s b ->
  bounds_wf (apply_alu op w d s) /\
  (alu_covered op w d s = true -> bounds_mem (apply_alu op w d s) (alu_value op w a b)) /\
  misses Mul W32 bounds_unknown bounds_unknown 2 2 /\
  misses Arsh W64 (bounds_from_signed (-100) 10) (bounds_from_signed 0 1) (as_u64 (-100)) 0 /\
  misses Mod W64 (bounds_from_signed 0 10) (bounds_constant (-3)) 5 (as_u64 (-3)) /\
  misses Rsh W32 (bounds_from_signed (2 ^ 32) (2 ^ 32 + 1)) (bounds_constant 1) (2 ^ 32 + 1) 1 /\
  misses Arsh W32 (bounds_from_signed (2 ^ 32) (2 ^ 32 + 1)) (bounds_constant 1) (2 ^ 32 + 1) 1.
Proof. intros. split; [by apply apply_alu_wf|]. split; [by apply apply_alu_mem|]. exact alu_losses. Qed.

Lemma apply_alu_sound_witness :
  bounds_mem (apply_alu Mul W64 (bounds_from_signed (-3) 7) (bounds_from_signed 2 5))
    (alu_value Mul W64 (as_u64 (-2)) 4).
Proof.
  apply apply_alu_sound.
  - apply from_signed_wf; lia.
  - apply from_signed_wf; lia.
  - member.
  - member.
  - vm_compute. reflexivity.
Defined.

(** Outside [alu_covered] the transfer function does lose results. A 32-bit
    multiplication of two unknown words describes only 0 and 1; an arithmetic
    right shift by a variable amount starts the interval at the sign of the
    lowest operand; a remainder by a negative constant is bounded by the
    constant minus one; and the 32-bit right shifts move bits of the upper half
    of the tracked number into the result. *)
Theorem apply_alu_gaps :
  misses Mul W32 bounds_unknown bounds_unknown 2 2 /\
  misses Arsh W64 (bounds_from_signed (-100) 10) (bounds_from_signed 0 1) (as_u64 (-100)) 0 /\
  misses Mod W64 (bounds_from_signed 0 10) (bounds_constant (-3)) 5 (as_u64 (-3)) /\
  misses Rsh W32 (bounds_from_signed (2 ^ 32) (2 ^ 32 + 1)) (bounds_constant 1) (2 ^ 32 + 1) 1 /\
  misses Arsh W32 (bounds_from_signed (2 ^ 32) (2 ^ 32 + 1)) (bounds_constant 1) (2 ^ 32 + 1) 1.
Proof. exact alu_losses. Qed.
