(* ===== verification/Branch.v ===== *)
(** Conditional branches over scalars (src/src/exec.rs, "Branch refinement" and
    "Worklist path exploration"): the refinement equations of the ordered
    comparisons, generic in the interval family ([WrapInt]), equality and
    inequality, the static verdicts, JSET and the 32-bit compares.  The theorems
    compare them with the concrete conditions the concrete engine evaluates
    (src/src/concrete.rs, [concrete_cond]): refinement keeps every pair of words
    on its side of the branch, a static verdict is always right. *)
From Stdlib Require Import ZArith Lia List Bool.
From stdpp Require Import base list.
From S2P Require Import Prelude Tnum Bounds Alu Insn.
Open Scope Z_scope.

(** * Comparisons *)

Module OrdOp.
Inductive OrdOp := Gt | Ge | Lt | Le.
End OrdOp.
Abbreviation OrdOp := OrdOp.OrdOp.

Module CondOp.
Inductive CondOp := Eq | Ne | Ugt | Uge | Ult | Ule | Sgt | Sge | Slt | Sle.

Definition ord (op : CondOp) : option OrdOp :=
  match op with
  | Ugt | Sgt => Some OrdOp.Gt
  | Uge | Sge => Some OrdOp.Ge
  | Ult | Slt => Some OrdOp.Lt
  | Ule | Sle => Some OrdOp.Le
  | Eq | Ne => None
  end.

Definition is_signed (op : CondOp) : bool :=
  match op with Sgt | Sge | Slt | Sle => true | _ => false end.
End CondOp.
Abbreviation CondOp := CondOp.CondOp.

#[global] Instance cond_op_eq_dec : EqDecision CondOp.
Proof. solve_decision. Defined.

(** The exact comparison of two words, as the concrete engine evaluates it. *)
Definition cond_holds (op : CondOp) (d s : Z) : bool :=
  match op with
  | CondOp.Eq => d =? s
  | CondOp.Ne => negb (d =? s)
  | CondOp.Ugt => s <? d
  | CondOp.Uge => s <=? d
  | CondOp.Ult => d <? s
  | CondOp.Ule => d <=? s
  | CondOp.Sgt => as_i64 s <? as_i64 d
  | CondOp.Sge => as_i64 s <=? as_i64 d
  | CondOp.Slt => as_i64 d <? as_i64 s
  | CondOp.Sle => as_i64 d <=? as_i64 s
  end.

(** The comparison of the low halves ([d], [s] are u32 words). *)
Definition jmp32_holds (op : Jmp32Op) (d s : Z) : bool :=
  match op with
  | Jmp32Op.Eq => d =? s
  | Jmp32Op.Ne => negb (d =? s)
  | Jmp32Op.Gt => s <? d
  | Jmp32Op.Ge => s <=? d
  | Jmp32Op.Lt => d <? s
  | Jmp32Op.Le => d <=? s
  | Jmp32Op.Sgt => as_i32 s <? as_i32 d
  | Jmp32Op.Sge => as_i32 s <=? as_i32 d
  | Jmp32Op.Slt => as_i32 d <? as_i32 s
  | Jmp32Op.Sle => as_i32 d <=? as_i32 s
  end.

(** * Interval families *)

(** [trait WrapInt]: the numeric operations the refinement equations use. *)
Record WrapInt := mkWrapInt {
  wi_MIN : Z;
  wi_MAX : Z;
  wi_ONE : Z;
  wrapping_add : Z -> Z -> Z;
  wrapping_sub : Z -> Z -> Z
}.

Definition wrap_i64 : WrapInt :=
  mkWrapInt I64_MIN I64_MAX 1 (fun a b => as_i64 (a + b)) (fun a b => as_i64 (a - b)).
Definition wrap_u64 : WrapInt :=
  mkWrapInt 0 U64_MAX 1 (fun a b => as_u64 (a + b)) (fun a b => as_u64 (a - b)).

(** The refined intervals: (true, false) of (dst, src). *)
Definition family : Type := ((Z * Z) * (Z * Z)) * ((Z * Z) * (Z * Z)).

Definition refine_ordered (T : WrapInt) (op : OrdOp) (dst src : Z * Z) : family :=
  match op with
  | OrdOp.Gt =>
      let true_dst := (Z.max (fst dst) (wrapping_add T (fst src) (wi_ONE T)), snd dst) in
      let true_src := (fst src, Z.min (snd src) (wrapping_sub T (snd dst) (wi_ONE T))) in
      let false_dst := (fst dst, Z.min (snd dst) (snd src)) in
      let false_src := (Z.max (fst src) (fst dst), snd src) in
      ((true_dst, true_src), (false_dst, false_src))
  | OrdOp.Ge =>
      let true_dst := (Z.max (fst dst) (fst src), snd dst) in
      let true_src := (fst src, Z.min (snd src) (snd dst)) in
      let false_dst := (fst dst, Z.min (snd dst) (wrapping_sub T (fst src) (wi_ONE T))) in
      let false_src := (Z.max (fst src) (wrapping_add T (fst dst) (wi_ONE T)), snd src) in
      ((true_dst, true_src), (false_dst, false_src))
  | OrdOp.Lt =>
      let true_dst := (fst dst, Z.min (snd dst) (wrapping_sub T (snd src) (wi_ONE T))) in
      let true_src := (Z.max (fst src) (wrapping_add T (fst dst) (wi_ONE T)), snd src) in
      let false_dst := (Z.max (fst dst) (fst src), snd dst) in
      let false_src := (fst src, Z.min (snd src) (snd dst)) in
      ((true_dst, true_src), (false_dst, false_src))
  | OrdOp.Le =>
      let true_dst := (fst dst, Z.min (snd dst) (snd src)) in
      let true_src := (Z.max (fst src) (fst dst), snd src) in
      let false_dst := (Z.max (fst dst) (wrapping_add T (fst src) (wi_ONE T)), snd dst) in
      let false_src := (fst src, Z.min (snd src) (wrapping_sub T (snd dst) (wi_ONE T))) in
      ((true_dst, true_src), (false_dst, false_src))
  end.

(** * Refinement of scalar bounds *)

Definition with_signed (b : ScalarBounds) (r : Z * Z) : ScalarBounds :=
  mkBounds (fst r) (snd r) (umin b) (umax b) (s32_min b) (s32_max b) (u32_min b) (u32_max b)
    (tnum b) (precise b) (id b) (delta b).
Definition with_unsigned (b : ScalarBounds) (r : Z * Z) : ScalarBounds :=
  mkBounds (smin b) (smax b) (fst r) (snd r) (s32_min b) (s32_max b) (u32_min b) (u32_max b)
    (tnum b) (precise b) (id b) (delta b).

Definition intersection (dst src : ScalarBounds) : ScalarBounds :=
  synced (mk64 (Z.max (smin dst) (smin src)) (Z.min (smax dst) (smax src))
               (Z.max (umin dst) (umin src)) (Z.min (umax dst) (umax src))
               (tnum_intersect (tnum dst) (tnum src)) 0 0).

Definition exclude_interval (T : WrapInt) (a b : Z * Z) : option (Z * Z) :=
  if (fst b <=? fst a) && (snd a <=? snd b) then Some (wi_MAX T, wi_MIN T)
  else if fst b <=? fst a then Some (wrapping_add T (snd b) (wi_ONE T), snd a)
  else if snd a <=? snd b then Some (fst a, wrapping_sub T (fst b) (wi_ONE T))
  else None.

Definition exclude_bounds (a b : ScalarBounds) : ScalarBounds :=
  if negb (bounds_is_constant b) then a
  else
    let s := default (bounds_signed a) (exclude_interval wrap_i64 (bounds_signed a) (smin b, smin b)) in
    let u := default (bounds_unsigned a) (exclude_interval wrap_u64 (bounds_unsigned a) (umin b, umin b)) in
    mk64 (fst s) (snd s) (fst u) (snd u) (tnum a) 0 0.

(** (true branch, false branch) of (dst, src). *)
Definition refined_branches : Type :=
  (ScalarBounds * ScalarBounds) * (ScalarBounds * ScalarBounds).

Definition refine_eq (dst src : ScalarBounds) : refined_branches :=
  let inter := intersection dst src in
  ((inter, inter), (synced (exclude_bounds dst src), synced (exclude_bounds src dst))).

Definition refine_ne (dst src : ScalarBounds) : refined_branches :=
  let inter := intersection dst src in
  ((synced (exclude_bounds dst src), synced (exclude_bounds src dst)), (inter, inter)).

Definition refine_cmp (op : CondOp) (dst src : ScalarBounds) : refined_branches :=
  match CondOp.ord op with
  | None => match op with CondOp.Eq => refine_eq dst src | _ => refine_ne dst src end
  | Some ord =>
      if CondOp.is_signed op then
        let '((td, ts), (fd, fs)) := refine_ordered wrap_i64 ord (bounds_signed dst) (bounds_signed src) in
        ((synced (with_signed dst td), synced (with_signed src ts)),
         (synced (with_signed dst fd), synced (with_signed src fs)))
      else
        let '((td, ts), (fd, fs)) := refine_ordered wrap_u64 ord (bounds_unsigned dst) (bounds_unsigned src) in
        ((synced (with_unsigned dst td), synced (with_unsigned src ts)),
         (synced (with_unsigned dst fd), synced (with_unsigned src fs)))
  end.

(** * Static verdicts *)

Inductive BranchVerdict := AlwaysTaken | AlwaysNotTaken | Unknown.

Definition ordered_verdict (op : OrdOp) (dst src : Z * Z) : BranchVerdict :=
  match op with
  | OrdOp.Gt =>
      if snd src <? fst dst then AlwaysTaken
      else if snd dst <=? fst src then AlwaysNotTaken else Unknown
  | OrdOp.Ge =>
      if snd src <=? fst dst then AlwaysTaken
      else if snd dst <? fst src then AlwaysNotTaken else Unknown
  | OrdOp.Lt =>
      if snd dst <? fst src then AlwaysTaken
      else if snd src <=? fst dst then AlwaysNotTaken else Unknown
  | OrdOp.Le =>
      if snd dst <=? fst src then AlwaysTaken
      else if snd src <? fst dst then AlwaysNotTaken else Unknown
  end.

Definition ranges_disjoint (a b : Z * Z) : bool :=
  (snd a <? fst b) || (snd b <? fst a).

Definition same_constant (dst src : ScalarBounds) : bool :=
  bounds_is_constant dst && bounds_is_constant src && (smin dst =? smin src) && (umin dst =? umin src).

Definition is_branch_taken (op : CondOp) (dst src : ScalarBounds) : BranchVerdict :=
  let disjoint :=
    ranges_disjoint (bounds_signed dst) (bounds_signed src) ||
    ranges_disjoint (bounds_unsigned dst) (bounds_unsigned src) in
  match CondOp.ord op with
  | None =>
      match op with
      | CondOp.Eq =>
          if same_constant dst src then AlwaysTaken
          else if disjoint then AlwaysNotTaken else Unknown
      | _ =>
          if same_constant dst src then AlwaysNotTaken
          else if disjoint then AlwaysTaken else Unknown
      end
  | Some ord =>
      if CondOp.is_signed op
      then ordered_verdict ord (bounds_signed dst) (bounds_signed src)
      else ordered_verdict ord (bounds_unsigned dst) (bounds_unsigned src)
  end.

(** JSET: decided on constants, on a bit known to be set on both sides, and on
    disjoint possible bits. *)
Definition jset_verdict (dst src : ScalarBounds) : option bool :=
  if bounds_is_constant dst && bounds_is_constant src then
    Some (negb (Z.land (umin dst) (umin src) =? 0))
  else
    let d1 := Z.land (tvalue (tnum dst)) (unot 64 (tmask (tnum dst))) in
    let s1 := Z.land (tvalue (tnum src)) (unot 64 (tmask (tnum src))) in
    if negb (Z.land d1 s1 =? 0) then Some true
    else
      let dp := Z.lor (tvalue (tnum dst)) (tmask (tnum dst)) in
      let sp := Z.lor (tvalue (tnum src)) (tmask (tnum src)) in
      if Z.land dp sp =? 0 then Some false else None.

(** The bounds [jset_not_taken] leaves on the fall-through side of
    [jset dst, imm]; [!imm as i64] complements the i32 immediate. *)
Definition jset_cleared (b : ScalarBounds) (imm : Z) : ScalarBounds :=
  apply_alu And W64 b (bounds_constant (Z.lnot imm)).

Definition jmp32_verdict (dst src : ScalarBounds) (op : Jmp32Op) : option bool :=
  if negb (bounds_is_constant dst) || negb (bounds_is_constant src) then None
  else Some (jmp32_holds op (as_u32 (umin dst)) (as_u32 (umin src))).

(** [branch_target]: relative to the next instruction, in i32 arithmetic. *)
Definition branch_target (pc offset : Z) : Z := as_u32 (as_i32 pc + 1 + offset).

(** * The interval equations *)

(** The laws the equations rely on: unit steps inside the type are exact and
    results stay in the type. *)
Class WrapIntLaws (T : WrapInt) := {
  wi_one : wi_ONE T = 1;
  wi_add : forall x, wi_MIN T <= x < wi_MAX T -> wrapping_add T x 1 = x + 1;
  wi_sub : forall x, wi_MIN T < x <= wi_MAX T -> wrapping_sub T x 1 = x - 1;
  wi_add_range : forall x y, wi_MIN T <= wrapping_add T x y <= wi_MAX T;
  wi_sub_range : forall x y, wi_MIN T <= wrapping_sub T x y <= wi_MAX T;
  wi_bounds : wi_MIN T <= wi_MAX T
}.

#[global] Instance wrap_i64_laws : WrapIntLaws wrap_i64.
Proof.
  split; simpl; intros; try done; try lia;
    try (rewrite as_i64_id; lia); apply as_i64_range.
Qed.

#[global] Instance wrap_u64_laws : WrapIntLaws wrap_u64.
Proof.
  split; simpl; intros; try done; try lia;
    try (rewrite as_u64_id; lia); apply as_u64_range.
Qed.

(** [x] lies in the interval. *)
Abbreviation inside x r := (fst r <= x <= snd r).

Definition ord_holds (op : OrdOp) (x y : Z) : bool :=
  match op with
  | OrdOp.Gt => y <? x
  | OrdOp.Ge => y <=? x
  | OrdOp.Lt => x <? y
  | OrdOp.Le => x <=? y
  end.

Section family.
Context (T : WrapInt) `{!WrapIntLaws T}.
Abbreviation typed r := (wi_MIN T <= fst r /\ fst r <= wi_MAX T /\
                         wi_MIN T <= snd r /\ snd r <= wi_MAX T).

Lemma refine_ordered_mem op dst src x y :
  typed dst -> typed src -> inside x dst -> inside y src ->
  let '((td, ts), (fd, fs)) := refine_ordered T op dst src in
  (ord_holds op x y = true -> inside x td /\ inside y ts) /\
  (ord_holds op x y = false -> (op = OrdOp.Ge -> fst src = snd src) ->
   inside x fd /\ inside y fs).
Proof.
  intros Hd Hs Hx Hy. destruct op; simpl; rewrite wi_one; (split; intros H);
    rewrite ?Z.ltb_lt, ?Z.leb_le, ?Z.ltb_ge, ?Z.leb_gt in H; intros;
    repeat match goal with
    | Hc : ?a = ?a -> _ |- _ => specialize (Hc eq_refl)
    end;
    rewrite ?wi_add by lia; rewrite ?wi_sub by lia; lia.
Qed.

Lemma refine_ordered_typed op dst src :
  typed dst -> typed src ->
  let '((td, ts), (fd, fs)) := refine_ordered T op dst src in
  typed td /\ typed ts /\ typed fd /\ typed fs.
Proof.
  intros Hd Hs.
  pose proof (wi_add_range (T := T) (fst src) (wi_ONE T)).
  pose proof (wi_add_range (T := T) (fst dst) (wi_ONE T)).
  pose proof (wi_sub_range (T := T) (fst src) (wi_ONE T)).
  pose proof (wi_sub_range (T := T) (snd src) (wi_ONE T)).
  pose proof (wi_sub_range (T := T) (snd dst) (wi_ONE T)).
  destruct op; simpl; lia.
Qed.

Lemma exclude_interval_mem a c x :
  typed a -> wi_MIN T <= c <= wi_MAX T -> inside x a -> x <> c ->
  inside x (default a (exclude_interval T a (c, c))).
Proof.
  intros Ha Hc Hx Hne. unfold exclude_interval. simpl. rewrite wi_one.
  destruct (Z.leb_spec c (fst a)), (Z.leb_spec (snd a) c); simpl; try lia.
  - rewrite wi_add by lia. lia.
  - rewrite wi_sub by lia. lia.
Qed.

Lemma exclude_interval_typed a b :
  typed a -> typed b -> typed (default a (exclude_interval T a b)).
Proof.
  intros Ha Hb. unfold exclude_interval. pose proof (wi_bounds (T := T)).
  pose proof (wi_add_range (T := T) (snd b) (wi_ONE T)).
  pose proof (wi_sub_range (T := T) (fst b) (wi_ONE T)).
  destruct (_ && _); simpl; [lia|]. destruct (_ <=? _); simpl; [lia|].
  destruct (_ <=? _); simpl; lia.
Qed.

Lemma ordered_verdict_ok op dst src x y :
  inside x dst -> inside y src ->
  (ordered_verdict op dst src = AlwaysTaken -> ord_holds op x y = true) /\
  (ordered_verdict op dst src = AlwaysNotTaken -> ord_holds op x y = false).
Proof.
  intros Hx Hy. destruct op; simpl; case_tests; split; intros; try done; lia.
Qed.
End family.

(** * Refinement of scalars *)

(** The fall-through side of [>=] uses the smallest source value minus one as
    the new upper end, which is right only for a source interval of one value. *)
Definition fallthrough_covered (op : CondOp) (src : ScalarBounds) : bool :=
  match op with
  | CondOp.Uge => umin src =? umax src
  | CondOp.Sge => smin src =? smax src
  | _ => true
  end.

Lemma with_signed_ok b r v :
  bounds_wf b -> is_i64 (fst r) -> is_i64 (snd r) ->
  bounds_wf (synced (with_signed b r)) /\
  (bounds_mem b v -> inside (as_i64 v) r -> bounds_mem (synced (with_signed b r)) v).
Proof.
  intros (?&?&?&?&?&?&?&?&?) Hl Hh.
  assert (bounds_wf (with_signed b r)) by (unfold bounds_wf; simpl; split_and!; (lia || done)).
  split; [by apply synced_wf|]. intros [(?&?&?&?) _] Hr.
  apply synced_mem; [done|]. unfold mem64. simpl. split_and!; (lia || done).
Qed.

Lemma with_unsigned_ok b r v :
  bounds_wf b -> is_u64 (fst r) -> is_u64 (snd r) ->
  bounds_wf (synced (with_unsigned b r)) /\
  (bounds_mem b v -> inside v r -> bounds_mem (synced (with_unsigned b r)) v).
Proof.
  intros (?&?&?&?&?&?&?&?&?) Hl Hh.
  assert (bounds_wf (with_unsigned b r)) by (unfold bounds_wf; simpl; split_and!; (lia || done)).
  split; [by apply synced_wf|]. intros [(?&?&?&?) _] Hr.
  apply synced_mem; [done|]. unfold mem64. simpl. split_and!; (lia || done).
Qed.

Lemma mk64_wf sm sx um ux t i d :
  is_i64 sm -> is_i64 sx -> is_u64 um -> is_u64 ux -> tnum_wf t -> bounds_wf (mk64 sm sx um ux t i d).
Proof. intros. unfold bounds_wf; simpl. split_and!; (lia || done). Qed.

Lemma intersection_ok a b v :
  bounds_wf a -> bounds_wf b ->
  bounds_wf (intersection a b) /\
  (bounds_mem a v -> bounds_mem b v -> bounds_mem (intersection a b) v).
Proof.
  intros (?&?&?&?&?&?&?&?&Ha) (?&?&?&?&?&?&?&?&Hb). unfold intersection.
  destruct (tnum_intersect_ok _ _ Ha Hb) as [Ht Hi].
  assert (bounds_wf (mk64 (Z.max (smin a) (smin b)) (Z.min (smax a) (smax b))
    (Z.max (umin a) (umin b)) (Z.min (umax a) (umax b)) (tnum_intersect (tnum a) (tnum b)) 0 0))
    by (apply mk64_wf; (lia || done)).
  split; [by apply synced_wf|]. intros [(?&?&?&?) _] [(?&?&?&?) _].
  apply synced_mem; [done|]. unfold mem64; simpl. split_and!; try lia. by apply Hi.
Qed.

Lemma exclude_bounds_ok a b x y :
  bounds_wf a -> bounds_wf b ->
  bounds_wf (synced (exclude_bounds a b)) /\
  (bounds_mem a x -> bounds_mem b y -> x <> y -> bounds_mem (synced (exclude_bounds a b)) x).
Proof.
  intros Ha Hb. pose proof Ha as (?&?&?&?&?&?&?&?&?). pose proof Hb as (?&?&?&?&?&?&?&?&?).
  unfold exclude_bounds. destruct (bounds_is_constant b) eqn:Hc; simpl.
  2: { split; [by apply synced_wf|]. intros [? _] _ _. by apply synced_mem. }
  pose proof (exclude_interval_typed wrap_i64 (bounds_signed a) (smin b, smin b)) as Hs.
  pose proof (exclude_interval_typed wrap_u64 (bounds_unsigned a) (umin b, umin b)) as Hu.
  pose proof (exclude_interval_mem wrap_i64 (bounds_signed a) (smin b) (as_i64 x)) as Hsm.
  pose proof (exclude_interval_mem wrap_u64 (bounds_unsigned a) (umin b) x) as Hum.
  simpl in *. specialize (Hs ltac:(lia) ltac:(lia)). specialize (Hu ltac:(lia) ltac:(lia)).
  match goal with |- bounds_wf (synced ?r) /\ _ => assert (Hw : bounds_wf r) end.
  { apply mk64_wf; (lia || done). }
  split; [by apply synced_wf|]. intros [(?&?&?&?) _] Hy Hne.
  destruct (is_constant_mem b y Hb Hy Hc) as (_ & Hyu & Hys).
  assert (as_i64 x <> smin b) as Hsne.
  { intros Heq. apply Hne. rewrite <- (as_u64_as_i64 x), <- (as_u64_as_i64 y), Heq, Hys;
      [done|apply Hy|done]. }
  specialize (Hsm ltac:(lia) ltac:(lia) ltac:(lia) Hsne).
  specialize (Hum ltac:(lia) ltac:(lia) ltac:(lia) ltac:(lia)).
  apply synced_mem; [done|]. unfold mem64; simpl. split_and!; (lia || done).
Qed.

Lemma cond_ord op o x y :
  CondOp.ord op = Some o ->
  cond_holds op x y =
    (if CondOp.is_signed op then ord_holds o (as_i64 x) (as_i64 y) else ord_holds o x y).
Proof. by destruct op; intros [=<-]. Qed.

Lemma refine_cmp_ok op d s x y :
  bounds_wf d -> bounds_wf s ->
  let '((td, ts), (fd, fs)) := refine_cmp op d s in
  (bounds_wf td /\ bounds_wf ts /\ bounds_wf fd /\ bounds_wf fs) /\
  (bounds_mem d x -> bounds_mem s y ->
   (cond_holds op x y = true -> bounds_mem td x /\ bounds_mem ts y) /\
   (cond_holds op x y = false -> fallthrough_covered op s = true ->
    bounds_mem fd x /\ bounds_mem fs y)).
Proof.
  intros Hd Hs. pose proof Hd as (?&?&?&?&_). pose proof Hs as (?&?&?&?&_).
  unfold refine_cmp. destruct (CondOp.ord op) as [o|] eqn:Hop.
  - rewrite (cond_ord op o x y Hop).
    assert (Hge : o = OrdOp.Ge -> fallthrough_covered op s = true ->
      if CondOp.is_signed op then smin s = smax s else umin s = umax s).
    { intros ->. destruct op; try discriminate Hop; apply Z.eqb_eq. }
    destruct (CondOp.is_signed op).
    + pose proof (refine_ordered_typed wrap_i64 o (bounds_signed d) (bounds_signed s)) as Ht.
      pose proof (refine_ordered_mem wrap_i64 o (bounds_signed d) (bounds_signed s)
        (as_i64 x) (as_i64 y)) as Hm.
      destruct (refine_ordered _ _ _ _) as [[td ts] [fd fs]]. simpl in Ht, Hm.
      destruct Ht as (?&?&?&?); [lia..|]. split.
      { split_and!; apply (with_signed_ok _ _ 0); (lia || done). }
      intros Hx Hy. pose proof Hx as [(?&?&_) _]. pose proof Hy as [(?&?&_) _].
      destruct Hm as [Hmt Hmf]; [lia..|]. split.
      * intros Hc. destruct (Hmt Hc). split; apply with_signed_ok; (lia || done).
      * intros Hc Hcov. destruct (Hmf Hc ltac:(auto)). split; apply with_signed_ok; (lia || done).
    + pose proof (refine_ordered_typed wrap_u64 o (bounds_unsigned d) (bounds_unsigned s)) as Ht.
      pose proof (refine_ordered_mem wrap_u64 o (bounds_unsigned d) (bounds_unsigned s) x y) as Hm.
      destruct (refine_ordered _ _ _ _) as [[td ts] [fd fs]]. simpl in Ht, Hm.
      destruct Ht as (?&?&?&?); [lia..|]. split.
      { split_and!; apply (with_unsigned_ok _ _ 0); (lia || done). }
      intros Hx Hy. pose proof Hx as [(?&_&?&_) _]. pose proof Hy as [(?&_&?&_) _].
      destruct Hm as [Hmt Hmf]; [lia..|]. split.
      * intros Hc. destruct (Hmt Hc). split; apply with_unsigned_ok; (lia || done).
      * intros Hc Hcov. destruct (Hmf Hc ltac:(auto)). split; apply with_unsigned_ok; (lia || done).
  - destruct (intersection_ok d s x Hd Hs) as [Hiw Hix].
    destruct (exclude_bounds_ok d s x y Hd Hs) as [Hew Hex].
    destruct (exclude_bounds_ok s d y x Hs Hd) as [Hew' Hex'].
    destruct op; try discriminate Hop; simpl; (split; [done|]); intros Hx Hy.
    + split; [intros ->%Z.eqb_eq; auto|intros Hne%Z.eqb_neq _; auto].
    + split; [intros Hne%negb_true_iff%Z.eqb_neq; auto|intros ->%negb_false_iff%Z.eqb_eq _; auto].
Qed.

(** * Verdicts *)

(** A verdict is right for a condition. *)
Definition verdict_right (v : BranchVerdict) (holds : bool) : Prop :=
  match v with AlwaysTaken => holds = true | AlwaysNotTaken => holds = false | Unknown => True end.

Lemma same_constant_ok d s x y :
  bounds_wf d -> bounds_wf s -> bounds_mem d x -> bounds_mem s y ->
  same_constant d s = true -> x = y.
Proof.
  intros Hd Hs Hx Hy. unfold same_constant. rewrite !andb_true_iff, !Z.eqb_eq.
  intros [[[Hdc Hsc] _] Hu].
  destruct (is_constant_mem d x Hd Hx Hdc) as (_ & -> & _).
  by destruct (is_constant_mem s y Hs Hy Hsc) as (_ & -> & _).
Qed.

Lemma disjoint_ok d s x y :
  bounds_mem d x -> bounds_mem s y ->
  ranges_disjoint (bounds_signed d) (bounds_signed s) ||
  ranges_disjoint (bounds_unsigned d) (bounds_unsigned s) = true -> x <> y.
Proof.
  intros [(_&?&?&_) _] [(_&?&?&_) _]. unfold ranges_disjoint; simpl.
  rewrite !orb_true_iff, !Z.ltb_lt. intros Hdj ->. lia.
Qed.

Lemma is_branch_taken_ok op d s x y :
  bounds_wf d -> bounds_wf s -> bounds_mem d x -> bounds_mem s y ->
  verdict_right (is_branch_taken op d s) (cond_holds op x y).
Proof.
  intros Hd Hs Hx Hy. unfold is_branch_taken. destruct (CondOp.ord op) as [o|] eqn:Hop.
  - rewrite (cond_ord op o x y Hop).
    pose proof Hx as [(_&?&?&_) _]. pose proof Hy as [(_&?&?&_) _]. destruct (CondOp.is_signed op).
    + pose proof (ordered_verdict_ok o (bounds_signed d) (bounds_signed s) (as_i64 x) (as_i64 y))
        as Hv. simpl in Hv. destruct Hv as [Ht Hn]; [lia..|].
      destruct (ordered_verdict _ _ _); simpl; auto.
    + pose proof (ordered_verdict_ok o (bounds_unsigned d) (bounds_unsigned s) x y) as Hv.
      simpl in Hv. destruct Hv as [Ht Hn]; [lia..|]. destruct (ordered_verdict _ _ _); simpl; auto.
  - pose proof (same_constant_ok d s x y Hd Hs Hx Hy) as Hc.
    pose proof (disjoint_ok d s x y Hx Hy) as Hdis.
    destruct op; try discriminate Hop; destruct (same_constant d s);
      try (destruct (_ || _)); simpl; try done; rewrite ?negb_true_iff, ?negb_false_iff,
        ?Z.eqb_eq, ?Z.eqb_neq; auto.
Qed.

Lemma known_one_bit t x i :
  tnum_mem t x -> Z.testbit (Z.land (tvalue t) (unot 64 (tmask t))) i = true -> Z.testbit x i = true.
Proof.
  intros [Hx Hc] Hi. unfold tnum_contains in Hc. apply Z.eqb_eq in Hc. rewrite <- Hc in Hi.
  rewrite Z.land_spec in Hi. by destruct (Z.testbit x i).
Qed.

Lemma possible_bit t x i :
  tnum_wf t -> tnum_mem t x -> Z.testbit x i = true -> Z.testbit (Z.lor (tvalue t) (tmask t)) i = true.
Proof.
  intros Ht Hx Hi. pose proof Hx as [Hu _].
  destruct (Z.lt_ge_cases i 0); [by rewrite Z.testbit_neg_r in Hi|].
  destruct (Z.lt_ge_cases i 64); [|by rewrite testbit_u64_high in Hi].
  rewrite Z.lor_spec. destruct (Z.testbit (tmask t) i) eqn:Hm; [by rewrite orb_true_r|].
  rewrite <- (tnum_mem_bit t x i) by done. by rewrite Hi.
Qed.

(** Bits of one conjunction imply bits of the other. *)
Lemma land_zero_mono a b x y :
  (forall i, Z.testbit a i = true -> Z.testbit x i = true) ->
  (forall i, Z.testbit b i = true -> Z.testbit y i = true) ->
  Z.land x y = 0 -> Z.land a b = 0.
Proof.
  intros Ha Hb Hz. apply Z.bits_inj'. intros i Hi. rewrite Z.testbit_0_l, Z.land_spec.
  assert (Z.testbit x i && Z.testbit y i = false) as Hxy
    by (by rewrite <- Z.land_spec, Hz, Z.testbit_0_l).
  specialize (Ha i). specialize (Hb i).
  destruct (Z.testbit a i), (Z.testbit b i); simpl; try done.
  by rewrite Ha, Hb in Hxy.
Qed.

Lemma jset_verdict_ok d s x y b :
  bounds_wf d -> bounds_wf s -> bounds_mem d x -> bounds_mem s y ->
  jset_verdict d s = Some b -> negb (Z.land x y =? 0) = b.
Proof.
  intros Hd Hs Hx Hy. pose proof Hd as (_&_&_&_&_&_&_&_&Htd). pose proof Hs as (_&_&_&_&_&_&_&_&Hts).
  pose proof Hx as [(_&_&_&Htx) _]. pose proof Hy as [(_&_&_&Hty) _].
  unfold jset_verdict. destruct (_ && _) eqn:Hc.
  { apply andb_true_iff in Hc as [Hcd Hcs]. intros [= <-].
    destruct (is_constant_mem d x Hd Hx Hcd) as (_ & -> & _).
    by destruct (is_constant_mem s y Hs Hy Hcs) as (_ & -> & _). }
  destruct (negb (Z.land (Z.land _ _) _ =? 0)) eqn:Hk.
  { intros [= <-]. apply negb_true_iff, Z.eqb_neq in Hk. apply negb_true_iff, Z.eqb_neq.
    intros Hz. apply Hk. apply (land_zero_mono _ _ x y); [| |done]; intros i; by apply known_one_bit. }
  cbv zeta.
  match goal with |- (if ?c then _ else _) = _ -> _ => destruct c eqn:Hp end; [|done].
  apply Z.eqb_eq in Hp.
  intros [= <-]. apply negb_false_iff, Z.eqb_eq. revert Hp.
  apply land_zero_mono; intros i; by apply possible_bit.
Qed.

Lemma jmp32_verdict_ok d s x y op b :
  bounds_wf d -> bounds_wf s -> bounds_mem d x -> bounds_mem s y ->
  jmp32_verdict d s op = Some b -> jmp32_holds op (as_u32 x) (as_u32 y) = b.
Proof.
  intros Hd Hs Hx Hy. unfold jmp32_verdict.
  destruct (bounds_is_constant d) eqn:Hcd, (bounds_is_constant s) eqn:Hcs; try done.
  intros [= <-]. destruct (is_constant_mem d x Hd Hx Hcd) as (_ & -> & _).
  by destruct (is_constant_mem s y Hs Hy Hcs) as (_ & -> & _).
Qed.


Lemma as_u64_lnot m : as_u64 (Z.lnot m) = unot 64 (as_u64 m).
Proof.
  apply Z.bits_inj'. intros i Hi. rewrite as_u_spec, unot_spec, as_u_spec, Z.lnot_spec by lia.
  destruct (Z.ltb_spec i 64); simpl; [by destruct (Z.testbit m i)|done].
Qed.

Lemma land_unot x m : is_u64 x -> Z.land x m = 0 -> Z.land x (unot 64 m) = x.
Proof.
  intros Hx Hz. apply Z.bits_inj'. intros i Hi. rewrite Z.land_spec, unot_spec by lia.
  assert (Z.testbit x i && Z.testbit m i = false) by (by rewrite <- Z.land_spec, Hz, Z.testbit_0_l).
  destruct (Z.ltb_spec i 64); [by destruct (Z.testbit x i), (Z.testbit m i)|].
  by rewrite testbit_u64_high by lia.
Qed.

Lemma jset_cleared_ok b imm x :
  bounds_wf b -> is_i32 imm ->
  bounds_wf (jset_cleared b imm) /\
  (bounds_mem b x -> Z.land x (as_u64 imm) = 0 -> bounds_mem (jset_cleared b imm) x).
Proof.
  intros Hb Hi. assert (is_i64 (Z.lnot imm)) by (unfold Z.lnot; lia).
  assert (bounds_wf (bounds_constant (Z.lnot imm))) by (by apply bounds_constant_wf).
  unfold jset_cleared. split; [by apply apply_alu_wf|].
  intros Hx Hz. pose proof Hx as [(Hxu & _) _].
  assert (alu_value And W64 x (as_u64 (Z.lnot imm)) = x) as Heq.
  { unfold alu_value, alu_const64. rewrite as_u64_lnot. by apply land_unot. }
  rewrite <- Heq. apply apply_alu_mem; try done.
  - by apply bounds_constant_mem.
  - unfold alu_covered; simpl. by rewrite orb_true_r.
Qed.

(** 7 >= 10 fails, but the refined destination is [0, 4]. *)
Lemma ge_fallthrough_loses :
  let d := bounds_from_signed 0 10 in
  let s := bounds_from_signed 5 20 in
  bounds_mem d 7 /\ bounds_mem s 10 /\ cond_holds CondOp.Uge 7 10 = false /\
  ~ bounds_mem (fst (snd (refine_cmp CondOp.Uge d s))) 7 /\
  ~ bounds_mem (fst (snd (refine_cmp CondOp.Sge d s))) 7.
Proof.
  cbv zeta. split_and!; [member|member|reflexivity|..];
    apply not_described; vm_compute; reflexivity.
Qed.

(** C15: branch refinement, for all ten comparisons: the refined bounds of both
    operands are well-formed on both sides; on the taken side they describe every
    pair of words for which the comparison holds; on the fall-through side every
    pair for which it fails, except that for the signed and unsigned [>=] this is
    only claimed of a source that is a single value ([fallthrough_covered]).  For
    other sources it is false: with the destination in [0, 10] and the source in
    [5, 20] the words 7 and 10 fall through, and the refined destination loses 7. *)
Theorem refine_cmp_sound (op : CondOp) (d s : ScalarBounds) (x y : Z) :
  bounds_wf d -> bounds_wf s -> bounds_mem d x -> bounds_mem s y ->
  (let '((td, ts), (fd, fs)) := refine_cmp op d s in
   (bounds_wf td /\ bounds_wf ts /\ bounds_wf fd /\ bounds_wf fs) /\
   (cond_holds op x y = true -> bounds_mem td x /\ bounds_mem ts y) /\
   (cond_holds op x y = false -> fallthrough_covered op s = true ->
    bounds_mem fd x /\ bounds_mem fs y)) /\
  (let d := bounds_from_signed 0 10 in
   let s := bounds_from_signed 5 20 in
   bounds_mem d 7 /\ bounds_mem s 10 /\ cond_holds CondOp.Uge 7 10 = false /\
   ~ bounds_mem (fst (snd (refine_cmp CondOp.Uge d s))) 7 /\
   ~ bounds_mem (fst (snd (refine_cmp CondOp.Sge d s))) 7).
Proof.
  intros Hd Hs Hx Hy. split; [|exact ge_fallthrough_loses]. pose proof (refine_cmp_ok op d s x y Hd Hs) as H.
  destruct (refine_cmp op d s) as [[td ts] [fd fs]]. destruct H as [? H].
  split; [done|]. by apply H.
Qed.

Lemma refine_cmp_sound_witness :
  let '((td, ts), _) := refine_cmp CondOp.Sgt (bounds_from_signed (-5) 10) (bounds_from_signed 3 20) in
  bounds_mem td 9 /\ bounds_mem ts 4.
Proof.
  pose proof (refine_cmp_sound CondOp.Sgt (bounds_from_signed (-5) 10) (bounds_from_signed 3 20) 9 4) as H.
  destruct (refine_cmp (CondOp.Sgt) _ _) as [[td ts] [fd fs]]. apply H.
  - apply from_signed_wf; lia.
  - apply from_signed_wf; lia.
  - member.
  - member.
  - reflexivity.
Defined.

(** Outside that restriction the fall-through of [>=] is unsound: with the
    destination in [0, 10] and the source in [5, 20] the words 7 and 10 fall
    through (7 >= 10 fails), but the refined destination is [0, 4]. *)
Theorem refine_ge_fallthrough_gap :
  let d := bounds_from_signed 0 10 in
  let s := bounds_from_signed 5 20 in
  bounds_mem d 7 /\ bounds_mem s 10 /\ cond_holds CondOp.Uge 7 10 = false /\
  ~ bounds_mem (fst (snd (refine_cmp CondOp.Uge d s))) 7 /\
  ~ bounds_mem (fst (snd (refine_cmp CondOp.Sge d s))) 7.
Proof. exact ge_fallthrough_loses. Qed.

(** A static verdict is right for every pair of words the bounds describe:
    the ten comparisons, JSET and the 32-bit compares. *)
Theorem branch_verdicts_sound (op : CondOp) (op32 : Jmp32Op) (d s : ScalarBounds) (x y : Z) :
  bounds_wf d -> bounds_wf s -> bounds_mem d x -> bounds_mem s y ->
  verdict_right (is_branch_taken op d s) (cond_holds op x y) /\
  (forall b, jset_verdict d s = Some b -> negb (Z.land x y =? 0) = b) /\
  (forall b, jmp32_verdict d s op32 = Some b -> jmp32_holds op32 (as_u32 x) (as_u32 y) = b).
Proof.
  intros. split_and!.
  - by apply is_branch_taken_ok.
  - intros b. by apply jset_verdict_ok.
  - intros b. by apply jmp32_verdict_ok.
Qed.

Lemma branch_verdicts_sound_witness :
  verdict_right (is_branch_taken CondOp.Slt (bounds_from_signed (-5) (-1)) (bounds_from_signed 0 9))
    (cond_holds CondOp.Slt (as_u64 (-2)) 4).
Proof.
  apply (branch_verdicts_sound CondOp.Slt Jmp32Op.Eq).
  - apply from_signed_wf; lia.
  - apply from_signed_wf; lia.
  - member.
  - member.
Defined.

(** The fall-through side of a JSET with an immediate: clearing the tested
    bits keeps every word for which the test fails. *)
Theorem jset_fallthrough_sound (b : ScalarBounds) (imm x : Z) :
  bounds_wf b -> is_i32 imm -> bounds_mem b x ->
  negb (Z.land x (as_u64 imm) =? 0) = false ->
  bounds_wf (jset_cleared b imm) /\ bounds_mem (jset_cleared b imm) x.
Proof.
  intros Hb Hi Hx Hz. destruct (jset_cleared_ok b imm x Hb Hi) as [Hw Hm].
  split; [done|]. apply Hm; [done|]. by apply negb_false_iff, Z.eqb_eq in Hz.
Qed.

Lemma jset_fallthrough_sound_witness :
  bounds_mem (jset_cleared bounds_unknown (-4)) 3.
Proof.
  apply jset_fallthrough_sound.
  - apply bounds_unknown_wf.
  - lia.
  - apply bounds_unknown_mem; lia.
  - reflexivity.
Defined.
