(* ===== verification/Ctx.v ===== *)
(** Program types and their context models (src/src/prog_type.rs,
    src/src/ctx.rs): the ABI numbers, the table that decides which reads of the
    program context are scalar fields.  The theorems: the numbers round trip, and
    an accepted read lies inside the context structure, is aligned and touches
    no pointer-typed field. *)
From Stdlib Require Import ZArith Lia List Bool String.
From stdpp Require Import base list strings.
From S2P Require Import Prelude Insn.
Open Scope Z_scope.

Module ProgType.
Inductive ProgType :=
| SocketFilter | Kprobe | SchedCls | SchedAct | TracePoint | Xdp | PerfEvent
| CgroupSkb | CgroupSock | SockOps | SkSkb | CgroupDevice | RawTracePoint | CgroupSockAddr
| CgroupSysctl | CgroupSockopt | Tracing | Ext | Lsm | SkLookup | Syscall
| Other (abi : Z).

Definition id (p : ProgType) : Z :=
  match p with
  | SocketFilter => 1
  | Kprobe => 2
  | SchedCls => 3
  | SchedAct => 4
  | TracePoint => 5
  | Xdp => 6
  | PerfEvent => 7
  | CgroupSkb => 8
  | CgroupSock => 9
  | SockOps => 13
  | SkSkb => 14
  | CgroupDevice => 15
  | RawTracePoint => 17
  | CgroupSockAddr => 18
  | CgroupSysctl => 23
  | CgroupSockopt => 25
  | Tracing => 26
  | Ext => 28
  | Lsm => 29
  | SkLookup => 30
  | Syscall => 31
  | Other abi => abi
  end.

Definition from_id (abi : Z) : ProgType :=
  match abi with
  | 1 => SocketFilter
  | 2 => Kprobe
  | 3 => SchedCls
  | 4 => SchedAct
  | 5 => TracePoint
  | 6 => Xdp
  | 7 => PerfEvent
  | 8 => CgroupSkb
  | 9 => CgroupSock
  | 13 => SockOps
  | 14 => SkSkb
  | 15 => CgroupDevice
  | 17 => RawTracePoint
  | 18 => CgroupSockAddr
  | 23 => CgroupSysctl
  | 25 => CgroupSockopt
  | 26 => Tracing
  | 28 => Ext
  | 29 => Lsm
  | 30 => SkLookup
  | 31 => Syscall
  | other => Other other
  end.

Definition name (p : ProgType) : string :=
  match p with
  | SocketFilter => "BPF_PROG_TYPE_SOCKET_FILTER"
  | Kprobe => "BPF_PROG_TYPE_KPROBE"
  | SchedCls => "BPF_PROG_TYPE_SCHED_CLS"
  | SchedAct => "BPF_PROG_TYPE_SCHED_ACT"
  | TracePoint => "BPF_PROG_TYPE_TRACEPOINT"
  | Xdp => "BPF_PROG_TYPE_XDP"
  | PerfEvent => "BPF_PROG_TYPE_PERF_EVENT"
  | CgroupSkb => "BPF_PROG_TYPE_CGROUP_SKB"
  | CgroupSock => "BPF_PROG_TYPE_CGROUP_SOCK"
  | SockOps => "BPF_PROG_TYPE_SOCK_OPS"
  | SkSkb => "BPF_PROG_TYPE_SK_SKB"
  | CgroupDevice => "BPF_PROG_TYPE_CGROUP_DEVICE"
  | RawTracePoint => "BPF_PROG_TYPE_RAW_TRACEPOINT"
  | CgroupSockAddr => "BPF_PROG_TYPE_CGROUP_SOCK_ADDR"
  | CgroupSysctl => "BPF_PROG_TYPE_CGROUP_SYSCTL"
  | CgroupSockopt => "BPF_PROG_TYPE_CGROUP_SOCKOPT"
  | Tracing => "BPF_PROG_TYPE_TRACING"
  | Ext => "BPF_PROG_TYPE_EXT"
  | Lsm => "BPF_PROG_TYPE_LSM"
  | SkLookup => "BPF_PROG_TYPE_SK_LOOKUP"
  | Syscall => "BPF_PROG_TYPE_SYSCALL"
  | Other _ => "BPF_PROG_TYPE_UNKNOWN"
  end%string.
End ProgType.
Abbreviation ProgType := ProgType.ProgType.

#[global] Instance prog_type_eq_dec : EqDecision ProgType.
Proof. solve_decision. Defined.

Module CtxModel.
Inductive CtxModel := SocketFilter | SchedCls | Xdp | TracePoint.
End CtxModel.
Abbreviation CtxModel := CtxModel.CtxModel.

Definition ctx_model (p : ProgType) : option CtxModel :=
  match p with
  | ProgType.SocketFilter => Some CtxModel.SocketFilter
  | ProgType.SchedCls | ProgType.SchedAct | ProgType.CgroupSkb => Some CtxModel.SchedCls
  | ProgType.Xdp => Some CtxModel.Xdp
  | ProgType.TracePoint => Some CtxModel.TracePoint
  | _ => None
  end.

(** * Context reads *)

Inductive CtxError := Invalid | Unmodeled (what : string).
Inductive CtxAccess := CtxScalar | CtxPointer (what : string).

Abbreviation SK_BUFF_SIZE := 192 (only parsing).
Abbreviation PERF_MAX_TRACE_SIZE := 8192 (only parsing).
Abbreviation XDP_MD_SIZE := 24 (only parsing).
Abbreviation SKB_TC_CLASSID := 72 (only parsing).
Abbreviation SKB_DATA := 76 (only parsing).
Abbreviation SKB_DATA_END := 80 (only parsing).
Abbreviation SKB_DATA_META := 140 (only parsing).
Abbreviation SKB_FLOW_KEYS := 144 (only parsing).
Abbreviation SKB_TSTAMP := 152 (only parsing).
Abbreviation SKB_WIRE_LEN := 160 (only parsing).
Abbreviation SKB_SK := 168 (only parsing).
Abbreviation SKB_TSTAMP_TYPE := 180 (only parsing).
Abbreviation SKB_HWTSTAMP := 184 (only parsing).
Abbreviation XDP_DATA := 0 (only parsing).
Abbreviation XDP_DATA_END := 4 (only parsing).
Abbreviation XDP_DATA_META := 8 (only parsing).
Abbreviation XDP_EGRESS_IFINDEX := 20 (only parsing).

Definition skb_family_to_local_port (off : Z) : bool := in_range 88 139 off.
Definition skb_padding (off : Z) : bool := in_range 181 183 off.

Definition pointer_field (width size : Z) (what : string) : result CtxError CtxAccess :=
  if size =? width then Err (Unmodeled what) else Err Invalid.

(** [__sk_buff], as socket_filter or as the tc-style types see it. *)
Definition skb_read (off size : Z) (socket_filter : bool) : result CtxError CtxAccess :=
  if negb (in_range 0 (SK_BUFF_SIZE - 1) off) || (size =? 0) || negb (Z.rem off size =? 0) then Err Invalid
  else if off =? SKB_DATA then pointer_field 4 size "__sk_buff.data"
  else if off =? SKB_DATA_END then pointer_field 4 size "__sk_buff.data_end"
  else if off =? SKB_DATA_META then pointer_field 4 size "__sk_buff.data_meta"
  else if off =? SKB_FLOW_KEYS then Err Invalid
  else if off =? SKB_SK then pointer_field 8 size "__sk_buff.sk"
  else if socket_filter &&
          ((off =? SKB_TC_CLASSID) || skb_family_to_local_port off ||
           ((off =? SKB_TSTAMP) || (off =? SKB_WIRE_LEN) || (off =? SKB_HWTSTAMP))) then Err Invalid
  else if negb socket_filter && skb_family_to_local_port off then Err Invalid
  else if off =? SKB_TSTAMP_TYPE then
    if (size =? 1) && negb socket_filter then Ok CtxScalar else Err Invalid
  else if skb_padding off then Err Invalid
  else if (off =? SKB_TSTAMP) || (off =? SKB_HWTSTAMP) then
    if size =? 8 then Ok CtxScalar else Err Invalid
  else if (4 <? size) || (4 <? Z.rem off 4 + size) then Err Invalid
  else Ok CtxScalar.

(** [xdp_md]; the remainder by the size is taken before the size is compared. *)
Definition xdp_read (off size : Z) : result CtxError CtxAccess :=
  if negb (in_range 0 (XDP_MD_SIZE - 1) off) || negb (Z.rem off size =? 0) || negb (size =? 4) then Err Invalid
  else match off with
       | XDP_DATA => Err (Unmodeled "xdp_md.data")
       | XDP_DATA_END => Err (Unmodeled "xdp_md.data_end")
       | XDP_DATA_META => Err (Unmodeled "xdp_md.data_meta")
       | XDP_EGRESS_IFINDEX => Err (Unmodeled "xdp_md.egress_ifindex")
       | _ => Ok CtxScalar
       end.

Definition tracepoint_read (off size : Z) : result CtxError CtxAccess :=
  let valid_size := (size =? 1) || (size =? 2) || (size =? 4) || (size =? 8) in
  if negb (in_range 8 (PERF_MAX_TRACE_SIZE - 1) off) || negb valid_size || negb (Z.rem off size =? 0)
  then Err Invalid else Ok CtxScalar.

Definition ctx_table_read (prog : ProgType) (off size : Z) : result CtxError CtxAccess :=
  match ctx_model prog with
  | None => Err (Unmodeled "program type")
  | Some CtxModel.SocketFilter => skb_read off size true
  | Some CtxModel.SchedCls => skb_read off size false
  | Some CtxModel.Xdp => xdp_read off size
  | Some CtxModel.TracePoint => tracepoint_read off size
  end.

(** * Properties *)

(** The size of the structure a model reads. *)
Definition ctx_size (m : CtxModel) : Z :=
  match m with
  | CtxModel.SocketFilter | CtxModel.SchedCls => SK_BUFF_SIZE
  | CtxModel.Xdp => XDP_MD_SIZE
  | CtxModel.TracePoint => PERF_MAX_TRACE_SIZE
  end.

(** The bytes of the pointer-typed fields of a model. *)
Definition ctx_pointer_byte (m : CtxModel) (b : Z) : bool :=
  match m with
  | CtxModel.SocketFilter | CtxModel.SchedCls =>
      in_range 76 83 b || in_range 140 143 b || in_range 168 175 b
  | CtxModel.Xdp => in_range 0 11 b
  | CtxModel.TracePoint => false
  end.

Lemma rem_zero_mod off size : 0 <= off -> 0 < size -> Z.rem off size = 0 -> off mod size = 0.
Proof. intros. rewrite <- Z.rem_mod_nonneg; lia. Qed.

(** An aligned access that starts below the end of a structure whose size is a
    multiple of the access size ends inside it. *)
Lemma aligned_end off size total :
  0 < size -> off < total -> total mod size = 0 -> off mod size = 0 -> off + size <= total.
Proof.
  intros Hs Ho Ht Hm. apply Z.mod_divide in Ht as [k ->]; [|lia].
  apply Z.mod_divide in Hm as [j ->]; [|lia].
  assert (j < k) by nia. nia.
Qed.

Lemma size_divides (s : MemSize) total : total mod 8 = 0 -> total mod MemSize.bytes s = 0.
Proof. intros. destruct s; cbn; div_lia. Qed.

Ltac ctx_tests H :=
  repeat match type of H with
  | (if ?c then _ else _) = Ok _ => let E := fresh "E" in destruct c eqn:E; try discriminate H
  end.

Lemma ctx_read_shape prog m off (s : MemSize) a :
  ctx_model prog = Some m -> ctx_table_read prog off (MemSize.bytes s) = Ok a ->
  a = CtxScalar /\ 0 <= off /\ off mod MemSize.bytes s = 0 /\ off < ctx_size m.
Proof.
  intros Hm. unfold ctx_table_read. rewrite Hm.
  assert (0 < MemSize.bytes s) by (destruct s; cbn; lia).
  unfold skb_read, xdp_read, tracepoint_read, pointer_field.
  destruct m; intros Hr; ctx_tests Hr; cbn [ctx_size]; bool_hyps;
    try (match type of Hr with Ok _ = Ok _ => idtac | _ => repeat case_match; try discriminate Hr end);
    injection Hr as <-; rewrite ?negb_true_iff, ?negb_false_iff in *;
    repeat match goal with
    | Hi : in_range _ _ _ = true |- _ => apply in_range_iff in Hi
    end; (split_and!; [done|lia|by apply rem_zero_mod; lia|lia]).
Qed.

(** A context read that is accepted is a scalar, lies completely inside the
    structure of the program type's model and is aligned to its size; it does
    not start at a pointer-typed field. *)
Theorem ctx_read_in_bounds (prog : ProgType) (m : CtxModel) (off : Z) (s : MemSize) (a : CtxAccess) :
  ctx_model prog = Some m -> ctx_table_read prog off (MemSize.bytes s) = Ok a ->
  a = CtxScalar /\ 0 <= off /\ off + MemSize.bytes s <= ctx_size m /\
  off mod MemSize.bytes s = 0 /\
  ~ In off (match m with
            | CtxModel.Xdp => [XDP_DATA; XDP_DATA_END; XDP_DATA_META]
            | CtxModel.TracePoint => []
            | _ => [SKB_DATA; SKB_DATA_END; SKB_DATA_META; SKB_SK]
            end).
Proof.
  intros Hm Hr. destruct (ctx_read_shape prog m off s a Hm Hr) as (Ha & Ho & Hmod & Hlt).
  split_and!; try done.
  - apply aligned_end; [by destruct s|done| |done]. apply size_divides. by destruct m.
  - intros Hin. unfold ctx_table_read in Hr. rewrite Hm in Hr.
    destruct m; repeat (destruct Hin as [<-|Hin]); try done; destruct s; discriminate Hr.
Qed.

Lemma ctx_read_in_bounds_witness :
  16 + MemSize.bytes MemSize.W <= ctx_size CtxModel.Xdp.
Proof.
  apply (ctx_read_in_bounds ProgType.Xdp CtxModel.Xdp 16 MemSize.W CtxScalar); reflexivity.
Defined.

(** The pointer-typed fields are recognised by their first offset only: reads
    of two bytes inside [__sk_buff.data] and of four bytes inside
    [__sk_buff.sk] are accepted as scalars. *)
Theorem ctx_narrow_pointer_gap :
  ctx_table_read ProgType.SchedCls 78 2 = Ok CtxScalar /\ ctx_pointer_byte CtxModel.SchedCls 78 = true /\
  ctx_table_read ProgType.SocketFilter 172 4 = Ok CtxScalar /\
  ctx_pointer_byte CtxModel.SocketFilter 172 = true.
Proof. repeat split. Qed.

(** The ABI number of a program type determines it: decoding the number of a
    named type gives the type back, and every number has a type. *)
Theorem prog_type_id_roundtrip (p : ProgType) (abi : Z) :
  (match p with ProgType.Other _ => True | _ => ProgType.from_id (ProgType.id p) = p end) /\
  ProgType.id (ProgType.from_id abi) = abi.
Proof.
  split; [by destruct p|].
  unfold ProgType.from_id. repeat case_match; reflexivity.
Qed.
