(* ===== verification/State.v ===== *)
(** The abstract machine state (src/src/state.rs): register states, the byte-typed
    stack, frames and the verifier state, entry and return of BPF-to-BPF calls,
    and the register access helpers.  Arrays are lists of their fixed length; an
    index is checked with [check_reg] where the source does so.  The theorems:
    the initial state, the bound on the call depth, and that a call followed by
    the return restores the caller. *)
From Stdlib Require Import ZArith Lia List Bool String.
From stdpp Require Import base list.
From S2P Require Import Prelude Tnum Bounds Ctx.
From S2P Require Insn.
Open Scope Z_scope.

Abbreviation NUM_REGS := 11 (only parsing).
Abbreviation ALIGN_UNKNOWN := 0xFF (only parsing).
Abbreviation STACK_SIZE := 512 (only parsing).
Abbreviation STACK_SLOT_SIZE := 8 (only parsing).
Abbreviation MAX_CALL_FRAMES := 16 (only parsing).
Abbreviation MAX_REFS := 8 (only parsing).
Abbreviation REF_ID_BASE := 0x10000000 (only parsing).

(** * Registers *)

Inductive RegState :=
| Uninit
| Scalar (bounds : ScalarBounds)
| PtrToStack (min_offset max_offset align_off frameno : Z)
| PtrToCtx (off : Z)
| PtrToMap (key_size value_size map_type : Z)
| PtrToMapValue (min_offset max_offset align_off value_size ptr_id : Z)
| PtrToMapValueOrNull (value_size ptr_id : Z)
| PtrToMem (min_offset max_offset align_off ptr_id parent_id : Z)
| PtrToMemOrNull (ptr_id parent_id size : Z)
| PtrToBtfId (btf_id ref_obj_id : Z).

#[global] Instance reg_state_eq_dec : EqDecision RegState.
Proof. solve_decision. Defined.
#[global] Instance reg_state_inhabited : Inhabited RegState := populate Uninit.

Definition initial_reg_state : list RegState :=
  [Uninit; PtrToCtx 0; Uninit; Uninit; Uninit; Uninit; Uninit; Uninit; Uninit; Uninit;
   PtrToStack 0 0 0 0].

(** * Stack *)

Module StackByte.
Inductive StackByte := Invalid | Misc | Zero | Spill | Dynptr.
End StackByte.
Abbreviation StackByte := StackByte.StackByte.

#[global] Instance stack_byte_eq_dec : EqDecision StackByte.
Proof. solve_decision. Defined.
#[global] Instance stack_byte_inhabited : Inhabited StackByte := populate StackByte.Invalid.

Record DynptrState := mkDynptr { dynptr_size : Z; dynptr_id : Z }.
#[global] Instance dynptr_state_eq_dec : EqDecision DynptrState.
Proof. solve_decision. Defined.

(** Per byte its type; per 8-byte slot the spilled register and the dynptr. *)
Record StackState := mkStack {
  bytes : list StackByte;                (* [_; 512] *)
  spilled : list (option RegState);      (* [_; 64] *)
  dynptr : list (option DynptrState)     (* [_; 64] *)
}.
#[global] Instance stack_state_eq_dec : EqDecision StackState.
Proof. solve_decision. Defined.

Definition stack_new : StackState :=
  mkStack (replicate 512 StackByte.Invalid) (replicate 64 None) (replicate 64 None).

(** * Frames and the machine state *)

Record FrameState := mkFrame {
  frame_regs : list RegState;
  frame_stack : StackState;
  frame_ret_pc : Z
}.
#[global] Instance frame_state_eq_dec : EqDecision FrameState.
Proof. solve_decision. Defined.

Definition frame_new : FrameState := mkFrame initial_reg_state stack_new 0.

Record VerifierState := mkState {
  regs : list RegState;                  (* [_; 11] *)
  stack : StackState;
  saved : list (option FrameState);      (* [_; 15] *)
  curframe : Z;                          (* u8 *)
  ret_pc : Z;                            (* u32 *)
  refs : list Z;                         (* [u32; 8] *)
  refs_cnt : Z;                          (* u8 *)
  prog_type : ProgType
}.
#[global] Instance verifier_state_eq_dec : EqDecision VerifierState.
Proof. solve_decision. Defined.

Definition initial_with (p : ProgType) : VerifierState :=
  mkState initial_reg_state stack_new (replicate 15 None) 0 0 (replicate 8 0) 0 p.
Definition initial : VerifierState := initial_with ProgType.SocketFilter.

(** Field updates. *)
Definition set_regs (f : list RegState -> list RegState) (s : VerifierState) : VerifierState :=
  mkState (f (regs s)) (stack s) (saved s) (curframe s) (ret_pc s) (refs s) (refs_cnt s) (prog_type s).
Definition set_reg (r : Z) (v : RegState) (s : VerifierState) : VerifierState :=
  set_regs (fun rs => <[Z.to_nat r := v]> rs) s.
Definition reg (s : VerifierState) (r : Z) : RegState := regs s !!! Z.to_nat r.

(** [R1] .. [R5] after a call. *)
Definition clobber_args (rs : list RegState) : list RegState :=
  take 1 rs ++ replicate 5 Uninit ++ drop 6 rs.

(** Arguments [R1] .. [R5] and the callee's own frame pointer. *)
Definition callee_regs (args : list RegState) (depth : Z) : list RegState :=
  [Uninit] ++ args ++ replicate 4 Uninit ++ [PtrToStack 0 0 0 depth].

Definition call_subprog (s : VerifierState) (return_pc : Z) : result string VerifierState :=
  if MAX_CALL_FRAMES - 1 <=? curframe s then Err "the call stack of 16 frames is too deep"%string
  else
    let saved' := <[Z.to_nat (curframe s) := Some (mkFrame (regs s) (stack s) (ret_pc s))]> (saved s) in
    let args := take 5 (drop 1 (regs s)) in
    let depth := curframe s + 1 in
    Ok (mkState (callee_regs args depth) stack_new saved' depth return_pc
          (refs s) (refs_cnt s) (prog_type s)).

(** [None]: not in a subprogram, or no saved caller. *)
Definition return_from_subprog (s : VerifierState) : option VerifierState :=
  if curframe s =? 0 then None
  else
    let depth := curframe s - 1 in
    match saved s !! Z.to_nat depth with
    | Some (Some caller) =>
        Some (mkState (<[0%nat := reg s 0]> (clobber_args (frame_regs caller)))
                (frame_stack caller) (<[Z.to_nat depth := None]> (saved s)) depth
                (frame_ret_pc caller) (refs s) (refs_cnt s) (prog_type s))
    | _ => None
    end.

(** * Failures *)

(** The kind of pointer a message names. *)
Inductive PtrKind := StackKind | CtxKind | MapValueKind.

(** Why an instruction is rejected: one constructor per message of the source,
    with the values the message prints. *)
Inductive Reason :=
| InvalidRegisterNumber (r : Z)
| UninitializedRegister (r : Z)
| ScalarExpected (r : Z)                 (* register-offset pointer arithmetic *)
| InvalidShiftAmount (imm : Z)
| PointerOperand (r : Z)                 (* arithmetic on pointer *)
| StackPointerArithmetic (r : Z)
| CtxPointerArithmetic (r : Z)
| MapPointerArithmetic (r : Z)
| MapValueArithmetic (r : Z)
| NullablePointerArithmetic (r : Z)
| MemPointerArithmetic (r : Z)
| BtfPointerArithmetic (r : Z)
| AddendNotAllowed (k : PtrKind) (v : Z)
| UnboundedAddend (k : PtrKind)
| AddendOutOfBounds (k : PtrKind) (v : Z)
| OffsetNotAllowed (k : PtrKind) (v : Z)
| VariableCtxAddend
| CallTooDeep (msg : string)
| InvalidComparison (what : string)
(* cfg.rs *)
| CallOutOfProgram (target : Z)
| RecursiveCall (entry : Z)
| CallStackTooDeep (frames : Z)
| CombinedStackTooLarge (calls total : Z)
| UnresolvedStackOwner
| StackOwnerNotSubprogram
| JumpCrossesBoundary (target start stop : Z)
| BranchCrossesBoundary (target start stop : Z)
| CallTargetNotEntry (target : Z)
| FallsThrough (start stop : Z)
| MiddleOfLdImm64 (target : Z)
| EmptyProgram
| NoFinalExit (start stop : Z)
| Unreachable
(* exec.rs: memory *)
| StackOutOfFrame (base offset min_offset max_offset : Z) (away : bool)
| StackMisaligned (base offset size : Z)
| StackAlignmentUnknown (base size : Z)
| UninitializedStack (offset : Z)
| VariableReadUninitialized (base offset min_offset max_offset : Z)
| IndirectSpillRead (base offset : Z)
| InvalidFillSize (base offset : Z) (spill : RegState)
| InvalidSpillSize (base offset : Z) (spill : RegState)
| CorruptSpilledPointer (base offset : Z) (spill : RegState) (slot : Z)
| SpillIntoCallerFrame
| PointerStore (memory_kind : string)
| NonStackBase (kind : string) (reg : Z)
| MapAlignmentUnknown (base : Z)
| MapAccessMisaligned (base offset : Z)
| MapAccessOutOfBounds (base offset value_size min_offset max_offset : Z)
| MemMisaligned (base offset size : Z)
| MemOutOfBounds (base offset min_offset stop : Z)
| CtxPointerField (field : string)
| CtxUnmodeledField (field : string)
| CtxInvalidAccess (off size : Z)
| PacketLoadNotAllowed
| PacketLoadWithoutSkb
| AtomicMisaligned (dst offset size : Z)
| AtomicOutOfFrame (dst offset : Z)
| AtomicCallerFrame
| AtomicTarget (dst : Z)
| BranchInStep
(* exec.rs, helper.rs: calls *)
| UnknownHelper (id : Z)
| UnknownKfunc (btf_id : Z)
| HelperArgMismatch (arg : Z) (actual : RegState)
| MapPointerExpected
| FlagsExpected
| MapBufferNotStack (reg : Z) (what : string)
| MapBufferInexact (reg : Z) (what : string)
| MapBufferOutOfFrame (reg offset : Z) (what : string)
| RingbufMapExpected
| TooManyReferences
| UnacquiredReference (id : option Z)
| DynptrNotStack (arg reg : Z)
| DynptrInexact (arg reg : Z)
| DynptrOutOfFrame (arg reg offset : Z)
| DynptrExpected (arg : Z)
| DynptrUnknownSize
| DynptrArgInexact
| DynptrArgOutOfFrame
| DynptrBufferInvalid
| DynptrBufferOutOfFrame
| RangeUninitialized (offset : Z)
| RangeHoldsPointer (offset : Z)
(* exec.rs: branches *)
| DifferentTypes (dst : Z) (src : option Z)
| PointerOrdering (dst : Z) (src : option Z)
(* mini.rs *)
| StepsExceeded (max_steps : Z)
| StatesExceeded (max_states : Z)
| PcOutOfRange
| InfiniteLoop
| LoopsExceeded (max_loop_iterations : Z)
| StackPointerReturned
| ExitUninitialized
| ExitNotScalar
| UnreleasedReference (id : Z)
(* env.rs *)
| Undecodable (e : Insn.DecodeError)
| UnknownMapFd (fd : Z)
(* an [unreachable!], an [expect] or an index out of range: the source panics *)
| Panicked.

Record VerificationFailure := mkFailure { insn_idx : Z; message : Reason }.

Definition fail {A} (pc : Z) (r : Reason) : result VerificationFailure A := Err (mkFailure pc r).

(** * Register access *)

Definition check_reg (pc r : Z) : result VerificationFailure unit :=
  if NUM_REGS <=? r then fail pc (InvalidRegisterNumber r) else Ok tt.

Definition read_reg (pc : Z) (s : VerifierState) (r : Z) : result VerificationFailure RegState :=
  let? _ := check_reg pc r in
  match reg s r with
  | Uninit => fail pc (UninitializedRegister r)
  | other => Ok other
  end.

Definition read_scalar (pc : Z) (s : VerifierState) (r : Z) : result VerificationFailure ScalarBounds :=
  let? v := read_reg pc s r in
  match v with
  | Scalar bounds => Ok bounds
  | _ => fail pc (ScalarExpected r)
  end.

(** * Shape of a state *)

(** The arrays have their lengths, the depth is below 16 and exactly the frames
    below the current depth are saved. *)
Definition frame_shape (rs : list RegState) (st : StackState) : Prop :=
  length rs = 11%nat /\ length (bytes st) = 512%nat /\
  length (spilled st) = 64%nat /\ length (dynptr st) = 64%nat.

Definition state_shape (s : VerifierState) : Prop :=
  frame_shape (regs s) (stack s) /\ length (saved s) = 15%nat /\ length (refs s) = 8%nat /\
  0 <= curframe s <= 15 /\
  (forall i, (i < 15)%nat ->
     if Z.of_nat i <? curframe s
     then exists f, saved s !! i = Some (Some f) /\ frame_shape (frame_regs f) (frame_stack f)
     else saved s !! i = Some None).

Lemma initial_shape p : state_shape (initial_with p).
Proof.
  split; [by repeat split|]. split_and!; try done; try (simpl; lia).
  intros i Hi. simpl. destruct (Z.ltb_spec (Z.of_nat i) 0); [lia|].
  change (replicate 15 None !! i = Some (@None FrameState)). by apply lookup_replicate_2.
Qed.

(** A register file of eleven registers, element by element. *)
Ltac reg_file rs H :=
  do 11 (destruct rs as [|? rs]; [discriminate H|]); destruct rs; [|discriminate H]; clear H.

Lemma callee_regs_spec rs d :
  length rs = 11%nat ->
  let cs := callee_regs (take 5 (drop 1 rs)) d in
  length cs = 11%nat /\ cs !!! 0%nat = Uninit /\ cs !!! 10%nat = PtrToStack 0 0 0 d /\
  (forall i, (1 <= i <= 5)%nat -> cs !!! i = rs !!! i) /\
  (forall i, (6 <= i <= 9)%nat -> cs !!! i = Uninit).
Proof.
  intros H. reg_file rs H. split_and!; try done; intros i Hi; simpl;
    do 10 (destruct i as [|i]; [try lia; try done|]); lia.
Qed.

Lemma restored_regs_spec ret rs :
  length rs = 11%nat ->
  let cs := <[0%nat := ret]> (clobber_args rs) in
  length cs = 11%nat /\ cs !!! 0%nat = ret /\
  (forall i, (1 <= i <= 5)%nat -> cs !!! i = Uninit) /\
  (forall i, (6 <= i <= 10)%nat -> cs !!! i = rs !!! i).
Proof.
  intros H. reg_file rs H. split_and!; try done; intros i Hi; simpl;
    do 11 (destruct i as [|i]; [try lia; try done|]); lia.
Qed.

Lemma call_shape s pc t :
  state_shape s -> call_subprog s pc = Ok t -> state_shape t.
Proof.
  intros (Hf & Hsv & Href & Hc & Hall). unfold call_subprog.
  destruct (Z.leb_spec (MAX_CALL_FRAMES - 1) (curframe s)); [done|]. intros [= <-].
  destruct (callee_regs_spec (regs s) (curframe s + 1) (proj1 Hf)) as (Hl & _).
  split; [by repeat split|]. simpl. split_and!; [by rewrite length_insert|done|lia|lia|]. intros i Hi.
  destruct (decide (i = Z.to_nat (curframe s))) as [->|Hne].
  - rewrite list_lookup_insert_eq by lia. rewrite (proj2 (Z.ltb_lt _ _)) by lia. by eexists.
  - rewrite list_lookup_insert_ne by done. specialize (Hall i Hi).
    destruct (Z.ltb_spec (Z.of_nat i) (curframe s)), (Z.ltb_spec (Z.of_nat i) (curframe s + 1));
      try done; lia.
Qed.

Lemma return_shape s t :
  state_shape s -> return_from_subprog s = Some t -> state_shape t.
Proof.
  intros (Hf & Hsv & Href & Hc & Hall). unfold return_from_subprog.
  destruct (Z.eqb_spec (curframe s) 0); [done|].
  assert (Hd : (Z.to_nat (curframe s - 1) < 15)%nat) by lia. pose proof (Hall _ Hd) as Hcaller.
  rewrite (proj2 (Z.ltb_lt _ _)) in Hcaller by lia. destruct Hcaller as (f & -> & Hff).
  intros [= <-]. destruct Hff as (Hl & Hst).
  destruct (restored_regs_spec (reg s 0) (frame_regs f) Hl) as (Hrl & _).
  split; [by repeat split; try apply Hst|]. simpl.
  split_and!; [by rewrite length_insert|done|lia|lia|]. intros i Hi. specialize (Hall i Hi).
  destruct (decide (i = Z.to_nat (curframe s - 1))) as [->|Hne].
  - rewrite list_lookup_insert_eq by lia. by rewrite (proj2 (Z.ltb_ge _ _)) by lia.
  - rewrite list_lookup_insert_ne by done.
    destruct (Z.ltb_spec (Z.of_nat i) (curframe s)), (Z.ltb_spec (Z.of_nat i) (curframe s - 1));
      try done; lia.
Qed.

(** Entering a subprogram fails exactly at depth 15 and otherwise gives the
    callee the argument registers, an empty stack and its own frame pointer;
    returning from it gives back the caller's R6 to R10, stack and return
    address, with the callee's R0 and with R1 to R5 cleared. *)
Theorem call_return_frames (s : VerifierState) (pc : Z) (body : VerifierState -> VerifierState) :
  state_shape s ->
  (forall t, saved (body t) = saved t /\ curframe (body t) = curframe t) ->
  (call_subprog s pc = Err "the call stack of 16 frames is too deep"%string <-> curframe s = 15) /\
  (forall t, call_subprog s pc = Ok t ->
     state_shape t /\ stack t = stack_new /\ ret_pc t = pc /\
     (forall r, 1 <= r <= 5 -> reg t r = reg s r) /\
     (forall r, r = 0 \/ 6 <= r <= 9 -> reg t r = Uninit) /\
     reg t 10 = PtrToStack 0 0 0 (curframe s + 1) /\
     exists u, return_from_subprog (body t) = Some u /\
       stack u = stack s /\ ret_pc u = ret_pc s /\ curframe u = curframe s /\ saved u = saved s /\
       reg u 0 = reg (body t) 0 /\
       (forall r, 1 <= r <= 5 -> reg u r = Uninit) /\
       (forall r, 6 <= r <= 10 -> reg u r = reg s r)).
Proof.
  intros Hs Hbody. pose proof Hs as (Hf & Hsv & Href & Hc & Hall). split.
  { unfold call_subprog. destruct (Z.leb_spec (MAX_CALL_FRAMES - 1) (curframe s)); split; intros; try done; lia. }
  intros t Ht. split; [by apply (call_shape s pc)|]. unfold call_subprog in Ht.
  destruct (Z.leb_spec (MAX_CALL_FRAMES - 1) (curframe s)); [done|]. injection Ht as <-.
  destruct (callee_regs_spec (regs s) (curframe s + 1) (proj1 Hf)) as (Hl & H0 & H10 & Hargs & Hrest).
  match goal with |- context [body ?t] => set (callee := t) in * end.
  split_and!; try done.
  - intros r Hr. apply Hargs. lia.
  - intros r [->|Hr]; [done|]. apply Hrest. lia.
  - destruct (Hbody callee) as [Hbs Hbc].
    destruct (restored_regs_spec (reg (body callee) 0) (regs s) (proj1 Hf)) as (_ & R0 & Rargs & Rrest).
    unfold return_from_subprog. rewrite Hbs, Hbc. simpl.
    rewrite (proj2 (Z.eqb_neq _ _)) by lia. rewrite Z.add_simpl_r.
    rewrite list_lookup_insert_eq by lia. eexists. split; [reflexivity|]. simpl.
    split_and!; try done.
    + rewrite list_insert_insert_eq. apply list_insert_id.
      specialize (Hall (Z.to_nat (curframe s)) ltac:(lia)).
      by rewrite (proj2 (Z.ltb_ge _ _)) in Hall by lia.
    + intros r Hr. apply Rargs. lia.
    + intros r Hr. apply Rrest. lia.
Qed.

Lemma call_return_frames_witness :
  exists t u, call_subprog initial 7 = Ok t /\ return_from_subprog t = Some u /\
    reg u 10 = reg initial 10.
Proof.
  destruct (call_return_frames initial 7 (fun t => t)) as [_ H].
  - apply initial_shape.
  - done.
  - destruct (call_subprog initial 7) as [t|] eqn:E; [|discriminate E].
    destruct (H t eq_refl) as (_ & _ & _ & _ & _ & _ & u & Hu & _ & _ & _ & _ & _ & _ & Hr).
    exists t, u. split; [reflexivity|]. split; [exact Hu|]. apply Hr. lia.
Defined.

(** Entry, calls and returns keep the shape of the state: array lengths, a
    depth between 0 and 15, and exactly the callers' frames saved. *)
Theorem calls_keep_shape (p : ProgType) (s t : VerifierState) (pc : Z) :
  state_shape (initial_with p) /\
  (state_shape s -> call_subprog s pc = Ok t -> state_shape t) /\
  (state_shape s -> return_from_subprog s = Some t -> state_shape t).
Proof. split_and!; [apply initial_shape|apply call_shape|apply return_shape]. Qed.

Lemma calls_keep_shape_witness :
  exists t, call_subprog initial 7 = Ok t /\ state_shape t.
Proof.
  destruct (call_subprog initial 7) as [t|] eqn:E; [|discriminate E].
  exists t. split; [reflexivity|].
  destruct (calls_keep_shape ProgType.Xdp initial t 7) as (_ & H & _).
  apply H; [apply initial_shape|exact E].
Defined.

(** * Well-typed states *)

(** A value of a frame at [depth] points to the stack of an active frame. *)
Definition value_typed (depth : Z) (r : RegState) : Prop :=
  match r with PtrToStack _ _ _ frameno => 0 <= frameno <= depth | _ => True end.
Definition spill_typed (depth : Z) (o : option RegState) : Prop :=
  match o with Some r => value_typed depth r | None => True end.

Definition regs_typed (depth : Z) (rs : list RegState) : Prop := length rs = 11%nat /\ Forall (value_typed depth) rs.
Record stack_typed (depth : Z) (st : StackState) : Prop := {
  typed_bytes : length (bytes st) = 512%nat;
  typed_dynptr : length (dynptr st) = 64%nat;
  typed_slots : length (spilled st) = 64%nat;
  typed_spilled : Forall (spill_typed depth) (spilled st)
}.
Definition frame_typed (depth : Z) (f : FrameState) : Prop :=
  regs_typed depth (frame_regs f) /\ stack_typed depth (frame_stack f).

(** The frames below the current depth are saved and typed at their own depth,
    and between none and eight references are held. *)
Record state_typed (s : VerifierState) : Prop := {
  typed_regs : regs_typed (curframe s) (regs s);
  typed_stack : stack_typed (curframe s) (stack s);
  typed_saved_length : length (saved s) = 15%nat;
  typed_refs : length (refs s) = 8%nat;
  typed_count : 0 <= refs_cnt s <= 8;
  typed_depth : 0 <= curframe s <= 15;
  typed_saved i : (i < 15)%nat ->
    if Z.of_nat i <? curframe s then exists f, saved s !! i = Some (Some f) /\ frame_typed (Z.of_nat i) f
    else saved s !! i = Some None
}.

Lemma typed_shape s : state_typed s -> state_shape s.
Proof.
  intros [[Hr _] [Hb Hd Hs _] Hsv Hrf _ Hdep Hall]. split; [done|]. split_and!; try done. 1,2: lia.
  intros i Hi. specialize (Hall i Hi). destruct (_ <? _); [|done].
  destruct Hall as (f & Hf & [Hfr _] & [Hfb Hfd Hfs _]). by exists f.
Qed.

Lemma value_typed_mono d d' r : d <= d' -> value_typed d r -> value_typed d' r.
Proof. destruct r; simpl; try done. lia. Qed.

Lemma regs_typed_insert d rs i v : regs_typed d rs -> value_typed d v -> regs_typed d (<[i := v]> rs).
Proof. intros [Hl Hf] Hv. split; [by rewrite length_insert|by apply Forall_insert]. Qed.
Lemma regs_typed_map d rs f :
  (forall r, value_typed d r -> value_typed d (f r)) -> regs_typed d rs -> regs_typed d (map f rs).
Proof. intros Hf [Hl Hr]. split; [by rewrite length_map|]. apply Forall_fmap. by eapply Forall_impl. Qed.

Lemma set_regs_typed f s :
  regs_typed (curframe s) (f (regs s)) -> state_typed s -> state_typed (set_regs f s).
Proof. intros H []. by split. Qed.
Lemma set_reg_typed r v s : state_typed s -> value_typed (curframe s) v -> state_typed (set_reg r v s).
Proof. intros Hs Hv. apply set_regs_typed; [|done]. apply regs_typed_insert; [apply Hs|done]. Qed.

Lemma reg_typed s r : state_typed s -> value_typed (curframe s) (reg s r).
Proof.
  intros Hs. unfold reg. destruct (typed_regs _ Hs) as [_ Hf].
  rewrite list_lookup_total_alt. destruct (regs s !! Z.to_nat r) as [v|] eqn:Hv; [|done]. simpl.
  by apply (proj1 (Forall_lookup _ _) Hf _ _ Hv).
Qed.
Lemma read_reg_inv pc s r v : read_reg pc s r = Ok v -> r < 11 /\ v = reg s r /\ v <> Uninit.
Proof.
  unfold read_reg, check_reg. destruct (Z.leb_spec NUM_REGS r); [done|]. simpl.
  destruct (reg s r); try done; by intros [= <-].
Qed.
Lemma read_reg_typed pc s r v : state_typed s -> read_reg pc s r = Ok v -> value_typed (curframe s) v.
Proof. intros Hs (_ & -> & _)%read_reg_inv. by apply reg_typed. Qed.

Lemma clobber_args_typed d rs : regs_typed d rs -> regs_typed d (clobber_args rs).
Proof.
  intros [Hl Hf]. reg_file rs Hl. split; [done|]. unfold clobber_args. simpl.
  rewrite !Forall_cons in Hf |- *. by split_and!; try apply Hf.
Qed.

Lemma stack_new_typed d : stack_typed d stack_new.
Proof. split; try done. by apply Forall_replicate. Qed.

Lemma initial_typed p : state_typed (initial_with p).
Proof.
  split; try done; try (simpl; lia).
  - split; [done|]. repeat (constructor; try done).
  - apply stack_new_typed.
  - intros i Hi. change (curframe (initial_with p)) with 0. rewrite (proj2 (Z.ltb_ge _ _)) by lia.
    change (replicate 15 None !! i = Some (@None FrameState)). by apply lookup_replicate_2.
Qed.

Lemma saved_typed s i f : state_typed s -> saved s !! i = Some (Some f) -> Z.of_nat i < curframe s /\ frame_typed (Z.of_nat i) f.
Proof.
  intros Hs Hf. pose proof (lookup_lt_Some _ _ _ Hf) as Hi. rewrite (typed_saved_length _ Hs) in Hi.
  pose proof (typed_saved _ Hs i Hi) as H. destruct (Z.ltb_spec (Z.of_nat i) (curframe s)); [|congruence].
  destruct H as (f' & Hf' & Ht). rewrite Hf in Hf'. injection Hf' as <-. done.
Qed.

Lemma callee_regs_typed d rs :
  0 <= d -> regs_typed d rs -> regs_typed (d + 1) (callee_regs (take 5 (drop 1 rs)) (d + 1)).
Proof.
  intros Hd [Hl Hf]. reg_file rs Hl. split; [done|]. unfold callee_regs. simpl.
  rewrite !Forall_cons in Hf |- *. split_and!; try done; try (simpl; lia);
    eapply value_typed_mono; try apply Hf; lia.
Qed.

Lemma call_typed s pc t : state_typed s -> call_subprog s pc = Ok t -> state_typed t.
Proof.
  intros Hs. unfold call_subprog. destruct (Z.leb_spec (MAX_CALL_FRAMES - 1) (curframe s)); [done|]. intros [= <-].
  pose proof (typed_depth _ Hs). split; cbn; try apply Hs; try lia.
  - apply callee_regs_typed; [lia|apply Hs].
  - apply stack_new_typed.
  - rewrite length_insert. apply Hs.
  - intros i Hi. pose proof (typed_saved _ Hs i Hi) as Hsv.
    destruct (decide (i = Z.to_nat (curframe s))) as [->|Hne].
    + rewrite list_lookup_insert_eq by (rewrite (typed_saved_length _ Hs); lia).
      rewrite (proj2 (Z.ltb_lt _ _)) by lia. eexists. split; [done|].
      rewrite Z2Nat.id by lia. split; apply Hs.
    + rewrite list_lookup_insert_ne by done.
      destruct (Z.ltb_spec (Z.of_nat i) (curframe s)), (Z.ltb_spec (Z.of_nat i) (curframe s + 1)); try done; lia.
Qed.

(** A stack pointer of the callee must not be returned: it outlives its frame. *)
Lemma return_typed s t :
  state_typed s -> (forall d, value_typed d (reg s 0)) -> return_from_subprog s = Some t -> state_typed t.
Proof.
  intros Hs Hr0. unfold return_from_subprog. destruct (Z.eqb_spec (curframe s) 0); [done|].
  pose proof (typed_depth _ Hs).
  destruct (saved s !! Z.to_nat (curframe s - 1)) as [[f|]|] eqn:Hf; [|done|done]. intros [= <-].
  destruct (saved_typed _ _ _ Hs Hf) as [Hlt [Hfr Hfs]]. rewrite Z2Nat.id in Hfr, Hfs by lia.
  split; cbn; try apply Hs; try lia.
  - apply regs_typed_insert; [by apply clobber_args_typed|apply Hr0].
  - done.
  - rewrite length_insert. apply Hs.
  - intros i Hi. pose proof (typed_saved _ Hs i Hi) as Hsv.
    destruct (decide (i = Z.to_nat (curframe s - 1))) as [->|Hne].
    + rewrite list_lookup_insert_eq by (rewrite (typed_saved_length _ Hs); lia).
      by rewrite (proj2 (Z.ltb_ge _ _)) by lia.
    + rewrite list_lookup_insert_ne by done.
      destruct (Z.ltb_spec (Z.of_nat i) (curframe s)), (Z.ltb_spec (Z.of_nat i) (curframe s - 1)); try done; lia.
Qed.

(** A computation that does not panic, and whose result satisfies [P]. *)
Definition safely {A} (P : A -> Prop) (m : result VerificationFailure A) : Prop :=
  match m with Ok a => P a | Err f => message f <> Panicked end.

Lemma safely_bind {A B} (P : A -> Prop) (Q : B -> Prop) m k :
  safely P m -> (forall a, P a -> safely Q (k a)) -> safely Q (rbind m k).
Proof. destruct m; simpl; auto. Qed.
Lemma safely_mono {A} (P Q : A -> Prop) m : safely P m -> (forall a, P a -> Q a) -> safely Q m.
Proof. destruct m; simpl; auto. Qed.
Lemma safely_ok {A} (P : A -> Prop) m a : safely P m -> m = Ok a -> P a.
Proof. by intros H ->. Qed.

Lemma check_reg_safe pc r : safely (fun _ => r < 11) (check_reg pc r).
Proof. unfold check_reg. destruct (Z.leb_spec NUM_REGS r); simpl; [done|lia]. Qed.
Lemma read_reg_safe pc s r :
  state_typed s -> safely (fun v => v = reg s r /\ v <> Uninit /\ value_typed (curframe s) v) (read_reg pc s r).
Proof.
  intros Hs. pose proof (reg_typed s r Hs). unfold read_reg, check_reg. destruct (NUM_REGS <=? r); [done|]. simpl.
  by destruct (reg s r).
Qed.
Lemma read_scalar_safe pc s r : safely (fun b => reg s r = Scalar b) (read_scalar pc s r).
Proof.
  unfold read_scalar, read_reg, check_reg. destruct (NUM_REGS <=? r); [done|]. simpl. by destruct (reg s r).
Qed.

Create HintDb safe.
#[export] Hint Resolve read_reg_safe read_scalar_safe check_reg_safe set_reg_typed : safe.

(** One step through a computation: a bind of a known operation, a test, a match. *)
Ltac safe_bind := eapply safely_bind; [by eauto with safe|].
Ltac safe_case :=
  match goal with
  | |- safely _ (match ?x with _ => _ end) => destruct x
  | |- safely _ (if ?x then _ else _) => destruct x
  | |- safely _ (fail _ _) => done
  end.
