(* ===== verification/Concrete.v ===== *)
(** The concrete machine of the cross-check (src/src/concrete.rs): register values
    with their pointer kind, the concrete state, calls and returns, the coverage
    test between abstract and concrete states, and the concrete execution of
    the register instructions.  What an abstract register means in this machine,
    and the theorems about both machines, are in [Sim]. *)
From Stdlib Require Import ZArith Lia List Bool String.
From stdpp Require Import base list.
From S2P Require Import Prelude Tnum Bounds Alu Insn Ctx State.
Open Scope Z_scope.

Abbreviation STACK_BASE := 0x1000 (only parsing).
Abbreviation CTX_BASE := 0x2000 (only parsing).

(** * State *)

Inductive ConcreteValue :=
| CScalar (v : Z)
| StackPtr (addr frameno : Z)
| CtxPtr (v : Z)
| MapPtr (fd : Z) (index : option Z) (offset : Z)
| MemPtr (v : Z).
#[global] Instance concrete_value_eq_dec : EqDecision ConcreteValue.
Proof. solve_decision. Defined.

Definition bits (v : ConcreteValue) : Z :=
  match v with
  | CScalar v => v
  | StackPtr addr _ => addr
  | CtxPtr v => v
  | MapPtr fd index offset =>
      Z.lxor (Z.lxor (Z.shiftl fd 32) (rotate_left (default 0 index) 11)) (as_u64 offset)
  | MemPtr v => v
  end.

Record ConcreteFrame := mkCFrame {
  cframe_regs : list (option ConcreteValue);
  cframe_stack : list (option ConcreteValue);
  cframe_ret_pc : Z
}.

Record ConcreteState := mkCState {
  cregs : list (option ConcreteValue);      (* [_; 11] *)
  cstack : list (option ConcreteValue);     (* [_; 64] *)
  csaved : list (option ConcreteFrame);     (* [_; 15] *)
  ccurframe : Z;
  cret_pc : Z;
  cprog_type : ProgType
}.

Definition initial_cregs : list (option ConcreteValue) :=
  [None; Some (CtxPtr CTX_BASE); None; None; None; None; None; None; None; None;
   Some (StackPtr STACK_BASE 0)].

Definition cinitial_with (p : ProgType) : ConcreteState :=
  mkCState initial_cregs (replicate 64 None) (replicate 15 None) 0 0 p.

Module ConcreteFailure.
Inductive ConcreteFailure :=
| UninitializedRead (pc reg : Z)
| InvalidRegister (pc reg : Z)
| StackOutOfFrame (pc offset : Z)
| MisalignedStackAccess (pc offset : Z)
| UninitializedStackRead (pc offset : Z)
| PointerArithmetic (pc reg : Z)
| NonStackBase (pc reg : Z)
| InvalidShiftAmount (pc amount : Z)
| UnknownHelper (pc imm : Z)
| UnsupportedKfunc (pc : Z)
| HelperArgMismatch (pc arg : Z)
| InvalidComparison (pc dst src : Z)
| InvalidComparisonImm (pc dst : Z)
| MapValueOutOfBounds (pc offset : Z)
| CtxReadUnsupported (pc : Z) (field : string)
| InvalidCtxAccess (pc off size : Z)
| UnsupportedHelperReturn (pc imm : Z)
| InternalError (pc : Z).
End ConcreteFailure.
Abbreviation ConcreteFailure := ConcreteFailure.ConcreteFailure.

Definition ccallee_regs (args : list (option ConcreteValue)) (depth : Z) : list (option ConcreteValue) :=
  [None] ++ args ++ replicate 4 None ++ [Some (StackPtr STACK_BASE depth)].

Definition ccall_subprog (s : ConcreteState) (return_pc : Z) : result ConcreteFailure ConcreteState :=
  if MAX_CALL_FRAMES - 1 <=? ccurframe s then Err (ConcreteFailure.InternalError 0)
  else
    let saved' := <[Z.to_nat (ccurframe s) := Some (mkCFrame (cregs s) (cstack s) (cret_pc s))]> (csaved s) in
    let args := take 5 (drop 1 (cregs s)) in
    let depth := ccurframe s + 1 in
    Ok (mkCState (ccallee_regs args depth) (replicate 64 None) saved' depth return_pc (cprog_type s)).

Definition creturn_from_subprog (s : ConcreteState) : option ConcreteState :=
  if ccurframe s =? 0 then None
  else
    let ret := cregs s !!! 0%nat in
    let depth := ccurframe s - 1 in
    match csaved s !! Z.to_nat depth with
    | Some (Some caller) =>
        let rs := cframe_regs caller in
        Some (mkCState (<[0%nat := ret]> (take 1 rs ++ replicate 5 None ++ drop 6 rs))
                (cframe_stack caller) (<[Z.to_nat depth := None]> (csaved s)) depth
                (cframe_ret_pc caller) (cprog_type s))
    | _ => None
    end.

(** * Coverage *)

Definition scalar_covers (bounds : ScalarBounds) (value : Z) : bool :=
  if negb (precise bounds) then true
  else
    ((smin bounds <=? as_i64 value) && (as_i64 value <=? smax bounds)) &&
    ((umin bounds <=? value) && (value <=? umax bounds)) &&
    tnum_contains (tnum bounds) value.

(** An offset in the tracked range with the tracked alignment. *)
Definition offset_covers (min_offset max_offset align_off offset : Z) : bool :=
  ((min_offset <=? offset) && (offset <=? max_offset)) &&
  ((align_off =? ALIGN_UNKNOWN) || (as_u8 (offset mod 8) =? align_off)).

Definition stack_ptr_covers (min_offset max_offset align_off value : Z) : bool :=
  offset_covers min_offset max_offset align_off (as_i64 (value - STACK_BASE)).

Definition abstract_covers (r : RegState) (value : ConcreteValue) : bool :=
  match r, value with
  | Uninit, _ => false
  | Scalar bounds, CScalar v => scalar_covers bounds v
  | PtrToStack mn mx al _, StackPtr v _ => stack_ptr_covers mn mx al v
  | PtrToCtx off, CtxPtr v => v =? as_u64 (CTX_BASE + off)
  | PtrToMap _ _ _, MapPtr _ None _ => true
  | PtrToMapValue mn mx al _ _, MapPtr _ (Some _) offset => offset_covers mn mx al offset
  | PtrToMapValueOrNull value_size _, MapPtr _ (Some _) offset =>
      (0 <=? offset) && ((value_size =? 0) || (offset <? value_size))
  | PtrToMapValueOrNull _ _, CScalar 0 => true
  | (PtrToMem _ _ _ _ _ | PtrToMemOrNull _ _ _), MemPtr _ => true
  | (PtrToMem _ _ _ _ _ | PtrToMemOrNull _ _ _), CScalar 0 => true
  | _, _ => false
  end.

Definition reg_covers (r : RegState) (value : option ConcreteValue) : bool :=
  match value with
  | None => bool_decide (r = Uninit)
  | Some v => abstract_covers r v
  end.

(** Byte [j] of a slot, the lowest address first ([7 - j] in the value). *)
Definition slot_byte (v j : Z) : Z := Z.land (Z.shiftr v ((7 - j) * 8)) 0xff.

Definition byte_covers (st : StackState) (slot : nat) (value : ConcreteValue) (j : nat) : bool :=
  match bytes st !! (slot * 8 + j)%nat with
  | Some StackByte.Misc => true
  | Some StackByte.Zero | Some StackByte.Invalid => slot_byte (bits value) (Z.of_nat j) =? 0
  | Some StackByte.Spill =>
      match spilled st !!! slot with
      | Some (Scalar b) =>
          if bounds_is_constant b
          then slot_byte (bits value) (Z.of_nat j) =? slot_byte (as_u64 (smin b)) (Z.of_nat j)
          else abstract_covers (Scalar b) value
      | Some r => abstract_covers r value
      | None => false
      end
  | _ => false
  end.

Definition slot_covers (st : StackState) (slot : nat) (value : option ConcreteValue) : bool :=
  match value with
  | None =>
      forallb (fun b => match b with
                        | StackByte.Invalid | StackByte.Misc | StackByte.Dynptr => true
                        | _ => false
                        end) (take 8 (drop (slot * 8) (bytes st)))
  | Some v => forallb (byte_covers st slot v) (seq 0 8)
  end.

Definition state_covers (a : VerifierState) (c : ConcreteState) : bool :=
  forallb (fun p => reg_covers (fst p) (snd p)) (combine (regs a) (cregs c)) &&
  forallb (fun p => slot_covers (stack a) (fst p) (snd p)) (combine (seq 0 64) (cstack c)).

(** * Register instructions *)

Definition creg (s : ConcreteState) (r : Z) : option ConcreteValue := cregs s !!! Z.to_nat r.
Definition set_creg (r : Z) (v : ConcreteValue) (s : ConcreteState) : ConcreteState :=
  mkCState (<[Z.to_nat r := Some v]> (cregs s)) (cstack s) (csaved s) (ccurframe s) (cret_pc s)
    (cprog_type s).

Definition check_concrete_reg (pc r : Z) : result ConcreteFailure unit :=
  if NUM_REGS <=? r then Err (ConcreteFailure.InvalidRegister pc r) else Ok tt.

Definition read_concrete_reg (pc : Z) (s : ConcreteState) (r : Z) : result ConcreteFailure ConcreteValue :=
  let? _ := check_concrete_reg pc r in
  match creg s r with
  | None => Err (ConcreteFailure.UninitializedRead pc r)
  | Some v => Ok v
  end.

Definition concrete_hmul (a b : Z) (high : MulHigh) : Z :=
  match high with
  | MulHigh.Low => wmul 64 a b
  | MulHigh.UnsignedHigh => as_u64 (Z.shiftr (a * b) 64)
  | MulHigh.SignedHigh => as_u64 (Z.shiftr (as_i64 a * as_i64 b) 64)
  end.

Definition concrete_mul_high (pc : Z) (s : ConcreteState) (dst imm : Z) (high : MulHigh)
  : result ConcreteFailure ConcreteState :=
  let? value := read_concrete_reg pc s dst in
  match value with
  | CScalar a => Ok (set_creg dst (CScalar (concrete_hmul a (as_u64 imm) high)) s)
  | _ => Err (ConcreteFailure.PointerArithmetic pc dst)
  end.

Definition concrete_neg (pc : Z) (s : ConcreteState) (dst : Z) (width : AluWidth)
  : result ConcreteFailure ConcreteState :=
  let? value := read_concrete_reg pc s dst in
  match value with
  | CScalar a => Ok (set_creg dst (CScalar (alu_value Neg width a 0)) s)
  | _ => Err (ConcreteFailure.PointerArithmetic pc dst)
  end.

(** [v as i64 - STACK_BASE + delta], back as an address. *)
Definition shift_stack_addr (v delta : Z) : Z := as_u64 (STACK_BASE + as_i64 (as_i64 (as_i64 v - STACK_BASE) + delta)).

Definition concrete_alu_imm (pc : Z) (s : ConcreteState) (dst imm : Z) (op : AluOp) (width : AluWidth)
  : result ConcreteFailure ConcreteState :=
  let? _ := check_concrete_reg pc dst in
  let bitness := match width with W64 => 64 | W32 => 32 end in
  if is_shift op && negb ((0 <=? imm) && (imm <? bitness)) then Err (ConcreteFailure.InvalidShiftAmount pc (as_u64 imm))
  else
    let? dst_value := read_concrete_reg pc s dst in
    match dst_value with
    | CScalar d => Ok (set_creg dst (CScalar (alu_value op width d (as_u64 imm))) s)
    | StackPtr v frameno =>
        match op, width with
        | Add, W64 =>
            let offset := saturate I64_MIN I64_MAX (as_i64 (as_i64 v - STACK_BASE) + imm) in
            Ok (set_creg dst (StackPtr (as_u64 (STACK_BASE + offset)) frameno) s)
        | _, _ => Err (ConcreteFailure.PointerArithmetic pc dst)
        end
    | MapPtr fd index offset =>
        match op, width with
        | Add, W64 =>
            match checked I64_MIN I64_MAX (offset + imm) with
            | Some offset' => Ok (set_creg dst (MapPtr fd index offset') s)
            | None => Err (ConcreteFailure.PointerArithmetic pc dst)
            end
        | _, _ => Err (ConcreteFailure.PointerArithmetic pc dst)
        end
    | CtxPtr a =>
        match op, width with
        | Add, W64 => Ok (set_creg dst (CtxPtr (wadd 64 a (as_u64 imm))) s)
        | Sub, W64 => Ok (set_creg dst (CtxPtr (wsub 64 a (as_u64 imm))) s)
        | _, _ => Err (ConcreteFailure.PointerArithmetic pc dst)
        end
    | MemPtr _ => Err (ConcreteFailure.PointerArithmetic pc dst)
    end.

Definition concrete_alu_reg (pc : Z) (s : ConcreteState) (dst src : Z) (op : AluOp) (width : AluWidth)
  : result ConcreteFailure ConcreteState :=
  let? _ := check_concrete_reg pc dst in
  let? dst_value := read_concrete_reg pc s dst in
  let? src_value := read_concrete_reg pc s src in
  let pointer_add (k : result ConcreteFailure ConcreteState) :=
    match op, width with Add, W64 => k | _, _ => Err (ConcreteFailure.PointerArithmetic pc dst) end in
  let map_add fd index offset v :=
    pointer_add
      match checked I64_MIN I64_MAX (offset + as_i64 v) with
      | Some offset' => Ok (set_creg dst (MapPtr fd index offset') s)
      | None => Err (ConcreteFailure.PointerArithmetic pc dst)
      end in
  let ctx_move a v :=
    match op, width with
    | Add, W64 => Ok (set_creg dst (CtxPtr (wadd 64 a v)) s)
    | Sub, W64 => Ok (set_creg dst (CtxPtr (wsub 64 a v)) s)
    | _, _ => Err (ConcreteFailure.PointerArithmetic pc dst)
    end in
  match dst_value, src_value with
  | CScalar d, CScalar v => Ok (set_creg dst (CScalar (alu_value op width d v)) s)
  | StackPtr v frameno, CScalar d | CScalar d, StackPtr v frameno =>
      pointer_add (Ok (set_creg dst (StackPtr (shift_stack_addr v (as_i64 d)) frameno) s))
  | MapPtr fd index offset, CScalar v | CScalar v, MapPtr fd index offset => map_add fd index offset v
  | CtxPtr a, CScalar v | CScalar v, CtxPtr a => ctx_move a v
  | _, _ => Err (ConcreteFailure.PointerArithmetic pc dst)
  end.

Definition concrete_mul_high_reg (pc : Z) (s : ConcreteState) (dst src : Z) (high : MulHigh)
  : result ConcreteFailure ConcreteState :=
  match high with
  | MulHigh.Low => concrete_alu_reg pc s dst src Mul W64
  | _ =>
      let? a := read_concrete_reg pc s dst in
      let? b := read_concrete_reg pc s src in
      match a, b with
      | CScalar a, CScalar b => Ok (set_creg dst (CScalar (concrete_hmul a b high)) s)
      | _, _ => Err (ConcreteFailure.PointerArithmetic pc dst)
      end
  end.

(** The moves and constants, and the arms of [concrete_step] for the register
    instructions; [None] for the others. *)
Definition concrete_mov32_reg (pc : Z) (s : ConcreteState) (dst src : Z)
  : result ConcreteFailure ConcreteState :=
  let? _ := check_concrete_reg pc dst in
  let? value := read_concrete_reg pc s src in
  match value with
  | CScalar v => Ok (set_creg dst (CScalar (as_u32 v)) s)
  | _ => Err (ConcreteFailure.InternalError pc)
  end.

Definition concrete_mov_reg (pc : Z) (s : ConcreteState) (dst src : Z)
  : result ConcreteFailure ConcreteState :=
  let? _ := check_concrete_reg pc dst in
  let? value := read_concrete_reg pc s src in
  Ok (set_creg dst value s).

Definition concrete_load (pc : Z) (s : ConcreteState) (dst : Z) (v : ConcreteValue)
  : result ConcreteFailure ConcreteState :=
  let? _ := check_concrete_reg pc dst in Ok (set_creg dst v s).

Definition concrete_step_reg (pc : Z) (s : ConcreteState) (insn : BpfInsn)
  : option (result ConcreteFailure ConcreteState) :=
  match insn with
  | BpfInsn.MovImm dst imm => Some (concrete_load pc s dst (CScalar (as_u64 imm)))
  | BpfInsn.Mov32Imm dst imm => Some (concrete_load pc s dst (CScalar (as_u32 imm)))
  | BpfInsn.Mov32Reg dst src => Some (concrete_mov32_reg pc s dst src)
  | BpfInsn.MovReg dst src => Some (concrete_mov_reg pc s dst src)
  | BpfInsn.LdImm64 dst imm => Some (concrete_load pc s dst (CScalar imm))
  | BpfInsn.LdMapFd dst fd _ _ _ => Some (concrete_load pc s dst (MapPtr fd None 0))
  | BpfInsn.LdMapValue dst fd offset _ _ => Some (concrete_load pc s dst (MapPtr fd (Some 0) offset))
  | BpfInsn.LdImm64Second _ => Some (Ok s)
  | BpfInsn.AddImm dst imm => Some (concrete_alu_imm pc s dst imm Add W64)
  | BpfInsn.AddReg dst src => Some (concrete_alu_reg pc s dst src Add W64)
  | BpfInsn.SubImm dst imm => Some (concrete_alu_imm pc s dst imm Sub W64)
  | BpfInsn.SubReg dst src => Some (concrete_alu_reg pc s dst src Sub W64)
  | BpfInsn.AndImm dst imm => Some (concrete_alu_imm pc s dst imm And W64)
  | BpfInsn.AndReg dst src => Some (concrete_alu_reg pc s dst src And W64)
  | BpfInsn.OrImm dst imm => Some (concrete_alu_imm pc s dst imm Or W64)
  | BpfInsn.OrReg dst src => Some (concrete_alu_reg pc s dst src Or W64)
  | BpfInsn.XorImm dst imm => Some (concrete_alu_imm pc s dst imm Xor W64)
  | BpfInsn.XorReg dst src => Some (concrete_alu_reg pc s dst src Xor W64)
  | BpfInsn.LshImm dst imm => Some (concrete_alu_imm pc s dst imm Lsh W64)
  | BpfInsn.LshReg dst src => Some (concrete_alu_reg pc s dst src Lsh W64)
  | BpfInsn.RshImm dst imm => Some (concrete_alu_imm pc s dst imm Rsh W64)
  | BpfInsn.RshReg dst src => Some (concrete_alu_reg pc s dst src Rsh W64)
  | BpfInsn.ArshImm dst imm => Some (concrete_alu_imm pc s dst imm Arsh W64)
  | BpfInsn.ArshReg dst src => Some (concrete_alu_reg pc s dst src Arsh W64)
  | BpfInsn.Add32Imm dst imm => Some (concrete_alu_imm pc s dst imm Add W32)
  | BpfInsn.Add32Reg dst src => Some (concrete_alu_reg pc s dst src Add W32)
  | BpfInsn.Sub32Imm dst imm => Some (concrete_alu_imm pc s dst imm Sub W32)
  | BpfInsn.Sub32Reg dst src => Some (concrete_alu_reg pc s dst src Sub W32)
  | BpfInsn.And32Imm dst imm => Some (concrete_alu_imm pc s dst imm And W32)
  | BpfInsn.And32Reg dst src => Some (concrete_alu_reg pc s dst src And W32)
  | BpfInsn.Or32Imm dst imm => Some (concrete_alu_imm pc s dst imm Or W32)
  | BpfInsn.Or32Reg dst src => Some (concrete_alu_reg pc s dst src Or W32)
  | BpfInsn.Xor32Imm dst imm => Some (concrete_alu_imm pc s dst imm Xor W32)
  | BpfInsn.Xor32Reg dst src => Some (concrete_alu_reg pc s dst src Xor W32)
  | BpfInsn.Lsh32Imm dst imm => Some (concrete_alu_imm pc s dst imm Lsh W32)
  | BpfInsn.Lsh32Reg dst src => Some (concrete_alu_reg pc s dst src Lsh W32)
  | BpfInsn.Rsh32Imm dst imm => Some (concrete_alu_imm pc s dst imm Rsh W32)
  | BpfInsn.Rsh32Reg dst src => Some (concrete_alu_reg pc s dst src Rsh W32)
  | BpfInsn.Arsh32Imm dst imm => Some (concrete_alu_imm pc s dst imm Arsh W32)
  | BpfInsn.Arsh32Reg dst src => Some (concrete_alu_reg pc s dst src Arsh W32)
  | BpfInsn.MulImm dst imm high => Some (concrete_mul_high pc s dst imm high)
  | BpfInsn.MulReg dst src high => Some (concrete_mul_high_reg pc s dst src high)
  | BpfInsn.DivImm dst imm => Some (concrete_alu_imm pc s dst imm Div W64)
  | BpfInsn.DivReg dst src => Some (concrete_alu_reg pc s dst src Div W64)
  | BpfInsn.ModImm dst imm => Some (concrete_alu_imm pc s dst imm Mod W64)
  | BpfInsn.ModReg dst src => Some (concrete_alu_reg pc s dst src Mod W64)
  | BpfInsn.Neg dst => Some (concrete_neg pc s dst W64)
  | BpfInsn.Mul32Imm dst imm => Some (concrete_alu_imm pc s dst imm Mul W32)
  | BpfInsn.Mul32Reg dst src => Some (concrete_alu_reg pc s dst src Mul W32)
  | BpfInsn.Div32Imm dst imm => Some (concrete_alu_imm pc s dst imm Div W32)
  | BpfInsn.Div32Reg dst src => Some (concrete_alu_reg pc s dst src Div W32)
  | BpfInsn.Mod32Imm dst imm => Some (concrete_alu_imm pc s dst imm Mod W32)
  | BpfInsn.Mod32Reg dst src => Some (concrete_alu_reg pc s dst src Mod W32)
  | BpfInsn.Neg32 dst => Some (concrete_neg pc s dst W32)
  | _ => None
  end.
