(* ===== verification/Exec.v ===== *)
(** Abstract execution of the register instructions (src/src/exec.rs): moves,
    ldimm64, the scalar ALU and pointer arithmetic with its sanity checks, as the
    arms of [step] that touch registers only.  The theorems are in Sim.v. *)
From Stdlib Require Import ZArith Lia List Bool.
From stdpp Require Import base list.
From S2P Require Import Prelude Tnum Bounds Insn Alu Branch State.
Open Scope Z_scope.

(** [1 << 28]. *)
Abbreviation BPF_MAX_VAR_OFF := 0x10000000 (only parsing).

(** * Pointer arithmetic *)

Definition check_sane_addend (pc : Z) (k : PtrKind) (s : ScalarBounds) : result VerificationFailure unit :=
  if bounds_is_constant s then
    if (BPF_MAX_VAR_OFF <=? smin s) || (smin s <=? - BPF_MAX_VAR_OFF)
    then fail pc (AddendNotAllowed k (smin s)) else Ok tt
  else if smin s =? I64_MIN then fail pc (UnboundedAddend k)
  else if (BPF_MAX_VAR_OFF <=? smin s) || (smin s <=? - BPF_MAX_VAR_OFF)
  then fail pc (AddendOutOfBounds k (smin s))
  else Ok tt.

Definition check_sane_result_offset (pc : Z) (k : PtrKind) (min_offset : Z)
  : result VerificationFailure unit :=
  if (BPF_MAX_VAR_OFF <=? min_offset) || (min_offset <=? - BPF_MAX_VAR_OFF)
  then fail pc (OffsetNotAllowed k min_offset) else Ok tt.

(** [v.clamp(i32::MIN, i32::MAX)], and the i32 [saturating_add]. *)
Definition clamp_offset (v : Z) : Z := saturate I32_MIN I32_MAX v.
Definition sat_add32 (a b : Z) : Z := saturate I32_MIN I32_MAX (a + b).
Definition sat_add64 (a b : Z) : Z := saturate I64_MIN I64_MAX (a + b).

(** The alignment after adding a scalar, and after adding an immediate. *)
Definition add_align (align_off : Z) (s : ScalarBounds) : Z :=
  if Z.land (tmask (tnum s)) 7 =? 0
  then as_u8 ((align_off + Z.land (tvalue (tnum s)) 7) mod 8)
  else ALIGN_UNKNOWN.
Definition add_align_imm (align_off imm : Z) : Z := as_u8 ((align_off + imm mod 8) mod 8).

Definition add_scalar_to_stack_ptr (pc dst min_offset max_offset align_off frameno : Z)
    (s : ScalarBounds) (st : VerifierState) : result VerificationFailure VerifierState :=
  let? _ := check_sane_addend pc StackKind s in
  let new_min64 := sat_add64 min_offset (smin s) in
  let new_max64 := sat_add64 max_offset (smax s) in
  let? _ := check_sane_result_offset pc StackKind new_min64 in
  Ok (set_reg dst (PtrToStack (clamp_offset new_min64) (clamp_offset new_max64)
                     (add_align align_off s) frameno) st).

(** The identity a map-value pointer result keeps: the destination's own. *)
Definition map_value_id (r : RegState) : Z :=
  match r with PtrToMapValue _ _ _ _ i => i | _ => 0 end.

Definition add_scalar_to_map_value_ptr (pc dst min_offset max_offset align_off value_size : Z)
    (s : ScalarBounds) (st : VerifierState) : result VerificationFailure VerifierState :=
  let? _ := check_sane_addend pc MapValueKind s in
  let new_min64 := sat_add64 min_offset (smin s) in
  let new_max64 := sat_add64 max_offset (smax s) in
  let? _ := check_sane_result_offset pc MapValueKind new_min64 in
  Ok (set_reg dst (PtrToMapValue (clamp_offset new_min64) (clamp_offset new_max64)
                     (add_align align_off s) value_size (map_value_id (reg st dst))) st).

(** * ALU instructions *)

Definition alu_imm (pc : Z) (s : VerifierState) (dst imm : Z) (op : AluOp) (width : AluWidth)
  : result VerificationFailure VerifierState :=
  let? _ := check_reg pc dst in
  let bitness := match width with W64 => 64 | W32 => 32 end in
  if is_shift op && negb ((0 <=? imm) && (imm <? bitness)) then fail pc (InvalidShiftAmount imm)
  else
    let? dst_state := read_reg pc s dst in
    match dst_state with
    | Scalar d => Ok (set_reg dst (Scalar (apply_alu op width d (bounds_constant imm))) s)
    | PtrToStack min_offset max_offset align_off frameno =>
        match op, width with
        | Add, W64 =>
            let? _ := check_sane_addend pc StackKind (bounds_constant imm) in
            let? _ := check_sane_result_offset pc StackKind (min_offset + imm) in
            Ok (set_reg dst (PtrToStack (sat_add32 min_offset imm) (sat_add32 max_offset imm)
                               (add_align_imm align_off imm) frameno) s)
        | _, _ => fail pc (StackPointerArithmetic dst)
        end
    | PtrToCtx off =>
        match op, width with
        | Add, W64 | Sub, W64 =>
            let? _ := check_sane_addend pc CtxKind (bounds_constant imm) in
            let delta := match op with Add => imm | _ => - imm end in
            Ok (set_reg dst (PtrToCtx (sat_add32 off delta)) s)
        | _, _ => fail pc (CtxPointerArithmetic dst)
        end
    | PtrToMap _ _ _ => fail pc (MapPointerArithmetic dst)
    | PtrToMapValue min_offset max_offset align_off value_size _ =>
        match op, width with
        | Add, W64 =>
            let? _ := check_sane_addend pc MapValueKind (bounds_constant imm) in
            let? _ := check_sane_result_offset pc MapValueKind (min_offset + imm) in
            Ok (set_reg dst (PtrToMapValue (sat_add32 min_offset imm) (sat_add32 max_offset imm)
                               (add_align_imm align_off imm) value_size (map_value_id (reg s dst))) s)
        | _, _ => fail pc (MapValueArithmetic dst)
        end
    | PtrToMapValueOrNull _ _ => fail pc (NullablePointerArithmetic dst)
    | PtrToMem _ _ _ _ _ | PtrToMemOrNull _ _ _ => fail pc (MemPointerArithmetic dst)
    | PtrToBtfId _ _ => fail pc (BtfPointerArithmetic dst)
    | Uninit => fail pc (UninitializedRegister dst) (* unreachable!() after read_reg *)
    end.

Definition is_add64 (op : AluOp) (width : AluWidth) : bool :=
  match op, width with Add, W64 => true | _, _ => false end.

(** The context pointer plus (minus) a scalar in a register. *)
Definition ctx_plus_scalar (pc dst off : Z) (s : ScalarBounds) (negate : bool) (st : VerifierState)
  : result VerificationFailure VerifierState :=
  let? _ := check_sane_addend pc CtxKind s in
  if negb (bounds_is_constant s) then fail pc VariableCtxAddend
  else
    let delta := if negate then - as_i32 (smin s) else as_i32 (smin s) in
    Ok (set_reg dst (PtrToCtx (sat_add32 off delta)) st).

(** Scalar destination: a pointer source is inherited (ADD only), a scalar
    source gives a scalar. *)
Definition scalar_alu_reg (pc : Z) (s : VerifierState) (dst src : Z) (op : AluOp) (width : AluWidth)
    (d : ScalarBounds) : result VerificationFailure VerifierState :=
  let scalar_case :=
    let? b := read_scalar pc s src in
    Ok (set_reg dst (Scalar (apply_alu op width d b)) s) in
  if is_add64 op width then
    let? src_state := read_reg pc s src in
    match src_state with
    | PtrToStack min_offset max_offset align_off frameno =>
        let? _ := check_sane_addend pc StackKind d in
        add_scalar_to_stack_ptr pc dst min_offset max_offset align_off frameno d s
    | PtrToMapValue min_offset max_offset align_off value_size _ =>
        add_scalar_to_map_value_ptr pc dst min_offset max_offset align_off value_size d s
    | PtrToCtx off => ctx_plus_scalar pc dst off d false s
    | _ => scalar_case
    end
  else scalar_case.

Definition alu_reg (pc : Z) (s : VerifierState) (dst src : Z) (op : AluOp) (width : AluWidth)
  : result VerificationFailure VerifierState :=
  let? _ := check_reg pc dst in
  let? dst_state := read_reg pc s dst in
  match dst_state with
  | PtrToStack min_offset max_offset align_off frameno =>
      if negb (is_add64 op width) then fail pc (StackPointerArithmetic dst)
      else
        let? b := read_scalar pc s src in
        add_scalar_to_stack_ptr pc dst min_offset max_offset align_off frameno b s
  | PtrToCtx off =>
      match op, width with
      | Add, W64 | Sub, W64 =>
          let? b := read_scalar pc s src in
          ctx_plus_scalar pc dst off b (negb (is_add64 op width)) s
      | _, _ => fail pc (CtxPointerArithmetic dst)
      end
  | PtrToMapValue min_offset max_offset align_off value_size _ =>
      if negb (is_add64 op width) then fail pc (MapValueArithmetic dst)
      else
        let? b := read_scalar pc s src in
        add_scalar_to_map_value_ptr pc dst min_offset max_offset align_off value_size b s
  | Scalar d => scalar_alu_reg pc s dst src op width d
  | _ => fail pc (ScalarExpected dst)
  end.

Definition mul_imm (pc : Z) (s : VerifierState) (dst imm : Z) (high : MulHigh)
  : result VerificationFailure VerifierState :=
  match high with
  | MulHigh.Low => alu_imm pc s dst imm Mul W64
  | _ =>
      let? _ := check_reg pc dst in
      let? dst_state := read_reg pc s dst in
      match dst_state with
      | Scalar d =>
          let bounds :=
            if bounds_is_constant d
            then bounds_constant (as_i64 (hmul_const (as_u64 (smin d)) (as_u64 imm) high))
            else bounds_unknown in
          Ok (set_reg dst (Scalar bounds) s)
      | _ => fail pc (PointerOperand dst)
      end
  end.

Definition mul_reg (pc : Z) (s : VerifierState) (dst src : Z) (high : MulHigh)
  : result VerificationFailure VerifierState :=
  match high with
  | MulHigh.Low => alu_reg pc s dst src Mul W64
  | _ =>
      let? _ := check_reg pc dst in
      let? dst_state := read_reg pc s dst in
      let? src_state := read_reg pc s src in
      match dst_state, src_state with
      | Scalar d, Scalar b =>
          let bounds :=
            if bounds_is_constant d && bounds_is_constant b
            then bounds_constant (as_i64 (hmul_const (as_u64 (smin d)) (as_u64 (smin b)) high))
            else bounds_unknown in
          Ok (set_reg dst (Scalar bounds) s)
      | _, _ => fail pc (PointerOperand dst)
      end
  end.

Definition alu_neg (pc : Z) (s : VerifierState) (dst : Z) (width : AluWidth)
  : result VerificationFailure VerifierState :=
  let? _ := check_reg pc dst in
  let? dst_state := read_reg pc s dst in
  match dst_state with
  | Scalar d =>
      let bounds :=
        if bounds_is_constant d
        then bounds_constant (as_i64 (alu_value Neg width (as_u64 (smin d)) 0))
        else bounds_unknown in
      Ok (set_reg dst (Scalar bounds) s)
  | _ => fail pc (PointerOperand dst)
  end.

(** * Moves and constants *)

Definition mov_imm (pc : Z) (s : VerifierState) (dst imm : Z) : result VerificationFailure VerifierState :=
  let? _ := check_reg pc dst in Ok (set_reg dst (Scalar (bounds_constant imm)) s).

Definition mov32_imm (pc : Z) (s : VerifierState) (dst imm : Z) : result VerificationFailure VerifierState :=
  let? _ := check_reg pc dst in
  Ok (set_reg dst (Scalar (bounds_from_signed 0 (as_u32 imm))) s).

Definition mov32_reg (pc : Z) (s : VerifierState) (dst src : Z) : result VerificationFailure VerifierState :=
  let? _ := check_reg pc dst in
  let? b := read_scalar pc s src in
  let bounds :=
    if bounds_is_constant b then bounds_from_signed 0 (as_i64 (Z.land (umax b) 0xffffffff))
    else bounds_from_signed 0 U32_MAX in
  Ok (set_reg dst (Scalar bounds) s).

(** A copied scalar that is neither constant nor linked gets the link identity
    [pc + 1], in both registers. *)
Definition with_id (b : ScalarBounds) (i : Z) : ScalarBounds :=
  mkBounds (smin b) (smax b) (umin b) (umax b) (s32_min b) (s32_max b) (u32_min b) (u32_max b)
    (tnum b) (precise b) i (delta b).

Definition mov_reg (pc : Z) (s : VerifierState) (dst src : Z) : result VerificationFailure VerifierState :=
  let? _ := check_reg pc dst in
  let? src_state := read_reg pc s src in
  match src_state with
  | Scalar b =>
      if (id b =? 0) && negb (bounds_is_constant b) then
        let linked := Scalar (with_id b (pc + 1)) in
        Ok (set_reg dst linked (set_reg src linked s))
      else Ok (set_reg dst src_state s)
  | _ => Ok (set_reg dst src_state s)
  end.

Definition ld_imm64 (pc : Z) (s : VerifierState) (dst imm : Z) : result VerificationFailure VerifierState :=
  let? _ := check_reg pc dst in Ok (set_reg dst (Scalar (bounds_constant (as_i64 imm))) s).

Definition ld_map_fd (pc : Z) (s : VerifierState) (dst key_size value_size map_type : Z)
  : result VerificationFailure VerifierState :=
  let? _ := check_reg pc dst in Ok (set_reg dst (PtrToMap key_size value_size map_type) s).

Definition ld_map_value (pc : Z) (s : VerifierState) (dst offset value_size : Z)
  : result VerificationFailure VerifierState :=
  let? _ := check_reg pc dst in
  Ok (set_reg dst (PtrToMapValue (as_i32 offset) (as_i32 offset) (as_u8 (offset mod 8)) value_size 0) s).

(** The arms of [step] for the register instructions; [None] for the others. *)
Definition step_reg (pc : Z) (s : VerifierState) (insn : BpfInsn)
  : option (result VerificationFailure VerifierState) :=
  match insn with
  | BpfInsn.MovImm dst imm => Some (mov_imm pc s dst imm)
  | BpfInsn.Mov32Imm dst imm => Some (mov32_imm pc s dst imm)
  | BpfInsn.Mov32Reg dst src => Some (mov32_reg pc s dst src)
  | BpfInsn.MovReg dst src => Some (mov_reg pc s dst src)
  | BpfInsn.LdImm64 dst imm => Some (ld_imm64 pc s dst imm)
  | BpfInsn.LdMapFd dst _ key_size value_size map_type =>
      Some (ld_map_fd pc s dst key_size value_size map_type)
  | BpfInsn.LdMapValue dst _ offset _ value_size => Some (ld_map_value pc s dst offset value_size)
  | BpfInsn.LdImm64Second _ => Some (Ok s)
  | BpfInsn.AddImm dst imm => Some (alu_imm pc s dst imm Add W64)
  | BpfInsn.AddReg dst src => Some (alu_reg pc s dst src Add W64)
  | BpfInsn.SubImm dst imm => Some (alu_imm pc s dst imm Sub W64)
  | BpfInsn.SubReg dst src => Some (alu_reg pc s dst src Sub W64)
  | BpfInsn.AndImm dst imm => Some (alu_imm pc s dst imm And W64)
  | BpfInsn.AndReg dst src => Some (alu_reg pc s dst src And W64)
  | BpfInsn.OrImm dst imm => Some (alu_imm pc s dst imm Or W64)
  | BpfInsn.OrReg dst src => Some (alu_reg pc s dst src Or W64)
  | BpfInsn.XorImm dst imm => Some (alu_imm pc s dst imm Xor W64)
  | BpfInsn.XorReg dst src => Some (alu_reg pc s dst src Xor W64)
  | BpfInsn.LshImm dst imm => Some (alu_imm pc s dst imm Lsh W64)
  | BpfInsn.LshReg dst src => Some (alu_reg pc s dst src Lsh W64)
  | BpfInsn.RshImm dst imm => Some (alu_imm pc s dst imm Rsh W64)
  | BpfInsn.RshReg dst src => Some (alu_reg pc s dst src Rsh W64)
  | BpfInsn.ArshImm dst imm => Some (alu_imm pc s dst imm Arsh W64)
  | BpfInsn.ArshReg dst src => Some (alu_reg pc s dst src Arsh W64)
  | BpfInsn.Add32Imm dst imm => Some (alu_imm pc s dst imm Add W32)
  | BpfInsn.Add32Reg dst src => Some (alu_reg pc s dst src Add W32)
  | BpfInsn.Sub32Imm dst imm => Some (alu_imm pc s dst imm Sub W32)
  | BpfInsn.Sub32Reg dst src => Some (alu_reg pc s dst src Sub W32)
  | BpfInsn.And32Imm dst imm => Some (alu_imm pc s dst imm And W32)
  | BpfInsn.And32Reg dst src => Some (alu_reg pc s dst src And W32)
  | BpfInsn.Or32Imm dst imm => Some (alu_imm pc s dst imm Or W32)
  | BpfInsn.Or32Reg dst src => Some (alu_reg pc s dst src Or W32)
  | BpfInsn.Xor32Imm dst imm => Some (alu_imm pc s dst imm Xor W32)
  | BpfInsn.Xor32Reg dst src => Some (alu_reg pc s dst src Xor W32)
  | BpfInsn.Lsh32Imm dst imm => Some (alu_imm pc s dst imm Lsh W32)
  | BpfInsn.Lsh32Reg dst src => Some (alu_reg pc s dst src Lsh W32)
  | BpfInsn.Rsh32Imm dst imm => Some (alu_imm pc s dst imm Rsh W32)
  | BpfInsn.Rsh32Reg dst src => Some (alu_reg pc s dst src Rsh W32)
  | BpfInsn.Arsh32Imm dst imm => Some (alu_imm pc s dst imm Arsh W32)
  | BpfInsn.Arsh32Reg dst src => Some (alu_reg pc s dst src Arsh W32)
  | BpfInsn.MulImm dst imm high => Some (mul_imm pc s dst imm high)
  | BpfInsn.MulReg dst src high => Some (mul_reg pc s dst src high)
  | BpfInsn.DivImm dst imm => Some (alu_imm pc s dst imm Div W64)
  | BpfInsn.DivReg dst src => Some (alu_reg pc s dst src Div W64)
  | BpfInsn.ModImm dst imm => Some (alu_imm pc s dst imm Mod W64)
  | BpfInsn.ModReg dst src => Some (alu_reg pc s dst src Mod W64)
  | BpfInsn.Neg dst => Some (alu_neg pc s dst W64)
  | BpfInsn.Mul32Imm dst imm => Some (alu_imm pc s dst imm Mul W32)
  | BpfInsn.Mul32Reg dst src => Some (alu_reg pc s dst src Mul W32)
  | BpfInsn.Div32Imm dst imm => Some (alu_imm pc s dst imm Div W32)
  | BpfInsn.Div32Reg dst src => Some (alu_reg pc s dst src Div W32)
  | BpfInsn.Mod32Imm dst imm => Some (alu_imm pc s dst imm Mod W32)
  | BpfInsn.Mod32Reg dst src => Some (alu_reg pc s dst src Mod W32)
  | BpfInsn.Neg32 dst => Some (alu_neg pc s dst W32)
  | _ => None
  end.
