(* ===== verification/Sim.v ===== *)
(** The register instructions of the abstract machine simulate those of the
    concrete machine (src/src/exec.rs [step] against src/src/concrete.rs
    [concrete_step]).  [value_in] is the meaning of an abstract register; a pointer
    whose offset interval is 2^30 wide or more is one no access through which can
    pass the bounds checks, and nothing is claimed about its offset.  The
    simulation holds for every operand shape that [reg_step_covered] accepts; the
    counterexamples show the shapes it excludes. *)
From Stdlib Require Import ZArith Lia List Bool.
From stdpp Require Import base list.
From S2P Require Import Prelude Tnum Bounds Insn Alu Branch Ctx State Concrete Exec.
Open Scope Z_scope.

(** * The meaning of abstract registers *)

Definition wide (mn mx : Z) : Prop := 2 ^ 30 <= mx - mn.

Definition offset_in (mn mx al o : Z) : Prop :=
  wide mn mx \/ (mn <= o <= mx /\ (al = ALIGN_UNKNOWN \/ o mod 8 = al)).

Definition value_in (r : RegState) (v : ConcreteValue) : Prop :=
  match r, v with
  | Scalar b, CScalar x => bounds_mem b x
  | PtrToStack mn mx al fr, StackPtr addr fr' =>
      is_u64 addr /\ fr = fr' /\ offset_in mn mx al (as_i64 (addr - STACK_BASE))
  | PtrToCtx off, CtxPtr x => x = as_u64 (CTX_BASE + off)
  | PtrToMap _ _ _, MapPtr _ None _ => True
  | PtrToMapValue mn mx al _ _, MapPtr _ (Some _) o => is_i64 o /\ offset_in mn mx al o
  | PtrToMapValueOrNull vs _, MapPtr _ (Some _) o => 0 <= o /\ (vs = 0 \/ o < vs)
  | (PtrToMapValueOrNull _ _ | PtrToMem _ _ _ _ _ | PtrToMemOrNull _ _ _), CScalar x => x = 0
  | (PtrToMem _ _ _ _ _ | PtrToMemOrNull _ _ _), MemPtr _ => True
  | _, _ => False
  end.

Definition option_in (r : RegState) (v : option ConcreteValue) : Prop :=
  match v with None => r = Uninit | Some v => value_in r v end.

(** Fields of their types, ordered intervals, an alignment below 8 or unknown. *)
Definition interval_wf (mn mx al : Z) : Prop :=
  is_i32 mn /\ is_i32 mx /\ mn <= mx /\ (0 <= al < 8 \/ al = ALIGN_UNKNOWN).
Definition reg_wf (r : RegState) : Prop :=
  match r with
  | Scalar b => bounds_wf b
  | PtrToStack mn mx al _ => interval_wf mn mx al
  | PtrToCtx off => is_i32 off
  | PtrToMapValue mn mx al _ _ => interval_wf mn mx al
  | _ => True
  end.

(** Every register of the concrete state is described by the abstract one. *)
Definition described (a : VerifierState) (c : ConcreteState) : Prop :=
  length (regs a) = 11%nat /\ length (cregs c) = 11%nat /\
  (forall r, 0 <= r < 11 -> reg_wf (reg a r) /\ option_in (reg a r) (creg c r)).

(** The outcome of the concrete instruction next to the abstract result [a']: a
    described state, or the one failure the abstract side does not predict, the
    overflow of a map-value offset whose tracked interval is wide. *)
Definition map_result_wide (r : RegState) : Prop :=
  match r with PtrToMapValue mn mx _ _ _ => wide mn mx | _ => False end.
Definition simulates (pc dst : Z) (a' : VerifierState) (res : result ConcreteFailure ConcreteState) : Prop :=
  match res with
  | Ok c' => described a' c'
  | Err e => e = ConcreteFailure.PointerArithmetic pc dst /\ map_result_wide (reg a' dst)
  end.

(** The operand shapes covered: scalar operations of [alu_covered], stack and
    map-value pointers of known alignment, context pointers whose offset does not
    saturate. *)
Definition align_known (al : Z) : bool := negb (al =? ALIGN_UNKNOWN).
Definition ctx_fits (off delta : Z) : bool := in_range I32_MIN I32_MAX (off + delta).

Definition alu_imm_covered (r : RegState) (imm : Z) (op : AluOp) (width : AluWidth) : bool :=
  match r with
  | Scalar d => alu_covered op width d (bounds_constant imm)
  | PtrToStack _ _ al _ | PtrToMapValue _ _ al _ _ => align_known al
  | PtrToCtx off => ctx_fits off (match op with Add => imm | _ => - imm end)
  | _ => true
  end.

Definition alu_reg_covered (r b : RegState) (op : AluOp) (width : AluWidth) : bool :=
  match r, b with
  | Scalar d, Scalar s => alu_covered op width d s
  | (PtrToStack _ _ al _ | PtrToMapValue _ _ al _ _), _ => align_known al
  | Scalar _, (PtrToStack _ _ al _ | PtrToMapValue _ _ al _ _) => align_known al
  | PtrToCtx off, Scalar s => ctx_fits off (match op with Add => smin s | _ => - smin s end)
  | Scalar s, PtrToCtx off => ctx_fits off (smin s)
  | _, _ => true
  end.

(** The shapes covered, by instruction. *)
Definition reg_step_covered (s : VerifierState) (insn : BpfInsn) : bool :=
  match insn with
  | BpfInsn.AddImm dst imm => alu_imm_covered (reg s dst) imm Add W64
  | BpfInsn.AddReg dst src => alu_reg_covered (reg s dst) (reg s src) Add W64
  | BpfInsn.SubImm dst imm => alu_imm_covered (reg s dst) imm Sub W64
  | BpfInsn.SubReg dst src => alu_reg_covered (reg s dst) (reg s src) Sub W64
  | BpfInsn.AndImm dst imm => alu_imm_covered (reg s dst) imm And W64
  | BpfInsn.AndReg dst src => alu_reg_covered (reg s dst) (reg s src) And W64
  | BpfInsn.OrImm dst imm => alu_imm_covered (reg s dst) imm Or W64
  | BpfInsn.OrReg dst src => alu_reg_covered (reg s dst) (reg s src) Or W64
  | BpfInsn.XorImm dst imm => alu_imm_covered (reg s dst) imm Xor W64
  | BpfInsn.XorReg dst src => alu_reg_covered (reg s dst) (reg s src) Xor W64
  | BpfInsn.LshImm dst imm => alu_imm_covered (reg s dst) imm Lsh W64
  | BpfInsn.LshReg dst src => alu_reg_covered (reg s dst) (reg s src) Lsh W64
  | BpfInsn.RshImm dst imm => alu_imm_covered (reg s dst) imm Rsh W64
  | BpfInsn.RshReg dst src => alu_reg_covered (reg s dst) (reg s src) Rsh W64
  | BpfInsn.ArshImm dst imm => alu_imm_covered (reg s dst) imm Arsh W64
  | BpfInsn.ArshReg dst src => alu_reg_covered (reg s dst) (reg s src) Arsh W64
  | BpfInsn.Add32Imm dst imm => alu_imm_covered (reg s dst) imm Add W32
  | BpfInsn.Add32Reg dst src => alu_reg_covered (reg s dst) (reg s src) Add W32
  | BpfInsn.Sub32Imm dst imm => alu_imm_covered (reg s dst) imm Sub W32
  | BpfInsn.Sub32Reg dst src => alu_reg_covered (reg s dst) (reg s src) Sub W32
  | BpfInsn.And32Imm dst imm => alu_imm_covered (reg s dst) imm And W32
  | BpfInsn.And32Reg dst src => alu_reg_covered (reg s dst) (reg s src) And W32
  | BpfInsn.Or32Imm dst imm => alu_imm_covered (reg s dst) imm Or W32
  | BpfInsn.Or32Reg dst src => alu_reg_covered (reg s dst) (reg s src) Or W32
  | BpfInsn.Xor32Imm dst imm => alu_imm_covered (reg s dst) imm Xor W32
  | BpfInsn.Xor32Reg dst src => alu_reg_covered (reg s dst) (reg s src) Xor W32
  | BpfInsn.Lsh32Imm dst imm => alu_imm_covered (reg s dst) imm Lsh W32
  | BpfInsn.Lsh32Reg dst src => alu_reg_covered (reg s dst) (reg s src) Lsh W32
  | BpfInsn.Rsh32Imm dst imm => alu_imm_covered (reg s dst) imm Rsh W32
  | BpfInsn.Rsh32Reg dst src => alu_reg_covered (reg s dst) (reg s src) Rsh W32
  | BpfInsn.Arsh32Imm dst imm => alu_imm_covered (reg s dst) imm Arsh W32
  | BpfInsn.Arsh32Reg dst src => alu_reg_covered (reg s dst) (reg s src) Arsh W32
  | BpfInsn.MulImm dst imm high =>
      match high with MulHigh.Low => alu_imm_covered (reg s dst) imm Mul W64 | _ => true end
  | BpfInsn.MulReg dst src high =>
      match high with MulHigh.Low => alu_reg_covered (reg s dst) (reg s src) Mul W64 | _ => true end
  | BpfInsn.DivImm dst imm => alu_imm_covered (reg s dst) imm Div W64
  | BpfInsn.DivReg dst src => alu_reg_covered (reg s dst) (reg s src) Div W64
  | BpfInsn.ModImm dst imm => alu_imm_covered (reg s dst) imm Mod W64
  | BpfInsn.ModReg dst src => alu_reg_covered (reg s dst) (reg s src) Mod W64
  | BpfInsn.Mul32Imm dst imm => alu_imm_covered (reg s dst) imm Mul W32
  | BpfInsn.Mul32Reg dst src => alu_reg_covered (reg s dst) (reg s src) Mul W32
  | BpfInsn.Div32Imm dst imm => alu_imm_covered (reg s dst) imm Div W32
  | BpfInsn.Div32Reg dst src => alu_reg_covered (reg s dst) (reg s src) Div W32
  | BpfInsn.Mod32Imm dst imm => alu_imm_covered (reg s dst) imm Mod W32
  | BpfInsn.Mod32Reg dst src => alu_reg_covered (reg s dst) (reg s src) Mod W32
  | _ => true
  end.

(** The operand fields of a register instruction hold values of their types. *)
Definition operands_wf (insn : BpfInsn) : bool :=
  match insn with
  | BpfInsn.LdImm64 dst imm => (0 <=? dst) && in_range 0 U64_MAX imm
  | BpfInsn.LdMapFd dst _ _ _ _ => 0 <=? dst
  | BpfInsn.LdMapValue dst _ offset _ _ => (0 <=? dst) && in_range 0 I32_MAX offset
  | BpfInsn.LdImm64Second _ => true
  | _ => insn_wf insn
  end.

(** The destination register of a register instruction. *)
Definition insn_dst (insn : BpfInsn) : Z :=
  match encode_fields insn with Some (_, dst, _, _, _) => dst | None => 0 end.

(** * Reading and writing registers *)

Lemma lookup_total_insert {A} `{Inhabited A} (l : list A) (i j : Z) (x : A) :
  0 <= i < Z.of_nat (length l) -> 0 <= j ->
  <[Z.to_nat i := x]> l !!! Z.to_nat j = if i =? j then x else l !!! Z.to_nat j.
Proof.
  intros Hi Hj. destruct (Z.eqb_spec i j) as [->|Hne].
  - apply list_lookup_total_insert_eq. lia.
  - apply list_lookup_total_insert_ne. lia.
Qed.

Lemma described_set a c dst r v :
  described a c -> 0 <= dst < 11 -> reg_wf r -> value_in r v ->
  described (set_reg dst r a) (set_creg dst v c).
Proof.
  intros (Ha & Hc & Hin) Hd Hw Hv. split; [|split].
  - unfold set_reg, set_regs; simpl. by rewrite length_insert.
  - unfold set_creg; simpl. by rewrite length_insert.
  - intros r' Hr'. unfold reg, set_reg, set_regs, creg, set_creg; simpl.
    rewrite !lookup_total_insert by lia. destruct (dst =? r'); [done|]. by apply Hin.
Qed.

Lemma check_reg_ok pc r u : check_reg pc r = Ok u -> r < 11 /\ check_concrete_reg pc r = Ok tt.
Proof. unfold check_reg, check_concrete_reg. destruct (Z.leb_spec 11 r); [done|]. done. Qed.

Lemma read_reg_ok pc a c r x :
  described a c -> 0 <= r -> read_reg pc a r = Ok x ->
  r < 11 /\ reg a r = x /\ x <> Uninit /\ reg_wf x /\
  exists v, read_concrete_reg pc c r = Ok v /\ creg c r = Some v /\ value_in x v.
Proof.
  intros (_ & _ & Hin) Hr Hread. unfold read_reg in Hread.
  apply rbind_ok in Hread as (u & Hc & Hread). apply check_reg_ok in Hc as [Hlt Hcc].
  assert (Hx : reg a r = x /\ x <> Uninit) by (destruct (reg a r); by simplify_eq).
  destruct Hx as [Hx Hne]. destruct (Hin r ltac:(lia)) as [Hw Hv]. rewrite Hx in Hw, Hv.
  unfold read_concrete_reg. rewrite Hcc. simpl. destruct (creg c r) as [v|]; [|by destruct Hne].
  split_and!; try done. by exists v.
Qed.

Lemma read_scalar_ok pc a c r b :
  described a c -> 0 <= r -> read_scalar pc a r = Ok b ->
  r < 11 /\ reg a r = Scalar b /\ bounds_wf b /\
  exists x, read_concrete_reg pc c r = Ok (CScalar x) /\ bounds_mem b x.
Proof.
  intros Hd Hr Hs. unfold read_scalar in Hs. apply rbind_ok in Hs as (y & Hread & Hy).
  destruct (read_reg_ok _ _ _ _ _ Hd Hr Hread) as (Hlt & Hx & _ & Hw & v & Hv & _ & Hval).
  destruct y; try discriminate Hy. injection Hy as <-. split_and!; try done.
  destruct v; try done. by exists v.
Qed.

(** * Intervals of offsets *)

(** A result interval that is not wide comes from an exact addition. *)
Lemma add_interval mn mx al al' smin' smax' :
  interval_wf mn mx al -> is_i64 smin' -> is_i64 smax' -> smin' <= smax' ->
  (0 <= al' < 8 \/ al' = ALIGN_UNKNOWN) ->
  - BPF_MAX_VAR_OFF < sat_add64 mn smin' < BPF_MAX_VAR_OFF ->
  let mn' := clamp_offset (sat_add64 mn smin') in
  let mx' := clamp_offset (sat_add64 mx smax') in
  interval_wf mn' mx' al' /\
  (wide mn' mx' \/
   (~ wide mn mx /\ mn' = mn + smin' /\ mx' = mx + smax' /\
    - 2 ^ 31 <= mn' /\ mx' <= 2 ^ 31)).
Proof.
  unfold interval_wf, wide, clamp_offset, sat_add64, saturate. intros. split; lia.
Qed.

Lemma add_interval_imm mn mx al al' imm :
  interval_wf mn mx al -> is_i32 imm -> (0 <= al' < 8 \/ al' = ALIGN_UNKNOWN) ->
  - BPF_MAX_VAR_OFF < mn + imm < BPF_MAX_VAR_OFF ->
  let mn' := sat_add32 mn imm in
  let mx' := sat_add32 mx imm in
  interval_wf mn' mx' al' /\
  (wide mn' mx' \/
   (~ wide mn mx /\ mn' = mn + imm /\ mx' = mx + imm /\ - 2 ^ 31 <= mn' /\ mx' <= 2 ^ 31)).
Proof. unfold interval_wf, wide, sat_add32, saturate. intros. split; lia. Qed.

Lemma add_align_ok al b x o :
  0 <= al < 8 -> o mod 8 = al -> bounds_wf b -> bounds_mem b x ->
  add_align al b = ALIGN_UNKNOWN \/ (o + as_i64 x) mod 8 = add_align al b.
Proof.
  intros Hal Ho (_&_&_&_&_&_&_&_&Ht) [(Hx & _ & _ & Hm) _]. unfold add_align.
  destruct (Z.eqb_spec (Z.land (tmask (tnum b)) 7) 0) as [Hz|]; [right|by left].
  assert (Hlow : x mod 8 = Z.land (tvalue (tnum b)) 7).
  { change 7 with (Z.ones 3). change 8 with (2 ^ 3). rewrite <- Z.land_ones by lia.
    apply Z.bits_inj'. intros i Hi. rewrite !Z.land_spec.
    destruct (Z.lt_ge_cases i 3); [|by rewrite !Z.ones_spec_high, !andb_false_r by lia].
    rewrite !Z.ones_spec_low, !andb_true_r by lia. apply tnum_mem_bit; try done; [lia|].
    assert (Z.testbit (Z.land (tmask (tnum b)) 7) i = false) as Hb by (by rewrite Hz, Z.testbit_0_l).
    rewrite Z.land_spec in Hb. change 7 with (Z.ones 3) in Hb.
    rewrite Z.ones_spec_low, andb_true_r in Hb by lia. done. }
  assert (as_i64 x mod 8 = x mod 8) as Hmod.
  { destruct (as_u64_sub_i64 x Hx) as [-> | ->]; div_lia. }
  rewrite <- Hlow. unfold as_u. rewrite (Z.mod_small (_ mod 8) (2 ^ 8)) by div_lia. div_lia.
Qed.

Lemma add_align_wf al b : 0 <= add_align al b < 8 \/ add_align al b = ALIGN_UNKNOWN.
Proof. unfold add_align. destruct (_ =? _); [left|by right]. unfold as_u. div_lia. Qed.

Lemma add_align_imm_ok al imm o :
  0 <= al < 8 -> o mod 8 = al -> (o + imm) mod 8 = add_align_imm al imm.
Proof. intros. unfold add_align_imm, as_u. div_lia. Qed.

Lemma add_align_imm_wf al imm : 0 <= add_align_imm al imm < 8 \/ add_align_imm al imm = ALIGN_UNKNOWN.
Proof. left. unfold add_align_imm, as_u. div_lia. Qed.

(** The address of a shifted stack pointer. *)
Lemma stack_addr_shift o k :
  - 2 ^ 33 <= o <= 2 ^ 33 -> - 2 ^ 33 <= o + k <= 2 ^ 33 ->
  as_i64 (as_u64 (STACK_BASE + (o + k)) - STACK_BASE) = o + k.
Proof.
  intros. unfold as_i. rewrite <- (Zminus_mod_idemp_l (as_u64 _)). unfold as_u.
  rewrite Zmod_mod, Zminus_mod_idemp_l. case_tests; div_lia.
Qed.

Lemma as_i64_rebase addr : as_i64 (as_i64 addr - STACK_BASE) = as_i64 (addr - STACK_BASE).
Proof.
  unfold as_i at 1 3. assert (Hm : (as_i64 addr - STACK_BASE) mod 2 ^ 64 = (addr - STACK_BASE) mod 2 ^ 64).
  { unfold as_i. pose proof (Z.mod_pos_bound addr (2 ^ 64) ltac:(lia)). case_tests; div_lia. }
  by rewrite Hm.
Qed.

(** [sat] of a sum and the wrapped sum agree on the offsets that matter. *)
Lemma shift_stack_addr_ok addr o d :
  o = as_i64 (addr - STACK_BASE) -> - 2 ^ 33 <= o <= 2 ^ 33 -> - 2 ^ 33 <= o + d <= 2 ^ 33 ->
  as_i64 (shift_stack_addr addr d - STACK_BASE) = o + d.
Proof.
  intros Ho Hr Hs. unfold shift_stack_addr. rewrite as_i64_rebase, <- Ho.
  rewrite (as_i64_id (o + d)) by lia. by apply stack_addr_shift.
Qed.

Lemma stack_add_scalar_in mn mx al fr b addr x :
  interval_wf mn mx al -> bounds_wf b -> bounds_mem b x -> al <> ALIGN_UNKNOWN ->
  value_in (PtrToStack mn mx al fr) (StackPtr addr fr) ->
  - BPF_MAX_VAR_OFF < sat_add64 mn (smin b) < BPF_MAX_VAR_OFF ->
  let r := PtrToStack (clamp_offset (sat_add64 mn (smin b))) (clamp_offset (sat_add64 mx (smax b)))
             (add_align al b) fr in
  reg_wf r /\ value_in r (StackPtr (shift_stack_addr addr (as_i64 x)) fr).
Proof.
  intros Hw Hb Hx Hal (Hu & _ & Ho) Hs. pose proof Hb as (?&?&_). pose proof Hx as [(?&?&_) _].
  destruct (add_interval mn mx al (add_align al b) (smin b) (smax b)) as [Hw' Hcase];
    try done; [lia|apply add_align_wf|]. split; [done|].
  split_and!; [apply as_u64_range|apply as_u64_range|done|].
  destruct Hcase as [|(Hnw & -> & -> & ?)]; [by left|]. right.
  destruct Ho as [|[Hin Halign]]; [done|]. destruct Hw as (?&?&?&Hal').
  rewrite (shift_stack_addr_ok addr _ (as_i64 x) eq_refl) by lia. split; [lia|].
  apply (add_align_ok al b x); try done; lia.
Qed.

Lemma stack_add_imm_in mn mx al fr imm addr :
  interval_wf mn mx al -> is_i32 imm -> al <> ALIGN_UNKNOWN ->
  value_in (PtrToStack mn mx al fr) (StackPtr addr fr) ->
  - BPF_MAX_VAR_OFF < mn + imm < BPF_MAX_VAR_OFF ->
  let r := PtrToStack (sat_add32 mn imm) (sat_add32 mx imm) (add_align_imm al imm) fr in
  reg_wf r /\
  value_in r (StackPtr (as_u64 (STACK_BASE + saturate I64_MIN I64_MAX (as_i64 (as_i64 addr - STACK_BASE) + imm))) fr).
Proof.
  intros Hw Hi Hal (Hu & _ & Ho) Hs.
  destruct (add_interval_imm mn mx al (add_align_imm al imm) imm) as [Hw' Hcase];
    try done; [apply add_align_imm_wf|]. split; [done|].
  split_and!; [apply as_u64_range|apply as_u64_range|done|].
  destruct Hcase as [|(Hnw & -> & -> & ?)]; [by left|]. right.
  destruct Ho as [|[Hin Halign]]; [done|]. destruct Hw as (?&?&?&Hal').
  rewrite as_i64_rebase. unfold saturate. rewrite Z.min_r, Z.max_r by lia.
  rewrite stack_addr_shift by lia. split; [lia|]. right. apply add_align_imm_ok; lia.
Qed.

(** A map-value offset: the checked addition succeeds unless the result interval
    is wide. *)
Lemma map_add_in mn mx al vs i fd k o mn' mx' al' d :
  interval_wf mn mx al -> interval_wf mn' mx' al' ->
  value_in (PtrToMapValue mn mx al vs i) (MapPtr fd (Some k) o) -> is_i64 d ->
  (wide mn' mx' \/
   (~ wide mn mx /\ mn' <= mn + d /\ mx + d <= mx' /\ - 2 ^ 31 <= mn' /\ mx' <= 2 ^ 31)) ->
  (mn <= o <= mx -> al = ALIGN_UNKNOWN \/ o mod 8 = al -> mn' <= o + d <= mx' ->
   al' = ALIGN_UNKNOWN \/ (o + d) mod 8 = al') ->
  match checked I64_MIN I64_MAX (o + d) with
  | Some o' => forall i', value_in (PtrToMapValue mn' mx' al' vs i') (MapPtr fd (Some k) o')
  | None => wide mn' mx'
  end.
Proof.
  intros Hw Hw' (Hio & Ho) Hd Hcase Hal. unfold checked. destruct Hw as (?&?&?&?), Hw' as (?&?&?&?).
  destruct ((I64_MIN <=? o + d) && (o + d <=? I64_MAX)) eqn:Hr.
  - intros i'. bool_hyps. split; [lia|]. destruct Hcase as [|(Hnw & ?)]; [by left|]. right.
    destruct Ho as [|[Hin Halign]]; [done|]. split; [lia|]. apply Hal; [done|done|lia].
  - destruct Hcase as [|(Hnw & ?)]; [done|]. destruct Ho as [|[Hin Halign]]; [done|].
    apply andb_false_iff in Hr. rewrite !Z.leb_gt in Hr. lia.
Qed.

(** * Instructions with an immediate *)

Lemma sane_addend pc k b u :
  check_sane_addend pc k b = Ok u -> - BPF_MAX_VAR_OFF < smin b < BPF_MAX_VAR_OFF.
Proof.
  unfold check_sane_addend. repeat case_match; try discriminate; intros _; bool_hyps; lia.
Qed.

Lemma sane_result pc k m u :
  check_sane_result_offset pc k m = Ok u -> - BPF_MAX_VAR_OFF < m < BPF_MAX_VAR_OFF.
Proof. unfold check_sane_result_offset. case_match; try discriminate; intros _; bool_hyps; lia. Qed.

Lemma set_reg_same a r v : 0 <= r -> (Z.to_nat r < length (regs a))%nat -> reg (set_reg r v a) r = v.
Proof. intros. unfold reg, set_reg, set_regs; simpl. by apply list_lookup_total_insert_eq. Qed.

Lemma ctx_shift off d :
  as_u64 (as_u64 (CTX_BASE + off) + d) = as_u64 (CTX_BASE + (off + d)).
Proof. unfold as_u. rewrite Zplus_mod_idemp_l. f_equal. lia. Qed.

Lemma as_u64_add_r a d : wadd 64 a (as_u64 d) = as_u64 (a + d).
Proof. unfold wadd, as_u. by rewrite Zplus_mod_idemp_r. Qed.
Lemma as_u64_sub_r a d : wsub 64 a (as_u64 d) = as_u64 (a + - d).
Proof. unfold wsub, as_u. by rewrite Zminus_mod_idemp_r. Qed.

Ltac on_ok H := let u := fresh "u" in let Hc := fresh "Hc" in apply rbind_ok in H as (u & Hc & H).

Lemma alu_imm_sim pc a c dst imm op w a' :
  described a c -> 0 <= dst -> is_i32 imm ->
  alu_imm_covered (reg a dst) imm op w = true ->
  alu_imm pc a dst imm op w = Ok a' -> simulates pc dst a' (concrete_alu_imm pc c dst imm op w).
Proof.
  intros Hd Hdst Himm Hcov Ha. unfold alu_imm in Ha. unfold concrete_alu_imm.
  on_ok Ha. apply check_reg_ok in Hc as [Hlt ->]. cbn [rbind].
  destruct (is_shift op && _); [discriminate Ha|].
  apply rbind_ok in Ha as (r & Hread & Ha).
  destruct (read_reg_ok _ _ _ _ _ Hd Hdst Hread) as (_ & Hreg & _ & Hw & v & -> & _ & Hv).
  cbn [rbind]. rewrite Hreg in Hcov.
  assert (Hlen : (Z.to_nat dst < length (regs a))%nat) by (destruct Hd as (-> & _); lia).
  destruct r as [|d|mn mx al fr|off|ks vs mt|mn mx al vs i|vs i|mn mx al i pid|i pid sz|bt ro];
    try discriminate Ha.
  - destruct v as [x| | | |]; try done. injection Ha as <-.
    assert (Hb : bounds_wf (bounds_constant imm)) by (apply bounds_constant_wf; lia).
    assert (Hbm : bounds_mem (bounds_constant imm) (as_u64 imm)) by (apply bounds_constant_mem; [lia|done]).
    apply described_set; [done|lia|by apply apply_alu_wf|by apply apply_alu_mem].
  - destruct v as [|addr fr'| | |]; try done. pose proof Hv as (_ & <- & _).
    destruct op, w; try discriminate Ha. on_ok Ha. on_ok Ha. injection Ha as <-.
    apply sane_result in Hc0. apply negb_true_iff, Z.eqb_neq in Hcov.
    destruct (stack_add_imm_in mn mx al fr imm addr Hw Himm Hcov Hv Hc0).
    by apply described_set.
  - destruct v as [| |x| |]; try done.
    destruct op, w; try discriminate Ha; on_ok Ha; injection Ha as <-; apply in_range_iff in Hcov;
      apply described_set; try done; cbn [reg_wf value_in] in *; unfold sat_add32, saturate in *;
      rewrite ?Z.min_r, ?Z.max_r by lia; try lia; rewrite Hv.
    + by rewrite as_u64_add_r, ctx_shift.
    + by rewrite as_u64_sub_r, ctx_shift.
  - destruct v as [| | |fd [k|] o|]; try done. destruct op, w; try discriminate Ha.
    on_ok Ha. on_ok Ha. injection Ha as <-. apply sane_result in Hc0.
    apply negb_true_iff, Z.eqb_neq in Hcov.
    destruct (add_interval_imm mn mx al (add_align_imm al imm) imm Hw Himm
      (add_align_imm_wf al imm) Hc0) as [Hw' Hcase].
    pose proof (map_add_in mn mx al vs i fd k o _ _ _ imm Hw Hw' Hv ltac:(lia)) as Hadd.
    destruct (checked _ _ _) as [o'|].
    + apply described_set; [done|lia|done|]. apply Hadd.
      * destruct Hcase as [|(?&?&?&?)]; [by left|right; split_and!; (done || lia)].
      * intros _ [|Hm] _; [done|]. right. destruct Hw as (_&_&_&[|]); [|done]. by apply add_align_imm_ok.
    + split; [done|]. rewrite set_reg_same by (done || lia). apply Hadd.
      * destruct Hcase as [|(?&?&?&?)]; [by left|right; split_and!; (done || lia)].
      * intros _ [|Hm] _; [done|]. right. destruct Hw as (_&_&_&[|]); [|done]. by apply add_align_imm_ok.
Qed.

(** * Instructions with a register *)

Section pointer_plus_scalar.
Context (pc dst : Z) (a a' : VerifierState) (c : ConcreteState) (b : ScalarBounds) (x : Z).
Hypothesis Hd : described a c.
Hypothesis Hdst : 0 <= dst < 11.
Hypothesis Hb : bounds_wf b.
Hypothesis Hx : bounds_mem b x.

Lemma regs_len : (Z.to_nat dst < length (regs a))%nat.
Proof using Hd Hdst. destruct Hd as (-> & _). lia. Qed.

Lemma signed_is_i64 : is_i64 (as_i64 x) /\ smin b <= as_i64 x <= smax b.
Proof using Hx. split; [apply as_i64_range|]. by destruct Hx as [(_ & ? & _) _]. Qed.

Lemma stack_plus_scalar mn mx al fr addr :
  align_known al = true -> interval_wf mn mx al ->
  value_in (PtrToStack mn mx al fr) (StackPtr addr fr) ->
  add_scalar_to_stack_ptr pc dst mn mx al fr b a = Ok a' ->
  described a' (set_creg dst (StackPtr (shift_stack_addr addr (as_i64 x)) fr) c).
Proof using Hd Hdst Hb Hx.
  intros Hal Hw Hv Ha. unfold add_scalar_to_stack_ptr in Ha. on_ok Ha. cbv zeta in Ha. on_ok Ha.
  injection Ha as <-. apply sane_result in Hc0. apply negb_true_iff, Z.eqb_neq in Hal.
  destruct (stack_add_scalar_in mn mx al fr b addr x Hw Hb Hx Hal Hv Hc0).
  by apply described_set.
Qed.

Lemma map_value_plus_scalar mn mx al vs i fd k o :
  align_known al = true -> interval_wf mn mx al ->
  value_in (PtrToMapValue mn mx al vs i) (MapPtr fd (Some k) o) ->
  add_scalar_to_map_value_ptr pc dst mn mx al vs b a = Ok a' ->
  simulates pc dst a'
    match checked I64_MIN I64_MAX (o + as_i64 x) with
    | Some o' => Ok (set_creg dst (MapPtr fd (Some k) o') c)
    | None => Err (ConcreteFailure.PointerArithmetic pc dst)
    end.
Proof using Hd Hdst Hb Hx.
  intros Hal Hw Hv Ha. unfold add_scalar_to_map_value_ptr in Ha. on_ok Ha. cbv zeta in Ha. on_ok Ha.
  injection Ha as <-. apply sane_result in Hc0. apply negb_true_iff, Z.eqb_neq in Hal.
  pose proof Hb as (?&?&_). destruct signed_is_i64 as [Hxi Hxr].
  destruct (add_interval mn mx al (add_align al b) (smin b) (smax b)) as [Hw' Hcase];
    try done; [lia|apply add_align_wf|].
  pose proof (map_add_in mn mx al vs i fd k o _ _ _ (as_i64 x) Hw Hw' Hv Hxi) as Hadd.
  assert (Halign : mn <= o <= mx -> al = ALIGN_UNKNOWN \/ o mod 8 = al ->
    clamp_offset (sat_add64 mn (smin b)) <= o + as_i64 x <= clamp_offset (sat_add64 mx (smax b)) ->
    add_align al b = ALIGN_UNKNOWN \/ (o + as_i64 x) mod 8 = add_align al b).
  { intros _ [|Hm] _; [done|]. destruct Hw as (_&_&_&[|]); [|done]. by apply add_align_ok. }
  assert (Hcase' : wide (clamp_offset (sat_add64 mn (smin b))) (clamp_offset (sat_add64 mx (smax b))) \/
    (~ wide mn mx /\ clamp_offset (sat_add64 mn (smin b)) <= mn + as_i64 x /\
     mx + as_i64 x <= clamp_offset (sat_add64 mx (smax b)) /\
     - 2 ^ 31 <= clamp_offset (sat_add64 mn (smin b)) /\
     clamp_offset (sat_add64 mx (smax b)) <= 2 ^ 31)).
  { destruct Hcase as [|(?&?&?&?&?)]; [by left|right; split_and!; (done || lia)]. }
  specialize (Hadd Hcase' Halign). destruct (checked _ _ _).
  - apply described_set; [done|lia|done|apply Hadd].
  - split; [done|]. by rewrite set_reg_same by (lia || apply regs_len).
Qed.

Lemma ctx_plus_scalar_in off v (negate : bool) :
  ctx_fits off (if negate then - smin b else smin b) = true ->
  v = as_u64 (CTX_BASE + off) ->
  ctx_plus_scalar pc dst off b negate a = Ok a' ->
  described a' (set_creg dst (CtxPtr (if negate then wsub 64 v x else wadd 64 v x)) c).
Proof using Hd Hdst Hb Hx.
  intros Hfit Hv Ha. unfold ctx_plus_scalar in Ha. on_ok Ha. apply sane_addend in Hc.
  destruct (bounds_is_constant b) eqn:Hk; [|discriminate Ha]. cbn [negb] in Ha.
  destruct (is_constant_mem b x Hb Hx Hk) as (Hxs & _ & _).
  assert (Hs32 : as_i32 (smin b) = smin b) by (unfold as_i; case_tests; div_lia).
  rewrite Hs32 in Ha. injection Ha as <-. apply in_range_iff in Hfit.
  apply described_set; try done; cbn [reg_wf value_in]; unfold sat_add32, saturate;
    destruct negate; rewrite ?Z.min_r, ?Z.max_r by lia; try lia; rewrite Hv, Hxs.
  - by rewrite as_u64_sub_r, ctx_shift.
  - by rewrite as_u64_add_r, ctx_shift.
Qed.
End pointer_plus_scalar.

Lemma described_reg_len a c dst : described a c -> 0 <= dst < 11 -> (Z.to_nat dst < length (regs a))%nat.
Proof. intros (-> & _) ?. lia. Qed.

(** A scalar result on both sides. *)
Lemma scalar_op_sim a c dst op w d b x y :
  described a c -> 0 <= dst < 11 -> bounds_wf d -> bounds_wf b -> bounds_mem d x -> bounds_mem b y ->
  alu_covered op w d b = true ->
  described (set_reg dst (Scalar (apply_alu op w d b)) a) (set_creg dst (CScalar (alu_value op w x y)) c).
Proof. intros. apply described_set; [done|done|by apply apply_alu_wf|by apply apply_alu_mem]. Qed.

Lemma scalar_alu_reg_sim pc a c dst src op w d x a' :
  described a c -> 0 <= dst < 11 -> 0 <= src -> reg a dst = Scalar d -> bounds_wf d -> bounds_mem d x ->
  alu_reg_covered (Scalar d) (reg a src) op w = true ->
  read_concrete_reg pc c dst = Ok (CScalar x) -> check_concrete_reg pc dst = Ok tt ->
  scalar_alu_reg pc a dst src op w d = Ok a' -> simulates pc dst a' (concrete_alu_reg pc c dst src op w).
Proof.
  intros Hd Hdst Hsrc Hreg Hw Hx Hcov Hrd Hck Ha. unfold concrete_alu_reg. rewrite Hck, Hrd. cbn [rbind].
  assert (Hscalar : forall b, read_scalar pc a src = Ok b ->
    Ok (set_reg dst (Scalar (apply_alu op w d b)) a) = Ok (E := VerificationFailure) a' ->
    exists y, read_concrete_reg pc c src = Ok (CScalar y) /\
      described a' (set_creg dst (CScalar (alu_value op w x y)) c)).
  { intros b Hrs [= <-]. destruct (read_scalar_ok _ _ _ _ _ Hd Hsrc Hrs) as (_ & Hsreg & Hbw & y & Hy & Hym).
    rewrite Hsreg in Hcov. exists y. split; [done|]. by apply scalar_op_sim. }
  unfold scalar_alu_reg in Ha. destruct (is_add64 op w) eqn:Hadd.
  - destruct op, w; try discriminate Hadd. apply rbind_ok in Ha as (r & Hread & Ha).
    destruct (read_reg_ok _ _ _ _ _ Hd Hsrc Hread) as (_ & Hsreg & _ & Hrw & v & Hrv & _ & Hv).
    rewrite Hsreg in Hcov.
    assert (Hother : (let? b := read_scalar pc a src in
        Ok (set_reg dst (Scalar (apply_alu Add W64 d b)) a)) = Ok a' ->
      exists y, v = CScalar y /\ described a' (set_creg dst (CScalar (alu_value Add W64 x y)) c)).
    { intros Hs. apply rbind_ok in Hs as (b & Hrs & Hs). destruct (Hscalar b Hrs Hs) as (y & Hy & ?).
      rewrite Hrv in Hy. injection Hy as ->. by exists y. }
    rewrite Hrv. cbn [rbind].
    destruct r as [|b|mn mx al fr|off|ks vs mt|mn mx al vs i|vs i|mn mx al i pid|i pid sz|bt ro];
      try (destruct (Hother Ha) as (y & -> & ?); done).
    + destruct v as [|addr fr'| | |]; try done. pose proof Hv as (_ & <- & _). on_ok Ha.
      by apply (stack_plus_scalar pc dst a a' c d x Hd Hdst Hw Hx mn mx al fr addr).
    + destruct v as [| |v| |]; try done.
      apply (ctx_plus_scalar_in pc dst a a' c d x Hd Hdst Hw Hx off v false); done.
    + destruct v as [| | |fd [k|] o|]; try done.
      by apply (map_value_plus_scalar pc dst a a' c d x Hd Hdst Hw Hx mn mx al vs i fd k o).
  - apply rbind_ok in Ha as (b & Hrs & Ha). destruct (Hscalar b Hrs Ha) as (y & -> & ?). done.
Qed.

Lemma alu_reg_sim pc a c dst src op w a' :
  described a c -> 0 <= dst -> 0 <= src ->
  alu_reg_covered (reg a dst) (reg a src) op w = true ->
  alu_reg pc a dst src op w = Ok a' -> simulates pc dst a' (concrete_alu_reg pc c dst src op w).
Proof.
  intros Hd Hdst Hsrc Hcov Ha. unfold alu_reg in Ha.
  on_ok Ha. apply check_reg_ok in Hc as [Hlt Hck]. apply rbind_ok in Ha as (r & Hread & Ha).
  destruct (read_reg_ok _ _ _ _ _ Hd Hdst Hread) as (_ & Hreg & _ & Hw & v & Hrv & _ & Hv).
  destruct r as [|d|mn mx al fr|off|ks vs mt|mn mx al vs i|vs i|mn mx al i pid|i pid sz|bt ro];
    try discriminate Ha.
  - destruct v as [x| | | |]; try done. rewrite Hreg in Hcov.
    by apply (scalar_alu_reg_sim pc a c dst src op w d x).
  - destruct (is_add64 op w) eqn:Hadd; [|discriminate Ha]. destruct op, w; try discriminate Hadd.
    cbn [negb] in Ha. apply rbind_ok in Ha as (b & Hrs & Ha). rewrite Hreg in Hcov.
    destruct (read_scalar_ok _ _ _ _ _ Hd Hsrc Hrs) as (_ & Hsreg & Hbw & y & Hy & Hym).
    destruct v as [|addr fr'| | |]; try done. pose proof Hv as (_ & <- & _).
    unfold concrete_alu_reg. rewrite Hck, Hrv, Hy. cbn [rbind].
    by apply (stack_plus_scalar pc dst a a' c b y Hd ltac:(lia) Hbw Hym mn mx al fr addr).
  - destruct v as [| |v| |]; try done.
    destruct op, w; try discriminate Ha; apply rbind_ok in Ha as (b & Hrs & Ha);
      destruct (read_scalar_ok _ _ _ _ _ Hd Hsrc Hrs) as (_ & Hsreg & Hbw & y & Hy & Hym);
      rewrite Hreg, Hsreg in Hcov; unfold concrete_alu_reg; rewrite Hck, Hrv, Hy; cbn [rbind].
    + by apply (ctx_plus_scalar_in pc dst a a' c b y Hd ltac:(lia) Hbw Hym off v false).
    + by apply (ctx_plus_scalar_in pc dst a a' c b y Hd ltac:(lia) Hbw Hym off v true).
  - destruct (is_add64 op w) eqn:Hadd; [|discriminate Ha]. destruct op, w; try discriminate Hadd.
    cbn [negb] in Ha. apply rbind_ok in Ha as (b & Hrs & Ha). rewrite Hreg in Hcov.
    destruct (read_scalar_ok _ _ _ _ _ Hd Hsrc Hrs) as (_ & Hsreg & Hbw & y & Hy & Hym).
    destruct v as [| | |fd [k|] o|]; try done.
    unfold concrete_alu_reg. rewrite Hck, Hrv, Hy. cbn [rbind].
    by apply (map_value_plus_scalar pc dst a a' c b y Hd ltac:(lia) Hbw Hym mn mx al vs i fd k o).
Qed.

Lemma concrete_hmul_range x y high : is_u64 (concrete_hmul x y high).
Proof. destruct high; apply as_u64_range. Qed.

Lemma mul_imm_sim pc a c dst imm high a' :
  described a c -> 0 <= dst -> is_i32 imm ->
  match high with MulHigh.Low => alu_imm_covered (reg a dst) imm Mul W64 | _ => true end = true ->
  mul_imm pc a dst imm high = Ok a' -> simulates pc dst a' (concrete_mul_high pc c dst imm high).
Proof.
  intros Hd Hdst Hi Hcov Ha.
  assert (Hhigh : high <> MulHigh.Low -> mul_imm pc a dst imm high = Ok a' ->
    simulates pc dst a' (concrete_mul_high pc c dst imm high)).
  { intros Hne Hm. assert (Hm' : (let? _ := check_reg pc dst in let? r := read_reg pc a dst in
      match r with
      | Scalar d => Ok (set_reg dst (Scalar (if bounds_is_constant d
          then bounds_constant (as_i64 (hmul_const (as_u64 (smin d)) (as_u64 imm) high))
          else bounds_unknown)) a)
      | _ => fail pc (PointerOperand dst) end) = Ok a') by (by destruct high).
    clear Hm. on_ok Hm'. apply check_reg_ok in Hc as [Hlt _]. apply rbind_ok in Hm' as (r & Hread & Hm).
    destruct (read_reg_ok _ _ _ _ _ Hd Hdst Hread) as (_ & _ & _ & Hw & v & Hrv & _ & Hv).
    destruct r; try discriminate Hm. destruct v as [x| | | |]; try done. injection Hm as <-.
    unfold concrete_mul_high. rewrite Hrv. cbn [rbind].
    pose proof (concrete_hmul_range x (as_u64 imm) high) as Hu.
    apply described_set; [done|lia|..].
    - cbn [reg_wf]. destruct (bounds_is_constant bounds);
        [apply bounds_constant_wf, as_i64_range|apply bounds_unknown_wf].
    - cbn [value_in]. destruct (bounds_is_constant bounds) eqn:Hk; [|by apply bounds_unknown_mem].
      destruct (is_constant_mem bounds x Hw Hv Hk) as (<- & _).
      apply bounds_constant_mem; [apply as_i64_range|].
      change (hmul_const x (as_u64 imm) high) with (concrete_hmul x (as_u64 imm) high).
      by rewrite as_u64_as_i64. }
  destruct high; try (by apply Hhigh). clear Hhigh. cbn [mul_imm] in Ha.
  pose proof (alu_imm_sim pc a c dst imm Mul W64 a' Hd Hdst Hi Hcov Ha) as Hs.
  unfold alu_imm in Ha. on_ok Ha. apply check_reg_ok in Hc as [Hlt Hck]. cbn [is_shift andb] in Ha.
  apply rbind_ok in Ha as (r & Hread & Ha).
  destruct (read_reg_ok _ _ _ _ _ Hd Hdst Hread) as (_ & _ & _ & Hw & v & Hrv & _ & Hv).
  destruct r; try discriminate Ha. destruct v; try done.
  unfold concrete_alu_imm in Hs. unfold concrete_mul_high. rewrite Hck, Hrv in Hs. by rewrite Hrv.
Qed.

Lemma mul_reg_sim pc a c dst src high a' :
  described a c -> 0 <= dst -> 0 <= src ->
  match high with MulHigh.Low => alu_reg_covered (reg a dst) (reg a src) Mul W64 | _ => true end = true ->
  mul_reg pc a dst src high = Ok a' -> simulates pc dst a' (concrete_mul_high_reg pc c dst src high).
Proof.
  intros Hd Hdst Hsrc Hcov Ha.
  assert (Hhigh : high <> MulHigh.Low ->
    (let? x := read_concrete_reg pc c dst in let? y := read_concrete_reg pc c src in
     match x, y with
     | CScalar x, CScalar y => Ok (set_creg dst (CScalar (concrete_hmul x y high)) c)
     | _, _ => Err (ConcreteFailure.PointerArithmetic pc dst) end) = concrete_mul_high_reg pc c dst src high /\
    (let? _ := check_reg pc dst in let? r := read_reg pc a dst in let? q := read_reg pc a src in
     match r, q with
     | Scalar d, Scalar b => Ok (set_reg dst (Scalar (if bounds_is_constant d && bounds_is_constant b
          then bounds_constant (as_i64 (hmul_const (as_u64 (smin d)) (as_u64 (smin b)) high))
          else bounds_unknown)) a)
     | _, _ => fail pc (PointerOperand dst) end) = Ok a') by (intros; by destruct high).
  destruct high; [by apply (alu_reg_sim pc a c dst src Mul W64 a' Hd Hdst Hsrc Hcov Ha)|..]; destruct Hhigh as [<- Hm]; try done;
    on_ok Hm; apply check_reg_ok in Hc as [Hlt _];
    apply rbind_ok in Hm as (r & Hread & Hm); apply rbind_ok in Hm as (q & Hreads & Hm);
    destruct (read_reg_ok _ _ _ _ _ Hd Hdst Hread) as (_ & _ & _ & Hw & v & Hrv & _ & Hv);
    destruct (read_reg_ok _ _ _ _ _ Hd Hsrc Hreads) as (_ & _ & _ & Hws & vs & Hrvs & _ & Hvs);
    rewrite Hrv, Hrvs; cbn [rbind];
    destruct r as [|d| | | | | | | |]; try discriminate Hm;
    destruct q as [|b| | | | | | | |]; try discriminate Hm;
    destruct v as [x| | | |]; try done; destruct vs as [y| | | |]; try done; injection Hm as <-;
    (apply described_set; [done|lia|..]; cbn [reg_wf value_in];
     [destruct (_ && _); [apply bounds_constant_wf, as_i64_range|apply bounds_unknown_wf]|]);
    (destruct (_ && _) eqn:Hk; [|apply bounds_unknown_mem, as_u64_range]);
    apply andb_true_iff in Hk as [Hkd Hkb];
    destruct (is_constant_mem d x Hw Hv Hkd) as (<- & _);
    destruct (is_constant_mem b y Hws Hvs Hkb) as (<- & _);
    (apply bounds_constant_mem; [apply as_i64_range|]);
    (rewrite as_u64_as_i64; [done|apply as_u64_range]).
Qed.

Lemma alu_neg_sim pc a c dst w a' :
  described a c -> 0 <= dst -> alu_neg pc a dst w = Ok a' ->
  simulates pc dst a' (concrete_neg pc c dst w).
Proof.
  intros Hd Hdst Ha. unfold alu_neg in Ha. on_ok Ha. apply check_reg_ok in Hc as [Hlt _].
  apply rbind_ok in Ha as (r & Hread & Ha).
  destruct (read_reg_ok _ _ _ _ _ Hd Hdst Hread) as (_ & _ & _ & Hw & v & Hrv & _ & Hv).
  destruct r as [|d| | | | | | | |]; try discriminate Ha. destruct v as [x| | | |]; try done.
  injection Ha as <-. unfold concrete_neg. rewrite Hrv. cbn [rbind].
  pose proof Hv as [(Hxu & _) _].
  pose proof (alu_value_u64 Neg w x 0 Hxu ltac:(lia)) as Hu.
  apply described_set; [done|lia|..]; cbn [reg_wf value_in].
  - destruct (bounds_is_constant d); [apply bounds_constant_wf, as_i64_range|apply bounds_unknown_wf].
  - destruct (bounds_is_constant d) eqn:Hk; [|by apply bounds_unknown_mem].
    destruct (is_constant_mem d x Hw Hv Hk) as (<- & _).
    apply bounds_constant_mem; [apply as_i64_range|]. by rewrite as_u64_as_i64.
Qed.

(** * Moves and constants *)

Lemma described_relabel a c r x v :
  described a c -> 0 <= r < 11 -> creg c r = Some v -> reg_wf x -> value_in x v ->
  described (set_reg r x a) c.
Proof.
  intros (Ha & Hc & Hin) Hr Hcr Hw Hv. split; [|split; [done|]].
  - unfold set_reg, set_regs; simpl. by rewrite length_insert.
  - intros r' Hr'. unfold reg, set_reg, set_regs; simpl.
    rewrite lookup_total_insert by lia. destruct (Z.eqb_spec r r') as [<-|]; [|by apply Hin].
    by rewrite Hcr.
Qed.

Lemma with_id_ok b i v : reg_wf (Scalar b) -> value_in (Scalar b) v ->
  reg_wf (Scalar (with_id b i)) /\ value_in (Scalar (with_id b i)) v.
Proof. by destruct v. Qed.

Lemma load_sim pc a c dst r v a' :
  described a c -> 0 <= dst -> reg_wf r -> value_in r v ->
  (let? _ := check_reg pc dst in Ok (set_reg dst r a)) = Ok a' ->
  simulates pc dst a' (concrete_load pc c dst v).
Proof.
  intros Hd Hdst Hw Hv Ha. on_ok Ha. apply check_reg_ok in Hc as [Hlt Hck]. injection Ha as <-.
  unfold concrete_load. rewrite Hck. by apply described_set.
Qed.

Lemma low_word_mem lo hi x : is_i64 lo -> is_i64 hi -> lo <= as_u32 x <= hi ->
  bounds_wf (bounds_from_signed lo hi) /\ bounds_mem (bounds_from_signed lo hi) (as_u32 x).
Proof.
  intros. pose proof (as_u32_range x). destruct (from_signed_mem lo hi (as_u32 x)) as [? Hiff]; try lia.
  split; [done|]. apply Hiff. rewrite as_i64_id by lia. lia.
Qed.

Lemma mov32_reg_sim pc a c dst src a' :
  described a c -> 0 <= dst -> 0 <= src -> mov32_reg pc a dst src = Ok a' ->
  simulates pc dst a' (concrete_mov32_reg pc c dst src).
Proof.
  intros Hd Hdst Hsrc Ha. unfold mov32_reg in Ha. on_ok Ha. apply check_reg_ok in Hc as [Hlt Hck].
  apply rbind_ok in Ha as (b & Hrs & Ha). injection Ha as <-.
  destruct (read_scalar_ok _ _ _ _ _ Hd Hsrc Hrs) as (_ & _ & Hbw & y & Hy & Hym).
  unfold concrete_mov32_reg. rewrite Hck, Hy. cbn [rbind]. pose proof (as_u32_range y).
  match goal with |- simulates _ _ (set_reg _ (Scalar ?B) _) _ =>
    assert (bounds_wf B /\ bounds_mem B (as_u32 y)) as [] end; [|by apply described_set].
  destruct (bounds_is_constant b) eqn:Hk; [|apply low_word_mem; lia].
  assert (umax b = y) as -> by (destruct Hym as [(_ & _ & Hu & _) _];
    unfold bounds_is_constant in Hk; bool_hyps; lia).
  change 0xffffffff with (Z.ones 32). rewrite Z.land_ones by lia.
  change (y mod 2 ^ 32) with (as_u32 y). rewrite as_i64_id by lia. apply low_word_mem; lia.
Qed.

Lemma mov_reg_sim pc a c dst src a' :
  described a c -> 0 <= dst -> 0 <= src -> mov_reg pc a dst src = Ok a' ->
  simulates pc dst a' (concrete_mov_reg pc c dst src).
Proof.
  intros Hd Hdst Hsrc Ha. unfold mov_reg in Ha. on_ok Ha. apply check_reg_ok in Hc as [Hlt Hck].
  apply rbind_ok in Ha as (r & Hread & Ha).
  destruct (read_reg_ok _ _ _ _ _ Hd Hsrc Hread) as (Hslt & _ & _ & Hw & v & Hrv & Hcr & Hv).
  unfold concrete_mov_reg. rewrite Hck, Hrv. cbn [rbind].
  assert (Hcopy : described (set_reg dst r a) (set_creg dst v c)) by (by apply described_set).
  destruct r; try (injection Ha as <-; exact Hcopy).
  destruct (_ && _); injection Ha as <-; [|exact Hcopy].
  destruct (with_id_ok bounds (pc + 1) v Hw Hv).
  apply described_set; [by apply (described_relabel a c src _ v)|done|done|done].
Qed.

(** * The register instructions together *)

Lemma ld_map_value_wf off : is_i32 off -> 0 <= off ->
  interval_wf (as_i32 off) (as_i32 off) (as_u8 (off mod 8)) /\
  offset_in (as_i32 off) (as_i32 off) (as_u8 (off mod 8)) off.
Proof.
  intros. assert (as_i32 off = off) as -> by (unfold as_i; case_tests; div_lia).
  unfold interval_wf, offset_in, as_u.
  split; [split_and!; try lia; left; div_lia|]. right. split; [lia|]. right. div_lia.
Qed.

Lemma step_reg_covers pc a c insn r :
  described a c -> operands_wf insn = true -> reg_step_covered a insn = true ->
  step_reg pc a insn = Some r ->
  exists res, concrete_step_reg pc c insn = Some res /\
    forall a', r = Ok a' -> simulates pc (insn_dst insn) a' res.
Proof.
  intros Hd Hwf Hcov Hs. unfold operands_wf in Hwf.
  destruct insn; try discriminate Hs; injection Hs as <-; (eexists; split; [reflexivity|]); intros a' Ha;
    unfold insn_wf in Hwf; cbn [encode_fields] in Hwf; cbn [reg_step_covered] in Hcov;
    rewrite ?andb_true_iff, ?in_range_iff, ?Z.leb_le in Hwf; destruct_and? Hwf; cbn [insn_dst encode_fields];
  lazymatch goal with
  | |- simulates _ _ _ (concrete_alu_imm _ _ _ _ _ _) => apply (alu_imm_sim pc a); (done || lia)
  | |- simulates _ _ _ (concrete_alu_reg _ _ _ _ _ _) => apply (alu_reg_sim pc a); (done || lia)
  | |- simulates _ _ _ (concrete_neg _ _ _ _) => apply (alu_neg_sim pc a); (done || lia)
  | |- simulates _ _ _ (concrete_mov_reg _ _ _ _) => apply (mov_reg_sim pc a); (done || lia)
  | |- simulates _ _ _ (concrete_mov32_reg _ _ _ _) => apply (mov32_reg_sim pc a); (done || lia)
  | |- simulates _ _ _ (concrete_mul_high _ _ _ _ _) => apply (mul_imm_sim pc a); (done || lia)
  | |- simulates _ _ _ (concrete_mul_high_reg _ _ _ _ _) => apply (mul_reg_sim pc a); (done || lia)
  | |- simulates _ _ _ (Ok _) => by injection Ha as <-
  | |- simulates _ _ _ (concrete_load _ _ ?dst (CScalar (as_u32 ?imm))) =>
      destruct (low_word_mem 0 (as_u32 imm) imm); [lia|pose proof (as_u32_range imm); lia..|];
      by apply (load_sim pc a c dst (Scalar (bounds_from_signed 0 (as_u32 imm))))
  | |- simulates _ _ _ (concrete_load _ _ ?dst (CScalar (as_u64 ?imm))) =>
      apply (load_sim pc a c dst (Scalar (bounds_constant imm))); try (done || lia);
      [apply bounds_constant_wf; lia|apply bounds_constant_mem; [lia|done]]
  | |- simulates _ _ _ (concrete_load _ _ ?dst (CScalar ?imm)) =>
      apply (load_sim pc a c dst (Scalar (bounds_constant (as_i64 imm)))); try (done || lia);
      [apply bounds_constant_wf, as_i64_range
      |apply bounds_constant_mem; [apply as_i64_range|by rewrite as_u64_as_i64 by lia]]
  | H : ld_map_fd _ _ ?dst ?key_size ?value_size ?map_type = _ |- _ =>
      by apply (load_sim pc a c dst (PtrToMap key_size value_size map_type))
  | H : ld_map_value _ _ ?dst ?offset ?value_size = _ |- _ =>
      destruct (ld_map_value_wf offset ltac:(lia) ltac:(lia));
      apply (load_sim pc a c dst
        (PtrToMapValue (as_i32 offset) (as_i32 offset) (as_u8 (offset mod 8)) value_size 0));
      try (done || lia); split; [lia|done]
  end.
Qed.

(** * The executable coverage test *)

Definition narrow (r : RegState) : Prop :=
  match r with
  | PtrToStack mn mx _ _ | PtrToMapValue mn mx _ _ _ => ~ wide mn mx
  | _ => True
  end.

Lemma offset_in_covers mn mx al o :
  ~ wide mn mx -> offset_in mn mx al o -> offset_covers mn mx al o = true.
Proof.
  intros Hn [|[Hin Hal]]; [done|]. unfold offset_covers.
  rewrite !andb_true_iff, orb_true_iff, !Z.leb_le, !Z.eqb_eq. split; [lia|].
  destruct Hal as [|<-]; [by left|right]. unfold as_u. div_lia.
Qed.

Lemma scalar_in_covers b x : bounds_mem b x -> scalar_covers b x = true.
Proof.
  intros [(Hx & Hs & Hu & [_ Ht]) _]. unfold scalar_covers. destruct (negb (precise b)); [done|].
  rewrite Ht, !andb_true_iff, !Z.leb_le. split_and!; (lia || done).
Qed.

Lemma value_in_covers r v : value_in r v -> narrow r -> abstract_covers r v = true.
Proof.
  intros Hv Hn. destruct r; destruct v as [x|addr fr|x|fd [k|] o|x]; cbn [value_in narrow] in *;
    try done; cbn [abstract_covers].
  - by apply scalar_in_covers.
  - destruct Hv as (_ & _ & Hv). by apply offset_in_covers.
  - by apply Z.eqb_eq.
  - destruct Hv as [_ Hv]. by apply offset_in_covers.
  - by subst.
  - rewrite andb_true_iff, orb_true_iff, Z.leb_le, Z.eqb_eq, Z.ltb_lt. done.
  - by subst.
  - by subst.
Qed.

Lemma described_regs_cover a c :
  described a c -> (forall r, 0 <= r < 11 -> narrow (reg a r)) ->
  forallb (fun p => reg_covers (fst p) (snd p)) (combine (regs a) (cregs c)) = true.
Proof.
  intros (Ha & Hc & Hin) Hn. apply forallb_forall. intros [r v] Hp.
  apply (In_nth _ _ (Uninit, None)) in Hp as (i & Hi & Heq).
  rewrite length_combine, Ha, Hc in Hi. rewrite combine_nth in Heq by congruence.
  injection Heq as Hr Hv. specialize (Hin (Z.of_nat i) ltac:(lia)). specialize (Hn (Z.of_nat i) ltac:(lia)).
  unfold reg, creg in *. rewrite Nat2Z.id in *.
  rewrite list_lookup_total_alt in Hin, Hn. rewrite list_lookup_total_alt in Hin.
  rewrite nth_lookup in Hr. rewrite nth_lookup in Hv. cbn [fst snd].
  destruct (lookup_lt_is_Some_2 (regs a) i ltac:(lia)) as [r' Hr'].
  destruct (lookup_lt_is_Some_2 (cregs c) i ltac:(lia)) as [v' Hv'].
  rewrite Hr' in *. rewrite Hv' in *. cbn [default from_option id] in *. subst.
  destruct Hin as [_ Hin]. unfold reg_covers. destruct v' as [v|]; [|by apply bool_decide_eq_true].
  by apply value_in_covers.
Qed.

(** Register instructions change the register file only. *)
Definition same_but_regs (a a' : VerifierState) : Prop := exists f, a' = set_regs f a.
Definition same_but_cregs (c c' : ConcreteState) : Prop :=
  cstack c' = cstack c /\ csaved c' = csaved c /\ ccurframe c' = ccurframe c /\
  cret_pc c' = cret_pc c /\ cprog_type c' = cprog_type c.

Lemma set_reg_frame r v a : same_but_regs a (set_reg r v a).
Proof. by eexists. Qed.
Lemma set_reg_frame2 r v r' v' a : same_but_regs a (set_reg r v (set_reg r' v' a)).
Proof. by exists (fun rs => <[Z.to_nat r := v]> (<[Z.to_nat r' := v']> rs)). Qed.

Lemma frame_refl a : same_but_regs a a.
Proof. by exists (fun rs => rs); destruct a. Qed.

Ltac frame_of H :=
  cbv zeta in H;
  repeat first [apply rbind_ok in H as (? & _ & H) | case_match; try discriminate H];
  first [by eauto | injection H as <-; (apply set_reg_frame || apply set_reg_frame2 || apply frame_refl)].

Lemma add_stack_frame pc dst mn mx al fr b a a' :
  add_scalar_to_stack_ptr pc dst mn mx al fr b a = Ok a' -> same_but_regs a a'.
Proof. intros H. unfold add_scalar_to_stack_ptr in H. frame_of H. Qed.
Lemma add_map_value_frame pc dst mn mx al vs b a a' :
  add_scalar_to_map_value_ptr pc dst mn mx al vs b a = Ok a' -> same_but_regs a a'.
Proof. intros H. unfold add_scalar_to_map_value_ptr in H. frame_of H. Qed.
Lemma ctx_frame pc dst off b ng a a' : ctx_plus_scalar pc dst off b ng a = Ok a' -> same_but_regs a a'.
Proof. intros H. unfold ctx_plus_scalar in H. frame_of H. Qed.
#[local] Hint Resolve add_stack_frame add_map_value_frame ctx_frame : core.

Lemma alu_imm_frame pc a dst imm op w a' : alu_imm pc a dst imm op w = Ok a' -> same_but_regs a a'.
Proof. intros H. unfold alu_imm in H. frame_of H. Qed.
Lemma alu_reg_frame pc a dst src op w a' : alu_reg pc a dst src op w = Ok a' -> same_but_regs a a'.
Proof. intros H. unfold alu_reg, scalar_alu_reg in H. frame_of H. Qed.
#[local] Hint Resolve alu_imm_frame alu_reg_frame : core.

Lemma step_reg_frame pc a insn a' : step_reg pc a insn = Some (Ok a') -> same_but_regs a a'.
Proof.
  intros Hs. destruct insn; try discriminate Hs; injection Hs as Hs; try (by eauto);
    unfold mov_imm, mov_reg, mov32_imm, mov32_reg, mul_imm, mul_reg, alu_neg, ld_imm64, ld_map_fd, ld_map_value in Hs;
    first [frame_of Hs | subst; apply frame_refl].
Qed.

Lemma set_creg_frame r v c : same_but_cregs c (set_creg r v c).
Proof. by repeat split. Qed.
#[local] Hint Resolve set_creg_frame : core.

Ltac cframe_of H :=
  cbv zeta in H;
  repeat first [apply rbind_ok in H as (? & _ & H) | case_match; try discriminate H];
  first [by eauto | injection H as <-; (apply set_creg_frame || by repeat split)].

Lemma concrete_alu_imm_frame pc c dst imm op w c' :
  concrete_alu_imm pc c dst imm op w = Ok c' -> same_but_cregs c c'.
Proof. intros H. unfold concrete_alu_imm in H. cframe_of H. Qed.
Lemma concrete_alu_reg_frame pc c dst src op w c' :
  concrete_alu_reg pc c dst src op w = Ok c' -> same_but_cregs c c'.
Proof. intros H. unfold concrete_alu_reg in H. cframe_of H. Qed.
#[local] Hint Resolve concrete_alu_imm_frame concrete_alu_reg_frame : core.

Lemma concrete_step_reg_frame pc c insn c' :
  concrete_step_reg pc c insn = Some (Ok c') -> same_but_cregs c c'.
Proof.
  intros Hs. destruct insn; try discriminate Hs; injection Hs as Hs; try (by eauto);
    unfold concrete_load, concrete_mov_reg, concrete_mov32_reg, concrete_mul_high, concrete_mul_high_reg,
      concrete_neg in Hs; first [cframe_of Hs | subst; by repeat split].
Qed.

(** * Calls *)

(** The saved frames below the current depth describe each other, with equal
    return addresses. *)
Definition frame_described (f : FrameState) (g : ConcreteFrame) : Prop :=
  length (frame_regs f) = 11%nat /\ length (cframe_regs g) = 11%nat /\
  frame_ret_pc f = cframe_ret_pc g /\
  (forall r, (r < 11)%nat ->
     reg_wf (frame_regs f !!! r) /\ option_in (frame_regs f !!! r) (cframe_regs g !!! r)).

Definition linked (a : VerifierState) (c : ConcreteState) : Prop :=
  described a c /\ curframe a = ccurframe c /\ ret_pc a = cret_pc c /\ 0 <= curframe a <= 15 /\
  length (saved a) = 15%nat /\ length (csaved c) = 15%nat /\
  (forall i, (i < 15)%nat -> Z.of_nat i < curframe a ->
     exists f g, saved a !! i = Some (Some f) /\ csaved c !! i = Some (Some g) /\ frame_described f g).

Lemma described_iff a c :
  described a c <->
  length (regs a) = 11%nat /\ length (cregs c) = 11%nat /\
  (forall r, (r < 11)%nat -> reg_wf (regs a !!! r) /\ option_in (regs a !!! r) (cregs c !!! r)).
Proof.
  unfold described, reg, creg. split; intros (Ha & Hc & Hin); (split_and!; [done|done|]); intros r Hr.
  - rewrite <- (Nat2Z.id r). apply Hin. lia.
  - apply Hin. lia.
Qed.

(** Pointwise description of two register files of eleven registers. *)
Lemma callee_described rs crs d :
  length rs = 11%nat -> length crs = 11%nat ->
  (forall r, (r < 11)%nat -> reg_wf (rs !!! r) /\ option_in (rs !!! r) (crs !!! r)) ->
  length (callee_regs (take 5 (drop 1 rs)) d) = 11%nat /\
  length (ccallee_regs (take 5 (drop 1 crs)) d) = 11%nat /\
  forall r, (r < 11)%nat ->
    reg_wf (callee_regs (take 5 (drop 1 rs)) d !!! r) /\
    option_in (callee_regs (take 5 (drop 1 rs)) d !!! r) (ccallee_regs (take 5 (drop 1 crs)) d !!! r).
Proof.
  intros Ha Hc Hin. reg_file rs Ha. reg_file crs Hc. split_and!; [done|done|]. intros i Hi.
  pose proof (Hin 1%nat ltac:(lia)). pose proof (Hin 2%nat ltac:(lia)). pose proof (Hin 3%nat ltac:(lia)).
  pose proof (Hin 4%nat ltac:(lia)). pose proof (Hin 5%nat ltac:(lia)). clear Hin.
  do 10 (destruct i as [|i]; [done|]). destruct i as [|i]; [|lia].
  split; [cbn; unfold interval_wf; lia|]. split_and!; [done|done|done|].
  right. change (0 <= 0 <= 0 /\ (0 = ALIGN_UNKNOWN \/ 0 mod 8 = 0)). split; [lia|by right].
Qed.

Lemma restored_described rs crs ret cret :
  length rs = 11%nat -> length crs = 11%nat -> reg_wf ret -> option_in ret cret ->
  (forall r, (r < 11)%nat -> reg_wf (rs !!! r) /\ option_in (rs !!! r) (crs !!! r)) ->
  let rs' := <[0%nat := ret]> (clobber_args rs) in
  let crs' := <[0%nat := cret]> (take 1 crs ++ replicate 5 None ++ drop 6 crs) in
  length rs' = 11%nat /\ length crs' = 11%nat /\
  forall r, (r < 11)%nat -> reg_wf (rs' !!! r) /\ option_in (rs' !!! r) (crs' !!! r).
Proof.
  intros Ha Hc Hw Hv Hin. reg_file rs Ha. reg_file crs Hc. split_and!; [done|done|]. intros i Hi.
  pose proof (Hin 6%nat ltac:(lia)). pose proof (Hin 7%nat ltac:(lia)). pose proof (Hin 8%nat ltac:(lia)).
  pose proof (Hin 9%nat ltac:(lia)). pose proof (Hin 10%nat ltac:(lia)). clear Hin.
  do 11 (destruct i as [|i]; [done|]). lia.
Qed.

Lemma call_linked a c pc :
  linked a c ->
  match call_subprog a pc, ccall_subprog c pc with
  | Ok a', Ok c' => linked a' c'
  | Err _, Err e => e = ConcreteFailure.InternalError 0 /\ curframe a = 15
  | _, _ => False
  end.
Proof.
  intros (Hd & Hcur & Hret & Hr & Hla & Hlc & Hs). unfold call_subprog, ccall_subprog. rewrite <- Hcur.
  destruct (Z.leb_spec (MAX_CALL_FRAMES - 1) (curframe a)); [split; [done|lia]|].
  apply described_iff in Hd as (Ha & Hc & Hin). unfold linked. cbn [curframe ccurframe ret_pc cret_pc saved csaved].
  rewrite !length_insert. split_and!; try done; try lia.
  - apply described_iff. cbn [regs cregs]. by apply callee_described.
  - intros i Hi Hlt. destruct (decide (i = Z.to_nat (curframe a))) as [->|Hne].
    + do 2 eexists. rewrite !list_lookup_insert_eq by lia. split_and!; [reflexivity|reflexivity|done..].
    + rewrite !list_lookup_insert_ne by done. apply Hs; lia.
Qed.

Lemma return_linked a c :
  linked a c ->
  match return_from_subprog a, creturn_from_subprog c with
  | Some a', Some c' => linked a' c'
  | None, None => curframe a = 0
  | _, _ => False
  end.
Proof.
  intros (Hd & Hcur & Hret & Hr & Hla & Hlc & Hs). unfold return_from_subprog, creturn_from_subprog.
  rewrite <- Hcur. destruct (Z.eqb_spec (curframe a) 0) as [|Hnz]; [done|].
  destruct (Hs (Z.to_nat (curframe a - 1)) ltac:(lia) ltac:(lia)) as (f & g & -> & -> & Hl & Hlg & Hpc & Hfg).
  apply described_iff in Hd as (Ha & Hc & Hin). destruct (Hin 0%nat ltac:(lia)) as [Hw0 Hv0].
  unfold linked. cbn [curframe ccurframe ret_pc cret_pc saved csaved].
  rewrite !length_insert. split_and!; try done; try lia.
  - apply described_iff. cbn [regs cregs]. by apply restored_described.
  - intros i Hi Hlt. rewrite !list_lookup_insert_ne by lia. apply Hs; lia.
Qed.

Lemma initial_linked p : linked (initial_with p) (cinitial_with p).
Proof.
  unfold linked. split_and!; try done; try (intros; simpl in *; lia); try (simpl; lia).
  apply described_iff. split_and!; [done|done|]. intros i Hi.
  do 10 (destruct i as [|i]; [done|]). destruct i as [|i]; [|lia].
  split; [cbn; unfold interval_wf; lia|]. split_and!; [done|done|done|].
  right. change (0 <= 0 <= 0 /\ (0 = ALIGN_UNKNOWN \/ 0 mod 8 = 0)). split; [lia|by right].
Qed.

(** * Properties *)

(** The register instructions of the verifier are sound for the concrete
    machine.  When every concrete register is described by the abstract one and
    the verifier accepts the instruction, the concrete instruction succeeds in a
    state again described by the verifier's result, the rest of the machine
    unchanged on both sides; the one exception is a map-value offset that
    overflows 64 bits while its tracked interval is too wide to be accessed. *)
Theorem step_reg_simulates (pc : Z) (a a' : VerifierState) (c : ConcreteState) (insn : BpfInsn) :
  described a c -> operands_wf insn = true -> reg_step_covered a insn = true ->
  step_reg pc a insn = Some (Ok a') ->
  exists res, concrete_step_reg pc c insn = Some res /\
    (exists f, a' = set_regs f a) /\
    match res with
    | Ok c' => described a' c' /\ cstack c' = cstack c /\ csaved c' = csaved c /\
               ccurframe c' = ccurframe c /\ cret_pc c' = cret_pc c /\ cprog_type c' = cprog_type c
    | Err e => e = ConcreteFailure.PointerArithmetic pc (insn_dst insn) /\ map_result_wide (reg a' (insn_dst insn))
    end.
Proof.
  intros Hd Hwf Hcov Hs. destruct (step_reg_covers pc a c insn _ Hd Hwf Hcov Hs) as (res & Hres & Hsim).
  exists res. split; [done|]. split; [by apply (step_reg_frame pc a insn)|].
  specialize (Hsim a' eq_refl). destruct res as [c'|e]; [|exact Hsim].
  split; [exact Hsim|]. by apply (concrete_step_reg_frame pc c insn).
Qed.

Lemma step_reg_simulates_witness :
  exists a' c', step_reg 3 initial (BpfInsn.MovReg 2 10) = Some (Ok a') /\
    concrete_step_reg 3 (cinitial_with ProgType.SocketFilter) (BpfInsn.MovReg 2 10) = Some (Ok c') /\
    described a' c'.
Proof.
  destruct (step_reg 3 initial (BpfInsn.MovReg 2 10)) as [[a'|]|] eqn:E; try discriminate E.
  destruct (step_reg_simulates 3 initial a' (cinitial_with ProgType.SocketFilter) (BpfInsn.MovReg 2 10))
    as (res & Hres & _ & Hd); [apply initial_linked|reflexivity|reflexivity|exact E|].
  injection Hres as <-. exists a'. eexists. split; [reflexivity|]. split; [reflexivity|]. apply Hd.
Defined.

(** The executable coverage test of the cross-check raises no false alarm on
    a register instruction: from described states that pass it, the states after
    the instruction pass it too, as long as no resulting pointer offset interval
    is wide. *)
Theorem cross_check_preserved (pc : Z) (a a' : VerifierState) (c c' : ConcreteState) (insn : BpfInsn) :
  described a c -> operands_wf insn = true -> reg_step_covered a insn = true ->
  step_reg pc a insn = Some (Ok a') -> concrete_step_reg pc c insn = Some (Ok c') ->
  (forall r, 0 <= r < 11 -> narrow (reg a' r)) ->
  state_covers a c = true -> state_covers a' c' = true.
Proof.
  intros Hd Hwf Hcov Hs Hc Hn Hst.
  destruct (step_reg_covers pc a c insn _ Hd Hwf Hcov Hs) as (res & Hres & Hsim).
  rewrite Hc in Hres. injection Hres as <-. specialize (Hsim a' eq_refl).
  destruct (concrete_step_reg_frame pc c insn c' Hc) as (Hcs & _).
  destruct (step_reg_frame pc a insn a' Hs) as [f ->].
  unfold state_covers in *. apply andb_true_iff in Hst as [_ Hslots]. apply andb_true_iff.
  split; [by apply described_regs_cover|]. by rewrite Hcs.
Qed.

Lemma cross_check_preserved_witness :
  exists a' c', step_reg 3 initial (BpfInsn.AddImm 10 (-8)) = Some (Ok a') /\
    concrete_step_reg 3 (cinitial_with ProgType.SocketFilter) (BpfInsn.AddImm 10 (-8)) = Some (Ok c') /\
    state_covers a' c' = true.
Proof.
  destruct (step_reg 3 initial (BpfInsn.AddImm 10 (-8))) as [[a'|]|] eqn:E; try discriminate E.
  destruct (concrete_step_reg 3 (cinitial_with ProgType.SocketFilter) (BpfInsn.AddImm 10 (-8)))
    as [[c'|]|] eqn:Ec; try discriminate Ec.
  exists a', c'. split; [reflexivity|]. split; [reflexivity|].
  apply (cross_check_preserved 3 initial a' (cinitial_with ProgType.SocketFilter) c' (BpfInsn.AddImm 10 (-8)));
    try reflexivity; [apply initial_linked|exact E|exact Ec|].
  injection E as <-. intros r Hr.
  assert (Hr' : r = 0 \/ r = 1 \/ r = 2 \/ r = 3 \/ r = 4 \/ r = 5 \/ r = 6 \/ r = 7 \/ r = 8 \/ r = 9 \/ r = 10) by lia.
  repeat (destruct Hr' as [->|Hr']; [exact I|]); subst; change (~ wide (-8) (-8)); unfold wide; lia.
Defined.

(** BPF-to-BPF calls and returns keep the two machines in step: the call
    fails on both sides exactly at depth 15, the return exactly outside a
    subprogram, and otherwise the registers, the depth, the return address and
    every saved frame of the two results describe each other again. *)
Theorem calls_simulate (a : VerifierState) (c : ConcreteState) (pc : Z) (p : ProgType) :
  linked (initial_with p) (cinitial_with p) /\
  (linked a c ->
   match call_subprog a pc, ccall_subprog c pc with
   | Ok a', Ok c' => linked a' c'
   | Err _, Err e => e = ConcreteFailure.InternalError 0 /\ curframe a = 15
   | _, _ => False
   end /\
   match return_from_subprog a, creturn_from_subprog c with
   | Some a', Some c' => linked a' c'
   | None, None => curframe a = 0
   | _, _ => False
   end).
Proof. split; [apply initial_linked|]. intros. split; [by apply call_linked|by apply return_linked]. Qed.

Lemma calls_simulate_witness :
  exists a' c', call_subprog initial 5 = Ok a' /\
    ccall_subprog (cinitial_with ProgType.SocketFilter) 5 = Ok c' /\ linked a' c'.
Proof.
  destruct (calls_simulate initial (cinitial_with ProgType.SocketFilter) 5 ProgType.SocketFilter) as [Hi H].
  destruct (H Hi) as [Hc _].
  destruct (call_subprog initial 5) as [a'|] eqn:E; [|discriminate E].
  destruct (ccall_subprog (cinitial_with ProgType.SocketFilter) 5) as [c'|] eqn:Ec; [|discriminate Ec].
  exists a', c'. split; [reflexivity|]. split; [reflexivity|exact Hc].
Defined.

(** A run of register instructions on both machines. *)
Definition run_reg (a : VerifierState) (insns : list BpfInsn) : option VerifierState :=
  fold_left (fun o insn => match o with
    | Some s => match step_reg 0 s insn with Some (Ok s') => Some s' | _ => None end
    | None => None end) insns (Some a).
Definition concrete_run_reg (c : ConcreteState) (insns : list BpfInsn) : option ConcreteState :=
  fold_left (fun o insn => match o with
    | Some s => match concrete_step_reg 0 s insn with Some (Ok s') => Some s' | _ => None end
    | None => None end) insns (Some c).

(** Both machines along the same instructions: register [r] of each at the end
    and whether the coverage test accepts the pair. *)
Definition outcome (a : VerifierState) (c : ConcreteState) (insns : list BpfInsn) (r : Z)
  : option (RegState * option ConcreteValue * bool) :=
  match run_reg a insns, concrete_run_reg c insns with
  | Some a', Some c' => Some (reg a' r, creg c' r, state_covers a' c')
  | _, _ => None
  end.

(** Nine times plus 2^28 - 1, then seven times minus. *)
Definition saturating_walk : list BpfInsn :=
  replicate 9 (BpfInsn.AddImm 1 0xfffffff) ++ replicate 7 (BpfInsn.SubImm 1 0xfffffff).

(** The shapes the simulation excludes are unsound.  An unknown alignment is
    stored as 255 and an addition computes with it, so that a stack pointer at
    -15 of unknown alignment becomes one at -14 claimed to be a multiple of 8
    after adding 1; the offset of a context pointer saturates at the 32-bit
    limit without an error, so that adding 2^28 - 1 nine times and subtracting
    it seven times leaves a tracked offset below the true one. *)
Theorem pointer_arithmetic_gaps :
  (let a := set_reg 1 (PtrToStack (-16) (-9) ALIGN_UNKNOWN 0) initial in
   let c := set_creg 1 (StackPtr (STACK_BASE - 15) 0) (cinitial_with ProgType.SocketFilter) in
   described a c /\ state_covers a c = true /\
   outcome a c [BpfInsn.AddImm 1 1] 1 =
     Some (PtrToStack (-15) (-8) 0 0, Some (StackPtr (STACK_BASE - 14) 0), false)) /\
  outcome initial (cinitial_with ProgType.SocketFilter) saturating_walk 1 =
    Some (PtrToCtx 268435462, Some (CtxPtr (CTX_BASE + 2 * 0xfffffff)), false).
Proof.
  split; [|by vm_compute]. cbv zeta. split; [|split; by vm_compute].
  apply described_set; [apply initial_linked|lia|cbn; unfold interval_wf; lia|].
  split_and!; [done|done|done|]. right.
  change (-16 <= -15 <= -9 /\ (ALIGN_UNKNOWN = 255 \/ (-15) mod 8 = 255)).
  split; [lia|by left].
Qed.

(** The frame pointer is documented as read-only, but every register
    instruction may write it: the verifier accepts [r10 = 0], which leaves the
    scalar 0 in R10, and [r10 += -8], which leaves a pointer below the frame
    base. *)
Theorem frame_pointer_writable :
  outcome initial (cinitial_with ProgType.SocketFilter) [BpfInsn.MovImm 10 0] 10 =
    Some (Scalar (bounds_constant 0), Some (CScalar 0), true) /\
  outcome initial (cinitial_with ProgType.SocketFilter) [BpfInsn.AddImm 10 (-8)] 10 =
    Some (PtrToStack (-8) (-8) 0 0, Some (StackPtr (STACK_BASE - 8) 0), true).
Proof. by vm_compute. Qed.
