(* ===== verification/StateEq.v ===== *)
(** State comparison for pruning (src/src/state_eq.rs): the comparison of two
    registers, two stacks and two states, the map between their identities, and
    the cleaning of dead registers and slots.  A comparison that fails makes
    every caller return [false] and drop the map, so a check is a function from
    the map to [option IdMap].  The theorems: an explored register that passes
    contains the current one, the identities are related one to one, every
    state passes against itself, and cleaning forgets exactly the dead parts. *)
From Stdlib Require Import ZArith Lia List Bool.
From stdpp Require Import base option list.
From S2P Require Import Prelude Tnum Bounds Ctx State Concrete Sim.
Open Scope Z_scope.


Inductive ExactLevel := NotExact | Exact.
#[global] Instance exact_level_eq_dec : EqDecision ExactLevel.
Proof. solve_decision. Defined.

Definition scalar_range_within (old new : ScalarBounds) : bool :=
  (smin old <=? smin new) && (smax new <=? smax old) &&
  (umin old <=? umin new) && (umax new <=? umax old) &&
  (s32_min old <=? s32_min new) && (s32_max new <=? s32_max old) &&
  (u32_min old <=? u32_min new) && (u32_max new <=? u32_max old) &&
  tnum_subsumes (tnum old) (tnum new).

(** * The identity map *)

Record IdMap := mkIdMap { pairs : list (Z * Z); tmp_id_gen : Z }.
Definition idmap_default : IdMap := mkIdMap [] 0.

(** The first pair that holds either identity decides; [None]: no pair does. *)
Fixpoint scan_pairs (ps : list (Z * Z)) (old_id cur_id : Z) : option bool :=
  match ps with
  | [] => None
  | (old, cur) :: ps =>
      if old =? old_id then Some (cur =? cur_id)
      else if cur =? cur_id then Some false
      else scan_pairs ps old_id cur_id
  end.

Definition check_ids (m : IdMap) (old_id cur_id : Z) : option IdMap :=
  if negb (Bool.eqb (old_id =? 0) (cur_id =? 0)) then None
  else if old_id =? 0 then Some m
  else
    match scan_pairs (pairs m) old_id cur_id with
    | Some true => Some m
    | Some false => None
    | None => Some (mkIdMap (pairs m ++ [(old_id, cur_id)]) (tmp_id_gen m))
    end.

Definition check_scalar_ids (m : IdMap) (old_id cur_id : Z) : option IdMap :=
  if old_id =? 0 then Some m
  else if cur_id =? 0 then
    let t := tmp_id_gen m + 1 in check_ids (mkIdMap (pairs m) t) old_id t
  else check_ids m old_id cur_id.

(** * Registers *)

Definition scalar_bounds_exact (a b : ScalarBounds) : bool :=
  (smin a =? smin b) && (smax a =? smax b) && (umin a =? umin b) && (umax a =? umax b) &&
  (s32_min a =? s32_min b) && (s32_max a =? s32_max b) &&
  (u32_min a =? u32_min b) && (u32_max a =? u32_max b) && bool_decide (tnum a = tnum b).

Definition regs_exact (old new : RegState) : bool :=
  match old, new with
  | Uninit, Uninit => true
  | Scalar a, Scalar b => scalar_bounds_exact a b
  | PtrToStack a_min a_max a_align a_frame, PtrToStack b_min b_max b_align b_frame =>
      (a_min =? b_min) && (a_max =? b_max) && (a_align =? b_align) && (a_frame =? b_frame)
  | PtrToCtx a, PtrToCtx b => a =? b
  | PtrToMap a_key a_val _, PtrToMap b_key b_val _ => (a_key =? b_key) && (a_val =? b_val)
  | PtrToMapValue a_min a_max a_align a_size _, PtrToMapValue b_min b_max b_align b_size _ =>
      (a_min =? b_min) && (a_max =? b_max) && (a_align =? b_align) && (a_size =? b_size)
  | PtrToMapValueOrNull a_size _, PtrToMapValueOrNull b_size _ => a_size =? b_size
  | _, _ => false
  end.

Definition check_reg_ids (m : IdMap) (old new : RegState) : option IdMap :=
  match old, new with
  | Scalar a, Scalar b => check_scalar_ids m (id a) (id b)
  | PtrToMapValue _ _ _ _ a, PtrToMapValue _ _ _ _ b => check_ids m a b
  | PtrToMapValueOrNull _ a, PtrToMapValueOrNull _ b => check_ids m a b
  | PtrToMem _ _ _ a _, PtrToMem _ _ _ b _ => check_ids m a b
  | PtrToMemOrNull a ap _, PtrToMemOrNull b bp _ => m ← check_ids m a b; check_ids m ap bp
  | PtrToBtfId _ a, PtrToBtfId _ b => check_ids m a b
  | _, _ => Some m
  end.

(** [if b then k else false], on maps. *)
Definition when (b : bool) (k : option IdMap) : option IdMap := if b then k else None.

Definition regsafe (old new : RegState) (exact : ExactLevel) (m : IdMap) : option IdMap :=
  if decide (exact = Exact) then when (regs_exact old new) (check_reg_ids m old new)
  else if decide (old = Uninit) then Some m
  else
    match old, new with
    | Scalar old_b, Scalar new_b =>
        if negb (precise old_b) && bool_decide (exact = NotExact) then Some m
        else
          when (((delta old_b =? delta new_b) || (id old_b =? 0)) && scalar_range_within old_b new_b)
            (check_scalar_ids m (id old_b) (id new_b))
    | PtrToStack _ _ _ _, PtrToStack _ _ _ _ => when (bool_decide (old = new)) (Some m)
    | PtrToCtx a, PtrToCtx b => when (a =? b) (Some m)
    | PtrToMap _ _ _, PtrToMap _ _ _ => when (bool_decide (old = new)) (Some m)
    | PtrToMapValue old_min old_max old_align old_size old_id,
      PtrToMapValue new_min new_max new_align new_size new_id =>
        when ((old_size =? new_size) && (old_min <=? new_min) && (new_max <=? old_max) &&
              ((old_align =? new_align) || (old_align =? ALIGN_UNKNOWN)))
          (check_ids m old_id new_id)
    | PtrToMapValueOrNull old_size old_id, PtrToMapValueOrNull new_size new_id =>
        when (old_size =? new_size) (check_ids m old_id new_id)
    | PtrToMem old_min old_max _ old_id old_parent, PtrToMem new_min new_max _ new_id new_parent =>
        when ((old_min <=? new_min) && (new_max <=? old_max))
          (m ← check_ids m old_id new_id; check_ids m old_parent new_parent)
    | PtrToMemOrNull old_id old_parent old_size, PtrToMemOrNull new_id new_parent new_size =>
        when (old_size =? new_size)
          (m ← check_ids m old_id new_id; check_ids m old_parent new_parent)
    | PtrToBtfId old_btf old_ref, PtrToBtfId new_btf new_ref =>
        when (old_btf =? new_btf) (check_ids m old_ref new_ref)
    | _, _ => None
    end.

(** * Stacks *)

(** The 32-bit view of a spilled scalar. *)
Definition scalar_subreg (s : ScalarBounds) : ScalarBounds :=
  mkBounds (s32_min s) (s32_max s) (u32_min s) (u32_max s) (s32_min s) (s32_max s)
    (u32_min s) (u32_max s) (tnum_subreg (tnum s)) (precise s) (id s) (delta s).

(** All bytes [im .. 7] of slot [spi] have type [x]. *)
Definition slot_tail (st : StackState) (spi im : nat) (x : StackByte) : bool :=
  forallb (fun b => bool_decide (b = x)) (drop im (take 8 (drop (spi * 8) (bytes st)))).

Definition fake_scalar_for_stack (st : StackState) (spi im : nat) : option RegState :=
  if slot_tail st spi im StackByte.Spill then
    match spilled st !!! spi with
    | Some (Scalar s) => if (im =? 0)%nat then Some (Scalar s) else Some (Scalar (scalar_subreg s))
    | _ => None
    end
  else if slot_tail st spi im StackByte.Misc then Some (Scalar bounds_unknown)
  else None.

(** The end of a slot: the dynptr and the spilled register it holds. *)
Definition slot_end_safe (old new : StackState) (exact : ExactLevel) (o : StackByte) (spi : nat)
    (m : IdMap) : option IdMap :=
  if bool_decide (o = StackByte.Dynptr) && negb (bool_decide (dynptr old !!! spi = dynptr new !!! spi))
  then None
  else if decide (o = StackByte.Spill) then
    match spilled old !!! spi, spilled new !!! spi with
    | None, _ => Some m
    | Some _, None => None
    | Some old_spilled, Some new_spilled => regsafe old_spilled new_spilled exact m
    end
  else Some m.

(** The loop over byte [i]; the fuel is the number of bytes left or more. *)
Fixpoint stacksafe_loop (fuel : nat) (old new : StackState) (exact : ExactLevel) (i : nat) (m : IdMap)
  : option IdMap :=
  match fuel with
  | O => Some m
  | S fuel =>
      if (512 <=? i)%nat then Some m
      else
        let o := bytes old !!! i in
        let n := bytes new !!! i in
        let im := (i mod 8)%nat in
        let spi := (i / 8)%nat in
        let next j m := stacksafe_loop fuel old new exact j m in
        if bool_decide (exact = Exact) && negb (bool_decide (o = n)) then None
        else if decide (o = StackByte.Invalid) then next (i + 1)%nat m
        else
          let by_type :=
            if bool_decide (o = StackByte.Misc) && bool_decide (n = StackByte.Zero) then next (i + 1)%nat m
            else if negb (bool_decide (o = n)) then None
            else if (im =? 7)%nat then m ← slot_end_safe old new exact o spi m; next (i + 1)%nat m
            else next (i + 1)%nat m in
          if ((im =? 0) || (im =? 4))%nat then
            match fake_scalar_for_stack old spi im, fake_scalar_for_stack new spi im with
            | Some oreg, Some creg =>
                m ← regsafe oreg creg exact m; next (if (im =? 0)%nat then i + 8 else i + 4)%nat m
            | _, _ => by_type
            end
          else by_type
  end.

Definition stacksafe (old new : StackState) (exact : ExactLevel) (m : IdMap) : option IdMap :=
  stacksafe_loop 512 old new exact 0 m.

(** * States *)

(** [for i in is { if !check(i) { return false } }]. *)
Fixpoint all_safe {A} (check : A -> IdMap -> option IdMap) (l : list A) (m : IdMap) : option IdMap :=
  match l with
  | [] => Some m
  | x :: l => m ← check x m; all_safe check l m
  end.

Definition frame_safe (old new : option FrameState) (exact : ExactLevel) (m : IdMap) : option IdMap :=
  match old, new with
  | None, None => Some m
  | Some a, Some b =>
      m ← all_safe (fun r => regsafe (frame_regs a !!! r) (frame_regs b !!! r) exact) (seq 0 11) m;
      stacksafe (frame_stack a) (frame_stack b) exact m
  | _, _ => None
  end.

Definition live (mask : Z) (r : nat) : bool := Z.testbit mask (Z.of_nat r).

Definition compare_states (old new : VerifierState) (exact : ExactLevel) (live_regs : Z) : option IdMap :=
  if negb (curframe old =? curframe new) then None
  else if negb (refs_cnt old =? refs_cnt new) then None
  else
    m ← all_safe (fun i m => check_ids m (refs old !!! i) (refs new !!! i))
          (seq 0 (Z.to_nat (refs_cnt old))) idmap_default;
    m ← all_safe (fun r m => if live live_regs r then regsafe (regs old !!! r) (regs new !!! r) exact m
                             else Some m) (seq 0 11) m;
    m ← stacksafe (stack old) (stack new) exact m;
    all_safe (fun i => frame_safe (saved old !!! i) (saved new !!! i) exact) (seq 0 15) m.

Definition states_equal (old new : VerifierState) (exact : ExactLevel) (live_regs : Z) : bool :=
  match compare_states old new exact live_regs with Some _ => true | None => false end.

(** Dead registers and dead slots are reset; R10 is kept. *)
Definition clean_regs (live_regs : Z) (rs : list RegState) : list RegState :=
  imap (fun r v => if negb (r =? 10)%nat && negb (live live_regs r) then Uninit else v) rs.
Definition clean_stack (live_stack : Z) (st : StackState) : StackState :=
  mkStack (imap (fun i b => if live live_stack (i / 8) then b else StackByte.Invalid) (bytes st))
    (imap (fun i v => if live live_stack i then v else None) (spilled st))
    (imap (fun i v => if live live_stack i then v else None) (dynptr st)).
Definition clean_state (s : VerifierState) (live_regs live_stack : Z) : VerifierState :=
  mkState (clean_regs live_regs (regs s)) (clean_stack live_stack (stack s)) (saved s) (curframe s)
    (ret_pc s) (refs s) (refs_cnt s) (prog_type s).

Definition states_maybe_looping (old new : VerifierState) : bool :=
  (refs_cnt old =? refs_cnt new) &&
  forallb (fun p => regs_exact (fst p) (snd p)) (combine (regs old) (regs new)).

(** * The identity map is a partial bijection *)

Definition idmap_ok (m : IdMap) : Prop :=
  NoDup (map fst (pairs m)) /\ NoDup (map snd (pairs m)).
(** The map relates two identities; 0 is no identity. *)
Definition maps (m : IdMap) (o c : Z) : Prop :=
  (o = 0 /\ c = 0) \/ (o <> 0 /\ c <> 0 /\ (o, c) ∈ pairs m).
(** A check keeps the pairs and the bijection. *)
Definition grows (m m' : IdMap) : Prop := (idmap_ok m -> idmap_ok m') /\ pairs m ⊆ pairs m'.
#[global] Instance grows_preorder : PreOrder grows.
Proof.
  split; [by intros m; split|]. intros m1 m2 m3 [H12 S12] [H23 S23]. split; [auto|].
  by transitivity (pairs m2).
Qed.

Lemma maps_grows m m' o c : grows m m' -> maps m o c -> maps m' o c.
Proof. intros [_ Hs] [|(?&?&?)]; [by left|right; auto]. Qed.

Lemma scan_true ps o c : scan_pairs ps o c = Some true -> (o, c) ∈ ps.
Proof.
  induction ps as [|[o' c'] ps IH]; simpl; [done|].
  destruct (Z.eqb_spec o' o) as [->|]; [|destruct (Z.eqb_spec c' c); [done|]].
  - intros [= ->%Z.eqb_eq]. by left.
  - intros H. right. by apply IH.
Qed.

Lemma scan_none ps o c : scan_pairs ps o c = None -> (o ∉ map fst ps) /\ (c ∉ map snd ps).
Proof.
  induction ps as [|[o' c'] ps IH]; simpl; [by split; apply not_elem_of_nil|].
  destruct (Z.eqb_spec o' o); [done|]. destruct (Z.eqb_spec c' c); [done|].
  intros [? ?]%IH. by rewrite !not_elem_of_cons.
Qed.

Lemma check_ids_ok m o c m' :
  check_ids m o c = Some m' -> grows m m' /\ maps m' o c.
Proof.
  unfold check_ids. destruct (Z.eqb_spec o 0), (Z.eqb_spec c 0); simpl; try done.
  { intros [= <-]. split; [done|by left]. }
  destruct (scan_pairs _ _ _) as [[]|] eqn:Hs; try done; intros [= <-].
  - split; [done|]. right. split_and!; [done..|]. by apply scan_true.
  - apply scan_none in Hs as [Ho Hc]. split; [split|right; split_and!; try done]; simpl.
    + intros [Hf Hg]. unfold idmap_ok; simpl. rewrite !map_app, !NoDup_app. simpl.
      split_and!; try done; try apply NoDup_singleton; intros x Hx ->%list_elem_of_singleton; done.
    + intros x. rewrite elem_of_app. by left.
    + rewrite elem_of_app. right. by left.
Qed.

Lemma check_scalar_ids_ok m o c m' :
  check_scalar_ids m o c = Some m' -> grows m m' /\ (o = 0 \/ c = 0 \/ maps m' o c).
Proof.
  unfold check_scalar_ids. destruct (Z.eqb_spec o 0); [intros [= <-]; by split; [|left]|].
  destruct (Z.eqb_spec c 0); intros H; apply check_ids_ok in H as [Hg Hm]; split; auto.
Qed.

(** The identities of two registers are related. *)
Definition ids_related (m : IdMap) (old new : RegState) : Prop :=
  match old, new with
  | PtrToMapValue _ _ _ _ a, PtrToMapValue _ _ _ _ b => maps m a b
  | PtrToMapValueOrNull _ a, PtrToMapValueOrNull _ b => maps m a b
  | PtrToMem _ _ _ a _, PtrToMem _ _ _ b _ => maps m a b
  | PtrToMemOrNull a ap _, PtrToMemOrNull b bp _ => maps m a b /\ maps m ap bp
  | PtrToBtfId _ a, PtrToBtfId _ b => maps m a b
  | _, _ => True
  end.

Lemma ids_related_grows m m' old new : grows m m' -> ids_related m old new -> ids_related m' old new.
Proof.
  intros Hg. destruct old, new; simpl; try done; try (by apply maps_grows).
  intros []. split; by apply (maps_grows m).
Qed.

Lemma when_some b k m : when b k = Some m -> b = true /\ k = Some m.
Proof. by destruct b. Qed.

Lemma check_ids_both m a b ap bp m' :
  (check_ids m a b ≫= fun m1 => check_ids m1 ap bp) = Some m' ->
  grows m m' /\ maps m' a b /\ maps m' ap bp.
Proof.
  intros (m1 & [Hg1 H1]%check_ids_ok & [Hg2 H2]%check_ids_ok)%bind_Some.
  split_and!; [by transitivity m1|by apply (maps_grows m1)|done].
Qed.

Ltac safe_branch H :=
  first [apply when_some in H as [? H] | idtac];
  first [apply check_ids_both in H as (? & ? & ?) | apply check_scalar_ids_ok in H as [? _]
        | apply check_ids_ok in H as [? ?] | injection H as <-].

Lemma regsafe_related old new exact m m' :
  regsafe old new exact m = Some m' -> grows m m' /\ (old = Uninit \/ ids_related m' old new).
Proof.
  unfold regsafe. destruct (decide (exact = Exact)) as [->|Hne].
  - intros [_ H]%when_some. destruct old, new; simpl in H; safe_branch H; split; try done; by right.
  - destruct (decide (old = Uninit)) as [->|Hu]; [intros [= <-]; split; [done|by left]|].
    intros H. destruct old, new; try discriminate H; try (case_match; [by injection H as <-; split; [|right]|]);
      safe_branch H; split; try done; by right.
Qed.

(** * Comparison implies inclusion *)

(** The explored register contains the current one: it was never used, it is a
    scalar whose value no decision depended on, or it describes every value the
    current one describes. *)
Definition subsumed (exact : ExactLevel) (old new : RegState) : Prop :=
  (old = Uninit /\ exact = NotExact) \/
  (exact = NotExact /\ exists b b', old = Scalar b /\ new = Scalar b' /\ precise b = false) \/
  (forall v, value_in new v -> value_in old v).

Lemma range_within_mem a b x :
  bounds_wf a -> bounds_wf b -> scalar_range_within a b = true -> bounds_mem b x -> bounds_mem a x.
Proof.
  unfold scalar_range_within. intros Ha Hb H [(Hx & Hs & Hu & Ht) [H1 H2]]. bool_hyps.
  split; [split_and!|split]; try lia.
  apply (tnum_subsumes_iff (tnum a) (tnum b)); try done; [apply Ha|apply Hb].
Qed.

Lemma bounds_exact_mem a b x : scalar_bounds_exact a b = true -> bounds_mem b x -> bounds_mem a x.
Proof.
  unfold scalar_bounds_exact. rewrite !andb_true_iff, !Z.eqb_eq, bool_decide_eq_true.
  intros ((((((((? & ?) & ?) & ?) & ?) & ?) & ?) & ?) & Heq) [(Hx & Hs & Hu & Ht) [Hs32 Hu32]].
  split; [split_and!|split]; try lia. by rewrite Heq.
Qed.

Lemma offset_in_widen mn mx al mn' mx' al' o :
  mn' <= mn -> mx <= mx' -> al' = al \/ al' = ALIGN_UNKNOWN ->
  offset_in mn mx al o -> offset_in mn' mx' al' o.
Proof.
  unfold offset_in, wide. intros Hn Hx Hal [Hw|[Hin Ho]]; [left; lia|right]. split; [lia|].
  destruct Hal as [->| ->]; [done|by left].
Qed.

Lemma regs_exact_values old new v : regs_exact old new = true -> value_in new v -> value_in old v.
Proof.
  intros H. destruct old as [|a|mn mx al fr|o|k vs t|mn mx al vs i|vs i| | |],
    new as [|b|mn' mx' al' fr'|o'|k' vs' t'|mn' mx' al' vs' i'|vs' i'| | |]; try discriminate H;
    simpl in H; try done.
  - destruct v; try done. by apply bounds_exact_mem.
  - bool_hyps. by replace mn with mn' by lia; replace mx with mx' by lia; replace al with al' by lia;
      replace fr with fr' by lia.
  - bool_hyps. by replace o with o' by lia.
  - bool_hyps. by replace mn with mn' by lia; replace mx with mx' by lia; replace al with al' by lia.
  - bool_hyps. by replace vs with vs' by lia.
Qed.

Lemma regsafe_subsumed old new exact m m' :
  reg_wf old -> reg_wf new -> regsafe old new exact m = Some m' -> subsumed exact old new.
Proof.
  unfold regsafe. intros Hw Hw'. destruct (decide (exact = Exact)) as [->|Hne].
  { intros [H _]%when_some. right. right. intros v. by apply regs_exact_values. }
  assert (exact = NotExact) as -> by (by destruct exact).
  destruct (decide (old = Uninit)) as [->|Hu]; [by left|]. intros H. right.
  destruct old as [|a|mn mx al fr|o|k vs t|mn mx al vs i|vs i| | |],
    new as [|b|mn' mx' al' fr'|o'|k' vs' t'|mn' mx' al' vs' i'|vs' i'| | |]; try discriminate H;
    try (right; intros []; simpl; done).
  - destruct (precise a) eqn:Hp; simpl in H; [|left; split; [done|by do 2 eexists]].
    apply when_some in H as [Hb _]. apply andb_true_iff in Hb as [_ Hb].
    right. intros [] Hv; try done. by apply (range_within_mem a b).
  - apply when_some in H as [H _]. apply bool_decide_eq_true in H. rewrite H. by right.
  - apply when_some in H as [H _]. apply Z.eqb_eq in H. subst. by right.
  - apply when_some in H as [H _]. bool_hyps. right. intros [| | |fd [ix|] off|] Hv; try done.
    destruct Hv as [? Hv]. split; [done|]. apply (offset_in_widen mn' mx' al'); lia || done.
  - apply when_some in H as [H _]. apply Z.eqb_eq in H. subst. by right.
Qed.

(** * The loop over the stack *)

(** A byte the explored stack used is matched: through the scalar views of the
    slot from byte 0 or 4 on, as miscellaneous against zero, or by equal types
    with the spilled register compared at the end of the slot. *)
Definition view_safe (old new : StackState) (exact : ExactLevel) (spi im : nat) (m : IdMap) : Prop :=
  exists oreg creg m0 m1, fake_scalar_for_stack old spi im = Some oreg /\
    fake_scalar_for_stack new spi im = Some creg /\ regsafe oreg creg exact m0 = Some m1 /\ grows m1 m.
Definition end_safe (old new : StackState) (exact : ExactLevel) (spi : nat) (m : IdMap) : Prop :=
  forall r, spilled old !!! spi = Some r ->
    exists r' m0 m1, spilled new !!! spi = Some r' /\ regsafe r r' exact m0 = Some m1 /\ grows m1 m.
Definition byte_safe (old new : StackState) (exact : ExactLevel) (m : IdMap) (i : nat) : Prop :=
  let o := bytes old !!! i in
  let n := bytes new !!! i in
  o = StackByte.Invalid \/
  (exists im, (im = 0 \/ im = 4)%nat /\ (im <= i mod 8)%nat /\ view_safe old new exact (i / 8) im m) \/
  (o = StackByte.Misc /\ n = StackByte.Zero) \/
  (o = n /\ (o = StackByte.Spill -> (i mod 8 = 7)%nat -> end_safe old new exact (i / 8) m) /\
   (o = StackByte.Dynptr -> (i mod 8 = 7)%nat -> dynptr old !!! (i / 8)%nat = dynptr new !!! (i / 8)%nat)).

Lemma regsafe_grows old new exact m m' : regsafe old new exact m = Some m' -> grows m m'.
Proof. intros H. by apply regsafe_related in H as [? _]. Qed.

Lemma slot_end_safe_ok old new exact o spi m m' :
  slot_end_safe old new exact o spi m = Some m' ->
  grows m m' /\ (o = StackByte.Spill -> end_safe old new exact spi m') /\
  (o = StackByte.Dynptr -> dynptr old !!! spi = dynptr new !!! spi).
Proof.
  unfold slot_end_safe, end_safe.
  destruct (bool_decide_reflect (o = StackByte.Dynptr)) as [->|]; simpl.
  - destruct (bool_decide_reflect (dynptr old !!! spi = dynptr new !!! spi)); [|done]. simpl.
    intros [= <-]. by split_and!.
  - destruct (decide (o = StackByte.Spill)) as [->|]; [|intros [= <-]; by split_and!].
    destruct (spilled old !!! spi) as [r|] eqn:Ho; [|intros [= <-]; by split_and!].
    destruct (spilled new !!! spi) as [r'|] eqn:Hn; [|done]. intros H.
    split_and!; [by apply regsafe_grows in H| |done]. intros _ ? [= <-]. by exists r', m, m'.
Qed.

Lemma view_safe_grows old new exact spi im m m' :
  grows m m' -> view_safe old new exact spi im m -> view_safe old new exact spi im m'.
Proof.
  intros Hg (o & c & m0 & m1 & Ho & Hc & Hr & Hg1). exists o, c, m0, m1. split_and!; try done.
  by transitivity m.
Qed.

Lemma byte_safe_grows old new exact m m' i :
  grows m m' -> byte_safe old new exact m i -> byte_safe old new exact m' i.
Proof.
  intros Hg [|[(im & ? & ? & ?)|[|(? & He & ?)]]]; [by left|right; left|by right; right; left|right; right; right].
  - exists im. split_and!; try done. by apply (view_safe_grows _ _ _ _ _ m).
  - split_and!; try done. intros Hs Hi r Hr. destruct (He Hs Hi r Hr) as (r' & m0 & m1 & ? & ? & ?).
    exists r', m0, m1. split_and!; try done. by transitivity m.
Qed.

(** The bytes a scalar view covers lie in its slot. *)
Lemma slot_rest i j :
  (i mod 8 = 0 /\ i <= j < i + 8 \/ i mod 8 = 4 /\ i <= j < i + 4)%nat ->
  (j / 8 = i / 8 /\ i mod 8 <= j mod 8)%nat.
Proof.
  intros Hj. pose proof (Nat.div_mod_eq i 8).
  assert (j / 8 = i / 8)%nat as Hq.
  { symmetry. apply (Nat.div_unique j 8 (i / 8) (j - 8 * (i / 8))); lia. }
  split; [done|]. pose proof (Nat.div_mod_eq j 8). lia.
Qed.

Lemma stacksafe_loop_ok fuel old new exact : forall i m m',
  (512 <= i + fuel)%nat -> stacksafe_loop fuel old new exact i m = Some m' ->
  grows m m' /\ forall j, (i <= j < 512)%nat -> byte_safe old new exact m' j.
Proof.
  induction fuel as [|fuel IH]; intros i m m' Hf; cbn [stacksafe_loop].
  { intros [= <-]. split; [done|lia]. }
  destruct (Nat.leb_spec 512 i); [intros [= <-]; split; [done|lia]|].
  destruct (_ && _); [done|].
  (* one byte handled, the rest by induction *)
  assert (Hone : forall m1, grows m m1 -> (forall mf, grows m1 mf -> byte_safe old new exact mf i) ->
    stacksafe_loop fuel old new exact (i + 1) m1 = Some m' ->
    grows m m' /\ forall j, (i <= j < 512)%nat -> byte_safe old new exact m' j).
  { intros m1 Hg Hi Hl. destruct (IH (i + 1)%nat m1 m' ltac:(lia) Hl) as [Hg' Hall].
    split; [by transitivity m1|]. intros j Hj. destruct (decide (j = i)) as [->|]; [by apply Hi|].
    apply Hall. lia. }
  destruct (decide (bytes old !!! i = StackByte.Invalid)) as [He|Hne].
  { apply Hone; [done|]. intros mf _. by left. }
  assert (Htype : (if bool_decide (bytes old !!! i = StackByte.Misc) && bool_decide (bytes new !!! i = StackByte.Zero)
      then stacksafe_loop fuel old new exact (i + 1) m
      else if negb (bool_decide (bytes old !!! i = bytes new !!! i)) then None
      else if (i mod 8 =? 7)%nat
      then slot_end_safe old new exact (bytes old !!! i) (i / 8) m ≫= stacksafe_loop fuel old new exact (i + 1)
      else stacksafe_loop fuel old new exact (i + 1) m) = Some m' ->
    grows m m' /\ forall j, (i <= j < 512)%nat -> byte_safe old new exact m' j).
  { destruct (bool_decide_reflect (bytes old !!! i = StackByte.Misc)) as [Hm|],
      (bool_decide_reflect (bytes new !!! i = StackByte.Zero)) as [Hz|]; cbn [andb].
    { apply Hone; [done|]. intros mf _. right. right. by left. }
    all: destruct (bool_decide_reflect (bytes old !!! i = bytes new !!! i)) as [Heq|]; [|done]; cbn [negb].
    all: destruct (Nat.eqb_spec (i mod 8) 7) as [H7|H7]; intros Hl;
      [|apply (Hone m); [done| |done]; intros mf _; right; right; right; by split_and!].
    all: apply bind_Some in Hl as (m1 & Hend & Hl); apply slot_end_safe_ok in Hend as (Hg & Hs & Hd);
      apply (Hone m1); [done| |done]; intros mf Hgf; right; right; right; split_and!; [done| |by intros Hdy _; apply Hd];
      intros Hsp _ r Hr; destruct (Hs Hsp r Hr) as (r' & m0 & m2 & ? & ? & ?);
      exists r', m0, m2; split_and!; try done; by transitivity m1. }
  destruct (((i mod 8 =? 0) || (i mod 8 =? 4))%nat) eqn:Hb; [|exact Htype].
  destruct (fake_scalar_for_stack old (i / 8) (i mod 8)) as [oreg|] eqn:Ho; [|exact Htype].
  destruct (fake_scalar_for_stack new (i / 8) (i mod 8)) as [creg|] eqn:Hc; [|exact Htype].
  intros (m1 & Hr & Hl)%bind_Some. apply orb_true_iff in Hb. rewrite !Nat.eqb_eq in Hb.
  set (step := if (i mod 8 =? 0)%nat then (i + 8)%nat else (i + 4)%nat) in *.
  assert (Hstep : (i < step)%nat /\ (i mod 8 = 0 /\ step = i + 8 \/ i mod 8 = 4 /\ step = i + 4)%nat)
    by (unfold step; destruct (Nat.eqb_spec (i mod 8) 0); lia).
  destruct (IH step m1 m' ltac:(lia) Hl) as [Hg' Hall]. pose proof (regsafe_grows _ _ _ _ _ Hr) as Hg.
  split; [by transitivity m1|]. intros j Hj. destruct (decide (j < step)%nat); [|apply Hall; lia].
  destruct (slot_rest i j ltac:(lia)) as [Hq Hle].
  right. left. exists (i mod 8)%nat. split_and!; try done. rewrite Hq. by exists oreg, creg, m, m1.
Qed.

(** * The meaning of a successful comparison *)

Definition byte_subsumed (exact : ExactLevel) (old new : StackState) (i : nat) : Prop :=
  let o := bytes old !!! i in
  let n := bytes new !!! i in
  o = StackByte.Invalid \/
  (exists im oreg creg, (im = 0 \/ im = 4)%nat /\ (im <= i mod 8)%nat /\
     fake_scalar_for_stack old (i / 8) im = Some oreg /\
     fake_scalar_for_stack new (i / 8) im = Some creg /\ subsumed exact oreg creg) \/
  (o = StackByte.Misc /\ n = StackByte.Zero) \/
  (o = n /\
   (o = StackByte.Spill -> (i mod 8 = 7)%nat -> forall r, spilled old !!! (i / 8)%nat = Some r ->
      exists r', spilled new !!! (i / 8)%nat = Some r' /\ subsumed exact r r') /\
   (o = StackByte.Dynptr -> (i mod 8 = 7)%nat -> dynptr old !!! (i / 8)%nat = dynptr new !!! (i / 8)%nat)).

Definition regs_wf (rs : list RegState) : Prop := forall r, reg_wf (rs !!! r).
Definition stack_wf (st : StackState) : Prop := forall spi r, spilled st !!! spi = Some r -> reg_wf r.
Definition frame_wf (f : FrameState) : Prop := regs_wf (frame_regs f) /\ stack_wf (frame_stack f).
Definition state_wf (s : VerifierState) : Prop :=
  regs_wf (regs s) /\ stack_wf (stack s) /\
  (forall i f, saved s !!! i = Some f -> frame_wf f).

Lemma scalar_subreg_wf b : bounds_wf b -> bounds_wf (scalar_subreg b).
Proof.
  intros (?&?&?&?&?&?&?&?&Ht). unfold bounds_wf; simpl.
  split_and!; try lia. by apply (tnum_subreg_ok (tnum b)).
Qed.

Lemma fake_scalar_wf st spi im r : stack_wf st -> fake_scalar_for_stack st spi im = Some r -> reg_wf r.
Proof.
  unfold fake_scalar_for_stack. intros Hw. destruct (slot_tail _ _ _ StackByte.Spill).
  - destruct (spilled st !!! spi) as [[]|] eqn:Hs; try done. apply Hw in Hs. simpl in Hs.
    case_match; intros [= <-]; [done|by apply scalar_subreg_wf].
  - case_match; [|done]. intros [= <-]. apply bounds_unknown_wf.
Qed.

Lemma byte_safe_subsumed exact old new m i :
  stack_wf old -> stack_wf new -> byte_safe old new exact m i -> byte_subsumed exact old new i.
Proof.
  intros Hw Hw' [|[(im & ? & ? & oreg & creg & m0 & m1 & Ho & Hc & Hr & _)|[|(? & He & ?)]]];
    [by left|right; left|by right; right; left|right; right; right].
  - exists im, oreg, creg. split_and!; try done. apply (regsafe_subsumed _ _ _ m0 m1); [| |done]; eapply fake_scalar_wf; [exact Hw|exact Ho|exact Hw'|exact Hc].
  - split_and!; try done. intros Hs Hi r Hr. destruct (He Hs Hi r Hr) as (r' & m0 & m1 & Hr' & Hsafe & _).
    exists r'. split; [done|]. apply (regsafe_subsumed _ _ _ m0 m1); [by apply (Hw (i / 8)%nat)|by apply (Hw' (i / 8)%nat)|done].
Qed.

Lemma all_safe_ok {A} (check : A -> IdMap -> option IdMap) (P : A -> IdMap -> Prop) l :
  (forall x m m', check x m = Some m' -> grows m m' /\ P x m') ->
  (forall x m m', grows m m' -> P x m -> P x m') ->
  forall m m', all_safe check l m = Some m' -> grows m m' /\ forall x, x ∈ l -> P x m'.
Proof.
  intros Hc Hmono. induction l as [|x l IH]; intros m m'; simpl.
  - intros [= <-]. split; [done|]. intros x Hx. by apply not_elem_of_nil in Hx.
  - intros (m1 & [Hg Hx]%Hc & [Hg' Hl]%IH)%bind_Some. split; [by transitivity m1|].
    intros y [->|Hy]%elem_of_cons; [by apply (Hmono x m1)|by apply Hl].
Qed.

(** A register pair that passed, in a map that may have grown since. *)
Definition reg_pair_safe (exact : ExactLevel) (old new : RegState) (m : IdMap) : Prop :=
  (reg_wf old -> reg_wf new -> subsumed exact old new) /\ (old = Uninit \/ ids_related m old new).

Lemma reg_pair_ok old new exact m m' :
  regsafe old new exact m = Some m' -> grows m m' /\ reg_pair_safe exact old new m'.
Proof.
  intros H. pose proof (regsafe_related _ _ _ _ _ H) as [Hg Hi]. split; [done|]. split; [|done].
  intros. by apply (regsafe_subsumed old new exact m m').
Qed.

Lemma reg_pair_grows exact old new m m' :
  grows m m' -> reg_pair_safe exact old new m -> reg_pair_safe exact old new m'.
Proof. intros Hg [? [|]]; split; auto. right. by apply (ids_related_grows m). Qed.

Definition regs_safe (exact : ExactLevel) (rs rs' : list RegState) (sel : nat -> bool) (m : IdMap) : Prop :=
  forall r, (r < 11)%nat -> sel r = true -> reg_pair_safe exact (rs !!! r) (rs' !!! r) m.
Definition bytes_safe (exact : ExactLevel) (st st' : StackState) (m : IdMap) : Prop :=
  forall i, (i < 512)%nat -> byte_safe st st' exact m i.
Definition frame_pair_safe (exact : ExactLevel) (old new : option FrameState) (m : IdMap) : Prop :=
  match old, new with
  | None, None => True
  | Some a, Some b =>
      regs_safe exact (frame_regs a) (frame_regs b) (fun _ => true) m /\
      bytes_safe exact (frame_stack a) (frame_stack b) m
  | _, _ => False
  end.

Lemma regs_safe_grows exact rs rs' sel m m' :
  grows m m' -> regs_safe exact rs rs' sel m -> regs_safe exact rs rs' sel m'.
Proof. intros Hg H r Hr Hs. apply (reg_pair_grows exact _ _ m); auto. Qed.
Lemma bytes_safe_grows exact st st' m m' :
  grows m m' -> bytes_safe exact st st' m -> bytes_safe exact st st' m'.
Proof. intros Hg H i Hi. apply (byte_safe_grows _ _ _ m); auto. Qed.
Lemma frame_pair_grows exact a b m m' :
  grows m m' -> frame_pair_safe exact a b m -> frame_pair_safe exact a b m'.
Proof.
  destruct a, b; simpl; try done. intros Hg [? ?].
  split; [by apply (regs_safe_grows _ _ _ _ m)|by apply (bytes_safe_grows _ _ _ m)].
Qed.

Lemma stacksafe_ok old new exact m m' :
  stacksafe old new exact m = Some m' -> grows m m' /\ bytes_safe exact old new m'.
Proof.
  unfold stacksafe. generalize (le_n 512). generalize 512%nat at 2 3. intros fuel Hf H.
  destruct (stacksafe_loop_ok fuel old new exact 0 m m' Hf H) as [Hg Hall].
  split; [done|]. intros i Hi. apply Hall. lia.
Qed.

Lemma elem_of_seq_0 n i : (i < n)%nat -> i ∈ seq 0 n.
Proof. intros. apply elem_of_seq. lia. Qed.

Lemma check_regs_ok exact rs rs' sel m m' :
  all_safe (fun r m => if sel r : bool then regsafe (rs !!! r) (rs' !!! r) exact m else Some m) (seq 0 11) m
    = Some m' ->
  grows m m' /\ regs_safe exact rs rs' sel m'.
Proof.
  intros H.
  apply (all_safe_ok _ (fun r m => sel r = true -> reg_pair_safe exact (rs !!! r) (rs' !!! r) m)) in H as [Hg Hall].
  - split; [done|]. intros r Hr. apply Hall. by apply elem_of_seq_0.
  - intros r m1 m2. destruct (sel r); [|intros [= <-]; by split].
    intros Hs. apply reg_pair_ok in Hs as [? ?]. by split.
  - intros r m1 m2 Hg Hp Hs. apply (reg_pair_grows exact _ _ m1); auto.
Qed.

Lemma frame_safe_ok a b exact m m' :
  frame_safe a b exact m = Some m' -> grows m m' /\ frame_pair_safe exact a b m'.
Proof.
  destruct a as [a|], b as [b|]; simpl; try done; [|intros [= <-]; by split].
  intros (m1 & [Hg1 H1]%(check_regs_ok _ _ _ (fun _ => true)) & [Hg2 H2]%stacksafe_ok)%bind_Some.
  split; [by transitivity m1|]. split; [by apply (regs_safe_grows _ _ _ _ m1)|done].
Qed.

Lemma maps_bijective m o c o' c' : idmap_ok m -> maps m o c -> maps m o' c' -> o = o' <-> c = c'.
Proof.
  intros [Hf Hg] [[-> ->]|(?&?&H1)] [[-> ->]|(?&?&H2)]; try done.
  apply list_elem_of_lookup in H1 as [i H1]. apply list_elem_of_lookup in H2 as [j H2].
  split; intros <-; cut (i = j); [intros ->; congruence| |intros ->; congruence|].
  - apply (NoDup_lookup _ i j o Hf); by rewrite list_lookup_fmap, ?H1, ?H2.
  - apply (NoDup_lookup _ i j c Hg); by rewrite list_lookup_fmap, ?H1, ?H2.
Qed.

Lemma compare_states_ok old new exact lr m :
  compare_states old new exact lr = Some m ->
  curframe old = curframe new /\ refs_cnt old = refs_cnt new /\ idmap_ok m /\
  (forall i, (i < Z.to_nat (refs_cnt old))%nat -> maps m (refs old !!! i) (refs new !!! i)) /\
  regs_safe exact (regs old) (regs new) (live lr) m /\ bytes_safe exact (stack old) (stack new) m /\
  (forall i, (i < 15)%nat -> frame_pair_safe exact (saved old !!! i) (saved new !!! i) m).
Proof.
  unfold compare_states. destruct (Z.eqb_spec (curframe old) (curframe new)) as [Hc|]; [|done].
  destruct (Z.eqb_spec (refs_cnt old) (refs_cnt new)) as [Hn|]; [|done]. cbn [negb].
  intros (m1 & H1 & (m2 & [Hg2 H2]%check_regs_ok & (m3 & [Hg3 H3]%stacksafe_ok & H4)%bind_Some)%bind_Some)%bind_Some.
  apply (all_safe_ok _ (fun i m => maps m (refs old !!! i) (refs new !!! i))) in H1 as [Hg1 H1];
    [|intros ? ? ?; apply check_ids_ok|intros ? ? ?; apply maps_grows].
  apply (all_safe_ok _ (fun i m => frame_pair_safe exact (saved old !!! i) (saved new !!! i) m)) in H4 as [Hg4 H4];
    [|intros ? ? ?; apply frame_safe_ok|intros ? ? ?; apply frame_pair_grows].
  assert (Hg34 : grows m2 m) by (by transitivity m3).
  assert (Hg24 : grows m1 m) by (by transitivity m2).
  split_and!; try done.
  - apply (proj1 Hg24), (proj1 Hg1). split; apply NoDup_nil_2.
  - intros i Hi. apply (maps_grows m1); [done|]. apply H1. by apply elem_of_seq_0.
  - by apply (regs_safe_grows _ _ _ _ m2).
  - by apply (bytes_safe_grows _ _ _ m3).
  - intros i Hi. apply H4. by apply elem_of_seq_0.
Qed.

(** * A cleaned state passes against the state itself *)

Definition identity_map (m : IdMap) : Prop := Forall (fun p => fst p = snd p) (pairs m).
(** The check succeeds and keeps the identity map. *)
Definition passes (k : option IdMap) : Prop := exists m, k = Some m /\ identity_map m.

Lemma passes_bind k f : passes k -> (forall m, identity_map m -> passes (f m)) -> passes (k ≫= f).
Proof. intros (m & -> & Hm) Hf. by apply Hf. Qed.

Lemma scan_identity ps x : Forall (fun p => fst p = snd p) ps -> scan_pairs ps x x <> Some false.
Proof.
  induction 1 as [|[o c] ps Heq _ IH]; simpl in *; [done|]. subst o.
  by destruct (Z.eqb_spec c x).
Qed.

Lemma check_ids_refl m x : identity_map m -> passes (check_ids m x x).
Proof.
  intros Hm. unfold check_ids. rewrite eqb_reflx. cbn [negb]. destruct (x =? 0); [by exists m|].
  pose proof (scan_identity (pairs m) x Hm). destruct (scan_pairs _ _ _) as [[]|]; [by exists m|done|].
  eexists. split; [done|]. apply Forall_app. split; [done|]. by apply Forall_singleton.
Qed.

Lemma check_scalar_ids_refl m x : identity_map m -> passes (check_scalar_ids m x x).
Proof.
  intros Hm. unfold check_scalar_ids. destruct (Z.eqb_spec x 0) as [->|]; [by exists m|]. by apply check_ids_refl.
Qed.

Lemma check_ids_both_refl m x y :
  identity_map m -> passes (check_ids m x x ≫= fun m1 => check_ids m1 y y).
Proof. intros Hm. apply passes_bind; [by apply check_ids_refl|]. intros. by apply check_ids_refl. Qed.

Lemma range_within_refl b : bounds_wf b -> scalar_range_within b b = true.
Proof.
  intros (_&_&_&_&_&_&_&_&Ht). unfold scalar_range_within. rewrite !Z.leb_refl. cbn [andb].
  by apply tnum_subsumes_iff.
Qed.

Lemma regsafe_refl r m : reg_wf r -> identity_map m -> passes (regsafe r r NotExact m).
Proof.
  intros Hw Hm. unfold regsafe. rewrite decide_False by done.
  destruct (decide (r = Uninit)) as [->|]; [by exists m|].
  destruct r; try done; rewrite ?Z.eqb_refl, ?Z.leb_refl, ?bool_decide_true by done; cbn [andb orb when];
    try (by exists m); try (by apply check_ids_refl); try (by apply check_ids_both_refl).
  rewrite range_within_refl by done. cbn [andb when].
  destruct (precise _); cbn [negb andb]; [by apply check_scalar_ids_refl|by exists m].
Qed.

(** The explored stack is the other one with the bytes of some slots cleared. *)
Definition cleared_from (old new : StackState) : Prop :=
  forall spi,
    (forall i, (i / 8 = spi)%nat -> bytes old !!! i = StackByte.Invalid) \/
    ((forall i, (i / 8 = spi)%nat -> bytes old !!! i = bytes new !!! i) /\
     spilled old !!! spi = spilled new !!! spi /\ dynptr old !!! spi = dynptr new !!! spi /\
     forall im, fake_scalar_for_stack old spi im = fake_scalar_for_stack new spi im).

Lemma stacksafe_refl_loop old new fuel : cleared_from old new -> stack_wf old ->
  forall i m, identity_map m -> passes (stacksafe_loop fuel old new NotExact i m).
Proof.
  intros Hc Hw. induction fuel as [|fuel IH]; intros i m Hm; cbn [stacksafe_loop]; [by exists m|].
  destruct (512 <=? i)%nat; [by exists m|].
  rewrite (bool_decide_false (NotExact = Exact)) by done. cbn [andb].
  destruct (decide (bytes old !!! i = StackByte.Invalid)); [by apply IH|].
  destruct (Hc (i / 8)%nat) as [Hd|(Hb & Hsp & Hdy & Hfake)]; [by rewrite (Hd i) in n by done|].
  rewrite <- (Hb i), <- Hfake by done.
  assert (Htype : passes (if bool_decide (bytes old !!! i = StackByte.Misc) &&
        bool_decide (bytes old !!! i = StackByte.Zero)
      then stacksafe_loop fuel old new NotExact (i + 1) m
      else if negb (bool_decide (bytes old !!! i = bytes old !!! i)) then None
      else if (i mod 8 =? 7)%nat
      then slot_end_safe old new NotExact (bytes old !!! i) (i / 8) m ≫= stacksafe_loop fuel old new NotExact (i + 1)
      else stacksafe_loop fuel old new NotExact (i + 1) m)).
  { rewrite (bool_decide_true (bytes old !!! i = bytes old !!! i)) by done. cbn [negb].
    destruct (_ && _); [by apply IH|]. destruct (_ =? 7)%nat; [|by apply IH].
    apply passes_bind; [|intros; by apply IH]. unfold slot_end_safe. rewrite <- Hsp, <- Hdy.
    rewrite (bool_decide_true (dynptr old !!! (i / 8)%nat = dynptr old !!! (i / 8)%nat)) by done.
    rewrite andb_false_r. destruct (decide (bytes old !!! i = StackByte.Spill)); [|by exists m].
    destruct (spilled old !!! (i / 8)%nat) as [r|] eqn:Hr; [|by exists m].
    apply regsafe_refl; [by apply (Hw (i / 8)%nat)|done]. }
  destruct (_ || _); [|exact Htype].
  destruct (fake_scalar_for_stack old (i / 8) (i mod 8)) as [r|] eqn:Hr; [|exact Htype].
  apply passes_bind; [apply regsafe_refl; [by apply (fake_scalar_wf old (i / 8) (i mod 8))|done]|].
  intros. by apply IH.
Qed.

Lemma lookup_total_imap {A} `{Inhabited A} (f : nat -> A -> A) (l : list A) i :
  f i inhabitant = inhabitant -> imap f l !!! i = f i (l !!! i).
Proof.
  intros Hf. rewrite !list_lookup_total_alt, list_lookup_imap. by destruct (l !! i).
Qed.

Lemma slot_bytes_imap f (l : list StackByte) spi :
  (forall i x, (i / 8 = spi)%nat -> f i x = x) ->
  take 8 (drop (spi * 8) (imap f l)) = take 8 (drop (spi * 8) l).
Proof.
  intros Hf. apply list_eq. intros j. destruct (decide (j < 8)%nat).
  - rewrite !lookup_take_lt, !lookup_drop, list_lookup_imap by done.
    destruct (l !! (spi * 8 + j)%nat) as [x|]; [|done]. simpl. f_equal. apply Hf.
    symmetry. apply (Nat.div_unique _ 8 spi j); lia.
  - by rewrite !lookup_take_ge by lia.
Qed.

Lemma clean_stack_cleared ls st : cleared_from (clean_stack ls st) st.
Proof.
  intros spi. unfold clean_stack. cbn [bytes spilled dynptr]. destruct (live ls spi) eqn:Hl.
  - right. split_and!.
    + intros i Hi. rewrite lookup_total_imap by (by case_match). by rewrite Hi, Hl.
    + rewrite lookup_total_imap by (by case_match). by rewrite Hl.
    + rewrite lookup_total_imap by (by case_match). by rewrite Hl.
    + intros im. unfold fake_scalar_for_stack, slot_tail. cbn [bytes spilled].
      rewrite slot_bytes_imap by (by intros i x ->; rewrite Hl).
      rewrite (lookup_total_imap _ (spilled st)) by (by case_match). by rewrite Hl.
  - left. intros i Hi. rewrite lookup_total_imap by (by case_match). by rewrite Hi, Hl.
Qed.

Lemma clean_stack_wf ls st : stack_wf st -> stack_wf (clean_stack ls st).
Proof.
  intros Hw spi r. unfold clean_stack. cbn [spilled]. rewrite lookup_total_imap by (by case_match).
  case_match; [apply Hw|done].
Qed.

Lemma cleared_refl st : cleared_from st st.
Proof. intros spi. right. by split_and!. Qed.

Lemma all_safe_refl {A} (check : A -> IdMap -> option IdMap) l :
  (forall x m, identity_map m -> passes (check x m)) ->
  forall m, identity_map m -> passes (all_safe check l m).
Proof.
  intros Hc. induction l as [|x l IH]; intros m Hm; simpl; [by exists m|].
  apply passes_bind; [by apply Hc|]. exact IH.
Qed.

Lemma frame_safe_refl f m :
  (forall a, f = Some a -> frame_wf a) -> identity_map m -> passes (frame_safe f f NotExact m).
Proof.
  destruct f as [a|]; cbn [frame_safe]; [|by exists m]. intros Hw Hm. destruct (Hw a eq_refl) as [Hr Hs].
  apply passes_bind.
  - apply all_safe_refl; [|done]. intros r m1 Hm1. by apply regsafe_refl.
  - intros m1 Hm1. by apply stacksafe_refl_loop; [apply cleared_refl| |].
Qed.

Lemma clean_reg_cases lr s r :
  clean_regs lr (regs s) !!! r = regs s !!! r \/ (live lr r = false /\ clean_regs lr (regs s) !!! r = Uninit).
Proof.
  unfold clean_regs. rewrite lookup_total_imap by (by case_match). destruct (live lr r); [left|].
  - by rewrite andb_false_r.
  - rewrite andb_true_r. case_match; [by right|by left].
Qed.

Lemma clean_state_passes s lr ls :
  state_wf s -> states_equal (clean_state s lr ls) s NotExact lr = true.
Proof.
  intros (Hr & Hs & Hf). unfold states_equal, compare_states, clean_state.
  cbn [curframe refs_cnt refs regs stack saved]. rewrite !Z.eqb_refl. cbn [negb].
  match goal with |- context [match ?k with _ => _ end] => assert (passes k) as (m & -> & _) end; [|done].
  apply passes_bind; [|intros m1 Hm1; apply passes_bind; [|intros m2 Hm2; apply passes_bind; [|intros m3 Hm3]]].
  - apply all_safe_refl; [|apply Forall_nil_2]. intros i m Hm. by apply check_ids_refl.
  - apply all_safe_refl; [|done]. intros r m Hm. destruct (live lr r) eqn:Hl; [|by exists m].
    destruct (clean_reg_cases lr s r) as [->|[? _]]; [by apply regsafe_refl|congruence].
  - apply stacksafe_refl_loop; [apply clean_stack_cleared|by apply clean_stack_wf|done].
  - apply all_safe_refl; [|done]. intros i m Hm. apply frame_safe_refl; [apply Hf|done].
Qed.

(** * Properties *)

Definition frame_subsumed (exact : ExactLevel) (old new : option FrameState) : Prop :=
  match old, new with
  | None, None => True
  | Some a, Some b =>
      (forall r, (r < 11)%nat -> subsumed exact (frame_regs a !!! r) (frame_regs b !!! r)) /\
      (forall i, (i < 512)%nat -> byte_subsumed exact (frame_stack a) (frame_stack b) i)
  | _, _ => False
  end.

Lemma frame_pair_subsumed exact a b m :
  (forall f, a = Some f -> frame_wf f) -> (forall f, b = Some f -> frame_wf f) ->
  frame_pair_safe exact a b m -> frame_subsumed exact a b.
Proof.
  destruct a as [a|], b as [b|]; try done. intros Ha Hb [Hr Hs].
  destruct (Ha a eq_refl), (Hb b eq_refl). split.
  - intros r Hlt. by apply (Hr r).
  - intros i Hi. by apply (byte_safe_subsumed _ _ _ m); [| |apply Hs].
Qed.

(** C16: the pruning comparison is sound.  When the explored state passes against
    the current one, both have the same call depth and number of references,
    every live register, every used stack byte and every caller frame of the
    current state is contained in the explored one (up to scalars no decision
    depends on), and one partial bijection relates the identities of the
    references and of all live pointers, so two of them are aliases in one state
    exactly when they are in the other. *)
Theorem states_equal_sound (old new : VerifierState) (exact : ExactLevel) (live_regs : Z) :
  state_wf old -> state_wf new -> states_equal old new exact live_regs = true ->
  curframe old = curframe new /\ refs_cnt old = refs_cnt new /\
  (forall r, (r < 11)%nat -> live live_regs r = true ->
     subsumed exact (regs old !!! r) (regs new !!! r)) /\
  (forall i, (i < 512)%nat -> byte_subsumed exact (stack old) (stack new) i) /\
  (forall i, (i < 15)%nat -> frame_subsumed exact (saved old !!! i) (saved new !!! i)) /\
  exists m,
    (forall o c o' c', maps m o c -> maps m o' c' -> o = o' <-> c = c') /\
    (forall i, (i < Z.to_nat (refs_cnt old))%nat -> maps m (refs old !!! i) (refs new !!! i)) /\
    (forall r, (r < 11)%nat -> live live_regs r = true ->
       regs old !!! r = Uninit \/ ids_related m (regs old !!! r) (regs new !!! r)).
Proof.
  intros (Hr & Hs & Hf) (Hr' & Hs' & Hf') Heq. unfold states_equal in Heq.
  destruct (compare_states old new exact live_regs) as [m|] eqn:Hc; [|discriminate Heq].
  apply compare_states_ok in Hc as (Hcur & Hcnt & Hok & Hrefs & Hregs & Hbytes & Hframes).
  split_and!; try done.
  - intros r Hlt Hl. by apply (Hregs r Hlt Hl).
  - intros i Hi. by apply (byte_safe_subsumed _ _ _ m); [| |apply Hbytes].
  - intros i Hi. by apply (frame_pair_subsumed _ _ _ m); [apply Hf|apply Hf'|apply Hframes].
  - exists m. split_and!; [intros; by apply (maps_bijective m)|done|].
    intros r Hlt Hl. by apply (Hregs r Hlt Hl).
Qed.

(** A state whose R6 is a checked map value and R7 a copy of it. *)
Definition alias_state (i : Z) (mx : Z) : VerifierState :=
  set_reg 6 (PtrToMapValue 0 mx 0 64 i) (set_reg 7 (PtrToMapValue 0 mx 0 64 i) initial).

Lemma replicate_none {A} n i : replicate n (@None A) !!! i = None.
Proof. revert i. induction n as [|n IH]; intros [|i]; try done. apply IH. Qed.

Lemma alias_state_wf i mx : 0 <= mx <= I32_MAX -> state_wf (alias_state i mx).
Proof.
  intros Hm. split_and!.
  - intros r. assert (Hv : interval_wf 0 mx 0) by (unfold interval_wf; lia).
    assert (Hv0 : interval_wf 0 0 0) by (unfold interval_wf; lia).
    assert (Hc : is_i32 0) by lia.
    do 11 (destruct r as [|r]; [first [exact I | exact Hv | exact Hv0 | exact Hc]|]). exact I.
  - intros spi r. unfold alias_state. cbn [stack set_reg set_regs initial initial_with stack_new spilled].
    by rewrite replicate_none.
  - intros j f. unfold alias_state. cbn [saved set_reg set_regs initial initial_with].
    by rewrite replicate_none.
Qed.

Lemma states_equal_sound_witness :
  states_equal (alias_state 5 8) (alias_state 9 4) NotExact 0xc0 = true /\
  subsumed NotExact (PtrToMapValue 0 8 0 64 5) (PtrToMapValue 0 4 0 64 9).
Proof.
  split; [vm_compute; reflexivity|].
  destruct (states_equal_sound (alias_state 5 8) (alias_state 9 4) NotExact 0xc0) as (_ & _ & H & _).
  - apply alias_state_wf; lia.
  - apply alias_state_wf; lia.
  - vm_compute; reflexivity.
  - apply (H 6%nat); [lia|reflexivity].
Defined.

(** Cleaning a state forgets exactly its dead registers (never R10) and dead
    slots, and the cleaned state passes against the state it came from: a
    checkpoint stored at an instruction always prunes a second arrival in the
    same state, the loop over the stack included. *)
Theorem clean_state_prunes (s : VerifierState) (live_regs live_stack : Z) :
  state_wf s ->
  (forall r, regs (clean_state s live_regs live_stack) !!! r =
     if negb (r =? 10)%nat && negb (live live_regs r) then Uninit else regs s !!! r) /\
  (forall i, bytes (stack (clean_state s live_regs live_stack)) !!! i =
     if live live_stack (i / 8) then bytes (stack s) !!! i else StackByte.Invalid) /\
  (forall spi, spilled (stack (clean_state s live_regs live_stack)) !!! spi =
     if live live_stack spi then spilled (stack s) !!! spi else None) /\
  states_equal (clean_state s live_regs live_stack) s NotExact live_regs = true.
Proof.
  intros Hw. split_and!.
  - intros r. cbn [clean_state regs]. unfold clean_regs. by rewrite lookup_total_imap by (by case_match).
  - intros i. cbn [clean_state stack clean_stack bytes]. by rewrite lookup_total_imap by (by case_match).
  - intros i. cbn [clean_state stack clean_stack spilled]. by rewrite lookup_total_imap by (by case_match).
  - by apply clean_state_passes.
Qed.

Lemma clean_state_prunes_witness :
  states_equal (clean_state (alias_state 5 8) 0x40 0) (alias_state 5 8) NotExact 0x40 = true.
Proof. apply clean_state_prunes, alias_state_wf. lia. Defined.

(** Scalars with a link identity; no range knowledge. *)
Definition linked_scalar (i : Z) : RegState :=
  Scalar (mkBounds I64_MIN I64_MAX 0 U64_MAX I32_MIN I32_MAX 0 U32_MAX tnum_unknown true i 0).
Definition three_scalars (i6 i7 i8 : Z) : VerifierState :=
  set_reg 6 (linked_scalar i6) (set_reg 7 (linked_scalar i7) (set_reg 8 (linked_scalar i8) initial)).

(** Two flaws of the comparison.  Temporary identities count from 1 and meet
    real ones: with R7 and R8 linked in the explored state and not linked in the
    current one (R8 carries identity 2, the second temporary one) the states
    pass, so the refinement of R7 is taken over to R8 without cause.  And the
    exact comparison refuses a state with a referenced buffer against itself, so
    the infinite-loop detection never sees such a state twice. *)
Theorem states_equal_gaps :
  states_equal (three_scalars 7 9 9) (three_scalars 0 0 2) NotExact 0x1c0 = true /\
  (let s := set_reg 6 (PtrToMem 0 0 0 1 1) initial in
   states_equal s s Exact 0x40 = false /\ states_maybe_looping s s = false).
Proof. by vm_compute. Qed.
