(* ===== verification/Liveness.v ===== *)
(** Liveness of registers and stack slots (src/src/liveness.rs): what each
    instruction reads and writes, the static successors and the iteration of the
    data-flow equations.  The theorems: the iteration panics on exactly the programs
    that end with a call into a subprogram that exits, and otherwise ends with
    exactly the reachability of a read; a dead register cannot influence a
    register instruction; and the reads the table of instructions omits. *)
From Stdlib Require Import ZArith Lia List Bool.
From stdpp Require Import base option list sorting.
From S2P Require Import Prelude Insn Alu State Concrete.
Open Scope Z_scope.

(** * What an instruction reads and writes *)

Record InsnUseDef := mkUseDef {
  use_regs : Z;      (* u16 *)
  def_regs : Z;      (* u16 *)
  read_slots : Z;    (* u64 *)
  write_slots : Z    (* u64 *)
}.

Definition reg_bit (reg : Z) : Z := as_u16 (Z.shiftl 1 reg).

(** The slot of an 8-byte aligned offset from R10. *)
Definition fixed_slot (offset : Z) : option Z :=
  if (0 <=? offset) || (offset <? - STACK_SIZE) || negb (Z.rem offset 8 =? 0) then None
  else Some ((- offset - 1) / 8).
Definition all_slots : Z := Z.shiftr U64_MAX (64 - 64).
Definition slot_bit (s : Z) : Z := as_u64 (Z.shiftl 1 s).

Definition read_slots_for (base offset : Z) : Z :=
  if base =? 10 then match fixed_slot offset with Some s => slot_bit s | None => all_slots end
  else all_slots.
Definition write_slots_for (base offset : Z) (size : MemSize) : Z :=
  if (base =? 10) && (MemSize.bytes size =? 8) then
    match fixed_slot offset with Some s => slot_bit s | None => 0 end
  else 0.

Definition regs_only (u d : Z) : InsnUseDef := mkUseDef u d 0 0.
Infix "|||" := Z.lor (at level 50, left associativity) : Z_scope.

Definition use_def (insn : BpfInsn) : InsnUseDef :=
  match insn with
  | BpfInsn.MovImm dst _ | BpfInsn.Mov32Imm dst _ => regs_only 0 (reg_bit dst)
  | BpfInsn.MovReg dst src | BpfInsn.Mov32Reg dst src => regs_only (reg_bit src) (reg_bit dst)
  | BpfInsn.LdAbs _ _ => regs_only 0 (reg_bit 0)
  | BpfInsn.LdInd src _ _ => regs_only (reg_bit src) (reg_bit 0)
  | BpfInsn.AddImm dst _ | BpfInsn.SubImm dst _ | BpfInsn.AndImm dst _ | BpfInsn.OrImm dst _
  | BpfInsn.XorImm dst _ | BpfInsn.LshImm dst _ | BpfInsn.RshImm dst _ | BpfInsn.ArshImm dst _
  | BpfInsn.MulImm dst _ _ | BpfInsn.DivImm dst _ | BpfInsn.ModImm dst _ | BpfInsn.Neg dst
  | BpfInsn.Add32Imm dst _ | BpfInsn.Sub32Imm dst _ | BpfInsn.And32Imm dst _
  | BpfInsn.Or32Imm dst _ | BpfInsn.Xor32Imm dst _ | BpfInsn.Lsh32Imm dst _
  | BpfInsn.Rsh32Imm dst _ | BpfInsn.Arsh32Imm dst _ | BpfInsn.Mul32Imm dst _
  | BpfInsn.Div32Imm dst _ | BpfInsn.Mod32Imm dst _ | BpfInsn.Neg32 dst => regs_only (reg_bit dst) (reg_bit dst)
  | BpfInsn.AddReg dst src | BpfInsn.SubReg dst src | BpfInsn.AndReg dst src
  | BpfInsn.OrReg dst src | BpfInsn.XorReg dst src | BpfInsn.LshReg dst src
  | BpfInsn.RshReg dst src | BpfInsn.ArshReg dst src | BpfInsn.MulReg dst src _
  | BpfInsn.DivReg dst src | BpfInsn.ModReg dst src | BpfInsn.Add32Reg dst src
  | BpfInsn.Sub32Reg dst src | BpfInsn.And32Reg dst src | BpfInsn.Or32Reg dst src
  | BpfInsn.Xor32Reg dst src | BpfInsn.Lsh32Reg dst src | BpfInsn.Rsh32Reg dst src
  | BpfInsn.Arsh32Reg dst src | BpfInsn.Mul32Reg dst src | BpfInsn.Div32Reg dst src
  | BpfInsn.Mod32Reg dst src =>
      regs_only (reg_bit dst ||| reg_bit src) (reg_bit dst)
  | BpfInsn.LdMem dst base offset _ _ =>
      mkUseDef (reg_bit base) (reg_bit dst) (read_slots_for base offset) 0
  | BpfInsn.StMem src base offset size =>
      mkUseDef (reg_bit src ||| reg_bit base) 0 0 (write_slots_for base offset size)
  | BpfInsn.StMemImm _ base offset size =>
      mkUseDef (reg_bit base) 0 0 (write_slots_for base offset size)
  | BpfInsn.LdImm64 dst _ | BpfInsn.LdMapFd dst _ _ _ _ | BpfInsn.LdMapValue dst _ _ _ _ =>
      regs_only 0 (reg_bit dst)
  | BpfInsn.LdImm64Second _ => regs_only 0 0
  | BpfInsn.Call _ | BpfInsn.CallSub _ | BpfInsn.CallKfunc _ =>
      regs_only (reg_bit 1 ||| reg_bit 2 ||| reg_bit 3 ||| reg_bit 4 ||| reg_bit 5)
        (reg_bit 0 ||| reg_bit 1 ||| reg_bit 2 ||| reg_bit 3 ||| reg_bit 4 ||| reg_bit 5)
  | BpfInsn.Atomic dst src offset size op fetch =>
      mkUseDef (reg_bit dst ||| reg_bit src)
        (match op with
         | AtomicOp.Cmpxchg => reg_bit 0
         | _ => if fetch then reg_bit src else 0
         end) 0 (write_slots_for dst offset size)
  | BpfInsn.Jmp32 dst src _ _ _ =>
      regs_only (reg_bit dst ||| match src with Some s => reg_bit s | None => 0 end) 0
  | BpfInsn.Exit => regs_only (reg_bit 0) 0
  | BpfInsn.Jmp _ => regs_only 0 0
  | BpfInsn.Jset dst src _ | BpfInsn.Jeq dst src _ | BpfInsn.Jne dst src _ | BpfInsn.Jgt dst src _
  | BpfInsn.Jge dst src _ | BpfInsn.Jlt dst src _ | BpfInsn.Jle dst src _ | BpfInsn.Jsgt dst src _
  | BpfInsn.Jsge dst src _ | BpfInsn.Jslt dst src _ | BpfInsn.Jsle dst src _ => regs_only (reg_bit dst ||| reg_bit src) 0
  | BpfInsn.JsetImm dst _ _ | BpfInsn.JeqImm dst _ _ | BpfInsn.JneImm dst _ _
  | BpfInsn.JgtImm dst _ _ | BpfInsn.JgeImm dst _ _ | BpfInsn.JltImm dst _ _
  | BpfInsn.JleImm dst _ _ | BpfInsn.JsgtImm dst _ _ | BpfInsn.JsgeImm dst _ _
  | BpfInsn.JsltImm dst _ _ | BpfInsn.JsleImm dst _ _ => regs_only (reg_bit dst) 0
  end.

(** * Successors *)

(** The target field of a conditional branch. *)
Definition cond_offset (insn : BpfInsn) : option Z :=
  match insn with
  | BpfInsn.Jset _ _ offset | BpfInsn.Jeq _ _ offset | BpfInsn.Jne _ _ offset
  | BpfInsn.Jgt _ _ offset | BpfInsn.Jge _ _ offset | BpfInsn.Jlt _ _ offset
  | BpfInsn.Jle _ _ offset | BpfInsn.Jsgt _ _ offset | BpfInsn.Jsge _ _ offset
  | BpfInsn.Jslt _ _ offset | BpfInsn.Jsle _ _ offset | BpfInsn.JsetImm _ _ offset
  | BpfInsn.JeqImm _ _ offset | BpfInsn.JneImm _ _ offset | BpfInsn.JgtImm _ _ offset
  | BpfInsn.JgeImm _ _ offset | BpfInsn.JltImm _ _ offset | BpfInsn.JleImm _ _ offset
  | BpfInsn.JsgtImm _ _ offset | BpfInsn.JsgeImm _ _ offset | BpfInsn.JsltImm _ _ offset
  | BpfInsn.JsleImm _ _ offset | BpfInsn.Jmp32 _ _ _ offset _ => Some offset
  | _ => None
  end.

(** [(pc as i32 + 1 + offset) as u32]. *)
Definition call_target (pc : nat) (offset : Z) : Z := as_u32 (as_i32 (Z.of_nat pc) + 1 + offset).

(** The call sites of a program with their targets, in program order. *)
Definition sites_at (pc : nat) (insn : BpfInsn) : list (nat * Z) :=
  match insn with
  | BpfInsn.CallSub offset => [(pc, call_target pc offset)]
  | _ => []
  end.
Definition call_sites (program : list BpfInsn) : list (nat * Z) := concat (imap sites_at program).

Definition subprog_entry_at (i : nat) (program : list BpfInsn) : option Z :=
  let starts := fold_left (fun starts site =>
      if (snd site <=? Z.of_nat i) && negb (bool_decide (snd site ∈ starts))
      then starts ++ [snd site] else starts) (call_sites program) [0] in
  match last (merge_sort Z.le (filter (fun s => s <= Z.of_nat i) starts)) with
  | Some s => if s =? 0 then None else Some s
  | None => None
  end.

(** A target inside the program. *)
Definition in_program (program : list BpfInsn) (tgt : Z) : list nat :=
  if (0 <=? tgt) && (tgt <? Z.of_nat (length program)) then [Z.to_nat tgt] else [].

Definition static_successors (i : nat) (program : list BpfInsn) : list nat :=
  match program !! i with
  | None => []
  | Some insn =>
      let target offset := in_program program (Z.of_nat i + 1 + offset) in
      let fall := if (i + 1 <? length program)%nat then [(i + 1)%nat] else [] in
      match insn with
      | BpfInsn.Exit =>
          if (i =? 0)%nat then []
          else
            match subprog_entry_at i program with
            | Some start =>
                map (fun site => (fst site + 1)%nat) (filter (fun site => snd site = start) (call_sites program))
            | None => []
            end
      | BpfInsn.CallSub offset => target offset
      | BpfInsn.Jmp offset => target offset
      | _ => match cond_offset insn with Some offset => fall ++ target offset | None => fall end
      end
  end.

(** * The iteration *)

Record Masks := mkMasks {
  in_regs : list Z;
  out_regs : list Z;
  in_slots : list Z;
  out_slots : list Z
}.

(** [in] over the successors, joined: [o |= l[s]], an index panic ([None]) at a
    successor beyond the program. *)
Definition entry (l : list Z) (i : nat) : Z := default 0 (l !! i).
Definition join (l : list Z) (succ : list nat) : option Z :=
  fold_left (fun o s => o ← o; x ← l !! s; Some (Z.lor o x)) succ (Some 0).

Definition use_def_at (program : list BpfInsn) (i : nat) : InsnUseDef :=
  match program !! i with Some insn => use_def insn | None => regs_only 0 0 end.

(** One instruction of a round; writing an entry that is unchanged is the same
    as skipping it. *)
Definition visit (program : list BpfInsn) (st : Masks * bool) (i : nat) : option (Masks * bool) :=
  let '(m, changed) := st in
  let ud := use_def_at program i in
  o_regs ← join (in_regs m) (static_successors i program);
  o_slots ← join (in_slots m) (static_successors i program);
  let new_in_regs := Z.land o_regs (unot 16 (def_regs ud)) ||| use_regs ud in
  let new_in_slots := Z.land o_slots (unot 64 (write_slots ud)) ||| read_slots ud in
  Some (mkMasks (<[i := new_in_regs]> (in_regs m)) (<[i := o_regs]> (out_regs m))
          (<[i := new_in_slots]> (in_slots m)) (<[i := o_slots]> (out_slots m)),
        changed || negb (new_in_regs =? entry (in_regs m) i) || negb (new_in_slots =? entry (in_slots m) i) ||
        negb (o_regs =? entry (out_regs m) i) || negb (o_slots =? entry (out_slots m) i)).

Definition round (program : list BpfInsn) (m : Masks) : option (Masks * bool) :=
  fold_left (fun st i => st ← st; visit program st i) (seq 0 (length program)) (Some (m, false)).

Inductive IndexPanic := IndexPanics.

(** [loop { ... if !changed { break } }]; [None]: out of fuel. *)
Fixpoint iterate (fuel : nat) (program : list BpfInsn) (m : Masks) : option (result IndexPanic Masks) :=
  match fuel with
  | O => None
  | S fuel =>
      match round program m with
      | None => Some (Err IndexPanics)
      | Some (m', changed) => if (changed : bool) then iterate fuel program m' else Some (Ok m')
      end
  end.

(** Every round but the last sets a bit of one of the four masks of 64 bits. *)
Definition analyze_fuel (program : list BpfInsn) : nat := 256 * length program + 1.

Record Liveness := mkLiveness { live_regs : list Z; live_stack : list Z }.

Definition analyze (program : list BpfInsn) : option (result IndexPanic Liveness) :=
  let zero := replicate (length program) 0 in
  match iterate (analyze_fuel program) program (mkMasks zero zero zero zero) with
  | Some (Ok m) => Some (Ok (mkLiveness (in_regs m) (in_slots m)))
  | Some (Err e) => Some (Err e)
  | None => None
  end.

(** [get(pc).copied().unwrap_or(0)]. *)
Definition live_regs_before (l : Liveness) (pc : nat) : Z := entry (live_regs l) pc.
Definition live_stack_before (l : Liveness) (pc : nat) : Z := entry (live_stack l) pc.

(** The destination and source fields of a register instruction name registers. *)
Definition registers_ok (insn : BpfInsn) : bool :=
  match insn with
  | BpfInsn.LdImm64 dst _ | BpfInsn.LdMapFd dst _ _ _ _ | BpfInsn.LdMapValue dst _ _ _ _ => in_range 0 10 dst
  | BpfInsn.LdImm64Second _ => true
  | _ => insn_wf insn
  end.

(** [n] steps of the concrete machine from [pc], all register instructions;
    [None]: another instruction or the end of the program. *)
Fixpoint run_block (program : list BpfInsn) (n pc : nat) (c : ConcreteState)
  : option (result ConcreteFailure ConcreteState) :=
  match n with
  | O => Some (Ok c)
  | S n =>
      match program !! pc with
      | None => None
      | Some insn =>
          match concrete_step_reg (Z.of_nat pc) c insn with
          | Some (Ok c') => run_block program n (S pc) c'
          | r => r
          end
      end
  end.

(** * One family of masks *)

(** Bitwise inclusion, and the number of bits set below 64. *)
Definition subset (x y : Z) : Prop := forall b, 0 <= b -> Z.testbit x b = true -> Z.testbit y b = true.
Definition weight (x : Z) : nat := length (List.filter (Z.testbit x) (map Z.of_nat (seq 0 64))).
Definition total (l : list Z) : nat := sum_list_with weight l.

Lemma filter_weight {A} (f g : A -> bool) l :
  (forall x, In x l -> f x = true -> g x = true) ->
  (length (List.filter f l) <= length (List.filter g l))%nat /\
  ((exists x, In x l /\ f x = false /\ g x = true) ->
   (length (List.filter f l) < length (List.filter g l))%nat).
Proof.
  induction l as [|x l IH]; simpl; intros H; [split; [lia|by intros (? & [] & _)]|].
  destruct (IH (fun y Hy => H y (or_intror Hy))) as [Hle Hlt]. pose proof (H x (or_introl eq_refl)) as Hx.
  split; [destruct (f x), (g x); simpl; try lia; specialize (Hx eq_refl); done|].
  intros (y & [->|Hy] & Hf & Hg); [rewrite Hf, Hg; simpl; lia|].
  specialize (Hlt (ex_intro _ y (conj Hy (conj Hf Hg)))).
  destruct (f x), (g x); simpl; lia || (specialize (Hx eq_refl); done).
Qed.

Lemma weight_mono x y : subset x y -> (weight x <= weight y)%nat.
Proof.
  intros Hs. apply filter_weight. intros b Hb. apply Hs. apply in_map_iff in Hb as (i & <- & _). lia.
Qed.

Lemma weight_strict x y : is_u64 x -> is_u64 y -> subset x y -> x <> y -> (weight x < weight y)%nat.
Proof.
  intros Hx Hy Hs Hne. apply filter_weight.
  { intros b Hb. apply Hs. apply in_map_iff in Hb as (i & <- & _). lia. }
  assert (Hd : exists i, (i < 64)%nat /\ Z.testbit x (Z.of_nat i) <> Z.testbit y (Z.of_nat i)).
  { destruct (decide (Forall (fun i => Z.testbit x (Z.of_nat i) = Z.testbit y (Z.of_nat i)) (seq 0 64))) as [Hall|Hno].
    - destruct Hne. apply u64_ext; [done|done|]. intros b Hb. rewrite Forall_forall in Hall.
      rewrite <- (Z2Nat.id b) by lia. apply Hall. apply elem_of_seq. lia.
    - apply not_Forall_Exists, Exists_exists in Hno as (i & Hi & Hb); [|intros; exact _].
      apply elem_of_seq in Hi. exists i. split; [lia|done]. }
  destruct Hd as (i & Hi & Hb). exists (Z.of_nat i). split.
  - apply in_map, in_seq. lia.
  - specialize (Hs (Z.of_nat i) ltac:(lia)). destruct (Z.testbit x _), (Z.testbit y _); try done.
    by specialize (Hs eq_refl).
Qed.

Lemma weight_bound x : (weight x <= 64)%nat.
Proof. unfold weight. etransitivity; [apply List.filter_length_le|]. by rewrite length_map, length_seq. Qed.

Lemma total_bound l : (total l <= 64 * length l)%nat.
Proof.
  induction l as [|x l IH]; [done|]. unfold total in *. cbn [sum_list_with length].
  pose proof (weight_bound x). lia.
Qed.

Lemma total_insert l i x :
  (i < length l)%nat -> (total (<[i := x]> l) + weight (entry l i) = total l + weight x)%nat.
Proof.
  unfold total, entry. revert i. induction l as [|y l IH]; intros i Hi; simpl in Hi; [lia|].
  destruct i as [|i]; [simpl; lia|]. specialize (IH i ltac:(lia)). simpl in *. lia.
Qed.

Lemma entry_insert l i j x :
  (i < length l)%nat -> entry (<[i := x]> l) j = if decide (j = i) then x else entry l j.
Proof.
  intros Hi. unfold entry. destruct (decide (j = i)) as [->|].
  - by rewrite list_lookup_insert_eq.
  - by rewrite list_lookup_insert_ne by done.
Qed.

Lemma entry_insert_id l i : <[i := entry l i]> l = l.
Proof.
  unfold entry. destruct (l !! i) as [x|] eqn:H; [by apply list_insert_id|].
  apply list_insert_ge. by apply lookup_ge_None.
Qed.

(** ** The iteration without the panics *)

(** The join and one instruction of a round where every successor is inside. *)
Definition lub (l : list Z) (succ : list nat) : Z := fold_left (fun o s => Z.lor o (entry l s)) succ 0.
Definition sweep (program : list BpfInsn) (st : Masks * bool) (i : nat) : Masks * bool :=
  let '(m, changed) := st in
  let ud := use_def_at program i in
  let o_regs := lub (in_regs m) (static_successors i program) in
  let o_slots := lub (in_slots m) (static_successors i program) in
  let new_in_regs := Z.land o_regs (unot 16 (def_regs ud)) ||| use_regs ud in
  let new_in_slots := Z.land o_slots (unot 64 (write_slots ud)) ||| read_slots ud in
  (mkMasks (<[i := new_in_regs]> (in_regs m)) (<[i := o_regs]> (out_regs m))
     (<[i := new_in_slots]> (in_slots m)) (<[i := o_slots]> (out_slots m)),
   changed || negb (new_in_regs =? entry (in_regs m) i) || negb (new_in_slots =? entry (in_slots m) i) ||
   negb (o_regs =? entry (out_regs m) i) || negb (o_slots =? entry (out_slots m) i)).

(** The successors of an instruction, and of all of them, are inside. *)
Definition inside (n : nat) (succ : list nat) : bool := forallb (fun s => (s <? n)%nat) succ.
Definition flow_inside (program : list BpfInsn) : bool :=
  forallb (fun i => inside (length program) (static_successors i program)) (seq 0 (length program)).

Lemma join_inside l succ : join l succ = if inside (length l) succ then Some (lub l succ) else None.
Proof.
  unfold join, lub, inside. generalize 0 as o. induction succ as [|s succ IH]; intros o; [done|].
  cbn [fold_left forallb]. destruct (Nat.ltb_spec s (length l)) as [Hs|Hs].
  - destruct (lookup_lt_is_Some_2 l s Hs) as [x Hx]. unfold entry at 2. rewrite Hx. cbn. apply IH.
  - rewrite (proj2 (lookup_ge_None l s)) by lia. clear IH. cbn. induction succ as [|t succ IH]; [done|exact IH].
Qed.

Definition masks_length (n : nat) (m : Masks) : Prop := length (in_regs m) = n /\ length (in_slots m) = n.
Lemma sweep_length program m c i n : masks_length n m -> masks_length n (fst (sweep program (m, c) i)).
Proof. intros [H1 H2]. split; cbn; by rewrite length_insert. Qed.
Lemma visit_sweep program m c i : masks_length (length program) m ->
  visit program (m, c) i =
    if inside (length program) (static_successors i program) then Some (sweep program (m, c) i) else None.
Proof. intros [H1 H2]. unfold visit. rewrite !join_inside, H1, H2. by destruct (inside _ _). Qed.

Lemma fold_visit_none program l :
  fold_left (fun st i => st ← st; visit program st i) l (None : option (Masks * bool)) = None.
Proof. by induction l. Qed.
Lemma fold_visit_sweep program l : forall m c, masks_length (length program) m ->
  fold_left (fun st i => st ← st; visit program st i) l (Some (m, c)) =
    if forallb (fun i => inside (length program) (static_successors i program)) l
    then Some (fold_left (sweep program) l (m, c)) else None.
Proof.
  induction l as [|i l IH]; intros m c Hm; [done|]. cbn [fold_left forallb].
  change (Some (m, c) ≫= (fun st => visit program st i)) with (visit program (m, c) i).
  rewrite visit_sweep by done. destruct (inside _ _); [|apply fold_visit_none].
  destruct (sweep program (m, c) i) as [m' c'] eqn:E. cbn [andb]. apply IH.
  change m' with (fst (m', c')). rewrite <- E. by apply sweep_length.
Qed.
Lemma round_sweep program m : masks_length (length program) m ->
  round program m =
    if flow_inside program then Some (fold_left (sweep program) (seq 0 (length program)) (m, false)) else None.
Proof. apply fold_visit_sweep. Qed.

Lemma lub_spec l ss b :
  Z.testbit (lub l ss) b = existsb (fun s => Z.testbit (entry l s) b) ss.
Proof.
  unfold lub. rewrite <- (orb_false_l (existsb _ _)), <- (Z.testbit_0_l b). generalize 0 at 1 2 as o.
  induction ss as [|s ss IH]; intros o; simpl; [by rewrite orb_false_r|].
  by rewrite IH, Z.lor_spec, orb_assoc.
Qed.

Lemma lub_mono l l' ss : (forall i, subset (entry l i) (entry l' i)) -> subset (lub l ss) (lub l' ss).
Proof.
  intros H b Hb. rewrite !lub_spec, !existsb_exists. intros (s & ? & ?). exists s. split; [done|]. by apply H.
Qed.

(** A read of a bit that no instruction before it writes, along successors. *)
Inductive reaches_use (program : list BpfInsn) (use def : InsnUseDef -> Z) (b : Z) : nat -> Prop :=
| reach_use i insn :
    program !! i = Some insn -> Z.testbit (use (use_def insn)) b = true ->
    reaches_use program use def b i
| reach_next i s insn :
    program !! i = Some insn -> Z.testbit (def (use_def insn)) b = false ->
    s ∈ static_successors i program -> reaches_use program use def b s ->
    reaches_use program use def b i.

Section family.
Context (program : list BpfInsn) (w : Z) (use def : InsnUseDef -> Z).
Hypothesis Hw : 0 <= w <= 64.
Hypothesis use_range : forall i, 0 <= use (use_def_at program i) < 2 ^ w.
Hypothesis def_range : forall i, 0 <= def (use_def_at program i) < 2 ^ w.

Abbreviation size := (length program).

Definition flow (i : nat) (o : Z) : Z :=
  Z.lor (Z.land o (unot w (def (use_def_at program i)))) (use (use_def_at program i)).
Definition fam_step (p : list Z * list Z) (i : nat) : list Z * list Z :=
  let o := lub (fst p) (static_successors i program) in
  (<[i := flow i o]> (fst p), <[i := o]> (snd p)).

Lemma flow_spec i o b :
  0 <= b ->
  Z.testbit (flow i o) b =
    (Z.testbit o b && (b <? w) && negb (Z.testbit (def (use_def_at program i)) b)) ||
    Z.testbit (use (use_def_at program i)) b.
Proof using Hw def_range.
  intros Hb. unfold flow. rewrite Z.lor_spec, Z.land_spec, unot_spec by lia. f_equal.
  destruct (Z.ltb_spec b w); [by rewrite andb_true_r|]. rewrite xorb_false_l.
  rewrite (testbit_high w (def _) b) by (lia || apply def_range). by rewrite !andb_false_r.
Qed.

Lemma flow_mono i o o' : subset o o' -> subset (flow i o) (flow i o').
Proof using Hw def_range.
  intros Hs b Hb. rewrite !flow_spec by done. specialize (Hs b Hb).
  destruct (Z.testbit o b), (Z.testbit o' b); simpl; try done; [by specialize (Hs eq_refl)|].
  intros ->. apply orb_true_r.
Qed.

Lemma flow_range i o : 0 <= flow i o < 2 ^ w.
Proof using Hw def_range use_range.
  apply bits_range; [lia|]. intros b Hb. rewrite flow_spec by lia.
  rewrite (proj2 (Z.ltb_ge b w)) by lia.
  rewrite (testbit_high w (use _) b) by (lia || apply use_range). by rewrite andb_false_r.
Qed.

Lemma range_u64 x : 0 <= x < 2 ^ w -> is_u64 x.
Proof using Hw. pose proof (Z.pow_le_mono_r 2 w 64 ltac:(lia) ltac:(lia)). lia. Qed.

(** The invariant of the iteration: the entries are words, each stored pair is
    below what the equations give for the current [in], and every bit set has a
    read behind it. *)
Definition fam_inv (p : list Z * list Z) : Prop :=
  length (fst p) = size /\ length (snd p) = size /\
  (forall i, 0 <= entry (fst p) i < 2 ^ w) /\ (forall i, 0 <= entry (snd p) i < 2 ^ w) /\
  (forall i, subset (entry (snd p) i) (lub (fst p) (static_successors i program))) /\
  (forall i, (i < size)%nat -> subset (entry (fst p) i) (flow i (entry (snd p) i))) /\
  (forall i b, 0 <= b -> Z.testbit (entry (fst p) i) b = true -> reaches_use program use def b i).

Lemma entry_out l i : (length l <= i)%nat -> entry l i = 0.
Proof. intros H. unfold entry. by rewrite (proj2 (lookup_ge_None l i) H). Qed.

Lemma lub_range l ss : (forall i, 0 <= entry l i < 2 ^ w) -> 0 <= lub l ss < 2 ^ w.
Proof using Hw.
  intros H. apply bits_range; [lia|]. intros b Hb. rewrite lub_spec. apply not_true_is_false.
  rewrite existsb_exists. intros (s & _ & Hs). rewrite (testbit_high w) in Hs by (lia || apply H). done.
Qed.

Lemma zero_inv : fam_inv (replicate size 0, replicate size 0).
Proof using Hw def_range use_range.
  assert (H0 : forall i, entry (replicate size 0) i = 0).
  { intros i. unfold entry. destruct (decide (i < size)%nat); [by rewrite lookup_replicate_2|].
    destruct (replicate size 0 !! i) eqn:E; [|done]. apply lookup_lt_Some in E. rewrite length_replicate in E. lia. }
  split_and!; simpl; try apply length_replicate; intros i; rewrite ?H0; try lia.
  - intros b Hb. by rewrite Z.testbit_0_l.
  - intros _ b Hb. by rewrite Z.testbit_0_l.
  - intros b Hb. by rewrite Z.testbit_0_l.
Qed.

(** One step keeps the invariant, only adds bits, and adds one if it changes
    anything. *)
Lemma fam_step_ok p i :
  fam_inv p -> (i < size)%nat ->
  fam_inv (fam_step p i) /\
  ((total (fst p) + total (snd p) < total (fst (fam_step p i)) + total (snd (fam_step p i)))%nat \/
   (fam_step p i = p /\ entry (fst p) i = flow i (lub (fst p) (static_successors i program)))).
Proof using Hw def_range use_range.
  intros (Hl & Hl' & Hr & Hr' & Hout & Hin & Hreach) Hi. unfold fam_step.
  set (o := lub (fst p) (static_successors i program)).
  assert (Hgrow : subset (entry (fst p) i) (flow i o)).
  { intros b Hb Ht. apply (flow_mono i (entry (snd p) i) o (Hout i) b Hb). by apply Hin. }
  assert (Hmono : forall j, subset (entry (fst p) j) (entry (<[i := flow i o]> (fst p)) j)).
  { intros j. rewrite entry_insert by lia. case_decide; [by subst j|by intros b]. }
  assert (Hor : 0 <= o < 2 ^ w) by by apply lub_range.
  split.
  - split_and!; simpl; rewrite ?length_insert; try done.
    + intros j. rewrite entry_insert by lia. case_decide; [apply flow_range|apply Hr].
    + intros j. rewrite entry_insert by lia. case_decide; [done|apply Hr'].
    + intros j b Hb Ht. apply (lub_mono _ _ _ Hmono b Hb). rewrite entry_insert in Ht by lia.
      case_decide as Hj; [by subst j|]. by apply Hout.
    + intros j Hj. rewrite !entry_insert by lia. case_decide as Hji; [subst j; by intros b|]. by apply Hin.
    + intros j b Hb. rewrite entry_insert by lia. case_decide as Hji; [subst j|by apply Hreach].
      rewrite flow_spec by done. unfold use_def_at.
      destruct (lookup_lt_is_Some_2 program i Hi) as [insn Hinsn]. rewrite Hinsn.
      destruct (Z.testbit (use (use_def insn)) b) eqn:Hu; [intros _; by apply (reach_use _ _ _ _ i insn)|].
      rewrite orb_false_r, !andb_true_iff, negb_true_iff. intros [[Ho _] Hd]. unfold o in Ho.
      rewrite lub_spec, existsb_exists in Ho. destruct Ho as (s & Hs & Ht).
      apply (reach_next _ _ _ _ i s insn); try done; [by apply list_elem_of_In|by apply Hreach].
  - simpl. pose proof (total_insert (fst p) i (flow i o) ltac:(lia)) as Ht1.
    pose proof (total_insert (snd p) i o ltac:(lia)) as Ht2.
    pose proof (weight_mono _ _ Hgrow) as Hw1. pose proof (weight_mono _ _ (Hout i : subset (entry (snd p) i) o)) as Hw2.
    destruct (Z.eq_dec (entry (fst p) i) (flow i o)) as [He|Hne].
    + destruct (Z.eq_dec (entry (snd p) i) o) as [He'|Hne'].
      * right. split; [|done]. rewrite <- He, <- He' at 1. rewrite !entry_insert_id. by destruct p.
      * left. pose proof (weight_strict (entry (snd p) i) o) as Hlt.
        specialize (Hlt (range_u64 _ (Hr' i)) (range_u64 _ Hor) (Hout i) Hne'). lia.
    + left. pose proof (weight_strict (entry (fst p) i) (flow i o)) as Hlt.
      specialize (Hlt (range_u64 _ (Hr i)) (range_u64 _ (flow_range i o)) Hgrow Hne). lia.
Qed.

(** At a fixed point every reachable read is recorded. *)
Lemma fixpoint_complete l :
  (forall i, (i < size)%nat -> entry l i = flow i (lub l (static_successors i program))) ->
  forall b i, 0 <= b < w -> reaches_use program use def b i -> Z.testbit (entry l i) b = true.
Proof using Hw def_range.
  intros Hfix b i Hb. induction 1 as [i insn Hi Hu|i s insn Hi Hd Hs Hreach IH];
    rewrite (Hfix i) by (by apply lookup_lt_Some in Hi); rewrite flow_spec by lia;
    unfold use_def_at; rewrite Hi.
  - rewrite Hu. apply orb_true_r.
  - rewrite Hd, lub_spec, (proj2 (Z.ltb_lt b w)) by lia.
    rewrite (proj2 (existsb_exists _ _)); [done|]. exists s. split; [by apply list_elem_of_In|done].
Qed.
End family.

(** * Both families together *)

Definition mask_ok (w x : Z) : Prop := 0 <= x < 2 ^ w.

Lemma lor_mask w x y : 0 <= w -> mask_ok w x -> mask_ok w y -> mask_ok w (Z.lor x y).
Proof.
  unfold mask_ok. intros Hw Hx Hy. apply bits_range; [done|]. intros i Hi.
  by rewrite Z.lor_spec, (testbit_high w x), (testbit_high w y) by (done || lia).
Qed.

Lemma reg_bit_mask r : mask_ok 16 (reg_bit r).
Proof. unfold mask_ok. apply as_u_range. lia. Qed.
Lemma zero_mask w : 0 <= w -> mask_ok w 0.
Proof. unfold mask_ok. intros. split; [lia|]. by apply Z.pow_pos_nonneg. Qed.

Lemma read_slots_mask base offset : mask_ok 64 (read_slots_for base offset).
Proof.
  unfold read_slots_for. assert (mask_ok 64 all_slots) by (vm_compute; done).
  repeat case_match; try done; apply as_u_range; lia.
Qed.
Lemma write_slots_mask base offset size : mask_ok 64 (write_slots_for base offset size).
Proof.
  unfold write_slots_for. repeat case_match; try (apply zero_mask; lia); apply as_u_range; lia.
Qed.

Ltac masks := repeat first [apply lor_mask; [lia| |] | apply reg_bit_mask | apply zero_mask; lia
                           | apply read_slots_mask | apply write_slots_mask | case_match].
Lemma use_def_masks insn :
  mask_ok 16 (use_regs (use_def insn)) /\ mask_ok 16 (def_regs (use_def insn)) /\
  mask_ok 64 (read_slots (use_def insn)) /\ mask_ok 64 (write_slots (use_def insn)).
Proof. destruct insn; cbn [use_def regs_only use_regs def_regs read_slots write_slots]; split_and!; masks. Qed.

Lemma use_def_at_masks program i :
  mask_ok 16 (use_regs (use_def_at program i)) /\ mask_ok 16 (def_regs (use_def_at program i)) /\
  mask_ok 64 (read_slots (use_def_at program i)) /\ mask_ok 64 (write_slots (use_def_at program i)).
Proof.
  unfold use_def_at. destruct (program !! i) as [insn|]; [apply use_def_masks|].
  cbn [regs_only use_regs def_regs read_slots write_slots]. split_and!; masks.
Qed.

Section program.
Context (program : list BpfInsn).

Abbreviation reg_pair m := (in_regs m, out_regs m).
Abbreviation slot_pair m := (in_slots m, out_slots m).
Abbreviation reg_inv := (fam_inv program 16 use_regs def_regs).
Abbreviation slot_inv := (fam_inv program 64 read_slots write_slots).
Definition potential (m : Masks) : nat :=
  (total (in_regs m) + total (out_regs m) + (total (in_slots m) + total (out_slots m)))%nat.
Definition masks_inv (m : Masks) : Prop := reg_inv (reg_pair m) /\ slot_inv (slot_pair m).

(** The equations hold at instruction [i]. *)
Definition solved (m : Masks) (i : nat) : Prop :=
  entry (in_regs m) i = flow program 16 use_regs def_regs i (lub (in_regs m) (static_successors i program)) /\
  entry (in_slots m) i = flow program 64 read_slots write_slots i (lub (in_slots m) (static_successors i program)).

Lemma sweep_parts m changed i :
  (i < length (in_regs m))%nat -> (i < length (in_slots m))%nat ->
  (i < length (out_regs m))%nat -> (i < length (out_slots m))%nat ->
  sweep program (m, changed) i =
    (let pr := fam_step program 16 use_regs def_regs (reg_pair m) i in
     let ps := fam_step program 64 read_slots write_slots (slot_pair m) i in
     (mkMasks (fst pr) (snd pr) (fst ps) (snd ps),
      changed || negb (entry (fst pr) i =? entry (in_regs m) i) || negb (entry (fst ps) i =? entry (in_slots m) i) ||
      negb (entry (snd pr) i =? entry (out_regs m) i) || negb (entry (snd ps) i =? entry (out_slots m) i))).
Proof.
  intros. cbv zeta. unfold fam_step. cbn [fst snd]. rewrite !entry_insert by done. by rewrite !decide_True by done.
Qed.

Lemma fam_step_same w use def p i :
  (i < length (fst p))%nat -> (i < length (snd p))%nat ->
  entry (fst (fam_step program w use def p i)) i = entry (fst p) i ->
  entry (snd (fam_step program w use def p i)) i = entry (snd p) i ->
  fam_step program w use def p i = p.
Proof.
  intros Hi Hi'. unfold fam_step. cbn [fst snd]. rewrite !entry_insert, !decide_True by done.
  intros H1 H2. rewrite H1, H2, !entry_insert_id. by destruct p.
Qed.

Lemma sweep_ok m changed i :
  masks_inv m -> (i < length program)%nat ->
  let '(m', changed') := sweep program (m, changed) i in
  masks_inv m' /\ (potential m <= potential m')%nat /\
  (changed' = false -> changed = false /\ m' = m /\ solved m i) /\
  (changed' = true -> changed = true \/ (potential m < potential m')%nat).
Proof.
  intros [Hr Hs] Hi.
  assert (Hru : forall i, 0 <= use_regs (use_def_at program i) < 2 ^ 16) by (intros; apply use_def_at_masks).
  assert (Hrd : forall i, 0 <= def_regs (use_def_at program i) < 2 ^ 16) by (intros; apply use_def_at_masks).
  assert (Hsu : forall i, 0 <= read_slots (use_def_at program i) < 2 ^ 64) by (intros; apply use_def_at_masks).
  assert (Hsd : forall i, 0 <= write_slots (use_def_at program i) < 2 ^ 64) by (intros; apply use_def_at_masks).
  destruct (fam_step_ok program 16 use_regs def_regs ltac:(lia) Hru Hrd _ i Hr Hi) as [Hr' Hrc].
  destruct (fam_step_ok program 64 read_slots write_slots ltac:(lia) Hsu Hsd _ i Hs Hi) as [Hs' Hsc].
  pose proof Hr as (Hl1 & Hl2 & _). pose proof Hs as (Hl3 & Hl4 & _). cbn [fst snd] in Hl1, Hl2, Hl3, Hl4.
  rewrite sweep_parts by lia. cbv zeta.
  pose proof (fam_step_same 16 use_regs def_regs (reg_pair m) i) as Hsame.
  pose proof (fam_step_same 64 read_slots write_slots (slot_pair m) i) as Hsame'.
  set (pr := fam_step _ 16 _ _ _ i) in *. set (ps := fam_step _ 64 _ _ _ i) in *.
  split; [split; cbn [in_regs out_regs in_slots out_slots]; by rewrite <- surjective_pairing|].
  unfold potential. cbn [in_regs out_regs in_slots out_slots fst snd] in *.
  split; [destruct Hrc as [?|[-> _]], Hsc as [?|[-> _]]; cbn [fst snd]; lia|]. split.
  - rewrite !orb_false_iff, !negb_false_iff, !Z.eqb_eq. intros ((((Hc & H1) & H2) & H3) & H4).
    specialize (Hsame ltac:(lia) ltac:(lia) H1 H3). specialize (Hsame' ltac:(lia) ltac:(lia) H2 H4).
    rewrite Hsame in Hrc |- *. rewrite Hsame' in Hsc |- *. cbn [fst snd] in *.
    destruct Hrc as [?|[_ ?]]; [lia|]. destruct Hsc as [?|[_ ?]]; [lia|].
    split_and!; [done| |by split]. by destruct m.
  - intros Hc. destruct changed; [by left|right]. cbn [orb] in Hc.
    destruct Hrc as [?|[Hpr _]]; [destruct Hsc as [?|[-> _]]; cbn [fst snd]; lia|].
    destruct Hsc as [?|[Hps _]]; [rewrite Hpr; cbn [fst snd]; lia|].
    rewrite Hpr, Hps in Hc. cbn [fst snd] in Hc. by rewrite !Z.eqb_refl in Hc.
Qed.

Lemma fold_sweep_ok l : forall m changed,
  masks_inv m -> (forall i, i ∈ l -> (i < length program)%nat) ->
  let '(m', changed') := fold_left (sweep program) l (m, changed) in
  masks_inv m' /\ (potential m <= potential m')%nat /\
  (changed' = false -> changed = false /\ m' = m /\ forall i, i ∈ l -> solved m i) /\
  (changed' = true -> changed = true \/ (potential m < potential m')%nat).
Proof.
  induction l as [|i l IH]; intros m changed Hm Hl; cbn [fold_left].
  { split_and!; auto. intros ->. split_and!; try done. intros i Hi. by apply not_elem_of_nil in Hi. }
  pose proof (sweep_ok m changed i Hm ltac:(apply Hl; by left)) as Hv.
  destruct (sweep program (m, changed) i) as [m1 c1] eqn:Hsweep. destruct Hv as (Hm1 & Hp & Hf & Ht).
  specialize (IH m1 c1 Hm1 ltac:(intros j Hj; apply Hl; by right)).
  destruct (fold_left (sweep program) l (m1, c1)) as [m' c']. destruct IH as (Hm' & Hp' & Hf' & Ht').
  split_and!; [done|lia| |].
  - intros ->. destruct (Hf' eq_refl) as (-> & -> & Hall). destruct (Hf eq_refl) as (-> & -> & Hi).
    split_and!; try done. intros j [->|Hj]%elem_of_cons; [done|by apply Hall].
  - intros ->. destruct (Ht' eq_refl) as [->|]; [|right; lia]. destruct (Ht eq_refl); [by left|right; lia].
Qed.

Lemma potential_bound m : masks_inv m -> (potential m <= 256 * length program)%nat.
Proof.
  intros [(H1 & H2 & _) (H3 & H4 & _)]. cbn [fst snd] in *. unfold potential.
  pose proof (total_bound (in_regs m)). pose proof (total_bound (out_regs m)).
  pose proof (total_bound (in_slots m)). pose proof (total_bound (out_slots m)). lia.
Qed.

Lemma iterate_ok (Hinside : flow_inside program = true) fuel : forall m,
  masks_inv m -> (256 * length program < potential m + fuel)%nat ->
  exists m', iterate fuel program m = Some (Ok m') /\ masks_inv m' /\
    forall i, (i < length program)%nat -> solved m' i.
Proof.
  induction fuel as [|fuel IH]; intros m Hm Hf; [pose proof (potential_bound m Hm); lia|].
  cbn [iterate]. rewrite round_sweep, Hinside by (destruct Hm as [(? & _) (? & _)]; by split).
  pose proof (fold_sweep_ok (seq 0 (length program)) m false Hm) as Hv.
  destruct (fold_left (sweep program) (seq 0 (length program)) (m, false)) as [m' c].
  destruct Hv as (Hm' & Hp & Hfalse & Htrue); [intros i Hi; apply elem_of_seq in Hi; lia|].
  destruct c.
  - destruct (Htrue eq_refl) as [|Hlt]; [done|]. apply IH; [done|lia].
  - destruct (Hfalse eq_refl) as (_ & -> & Hall). exists m. split_and!; try done.
    intros i Hi. apply Hall. apply elem_of_seq. lia.
Qed.

Lemma analyze_ok : flow_inside program = true ->
  exists l, analyze program = Some (Ok l) /\
    forall pc b, (pc < length program)%nat ->
      (0 <= b < 16 -> Z.testbit (live_regs_before l pc) b = true <->
        reaches_use program use_regs def_regs b pc) /\
      (0 <= b < 64 -> Z.testbit (live_stack_before l pc) b = true <->
        reaches_use program read_slots write_slots b pc).
Proof.
  intros Hinside.
  assert (Hru : forall i, 0 <= use_regs (use_def_at program i) < 2 ^ 16) by (intros; apply use_def_at_masks).
  assert (Hrd : forall i, 0 <= def_regs (use_def_at program i) < 2 ^ 16) by (intros; apply use_def_at_masks).
  assert (Hsu : forall i, 0 <= read_slots (use_def_at program i) < 2 ^ 64) by (intros; apply use_def_at_masks).
  assert (Hsd : forall i, 0 <= write_slots (use_def_at program i) < 2 ^ 64) by (intros; apply use_def_at_masks).
  unfold analyze. cbv zeta. unfold analyze_fuel.
  match goal with |- context [iterate _ _ ?m0] => destruct (iterate_ok Hinside (256 * length program + 1) m0) as (m & -> & Hm & Hsol) end.
  { split; apply zero_inv; (lia || done). }
  { lia. }
  eexists. split; [reflexivity|]. intros pc b Hpc. unfold live_regs_before, live_stack_before. cbn [live_regs live_stack].
  split; intros Hb; split.
  - apply (proj1 Hm). lia.
  - intros H. by apply (fixpoint_complete program 16 use_regs def_regs ltac:(lia) Hrd (in_regs m)); [apply Hsol|..].
  - apply (proj2 Hm). lia.
  - intros H. by apply (fixpoint_complete program 64 read_slots write_slots ltac:(lia) Hsd (in_slots m)); [apply Hsol|..].
Qed.

Lemma analyze_panics : flow_inside program = false -> analyze program = Some (Err IndexPanics).
Proof.
  intros Hinside. unfold analyze, analyze_fuel. rewrite Nat.add_1_r. cbn [iterate].
  rewrite round_sweep by (split; cbn; apply length_replicate). by rewrite Hinside.
Qed.
Lemma analyzed_inside l : analyze program = Some (Ok l) -> flow_inside program = true.
Proof. destruct (flow_inside program) eqn:Hi; [done|]. by rewrite analyze_panics. Qed.

Lemma analyze_total : exists r, analyze program = Some r.
Proof.
  destruct (flow_inside program) eqn:Hi; [destruct (analyze_ok Hi) as (l & -> & _)|rewrite (analyze_panics Hi)]; by eexists.
Qed.

Lemma analyze_end l pc : analyze program = Some (Ok l) -> (length program <= pc)%nat -> live_regs_before l pc = 0.
Proof.
  intros Hl. pose proof (analyzed_inside l Hl) as Hinside. revert Hl. unfold analyze. cbv zeta. unfold analyze_fuel.
  match goal with |- context [iterate _ _ ?m0] => destruct (iterate_ok Hinside (256 * length program + 1) m0) as (m & -> & Hm & _) end.
  { split; apply zero_inv; (lia || done || intros; apply use_def_at_masks). }
  { lia. }
  intros [= <-] Hpc. unfold live_regs_before, entry. cbn [live_regs].
  destruct Hm as [(Hlen & _) _]. cbn [fst] in Hlen. by rewrite (proj2 (lookup_ge_None _ _)) by lia.
Qed.
End program.

(** ** Programs with a successor past the end *)

(** The last instruction calls a subprogram that some exit is attributed to. *)
Definition returns_past_end (program : list BpfInsn) : Prop :=
  exists last offset i start, length program = S last /\ program !! last = Some (BpfInsn.CallSub offset) /\
    program !! i = Some BpfInsn.Exit /\ i <> 0%nat /\
    subprog_entry_at i program = Some start /\ call_target last offset = start.

Lemma call_sites_spec program site : site ∈ call_sites program <->
  exists offset, program !! fst site = Some (BpfInsn.CallSub offset) /\ snd site = call_target (fst site) offset.
Proof.
  unfold call_sites. rewrite list_elem_of_In, in_concat. setoid_rewrite <- list_elem_of_In.
  setoid_rewrite list_elem_of_lookup at 1. split.
  - intros (l & (i & Hi) & Hs). rewrite list_lookup_imap in Hi. destruct (program !! i) as [insn|] eqn:Hp; [|done].
    injection Hi as <-. destruct insn; cbn in Hs; try (by apply not_elem_of_nil in Hs).
    apply list_elem_of_singleton in Hs as ->. cbn. eauto.
  - intros (offset & Hp & Ht). exists [site]. split; [|by apply list_elem_of_singleton].
    exists (fst site). rewrite list_lookup_imap, Hp. cbn. by rewrite <- Ht, <- surjective_pairing.
Qed.

Lemma in_program_inside program tgt s : s ∈ in_program program tgt -> (s < length program)%nat.
Proof.
  unfold in_program. destruct (_ && _) eqn:Hc; [|intros H; by apply not_elem_of_nil in H].
  intros ->%list_elem_of_singleton. apply andb_prop in Hc as [H1%Z.leb_le H2%Z.ltb_lt]. lia.
Qed.

(** Only the return of a subprogram leads past the end. *)
Lemma successor_outside program i s : s ∈ static_successors i program -> (length program <= s)%nat ->
  program !! i = Some BpfInsn.Exit /\ i <> 0%nat /\
  exists start site, subprog_entry_at i program = Some start /\ site ∈ call_sites program /\
    snd site = start /\ s = S (fst site).
Proof.
  unfold static_successors. destruct (program !! i) as [insn|] eqn:Hi; [|intros Hnil; by apply not_elem_of_nil in Hnil].
  intros Hs Hlen. pose proof (in_program_inside program) as Hin.
  set (fall := if (i + 1 <? length program)%nat then _ else _) in Hs.
  assert (Hfall : s ∈ fall -> (s < length program)%nat).
  { unfold fall. destruct (Nat.ltb_spec (i + 1) (length program)); [|intros Hnil; by apply not_elem_of_nil in Hnil].
    by intros ->%list_elem_of_singleton. }
  destruct insn; cbn [cond_offset] in Hs; rewrite ?elem_of_app in Hs;
    try (exfalso; naive_solver lia).
  destruct (Nat.eqb_spec i 0); [by apply not_elem_of_nil in Hs|].
  destruct (subprog_entry_at i program) as [start|]; [|by apply not_elem_of_nil in Hs].
  split_and!; [done..|]. rewrite list_elem_of_In, in_map_iff in Hs. destruct Hs as (site & <- & Hs).
  rewrite <- list_elem_of_In, list_elem_of_filter in Hs. destruct Hs as [? ?]. exists start, site.
  split_and!; [done..|lia].
Qed.

Lemma flow_inside_spec program : flow_inside program = false <-> returns_past_end program.
Proof.
  rewrite <- not_true_iff_false. unfold flow_inside, inside. rewrite forallb_forall. setoid_rewrite forallb_forall.
  setoid_rewrite Nat.ltb_lt. setoid_rewrite in_seq. setoid_rewrite <- list_elem_of_In. split.
  - intros Hn. destruct (decide (Exists (fun i => Exists (fun s => (length program <= s)%nat) (static_successors i program))
      (seq 0 (length program)))) as [He|He].
    + apply Exists_exists in He as (i & _ & (s & Hs & Hlen)%Exists_exists).
      destruct (successor_outside program i s Hs Hlen) as (Hi & H0 & start & [pc tgt] & Hstart & Hsite & Ht & ->).
      apply call_sites_spec in Hsite as (offset & Hp & Htgt). cbn in *. pose proof (lookup_lt_Some _ _ _ Hp).
      exists pc, offset, i, start. split_and!; [lia|done..|congruence].
    + destruct Hn. intros i Hi s Hs. destruct (decide (s < length program)%nat) as [|Hlt]; [done|]. destruct He.
      apply Exists_exists. exists i. split; [apply elem_of_seq; lia|]. apply Exists_exists. exists s. split; [done|lia].
  - intros (last & offset & i & start & Hlen & Hl & Hi & H0 & Hstart & Ht) Hall.
    pose proof (lookup_lt_Some _ _ _ Hi). specialize (Hall i ltac:(lia) (S last)). rewrite Hlen in Hall.
    enough (S last ∈ static_successors i program) by (specialize (Hall ltac:(done)); lia).
    unfold static_successors. rewrite Hi, Hstart, (proj2 (Nat.eqb_neq i 0) H0).
    rewrite list_elem_of_In, in_map_iff. exists (last, call_target last offset). split; [cbn; lia|].
    rewrite <- list_elem_of_In, list_elem_of_filter. split; [done|]. apply call_sites_spec. by exists offset.
Qed.

(** A program that does not end with a call has all its successors inside. *)
Lemma last_not_call_inside program :
  (forall offset, last program <> Some (BpfInsn.CallSub offset)) -> flow_inside program = true.
Proof.
  intros Hl. apply not_false_iff_true. intros (n & offset & i & start & Hlen & Hn & _)%flow_inside_spec.
  apply (Hl offset). by rewrite last_lookup, Hlen.
Qed.

(** * Dead registers and register instructions *)

(** The states agree on the registers of [mask] and on everything else. *)
Definition agree (mask : Z) (c1 c2 : ConcreteState) : Prop :=
  length (cregs c1) = 11%nat /\ length (cregs c2) = 11%nat /\
  cstack c1 = cstack c2 /\ csaved c1 = csaved c2 /\ ccurframe c1 = ccurframe c2 /\
  cret_pc c1 = cret_pc c2 /\ cprog_type c1 = cprog_type c2 /\
  forall r, 0 <= r < 11 -> Z.testbit mask r = true -> creg c1 r = creg c2 r.

(** The registers before an instruction that may matter after it. *)
Definition before (insn : BpfInsn) (out : Z) : Z :=
  Z.lor (Z.land out (unot 16 (def_regs (use_def insn)))) (use_regs (use_def insn)).

Definition same_result (out : Z) (a b : result ConcreteFailure ConcreteState) : Prop :=
  match a, b with
  | Ok c1, Ok c2 => agree out c1 c2
  | Err e1, Err e2 => e1 = e2
  | _, _ => False
  end.

Lemma reg_bit_spec r r' : 0 <= r < 16 -> 0 <= r' -> Z.testbit (reg_bit r) r' = (r =? r').
Proof.
  intros. unfold reg_bit. rewrite as_u_spec, Z.shiftl_1_l, Z.pow2_bits_eqb by lia.
  destruct (Z.eqb_spec r r'); [|apply andb_false_r]. subst. by rewrite (proj2 (Z.ltb_lt r' 16)) by lia.
Qed.

Lemma agree_read pc mask c1 c2 r :
  agree mask c1 c2 -> 0 <= r -> (r < 11 -> Z.testbit mask r = true) ->
  read_concrete_reg pc c1 r = read_concrete_reg pc c2 r.
Proof.
  intros (_&_&_&_&_&_&_&Hr) H0 Hm. unfold read_concrete_reg, check_concrete_reg.
  destruct (Z.leb_spec 11 r); [done|]. cbn [rbind]. by rewrite (Hr r) by (lia || auto).
Qed.

(** The destination is written with the same value, or nothing is written. *)
Lemma agree_write mask out dst v c1 c2 :
  agree mask c1 c2 -> 0 <= dst < 11 ->
  (forall r, 0 <= r < 11 -> r <> dst -> Z.testbit out r = true -> Z.testbit mask r = true) ->
  agree out (set_creg dst v c1) (set_creg dst v c2).
Proof.
  intros (H1&H2&?&?&?&?&?&Hr) Hd Hout. unfold agree, creg, set_creg in *.
  cbn [cregs cstack csaved ccurframe cret_pc cprog_type]. rewrite !length_insert. split_and!; try done.
  intros r Hlt Hb. rewrite !list_lookup_total_alt.
  destruct (decide (r = dst)) as [->|Hne].
  - by rewrite !list_lookup_insert_eq by lia.
  - rewrite !list_lookup_insert_ne by lia. rewrite <- !list_lookup_total_alt. auto.
Qed.

Section write_only.
Context (pc dst out mask : Z) (c1 c2 : ConcreteState).
Hypothesis Hagree : agree mask c1 c2.
Hypothesis Hdst : 0 <= dst < 11.
Hypothesis Hout : forall r, 0 <= r < 11 -> r <> dst -> Z.testbit out r = true -> Z.testbit mask r = true.

Lemma write_agree v : same_result out (Ok (set_creg dst v c1)) (Ok (set_creg dst v c2)).
Proof using Hagree Hdst Hout. by apply (agree_write mask). Qed.

Lemma read_agree r : 0 <= r < 11 -> Z.testbit mask r = true ->
  read_concrete_reg pc c1 r = read_concrete_reg pc c2 r.
Proof using Hagree. intros. apply (agree_read pc mask); [done|lia|done]. Qed.

Ltac agree_cases := repeat case_match; try done; try apply write_agree.

Lemma alu_imm_agree imm op w : Z.testbit mask dst = true ->
  same_result out (concrete_alu_imm pc c1 dst imm op w) (concrete_alu_imm pc c2 dst imm op w).
Proof using Hagree Hdst Hout.
  intros Hb. unfold concrete_alu_imm. rewrite <- (read_agree dst Hdst Hb).
  destruct (check_concrete_reg pc dst); [|done]. cbn [rbind].
  destruct (_ && _); [done|]. destruct (read_concrete_reg pc c1 dst); [|done]. cbn [rbind]. agree_cases.
Qed.

Lemma alu_reg_agree src op w : Z.testbit mask dst = true -> 0 <= src < 11 -> Z.testbit mask src = true ->
  same_result out (concrete_alu_reg pc c1 dst src op w) (concrete_alu_reg pc c2 dst src op w).
Proof using Hagree Hdst Hout.
  intros Hb Hs Hbs. unfold concrete_alu_reg. rewrite <- (read_agree dst Hdst Hb), <- (read_agree src Hs Hbs).
  destruct (check_concrete_reg pc dst); [|done]. destruct (read_concrete_reg pc c1 dst); [|done].
  destruct (read_concrete_reg pc c1 src); [|done]. cbn [rbind]. agree_cases.
Qed.

Lemma mul_high_agree imm high : Z.testbit mask dst = true ->
  same_result out (concrete_mul_high pc c1 dst imm high) (concrete_mul_high pc c2 dst imm high).
Proof using Hagree Hdst Hout.
  intros Hb. unfold concrete_mul_high. rewrite <- (read_agree dst Hdst Hb).
  destruct (read_concrete_reg pc c1 dst); [|done]. cbn [rbind]. agree_cases.
Qed.

Lemma mul_high_reg_agree src high : Z.testbit mask dst = true -> 0 <= src < 11 -> Z.testbit mask src = true ->
  same_result out (concrete_mul_high_reg pc c1 dst src high) (concrete_mul_high_reg pc c2 dst src high).
Proof using Hagree Hdst Hout.
  intros Hb Hs Hbs. unfold concrete_mul_high_reg. destruct high; [by apply alu_reg_agree|..];
    rewrite <- (read_agree dst Hdst Hb), <- (read_agree src Hs Hbs);
    (destruct (read_concrete_reg pc c1 dst); [|done]); (destruct (read_concrete_reg pc c1 src); [|done]);
    cbn [rbind]; agree_cases.
Qed.

Lemma neg_agree w : Z.testbit mask dst = true ->
  same_result out (concrete_neg pc c1 dst w) (concrete_neg pc c2 dst w).
Proof using Hagree Hdst Hout.
  intros Hb. unfold concrete_neg. rewrite <- (read_agree dst Hdst Hb).
  destruct (read_concrete_reg pc c1 dst); [|done]. cbn [rbind]. agree_cases.
Qed.

Lemma load_agree v : same_result out (concrete_load pc c1 dst v) (concrete_load pc c2 dst v).
Proof using Hagree Hdst Hout.
  unfold concrete_load. destruct (check_concrete_reg pc dst); [apply write_agree|done].
Qed.

Lemma mov_agree src : 0 <= src < 11 -> Z.testbit mask src = true ->
  same_result out (concrete_mov_reg pc c1 dst src) (concrete_mov_reg pc c2 dst src) /\
  same_result out (concrete_mov32_reg pc c1 dst src) (concrete_mov32_reg pc c2 dst src).
Proof using Hagree Hdst Hout.
  intros Hs Hbs. unfold concrete_mov_reg, concrete_mov32_reg. rewrite <- (read_agree src Hs Hbs).
  destruct (check_concrete_reg pc dst); [|done]. destruct (read_concrete_reg pc c1 src); [|done].
  cbn [rbind]. split; agree_cases.
Qed.
End write_only.

Lemma agree_weaken mask mask' c1 c2 :
  agree mask c1 c2 -> (forall r, 0 <= r < 11 -> Z.testbit mask' r = true -> Z.testbit mask r = true) ->
  agree mask' c1 c2.
Proof. intros (?&?&?&?&?&?&?&Hr) Hm. unfold agree. split_and!; auto. Qed.

(** One register instruction. *)
Lemma step_agree pc insn out c1 c2 :
  agree (before insn out) c1 c2 -> registers_ok insn = true ->
  match concrete_step_reg pc c1 insn, concrete_step_reg pc c2 insn with
  | Some a, Some b => same_result out a b
  | None, None => True
  | _, _ => False
  end.
Proof.
  intros Ha Hok. unfold registers_ok in Hok.
  destruct insn; try exact I; cbn [concrete_step_reg];
    unfold insn_wf in Hok; cbn [encode_fields] in Hok;
    rewrite ?andb_true_iff, ?in_range_iff in Hok; destruct_and? Hok;
    first [apply (alu_imm_agree _ _ _ _ _ _ Ha)|apply (alu_reg_agree _ _ _ _ _ _ Ha)
          |apply (mul_high_agree _ _ _ _ _ _ Ha)|apply (mul_high_reg_agree _ _ _ _ _ _ Ha)
          |apply (neg_agree _ _ _ _ _ _ Ha)|apply (load_agree _ _ _ _ _ _ Ha)
          |apply (mov_agree _ _ _ _ _ _ Ha)|idtac]; try lia.
  all: try (intros r Hr Hne Hout).
  all: unfold before in *; cbn [use_def regs_only use_regs def_regs] in *.
  all: rewrite ?Z.lor_spec, ?Z.land_spec, ?unot_spec, ?reg_bit_spec by lia.
all: try (rewrite Hout, (proj2 (Z.ltb_lt r 16)), (proj2 (Z.eqb_neq dst r)) by lia; done).
  all: rewrite ?Z.eqb_refl, ?orb_true_r; try done.
  apply (agree_weaken _ _ _ _ Ha). intros r Hr Hb.
  by rewrite Z.lor_spec, Z.land_spec, unot_spec, Hb, Z.testbit_0_l, (proj2 (Z.ltb_lt r 16)) by lia.
Qed.

(** A register live after an instruction and not written, or read by it, is
    live before it. *)
Lemma live_before program l pc insn r :
  (forall pc b, (pc < length program)%nat -> 0 <= b < 16 ->
     Z.testbit (live_regs_before l pc) b = true <-> reaches_use program use_regs def_regs b pc) ->
  program !! pc = Some insn -> 0 <= r < 16 ->
  ((S pc < length program)%nat -> S pc ∈ static_successors pc program) ->
  ((length program <= S pc)%nat -> live_regs_before l (S pc) = 0) ->
  Z.testbit (before insn (live_regs_before l (S pc))) r = true ->
  Z.testbit (live_regs_before l pc) r = true.
Proof.
  intros Hl Hi Hr Hsucc Hend Hb. pose proof (lookup_lt_Some _ _ _ Hi) as Hlt. apply Hl; [done..|].
  unfold before in Hb. rewrite Z.lor_spec, Z.land_spec, unot_spec in Hb by lia.
  destruct (Z.testbit (use_regs (use_def insn)) r) eqn:Hu; [by apply (reach_use _ _ _ _ pc insn)|].
  rewrite orb_false_r, andb_true_iff, (proj2 (Z.ltb_lt r 16)) in Hb by lia. destruct Hb as [Hb Hd].
  destruct (decide (S pc < length program)%nat) as [Hn|Hn].
  - apply (reach_next _ _ _ _ pc (S pc) insn); [done| |auto|by apply Hl]. by apply negb_true_iff.
  - rewrite Hend, Z.testbit_0_l in Hb by lia. done.
Qed.

Lemma register_successor program pc c insn res :
  program !! pc = Some insn -> concrete_step_reg (Z.of_nat pc) c insn = Some res ->
  (S pc < length program)%nat -> S pc ∈ static_successors pc program.
Proof.
  intros Hi Hs Hlt. unfold static_successors. rewrite Hi.
  assert (Hfall : S pc ∈ (if (pc + 1 <? length program)%nat then [(pc + 1)%nat] else [])).
  { rewrite (proj2 (Nat.ltb_lt _ _)) by lia. rewrite Nat.add_1_r. by apply list_elem_of_singleton. }
  destruct insn; try discriminate Hs; exact Hfall.
Qed.

Lemma run_block_agree program l :
  (forall pc b, (pc < length program)%nat -> 0 <= b < 16 ->
     Z.testbit (live_regs_before l pc) b = true <-> reaches_use program use_regs def_regs b pc) ->
  (forall pc, (length program <= pc)%nat -> live_regs_before l pc = 0) ->
  Forall (fun insn => registers_ok insn = true) program ->
  forall n pc c1 c2, agree (live_regs_before l pc) c1 c2 ->
  match run_block program n pc c1, run_block program n pc c2 with
  | Some a, Some b => same_result (live_regs_before l (pc + n)) a b
  | None, None => True
  | _, _ => False
  end.
Proof.
  intros Hl Hend Hok. induction n as [|n IH]; intros pc c1 c2 Ha; cbn [run_block].
  { by rewrite Nat.add_0_r. }
  destruct (program !! pc) as [insn|] eqn:Hi; [|done].
  rewrite Forall_lookup in Hok. specialize (Hok pc insn Hi).
  pose proof (step_agree (Z.of_nat pc) insn (live_regs_before l (S pc)) c1 c2) as Hstep.
  destruct (concrete_step_reg (Z.of_nat pc) c1 insn) as [a|] eqn:Hs.
  - assert (Hb : agree (before insn (live_regs_before l (S pc))) c1 c2).
    { apply (agree_weaken _ _ _ _ Ha). intros r Hr.
      apply (live_before program l pc insn r Hl Hi ltac:(lia)); [|by apply Hend].
      by apply (register_successor program pc c1 insn a). }
    specialize (Hstep Hb Hok). destruct (concrete_step_reg (Z.of_nat pc) c2 insn) as [b|]; [|done].
    destruct a as [a|], b as [b|]; try done. rewrite Nat.add_succ_r. by apply (IH (S pc)).
  - destruct insn; try discriminate Hs; done.
Qed.

(** * Properties *)


(** Both cases arise: a program of two functions whose last instruction is a call
    of the second one, and the same program with an exit behind the call. *)
Example trailing_call_panics :
  let program := [BpfInsn.MovImm 0 0; BpfInsn.Exit; BpfInsn.Exit; BpfInsn.CallSub (-2)] in
  analyze program = Some (Err IndexPanics) /\
  analyze (program ++ [BpfInsn.Exit]) = Some (Ok (mkLiveness [0; 1; 1; 62; 1] [0; 0; 0; 0; 0])).
Proof. split; vm_compute; reflexivity. Qed.

(** A register that is not live cannot influence a block of register
    instructions: from states that agree on the registers live before the
    block, the concrete machine takes the same steps, fails alike, or reaches
    states that agree on the registers live after the block. *)
Theorem dead_registers_irrelevant (program : list BpfInsn) (l : Liveness) (n pc : nat) (c1 c2 : ConcreteState) :
  analyze program = Some (Ok l) ->
  Forall (fun insn => registers_ok insn = true) program ->
  agree (live_regs_before l pc) c1 c2 ->
  match run_block program n pc c1, run_block program n pc c2 with
  | Some a, Some b => same_result (live_regs_before l (pc + n)) a b
  | None, None => True
  | _, _ => False
  end.
Proof.
  intros Hl Hok. destruct (analyze_ok program (analyzed_inside program l Hl)) as (l' & Hl' & Hexact).
  rewrite Hl in Hl'. injection Hl' as <-.
  apply run_block_agree; [|intros i Hi; by apply (analyze_end program)|done].
  intros i b Hi. by apply (Hexact i b).
Qed.

Definition dead_example : list BpfInsn :=
  [BpfInsn.MovImm 1 5; BpfInsn.AddReg 1 2; BpfInsn.MovReg 0 1; BpfInsn.Exit].

Lemma dead_registers_irrelevant_witness :
  exists l c1 c2, analyze dead_example = Some (Ok l) /\ c1 <> c2 /\ agree (live_regs_before l 0) c1 c2 /\
    match run_block dead_example 3 0 c1, run_block dead_example 3 0 c2 with
    | Some a, Some b => same_result (live_regs_before l (0 + 3)) a b
    | None, None => True
    | _, _ => False
    end.
Proof.
  set (c x := set_creg 2 (CScalar 7) (set_creg 1 (CScalar x) (cinitial_with Ctx.ProgType.SocketFilter))).
  assert (Hl : analyze dead_example = Some (Ok (mkLiveness [4; 6; 2; 1] [0; 0; 0; 0]))) by (vm_compute; reflexivity).
  assert (Ha : agree (live_regs_before (mkLiveness [4; 6; 2; 1] [0; 0; 0; 0]) 0) (c 0) (c 1)).
  { unfold agree. split_and!; try reflexivity. intros r Hr. cbv [live_regs_before entry live_regs].
    assert (Hc : r = 0 \/ r = 1 \/ r = 2 \/ 3 <= r) by lia.
    destruct Hc as [->|[->|[->|Hc]]]; try reflexivity; try (intros Hx; discriminate Hx).
    intros Hx. rewrite (testbit_high 3) in Hx; [discriminate|simpl; lia|lia]. }
  exists (mkLiveness [4; 6; 2; 1] [0; 0; 0; 0]), (c 0), (c 1). split; [exact Hl|].
  split; [intros He; apply (f_equal (fun c => creg c 1)) in He; discriminate He|].
  split; [exact Ha|].
  apply (dead_registers_irrelevant dead_example _ 3 0 (c 0) (c 1)); [exact Hl| |exact Ha].
  repeat constructor.
Defined.

(** The table of reads is incomplete.  A compare-and-exchange reads R0, and
    R0 is dead before it; an atomic operation on a stack slot reads the slot,
    and the slot is dead before it; a helper reads the stack slots its
    arguments point to, and they are dead before the call. *)
Theorem liveness_gaps :
  (exists l, analyze [BpfInsn.MovImm 0 1; BpfInsn.Atomic 10 1 (-8) MemSize.DW AtomicOp.Cmpxchg true; BpfInsn.Exit]
     = Some (Ok l) /\ Z.testbit (live_regs_before l 1) 0 = false) /\
  (exists l, analyze [BpfInsn.StMem 1 10 (-8) MemSize.DW; BpfInsn.Atomic 10 1 (-8) MemSize.DW AtomicOp.Add true;
                      BpfInsn.LdMem 0 10 (-8) MemSize.DW false; BpfInsn.Exit]
     = Some (Ok l) /\ Z.testbit (live_stack_before l 1) 0 = false) /\
  (exists l, analyze [BpfInsn.StMem 1 10 (-8) MemSize.DW; BpfInsn.MovReg 2 10; BpfInsn.AddImm 2 (-8);
                      BpfInsn.Call 1; BpfInsn.MovImm 0 0; BpfInsn.Exit]
     = Some (Ok l) /\ Z.testbit (live_stack_before l 3) 0 = false).
Proof. split_and!; (eexists; split; [vm_compute; reflexivity|vm_compute; reflexivity]). Qed.
