(* ===== verification/Cfg.v ===== *)
(** Control-flow checks (src/src/cfg.rs): subprogram entries, the successors of an
    instruction with their boundary checks, the depth-first search for loop heads
    and unreachable code, and the stack budget of the call chains.  The theorems:
    the search ends without an index out of range; an accepted program has every
    instruction reachable, every successor inside the program, and its loop heads
    cut exactly the cycles; the call-chain check accepts exactly the programs whose
    chains are acyclic, at most 16 frames deep and within the stack. *)
From Stdlib Require Import ZArith Lia List Bool Relations.
From stdpp Require Import base option list sorting.
From S2P Require Import Prelude Insn State Liveness.
Open Scope Z_scope.

(** * Subprograms *)

(** The loop over [insns] from index [pc]; [n] is the length of the program. *)
Fixpoint collect_starts (n : Z) (pc : nat) (insns : list BpfInsn) (starts : list Z)
  : result VerificationFailure (list Z) :=
  match insns with
  | [] => Ok starts
  | BpfInsn.CallSub offset :: rest =>
      let target := call_target pc offset in
      if n <=? target then fail (Z.of_nat pc) (CallOutOfProgram target)
      else collect_starts n (S pc) rest (if bool_decide (target ∈ starts) then starts else starts ++ [target])
  | _ :: rest => collect_starts n (S pc) rest starts
  end.

Definition add_subprog (insns : list BpfInsn) : result VerificationFailure (list Z) :=
  let? starts := collect_starts (Z.of_nat (length insns)) 0 insns [0] in
  Ok (merge_sort Z.le starts).

(** [rfind], [find] and [position] on the sorted entries. *)
Definition find_subprog_range (insn_idx : Z) (subprogs : list Z) (insn_cnt : Z) : Z * Z :=
  (default 0 (last (filter (fun s => s <= insn_idx) subprogs)),
   default insn_cnt (head (filter (fun s => insn_idx < s) subprogs))).

Fixpoint position (x : Z) (l : list Z) : option nat :=
  match l with
  | [] => None
  | y :: l => if y =? x then Some 0%nat else S <$> position x l
  end.

(** The end of the [i]-th subprogram. *)
Definition subprog_end (subprogs : list Z) (i : nat) (insn_cnt : Z) : Z := default insn_cnt (subprogs !! S i).

(** * Stack budget *)

(** [(-off as i64 + size as i64).max(0).div_ceil(8) * 8]. *)
Definition use_bytes (off size : Z) : Z := (Z.max (- off + size) 0 + 7) / 8 * 8.

Definition stack_access (insn : BpfInsn) : option (Z * Z * Z) :=
  match insn with
  | BpfInsn.LdMem _ base offset size _ | BpfInsn.StMem _ base offset size
  | BpfInsn.StMemImm _ base offset size => Some (base, offset, MemSize.bytes size)
  | _ => None
  end.

(** The bytes below R10 one instruction uses directly. *)
Definition direct_use (insn : BpfInsn) : Z :=
  match stack_access insn with
  | Some (10, offset, size) => (Z.max (as_i16 (- offset) + size) 0 + 7) / 8 * 8
  | _ => 0
  end.

(** [insns[start..end]], indexed. *)
Definition insn_range (insns : list BpfInsn) (start stop : Z) : list (nat * BpfInsn) :=
  take (Z.to_nat stop - Z.to_nat start) (drop (Z.to_nat start) (imap pair insns)).

Definition direct_stack_depths (insns : list BpfInsn) (subprogs : list Z) : list Z :=
  let insn_cnt := Z.of_nat (length insns) in
  imap (fun i start =>
          fold_left (fun d p => Z.max d (direct_use (snd p)))
            (insn_range insns start (subprog_end subprogs i insn_cnt)) 0) subprogs.

Definition chain_total (depth : list Z) (chain : list nat) : Z :=
  fold_right Z.add 0 (map (fun c => default 0 (depth !! c)) chain).

(** [visit]: the calls of subprogram [idx], the last of [chain] (first in the
    list here).  A chain never repeats an entry, so as many levels as there are
    subprograms are enough; [None]: out of fuel. *)
Section visit.
Context (insns : list BpfInsn) (subprogs : list Z) (depth : list Z).

Definition check_call (callee : nat) (pc : nat) (chain : list nat) : result VerificationFailure unit :=
  if bool_decide (callee ∈ chain)
  then fail (Z.of_nat pc) (RecursiveCall (default 0 (subprogs !! callee)))
  else
    let chain := callee :: chain in
    if MAX_CALL_FRAMES <? Z.of_nat (length chain)
    then fail (Z.of_nat pc) (CallStackTooDeep (Z.of_nat (length chain) - 1))
    else if STACK_SIZE <? chain_total depth chain
    then fail (Z.of_nat pc) (CombinedStackTooLarge (Z.of_nat (length chain)) (chain_total depth chain))
    else Ok tt.

Definition callee_of (p : nat * BpfInsn) : option nat :=
  match snd p with
  | BpfInsn.CallSub offset => position (Z.of_nat (fst p) + 1 + offset) subprogs
  | _ => None
  end.

Definition subprog_body (idx : nat) : list (nat * BpfInsn) :=
  let '(start, stop) :=
    find_subprog_range (default 0 (subprogs !! idx)) subprogs (Z.of_nat (length insns)) in
  insn_range insns start stop.

(** The calls in [body], each checked and followed by [visit]. *)
Fixpoint visit_body (visit : nat -> list nat -> option (result VerificationFailure unit)) (chain : list nat)
    (body : list (nat * BpfInsn)) : option (result VerificationFailure unit) :=
  match body with
  | [] => Some (Ok tt)
  | p :: body =>
      match callee_of p with
      | None => visit_body visit chain body
      | Some callee =>
          match check_call callee (fst p) chain with
          | Err e => Some (Err e)
          | Ok _ =>
              match visit callee (callee :: chain) with
              | Some (Ok _) => visit_body visit chain body
              | r => r
              end
          end
      end
  end.

Fixpoint visit_chain (fuel : nat) (idx : nat) (chain : list nat) : option (result VerificationFailure unit) :=
  match fuel with
  | O => None
  | S fuel => visit_body (visit_chain fuel) chain (subprog_body idx)
  end.
End visit.

Definition check_stack_call_chains (insns : list BpfInsn) (subprogs depth : list Z)
  : option (result VerificationFailure unit) :=
  visit_chain insns subprogs depth (S (length subprogs)) 0 [0%nat].

Definition check_combined_stack_depth (insns : list BpfInsn) (subprogs : list Z)
  : option (result VerificationFailure unit) :=
  check_stack_call_chains insns subprogs (direct_stack_depths insns subprogs).

(** Which subprogram owns a stack frame of an abstract state. *)
Definition frame_subprog_entry (s : VerifierState) (frameno : Z) (insns : list BpfInsn) : option Z :=
  if frameno =? 0 then Some 0
  else if curframe s <? frameno then None
  else
    return_pc ← (if frameno =? curframe s then Some (ret_pc s)
                 else f ← saved s !! Z.to_nat frameno; frame_ret_pc <$> f);
    if return_pc <? 1 then None
    else
      let call_pc := return_pc - 1 in
      match insns !! Z.to_nat call_pc with
      | Some (BpfInsn.CallSub offset) => Some (as_u32 (call_pc + 1 + offset))
      | _ => None
      end.

(** One abstract state at a stack access: the depth its base pointer needs. *)
Definition aliased_use (insns : list BpfInsn) (subprogs : list Z) (pc : Z) (access : Z * Z * Z)
    (s : VerifierState) (depth : list Z) : result VerificationFailure (list Z) :=
  let '(base, offset, size) := access in
  match reg s base with
  | PtrToStack min_offset _ _ frameno =>
      match frame_subprog_entry s frameno insns with
      | None => fail pc UnresolvedStackOwner
      | Some entry =>
          match position entry subprogs with
          | None => fail pc StackOwnerNotSubprogram
          | Some idx =>
              Ok (<[idx := Z.max (default 0 (depth !! idx)) (use_bytes (min_offset + offset) size)]> depth)
          end
      end
  | _ => Ok depth
  end.

(** The states by program counter, in the order the map yields them. *)
Fixpoint aliased_depths (insns : list BpfInsn) (subprogs : list Z) (pc : Z) (access : Z * Z * Z)
    (states : list VerifierState) (depth : list Z) : result VerificationFailure (list Z) :=
  match states with
  | [] => Ok depth
  | s :: states =>
      let? depth := aliased_use insns subprogs pc access s depth in
      aliased_depths insns subprogs pc access states depth
  end.

Fixpoint all_aliased_depths (insns : list BpfInsn) (subprogs : list Z)
    (states : list (Z * list VerifierState)) (depth : list Z) : result VerificationFailure (list Z) :=
  match states with
  | [] => Ok depth
  | (pc, states_at_pc) :: states =>
      match insns !! Z.to_nat pc ≫= stack_access with
      | None => all_aliased_depths insns subprogs states depth
      | Some access =>
          let? depth := aliased_depths insns subprogs pc access states_at_pc depth in
          all_aliased_depths insns subprogs states depth
      end
  end.

Definition check_combined_stack_depth_with_states (insns : list BpfInsn) (subprogs : list Z)
    (states : list (Z * list VerifierState)) : option (result VerificationFailure unit) :=
  match all_aliased_depths insns subprogs states (direct_stack_depths insns subprogs) with
  | Ok depth => check_stack_call_chains insns subprogs depth
  | Err e => Some (Err e)
  end.

(** * Successors *)

Definition check_ldimm64_target (idx target : Z) (insns : list BpfInsn) : result VerificationFailure unit :=
  match insns !! Z.to_nat target with
  | Some (BpfInsn.LdImm64Second _) => fail idx (MiddleOfLdImm64 target)
  | _ => Ok tt
  end.

(** The target of a jump or branch at [idx], inside [start, stop). *)
Definition checked_target (idx offset start stop : Z) (insns : list BpfInsn) (crosses : Z -> Z -> Z -> Reason)
  : result VerificationFailure Z :=
  let target := as_u32 (as_i32 idx + 1 + offset) in
  if (target <? start) || (stop <=? target) then fail idx (crosses target start stop)
  else let? _ := check_ldimm64_target idx target insns in Ok target.

Definition raw_nexts (idx : Z) (insns : list BpfInsn) (subprogs : list Z) (start stop : Z) (insn : BpfInsn)
  : result VerificationFailure (list Z) :=
  match insn with
  | BpfInsn.Exit =>
      if start =? 0 then Ok []
      else Ok (map (fun site => Z.of_nat (fst site) + 1) (filter (fun site => snd site = start) (call_sites insns)))
  | BpfInsn.Jmp offset =>
      let? target := checked_target idx offset start stop insns JumpCrossesBoundary in Ok [target]
  | BpfInsn.CallSub offset =>
      let target := as_u32 (as_i32 idx + 1 + offset) in
      if bool_decide (target ∈ subprogs) then Ok [target] else fail idx (CallTargetNotEntry target)
  | _ =>
      match cond_offset insn with
      | Some offset =>
          let? target := checked_target idx offset start stop insns BranchCrossesBoundary in
          Ok [target; idx + 1]
      | None => Ok [idx + 1]
      end
  end.

(** [None]: the index is outside the program (a panic of the source). *)
Definition visit_insn (idx : Z) (insns : list BpfInsn) (subprogs : list Z)
  : option (result VerificationFailure (list Z)) :=
  match insns !! Z.to_nat idx with
  | None => None
  | Some insn =>
      let '(start, stop) := find_subprog_range idx subprogs (Z.of_nat (length insns)) in
      Some
        (let? nexts := raw_nexts idx insns subprogs start stop insn in
         if bool_decide (idx + 1 ∈ nexts) && (stop <=? idx + 1) then fail idx (FallsThrough start stop)
         else Ok nexts)
  end.

(** * The search *)

Module VisitState.
Inductive VisitState := NotVisited | Discovering | Explored.
End VisitState.
Abbreviation VisitState := VisitState.VisitState.
#[global] Instance visit_state_eq_dec : EqDecision VisitState.
Proof. solve_decision. Defined.

(** The first subprogram that does not end with an exit or a jump; [None]: an
    index out of range. *)
Fixpoint check_ends (insns : list BpfInsn) (subprogs : list Z) (starts : list Z) (i : nat)
  : option (result VerificationFailure unit) :=
  match starts with
  | [] => Some (Ok tt)
  | start :: starts =>
      let stop := subprog_end subprogs i (Z.of_nat (length insns)) in
      match insns !! Z.to_nat (stop - 1) with
      | Some BpfInsn.Exit | Some (BpfInsn.Jmp _) => check_ends insns subprogs starts (S i)
      | Some _ => Some (fail (stop - 1) (NoFinalExit start stop))
      | None => None
      end
  end.

Record Search := mkSearch {
  visited : list VisitState;
  todo : list (Z * nat);        (* the stack, top first *)
  loop_heads : list Z
}.

(** One turn of the loop: [None] for a panic, else an error or the next state. *)
Definition search_step (insns : list BpfInsn) (subprogs : list Z) (st : Search) (idx : Z) (child : nat)
    (rest : list (Z * nat)) : option (result VerificationFailure Search) :=
  match visit_insn idx insns subprogs with
  | None => None
  | Some (Err e) => Some (Err e)
  | Some (Ok nexts) =>
      match nexts !! child with
      | Some nxt =>
          let stack := (idx, S child) :: rest in
          match visited st !! Z.to_nat nxt with
          | None => None
          | Some VisitState.NotVisited =>
              Some (Ok (mkSearch (<[Z.to_nat nxt := VisitState.Discovering]> (visited st))
                          ((nxt, 0%nat) :: stack) (loop_heads st)))
          | Some VisitState.Discovering =>
              Some (Ok (mkSearch (visited st) stack
                          (if bool_decide (nxt ∈ loop_heads st) then loop_heads st else loop_heads st ++ [nxt])))
          | Some VisitState.Explored => Some (Ok (mkSearch (visited st) stack (loop_heads st)))
          end
      | None =>
          Some (Ok (mkSearch (<[Z.to_nat idx := VisitState.Explored]> (visited st)) rest (loop_heads st)))
      end
  end.

(** [None]: out of fuel, or an index out of range. *)
Fixpoint search (fuel : nat) (insns : list BpfInsn) (subprogs : list Z) (st : Search)
  : option (result VerificationFailure Search) :=
  match fuel with
  | O => None
  | S fuel =>
      match todo st with
      | [] => Some (Ok st)
      | (idx, child) :: rest =>
          match search_step insns subprogs st idx child rest with
          | Some (Ok st) => search fuel insns subprogs st
          | r => r
          end
      end
  end.

(** Every instruction is entered once and left after as many turns as it has
    successors, at most one per instruction or two. *)
Definition search_fuel (insns : list BpfInsn) : nat := length insns * (length insns + 3) + 1.

Definition check_cfg (insns : list BpfInsn) (subprogs : list Z) : option (result VerificationFailure (list Z)) :=
  match insns with
  | [] => Some (fail 0 EmptyProgram)
  | _ =>
      match check_ends insns subprogs subprogs 0 with
      | None => None
      | Some (Err e) => Some (Err e)
      | Some (Ok _) =>
          let start := mkSearch (<[0%nat := VisitState.Discovering]> (replicate (length insns) VisitState.NotVisited))
                         [(0, 0%nat)] [] in
          match search (search_fuel insns) insns subprogs start with
          | None => None
          | Some (Err e) => Some (Err e)
          | Some (Ok st) =>
              match list_find (fun v => v = VisitState.NotVisited) (visited st) with
              | Some (i, _) => Some (fail (Z.of_nat i) Unreachable)
              | None => Some (Ok (loop_heads st))
              end
          end
      end
  end.

(** * Entries *)

Lemma collect_starts_ok n insns : forall pc starts starts',
  collect_starts n pc insns starts = Ok starts' ->
  (NoDup starts -> NoDup starts') /\ starts ⊆ starts' /\
  (forall t, t ∈ starts' -> t ∈ starts \/ 0 <= t < n) /\
  (forall t, t ∈ starts' -> t ∈ starts \/
     exists i offset, insns !! i = Some (BpfInsn.CallSub offset) /\ t = call_target (pc + i) offset) /\
  (forall i offset, insns !! i = Some (BpfInsn.CallSub offset) -> call_target (pc + i) offset ∈ starts').
Proof.
  induction insns as [|insn insns IH]; intros pc starts starts' H; cbn [collect_starts] in H.
  { injection H as <-. split_and!; auto; done. }
  assert (Hskip : (forall i offset, insns !! i = Some (BpfInsn.CallSub offset) -> call_target (S pc + i) offset ∈ starts') ->
    (forall offset, insn <> BpfInsn.CallSub offset) ->
    forall i offset, (insn :: insns) !! i = Some (BpfInsn.CallSub offset) -> call_target (pc + i) offset ∈ starts').
  { intros Ha Hn [|i] offset Hi; [by injection Hi as ->; destruct (Hn offset)|].
    rewrite Nat.add_succ_r. by apply Ha. }
  assert (Hsrc : (forall t, t ∈ starts' -> t ∈ starts \/
      exists i offset, insns !! i = Some (BpfInsn.CallSub offset) /\ t = call_target (S pc + i) offset) ->
    forall t, t ∈ starts' -> t ∈ starts \/
      exists i offset, (insn :: insns) !! i = Some (BpfInsn.CallSub offset) /\ t = call_target (pc + i) offset).
  { intros Ha t Ht. destruct (Ha t Ht) as [|(i & offset & Hi & ->)]; [by left|right].
    exists (S i), offset. by rewrite Nat.add_succ_r. }
  destruct insn; try (destruct (IH _ _ _ H) as (?&?&?&?&?); split_and!; auto; fail).
  clear Hskip Hsrc. destruct (Z.leb_spec n (call_target pc offset)); [done|].
  destruct (IH _ _ _ H) as (Hnd & Hsub & Hin & Hsrc & Hc).
  assert (Ht : call_target pc offset ∈ starts').
  { apply Hsub. case_bool_decide; [done|]. apply elem_of_app. right. by apply list_elem_of_singleton. }
  split_and!.
  - intros Hd. apply Hnd. case_bool_decide; [done|]. apply NoDup_app. split_and!; [done| |apply NoDup_singleton].
    by intros x Hx ->%list_elem_of_singleton.
  - intros x Hx. apply Hsub. case_bool_decide; [done|]. apply elem_of_app. by left.
  - intros t Hx. destruct (Hin t Hx) as [Ht'|Ht']; [|by right]. case_bool_decide; [by left|].
    apply elem_of_app in Ht' as [?| ->%list_elem_of_singleton]; [by left|right].
    split; [|lia]. unfold call_target. apply as_u_range. lia.
  - intros t Hx. destruct (Hsrc t Hx) as [Ht'|(i & offset' & Hi & ->)].
    + case_bool_decide; [by left|]. apply elem_of_app in Ht' as [?| ->%list_elem_of_singleton]; [by left|right].
      exists 0%nat, offset. by rewrite Nat.add_0_r.
    + right. exists (S i), offset'. by rewrite Nat.add_succ_r.
  - intros [|i] offset' Hi; [injection Hi as <-; by rewrite Nat.add_0_r|].
    rewrite Nat.add_succ_r. by apply (Hc i).
Qed.

(** What the sorted entries of a program are. *)
Record entries_ok (insns : list BpfInsn) (subprogs : list Z) : Prop := {
  entries_sorted : Sorted.StronglySorted Z.le subprogs;
  entries_nodup : NoDup subprogs;
  entries_zero : 0 ∈ subprogs;
  entries_range : forall t, t ∈ subprogs -> t = 0 \/ 0 <= t < Z.of_nat (length insns);
  entries_source : forall t, t ∈ subprogs ->
    t = 0 \/ exists i offset, insns !! i = Some (BpfInsn.CallSub offset) /\ t = call_target i offset;
  entries_calls : forall i offset, insns !! i = Some (BpfInsn.CallSub offset) -> call_target i offset ∈ subprogs
}.

Lemma add_subprog_ok insns subprogs : add_subprog insns = Ok subprogs -> entries_ok insns subprogs.
Proof.
  unfold add_subprog. intros (starts & H & [= <-])%rbind_ok.
  destruct (collect_starts_ok _ _ _ _ _ H) as (Hnd & Hsub & Hin & Hsrc & Hc).
  pose proof (merge_sort_Permutation Z.le starts) as Hp. split.
  - apply (StronglySorted_merge_sort Z.le).
  - rewrite Hp. apply Hnd, NoDup_singleton.
  - rewrite Hp. apply Hsub. by left.
  - intros t. rewrite Hp. intros [->%list_elem_of_singleton|?]%Hin; auto.
  - intros t. rewrite Hp. intros [->%list_elem_of_singleton|?]%Hsrc; auto.
  - intros i offset Hi. rewrite Hp. by apply (Hc i).
Qed.

(** * Successors *)

Lemma find_range_ok insns subprogs idx start stop :
  entries_ok insns subprogs -> 0 <= idx -> insns <> [] ->
  find_subprog_range idx subprogs (Z.of_nat (length insns)) = (start, stop) ->
  0 <= start /\ 0 <= stop <= Z.of_nat (length insns).
Proof.
  intros He Hi Hn [= <- <-]. assert (0 < Z.of_nat (length insns)) by (destruct insns; [done|simpl; lia]).
  assert (Hr : forall t, t ∈ subprogs -> 0 <= t < Z.of_nat (length insns)).
  { intros t Ht. destruct (entries_range _ _ He t Ht); lia. }
  split.
  - destruct (last _) eqn:Hl; simpl; [|lia]. apply last_Some_elem_of, list_elem_of_filter in Hl as [_ Hl].
    by apply Hr.
  - destruct (head _) eqn:Hl; simpl; [|lia]. apply head_Some_elem_of, list_elem_of_filter in Hl as [_ Hl].
    specialize (Hr _ Hl). lia.
Qed.

Lemma check_ends_ok insns subprogs starts : forall i,
  check_ends insns subprogs starts i = Some (Ok tt) ->
  forall k, (k < length starts)%nat ->
  exists insn, insns !! Z.to_nat (subprog_end subprogs (i + k) (Z.of_nat (length insns)) - 1) = Some insn /\
    (insn = BpfInsn.Exit \/ exists offset, insn = BpfInsn.Jmp offset).
Proof.
  induction starts as [|s starts IH]; intros i H k Hk; [simpl in Hk; lia|]. cbn [check_ends] in H.
  destruct (insns !! _) as [insn|] eqn:Hi; [|done].
  assert (Hk' : check_ends insns subprogs starts (S i) = Some (Ok tt) /\
                (insn = BpfInsn.Exit \/ exists offset, insn = BpfInsn.Jmp offset)).
  { destruct insn; try discriminate H; split; eauto. }
  destruct Hk' as [Hc Hd]. destruct k as [|k]; [rewrite Nat.add_0_r; by exists insn|].
  rewrite Nat.add_succ_r. apply (IH (S i) Hc k). simpl in Hk. lia.
Qed.

(** The last instruction of the program does not fall through. *)
Lemma last_insn insns subprogs :
  entries_ok insns subprogs -> check_ends insns subprogs subprogs 0 = Some (Ok tt) ->
  exists insn, insns !! (length insns - 1)%nat = Some insn /\
    (insn = BpfInsn.Exit \/ exists offset, insn = BpfInsn.Jmp offset).
Proof.
  intros He Hc. pose proof (entries_zero _ _ He) as H0.
  destruct (check_ends_ok _ _ _ _ Hc (length subprogs - 1)) as (insn & Hi & Hd).
  { destruct subprogs; [by apply not_elem_of_nil in H0|simpl; lia]. }
  exists insn. split; [|done]. rewrite <- Hi. f_equal. unfold subprog_end.
  rewrite (proj2 (lookup_ge_None _ _)) by lia. simpl. lia.
Qed.

Lemma call_sites_ok insns pc t :
  (pc, t) ∈ call_sites insns -> exists offset, insns !! pc = Some (BpfInsn.CallSub offset) /\ t = call_target pc offset.
Proof.
  by intros (offset & Hi & Ht)%call_sites_spec; eauto.
Qed.

Lemma call_sites_length insns : (length (call_sites insns) <= length insns)%nat.
Proof.
  unfold call_sites. rewrite length_concat.
  assert (Hl : Forall (fun l => (length l <= 1)%nat) (imap sites_at insns)).
  { apply Forall_forall. intros l Hl. apply elem_of_lookup_imap in Hl as (i & insn & -> & _).
    destruct insn; simpl; lia. }
  pose proof (length_imap sites_at insns) as He. revert He. generalize (length insns).
  induction Hl as [|l ls Hl Hls IH]; intros n He; simpl in *; [lia|].
  destruct n as [|n]; [done|]. specialize (IH n ltac:(lia)). lia.
Qed.

(** The next instructions of one instruction. *)
Definition edge (insns : list BpfInsn) (subprogs : list Z) (u v : Z) : Prop :=
  exists nexts, visit_insn u insns subprogs = Some (Ok nexts) /\ v ∈ nexts.

Lemma checked_target_ok idx offset start stop insns crosses t :
  checked_target idx offset start stop insns crosses = Ok t -> start <= t < stop.
Proof.
  unfold checked_target. cbv zeta. destruct (Z.ltb_spec (as_u32 (as_i32 idx + 1 + offset)) start); [done|].
  destruct (Z.leb_spec stop (as_u32 (as_i32 idx + 1 + offset))); [done|].
  intros (? & _ & [= <-])%rbind_ok. done.
Qed.

Lemma nexts_ok insns subprogs idx nexts :
  entries_ok insns subprogs -> check_ends insns subprogs subprogs 0 = Some (Ok tt) ->
  0 <= idx -> visit_insn idx insns subprogs = Some (Ok nexts) ->
  (length nexts <= length insns + 1)%nat /\ forall v, v ∈ nexts -> 0 <= v < Z.of_nat (length insns).
Proof.
  intros He Hc Hidx. unfold visit_insn.
  destruct (insns !! Z.to_nat idx) as [insn|] eqn:Hi; [|done].
  assert (Hne : insns <> []) by by intros ->. assert (Hlen : (1 <= length insns)%nat) by (destruct insns; [done|simpl; lia]).
  destruct (find_subprog_range idx subprogs (Z.of_nat (length insns))) as [start stop] eqn:Hr.
  destruct (find_range_ok insns subprogs idx start stop He Hidx Hne Hr) as [Hs0 Hs1].
  intros [= (nexts' & Hraw & H)%rbind_ok].
  destruct (bool_decide (idx + 1 ∈ nexts') && (stop <=? idx + 1)) eqn:Hf; [done|]. injection H as <-.
  assert (Hfall : idx + 1 ∈ nexts' -> 0 <= idx + 1 < Z.of_nat (length insns)).
  { intros Hin. rewrite (bool_decide_eq_true_2 _ Hin) in Hf. apply Z.leb_gt in Hf. lia. }
  clear Hf. unfold raw_nexts in Hraw.
  destruct insn; cbn [cond_offset] in Hraw;
    try (injection Hraw as <-; split; [simpl; lia|intros v ->%list_elem_of_singleton; apply Hfall; by left]);
    try (apply rbind_ok in Hraw as (t & Ht & [= <-]); apply checked_target_ok in Ht;
         split; [simpl; lia|]; intros v [->|Hv]%elem_of_cons; [lia|];
         first [by apply not_elem_of_nil in Hv
               |apply list_elem_of_singleton in Hv as ->; apply Hfall; right; by left]).
  - case_bool_decide as Hin; [|done]. injection Hraw as <-. split; [simpl; lia|].
    intros v ->%list_elem_of_singleton. destruct (entries_range _ _ He _ Hin); lia.
  - destruct (start =? 0); injection Hraw as <-; [by split; [simpl; lia|intros v ?%not_elem_of_nil]|].
    split.
    + rewrite length_map. etransitivity; [apply length_filter|]. pose proof (call_sites_length insns). lia.
    + intros v ([pc t] & -> & [_ Hin]%list_elem_of_filter)%list_elem_of_fmap. simpl.
      apply call_sites_ok in Hin as (offset & Hpc & _). pose proof (lookup_lt_Some _ _ _ Hpc).
      destruct (last_insn insns subprogs He Hc) as (insn & Hl & Hd).
      destruct (decide (pc = length insns - 1)%nat) as [->|]; [|lia].
      rewrite Hpc in Hl. injection Hl as <-. by destruct Hd as [|[]].
Qed.

(** * The invariant of the search *)

Section dfs.
Context (insns : list BpfInsn) (subprogs : list Z).
Hypothesis Hentries : entries_ok insns subprogs.
Hypothesis Hends : check_ends insns subprogs subprogs 0 = Some (Ok tt).

Abbreviation size := (length insns).
Abbreviation E := (edge insns subprogs).
Abbreviation visit u := (visit_insn u insns subprogs).
Definition inside (v : Z) : Prop := 0 <= v < Z.of_nat size.

(** [done]: the explored instructions, last finished first.  Each finished after
    its successors, the loop heads apart. *)
Fixpoint finished (heads done : list Z) : Prop :=
  match done with
  | [] => True
  | u :: done =>
      (exists nexts, visit u = Some (Ok nexts) /\ forall v, v ∈ nexts -> v ∈ heads \/ v ∈ done) /\
      finished heads done
  end.

(** An entry of the stack below the entry of [above]: the successors before
    [child] are dealt with, or are the instruction above. *)
Definition entry_ok (heads done : list Z) (above : option Z) (u : Z) (child : nat) : Prop :=
  (child = 0%nat /\ above = None) \/
  exists nexts, visit u = Some (Ok nexts) /\ (child <= length nexts)%nat /\
    (forall j v, (j < child)%nat -> nexts !! j = Some v -> v ∈ heads \/ v ∈ done \/ above = Some v) /\
    (forall v, above = Some v -> v ∈ nexts).

Fixpoint stack_ok (heads done : list Z) (above : option Z) (stack : list (Z * nat)) : Prop :=
  match stack with
  | [] => True
  | (u, child) :: stack =>
      entry_ok heads done above u child /\ stack_ok heads done (Some u) stack
  end.

Record search_inv (st : Search) (done : list Z) : Prop := {
  inv_length : length (visited st) = size;
  inv_inside : forall v, v ∈ done ++ map fst (todo st) -> inside v /\ clos_refl_trans Z E 0 v;
  inv_nodup : NoDup (done ++ map fst (todo st));
  inv_explored : forall v, inside v ->
    visited st !! Z.to_nat v = Some VisitState.Explored <-> v ∈ done;
  inv_discovering : forall v, inside v ->
    visited st !! Z.to_nat v = Some VisitState.Discovering <-> v ∈ map fst (todo st);
  inv_stack : stack_ok (loop_heads st) done None (todo st);
  inv_finished : finished (loop_heads st) done;
  inv_heads : forall h, h ∈ loop_heads st -> clos_trans Z E h h
}.

Lemma finished_mono heads heads' done : heads ⊆ heads' -> finished heads done -> finished heads' done.
Proof.
  intros Hs. induction done as [|u done IH]; simpl; [done|]. intros [(nexts & Hv & Hn) Hd]. split; [|auto].
  exists nexts. split; [done|]. intros v Hin. destruct (Hn v Hin); auto.
Qed.

Lemma stack_mono heads heads' done done' stack : forall above,
  heads ⊆ heads' -> done ⊆ done' -> stack_ok heads done above stack -> stack_ok heads' done' above stack.
Proof.
  induction stack as [|[u child] stack IH]; simpl; [done|]. intros above Hh Hd [He Hs]. split; [|by apply IH].
  destruct He as [|(nexts & Hv & Hc & Hn & Ha)]; [by left|right]. exists nexts. split_and!; try done.
  intros j v Hj Hjv. destruct (Hn j v Hj Hjv) as [|[]]; auto.
Qed.

(** The instruction above is finished: it counts as dealt with. *)
Lemma stack_pop heads done u stack :
  stack_ok heads done (Some u) stack -> stack_ok heads (u :: done) None stack.
Proof.
  destruct stack as [|[w child] stack]; simpl; [done|]. intros [He Hs]. split.
  - destruct He as [[]|(nexts & Hv & Hc & Hn & Ha)]; [done|right]. exists nexts. split_and!; try done.
    intros j v Hj Hjv. destruct (Hn j v Hj Hjv) as [|[|[= ->]]]; auto; right; left; [by right|by left].
  - apply (stack_mono heads heads done); [done|by right|done].
Qed.

Lemma stack_path heads done stack : forall above v w,
  stack_ok heads done above stack -> hd_error (map fst stack) = Some w -> v ∈ map fst stack ->
  clos_refl_trans Z E v w.
Proof.
  induction stack as [|[u child] stack IH]; intros above v w; [done|]. cbn [map fst hd_error stack_ok].
  intros [_ Hs] [= ->] [->|Hin]%elem_of_cons; [apply rt_refl|].
  destruct stack as [|[x c] stack]; [by apply not_elem_of_nil in Hin|].
  apply (rt_trans _ _ _ x); [by apply (IH (Some w))|]. apply rt_step.
  destruct Hs as [[[? ?]|(nexts & Hv & _ & _ & Ha)] _]; [done|]. exists nexts. split; [done|]. by apply Ha.
Qed.

(** A loop head is on a path to itself. *)
Lemma back_edge u v : clos_refl_trans Z E v u -> E u v -> clos_trans Z E v v.
Proof. intros Hp He. apply clos_rt_t with u; [done|]. by apply t_step. Qed.

Lemma visit_inside u : inside u -> visit u <> None.
Proof.
  intros [H1 H2]. unfold visit_insn.
  destruct (lookup_lt_is_Some_2 insns (Z.to_nat u)) as [insn ->]; [lia|].
  by destruct (find_subprog_range _ _ _).
Qed.

Lemma next_inside u nexts v : inside u -> visit u = Some (Ok nexts) -> v ∈ nexts -> inside v.
Proof using Hends Hentries. intros [Hu _] Hv Hin. by apply (nexts_ok insns subprogs u nexts). Qed.

Lemma visited_at st done v : search_inv st done -> inside v -> exists s, visited st !! Z.to_nat v = Some s.
Proof. intros Hi [H1 H2]. apply lookup_lt_is_Some_2. rewrite (inv_length _ _ Hi). lia. Qed.

(** What the top entry knows of its successors. *)
Lemma top_entry st done idx child rest nexts :
  search_inv st done -> todo st = (idx, child) :: rest -> visit idx = Some (Ok nexts) ->
  inside idx /\ (child <= length nexts)%nat /\
  forall j v, (j < child)%nat -> nexts !! j = Some v -> v ∈ loop_heads st \/ v ∈ done.
Proof.
  intros Hi Ht Hv. pose proof (inv_stack _ _ Hi) as Hs. rewrite Ht in Hs. destruct Hs as [He _]. split.
  { apply (inv_inside _ _ Hi). rewrite Ht. apply elem_of_app. right. by left. }
  destruct He as [[-> _]|(nexts' & Hv' & Hc & Hn & _)]; [split; [lia|intros; lia]|].
  rewrite Hv in Hv'. injection Hv' as <-. split; [done|]. intros j v Hj Hjv.
  destruct (Hn j v Hj Hjv) as [|[|]]; auto; done.
Qed.

Lemma next_entry heads done above idx child nexts nxt :
  visit idx = Some (Ok nexts) -> nexts !! child = Some nxt ->
  (forall j v, (j < child)%nat -> nexts !! j = Some v -> v ∈ heads \/ v ∈ done) ->
  nxt ∈ heads \/ nxt ∈ done \/ above = Some nxt -> (forall v, above = Some v -> v = nxt) ->
  entry_ok heads done above idx (S child).
Proof.
  intros Hv Hc Hn Hnxt Ha. right. exists nexts. pose proof (lookup_lt_Some _ _ _ Hc). split_and!; [done|lia| |].
  - intros j v Hj Hjv. destruct (decide (j = child)) as [->|]; [rewrite Hc in Hjv; by injection Hjv as <-|].
    destruct (Hn j v ltac:(lia) Hjv); auto.
  - intros v Hv'. rewrite (Ha v Hv'). by apply list_elem_of_lookup_2 with child.
Qed.

Lemma stack_tail st done idx child rest :
  search_inv st done -> todo st = (idx, child) :: rest -> stack_ok (loop_heads st) done (Some idx) rest.
Proof. intros Hi Ht. pose proof (inv_stack _ _ Hi) as Hs. rewrite Ht in Hs. apply Hs. Qed.

(** Only the counter of the top entry and the loop heads change. *)
Lemma keep_inv st done idx child rest nexts heads :
  search_inv st done -> todo st = (idx, child) :: rest ->
  loop_heads st ⊆ heads -> (forall h, h ∈ heads -> clos_trans Z E h h) ->
  entry_ok heads done None idx (S child) -> visit idx = Some (Ok nexts) ->
  search_inv (mkSearch (visited st) ((idx, S child) :: rest) heads) done.
Proof.
  intros Hi Ht Hh Hcyc He Hv. pose proof (stack_tail _ _ _ _ _ Hi Ht) as Hs. destruct Hi as [I1 I2 I3 I4 I5 I6 I7 I8].
  rewrite Ht in *. split; cbn [visited todo loop_heads map fst]; try done.
  - split; [done|]. by apply (stack_mono (loop_heads st) heads done done).
  - by apply (finished_mono (loop_heads st)).
Qed.

Lemma back_inv st done idx child rest nexts nxt :
  search_inv st done -> todo st = (idx, child) :: rest -> visit idx = Some (Ok nexts) ->
  nexts !! child = Some nxt -> visited st !! Z.to_nat nxt = Some VisitState.Discovering -> inside nxt ->
  search_inv (mkSearch (visited st) ((idx, S child) :: rest)
    (if bool_decide (nxt ∈ loop_heads st) then loop_heads st else loop_heads st ++ [nxt])) done.
Proof.
  intros Hi Ht Hv Hc Hd Hn. destruct (top_entry _ _ _ _ _ _ Hi Ht Hv) as (_ & Hlen & Hold).
  set (heads := if bool_decide _ then _ else _).
  assert (Hsub : loop_heads st ⊆ heads).
  { unfold heads. case_bool_decide; [done|]. intros x Hx. apply elem_of_app. by left. }
  assert (Hin : nxt ∈ heads).
  { unfold heads. case_bool_decide; [done|]. apply elem_of_app. right. by left. }
  apply (keep_inv st done idx child rest nexts); try done.
  - intros h Hh. destruct (decide (h ∈ loop_heads st)) as [|Hnew]; [by apply (inv_heads _ _ Hi)|].
    assert (h = nxt) as ->.
    { unfold heads in Hh. case_bool_decide; [done|]. apply elem_of_app in Hh as [|Hh]; [done|].
      by apply list_elem_of_singleton in Hh. }
    apply (back_edge idx); [|exists nexts; split; [done|by apply list_elem_of_lookup_2 with child]].
    apply (stack_path _ _ _ None nxt idx (inv_stack _ _ Hi)); [by rewrite Ht|].
    by apply (inv_discovering _ _ Hi).
  - apply (next_entry _ _ _ _ _ nexts nxt); try done; [|by left].
    intros j v Hj Hjv. destruct (Hold j v Hj Hjv); auto.
Qed.

Lemma skip_inv st done idx child rest nexts nxt :
  search_inv st done -> todo st = (idx, child) :: rest -> visit idx = Some (Ok nexts) ->
  nexts !! child = Some nxt -> visited st !! Z.to_nat nxt = Some VisitState.Explored -> inside nxt ->
  search_inv (mkSearch (visited st) ((idx, S child) :: rest) (loop_heads st)) done.
Proof.
  intros Hi Ht Hv Hc Hd Hn. destruct (top_entry _ _ _ _ _ _ Hi Ht Hv) as (_ & Hlen & Hold).
  apply (keep_inv st done idx child rest nexts); try done; [by apply (inv_heads _ _ Hi)|].
  apply (next_entry _ _ _ _ _ nexts nxt); try done. right. left. by apply (inv_explored _ _ Hi).
Qed.

Lemma inside_nat u v : inside u -> inside v -> Z.to_nat u = Z.to_nat v <-> u = v.
Proof. unfold inside. lia. Qed.

(** Setting the state of one instruction. *)
Lemma visited_insert st done u v s s' :
  search_inv st done -> inside u -> inside v ->
  <[Z.to_nat u := s]> (visited st) !! Z.to_nat v = Some s' <->
  (v = u /\ s' = s) \/ (v <> u /\ visited st !! Z.to_nat v = Some s').
Proof.
  intros Hi Hu Hv. pose proof (inside_nat u v Hu Hv). destruct Hu. pose proof (inv_length _ _ Hi).
  destruct (decide (v = u)) as [->|Hne].
  - rewrite list_lookup_insert_eq by lia. split; [intros [= ->]; by left|by intros [[_ ->]|[]]].
  - rewrite list_lookup_insert_ne by lia. split; [by right|by intros [[]|[]]].
Qed.

Lemma push_inv st done idx child rest nexts nxt :
  search_inv st done -> todo st = (idx, child) :: rest -> visit idx = Some (Ok nexts) ->
  nexts !! child = Some nxt -> visited st !! Z.to_nat nxt = Some VisitState.NotVisited -> inside nxt ->
  search_inv (mkSearch (<[Z.to_nat nxt := VisitState.Discovering]> (visited st))
                ((nxt, 0%nat) :: (idx, S child) :: rest) (loop_heads st)) done.
Proof.
  intros Hi Ht Hv Hc Hd Hn. destruct (top_entry _ _ _ _ _ _ Hi Ht Hv) as (Hidx & Hlen & Hold).
  pose proof (stack_tail _ _ _ _ _ Hi Ht) as Hs. pose proof Hi as [I1 I2 I3 I4 I5 I6 I7 I8].
  assert (Hfst : map fst (todo st) = idx :: map fst rest) by by rewrite Ht.
  assert (Hndone : nxt ∉ done) by (intros Hx%(I4 nxt Hn); congruence).
  assert (Hntodo : nxt ∉ map fst (todo st)) by (intros Hx%(I5 nxt Hn); congruence).
  rewrite Hfst in *.
  split; cbn [visited todo loop_heads map fst]; try done.
  - by rewrite length_insert.
  - intros v Hin. rewrite elem_of_app, elem_of_cons in Hin. destruct Hin as [Hin|[->|Hin]].
    + apply I2, elem_of_app. by left.
    + split; [done|]. apply (rt_trans _ _ _ idx); [apply I2, elem_of_app; right; by left|].
      apply rt_step. exists nexts. split; [done|]. by apply list_elem_of_lookup_2 with child.
    + apply I2, elem_of_app. by right.
  - apply NoDup_app in I3 as (Hd1 & Hd2 & Hd3). apply NoDup_app. split_and!; [done| |by apply NoDup_cons].
    intros x Hx [->|Hx']%elem_of_cons; [done|by apply (Hd2 x Hx)].
  - intros v Hv'. rewrite (visited_insert _ _ _ _ _ _ Hi Hn Hv'), <- (I4 v Hv').
    split; [by intros [[_ ?]|[_ ?]]|]. intros He. right. split; [intros ->; congruence|done].
  - intros v Hv'. rewrite (visited_insert _ _ _ _ _ _ Hi Hn Hv'), elem_of_cons, <- (I5 v Hv').
    split; [by intros [[-> _]|[_ ?]]; [left|right]|]. destruct (decide (v = nxt)); [by left|].
    intros [|]; [done|by right].
  - split; [by left|]. split; [|done]. apply (next_entry _ _ _ _ _ nexts nxt); auto. by intros v [= ->].
Qed.

Lemma finish_inv st done idx child rest nexts :
  search_inv st done -> todo st = (idx, child) :: rest -> visit idx = Some (Ok nexts) ->
  nexts !! child = None ->
  search_inv (mkSearch (<[Z.to_nat idx := VisitState.Explored]> (visited st)) rest (loop_heads st)) (idx :: done).
Proof.
  intros Hi Ht Hv Hc. destruct (top_entry _ _ _ _ _ _ Hi Ht Hv) as (Hidx & Hlen & Hold).
  apply lookup_ge_None in Hc. pose proof (stack_tail _ _ _ _ _ Hi Ht) as Hs.
  pose proof Hi as [I1 I2 I3 I4 I5 I6 I7 I8].
  assert (Hfst : map fst (todo st) = idx :: map fst rest) by by rewrite Ht. rewrite Hfst in *.
  assert (Hperm : done ++ idx :: map fst rest ≡ₚ (idx :: done) ++ map fst rest) by (symmetry; apply Permutation_middle).
  split; cbn [visited todo loop_heads]; try done.
  - by rewrite length_insert.
  - intros v. rewrite <- Hperm. apply I2.
  - by rewrite <- Hperm.
  - intros v Hv'. rewrite (visited_insert _ _ _ _ _ _ Hi Hidx Hv'), elem_of_cons, <- (I4 v Hv').
    split; [by intros [[-> _]|[_ ?]]; [left|right]|]. destruct (decide (v = idx)); [by left|].
    intros [|]; [done|by right].
  - intros v Hv'. rewrite (visited_insert _ _ _ _ _ _ Hi Hidx Hv').
    apply NoDup_app in I3 as (_ & _ & [Hnin _]%NoDup_cons). specialize (I5 v Hv'). rewrite elem_of_cons in I5.
    split; [intros [[_ ?]|[Hne Hd]]; [done|]; by apply I5 in Hd as [|]|].
    intros Hin. right. split; [by intros ->|]. apply I5. by right.
  - by apply stack_pop.
  - split; [|done]. exists nexts. split; [done|]. intros v [j Hj]%list_elem_of_lookup_1.
    apply (Hold j v); [|done]. apply lookup_lt_Some in Hj. lia.
Qed.

(** * Termination *)

Definition unvisited (vs : list VisitState) : nat :=
  length (filter (fun v => v = VisitState.NotVisited) vs).
Definition entry_weight (e : Z * nat) : nat := size + 2 - snd e.
Definition search_measure (st : Search) : nat :=
  unvisited (visited st) * (size + 3) + sum_list_with entry_weight (todo st).

Lemma unvisited_insert vs i s s' :
  vs !! i = Some s -> s' <> VisitState.NotVisited ->
  unvisited (<[i := s']> vs) = (unvisited vs - if decide (s = VisitState.NotVisited) then 1 else 0)%nat /\
  (s = VisitState.NotVisited -> 1 <= unvisited vs)%nat.
Proof.
  intros Hi Hs'. revert i Hi. induction vs as [|x vs IH]; intros i Hi; [done|].
  assert (Hcons : forall y ys, unvisited (y :: ys) = ((if decide (y = VisitState.NotVisited) then 1 else 0) + unvisited ys)%nat).
  { intros y ys. unfold unvisited. rewrite filter_cons. destruct y; reflexivity. }
  destruct i as [|i].
  - injection Hi as ->. change (<[0%nat := s']> (s :: vs)) with (s' :: vs).
    rewrite !Hcons. destruct (decide (s' = VisitState.NotVisited)), (decide (s = VisitState.NotVisited)); try done; (split; [lia|intros; first [lia|done]]).
  - destruct (IH i Hi) as [H1 H2]. change (<[S i := s']> (x :: vs)) with (x :: <[i := s']> vs).
    rewrite !Hcons, H1. split; [|intros Hs; specialize (H2 Hs); lia].
    destruct (decide (x = VisitState.NotVisited)), (decide (s = VisitState.NotVisited)) as [Hsn|]; try lia. specialize (H2 Hsn). lia.
Qed.

Lemma search_step_ok st done idx child rest :
  search_inv st done -> todo st = (idx, child) :: rest ->
  exists r, search_step insns subprogs st idx child rest = Some r /\
    forall st', r = Ok st' -> (search_measure st' < search_measure st)%nat /\ exists done', search_inv st' done'.
Proof using Hends Hentries.
  intros Hi Ht. unfold search_step.
  assert (Hidx : inside idx) by (apply (inv_inside _ _ Hi); rewrite Ht; apply elem_of_app; right; by left).
  pose proof (visit_inside idx Hidx) as Hvis.
  destruct (visit idx) as [[nexts|e]|] eqn:Hv; [|by eexists|done].
  destruct (top_entry _ _ _ _ _ _ Hi Ht Hv) as (_ & Hlen & _).
  destruct (nexts_ok insns subprogs idx nexts Hentries Hends (proj1 Hidx) Hv) as [Hn _].
  assert (Hold : entry_weight (idx, child) = (S (size + 1 - child))%nat) by (unfold entry_weight; simpl; lia).
  unfold search_measure. rewrite Ht. cbn [sum_list_with]. rewrite Hold.
  destruct (nexts !! child) as [nxt|] eqn:Hc.
  - pose proof (lookup_lt_Some _ _ _ Hc) as Hlt.
    assert (Hnxt : inside nxt) by (apply (next_inside idx nexts); [done..|by apply list_elem_of_lookup_2 with child]).
    destruct (visited_at st done nxt Hi Hnxt) as [s Hs]. rewrite Hs.
    destruct s; eexists; (split; [reflexivity|]); intros st' [= <-]; cbn [visited todo sum_list_with].
    + split; [|exists done; by apply (push_inv st done idx child rest nexts nxt)].
      destruct (unvisited_insert _ _ _ VisitState.Discovering Hs ltac:(done)) as [-> Hpos].
      specialize (Hpos eq_refl). rewrite decide_True by done. unfold entry_weight. cbn [snd]. nia.
    + split; [unfold entry_weight; cbn [snd]; lia|].
      exists done. by apply (back_inv st done idx child rest nexts nxt).
    + split; [unfold entry_weight; cbn [snd]; lia|].
      exists done. by apply (skip_inv st done idx child rest nexts nxt).
  - eexists. split; [reflexivity|]. intros st' [= <-]. cbn [visited todo].
    split; [|exists (idx :: done); by apply (finish_inv st done idx child rest nexts)].
    assert (Hd : visited st !! Z.to_nat idx = Some VisitState.Discovering).
    { apply (inv_discovering _ _ Hi); [done|]. rewrite Ht. by left. }
    destruct (unvisited_insert _ _ _ VisitState.Explored Hd ltac:(done)) as [-> _].
    rewrite decide_False by done. lia.
Qed.

Lemma search_ok fuel : forall st done,
  search_inv st done -> (search_measure st < fuel)%nat ->
  exists r, search fuel insns subprogs st = Some r /\
    forall st', r = Ok st' -> todo st' = [] /\ exists done', search_inv st' done'.
Proof using Hends Hentries.
  induction fuel as [|fuel IH]; intros st done Hi Hf; [lia|]. cbn [search].
  destruct (todo st) as [|[idx child] rest] eqn:Ht.
  { eexists. split; [reflexivity|]. intros st' [= <-]. split; [done|by exists done]. }
  destruct (search_step_ok st done idx child rest Hi Ht) as (r & -> & Hr).
  destruct r as [st'|e]; [|by eexists]. destruct (Hr st' eq_refl) as [Hm [done' Hi']].
  by apply (IH st' done'); [|lia].
Qed.

Abbreviation start_state :=
  (mkSearch (<[0%nat := VisitState.Discovering]> (replicate size VisitState.NotVisited)) [(0, 0%nat)] []).

Lemma start_inv : insns <> [] -> search_inv start_state [].
Proof.
  intros Hne. assert (Hpos : (0 < size)%nat) by (destruct insns; [done|simpl; lia]).
  assert (H0 : inside 0) by (unfold inside; lia).
  split; cbn [visited todo loop_heads map fst app]; try done.
  - by rewrite length_insert, length_replicate.
  - intros v ->%list_elem_of_singleton. split; [done|apply rt_refl].
  - apply NoDup_singleton.
  - intros v Hv. split; [|by intros ?%not_elem_of_nil]. destruct (decide (v = 0)) as [->|Hne'].
    + by rewrite list_lookup_insert_eq by (rewrite length_replicate; lia).
    + rewrite list_lookup_insert_ne by (unfold inside in *; lia). unfold inside in Hv.
      by rewrite lookup_replicate_2 by lia.
  - intros v Hv. rewrite list_elem_of_singleton. destruct (decide (v = 0)) as [->|Hne'].
    + by rewrite list_lookup_insert_eq by (rewrite length_replicate; lia).
    + rewrite list_lookup_insert_ne by (unfold inside in *; lia). unfold inside in Hv.
      rewrite lookup_replicate_2 by lia. done.
  - split; [by left|done].
  - by intros h ?%not_elem_of_nil.
Qed.

Lemma unvisited_bound vs : (unvisited vs <= length vs)%nat.
Proof. apply length_filter. Qed.

Lemma start_measure : insns <> [] -> (search_measure start_state < search_fuel insns)%nat.
Proof.
  intros Hne. unfold search_measure, search_fuel. cbn [visited todo sum_list_with].
  assert (Hpos : (0 < size)%nat) by (destruct insns; [done|simpl; lia]).
  destruct (unvisited_insert (replicate size VisitState.NotVisited) 0 VisitState.NotVisited VisitState.Discovering)
    as [-> Hge]; [by apply lookup_replicate_2|done|]. rewrite decide_True by done. specialize (Hge eq_refl).
  pose proof (unvisited_bound (replicate size VisitState.NotVisited)) as Hle. rewrite length_replicate in Hle.
  unfold entry_weight. cbn [snd]. nia.
Qed.

Lemma search_total :
  insns <> [] ->
  exists r, search (search_fuel insns) insns subprogs start_state = Some r /\
    forall st, r = Ok st -> todo st = [] /\ exists done, search_inv st done.
Proof. intros Hne. by apply (search_ok _ _ []); [apply start_inv|apply start_measure]. Qed.

(** * What a finished search shows *)

(** An edge that does not enter a loop head. *)
Definition forward (heads : list Z) (u v : Z) : Prop := E u v /\ v ∉ heads.

Lemma finished_order heads done u v :
  finished heads done -> u ∈ done -> clos_trans Z (forward heads) u v ->
  exists l1 l2, done = l1 ++ u :: l2 /\ v ∈ l2.
Proof.
  intros Hf Hu Hp. apply clos_trans_t1n in Hp. revert u v Hu Hp.
  induction done as [|w done IH]; intros u v Hu Hp; [by apply not_elem_of_nil in Hu|].
  destruct Hf as [(nexts & Hv & Hn) Hf].
  assert (Hlater : forall x, forward heads w x -> x ∈ done).
  { intros x [(nexts' & Hv' & Hin) Hh]. rewrite Hv in Hv'. injection Hv' as <-. by destruct (Hn x Hin). }
  apply elem_of_cons in Hu as [->|Hu].
  - exists [], done. split; [done|]. inversion Hp as [x Hx|x z Hx Hrest]; subst; [by apply Hlater|].
    destruct (IH Hf x v (Hlater x Hx) Hrest) as (l1 & l2 & -> & Hin). apply elem_of_app. right. by right.
  - destruct (IH Hf u v Hu Hp) as (l1 & l2 & -> & Hin). by exists (w :: l1), l2.
Qed.

Lemma finished_acyclic heads done u :
  finished heads done -> NoDup done -> u ∈ done -> ~ clos_trans Z (forward heads) u u.
Proof.
  intros Hf Hnd Hu Hp. destruct (finished_order heads done u u Hf Hu Hp) as (l1 & l2 & -> & Hin).
  apply NoDup_app in Hnd as (_ & _ & [Hno _]%NoDup_cons). done.
Qed.

Lemma finished_visit heads done u : finished heads done -> u ∈ done -> exists nexts, visit u = Some (Ok nexts).
Proof.
  induction done as [|w done IH]; simpl; [by intros _ ?%not_elem_of_nil|].
  intros [(nexts & Hv & _) Hf] [->|Hu]%elem_of_cons; [by exists nexts|by apply IH].
Qed.

(** A finished search of an accepted program explored everything. *)
Lemma finished_all st done v :
  search_inv st done -> todo st = [] ->
  list_find (fun s => s = VisitState.NotVisited) (visited st) = None -> inside v -> v ∈ done.
Proof.
  intros Hi Ht Hf Hv. apply (inv_explored _ _ Hi v Hv). destruct (visited_at st done v Hi Hv) as [s Hs].
  rewrite Hs. destruct s; [| |done].
  - apply list_find_None in Hf. rewrite Forall_lookup in Hf. by specialize (Hf _ _ Hs).
  - apply (inv_discovering _ _ Hi v Hv) in Hs. rewrite Ht in Hs. by apply not_elem_of_nil in Hs.
Qed.
End dfs.

Lemma check_ends_total insns subprogs starts : forall i,
  entries_ok insns subprogs -> insns <> [] -> (i + length starts = length subprogs)%nat ->
  check_ends insns subprogs starts i <> None.
Proof.
  induction starts as [|s starts IH]; intros i He Hne Hl; [done|]. cbn [check_ends].
  assert (Hpos : (0 < length insns)%nat) by (destruct insns; [done|simpl; lia]).
  destruct (lookup_lt_is_Some_2 insns (Z.to_nat (subprog_end subprogs i (Z.of_nat (length insns)) - 1))) as [insn ->].
  { unfold subprog_end. destruct (subprogs !! S i) as [t|] eqn:Ht; simpl; [|lia].
    destruct (entries_range _ _ He t); [by apply list_elem_of_lookup_2 with (S i)|lia|lia]. }
  simpl in Hl. destruct insn; try done; apply IH; (done || lia).
Qed.

(** * Call chains *)

Section chains.
Context (insns : list BpfInsn) (subprogs depth : list Z).

(** Subprogram [idx] contains a call of [callee]. *)
Definition calls (idx callee : nat) : Prop :=
  exists p, p ∈ subprog_body insns subprogs idx /\ callee_of subprogs p = Some callee.

(** The chains of active calls above a given one, newest first. *)
Inductive extends : list nat -> list nat -> Prop :=
| extends_refl chain : extends chain chain
| extends_call idx callee rest chain :
    calls idx callee -> extends (callee :: idx :: rest) chain -> extends (idx :: rest) chain.

Definition chain_good (chain : list nat) : Prop :=
  NoDup chain /\ Z.of_nat (length chain) <= MAX_CALL_FRAMES /\ chain_total depth chain <= STACK_SIZE.

Lemma check_call_spec callee pc chain :
  NoDup chain -> check_call subprogs depth callee pc chain = Ok tt <-> chain_good (callee :: chain).
Proof.
  intros Hnd. unfold check_call, chain_good. rewrite NoDup_cons. case_bool_decide; [split; [done|by intros [[] _]]|].
  destruct (Z.ltb_spec MAX_CALL_FRAMES (Z.of_nat (length (callee :: chain)))).
  { split; [done|intros (_ & ? & _); lia]. }
  destruct (Z.ltb_spec STACK_SIZE (chain_total depth (callee :: chain))).
  { split; [done|intros (_ & _ & ?); lia]. }
  by repeat split.
Qed.

Lemma position_lt x l i : position x l = Some i -> (i < length l)%nat.
Proof.
  revert i. induction l as [|y l IH]; simpl; [done|]. intros i. destruct (y =? x); [intros [= <-]; lia|].
  destruct (position x l) as [j|]; [|done]. intros [= <-]. specialize (IH j eq_refl). lia.
Qed.

Lemma calls_lt idx callee : calls idx callee -> (callee < length subprogs)%nat.
Proof.
  intros (p & _ & H). unfold callee_of in H. destruct (snd p); try done. by apply position_lt in H.
Qed.

(** A chain without repetition is no longer than the number of entries. *)
Lemma chain_short chain :
  NoDup chain -> Forall (fun c => (c < length subprogs)%nat) chain -> (length chain <= length subprogs)%nat.
Proof.
  intros Hnd Hlt. rewrite <- (length_seq (length subprogs) 0). apply submseteq_length, NoDup_submseteq; [done|].
  intros x Hx. rewrite Forall_forall in Hlt. apply elem_of_seq. specialize (Hlt x Hx). lia.
Qed.

Lemma visit_body_ok visit idx rest body :
  NoDup (idx :: rest) ->
  (forall p, p ∈ body -> p ∈ subprog_body insns subprogs idx) ->
  (forall callee, calls idx callee -> chain_good (callee :: idx :: rest) ->
    exists r, visit callee (callee :: idx :: rest) = Some r /\
      (r = Ok tt <-> forall c, extends (callee :: idx :: rest) c -> c = callee :: idx :: rest \/ chain_good c)) ->
  exists r, visit_body subprogs depth visit (idx :: rest) body = Some r /\
    (r = Ok tt <-> forall p callee c, p ∈ body -> callee_of subprogs p = Some callee ->
       extends (callee :: idx :: rest) c -> chain_good c).
Proof.
  intros Hnd Hbody Hvisit. induction body as [|p body IH]; cbn [visit_body].
  { eexists. split; [reflexivity|]. split; [by intros _ p callee c ?%not_elem_of_nil|done]. }
  destruct IH as (r & Hr & Hiff); [intros q Hq; apply Hbody; by right|].
  assert (Hcons : (forall q callee c, q ∈ p :: body -> callee_of subprogs q = Some callee ->
      extends (callee :: idx :: rest) c -> chain_good c) <->
    (forall callee c, callee_of subprogs p = Some callee -> extends (callee :: idx :: rest) c -> chain_good c) /\
    r = Ok tt).
  { rewrite Hiff. split.
    - intros H. split; intros; [apply (H p callee)|apply (H p0 callee)]; try done; [by left|by right].
    - intros [Hp Hb] q callee c [->|Hq]%elem_of_cons; [apply Hp|by apply Hb]. }
  rewrite Hr. destruct (callee_of subprogs p) as [callee|] eqn:Hc.
  2:{ exists r. split; [done|]. rewrite Hcons. split; [by split|by intros []]. }
  assert (Hcall : calls idx callee) by (exists p; split; [apply Hbody; by left|done]).
  pose proof (check_call_spec callee (fst p) (idx :: rest) Hnd) as Hgood.
  destruct (check_call subprogs depth callee (fst p) (idx :: rest)) as [[]|e] eqn:Hk.
  - destruct (Hvisit callee Hcall (proj1 Hgood eq_refl)) as (rv & -> & Hv).
    destruct rv as [[]|e].
    + exists r. split; [done|]. rewrite Hcons. split; [|by intros []]. intros ->. split; [|done].
      intros callee' c [= <-] He. destruct (proj1 Hv eq_refl c He) as [->|]; [by apply Hgood|done].
    + eexists. split; [reflexivity|]. split; [done|]. rewrite Hcons. intros [Hall _].
      apply Hv. intros c He. right. by apply (Hall callee).
  - eexists. split; [reflexivity|]. split; [done|]. rewrite Hcons. intros [Hall _].
    apply Hgood, (Hall callee); [done|apply extends_refl].
Qed.

Lemma extends_inv idx rest c :
  extends (idx :: rest) c ->
  c = idx :: rest \/ exists callee, calls idx callee /\ extends (callee :: idx :: rest) c.
Proof. inversion 1; subst; [by left|right; by eexists]. Qed.

Lemma extends_length c c' : extends c c' -> (length c <= length c')%nat.
Proof. induction 1; simpl in *; lia. Qed.

Lemma visit_chain_ok fuel : forall idx rest,
  NoDup (idx :: rest) -> Forall (fun c => (c < length subprogs)%nat) (idx :: rest) ->
  (length subprogs + 2 <= fuel + length (idx :: rest))%nat ->
  exists r, visit_chain insns subprogs depth fuel idx (idx :: rest) = Some r /\
    (r = Ok tt <-> forall c, extends (idx :: rest) c -> c = idx :: rest \/ chain_good c).
Proof.
  induction fuel as [|fuel IH]; intros idx rest Hnd Hlt Hf.
  { pose proof (chain_short _ Hnd Hlt). lia. }
  cbn [visit_chain].
  destruct (visit_body_ok (visit_chain insns subprogs depth fuel) idx rest (subprog_body insns subprogs idx) Hnd)
    as (r & Hr & Hiff); [done| |].
  - intros callee Hc (Hnd' & _). apply IH; [done| |simpl in Hf |- *; lia].
    constructor; [by apply (calls_lt idx)|done].
  - exists r. split; [done|]. rewrite Hiff. split.
    + intros H c [->|(callee & (p & Hp & Hc) & He)]%extends_inv; [by left|right]. by apply (H p callee).
    + intros H p callee c Hp Hc He. destruct (H c) as [->|]; [|exfalso|done].
      * apply (extends_call idx callee); [by exists p|done].
      * apply extends_length in He. simpl in He. lia.
Qed.
End chains.

(** * The graph of the liveness analysis *)

(** The offset of a jump, branch or call fits its field. *)
Definition offset_ok (insn : BpfInsn) : bool :=
  match insn with
  | BpfInsn.Jmp offset | BpfInsn.CallSub offset => in_range I32_MIN I32_MAX offset
  | _ => match cond_offset insn with Some offset => in_range I32_MIN I32_MAX offset | None => true end
  end.

Lemma call_target_exact idx offset n :
  is_i32 offset -> 0 <= idx <= I32_MAX -> n <= I32_MAX ->
  as_u32 (as_i32 idx + 1 + offset) < n -> as_u32 (as_i32 idx + 1 + offset) = idx + 1 + offset.
Proof.
  intros Ho Hi Hn. assert (as_i32 idx = idx) as ->.
  { unfold as_i. rewrite Z.mod_small by lia. case_tests; lia. }
  unfold as_u. destruct (Z.lt_ge_cases (idx + 1 + offset) 0).
  - rewrite <- (Z_mod_plus_full _ 1), Z.mod_small by lia. lia.
  - rewrite Z.mod_small by lia. done.
Qed.

(** The last of a sorted list is its largest element. *)
Lemma last_sorted_max l m :
  Sorted.StronglySorted Z.le l -> last l = Some m -> m ∈ l /\ forall x, x ∈ l -> x <= m.
Proof.
  intros Hs [l' ->]%last_Some. split; [apply elem_of_app; right; by left|].
  intros x [Hx| ->%list_elem_of_singleton]%elem_of_app; [|lia].
  by apply (StronglySorted_app_1_elem_of Z.le l' [m] x m Hs Hx ltac:(by left)).
Qed.

Lemma sorted_filter (P : Z -> Prop) `{forall x, Decision (P x)} l :
  Sorted.StronglySorted Z.le l -> Sorted.StronglySorted Z.le (filter P l).
Proof.
  induction 1 as [|x l Hs IH Hx]; [constructor|]. rewrite filter_cons. case_decide; [|done].
  constructor; [done|]. rewrite Forall_forall in Hx |- *. intros y [_ Hy]%list_elem_of_filter. auto.
Qed.

Lemma last_same l1 l2 :
  Sorted.StronglySorted Z.le l1 -> Sorted.StronglySorted Z.le l2 -> (forall x, x ∈ l1 <-> x ∈ l2) -> last l1 = last l2.
Proof.
  intros H1 H2 He. destruct (last l1) as [m1|] eqn:L1, (last l2) as [m2|] eqn:L2; [| | |done].
  - destruct (last_sorted_max l1 m1 H1 L1) as [I1 M1], (last_sorted_max l2 m2 H2 L2) as [I2 M2].
    f_equal. apply Z.le_antisymm; [by apply M2, He|by apply M1, He].
  - apply last_Some_elem_of, He in L1. apply last_None in L2 as ->. by apply not_elem_of_nil in L1.
  - apply last_Some_elem_of, He in L2. apply last_None in L1 as ->. by apply not_elem_of_nil in L2.
Qed.

(** The entries the liveness analysis collects up to an index. *)
Lemma collected_starts (n : Z) (sites : list (nat * Z)) : forall starts x,
  x ∈ fold_left (fun starts site =>
      if (snd site <=? n) && negb (bool_decide (snd site ∈ starts)) then starts ++ [snd site] else starts) sites starts
  <-> x ∈ starts \/ exists site, site ∈ sites /\ snd site <= n /\ x = snd site.
Proof.
  induction sites as [|site sites IH]; intros starts x; cbn [fold_left].
  { split; [by left|]. by intros [|(? & ?%not_elem_of_nil & _)]. }
  assert (Hstep : x ∈ (if (snd site <=? n) && negb (bool_decide (snd site ∈ starts)) then starts ++ [snd site] else starts)
    <-> x ∈ starts \/ snd site <= n /\ x = snd site).
  { destruct (Z.leb_spec (snd site) n); cbn [andb]; [|split; [by left|by intros [|[? _]]; [|lia]]].
    case_bool_decide; cbn [negb]; [split; [by left|by intros [|[_ ->]]]|].
    rewrite elem_of_app, list_elem_of_singleton. split; (intros [|]; [by left|right]); tauto. }
  rewrite IH, Hstep. split.
  - intros [[Hx|[Hn ->]]|(s & Hs & Hn & ->)]; [by left| |]; right; eexists; (split; [|by split]); by (left || right).
  - intros [Hx|(s & [->|Hs]%elem_of_cons & Hn & ->)]; [by left; left|by left; right|right; by exists s].
Qed.

Lemma call_sites_in insns i offset :
  insns !! i = Some (BpfInsn.CallSub offset) -> (i, call_target i offset) ∈ call_sites insns.
Proof.
  intros Hi. apply call_sites_spec. by exists offset.
Qed.

Lemma entry_agrees insns subprogs i start stop :
  entries_ok insns subprogs ->
  find_subprog_range (Z.of_nat i) subprogs (Z.of_nat (length insns)) = (start, stop) ->
  subprog_entry_at i insns = if start =? 0 then None else Some start.
Proof.
  intros He [= Hs _]. unfold subprog_entry_at. cbv zeta.
  rewrite (last_same (merge_sort Z.le _) (filter (fun s => s <= Z.of_nat i) subprogs)).
  - pose proof (entries_zero _ _ He). destruct (last _) as [m|] eqn:Hl; simpl in Hs; subst; [done|].
    apply last_None in Hl. exfalso. apply (not_elem_of_nil (A := Z) 0). rewrite <- Hl.
    apply list_elem_of_filter. split; [lia|done].
  - apply (StronglySorted_merge_sort Z.le).
  - apply sorted_filter, (entries_sorted _ _ He).
  - intros x. rewrite (merge_sort_Permutation Z.le), !list_elem_of_filter, collected_starts, list_elem_of_singleton.
    split; intros [Hx Hin]; (split; [done|]).
    + destruct Hin as [->|([pc t] & Hin & _ & ->)]; [apply (entries_zero _ _ He)|].
      apply call_sites_ok in Hin as (offset & Hi & ->). by apply (entries_calls _ _ He).
    + destruct (entries_source _ _ He x Hin) as [->|(j & offset & Hj & ->)]; [by left|right].
      exists (j, call_target j offset). split_and!; [by apply call_sites_in|done|done].
Qed.

Lemma in_program_elem program t (v : nat) :
  v ∈ in_program program t <-> (v < length program)%nat /\ t = Z.of_nat v.
Proof.
  unfold in_program. destruct (Z.leb_spec 0 t), (Z.ltb_spec t (Z.of_nat (length program))); cbn [andb];
    rewrite ?list_elem_of_singleton; split; intros Hv; first [by apply not_elem_of_nil in Hv|lia].
Qed.

(** A jump target the check accepts is the one the liveness analysis follows. *)
Lemma target_agrees insns subprogs i start stop crosses offset t (v : nat) :
  entries_ok insns subprogs -> (i < length insns)%nat -> Z.of_nat (length insns) <= I32_MAX -> is_i32 offset ->
  find_subprog_range (Z.of_nat i) subprogs (Z.of_nat (length insns)) = (start, stop) ->
  checked_target (Z.of_nat i) offset start stop insns crosses = Ok t ->
  Z.of_nat v = t <-> v ∈ in_program insns (Z.of_nat i + 1 + offset).
Proof.
  intros He Hi Hn Ho Hr Ht. assert (Hne : insns <> []) by (intros ->; simpl in Hi; lia).
  destruct (find_range_ok insns subprogs (Z.of_nat i) start stop He ltac:(lia) Hne Hr).
  unfold checked_target in Ht. cbv zeta in Ht. pose proof (call_target_exact (Z.of_nat i) offset stop Ho) as Hx.
  destruct (Z.ltb_spec (as_u32 (as_i32 (Z.of_nat i) + 1 + offset)) start); [done|].
  destruct (Z.leb_spec stop (as_u32 (as_i32 (Z.of_nat i) + 1 + offset))); [done|].
  apply rbind_ok in Ht as (? & _ & [= <-]). rewrite Hx in * by lia.
  rewrite in_program_elem. lia.
Qed.

Lemma fall_agrees (n i v : nat) :
  v ∈ (if (i + 1 <? n)%nat then [(i + 1)%nat] else []) <-> (i + 1 < n)%nat /\ v = (i + 1)%nat.
Proof.
  destruct (Nat.ltb_spec (i + 1) n); rewrite ?list_elem_of_singleton, ?elem_of_nil; split; try lia; done.
Qed.

Lemma successors_agree_ok insns subprogs i nexts (v : nat) :
  entries_ok insns subprogs -> check_ends insns subprogs subprogs 0 = Some (Ok tt) ->
  Z.of_nat (length insns) <= I32_MAX -> Forall (fun insn => offset_ok insn = true) insns ->
  visit_insn (Z.of_nat i) insns subprogs = Some (Ok nexts) ->
  v ∈ static_successors i insns <-> Z.of_nat v ∈ nexts.
Proof.
  intros He Hends Hn Hoff Hv. destruct (nexts_ok insns subprogs (Z.of_nat i) nexts He Hends ltac:(lia) Hv) as [_ Hin].
  unfold visit_insn in Hv. unfold static_successors. rewrite Nat2Z.id in Hv.
  destruct (insns !! i) as [insn|] eqn:Hi; [|done]. pose proof (lookup_lt_Some _ _ _ Hi) as Hlt.
  rewrite Forall_lookup in Hoff. specialize (Hoff i insn Hi).
  destruct (find_subprog_range (Z.of_nat i) subprogs (Z.of_nat (length insns))) as [start stop] eqn:Hr.
  injection Hv as (nexts' & Hraw & H)%rbind_ok. destruct (_ && _); [done|]. injection H as <-.
  unfold raw_nexts in Hraw. unfold offset_ok in Hoff.
  assert (Hfall : forall v, nexts' = [Z.of_nat i + 1] ->
    v ∈ (if (i + 1 <? length insns)%nat then [(i + 1)%nat] else []) <-> Z.of_nat v ∈ nexts').
  { intros w ->. rewrite fall_agrees, list_elem_of_singleton. specialize (Hin _ ltac:(by left)). lia. }
  assert (Hcond : forall offset, in_range I32_MIN I32_MAX offset = true ->
    (let? target := checked_target (Z.of_nat i) offset start stop insns BranchCrossesBoundary in
     Ok [target; Z.of_nat i + 1]) = Ok nexts' ->
    v ∈ (if (i + 1 <? length insns)%nat then [(i + 1)%nat] else []) ++ in_program insns (Z.of_nat i + 1 + offset) <->
    Z.of_nat v ∈ nexts').
  { intros offset Ho%in_range_iff (t & Ht & [= <-])%rbind_ok.
    pose proof (target_agrees insns subprogs i start stop _ _ t v He Hlt Hn Ho Hr Ht) as Hta.
    specialize (Hin (Z.of_nat i + 1) ltac:(right; by left)).
    rewrite elem_of_app, fall_agrees, <- Hta, elem_of_cons, list_elem_of_singleton. lia. }
  destruct insn; cbn [cond_offset] in Hraw, Hoff |- *;
    first [apply Hfall; by injection Hraw|by apply Hcond|idtac].
  - apply rbind_ok in Hraw as (t & Ht & [= <-]). apply in_range_iff in Hoff.
    rewrite list_elem_of_singleton.
    symmetry. by apply (target_agrees insns subprogs i start stop _ _ t v He Hlt Hn Hoff Hr Ht).
  - case_bool_decide as Hent; [|done]. injection Hraw as <-. apply in_range_iff in Hoff.
    specialize (Hin _ ltac:(by left)). rewrite (call_target_exact _ _ (Z.of_nat (length insns))) in * by lia.
    rewrite in_program_elem, list_elem_of_singleton. lia.
  - assert (He0 : subprog_entry_at i insns = if start =? 0 then None else Some start) by by apply (entry_agrees _ subprogs _ _ stop).
    destruct (Nat.eqb_spec i 0) as [->|]; [|rewrite He0].
    + assert (Hs : start = 0); [|subst; injection Hraw as <-; by rewrite !elem_of_nil].
      injection Hr as <- _. destruct (last _) as [m|] eqn:Hl; [|done]. cbn [default].
      apply last_Some_elem_of, list_elem_of_filter in Hl as [Hm Hl]. destruct (entries_range _ _ He m Hl); simpl; lia.
    + destruct (start =? 0); injection Hraw as <-; [by rewrite !elem_of_nil|].
      rewrite !list_elem_of_fmap. split.
      * intros (site & -> & Hs). exists site. split; [lia|done].
      * intros (site & Hs & Hin'). exists site. split; [lia|done].
Qed.

(** What an accepted program satisfies. *)
Lemma check_cfg_ok insns subprogs heads :
  entries_ok insns subprogs -> check_cfg insns subprogs = Some (Ok heads) ->
  (forall i, 0 <= i < Z.of_nat (length insns) ->
     clos_refl_trans Z (edge insns subprogs) 0 i /\
     exists nexts, visit_insn i insns subprogs = Some (Ok nexts) /\
       forall v, v ∈ nexts -> 0 <= v < Z.of_nat (length insns)) /\
  (forall h, h ∈ heads -> clos_trans Z (edge insns subprogs) h h) /\
  (forall i, 0 <= i < Z.of_nat (length insns) -> ~ clos_trans Z (forward insns subprogs heads) i i).
Proof.
  intros He. unfold check_cfg. destruct insns as [|insn insns']; [done|].
  set (insns := insn :: insns') in *.
  destruct (check_ends insns subprogs subprogs 0) as [[[]|e]|] eqn:Hc; [|done..].
  destruct (search_total insns subprogs He Hc ltac:(done)) as (r & -> & Hr).
  destruct r as [st|e]; [|done]. destruct (Hr st eq_refl) as (Ht & done & Hi).
  destruct (list_find _ _) as [[]|] eqn:Hf; [done|]. intros [= <-].
  pose proof (finished_all insns subprogs st done) as Hall.
  split_and!; [|by apply (inv_heads _ _ _ _ Hi)|].
  - intros i Hin. specialize (Hall i Hi Ht Hf Hin). split; [apply (inv_inside _ _ _ _ Hi), elem_of_app; by left|].
    destruct (finished_visit _ _ _ _ _ (inv_finished _ _ _ _ Hi) Hall) as [nexts Hn]. exists nexts.
    split; [done|]. apply (nexts_ok insns subprogs i nexts He Hc (proj1 Hin) Hn).
  - intros i Hin. pose proof (inv_nodup _ _ _ _ Hi) as Hnd. rewrite Ht in Hnd. cbn [map] in Hnd.
    rewrite app_nil_r in Hnd. by apply (finished_acyclic insns subprogs _ done); [apply Hi| |apply Hall].
Qed.

Lemma check_cfg_ends insns subprogs heads :
  check_cfg insns subprogs = Some (Ok heads) -> check_ends insns subprogs subprogs 0 = Some (Ok tt).
Proof.
  unfold check_cfg. destruct insns as [|insn insns']; [done|].
  by destruct (check_ends (insn :: insns') subprogs subprogs 0) as [[[]|e]|].
Qed.

(** ** Edges and subprograms *)

(** Where an edge of the graph may lead: a call enters the subprogram it names, an
    exit returns behind a call of its subprogram, and every other instruction stays
    in the range of its subprogram. *)
Definition edge_confined (insns : list BpfInsn) (subprogs : list Z) (u v : Z) : Prop :=
  let '(start, stop) := find_subprog_range u subprogs (Z.of_nat (length insns)) in
  match insns !! Z.to_nat u with
  | Some (BpfInsn.CallSub offset) => v ∈ subprogs /\ v = as_u32 (as_i32 u + 1 + offset)
  | Some BpfInsn.Exit =>
      exists site offset, v = Z.of_nat site + 1 /\ insns !! site = Some (BpfInsn.CallSub offset) /\
        call_target site offset = start /\ start <> 0
  | _ => start <= u < stop /\ start <= v < stop
  end.

Lemma range_start (insns : list BpfInsn) subprogs u start stop :
  0 <= u < Z.of_nat (length insns) -> find_subprog_range u subprogs (Z.of_nat (length insns)) = (start, stop) ->
  start <= u < stop.
Proof.
  intros Hu [= <- <-]. split.
  - destruct (last _) eqn:Hl; simpl; [|lia]. by apply last_Some_elem_of, list_elem_of_filter in Hl as [Hl _].
  - destruct (head _) eqn:Hl; simpl; [|lia]. by apply head_Some_elem_of, list_elem_of_filter in Hl as [Hl _].
Qed.

Lemma visit_confined insns subprogs u nexts v :
  0 <= u < Z.of_nat (length insns) -> visit_insn u insns subprogs = Some (Ok nexts) -> v ∈ nexts ->
  edge_confined insns subprogs u v.
Proof.
  intros Hu. unfold visit_insn, edge_confined. destruct (insns !! Z.to_nat u) as [insn|] eqn:Hi; [|done].
  destruct (find_subprog_range u subprogs (Z.of_nat (length insns))) as [start stop] eqn:Hr.
  pose proof (range_start _ _ _ _ _ Hu Hr) as Hrange. intros [= (nexts' & Hraw & H)%rbind_ok].
  destruct (bool_decide (u + 1 ∈ nexts') && (stop <=? u + 1)) eqn:Hf; [done|]. injection H as <-.
  assert (Hfall : u + 1 ∈ nexts' -> start <= u + 1 < stop).
  { intros Hin. rewrite (bool_decide_eq_true_2 _ Hin) in Hf. apply Z.leb_gt in Hf. lia. }
  clear Hf. unfold raw_nexts in Hraw.
  destruct insn; cbn [cond_offset] in Hraw; intros Hv;
    try (injection Hraw as <-; apply list_elem_of_singleton in Hv as ->; split; [done|apply Hfall; by left]);
    try (apply rbind_ok in Hraw as (t & Ht & [= <-]); apply checked_target_ok in Ht;
         split; [done|]; apply elem_of_cons in Hv as [->|Hv]; [done|];
         first [by apply not_elem_of_nil in Hv
               |apply list_elem_of_singleton in Hv as ->; apply Hfall; right; by left]).
  - case_bool_decide as Hin; [|done]. injection Hraw as <-. by apply list_elem_of_singleton in Hv as ->.
  - destruct (Z.eqb_spec start 0); injection Hraw as <-; [by apply not_elem_of_nil in Hv|].
    apply list_elem_of_fmap in Hv as ([pc t] & -> & [Ht Hin]%list_elem_of_filter).
    apply call_sites_ok in Hin as (offset & Hpc & ->). by exists pc, offset.
Qed.

(** An accepted program ends with an exit or a jump, so that the liveness analysis
    stays inside it. *)
Lemma accepted_flow_inside insns subprogs heads :
  add_subprog insns = Ok subprogs -> check_cfg insns subprogs = Some (Ok heads) -> flow_inside insns = true.
Proof.
  intros He%add_subprog_ok Hc%check_cfg_ends. destruct (last_insn _ _ He Hc) as (insn & Hi & Hd).
  apply last_not_call_inside. intros offset. rewrite last_lookup. replace (pred (length insns)) with (length insns - 1)%nat by lia.
  rewrite Hi. destruct Hd as [->|[o ->]]; congruence.
Qed.

(** * Properties *)

Lemma check_cfg_total (insns : list BpfInsn) (subprogs : list Z) :
  add_subprog insns = Ok subprogs -> exists r, check_cfg insns subprogs = Some r.
Proof.
  intros He%add_subprog_ok. unfold check_cfg. destruct insns as [|insn insns']; [by eexists|].
  set (insns := insn :: insns') in *. pose proof (check_ends_total insns subprogs subprogs 0 He ltac:(done) eq_refl) as Ht.
  destruct (check_ends insns subprogs subprogs 0) as [[[]|e]|] eqn:Hc; [|by eexists|done].
  destruct (search_total insns subprogs He Hc ltac:(done)) as (r & -> & _).
  destruct r; [|by eexists]. destruct (list_find _ _) as [[]|]; by eexists.
Qed.

(** The control-flow check ends, with no index out of range: for the entries
    of [add_subprog] the search finishes within its fuel. *)
Theorem check_cfg_terminates (insns : list BpfInsn) (subprogs : list Z) :
  add_subprog insns = Ok subprogs -> exists r, check_cfg insns subprogs = Some r.
Proof. apply check_cfg_total. Qed.

Definition loop_example : list BpfInsn :=
  [BpfInsn.MovImm 1 10; BpfInsn.AddImm 1 (-1); BpfInsn.JneImm 1 0 (-2); BpfInsn.CallSub 1; BpfInsn.Exit;
   BpfInsn.MovImm 0 0; BpfInsn.Exit].

Lemma check_cfg_terminates_witness :
  add_subprog loop_example = Ok [0; 5] /\ exists r, check_cfg loop_example [0; 5] = Some r.
Proof. split; [reflexivity|]. apply (check_cfg_terminates loop_example [0; 5]). reflexivity. Defined.

(** C12: in an accepted program every instruction is reachable from the first
    one; every subprogram ends with an exit or a jump; the successors of an
    instruction are inside the program, and no edge leaves a subprogram but a call,
    which enters the entry it names, and the return of an exit behind a call of its
    subprogram; every loop head lies on a cycle and every cycle passes through a
    loop head. *)
Theorem check_cfg_sound (insns : list BpfInsn) (subprogs heads : list Z) :
  add_subprog insns = Ok subprogs -> check_cfg insns subprogs = Some (Ok heads) ->
  (forall i, 0 <= i < Z.of_nat (length insns) ->
     clos_refl_trans Z (edge insns subprogs) 0 i /\
     exists nexts, visit_insn i insns subprogs = Some (Ok nexts) /\
       forall v, v ∈ nexts -> 0 <= v < Z.of_nat (length insns) /\ edge_confined insns subprogs i v) /\
  (forall k, (k < length subprogs)%nat ->
     exists insn, insns !! Z.to_nat (subprog_end subprogs k (Z.of_nat (length insns)) - 1) = Some insn /\
       (insn = BpfInsn.Exit \/ exists offset, insn = BpfInsn.Jmp offset)) /\
  (forall h, h ∈ heads -> clos_trans Z (edge insns subprogs) h h) /\
  (forall i, 0 <= i < Z.of_nat (length insns) -> ~ clos_trans Z (forward insns subprogs heads) i i).
Proof.
  intros He%add_subprog_ok Hc. destruct (check_cfg_ok _ _ _ He Hc) as (Hall & Hh & Ha).
  split; [|split; [|done]].
  - intros i Hi. destruct (Hall i Hi) as (Hr & nexts & Hv & Hn). split; [done|]. exists nexts. split; [done|].
    intros v Hin. split; [by apply Hn|]. by apply (visit_confined _ _ _ nexts).
  - intros k Hk. apply check_cfg_ends in Hc. exact (check_ends_ok _ _ _ _ Hc k Hk).
Qed.

Lemma check_cfg_sound_witness :
  check_cfg loop_example [0; 5] = Some (Ok [1]) /\
  clos_trans Z (edge loop_example [0; 5]) 1 1 /\ ~ clos_trans Z (forward loop_example [0; 5] [1]) 1 1.
Proof.
  split; [vm_compute; reflexivity|].
  destruct (check_cfg_sound loop_example [0; 5] [1]) as (_ & _ & Hh & Ha); [reflexivity|vm_compute; reflexivity|].
  split; [apply Hh; by left|apply Ha; simpl; lia].
Defined.

(** In an accepted program the liveness analysis follows the same graph as
    the control-flow check: the successors of each instruction are the same. *)
Theorem liveness_graph_agrees (insns : list BpfInsn) (subprogs heads : list Z) (i v : nat) :
  add_subprog insns = Ok subprogs -> check_cfg insns subprogs = Some (Ok heads) ->
  Z.of_nat (length insns) <= I32_MAX -> Forall (fun insn => offset_ok insn = true) insns ->
  (i < length insns)%nat ->
  v ∈ static_successors i insns <-> edge insns subprogs (Z.of_nat i) (Z.of_nat v).
Proof.
  intros He%add_subprog_ok Hc Hn Hoff Hi. pose proof (check_cfg_ends _ _ _ Hc) as Hends.
  destruct (check_cfg_ok _ _ _ He Hc) as (Hall & _). destruct (Hall (Z.of_nat i) ltac:(lia)) as (_ & nexts & Hv & _).
  rewrite (successors_agree_ok insns subprogs i nexts v He Hends Hn Hoff Hv). split; [by exists nexts|].
  intros (nexts' & Hv' & Hin). rewrite Hv in Hv'. by injection Hv' as ->.
Qed.

Lemma liveness_graph_agrees_witness :
  Forall (fun insn => offset_ok insn = true) loop_example /\
  (5%nat ∈ static_successors 3 loop_example <-> edge loop_example [0; 5] 3 5).
Proof.
  split; [repeat constructor|].
  apply (liveness_graph_agrees loop_example [0; 5] [1] 3 5);
    [reflexivity|vm_compute; reflexivity|simpl; lia|repeat constructor|simpl; lia].
Defined.

(** C13: the stack check ends and accepts exactly the programs in which no chain
    of calls from the main program repeats an entry, has more than 16 frames, or
    needs more than the 512 bytes of the stack. *)
Theorem call_chains_exact (insns : list BpfInsn) (subprogs : list Z) :
  add_subprog insns = Ok subprogs ->
  exists r, check_combined_stack_depth insns subprogs = Some r /\
    (r = Ok tt <-> forall chain, extends insns subprogs [0%nat] chain ->
       chain = [0%nat] \/ chain_good (direct_stack_depths insns subprogs) chain).
Proof.
  intros He%add_subprog_ok. unfold check_combined_stack_depth, check_stack_call_chains.
  assert (Hlen : (0 < length subprogs)%nat).
  { pose proof (entries_zero _ _ He) as H0. destruct subprogs; [by apply not_elem_of_nil in H0|simpl; lia]. }
  apply visit_chain_ok; [apply NoDup_singleton|by constructor|simpl; lia].
Qed.

Lemma call_chains_exact_witness :
  exists r, check_combined_stack_depth loop_example [0; 5] = Some r /\
    (r = Ok tt <-> forall chain, extends loop_example [0; 5] [0%nat] chain ->
       chain = [0%nat] \/ chain_good (direct_stack_depths loop_example [0; 5]) chain).
Proof. apply (call_chains_exact loop_example [0; 5]). reflexivity. Defined.

(** * Completeness of the check *)

Section complete.
Context (insns : list BpfInsn) (subprogs : list Z).
Hypothesis Hentries : entries_ok insns subprogs.
Hypothesis Hends : check_ends insns subprogs subprogs 0 = Some (Ok tt).

Definition seen (vs : list VisitState) (v : Z) : Prop :=
  exists s, vs !! Z.to_nat v = Some s /\ s <> VisitState.NotVisited.

Lemma seen_mark vs i s v : s <> VisitState.NotVisited -> seen vs v -> seen (<[i := s]> vs) v.
Proof.
  intros Hs (s' & Hv & Hn). destruct (decide (Z.to_nat v = i)) as [<-|Hne].
  - exists s. split; [|done]. apply list_lookup_insert_eq. by eapply lookup_lt_Some.
  - exists s'. split; [|done]. by rewrite list_lookup_insert_ne.
Qed.

(** What has been seen stays so. *)
Lemma step_mono st idx child rest st' v :
  seen (visited st) v -> search_step insns subprogs st idx child rest = Some (Ok st') -> seen (visited st') v.
Proof.
  intros Hv. unfold search_step. destruct (visit_insn _ _ _) as [[nexts|e]|]; [|done..].
  destruct (nexts !! child) as [nxt|]; [destruct (visited st !! Z.to_nat nxt) as [[]|]|];
    try done; intros [= <-]; try done; by apply seen_mark.
Qed.

Lemma search_mono fuel v : forall st st',
  seen (visited st) v -> search fuel insns subprogs st = Some (Ok st') -> seen (visited st') v.
Proof.
  induction fuel as [|fuel IH]; intros st st' Hv; cbn [search]; [done|].
  destruct (todo st) as [|[idx child] rest]; [by intros [= <-]|].
  destruct (search_step _ _ _ _ _ _) as [[st1|e]|] eqn:E; [|done..]. apply IH. by eapply step_mono.
Qed.

(** The recorded loop heads have been discovered. *)
Lemma step_seen st idx child rest st' :
  (forall h, h ∈ loop_heads st -> seen (visited st) h) ->
  search_step insns subprogs st idx child rest = Some (Ok st') ->
  forall h, h ∈ loop_heads st' -> seen (visited st') h.
Proof.
  intros Hh. unfold search_step. destruct (visit_insn _ _ _) as [[nexts|e]|]; [|done..].
  destruct (nexts !! child) as [nxt|].
  - destruct (visited st !! Z.to_nat nxt) as [[]|] eqn:Hv; [| | |done]; intros [= <-]; cbn [loop_heads visited].
    + intros h Hin. apply seen_mark; [done|by apply Hh].
    + case_bool_decide; [done|]. intros h [Hin| ->%list_elem_of_singleton]%elem_of_app; [by apply Hh|].
      by exists VisitState.Discovering.
    + done.
  - intros [= <-]; cbn [loop_heads visited]. intros h Hin. apply seen_mark; [done|by apply Hh].
Qed.

Lemma search_seen fuel : forall st st',
  (forall h, h ∈ loop_heads st -> seen (visited st) h) ->
  search fuel insns subprogs st = Some (Ok st') ->
  forall h, h ∈ loop_heads st' -> seen (visited st') h.
Proof.
  induction fuel as [|fuel IH]; intros st st' Hh; cbn [search]; [done|].
  destruct (todo st) as [|[idx child] rest]; [by intros [= <-]|].
  destruct (search_step _ _ _ _ _ _) as [[st1|e]|] eqn:E; [|done..].
  apply IH. by eapply step_seen.
Qed.

(** An error of the search is the error of an instruction. *)
Lemma search_error fuel : forall st dn e,
  search_inv insns subprogs st dn -> search fuel insns subprogs st = Some (Err e) ->
  exists u, inside insns u /\ visit_insn u insns subprogs = Some (Err e).
Proof using Hends Hentries.
  induction fuel as [|fuel IH]; intros st dn e Hi; cbn [search]; [done|].
  destruct (todo st) as [|[idx child] rest] eqn:Ht; [done|].
  destruct (search_step_ok insns subprogs Hentries Hends st dn idx child rest Hi Ht) as (r & Hs & Hr).
  rewrite Hs. destruct r as [st1|e1]; [destruct (Hr st1 eq_refl) as (_ & dn' & Hi'); by apply (IH _ dn')|].
  intros [= ->]. exists idx. split.
  - apply (inv_inside _ _ _ _ Hi). rewrite Ht. apply elem_of_app. right. by left.
  - unfold search_step in Hs. destruct (visit_insn _ _ _) as [[nexts|e']|]; [|by injection Hs as ->|done].
    destruct (nexts !! child); [|done]. by destruct (visited st !! _) as [[]|].
Qed.

(** What a finished search explored is closed under the edges. *)
Lemma finished_closed st dn u v :
  search_inv insns subprogs st dn -> todo st = [] -> (forall h, h ∈ loop_heads st -> seen (visited st) h) ->
  u ∈ dn -> edge insns subprogs u v -> v ∈ dn.
Proof using Hends Hentries.
  intros Hi Ht Hseen Hu (nexts & Hv & Hin).
  assert (Hin_v : inside insns v).
  { apply (next_inside insns subprogs Hentries Hends u nexts); [|done..]. apply (inv_inside _ _ _ _ Hi), elem_of_app. by left. }
  assert (Hor : v ∈ loop_heads st \/ v ∈ dn).
  { pose proof (inv_finished _ _ _ _ Hi) as Hf. clear -Hf Hu Hv Hin. revert Hu Hf. generalize (loop_heads st).
    induction dn as [|w dn IH]; intros heads; [by intros ?%not_elem_of_nil|].
    intros [->|Hu]%elem_of_cons [(nexts' & Hv' & Hn) Hf].
    - rewrite Hv in Hv'. injection Hv' as <-. destruct (Hn v Hin); [by left|right; by right].
    - destruct (IH _ Hu Hf); [by left|right; by right]. }
  destruct Hor as [Hh|]; [|done]. destruct (Hseen v Hh) as (s & Hs & Hn).
  destruct s; [done| |].
  - apply (inv_discovering _ _ _ _ Hi v Hin_v) in Hs. rewrite Ht in Hs. by apply not_elem_of_nil in Hs.
  - by apply (inv_explored _ _ _ _ Hi v Hin_v).
Qed.
End complete.

Lemma check_cfg_accepts insns subprogs :
  entries_ok insns subprogs -> insns <> [] -> check_ends insns subprogs subprogs 0 = Some (Ok tt) ->
  (forall i, 0 <= i < Z.of_nat (length insns) ->
     clos_refl_trans Z (edge insns subprogs) 0 i /\
     exists nexts, visit_insn i insns subprogs = Some (Ok nexts)) ->
  exists heads, check_cfg insns subprogs = Some (Ok heads).
Proof.
  intros He Hne Hc Hall. unfold check_cfg. destruct insns as [|insn insns']; [done|].
  set (insns := insn :: insns') in *. rewrite Hc.
  destruct (search_total insns subprogs He Hc Hne) as (r & Hs & Hr). rewrite Hs.
  destruct r as [st|e].
  2: { apply (search_error insns subprogs He Hc) with (dn := []) in Hs as (u & Hu & Hv);
         [|by apply start_inv]. destruct (Hall u Hu) as [_ [nexts Hn]]. by rewrite Hn in Hv. }
  destruct (Hr st eq_refl) as (Ht & dn & Hi).
  destruct (list_find _ (visited st)) as [[i s]|] eqn:Hf; [exfalso|by eexists].
  apply list_find_Some in Hf as (Hi' & -> & _).
  assert (Hin : inside insns (Z.of_nat i)).
  { apply lookup_lt_Some in Hi'. rewrite (inv_length _ _ _ _ Hi) in Hi'. unfold inside. lia. }
  assert (Hdone : forall v, clos_refl_trans Z (edge insns subprogs) 0 v -> v ∈ dn).
  { intros v Hp. apply clos_rt_rtn1 in Hp. induction Hp as [|u v Huv _ IH].
    - assert (H0 : inside insns 0) by (unfold inside; simpl; lia).
      apply (inv_explored _ _ _ _ Hi 0 H0).
      destruct (visited_at insns subprogs st dn 0 Hi H0) as [s Hs0]. rewrite Hs0.
      destruct s; [|apply (inv_discovering _ _ _ _ Hi 0 H0) in Hs0; rewrite Ht in Hs0; by apply not_elem_of_nil in Hs0|done].
      exfalso. assert (Hz : seen (visited st) 0); [|destruct Hz as (? & Hz & ?); congruence].
      eapply search_mono; [|exact Hs]. by exists VisitState.Discovering.
    - eapply finished_closed; [done..| |exact IH|exact Huv]. eapply search_seen; [|exact Hs].
      by intros h ?%not_elem_of_nil. }
  destruct (Hall _ Hin) as [Hp _]. apply Hdone in Hp. apply (inv_explored _ _ _ _ Hi _ Hin) in Hp.
  rewrite Nat2Z.id in Hp. congruence.
Qed.

(** The control-flow check accepts exactly the non-empty programs in which
    every subprogram ends with an exit or a jump, every instruction's successors
    stay where they may, and every instruction is reached from the first. *)
Theorem check_cfg_exact (insns : list BpfInsn) (subprogs : list Z) :
  add_subprog insns = Ok subprogs ->
  (exists heads, check_cfg insns subprogs = Some (Ok heads)) <->
  insns <> [] /\ check_ends insns subprogs subprogs 0 = Some (Ok tt) /\
  forall i, 0 <= i < Z.of_nat (length insns) ->
    clos_refl_trans Z (edge insns subprogs) 0 i /\ exists nexts, visit_insn i insns subprogs = Some (Ok nexts).
Proof.
  intros He%add_subprog_ok. split.
  - intros [heads Hc]. split; [by intros ->|]. split; [by eapply check_cfg_ends|].
    intros i Hi. destruct (check_cfg_ok _ _ _ He Hc) as (Hall & _). destruct (Hall i Hi) as (? & nexts & ? & _). eauto.
  - intros (Hne & Hc & Hall). by apply check_cfg_accepts.
Qed.

Lemma check_cfg_exact_witness :
  forall i, 0 <= i < Z.of_nat (length loop_example) ->
    clos_refl_trans Z (edge loop_example [0; 5]) 0 i.
Proof.
  intros i Hi. destruct (check_cfg_exact loop_example [0; 5]) as [H _]; [reflexivity|].
  destruct H as (_ & _ & H); [exists [1]; vm_compute; reflexivity|]. apply (H i Hi).
Defined.
