(* ===== verification/Helper.v ===== *)
(** Prototypes of the helper functions and kfuncs (src/src/helper.rs): argument
    types, return states, the tables by identifier, and the check of the argument
    registers. *)
From Stdlib Require Import ZArith Lia List Bool.
From stdpp Require Import base list.
From S2P Require Import Prelude Bounds State.
Open Scope Z_scope.

Module ArgType.
Inductive ArgType := PtrToMap | PtrToStack | Scalar | PtrToMem | PtrToDynptr | PtrToBtf | PtrToMapValue.
End ArgType.
Abbreviation ArgType := ArgType.ArgType.

Record KfuncPrototype := mkKfunc {
  kfunc_args : list ArgType;
  kfunc_return_type : RegState;
  acquires_ref : bool;
  releases_ref : bool
}.

Record HelperPrototype := mkHelper {
  helper_args : list ArgType;
  return_type : RegState
}.

Definition UNKNOWN_SCALAR : RegState := Scalar bounds_unknown.
Definition UNKNOWN_SCALAR_ZERO : RegState := Scalar (bounds_constant 0).

Definition kfunc_prototype (btf_id : Z) : option KfuncPrototype :=
  match btf_id with
  | 94599 => Some (mkKfunc [ArgType.PtrToBtf] UNKNOWN_SCALAR_ZERO false true)
  | 94041 => Some (mkKfunc [ArgType.PtrToMap; ArgType.PtrToBtf] (PtrToBtfId 0 0) true false)
  | 94881 => Some (mkKfunc [ArgType.PtrToBtf] (PtrToBtfId 0 0) true false)
  | _ => None
  end.

Definition helper_acquires_ref (id : Z) : bool := id =? 131.
Definition helper_releases_ref (id : Z) : bool := (id =? 132) || (id =? 133).

Definition RINGBUF_RELEASE : HelperPrototype :=
  mkHelper [ArgType.PtrToMem; ArgType.Scalar] UNKNOWN_SCALAR_ZERO.

Definition helper_prototype (id : Z) : option HelperPrototype :=
  match id with
  | 1 => Some (mkHelper [ArgType.PtrToMap; ArgType.PtrToStack] (PtrToMapValueOrNull 0 0))
  | 2 => Some (mkHelper [ArgType.PtrToMap; ArgType.PtrToStack; ArgType.PtrToStack; ArgType.Scalar]
                 (Scalar (mkBounds 0 0 0 0 0 0 0 0 (Tnum.mkTnum 0 0) false 0 0)))
  | 5 | 7 | 8 | 10 => Some (mkHelper [] UNKNOWN_SCALAR)
  | 131 => Some (mkHelper [ArgType.PtrToMap; ArgType.Scalar; ArgType.Scalar] (PtrToMemOrNull 0 0 0))
  | 197 => Some (mkHelper [ArgType.PtrToMapValue; ArgType.Scalar; ArgType.Scalar; ArgType.PtrToDynptr]
                   UNKNOWN_SCALAR_ZERO)
  | 201 => Some (mkHelper [ArgType.PtrToStack; ArgType.Scalar; ArgType.PtrToDynptr; ArgType.Scalar; ArgType.Scalar]
                   UNKNOWN_SCALAR_ZERO)
  | 202 => Some (mkHelper [ArgType.PtrToDynptr; ArgType.Scalar; ArgType.PtrToStack; ArgType.Scalar; ArgType.Scalar]
                   UNKNOWN_SCALAR_ZERO)
  | 203 => Some (mkHelper [ArgType.PtrToDynptr; ArgType.Scalar; ArgType.Scalar] (PtrToMemOrNull 0 0 0))
  | 132 | 133 => Some RINGBUF_RELEASE
  | 125 | 160 | 208 => Some (mkHelper [] UNKNOWN_SCALAR)
  | _ => None
  end.

Definition arg_matches (expected : ArgType) (actual : RegState) : bool :=
  match expected, actual with
  | ArgType.PtrToMap, PtrToMap _ _ _
  | ArgType.PtrToStack, PtrToStack _ _ _ _
  | ArgType.PtrToMem, PtrToMem _ _ _ _ _
  | ArgType.PtrToDynptr, PtrToStack _ _ _ _
  | ArgType.PtrToBtf, PtrToBtfId _ _
  | ArgType.PtrToMapValue, PtrToMapValue _ _ _ _ _
  | ArgType.Scalar, State.Scalar _ => true
  | _, _ => false
  end.

(** The loop over the arguments from register [reg]. *)
Fixpoint check_args_from (pc : Z) (reg : Z) (args : list ArgType) (s : VerifierState)
  : result VerificationFailure unit :=
  match args with
  | [] => Ok tt
  | expected :: args =>
      let? actual := read_reg pc s reg in
      if negb (arg_matches expected actual) then fail pc (HelperArgMismatch reg actual)
      else check_args_from pc (reg + 1) args s
  end.

Definition check_call_args (pc : Z) (args : list ArgType) (s : VerifierState) : result VerificationFailure unit :=
  check_args_from pc 1 args s.
Definition check_helper_args (pc : Z) (helper : HelperPrototype) (s : VerifierState)
  : result VerificationFailure unit := check_call_args pc (helper_args helper) s.
