(* ===== verification/Mem.v ===== *)
(** Memory accesses of the abstract machine (src/src/exec.rs): bounds and alignment
    checks, stack reads and writes with their byte types, spills and dynptr
    slots, accesses through map values, referenced memory and the context, and
    the atomic operations. *)
From Stdlib Require Import ZArith Lia List Bool String.
From stdpp Require Import base list.
From S2P Require Import Prelude Tnum Bounds Insn Alu Ctx State.
Open Scope Z_scope.

(** [rem_euclid] by a positive size, and the checked 32-bit sum. *)
Abbreviation rem_euclid a b := (a mod b) (only parsing).
Definition sat_add_i32 (a b : Z) : Z := saturate I32_MIN I32_MAX (a + b).

(** * Scalars of a width *)

Definition scalar_for_width (size : Z) (sign_extend : bool) : ScalarBounds :=
  match size, sign_extend with
  | 1, false => bounds_from_signed 0 255
  | 2, false => bounds_from_signed 0 65535
  | 4, false => bounds_from_signed 0 U32_MAX
  | 1, true => bounds_from_signed (-128) 127
  | 2, true => bounds_from_signed (-32768) 32767
  | 4, true => bounds_from_signed I32_MIN I32_MAX
  | _, _ => bounds_unknown
  end.

(** Sign extension of the low [bits] bits [v] of a register. *)
Definition extend (v bits : Z) (sign_extend : bool) : Z :=
  if sign_extend && negb (Z.land v (Z.shiftl 1 (bits - 1)) =? 0)
  then Z.lor (as_i64 v) (as_i64 (unot 64 (Z.ones bits))) else as_i64 v.

Definition coerce_scalar (b : ScalarBounds) (size : Z) (sign_extend : bool) : ScalarBounds :=
  if 8 <=? size then b
  else
    let bits := size * 8 in
    let low_mask := Z.ones bits in
    let low_tnum := mkTnum (Z.land (tvalue (tnum b)) low_mask)
                      (Z.lor (Z.land (tmask (tnum b)) low_mask) (unot 64 low_mask)) in
    if bounds_is_constant b
    then bounds_constant (extend (Z.land (as_u64 (smin b)) low_mask) bits sign_extend)
    else if sign_extend then
      mkBounds (smin bounds_unknown) (smax bounds_unknown) (umin bounds_unknown) (umax bounds_unknown)
        (s32_min bounds_unknown) (s32_max bounds_unknown) (u32_min bounds_unknown) (u32_max bounds_unknown)
        low_tnum (precise bounds_unknown) (id bounds_unknown) (delta bounds_unknown)
    else
      mkBounds 0 low_mask 0 low_mask 0 (as_i32 (Z.min low_mask U32_MAX)) 0 (Z.min low_mask U32_MAX)
        low_tnum (precise b) 0 0.

(** * Checks *)

Definition packet_access_allowed (p : ProgType) : bool :=
  match p with
  | ProgType.SocketFilter | ProgType.SchedCls | ProgType.SchedAct | ProgType.CgroupSkb => true
  | _ => false
  end.

Definition check_legacy_packet_load (pc : Z) (s : VerifierState) : result VerificationFailure unit :=
  if negb (packet_access_allowed (prog_type s)) then fail pc PacketLoadNotAllowed
  else match reg s 6 with PtrToCtx _ => Ok tt | _ => fail pc PacketLoadWithoutSkb end.

Definition ctx_read (pc : Z) (p : ProgType) (off : Z) (size : MemSize) (sign_extend : bool)
  : result VerificationFailure RegState :=
  let bytes := MemSize.bytes size in
  match ctx_table_read p off bytes with
  | Ok CtxScalar => Ok (Scalar (scalar_for_width bytes sign_extend))
  | Ok (CtxPointer field) => fail pc (CtxPointerField field)
  | Err (Unmodeled field) => fail pc (CtxUnmodeledField field)
  | Err Ctx.Invalid => fail pc (CtxInvalidAccess off bytes)
  end.

Definition stack_bounds_error {A} (pc base offset min_offset max_offset min_off : Z)
  : result VerificationFailure A :=
  fail pc (StackOutOfFrame base offset min_offset max_offset
             ((0 <=? min_off) && (base =? 10) && (min_offset =? 0) && (max_offset =? 0))).

Definition mem_access_check (pc base offset min_offset max_offset size : Z)
  : result VerificationFailure unit :=
  let min_off := min_offset + offset in
  let max_off := max_offset + offset + size in
  if negb (rem_euclid min_off size =? 0) then fail pc (MemMisaligned base offset size)
  else if (min_off <? 0) || (max_offset + 8 <? max_off)
  then fail pc (MemOutOfBounds base offset min_offset (max_offset + 8))
  else Ok tt.

Definition map_value_access_check (pc base : Z) (ptr : RegState) (off : Z) : result VerificationFailure unit :=
  match ptr with
  | PtrToMapValue min_offset max_offset align_off value_size _ =>
      let min_off := min_offset + off in
      let max_off := max_offset + off + STACK_SLOT_SIZE in
      if align_off =? ALIGN_UNKNOWN then fail pc (MapAlignmentUnknown base)
      else if negb (rem_euclid (align_off + rem_euclid off 8) 8 =? 0) then fail pc (MapAccessMisaligned base off)
      else if (min_off <? 0) || (value_size <? max_off)
      then fail pc (MapAccessOutOfBounds base off value_size min_offset max_offset)
      else Ok tt
  | _ => fail pc Panicked
  end.

(** The alignment and frame checks of a stack access. *)
Definition check_stack_access (pc base offset min_offset max_offset align_off size : Z)
  : result VerificationFailure unit :=
  let min_off := min_offset + offset in
  let max_off := max_offset + offset + size in
  if align_off =? ALIGN_UNKNOWN then fail pc (StackAlignmentUnknown base size)
  else if negb (rem_euclid (align_off + offset) size =? 0) || negb (rem_euclid min_off size =? 0)
  then fail pc (StackMisaligned base offset size)
  else if (min_off <? - STACK_SIZE) || (0 <? max_off)
  then stack_bounds_error pc base offset min_offset max_offset min_off
  else Ok tt.

(** The slots of a stack access, for the precision backtracking. *)
Definition stack_access_range (pc base : Z) (s : VerifierState) (off size : Z)
  : result VerificationFailure (Z * Z) :=
  match reg s base with
  | PtrToStack min_offset max_offset align_off _ =>
      let min_off := min_offset + off in
      let max_off := max_offset + off + size in
      if align_off =? ALIGN_UNKNOWN then fail pc (StackAlignmentUnknown base size)
      else if negb (rem_euclid (align_off + off) size =? 0) then fail pc (StackMisaligned base off size)
      else if (0 <=? min_off) || (min_off <? - STACK_SIZE) || (0 <? max_off)
      then fail pc (StackOutOfFrame base off min_offset max_offset
                      ((base =? 10) && (min_offset =? 0) && (max_offset =? 0)))
      else Ok (Z.quot (- max_off) STACK_SLOT_SIZE, Z.quot (- min_off - 1) STACK_SLOT_SIZE)
  | _ => fail pc Panicked
  end.

(** * Bytes of a stack *)

Definition stack_byte_index (off : Z) : nat := Z.to_nat (- off - 1).
Definition stack_byte_range (min_off max_off : Z) : nat * nat :=
  (stack_byte_index (max_off - 1), stack_byte_index min_off).

(** [lo ..= hi], and the assignment of a byte type to it. *)
Definition range (lo hi : nat) : list nat := seq lo (S hi - lo).
Definition within (lo hi i : nat) : bool := (lo <=? i)%nat && (i <=? hi)%nat.
Definition fill (lo hi : nat) (x : StackByte) (bs : list StackByte) : list StackByte :=
  imap (fun i b => if within lo hi i then x else b) bs.

Definition slot_bytes (st : StackState) (slot : nat) : list StackByte := take 8 (drop (slot * 8) (bytes st)).
(** [bytes[slot * 8..slot * 8 + 8].iter().all(|b| *b == Spill)]. *)
Definition full_spill (st : StackState) (slot : nat) : bool :=
  forallb (fun b => bool_decide (b = StackByte.Spill)) (slot_bytes st slot).

(** The registers spilled in full slots, rewritten. *)
Definition map_full_spills (f : RegState -> RegState) (st : StackState) : StackState :=
  mkStack (bytes st)
    (imap (fun slot v => match v with
                         | Some r => if full_spill st slot then Some (f r) else v
                         | None => None
                         end) (spilled st))
    (dynptr st).

(** The stack of an active frame; [None]: a panic. *)
Definition frame_stack_of (s : VerifierState) (frameno : Z) : option StackState :=
  if frameno =? curframe s then Some (stack s)
  else match saved s !! Z.to_nat frameno with Some (Some f) => Some (frame_stack f) | _ => None end.
Definition set_stack (st : StackState) (s : VerifierState) : VerifierState :=
  mkState (regs s) st (saved s) (curframe s) (ret_pc s) (refs s) (refs_cnt s) (prog_type s).
Definition set_frame_stack (frameno : Z) (st : StackState) (s : VerifierState) : VerifierState :=
  if frameno =? curframe s then set_stack st s
  else
    mkState (regs s) (stack s)
      (alter (fmap (fun f => mkFrame (frame_regs f) st (frame_ret_pc f))) (Z.to_nat frameno) (saved s))
      (curframe s) (ret_pc s) (refs s) (refs_cnt s) (prog_type s).

(** * Reads *)

Definition count_byte (x : StackByte) (bs : list StackByte) : nat :=
  length (filter (fun b => b = x) bs).
Definition unreadable (b : StackByte) : bool :=
  match b with StackByte.Invalid | StackByte.Dynptr => true | _ => false end.

Definition is_scalar (r : option RegState) : bool :=
  match r with Some (Scalar _) => true | _ => false end.

Definition fixed_stack_read (pc base offset : Z) (st : StackState) (lo hi : nat) (min_off size : Z)
    (sign_extend : bool) : result VerificationFailure RegState :=
  let slot := (hi / 8)%nat in
  let covered := map (fun i => bytes st !!! i) (range lo hi) in
  let walk :=
    if existsb unreadable covered then fail pc (UninitializedStack offset)
    else
      let constant_zero_spill :=
        (count_byte StackByte.Spill covered =? length covered)%nat &&
        match spilled st !!! slot with
        | Some (Scalar b) => bounds_is_constant b && (smin b =? 0)
        | _ => false
        end in
      if (count_byte StackByte.Zero covered =? length covered)%nat || constant_zero_spill
      then Ok (Scalar (bounds_constant 0)) else Ok (Scalar bounds_unknown) in
  if forallb (fun b => bool_decide (b = StackByte.Spill)) covered then
    match spilled st !!! slot with
    | None => walk
    | Some v =>
        if size =? 8 then Ok v
        else
          match v with
          | Scalar b =>
              if rem_euclid min_off 8 =? 0 then Ok (Scalar (coerce_scalar b size sign_extend)) else walk
          | _ => fail pc (InvalidFillSize base offset v)
          end
    end
  else walk.

(** The bytes of a variable-offset read; [true]: one of them is not known. *)
Fixpoint variable_read (pc base offset min_offset max_offset : Z) (st : StackState) (l : list nat) (unknown : bool)
  : result VerificationFailure bool :=
  match l with
  | [] => Ok unknown
  | i :: l =>
      match bytes st !!! i with
      | StackByte.Invalid | StackByte.Dynptr =>
          fail pc (VariableReadUninitialized base offset min_offset max_offset)
      | StackByte.Misc | StackByte.Zero => variable_read pc base offset min_offset max_offset st l true
      | StackByte.Spill =>
          if is_scalar (spilled st !!! (i / 8)%nat)
          then variable_read pc base offset min_offset max_offset st l true
          else fail pc (IndirectSpillRead base offset)
      end
  end.

Definition stack_read (pc base : Z) (s : VerifierState) (offset : Z) (size : MemSize) (sign_extend : bool)
  : result VerificationFailure RegState :=
  let? base_state := read_reg pc s base in
  match base_state with
  | PtrToStack min_offset max_offset align_off frameno =>
      let size := MemSize.bytes size in
      let min_off := min_offset + offset in
      let max_off := max_offset + offset + size in
      let? _ := check_stack_access pc base offset min_offset max_offset align_off size in
      let '(lo, hi) := stack_byte_range min_off max_off in
      match frame_stack_of s frameno with
      | None => fail pc Panicked
      | Some st =>
          if min_offset =? max_offset
          then fixed_stack_read pc base offset st lo hi min_off size sign_extend
          else
            let? unknown := variable_read pc base offset min_offset max_offset st (range lo hi) false in
            Ok (Scalar (if (unknown : bool) then bounds_unknown else bounds_constant 0))
      end
  | PtrToMapValue _ _ _ _ _ =>
      let? _ := map_value_access_check pc base base_state offset in
      Ok (Scalar bounds_unknown)
  | PtrToMem min_offset max_offset _ _ _ =>
      let? _ := mem_access_check pc base offset min_offset max_offset (MemSize.bytes size) in
      Ok (Scalar bounds_unknown)
  | _ => fail pc (NonStackBase "load" base)
  end.

(** [LdMem]: the context first, then the stack and the other memories. *)
Definition ld_mem (pc : Z) (s : VerifierState) (dst base offset : Z) (size : MemSize) (sign_extend : bool)
  : result VerificationFailure VerifierState :=
  let? _ := check_reg pc dst in
  if NUM_REGS <=? base then fail pc Panicked else
  match reg s base with
  | PtrToCtx base_off =>
      let? loaded := ctx_read pc (prog_type s) (sat_add_i32 base_off offset) size sign_extend in
      Ok (set_reg dst loaded s)
  | _ =>
      let? loaded := stack_read pc base s offset size sign_extend in
      Ok (set_reg dst loaded s)
  end.

(** * Writes *)

(** The value of a store: a register or an immediate. *)
Definition stored_value (pc : Z) (s : VerifierState) (src imm : option Z) : result VerificationFailure RegState :=
  match src, imm with
  | Some r, _ => read_reg pc s r
  | None, Some i => Ok (Scalar (bounds_constant i))
  | None, None => fail pc Panicked
  end.

Definition memory_store_scalar (pc : Z) (s : VerifierState) (src imm : option Z) (memory_kind : string)
  : result VerificationFailure unit :=
  let? value := stored_value pc s src imm in
  if is_scalar (Some value) || (memory_kind =? "map value")%string then Ok tt
  else fail pc (PointerStore memory_kind).

(** The loop that destroys the dynptrs of the covered slots; the identity of
    the last one destroyed. *)
Definition destroy_slot (acc : StackState * option Z) (slot : nat) : StackState * option Z :=
  let '(st, destroyed) := acc in
  if bool_decide (bytes st !!! (slot * 8)%nat = StackByte.Dynptr) then
    (mkStack (fill (slot * 8) (slot * 8 + 7) StackByte.Invalid (bytes st)) (spilled st)
       (<[slot := None]> (dynptr st)),
     match dynptr st !!! slot with Some ds => Some (dynptr_id ds) | None => destroyed end)
  else acc.
Definition destroy_dynptrs (lo hi : nat) (st : StackState) : StackState * option Z :=
  fold_left destroy_slot (range (lo / 8) (hi / 8)) (st, None).

(** A referenced buffer with the identity, or derived from it, becomes unknown. *)
Definition drop_slice (did : Z) (r : RegState) : RegState :=
  match r with
  | PtrToMem _ _ _ rid pid | PtrToMemOrNull rid pid _ =>
      if (rid =? did) || (pid =? did) then Scalar bounds_unknown else r
  | _ => r
  end.

(** The first spilled pointer in the covered slots. *)
Definition holds_pointer (r : option RegState) : bool :=
  match r with Some (Scalar _) | None => false | Some _ => true end.
Definition spilled_pointer (st : StackState) (lo hi : nat) : option (nat * RegState) :=
  match List.filter (fun slot => holds_pointer (spilled st !!! slot)) (range (lo / 8) (hi / 8)) with
  | slot :: _ => (fun v => (slot, v)) <$> (spilled st !!! slot)
  | [] => None
  end.

(** The aligned store of [v] in the low bytes of a slot. *)
Definition spill_write (lo hi : nat) (v : RegState) (st : StackState) : StackState :=
  let slot := (hi / 8)%nat in
  mkStack
    (imap (fun i b => if (slot * 8 <=? i)%nat && (i <? lo)%nat then StackByte.Misc else b)
       (fill lo hi StackByte.Spill (bytes st)))
    (<[slot := Some v]> (spilled st)) (dynptr st).

(** A partial or variable-offset store: the covered bytes become zero or
    unknown, the covered slots lose their spilled register and dynptr. *)
Definition scrub_write (lo hi : nat) (zero : bool) (st : StackState) : StackState :=
  let covered slot := within (lo / 8) (hi / 8) slot in
  mkStack
    (imap (fun i b => if covered (i / 8)%nat && bool_decide (b = StackByte.Spill) then StackByte.Misc else b)
       (fill lo hi (if zero then StackByte.Zero else StackByte.Misc) (bytes st)))
    (imap (fun slot v => if covered slot then None else v) (spilled st))
    (imap (fun slot v => if covered slot then None else v) (dynptr st)).

Definition is_stack_ptr (r : RegState) : bool :=
  match r with PtrToStack _ _ _ _ => true | _ => false end.
Definition is_zero_scalar (r : RegState) : bool :=
  match r with Scalar b => bounds_is_constant b && (smin b =? 0) | _ => false end.

(** The store itself, after the checks, in the frame's stack [st]. *)
Definition write_bytes (pc base : Z) (s : VerifierState) (offset : Z) (size : Z) (src imm : option Z)
    (fixed_aligned : bool) (foreign : bool) (lo hi : nat) (st : StackState)
  : result VerificationFailure StackState :=
  if fixed_aligned then
    let? v := stored_value pc s src imm in
    if negb (is_scalar (Some v)) && negb (size =? 8) then fail pc (InvalidSpillSize base offset v)
    else if is_stack_ptr v && foreign then fail pc SpillIntoCallerFrame
    else Ok (spill_write lo hi v st)
  else
    match spilled_pointer st lo hi with
    | Some (slot, v) => fail pc (CorruptSpilledPointer base offset v (Z.of_nat slot))
    | None =>
        let? v := stored_value pc s src imm in
        Ok (scrub_write lo hi (is_zero_scalar v) st)
    end.

Definition stack_write (pc base : Z) (s : VerifierState) (offset : Z) (size : MemSize) (src imm : option Z)
  : result VerificationFailure VerifierState :=
  let? base_state := read_reg pc s base in
  match base_state with
  | PtrToStack min_offset max_offset align_off frameno =>
      let size := MemSize.bytes size in
      let min_off := min_offset + offset in
      let max_off := max_offset + offset + size in
      let? _ := check_stack_access pc base offset min_offset max_offset align_off size in
      let '(lo, hi) := stack_byte_range min_off max_off in
      match frame_stack_of s frameno with
      | None => fail pc Panicked
      | Some st =>
          let '(st, destroyed) := destroy_dynptrs lo hi st in
          let next :=
            match destroyed with
            | Some did => set_frame_stack frameno (map_full_spills (drop_slice did) st)
                            (set_regs (map (drop_slice did)) s)
            | None => set_frame_stack frameno st s
            end in
          let st := match destroyed with Some did => map_full_spills (drop_slice did) st | None => st end in
          let fixed_aligned := (min_offset =? max_offset) && (rem_euclid min_off 8 =? 0) in
          let? st := write_bytes pc base s offset size src imm fixed_aligned (negb (frameno =? curframe s)) lo hi st in
          Ok (set_frame_stack frameno st next)
      end
  | PtrToMapValue _ _ _ _ _ =>
      let? _ := map_value_access_check pc base base_state offset in
      let? _ := memory_store_scalar pc s src imm "map value" in
      Ok s
  | PtrToMem min_offset max_offset _ _ _ =>
      let? _ := mem_access_check pc base offset min_offset max_offset (MemSize.bytes size) in
      let? _ := memory_store_scalar pc s src imm "referenced memory" in
      Ok s
  | _ => fail pc (NonStackBase "store" base)
  end.

(** * Atomic operations *)

(** The fetched value goes to R0 (compare-and-exchange) or the source. *)
Definition store_old (op : AtomicOp) (fetch : bool) (src : Z) (old : RegState) (s : VerifierState) : VerifierState :=
  match op with
  | AtomicOp.Cmpxchg => set_reg 0 old s
  | _ => if fetch then set_reg src old s else s
  end.

(** The bytes become unknown, and the slots lose their register. *)
Definition atomic_write (lo hi : nat) (st : StackState) : StackState :=
  mkStack (fill lo hi StackByte.Misc (bytes st))
    (imap (fun slot v => if within (lo / 8) (hi / 8) slot then None else v) (spilled st)) (dynptr st).

Definition atomic (pc : Z) (s : VerifierState) (dst src offset : Z) (size : MemSize) (op : AtomicOp) (fetch : bool)
  : result VerificationFailure VerifierState :=
  let? base_state := read_reg pc s dst in
  let? _ := read_scalar pc s src in
  let? _ := match op with AtomicOp.Cmpxchg => let? _ := read_scalar pc s 0 in Ok tt | _ => Ok tt end in
  let nbytes := MemSize.bytes size in
  if negb (Z.rem offset nbytes =? 0) then fail pc (AtomicMisaligned dst offset nbytes)
  else
    match base_state with
    | PtrToStack min_offset max_offset align_off frameno =>
        if negb (rem_euclid (align_off + offset) nbytes =? 0) || negb (rem_euclid (min_offset + offset) nbytes =? 0)
        then fail pc (AtomicMisaligned dst offset nbytes)
        else
          let lo := min_offset + offset in
          let hi := max_offset + offset + nbytes in
          if (lo <? - STACK_SIZE) || (0 <? hi) then fail pc (AtomicOutOfFrame dst offset)
          else
            let? old := stack_read pc dst s offset size false in
            let old := if nbytes =? 8 then old else Scalar (scalar_for_width nbytes false) in
            if negb (frameno =? curframe s) then fail pc AtomicCallerFrame
            else
              let '(first, last) := stack_byte_range lo hi in
              Ok (store_old op fetch src old (set_stack (atomic_write first last (stack s)) s))
    | PtrToMapValue _ _ _ _ _ =>
        let? _ := map_value_access_check pc dst base_state offset in
        Ok (store_old op fetch src (Scalar (scalar_for_width nbytes false)) s)
    | _ => fail pc (AtomicTarget dst)
    end.

(** Packet loads: the argument registers are clobbered. *)
Definition clobber (s : VerifierState) : VerifierState := set_regs clobber_args s.
Definition ld_abs (pc : Z) (s : VerifierState) (size : MemSize) : result VerificationFailure VerifierState :=
  let? _ := check_legacy_packet_load pc s in
  Ok (set_reg 0 (Scalar (scalar_for_width (MemSize.bytes size) false)) (clobber s)).
Definition ld_ind (pc : Z) (s : VerifierState) (src : Z) (size : MemSize) : result VerificationFailure VerifierState :=
  let? _ := check_legacy_packet_load pc s in
  let? _ := read_scalar pc s src in
  Ok (set_reg 0 (Scalar (scalar_for_width (MemSize.bytes size) false)) (clobber s)).

(** * Memory accesses keep states typed and do not panic *)

Lemma stack_typed_mono d d' st : d <= d' -> stack_typed d st -> stack_typed d' st.
Proof.
  intros Hd [Hb Hdy Hs Hf]. split; try done. eapply Forall_impl; [exact Hf|].
  intros [r|]; [by apply value_typed_mono|done].
Qed.

Lemma frame_stack_typed s frameno :
  state_typed s -> 0 <= frameno <= curframe s ->
  exists st, frame_stack_of s frameno = Some st /\ stack_typed frameno st.
Proof.
  intros Hs Hf. unfold frame_stack_of. destruct (Z.eqb_spec frameno (curframe s)) as [->|Hne].
  - eexists. split; [done|apply Hs].
  - pose proof (typed_depth _ Hs). pose proof (typed_saved _ Hs (Z.to_nat frameno) ltac:(lia)) as H0.
    rewrite Z2Nat.id, (proj2 (Z.ltb_lt _ _)) in H0 by lia. destruct H0 as (f & -> & _ & Ht). by eexists.
Qed.

Lemma set_stack_typed s st : state_typed s -> stack_typed (curframe s) st -> state_typed (set_stack st s).
Proof. intros [] Ht. by split. Qed.

Lemma set_frame_stack_typed s frameno st :
  state_typed s -> 0 <= frameno <= curframe s -> stack_typed frameno st -> state_typed (set_frame_stack frameno st s).
Proof.
  intros Hs Hf Ht. unfold set_frame_stack. destruct (Z.eqb_spec frameno (curframe s)) as [->|Hne].
  { by apply set_stack_typed. }
  pose proof (typed_depth _ Hs). split; cbn; try apply Hs.
  - rewrite length_alter. apply Hs.
  - intros i Hi. pose proof (typed_saved _ Hs i Hi) as Hsv.
    destruct (decide (i = Z.to_nat frameno)) as [->|Hi'].
    + rewrite (proj2 (Z.ltb_lt _ _)) in Hsv |- * by lia. destruct Hsv as (f & Hsv & Hr & _).
      rewrite list_lookup_alter_eq, Hsv. eexists. split; [done|]. split; [done|]. cbn. by rewrite Z2Nat.id by lia.
    + rewrite list_lookup_alter_ne by done. done.
Qed.

Lemma set_frame_stack_curframe s frameno st : curframe (set_frame_stack frameno st s) = curframe s.
Proof. unfold set_frame_stack. by destruct (_ =? _). Qed.

Lemma length_fill lo hi x bs : length (fill lo hi x bs) = length bs.
Proof. apply length_imap. Qed.

Lemma spilled_typed d st slot v : stack_typed d st -> spilled st !!! slot = Some v -> value_typed d v.
Proof.
  intros Ht. rewrite list_lookup_total_alt. destruct (spilled st !! slot) as [o|] eqn:Ho; [|done].
  simpl. intros ->. apply (proj1 (Forall_lookup _ _) (typed_spilled _ _ Ht) _ _ Ho).
Qed.

(** Rewriting the slots one by one. *)
Lemma imap_spilled d (f : nat -> option RegState -> option RegState) l :
  (forall i o, spill_typed d o -> spill_typed d (f i o)) -> Forall (spill_typed d) l -> Forall (spill_typed d) (imap f l).
Proof.
  intros Hf Hl. apply Forall_lookup. intros i o. rewrite list_lookup_imap.
  destruct (l !! i) as [x|] eqn:Hx; [|done]. intros [= <-]. apply Hf. by apply (proj1 (Forall_lookup _ _) Hl i).
Qed.

Lemma map_full_spills_typed d f st :
  (forall r, value_typed d r -> value_typed d (f r)) -> stack_typed d st -> stack_typed d (map_full_spills f st).
Proof.
  intros Hf [Hb Hd Hs Ht]. split; cbn; try done; [by rewrite length_imap|]. apply imap_spilled; [|done].
  intros i [r|]; [|done]. destruct (full_spill st i); simpl; auto.
Qed.

Lemma drop_slice_typed did d r : value_typed d r -> value_typed d (drop_slice did r).
Proof. destruct r; simpl; try done; by destruct (_ || _). Qed.

Lemma destroy_dynptrs_typed d lo hi st : stack_typed d st -> stack_typed d (fst (destroy_dynptrs lo hi st)).
Proof.
  intros Ht. unfold destroy_dynptrs. generalize (range (lo / 8) (hi / 8)). intros slots.
  assert (H : forall acc, stack_typed d (fst acc) -> stack_typed d (fst (fold_left destroy_slot slots acc))).
  { induction slots as [|slot slots IH]; intros acc Ha; [done|]. simpl. apply IH. destruct acc as [st0 o].
    unfold destroy_slot. simpl in Ha. case_bool_decide; [|done]. destruct Ha. split; cbn; try done.
    - by rewrite length_fill.
    - by rewrite length_insert. }
  by apply (H (st, None)).
Qed.

Lemma stored_value_safe pc s src imm :
  state_typed s -> (src <> None \/ imm <> None) -> safely (value_typed (curframe s)) (stored_value pc s src imm).
Proof.
  intros Hs Hv. unfold stored_value. destruct src as [r|].
  - eapply safely_mono; [by eauto with safe|]. by intros v (_ & _ & Hv').
  - destruct imm; [done|]. by destruct Hv.
Qed.

Lemma write_bytes_safe pc base s offset size src imm fixed_aligned frameno lo hi st :
  state_typed s -> (src <> None \/ imm <> None) -> 0 <= frameno <= curframe s -> stack_typed frameno st ->
  safely (stack_typed frameno)
    (write_bytes pc base s offset size src imm fixed_aligned (negb (frameno =? curframe s)) lo hi st).
Proof.
  intros Hs Hv Hf [Hb Hd Hl Ht]. unfold write_bytes. destruct fixed_aligned.
  - eapply safely_bind; [by apply stored_value_safe|]. intros v Hvt. destruct (_ && _); [done|].
    destruct (is_stack_ptr v && negb (frameno =? curframe s)) eqn:Hp; [done|].
    split; cbn; [by rewrite length_imap, length_fill|done|by rewrite length_insert|].
    apply Forall_insert; [done|]. destruct (Z.eqb_spec frameno (curframe s)) as [->|]; [done|].
    destruct v; try done.
  - destruct (spilled_pointer st lo hi) as [[slot v]|]; [done|].
    eapply safely_bind; [by apply stored_value_safe|]. intros v Hvt. unfold scrub_write.
    split; cbn; try by rewrite ?length_imap, ?length_fill. apply imap_spilled; [|done].
    intros i o Ho. by destruct (within _ _ _).
Qed.

Lemma mem_access_safe pc base offset mn mx size : safely (fun _ => True) (mem_access_check pc base offset mn mx size).
Proof. unfold mem_access_check. repeat safe_case; done. Qed.

Lemma map_access_safe pc base mn mx al vs i off :
  safely (fun _ => True) (map_value_access_check pc base (PtrToMapValue mn mx al vs i) off).
Proof. unfold map_value_access_check. repeat safe_case; done. Qed.

(** An accepted access covers bytes of the frame. *)
Lemma stack_access_safe pc base offset mn mx al size :
  safely (fun _ => -512 <= mn + offset /\ mx + offset + size <= 0)
    (check_stack_access pc base offset mn mx al size).
Proof.
  unfold check_stack_access, stack_bounds_error. destruct (_ =? ALIGN_UNKNOWN); [done|].
  destruct (_ || _); [done|].
  destruct (Z.ltb_spec (mn + offset) (- STACK_SIZE)), (Z.ltb_spec 0 (mx + offset + size)); simpl; done || lia.
Qed.

Lemma ctx_read_safe d pc p off size sx : safely (value_typed d) (ctx_read pc p off size sx).
Proof. unfold ctx_read. cbn zeta. repeat safe_case; done. Qed.

Lemma fixed_read_safe d pc base offset st lo hi mn size sx :
  stack_typed d st -> safely (value_typed d) (fixed_stack_read pc base offset st lo hi mn size sx).
Proof.
  intros Ht. unfold fixed_stack_read. cbn zeta.
  assert (Hwalk : safely (value_typed d)
    (if existsb unreadable (map (fun i => bytes st !!! i) (range lo hi)) then fail pc (UninitializedStack offset)
     else if (count_byte StackByte.Zero (map (fun i => bytes st !!! i) (range lo hi)) =?
              length (map (fun i => bytes st !!! i) (range lo hi)))%nat ||
             (count_byte StackByte.Spill (map (fun i => bytes st !!! i) (range lo hi)) =?
              length (map (fun i => bytes st !!! i) (range lo hi)))%nat &&
             match spilled st !!! (hi / 8)%nat with
             | Some (Scalar b) => bounds_is_constant b && (smin b =? 0)
             | _ => false
             end
          then Ok (Scalar (bounds_constant 0)) else Ok (Scalar bounds_unknown))).
  { repeat safe_case; done. }
  destruct (forallb _ _); [|exact Hwalk].
  revert Hwalk. destruct (spilled st !!! (hi / 8)%nat) as [v|] eqn:Hv; intros Hwalk; [|exact Hwalk].
  destruct (size =? 8); [by apply (spilled_typed _ _ _ _ Ht Hv)|].
  destruct v; try done. destruct (mn mod 8 =? 0); [done|exact Hwalk].
Qed.

Lemma variable_read_safe pc base offset mn mx st l : forall u,
  safely (fun _ => True) (variable_read pc base offset mn mx st l u).
Proof. induction l as [|i l IH]; intros u; simpl; [done|]. repeat safe_case; done || apply IH. Qed.

Lemma stack_read_safe pc base s offset size sx :
  state_typed s -> safely (value_typed (curframe s)) (stack_read pc base s offset size sx).
Proof.
  intros Hs. unfold stack_read. safe_bind. intros v (_ & _ & Hv). destruct v; try done.
  - simpl in Hv. eapply safely_bind; [apply stack_access_safe|]. intros _ _. unfold stack_byte_range.
    destruct (frame_stack_typed s frameno Hs Hv) as (st & -> & Ht).
    destruct (min_offset =? max_offset).
    + eapply safely_mono; [by apply fixed_read_safe|]. intros v. apply value_typed_mono. lia.
    + eapply safely_bind; [apply variable_read_safe|]. done.
  - eapply safely_bind; [apply map_access_safe|]. done.
  - eapply safely_bind; [apply mem_access_safe|]. done.
Qed.

Lemma ld_mem_safe pc s dst base offset size sx :
  state_typed s -> base < 11 -> safely state_typed (ld_mem pc s dst base offset size sx).
Proof.
  intros Hs Hb. unfold ld_mem. safe_bind. intros _ _. rewrite (proj2 (Z.leb_gt _ _)) by lia.
  assert (H : safely state_typed (let? loaded := stack_read pc base s offset size sx in Ok (set_reg dst loaded s))).
  { eapply safely_bind; [by apply stack_read_safe|]. intros v Hv. by apply set_reg_typed. }
  destruct (reg s base); try exact H.
  eapply safely_bind; [apply (ctx_read_safe (curframe s))|]. intros v Hv. by apply set_reg_typed.
Qed.

Lemma memory_store_safe pc s src imm kind :
  state_typed s -> (src <> None \/ imm <> None) -> safely (fun _ => True) (memory_store_scalar pc s src imm kind).
Proof.
  intros Hs Hv. unfold memory_store_scalar. eapply safely_bind; [by apply stored_value_safe|].
  intros v _. by destruct (_ || _).
Qed.

Lemma stack_write_safe pc base s offset size src imm :
  state_typed s -> (src <> None \/ imm <> None) ->
  safely (fun t => state_typed t /\ curframe t = curframe s) (stack_write pc base s offset size src imm).
Proof.
  intros Hs Hv. unfold stack_write. safe_bind. intros v (_ & _ & Hvt). destruct v; try done.
  - simpl in Hvt. eapply safely_bind; [apply stack_access_safe|]. intros _ _. unfold stack_byte_range.
    destruct (frame_stack_typed s frameno Hs Hvt) as (st & -> & Ht).
    set (lo := stack_byte_index _). set (hi := stack_byte_index _).
    pose proof (destroy_dynptrs_typed _ lo hi _ Ht) as Hd. destruct (destroy_dynptrs lo hi st) as [st1 destroyed].
    cbn [fst] in Hd. cbn zeta.
    set (st2 := match destroyed with Some did => map_full_spills (drop_slice did) st1 | None => st1 end).
    assert (Ht2 : stack_typed frameno st2).
    { unfold st2. destruct destroyed; [|done]. apply map_full_spills_typed; [|done]. intros r. apply drop_slice_typed. }
    eapply safely_bind; [by apply write_bytes_safe|]. intros st3 Ht3.
    set (next := match destroyed with Some did => _ | None => _ end).
    assert (state_typed next /\ curframe next = curframe s) as [Hn Hc].
    { unfold next. destruct destroyed as [did|]; (split; [|by rewrite set_frame_stack_curframe]); apply set_frame_stack_typed; try done.
      apply set_regs_typed; [|done]. apply regs_typed_map; [|apply Hs]. intros r. apply drop_slice_typed. }
    split; [|by rewrite set_frame_stack_curframe]. apply set_frame_stack_typed; [done|by rewrite Hc|done].
  - eapply safely_bind; [apply map_access_safe|]. intros _ _.
    eapply safely_bind; [by apply memory_store_safe|]. done.
  - eapply safely_bind; [apply mem_access_safe|]. intros _ _.
    eapply safely_bind; [by apply memory_store_safe|]. done.
Qed.

Lemma store_old_typed op fetch src old s :
  state_typed s -> value_typed (curframe s) old -> state_typed (store_old op fetch src old s).
Proof. intros Hs Ho. unfold store_old. destruct op, fetch; by try apply set_reg_typed. Qed.

Lemma atomic_safe pc s dst src offset size op fetch :
  state_typed s -> safely state_typed (atomic pc s dst src offset size op fetch).
Proof.
  intros Hs. unfold atomic. safe_bind. intros v (_ & _ & Hv). safe_bind. intros _ _.
  eapply (safely_bind (fun _ => True)).
  { destruct op; try done. safe_bind. done. }
  intros _ _. destruct (negb _); [done|]. destruct v; try done.
  - destruct (_ || _); [done|]. destruct (_ || _); [done|].
    eapply safely_bind; [by apply stack_read_safe|]. intros old Hold. destruct (negb _); [done|].
    unfold stack_byte_range. apply store_old_typed.
    + apply set_stack_typed; [done|]. destruct (typed_stack _ Hs). split; cbn;
        try by rewrite ?length_imap, ?length_fill.
      apply imap_spilled; [|done]. intros i o Ho. by destruct (within _ _ _).
    + by destruct (_ =? 8).
  - eapply safely_bind; [apply map_access_safe|]. intros _ _. by apply store_old_typed.
Qed.

Lemma clobber_typed s : state_typed s -> state_typed (clobber s).
Proof. intros Hs. apply set_regs_typed; [|done]. apply clobber_args_typed, Hs. Qed.

Lemma packet_safe pc s : safely (fun _ => True) (check_legacy_packet_load pc s).
Proof. unfold check_legacy_packet_load. repeat safe_case; done. Qed.
Lemma ld_abs_safe pc s size : state_typed s -> safely state_typed (ld_abs pc s size).
Proof.
  intros Hs. unfold ld_abs. eapply safely_bind; [apply packet_safe|]. intros _ _.
  apply set_reg_typed; [by apply clobber_typed|done].
Qed.
Lemma ld_ind_safe pc s src size : state_typed s -> safely state_typed (ld_ind pc s src size).
Proof.
  intros Hs. unfold ld_ind. eapply safely_bind; [apply packet_safe|]. intros _ _. safe_bind. intros _ _.
  apply set_reg_typed; [by apply clobber_typed|done].
Qed.

(** * Functional properties of stack accesses *)

Lemma stack_access_ok pc base offset mn mx al size :
  check_stack_access pc base offset mn mx al size = Ok tt ->
  al <> ALIGN_UNKNOWN /\ (al + offset) mod size = 0 /\ (mn + offset) mod size = 0 /\
  -512 <= mn + offset /\ mx + offset + size <= 0.
Proof.
  unfold check_stack_access, stack_bounds_error. destruct (Z.eqb_spec al ALIGN_UNKNOWN); [done|].
  destruct (Z.eqb_spec ((al + offset) mod size) 0), (Z.eqb_spec ((mn + offset) mod size) 0); try done. simpl.
  destruct (Z.ltb_spec (mn + offset) (- STACK_SIZE)), (Z.ltb_spec 0 (mx + offset + size)); done || lia.
Qed.

Lemma mem_size_cases size : MemSize.bytes size = 1 \/ MemSize.bytes size = 2 \/ MemSize.bytes size = 4 \/ MemSize.bytes size = 8.
Proof. destruct size; simpl; auto. Qed.

(** The slots of an aligned access of up to eight bytes. *)
Lemma fixed_access_slot mn size :
  -512 <= mn -> mn + size <= 0 -> mn mod size = 0 -> size = 1 \/ size = 2 \/ size = 4 \/ size = 8 ->
  let '(lo, hi) := stack_byte_range mn (mn + size) in
  (lo <= hi)%nat /\ (hi < 512)%nat /\ (lo / 8 = hi / 8)%nat /\ Z.of_nat (hi - lo) = size - 1.
Proof.
  intros H1 H2 H3 Hs. unfold stack_byte_range, stack_byte_index.
  assert (He : Z.of_nat (Z.to_nat (- mn - 1)) = - mn - 1) by lia.
  assert (Hl : Z.of_nat (Z.to_nat (- (mn + size - 1) - 1)) = - mn - size) by lia.
  split_and!; try lia.
  apply Nat2Z.inj. rewrite !Nat2Z.inj_div, He, Hl. change (Z.of_nat 8) with 8.
  destruct Hs as [-> | [-> | [-> | ->]]]; div_lia.
Qed.

Lemma lookup_fill lo hi x bs i : (i < length bs)%nat -> fill lo hi x bs !!! i = if within lo hi i then x else bs !!! i.
Proof.
  intros Hi. unfold fill. rewrite !list_lookup_total_alt, list_lookup_imap.
  destruct (lookup_lt_is_Some_2 _ _ Hi) as [b ->]. simpl. by destruct (within lo hi i).
Qed.

Lemma in_range_within lo hi i : In i (range lo hi) <-> within lo hi i = true.
Proof. unfold range, within. rewrite in_seq, andb_true_iff, !Nat.leb_le. lia. Qed.

Lemma reg_frame_stack frameno st s r : reg (set_frame_stack frameno st s) r = reg s r.
Proof. unfold set_frame_stack. by destruct (_ =? _). Qed.

Lemma regs_frame_stack frameno st s : regs (set_frame_stack frameno st s) = regs s.
Proof. unfold set_frame_stack. by destruct (_ =? _). Qed.

Lemma frame_stack_set frameno st s :
  state_typed s -> 0 <= frameno <= curframe s -> frame_stack_of (set_frame_stack frameno st s) frameno = Some st.
Proof.
  intros Hs Hf. unfold frame_stack_of, set_frame_stack. destruct (Z.eqb_spec frameno (curframe s)) as [->|Hne].
  { cbn [curframe set_stack stack]. by rewrite Z.eqb_refl. }
  cbn [curframe saved]. rewrite (proj2 (Z.eqb_neq _ _)) by done. pose proof (typed_depth _ Hs).
  pose proof (typed_saved _ Hs (Z.to_nat frameno) ltac:(lia)) as Hsv.
  rewrite (proj2 (Z.ltb_lt _ _)) in Hsv by lia. destruct Hsv as (f & Hf' & _).
  by rewrite list_lookup_alter_eq, Hf'.
Qed.

(** The spill of a register, outside and inside its slot. *)
Lemma spill_write_lookup lo hi v st d :
  stack_typed d st -> (hi < 512)%nat -> (lo <= hi)%nat -> (lo / 8 = hi / 8)%nat ->
  let st' := spill_write lo hi v st in
  (forall i, (lo <= i <= hi)%nat -> bytes st' !!! i = StackByte.Spill) /\
  (forall i, (i / 8 <> hi / 8)%nat -> bytes st' !!! i = bytes st !!! i) /\
  spilled st' !!! (hi / 8)%nat = Some v /\
  (forall k, k <> (hi / 8)%nat -> spilled st' !!! k = spilled st !!! k) /\ dynptr st' = dynptr st.
Proof.
  intros Ht Hhi Hle Hslot. cbn zeta. unfold spill_write. cbn [bytes spilled dynptr].
  assert (Hb : forall i, (i < 512)%nat ->
    imap (fun i b => if ((hi / 8 * 8 <=? i)%nat && (i <? lo)%nat : bool) then StackByte.Misc else b)
      (fill lo hi StackByte.Spill (bytes st)) !!! i =
    if (hi / 8 * 8 <=? i)%nat && (i <? lo)%nat then StackByte.Misc
    else if within lo hi i then StackByte.Spill else bytes st !!! i).
  { intros i Hi. rewrite list_lookup_total_alt, list_lookup_imap.
    destruct (lookup_lt_is_Some_2 (fill lo hi StackByte.Spill (bytes st)) i) as [b Hb'].
    { rewrite length_fill, (typed_bytes _ _ Ht). lia. }
    rewrite Hb'. simpl. destruct (_ && _); [done|]. rewrite <- lookup_fill by (rewrite (typed_bytes _ _ Ht); lia).
    by rewrite list_lookup_total_alt, Hb'. }
  split_and!.
  - intros i Hi. rewrite Hb by lia. unfold within.
    rewrite (proj2 (Nat.ltb_ge _ _)), andb_false_r by lia.
    by rewrite (proj2 (Nat.leb_le lo i)), (proj2 (Nat.leb_le i hi)) by lia.
  - intros i Hi. destruct (decide (i < 512)%nat) as [Hlt|Hge].
    + rewrite Hb by done. unfold within.
      pose proof (Nat.div_mod_eq i 8). pose proof (Nat.mod_upper_bound i 8 ltac:(done)).
      pose proof (Nat.div_mod_eq lo 8). pose proof (Nat.mod_upper_bound lo 8 ltac:(done)).
      pose proof (Nat.div_mod_eq hi 8). pose proof (Nat.mod_upper_bound hi 8 ltac:(done)).
      destruct (Nat.leb_spec (hi / 8 * 8) i), (Nat.ltb_spec i lo), (Nat.leb_spec lo i), (Nat.leb_spec i hi);
        simpl; done || lia.
    + rewrite !list_lookup_total_alt, list_lookup_imap, !lookup_ge_None_2; [done| |].
      * rewrite (typed_bytes _ _ Ht). lia.
      * rewrite length_fill, (typed_bytes _ _ Ht). lia.
  - apply list_lookup_total_insert_eq. rewrite (typed_slots _ _ Ht). apply Nat.Div0.div_lt_upper_bound. lia.
  - intros k Hk. by apply list_lookup_total_insert_ne.
  - done.
Qed.

Lemma forallb_covered (p : StackByte -> bool) (bs : list StackByte) lo hi :
  (forall i, (lo <= i <= hi)%nat -> p (bs !!! i) = true) -> forallb p (map (fun i => bs !!! i) (range lo hi)) = true.
Proof.
  intros H. apply forallb_forall. intros b Hb. apply in_map_iff in Hb as (i & <- & Hi). apply H.
  unfold range in Hi. apply in_seq in Hi. lia.
Qed.

(** A load of eight bytes at a fixed offset whose bytes are all spill bytes. *)
Lemma full_read pc base offset st lo hi mn sx v :
  (forall i, (lo <= i <= hi)%nat -> bytes st !!! i = StackByte.Spill) -> spilled st !!! (hi / 8)%nat = Some v ->
  fixed_stack_read pc base offset st lo hi mn 8 sx = Ok v.
Proof.
  intros Hb Hv. unfold fixed_stack_read. cbn zeta.
  rewrite forallb_covered; [by rewrite Hv|]. intros i Hi. by rewrite bool_decide_true by (by apply Hb).
Qed.

Lemma drop_slice_stack did r mn mx al fr : r = PtrToStack mn mx al fr -> drop_slice did r = r.
Proof. by intros ->. Qed.

(** The result of an aligned store of a register at a fixed offset. *)
Lemma spill_store_ok pc base s offset src t mn al fr :
  state_typed s -> reg s base = PtrToStack mn mn al fr ->
  stack_write pc base s offset MemSize.DW (Some src) None = Ok t ->
  exists st, frame_stack_of s fr = Some st /\ stack_typed fr st /\ 0 <= fr <= curframe s /\
    check_stack_access pc base offset mn mn al 8 = Ok tt /\ base < 11 /\ reg s src <> Uninit /\
    let '(lo, hi) := stack_byte_range (mn + offset) (mn + offset + 8) in
    let '(st1, destroyed) := destroy_dynptrs lo hi st in
    let drop := match destroyed with Some did => drop_slice did | None => fun r => r end in
    let st2 := match destroyed with Some did => map_full_spills (drop_slice did) st1 | None => st1 end in
    stack_typed fr st2 /\
    state_typed t /\ curframe t = curframe s /\
    (forall r, reg t r = drop (reg s r)) /\ frame_stack_of t fr = Some (spill_write lo hi (reg s src) st2).
Proof.
  intros Hs Hbase Hw. pose proof Hw as Hw0.
  assert (Hsome : Some src <> None \/ @None Z <> None) by (by left).
  pose proof (safely_ok _ _ _ (stack_write_safe pc base s offset MemSize.DW (Some src) None Hs Hsome) Hw0) as [Ht Hct].
  unfold stack_write in Hw. apply rbind_ok in Hw as (v & Hv & Hw).
  pose proof (read_reg_inv _ _ _ _ Hv) as (Hb & -> & _). rewrite Hbase in Hw. cbn [MemSize.bytes] in Hw. cbn zeta in Hw.
  apply rbind_ok in Hw as ([] & Hchk & Hw).
  pose proof (reg_typed s base Hs) as Hfr. rewrite Hbase in Hfr. simpl in Hfr.
  destruct (frame_stack_typed s fr Hs Hfr) as (st & Hst & Htst). rewrite Hst in Hw.
  exists st.
  destruct (stack_byte_range _ _) as [lo hi] eqn:Hr. pose proof (destroy_dynptrs_typed fr lo hi st Htst) as Hd.
  destruct (destroy_dynptrs lo hi st) as [st1 destroyed]. cbn [fst] in Hd.
  destruct (stack_access_ok _ _ _ _ _ _ _ Hchk) as (_ & _ & Hmod & _).
  rewrite Z.eqb_refl, (proj2 (Z.eqb_eq _ _) Hmod) in Hw. cbn [andb] in Hw.
  apply rbind_ok in Hw as (st3 & Hwb & Hw). unfold write_bytes in Hwb.
  apply rbind_ok in Hwb as (w & Hw' & Hwb). simpl in Hw'. apply read_reg_inv in Hw' as (_ & -> & Hne).
  destruct (negb _ && _); [done|]. destruct (_ && _); [done|]. injection Hwb as <-. injection Hw as <-.
  split; [done|]. split; [done|]. split; [done|]. split; [done|]. split; [done|]. split; [done|].
  set (st2 := match destroyed with Some did => map_full_spills (drop_slice did) st1 | None => st1 end) in *.
  set (next := match destroyed with
               | Some did => set_frame_stack fr (map_full_spills (drop_slice did) st1) (set_regs (map (drop_slice did)) s)
               | None => set_frame_stack fr st1 s
               end) in *.
  assert (state_typed next /\ curframe next = curframe s /\
    forall r, reg next r = match destroyed with Some did => drop_slice did (reg s r) | None => reg s r end) as (Hn & Hc & Hreg).
  { unfold next. destruct destroyed as [did|]; split_and!; try (by rewrite set_frame_stack_curframe).
    - apply set_frame_stack_typed; [|done|].
      + apply set_regs_typed; [|done]. apply regs_typed_map; [|apply Hs]. intros r. apply drop_slice_typed.
      + apply map_full_spills_typed; [|done]. intros r. apply drop_slice_typed.
    - intros r. rewrite reg_frame_stack. unfold reg, set_regs. cbn [regs].
      rewrite !list_lookup_total_alt, list_lookup_fmap. by destruct (regs s !! Z.to_nat r).
    - by apply set_frame_stack_typed.
    - intros r. by rewrite reg_frame_stack. }
  split_and!; try done.
  - unfold st2. destruct destroyed; [|done]. apply map_full_spills_typed; [|done]. intros r. apply drop_slice_typed.
  - intros r. rewrite reg_frame_stack, Hreg. by destruct destroyed.
  - rewrite frame_stack_set; [done|done|by rewrite Hc].
Qed.

(** Spill and fill: after an aligned eight-byte store of a register through a
    stack pointer with a fixed offset, into its own frame or a caller's, the load
    through the same pointer gives the register's state back, whatever it holds;
    if the slot was no part of a dynptr, the store changes nothing but the slot. *)
Theorem spill_fill_roundtrip (pc pc' base src offset mn al fr : Z) (sx : bool) (s t : VerifierState) :
  state_typed s -> reg s base = PtrToStack mn mn al fr ->
  stack_write pc base s offset MemSize.DW (Some src) None = Ok t ->
  stack_read pc' base t offset MemSize.DW sx = Ok (reg s src) /\
  exists st st' slot, frame_stack_of s fr = Some st /\ frame_stack_of t fr = Some st' /\
    spilled st' !!! slot = Some (reg s src) /\
    (bytes st !!! (slot * 8)%nat <> StackByte.Dynptr ->
     regs t = regs s /\
     (forall i, (i / 8 <> slot)%nat -> bytes st' !!! i = bytes st !!! i) /\
     (forall k, k <> slot -> spilled st' !!! k = spilled st !!! k)).
Proof.
  intros Hs Hbase Hw. pose proof Hw as Hw0.
  destruct (spill_store_ok _ _ _ _ _ _ _ _ _ Hs Hbase Hw) as (st & Hst & Htst & Hfr & Hchk & Hb & Hne & Hres).
  destruct (stack_access_ok _ _ _ _ _ _ _ Hchk) as (Hal & Ha1 & Ha2 & H1 & H2).
  pose proof (fixed_access_slot (mn + offset) 8 H1 ltac:(lia) Ha2 ltac:(auto)) as Hslot.
  destruct (stack_byte_range (mn + offset) (mn + offset + 8)) as [lo hi] eqn:Hr.
  destruct Hslot as (Hle & Hhi & Hsl & _).
  destruct (destroy_dynptrs lo hi st) as [st1 destroyed] eqn:Hd.
  destruct Hres as (Hst2 & Ht & Hct & Hreg & Hf).
  set (st2 := match destroyed with Some did => map_full_spills (drop_slice did) st1 | None => st1 end) in *.
  destruct (spill_write_lookup lo hi (reg s src) st2 fr Hst2 Hhi Hle Hsl) as (Hin & Hout & Hsp & Hspo & Hdy).
  split.
  - assert (Hrb : reg t base = PtrToStack mn mn al fr) by (rewrite Hreg, Hbase; by destruct destroyed).
    unfold stack_read. unfold read_reg, check_reg. rewrite (proj2 (Z.leb_gt _ _)) by lia. cbn [rbind]. rewrite Hrb.
    cbn [rbind MemSize.bytes]. cbn zeta.
    assert (Hchk' : check_stack_access pc' base offset mn mn al 8 = Ok tt).
    { unfold check_stack_access. rewrite (proj2 (Z.eqb_neq al ALIGN_UNKNOWN)) by done. cbn zeta.
      rewrite Ha1, Ha2. simpl. by rewrite !(proj2 (Z.ltb_ge _ _)) by lia. }
    rewrite Hchk'. cbn [rbind]. rewrite Hr, Hf, Z.eqb_refl. by apply full_read.
  - exists st, (spill_write lo hi (reg s src) st2), (hi / 8)%nat. split_and!; [done|done|done|]. intros Hnd.
    assert (destroy_dynptrs lo hi st = (st, None)) as Hnone.
    { unfold destroy_dynptrs, range. rewrite Hsl. replace (S (hi / 8) - hi / 8)%nat with 1%nat by lia. simpl.
      unfold destroy_slot. by rewrite bool_decide_false. }
    rewrite Hnone in Hd. injection Hd as <- <-. split_and!.
    + unfold stack_write in Hw. apply rbind_ok in Hw as (v & Hv & Hw).
      pose proof (read_reg_inv _ _ _ _ Hv) as (_ & -> & _). rewrite Hbase in Hw. cbn zeta in Hw.
      apply rbind_ok in Hw as (_ & _ & Hw). cbn [MemSize.bytes] in Hw. rewrite Hr, Hst, Hnone in Hw.
      apply rbind_ok in Hw as (st3 & _ & Hw). injection Hw as <-. by rewrite !regs_frame_stack.
    + intros i Hi. by apply Hout.
    + intros k Hk. by apply Hspo.
Qed.

Lemma spill_fill_roundtrip_witness :
  exists t, stack_write 0 10 initial (-16) MemSize.DW (Some 1) None = Ok t /\
    stack_read 1 10 t (-16) MemSize.DW false = Ok (PtrToCtx 0).
Proof.
  destruct (stack_write 0 10 initial (-16) MemSize.DW (Some 1) None) as [t|] eqn:E; [|vm_compute in E; discriminate E].
  exists t. split; [reflexivity|].
  exact (proj1 (spill_fill_roundtrip 0 1 10 1 (-16) 0 0 0 false initial t (initial_typed _) eq_refl E)).
Defined.

(** Bounds: an accepted stack access of [size] bytes through a pointer with
    the offsets [mn .. mx] only touches bytes of the 512-byte frame: the byte
    indices are exact (they do not wrap), they are below 512, they cover every
    byte the access may touch and no other, and a fixed-offset access stays
    inside one slot. *)
Theorem stack_access_in_frame (pc base offset mn mx al : Z) (size : MemSize) :
  mn <= mx -> check_stack_access pc base offset mn mx al (MemSize.bytes size) = Ok tt ->
  let n := MemSize.bytes size in
  let '(lo, hi) := stack_byte_range (mn + offset) (mx + offset + n) in
  (lo <= hi < 512)%nat /\ Z.of_nat (length (range lo hi)) = n + (mx - mn) /\
  (forall o, mn + offset <= o < mx + offset + n <-> In (stack_byte_index o) (range lo hi) /\ -512 <= o < 0) /\
  (mn = mx -> (lo / 8 = hi / 8)%nat).
Proof.
  intros Hm Hc. destruct (stack_access_ok _ _ _ _ _ _ _ Hc) as (_ & _ & Hmod & H1 & H2).
  pose proof (mem_size_cases size) as Hs. cbn zeta. set (n := MemSize.bytes size) in *.
  pose proof (fixed_access_slot (mn + offset) n H1 ltac:(lia) Hmod Hs) as Hslot.
  unfold stack_byte_range, stack_byte_index in *. split_and!; try lia.
  - unfold range. rewrite length_seq. lia.
  - intros o. unfold range. rewrite in_seq. lia.
  - intros ->. apply Hslot.
Qed.

Lemma stack_access_in_frame_witness :
  check_stack_access 0 2 (-8) (-8) 0 0 8 = Ok tt /\
  let '(lo, hi) := stack_byte_range (-8 + -8) (0 + -8 + 8) in
  (lo <= hi < 512)%nat /\ Z.of_nat (length (range lo hi)) = 8 + (0 - -8).
Proof.
  split; [reflexivity|].
  destruct (stack_access_in_frame 0 2 (-8) (-8) 0 0 MemSize.DW ltac:(lia) eq_refl) as (H1 & H2 & _). split; assumption.
Defined.

(** ** Gaps *)

(** Sixteen unknown bytes below the frame pointer, and a pointer to -16 .. -8. *)
Definition two_slots : VerifierState :=
  set_reg 2 (PtrToStack (-16) (-8) 0 0)
    (set_stack (mkStack (fill 0 15 StackByte.Misc (bytes stack_new)) (spilled stack_new) (dynptr stack_new)) initial).
(** A dynptr in the two slots, and a slice of it in R7. *)
Definition dynptr_slots : VerifierState :=
  set_reg 7 (PtrToMem 0 0 0 9 9)
    (set_stack (mkStack (fill 0 15 StackByte.Dynptr (bytes stack_new)) (spilled stack_new)
                  (<[1%nat := Some (mkDynptr 64 9)]> (dynptr stack_new))) initial).

Definition ok_of {A} (r : result VerificationFailure A) : option A := match r with Ok a => Some a | Err _ => None end.

(** A store of zero through a variable offset marks every byte it may touch
    as zero, so that a slot it did not write reads as the constant 0; a store into
    the upper slot of a dynptr leaves its slices usable; a four-byte fill of an
    unknown scalar gets an empty signed 32-bit range. *)
Theorem memory_gaps :
  stack_read 0 10 two_slots (-8) MemSize.DW false = Ok (Scalar bounds_unknown) /\
  (t ← ok_of (stack_write 0 2 two_slots 0 MemSize.DW None (Some 0));
   ok_of (stack_read 1 10 t (-8) MemSize.DW false)) = Some (Scalar (bounds_constant 0)) /\
  (fun t => reg t 7) <$> ok_of (stack_write 0 10 dynptr_slots (-8) MemSize.DW None (Some 0)) =
    Some (PtrToMem 0 0 0 9 9) /\
  s32_min (coerce_scalar bounds_unknown 4 false) = 0 /\ s32_max (coerce_scalar bounds_unknown 4 false) = -1.
Proof. vm_compute. done. Qed.
