(* ===== verification/Call.v ===== *)
(** Helper and kfunc calls of the abstract machine (src/src/exec.rs): the
    contracts of the map and dynptr helpers, the references that the acquiring
    calls take and the releasing calls drop, and the call instructions.  The
    theorems: the reference table of a state and how each call changes it. *)
From Stdlib Require Import ZArith Lia List Bool String.
From stdpp Require Import base list.
From S2P Require Import Prelude Tnum Bounds State Helper Mem.
Open Scope Z_scope.

(** * Buffers on the stack *)

(** The loop over the bytes of a buffer that must be readable; [spill] and
    [uninit] are the messages for a spilled pointer and for an unwritten byte. *)
Fixpoint readable_bytes (pc : Z) (spill uninit : Reason) (st : StackState) (l : list nat)
  : result VerificationFailure unit :=
  match l with
  | [] => Ok tt
  | i :: l =>
      match bytes st !! i with
      | None => fail pc Panicked
      | Some StackByte.Misc | Some StackByte.Zero => readable_bytes pc spill uninit st l
      | Some StackByte.Spill =>
          if is_scalar (spilled st !!! (i / 8)%nat) then readable_bytes pc spill uninit st l
          else fail pc spill
      | Some StackByte.Invalid | Some StackByte.Dynptr => fail pc uninit
      end
  end.

Definition check_map_buffer (pc : Z) (s : VerifierState) (r size : Z) (what : string)
  : result VerificationFailure unit :=
  match reg s r with
  | PtrToStack min_offset max_offset align_off _ =>
      if negb (min_offset =? max_offset) || (align_off =? ALIGN_UNKNOWN)
      then fail pc (MapBufferInexact r what)
      else if (min_offset <? - STACK_SIZE) || (0 <? min_offset + size)
      then fail pc (MapBufferOutOfFrame r min_offset what)
      else if 0 <? size then
        readable_bytes pc (IndirectSpillRead r min_offset) (UninitializedStack min_offset) (stack s)
          (range (stack_byte_index (min_offset + size - 1)) (stack_byte_index min_offset))
      else Ok tt
  | Uninit => fail pc (UninitializedRegister r)
  | _ => fail pc (MapBufferNotStack r what)
  end.

Definition check_map_helper_args (pc imm : Z) (s : VerifierState) : result VerificationFailure unit :=
  match reg s 1 with
  | PtrToMap key_size value_size _ =>
      let? _ := check_map_buffer pc s 2 key_size "key" in
      if imm =? 2 then
        let? _ := check_map_buffer pc s 3 value_size "value" in
        if is_scalar (Some (reg s 4)) then Ok tt else fail pc FlagsExpected
      else Ok tt
  | _ => fail pc MapPointerExpected
  end.

(** [lo ..= hi] of the [usize] conversions of two [i64] indices; the first index
    past the stack ends the walk. *)
Definition usize_range (lo hi : Z) : list nat :=
  let clip i := Z.to_nat (Z.min i STACK_SIZE) in
  if as_u64 hi <? as_u64 lo then [] else range (clip (as_u64 lo)) (clip (as_u64 hi)).

Definition check_stack_range_initialized (pc : Z) (s : VerifierState) (min_offset max_offset : Z)
  : result VerificationFailure unit :=
  readable_bytes pc (RangeHoldsPointer min_offset) (RangeUninitialized min_offset) (stack s)
    (usize_range (- (max_offset - 1) - 1) (- min_offset - 1)).

Definition init_stack_buffer (pc : Z) (next : VerifierState) (min_offset max_offset len : Z)
  : result VerificationFailure VerifierState :=
  if (len <? 0) || (max_offset <? min_offset) then fail pc DynptrBufferInvalid
  else if len =? 0 then Ok next
  else
    let stop := max_offset + len in
    if (min_offset <? - STACK_SIZE) || (0 <? stop) then fail pc DynptrBufferOutOfFrame
    else
      let '(lo, hi) := stack_byte_range min_offset stop in
      let st := stack next in
      Ok (set_stack (mkStack (fill lo hi StackByte.Misc (bytes st)) (spilled st) (dynptr st)) next).

(** * Dynptrs *)

(** The slot that carries the metadata of a dynptr of 16 bytes at [min_offset];
    the pair is the slot before it and itself. *)
Definition dynptr_spi (min_offset : Z) : nat := Z.to_nat ((- min_offset - 1) / 8).
Definition dynptr_bytes (st : StackState) (spi : nat) : bool :=
  forallb (fun b => bool_decide (b = StackByte.Dynptr)) (slot_bytes st (spi - 1) ++ slot_bytes st spi).

Definition dynptr_slot_of (pc : Z) (s : VerifierState) (r argno : Z)
  : result VerificationFailure (nat * DynptrState) :=
  match reg s r with
  | PtrToStack min_offset max_offset align_off _ =>
      if negb (min_offset =? max_offset) || negb (align_off =? 0) || negb (min_offset mod 16 =? 0)
      then fail pc (DynptrInexact argno r)
      else if (min_offset <? - STACK_SIZE) || (-16 <? min_offset)
      then fail pc (DynptrOutOfFrame argno r min_offset)
      else
        let spi := dynptr_spi min_offset in
        if negb (dynptr_bytes (stack s) spi) then fail pc (DynptrExpected argno)
        else
          match dynptr (stack s) !! spi with
          | Some (Some ds) => Ok (spi, ds)
          | Some None => fail pc (DynptrExpected argno)
          | None => fail pc Panicked
          end
  | _ => fail pc (DynptrNotStack argno r)
  end.

(** The known non-negative constant in a register. *)
Definition known_constant (r : RegState) : option Z :=
  match r with
  | Scalar b => if bounds_is_constant b && (0 <=? smin b) then Some (smin b) else None
  | _ => None
  end.

(** [bpf_dynptr_from_mem]: the pair of slots becomes a dynptr of [size] bytes. *)
Definition make_dynptr (spi : nat) (size id : Z) (st : StackState) : StackState :=
  mkStack (fill ((spi - 1) * 8) (spi * 8 + 7) StackByte.Dynptr (bytes st)) (spilled st)
    (<[spi := Some (mkDynptr size id)]> (dynptr st)).

Definition dynptr_helper_call (pc imm : Z) (s next : VerifierState) : result VerificationFailure VerifierState :=
  match imm with
  | 197 =>
      match known_constant (reg s 2) with
      | None => fail pc DynptrUnknownSize
      | Some size =>
          match reg s 4 with
          | PtrToStack min_offset max_offset _ _ =>
              if negb (min_offset =? max_offset) || negb (min_offset mod 16 =? 0)
              then fail pc DynptrArgInexact
              else if (min_offset <? - STACK_SIZE) || (-16 <? min_offset)
              then fail pc DynptrArgOutOfFrame
              else
                Ok (set_stack (make_dynptr (dynptr_spi min_offset) (as_u32 size) (pc + 1) (stack next)) next)
          | _ => fail pc Panicked
          end
      end
  | 201 =>
      let? _ := dynptr_slot_of pc s 3 3 in
      let len := match known_constant (reg s 2) with Some n => as_i32 n | None => 8 end in
      match reg s 1 with
      | PtrToStack min_offset max_offset _ _ => init_stack_buffer pc next min_offset max_offset len
      | _ => Ok next
      end
  | 202 =>
      let? _ := dynptr_slot_of pc s 1 1 in
      let len := match known_constant (reg s 4) with Some n => as_i32 n | None => 8 end in
      match reg s 3 with
      | PtrToStack min_offset _ _ _ =>
          let? _ := check_stack_range_initialized pc next min_offset (as_i32 (min_offset + len)) in
          Ok next
      | _ => Ok next
      end
  | 203 =>
      let? slot := dynptr_slot_of pc s 1 1 in
      let ds := snd (slot : nat * DynptrState) in
      let size := match known_constant (reg s 3) with Some n => as_u32 n | None => 0 end in
      Ok (set_reg 0 (PtrToMemOrNull (dynptr_id ds) (dynptr_id ds) size) next)
  | _ => fail pc Panicked
  end.

(** * References *)

Definition set_refs (rs : list Z) (cnt : Z) (s : VerifierState) : VerifierState :=
  mkState (regs s) (stack s) (saved s) (curframe s) (ret_pc s) rs cnt (prog_type s).

(** [refs[..refs_cnt]]. *)
Definition held_refs (s : VerifierState) : list Z := take (Z.to_nat (refs_cnt s)) (refs s).

(** The loop over the identities from [id], which ends at the latest after one
    more than the references held. *)
Fixpoint next_free (fuel : nat) (active : list Z) (id : Z) : Z :=
  match fuel with
  | O => id
  | S fuel => if bool_decide (id ∈ active) then next_free fuel active (id + 1) else id
  end.
Definition fresh_reference_id (s : VerifierState) : Z :=
  next_free (S (length (held_refs s))) (held_refs s) (REF_ID_BASE + 1).

Definition acquire_ref (pc : Z) (s : VerifierState) : result VerificationFailure (Z * VerifierState) :=
  if MAX_REFS <=? refs_cnt s then fail pc TooManyReferences
  else
    let id := fresh_reference_id s in
    Ok (id, set_refs (<[Z.to_nat (refs_cnt s) := id]> (refs s)) (refs_cnt s + 1) s).

(** The first index of [id] among the held references. *)
Fixpoint ref_index (l : list Z) (id : Z) : option nat :=
  match l with
  | [] => None
  | x :: l => if x =? id then Some 0%nat else S <$> ref_index l id
  end.

(** The last reference moves into the released place; [None]: not held. *)
Definition drop_ref (id : Z) (s : VerifierState) : option VerifierState :=
  match ref_index (held_refs s) id with
  | Some i =>
      Some (set_refs (<[i := default 0 (refs s !! Z.to_nat (refs_cnt s - 1))]> (refs s)) (refs_cnt s - 1) s)
  | None => None
  end.

Definition is_alias (rid : Z) (r : RegState) : bool :=
  match r with
  | PtrToMem _ _ _ i p | PtrToMemOrNull i p _ => (i =? rid) || (p =? rid)
  | PtrToBtfId _ ref_obj_id => ref_obj_id =? rid
  | _ => false
  end.
Definition invalidate (rid : Z) (r : RegState) : RegState :=
  if is_alias rid r then Scalar bounds_unknown else r.

Definition invalidate_in_frame (rid : Z) (f : FrameState) : FrameState :=
  mkFrame (map (invalidate rid) (frame_regs f)) (map_full_spills (invalidate rid) (frame_stack f)) (frame_ret_pc f).

Definition invalidate_reference_aliases (rid : Z) (s : VerifierState) : VerifierState :=
  mkState (map (invalidate rid) (regs s)) (map_full_spills (invalidate rid) (stack s))
    (map (fmap (invalidate_in_frame rid)) (saved s))
    (curframe s) (ret_pc s) (refs s) (refs_cnt s) (prog_type s).

Definition release_ref (pc : Z) (rid : Z) (ret : RegState) (s : VerifierState)
  : result VerificationFailure VerifierState :=
  match drop_ref rid s with
  | None => fail pc (UnacquiredReference (Some rid))
  | Some next => Ok (set_reg 0 ret (invalidate_reference_aliases rid next))
  end.

(** * The call instructions *)

Definition is_ringbuf_map (r : RegState) : bool :=
  match r with PtrToMap _ _ map_type => map_type =? 1 | _ => false end.

(** What the call leaves in [R0], before the arguments are clobbered. *)
Definition helper_effect (pc imm : Z) (helper : HelperPrototype) (s : VerifierState)
  : result VerificationFailure VerifierState :=
  if helper_acquires_ref imm then
    let? acquired := acquire_ref pc s in
    let '(rid, next) := (acquired : Z * VerifierState) in
    let size := match known_constant (reg s 2) with Some n => as_u32 n | None => 0 end in
    Ok (set_reg 0 (PtrToMemOrNull rid 0 size) next)
  else if existsb (Z.eqb imm) [197; 201; 202; 203] then
    let? next := dynptr_helper_call pc imm s s in
    Ok (if imm =? 203 then next else set_reg 0 (return_type helper) next)
  else if helper_releases_ref imm then
    match reg s 1 with
    | PtrToMem _ _ _ rid _ =>
        if rid =? 0 then fail pc (UnacquiredReference None)
        else release_ref pc rid (return_type helper) s
    | _ => fail pc (UnacquiredReference None)
    end
  else Ok (set_reg 0 (return_type helper) s).

Definition helper_call (pc imm : Z) (s : VerifierState) : result VerificationFailure VerifierState :=
  match helper_prototype imm with
  | None => fail pc (UnknownHelper imm)
  | Some helper =>
      let? _ :=
        if (imm =? 1) || (imm =? 2) then check_map_helper_args pc imm s
        else check_helper_args pc helper s in
      if (imm =? 131) && negb (is_ringbuf_map (reg s 1)) then fail pc RingbufMapExpected
      else
        let? next := helper_effect pc imm helper s in
        let next := clobber next in
        Ok (match imm, reg s 1 with
            | 1, PtrToMap _ value_size _ => set_reg 0 (PtrToMapValueOrNull value_size (pc + 1)) next
            | _, _ => next
            end)
  end.

Definition kfunc_call (pc btf_id : Z) (s : VerifierState) : result VerificationFailure VerifierState :=
  match kfunc_prototype btf_id with
  | None => fail pc (UnknownKfunc btf_id)
  | Some proto =>
      let? _ := check_call_args pc (kfunc_args proto) s in
      let? next :=
        if acquires_ref proto then
          let? acquired := acquire_ref pc s in
          let '(rid, next) := (acquired : Z * VerifierState) in
          let btf := match reg s 1 with PtrToBtfId b _ => b | _ => 0 end in
          Ok (set_reg 0 (PtrToBtfId btf rid) next)
        else if releases_ref proto then
          match reg s 1 with
          | PtrToBtfId _ rid =>
              if rid =? 0 then fail pc (UnacquiredReference None)
              else release_ref pc rid (kfunc_return_type proto) s
          | _ => fail pc (UnacquiredReference None)
          end
        else Ok (set_reg 0 (kfunc_return_type proto) s) in
      Ok (clobber next)
  end.

(** * Calls keep states typed and do not panic *)

Lemma readable_safe pc spill uninit st l :
  spill <> Panicked -> uninit <> Panicked -> Forall (fun i => (i < length (bytes st))%nat) l ->
  safely (fun _ => True) (readable_bytes pc spill uninit st l).
Proof.
  intros Hsp Hun Hl. induction Hl as [|i l Hi Hl IH]; simpl; [done|].
  destruct (lookup_lt_is_Some_2 _ _ Hi) as [b ->]. destruct b; try done. by destruct (is_scalar _).
Qed.

Lemma range_bound lo hi n : (hi < n)%nat -> Forall (fun i => (i < n)%nat) (range lo hi).
Proof. intros Hn. apply Forall_forall. intros i Hi. unfold range in Hi. apply elem_of_seq in Hi. lia. Qed.

Lemma map_buffer_safe pc s r size what :
  state_typed s -> safely (fun _ => True) (check_map_buffer pc s r size what).
Proof.
  intros Hs. unfold check_map_buffer. destruct (reg s r); try done. destruct (_ || _); [done|].
  destruct (Z.ltb_spec min_offset (- STACK_SIZE)); [done|]. destruct (0 <? min_offset + size); [done|]. simpl.
  destruct (0 <? size); [|done]. apply readable_safe; [done|done|]. apply range_bound.
  rewrite (typed_bytes _ _ (typed_stack _ Hs)). unfold stack_byte_index. lia.
Qed.

Lemma map_helper_safe pc imm s : state_typed s -> safely (fun _ => True) (check_map_helper_args pc imm s).
Proof.
  intros Hs. unfold check_map_helper_args. destruct (reg s 1); try done.
  eapply safely_bind; [by apply map_buffer_safe|]. intros _ _. destruct (imm =? 2); [|done].
  eapply safely_bind; [by apply map_buffer_safe|]. intros _ _. by destruct (is_scalar _).
Qed.

Lemma fill_bytes_typed d lo hi x st : stack_typed d st -> stack_typed d (mkStack (fill lo hi x (bytes st)) (spilled st) (dynptr st)).
Proof. intros []. split; cbn; try done. by rewrite length_fill. Qed.

Lemma init_buffer_safe pc next mn mx len :
  state_typed next -> safely (fun t => state_typed t /\ curframe t = curframe next) (init_stack_buffer pc next mn mx len).
Proof.
  intros Hs. unfold init_stack_buffer. destruct (_ || _); [done|]. destruct (len =? 0); [done|].
  destruct (_ || _); [done|]. unfold stack_byte_range. split; [|done]. apply set_stack_typed; [done|].
  apply fill_bytes_typed, Hs.
Qed.

Lemma dynptr_slot_safe pc s r argno : state_typed s -> safely (fun _ => True) (dynptr_slot_of pc s r argno).
Proof.
  intros Hs. unfold dynptr_slot_of. destruct (reg s r); try done. destruct (_ || _); [done|].
  destruct (Z.ltb_spec min_offset (- STACK_SIZE)); [done|].
  destruct (Z.ltb_spec (-16) min_offset); [done|]. simpl. destruct (negb (dynptr_bytes _ _)); [done|].
  destruct (lookup_lt_is_Some_2 (dynptr (stack s)) (dynptr_spi min_offset)) as [o ->].
  - rewrite (typed_dynptr _ _ (typed_stack _ Hs)). unfold dynptr_spi.
    assert ((- min_offset - 1) / 8 < 64) by (apply Z.div_lt_upper_bound; lia). lia.
  - by destruct o.
Qed.

Lemma check_args_ok pc args : forall r s,
  check_args_from pc r args s = Ok tt -> forall i e, args !! i = Some e -> arg_matches e (reg s (r + Z.of_nat i)) = true.
Proof.
  induction args as [|a args IH]; intros r s Hc i e He; [done|]. simpl in Hc.
  apply rbind_ok in Hc as (v & Hv & Hc). apply read_reg_inv in Hv as (_ & -> & _).
  destruct (negb _) eqn:Hm; [done|]. apply negb_false_iff in Hm. destruct i as [|i].
  - injection He as <-. by rewrite Z.add_0_r.
  - specialize (IH _ _ Hc i e He). by replace (r + Z.of_nat (S i)) with (r + 1 + Z.of_nat i) by lia.
Qed.

Lemma check_args_safe pc args : forall r s, safely (fun _ => True) (check_args_from pc r args s).
Proof.
  induction args as [|a args IH]; intros r s; simpl; [done|]. unfold read_reg, check_reg.
  destruct (NUM_REGS <=? r); [done|]. simpl. destruct (reg s r); simpl; try done;
    (destruct (negb _); [done|apply IH]).
Qed.

(** All dynptr helpers but [bpf_dynptr_write], whose range check can leave the frame. *)
Lemma dynptr_call_safe pc imm helper s :
  state_typed s -> In imm [197; 201; 203] -> helper_prototype imm = Some helper ->
  check_helper_args pc helper s = Ok tt ->
  safely (fun t => state_typed t /\ curframe t = curframe s) (dynptr_helper_call pc imm s s).
Proof.
  intros Hs Hi Hh Hargs. repeat destruct Hi as [<-|Hi]; [| | |done]; simpl in Hh; injection Hh as <-.
  - pose proof (check_args_ok _ _ _ _ Hargs 3 ArgType.PtrToDynptr eq_refl) as Hd.
    change (1 + Z.of_nat 3) with 4 in Hd. simpl in Hd. simpl.
    destruct (known_constant (reg s 2)); [|done]. destruct (reg s 4); try done. destruct (_ || _); [done|].
    destruct (_ || _); [done|]. split; [|done]. apply set_stack_typed; [done|].
    destruct (typed_stack _ Hs). split; cbn; [by rewrite length_fill|by rewrite length_insert|done|done].
  - simpl. eapply safely_bind; [by apply dynptr_slot_safe|]. intros _ _.
    destruct (reg s 1); try done. by apply init_buffer_safe.
  - simpl. eapply safely_bind; [by apply dynptr_slot_safe|]. intros slot _. split; [|done]. by apply set_reg_typed.
Qed.

(** ** References *)

Lemma set_refs_typed rs cnt s : length rs = 8%nat -> 0 <= cnt <= 8 -> state_typed s -> state_typed (set_refs rs cnt s).
Proof. intros Hl Hc []. by split. Qed.

Lemma acquire_safe pc s :
  state_typed s -> safely (fun p => state_typed (snd p) /\ curframe (snd p) = curframe s) (acquire_ref pc s).
Proof.
  intros Hs. unfold acquire_ref. destruct (Z.leb_spec MAX_REFS (refs_cnt s)); [done|]. split; [|done]. simpl.
  pose proof (typed_count _ Hs). apply set_refs_typed; [rewrite length_insert; apply Hs|lia|done].
Qed.

Lemma ref_index_lt l id i : ref_index l id = Some i -> l !! i = Some id.
Proof.
  revert i. induction l as [|x l IH]; intros i; simpl; [done|]. destruct (Z.eqb_spec x id) as [->|]; [by intros [= <-]|].
  destruct (ref_index l id) as [j|]; [|done]. intros [= <-]. by apply IH.
Qed.

Lemma drop_typed rid s t : state_typed s -> drop_ref rid s = Some t -> state_typed t /\ curframe t = curframe s.
Proof.
  intros Hs. unfold drop_ref. destruct (ref_index (held_refs s) rid) as [i|] eqn:Hi; [|done]. intros [= <-].
  split; [|done]. pose proof (typed_count _ Hs). apply ref_index_lt, lookup_lt_Some in Hi. unfold held_refs in Hi.
  rewrite length_take in Hi. apply set_refs_typed; [rewrite length_insert; apply Hs|lia|done].
Qed.

Lemma invalidate_typed rid d r : value_typed d r -> value_typed d (invalidate rid r).
Proof. unfold invalidate. by destruct (is_alias rid r). Qed.

Lemma invalidate_aliases_typed rid s : state_typed s -> state_typed (invalidate_reference_aliases rid s).
Proof.
  intros Hs. assert (Hf : forall d r, value_typed d r -> value_typed d (invalidate rid r)) by (intros; by apply invalidate_typed).
  split; cbn; try apply Hs.
  - apply regs_typed_map; [apply Hf|apply Hs].
  - apply map_full_spills_typed; [apply Hf|apply Hs].
  - rewrite length_map. apply Hs.
  - intros i Hi. pose proof (typed_saved _ Hs i Hi) as Hsv. rewrite list_lookup_fmap. destruct (_ <? _).
    + destruct Hsv as (f & -> & Hr & Hst). eexists. split; [done|]. split; cbn.
      * apply regs_typed_map; [apply Hf|done].
      * apply map_full_spills_typed; [apply Hf|done].
    + by rewrite Hsv.
Qed.

Lemma release_safe pc rid ret s :
  state_typed s -> (forall d, value_typed d ret) ->
  safely state_typed (release_ref pc rid ret s).
Proof.
  intros Hs Hr. unfold release_ref. destruct (drop_ref rid s) as [t|] eqn:Hd; [|done].
  apply drop_typed in Hd as [Ht _]; [|done]. apply set_reg_typed; [by apply invalidate_aliases_typed|apply Hr].
Qed.

Lemma return_type_typed imm helper d : helper_prototype imm = Some helper -> value_typed d (return_type helper).
Proof.
  intros H. unfold helper_prototype in H.
  repeat match type of H with context [match ?x with _ => _ end] => destruct x end; try done; by injection H as <-.
Qed.

Lemma helper_effect_safe pc imm helper s :
  state_typed s -> imm <> 202 -> helper_prototype imm = Some helper ->
  (imm =? 1) || (imm =? 2) = true \/ check_helper_args pc helper s = Ok tt ->
  safely state_typed (helper_effect pc imm helper s).
Proof.
  intros Hs Hw Hh Hargs. unfold helper_effect. pose proof (return_type_typed imm helper) as Hret.
  destruct (helper_acquires_ref imm).
  { eapply safely_bind; [by apply acquire_safe|]. intros [rid next] [Ht Hc]. by apply set_reg_typed. }
  destruct (existsb (Z.eqb imm) [197; 201; 202; 203]) eqn:Hd.
  { simpl in Hd. rewrite !orb_true_iff, !Z.eqb_eq in Hd.
    assert (Hin : In imm [197; 201; 203]) by (simpl; clear -Hd Hw; intuition lia).
    eapply safely_bind; [eapply dynptr_call_safe; [done|done|done|]|].
    - destruct Hargs as [Ha|]; [|done]. rewrite orb_true_iff, !Z.eqb_eq in Ha. simpl in Hin. lia.
    - intros t [Ht Hc]. destruct (imm =? 203); [done|]. apply set_reg_typed; [done|by apply Hret]. }
  destruct (helper_releases_ref imm).
  - destruct (reg s 1); try done. destruct (_ =? 0); [done|]. apply release_safe; [done|]. intros d. by apply Hret.
  - apply set_reg_typed; [done|by apply Hret].
Qed.

Lemma helper_call_safe pc imm s : state_typed s -> imm <> 202 -> safely state_typed (helper_call pc imm s).
Proof.
  intros Hs Hw. unfold helper_call. destruct (helper_prototype imm) as [helper|] eqn:Hh; [|done].
  set (args := if _ : bool then _ else _).
  assert (Hargs : safely (fun _ => True) args).
  { unfold args. destruct (_ || _); [by apply map_helper_safe|apply check_args_safe]. }
  destruct args as [[]|] eqn:Ha; [|done]. cbn [rbind]. destruct (_ && _); [done|].
  eapply safely_bind; [eapply helper_effect_safe; try done|].
  - unfold args in Ha. destruct (_ || _) eqn:Ho; [by left|by right].
  - intros t Ht%clobber_typed. cbn zeta.
    destruct imm as [|[p|p|]|p]; try done. simpl. destruct (reg s 1); try done. by apply set_reg_typed.
Qed.

(** [bpf_dynptr_write] may panic, but when it returns only [R0] and the clobbered
    registers have changed. *)
Lemma helper_call_typed pc imm s t : state_typed s -> helper_call pc imm s = Ok t -> state_typed t.
Proof.
  intros Hs Ht. destruct (decide (imm = 202)) as [->|Hw].
  - unfold helper_call in Ht. cbn [helper_prototype] in Ht. apply rbind_ok in Ht as (_ & _ & Ht). cbn in Ht.
    apply rbind_ok in Ht as (next & Hn & [= <-]). apply clobber_typed. cbn [helper_effect] in Hn.
    apply rbind_ok in Hn as (u & Hu & [= <-]). apply set_reg_typed; [|done].
    unfold dynptr_helper_call in Hu. apply rbind_ok in Hu as (_ & _ & Hu). destruct (reg s 3); try (by injection Hu as <-).
    apply rbind_ok in Hu as (_ & _ & Hu). by injection Hu as <-.
  - pose proof (helper_call_safe pc imm s Hs Hw) as H. by rewrite Ht in H.
Qed.

Lemma kfunc_call_safe pc btf_id s : state_typed s -> safely state_typed (kfunc_call pc btf_id s).
Proof.
  intros Hs. unfold kfunc_call. destruct (kfunc_prototype btf_id) as [proto|] eqn:Hp; [|done].
  eapply safely_bind; [apply check_args_safe|]. intros _ _.
  assert (Hret : forall d, value_typed d (kfunc_return_type proto)).
  { intros d. unfold kfunc_prototype in Hp.
    repeat match type of Hp with context [match ?x with _ => _ end] => destruct x end; try done; by injection Hp as <-. }
  eapply (safely_bind state_typed).
  - destruct (acquires_ref proto).
    { eapply safely_bind; [by apply acquire_safe|]. intros [rid next] [Ht Hc]. by apply set_reg_typed. }
    destruct (releases_ref proto).
    + destruct (reg s 1); try done. destruct (_ =? 0); [done|]. by apply release_safe.
    + by apply set_reg_typed.
  - intros t Ht. by apply clobber_typed.
Qed.

(** * The reference discipline *)

Lemma next_free_ge fuel active id : id <= next_free fuel active id <= id + Z.of_nat fuel.
Proof.
  revert id. induction fuel as [|fuel IH]; intros id; simpl; [lia|]. case_bool_decide; [|lia].
  specialize (IH (id + 1)). lia.
Qed.

Lemma next_free_passed fuel active id :
  forall x, id <= x < next_free fuel active id -> x ∈ active.
Proof.
  revert id. induction fuel as [|fuel IH]; intros id x; simpl; [lia|]. case_bool_decide as Hin; [|lia].
  intros Hx. destruct (decide (x = id)) as [->|Hne]; [done|]. apply (IH (id + 1)). lia.
Qed.

(** The fuel is one more than the identities in use, so a free one is found. *)
Lemma next_free_fresh active id : next_free (S (length active)) active id ∉ active.
Proof.
  assert (H : forall fuel id, next_free fuel active id ∈ active -> next_free fuel active id = id + Z.of_nat fuel).
  { induction fuel as [|fuel IH]; intros i; simpl; [lia|]. case_bool_decide; [|done]. intros Hn. rewrite IH; [lia|done]. }
  intros Hin. pose proof (H _ _ Hin) as Hr.
  assert (Hincl : map (fun k => id + Z.of_nat k) (seq 0 (S (length active))) ⊆ active).
  { intros x Hx. apply list_elem_of_In, in_map_iff in Hx as (k & <- & Hk). apply in_seq in Hk.
    apply (next_free_passed (S (length active)) active id). lia. }
  apply NoDup_submseteq, submseteq_length in Hincl.
  - rewrite length_map, length_seq in Hincl. lia.
  - assert (Inj eq eq (fun k : nat => id + Z.of_nat k)) by (intros a b; lia). apply (NoDup_fmap_2 _), NoDup_seq.
Qed.

Lemma held_acquired s rid :
  state_typed s -> 0 <= refs_cnt s < 8 ->
  held_refs (set_refs (<[Z.to_nat (refs_cnt s) := rid]> (refs s)) (refs_cnt s + 1) s) = held_refs s ++ [rid].
Proof.
  intros Hs Hc. unfold held_refs. cbn [set_refs refs refs_cnt].
  replace (Z.to_nat (refs_cnt s + 1)) with (S (Z.to_nat (refs_cnt s))) by lia.
  assert (Hlt : (Z.to_nat (refs_cnt s) < length (refs s))%nat) by (rewrite (typed_refs _ Hs); lia).
  rewrite (take_S_r _ _ rid) by (by apply list_lookup_insert_eq). by rewrite take_insert_ge by lia.
Qed.

(** Taking a reference out: the last one moves into its place. *)
Lemma held_dropped s rid t :
  state_typed s -> drop_ref rid s = Some t -> held_refs s ≡ₚ (rid :: held_refs t).
Proof.
  intros Hs. unfold drop_ref. destruct (ref_index (held_refs s) rid) as [i|] eqn:Hi; [|done]. intros [= <-].
  pose proof (typed_count _ Hs). apply ref_index_lt in Hi. unfold held_refs in *. cbn [set_refs refs refs_cnt].
  pose proof (lookup_lt_Some _ _ _ Hi) as Hlt. rewrite length_take, (typed_refs _ Hs) in Hlt.
  set (n := Z.to_nat (refs_cnt s)) in *. replace (Z.to_nat (refs_cnt s - 1)) with (n - 1)%nat by lia.
  assert (Hlast : (n - 1 < length (refs s))%nat) by (rewrite (typed_refs _ Hs); lia).
  destruct (lookup_lt_is_Some_2 _ _ Hlast) as [last Hl]. rewrite Hl. simpl.
  assert (Htk : take n (refs s) = take (n - 1) (refs s) ++ [last]).
  { replace n with (S (n - 1)) at 1 by lia. by rewrite (take_S_r _ _ last). }
  rewrite Htk in Hi |- *. destruct (decide (i = n - 1)%nat) as [->|Hne].
  - rewrite take_insert_ge by lia.
    rewrite lookup_app_r in Hi by (rewrite length_take; lia). rewrite length_take, Nat.min_l, Nat.sub_diag in Hi by lia.
    injection Hi as ->. by rewrite Permutation_app_comm.
  - assert (Hi' : take (n - 1) (refs s) !! i = Some rid).
    { rewrite lookup_app_l in Hi; [done|]. rewrite length_take. lia. }
    rewrite take_insert_lt by lia. apply list_elem_of_split_length in Hi' as (l1 & l2 & Hsp & ->). rewrite Hsp.
    rewrite insert_app_r_alt by lia. rewrite Nat.sub_diag, <- app_assoc. simpl.
    rewrite <- (Permutation_middle l1 (l2 ++ [last]) rid). constructor.
    apply Permutation_app_head. symmetry. apply Permutation_cons_append.
Qed.

(** No register and no spilled register in a full slot is an alias. *)
Definition no_alias_in (rid : Z) (rs : list RegState) (st : StackState) : Prop :=
  (forall r, r ∈ rs -> is_alias rid r = false) /\
  (forall slot r, spilled st !! slot = Some (Some r) -> full_spill st slot = true -> is_alias rid r = false).
Definition no_alias (rid : Z) (s : VerifierState) : Prop :=
  no_alias_in rid (regs s) (stack s) /\
  (forall i f, saved s !! i = Some (Some f) -> no_alias_in rid (frame_regs f) (frame_stack f)).

Lemma invalidate_alias rid r : is_alias rid (invalidate rid r) = false.
Proof. unfold invalidate. by destruct (is_alias rid r) eqn:H. Qed.

Lemma invalidate_no_alias rid rs st : no_alias_in rid (map (invalidate rid) rs) (map_full_spills (invalidate rid) st).
Proof.
  split.
  - intros r Hr. apply list_elem_of_In, in_map_iff in Hr as (x & <- & _). apply invalidate_alias.
  - intros slot r. cbn [map_full_spills spilled]. rewrite list_lookup_imap.
    change (full_spill (map_full_spills (invalidate rid) st) slot) with (full_spill st slot).
    destruct (spilled st !! slot) as [[x|]|]; [|done|done]. simpl. destruct (full_spill st slot); [|done].
    intros [= <-] _. apply invalidate_alias.
Qed.

Lemma release_ok pc rid ret s t :
  state_typed s -> is_alias rid ret = false -> release_ref pc rid ret s = Ok t ->
  held_refs s ≡ₚ (rid :: held_refs t) /\ no_alias rid t.
Proof.
  intros Hs Hret. unfold release_ref. destruct (drop_ref rid s) as [u|] eqn:Hd; [|done]. intros [= <-].
  apply held_dropped in Hd; [|done]. split; [done|]. split.
  - destruct (invalidate_no_alias rid (regs u) (stack u)) as [Hr Hst]. split; [|done].
    intros r Hin. cbn [set_reg set_regs regs invalidate_reference_aliases] in Hin.
    apply list_elem_of_lookup in Hin as [i Hi].
    destruct (decide (i = Z.to_nat 0)) as [->|Hne].
    + destruct (map (invalidate rid) (regs u)) as [|x l] eqn:Hm; [done|]. simpl in Hi. by injection Hi as <-.
    + rewrite list_lookup_insert_ne in Hi by done. apply Hr. by eapply list_elem_of_lookup_2.
  - intros i f. cbn [set_reg set_regs saved invalidate_reference_aliases]. rewrite list_lookup_fmap.
    destruct (saved u !! i) as [[g|]|]; [|done|done]. simpl. intros [= <-]. apply invalidate_no_alias.
Qed.

(** C11: references: an acquired reference has an identity no held one has and
    joins the held ones; a release takes exactly one reference out and leaves no
    alias of it in any register or full spill of any active frame; so held
    references stay pairwise distinct. *)
Theorem reference_discipline (pc rid : Z) (ret : RegState) (s t : VerifierState) :
  state_typed s -> NoDup (held_refs s) ->
  (acquire_ref pc s = Ok (rid, t) ->
     (rid ∉ held_refs s) /\ held_refs t = held_refs s ++ [rid] /\ NoDup (held_refs t)) /\
  (is_alias rid ret = false -> release_ref pc rid ret s = Ok t ->
     rid ∈ held_refs s /\ (rid ∉ held_refs t) /\ held_refs s ≡ₚ (rid :: held_refs t) /\ NoDup (held_refs t) /\
     no_alias rid t).
Proof.
  intros Hs Hnd. split.
  - unfold acquire_ref. destruct (Z.leb_spec MAX_REFS (refs_cnt s)); [done|]. intros [= <- <-].
    pose proof (typed_count _ Hs). pose proof (next_free_fresh (held_refs s) (REF_ID_BASE + 1)) as Hf.
    rewrite held_acquired by (done || lia). split; [done|]. split; [done|].
    apply NoDup_app. split; [done|]. split; [|apply NoDup_singleton].
    intros x Hx Hx'. apply list_elem_of_singleton in Hx' as ->. done.
  - intros Hret Hr. apply release_ok in Hr as [Hp Ha]; [|done|done].
    pose proof Hnd as Hnd'. rewrite Hp in Hnd'. apply NoDup_cons in Hnd' as [Hni Hnd']. split_and!; try done.
    rewrite Hp. by left.
Qed.

Definition holding : VerifierState := set_reg 6 (PtrToMem 0 0 0 7 0) (set_refs (<[0%nat := 7]> (replicate 8 0)) 1 initial).
Lemma holding_typed : state_typed holding.
Proof. apply set_reg_typed; [|done]. apply set_refs_typed; [done|lia|apply initial_typed]. Qed.

Lemma reference_discipline_witness :
  (exists t, release_ref 0 7 UNKNOWN_SCALAR_ZERO holding = Ok t /\ (7 ∉ held_refs t) /\ no_alias 7 t) /\
  (exists rid t, acquire_ref 0 holding = Ok (rid, t) /\ rid ∉ held_refs holding).
Proof.
  assert (Hnd : NoDup (held_refs holding)) by apply NoDup_singleton. split.
  - destruct (release_ref 0 7 UNKNOWN_SCALAR_ZERO holding) as [t|] eqn:E; [|vm_compute in E; discriminate E].
    exists t. split; [reflexivity|].
    destruct (proj2 (reference_discipline 0 7 UNKNOWN_SCALAR_ZERO holding t holding_typed Hnd) eq_refl E) as (_ & H1 & _ & _ & H2).
    split; assumption.
  - destruct (acquire_ref 0 holding) as [[rid t]|] eqn:E; [|vm_compute in E; discriminate E].
    exists rid, t. split; [reflexivity|].
    exact (proj1 (proj1 (reference_discipline 0 rid Uninit holding t holding_typed Hnd) E)).
Defined.

(** ** Gaps *)

(** Arguments of [bpf_dynptr_write]: a dynptr at -16 and a source at [off] of [len] bytes. *)
Definition dynptr_args (off len : Z) : VerifierState :=
  set_reg 1 (PtrToStack (-16) (-16) 0 0) (set_reg 2 (Scalar (bounds_constant 0))
    (set_reg 3 (PtrToStack off off 0 0) (set_reg 4 (Scalar (bounds_constant len))
      (set_reg 5 (Scalar (bounds_constant 0)) dynptr_slots)))).
Lemma dynptr_args_typed off len : state_typed (dynptr_args off len).
Proof.
  unfold dynptr_args, dynptr_slots. repeat (apply set_reg_typed; [|done || (cbn; lia)]).
  apply set_stack_typed; [apply initial_typed|]. destruct (stack_new_typed 0) as [Hb Hd Hs Hf].
  split; cbn [bytes dynptr spilled]; [by rewrite length_fill|by rewrite length_insert|done|done].
Qed.
(** A subprogram whose own stack has one written slot, and a map key pointer
    into the caller's stack, of which no byte is written. *)
Definition caller_key : option VerifierState :=
  s ← match call_subprog initial 1 with Ok s => Some s | Err _ => None end;
  Some (set_reg 1 (PtrToMap 8 8 0) (set_reg 2 (PtrToStack (-8) (-8) 0 0)
    (set_stack (mkStack (fill 0 7 StackByte.Misc (bytes stack_new)) (spilled stack_new) (dynptr stack_new)) s))).

(** The range check of [bpf_dynptr_write] indexes past the 512 bytes for a
    source below the frame (a panic), and accepts a source that reaches above
    the frame without looking at a byte; the buffers of map helpers are looked
    up in the current frame, whatever frame the pointer belongs to. *)
Theorem call_gaps :
  helper_call 0 202 (dynptr_args (-600) 8) = fail 0 Panicked /\
  is_ok (helper_call 0 202 (dynptr_args (-4) 8)) = true /\
  is_ok <$> (helper_call 0 1 <$> caller_key) = Some true /\
  (s ← caller_key; st ← frame_stack_of s 0; bytes st !! 0%nat) = Some StackByte.Invalid.
Proof. vm_compute. done. Qed.
