(* ===== verification/Step.v ===== *)
(** The whole transfer function of the abstract machine (src/src/exec.rs): [step]
    for the instructions with one successor, the conditional branches with the
    scalar refinements, the links between copied scalars and the null checks of
    nullable pointers, and [successors], which expands an instruction into the
    program counters and states it leads to. *)
From Stdlib Require Import ZArith Lia List Bool String.
From stdpp Require Import base list.
From S2P Require Import Prelude Tnum Bounds Insn Alu Branch Ctx State Exec Helper Mem Call.
Open Scope Z_scope.

(** * Instructions with one successor *)

Definition call_sub (pc : Z) (s : VerifierState) : result VerificationFailure VerifierState :=
  match call_subprog s (pc + 1) with
  | Ok next => Ok next
  | Err msg => fail pc (CallTooDeep msg)
  end.

(** The arms of [step]; a branch or an exit is an [unreachable!()] there, except
    for JSET and the 32-bit jumps, which are an internal error. *)
Definition step (pc : Z) (s : VerifierState) (insn : BpfInsn) : result VerificationFailure VerifierState :=
  match step_reg pc s insn with
  | Some next => next
  | None =>
      match insn with
      | BpfInsn.LdAbs size _ => ld_abs pc s size
      | BpfInsn.LdInd src size _ => ld_ind pc s src size
      | BpfInsn.Atomic dst src offset size op fetch => atomic pc s dst src offset size op fetch
      | BpfInsn.CallSub _ => call_sub pc s
      | BpfInsn.CallKfunc btf_id => kfunc_call pc btf_id s
      | BpfInsn.StMem src base offset size => stack_write pc base s offset size (Some src) None
      | BpfInsn.StMemImm imm base offset size => stack_write pc base s offset size None (Some imm)
      | BpfInsn.LdMem dst base offset size sign_extend => ld_mem pc s dst base offset size sign_extend
      | BpfInsn.Jset _ _ _ | BpfInsn.JsetImm _ _ _ | BpfInsn.Jmp32 _ _ _ _ _ => fail pc BranchInStep
      | BpfInsn.Call imm => helper_call pc imm s
      | _ => fail pc Panicked
      end
  end.

(** * Branches *)

Definition successor : Type := Z * VerifierState.

Definition branch_or_both (pc offset : Z) (taken : option bool) (s : VerifierState) : list successor :=
  match taken with
  | Some true => [(branch_target pc offset, s)]
  | Some false => [(pc + 1, s)]
  | None => [(branch_target pc offset, s); (pc + 1, s)]
  end.

Definition jset_not_taken (dst imm : Z) (s : VerifierState) : VerifierState :=
  match reg s dst with
  | Scalar b => set_reg dst (Scalar (jset_cleared b imm)) s
  | _ => s
  end.

(** * Links *)

Definition bounds_equal (a b : ScalarBounds) : bool :=
  (smin a =? smin b) && (smax a =? smax b) && (umin a =? umin b) && (umax a =? umax b) &&
  bool_decide (tnum a = tnum b).

(** The value of a linked scalar [b] once the refined one is [known]. *)
Definition shifted_scalar (known_delta : Z) (known b : ScalarBounds) : ScalarBounds :=
  let shift := delta b - known_delta in
  let k := if shift =? 0 then known else apply_alu Add W64 known (bounds_constant shift) in
  mkBounds (smin k) (smax k) (umin k) (umax k) (s32_min k) (s32_max k) (u32_min k) (u32_max k)
    (tnum k) (precise k) (id b) (delta b).

Definition sync_reg (i known_delta : Z) (known : ScalarBounds) (r : RegState) : RegState :=
  match r with
  | Scalar b =>
      if negb (id b =? i) || bounds_equal b known then r else Scalar (shifted_scalar known_delta known b)
  | _ => r
  end.
Definition sync_spill (i known_delta : Z) (known : ScalarBounds) (r : RegState) : RegState :=
  match r with
  | Scalar b => if negb (id b =? i) then r else Scalar (shifted_scalar known_delta known b)
  | _ => r
  end.

Definition sync_linked_scalars (i known_delta : Z) (known : ScalarBounds) (s : VerifierState) : VerifierState :=
  if i =? 0 then s
  else set_stack (map_full_spills (sync_spill i known_delta known) (stack s))
         (set_regs (map (sync_reg i known_delta known)) s).

(** * Null checks *)

(** Every register and every full spill of the current frame. *)
Definition map_values (f : RegState -> RegState) (s : VerifierState) : VerifierState :=
  set_stack (map_full_spills f (stack s)) (set_regs (map f) s).

Definition map_value_null (i : Z) (r : RegState) : RegState :=
  match r with
  | PtrToMapValueOrNull _ rid => if rid =? i then Scalar (bounds_constant 0) else r
  | _ => r
  end.
Definition map_value_valid (i : Z) (r : RegState) : RegState :=
  match r with
  | PtrToMapValueOrNull vs rid => if rid =? i then PtrToMapValue 0 0 0 vs rid else r
  | _ => r
  end.
Definition mem_null (i : Z) (r : RegState) : RegState :=
  match r with
  | PtrToMem _ _ _ rid _ => if rid =? i then Scalar (bounds_constant 0) else r
  | PtrToMemOrNull rid parent_id _ =>
      if (parent_id =? 0) && (rid =? i) then Scalar (bounds_constant 0) else r
  | _ => r
  end.
Definition mem_valid (i : Z) (r : RegState) : RegState :=
  match r with
  | PtrToMemOrNull rid parent_id size =>
      if rid =? i then PtrToMem 0 (as_i32 (Z.max 0 (size - 8))) 0 i parent_id else r
  | _ => r
  end.

(** The two successors of a null check: the null side first, as in the code. *)
Definition null_check (pc offset : Z) (op : CondOp) (null_state valid : VerifierState) : list successor :=
  let taken_pc := branch_target pc offset in
  let fall_pc := pc + 1 in
  match op with
  | CondOp.Eq => [(taken_pc, null_state); (fall_pc, valid)]
  | _ => [(fall_pc, null_state); (taken_pc, valid)]
  end.

Definition map_value_check (pc offset : Z) (op : CondOp) (ptr_reg value_size i : Z) (s : VerifierState)
  : list successor :=
  null_check pc offset op
    (set_reg ptr_reg (Scalar (bounds_constant 0)) (map_values (map_value_null i) s))
    (set_reg ptr_reg (PtrToMapValue 0 0 0 value_size i) (map_values (map_value_valid i) s)).

(** The null side drops the reference, if it is held. *)
Definition mem_check (pc offset : Z) (op : CondOp) (ptr_reg i : Z) (s : VerifierState) : list successor :=
  null_check pc offset op
    (set_reg ptr_reg (Scalar (bounds_constant 0)) (map_values (mem_null i) (default s (drop_ref i s))))
    (set_reg ptr_reg (PtrToMem 0 0 0 i 0) (map_values (mem_valid i) s)).

Definition is_equality (op : CondOp) : bool :=
  match op with CondOp.Eq | CondOp.Ne => true | _ => false end.

(** * Conditional jumps *)

(** One side of a comparison of scalars: the refined operands, and the scalars
    linked to them. *)
Definition scalar_side (dst : Z) (src_reg : option Z) (d b : ScalarBounds) (refined : ScalarBounds * ScalarBounds)
    (s : VerifierState) : VerifierState :=
  let s := set_reg dst (Scalar (fst refined)) s in
  let s := match src_reg with Some r => set_reg r (Scalar (snd refined)) s | None => s end in
  let s := sync_linked_scalars (id d) (delta d) (fst refined) s in
  match src_reg with Some _ => sync_linked_scalars (id b) (delta b) (snd refined) s | None => s end.

Definition scalar_branches (pc dst : Z) (src_reg : option Z) (offset : Z) (op : CondOp) (d b : ScalarBounds)
    (s : VerifierState) : list successor :=
  let '(taken, fall) := refine_cmp op d b in
  let taken := (branch_target pc offset, scalar_side dst src_reg d b taken s) in
  let fall := (pc + 1, scalar_side dst src_reg d b fall s) in
  match is_branch_taken op d b with
  | AlwaysTaken => [taken]
  | AlwaysNotTaken => [fall]
  | Branch.Unknown => [taken; fall]
  end.

(** Pointers of the same type. *)
Definition same_pointer_type (a b : RegState) : bool :=
  match a, b with
  | PtrToStack _ _ _ _, PtrToStack _ _ _ _
  | PtrToCtx _, PtrToCtx _
  | PtrToMap _ _ _, PtrToMap _ _ _
  | PtrToMapValue _ _ _ _ _, PtrToMapValue _ _ _ _ _
  | PtrToMapValueOrNull _ _, PtrToMapValueOrNull _ _ => true
  | _, _ => false
  end.

(** Pointers that may be compared with a scalar. *)
Definition scalar_comparable (r : RegState) : bool :=
  match r with
  | PtrToStack _ _ _ _ | PtrToCtx _ | PtrToMap _ _ _ | PtrToMapValue _ _ _ _ _
  | PtrToMapValueOrNull _ _ | PtrToMem _ _ _ _ _ => true
  | _ => false
  end.

(** A pointer [ptr] of the register [ptr_reg] against the scalar [b]. *)
Definition pointer_scalar (pc dst : Z) (src_reg : option Z) (offset : Z) (op : CondOp) (s : VerifierState)
    (ptr : RegState) (ptr_reg : option Z) (b : ScalarBounds) : result VerificationFailure (list successor) :=
  let both := [(branch_target pc offset, s); (pc + 1, s)] in
  let other :=
    if scalar_comparable ptr then Ok both
    else match ptr with Uninit => fail pc Panicked | _ => fail pc (DifferentTypes dst src_reg) end in
  if negb (bounds_is_zero b) then other
  else
    match ptr with
    | PtrToMapValueOrNull value_size i =>
        if negb (is_equality op) then fail pc (DifferentTypes dst src_reg)
        else match ptr_reg with
             | Some r => Ok (map_value_check pc offset op r value_size i s)
             | None => fail pc Panicked
             end
    | PtrToMemOrNull i _ _ =>
        if negb (is_equality op) then fail pc (DifferentTypes dst src_reg)
        else match ptr_reg with
             | Some r => Ok (mem_check pc offset op r i s)
             | None => fail pc Panicked
             end
    | PtrToMapValue _ _ _ _ _ =>
        if is_equality op then Ok both else fail pc (DifferentTypes dst src_reg)
    | _ => other
    end.

Definition cond_branch_impl (pc dst : Z) (src_reg : option Z) (src_state : RegState) (offset : Z) (op : CondOp)
    (s : VerifierState) : result VerificationFailure (list successor) :=
  let? dst_state := read_reg pc s dst in
  match dst_state, src_state with
  | Scalar d, Scalar b => Ok (scalar_branches pc dst src_reg offset op d b s)
  | _, Scalar b => pointer_scalar pc dst src_reg offset op s dst_state (Some dst) b
  | Scalar b, _ => pointer_scalar pc dst src_reg offset op s src_state src_reg b
  | _, _ =>
      if same_pointer_type dst_state src_state then
        if is_equality op then Ok [(branch_target pc offset, s); (pc + 1, s)]
        else fail pc (PointerOrdering dst src_reg)
      else
        match dst_state, src_state with
        | Uninit, _ | _, Uninit => fail pc Panicked
        | _, _ => fail pc (DifferentTypes dst src_reg)
        end
  end.

(** A comparison of a scalar register with itself. *)
Definition self_comparison (op : CondOp) : bool :=
  match op with
  | CondOp.Eq | CondOp.Ule | CondOp.Uge | CondOp.Sle | CondOp.Sge => true
  | _ => false
  end.

Definition cond_branch (pc dst src offset : Z) (op : CondOp) (s : VerifierState)
  : result VerificationFailure (list successor) :=
  let other :=
    let? src_state := read_reg pc s src in
    cond_branch_impl pc dst (Some src) src_state offset op s in
  if src =? dst then
    let? v := read_reg pc s dst in
    if is_scalar (Some v) then
      Ok [if self_comparison op then (branch_target pc offset, s) else (pc + 1, s)]
    else other
  else other.

Definition cond_branch_imm (pc dst imm offset : Z) (op : CondOp) (s : VerifierState)
  : result VerificationFailure (list successor) :=
  cond_branch_impl pc dst None (Scalar (bounds_constant imm)) offset op s.

(** * Successors *)

Definition jset_branches (pc dst imm offset : Z) (s : VerifierState)
  : result VerificationFailure (list successor) :=
  let? d := read_scalar pc s dst in
  Ok match jset_verdict d (bounds_constant imm) with
     | Some true => [(branch_target pc offset, s)]
     | Some false => [(pc + 1, s)]
     | None => [(branch_target pc offset, s); (pc + 1, jset_not_taken dst imm s)]
     end.

Definition successors (pc : Z) (insn : BpfInsn) (s : VerifierState)
  : result VerificationFailure (list successor) :=
  match insn with
  | BpfInsn.Exit => Ok []
  | BpfInsn.Jmp offset => Ok [(branch_target pc offset, s)]
  | BpfInsn.CallSub offset =>
      let? callee := call_sub pc s in Ok [(branch_target pc (as_i16 offset), callee)]
  | BpfInsn.Jeq dst src offset => cond_branch pc dst src offset CondOp.Eq s
  | BpfInsn.Jne dst src offset => cond_branch pc dst src offset CondOp.Ne s
  | BpfInsn.Jgt dst src offset => cond_branch pc dst src offset CondOp.Ugt s
  | BpfInsn.Jge dst src offset => cond_branch pc dst src offset CondOp.Uge s
  | BpfInsn.Jlt dst src offset => cond_branch pc dst src offset CondOp.Ult s
  | BpfInsn.Jle dst src offset => cond_branch pc dst src offset CondOp.Ule s
  | BpfInsn.Jsgt dst src offset => cond_branch pc dst src offset CondOp.Sgt s
  | BpfInsn.Jsge dst src offset => cond_branch pc dst src offset CondOp.Sge s
  | BpfInsn.Jslt dst src offset => cond_branch pc dst src offset CondOp.Slt s
  | BpfInsn.Jsle dst src offset => cond_branch pc dst src offset CondOp.Sle s
  | BpfInsn.JeqImm dst imm offset => cond_branch_imm pc dst imm offset CondOp.Eq s
  | BpfInsn.JneImm dst imm offset => cond_branch_imm pc dst imm offset CondOp.Ne s
  | BpfInsn.JgtImm dst imm offset => cond_branch_imm pc dst imm offset CondOp.Ugt s
  | BpfInsn.JgeImm dst imm offset => cond_branch_imm pc dst imm offset CondOp.Uge s
  | BpfInsn.JltImm dst imm offset => cond_branch_imm pc dst imm offset CondOp.Ult s
  | BpfInsn.JleImm dst imm offset => cond_branch_imm pc dst imm offset CondOp.Ule s
  | BpfInsn.JsgtImm dst imm offset => cond_branch_imm pc dst imm offset CondOp.Sgt s
  | BpfInsn.JsgeImm dst imm offset => cond_branch_imm pc dst imm offset CondOp.Sge s
  | BpfInsn.JsltImm dst imm offset => cond_branch_imm pc dst imm offset CondOp.Slt s
  | BpfInsn.JsleImm dst imm offset => cond_branch_imm pc dst imm offset CondOp.Sle s
  | BpfInsn.Jset dst src offset =>
      let? d := read_scalar pc s dst in
      let? b := read_scalar pc s src in
      Ok (branch_or_both pc offset (jset_verdict d b) s)
  | BpfInsn.JsetImm dst imm offset => jset_branches pc dst imm offset s
  | BpfInsn.Jmp32 dst src imm offset op =>
      let? d := read_scalar pc s dst in
      let? b :=
        match src, imm with
        | Some r, _ => read_scalar pc s r
        | None, Some i => Ok (bounds_constant i)
        | None, None => fail pc Panicked
        end in
      Ok (branch_or_both pc offset (jmp32_verdict d b op) s)
  | _ => let? next := step pc s insn in Ok [(pc + 1, next)]
  end.

(** * Execution keeps states typed and does not panic *)

Lemma addend_safe pc k b : safely (fun _ => True) (check_sane_addend pc k b).
Proof. unfold check_sane_addend. repeat safe_case; done. Qed.
Lemma result_offset_safe pc k x : safely (fun _ => True) (check_sane_result_offset pc k x).
Proof. unfold check_sane_result_offset. by repeat safe_case. Qed.
#[local] Hint Resolve addend_safe result_offset_safe : safe.

Lemma add_stack_safe pc dst mn mx al fr b s :
  state_typed s -> 0 <= fr <= curframe s -> safely state_typed (add_scalar_to_stack_ptr pc dst mn mx al fr b s).
Proof.
  intros Hs Hf. unfold add_scalar_to_stack_ptr. safe_bind. intros _ _. cbn zeta. safe_bind. intros _ _.
  by apply set_reg_typed.
Qed.
Lemma add_map_safe pc dst mn mx al vs b s :
  state_typed s -> safely state_typed (add_scalar_to_map_value_ptr pc dst mn mx al vs b s).
Proof.
  intros Hs. unfold add_scalar_to_map_value_ptr. safe_bind. intros _ _. cbn zeta. safe_bind. intros _ _.
  by apply set_reg_typed.
Qed.
Lemma ctx_plus_safe pc dst off b neg s : state_typed s -> safely state_typed (ctx_plus_scalar pc dst off b neg s).
Proof.
  intros Hs. unfold ctx_plus_scalar. safe_bind. intros _ _. destruct (negb _); [done|]. by apply set_reg_typed.
Qed.
#[local] Hint Resolve add_stack_safe add_map_safe ctx_plus_safe : safe.

(** The arms that read registers and write one. *)
Ltac safe_arm :=
  repeat (match goal with
          | |- safely _ (rbind (read_reg _ _ _) _) =>
              eapply safely_bind; [by eauto with safe|]; intros ?v (_ & _ & ?Hv)
          | |- safely _ (rbind _ _) => safe_bind; intros
          | |- safely _ (Ok (set_reg _ _ _)) => apply set_reg_typed
          | |- safely _ (let _ := _ in _) => cbn zeta
          | |- state_typed (set_reg _ _ _) => apply set_reg_typed
          | |- safely _ (add_scalar_to_stack_ptr _ _ _ _ _ _ _ _) => apply add_stack_safe
          | _ => safe_case
          end; try done; eauto with safe).

Lemma alu_imm_safe pc s dst imm op w : state_typed s -> safely state_typed (alu_imm pc s dst imm op w).
Proof. intros Hs. unfold alu_imm. safe_arm. Qed.
Lemma alu_reg_safe pc s dst src op w : state_typed s -> safely state_typed (alu_reg pc s dst src op w).
Proof. intros Hs. unfold alu_reg, scalar_alu_reg. safe_arm. Qed.
Lemma mul_imm_safe pc s dst imm high : state_typed s -> safely state_typed (mul_imm pc s dst imm high).
Proof. intros Hs. unfold mul_imm. destruct high; [by apply alu_imm_safe|safe_arm..]. Qed.
Lemma mul_reg_safe pc s dst src high : state_typed s -> safely state_typed (mul_reg pc s dst src high).
Proof. intros Hs. unfold mul_reg. destruct high; [by apply alu_reg_safe|safe_arm..]. Qed.
Lemma neg_safe pc s dst w : state_typed s -> safely state_typed (alu_neg pc s dst w).
Proof. intros Hs. unfold alu_neg. safe_arm. Qed.
Lemma mov_reg_safe pc s dst src : state_typed s -> safely state_typed (mov_reg pc s dst src).
Proof. intros Hs. unfold mov_reg. safe_arm; repeat apply set_reg_typed; done. Qed.
#[local] Hint Resolve alu_imm_safe alu_reg_safe mul_imm_safe mul_reg_safe neg_safe mov_reg_safe : safe.

Lemma step_reg_safe pc s insn m : state_typed s -> step_reg pc s insn = Some m -> safely state_typed m.
Proof.
  intros Hs H. destruct insn; try discriminate H; injection H as <-; try done; auto with safe;
    unfold mov_imm, mov32_imm, mov32_reg, ld_imm64, ld_map_fd, ld_map_value; safe_arm.
Qed.

(** The operand a memory instruction indexes the registers with directly. *)
Definition base_register (insn : BpfInsn) : Z :=
  match insn with BpfInsn.LdMem _ base _ _ _ => base | _ => 0 end.

(** Exactly one operand of a 32-bit comparison. *)
Definition one_operand (insn : BpfInsn) : bool :=
  match insn with BpfInsn.Jmp32 _ None None _ _ => false | _ => true end.

(** Instructions with one successor. *)
Definition steppable (insn : BpfInsn) : bool :=
  negb (is_control_flow insn) && negb (bool_decide (insn = BpfInsn.Call 202)).

Lemma call_sub_safe pc s : state_typed s -> safely state_typed (call_sub pc s).
Proof.
  intros Hs. unfold call_sub. destruct (call_subprog s (pc + 1)) as [t|] eqn:Hc; [|done]. by eapply call_typed.
Qed.

Lemma step_safe pc s insn :
  state_typed s -> base_register insn < 11 -> steppable insn = true -> safely state_typed (step pc s insn).
Proof.
  intros Hs Hb Hi. unfold step. destruct (step_reg pc s insn) as [m|] eqn:Hm; [by eapply step_reg_safe|].
  destruct insn; try discriminate Hi; try discriminate Hm.
  - by apply ld_mem_safe.
  - eapply safely_mono; [apply stack_write_safe; [done|by left]|]. by intros t [Ht _].
  - eapply safely_mono; [apply stack_write_safe; [done|by right]|]. by intros t [Ht _].
  - by apply atomic_safe.
  - by apply ld_abs_safe.
  - by apply ld_ind_safe.
  - apply helper_call_safe; [done|]. intros ->. discriminate Hi.
  - by apply call_sub_safe.
  - by apply kfunc_call_safe.
Qed.

(** ** Branches *)

Ltac each := repeat (apply Forall_cons_2 || apply Forall_nil_2); simpl; try done.
Abbreviation all_typed := (fun nexts : list successor => Forall (fun next => state_typed (snd next)) nexts).

Lemma map_values_typed f s :
  (forall d r, value_typed d r -> value_typed d (f r)) -> state_typed s -> state_typed (map_values f s).
Proof.
  intros Hf Hs. unfold map_values. apply set_stack_typed.
  - apply set_regs_typed; [|done]. apply regs_typed_map; [apply Hf|apply Hs].
  - apply map_full_spills_typed; [apply Hf|apply Hs].
Qed.
Lemma map_values_curframe f s : curframe (map_values f s) = curframe s.
Proof. done. Qed.

Lemma sync_typed i dl known s : state_typed s -> state_typed (sync_linked_scalars i dl known s).
Proof.
  intros Hs. unfold sync_linked_scalars. destruct (i =? 0); [done|]. apply set_stack_typed.
  - apply set_regs_typed; [|done]. apply regs_typed_map; [|apply Hs]. intros []; simpl; try done.
    by destruct (_ || _).
  - apply map_full_spills_typed; [|apply Hs]. intros []; simpl; try done. by destruct (negb _).
Qed.

Lemma scalar_side_typed dst src d b refined s : state_typed s -> state_typed (scalar_side dst src d b refined s).
Proof.
  intros Hs. unfold scalar_side. destruct src; repeat apply sync_typed; by repeat apply set_reg_typed.
Qed.

Lemma scalar_branches_typed pc dst src offset op d b s :
  state_typed s -> all_typed (scalar_branches pc dst src offset op d b s).
Proof.
  intros Hs. unfold scalar_branches. destruct (refine_cmp op d b) as [t f].
  destruct (is_branch_taken op d b); each; by apply scalar_side_typed.
Qed.

Lemma both_typed s p q : state_typed s -> all_typed [(p, s); (q, s)].
Proof. intros Hs. each. Qed.

Lemma null_check_typed pc offset op n v : state_typed n -> state_typed v -> all_typed (null_check pc offset op n v).
Proof. intros Hn Hv. unfold null_check. destruct op; each. Qed.

Lemma null_values_typed i d r :
  value_typed d r -> value_typed d (map_value_null i r) /\ value_typed d (map_value_valid i r) /\
  value_typed d (mem_null i r) /\ value_typed d (mem_valid i r).
Proof. intros Hr. destruct r; try done; simpl; repeat (destruct (_ =? _)); simpl; try done; by destruct (_ && _). Qed.

Lemma map_value_check_typed pc offset op r vs i s :
  state_typed s -> all_typed (map_value_check pc offset op r vs i s).
Proof.
  intros Hs. apply null_check_typed; (apply set_reg_typed; [|done]); apply map_values_typed; try done;
    intros d v Hv; apply (null_values_typed i _ _ Hv).
Qed.

Lemma mem_check_typed pc offset op r i s : state_typed s -> all_typed (mem_check pc offset op r i s).
Proof.
  intros Hs. apply null_check_typed; (apply set_reg_typed; [|done]); apply map_values_typed; try done;
    try (intros d v Hv; apply (null_values_typed i _ _ Hv)).
  destruct (drop_ref i s) as [t|] eqn:Ht; [|done]. simpl. by apply (drop_typed i s t).
Qed.

Lemma pointer_scalar_safe pc dst src offset op s ptr r b :
  state_typed s -> ptr <> Uninit -> r <> None -> safely all_typed (pointer_scalar pc dst src offset op s ptr r b).
Proof.
  intros Hs Hu Hr. unfold pointer_scalar. cbn zeta. destruct r as [r|]; [|done].
  assert (Hother : safely all_typed
    (if scalar_comparable ptr then Ok [(branch_target pc offset, s); (pc + 1, s)]
     else match ptr with Uninit => fail pc Panicked | _ => fail pc (DifferentTypes dst src) end)).
  { destruct (scalar_comparable ptr); [by apply both_typed|by destruct ptr]. }
  destruct (negb (bounds_is_zero b)); [done|]. destruct ptr; try exact Hother.
  - destruct (is_equality op); [by apply both_typed|done].
  - destruct (is_equality op); [by apply map_value_check_typed|done].
  - destruct (is_equality op); [by apply mem_check_typed|done].
Qed.

Lemma cond_impl_safe pc dst src v offset op s :
  state_typed s -> v <> Uninit -> (src <> None \/ exists b, v = Scalar b) ->
  safely all_typed (cond_branch_impl pc dst src v offset op s).
Proof.
  intros Hs Hv Hsrc. unfold cond_branch_impl. safe_bind. intros d (_ & Hd & _).
  assert (Hboth : forall p : bool, safely all_typed
    (if p then if is_equality op then Ok [(branch_target pc offset, s); (pc + 1, s)]
               else fail pc (PointerOrdering dst src)
     else match d, v with Uninit, _ | _, Uninit => fail pc Panicked | _, _ => fail pc (DifferentTypes dst src) end)).
  { intros []; [destruct (is_equality op); [by apply both_typed|done]|by destruct d, v]. }
  destruct Hsrc as [Hsrc|[b ->]].
  - destruct d, v; try done; try (by apply pointer_scalar_safe); try (by apply (Hboth true)); try (by apply (Hboth false)).
    by apply scalar_branches_typed.
  - destruct d; try done; try (by apply pointer_scalar_safe). by apply scalar_branches_typed.
Qed.

Lemma cond_branch_safe pc dst src offset op s :
  state_typed s -> safely all_typed (cond_branch pc dst src offset op s).
Proof.
  intros Hs. unfold cond_branch. cbn zeta.
  assert (H : safely all_typed (let? src_state := read_reg pc s src in cond_branch_impl pc dst (Some src) src_state offset op s)).
  { safe_bind. intros v (_ & Hv & _). apply cond_impl_safe; [done|done|by left]. }
  destruct (src =? dst); [|done]. safe_bind. intros v _. destruct (is_scalar _); [|done].
  by destruct (self_comparison op); each.
Qed.

Lemma cond_imm_safe pc dst imm offset op s :
  state_typed s -> safely all_typed (cond_branch_imm pc dst imm offset op s).
Proof. intros Hs. apply cond_impl_safe; [done|done|right; by eexists]. Qed.

Lemma branch_or_both_typed pc offset taken s : state_typed s -> all_typed (branch_or_both pc offset taken s).
Proof. intros Hs. destruct taken as [[|]|]; each. Qed.
#[local] Hint Resolve cond_branch_safe cond_imm_safe : safe.

(** What the decoder guarantees of an instruction; and that it is no dynptr write. *)
Definition insn_decoded (insn : BpfInsn) : bool := (base_register insn <? 11) && one_operand insn.
Definition insn_safe (insn : BpfInsn) : bool :=
  insn_decoded insn && negb (bool_decide (insn = BpfInsn.Call 202)).

Lemma successors_safe pc insn s :
  state_typed s -> insn_safe insn = true -> safely all_typed (successors pc insn s).
Proof.
  intros Hs Hi. unfold insn_safe, insn_decoded in Hi. rewrite !andb_true_iff in Hi. destruct Hi as [[Hb Ho] Hc]. apply Z.ltb_lt in Hb.
  assert (Hstep : is_control_flow insn = false ->
    safely all_typed (let? next := step pc s insn in Ok [(pc + 1, next)])).
  { intros Hf. eapply safely_bind; [apply step_safe; try done|].
    - unfold steppable. by rewrite Hf, Hc.
    - intros t Ht. each. }
  destruct insn; try (by apply Hstep); cbn [successors]; try (by auto with safe); try (each).
  - safe_bind. intros d _. safe_bind. intros b _. by apply branch_or_both_typed.
  - unfold jset_branches. safe_bind. intros d Hd. cbn zeta. unfold safely.
    destruct (jset_verdict _ _) as [[|]|]; each. unfold jset_not_taken. rewrite Hd.
    by apply set_reg_typed.
  - safe_bind. intros d _. eapply (safely_bind (fun _ => True)).
    + destruct src as [r|]; [|by destruct imm]. eapply safely_mono; [by eauto with safe|done].
    + intros b _. by apply branch_or_both_typed.
  - eapply safely_bind; [by apply call_sub_safe|]. intros t Ht. each.
Qed.

(** What the decoder guarantees is what the executor needs. *)
Lemma wf_insn_decoded insn : insn_wf insn = true -> insn_decoded insn = true.
Proof.
  intros Hw. unfold insn_decoded. destruct insn; try done.
  - unfold insn_wf in Hw. destruct size, sign_extend; cbn in Hw; try discriminate Hw;
      rewrite !andb_true_iff in Hw; unfold in_range in Hw; rewrite !andb_true_iff, !Z.leb_le in Hw; cbn;
      rewrite andb_true_r; apply Z.ltb_lt; lia.
  - by destruct src, imm.
Qed.
Lemma decoded_safe insn : insn_decoded insn = true -> insn <> BpfInsn.Call 202 -> insn_safe insn = true.
Proof. intros Hd Hc. unfold insn_safe. by rewrite Hd, bool_decide_false. Qed.
Lemma wf_insn_safe insn : insn_wf insn = true -> insn <> BpfInsn.Call 202 -> insn_safe insn = true.
Proof. intros Hw Hc. by apply decoded_safe; [apply wf_insn_decoded|]. Qed.

Lemma successors_ok_typed pc insn s nexts :
  state_typed s -> insn_decoded insn = true -> successors pc insn s = Ok nexts -> all_typed nexts.
Proof.
  intros Hs Hd Hn. destruct (decide (insn = BpfInsn.Call 202)) as [->|Hc].
  - cbn [successors] in Hn. apply rbind_ok in Hn as (t & Ht & [= <-]). apply Forall_cons_2; [|apply Forall_nil_2]. by apply (helper_call_typed pc 202 s).
  - pose proof (successors_safe pc insn s Hs (decoded_safe _ Hd Hc)) as H. by rewrite Hn in H.
Qed.

(** C7: the executor is well-typed: from a state whose arrays have their lengths,
    whose saved frames are exactly those below the current depth, whose stack
    pointers point to active frames and which holds at most eight references,
    every decoded instruction (a load names one of the eleven registers, a 32-bit
    comparison has exactly one right operand) leads to such states only.  It never
    panics, with one exception: [bpf_dynptr_write], on which it does. *)
Theorem successors_typed (pc : Z) (insn : BpfInsn) (s : VerifierState) :
  state_typed s -> insn_decoded insn = true ->
  (forall nexts t, successors pc insn s = Ok nexts -> In t nexts -> state_typed (snd t)) /\
  (forall f, successors pc insn s = Err f -> message f = Panicked -> insn = BpfInsn.Call 202) /\
  exists bad, state_typed bad /\ successors pc (BpfInsn.Call 202) bad = fail pc Panicked.
Proof.
  intros Hs Hd. split_and!.
  - intros nexts t Hn Ht. pose proof (successors_ok_typed pc insn s nexts Hs Hd Hn) as H.
    by apply (proj1 (List.Forall_forall _ _) H).
  - intros f Hf Hm. destruct (decide (insn = BpfInsn.Call 202)) as [|Hc]; [done|].
    pose proof (successors_safe pc insn s Hs (decoded_safe _ Hd Hc)) as H. by rewrite Hf in H.
  - exists (dynptr_args (-600) 8). split; [apply dynptr_args_typed|]. by vm_compute.
Qed.

Definition typed_insn : BpfInsn := BpfInsn.StMem 10 10 (-8) MemSize.DW.
Lemma successors_typed_witness :
  exists t, successors 0 typed_insn initial = Ok [t] /\ state_typed (snd t).
Proof.
  destruct (successors 0 typed_insn initial) as [[|t [|u l]]|] eqn:E; try discriminate E.
  exists t. split; [reflexivity|].
  apply (proj1 (successors_typed 0 typed_insn initial (initial_typed _) eq_refl) [t] t E). left. reflexivity.
Defined.

(** No panic: on a well-typed state the executor never reaches an
    [unreachable!], an [expect] that fails or an index out of range, for any
    instruction the decoder yields but [bpf_dynptr_write]. *)
Theorem executor_no_panic (pc : Z) (insn : BpfInsn) (s : VerifierState) (f : VerificationFailure) :
  state_typed s -> insn_safe insn = true -> successors pc insn s = Err f -> message f <> Panicked.
Proof.
  intros Hs Hi Hf. pose proof (successors_safe pc insn s Hs Hi) as H. by rewrite Hf in H.
Qed.

Definition failing_insn : BpfInsn := BpfInsn.LdMem 3 10 (-8) MemSize.DW false.
Lemma executor_no_panic_witness :
  exists f, successors 0 failing_insn initial = Err f /\ message f <> Panicked.
Proof.
  destruct (successors 0 failing_insn initial) as [l|f] eqn:E; [discriminate E|].
  exists f. split; [reflexivity|].
  apply (executor_no_panic 0 failing_insn initial f); [apply initial_typed|reflexivity|exact E].
Defined.

(** ** Gaps *)

(** A nullable buffer of one byte in R0. *)
Definition one_byte_buffer : VerifierState := set_reg 0 (PtrToMemOrNull 5 0 1) initial.
(** [r3] and [r6] copied from [r2] in one iteration of a loop, [r3] again from a
    new [r2] in the next. *)
Definition copies : list (Z * BpfInsn) :=
  [(0, BpfInsn.Call 7); (1, BpfInsn.MovReg 2 0); (2, BpfInsn.AndImm 2 255); (3, BpfInsn.MovReg 7 2);
   (4, BpfInsn.MovReg 6 7);
   (0, BpfInsn.Call 7); (1, BpfInsn.MovReg 2 0); (2, BpfInsn.AndImm 2 255); (3, BpfInsn.MovReg 7 2)].
Definition run_steps (l : list (Z * BpfInsn)) (s : VerifierState) : option VerifierState :=
  fold_left (fun s p => s ≫= (fun s => ok_of (step (fst p) s (snd p)))) l (Some s).

(** A buffer of one byte may be accessed with eight; the identity a copy
    gives to a scalar depends on the instruction only, so in a loop an old copy
    is linked to a new one and a comparison of the new copy refines the old; the
    target of a subprogram call is cut to 16 bits. *)
Theorem branch_gaps :
  (nexts ← ok_of (successors 0 (BpfInsn.JneImm 0 0 1) one_byte_buffer);
   valid ← nexts !! 1%nat;
   t ← ok_of (stack_write 2 0 (snd valid) 0 MemSize.DW None (Some 0));
   Some (reg t 0)) = Some (PtrToMem 0 0 0 5 0) /\
  (s ← run_steps copies initial;
   nexts ← ok_of (successors 5 (BpfInsn.JeqImm 7 5 1) s);
   taken ← nexts !! 0%nat;
   match reg (snd taken) 6 with Scalar b => Some (smin b, smax b) | _ => None end) = Some (5, 5) /\
  map fst <$> ok_of (successors 0 (BpfInsn.CallSub 65536) initial) = Some [1].
Proof. vm_compute. done. Qed.
