(* ===== verification/Mini.v ===== *)
(** The path-sensitive exploration (src/src/mini.rs): the worklist of arrival
    states, the stored checkpoints with their pending branch counts, pruning and
    the detection of infinite loops, the backward propagation of precision
    requirements, and the exploration limits.  The theorems: the exploration ends
    within its limits and panics on one helper or with the liveness analysis only,
    the branch counts are exactly the pending paths by the chain of a state (which
    leaves out the return behind the exit of a subprogram), and an accepted program
    has been explored completely. *)
From Stdlib Require Import ZArith Lia List Bool String.
From stdpp Require Import base list gmap.
From S2P Require Import Prelude Tnum Bounds Insn Alu Branch Ctx State StateEq Liveness Mem Call Step.
Open Scope Z_scope.

Record VerifierLimits := mkLimits {
  max_states : Z;
  max_steps : Z;
  max_loop_iterations : Z;
  limit_prog_type : ProgType
}.
Definition default_limits : VerifierLimits := mkLimits 1024 100000 256 ProgType.SocketFilter.

(** * Paths and checkpoints *)

Record HistEntry := mkHist { hist_pc : Z; hist_slots : option (Z * Z) }.

Record Checkpoint := mkCheckpoint {
  cp_state : VerifierState;
  parent : option nat;
  branches : Z;
  hit_cnt : Z;
  miss_cnt : Z;
  segment : list HistEntry
}.

Record WorkItem := mkItem {
  item_pc : Z;
  item_state : VerifierState;
  last_cp : option nat;
  history : list HistEntry
}.

Definition add_branches (delta : Z) (cp : Checkpoint) : Checkpoint :=
  mkCheckpoint (cp_state cp) (parent cp) (branches cp + delta) (hit_cnt cp) (miss_cnt cp) (segment cp).

(** The walk over the parent chain; a chain visits a checkpoint at most once.
    [None]: an index past the end or a count below zero (a panic), or out of fuel. *)
Fixpoint bump_chain (fuel : nat) (cps : list Checkpoint) (last : option nat) (delta : Z) : option (list Checkpoint) :=
  match last with
  | None => Some cps
  | Some i =>
      match fuel with
      | O => None
      | S fuel =>
          match cps !! i with
          | None => None
          | Some cp =>
              if branches cp + delta <? 0 then None
              else bump_chain fuel (<[i := add_branches delta cp]> cps) (parent cp) delta
          end
      end
  end.
Definition bump_branches (cps : list Checkpoint) (last : option nat) (delta : Z) : option (list Checkpoint) :=
  bump_chain (S (length cps)) cps last delta.

(** * Precision requirements *)

Record Backtrack := mkBacktrack { bt_regs : Z; bt_slots : Z }.
Definition bt_is_empty (bt : Backtrack) : bool := (bt_regs bt =? 0) && (bt_slots bt =? 0).

Inductive BacktrackOutcome := Resolved | Fallback | Continue.

Definition requires (bt : Backtrack) (mask : Z) : bool := negb (Z.land (bt_regs bt) mask =? 0).
Definition drop_regs (mask : Z) (bt : Backtrack) : Backtrack :=
  mkBacktrack (Z.land (bt_regs bt) (unot 16 mask)) (bt_slots bt).
Definition need_regs (mask : Z) (bt : Backtrack) : Backtrack :=
  mkBacktrack (Z.lor (bt_regs bt) mask) (bt_slots bt).
(** The requirement on a source register; the frame pointer needs none. *)
Definition need_src (src : Z) (bt : Backtrack) : Backtrack :=
  if src =? 10 then bt else need_regs (reg_bit src) bt.

(** [lo ..= hi] of the slots of an access. *)
Definition slots_mask (slots : option (Z * Z)) : Z :=
  match slots with
  | Some (lo, hi) => fold_left (fun m s => Z.lor m (slot_bit (Z.of_nat s))) (range (Z.to_nat lo) (Z.to_nat hi)) 0
  | None => 0
  end.
Definition need_slots (slots : option (Z * Z)) (bt : Backtrack) : Backtrack :=
  mkBacktrack (bt_regs bt) (Z.lor (bt_slots bt) (slots_mask slots)).
Definition drop_slots (slots : option (Z * Z)) (bt : Backtrack) : Backtrack :=
  mkBacktrack (bt_regs bt) (Z.land (bt_slots bt) (unot 64 (slots_mask slots))).

(** One instruction backwards; [None]: the requirement cannot be traced through it. *)
Definition backtrack_regs (insn : BpfInsn) (slots : option (Z * Z)) (bt : Backtrack) : option Backtrack :=
  match insn with
  | BpfInsn.Atomic _ src _ _ op fetch =>
      Some match op with
           | AtomicOp.Cmpxchg => drop_regs (reg_bit 0) bt
           | _ => if fetch then drop_regs (reg_bit src) bt else bt
           end
  | BpfInsn.LdAbs _ _ | BpfInsn.LdInd _ _ _ => Some (drop_regs (reg_bit 0) bt)
  | BpfInsn.MovImm dst _ | BpfInsn.Mov32Imm dst _ => Some (drop_regs (reg_bit dst) bt)
  | BpfInsn.MovReg dst src | BpfInsn.Mov32Reg dst src =>
      Some (if requires bt (reg_bit dst) then need_src src (drop_regs (reg_bit dst) bt) else bt)
  | BpfInsn.AddReg dst src | BpfInsn.SubReg dst src | BpfInsn.AndReg dst src | BpfInsn.OrReg dst src
  | BpfInsn.XorReg dst src | BpfInsn.LshReg dst src | BpfInsn.RshReg dst src | BpfInsn.ArshReg dst src
  | BpfInsn.MulReg dst src _ | BpfInsn.DivReg dst src | BpfInsn.ModReg dst src
  | BpfInsn.Add32Reg dst src | BpfInsn.Sub32Reg dst src | BpfInsn.And32Reg dst src | BpfInsn.Or32Reg dst src
  | BpfInsn.Xor32Reg dst src | BpfInsn.Lsh32Reg dst src | BpfInsn.Rsh32Reg dst src | BpfInsn.Arsh32Reg dst src
  | BpfInsn.Mul32Reg dst src | BpfInsn.Div32Reg dst src | BpfInsn.Mod32Reg dst src =>
      Some (if requires bt (reg_bit dst) then need_src src bt else bt)
  | BpfInsn.LdMem dst _ _ _ _ =>
      Some (if requires bt (reg_bit dst) then need_slots slots (drop_regs (reg_bit dst) bt) else bt)
  | BpfInsn.StMem src _ _ _ =>
      Some (if negb (Z.land (bt_slots bt) (slots_mask slots) =? 0)
            then need_src src (drop_slots slots bt) else bt)
  | BpfInsn.StMemImm _ _ _ _ => Some (drop_slots slots bt)
  | BpfInsn.LdImm64 dst _ | BpfInsn.LdMapFd dst _ _ _ _ | BpfInsn.LdMapValue dst _ _ _ _ =>
      Some (drop_regs (reg_bit dst) bt)
  | BpfInsn.CallSub _ => if requires bt 0x3f then None else Some bt
  | BpfInsn.Call _ | BpfInsn.CallKfunc _ =>
      let bt := drop_regs (reg_bit 0) bt in if requires bt 0x3e then None else Some bt
  | BpfInsn.Jeq dst src _ | BpfInsn.Jne dst src _ | BpfInsn.Jgt dst src _ | BpfInsn.Jge dst src _
  | BpfInsn.Jlt dst src _ | BpfInsn.Jle dst src _ | BpfInsn.Jsgt dst src _ | BpfInsn.Jsge dst src _
  | BpfInsn.Jslt dst src _ | BpfInsn.Jsle dst src _ =>
      let both := Z.lor (reg_bit dst) (reg_bit src) in
      Some (if requires bt both then need_regs both bt else bt)
  | _ => Some bt
  end.

Definition backtrack_insn (insn : BpfInsn) (slots : option (Z * Z)) (bt : Backtrack) : Backtrack * BacktrackOutcome :=
  match backtrack_regs insn slots bt with
  | None => (match insn with
             | BpfInsn.Call _ | BpfInsn.CallKfunc _ => drop_regs (reg_bit 0) bt
             | _ => bt
             end, Fallback)
  | Some bt => (bt, if bt_is_empty bt then Resolved else Continue)
  end.

(** [b.precise = true]. *)
Definition mark_bounds (b : ScalarBounds) : ScalarBounds :=
  mkBounds (smin b) (smax b) (umin b) (umax b) (s32_min b) (s32_max b) (u32_min b) (u32_max b)
    (tnum b) true (id b) (delta b).
Definition mark_reg (r : RegState) : RegState :=
  match r with Scalar b => Scalar (mark_bounds b) | _ => r end.

(** The scalars of the registers and full spills that are selected. *)
Definition mark_state (reg_sel slot_sel : nat -> bool) (s : VerifierState) : VerifierState :=
  let st := stack s in
  set_stack
    (mkStack (bytes st)
       (imap (fun slot v => if slot_sel slot && full_spill st slot then fmap mark_reg v else v) (spilled st))
       (dynptr st))
    (set_regs (imap (fun r v => if reg_sel r then mark_reg v else v)) s).

Definition with_state (f : VerifierState -> VerifierState) (cp : Checkpoint) : Checkpoint :=
  mkCheckpoint (f (cp_state cp)) (parent cp) (branches cp) (hit_cnt cp) (miss_cnt cp) (segment cp).

(** The registers and slots that are looked at leave the requirement. *)
Definition mark_checkpoint (cps : list Checkpoint) (i : nat) (bt : Backtrack) : list Checkpoint * Backtrack :=
  (alter (with_state (mark_state (fun r => Z.testbit (bt_regs bt) (Z.of_nat r))
                                 (fun s => Z.testbit (bt_slots bt) (Z.of_nat s)))) i cps,
   mkBacktrack (Z.land (bt_regs bt) (unot 16 (Z.ones 11))) (Z.land (bt_slots bt) (unot 64 (Z.ones 64)))).

(** [None] in the walks over the chain: an index past the end (a panic), or out of
    fuel. *)
Fixpoint mark_all (fuel : nat) (cps : list Checkpoint) (last : option nat) : option (list Checkpoint) :=
  match last with
  | None => Some cps
  | Some i =>
      match fuel with
      | O => None
      | S fuel =>
          cp ← cps !! i;
          mark_all fuel (<[i := with_state (mark_state (fun _ => true) (fun _ => true)) cp]> cps) (parent cp)
      end
  end.
Definition mark_all_scalars_precise (cps : list Checkpoint) (last : option nat) : option (list Checkpoint) :=
  mark_all (S (length cps)) cps last.

(** A segment, last instruction first: the whole requirement is resolved, an
    instruction cannot be traced through, or what is left is required at its
    start; [None]: [program[entry.pc]] is past the end (a panic). *)
Inductive SegmentOutcome := SegResolved | SegFallback | SegStart (bt : Backtrack).
Fixpoint backtrack_segment (program : list BpfInsn) (seg : list HistEntry) (bt : Backtrack) : option SegmentOutcome :=
  match seg with
  | [] => Some (SegStart bt)
  | e :: seg =>
      insn ← program !! Z.to_nat (hist_pc e);
      match backtrack_insn insn (hist_slots e) bt with
      | (_, Resolved) => Some SegResolved
      | (bt, Fallback) => Some SegFallback
      | (bt, Continue) => backtrack_segment program seg bt
      end
  end.

(** The segments of the chain, deepest first. *)
Fixpoint chain_segments (fuel : nat) (cps : list Checkpoint) (last : option nat) : option (list (list HistEntry)) :=
  match last with
  | None => Some []
  | Some i =>
      match fuel with
      | O => None
      | S fuel => cp ← cps !! i; segs ← chain_segments fuel cps (parent cp); Some (segment cp :: segs)
      end
  end.

(** The loop over the segments. *)
Fixpoint mark_segments (program : list BpfInsn) (cps : list Checkpoint) (last : option nat)
    (segs : list (list HistEntry)) (bt : Backtrack) : option (list Checkpoint) :=
  match segs with
  | [] => mark_all_scalars_precise cps last
  | seg :: segs =>
      out ← backtrack_segment program (rev seg) bt;
      match out with
      | SegResolved => Some cps
      | SegFallback => mark_all_scalars_precise cps last
      | SegStart bt =>
          match last with
          | None => mark_all_scalars_precise cps last
          | Some i =>
              cp ← cps !! i;
              let '(cps, bt) := mark_checkpoint cps i bt in
              if bt_is_empty bt then Some cps else mark_segments program cps (parent cp) segs bt
          end
      end
  end.

(** The item's own history, then the segment of each checkpoint of the chain. *)
Definition mark_chain_precision (program : list BpfInsn) (cps : list Checkpoint) (last : option nat)
    (seg : list HistEntry) (regs : Z) : option (list Checkpoint) :=
  if regs =? 0 then Some cps
  else
    segs ← chain_segments (S (length cps)) cps last;
    mark_segments program cps last (seg :: segs) (mkBacktrack regs 0).

(** * Instructions of interest *)

(** Conditional jumps and the targets of unconditional jumps. *)
Definition compute_prune_points (program : list BpfInsn) : list bool :=
  imap (fun i insn =>
    is_conditional_branch insn ||
    existsb (fun p => match snd p with
                      | BpfInsn.Jmp offset => Z.of_nat (fst p) + 1 + offset =? Z.of_nat i
                      | _ => false
                      end) (imap pair program)) program.

Definition insn_dst (insn : BpfInsn) : Z :=
  match insn with
  | BpfInsn.MovImm dst _ | BpfInsn.MovReg dst _ | BpfInsn.Mov32Imm dst _ | BpfInsn.Mov32Reg dst _
  | BpfInsn.AddImm dst _ | BpfInsn.AddReg dst _ | BpfInsn.SubImm dst _ | BpfInsn.SubReg dst _
  | BpfInsn.AndImm dst _ | BpfInsn.AndReg dst _ | BpfInsn.OrImm dst _ | BpfInsn.OrReg dst _
  | BpfInsn.XorImm dst _ | BpfInsn.XorReg dst _ | BpfInsn.LshImm dst _ | BpfInsn.LshReg dst _
  | BpfInsn.RshImm dst _ | BpfInsn.RshReg dst _ | BpfInsn.ArshImm dst _ | BpfInsn.ArshReg dst _
  | BpfInsn.Add32Imm dst _ | BpfInsn.Add32Reg dst _ | BpfInsn.Sub32Imm dst _ | BpfInsn.Sub32Reg dst _
  | BpfInsn.And32Imm dst _ | BpfInsn.And32Reg dst _ | BpfInsn.Or32Imm dst _ | BpfInsn.Or32Reg dst _
  | BpfInsn.Xor32Imm dst _ | BpfInsn.Xor32Reg dst _ | BpfInsn.Lsh32Imm dst _ | BpfInsn.Lsh32Reg dst _
  | BpfInsn.Rsh32Imm dst _ | BpfInsn.Rsh32Reg dst _ | BpfInsn.Arsh32Imm dst _ | BpfInsn.Arsh32Reg dst _
  | BpfInsn.LdMem dst _ _ _ _ | BpfInsn.LdImm64 dst _ | BpfInsn.LdMapFd dst _ _ _ _
  | BpfInsn.LdMapValue dst _ _ _ _
  | BpfInsn.Jeq dst _ _ | BpfInsn.Jne dst _ _ | BpfInsn.Jgt dst _ _ | BpfInsn.Jge dst _ _
  | BpfInsn.Jlt dst _ _ | BpfInsn.Jle dst _ _ | BpfInsn.Jsgt dst _ _ | BpfInsn.Jsge dst _ _
  | BpfInsn.Jslt dst _ _ | BpfInsn.Jsle dst _ _
  | BpfInsn.JeqImm dst _ _ | BpfInsn.JneImm dst _ _ | BpfInsn.JgtImm dst _ _ | BpfInsn.JgeImm dst _ _
  | BpfInsn.JltImm dst _ _ | BpfInsn.JleImm dst _ _ | BpfInsn.JsgtImm dst _ _ | BpfInsn.JsgeImm dst _ _
  | BpfInsn.JsltImm dst _ _ | BpfInsn.JsleImm dst _ _
  | BpfInsn.Jset dst _ _ | BpfInsn.JsetImm dst _ _ | BpfInsn.Jmp32 dst _ _ _ _ => dst
  | _ => 0
  end.

Definition insn_src (insn : BpfInsn) : option Z :=
  match insn with
  | BpfInsn.MovReg _ src | BpfInsn.AddReg _ src | BpfInsn.SubReg _ src | BpfInsn.AndReg _ src
  | BpfInsn.OrReg _ src | BpfInsn.XorReg _ src | BpfInsn.LshReg _ src | BpfInsn.RshReg _ src
  | BpfInsn.ArshReg _ src | BpfInsn.Add32Reg _ src | BpfInsn.Sub32Reg _ src | BpfInsn.And32Reg _ src
  | BpfInsn.Or32Reg _ src | BpfInsn.Xor32Reg _ src | BpfInsn.Lsh32Reg _ src | BpfInsn.Rsh32Reg _ src
  | BpfInsn.Arsh32Reg _ src
  | BpfInsn.Jeq _ src _ | BpfInsn.Jne _ src _ | BpfInsn.Jgt _ src _ | BpfInsn.Jge _ src _
  | BpfInsn.Jlt _ src _ | BpfInsn.Jle _ src _ | BpfInsn.Jsgt _ src _ | BpfInsn.Jsge _ src _
  | BpfInsn.Jslt _ src _ | BpfInsn.Jsle _ src _ => Some src
  | _ => None
  end.

Definition is_pointer (r : RegState) : bool :=
  match r with Uninit | Scalar _ => false | _ => true end.

(** The operations whose scalar operand moves a pointer. *)
Definition moves_pointer (insn : BpfInsn) : bool :=
  match insn with
  | BpfInsn.AddReg _ _ | BpfInsn.SubReg _ _ | BpfInsn.AndReg _ _ | BpfInsn.OrReg _ _ | BpfInsn.XorReg _ _
  | BpfInsn.Add32Reg _ _ | BpfInsn.Sub32Reg _ _ => true
  | _ => false
  end.

(** The registers whose value decided the instruction's successors or result. *)
Definition precision_regs (insn : BpfInsn) (s : VerifierState) (nexts : list successor) : Z :=
  let dst := insn_dst insn in
  if is_conditional_branch insn && (length nexts =? 1)%nat then
    match insn_src insn with
    | Some src => Z.lor (reg_bit dst) (reg_bit src)
    | None => reg_bit dst
    end
  else
    match insn_src insn with
    | Some src =>
        if moves_pointer insn && is_pointer (reg s dst) && is_scalar (Some (reg s src)) then reg_bit src
        else if match insn with BpfInsn.AddReg _ _ => true | _ => false end &&
                is_scalar (Some (reg s dst)) && is_pointer (reg s src) then reg_bit dst
        else 0
    | None => 0
    end.

Definition hist_entry (pc : Z) (insn : BpfInsn) (s : VerifierState) : HistEntry :=
  let slots base offset size :=
    if is_stack_ptr (reg s base) then
      match stack_access_range pc base s offset (MemSize.bytes size) with Ok r => Some r | Err _ => None end
    else None in
  mkHist pc match insn with
            | BpfInsn.LdMem _ base offset size _ | BpfInsn.StMem _ base offset size
            | BpfInsn.StMemImm _ base offset size => slots base offset size
            | _ => None
            end.

(** * The exploration *)

Record Explore := mkExplore {
  worklist : list WorkItem;              (* the head is popped next *)
  checkpoints : list Checkpoint;
  visited : gmap Z (list nat);
  analyzed : gmap Z (list VerifierState);
  loop_iters : gmap Z Z;
  steps : Z;
  insn_processed : Z;
  jmps_processed : Z;
  prev_insn_processed : Z;
  prev_jmps_processed : Z
}.

Definition start_explore (limits : VerifierLimits) : Explore :=
  mkExplore [mkItem 0 (initial_with (limit_prog_type limits)) None []] [] ∅ ∅ ∅ 0 0 0 0 0.

(** The stored states the arrival [cleaned] is compared with. *)
Record Compared := mkCompared {
  cmp_checkpoints : list Checkpoint;
  add_new_state : bool;
  evict : list nat;
  pruned : bool
}.

Definition count_hit (cp : Checkpoint) : Checkpoint :=
  mkCheckpoint (cp_state cp) (parent cp) (branches cp) (hit_cnt cp + 1) (miss_cnt cp) (segment cp).
Definition count_miss (add : bool) (cp : Checkpoint) : Checkpoint :=
  if add then mkCheckpoint (cp_state cp) (parent cp) (branches cp) (hit_cnt cp) (miss_cnt cp + 1) (segment cp)
  else cp.

(** The loop over the checkpoints of the instruction; [throttle]: few
    instructions and jumps were processed since the last stored state. *)
Fixpoint compare_checkpoints (pc : Z) (cleaned : VerifierState) (live_mask : Z) (throttle : bool)
    (l : list nat) (c : Compared) : result VerificationFailure Compared :=
  match l with
  | [] => Ok c
  | i :: l =>
      match cmp_checkpoints c !! i with
      | None => fail pc Panicked
      | Some cp =>
          let miss (add : bool) :=
            let cp := count_miss add cp in
            compare_checkpoints pc cleaned live_mask throttle l
              (mkCompared (<[i := cp]> (cmp_checkpoints c)) add
                 (if hit_cnt cp * 3 + 3 <? miss_cnt cp then evict c ++ [i] else evict c) false) in
          if 0 <? branches cp then
            if states_maybe_looping (cp_state cp) cleaned && states_equal (cp_state cp) cleaned Exact live_mask
            then fail pc InfiniteLoop
            else miss (if throttle then false else add_new_state c)
          else if states_equal (cp_state cp) cleaned NotExact live_mask
          then Ok (mkCompared (<[i := count_hit cp]> (cmp_checkpoints c)) (add_new_state c) (evict c) true)
          else miss (add_new_state c)
      end
  end.

(** [is_state_visited]: at a prune point the arrival is compared with the stored
    states of the instruction. *)
Definition compare_arrival (e : Explore) (item : WorkItem) (cleaned : VerifierState) (live_mask : Z)
  : result VerificationFailure Compared :=
  let insns := insn_processed e - prev_insn_processed e in
  let jmps := jmps_processed e - prev_jmps_processed e in
  let force := (64 <=? length (history item))%nat in
  compare_checkpoints (item_pc item) cleaned live_mask ((insns <? 100) && (jmps <? 20))
    (default [] (visited e !! item_pc item))
    (mkCompared (checkpoints e) (force || (8 <=? insns) && (2 <=? jmps)) [] false).

(** A stored state of the popped item, and the checkpoint its path is now under. *)
Definition store_state (e : Explore) (item : WorkItem) (cleaned : VerifierState) (c : Compared)
  : Explore * option nat :=
  let pc := item_pc item in
  let kept :=
    if (length (evict c) =? 0)%nat then visited e
    else alter (List.filter (fun i => negb (existsb (Nat.eqb i) (evict c)))) pc (visited e) in
  if add_new_state c then
    let cp_idx := length (cmp_checkpoints c) in
    (mkExplore (worklist e)
       (cmp_checkpoints c ++ [mkCheckpoint cleaned (last_cp item) 0 0 0 (history item)])
       (<[pc := default [] (kept !! pc) ++ [cp_idx]]> kept) (analyzed e) (loop_iters e) (steps e)
       (insn_processed e) (jmps_processed e) (insn_processed e) (jmps_processed e),
     Some cp_idx)
  else
    (mkExplore (worklist e) (cmp_checkpoints c) kept (analyzed e) (loop_iters e) (steps e)
       (insn_processed e) (jmps_processed e) (prev_insn_processed e) (prev_jmps_processed e),
     last_cp item).

(** The item leaves the worklist: its chain loses a pending path, and the new
    items [items], the first one popped next, are pushed under [under]. *)
Definition set_checkpoints (cps : list Checkpoint) (e : Explore) : Explore :=
  mkExplore (worklist e) cps (visited e) (analyzed e) (loop_iters e) (steps e)
    (insn_processed e) (jmps_processed e) (prev_insn_processed e) (prev_jmps_processed e).
Definition push_item (item : WorkItem) (e : Explore) : option Explore :=
  cps ← bump_branches (checkpoints e) (last_cp item) 1;
  Some (mkExplore (item :: worklist e) cps (visited e) (analyzed e)
    (loop_iters e) (steps e) (insn_processed e) (jmps_processed e) (prev_insn_processed e) (prev_jmps_processed e)).
Definition push_items (items : list WorkItem) (e : Explore) : option Explore :=
  fold_left (fun e item => e ← e; push_item item e) items (Some e).
Definition consume (item : WorkItem) (e : Explore) : option Explore :=
  cps ← bump_branches (checkpoints e) (last_cp item) (-1); Some (set_checkpoints cps e).

(** A panic of one of these walks. *)
Definition or_panic {A} (pc : Z) (m : option A) : result VerificationFailure A :=
  match m with Some a => Ok a | None => fail pc Panicked end.

(** The limits, the record of the analyzed arrival and the count of jumps. *)
Definition is_call (insn : BpfInsn) : bool := match insn with BpfInsn.Call _ => true | _ => false end.
Definition record_arrival (limits : VerifierLimits) (loop_heads : list Z) (pc : Z) (insn : BpfInsn)
    (cleaned : VerifierState) (e : Explore) : result VerificationFailure Explore :=
  let iters := default 0 (loop_iters e !! pc) + 1 in
  let is_head := existsb (Z.eqb pc) loop_heads in
  if is_head && (max_loop_iterations limits <? iters) then fail pc (LoopsExceeded (max_loop_iterations limits))
  else if max_states limits <? Z.of_nat (length (checkpoints e)) then fail pc (StatesExceeded (max_states limits))
  else
    Ok (mkExplore (worklist e) (checkpoints e) (visited e)
          (<[pc := default [] (analyzed e !! pc) ++ [cleaned]]> (analyzed e))
          (if is_head then <[pc := iters]> (loop_iters e) else loop_iters e) (steps e) (insn_processed e)
          (if is_control_flow insn || is_call insn then jmps_processed e + 1 else jmps_processed e)
          (prev_insn_processed e) (prev_jmps_processed e)).

(** The caller's state after the exit of a subprogram; without a saved caller
    only the depth changes. *)
Definition returned_state (s : VerifierState) : VerifierState :=
  default (mkState (regs s) (stack s) (saved s) (curframe s - 1) (ret_pc s) (refs s) (refs_cnt s) (prog_type s))
    (return_from_subprog s).

(** An exit of the program: [R0] is a scalar and no reference is held. *)
Definition check_exit (pc : Z) (s : VerifierState) : result VerificationFailure unit :=
  match reg s 0 with
  | Uninit => fail pc ExitUninitialized
  | Scalar _ => if 0 <? refs_cnt s then fail pc (UnreleasedReference (default 0 (refs s !! 0%nat))) else Ok tt
  | _ => fail pc ExitNotScalar
  end.

(** The successors of the item, pushed in reverse, and the precision they require. *)
Definition expand (program : list BpfInsn) (item : WorkItem) (insn : BpfInsn) (under : option nat) (e : Explore)
  : result VerificationFailure Explore :=
  let pc := item_pc item in
  let? nexts := successors pc insn (item_state item) in
  let stored := negb (bool_decide (under = last_cp item)) in
  let needed := precision_regs insn (item_state item) nexts in
  let? cps :=
    or_panic pc (mark_chain_precision program (checkpoints e) under (if stored then [] else history item) needed) in
  let entry := hist_entry pc insn (item_state item) in
  let hist := if stored then [entry] else history item ++ [entry] in
  let item_of (next : successor) := mkItem (fst next) (snd next) under hist in
  or_panic pc (push_items (map item_of (rev nexts)) (set_checkpoints cps e) ≫= consume item).

(** One iteration: the popped item is pruned, ends, returns or is expanded. *)
Definition process (program : list BpfInsn) (loop_heads : list Z) (limits : VerifierLimits) (l : Liveness)
    (prune_points : list bool) (item : WorkItem) (e : Explore) : result VerificationFailure Explore :=
  let pc := item_pc item in
  if max_steps limits <? steps e then fail pc (StepsExceeded (max_steps limits))
  else
    match program !! Z.to_nat pc with
    | None => fail pc PcOutOfRange
    | Some insn =>
        let live_mask := live_regs_before l (Z.to_nat pc) in
        let cleaned := clean_state (item_state item) live_mask (live_stack_before l (Z.to_nat pc)) in
        let? compared :=
          if default false (prune_points !! Z.to_nat pc) then compare_arrival e item cleaned live_mask
          else Ok (mkCompared (checkpoints e) false [] false) in
        let c := (compared : Compared) in
        if pruned c then or_panic pc (consume item (set_checkpoints (cmp_checkpoints c) e))
        else
          let '(e, under) := store_state e item cleaned c in
          let? e := record_arrival limits loop_heads pc insn cleaned e in
          match insn with
          | BpfInsn.Exit =>
              if 0 <? curframe (item_state item) then
                if is_stack_ptr (reg (item_state item) 0) then fail pc StackPointerReturned
                else
                  or_panic pc
                    (push_item (mkItem (ret_pc (item_state item)) (returned_state (item_state item))
                                  (last_cp item) []) e ≫= consume item)
              else
                let? _ := check_exit pc (item_state item) in
                or_panic pc (consume item e)
          | _ => expand program item insn under e
          end
    end.

(** The popped item and the counters of the iteration. *)
Definition pop (e : Explore) : option (WorkItem * Explore) :=
  match worklist e with
  | [] => None
  | item :: rest =>
      Some (item, mkExplore rest (checkpoints e) (visited e) (analyzed e) (loop_iters e) (steps e + 1)
                    (insn_processed e + 1) (jmps_processed e) (prev_insn_processed e) (prev_jmps_processed e))
  end.

(** [None]: out of fuel. *)
Fixpoint explore (fuel : nat) (program : list BpfInsn) (loop_heads : list Z) (limits : VerifierLimits)
    (l : Liveness) (prune_points : list bool) (e : Explore) : option (result VerificationFailure Explore) :=
  match fuel with
  | O => None
  | S fuel =>
      match pop e with
      | None => Some (Ok e)
      | Some (item, e) =>
          match process program loop_heads limits l prune_points item e with
          | Ok e => explore fuel program loop_heads limits l prune_points e
          | Err f => Some (Err f)
          end
      end
  end.

(** Every iteration counts a step. *)
Definition explore_fuel (limits : VerifierLimits) : nat := Z.to_nat (max_steps limits) + 2.

Definition verify_mini_core (program : list BpfInsn) (loop_heads : list Z) (limits : VerifierLimits)
  : option (result VerificationFailure (Z * gmap Z (list VerifierState))) :=
  match analyze program with
  | None => None
  | Some (Err _) => Some (fail 0 Panicked)
  | Some (Ok l) =>
      match explore (explore_fuel limits) program loop_heads limits l (compute_prune_points program)
              (start_explore limits) with
      | Some (Ok e) => Some (Ok (Z.of_nat (length (checkpoints e)), analyzed e))
      | Some (Err f) => Some (Err f)
      | None => None
      end
  end.

(** * The parent chains *)

(** The checkpoints from [last] up to the root, on the list of parents. *)
Fixpoint chain_from (fuel : nat) (ps : list (option nat)) (last : option nat) : list nat :=
  match fuel, last with
  | S fuel, Some i => i :: match ps !! i with Some p => chain_from fuel ps p | None => [] end
  | _, _ => []
  end.
Definition chain (ps : list (option nat)) (last : option nat) : list nat := chain_from (S (length ps)) ps last.

(** Parents are older; [last] is a checkpoint. *)
Definition below (last : option nat) (n : nat) : Prop := match last with Some i => (i < n)%nat | None => True end.
Definition tree_ok (ps : list (option nat)) : Prop := forall i p, ps !! i = Some p -> below p i.

Lemma chain_fuel ps fuel fuel' last n :
  tree_ok ps -> below last n -> (n <= fuel)%nat -> (n <= fuel')%nat ->
  chain_from fuel ps last = chain_from fuel' ps last.
Proof.
  intros Ht. revert fuel' last n. induction fuel as [|fuel IH]; intros fuel' last n Hb Hf Hf';
    (destruct last as [i|]; [simpl in Hb|by destruct fuel']); [lia|].
  destruct fuel' as [|fuel']; [lia|]. simpl. f_equal. destruct (ps !! i) as [p|] eqn:Hp; [|done].
  apply (IH fuel' p i); [by apply Ht|lia|lia].
Qed.

Lemma chain_below ps fuel last n j : tree_ok ps -> below last n -> j ∈ chain_from fuel ps last -> (j < n)%nat.
Proof.
  intros Ht. revert last n. induction fuel as [|fuel IH]; intros last n Hb Hj; [by destruct last; simpl in Hj; set_solver|].
  destruct last as [i|]; simpl in Hj; [|set_solver]. simpl in Hb.
  apply elem_of_cons in Hj as [->|Hj]; [done|]. destruct (ps !! i) as [p|] eqn:Hp; [|set_solver].
  pose proof (IH p i (Ht _ _ Hp) Hj). lia.
Qed.

Lemma chain_unfold ps i p :
  tree_ok ps -> ps !! i = Some p -> chain ps (Some i) = i :: chain ps p.
Proof.
  intros Ht Hp. unfold chain at 1. cbn [chain_from]. rewrite Hp. f_equal.
  pose proof (lookup_lt_Some _ _ _ Hp). apply (chain_fuel _ _ _ _ i); [done|by apply Ht|lia|lia].
Qed.

Lemma chain_from_app ps p fuel last :
  tree_ok ps -> below last (length ps) -> chain_from fuel (ps ++ [p]) last = chain_from fuel ps last.
Proof.
  intros Ht. revert last. induction fuel as [|fuel IH]; intros last Hb; [by destruct last|].
  destruct last as [i|]; [|done]. simpl in *. f_equal. rewrite lookup_app_l by done.
  destruct (ps !! i) as [q|] eqn:Hq; [|done]. apply IH. specialize (Ht _ _ Hq).
  destruct q; [simpl in *; lia|done].
Qed.

Lemma chain_app ps p last :
  tree_ok ps -> below last (length ps) -> chain (ps ++ [p]) last = chain ps last.
Proof.
  intros Ht Hb. unfold chain. rewrite chain_from_app by done.
  apply (chain_fuel _ _ _ _ (length ps)); try done; [rewrite length_app; lia|lia].
Qed.

Lemma imap_same {A} (f : nat -> A -> A) l : (forall i x, l !! i = Some x -> f i x = x) -> imap f l = l.
Proof.
  intros H. apply list_eq. intros i. rewrite list_lookup_imap. destruct (l !! i) as [x|] eqn:Hx; [|done].
  simpl. by rewrite (H _ _ Hx).
Qed.

(** ** The walks without the panics *)

Fixpoint bumped_chain (fuel : nat) (cps : list Checkpoint) (last : option nat) (delta : Z) : list Checkpoint :=
  match fuel, last with
  | S fuel, Some i =>
      match cps !! i with
      | Some cp => bumped_chain fuel (<[i := add_branches delta cp]> cps) (parent cp) delta
      | None => cps
      end
  | _, _ => cps
  end.
Definition bumped (cps : list Checkpoint) (last : option nat) (delta : Z) : list Checkpoint :=
  bumped_chain (S (length cps)) cps last delta.
Definition pushed (e : Explore) (item : WorkItem) : Explore :=
  mkExplore (item :: worklist e) (bumped (checkpoints e) (last_cp item) 1) (visited e) (analyzed e)
    (loop_iters e) (steps e) (insn_processed e) (jmps_processed e) (prev_insn_processed e) (prev_jmps_processed e).
Definition consumed (item : WorkItem) (e : Explore) : Explore :=
  set_checkpoints (bumped (checkpoints e) (last_cp item) (-1)) e.

Lemma or_panic_ok {A} pc (m : option A) a : or_panic pc m = Ok a -> m = Some a.
Proof. destruct m; [by intros [= ->]|done]. Qed.

Lemma bump_chain_inv fuel delta : forall cps last cps',
  bump_chain fuel cps last delta = Some cps' -> cps' = bumped_chain fuel cps last delta.
Proof.
  induction fuel as [|fuel IH]; intros cps last cps'; destruct last as [i|]; cbn [bump_chain bumped_chain];
    try (by intros [= ->]).
  destruct (cps !! i) as [cp|]; [|done]. destruct (_ <? 0); [done|]. apply IH.
Qed.
Lemma push_item_inv it e e' : push_item it e = Some e' -> e' = pushed e it.
Proof. unfold push_item. intros (cps & Hb%bump_chain_inv & [= <-])%bind_Some. by rewrite Hb. Qed.
Lemma consume_inv it e e' : consume it e = Some e' -> e' = consumed it e.
Proof. unfold consume. intros (cps & Hb%bump_chain_inv & [= <-])%bind_Some. by rewrite Hb. Qed.
Lemma push_items_none items : fold_left (fun e it => e ← e; push_item it e) items (None : option Explore) = None.
Proof. by induction items. Qed.
Lemma push_items_inv items : forall e e', push_items items e = Some e' -> e' = fold_left pushed items e.
Proof.
  unfold push_items. induction items as [|it items IH]; intros e e'; [by intros [= ->]|]. cbn [fold_left].
  change (Some e ≫= (fun e => push_item it e)) with (push_item it e).
  destruct (push_item it e) as [e1|] eqn:Hp; [|by rewrite push_items_none]. rewrite <- (push_item_inv _ _ _ Hp). apply IH.
Qed.

(** [bump_branches] changes exactly the checkpoints of the chain, once each. *)
Lemma bumped_chain_spec fuel delta : forall cps last n,
  tree_ok (map parent cps) -> below last n -> (n <= fuel)%nat ->
  bumped_chain fuel cps last delta =
  imap (fun i cp => if bool_decide (i ∈ chain_from fuel (map parent cps) last) then add_branches delta cp else cp) cps.
Proof.
  induction fuel as [|fuel IH]; intros cps last n Ht Hb Hf;
    (destruct last as [i|]; [simpl in Hb|]); [lia| | |];
    try (symmetry; apply imap_same; intros; by case_bool_decide; [set_solver|]).
  cbn [bumped_chain chain_from]. rewrite list_lookup_fmap. destruct (cps !! i) as [cp|] eqn:Hcp; simpl.
  - assert (Hpar : map parent (<[i:=add_branches delta cp]> cps) = map parent cps).
    { rewrite list_fmap_insert. apply list_insert_id. by rewrite list_lookup_fmap, Hcp. }
    assert (Hbelow : below (parent cp) i) by (apply Ht; by rewrite list_lookup_fmap, Hcp).
    rewrite (IH _ _ i) by (try rewrite Hpar; try done; lia). rewrite Hpar.
    apply list_eq. intros j. rewrite !list_lookup_imap. destruct (decide (j = i)) as [->|Hne].
    + pose proof (lookup_lt_Some _ _ _ Hcp). rewrite list_lookup_insert_eq by done. rewrite Hcp. simpl.
      rewrite (bool_decide_true (i ∈ i :: _)) by left. case_bool_decide as Hin; [|done].
      pose proof (chain_below _ _ _ _ _ Ht Hbelow Hin). lia.
    + rewrite list_lookup_insert_ne by done. destruct (cps !! j); [|done]. simpl. f_equal.
      rewrite (bool_decide_ext (j ∈ i :: _) (j ∈ chain_from fuel (map parent cps) (parent cp))); [done|].
      rewrite elem_of_cons. tauto.
  - apply lookup_ge_None in Hcp. symmetry. apply imap_same. intros j x Hj. apply lookup_lt_Some in Hj.
    case_bool_decide; [|done]. match goal with Hj : j ∈ _ |- _ => apply list_elem_of_singleton in Hj end. lia.
Qed.

(** * Pending paths *)

Abbreviation parents cps := (map parent cps).

(** The items whose chain contains the checkpoint [i]. *)
Definition pending (ps : list (option nat)) (items : list WorkItem) (i : nat) : Z :=
  Z.of_nat (length (List.filter (fun it => bool_decide (i ∈ chain ps (last_cp it))) items)).

(** [extra]: the popped item, until it is consumed. *)
Record counted (extra : list WorkItem) (e : Explore) : Prop := {
  counted_tree : tree_ok (parents (checkpoints e));
  counted_items : Forall (fun it => below (last_cp it) (length (checkpoints e))) (extra ++ worklist e);
  counted_branches i cp :
    checkpoints e !! i = Some cp -> branches cp = pending (parents (checkpoints e)) (extra ++ worklist e) i
}.

Lemma pending_cons ps it items i :
  pending ps (it :: items) i = (if bool_decide (i ∈ chain ps (last_cp it)) then 1 else 0) + pending ps items i.
Proof. unfold pending. simpl. case_bool_decide; simpl; lia. Qed.

Lemma pending_perm ps l l' i : l ≡ₚ l' -> pending ps l i = pending ps l' i.
Proof. intros H. induction H; rewrite ?pending_cons; lia. Qed.

Lemma pending_none ps items n i :
  tree_ok ps -> Forall (fun it => below (last_cp it) n) items -> (n <= i)%nat -> pending ps items i = 0.
Proof.
  intros Ht Hf Hi. induction Hf as [|it items Hb Hf IH]; [done|]. rewrite pending_cons, IH.
  case_bool_decide as Hin; [|done]. pose proof (chain_below _ _ _ _ _ Ht Hb Hin). lia.
Qed.

Lemma bumped_spec cps last delta :
  tree_ok (parents cps) -> below last (length cps) ->
  bumped cps last delta =
  imap (fun i cp => if bool_decide (i ∈ chain (parents cps) last) then add_branches delta cp else cp) cps.
Proof.
  intros Ht Hb. unfold bumped, chain. rewrite length_map. by apply (bumped_chain_spec _ _ _ _ (length cps)); [| |lia].
Qed.

Lemma bumped_chain_parents fuel : forall cps last delta, parents (bumped_chain fuel cps last delta) = parents cps.
Proof.
  induction fuel as [|fuel IH]; intros cps last delta; [done|]. destruct last as [i|]; [|done].
  simpl. destruct (cps !! i) as [cp|] eqn:Hcp; [|done]. rewrite IH, list_fmap_insert. apply list_insert_id.
  by rewrite list_lookup_fmap, Hcp.
Qed.

Lemma bumped_parents cps last delta : parents (bumped cps last delta) = parents cps.
Proof. apply bumped_chain_parents. Qed.

Lemma bumped_length cps last delta : length (bumped cps last delta) = length cps.
Proof. by rewrite <- (length_map parent), bumped_parents, length_map. Qed.

(** A path that enters ([delta] 1) or leaves ([delta] -1) the pending ones. *)
Lemma bump_counted cps last delta i cp :
  tree_ok (parents cps) -> below last (length cps) -> bumped cps last delta !! i = Some cp ->
  exists cp0, cps !! i = Some cp0 /\
    branches cp = branches cp0 + (if bool_decide (i ∈ chain (parents cps) last) then delta else 0).
Proof.
  intros Ht Hb. rewrite bumped_spec by done. rewrite list_lookup_imap.
  destruct (cps !! i) as [cp0|]; [|done]. simpl. intros [= <-]. exists cp0. split; [done|].
  case_bool_decide; simpl; lia.
Qed.

Lemma push_counted extra e it :
  below (last_cp it) (length (checkpoints e)) -> counted extra e -> counted extra (pushed e it).
Proof.
  intros Hb [Ht Hi Hc]. split; cbn [pushed checkpoints worklist].
  - by rewrite bumped_parents.
  - rewrite bumped_length. apply Forall_app in Hi as [H1 H2]. apply Forall_app. split; [done|by constructor].
  - intros i cp Hcp. rewrite bumped_parents.
    apply bump_counted in Hcp as (cp0 & Hcp0 & ->); [|done|done].
    rewrite (Hc _ _ Hcp0), (pending_perm _ (extra ++ it :: worklist e) (it :: extra ++ worklist e))
      by (symmetry; apply Permutation_middle).
    rewrite pending_cons. lia.
Qed.

Lemma consume_counted item extra e : counted (item :: extra) e -> counted extra (consumed item e).
Proof.
  intros [Ht Hi Hc]. simpl in Hi. apply Forall_cons in Hi as [Hb Hi].
  split; cbn [consumed set_checkpoints checkpoints worklist].
  - by rewrite bumped_parents.
  - by rewrite bumped_length.
  - intros i cp Hcp. rewrite bumped_parents.
    apply bump_counted in Hcp as (cp0 & Hcp0 & ->); [|done|done].
    rewrite (Hc _ _ Hcp0). simpl. rewrite pending_cons. case_bool_decide; lia.
Qed.

(** Changes that keep parents and branches. *)
Lemma set_counted extra cps e :
  parents cps = parents (checkpoints e) -> map branches cps = map branches (checkpoints e) ->
  counted extra e -> counted extra (set_checkpoints cps e).
Proof.
  intros Hp Hb [Ht Hi Hc]. assert (Hl : length cps = length (checkpoints e)) by (rewrite <- (length_map parent), Hp; apply length_map).
  split; cbn [set_checkpoints checkpoints worklist].
  - by rewrite Hp.
  - by rewrite Hl.
  - intros i cp Hcp. rewrite Hp.
    assert (Hi' : map branches cps !! i = Some (branches cp)) by (by rewrite list_lookup_fmap, Hcp).
    rewrite Hb, list_lookup_fmap in Hi'. destruct (checkpoints e !! i) as [cp0|] eqn:Hcp0; [|done].
    injection Hi' as <-. by apply Hc.
Qed.

Lemma fold_push_counted extra (n : nat) items : forall e,
  Forall (fun it => below (last_cp it) n) items -> (n <= length (checkpoints e))%nat -> counted extra e ->
  counted extra (fold_left pushed items e).
Proof.
  induction items as [|it items IH]; intros e Hf Hn Hc; [done|]. apply Forall_cons in Hf as [Hit Hf]. simpl.
  apply IH; [done|cbn [pushed checkpoints]; by rewrite bumped_length|].
  apply push_counted; [|done]. destruct (last_cp it); [simpl in *; lia|done].
Qed.

(** A stored state has no pending path yet. *)
Lemma store_counted extra item cleaned c e e' under :
  counted (item :: extra) (set_checkpoints (cmp_checkpoints c) e) -> store_state e item cleaned c = (e', under) ->
  counted (item :: extra) e' /\ below under (length (checkpoints e')).
Proof.
  intros Hc. unfold store_state. destruct (add_new_state c); intros [= <- <-].
  - destruct Hc as [Ht Hi Hb]. cbn [set_checkpoints checkpoints worklist] in *.
    apply Forall_cons in Hi as [Hbi Hi]. split; [|unfold below; cbn [checkpoints]; rewrite length_app; cbn [length]; lia].
    set (cps := cmp_checkpoints c) in *. set (new := mkCheckpoint _ _ _ _ _ _).
    assert (Hnew : tree_ok (parents (cps ++ [new]))).
    { intros i p. rewrite map_app. intros Hp. apply lookup_app_Some in Hp as [Hp|[Hge Hp]]; [by apply Ht|].
      rewrite length_map in Hp, Hge. apply list_lookup_singleton_Some in Hp as [Hz <-].
      assert (i = length cps \/ (length cps < i)%nat) as [->|?] by lia; [done|].
      destruct (last_cp item); [simpl in *; lia|done]. }
    split; cbn [checkpoints worklist]; [done| |].
    + apply (Forall_impl (fun it => below (last_cp it) (length cps))); [by constructor|]. intros it. rewrite length_app. simpl.
      destruct (last_cp it); simpl; [lia|done].
    + intros i cp Hcp. rewrite map_app. change (map parent [new]) with [parent new].
      change ((item :: extra) ++ worklist e) with (item :: extra ++ worklist e).
      assert (Heq : pending (parents cps ++ [parent new]) (item :: extra ++ worklist e) i =
                    pending (parents cps) (item :: extra ++ worklist e) i).
      { unfold pending. f_equal. f_equal. apply List.filter_ext_in. intros it Hit.
        rewrite chain_app; [done|done|]. rewrite length_map.
        destruct Hit as [<-|Hit]; [done|]. by apply (proj1 (List.Forall_forall _ _) Hi). }
      rewrite Heq. apply lookup_app_Some in Hcp as [Hcp|[Hlen Hcp]]; [by apply Hb|].
      apply list_lookup_singleton_Some in Hcp as [Hz <-]. symmetry. simpl (branches new).
      apply (pending_none _ _ (length cps)); [done|by constructor|done].
  - destruct Hc as [Ht Hi Hb]. cbn [set_checkpoints checkpoints worklist] in *.
    apply Forall_cons in Hi as [Hbi Hi]. split; [|done]. by split; [|by constructor|].
Qed.

(** * What pruning and precision marks keep *)

Definition unmark_reg (r : RegState) : RegState :=
  match r with
  | Scalar b => Scalar (mkBounds (smin b) (smax b) (umin b) (umax b) (s32_min b) (s32_max b) (u32_min b) (u32_max b)
                          (tnum b) false (id b) (delta b))
  | _ => r
  end.
(** The state without the precision marks of its current frame. *)
Definition unmarked (s : VerifierState) : VerifierState :=
  set_stack (mkStack (bytes (stack s)) (map (fmap unmark_reg) (spilled (stack s))) (dynptr (stack s)))
    (set_regs (map unmark_reg) s).

Definition kept (cp : Checkpoint) : option nat * (Z * list HistEntry) * VerifierState :=
  (parent cp, (branches cp, segment cp), unmarked (cp_state cp)).

Lemma map_insert_same {A B} (f : A -> B) l i x y : l !! i = Some y -> f x = f y -> map f (<[i:=x]> l) = map f l.
Proof.
  intros Hy Hf. rewrite list_fmap_insert. apply list_insert_id. by rewrite list_lookup_fmap, Hy, Hf.
Qed.

Lemma unmark_mark r : unmark_reg (mark_reg r) = unmark_reg r.
Proof. by destruct r. Qed.

Lemma map_imap_same {A B} (f : A -> B) (g : nat -> A -> A) l :
  (forall i x, f (g i x) = f x) -> map f (imap g l) = map f l.
Proof.
  intros H. apply list_eq. intros i. rewrite !list_lookup_fmap, list_lookup_imap.
  destruct (l !! i); simpl; [by rewrite H|done].
Qed.

Lemma unmarked_mark reg_sel slot_sel s : unmarked (mark_state reg_sel slot_sel s) = unmarked s.
Proof.
  unfold unmarked, mark_state, set_stack, set_regs. cbn [regs stack spilled bytes dynptr saved curframe ret_pc refs refs_cnt prog_type].
  rewrite !map_imap_same; [done| |].
  - intros i x. destruct (slot_sel i && full_spill (stack s) i); [|done].
    destruct x; [|done]. simpl. by rewrite unmark_mark.
  - intros i x. destruct (reg_sel i); [apply unmark_mark|done].
Qed.

Lemma mark_checkpoint_kept cps i bt : map kept (fst (mark_checkpoint cps i bt)) = map kept cps.
Proof.
  unfold mark_checkpoint. simpl. apply list_eq. intros j. rewrite !list_lookup_fmap.
  destruct (decide (i = j)) as [<-|Hne].
  - rewrite list_lookup_alter_eq. destruct (cps !! i); [|done]. simpl. f_equal.
    unfold kept. simpl. by rewrite unmarked_mark.
  - by rewrite list_lookup_alter_ne.
Qed.

Lemma mark_all_kept fuel : forall cps last cps', mark_all fuel cps last = Some cps' -> map kept cps' = map kept cps.
Proof.
  induction fuel as [|fuel IH]; intros cps last cps'; destruct last as [i|]; simpl; try (by intros [= ->]).
  intros (cp & Hcp & ->%IH)%bind_Some. apply (map_insert_same _ _ _ _ cp); [done|].
  unfold kept. simpl. by rewrite unmarked_mark.
Qed.

Lemma mark_segments_kept program segs : forall cps last bt cps',
  mark_segments program cps last segs bt = Some cps' -> map kept cps' = map kept cps.
Proof.
  induction segs as [|seg segs IH]; intros cps last bt cps'; cbn [mark_segments]; [apply mark_all_kept|].
  intros (out & _ & H)%bind_Some. destruct out as [| |bt1]; [by injection H as <-|by eapply mark_all_kept|].
  destruct last as [i|]; [|by eapply mark_all_kept]. apply bind_Some in H as (cp & _ & H).
  pose proof (mark_checkpoint_kept cps i bt1) as Hm. destruct (mark_checkpoint cps i bt1) as [cps1 bt2]. cbn [fst] in Hm.
  destruct (bt_is_empty bt2); [by injection H as <-|]. apply IH in H. by rewrite H.
Qed.

Lemma mark_chain_kept program cps last seg regs cps' :
  mark_chain_precision program cps last seg regs = Some cps' -> map kept cps' = map kept cps.
Proof.
  unfold mark_chain_precision. destruct (regs =? 0); [by intros [= ->]|].
  intros (segs & _ & H)%bind_Some. by eapply mark_segments_kept.
Qed.

(** A comparison keeps the stored states; a pruned arrival equals one of them. *)
Lemma compare_ok pc cleaned lm throttle l : forall c c',
  compare_checkpoints pc cleaned lm throttle l c = Ok c' -> pruned c = false ->
  map kept (cmp_checkpoints c') = map kept (cmp_checkpoints c) /\
  (pruned c' = true -> exists i cp, i ∈ l /\ cmp_checkpoints c' !! i = Some cp /\
     branches cp <= 0 /\ states_equal (cp_state cp) cleaned NotExact lm = true).
Proof.
  induction l as [|i l IH]; intros c c'; simpl; [intros [= <-] Hp; split; [done|by rewrite Hp]|].
  destruct (cmp_checkpoints c !! i) as [cp|] eqn:Hcp; [|done].
  assert (Hmiss : forall add, 
    compare_checkpoints pc cleaned lm throttle l
      (mkCompared (<[i := count_miss add cp]> (cmp_checkpoints c)) add
         (if hit_cnt (count_miss add cp) * 3 + 3 <? miss_cnt (count_miss add cp) then evict c ++ [i] else evict c) false)
    = Ok c' -> map kept (cmp_checkpoints c') = map kept (cmp_checkpoints c) /\
    (pruned c' = true -> exists i0 cp, i0 ∈ i :: l /\ cmp_checkpoints c' !! i0 = Some cp /\
       branches cp <= 0 /\ states_equal (cp_state cp) cleaned NotExact lm = true)).
  { intros add Hk. apply IH in Hk as [Hk Hp]; [|done]. cbn [cmp_checkpoints] in Hk. split.
    - rewrite Hk. apply (map_insert_same _ _ _ _ cp); [done|by destruct add].
    - intros Hpr. destruct (Hp Hpr) as (j & cpj & Hj & Hrest). exists j, cpj. split; [by right|done]. }
  destruct (Z.ltb_spec 0 (branches cp)) as [Hb|Hb].
  - destruct (_ && _); [done|]. by intros Hk _; apply Hmiss in Hk.
  - destruct (states_equal (cp_state cp) cleaned NotExact lm) eqn:Heq; [|by intros Hk _; apply Hmiss in Hk].
    intros [= <-] _. cbn [cmp_checkpoints pruned]. split; [by apply (map_insert_same _ _ _ _ cp)|].
    intros _. exists i, (count_hit cp). split_and!; [by left| |done|done].
    apply list_lookup_insert_eq. by eapply lookup_lt_Some.
Qed.

Lemma kept_parents cps cps' : map kept cps = map kept cps' -> parents cps = parents cps'.
Proof.
  intros H. apply (f_equal (map (fun k => fst (fst k)))) in H. by rewrite !map_map in H.
Qed.
Lemma kept_branches cps cps' : map kept cps = map kept cps' -> map branches cps = map branches cps'.
Proof.
  intros H. apply (f_equal (map (fun k => fst (snd (fst k))))) in H. by rewrite !map_map in H.
Qed.
Lemma kept_segments cps cps' : map kept cps = map kept cps' -> map segment cps = map segment cps'.
Proof.
  intros H. apply (f_equal (map (fun k => snd (snd (fst k))))) in H. by rewrite !map_map in H.
Qed.

Lemma kept_counted extra cps e :
  map kept cps = map kept (checkpoints e) -> counted extra e -> counted extra (set_checkpoints cps e).
Proof. intros H. apply set_counted; [by apply kept_parents|by apply kept_branches]. Qed.

(** The stored states without the branch counts, which the pushes change. *)
Definition stored (cp : Checkpoint) : VerifierState := unmarked (cp_state cp).

Lemma kept_stored cps cps' : map kept cps = map kept cps' -> map stored cps = map stored cps'.
Proof. intros H. apply (f_equal (map snd)) in H. by rewrite !map_map in H. Qed.

Lemma bumped_chain_stored fuel : forall cps last delta, map stored (bumped_chain fuel cps last delta) = map stored cps.
Proof.
  induction fuel as [|fuel IH]; intros cps last delta; [done|]. destruct last as [i|]; [|done].
  simpl. destruct (cps !! i) as [cp|] eqn:Hcp; [|done]. rewrite IH. by apply (map_insert_same _ _ _ _ cp).
Qed.

(** * What an iteration does *)

(** A point of a path: where it is and in which state. *)
Abbreviation point := (Z * VerifierState)%type.
Definition point_of (it : WorkItem) : point := (item_pc it, item_state it).

(** What has to be explored after an instruction: the successors, the return to
    the caller, or nothing after the exit of the program. *)
Definition follow_ups (pc : Z) (insn : BpfInsn) (s : VerifierState) : result VerificationFailure (list successor) :=
  match insn with
  | BpfInsn.Exit =>
      if 0 <? curframe s then
        if is_stack_ptr (reg s 0) then fail pc StackPointerReturned else Ok [(ret_pc s, returned_state s)]
      else let? _ := check_exit pc s in Ok []
  | _ => successors pc insn s
  end.

Definition cleaned_at (l : Liveness) (p : point) : VerifierState :=
  clean_state (snd p) (live_regs_before l (Z.to_nat (fst p))) (live_stack_before l (Z.to_nat (fst p))).

Lemma fold_push_spec items : forall e,
  let e' := fold_left pushed items e in
  worklist e' = rev items ++ worklist e /\
  map stored (checkpoints e') = map stored (checkpoints e) /\ visited e' = visited e /\
  analyzed e' = analyzed e /\ steps e' = steps e.
Proof.
  induction items as [|it items IH]; intros e; [done|]. simpl.
  destruct (IH (pushed e it)) as (-> & -> & -> & -> & ->).
  cbn [pushed worklist checkpoints visited analyzed steps]. unfold bumped. rewrite bumped_chain_stored.
  split_and!; try done. by rewrite <- app_assoc.
Qed.

(** The result of an iteration that is not pruned. *)
Record advanced (limits : VerifierLimits) (l : Liveness) (item : WorkItem) (insn : BpfInsn) (e e' : Explore) : Prop := {
  adv_follow : exists nexts new, follow_ups (item_pc item) insn (item_state item) = Ok nexts /\
    worklist e' = new ++ worklist e /\ map point_of new = nexts;
  adv_analyzed : analyzed e' =
    <[item_pc item := default [] (analyzed e !! item_pc item) ++ [cleaned_at l (point_of item)]]> (analyzed e);
  adv_stored :
    (map stored (checkpoints e') = map stored (checkpoints e) \/
     map stored (checkpoints e') = map stored (checkpoints e) ++ [unmarked (cleaned_at l (point_of item))]);
  adv_visited : forall pc i, i ∈ default [] (visited e' !! pc) ->
    i ∈ default [] (visited e !! pc) \/
    (pc = item_pc item /\ i = length (checkpoints e) /\ (i < length (checkpoints e'))%nat);
  adv_limit : Z.of_nat (length (checkpoints e')) <= max_states limits
}.

Lemma store_ok l e item c e' under :
  store_state e item (cleaned_at l (point_of item)) c = (e', under) ->
  length (cmp_checkpoints c) = length (checkpoints e) ->
  worklist e' = worklist e /\ analyzed e' = analyzed e /\ steps e' = steps e /\
  (map stored (checkpoints e') = map stored (cmp_checkpoints c) \/
   map stored (checkpoints e') = map stored (cmp_checkpoints c) ++ [unmarked (cleaned_at l (point_of item))]) /\
  (forall pc i, i ∈ default [] (visited e' !! pc) ->
    i ∈ default [] (visited e !! pc) \/
    (pc = item_pc item /\ i = length (checkpoints e) /\ (i < length (checkpoints e'))%nat)).
Proof.
  intros Hs Hlen.
  set (kept_list := if (length (evict c) =? 0)%nat then visited e
    else alter (List.filter (fun i => negb (existsb (Nat.eqb i) (evict c)))) (item_pc item) (visited e)).
  assert (Hkept : forall pc i, i ∈ default [] (kept_list !! pc) -> i ∈ default [] (visited e !! pc)).
  { intros pc i. unfold kept_list. destruct (_ =? _)%nat; [done|]. rewrite lookup_alter.
    case_decide as Hpc; [subst|done]. destruct (visited e !! item_pc item); [|done]. simpl.
    intros Hi. apply list_elem_of_In, filter_In in Hi as [Hi _]. by apply list_elem_of_In. }
  unfold store_state in Hs. fold kept_list in Hs. destruct (add_new_state c); injection Hs as <- <-;
    cbn [worklist analyzed steps checkpoints visited]; split_and!; try done.
  - right. by rewrite map_app.
  - intros pc i. rewrite lookup_insert. case_decide as Hpc; [subst; simpl|by intros Hi; left; apply Hkept].
    intros Hi. apply elem_of_app in Hi as [Hi|Hi]; [left; by apply Hkept|].
    apply list_elem_of_singleton in Hi as ->. right. split_and!; [done|done|]. rewrite length_app. simpl. lia.
  - by left.
  - intros pc i Hi. left. by apply Hkept.
Qed.

Lemma record_ok limits heads pc insn cleaned e e' :
  record_arrival limits heads pc insn cleaned e = Ok e' ->
  worklist e' = worklist e /\ checkpoints e' = checkpoints e /\ visited e' = visited e /\ steps e' = steps e /\
  analyzed e' = <[pc := default [] (analyzed e !! pc) ++ [cleaned]]> (analyzed e) /\
  Z.of_nat (length (checkpoints e)) <= max_states limits.
Proof.
  unfold record_arrival. destruct (_ && _); [done|]. destruct (Z.ltb_spec (max_states limits) (Z.of_nat (length (checkpoints e)))); [done|].
  intros [= <-]. done.
Qed.

(** What [expand] ends with: the marked checkpoints, the pushed items and the
    consumed one. *)
Lemma expand_inv program item insn under e e' :
  expand program item insn under e = Ok e' ->
  exists nexts cps hist, successors (item_pc item) insn (item_state item) = Ok nexts /\
    map kept cps = map kept (checkpoints e) /\
    (hist = [hist_entry (item_pc item) insn (item_state item)] \/
     hist = history item ++ [hist_entry (item_pc item) insn (item_state item)]) /\
    e' = consumed item (fold_left pushed (map (fun next => mkItem (fst next) (snd next) under hist) (rev nexts))
                          (set_checkpoints cps e)).
Proof.
  unfold expand. intros (nexts & Hn & H)%rbind_ok. cbn zeta in H. apply rbind_ok in H as (cps & Hc & H).
  apply or_panic_ok, mark_chain_kept in Hc. apply or_panic_ok, bind_Some in H as (e1 & H1 & H2).
  apply push_items_inv in H1 as ->. apply consume_inv in H2 as ->.
  exists nexts, cps. eexists. split; [done|]. split; [done|]. split; [|reflexivity].
  destruct (negb _); [by left|by right].
Qed.

Lemma expand_ok program item insn under e e' :
  expand program item insn under e = Ok e' ->
  exists nexts new, successors (item_pc item) insn (item_state item) = Ok nexts /\
    worklist e' = new ++ worklist e /\ map point_of new = nexts /\
    map stored (checkpoints e') = map stored (checkpoints e) /\ visited e' = visited e /\
    analyzed e' = analyzed e /\ steps e' = steps e.
Proof.
  intros (nexts & cps & hist & Hn & Hc & _ & ->)%expand_inv. exists nexts. eexists. split; [done|]. unfold consumed.
  cbn [set_checkpoints worklist checkpoints visited analyzed steps].
  set (items := map _ _). destruct (fold_push_spec items (set_checkpoints cps e)) as (-> & Hs & -> & -> & ->).
  unfold bumped. rewrite bumped_chain_stored, Hs. cbn [set_checkpoints worklist checkpoints visited analyzed steps].
  split_and!; try done; [|by apply kept_stored]. unfold items. rewrite <- map_rev, rev_involutive, map_map.
  etransitivity; [|apply map_id]. apply map_ext. by intros [].
Qed.

(** A pruned iteration: an earlier state, completely explored, is equal. *)
Record pruned_by (l : Liveness) (item : WorkItem) (e e' : Explore) : Prop := {
  pr_worklist : worklist e' = worklist e;
  pr_analyzed : analyzed e' = analyzed e;
  pr_visited : visited e' = visited e;
  pr_stored : map stored (checkpoints e') = map stored (checkpoints e);
  pr_equal : exists i old cp, i ∈ default [] (visited e !! item_pc item) /\ checkpoints e !! i = Some cp /\
    branches cp <= 0 /\ unmarked old = stored cp /\
    states_equal old (cleaned_at l (point_of item)) NotExact
      (live_regs_before l (Z.to_nat (item_pc item))) = true
}.

Lemma compared_ok l prune item e c :
  (if (prune : bool) then compare_arrival e item (cleaned_at l (point_of item)) (live_regs_before l (Z.to_nat (item_pc item)))
   else Ok (mkCompared (checkpoints e) false [] false)) = Ok c ->
  map kept (cmp_checkpoints c) = map kept (checkpoints e) /\
  (pruned c = true -> pruned_by l item e (consumed item (set_checkpoints (cmp_checkpoints c) e))).
Proof.
  destruct prune; [|intros [= <-]; done]. unfold compare_arrival. intros Hc.
  apply compare_ok in Hc as [Hk Hp]; [|done]. cbn [cmp_checkpoints] in Hk. split; [done|]. intros Hpr.
  split; try done; unfold consumed; cbn [set_checkpoints checkpoints].
  - unfold bumped. rewrite bumped_chain_stored. by apply kept_stored.
  - destruct (Hp Hpr) as (i & cp & Hi & Hcp & Hb & Heq). exists i, (cp_state cp).
    assert (Hcp0 : map kept (checkpoints e) !! i = Some (kept cp)) by (by rewrite <- Hk, list_lookup_fmap, Hcp).
    rewrite list_lookup_fmap in Hcp0. destruct (checkpoints e !! i) as [cp0|]; [|done].
    assert (Hkc : kept cp0 = kept cp) by (by apply (inj Some)).
    pose proof (f_equal (fun k => fst (snd (fst k))) Hkc) as Hbr. pose proof (f_equal snd Hkc) as Hst. cbn [kept fst snd] in Hbr, Hst.
    exists cp0. split_and!; try done. by rewrite Hbr.
Qed.

Lemma process_ok program heads limits l pps item e e' :
  process program heads limits l pps item e = Ok e' ->
  steps e <= max_steps limits /\ steps e' = steps e /\
  exists insn, program !! Z.to_nat (item_pc item) = Some insn /\
    (pruned_by l item e e' \/ advanced limits l item insn e e').
Proof.
  unfold process. destruct (Z.ltb_spec (max_steps limits) (steps e)) as [|Hsteps]; [done|].
  destruct (program !! Z.to_nat (item_pc item)) as [insn|]; [|done]. intros H.
  split; [done|]. enough (steps e' = steps e /\ (pruned_by l item e e' \/ advanced limits l item insn e e')) as [? ?]
    by (split; [done|by exists insn]).
  apply rbind_ok in H as (c & Hc & H). cbn zeta in H.
  change (clean_state _ _ _) with (cleaned_at l (point_of item)) in Hc, H.
  apply compared_ok in Hc as [Hk Hp]. destruct (pruned c); [apply or_panic_ok, consume_inv in H as ->; split; [done|left; by apply Hp]|].
  pose proof (f_equal length Hk) as Hlen. rewrite !length_map in Hlen. apply kept_stored in Hk. clear Hp.
  destruct (store_state _ _ _ _) as [e1 under] eqn:Hst. apply store_ok in Hst as (Hw1 & Ha1 & Hs1 & Hc1 & Hv1); [|done].
  rewrite Hk in Hc1.
  apply rbind_ok in H as (e2 & Hr & H). apply record_ok in Hr as (Hw2 & Hc2 & Hv2 & Hs2 & Ha2 & Hl2).
  assert (Hadv : forall e3 nexts new, follow_ups (item_pc item) insn (item_state item) = Ok nexts ->
    worklist e3 = new ++ worklist e2 -> map point_of new = nexts ->
    map stored (checkpoints e3) = map stored (checkpoints e2) -> visited e3 = visited e2 ->
    analyzed e3 = analyzed e2 -> steps e3 = steps e2 ->
    steps e3 = steps e /\ (pruned_by l item e e3 \/ advanced limits l item insn e e3)).
  { intros e3 nexts new Hf Hw3 Hn Hc3 Hv3 Ha3 Hs3. split; [congruence|]. right.
    assert (Hlen3 : length (checkpoints e3) = length (checkpoints e1)).
    { rewrite <- Hc2, <- (length_map stored), Hc3. apply length_map. }
    split.
    - exists nexts, new. split_and!; congruence.
    - congruence.
    - rewrite Hc3, Hc2. done.
    - rewrite Hv3, Hv2, Hlen3. done.
    - by rewrite Hlen3. }
  assert (Hexp : expand program item insn under e2 = Ok e' ->
    successors (item_pc item) insn (item_state item) = follow_ups (item_pc item) insn (item_state item) ->
    steps e' = steps e /\ (pruned_by l item e e' \/ advanced limits l item insn e e')).
  { intros He Hf. apply expand_ok in He as (nexts & new & He & Hw3 & Hn & Hc3 & Hv3 & Ha3 & Hs3).
    apply (Hadv e' nexts new); try done. by rewrite <- Hf. }
  destruct insn; try (by apply Hexp). clear Hexp. unfold follow_ups in Hadv.
  destruct (0 <? curframe (item_state item)).
  - destruct (is_stack_ptr _); [done|]. apply or_panic_ok, bind_Some in H as (e3 & ->%push_item_inv & ->%consume_inv).
    eapply (Hadv _ _ [mkItem (ret_pc (item_state item)) (returned_state (item_state item)) (last_cp item) []]); try done.
    unfold consumed. cbn [set_checkpoints pushed checkpoints]. unfold bumped. by rewrite !bumped_chain_stored.
  - apply rbind_ok in H as ([] & Hx & H). rewrite Hx in Hadv. apply or_panic_ok, consume_inv in H as ->.
    eapply (Hadv _ _ []); try done. unfold consumed. cbn [set_checkpoints checkpoints]. unfold bumped.
    by rewrite !bumped_chain_stored.
Qed.

(** The branch counts through an iteration. *)
Lemma process_counted program heads limits l pps item e e' :
  counted [item] e -> process program heads limits l pps item e = Ok e' -> counted [] e'.
Proof.
  intros Hc. unfold process. destruct (_ <? _); [done|].
  destruct (program !! Z.to_nat (item_pc item)) as [insn|]; [|done]. intros H.
  apply rbind_ok in H as (c & Hcmp & H). cbn zeta in H.
  change (clean_state _ _ _) with (cleaned_at l (point_of item)) in Hcmp, H.
  apply compared_ok in Hcmp as [Hk _]. pose proof (kept_counted _ _ _ Hk Hc) as Hc1.
  destruct (pruned c); [apply or_panic_ok, consume_inv in H as ->; by apply consume_counted|].
  destruct (store_state _ _ _ _) as [e1 under] eqn:Hst. destruct (store_counted [] _ _ _ _ _ _ Hc1 Hst) as [Hc2 Hu].
  apply rbind_ok in H as (e2 & Hr & H). apply record_ok in Hr as (Hw2 & Hcp2 & _).
  assert (Hc3 : counted [item] e2) by (destruct Hc2; split; rewrite ?Hw2, ?Hcp2; done). rewrite <- Hcp2 in Hu.
  assert (Hexp : expand program item insn under e2 = Ok e' -> counted [] e').
  { intros (nexts & cps & hist & _ & Hkc & _ & ->)%expand_inv.
    apply consume_counted, (fold_push_counted _ (length (checkpoints e2))); [| |by apply kept_counted].
    - apply Forall_map, Forall_forall. intros x _. exact Hu.
    - cbn [set_checkpoints checkpoints]. by rewrite <- (length_map kept cps), Hkc, length_map. }
  destruct insn; try (by apply Hexp). destruct (0 <? curframe (item_state item)).
  - destruct (is_stack_ptr _); [done|]. apply or_panic_ok, bind_Some in H as (e3 & ->%push_item_inv & ->%consume_inv).
    apply consume_counted, push_counted; [|done].
    destruct Hc3 as [_ Hi _]. by apply Forall_cons in Hi as [Hi _].
  - apply rbind_ok in H as ([] & _ & H). apply or_panic_ok, consume_inv in H as ->. by apply consume_counted.
Qed.

(** * Reachable explorations *)

(** Memberships in appended lists. *)
Ltac in_lists :=
  try (intros ?x; let H := fresh in intros H; revert H);
  rewrite ?elem_of_app, ?elem_of_cons, ?elem_of_app, ?elem_of_cons; tauto.

Section exploration.
Context (program : list BpfInsn) (loop_heads : list Z) (limits : VerifierLimits) (l : Liveness).
Abbreviation pps := (compute_prune_points program).
Abbreviation iteration item e := (process program loop_heads limits l pps item e).

(** The states of the loop of [verify_mini_core]. *)
Inductive reached : Explore -> Prop :=
| reached_start : reached (start_explore limits)
| reached_next e item e1 e2 :
    reached e -> pop e = Some (item, e1) -> iteration item e1 = Ok e2 -> reached e2.

Lemma explore_reached fuel : forall e e',
  reached e -> explore fuel program loop_heads limits l pps e = Some (Ok e') -> reached e' /\ worklist e' = [].
Proof.
  induction fuel as [|fuel IH]; intros e e' Hr; [done|]. simpl. destruct (pop e) as [[item e1]|] eqn:Hp.
  - destruct (iteration item e1) as [e2|] eqn:Hi; [|done]. apply IH. by apply (reached_next e item e1).
  - intros [= <-]. split; [done|]. unfold pop in Hp. by destruct (worklist e).
Qed.

Lemma explore_total fuel : forall e,
  (Z.to_nat (max_steps limits - steps e) < fuel)%nat ->
  exists r, explore fuel program loop_heads limits l pps e = Some r.
Proof.
  induction fuel as [|fuel IH]; intros e Hf; [lia|]. simpl. destruct (pop e) as [[item e1]|] eqn:Hp; [|by eexists].
  destruct (iteration item e1) as [e2|] eqn:Hi; [|by eexists]. apply IH.
  apply process_ok in Hi as (Hle & Hst & _). unfold pop in Hp. destruct (worklist e); [done|].
  injection Hp as <- <-. cbn [steps] in *. lia.
Qed.

Lemma reached_limit e : reached e -> Z.of_nat (length (checkpoints e)) <= Z.max 0 (max_states limits).
Proof.
  induction 1 as [|e item e1 e2 _ IH Hp Hi]; [simpl; lia|]. apply process_ok in Hi as (_ & _ & insn & _ & [Hpr|Ha]).
  - rewrite <- (length_map stored), (pr_stored _ _ _ _ Hpr), length_map. unfold pop in Hp.
    destruct (worklist e); [done|]. by injection Hp as <- <-.
  - pose proof (adv_limit _ _ _ _ _ _ Ha). lia.
Qed.

Lemma reached_counted e : reached e -> counted [] e.
Proof.
  induction 1 as [|e item e1 e2 _ IH Hp Hi].
  - split; cbn; [by intros i p; destruct i| |by intros i cp; destruct i].
    by constructor.
  - eapply process_counted; [|exact Hi]. unfold pop in Hp. destruct e as [[|it rest] ? ? ? ? ? ? ? ? ?]; [done|].
    injection Hp as <- <-. destruct IH as [Ht Hit Hb]. by split.
Qed.

(** ** The explored paths *)

Definition start_point : point := (0, initial_with (limit_prog_type limits)).

(** The instruction of [p] was executed and everything that follows is in [seen]. *)
Definition examined (seen : list point) (an : gmap Z (list VerifierState)) (p : point) : Prop :=
  exists insn nexts, program !! Z.to_nat (fst p) = Some insn /\
    follow_ups (fst p) insn (snd p) = Ok nexts /\ nexts ⊆ seen /\ cleaned_at l p ∈ default [] (an !! fst p).

(** An examined state of the same instruction, up to precision marks, is equal. *)
Definition covered (seen : list point) (an : gmap Z (list VerifierState)) (done : list point) (p : point) : Prop :=
  exists s old, (fst p, s) ∈ done /\ examined seen an (fst p, s) /\
    unmarked old = unmarked (cleaned_at l (fst p, s)) /\
    states_equal old (cleaned_at l p) NotExact (live_regs_before l (Z.to_nat (fst p))) = true.

Definition seen_by (done : list point) (e : Explore) : list point := done ++ map point_of (worklist e).

Record closed (done : list point) (e : Explore) : Prop := {
  closed_start : start_point ∈ seen_by done e;
  closed_done p : p ∈ done ->
    examined (seen_by done e) (analyzed e) p \/ covered (seen_by done e) (analyzed e) done p;
  closed_visited pc i : i ∈ default [] (visited e !! pc) ->
    exists cp s, checkpoints e !! i = Some cp /\ stored cp = unmarked (cleaned_at l (pc, s)) /\
      (pc, s) ∈ done /\ examined (seen_by done e) (analyzed e) (pc, s)
}.

(** More seen points and more analyzed states keep what was examined. *)
Definition analyzed_grows (an an' : gmap Z (list VerifierState)) : Prop :=
  forall pc, default [] (an !! pc) ⊆ default [] (an' !! pc).

Lemma examined_mono seen seen' an an' p :
  seen ⊆ seen' -> analyzed_grows an an' -> examined seen an p -> examined seen' an' p.
Proof.
  intros Hs Ha (insn & nexts & Hi & Hf & Hn & Hc). exists insn, nexts. split_and!; try done; [set_solver|by apply Ha].
Qed.

Lemma covered_mono seen seen' an an' done done' p :
  seen ⊆ seen' -> analyzed_grows an an' -> done ⊆ done' -> covered seen an done p -> covered seen' an' done' p.
Proof.
  intros Hs Ha Hd (s & old & Hin & He & Hrest). exists s, old. split; [by apply Hd|].
  split; [by eapply examined_mono|done].
Qed.

Abbreviation settled seen an done p := (examined seen an p \/ covered seen an done p).

Lemma settled_mono seen seen' an an' done done' p :
  seen ⊆ seen' -> analyzed_grows an an' -> done ⊆ done' -> settled seen an done p -> settled seen' an' done' p.
Proof. intros Hs Ha Hd [H|H]; [left; by eapply examined_mono|right; by eapply covered_mono]. Qed.

Lemma stored_at cps cps' i cp :
  map stored cps' = map stored cps -> cps !! i = Some cp -> exists cp', cps' !! i = Some cp' /\ stored cp' = stored cp.
Proof.
  intros Hm Hc. assert (H : map stored cps' !! i = Some (stored cp)) by (by rewrite Hm, list_lookup_fmap, Hc).
  rewrite list_lookup_fmap in H. destruct (cps' !! i) as [cp'|]; [|done]. exists cp'. split; [done|].
  by apply (inj Some).
Qed.

Lemma closed_pruned done e e1 item e2 :
  closed done e -> worklist e = item :: worklist e1 -> checkpoints e1 = checkpoints e -> visited e1 = visited e ->
  analyzed e1 = analyzed e -> pruned_by l item e1 e2 -> closed (point_of item :: done) e2.
Proof.
  intros [Hs Hd Hv] Hw Hc1 Hv1 Ha1 [Hw2 Ha2 Hv2 Hc2 Heq]. rewrite Hc1, Hv1, Ha1 in *.
  assert (Hseen : seen_by done e ⊆ seen_by (point_of item :: done) e2).
  { unfold seen_by. rewrite Hw, Hw2. simpl. clear. in_lists. }
  assert (Hgrow : analyzed_grows (analyzed e) (analyzed e2)) by (rewrite Ha2; by intros pc).
  split; [by apply Hseen| |].
  - intros p Hin. apply elem_of_cons in Hin as [->|Hin].
    + destruct Heq as (i & old & cp & Hi & Hcp & _ & Hold & Heq).
      destruct (Hv _ _ Hi) as (cp' & s & Hcp' & Hst & Hdone & Hex). rewrite Hcp in Hcp'. injection Hcp' as <-.
      right. exists s, old. split_and!; [by right|by eapply examined_mono|by rewrite Hold, Hst|done].
    + eapply settled_mono; [done|done| |by apply Hd]. clear. in_lists.
  - intros pc i. rewrite Hv2. intros Hi. destruct (Hv _ _ Hi) as (cp & s & Hcp & Hst & Hdone & Hex).
    destruct (stored_at _ _ _ _ Hc2 Hcp) as (cp' & Hcp' & Hst'). exists cp', s.
    split_and!; [done|congruence|by right|by eapply examined_mono].
Qed.

Lemma closed_advanced done e e1 item insn e2 :
  closed done e -> worklist e = item :: worklist e1 -> checkpoints e1 = checkpoints e -> visited e1 = visited e ->
  analyzed e1 = analyzed e -> program !! Z.to_nat (item_pc item) = Some insn ->
  advanced limits l item insn e1 e2 -> closed (point_of item :: done) e2.
Proof.
  intros [Hs Hd Hv] Hw Hc1 Hv1 Ha1 Hinsn [(nexts & new & Hf & Hw2 & Hn) Ha2 Hc2 Hv2 _]. rewrite Hc1, Hv1, Ha1 in *.
  assert (Hseen : seen_by done e ⊆ seen_by (point_of item :: done) e2).
  { unfold seen_by. rewrite Hw, Hw2, map_app. simpl. clear. in_lists. }
  assert (Hgrow : analyzed_grows (analyzed e) (analyzed e2)).
  { intros pc. rewrite Ha2, lookup_insert. case_decide; [subst; simpl; clear; in_lists|done]. }
  assert (Hitem : examined (seen_by (point_of item :: done) e2) (analyzed e2) (point_of item)).
  { exists insn, nexts. cbn [point_of fst snd]. split_and!; [done|done| |].
    - unfold seen_by. rewrite Hw2, map_app, Hn. clear. in_lists.
    - rewrite Ha2, lookup_insert_eq. simpl. clear. in_lists. }
  split; [by apply Hseen| |].
  - intros p Hin. apply elem_of_cons in Hin as [->|Hin]; [by left|].
    eapply settled_mono; [done|done| |by apply Hd]. clear. in_lists.
  - intros pc i Hi. destruct (Hv2 _ _ Hi) as [Hold|(-> & -> & Hlt)].
    + destruct (Hv _ _ Hold) as (cp & s & Hcp & Hst & Hdone & Hex).
      assert (exists cp', checkpoints e2 !! i = Some cp' /\ stored cp' = stored cp) as (cp' & Hcp' & Hst').
      { destruct Hc2 as [Hc2|Hc2]; [by apply (stored_at _ _ _ _ Hc2)|].
        assert (H : map stored (checkpoints e2) !! i = Some (stored cp)).
        { rewrite Hc2. apply lookup_app_l_Some. by rewrite list_lookup_fmap, Hcp. }
        rewrite list_lookup_fmap in H. destruct (checkpoints e2 !! i) as [cp'|]; [|done]. exists cp'.
        split; [done|by apply (inj Some)]. }
      exists cp', s. split_and!; [done|congruence|by right|by eapply examined_mono].
    + destruct Hc2 as [Hc2|Hc2].
      { apply (f_equal length) in Hc2. rewrite !length_map in Hc2. lia. }
      destruct (lookup_lt_is_Some_2 _ _ Hlt) as [cp Hcp]. exists cp, (item_state item).
      assert (H : map stored (checkpoints e2) !! length (checkpoints e) = Some (stored cp)) by (by rewrite list_lookup_fmap, Hcp).
      rewrite Hc2, lookup_app_r, length_map, Nat.sub_diag in H by (by rewrite length_map).
      split_and!; [done|by apply (inj Some)|by left|done].
Qed.

Lemma reached_closed e : reached e -> exists done, closed done e.
Proof.
  induction 1 as [|e item e1 e2 _ [done IH] Hp Hi].
  - exists []. split; [left| |]; cbn.
    + intros p Hin. by apply not_elem_of_nil in Hin.
    + intros pc i. rewrite lookup_empty. intros Hin. by apply not_elem_of_nil in Hin.
  - exists (point_of item :: done). unfold pop in Hp. destruct (worklist e) as [|it rest] eqn:Hw; [done|].
    injection Hp as -> <-. apply process_ok in Hi as (_ & _ & insn & Hinsn & [Hpr|Ha]).
    + by eapply closed_pruned; [exact IH| | | | |exact Hpr].
    + by eapply closed_advanced; [exact IH| | | | | |exact Ha].
Qed.
End exploration.

Lemma mini_total (program : list BpfInsn) (loop_heads : list Z) (limits : VerifierLimits) :
  exists r, verify_mini_core program loop_heads limits = Some r /\
    forall n states, r = Ok (n, states) -> n <= Z.max 0 (max_states limits).
Proof.
  unfold verify_mini_core. destruct (analyze_total program) as [[l|[]] ->]; [|by eexists].
  destruct (explore_total program loop_heads limits l (explore_fuel limits) (start_explore limits)) as [r Hr].
  { unfold explore_fuel. cbn [start_explore steps]. lia. }
  rewrite Hr. destruct r as [e|f]; eexists; (split; [reflexivity|]); intros n states; [|done]. intros [= <- _].
  eapply reached_limit, explore_reached; [apply reached_start|exact Hr].
Qed.

(** C8: the exploration ends for every program and all limits: it accepts or
    rejects within [max_steps] iterations, and an accepted exploration has stored
    at most [max_states] states. *)
Theorem exploration_terminates (program : list BpfInsn) (loop_heads : list Z) (limits : VerifierLimits) :
  exists r, verify_mini_core program loop_heads limits = Some r /\
    forall n states, r = Ok (n, states) -> n <= Z.max 0 (max_states limits).
Proof. apply mini_total. Qed.

Definition liveness_of (program : list BpfInsn) : Liveness :=
  match analyze program with Some (Ok l) => l | _ => mkLiveness [] [] end.

(** The exploration after [n] iterations. *)
Fixpoint explored_by (n : nat) (program : list BpfInsn) (l : Liveness) (e : Explore) : option Explore :=
  match n with
  | O => Some e
  | S n =>
      match pop e with
      | Some (item, e1) =>
          match process program [] default_limits l (compute_prune_points program) item e1 with
          | Ok e2 => explored_by n program l e2
          | Err _ => None
          end
      | None => None
      end
  end.
Lemma explored_by_reached n program l : forall e e',
  reached program [] default_limits l e -> explored_by n program l e = Some e' -> reached program [] default_limits l e'.
Proof.
  induction n as [|n IH]; intros e e' Hr; cbn [explored_by]; [by intros [= <-]|].
  destruct (pop e) as [[item e1]|] eqn:Hp; [|done]. destruct (process _ _ _ _ _ _ _) as [e2|] eqn:Hi; [|done].
  apply IH. by eapply reached_next.
Qed.

(** A subprogram whose exit is the target of a jump, behind eight instructions and
    two jumps. *)
Definition exit_program : list BpfInsn :=
  [BpfInsn.CallSub 1; BpfInsn.Exit; BpfInsn.MovImm 0 0; BpfInsn.MovImm 0 0; BpfInsn.MovImm 0 0;
   BpfInsn.MovImm 0 0; BpfInsn.Jmp 0; BpfInsn.Jmp 0; BpfInsn.Exit].

(** C9: throughout the exploration the branch count of a stored state is exactly
    the number of pending paths whose chain of stored states contains it, so it
    never goes below zero, and it is zero exactly when no pending path descends from
    the state through [last_cp].  This is not the same as "fully explored", the
    meaning the source gives to a zero count: the path behind the exit of a
    subprogram is pushed under the chain of the popped item, not under the state
    that was stored at the exit.  The exploration of [exit_program] has such a state
    at the exit, with a count of zero, while the return to instruction 1 is pending. *)
Theorem branch_counts_exact (program : list BpfInsn) (loop_heads : list Z) (limits : VerifierLimits) (l : Liveness)
    (e : Explore) (i : nat) (cp : Checkpoint) :
  reached program loop_heads limits l e -> checkpoints e !! i = Some cp ->
  (branches cp = pending (parents (checkpoints e)) (worklist e) i /\
   (branches cp = 0 <-> forall it, it ∈ worklist e -> i ∉ chain (parents (checkpoints e)) (last_cp it))) /\
  exists e' cp' it, reached exit_program [] default_limits (liveness_of exit_program) e' /\
    visited e' !! 8 = Some [0%nat] /\ checkpoints e' !! 0%nat = Some cp' /\ branches cp' = 0 /\
    worklist e' = [it] /\ item_pc it = 1 /\ last_cp it = None.
Proof.
  intros Hr Hcp. split.
  - destruct (reached_counted _ _ _ _ _ Hr) as [_ _ Hb]. rewrite (Hb _ _ Hcp). simpl. split; [done|].
    generalize (worklist e). intros items. induction items as [|it items IH].
    + split; [intros _ it Hin; by apply not_elem_of_nil in Hin|done].
    + rewrite pending_cons. assert (0 <= pending (parents (checkpoints e)) items i) by (unfold pending; lia).
      case_bool_decide as Hin; split; intros H0.
      * lia.
      * exfalso. apply (H0 it); [by left|done].
      * intros x [->|Hx]%elem_of_cons; [done|]. apply IH; [lia|done].
      * rewrite (proj2 IH); [done|]. intros x Hx. apply H0. by right.
  - destruct (explored_by 8 exit_program (liveness_of exit_program) (start_explore default_limits)) as [e'|] eqn:He;
      [|vm_compute in He; discriminate He].
    pose proof (explored_by_reached _ _ _ _ _ (reached_start _ _ _ _) He) as Hr'. vm_compute in He. injection He as <-.
    do 3 eexists. split; [exact Hr'|]. split; [reflexivity|]. split; [reflexivity|]. split_and!; reflexivity.
Qed.

Definition accepts (r : option (result VerificationFailure (Z * gmap Z (list VerifierState)))) : bool :=
  match r with Some (Ok _) => true | _ => false end.
Lemma accepts_inv r : accepts r = true -> exists n states, r = Some (Ok (n, states)).
Proof. destruct r as [[[n states]|]|]; try done. intros _. by exists n, states. Qed.

(** Branches that join: a state is stored at the third comparison and the other
    paths are pruned there. *)
Definition mini_example : list BpfInsn :=
  [BpfInsn.Call 7; BpfInsn.MovReg 6 0; BpfInsn.Call 7; BpfInsn.MovReg 8 0;
   BpfInsn.JeqImm 6 5 1; BpfInsn.MovImm 7 1; BpfInsn.JeqImm 6 7 1; BpfInsn.MovImm 7 2;
   BpfInsn.JgtImm 8 9 1; BpfInsn.MovImm 7 3; BpfInsn.CallSub 2; BpfInsn.MovImm 0 0; BpfInsn.Exit;
   BpfInsn.MovImm 0 1; BpfInsn.Exit].

Definition example_liveness : Liveness := liveness_of mini_example.
Definition example_end : option Explore :=
  match explore 100 mini_example [] default_limits example_liveness
          (compute_prune_points mini_example) (start_explore default_limits) with
  | Some (Ok e) => Some e
  | _ => None
  end.

Lemma example_end_reached e :
  example_end = Some e -> reached mini_example [] default_limits example_liveness e.
Proof.
  unfold example_end. intros He.
  destruct (explore 100 mini_example [] default_limits example_liveness (compute_prune_points mini_example)
    (start_explore default_limits)) as [[e'|]|] eqn:Hx; [|done|done].
  injection He as <-. apply explore_reached in Hx as [Hx _]; [exact Hx|apply reached_start].
Qed.

Lemma branch_counts_exact_witness :
  exists e cp, reached mini_example [] default_limits example_liveness e /\ checkpoints e !! 0%nat = Some cp /\
    branches cp = pending (parents (checkpoints e)) (worklist e) 0 /\
    (branches cp = 0 <-> forall it, it ∈ worklist e -> 0%nat ∉ chain (parents (checkpoints e)) (last_cp it)).
Proof.
  assert (Hs : match example_end with Some e => bool_decide (is_Some (checkpoints e !! 0%nat)) | None => false end = true)
    by (vm_compute; reflexivity).
  destruct example_end as [e|] eqn:He; [|discriminate Hs]. apply bool_decide_eq_true in Hs as [cp Hcp].
  pose proof (example_end_reached e He) as Hr. exists e, cp. split; [exact Hr|]. split; [exact Hcp|].
  exact (proj1 (branch_counts_exact mini_example [] default_limits example_liveness e 0 cp Hr Hcp)).
Defined.

Lemma accepted_explored (program : list BpfInsn) (loop_heads : list Z) (limits : VerifierLimits)
    (l : Liveness) (n : Z) (states : gmap Z (list VerifierState)) :
  analyze program = Some (Ok l) ->
  verify_mini_core program loop_heads limits = Some (Ok (n, states)) ->
  exists explored, start_point limits ∈ explored /\
    forall p, p ∈ explored -> examined program l explored states p \/ covered program l explored states explored p.
Proof.
  intros Hl. unfold verify_mini_core. rewrite Hl.
  destruct (explore _ _ _ _ _ _ _) as [[e|]|] eqn:He; try done. intros [= _ <-].
  apply explore_reached in He as [Hr Hw]; [|apply reached_start].
  destruct (reached_closed _ _ _ _ _ Hr) as [explored [Hs Hd _]]. exists explored.
  assert (Hseen : seen_by explored e = explored) by (unfold seen_by; rewrite Hw; apply app_nil_r).
  by rewrite Hseen in *.
Qed.

(** C6: what an acceptance means: there is a set of points (instruction and
    abstract state) that contains the start and in which every point either was
    executed, with all its successors, the return to its caller or a successful
    exit check, in the set, or equals, on the live registers and stack and up to
    precision marks, a point of the same instruction that was executed. *)
Theorem accepted_program_explored (program : list BpfInsn) (loop_heads : list Z) (limits : VerifierLimits)
    (l : Liveness) (n : Z) (states : gmap Z (list VerifierState)) :
  analyze program = Some (Ok l) ->
  verify_mini_core program loop_heads limits = Some (Ok (n, states)) ->
  exists explored, start_point limits ∈ explored /\
    forall p, p ∈ explored -> examined program l explored states p \/ covered program l explored states explored p.
Proof. apply accepted_explored. Qed.

Lemma accepted_program_explored_witness :
  exists l n states, analyze mini_example = Some (Ok l) /\
    verify_mini_core mini_example [] default_limits = Some (Ok (n, states)) /\
    exists explored, start_point default_limits ∈ explored /\
      forall p, p ∈ explored ->
        examined mini_example l explored states p \/ covered mini_example l explored states explored p.
Proof.
  destruct (analyze_ok mini_example eq_refl) as (l & Hl & _).
  assert (Ha : accepts (verify_mini_core mini_example [] default_limits) = true) by (vm_compute; reflexivity).
  destruct (accepts_inv _ Ha) as (n & states & Hv). exists l, n, states. split; [done|]. split; [done|].
  apply (accepted_program_explored mini_example [] default_limits l n states Hl Hv).
Defined.

(** ** Gaps *)

Definition wide_scalar : ScalarBounds := bounds_from_signed 0 9.
Definition scalar_state : VerifierState := set_reg 6 (Scalar wide_scalar) initial.
(** A stored state and its parent, both with an imprecise scalar in R6. *)
Definition two_checkpoints : list Checkpoint :=
  [mkCheckpoint scalar_state None 1 0 0 []; mkCheckpoint scalar_state (Some 0%nat) 1 0 0 []].
Definition precise_r6 (cp : Checkpoint) : bool :=
  match reg (cp_state cp) 6 with Scalar b => precise b | _ => false end.

(** The marks stop at the deepest stored state (its parents stay imprecise);
    the operands of JSET, of 32-bit comparisons and of multiplications are not
    required. *)
Theorem precision_gaps :
  map precise_r6 <$> mark_chain_precision [] two_checkpoints (Some 1%nat) [] (reg_bit 6) = Some [false; true] /\
  insn_src (BpfInsn.Jset 6 7 1) = None /\
  insn_src (BpfInsn.Jmp32 6 (Some 7) None 1 Jmp32Op.Eq) = None /\
  insn_src (BpfInsn.MulReg 6 7 MulHigh.Low) = None.
Proof. vm_compute. done. Qed.

(** * The exploration does not panic *)

Lemma returned_typed s :
  state_typed s -> 0 < curframe s -> is_stack_ptr (reg s 0) = false -> state_typed (returned_state s).
Proof.
  intros Hs Hc Hr. unfold returned_state. destruct (return_from_subprog s) as [t|] eqn:Ht.
  - simpl. apply (return_typed s); [done| |done]. intros d. by destruct (reg s 0).
  - exfalso. unfold return_from_subprog in Ht. destruct (Z.eqb_spec (curframe s) 0); [lia|].
    pose proof (typed_depth _ Hs). pose proof (typed_saved _ Hs (Z.to_nat (curframe s - 1)) ltac:(lia)) as Hsv.
    rewrite (proj2 (Z.ltb_lt _ _)) in Hsv by lia. destruct Hsv as (f & Hf & _). by rewrite Hf in Ht.
Qed.

Lemma check_exit_safe pc s : safely (fun _ => True) (check_exit pc s).
Proof. unfold check_exit. destruct (reg s 0); try done. by destruct (0 <? refs_cnt s). Qed.

Lemma follow_ups_safe pc insn s :
  state_typed s -> insn_safe insn = true ->
  safely (fun nexts => Forall (fun next => state_typed (snd next)) nexts) (follow_ups pc insn s).
Proof.
  intros Hs Hi. pose proof (successors_safe pc insn s Hs Hi) as Hsucc. unfold follow_ups.
  destruct insn; try exact Hsucc. destruct (Z.ltb_spec 0 (curframe s)).
  - destruct (is_stack_ptr (reg s 0)) eqn:Hp; [done|]. apply Forall_cons_2; [|apply Forall_nil_2].
    by apply returned_typed.
  - eapply safely_bind; [apply check_exit_safe|]. intros _ _. apply Forall_nil_2.
Qed.

Lemma compare_safe pc cleaned lm throttle l : forall c,
  Forall (fun i => (i < length (cmp_checkpoints c))%nat) l ->
  safely (fun _ => True) (compare_checkpoints pc cleaned lm throttle l c).
Proof.
  induction l as [|i l IH]; intros c Hl; [done|]. apply Forall_cons in Hl as [Hi Hl]. cbn [compare_checkpoints].
  destruct (lookup_lt_is_Some_2 _ _ Hi) as [cp ->]. cbn zeta.
  assert (Hm : forall cp' add ev, safely (fun _ => True)
    (compare_checkpoints pc cleaned lm throttle l (mkCompared (<[i:=cp']> (cmp_checkpoints c)) add ev false))).
  { intros. apply IH. cbn [cmp_checkpoints]. by rewrite length_insert. }
  destruct (0 <? branches cp); [destruct (_ && _); [done|apply Hm]|].
  destruct (states_equal _ _ _ _); [done|apply Hm].
Qed.

(** ** The walks over the chain *)

(** Every checkpoint of the chain keeps a count that is not negative. *)
Lemma bump_chain_safe fuel delta : forall cps last n,
  tree_ok (parents cps) -> below last n -> (n <= fuel)%nat -> (n <= length cps)%nat ->
  (forall i cp, i ∈ chain_from fuel (parents cps) last -> cps !! i = Some cp -> 0 <= branches cp + delta) ->
  is_Some (bump_chain fuel cps last delta).
Proof.
  induction fuel as [|fuel IH]; intros cps last n Ht Hb Hf Hn Hc; destruct last as [i|]; cbn [bump_chain];
    try (by eexists); cbn in Hb; [lia|].
  destruct (lookup_lt_is_Some_2 cps i ltac:(lia)) as [cp Hcp]. rewrite Hcp.
  cbn [chain_from] in Hc. rewrite list_lookup_fmap, Hcp in Hc. cbn in Hc.
  rewrite (proj2 (Z.ltb_ge _ _) (Hc i cp ltac:(by left) Hcp)).
  assert (Hpar : parents (<[i:=add_branches delta cp]> cps) = parents cps) by by apply (map_insert_same _ _ _ _ cp).
  assert (Hbelow : below (parent cp) i) by (apply Ht; by rewrite list_lookup_fmap, Hcp).
  apply (IH _ _ i); rewrite ?Hpar, ?length_insert; try done; try lia. intros j cpj Hj. pose proof (chain_below _ _ _ _ _ Ht Hbelow Hj).
  rewrite list_lookup_insert_ne by lia. intros Hcpj. apply (Hc j); [by right|done].
Qed.

Lemma push_safe extra e it :
  below (last_cp it) (length (checkpoints e)) -> counted extra e -> is_Some (push_item it e).
Proof.
  intros Hb [Ht _ Hc]. unfold push_item, bump_branches.
  destruct (bump_chain_safe (S (length (checkpoints e))) 1 (checkpoints e) (last_cp it) (length (checkpoints e))) as [cps ->];
    [done|done|lia|lia| |by eexists].
  intros i cp _ Hcp. rewrite (Hc _ _ Hcp). unfold pending. lia.
Qed.
Lemma push_items_safe extra n items : forall e,
  Forall (fun it => below (last_cp it) n) items -> (n <= length (checkpoints e))%nat -> counted extra e ->
  is_Some (push_items items e).
Proof.
  unfold push_items. induction items as [|it items IH]; intros e Hf Hn Hc; [by eexists|].
  apply Forall_cons in Hf as [Hit Hf].
  assert (Hb : below (last_cp it) (length (checkpoints e))) by (destruct (last_cp it); [simpl in *; lia|done]).
  cbn [fold_left]. change (Some e ≫= (fun e => push_item it e)) with (push_item it e).
  destruct (push_safe extra e it Hb Hc) as [e1 He]. rewrite He. apply push_item_inv in He as ->.
  apply IH; [done|cbn [pushed checkpoints]; by rewrite bumped_length|by apply push_counted].
Qed.
(** The consumed item is pending under its chain. *)
Lemma consume_safe item extra e : counted (item :: extra) e -> is_Some (consume item e).
Proof.
  intros [Ht Hi Hc]. simpl in Hi. apply Forall_cons in Hi as [Hb _]. unfold consume, bump_branches.
  destruct (bump_chain_safe (S (length (checkpoints e))) (-1) (checkpoints e) (last_cp item) (length (checkpoints e))) as [cps ->];
    [done|done|lia|lia| |by eexists].
  intros i cp Hin Hcp. rewrite (Hc _ _ Hcp). simpl. rewrite pending_cons, bool_decide_true; [unfold pending; lia|].
  unfold chain. by rewrite length_map.
Qed.

(** The recorded instructions are inside the program. *)
Definition seg_inside (program : list BpfInsn) (seg : list HistEntry) : Prop :=
  Forall (fun h => is_Some (program !! Z.to_nat (hist_pc h))) seg.
Definition traced (program : list BpfInsn) (items : list WorkItem) (cps : list Checkpoint) : Prop :=
  Forall (fun it => seg_inside program (history it)) items /\ Forall (seg_inside program) (map segment cps).

Lemma bumped_segments cps last delta : map segment (bumped cps last delta) = map segment cps.
Proof.
  unfold bumped. generalize (S (length cps)) as fuel. intros fuel. revert cps last.
  induction fuel as [|fuel IH]; intros cps last; [done|]. destruct last as [i|]; [|done].
  simpl. destruct (cps !! i) as [cp|] eqn:Hcp; [|done]. rewrite IH. by apply (map_insert_same _ _ _ _ cp).
Qed.

Lemma backtrack_safe program seg : forall bt, seg_inside program seg -> is_Some (backtrack_segment program seg bt).
Proof.
  induction seg as [|h seg IH]; intros bt Hs; [by eexists|]. apply Forall_cons in Hs as [[insn Hi] Hs].
  cbn [backtrack_segment]. rewrite Hi. cbn. destruct (backtrack_insn _ _ _) as [bt' []]; [by eexists..|by apply IH].
Qed.

Lemma mark_all_safe fuel : forall cps last n,
  tree_ok (parents cps) -> below last n -> (n <= fuel)%nat -> (n <= length cps)%nat -> is_Some (mark_all fuel cps last).
Proof.
  induction fuel as [|fuel IH]; intros cps last n Ht Hb Hf Hn; destruct last as [i|]; cbn [mark_all];
    try (by eexists); cbn in Hb; [lia|].
  destruct (lookup_lt_is_Some_2 cps i ltac:(lia)) as [cp Hcp]. rewrite Hcp. cbn.
  set (cps1 := <[i := _]> cps).
  assert (Hpar : parents cps1 = parents cps) by by apply (map_insert_same _ _ _ _ cp).
  apply (IH _ _ i); [by rewrite Hpar|apply Ht; by rewrite list_lookup_fmap, Hcp|lia|unfold cps1; rewrite length_insert; lia].
Qed.

Lemma chain_segments_safe program fuel : forall cps last n,
  tree_ok (parents cps) -> below last n -> (n <= fuel)%nat -> (n <= length cps)%nat ->
  Forall (seg_inside program) (map segment cps) ->
  exists segs, chain_segments fuel cps last = Some segs /\ Forall (seg_inside program) segs.
Proof.
  induction fuel as [|fuel IH]; intros cps last n Ht Hb Hf Hn Hs; destruct last as [i|]; cbn [chain_segments];
    try (by eexists); cbn in Hb; [lia|].
  destruct (lookup_lt_is_Some_2 cps i ltac:(lia)) as [cp Hcp]. rewrite Hcp. cbn.
  destruct (IH cps (parent cp) i) as (segs & -> & Hsegs); [done|apply Ht; by rewrite list_lookup_fmap, Hcp|lia|lia|done|].
  eexists. split; [reflexivity|]. apply Forall_cons. split; [|done].
  rewrite Forall_map, Forall_lookup in Hs. by apply (Hs i).
Qed.

Lemma mark_segments_safe program segs : forall cps last bt,
  tree_ok (parents cps) -> below last (length cps) -> Forall (seg_inside program) segs ->
  is_Some (mark_segments program cps last segs bt).
Proof.
  induction segs as [|seg segs IH]; intros cps last bt Ht Hb Hs; cbn [mark_segments].
  { by apply (mark_all_safe _ _ _ (length cps)); [| |lia|lia]. }
  assert (Hall : is_Some (mark_all_scalars_precise cps last)) by by apply (mark_all_safe _ _ _ (length cps)); [| |lia|lia].
  apply Forall_cons in Hs as [Hseg Hs]. destruct (backtrack_safe program (rev seg) bt) as [out ->].
  { by apply List.Forall_rev. }
  cbn [mbind option_bind]. destruct out as [| |bt1]; [by eexists|done|]. destruct last as [i|]; [|done].
  destruct (lookup_lt_is_Some_2 cps i Hb) as [cp Hcp]. rewrite Hcp. cbn [mbind option_bind].
  pose proof (mark_checkpoint_kept cps i bt1) as Hm. destruct (mark_checkpoint cps i bt1) as [cps1 bt2]. cbn [fst] in Hm.
  destruct (bt_is_empty bt2); [by eexists|]. pose proof (kept_parents _ _ Hm) as Hp.
  assert (Hbelow : below (parent cp) i) by (apply Ht; by rewrite list_lookup_fmap, Hcp).
  apply IH; [by rewrite Hp| |done]. apply (f_equal length) in Hm. rewrite !length_map in Hm. rewrite Hm.
  destruct (parent cp); [simpl in *; lia|done].
Qed.

Lemma mark_chain_safe program cps last seg regs :
  tree_ok (parents cps) -> below last (length cps) -> seg_inside program seg -> Forall (seg_inside program) (map segment cps) ->
  is_Some (mark_chain_precision program cps last seg regs).
Proof.
  intros Ht Hb Hseg Hs. unfold mark_chain_precision. destruct (regs =? 0); [by eexists|].
  destruct (chain_segments_safe program (S (length cps)) cps last (length cps)) as (segs & -> & Hsegs); [done|done|lia|lia|done|].
  apply mark_segments_safe; [done|done|by apply Forall_cons].
Qed.

(** ** An iteration *)

Lemma or_panic_safe {A} pc (m : option A) : is_Some m -> safely (fun a => m = Some a) (or_panic pc m).
Proof. by intros [a ->]. Qed.

Lemma store_traced program e item cleaned c e' under :
  store_state e item cleaned c = (e', under) -> seg_inside program (history item) ->
  traced program (worklist e) (cmp_checkpoints c) -> traced program (worklist e') (checkpoints e').
Proof.
  unfold store_state. destruct (add_new_state c); intros [= <- <-] Hi [H1 H2]; split; cbn [worklist checkpoints]; try done.
  rewrite map_app. apply Forall_app. split; [done|]. by apply Forall_cons.
Qed.

Lemma kept_traced program items cps cps' :
  map kept cps = map kept cps' -> traced program items cps' -> traced program items cps.
Proof. intros Hk [H1 H2]. split; [done|]. by rewrite (kept_segments _ _ Hk). Qed.
Lemma pushed_traced program items : forall e, Forall (fun it => seg_inside program (history it)) items ->
  traced program (worklist e) (checkpoints e) ->
  traced program (worklist (fold_left pushed items e)) (checkpoints (fold_left pushed items e)).
Proof.
  induction items as [|it items IH]; intros e Hf Ht; [done|]. apply Forall_cons in Hf as [Hi Hf]. apply IH; [done|].
  destruct Ht as [H1 H2]. split; cbn [pushed worklist checkpoints]; [by apply Forall_cons|by rewrite bumped_segments].
Qed.
Lemma consumed_traced program item e :
  traced program (worklist e) (checkpoints e) -> traced program (worklist (consumed item e)) (checkpoints (consumed item e)).
Proof. intros [H1 H2]. split; [done|]. cbn [consumed set_checkpoints checkpoints]. by rewrite bumped_segments. Qed.

Lemma process_traced program heads limits l pps item e e' :
  traced program (item :: worklist e) (checkpoints e) -> process program heads limits l pps item e = Ok e' ->
  traced program (worklist e') (checkpoints e').
Proof.
  intros Hc. unfold process. destruct (_ <? _); [done|].
  destruct (program !! Z.to_nat (item_pc item)) as [insn|] eqn:Hinsn; [|done]. intros H.
  apply rbind_ok in H as (c & Hcmp & H). cbn zeta in H.
  change (clean_state _ _ _) with (cleaned_at l (point_of item)) in Hcmp, H.
  apply compared_ok in Hcmp as [Hk _]. destruct Hc as [[Hit Hw]%Forall_cons Hcp].
  assert (Hc1 : traced program (worklist e) (cmp_checkpoints c)) by by eapply kept_traced.
  destruct (pruned c); [apply or_panic_ok, consume_inv in H as ->; by apply consumed_traced|].
  destruct (store_state _ _ _ _) as [e1 under] eqn:Hst. pose proof (store_traced _ _ _ _ _ _ _ Hst Hit Hc1) as Hc2.
  apply rbind_ok in H as (e2 & Hr & H). apply record_ok in Hr as (Hw2 & Hcp2 & _). rewrite <- Hw2, <- Hcp2 in Hc2.
  assert (Hexp : expand program item insn under e2 = Ok e' -> traced program (worklist e') (checkpoints e')).
  { intros (nexts & cps & hist & _ & Hkc & Hh & ->)%expand_inv. apply consumed_traced, pushed_traced.
    - apply Forall_map, Forall_forall. intros x _. cbn.
      assert (Hone : seg_inside program [hist_entry (item_pc item) insn (item_state item)])
        by (apply Forall_cons; cbn; split; [by rewrite Hinsn|done]).
      destruct Hh as [->| ->]; [done|]. by apply Forall_app.
    - by eapply kept_traced. }
  destruct insn; try (by apply Hexp). destruct (0 <? curframe (item_state item)).
  - destruct (is_stack_ptr _); [done|]. apply or_panic_ok, bind_Some in H as (e3 & ->%push_item_inv & ->%consume_inv).
    apply consumed_traced. apply (pushed_traced program [_]); [repeat constructor|done].
  - apply rbind_ok in H as ([] & _ & H). apply or_panic_ok, consume_inv in H as ->. by apply consumed_traced.
Qed.

Lemma process_safe program heads limits l pps item e f :
  state_typed (item_state item) -> (forall insn, In insn program -> insn_safe insn = true) ->
  counted [item] e -> traced program (item :: worklist e) (checkpoints e) ->
  Forall (fun i => (i < length (checkpoints e))%nat) (default [] (visited e !! item_pc item)) ->
  process program heads limits l pps item e = Err f -> message f <> Panicked.
Proof.
  intros Hs Hprog Hcount Htr Hv. unfold process. destruct (_ <? _); [by intros [= <-]|].
  destruct (program !! Z.to_nat (item_pc item)) as [insn|] eqn:Hi; [|by intros [= <-]].
  assert (Hsafe : insn_safe insn = true) by (apply Hprog, list_elem_of_In; by eapply list_elem_of_lookup_2).
  cbn zeta. change (clean_state _ _ _) with (cleaned_at l (point_of item)). set (cmp := if default false _ : bool then _ else _).
  assert (Hcmp : safely (fun _ => True) cmp).
  { unfold cmp. destruct (default false _); [|done]. by apply compare_safe. }
  destruct cmp as [c|f'] eqn:Hc; cbn [rbind]; [|by intros [= <-]]. unfold cmp in Hc. apply compared_ok in Hc as [Hk _].
  pose proof (kept_counted _ _ _ Hk Hcount) as Hc1.
  assert (Hconsume : forall e, counted [item] e -> or_panic (item_pc item) (consume item e) = Err f -> message f <> Panicked).
  { intros e0 H0. pose proof (or_panic_safe (item_pc item) _ (consume_safe item [] e0 H0)) as Hx.
    destruct (or_panic _ _); [done|]. by intros [= <-]. }
  destruct (pruned c); [by apply Hconsume|].
  destruct (store_state e item _ c) as [e1 under] eqn:Hst. destruct (store_counted [] _ _ _ _ _ _ Hc1 Hst) as [Hc2 Hu].
  assert (Htr1 : traced program (worklist e1) (checkpoints e1)).
  { destruct Htr as [[Hit Hw]%Forall_cons Hcp]. eapply store_traced; [exact Hst|done|]. by eapply kept_traced. }
  destruct (record_arrival _ _ _ _ _ e1) as [e2|f'] eqn:Hr; cbn [rbind].
  2: { intros [= <-]. unfold record_arrival in Hr. destruct (_ && _); [by injection Hr as <-|].
       destruct (max_states limits <? _); [by injection Hr as <-|done]. }
  apply record_ok in Hr as (Hw2 & Hcp2 & _).
  assert (Hc3 : counted [item] e2) by (destruct Hc2; split; rewrite ?Hw2, ?Hcp2; done). rewrite <- Hcp2 in Hu.
  rewrite <- Hw2, <- Hcp2 in Htr1.
  pose proof (follow_ups_safe (item_pc item) insn (item_state item) Hs Hsafe) as Hf.
  assert (Hexp : safely (fun nexts => Forall (fun next => state_typed (snd next)) nexts) (successors (item_pc item) insn (item_state item)) ->
    expand program item insn under e2 = Err f -> message f <> Panicked).
  { intros Hsucc. unfold expand. destruct (successors _ _ _) as [nexts|f']; cbn [rbind]; [|by intros [= <-]]. cbn zeta.
    set (seg := if negb _ : bool then [] else history item). set (regs := precision_regs _ _ _).
    assert (Hseg : seg_inside program seg).
    { unfold seg. destruct (negb _); [by apply Forall_nil_2|]. destruct Htr as [[Hit _]%Forall_cons _]. done. }
    destruct (mark_chain_safe program (checkpoints e2) under seg regs) as [cps Hm]; [apply Hc3|done|done|apply Htr1|].
    rewrite Hm. cbn [or_panic rbind]. apply mark_chain_kept in Hm.
    set (items := map _ (rev nexts)).
    assert (Hitems : Forall (fun it => below (last_cp it) (length (checkpoints e2))) items).
    { apply Forall_map, Forall_forall. intros x _. exact Hu. }
    assert (Hlen : (length (checkpoints e2) <= length (checkpoints (set_checkpoints cps e2)))%nat).
    { cbn [set_checkpoints checkpoints]. by rewrite <- (length_map kept cps), Hm, length_map. }
    pose proof (kept_counted _ _ _ Hm Hc3) as Hc4.
    destruct (push_items_safe [item] (length (checkpoints e2)) items _ Hitems Hlen Hc4) as [e3 He3]. rewrite He3.
    apply push_items_inv in He3 as ->. cbn [mbind option_bind].
    apply Hconsume. by eapply fold_push_counted. }
  destruct insn; try (by apply Hexp). cbn [follow_ups] in Hf.
  destruct (0 <? curframe (item_state item)).
  - destruct (is_stack_ptr _); [by intros [= <-]|]. set (it := mkItem _ _ _ _).
    assert (Hb : below (last_cp it) (length (checkpoints e2))) by (destruct Hc3 as [_ Hf3 _]; by apply Forall_cons in Hf3 as [? _]).
    destruct (push_safe [item] e2 it Hb Hc3) as [e3 He3]. rewrite He3. apply push_item_inv in He3 as ->. cbn [mbind option_bind].
    apply Hconsume. by apply push_counted.
  - pose proof (check_exit_safe (item_pc item) (item_state item)) as Hx.
    destruct (check_exit _ _) as [[]|f']; [by apply Hconsume|]. by intros [= <-].
Qed.

Lemma reached_traced program heads limits l e :
  reached program heads limits l e -> traced program (worklist e) (checkpoints e).
Proof.
  induction 1 as [|e item e1 e2 _ IH Hp Hi]; [split; repeat constructor|].
  eapply process_traced; [|exact Hi]. unfold pop in Hp. destruct e as [[|it rest] ? ? ? ? ? ? ? ? ?]; [done|].
  by injection Hp as <- <-.
Qed.

Section typed_exploration.
Context (program : list BpfInsn) (loop_heads : list Z) (limits : VerifierLimits) (l : Liveness).
Context (program_safe : forall insn, In insn program -> insn_safe insn = true).

Lemma reached_typed e :
  reached program loop_heads limits l e -> Forall (fun it => state_typed (item_state it)) (worklist e).
Proof.
  induction 1 as [|e item e1 e2 _ IH Hp Hi]; [apply Forall_cons_2; [apply initial_typed|apply Forall_nil_2]|].
  unfold pop in Hp. destruct (worklist e) as [|it rest]; [done|]. injection Hp as -> <-.
  apply Forall_cons in IH as [Hit Hrest]. apply process_ok in Hi as (_ & _ & insn & Hinsn & [Hpr|Ha]).
  - rewrite (pr_worklist _ _ _ _ Hpr). done.
  - destruct (adv_follow _ _ _ _ _ _ Ha) as (nexts & new & Hf & -> & Hn). cbn [worklist]. apply Forall_app. split; [|done].
    pose proof (follow_ups_safe (item_pc item) insn (item_state item) Hit
      (program_safe _ (proj1 (list_elem_of_In _ _) (list_elem_of_lookup_2 _ _ _ Hinsn)))) as Hs.
    rewrite Hf in Hs. cbn [safely] in Hs. rewrite <- Hn in Hs. rewrite List.Forall_map in Hs. exact Hs.
Qed.

Lemma explore_safe fuel : forall e f,
  reached program loop_heads limits l e ->
  explore fuel program loop_heads limits l (compute_prune_points program) e = Some (Err f) -> message f <> Panicked.
Proof.
  induction fuel as [|fuel IH]; intros e f Hr; [done|]. simpl. destruct (pop e) as [[item e1]|] eqn:Hp; [|done].
  destruct (process _ _ _ _ _ item e1) as [e2|f'] eqn:Hi.
  - apply IH. by eapply reached_next.
  - intros [= <-]. pose proof (reached_typed _ Hr) as Ht. destruct (reached_closed _ _ _ _ _ Hr) as [done' [_ _ Hv]].
    unfold pop in Hp. destruct (worklist e) as [|it rest] eqn:Hw; [done|]. injection Hp as -> <-.
    apply Forall_cons in Ht as [Ht _]. destruct (reached_counted _ _ _ _ _ Hr) as [Hc1 Hc2 Hc3].
    pose proof (reached_traced _ _ _ _ _ Hr) as Htr. rewrite Hw in Hc2, Hc3, Htr. cbn [app] in Hc2, Hc3.
    revert Hi. apply process_safe; [exact Ht|exact program_safe|by split|exact Htr|].
    apply Forall_forall. cbn [visited checkpoints]. intros i Hin.
    destruct (Hv _ _ Hin) as (cp & _ & Hcp & _). by eapply lookup_lt_Some.
Qed.
End typed_exploration.

Lemma mini_safe (program : list BpfInsn) (loop_heads : list Z) (limits : VerifierLimits)
    (f : VerificationFailure) :
  (forall insn, insn ∈ program -> insn_decoded insn = true) ->
  verify_mini_core program loop_heads limits = Some (Err f) -> message f = Panicked ->
  BpfInsn.Call 202 ∈ program \/ returns_past_end program.
Proof.
  intros Hp. unfold verify_mini_core. destruct (decide (BpfInsn.Call 202 ∈ program)) as [Hin|Hin]; [by left|].
  destruct (flow_inside program) eqn:Hf; [|right; by apply flow_inside_spec].
  destruct (analyze_ok program Hf) as (l & -> & _).
  destruct (explore _ _ _ _ _ _ _) as [[e|f']|] eqn:He; try done. intros [= <-] Hm. exfalso.
  eapply explore_safe; [|apply reached_start|exact He|exact Hm].
  intros insn Hi. apply list_elem_of_In in Hi. apply decoded_safe; [by apply Hp|]. by intros ->.
Qed.

(** C10: for a program of decoded instructions, whatever the loop heads and the
    limits, the exploration can panic in two ways only: [bpf_dynptr_write] (Call 202)
    occurs in the program, or the program ends with a call into a subprogram with an
    exit, where the liveness analysis panics before the exploration starts (and it
    always does).  Otherwise no failed [expect], no index past the end (the stored
    states, their parents and segments, the recorded instructions) and no branch
    count below zero arises. *)
Theorem exploration_no_panic (program : list BpfInsn) (loop_heads : list Z) (limits : VerifierLimits) :
  (forall insn, insn ∈ program -> insn_decoded insn = true) ->
  (forall f, verify_mini_core program loop_heads limits = Some (Err f) -> message f = Panicked ->
     BpfInsn.Call 202 ∈ program \/ returns_past_end program) /\
  (returns_past_end program -> verify_mini_core program loop_heads limits = Some (fail 0 Panicked)).
Proof.
  intros Hp. split; [intros f; by apply mini_safe|]. intros Hr%flow_inside_spec.
  unfold verify_mini_core. by rewrite (analyze_panics program Hr).
Qed.

Definition rejected_example : list BpfInsn := [BpfInsn.LdMem 0 10 (-8) MemSize.DW false; BpfInsn.Exit].
Lemma exploration_no_panic_witness :
  exists f, verify_mini_core rejected_example [] default_limits = Some (Err f) /\ message f <> Panicked.
Proof.
  assert (H : match verify_mini_core rejected_example [] default_limits with Some (Err _) => true | _ => false end = true)
    by (vm_compute; reflexivity).
  destruct (verify_mini_core rejected_example [] default_limits) as [[r|f]|] eqn:E; try discriminate H.
  assert (Hd : forall insn, insn ∈ rejected_example -> insn_decoded insn = true).
  { intros insn [->|[->|Hn]%elem_of_cons]%elem_of_cons; [reflexivity|reflexivity|inversion Hn]. }
  exists f. split; [reflexivity|]. intros Hm.
  destruct (proj1 (exploration_no_panic rejected_example [] default_limits Hd) f E Hm) as [Hin|Hpast].
  - apply (bool_decide_eq_true_2 (BpfInsn.Call 202 ∈ rejected_example)) in Hin. discriminate Hin.
  - apply flow_inside_spec in Hpast. discriminate Hpast.
Defined.
