(* ===== verification/ConcreteMem.v ===== *)
(** Memory of the concrete machine (src/src/concrete.rs): the slots of a frame's
    stack, partial stores and loads on slot values, context and packet loads,
    atomic operations, and [concrete_step], the instructions with one successor.
    A panic of the code is an outcome of its own, apart from a failure of the
    program that runs. *)
From Stdlib Require Import ZArith Lia List Bool Btauto.
From stdpp Require Import base list.
From S2P Require Import Prelude Tnum Bounds Insn Alu Ctx State Concrete Mem.
Open Scope Z_scope.

(** Why the concrete execution stops: a failure it reports, or a panic. *)
Inductive Stop :=
| Failure (f : ConcreteFailure)
| Panic.
Definition lift {A} (r : result ConcreteFailure A) : result Stop A :=
  match r with Ok a => Ok a | Err f => Err (Failure f) end.
Definition cfail {A} (f : ConcreteFailure) : result Stop A := Err (Failure f).

(** * Slots *)

(** The slot of an access and the position of its lowest byte in the slot. *)
Definition concrete_stack_range (pc offset size : Z) : result Stop (nat * Z) :=
  if (0 <=? offset) || (offset <? - STACK_SIZE) then cfail (ConcreteFailure.StackOutOfFrame pc offset)
  else if size =? 0 then Err Panic (* [rem_euclid] by zero *)
  else if negb (rem_euclid offset size =? 0) then cfail (ConcreteFailure.MisalignedStackAccess pc offset)
  else if 0 <? offset + size then cfail (ConcreteFailure.StackOutOfFrame pc offset)
  else let b := - offset - 1 in Ok (Z.to_nat (b / 8), 7 - b mod 8).

Definition concrete_frame_stack (s : ConcreteState) (frameno : Z) : option (list (option ConcreteValue)) :=
  if frameno =? ccurframe s then Some (cstack s)
  else match csaved s !! Z.to_nat frameno with Some (Some g) => Some (cframe_stack g) | _ => None end.

Definition set_concrete_frame_stack (frameno : Z) (st : list (option ConcreteValue)) (s : ConcreteState)
  : ConcreteState :=
  if frameno =? ccurframe s
  then mkCState (cregs s) st (csaved s) (ccurframe s) (cret_pc s) (cprog_type s)
  else
    mkCState (cregs s) (cstack s)
      (alter (fmap (fun g => mkCFrame (cframe_regs g) st (cframe_ret_pc g))) (Z.to_nat frameno) (csaved s))
      (ccurframe s) (cret_pc s) (cprog_type s).

(** The low bytes of [value] in place of [size] bytes of a slot. *)
Definition merge_slot (existing : option ConcreteValue) (in_slot size : Z) (value : ConcreteValue) : ConcreteValue :=
  if (in_slot =? 0) && (size =? 8) then value
  else
    let low_mask := Z.ones (size * 8) in
    let raw := Z.land (bits value) low_mask in
    let lo_bit := in_slot * 8 in
    let old := match existing with Some v => bits v | None => 0 end in
    CScalar (Z.lor (Z.land old (unot 64 (as_u64 (Z.shiftl low_mask lo_bit)))) (as_u64 (Z.shiftl raw lo_bit))).

Definition concrete_merge (frameno : Z) (slot : nat) (in_slot size : Z) (value : ConcreteValue) (s : ConcreteState)
  : result Stop ConcreteState :=
  match concrete_frame_stack s frameno with
  | None => Err Panic
  | Some st =>
      Ok (set_concrete_frame_stack frameno
            (<[slot := Some (merge_slot (st !!! slot) in_slot size value)]> st) s)
  end.

Definition concrete_extract (value : ConcreteValue) (in_slot size : Z) (sign_extend : bool) : ConcreteValue :=
  if (in_slot =? 0) && (size =? 8) then value
  else
    let raw := Z.land (Z.shiftr (bits value) (in_slot * 8)) (Z.ones (size * 8)) in
    CScalar (as_u64 (extend raw (size * 8) sign_extend)).

Definition stack_ptr_frameno (pc r : Z) (base : ConcreteValue) : result Stop Z :=
  match base with
  | StackPtr _ frameno => Ok frameno
  | _ => cfail (ConcreteFailure.NonStackBase pc r)
  end.
Definition stack_ptr_access_offset (pc r : Z) (base : ConcreteValue) (off : Z) : result Stop Z :=
  match base with
  | StackPtr v _ => Ok (as_i32 (as_i64 v - STACK_BASE + off))
  | _ => cfail (ConcreteFailure.NonStackBase pc r)
  end.

(** The frame, slot and position an access through [base] touches. *)
Definition locate (pc r : Z) (base : ConcreteValue) (off size : Z) : result Stop (Z * Z * (nat * Z)) :=
  let? frameno := stack_ptr_frameno pc r base in
  let? offset := stack_ptr_access_offset pc r base off in
  let? place := concrete_stack_range pc offset size in
  Ok (frameno : Z, offset : Z, place : nat * Z).

(** * Loads and stores *)

(** The read of a base register; a register number out of range panics when the
    code indexes the array itself. *)
Definition lread (pc : Z) (s : ConcreteState) (r : Z) : result Stop ConcreteValue := lift (read_concrete_reg pc s r).

Definition concrete_store (pc : Z) (s : ConcreteState) (base off : Z) (size : MemSize)
    (value : result Stop (option ConcreteValue)) : result Stop ConcreteState :=
  let? base_value := lread pc s base in
  let size := MemSize.bytes size in
  let? place := locate pc base base_value off size in
  let '(frameno, _, (slot, in_slot)) := (place : Z * Z * (nat * Z)) in
  let? v := value in
  match v with
  | Some v => concrete_merge frameno slot in_slot size v s
  | None =>
      match concrete_frame_stack s frameno with
      | None => Err Panic
      | Some st => Ok (set_concrete_frame_stack frameno (<[slot := None]> st) s)
      end
  end.

Definition concrete_st_mem (pc : Z) (s : ConcreteState) (src base off : Z) (size : MemSize) : result Stop ConcreteState :=
  concrete_store pc s base off size (if NUM_REGS <=? src then Err Panic else Ok (creg s src)).
Definition concrete_st_imm (pc : Z) (s : ConcreteState) (imm base off : Z) (size : MemSize) : result Stop ConcreteState :=
  concrete_store pc s base off size (Ok (Some (CScalar (as_u64 imm)))).

Definition concrete_ctx_load (pc : Z) (s : ConcreteState) (dst addr off : Z) (size : MemSize)
  : result Stop ConcreteState :=
  let off := as_i32 (as_i64 (wsub 64 addr CTX_BASE) + off) in
  let size := MemSize.bytes size in
  match ctx_table_read (cprog_type s) off size with
  | Ok CtxScalar => Ok (set_creg dst (CScalar 0) s)
  | Ok (CtxPointer field) | Err (Unmodeled field) => cfail (ConcreteFailure.CtxReadUnsupported pc field)
  | Err Ctx.Invalid => cfail (ConcreteFailure.InvalidCtxAccess pc off size)
  end.

Definition concrete_ld_mem (pc : Z) (s : ConcreteState) (dst base off : Z) (size : MemSize) (sign_extend : bool)
  : result Stop ConcreteState :=
  let? _ := lift (check_concrete_reg pc dst) in
  let? base_value := lread pc s base in
  match base_value with
  | CtxPtr addr => concrete_ctx_load pc s dst addr off size
  | _ =>
      let? place := locate pc base base_value off (MemSize.bytes size) in
      let '(frameno, offset, (slot, in_slot)) := (place : Z * Z * (nat * Z)) in
      match concrete_frame_stack s frameno with
      | None => Err Panic
      | Some st =>
          match st !!! slot with
          | None => cfail (ConcreteFailure.UninitializedStackRead pc offset)
          | Some v => Ok (set_creg dst (concrete_extract v in_slot (MemSize.bytes size) sign_extend) s)
          end
      end
  end.

(** * Atomic operations *)

Definition scalar_or_zero (v : ConcreteValue) : Z := match v with CScalar v => v | _ => 0 end.
Definition is_cscalar (v : ConcreteValue) : bool := match v with CScalar _ => true | _ => false end.

(** The new word; [r0] is the value compared with by a compare-and-exchange. *)
Definition atomic_result (op : AtomicOp) (old src r0 : Z) : Z :=
  match op with
  | AtomicOp.Add => wadd 64 old src
  | AtomicOp.Or => Z.lor old src
  | AtomicOp.And => Z.land old src
  | AtomicOp.Xor => Z.lxor old src
  | AtomicOp.Xchg => src
  | AtomicOp.Cmpxchg => if old =? r0 then src else old
  end.

Definition concrete_atomic (pc : Z) (s : ConcreteState) (dst src off : Z) (size : MemSize) (op : AtomicOp)
    (fetch : bool) : result Stop ConcreteState :=
  let? base_value := lread pc s dst in
  let? src_value := lread pc s src in
  let nbytes := MemSize.bytes size in
  match base_value with
  | CtxPtr _ => cfail (ConcreteFailure.InvalidCtxAccess pc off nbytes)
  | _ =>
      if negb (Z.rem off nbytes =? 0) then cfail (ConcreteFailure.InternalError pc)
      else
        match src_value with
        | CScalar src_bits =>
            let? target :=
              match base_value with
              | StackPtr _ _ =>
                  let? place := locate pc dst base_value off nbytes in
                  let '(frameno, offset, (slot, in_slot)) := (place : Z * Z * (nat * Z)) in
                  match concrete_frame_stack s frameno with
                  | None => Err Panic
                  | Some st =>
                      match st !!! slot with
                      | None => cfail (ConcreteFailure.UninitializedStackRead pc offset)
                      | Some v => Ok (Some (frameno, slot, in_slot, if (nbytes =? 8) && (in_slot =? 0) then v else CScalar 0))
                      end
                  end
              | _ => Ok None
              end in
            let target := (target : option (Z * nat * Z * ConcreteValue)) in
            let old := match target with Some (_, _, _, v) => v | None => CScalar 0 end in
            let r0 := match read_concrete_reg pc s 0 with Ok v => scalar_or_zero v | Err _ => 0 end in
            let new := atomic_result op (scalar_or_zero old) src_bits r0 in
            let? next :=
              match target with
              | Some (frameno, slot, in_slot, _) =>
                  if (nbytes =? 8) && (in_slot =? 0) && is_cscalar old
                  then concrete_merge frameno slot 0 8 (CScalar new) s
                  else Ok s
              | None => Ok s
              end in
            Ok match op with
               | AtomicOp.Cmpxchg => set_creg 0 old next
               | _ => if fetch then set_creg src old next else next
               end
        | _ => cfail (ConcreteFailure.InternalError pc)
        end
  end.

(** * Instructions with one successor *)

Definition concrete_ld_ind (pc : Z) (s : ConcreteState) (src : Z) : result Stop ConcreteState :=
  let? _ := lread pc s src in Ok (set_creg 0 (CScalar 0) s).

Definition concrete_step (pc : Z) (s : ConcreteState) (insn : BpfInsn) : result Stop ConcreteState :=
  match concrete_step_reg pc s insn with
  | Some r => lift r
  | None =>
      match insn with
      | BpfInsn.Atomic dst src off size op fetch => concrete_atomic pc s dst src off size op fetch
      | BpfInsn.LdAbs _ _ => Ok (set_creg 0 (CScalar 0) s)
      | BpfInsn.LdInd src _ _ => concrete_ld_ind pc s src
      | BpfInsn.Jset _ _ _ | BpfInsn.JsetImm _ _ _ | BpfInsn.Jmp32 _ _ _ _ _ =>
          cfail (ConcreteFailure.InternalError pc)
      | BpfInsn.StMem src base off size => concrete_st_mem pc s src base off size
      | BpfInsn.StMemImm imm base off size => concrete_st_imm pc s imm base off size
      | BpfInsn.LdMem dst base off size sign_extend => concrete_ld_mem pc s dst base off size sign_extend
      | _ => Err Panic
      end
  end.

(** * Bytes of slot values *)

(** Byte [k] of a word, the lowest first. *)
Definition word_byte (x k : Z) : Z := Z.land (Z.shiftr x (8 * k)) 255.

(** The positions of an access of a slot. *)
Definition place_ok (in_slot size : Z) : Prop :=
  0 <= in_slot /\ 0 < size /\ in_slot + size <= 8 /\ (size = 8 -> in_slot = 0).

Lemma ones_bit n i : 0 <= n -> 0 <= i -> Z.testbit (Z.ones n) i = (i <? n).
Proof. intros. rewrite Z.testbit_ones by lia. destruct (Z.leb_spec 0 i); [done|lia]. Qed.

Lemma merged_bit old raw lo n i :
  0 <= lo -> 0 <= n -> lo + n <= 64 -> 0 <= i < 64 ->
  Z.testbit (Z.lor (Z.land old (unot 64 (as_u64 (Z.shiftl (Z.ones n) lo))))
               (as_u64 (Z.shiftl (Z.land raw (Z.ones n)) lo))) i =
    if (lo <=? i) && (i <? lo + n) then Z.testbit raw (i - lo) else Z.testbit old i.
Proof.
  intros Hlo Hn Hle Hi. rewrite Z.lor_spec, Z.land_spec, unot_spec, !as_u_spec, !Z.shiftl_spec by lia.
  rewrite (proj2 (Z.ltb_lt i 64)) by lia. cbn [andb]. rewrite Z.land_spec.
  destruct (Z.leb_spec lo i) as [Hge|Hlt].
  - rewrite !ones_bit by lia. destruct (Z.ltb_spec i (lo + n)), (Z.ltb_spec (i - lo) n); try lia; cbn; btauto.
  - rewrite !(Z.testbit_neg_r _ (i - lo)) by lia. cbn. btauto.
Qed.

Lemma word_byte_bit x k i :
  0 <= k -> 0 <= i -> Z.testbit (word_byte x k) i = (i <? 8) && Z.testbit x (i + 8 * k).
Proof.
  intros Hk Hi. unfold word_byte. change 255 with (Z.ones 8).
  rewrite Z.land_spec, Z.shiftr_spec, ones_bit by lia. apply andb_comm.
Qed.

Lemma word_byte_ext x y k k' :
  0 <= k -> 0 <= k' -> (forall i, 0 <= i < 8 -> Z.testbit x (i + 8 * k) = Z.testbit y (i + 8 * k')) ->
  word_byte x k = word_byte y k'.
Proof.
  intros Hk Hk' H. apply Z.bits_inj'. intros i Hi. rewrite !word_byte_bit by lia.
  destruct (Z.ltb_spec i 8); [|done]. simpl. apply H. lia.
Qed.

(** The word of a slot, zero when nothing was written. *)
Definition slot_bits (v : option ConcreteValue) : Z := match v with Some v => bits v | None => 0 end.

Lemma merge_byte e lo n v k :
  place_ok lo n -> 0 <= k < 8 ->
  word_byte (bits (merge_slot e lo n v)) k =
    if (lo <=? k) && (k <? lo + n) then word_byte (bits v) (k - lo) else word_byte (slot_bits e) k.
Proof.
  intros (H0 & Hn & Hle & Hfull) Hk. unfold merge_slot.
  destruct (Z.eqb_spec lo 0) as [->|]; cbn [andb]; [destruct (Z.eqb_spec n 8) as [->|]|].
  - rewrite (proj2 (Z.ltb_lt _ _)), Z.sub_0_r by lia. rewrite (proj2 (Z.leb_le _ _)) by lia. done.
  - cbn [bits]. destruct (Z.leb_spec 0 k); [|lia]. cbn [andb].
    destruct (Z.ltb_spec k (0 + n)); apply word_byte_ext; try lia; intros i Hi; rewrite merged_bit by lia;
      destruct (Z.leb_spec (0 * 8) (i + 8 * k)); try lia; destruct (Z.ltb_spec (i + 8 * k) (0 * 8 + n * 8)); try lia;
      cbn [andb]; [f_equal; lia|done].
  - cbn [bits]. destruct (Z.leb_spec lo k); cbn [andb]; [destruct (Z.ltb_spec k (lo + n))|];
      apply word_byte_ext; try lia; intros i Hi; rewrite merged_bit by lia;
      destruct (Z.leb_spec (lo * 8) (i + 8 * k)); try lia; cbn [andb]; try done;
      destruct (Z.ltb_spec (i + 8 * k) (lo * 8 + n * 8)); try lia; [f_equal; lia|done].
Qed.

(** What a load gives back of a stored value. *)
Definition loaded (v : ConcreteValue) (size : Z) (sign_extend : bool) : ConcreteValue :=
  if size =? 8 then v else CScalar (as_u64 (extend (Z.land (bits v) (Z.ones (size * 8))) (size * 8) sign_extend)).

Lemma extract_merge e lo n v sign_extend :
  place_ok lo n -> concrete_extract (merge_slot e lo n v) lo n sign_extend = loaded v n sign_extend.
Proof.
  intros (H0 & Hn & Hle & Hfull). unfold concrete_extract, merge_slot, loaded.
  destruct (Z.eqb_spec n 8) as [->|Hne]; [by rewrite (Hfull eq_refl)|]. rewrite andb_false_r. cbn [bits].
  do 3 f_equal. apply Z.bits_inj'. intros i Hi. rewrite !Z.land_spec, ones_bit, Z.shiftr_spec by lia.
  destruct (Z.ltb_spec i (n * 8)); [|by rewrite !andb_false_r]. rewrite !andb_true_r, merged_bit by lia.
  rewrite (proj2 (Z.leb_le _ _)), (proj2 (Z.ltb_lt _ _)) by lia. cbn [andb]. f_equal. lia.
Qed.

Lemma range_place pc offset (size : MemSize) slot lo :
  concrete_stack_range pc offset (MemSize.bytes size) = Ok (slot, lo) ->
  place_ok lo (MemSize.bytes size) /\ (slot < 64)%nat /\ -512 <= offset /\ offset + MemSize.bytes size <= 0 /\
  offset mod MemSize.bytes size = 0 /\
  Z.of_nat slot = (- offset - 1) / 8 /\ lo = offset mod 8.
Proof.
  unfold concrete_stack_range. destruct (Z.leb_spec 0 offset); [done|]. destruct (Z.ltb_spec offset (- STACK_SIZE)); [done|].
  cbn [orb]. destruct (Z.eqb_spec (MemSize.bytes size) 0) as [Hz|_]; [by destruct size|].
  destruct (Z.eqb_spec (offset mod MemSize.bytes size) 0) as [Hm|]; [|done]. cbn [negb].
  destruct (Z.ltb_spec 0 (offset + MemSize.bytes size)); [done|]. intros [= <- <-].
  assert (Hb : MemSize.bytes size = 1 \/ MemSize.bytes size = 2 \/ MemSize.bytes size = 4 \/ MemSize.bytes size = 8)
    by (destruct size; cbn; lia).
  assert (Hlo : 7 - (- offset - 1) mod 8 = offset mod 8) by div_lia.
  rewrite Hlo. unfold place_ok.
  assert (0 <= offset mod 8 < 8) by (apply Z.mod_pos_bound; lia).
  assert (H8 : offset mod 8 + MemSize.bytes size <= 8 /\ (MemSize.bytes size = 8 -> offset mod 8 = 0)).
  { destruct Hb as [Hb|[Hb|[Hb|Hb]]]; rewrite Hb in *; div_lia. }
  assert (0 <= (- offset - 1) / 8 < 64) by div_lia.
  rewrite Z2Nat.id by lia. split_and!; lia.
Qed.

Lemma cframe_stack_set s f st st' :
  concrete_frame_stack s f = Some st -> concrete_frame_stack (set_concrete_frame_stack f st' s) f = Some st'.
Proof.
  unfold concrete_frame_stack, set_concrete_frame_stack. destruct (f =? ccurframe s) eqn:Hf; cbn; [by rewrite Hf|].
  rewrite Hf, list_lookup_alter_eq. by destruct (csaved s !! Z.to_nat f) as [[g|]|].
Qed.

(** Frames below the current depth with different numbers do not overlap. *)
Lemma cframe_stack_other s f g st' :
  0 <= f -> 0 <= g -> f <> g -> concrete_frame_stack (set_concrete_frame_stack f st' s) g = concrete_frame_stack s g.
Proof.
  intros Hf Hg Hne. unfold concrete_frame_stack, set_concrete_frame_stack.
  destruct (Z.eqb_spec f (ccurframe s)) as [Hc|Hc]; cbn; destruct (Z.eqb_spec g (ccurframe s)); try done; try lia.
  rewrite list_lookup_alter_ne by lia. done.
Qed.

Lemma set_cframe_regs s f st : cregs (set_concrete_frame_stack f st s) = cregs s.
Proof. unfold set_concrete_frame_stack. by destruct (f =? ccurframe s). Qed.

Lemma locate_ok pc r v off (size : MemSize) f o slot lo :
  locate pc r v off (MemSize.bytes size) = Ok (f, o, (slot, lo)) ->
  exists addr, v = StackPtr addr f /\ o = as_i32 (as_i64 addr - STACK_BASE + off) /\
    concrete_stack_range pc o (MemSize.bytes size) = Ok (slot, lo).
Proof.
  unfold locate. intros H. apply rbind_ok in H as (f' & Hf & H). apply rbind_ok in H as (o' & Ho & H).
  apply rbind_ok in H as ((slot', lo') & Hr & H). destruct v as [|addr fr| | |]; try done.
  injection Hf as ->. injection Ho as <-. injection H as <- <- <- <-. by exists addr.
Qed.

Lemma lread_ok pc s r v : lread pc s r = Ok v -> r < 11 /\ creg s r = Some v.
Proof.
  unfold lread, read_concrete_reg, check_concrete_reg. destruct (Z.leb_spec NUM_REGS r); [done|]. simpl.
  destruct (creg s r); [|done]. by intros [= ->].
Qed.

Lemma lread_some pc s r v : r < 11 -> creg s r = Some v -> lread pc s r = Ok v.
Proof.
  intros Hr Hv. unfold lread, read_concrete_reg, check_concrete_reg. destruct (Z.leb_spec NUM_REGS r); [lia|].
  simpl. by rewrite Hv.
Qed.

(** What a store of [v] does, once it is accepted. *)
Lemma cstore_ok pc s base off size (v : ConcreteValue) s' :
  concrete_store pc s base off size (Ok (Some v)) = Ok s' ->
  exists addr f o slot lo st,
    creg s base = Some (StackPtr addr f) /\ base < 11 /\ locate pc base (StackPtr addr f) off (MemSize.bytes size) = Ok (f, o, (slot, lo)) /\
    concrete_frame_stack s f = Some st /\
    s' = set_concrete_frame_stack f (<[slot := Some (merge_slot (st !!! slot) lo (MemSize.bytes size) v)]> st) s.
Proof.
  unfold concrete_store. intros H. apply rbind_ok in H as (b & Hb & H). apply lread_ok in Hb as [Hlt Hb].
  apply rbind_ok in H as ([[f o] [slot lo]] & Hl & H). simpl in H.
  pose proof (locate_ok _ _ _ _ _ _ _ _ _ Hl) as (addr & -> & _ & _). unfold concrete_merge in H.
  destruct (concrete_frame_stack s f) as [st|] eqn:Hst; [|done]. injection H as <-.
  exists addr, f, o, slot, lo, st. by split_and!.
Qed.

(** A load reads back what the last store to the same address put there: the
    whole value, with its pointer kind, for eight bytes, the low bytes extended
    for less; and the store changes no register, no other slot, no other byte of
    the slot and no other frame. *)
Theorem store_load_roundtrip (pc pc' : Z) (s s' : ConcreteState) (base dst off : Z) (size : MemSize)
    (sign_extend : bool) (v : ConcreteValue) :
  0 <= dst < 11 -> (forall f st, concrete_frame_stack s f = Some st -> length st = 64%nat) ->
  concrete_store pc s base off size (Ok (Some v)) = Ok s' ->
  concrete_ld_mem pc' s' dst base off size sign_extend = Ok (set_creg dst (loaded v (MemSize.bytes size) sign_extend) s') /\
  cregs s' = cregs s /\
  exists f slot lo st st',
    concrete_frame_stack s f = Some st /\ concrete_frame_stack s' f = Some st' /\
    place_ok lo (MemSize.bytes size) /\
    (forall i, i <> slot -> st' !!! i = st !!! i) /\
    (forall k, 0 <= k < 8 -> ~ (lo <= k < lo + MemSize.bytes size) ->
       word_byte (slot_bits (st' !!! slot)) k = word_byte (slot_bits (st !!! slot)) k) /\
    (forall g, 0 <= f -> 0 <= g -> f <> g -> concrete_frame_stack s' g = concrete_frame_stack s g).
Proof.
  intros Hd Hlen Hs. destruct (cstore_ok _ _ _ _ _ _ _ Hs) as (addr & f & o & slot & lo & st & Hb & Hlt & Hl & Hst & ->).
  destruct (locate_ok _ _ _ _ _ _ _ _ _ Hl) as (a & [= <-] & Ho & Hr).
  destruct (range_place _ _ _ _ _ Hr) as (Hp & Hslot & _).
  assert (Hin : <[slot := Some (merge_slot (st !!! slot) lo (MemSize.bytes size) v)]> st !!! slot =
    Some (merge_slot (st !!! slot) lo (MemSize.bytes size) v)).
  { apply list_lookup_total_insert_eq. rewrite (Hlen f st Hst). done. }
  split; [|split; [apply set_cframe_regs|]].
  - unfold concrete_ld_mem, check_concrete_reg. destruct (Z.leb_spec NUM_REGS dst); [lia|]. cbn [lift rbind].
    rewrite (lread_some pc' _ base (StackPtr addr f)) by (done || (unfold creg; by rewrite set_cframe_regs)).
    cbn [rbind]. replace (locate pc' base (StackPtr addr f) off (MemSize.bytes size)) with
      (Ok (E := Stop) (f, o, (slot, lo))).
    2:{ clear -Hl. revert Hl. unfold locate, concrete_stack_range. cbn. by repeat case_match. }
    cbn [rbind]. rewrite (cframe_stack_set _ _ _ _ Hst), Hin, extract_merge by done. done.
  - exists f, slot, lo, st. eexists. split_and!; [done|by apply (cframe_stack_set _ _ _ _ Hst)|done|..].
    + intros i Hi. apply list_lookup_total_insert_ne. done.
    + intros k Hk Hout. rewrite Hin. cbn [slot_bits]. rewrite merge_byte by done.
      destruct (Z.leb_spec lo k), (Z.ltb_spec k (lo + MemSize.bytes size)); try done; lia.
    + intros g Hf Hg Hne. by apply cframe_stack_other.
Qed.

Definition stored_word : result Stop ConcreteState :=
  concrete_st_imm 0 (cinitial_with ProgType.SocketFilter) (-2) 10 (-4) MemSize.W.
Lemma store_load_roundtrip_witness :
  exists s', stored_word = Ok s' /\
    concrete_ld_mem 1 s' 3 10 (-4) MemSize.W true = Ok (set_creg 3 (CScalar (2 ^ 64 - 2)) s').
Proof.
  destruct stored_word as [s'|e] eqn:E; [|discriminate E]. exists s'. split; [reflexivity|].
  destruct (store_load_roundtrip 0 1 (cinitial_with ProgType.SocketFilter) s' 10 3 (-4) MemSize.W true
    (CScalar (as_u64 (-2)))) as [H _]; [lia| |exact E|exact H].
  intros f st. unfold concrete_frame_stack. simpl. destruct (f =? 0); [by intros [= <-]|].
  destruct (_ !! Z.to_nat f) as [[g|]|] eqn:Hg; try discriminate.
  change (replicate 15 (@None ConcreteFrame) !! Z.to_nat f = Some (Some g)) in Hg.
  by apply lookup_replicate_1 in Hg as [[=] _].
Defined.
