(* ===== verification/ConcreteRun.v ===== *)
(** The concrete exploration (src/src/concrete.rs): branches, helper calls and map
    accesses on exact values, the worklist that visits every reachable concrete
    state once, and the coverage check that compares the visited states with the
    analyzed abstract ones.  The theorems: the run ends within its budget, a
    conclusive run is closed under successors, and the check reports exactly the
    states no abstract state covers. *)
From Stdlib Require Import ZArith Lia List Bool.
From stdpp Require Import base list gmap.
From S2P Require Import Prelude Tnum Bounds Insn Alu Branch Ctx State Concrete Liveness Helper Mem ConcreteMem.
Open Scope Z_scope.

(** * Maps *)

Module MapType.
Inductive MapType := Array | Ringbuf.
End MapType.
Abbreviation MapType := MapType.MapType.

Record MapInfo := mkMapInfo {
  map_type : MapType;
  key_size : Z;
  value_size : Z;
  max_entries : Z
}.
Definition array_default : MapInfo := mkMapInfo MapType.Array 4 8 1.

(** The registry by descriptor, and the memory: cells by map, element and offset. *)
Definition Maps : Type := gmap Z MapInfo.
Definition MapMem : Type := gmap (Z * Z * Z) Z.

Definition csuccessor : Type := Z * ConcreteState.

(** * Branches *)

(** Whether the comparison of two values holds: equality for pointers of one kind,
    a nullable pointer against zero, and the bits of all other pairs. *)
Definition values_hold (pc dst src : Z) (op : CondOp) (d s : ConcreteValue) : result Stop bool :=
  let equality (eq : bool) :=
    match op with
    | CondOp.Eq => Ok eq
    | CondOp.Ne => Ok (negb eq)
    | _ => cfail (ConcreteFailure.InvalidComparison pc dst src)
    end in
  match d, s with
  | StackPtr d _, StackPtr s _ | CtxPtr d, CtxPtr s | MemPtr d, MemPtr s => equality (d =? s)
  | MapPtr _ _ _, MapPtr _ _ _ => equality (bool_decide (d = s))
  | MapPtr _ _ _, CScalar 0 | CScalar 0, MapPtr _ _ _ | MemPtr _, CScalar 0 | CScalar 0, MemPtr _ => equality false
  | _, _ => Ok (cond_holds op (bits d) (bits s))
  end.

Definition jump (pc offset : Z) (taken : bool) (s : ConcreteState) : list csuccessor :=
  [if taken then (branch_target pc offset, s) else (pc + 1, s)].

Definition concrete_cond (pc dst src offset : Z) (op : CondOp) (s : ConcreteState) : result Stop (list csuccessor) :=
  let? d := lread pc s dst in
  let? v := lread pc s src in
  let? taken := values_hold pc dst src op d v in
  Ok (jump pc offset taken s).

(** Against an immediate, sign-extended. *)
Definition immediate_holds (pc dst : Z) (op : CondOp) (d : ConcreteValue) (imm : Z) : result Stop bool :=
  let held := Ok (cond_holds op (bits d) (as_u64 imm)) in
  match d with
  | MapPtr _ _ _ | MemPtr _ =>
      if imm =? 0 then
        match op with
        | CondOp.Eq => Ok false
        | CondOp.Ne => Ok true
        | _ => cfail (ConcreteFailure.InvalidComparisonImm pc dst)
        end
      else held
  | _ => held
  end.

Definition concrete_cond_imm (pc dst imm offset : Z) (op : CondOp) (s : ConcreteState) : result Stop (list csuccessor) :=
  let? d := lread pc s dst in
  let? taken := immediate_holds pc dst op d imm in
  Ok (jump pc offset taken s).

Definition concrete_jset (pc dst src offset : Z) (s : ConcreteState) : result Stop (list csuccessor) :=
  let? d := lread pc s dst in
  let? v := lread pc s src in
  match d, v with
  | CScalar d, CScalar v => Ok (jump pc offset (negb (Z.land d v =? 0)) s)
  | _, _ => cfail (ConcreteFailure.InvalidComparison pc dst src)
  end.

Definition concrete_jset_imm (pc dst imm offset : Z) (s : ConcreteState) : result Stop (list csuccessor) :=
  let? d := lread pc s dst in
  match d with
  | CScalar d => Ok (jump pc offset (negb (Z.land d (as_u64 imm) =? 0)) s)
  | _ => cfail (ConcreteFailure.InvalidComparisonImm pc dst)
  end.

Definition concrete_jmp32 (pc dst : Z) (src imm : option Z) (offset : Z) (op : Jmp32Op) (s : ConcreteState)
  : result Stop (list csuccessor) :=
  let? d := lread pc s dst in
  match d with
  | CScalar d =>
      let? v :=
        match src, imm with
        | Some src, _ =>
            let? v := lread pc s src in
            match v with
            | CScalar v => Ok (as_u32 v)
            | _ => cfail (ConcreteFailure.InvalidComparison pc dst src)
            end
        | None, Some imm => Ok (as_u32 imm)
        | None, None => Err Panic
        end in
      Ok (jump pc offset (jmp32_holds op (as_u32 d) v) s)
  | _ => cfail (ConcreteFailure.InvalidComparisonImm pc dst)
  end.

(** * Helper calls *)

Definition concrete_arg_matches (expected : ArgType) (actual : ConcreteValue) : bool :=
  match expected, actual with
  | ArgType.PtrToStack, StackPtr _ _
  | ArgType.Scalar, CScalar _
  | ArgType.PtrToMap, MapPtr _ None _
  | ArgType.PtrToMem, MemPtr _
  | ArgType.PtrToDynptr, StackPtr _ _
  | ArgType.PtrToMapValue, MapPtr _ (Some _) _ => true
  | _, _ => false
  end.

Fixpoint check_concrete_args_from (pc r : Z) (args : list ArgType) (s : ConcreteState) : result Stop unit :=
  match args with
  | [] => Ok tt
  | expected :: args =>
      let? actual := lread pc s r in
      if concrete_arg_matches expected actual then check_concrete_args_from pc (r + 1) args s
      else cfail (ConcreteFailure.HelperArgMismatch pc r)
  end.
Definition check_concrete_helper_args (pc : Z) (helper : HelperPrototype) (s : ConcreteState) : result Stop unit :=
  check_concrete_args_from pc 1 (helper_args helper) s.

(** The argument registers are scratch. *)
Definition cclobber (s : ConcreteState) : ConcreteState :=
  mkCState (imap (fun r v => if (1 <=? r)%nat && (r <=? 5)%nat then None else v) (cregs s))
    (cstack s) (csaved s) (ccurframe s) (cret_pc s) (cprog_type s).

Definition helper_return_seeds (pc imm : Z) (return_type : RegState) : result Stop (list ConcreteValue) :=
  match return_type with
  | State.Scalar b =>
      if bounds_is_constant b then Ok [CScalar (as_u64 (smin b))] else Ok (map CScalar [0; 1; U64_MAX])
  | PtrToMemOrNull _ _ _ | PtrToMem _ _ _ _ _ => Ok [MemPtr 0x5000]
  | _ => cfail (ConcreteFailure.UnsupportedHelperReturn pc imm)
  end.

(** One successor per seed in [R0]. *)
Definition seeded (pc : Z) (s : ConcreteState) (seeds : list ConcreteValue) : list csuccessor :=
  map (fun seed => (pc + 1, set_creg 0 seed s)) seeds.

Definition concrete_call (pc imm : Z) (s : ConcreteState) : result Stop (list csuccessor) :=
  match helper_prototype imm with
  | None => cfail (ConcreteFailure.UnknownHelper pc imm)
  | Some helper =>
      let? _ := check_concrete_helper_args pc helper s in
      let? seeds := helper_return_seeds pc imm (return_type helper) in
      Ok (seeded pc (cclobber s) seeds)
  end.

(** A buffer of at most eight bytes on the stack, as a word. *)
Definition concrete_map_buffer (pc : Z) (s : ConcreteState) (r size : Z) : result Stop Z :=
  match creg s r with
  | Some (StackPtr addr frameno) =>
      if 8 <? size then cfail (ConcreteFailure.UnsupportedHelperReturn pc 0)
      else
        let offset := as_i32 (as_i64 addr - STACK_BASE) in
        let? place := concrete_stack_range pc offset size in
        let '(slot, in_slot) := (place : nat * Z) in
        match concrete_frame_stack s frameno with
        | None => Err Panic
        | Some st =>
            match st !!! slot with
            | None => cfail (ConcreteFailure.UninitializedStackRead pc offset)
            | Some v =>
                match concrete_extract v in_slot size false with
                | CScalar v => Ok v
                | _ => cfail (ConcreteFailure.PointerArithmetic pc r)
                end
            end
        end
  | _ => cfail (ConcreteFailure.HelperArgMismatch pc r)
  end.

(** [map_lookup_elem] forks over the element and NULL, [map_update_elem] writes
    the first cell of the element. *)
Definition concrete_map_call (pc imm : Z) (s : ConcreteState) (maps : Maps) (mem : MapMem)
  : result Stop (list csuccessor * MapMem) :=
  match creg s 1 with
  | Some (MapPtr fd None 0) =>
      match maps !! fd with
      | None => cfail (ConcreteFailure.HelperArgMismatch pc 1)
      | Some info =>
          let? index := concrete_map_buffer pc s 2 (key_size info) in
          let base := cclobber s in
          if imm =? 1 then
            Ok (seeded pc base
                  (if index <? max_entries info then [MapPtr fd (Some index) 0; CScalar 0] else [CScalar 0]), mem)
          else
            let? mem :=
              if index <? max_entries info then
                let? value := concrete_map_buffer pc s 3 (value_size info) in
                match creg s 4 with
                | Some (CScalar _) => Ok (<[(fd, index, 0) := value]> mem)
                | _ => cfail (ConcreteFailure.HelperArgMismatch pc 4)
                end
              else Ok mem in
            Ok (seeded pc base [CScalar 0], mem)
      end
  | _ => cfail (ConcreteFailure.HelperArgMismatch pc 1)
  end.

(** [state.regs[r]], which panics out of range. *)
Definition indexed {A} (r : Z) (k : result Stop A) : result Stop A := if NUM_REGS <=? r then Err Panic else k.

(** The eight-byte cell a map-value access touches. *)
Definition map_cell (pc base off : Z) (s : ConcreteState) (maps : Maps) : result Stop (Z * Z * Z) :=
  match creg s base with
  | Some (MapPtr fd (Some index) base_offset) =>
      match maps !! fd with
      | None => cfail (ConcreteFailure.HelperArgMismatch pc base)
      | Some info =>
          match checked I64_MIN I64_MAX (base_offset + off) with
          | None => cfail (ConcreteFailure.MapValueOutOfBounds pc I64_MIN)
          | Some offset =>
              if (offset <? 0) || (value_size info <? offset + 8)
              then cfail (ConcreteFailure.MapValueOutOfBounds pc offset)
              else if negb (Z.rem offset 8 =? 0) then cfail (ConcreteFailure.MisalignedStackAccess pc (as_i32 offset))
              else Ok (fd, index, offset)
          end
      end
  | _ => cfail (ConcreteFailure.HelperArgMismatch pc base)
  end.

Definition concrete_map_load (pc dst base off : Z) (s : ConcreteState) (maps : Maps) (mem : MapMem)
  : result Stop (list csuccessor) :=
  let? addr := map_cell pc base off s maps in
  indexed dst (Ok [(pc + 1, set_creg dst (CScalar (default 0 (mem !! addr))) s)]).
Definition concrete_map_store (pc src base off : Z) (s : ConcreteState) (maps : Maps) (mem : MapMem)
  : result Stop (list csuccessor * MapMem) :=
  let? addr := map_cell pc base off s maps in
  let? value := lread pc s src in
  Ok ([(pc + 1, s)], <[addr := bits value]> mem).

(** * Successors *)

Definition is_map_ptr (v : option ConcreteValue) : bool :=
  match v with Some (MapPtr _ _ _) => true | _ => false end.

(** The caller's state; without a saved caller only the depth changes. *)
Definition creturned_state (s : ConcreteState) : ConcreteState :=
  default (mkCState (cregs s) (cstack s) (csaved s) (ccurframe s - 1) (cret_pc s) (cprog_type s))
    (creturn_from_subprog s).

Definition concrete_fall (pc : Z) (s : ConcreteState) (insn : BpfInsn) : result Stop (list csuccessor) :=
  let? next := concrete_step pc s insn in Ok [(pc + 1, next)].

(** [mem] is shared by all the paths of a run. *)
Definition concrete_successors (pc : Z) (insn : BpfInsn) (s : ConcreteState) (maps : Maps) (mem : MapMem)
  : result Stop (list csuccessor * MapMem) :=
  let same (r : result Stop (list csuccessor)) := let? l := r in Ok (l, mem) in
  match insn with
  | BpfInsn.Exit =>
      same (Ok (if ccurframe s =? 0 then []
                else [(pc + 1, creturned_state s)]))
  | BpfInsn.CallSub offset =>
      same (let? callee := lift (ccall_subprog s (pc + 1)) in Ok [(as_u32 (as_i32 pc + 1 + offset), callee)])
  | BpfInsn.CallKfunc _ => cfail (ConcreteFailure.UnsupportedKfunc pc)
  | BpfInsn.Jmp offset => same (Ok [(branch_target pc offset, s)])
  | BpfInsn.Jeq dst src offset => same (concrete_cond pc dst src offset CondOp.Eq s)
  | BpfInsn.Jne dst src offset => same (concrete_cond pc dst src offset CondOp.Ne s)
  | BpfInsn.Jgt dst src offset => same (concrete_cond pc dst src offset CondOp.Ugt s)
  | BpfInsn.Jge dst src offset => same (concrete_cond pc dst src offset CondOp.Uge s)
  | BpfInsn.Jlt dst src offset => same (concrete_cond pc dst src offset CondOp.Ult s)
  | BpfInsn.Jle dst src offset => same (concrete_cond pc dst src offset CondOp.Ule s)
  | BpfInsn.Jsgt dst src offset => same (concrete_cond pc dst src offset CondOp.Sgt s)
  | BpfInsn.Jsge dst src offset => same (concrete_cond pc dst src offset CondOp.Sge s)
  | BpfInsn.Jslt dst src offset => same (concrete_cond pc dst src offset CondOp.Slt s)
  | BpfInsn.Jsle dst src offset => same (concrete_cond pc dst src offset CondOp.Sle s)
  | BpfInsn.JeqImm dst imm offset => same (concrete_cond_imm pc dst imm offset CondOp.Eq s)
  | BpfInsn.JneImm dst imm offset => same (concrete_cond_imm pc dst imm offset CondOp.Ne s)
  | BpfInsn.JgtImm dst imm offset => same (concrete_cond_imm pc dst imm offset CondOp.Ugt s)
  | BpfInsn.JgeImm dst imm offset => same (concrete_cond_imm pc dst imm offset CondOp.Uge s)
  | BpfInsn.JltImm dst imm offset => same (concrete_cond_imm pc dst imm offset CondOp.Ult s)
  | BpfInsn.JleImm dst imm offset => same (concrete_cond_imm pc dst imm offset CondOp.Ule s)
  | BpfInsn.JsgtImm dst imm offset => same (concrete_cond_imm pc dst imm offset CondOp.Sgt s)
  | BpfInsn.JsgeImm dst imm offset => same (concrete_cond_imm pc dst imm offset CondOp.Sge s)
  | BpfInsn.JsltImm dst imm offset => same (concrete_cond_imm pc dst imm offset CondOp.Slt s)
  | BpfInsn.JsleImm dst imm offset => same (concrete_cond_imm pc dst imm offset CondOp.Sle s)
  | BpfInsn.Jset dst src offset => same (concrete_jset pc dst src offset s)
  | BpfInsn.JsetImm dst imm offset => same (concrete_jset_imm pc dst imm offset s)
  | BpfInsn.Jmp32 dst src imm offset op => same (concrete_jmp32 pc dst src imm offset op s)
  | BpfInsn.Call imm =>
      if (imm =? 1) || (imm =? 2) then concrete_map_call pc imm s maps mem else same (concrete_call pc imm s)
  | BpfInsn.LdMapFd dst fd _ _ _ => same (indexed dst (Ok [(pc + 1, set_creg dst (MapPtr fd None 0) s)]))
  | BpfInsn.LdMapValue dst fd offset _ _ => same (indexed dst (Ok [(pc + 1, set_creg dst (MapPtr fd (Some 0) offset) s)]))
  | BpfInsn.LdMem dst base off _ _ =>
      indexed base
        (if is_map_ptr (creg s base) then same (concrete_map_load pc dst base off s maps mem)
         else same (concrete_fall pc s insn))
  | BpfInsn.StMem src base off _ =>
      indexed base
        (if is_map_ptr (creg s base) then concrete_map_store pc src base off s maps mem
         else same (concrete_fall pc s insn))
  | _ => same (concrete_fall pc s insn)
  end.

(** * The exploration *)

Record ConcreteLimits := mkCLimits {
  cmax_states : Z;
  cmax_steps : Z;
  cmax_loop_iterations : Z;
  climit_prog_type : ProgType
}.
Definition default_climits : ConcreteLimits := mkCLimits 1024 100000 256 ProgType.SocketFilter.

Record ConcreteOutcome := mkOutcome { outcome_pc : Z; outcome_state : ConcreteState }.

Record ConcreteRun := mkRun {
  run_visited : list csuccessor;
  run_outcomes : list ConcreteOutcome;
  inconclusive : bool;
  no_exit : bool
}.

#[global] Instance cframe_eq_dec : EqDecision ConcreteFrame.
Proof. solve_decision. Defined.
#[global] Instance cstate_eq_dec : EqDecision ConcreteState.
Proof. solve_decision. Defined.

(** Dead registers, but the frame pointer, and dead slots are dropped. *)
Definition clean_concrete_state (s : ConcreteState) (pc : Z) (l : Liveness) : ConcreteState :=
  let live_regs := live_regs_before l (Z.to_nat pc) in
  let live_stack := live_stack_before l (Z.to_nat pc) in
  mkCState
    (imap (fun r v => if negb (r =? 10)%nat && negb (Z.testbit live_regs (Z.of_nat r)) then None else v) (cregs s))
    (imap (fun i v => if Z.testbit live_stack (Z.of_nat i) then v else None) (cstack s))
    (csaved s) (ccurframe s) (cret_pc s) (cprog_type s).

Record Run := mkRunState {
  cworklist : list csuccessor;                (* the head is popped next *)
  seen : gmap Z (list ConcreteState);
  visited_order : list csuccessor;
  cloop_iters : gmap Z Z;
  outcomes : list ConcreteOutcome;
  csteps : Z;
  explored : Z;
  map_mem : MapMem
}.

Definition start_run (limits : ConcreteLimits) : Run :=
  mkRunState [(0, cinitial_with (climit_prog_type limits))] ∅ [] ∅ [] 0 0 ∅.

Definition stop_run (r : Run) : ConcreteRun := mkRun (visited_order r) (outcomes r) true false.
Definition end_run (r : Run) : ConcreteRun :=
  mkRun (visited_order r) (outcomes r) false (match outcomes r with [] => true | _ => false end).

(** The new paths, the last one popped first. *)
Definition push_paths (l : list csuccessor) (mem : MapMem) (r : Run) : Run :=
  mkRunState (rev l ++ cworklist r) (seen r) (visited_order r) (cloop_iters r) (outcomes r) (csteps r) (explored r) mem.

(** A state seen for the first time: recorded, and counted for its loop head. *)
Definition record_visit (loop_heads : list Z) (l : Liveness) (pc : Z) (s : ConcreteState) (r : Run) : Run :=
  let is_head := existsb (Z.eqb pc) loop_heads in
  mkRunState (cworklist r) (<[pc := default [] (seen r !! pc) ++ [s]]> (seen r))
    (visited_order r ++ [(pc, clean_concrete_state s pc l)])
    (if is_head then <[pc := default 0 (cloop_iters r !! pc) + 1]> (cloop_iters r) else cloop_iters r)
    (outcomes r) (csteps r) (explored r + 1) (map_mem r).

Definition over_budget (loop_heads : list Z) (limits : ConcreteLimits) (pc : Z) (r : Run) : bool :=
  (existsb (Z.eqb pc) loop_heads && (cmax_loop_iterations limits <? default 0 (cloop_iters r !! pc))) ||
  (cmax_states limits <? explored r).

Definition add_outcome (pc : Z) (s : ConcreteState) (r : Run) : Run :=
  mkRunState (cworklist r) (seen r) (visited_order r) (cloop_iters r)
    (if existsb (fun o => bool_decide (outcome_state o = s)) (outcomes r) then outcomes r
     else outcomes r ++ [mkOutcome pc s]) (csteps r) (explored r) (map_mem r).

Definition is_stack_value (v : option ConcreteValue) : bool :=
  match v with Some (StackPtr _ _) => true | _ => false end.

(** The instruction of a new state: an exit ends the path or returns, every other
    one pushes its successors. *)
Definition run_insn (program : list BpfInsn) (maps : Maps) (pc : Z) (s : ConcreteState) (r : Run)
  : result Stop Run :=
  match program !! Z.to_nat pc with
  | None => cfail (ConcreteFailure.InternalError pc)
  | Some BpfInsn.Exit =>
      if 0 <? ccurframe s then
        if is_stack_value (creg s 0) then cfail (ConcreteFailure.PointerArithmetic pc 0)
        else Ok (push_paths [(cret_pc s, creturned_state s)] (map_mem r) r)
      else
        match read_concrete_reg pc s 0 with
        | Ok _ => Ok (add_outcome pc s r)
        | Err _ => cfail (ConcreteFailure.UninitializedRead pc 0)
        end
  | Some insn =>
      let? out := concrete_successors pc insn s maps (map_mem r) in
      let '(nexts, mem) := (out : list csuccessor * MapMem) in
      Ok (push_paths nexts mem r)
  end.

(** One turn of the loop: [inl] ends the run. *)
Definition run_step (program : list BpfInsn) (loop_heads : list Z) (limits : ConcreteLimits) (maps : Maps)
    (l : Liveness) (r : Run) : result Stop (ConcreteRun + Run) :=
  match cworklist r with
  | [] => Ok (inl (end_run r))
  | (pc, s) :: rest =>
      let r := mkRunState rest (seen r) (visited_order r) (cloop_iters r) (outcomes r) (csteps r + 1) (explored r)
                 (map_mem r) in
      if cmax_steps limits <? csteps r then Ok (inl (stop_run r))
      else if bool_decide (s ∈ default [] (seen r !! pc)) then Ok (inr r)
      else
        let r := record_visit loop_heads l pc s r in
        if over_budget loop_heads limits pc r then Ok (inl (stop_run r))
        else let? next := run_insn program maps pc s r in Ok (inr next)
  end.

Fixpoint run_loop (fuel : nat) (program : list BpfInsn) (loop_heads : list Z) (limits : ConcreteLimits) (maps : Maps)
    (l : Liveness) (r : Run) : option (result Stop ConcreteRun) :=
  match fuel with
  | O => None
  | S fuel =>
      match run_step program loop_heads limits maps l r with
      | Ok (inl run) => Some (Ok run)
      | Ok (inr r) => run_loop fuel program loop_heads limits maps l r
      | Err e => Some (Err e)
      end
  end.

(** Every turn counts a step, and one more than [max_steps] ends the run. *)
Definition run_fuel (limits : ConcreteLimits) : nat := Z.to_nat (cmax_steps limits) + 2.

Definition run_concrete_with_maps (program : list BpfInsn) (loop_heads : list Z) (limits : ConcreteLimits) (maps : Maps)
  : option (result Stop ConcreteRun) :=
  match analyze program with
  | None => None
  | Some (Err _) => Some (Err Panic)
  | Some (Ok l) => run_loop (run_fuel limits) program loop_heads limits maps l (start_run limits)
  end.

(** * The coverage check *)

Inductive CoverageKind := AbstractMissedPc | NotCovered.
Record CoverageViolation := mkViolation {
  violation_pc : Z;
  kind : CoverageKind;
  concrete : ConcreteState;
  abstract_states : list VerifierState
}.

(** The violation at one visited state, if any. *)
Definition report (abstract : gmap Z (list VerifierState)) (p : csuccessor) : list CoverageViolation :=
  let '(pc, c) := p in
  match abstract !! pc with
  | None => [mkViolation pc AbstractMissedPc c []]
  | Some candidates =>
      if existsb (fun a => state_covers a c) candidates then [] else [mkViolation pc NotCovered c candidates]
  end.
Definition check_coverage (abstract : gmap Z (list VerifierState)) (run : ConcreteRun) : list CoverageViolation :=
  flat_map (report abstract) (run_visited run).

(** * The run *)

Section run.
Context (program : list BpfInsn) (loop_heads : list Z) (limits : ConcreteLimits) (maps : Maps) (l : Liveness).

(** The instruction loads from a map value, the one case where the successors
    depend on the contents of the map memory. *)
Definition reads_map (insn : BpfInsn) (s : ConcreteState) : bool :=
  match insn with BpfInsn.LdMem _ base _ _ _ => is_map_ptr (creg s base) | _ => false end.

(** Where the paths from a visited state lead, among [points]; an exit of the main
    program is an outcome instead.  An instruction succeeds whatever the contents of
    the map memory; a load from a map value is followed for some contents only. *)
Definition moves_on (points : list csuccessor) (pc : Z) (s : ConcreteState) (insn : BpfInsn) : Prop :=
  (exists mem nexts mem', concrete_successors pc insn s maps mem = Ok (nexts, mem') /\ forall q, q ∈ nexts -> q ∈ points) /\
  (forall mem, exists nexts mem', concrete_successors pc insn s maps mem = Ok (nexts, mem') /\
     (reads_map insn s = false -> forall q, q ∈ nexts -> q ∈ points)).
Definition expanded (points : list csuccessor) (outs : list ConcreteOutcome) (p : csuccessor) : Prop :=
  let '(pc, s) := p in
  match program !! Z.to_nat pc with
  | None => False
  | Some BpfInsn.Exit =>
      if 0 <? ccurframe s
      then is_stack_value (creg s 0) = false /\ (cret_pc s, creturned_state s) ∈ points
      else is_Some (creg s 0) /\ exists o, o ∈ outs /\ outcome_state o = s
  | Some insn => moves_on points pc s insn
  end.

Definition is_outcome (raw : list csuccessor) (o : ConcreteOutcome) : Prop :=
  (outcome_pc o, outcome_state o) ∈ raw /\ program !! Z.to_nat (outcome_pc o) = Some BpfInsn.Exit /\
  ccurframe (outcome_state o) <= 0.

Definition cleaned (p : csuccessor) : csuccessor := (fst p, clean_concrete_state (snd p) (fst p) l).

Record run_inv (raw : list csuccessor) (r : Run) : Prop := {
  inv_order : visited_order r = map cleaned raw;
  inv_seen : forall pc s, (pc, s) ∈ raw <-> s ∈ default [] (seen r !! pc);
  inv_distinct : NoDup raw;
  inv_start : (0, cinitial_with (climit_prog_type limits)) ∈ raw ++ cworklist r;
  inv_expanded : forall p, p ∈ raw -> expanded (raw ++ cworklist r) (outcomes r) p;
  inv_outcomes : forall o, o ∈ outcomes r -> is_outcome raw o
}.

(** Only a load from a map value looks at the memory. *)
Lemma successors_memory pc insn s mem nexts mem' :
  concrete_successors pc insn s maps mem = Ok (nexts, mem') ->
  forall mem2, exists nexts2 mem2', concrete_successors pc insn s maps mem2 = Ok (nexts2, mem2') /\
    (reads_map insn s = false -> nexts2 = nexts).
Proof.
  assert (Hsame : forall (r : result Stop (list csuccessor)) mem, (let? x := r in Ok (x, mem)) = Ok (nexts, mem') ->
    forall mem2 : MapMem, exists nexts2 mem2', (let? x := r in Ok (x, mem2)) = Ok (nexts2, mem2') /\ nexts2 = nexts).
  { intros r m (x & -> & [= -> _])%rbind_ok mem2. exists nexts, mem2. done. }
  intros H mem2.
  destruct insn; cbn [concrete_successors] in H |- *; try discriminate H;
    try (destruct (Hsame _ _ H mem2) as (n2 & m2 & H2 & Hn2); by exists n2, m2).
  - unfold indexed in *. destruct (_ <=? _); [done|]. cbn [reads_map]. destruct (is_map_ptr _).
    + apply rbind_ok in H as (x & Hx & [= -> _]). unfold concrete_map_load in *.
      apply rbind_ok in Hx as (addr & -> & Hx). cbn [rbind]. unfold indexed in *. destruct (_ <=? _); [done|].
      do 2 eexists. split; [reflexivity|done].
    + destruct (Hsame _ _ H mem2) as (n2 & m2 & H2 & Hn2). by exists n2, m2.
  - unfold indexed in *. destruct (_ <=? _); [done|]. destruct (is_map_ptr _).
    + unfold concrete_map_store in *. apply rbind_ok in H as (addr & -> & H). cbn [rbind].
      apply rbind_ok in H as (v & -> & [= <- _]). cbn [rbind]. by do 2 eexists.
    + destruct (Hsame _ _ H mem2) as (n2 & m2 & H2 & Hn2). by exists n2, m2.
  - destruct (_ || _).
    + unfold concrete_map_call in *. destruct (creg s 1) as [[| | |fd [i|] []|]|]; try discriminate H.
      destruct (maps !! fd) as [info|]; [|done].
      apply rbind_ok in H as (index & -> & H). cbn [rbind]. destruct (imm =? 1); [injection H as <- _; by do 2 eexists|].
      apply rbind_ok in H as (m & Hm & [= <- _]). destruct (index <? _).
      * apply rbind_ok in Hm as (v & -> & Hm). cbn [rbind]. destruct (creg s 4) as [[]|]; try discriminate Hm.
        cbn [rbind]. by do 2 eexists.
      * cbn [rbind]. by do 2 eexists.
    + destruct (Hsame _ _ H mem2) as (n2 & m2 & H2 & Hn2). by exists n2, m2.
Qed.

Lemma expanded_mono points points' outs outs' p :
  (forall q, q ∈ points -> q ∈ points') -> (forall o, o ∈ outs -> o ∈ outs') ->
  expanded points outs p -> expanded points' outs' p.
Proof.
  intros Hp Ho. destruct p as [pc s]. unfold expanded. destruct (program !! Z.to_nat pc) as [insn|]; [|done].
  assert (Hn : moves_on points pc s insn -> moves_on points' pc s insn).
  { intros [(mem & nexts & mem' & He & Hq) Hall]. split; [exists mem, nexts, mem'; auto|].
    intros mem2. destruct (Hall mem2) as (nexts2 & mem2' & H2 & Hq2). exists nexts2, mem2'. auto. }
  destruct insn; try exact Hn. destruct (0 <? ccurframe s).
  - intros [H1 H2]. auto.
  - intros [H1 (o & H2 & H3)]. eauto.
Qed.

(** The states a path reaches up to its first load from a map value, whatever the
    map memory holds at each instruction. *)
Inductive reaches : csuccessor -> Prop :=
| reaches_start : reaches (0, cinitial_with (climit_prog_type limits))
| reaches_next pc s insn mem nexts mem' q :
    reaches (pc, s) -> program !! Z.to_nat pc = Some insn -> insn <> BpfInsn.Exit -> reads_map insn s = false ->
    concrete_successors pc insn s maps mem = Ok (nexts, mem') -> q ∈ nexts -> reaches q
| reaches_return pc s :
    reaches (pc, s) -> program !! Z.to_nat pc = Some BpfInsn.Exit -> 0 < ccurframe s ->
    reaches (cret_pc s, creturned_state s).

Lemma closed_reaches points outs :
  (0, cinitial_with (climit_prog_type limits)) ∈ points -> (forall p, p ∈ points -> expanded points outs p) ->
  forall p, reaches p -> p ∈ points.
Proof.
  intros Hs He p. induction 1 as [|pc s insn mem nexts mem' q _ IH Hi Hx Hm Hn Hq|pc s _ IH Hi Hc]; [done| |];
    specialize (He _ IH); unfold expanded in He; rewrite Hi in He.
  - assert (Hmove : moves_on points pc s insn) by by destruct insn. destruct Hmove as [_ Hall].
    destruct (Hall mem) as (nexts2 & m2 & H2 & Hq2). rewrite Hn in H2. injection H2 as <- <-. by apply Hq2.
  - rewrite (proj2 (Z.ltb_lt _ _) Hc) in He. apply He.
Qed.

Lemma start_run_inv : run_inv [] (start_run limits).
Proof.
  split; try done.
  - intros pc s. simpl. rewrite lookup_empty. split; intros H; by apply not_elem_of_nil in H.
  - constructor.
  - simpl. by left.
  - intros p Hp. apply not_elem_of_nil in Hp. done.
  - intros o Ho. apply not_elem_of_nil in Ho. done.
Qed.

Lemma seen_insert (r : Run) pc s pc' s' :
  s' ∈ default [] (<[pc := default [] (seen r !! pc) ++ [s]]> (seen r) !! pc') <->
  s' ∈ default [] (seen r !! pc') \/ (pc' = pc /\ s' = s).
Proof.
  destruct (decide (pc' = pc)) as [->|Hne].
  - rewrite lookup_insert_eq. simpl. rewrite elem_of_app, list_elem_of_singleton. intuition.
  - rewrite lookup_insert_ne by done. intuition congruence.
Qed.

(** What [run_insn] adds to the run. *)
Lemma run_insn_ok pc s r r' :
  run_insn program maps pc s r = Ok r' ->
  visited_order r' = visited_order r /\ seen r' = seen r /\
  exists new, cworklist r' = new ++ cworklist r /\
    (forall o, o ∈ outcomes r -> o ∈ outcomes r') /\
    (forall o, o ∈ outcomes r' -> o ∈ outcomes r \/
       (o = mkOutcome pc s /\ program !! Z.to_nat pc = Some BpfInsn.Exit /\ ccurframe s <= 0)) /\
    expanded new (outcomes r') (pc, s).
Proof.
  unfold run_insn, expanded. destruct (program !! Z.to_nat pc) as [insn|]; [|done].
  assert (Hn : (let? out := concrete_successors pc insn s maps (map_mem r) in
      let '(nexts, mem) := (out : list csuccessor * MapMem) in Ok (push_paths nexts mem r)) = Ok r' ->
    visited_order r' = visited_order r /\ seen r' = seen r /\
    exists new, cworklist r' = new ++ cworklist r /\
      (forall o, o ∈ outcomes r -> o ∈ outcomes r') /\
      (forall o, o ∈ outcomes r' -> o ∈ outcomes r \/
        (o = mkOutcome pc s /\ Some insn = Some BpfInsn.Exit /\ ccurframe s <= 0)) /\
      moves_on new pc s insn).
  { intros ([nexts mem] & Hs & H)%rbind_ok. injection H as <-. cbn [push_paths visited_order seen cworklist outcomes].
    split; [done|]. split; [done|]. exists (rev nexts). split; [done|]. split; [done|].
    split; [by left|].
    assert (Hq : forall q, q ∈ nexts -> q ∈ rev nexts)
      by (intros q Hq; apply list_elem_of_In; rewrite <- in_rev; by apply list_elem_of_In).
    split; [by exists (map_mem r), nexts, mem|]. intros mem2.
    destruct (successors_memory pc insn s (map_mem r) nexts mem Hs mem2) as (nexts2 & mem2' & H2 & He).
    exists nexts2, mem2'. split; [done|]. intros Hm. by rewrite (He Hm). }
  destruct insn; try exact Hn. clear Hn. destruct (Z.ltb_spec 0 (ccurframe s)).
  - destruct (is_stack_value (creg s 0)); [done|]. intros [= <-]. cbn [push_paths visited_order seen cworklist outcomes].
    split; [done|]. split; [done|]. eexists. split; [reflexivity|]. split; [done|]. split; [by left|].
    split; [done|]. by left.
  - destruct (read_concrete_reg pc s 0) as [v|] eqn:Hr; [|done]. intros [= <-].
    assert (Hv : is_Some (creg s 0)).
    { unfold read_concrete_reg in Hr. simpl in Hr. destruct (creg s 0); [done|discriminate]. }
    unfold add_outcome. cbn [visited_order seen cworklist outcomes]. split; [done|]. split; [done|].
    exists []. split; [done|]. destruct (existsb _ (outcomes r)) eqn:He.
    + split; [done|]. split; [by left|]. split; [done|]. apply existsb_exists in He as (o & Ho & Heq).
      exists o. split; [by apply list_elem_of_In|]. by apply bool_decide_eq_true in Heq.
    + split; [intros o; rewrite elem_of_app; by left|]. split.
      * intros o. rewrite elem_of_app, list_elem_of_singleton. intros [?| ->]; [by left|by right].
      * split; [done|]. exists (mkOutcome pc s). split; [|done]. rewrite elem_of_app, list_elem_of_singleton. by right.
Qed.

Lemma run_step_ok raw r r' :
  run_inv raw r -> run_step program loop_heads limits maps l r = Ok (inr r') -> exists raw', run_inv raw' r'.
Proof.
  intros [Ho Hseen Hd Hst He Hout]. unfold run_step. destruct (cworklist r) as [|[pc s] rest] eqn:Hw; [done|].
  destruct (cmax_steps limits <? _); [done|]. cbn [seen]. case_bool_decide as Hin.
  - intros [= <-]. exists raw. apply Hseen in Hin.
    assert (Hsub : forall q, q ∈ raw ++ (pc, s) :: rest -> q ∈ raw ++ rest).
    { intros q. rewrite !elem_of_app, elem_of_cons. intros [?|[->|?]]; auto. }
    split; try done; cbn; [by apply Hsub|]. intros p Hp. eapply expanded_mono; [apply Hsub|done|by apply He].
  - destruct (over_budget _ _ _ _); [done|]. intros (next & Hn & H)%rbind_ok. injection H as <-.
    apply run_insn_ok in Hn as (Hvo & Hse & new & Hwl & Hmono & Hnew & Hexp).
    cbn [record_visit visited_order seen cworklist outcomes] in *.
    assert (Hsub : forall q, q ∈ raw ++ (pc, s) :: rest -> q ∈ (raw ++ [(pc, s)]) ++ new ++ rest).
    { intros q. rewrite !elem_of_app, elem_of_cons, list_elem_of_singleton. tauto. }
    exists (raw ++ [(pc, s)]). split.
    + rewrite Hvo, Ho. by rewrite map_app.
    + intros pc' s'. rewrite Hse, seen_insert, <- Hseen, elem_of_app, list_elem_of_singleton.
      intuition congruence.
    + apply NoDup_app. split; [done|]. split; [|apply NoDup_singleton].
      intros q Hq ->%list_elem_of_singleton. by apply Hin, Hseen.
    + rewrite Hwl. by apply Hsub.
    + rewrite Hwl. intros p [Hp| ->%list_elem_of_singleton]%elem_of_app.
      * eapply expanded_mono; [exact Hsub|exact Hmono|by apply He].
      * apply (expanded_mono new _ (outcomes next)); [|done|exact Hexp]. intros q. rewrite !elem_of_app. tauto.
    + intros o [Ho'|(-> & Hexit & Hc)]%Hnew.
      * destruct (Hout o Ho') as (H1 & H2 & H3). split; [|done]. apply elem_of_app. by left.
      * split; [|done]. apply elem_of_app. right. by left.
Qed.

Lemma run_loop_ok fuel raw r run :
  run_inv raw r -> run_loop fuel program loop_heads limits maps l r = Some (Ok run) ->
  inconclusive run = false ->
  exists raw r', run_inv raw r' /\ cworklist r' = [] /\ run = end_run r'.
Proof.
  revert raw r. induction fuel as [|fuel IH]; intros raw r Hr; [done|]. cbn [run_loop].
  destruct (run_step _ _ _ _ _ _) as [[done_run|r1]|e] eqn:Hs; [| |done].
  - intros [= <-] Hc. exists raw, r. split; [done|]. unfold run_step in Hs.
    destruct (cworklist r) as [|[pc s] rest]; [by injection Hs as <-|]. exfalso.
    destruct (cmax_steps limits <? _); [by injection Hs as <-|]. case_bool_decide; [done|].
    destruct (over_budget _ _ _ _); [by injection Hs as <-|]. by apply rbind_ok in Hs as (? & _ & ?).
  - destruct (run_step_ok raw r r1 Hr Hs) as [raw1 Hr1]. apply (IH raw1 r1 Hr1).
Qed.

(** Every turn counts a step. *)
Lemma run_step_steps r r' :
  run_step program loop_heads limits maps l r = Ok (inr r') ->
  csteps r' = csteps r + 1 /\ csteps r' <= cmax_steps limits.
Proof.
  unfold run_step. destruct (cworklist r) as [|[pc s] rest]; [done|]. cbn [csteps].
  destruct (Z.ltb_spec (cmax_steps limits) (csteps r + 1)); [done|]. case_bool_decide.
  - intros [= <-]. cbn. lia.
  - destruct (over_budget _ _ _ _); [done|]. intros (next & Hn & H')%rbind_ok. injection H' as <-.
    assert (Hst : csteps next = csteps r + 1); [|lia]. unfold run_insn in Hn.
    destruct (program !! Z.to_nat pc) as [insn|]; [|done].
    assert (Hx : forall x, (let? out := concrete_successors pc x s maps (map_mem r) in
      let '(nexts, mem) := (out : list csuccessor * MapMem) in
      Ok (push_paths nexts mem (record_visit loop_heads l pc s
        (mkRunState rest (seen r) (visited_order r) (cloop_iters r) (outcomes r) (csteps r + 1) (explored r)
           (map_mem r))))) = Ok next -> csteps next = csteps r + 1).
    { intros x ([nexts mem] & _ & Hp)%rbind_ok. by injection Hp as <-. }
    destruct insn; try (by eapply Hx; exact Hn). destruct (0 <? ccurframe s).
    + destruct (is_stack_value _); [done|]. by injection Hn as <-.
    + destruct (read_concrete_reg pc s 0); [|done]. by injection Hn as <-.
Qed.

Lemma run_loop_total fuel r :
  (Z.to_nat (cmax_steps limits + 1 - csteps r) < fuel)%nat ->
  exists res, run_loop fuel program loop_heads limits maps l r = Some res.
Proof.
  revert r. induction fuel as [|fuel IH]; intros r Hf; [lia|]. cbn [run_loop].
  destruct (run_step _ _ _ _ _ _) as [[done_run|r1]|e] eqn:Hs; [by eexists| |by eexists].
  destruct (run_step_steps r r1 Hs). apply IH. lia.
Qed.
End run.

Lemma concrete_run_total (program : list BpfInsn) (loop_heads : list Z) (limits : ConcreteLimits) (maps : Maps) :
  exists r, run_concrete_with_maps program loop_heads limits maps = Some r.
Proof.
  unfold run_concrete_with_maps. destruct (analyze_total program) as [[l|[]] ->]; [|by eexists].
  apply run_loop_total. unfold run_fuel. cbn. lia.
Qed.

(** The concrete run of any program ends within its step budget. *)
Theorem concrete_run_terminates (program : list BpfInsn) (loop_heads : list Z) (limits : ConcreteLimits) (maps : Maps) :
  exists r, run_concrete_with_maps program loop_heads limits maps = Some r.
Proof. apply concrete_run_total. Qed.

Lemma conclusive_closed (program : list BpfInsn) (loop_heads : list Z) (limits : ConcreteLimits) (maps : Maps)
    (l : Liveness) (run : ConcreteRun) :
  analyze program = Some (Ok l) ->
  run_concrete_with_maps program loop_heads limits maps = Some (Ok run) -> inconclusive run = false ->
  exists points, NoDup points /\ run_visited run = map (cleaned l) points /\
    (0, cinitial_with (climit_prog_type limits)) ∈ points /\
    (forall p, p ∈ points -> expanded program maps points (run_outcomes run) p) /\
    (forall o, o ∈ run_outcomes run -> is_outcome program points o) /\
    (no_exit run = true <-> run_outcomes run = []).
Proof.
  intros Hl. unfold run_concrete_with_maps. rewrite Hl. intros Hr Hc.
  destruct (run_loop_ok program loop_heads limits maps l _ _ _ _ (start_run_inv program limits maps l) Hr Hc)
    as (raw & r' & [Ho Hseen Hd Hst He Hout] & Hw & ->).
  rewrite Hw, app_nil_r in *. exists raw. cbn. split_and!; try done. by destruct (outcomes r').
Qed.

(** A conclusive run has seen everything: there is a list of distinct points,
    whose cleaned states are the visited ones in order, that contains the start;
    every point inside the program was executed without a failure, all its
    successors are points again (for a load from a map value: those for some contents
    of the map memory), the exits of the main program are exactly the outcomes, and
    [no_exit] says that there is none. *)
Theorem conclusive_run_closed (program : list BpfInsn) (loop_heads : list Z) (limits : ConcreteLimits) (maps : Maps)
    (l : Liveness) (run : ConcreteRun) :
  analyze program = Some (Ok l) ->
  run_concrete_with_maps program loop_heads limits maps = Some (Ok run) -> inconclusive run = false ->
  exists points, NoDup points /\ run_visited run = map (cleaned l) points /\
    (0, cinitial_with (climit_prog_type limits)) ∈ points /\
    (forall p, p ∈ points -> expanded program maps points (run_outcomes run) p) /\
    (forall o, o ∈ run_outcomes run -> is_outcome program points o) /\
    (no_exit run = true <-> run_outcomes run = []).
Proof. apply conclusive_closed. Qed.

Definition countdown : list BpfInsn :=
  [BpfInsn.MovImm 0 2; BpfInsn.SubImm 0 1; BpfInsn.JneImm 0 0 (-2); BpfInsn.Exit].
Definition small_climits : ConcreteLimits := mkCLimits 20 30 5 ProgType.SocketFilter.
Lemma conclusive_run_closed_witness :
  exists run points, run_concrete_with_maps countdown [1] small_climits ∅ = Some (Ok run) /\
    length points = 6%nat /\ (0, cinitial_with ProgType.SocketFilter) ∈ points /\ no_exit run = false.
Proof.
  destruct (analyze countdown) as [[l|]|] eqn:El; [|vm_compute in El; discriminate El..].
  destruct (run_concrete_with_maps countdown [1] small_climits ∅) as [[run|e]|] eqn:Er;
    [|vm_compute in Er; discriminate Er..].
  assert (Hc : inconclusive run = false) by (vm_compute in Er; injection Er as <-; reflexivity).
  destruct (conclusive_run_closed countdown [1] small_climits ∅ l run El Er Hc)
    as (points & _ & Hv & Hs & _ & _ & _).
  exists run, points. split; [reflexivity|].
  assert (Hn : length (run_visited run) = 6%nat /\ no_exit run = false)
    by (vm_compute in Er; injection Er as <-; split; reflexivity).
  rewrite Hv, length_map in Hn. split; [apply Hn|]. split; [exact Hs|apply Hn].
Defined.

(** Some abstract state of the instruction covers the concrete one. *)
Definition is_covered (abstract : gmap Z (list VerifierState)) (p : csuccessor) : Prop :=
  exists candidates a, abstract !! fst p = Some candidates /\ a ∈ candidates /\ state_covers a (snd p) = true.

Lemma existsb_covers c candidates :
  existsb (fun a => state_covers a c) candidates = true <-> exists a, a ∈ candidates /\ state_covers a c = true.
Proof. rewrite existsb_exists. by setoid_rewrite list_elem_of_In. Qed.

(** What is reported at [p]. *)
Definition reported (abstract : gmap Z (list VerifierState)) (p : csuccessor) (v : CoverageViolation) : Prop :=
  (violation_pc v, concrete v) = p /\
  match abstract !! violation_pc v with
  | None => kind v = AbstractMissedPc /\ abstract_states v = []
  | Some candidates => kind v = NotCovered /\ abstract_states v = candidates /\
      forall a, a ∈ candidates -> state_covers a (concrete v) = false
  end.

Lemma report_spec abstract p v : v ∈ report abstract p <-> reported abstract p v.
Proof.
  destruct p as [pc c], v as [pc' k c' cs]. unfold report, reported. cbn.
  destruct (abstract !! pc) as [candidates|] eqn:Hp.
  - destruct (existsb _ candidates) eqn:He.
    + split; [intros H; by apply not_elem_of_nil in H|]. intros ([= -> ->] & H). rewrite Hp in H.
      destruct H as (_ & _ & H). apply existsb_covers in He as (a & Ha & Hc). by rewrite (H a Ha) in Hc.
    + rewrite list_elem_of_singleton. split.
      * intros [= -> -> -> ->]. rewrite Hp. split_and!; try done. intros a Ha. apply not_true_is_false.
        intros Hc. apply not_true_iff_false in He. apply He, existsb_covers. by exists a.
      * intros ([= -> ->] & H). rewrite Hp in H. by destruct H as (-> & -> & _).
  - rewrite list_elem_of_singleton. split.
    + intros [= -> -> -> ->]. by rewrite Hp.
    + intros ([= -> ->] & H). rewrite Hp in H. by destruct H as (-> & ->).
Qed.

Lemma report_nil abstract p : report abstract p = [] <-> is_covered abstract p.
Proof.
  destruct p as [pc c]. unfold report, is_covered. cbn. destruct (abstract !! pc) as [candidates|].
  - destruct (existsb _ candidates) eqn:He.
    + apply existsb_covers in He as (a & Ha & Hc). split; [|done]. by exists candidates, a.
    + split; [done|]. intros (cs & a & [= <-] & Ha & Hc). exfalso. apply not_true_iff_false in He.
      apply He, existsb_covers. by exists a.
  - split; [done|]. by intros (cs & a & ? & _).
Qed.

Lemma check_coverage_nil (abstract : gmap Z (list VerifierState)) (run : ConcreteRun) :
  check_coverage abstract run = [] <-> forall p, p ∈ run_visited run -> is_covered abstract p.
Proof.
  unfold check_coverage. setoid_rewrite <- report_nil. induction (run_visited run) as [|p ps IH]; simpl.
  - split; [intros _ p Hp; by apply not_elem_of_nil in Hp|done].
  - split.
    + intros [Hp Hps]%app_eq_nil q [->|Hq]%elem_of_cons; [done|by apply IH].
    + intros H. rewrite (H p) by (by left). simpl. apply IH. intros q Hq. apply H. by right.
Qed.

(** The coverage check reports exactly the visited states that no abstract
    state of the same instruction covers, a missed instruction being one without
    abstract states; so no report means that every visited state is covered. *)
Theorem check_coverage_exact (abstract : gmap Z (list VerifierState)) (run : ConcreteRun) :
  (forall v, v ∈ check_coverage abstract run <-> exists p, p ∈ run_visited run /\ reported abstract p v) /\
  (check_coverage abstract run = [] <-> forall p, p ∈ run_visited run -> is_covered abstract p).
Proof.
  split; [|apply check_coverage_nil]. unfold check_coverage. intros v.
  rewrite list_elem_of_In, in_flat_map. setoid_rewrite <- list_elem_of_In. by setoid_rewrite report_spec.
Qed.
