(* ===== verification/Env.v ===== *)
(** The verifier environment and its pipeline (src/src/env.rs): loading a program
    from bytes with its maps resolved, and [verify], which runs the control-flow
    checks, the path exploration and both stack checks, and then the concrete
    machine as a cross-check.  The theorems: what a loaded program is, what the
    verdict depends on, that [verify] ends and panics only in the concrete run or on
    one helper, and what a clean acceptance means for the concrete executions. *)
From Stdlib Require Import ZArith Lia List Bool String.
From stdpp Require Import base list gmap fin_maps strings.
From S2P Require Import Prelude Tnum Bounds Insn Alu Ctx State Concrete Liveness Cfg Mem Step Mini ConcreteMem ConcreteRun.
Open Scope Z_scope.

(** * Outcomes *)

(** A pass returns, panics, or (in the model only) ends without a result. *)
Inductive Outcome (A : Type) :=
| Returns (a : A)
| Panics
| NoResult.
Arguments Returns {A} a.
Arguments Panics {A}.
Arguments NoResult {A}.

Definition obind {A B} (m : Outcome A) (k : A -> Outcome B) : Outcome B :=
  match m with Returns a => k a | Panics => Panics | NoResult => NoResult end.
Declare Scope outcome_scope.
Notation "'let!' x ':=' m 'in' k" := (obind m (fun x => k))
  (at level 10, x pattern, m at level 100, k at level 200) : outcome_scope.
Open Scope outcome_scope.

Definition pass {A} (r : option A) : Outcome A := match r with Some r => Returns r | None => NoResult end.

(** A panic of the executor is no failure of the program. *)
Definition mini_pass {A} (r : option (result VerificationFailure A)) : Outcome (result VerificationFailure A) :=
  match r with
  | Some (Err (mkFailure _ Panicked)) => Panics
  | _ => pass r
  end.
Definition concrete_pass {A} (r : option (result Stop A)) : Outcome (result ConcreteFailure A) :=
  match r with
  | Some (Ok a) => Returns (Ok a)
  | Some (Err (Failure f)) => Returns (Err f)
  | Some (Err Panic) => Panics
  | None => NoResult
  end.

(** * The environment *)

Inductive Verdict := Safe | Unsafe (failure : VerificationFailure).

Module ConcreteVerdict.
Inductive ConcreteVerdict := Safe | Unsafe | Inconclusive.
End ConcreteVerdict.
Abbreviation ConcreteVerdict := ConcreteVerdict.ConcreteVerdict.

(** The cross-check note of a rejected program. *)
Module RejectNote.
Inductive RejectNote := AlsoFails (f : ConcreteFailure) | Inconclusive | NeverExits | PrecisionCandidate.
End RejectNote.
Abbreviation RejectNote := RejectNote.RejectNote.

Record ConcreteReport := mkReport {
  violations : list CoverageViolation;
  report_inconclusive : bool;
  report_no_exit : bool;
  unexpected_failure : option ConcreteFailure;
  reject_note : option RejectNote;
  verdict : ConcreteVerdict
}.

Record BpfProg := mkProg {
  name : string;
  location : string;
  raw_data : list Z;
  insns : list BpfInsn;
  subprogs : list Z;
  insn_cnt : Z;
  decode_error : option VerificationFailure
}.

Record BpfVerifierEnv := mkEnv {
  prog : BpfProg;
  concrete_report : option ConcreteReport;
  maps : Maps;
  prog_type : ProgType
}.

Definition env_new : BpfVerifierEnv :=
  mkEnv (mkProg "" "" [] [] [] 0 None) None ∅ ProgType.SocketFilter.

Definition set_prog (p : BpfProg) (env : BpfVerifierEnv) : BpfVerifierEnv :=
  mkEnv p (concrete_report env) (maps env) (prog_type env).
Definition set_report (r : option ConcreteReport) (env : BpfVerifierEnv) : BpfVerifierEnv :=
  mkEnv (prog env) r (maps env) (prog_type env).
Definition register_map (fd : Z) (info : MapInfo) (env : BpfVerifierEnv) : BpfVerifierEnv :=
  mkEnv (prog env) (concrete_report env) (<[fd := info]> (maps env)) (prog_type env).
Definition set_prog_type (t : ProgType) (env : BpfVerifierEnv) : BpfVerifierEnv :=
  mkEnv (prog env) (concrete_report env) (maps env) t.

(** * Loading *)

Inductive LoadError := NotMultipleOf8 (size : Z) | EmptyBytes.

Definition map_type_number (t : MapType) : Z := match t with MapType.Array => 0 | MapType.Ringbuf => 1 end.

(** The sizes of a map load come from the registry. *)
Definition resolve_insn (maps : Maps) (i : Z) (insn : BpfInsn) : result VerificationFailure BpfInsn :=
  match insn with
  | BpfInsn.LdMapFd dst fd _ _ _ =>
      match maps !! fd with
      | Some info => Ok (BpfInsn.LdMapFd dst fd (key_size info) (value_size info) (map_type_number (map_type info)))
      | None => fail i (UnknownMapFd fd)
      end
  | BpfInsn.LdMapValue dst fd offset _ _ =>
      match maps !! fd with
      | Some info => Ok (BpfInsn.LdMapValue dst fd offset (key_size info) (value_size info))
      | None => fail i (UnknownMapFd fd)
      end
  | _ => Ok insn
  end.
Fixpoint resolve_maps (maps : Maps) (i : Z) (insns : list BpfInsn) : result VerificationFailure (list BpfInsn) :=
  match insns with
  | [] => Ok []
  | insn :: rest =>
      let? insn := resolve_insn maps i insn in
      let? rest := resolve_maps maps (i + 1) rest in
      Ok (insn :: rest)
  end.

Definition decode_and_resolve (maps : Maps) (raw : list Z) : result VerificationFailure (list BpfInsn) :=
  match decode_program raw with
  | Ok insns => resolve_maps maps 0 insns
  | Err (idx, e) => fail idx (Undecodable e)
  end.

(** The subprograms of the program loaded before stay until [verify]. *)
Definition load_raw (raw : list Z) (label : string) (env : BpfVerifierEnv) : result LoadError (Z * BpfVerifierEnv) :=
  let size := Z.of_nat (length raw) in
  if negb (size mod 8 =? 0) then Err (NotMultipleOf8 size)
  else if size =? 0 then Err EmptyBytes
  else
    let cnt := as_u32 (size / 8) in
    let '(decoded, error) :=
      match decode_and_resolve (maps env) raw with
      | Ok insns => (insns, None)
      | Err f => ([], Some f)
      end in
    Ok (cnt, set_prog (mkProg label label raw decoded (subprogs (prog env)) cnt error) env).
Definition setup_prog_bytes (raw : list Z) (env : BpfVerifierEnv) : result LoadError (Z * BpfVerifierEnv) :=
  load_raw raw "<memory>" env.

(** * Verification *)

Definition run_limits (t : ProgType) : ConcreteLimits :=
  mkCLimits (cmax_states default_climits) (cmax_steps default_climits) (cmax_loop_iterations default_climits) t.
Definition mini_limits (t : ProgType) : VerifierLimits :=
  mkLimits (max_states default_limits) (max_steps default_limits) (max_loop_iterations default_limits) t.

Definition run_concretely (heads : list Z) (env : BpfVerifierEnv) : Outcome (result ConcreteFailure ConcreteRun) :=
  concrete_pass (run_concrete_with_maps (insns (prog env)) heads (run_limits (prog_type env)) (maps env)).

Definition rejected_report (r : result ConcreteFailure ConcreteRun) : ConcreteReport :=
  match r with
  | Err f => mkReport [] false false None (Some (RejectNote.AlsoFails f)) ConcreteVerdict.Unsafe
  | Ok run =>
      if inconclusive run
      then mkReport [] true false None (Some RejectNote.Inconclusive) ConcreteVerdict.Inconclusive
      else if no_exit run
      then mkReport [] false true None (Some RejectNote.NeverExits) ConcreteVerdict.Unsafe
      else mkReport [] false false None (Some RejectNote.PrecisionCandidate) ConcreteVerdict.Safe
  end.
Definition reject_with_cross_check (failure : VerificationFailure) (heads : list Z) (env : BpfVerifierEnv)
  : Outcome (Verdict * BpfVerifierEnv) :=
  let! r := run_concretely heads env in
  Returns (Unsafe failure, set_report (Some (rejected_report r)) env).

Definition accepted_report (states : gmap Z (list VerifierState)) (r : result ConcreteFailure ConcreteRun)
  : ConcreteReport :=
  match r with
  | Err f => mkReport [] false false (Some f) None ConcreteVerdict.Unsafe
  | Ok run =>
      let found := check_coverage states run in
      mkReport found (inconclusive run) (no_exit run) None None
        (if inconclusive run then ConcreteVerdict.Inconclusive
         else if negb (bool_decide (found = [])) || no_exit run then ConcreteVerdict.Unsafe
         else ConcreteVerdict.Safe)
  end.
Definition accept_with_coverage (states : gmap Z (list VerifierState)) (heads : list Z) (env : BpfVerifierEnv)
  : Outcome (Verdict * BpfVerifierEnv) :=
  let! r := run_concretely heads env in
  Returns (Safe, set_report (Some (accepted_report states r)) env).

Definition set_subprogs (starts : list Z) (env : BpfVerifierEnv) : BpfVerifierEnv :=
  let p := prog env in
  set_prog (mkProg (name p) (location p) (raw_data p) (insns p) starts (insn_cnt p) (decode_error p)) env.

Section verify.
(** The order in which the hash map of the analyzed states is iterated. *)
Context (iter : gmap Z (list VerifierState) -> list (Z * list VerifierState)).

Definition verify (env : BpfVerifierEnv) : Outcome (Verdict * BpfVerifierEnv) :=
  let env := set_report None env in
  match decode_error (prog env) with
  | Some failure => Returns (Unsafe failure, env)
  | None =>
      let program := insns (prog env) in
      match add_subprog program with
      | Err failure => reject_with_cross_check failure [] env
      | Ok starts =>
          let env := set_subprogs starts env in
          let! depth := pass (check_combined_stack_depth program starts) in
          match depth with
          | Err failure => reject_with_cross_check failure [] env
          | Ok _ =>
              let! cfg := pass (check_cfg program starts) in
              match cfg with
              | Err failure => reject_with_cross_check failure [] env
              | Ok heads =>
                  let! mini := mini_pass (verify_mini_core program heads (mini_limits (prog_type env))) in
                  match mini with
                  | Err failure => reject_with_cross_check failure heads env
                  | Ok (_, states) =>
                      let! depth := pass (check_combined_stack_depth_with_states program starts (iter states)) in
                      match depth with
                      | Err failure => reject_with_cross_check failure heads env
                      | Ok _ => accept_with_coverage states heads env
                      end
                  end
              end
          end
      end
  end.
End verify.

(** * The report *)

(** The sections [concrete_report_text] prints. *)
Inductive ReportLine :=
| ViolationsLine (found : list CoverageViolation)
| InconclusiveLine
| UnexpectedFailureLine (f : ConcreteFailure)
| NoteLine (n : RejectNote).
Definition report_lines (r : ConcreteReport) : list ReportLine :=
  match violations r with [] => [] | found => [ViolationsLine found] end ++
  (if report_inconclusive r then [InconclusiveLine] else []) ++
  match unexpected_failure r with Some f => [UnexpectedFailureLine f] | None => [] end ++
  match reject_note r with Some n => [NoteLine n] | None => [] end.
Definition concrete_report_text (env : BpfVerifierEnv) : option (list ReportLine) :=
  r ← concrete_report env; match report_lines r with [] => None | lines => Some lines end.

(** * What the verdict depends on *)

(** The passes that decide, and what they hand to the concrete run. *)
Definition accepts (iter : gmap Z (list VerifierState) -> list (Z * list VerifierState)) (program : list BpfInsn)
    (t : ProgType) (heads : list Z) (states : gmap Z (list VerifierState)) : Prop :=
  exists starts n, add_subprog program = Ok starts /\
    check_combined_stack_depth program starts = Some (Ok tt) /\
    check_cfg program starts = Some (Ok heads) /\
    verify_mini_core program heads (mini_limits t) = Some (Ok (n, states)) /\
    check_combined_stack_depth_with_states program starts (iter states) = Some (Ok tt).

(** How [verify] can return on a program that was decoded. *)
Record returned (iter : gmap Z (list VerifierState) -> list (Z * list VerifierState)) (env : BpfVerifierEnv)
    (v : Verdict) (env' : BpfVerifierEnv) : Prop := {
  returned_program : insns (prog env') = insns (prog env) /\ maps env' = maps env /\ prog_type env' = prog_type env;
  returned_run : exists heads r, run_concretely heads env = Returns r /\
    ((exists states, v = Safe /\ accepts iter (insns (prog env)) (prog_type env) heads states /\
        concrete_report env' = Some (accepted_report states r)) \/
     (exists f, v = Unsafe f /\ (forall heads states, ~ accepts iter (insns (prog env)) (prog_type env) heads states) /\
        concrete_report env' = Some (rejected_report r)))
}.

Lemma reject_returned iter env env1 heads f v env' :
  insns (prog env1) = insns (prog env) -> maps env1 = maps env -> prog_type env1 = prog_type env ->
  (forall heads states, ~ accepts iter (insns (prog env)) (prog_type env) heads states) ->
  reject_with_cross_check f heads env1 = Returns (v, env') -> returned iter env v env'.
Proof.
  intros Hi Hm Ht Hn. unfold reject_with_cross_check. destruct (run_concretely heads env1) as [r| |] eqn:Hr; try done.
  intros [= <- <-]. split; [by rewrite <- Hi, <- Hm, <- Ht|]. exists heads, r.
  split; [unfold run_concretely in *; by rewrite <- Hi, <- Hm, <- Ht|]. right. by exists f.
Qed.

Lemma pass_returns {A} (m : option A) r : pass m = Returns r -> m = Some r.
Proof. destruct m; [by intros [= ->]|done]. Qed.
Lemma mini_pass_returns {A} (m : option (result VerificationFailure A)) r : mini_pass m = Returns r -> m = Some r.
Proof. destruct m as [[a|[pc m]]|]; simpl; [by intros [= ->]|destruct m; by intros [= ->]|done]. Qed.
Lemma obind_returns {A B} (m : Outcome A) (k : A -> Outcome B) b :
  obind m k = Returns b -> exists a, m = Returns a /\ k a = Returns b.
Proof. destruct m; simpl; [eauto|done|done]. Qed.

Lemma verify_returned iter env v env' :
  decode_error (prog env) = None -> verify iter env = Returns (v, env') -> returned iter env v env'.
Proof.
  intros Hd. unfold verify. cbn [prog set_report decode_error]. rewrite Hd.
  destruct (add_subprog _) as [starts|f] eqn:Hs.
  2: { apply reject_returned; try done. intros heads states (starts & n & H & _). congruence. }
  intros (d & Hdepth%pass_returns & H)%obind_returns. destruct d as [[]|f].
  2: { revert H. apply reject_returned; try done. intros heads states (starts' & n & H & H' & _). congruence. }
  apply obind_returns in H as (c & Hc%pass_returns & H). destruct c as [heads|f].
  2: { revert H. apply reject_returned; try done. intros heads' states (starts' & n & H & H' & H'' & _). congruence. }
  apply obind_returns in H as (m & Hm%mini_pass_returns & H). destruct m as [[n states]|f].
  2: { revert H. apply reject_returned; try done.
       intros heads' states (starts' & n & H & H' & H'' & H3 & _). assert (heads' = heads) as -> by congruence.
       cbn [prog_type set_subprogs set_prog set_report] in Hm. congruence. }
  apply obind_returns in H as (d & Hdd%pass_returns & H). destruct d as [[]|f].
  2: { revert H. apply reject_returned; try done.
       intros heads' states' (starts' & n' & H & H' & H'' & H3 & H4). assert (heads' = heads) as -> by congruence.
       cbn [prog_type set_subprogs set_prog set_report] in Hm. congruence. }
  unfold accept_with_coverage in H. apply obind_returns in H as (r & Hr & H). injection H as <- <-.
  split; [done|]. exists heads, r. split; [done|]. left. exists states. split; [done|]. split; [|done].
  exists starts, n. done.
Qed.

(** ** The order of the analyzed states *)

Section order.
Context (program : list BpfInsn) (starts : list Z).

Definition rmap {E A B} (f : A -> B) (m : result E A) : result E B := rbind m (fun a => Ok (f a)).

(** Raising one entry of the depths. *)
Definition raise (use : nat * Z) (depth : list Z) : list Z :=
  <[fst use := Z.max (default 0 (depth !! fst use)) (snd use)]> depth.

Lemma raise_comm u v depth : raise u (raise v depth) = raise v (raise u depth).
Proof.
  unfold raise. destruct (decide (fst u = fst v)) as [He|He].
  - rewrite He, !list_insert_insert_eq. destruct (decide (fst v < length depth)%nat) as [Hl|Hl].
    + rewrite !list_lookup_insert_eq by done. simpl. f_equal. lia.
    + by rewrite !list_insert_ge by lia.
  - rewrite !list_lookup_insert_ne by done. by apply list_insert_insert_ne.
Qed.

(** The uses of the states at one access, or a state whose stack has no owner. *)
Definition state_use (pc : Z) (access : Z * Z * Z) (s : VerifierState) : result VerificationFailure (list (nat * Z)) :=
  let '(base, offset, size) := access in
  match reg s base with
  | PtrToStack min_offset _ _ frameno =>
      match frame_subprog_entry s frameno program with
      | None => fail pc UnresolvedStackOwner
      | Some entry =>
          match position entry starts with
          | None => fail pc StackOwnerNotSubprogram
          | Some idx => Ok [(idx, use_bytes (min_offset + offset) size)]
          end
      end
  | _ => Ok []
  end.

Fixpoint uses_at (pc : Z) (access : Z * Z * Z) (states : list VerifierState) : result VerificationFailure (list (nat * Z)) :=
  match states with
  | [] => Ok []
  | s :: states =>
      let? u := state_use pc access s in
      let? us := uses_at pc access states in
      Ok (u ++ us)
  end.
Fixpoint all_uses (states : list (Z * list VerifierState)) : result VerificationFailure (list (nat * Z)) :=
  match states with
  | [] => Ok []
  | (pc, states_at_pc) :: states =>
      let? u := match program !! Z.to_nat pc ≫= stack_access with
                | None => Ok []
                | Some access => uses_at pc access states_at_pc
                end in
      let? us := all_uses states in
      Ok (u ++ us)
  end.

Definition raise_all (us : list (nat * Z)) (depth : list Z) : list Z := foldr raise depth (rev us).
Lemma raise_all_app us vs depth : raise_all (us ++ vs) depth = raise_all vs (raise_all us depth).
Proof. unfold raise_all. by rewrite rev_app_distr, foldr_app. Qed.

Lemma aliased_depths_uses pc access states depth :
  aliased_depths program starts pc access states depth = rmap (fun us => raise_all us depth) (uses_at pc access states).
Proof.
  revert depth. induction states as [|s states IH]; intros depth; [done|]. destruct access as [[base offset] size].
  cbn [aliased_depths uses_at]. unfold aliased_use, state_use.
  destruct (reg s base); cbn [rbind]; try (rewrite IH; destruct (uses_at _ _ _); cbn; done).
  destruct (frame_subprog_entry _ _ _); cbn; [|done]. destruct (position _ _) as [idx|]; cbn; [|done].
  rewrite IH. destruct (uses_at _ _ _); cbn; [|done]. f_equal. unfold raise_all. simpl. by rewrite foldr_app.
Qed.

Lemma all_aliased_uses states depth :
  all_aliased_depths program starts states depth = rmap (fun us => raise_all us depth) (all_uses states).
Proof.
  revert depth. induction states as [|[pc l] states IH]; intros depth; [done|]. cbn [all_aliased_depths all_uses].
  destruct (_ ≫= stack_access) as [access|]; cbn.
  - rewrite aliased_depths_uses. destruct (uses_at _ _ _) as [us|]; cbn; [|done]. rewrite IH.
    destruct (all_uses states); cbn; [|done]. by rewrite raise_all_app.
  - rewrite IH. by destruct (all_uses states).
Qed.

Lemma all_uses_perm states states' us :
  states ≡ₚ states' -> all_uses states = Ok us -> exists us', all_uses states' = Ok us' /\ us ≡ₚ us'.
Proof.
  intros Hp. revert us. induction Hp as [|[pc l] l1 l2 Hp IH|[pc l] [pc' l'] l1|l1 l2 l3 _ IH1 _ IH2]; intros us.
  - intros [= <-]. by exists [].
  - cbn [all_uses]. intros (u & -> & (us1 & H1 & [= <-])%rbind_ok)%rbind_ok.
    destruct (IH us1 H1) as (us2 & -> & Hu). eexists. split; [reflexivity|]. by rewrite Hu.
  - cbn [all_uses]. intros (u & -> & H)%rbind_ok. cbn [rbind].
    apply rbind_ok in H as (us1 & (v & -> & (us2 & -> & [= <-])%rbind_ok)%rbind_ok & [= <-]).
    eexists. split; [reflexivity|]. by rewrite !app_assoc, (Permutation_app_comm v u).
  - intros H. destruct (IH1 us H) as (us1 & H1 & Hp1). destruct (IH2 us1 H1) as (us2 & H2 & Hp2).
    exists us2. split; [done|]. by rewrite Hp1.
Qed.

Lemma with_states_perm states states' :
  states ≡ₚ states' -> check_combined_stack_depth_with_states program starts states = Some (Ok tt) ->
  check_combined_stack_depth_with_states program starts states' = Some (Ok tt).
Proof.
  intros Hp. unfold check_combined_stack_depth_with_states. rewrite !all_aliased_uses.
  destruct (all_uses states) as [us|] eqn:Hu; [|done]. destruct (all_uses_perm _ _ _ Hp Hu) as (us' & -> & Hus). cbn [rmap rbind].
  assert (raise_all us (direct_stack_depths program starts) = raise_all us' (direct_stack_depths program starts)) as ->; [|done].
  unfold raise_all. apply (foldr_permutation_proper eq raise); [by apply _| |].
  - intros. apply raise_comm.
  - by rewrite <- !Permutation_rev.
Qed.
End order.

Lemma accepts_perm iter iter' program t heads states :
  (forall m, iter m ≡ₚ iter' m) -> accepts iter program t heads states -> accepts iter' program t heads states.
Proof.
  intros Hp (starts & n & H1 & H2 & H3 & H4 & H5). exists starts, n. split_and!; try done.
  by apply (with_states_perm program starts (iter states)); [apply Hp|].
Qed.

(** * Ending *)

Lemma stack_check_total program starts depth :
  add_subprog program = Ok starts -> exists r, check_stack_call_chains program starts depth = Some r.
Proof.
  intros He%add_subprog_ok. assert (Hlen : (0 < length starts)%nat).
  { pose proof (entries_zero _ _ He) as H0. destruct starts; [by apply not_elem_of_nil in H0|simpl; lia]. }
  destruct (visit_chain_ok program starts depth (S (length starts)) 0 []) as (r & Hr & _);
    [apply NoDup_singleton|by constructor|simpl; lia|]. by exists r.
Qed.

Lemma with_states_total program starts states :
  add_subprog program = Ok starts -> exists r, check_combined_stack_depth_with_states program starts states = Some r.
Proof.
  intros He. unfold check_combined_stack_depth_with_states. destruct (all_aliased_depths _ _ _ _); [|by eexists].
  by apply stack_check_total.
Qed.

Lemma run_concretely_total heads env : run_concretely heads env <> NoResult.
Proof.
  unfold run_concretely. destruct (concrete_run_total (insns (prog env)) heads (run_limits (prog_type env)) (maps env))
    as [r ->]. by destruct r as [|[]].
Qed.

(** A condition on how [verify] ends holds if it holds for the exploration and for
    every concrete run of the program. *)
Lemma verify_ends (P : Outcome (Verdict * BpfVerifierEnv) -> Prop) iter env :
  (forall r, P (Returns r)) ->
  (forall heads, mini_pass (verify_mini_core (insns (prog env)) heads (mini_limits (prog_type env))) <> NoResult /\
    (mini_pass (verify_mini_core (insns (prog env)) heads (mini_limits (prog_type env))) = Panics -> P Panics)) ->
  (forall heads, run_concretely heads env = Panics -> P Panics) ->
  P (verify iter env).
Proof.
  intros Hret Hmini Hrun. unfold verify. cbn [prog set_report decode_error]. destruct (decode_error _); [apply Hret|].
  assert (Hrej : forall f heads e, insns (prog e) = insns (prog env) -> maps e = maps env -> prog_type e = prog_type env ->
    P (reject_with_cross_check f heads e)).
  { intros f heads e Hi Hm Ht. unfold reject_with_cross_check. specialize (Hrun heads).
    pose proof (run_concretely_total heads env) as Hn. unfold run_concretely in *. rewrite Hi, Hm, Ht.
    destruct (concrete_pass _); [apply Hret|by apply Hrun|done]. }
  destruct (add_subprog _) as [starts|f] eqn:Hs; [|by apply Hrej].
  destruct (stack_check_total _ _ (direct_stack_depths (insns (prog env)) starts) Hs) as [d Hd].
  unfold check_combined_stack_depth. rewrite Hd. cbn [pass obind]. destruct d as [[]|f]; [|by apply Hrej].
  destruct (check_cfg_total _ _ Hs) as [c ->]. cbn [pass obind]. destruct c as [heads|f]; [|by apply Hrej].
  cbn [prog_type set_subprogs set_prog set_report]. destruct (Hmini heads) as [Hm Hmp].
  destruct (mini_pass _) as [m| |]; [|by apply Hmp|done]. cbn [obind]. destruct m as [[n states]|f]; [|by apply Hrej].
  destruct (with_states_total _ _ (iter states) Hs) as [d ->]. cbn [pass obind]. destruct d as [[]|f]; [|by apply Hrej].
  unfold accept_with_coverage. specialize (Hrun heads). pose proof (run_concretely_total heads env) as Hn.
  unfold run_concretely in *. cbn [insns maps prog_type prog set_subprogs set_prog set_report] in *.
  destruct (concrete_pass _); [apply Hret|by apply Hrun|done].
Qed.

Lemma mini_pass_total program heads limits : mini_pass (verify_mini_core program heads limits) <> NoResult.
Proof. destruct (mini_total program heads limits) as (r & -> & _). by destruct r as [|[? []]]. Qed.

(** * Loaded programs *)

Lemma resolve_maps_lookup m insns : forall i resolved,
  resolve_maps m i insns = Ok resolved ->
  length resolved = length insns /\
  forall k insn, resolved !! k = Some insn ->
    exists old, insns !! k = Some old /\ resolve_insn m (i + Z.of_nat k) old = Ok insn.
Proof.
  induction insns as [|x insns IH]; intros i resolved.
  - intros [= <-]. split; [done|]. intros k insn H. by destruct k.
  - cbn [resolve_maps]. intros (y & Hy & (ys & Hys & [= <-])%rbind_ok)%rbind_ok.
    destruct (IH _ _ Hys) as [Hl Hk]. split; [simpl; by rewrite Hl|]. intros [|k] insn; simpl.
    + intros [= <-]. exists x. by rewrite Z.add_0_r.
    + intros (old & Ho & Hr)%Hk. exists old. split; [done|]. by rewrite <- Hr; f_equal; lia.
Qed.

Lemma resolve_maps_err m insns : forall i f,
  resolve_maps m i insns = Err f ->
  exists k old fd, insns !! k = Some old /\ m !! fd = None /\ resolve_insn m (i + Z.of_nat k) old = Err f /\
    f = mkFailure (i + Z.of_nat k) (UnknownMapFd fd).
Proof.
  induction insns as [|x insns IH]; intros i f; [done|]. cbn [resolve_maps].
  destruct (resolve_insn m i x) as [y|f'] eqn:Hx; cbn [rbind].
  - destruct (resolve_maps m (i + 1) insns) as [|f'] eqn:Hr; [done|]. intros [= <-].
    destruct (IH _ _ Hr) as (k & old & fd & H1 & H2 & H3 & H4). exists (S k), old, fd.
    replace (i + Z.of_nat (S k)) with (i + 1 + Z.of_nat k) by lia. done.
  - intros [= <-]. exists 0%nat, x. rewrite Z.add_0_r.
    destruct x; cbn [resolve_insn] in Hx |- *; try done; destruct (m !! fd) eqn:Hm; try done; injection Hx as <-;
      by exists fd.
Qed.

(** A loaded instruction is the decoded one with the sizes its map has. *)
Lemma resolve_insn_decoded m i insn insn' :
  resolve_insn m i insn = Ok insn' -> insn_decoded insn = true -> insn_decoded insn' = true.
Proof.
  destruct insn; cbn [resolve_insn]; try (by intros [= <-]); destruct (m !! fd); try done; by intros [= <-].
Qed.

Lemma parsed_insn_decoded bytes insn :
  Forall is_byte bytes -> parse_insn bytes = Ok insn -> insn_decoded insn = true.
Proof.
  intros Hb Hp. destruct (parse_accepts bytes insn Hb Hp) as [[Hw|(d & b & o & Hle & ->)] _].
  - by apply wf_insn_decoded.
  - unfold insn_decoded. cbn. rewrite !andb_true_r. apply Z.ltb_lt. lia.
Qed.

Lemma pair_insn_decoded c second insn : parse_ldimm64 c second = Ok insn -> insn_decoded insn = true.
Proof.
  unfold parse_ldimm64. repeat case_match; try done; by intros [= <-].
Qed.

Lemma decode_slots_decoded n idx chunks insns insn :
  (length chunks <= n)%nat -> Forall is_slot chunks -> decode_slots idx chunks = Ok insns ->
  insn ∈ insns -> insn_decoded insn = true.
Proof.
  revert idx chunks insns. induction n as [|n IH]; intros idx [|c rest] insns Hn Hs Hd Hin; simpl in Hn; try lia;
    try (injection Hd as <-; by apply not_elem_of_nil in Hin).
  apply Forall_cons in Hs as [Hslot Hs]. cbn [decode_slots] in Hd. cbv zeta in Hd.
  destruct (hd 0 c =? opcode.LD_IMM64).
  - destruct rest as [|second rest]; [done|]. apply Forall_cons in Hs as [Hsec Hs].
    destruct (parse_ldimm64 c second) as [x|] eqn:Hp; [|done]. apply rbind_ok in Hd as (rest' & Hrest & [= <-]).
    apply elem_of_cons in Hin as [->|Hin]; [by eapply pair_insn_decoded|].
    apply elem_of_cons in Hin as [->|Hin]; [done|]. eapply (IH (idx + 2) rest); [simpl in Hn; lia|done..].
  - destruct (parse_insn c) as [x|] eqn:Hp; [|done]. apply rbind_ok in Hd as (rest' & Hrest & [= <-]).
    apply elem_of_cons in Hin as [->|Hin]; [by eapply parsed_insn_decoded; [apply Hslot|]|].
    eapply (IH (idx + 1) rest); [lia|done..].
Qed.

Lemma program_decoded raw insns insn :
  Forall is_byte raw -> decode_program raw = Ok insns -> insn ∈ insns ->
  insn_decoded insn = true.
Proof.
  intros Hb. destruct (as_chunks_slots (length raw) raw (le_n _) Hb) as [Hs _]. unfold decode_program.
  destruct (as_chunks raw) as [chunks rest]. simpl in Hs. destruct (decode_slots 0 chunks) as [is'|] eqn:Hd; [|done].
  destruct rest; [|done]. intros [= <-]. by eapply decode_slots_decoded.
Qed.

Lemma decoded_length raw insns :
  Forall is_byte raw -> decode_program raw = Ok insns -> length raw = (8 * length insns)%nat.
Proof.
  intros Hb. destruct (as_chunks_slots (length raw) raw (le_n _) Hb) as [Hs Hl]. unfold decode_program.
  destruct (as_chunks raw) as [chunks rest]. cbn [fst snd] in *.
  destruct (decode_slots 0 chunks) as [l|] eqn:Hd; [|done]. destruct rest; [|done]. intros [= <-].
  destruct (decode_slots_accepts (length chunks) 0 chunks l (le_n _) Hs Hd) as [-> _]. simpl in Hl. lia.
Qed.

(** What [load_raw] stores. *)
Lemma load_raw_ok raw label env n env' :
  load_raw raw label env = Ok (n, env') ->
  Z.of_nat (length raw) mod 8 = 0 /\ Z.of_nat (length raw) <> 0 /\ n = as_u32 (Z.of_nat (length raw) / 8) /\
  maps env' = maps env /\ prog_type env' = prog_type env /\ raw_data (prog env') = raw /\ insn_cnt (prog env') = n /\
  match decode_and_resolve (maps env) raw with
  | Ok l => insns (prog env') = l /\ decode_error (prog env') = None
  | Err f => insns (prog env') = [] /\ decode_error (prog env') = Some f
  end.
Proof.
  unfold load_raw. destruct (Z.eqb_spec (Z.of_nat (length raw) mod 8) 0); [|done].
  destruct (Z.eqb_spec (Z.of_nat (length raw)) 0); [done|]. cbn [negb].
  destruct (decode_and_resolve _ _); intros [= <- <-]; by split_and!.
Qed.

Lemma loaded_decoded raw label env n env' insn :
  Forall is_byte raw -> load_raw raw label env = Ok (n, env') -> insn ∈ insns (prog env') -> insn_decoded insn = true.
Proof.
  intros Hb (_ & _ & _ & _ & _ & _ & _ & Hl)%load_raw_ok Hin.
  destruct (decode_and_resolve (maps env) raw) as [l|f] eqn:Hd.
  2: { destruct Hl as [Hl _]. rewrite Hl in Hin. by apply not_elem_of_nil in Hin. }
  destruct Hl as [Hl _]. rewrite Hl in *. unfold decode_and_resolve in Hd.
  destruct (decode_program raw) as [decoded|[? ?]] eqn:Hp; [|done].
  destruct (resolve_maps_lookup _ _ _ _ Hd) as [_ Hk]. apply list_elem_of_lookup_1 in Hin as [k Hin].
  destruct (Hk _ _ Hin) as (old & Hold & Hr). apply (resolve_insn_decoded _ _ _ _ Hr).
  apply (program_decoded raw decoded); [done|done|by eapply list_elem_of_lookup_2].
Qed.

(** * Properties *)

(** C2: the verdict is decided by the passes alone: [verify] answers safe exactly
    when the program decoded, its entries, stack depths and control flow are
    accepted, the exploration accepts it, and the stack depths hold in the
    analyzed states; neither the concrete run nor the order in which the
    analyzed states are iterated matters, and the program is left as it was. *)
Theorem verdict_exact (iter : gmap Z (list VerifierState) -> list (Z * list VerifierState))
    (env : BpfVerifierEnv) (v : Verdict) (env' : BpfVerifierEnv) :
  (forall m, iter m ≡ₚ map_to_list m) -> verify iter env = Returns (v, env') ->
  (v = Safe <-> decode_error (prog env) = None /\
     exists heads states, accepts map_to_list (insns (prog env)) (prog_type env) heads states) /\
  insns (prog env') = insns (prog env) /\ maps env' = maps env.
Proof.
  intros Hp Hv. destruct (decode_error (prog env)) as [f|] eqn:Hd.
  - unfold verify in Hv. cbn [prog set_report decode_error] in Hv. rewrite Hd in Hv. injection Hv as <- <-.
    split; [|done]. split; [done|by intros [? _]].
  - destruct (verify_returned _ _ _ _ Hd Hv) as [(Hi & Hm & _) (heads & r & _ & Hr)]. split; [|done].
    destruct Hr as [(states & -> & Ha & _)|(f & -> & Hn & _)].
    + split; [|done]. intros _. split; [done|]. exists heads, states. by apply (accepts_perm iter).
    + split; [done|]. intros (_ & heads' & states & Ha). exfalso. apply (Hn heads' states).
      by apply (accepts_perm map_to_list).
Qed.

Lemma safe_report_closed (iter : gmap Z (list VerifierState) -> list (Z * list VerifierState))
    (env : BpfVerifierEnv) (env' : BpfVerifierEnv) (report : ConcreteReport) (l : Liveness) :
  verify iter env = Returns (Safe, env') -> concrete_report env' = Some report ->
  verdict report = ConcreteVerdict.Safe -> analyze (insns (prog env)) = Some (Ok l) ->
  exists heads states points outs, accepts iter (insns (prog env)) (prog_type env) heads states /\
    (0, cinitial_with (prog_type env)) ∈ points /\ outs <> [] /\
    (forall p, p ∈ points ->
       expanded (insns (prog env)) (maps env) points outs p /\ is_covered states (cleaned l p)) /\
    (forall o, o ∈ outs -> is_outcome (insns (prog env)) points o).
Proof.
  intros Hv Hrep Hsafe Hl. destruct (decode_error (prog env)) as [f|] eqn:Hd.
  { unfold verify in Hv. cbn [prog set_report decode_error] in Hv. rewrite Hd in Hv. by injection Hv. }
  destruct (verify_returned _ _ _ _ Hd Hv) as [_ (heads & r & Hrun & Hr)].
  destruct Hr as [(states & _ & Ha & Hc)|(f & [=] & _)]. rewrite Hrep in Hc. injection Hc as ->.
  destruct r as [run|f]; [|done]. cbn [accepted_report verdict] in Hsafe.
  destruct (inconclusive run) eqn:Hi; [done|]. case_bool_decide as Hnil; [|done]. destruct (no_exit run) eqn:Hx; [done|].
  assert (Hrun' : run_concrete_with_maps (insns (prog env)) heads (run_limits (prog_type env)) (maps env) = Some (Ok run)).
  { unfold run_concretely, concrete_pass in Hrun.
    destruct (run_concrete_with_maps _ _ _ _) as [[|[]]|]; try done. by injection Hrun as ->. }
  destruct (conclusive_closed _ _ _ _ l run Hl Hrun' Hi) as (points & _ & Hvis & Hstart & Hexp & Hout & Hno).
  exists heads, states, points, (run_outcomes run). split; [done|]. split; [done|]. split.
  { intros Hn. apply Hno in Hn. congruence. }
  split; [|done]. intros p Hp. split; [by apply Hexp|]. apply (proj1 (check_coverage_nil states run) Hnil).
  rewrite Hvis. by apply list_elem_of_fmap_2.
Qed.

(** An accepted program ends with an exit or a jump: its analysis does not panic. *)
Lemma safe_analyzed iter env env' :
  verify iter env = Returns (Safe, env') -> exists l, analyze (insns (prog env)) = Some (Ok l).
Proof.
  intros Hv. destruct (decode_error (prog env)) as [f|] eqn:Hd.
  { unfold verify in Hv. cbn [prog set_report decode_error] in Hv. rewrite Hd in Hv. by injection Hv. }
  destruct (verify_returned _ _ _ _ Hd Hv) as [_ (heads & r & _ & [(states & _ & (starts & n & Hs & _ & Hc & _) & _)|(f & [=] & _)])].
  destruct (analyze_ok (insns (prog env)) (accepted_flow_inside _ _ _ Hs Hc)) as (l & Hl & _). by exists l.
Qed.

(** C1: what a clean acceptance means: when [verify] answers safe and its report
    finds nothing, there is a set of concrete points (instruction and state), those
    the cross-check run visited, with these properties.  It contains the start and
    every state a path reaches up to its first load from a map value, whatever the
    map memory holds ([reaches]).  Every point is executed without a failure
    whatever the map memory holds; its successors, the return of a subprogram
    included, are points again, except that a load from a map value is followed for
    the contents of the memory at the visit only.  Some path exits, every outcome is
    an exit of a point, and every point, its dead values dropped, is covered by a
    state the exploration analyzed at its instruction. *)
Theorem clean_acceptance (iter : gmap Z (list VerifierState) -> list (Z * list VerifierState))
    (env : BpfVerifierEnv) (env' : BpfVerifierEnv) (report : ConcreteReport) :
  verify iter env = Returns (Safe, env') -> concrete_report env' = Some report ->
  verdict report = ConcreteVerdict.Safe ->
  exists l heads states points outs, analyze (insns (prog env)) = Some (Ok l) /\
    accepts iter (insns (prog env)) (prog_type env) heads states /\
    (0, cinitial_with (prog_type env)) ∈ points /\ outs <> [] /\
    (forall p, reaches (insns (prog env)) (run_limits (prog_type env)) (maps env) p -> p ∈ points) /\
    (forall p, p ∈ points ->
       expanded (insns (prog env)) (maps env) points outs p /\ is_covered states (cleaned l p)) /\
    (forall o, o ∈ outs -> is_outcome (insns (prog env)) points o).
Proof.
  intros Hv Hr Hs. destruct (safe_analyzed iter env env' Hv) as [l Hl].
  destruct (safe_report_closed iter env env' report l Hv Hr Hs Hl)
    as (heads & states & points & outs & Ha & Hstart & Hne & Hp & Ho).
  exists l, heads, states, points, outs. split_and!; try done.
  apply (closed_reaches _ (run_limits (prog_type env)) _ _ outs); [exact Hstart|]. intros p Hin. by apply Hp.
Qed.

Lemma verify_loaded (iter : gmap Z (list VerifierState) -> list (Z * list VerifierState))
    (raw : list Z) (label : string) (env : BpfVerifierEnv) (n : Z) (env' : BpfVerifierEnv) :
  Forall is_byte raw -> load_raw raw label env = Ok (n, env') ->
  verify iter env' <> NoResult /\
  (verify iter env' = Panics ->
     BpfInsn.Call 202 ∈ insns (prog env') \/ exists heads, run_concretely heads env' = Panics) /\
  (returns_past_end (insns (prog env')) -> forall heads, run_concretely heads env' = Panics).
Proof.
  intros Hb Hl.
  assert (Hrun : returns_past_end (insns (prog env')) -> forall heads, run_concretely heads env' = Panics).
  { intros Hp%flow_inside_spec heads. unfold run_concretely, run_concrete_with_maps. by rewrite (analyze_panics _ Hp). }
  enough (H : verify iter env' <> NoResult /\ (verify iter env' = Panics ->
    BpfInsn.Call 202 ∈ insns (prog env') \/ exists heads, run_concretely heads env' = Panics)) by by destruct H.
  apply (verify_ends (fun o => o <> NoResult /\
    (o = Panics -> BpfInsn.Call 202 ∈ insns (prog env') \/ exists heads, run_concretely heads env' = Panics))).
  - done.
  - intros heads. split; [apply mini_pass_total|]. intros Hm. split; [done|]. intros _.
    destruct (verify_mini_core _ _ _) as [[r|[pc m]]|] eqn:Hr; [done| |done].
    assert (m = Panicked) as -> by by destruct m.
    destruct (mini_safe _ _ _ _ (fun insn Hin => loaded_decoded _ _ _ _ _ insn Hb Hl Hin) Hr eq_refl) as [|Hp]; [by left|].
    right. exists []. by apply Hrun.
  - intros heads H. split; [done|]. intros _. right. by exists heads.
Qed.

(** C5: [verify] of a program loaded from any bytes always ends, in a verdict or a
    panic.  It panics only if the program calls [bpf_dynptr_write] (Call 202) or the
    cross-check run panics on the program; and that run panics on every program that
    ends with a call into a subprogram with an exit, since its liveness analysis
    reads past the end. *)
Theorem loaded_verify_ends (iter : gmap Z (list VerifierState) -> list (Z * list VerifierState))
    (raw : list Z) (label : string) (env : BpfVerifierEnv) (n : Z) (env' : BpfVerifierEnv) :
  Forall is_byte raw -> load_raw raw label env = Ok (n, env') ->
  verify iter env' <> NoResult /\
  (verify iter env' = Panics ->
     BpfInsn.Call 202 ∈ insns (prog env') \/ exists heads, run_concretely heads env' = Panics) /\
  (returns_past_end (insns (prog env')) -> forall heads, run_concretely heads env' = Panics).
Proof. apply verify_loaded. Qed.

(** What loading does: it takes the whole slots of a non-empty program and
    counts them, and stores either the decoded instructions, each map load with
    the sizes its descriptor is registered with, or no instructions and the first
    failure, at the slot that does not decode or names an unknown map. *)
Theorem load_exact (raw : list Z) (label : string) (env : BpfVerifierEnv) (n : Z) (env' : BpfVerifierEnv) :
  Forall is_byte raw -> Z.of_nat (length raw) < 2 ^ 35 -> load_raw raw label env = Ok (n, env') ->
  Z.of_nat (length raw) = 8 * n /\ 0 < n /\ maps env' = maps env /\
  match decode_error (prog env') with
  | None => exists decoded, decode_program raw = Ok decoded /\ Z.of_nat (length (insns (prog env'))) = n /\
      forall k insn, insns (prog env') !! k = Some insn ->
        exists old, decoded !! k = Some old /\ resolve_insn (maps env) (Z.of_nat k) old = Ok insn
  | Some f => insns (prog env') = [] /\
      ((exists idx e, decode_program raw = Err (idx, e) /\ f = mkFailure idx (Undecodable e)) \/
       (exists decoded k old fd, decode_program raw = Ok decoded /\ decoded !! k = Some old /\
          maps env !! fd = None /\ resolve_insn (maps env) (Z.of_nat k) old = Err f /\
          f = mkFailure (Z.of_nat k) (UnknownMapFd fd)))
  end.
Proof.
  intros Hb Hlen (Hm & H0 & -> & Hmaps & _ & _ & _ & Hl)%load_raw_ok.
  assert (Hn : as_u32 (Z.of_nat (length raw) / 8) = Z.of_nat (length raw) / 8).
  { apply Z.mod_small. split; [apply Z.div_pos; lia|]. apply Z.div_lt_upper_bound; lia. }
  rewrite Hn. pose proof (Z.div_mod (Z.of_nat (length raw)) 8 ltac:(done)) as Hdm. rewrite Hm, Z.add_0_r in Hdm.
  split; [done|]. split; [lia|]. split; [done|]. unfold decode_and_resolve in Hl.
  destruct (decode_program raw) as [decoded|[idx e]] eqn:Hp.
  2: { destruct Hl as [-> ->]. split; [done|]. left. by exists idx, e. }
  destruct (resolve_maps (maps env) 0 decoded) as [l|f] eqn:Hr; destruct Hl as [-> ->].
  - exists decoded. split; [done|]. destruct (resolve_maps_lookup _ _ _ _ Hr) as [Hlen' Hk].
    pose proof (decoded_length _ _ Hb Hp) as Hdl. split; [|done]. rewrite Hlen'. lia.
  - split; [done|]. right. destruct (resolve_maps_err _ _ _ _ Hr) as (k & old & fd & H1 & H2 & H3 & H4).
    exists decoded, k, old, fd. done.
Qed.

Lemma bytes_ok l : forallb (fun b => (0 <=? b) && (b <? 256)) l = true -> Forall is_byte l.
Proof.
  intros H. apply List.Forall_forall. intros b Hb. apply (proj1 (forallb_forall _ l) H) in Hb.
  apply andb_true_iff in Hb as [H1%Z.leb_le H2%Z.ltb_lt]. unfold is_byte. lia.
Qed.

(** A map load of a registered map, then of an unknown one. *)
Definition map_bytes (fd : Z) : list Z :=
  [0x18; 0x11; 0; 0; fd; 0; 0; 0; 0; 0; 0; 0; 0; 0; 0; 0; 0xb7; 0; 0; 0; 0; 0; 0; 0; 0x95; 0; 0; 0; 0; 0; 0; 0].
Definition map_env : BpfVerifierEnv := register_map 3 array_default env_new.
Definition loaded_env (raw : list Z) (env : BpfVerifierEnv) : BpfVerifierEnv :=
  match setup_prog_bytes raw env with Ok (_, env') => env' | Err _ => env end.

Lemma load_exact_witness :
  Z.of_nat (length (map_bytes 3)) = 8 * 4 /\
  insns (prog (loaded_env (map_bytes 3) map_env)) =
    [BpfInsn.LdMapFd 1 3 4 8 0; BpfInsn.LdImm64Second 0; BpfInsn.MovImm 0 0; BpfInsn.Exit] /\
  insns (prog (loaded_env (map_bytes 5) map_env)) = [].
Proof.
  split; [|split; [vm_compute; reflexivity|]].
  - apply (load_exact (map_bytes 3) "<memory>" map_env 4 (loaded_env (map_bytes 3) map_env));
      [apply bytes_ok; reflexivity|simpl; lia|vm_compute; reflexivity].
  - apply (load_exact (map_bytes 5) "<memory>" map_env 4 (loaded_env (map_bytes 5) map_env));
      [apply bytes_ok; reflexivity|simpl; lia|vm_compute; reflexivity].
Defined.

(** ** Concrete programs *)

Definition env_of (program : list BpfInsn) : BpfVerifierEnv :=
  loaded_env (default [] (encode_program program)) env_new.
Definition loop_env : BpfVerifierEnv := env_of countdown.
Definition outcome_of (env : BpfVerifierEnv) : option (bool * option ConcreteVerdict) :=
  match verify map_to_list env with
  | Returns (v, env') => Some (match v with Safe => true | Unsafe _ => false end, verdict <$> concrete_report env')
  | _ => None
  end.

Lemma outcome_inv env b c :
  outcome_of env = Some (b, Some c) ->
  exists v env' report, verify map_to_list env = Returns (v, env') /\ (b = true -> v = Safe) /\
    concrete_report env' = Some report /\ verdict report = c.
Proof.
  unfold outcome_of. destruct (verify map_to_list env) as [[v env']| |]; [|done..]. intros [= Hb Hc].
  destruct (concrete_report env') as [report|] eqn:Hr; [|done]. exists v, env', report. split; [done|].
  split; [intros ->; by destruct v|]. split; [done|]. cbn in Hc. congruence.
Qed.

Lemma loop_env_clean : outcome_of loop_env = Some (true, Some ConcreteVerdict.Safe).
Proof. vm_compute. reflexivity. Qed.

Lemma verdict_exact_witness :
  exists heads states, accepts map_to_list (insns (prog loop_env)) ProgType.SocketFilter heads states.
Proof.
  destruct (outcome_inv _ _ _ loop_env_clean) as (v & env' & report & Hv & Hs & _).
  destruct (verdict_exact map_to_list loop_env v env' (fun m => reflexivity _) Hv) as [[H _] _].
  destruct (H (Hs eq_refl)) as [_ Ha]. exact Ha.
Defined.

Lemma clean_acceptance_witness :
  exists l heads states points outs, analyze countdown = Some (Ok l) /\
    accepts map_to_list (insns (prog loop_env)) ProgType.SocketFilter heads states /\
    (0, cinitial_with ProgType.SocketFilter) ∈ points /\ outs <> [] /\
    (forall p, reaches (insns (prog loop_env)) (run_limits ProgType.SocketFilter) (maps loop_env) p -> p ∈ points) /\
    (forall p, p ∈ points -> is_covered states (cleaned l p)) /\
    (forall o, o ∈ outs -> is_outcome (insns (prog loop_env)) points o).
Proof.
  destruct (outcome_inv _ _ _ loop_env_clean) as (v & env' & report & Hv & Hs & Hr & Hc). rewrite (Hs eq_refl) in Hv.
  destruct (clean_acceptance map_to_list loop_env env' report Hv Hr Hc)
    as (l & heads & states & points & outs & Hl & Ha & Hstart & Hne & Hre & Hp & Ho).
  exists l, heads, states, points, outs. split; [exact Hl|]. split; [exact Ha|]. split; [exact Hstart|]. split; [exact Hne|].
  split; [exact Hre|]. split; [|exact Ho]. intros p Hin. apply (Hp p Hin).
Defined.

(** A callee that leaves its frame pointer in the caller's frame. *)
Definition stale_frame : list BpfInsn :=
  [BpfInsn.MovReg 1 10; BpfInsn.AddImm 1 (-8); BpfInsn.CallSub 3; BpfInsn.LdMem 2 10 (-8) MemSize.DW false;
   BpfInsn.LdMem 0 2 (-8) MemSize.DW false; BpfInsn.Exit;
   BpfInsn.StMem 10 1 0 MemSize.DW; BpfInsn.MovImm 0 0; BpfInsn.Exit].

(** Two functions, the second of which ends with a call. *)
Definition trailing_call : list BpfInsn :=
  [BpfInsn.MovImm 0 0; BpfInsn.Exit; BpfInsn.Exit; BpfInsn.CallSub (-2)].

(** The cross-check of a rejected program can panic.  The exploration rejects the
    store of a callee's frame pointer into its caller's frame, and the concrete
    run then follows the pointer of the frame that was left.  The control-flow check
    rejects a subprogram that ends with a call, and the liveness analysis of the
    concrete run then reads past the end of the program. *)
Theorem cross_check_panics :
  ((exists f, check_cfg trailing_call [0; 2] = Some (Err f)) /\
   verify map_to_list (env_of trailing_call) = Panics) /\
  (exists f, verify_mini_core stale_frame [] default_limits = Some (Err f) /\ message f = SpillIntoCallerFrame) /\
  verify map_to_list (env_of stale_frame) = Panics.
Proof.
  split; [split; [eexists; vm_compute; reflexivity|vm_compute; reflexivity]|]. split; [|vm_compute; reflexivity].
  eexists. split; [vm_compute; reflexivity|reflexivity].
Qed.

Lemma loaded_verify_ends_witness :
  verify map_to_list (env_of stale_frame) <> NoResult /\
  exists heads, run_concretely heads (env_of stale_frame) = Panics.
Proof.
  destruct (loaded_verify_ends map_to_list (default [] (encode_program stale_frame)) "<memory>" env_new 9
    (env_of stale_frame)) as (H1 & H2 & _).
  - apply bytes_ok. vm_compute. reflexivity.
  - vm_compute. reflexivity.
  - split; [exact H1|]. destruct H2 as [H2|H2]; [vm_compute; reflexivity| |exact H2].
    apply (bool_decide_eq_true_2 (BpfInsn.Call 202 ∈ insns (prog (env_of stale_frame)))) in H2.
    vm_compute in H2. discriminate H2.
Defined.

(** An accepted program prints no report exactly when its run was conclusive and
    found no violation; a run that never exits, whose verdict is unsafe, prints
    nothing either. *)
Theorem report_silent (states : gmap Z (list VerifierState)) (r : result ConcreteFailure ConcreteRun) :
  (report_lines (accepted_report states r) = [] <->
   exists run, r = Ok run /\ inconclusive run = false /\ check_coverage states run = []) /\
  verdict (accepted_report states (Ok (mkRun [] [] false true))) = ConcreteVerdict.Unsafe /\
  report_lines (accepted_report states (Ok (mkRun [] [] false true))) = [].
Proof.
  split; [|done]. destruct r as [run|f]; [|split; [done|by intros (? & ? & _)]]. unfold report_lines. cbn.
  destruct (check_coverage states run) eqn:Hc, (inconclusive run) eqn:Hi; cbn; split; try done.
  - by intros (run' & [= <-] & H & _); congruence.
  - intros _. by exists run.
  - by intros (run' & [= <-] & H & _); congruence.
  - intros (run' & [= <-] & _ & H). congruence.
Qed.
