(* ===== verification/CrossMem.v ===== *)
(** The stack of the abstract machine against the concrete one: what the byte types
    and the spilled registers of a frame say of the words in its slots, and the
    simulation of loads and stores (src/src/exec.rs [stack_read] and [stack_write]
    against the memory arms of [concrete_step] in src/src/concrete.rs). *)
From Stdlib Require Import ZArith Lia List Bool Btauto.
From stdpp Require Import base list.
From S2P Require Import Prelude Tnum Bounds Insn Alu Ctx State Concrete Exec Sim Mem ConcreteMem.
Open Scope Z_scope.

(** * The meaning of a slot *)

(** The byte type of the byte at position [k] of a slot, the lowest address first. *)
Definition slot_byte (st : StackState) (slot : nat) (k : Z) : StackByte :=
  bytes st !!! Z.to_nat (8 * Z.of_nat slot + 7 - k).

(** [b] describes the word from which the spill bytes of the slot come. *)
Definition spill_in (B : Z -> StackByte) (o : option RegState) (x : Z) : Prop :=
  exists b w, o = Some (Scalar b) /\ bounds_wf b /\ bounds_mem b w /\
    forall k, 0 <= k < 8 -> B k = StackByte.Spill -> word_byte x k = word_byte w k.

(** A slot without a value has no byte the abstract side knows anything about; a
    spilled pointer fills its slot; any other slot holds a word whose bytes are as
    their types say. *)
Definition slot_in (B : Z -> StackByte) (o : option RegState) (v : option ConcreteValue) : Prop :=
  (forall k, 0 <= k < 8 -> B k <> StackByte.Dynptr) /\
  match v with
  | None => forall k, 0 <= k < 8 -> B k = StackByte.Invalid \/ B k = StackByte.Misc
  | Some v =>
      ((forall k, 0 <= k < 8 -> B k = StackByte.Spill) /\
       exists r, o = Some r /\ is_scalar o = false /\ reg_wf r /\ value_in r v) \/
      (exists x, v = CScalar x /\ is_u64 x /\
         (forall k, 0 <= k < 8 -> B k = StackByte.Zero -> word_byte x k = 0) /\
         (forall k, 0 <= k < 8 -> B k = StackByte.Spill -> spill_in B o x))
  end.

Definition stack_in (st : StackState) (cst : list (option ConcreteValue)) : Prop :=
  length (bytes st) = 512%nat /\ length (spilled st) = 64%nat /\ length cst = 64%nat /\
  forall slot, (slot < 64)%nat -> slot_in (slot_byte st slot) (spilled st !!! slot) (cst !!! slot).

(** The two machines: registers, frames and every active stack describe each other. *)
Definition stacks_in (a : VerifierState) (c : ConcreteState) : Prop :=
  forall fr, 0 <= fr <= curframe a ->
    exists st cst, frame_stack_of a fr = Some st /\ concrete_frame_stack c fr = Some cst /\ stack_in st cst.
Definition mirrored (a : VerifierState) (c : ConcreteState) : Prop :=
  linked a c /\ prog_type a = cprog_type c /\ stacks_in a c.

(** * Words and their bytes *)

Lemma word_byte_inj x y n :
  is_u64 x -> is_u64 y -> 0 <= n <= 8 -> (forall k, 0 <= k < n -> word_byte x k = word_byte y k) ->
  Z.land x (Z.ones (8 * n)) = Z.land y (Z.ones (8 * n)).
Proof.
  intros Hx Hy Hn H. apply Z.bits_inj'. intros i Hi. rewrite !Z.land_spec, ones_bit by lia.
  destruct (Z.ltb_spec i (8 * n)); [|by rewrite !andb_false_r]. rewrite !andb_true_r.
  assert (Hk : word_byte x (i / 8) = word_byte y (i / 8)) by (apply H; div_lia).
  apply (f_equal (fun z => Z.testbit z (i mod 8))) in Hk. rewrite !word_byte_bit in Hk by div_lia.
  pose proof (Z.div_mod i 8 ltac:(lia)). pose proof (Z.mod_pos_bound i 8 ltac:(lia)).
  rewrite (proj2 (Z.ltb_lt _ _)) in Hk by lia. cbn [andb] in Hk.
  by replace (i mod 8 + 8 * (i / 8)) with i in Hk by lia.
Qed.

Lemma land_ones_64 x : is_u64 x -> Z.land x (Z.ones 64) = x.
Proof. intros. rewrite Z.land_ones by lia. apply Z.mod_small. lia. Qed.

Lemma word_eq x y :
  is_u64 x -> is_u64 y -> (forall k, 0 <= k < 8 -> word_byte x k = word_byte y k) -> x = y.
Proof.
  intros Hx Hy H. pose proof (word_byte_inj x y 8 Hx Hy ltac:(lia) H) as He. change (8 * 8) with 64 in He.
  by rewrite !land_ones_64 in He.
Qed.

Lemma word_byte_0 k : word_byte 0 k = 0.
Proof. unfold word_byte. by rewrite Z.shiftr_0_l. Qed.

Lemma word_byte_part x lo n k :
  0 <= lo -> 0 <= k < n ->
  word_byte (Z.land (Z.shiftr x (lo * 8)) (Z.ones (n * 8))) k = word_byte x (lo + k).
Proof.
  intros Hlo Hk. apply word_byte_ext; [lia|lia|]. intros i Hi.
  rewrite Z.land_spec, ones_bit, Z.shiftr_spec by lia.
  rewrite (proj2 (Z.ltb_lt _ _)), andb_true_r by lia. f_equal. lia.
Qed.

(** The value of a partial load, and its extension. *)
Lemma part_range x lo n : 0 <= lo -> 0 <= n -> 0 <= Z.land (Z.shiftr x (lo * 8)) (Z.ones (n * 8)) < 2 ^ (n * 8).
Proof.
  intros. rewrite Z.land_ones by lia. apply Z.mod_pos_bound. apply Z.pow_pos_nonneg; lia.
Qed.

Definition part_size (n : Z) : Prop := n = 1 \/ n = 2 \/ n = 4.

Lemma lor_negative v w : 0 <= w -> 0 <= v < 2 ^ w -> Z.lor v (- 2 ^ w) = v - 2 ^ w.
Proof.
  intros Hw Hv. pose proof (Z.add_lor_land v (- 2 ^ w)) as Ha.
  replace (Z.land v (- 2 ^ w)) with 0 in Ha; [lia|]. symmetry. apply Z.bits_inj'. intros i Hi.
  rewrite Z.land_spec, Z.bits_0. destruct (Z.lt_ge_cases i w).
  - replace (- 2 ^ w) with (Z.shiftl (-1) w) by (rewrite Z.shiftl_mul_pow2; lia).
    by rewrite Z.shiftl_spec_low, andb_false_r by lia.
  - by rewrite (testbit_high w) by lia.
Qed.

(** The sign bit of a value of [w + 1] bits. *)
Lemma land_sign_bit v w : 0 <= w -> 0 <= v < 2 ^ (w + 1) -> Z.land v (Z.shiftl 1 w) = if v <? 2 ^ w then 0 else 2 ^ w.
Proof.
  intros Hw Hv. rewrite Z.shiftl_mul_pow2, Z.mul_1_l by lia. apply Z.bits_inj'. intros i Hi.
  rewrite Z.land_spec, Z.pow2_bits_eqb by lia. destruct (Z.eqb_spec w i) as [<-|Hne].
  - rewrite andb_true_r. destruct (Z.ltb_spec v (2 ^ w)); [rewrite Z.bits_0; by apply (testbit_high w); lia|].
    rewrite Z.pow2_bits_true by lia. apply Z.testbit_true; [lia|].
    rewrite Z.pow_add_r, Z.pow_1_r in Hv by lia. assert (0 < 2 ^ w) by (by apply Z.pow_pos_nonneg).
    replace (v / 2 ^ w) with 1; [done|]. apply Z.div_unique with (v - 2 ^ w); lia.
  - rewrite andb_false_r. destruct (v <? 2 ^ w); [by rewrite Z.bits_0|]. by rewrite Z.pow2_bits_false by lia.
Qed.

Lemma extend_spec v n sx :
  part_size n -> 0 <= v < 2 ^ (n * 8) -> extend v (n * 8) sx = if sx then as_i (n * 8) v else v.
Proof.
  intros Hn Hv. unfold extend.
  assert (Hc : exists w, n * 8 = w + 1 /\ 0 <= w <= 31 /\ as_i64 (unot 64 (Z.ones (n * 8))) = - 2 ^ (w + 1)).
  { destruct Hn as [->|[->| ->]]; [exists 7|exists 15|exists 31]; (split; [done|]); (split; [lia|done]). }
  destruct Hc as (w & Hw & Hr & Hm). rewrite Hm, Hw in *. replace (w + 1 - 1) with w by lia.
  assert (Hp : 2 ^ (w + 1) <= 2 ^ 32) by (apply Z.pow_le_mono_r; lia).
  rewrite (as_i64_id v), lor_negative, land_sign_bit by lia. destruct sx; [|done]. cbn [andb].
  unfold as_i. rewrite Z.mod_small, Z.add_simpl_r by lia. destruct (Z.ltb_spec v (2 ^ w)); [done|].
  assert (0 < 2 ^ w) by (apply Z.pow_pos_nonneg; lia). by rewrite (proj2 (Z.eqb_neq _ _)) by lia.
Qed.

(** * The value a partial load gives *)

Ltac part_cases H :=
  destruct H as [->|[->| ->]]; [change (1 * 8) with 8 in *|change (2 * 8) with 16 in *|change (4 * 8) with 32 in *].

Lemma part_pos n : part_size n -> 0 < n <= 4.
Proof. intros [->|[->| ->]]; lia. Qed.

Lemma low_part_bit w n y i :
  part_size n -> 0 <= w -> y mod 2 ^ (n * 8) = Z.land w (Z.ones (n * 8)) -> 0 <= i < n * 8 ->
  Z.testbit y i = Z.testbit w i.
Proof.
  intros Hn Hw Hy Hi. pose proof (part_pos n Hn). rewrite Z.land_ones in Hy by lia. rewrite <- (Z.mod_pow2_bits_low y (n * 8)) by lia.
  rewrite Hy. apply Z.mod_pow2_bits_low. lia.
Qed.

Lemma low_tnum_in t w n y :
  part_size n -> tnum_wf t -> tnum_mem t w -> is_u64 y -> y mod 2 ^ (n * 8) = Z.land w (Z.ones (n * 8)) ->
  let t' := mkTnum (Z.land (tvalue t) (Z.ones (n * 8)))
              (Z.lor (Z.land (tmask t) (Z.ones (n * 8))) (unot 64 (Z.ones (n * 8)))) in
  tnum_wf t' /\ tnum_mem t' y.
Proof.
  intros Hn Ht Hw Hy Hlow. pose proof Ht as (Hv & Hm & _).
  assert (Hn' : 0 <= n * 8 <= 32) by (destruct Hn as [->|[->| ->]]; lia).
  assert (Hone : is_u64 (Z.ones (n * 8))) by (destruct Hn as [->|[->| ->]]; split; by vm_compute).
  assert (Hbit : forall i, 0 <= i < 64 ->
    Z.testbit (Z.lor (Z.land (tmask t) (Z.ones (n * 8))) (unot 64 (Z.ones (n * 8)))) i =
      (Z.testbit (tmask t) i && (i <? n * 8)) || negb (i <? n * 8)).
  { intros i Hi. rewrite Z.lor_spec, Z.land_spec, unot_spec, ones_bit by lia.
    by rewrite (proj2 (Z.ltb_lt i 64)) by lia. }
  assert (Hwf : tnum_wf (mkTnum (Z.land (tvalue t) (Z.ones (n * 8)))
              (Z.lor (Z.land (tmask t) (Z.ones (n * 8))) (unot 64 (Z.ones (n * 8)))))).
  { apply tnum_wf_intro.
    - by apply land_u64.
    - apply lor_u64; [by apply land_u64|by apply unot_u64].
    - intros i Hi. rewrite Hbit, Z.land_spec, ones_bit by lia. intros [Hvi Hlt]%andb_true_iff.
      by rewrite (tnum_wf_bit t i Ht Hvi), Hlt. }
  split; [done|]. destruct Hwf as (Hv' & Hm' & _). apply tnum_mem_bits; [done|done|]. split; [done|].
  intros i Hi. cbn [tmask tvalue]. rewrite Hbit, Z.land_spec, ones_bit by lia.
  destruct (Z.ltb_spec i (n * 8)); cbn [negb]; [|by rewrite orb_true_r].
  rewrite orb_false_r, !andb_true_r. intros Hmi. pose proof Hw as [Hwu _].
  rewrite (low_part_bit w n y i Hn ltac:(lia) Hlow ltac:(lia)). by apply tnum_mem_bit.
Qed.

(** The loaded low part of a spilled scalar, unless its signed 32-bit range came out
    empty. *)
Lemma coerce_in b w n sx :
  part_size n -> bounds_wf b -> bounds_mem b w ->
  s32_min (coerce_scalar b n sx) <= s32_max (coerce_scalar b n sx) ->
  bounds_wf (coerce_scalar b n sx) /\
  bounds_mem (coerce_scalar b n sx) (as_u64 (extend (Z.land w (Z.ones (n * 8))) (n * 8) sx)).
Proof.
  intros Hn Hb Hw Hs. pose proof Hw as [(Hwu & _ & _ & Htm) _]. pose proof Hb as (_&_&_&_&_&_&_&_&Ht).
  pose proof (part_range w 0 n ltac:(lia) ltac:(destruct Hn as [->|[->| ->]]; lia)) as Hr.
  rewrite Z.mul_0_l, Z.shiftr_0_r in Hr. rewrite (extend_spec _ n sx Hn Hr). revert Hs.
  unfold coerce_scalar. destruct (Z.leb_spec 8 n); [destruct Hn as [->|[->| ->]]; lia|]. cbn zeta.
  set (low := Z.land w (Z.ones (n * 8))) in *.
  assert (Hi : is_i64 (if sx then as_i (n * 8) low else low)).
  { part_cases Hn; destruct sx; unfold as_i; case_tests; div_lia. }
  destruct (bounds_is_constant b) eqn:Hc.
  { intros _. destruct (is_constant_mem b w Hb Hw Hc) as (<- & _ & _). fold low. rewrite (extend_spec _ n sx Hn Hr).
    split; [by apply bounds_constant_wf|by apply bounds_constant_mem]. }
  assert (Hmod : as_u64 (if sx then as_i (n * 8) low else low) mod 2 ^ (n * 8) = low).
  { part_cases Hn; destruct sx; unfold as_i, as_u; case_tests; div_lia. }
  pose proof (as_u64_range (if sx then as_i (n * 8) low else low)) as Hu.
  destruct (low_tnum_in (tnum b) w n _ Hn Ht Htm Hu Hmod) as [Hlw Hlm]. destruct sx; cbn [s32_min s32_max]; intros Hs.
  - pose proof (as_i64_range (as_u64 (as_i (n * 8) low))). pose proof (as_i32_range (as_u64 (as_i (n * 8) low))).
    pose proof (as_u32_range (as_u64 (as_i (n * 8) low))).
    split; [unfold bounds_wf|split; [unfold mem64|unfold mem32]]; cbn; split_and!; try done; lia.
  - assert (Hlow : as_u64 low = low) by (apply Z.mod_small; part_cases Hn; lia). rewrite Hlow in *.
    part_cases Hn; [| |exfalso; revert Hs; by vm_compute].
    all: assert (Hs64 : as_i64 low = low) by (apply as_i64_id; lia).
    all: assert (Hs32 : as_i32 low = low) by (unfold as_i; case_tests; div_lia).
    all: assert (Hu32 : as_u32 low = low) by (unfold as_u; div_lia).
    all: unfold bounds_wf, bounds_mem, mem64, mem32; rewrite ?Hlow, ?Hs64, ?Hs32, ?Hu32;
      cbn [smin smax umin umax s32_min s32_max u32_min u32_max tnum].
    1: change (Z.ones 8) with 255 in *; change (as_i32 (Z.min 255 U32_MAX)) with 255; change (Z.min 255 U32_MAX) with 255.
    2: change (Z.ones 16) with 65535 in *; change (as_i32 (Z.min 65535 U32_MAX)) with 65535;
       change (Z.min 65535 U32_MAX) with 65535.
    all: split; split_and!; try done; lia.
Qed.

(** * The place of an access *)

Definition access_at (o n : Z) (slot : nat) (lo : Z) : Prop :=
  -512 <= o /\ o + n <= 0 /\ o mod n = 0 /\ (part_size n \/ n = 8) /\
  Z.of_nat slot = (- o - 1) / 8 /\ lo = o mod 8.

Lemma access_place o n slot lo : access_at o n slot lo -> place_ok lo n /\ (slot < 64)%nat /\ - o - 1 = 8 * Z.of_nat slot + 7 - lo.
Proof.
  intros (H1 & H2 & H3 & H4 & H5 & ->). unfold place_ok.
  assert (Hn : n = 1 \/ n = 2 \/ n = 4 \/ n = 8) by (unfold part_size in H4; tauto).
  destruct Hn as [->|[->|[->| ->]]]; split_and!; div_lia.
Qed.

(** The bytes an access covers, as the code lists them and by position. *)
Lemma covered_positions st o n slot lo (P : StackByte -> Prop) :
  access_at o n slot lo ->
  (forall b, In b (map (fun i => bytes st !!! i) (range (stack_byte_index (o + n - 1)) (stack_byte_index o))) -> P b) <->
  (forall k, lo <= k < lo + n -> P (slot_byte st slot k)).
Proof.
  intros Ha. destruct (access_place _ _ _ _ Ha) as ((Hl0 & Hn & Hle & _) & Hs & Hi). destruct Ha as (H1 & H2 & _).
  split.
  - intros H k Hk. apply H. apply in_map_iff. eexists. split; [reflexivity|]. apply in_range_within.
    unfold within, stack_byte_index. rewrite andb_true_iff, !Nat.leb_le. lia.
  - intros H b (i & <- & Hr%in_range_within)%in_map_iff. unfold within, stack_byte_index in Hr.
    rewrite andb_true_iff, !Nat.leb_le in Hr. replace i with (Z.to_nat (8 * Z.of_nat slot + 7 - (8 * Z.of_nat slot + 7 - Z.of_nat i))) by lia.
    apply H. lia.
Qed.

Lemma forallb_all (p : StackByte -> bool) l : forallb p l = true <-> forall b, In b l -> p b = true.
Proof. apply forallb_forall. Qed.
Lemma existsb_none (p : StackByte -> bool) l : existsb p l = false <-> forall b, In b l -> p b = false.
Proof.
  induction l as [|b l IH]; simpl; [by split; intros|]. rewrite orb_false_iff, IH. split.
  - intros [H1 H2] b' [<-|Hb]; auto.
  - intros H. split; auto.
Qed.
Lemma count_all x l : (count_byte x l =? length l)%nat = true -> forall b, In b l -> b = x.
Proof.
  rewrite Nat.eqb_eq. unfold count_byte. induction l as [|y l IH]; simpl; [done|]. rewrite filter_cons.
  pose proof (length_filter (fun b => b = x) l). destruct (decide (y = x)) as [->|]; simpl; [|lia].
  intros [= Hl] b [<-|Hb]; [done|by apply IH].
Qed.

Lemma slot_index o : o < 0 -> (stack_byte_index o / 8)%nat = Z.to_nat ((- o - 1) / 8).
Proof.
  intros. unfold stack_byte_index. apply Nat2Z.inj. rewrite Nat2Z.inj_div, !Z2Nat.id; [done|div_lia|lia].
Qed.

(** * Loads from a slot *)

Lemma extract_word x lo n sx :
  is_u64 x -> exists y, concrete_extract (CScalar x) lo n sx = CScalar y /\ is_u64 y.
Proof.
  intros Hx. unfold concrete_extract. destruct (_ && _); eexists; (split; [reflexivity|]); [done|apply as_u64_range].
Qed.

Lemma extract_zero x lo n sx :
  is_u64 x -> place_ok lo n -> (part_size n \/ n = 8) -> (forall k, lo <= k < lo + n -> word_byte x k = 0) ->
  concrete_extract (CScalar x) lo n sx = CScalar 0.
Proof.
  intros Hx (Hl & Hn & Hle & Hfull) Hs H. unfold concrete_extract. destruct Hs as [Hs| ->].
  - rewrite (proj2 (Z.eqb_neq n 8)), andb_false_r by (destruct Hs; lia). cbn [bits].
    assert (Hz : Z.land (Z.shiftr x (lo * 8)) (Z.ones (n * 8)) = 0).
    { pose proof (part_range x lo n Hl ltac:(lia)) as Hr. assert (2 ^ (n * 8) <= 2 ^ 32) by (apply Z.pow_le_mono_r; part_cases Hs; lia).
      apply word_eq; [lia|lia|]. intros k Hk. rewrite word_byte_0. destruct (Z.lt_ge_cases k n) as [Hlt|Hge].
      - rewrite word_byte_part by lia. apply H. lia.
      - assert (2 ^ (n * 8) <= 2 ^ (8 * k)) by (apply Z.pow_le_mono_r; lia).
        unfold word_byte. by rewrite Z.shiftr_div_pow2, Z.div_small by lia. }
    rewrite Hz. destruct sx; part_cases Hs; reflexivity.
  - rewrite (Hfull eq_refl). cbn. f_equal. apply word_eq; [done|lia|]. intros k Hk. rewrite word_byte_0. apply H.
    rewrite (Hfull eq_refl) in *. lia.
Qed.

Lemma extract_spill x w n sx :
  is_u64 x -> is_u64 w -> part_size n -> (forall k, 0 <= k < n -> word_byte x k = word_byte w k) ->
  concrete_extract (CScalar x) 0 n sx = CScalar (as_u64 (extend (Z.land w (Z.ones (n * 8))) (n * 8) sx)).
Proof.
  intros Hx Hw Hn H. unfold concrete_extract. rewrite (proj2 (Z.eqb_neq n 8)) by (destruct Hn; lia). cbn [andb Z.eqb bits].
  rewrite Z.mul_0_l, Z.shiftr_0_r. do 3 f_equal. rewrite (Z.mul_comm n 8).
  apply word_byte_inj; [done|done|pose proof (part_pos n Hn); lia|done].
Qed.

(** The signed 32-bit range of a register, empty after a four-byte fill of an unknown
    scalar. *)
Definition s32_ordered (r : RegState) : bool := match r with Scalar b => s32_min b <=? s32_max b | _ => true end.

Definition read_in (r : RegState) (v : option ConcreteValue) (lo n : Z) (sx : bool) : Prop :=
  match v with
  | None => True
  | Some v => reg_wf r /\ value_in r (concrete_extract v lo n sx)
  end.

Lemma unknown_read x lo n sx :
  is_u64 x -> reg_wf (Scalar bounds_unknown) /\ value_in (Scalar bounds_unknown) (concrete_extract (CScalar x) lo n sx).
Proof.
  intros Hx. destruct (extract_word x lo n sx Hx) as (y & -> & Hy). split; [apply bounds_unknown_wf|].
  by apply bounds_unknown_mem.
Qed.

Lemma zero_read x lo n sx :
  is_u64 x -> place_ok lo n -> (part_size n \/ n = 8) -> (forall k, lo <= k < lo + n -> word_byte x k = 0) ->
  reg_wf (Scalar (bounds_constant 0)) /\ value_in (Scalar (bounds_constant 0)) (concrete_extract (CScalar x) lo n sx).
Proof.
  intros. rewrite extract_zero by done. split; [apply bounds_constant_wf; lia|]. apply bounds_constant_mem; [lia|done].
Qed.

Section slot_read.
Context (pc base offset o n : Z) (st : StackState) (v : option ConcreteValue) (slot : nat) (lo : Z) (sx : bool).
Context (Hat : access_at o n slot lo) (Hslot : slot_in (slot_byte st slot) (spilled st !!! slot) v).
Local Abbreviation covered :=
  (map (fun i => bytes st !!! i) (range (stack_byte_index (o + n - 1)) (stack_byte_index o))).

Lemma end_slot : (stack_byte_index o / 8)%nat = slot.
Proof. destruct Hat as (H1 & H2 & _ & [Hn|Hn] & Hs & _); [pose proof (part_pos n Hn)|]; rewrite slot_index by lia; lia. Qed.

(** The bytes known to be all zero or all from a spilled zero. *)
Lemma constant_zero_read x :
  v = Some (CScalar x) -> is_u64 x ->
  (forall k, lo <= k < lo + n -> slot_byte st slot k = StackByte.Zero) \/
  ((forall k, lo <= k < lo + n -> slot_byte st slot k = StackByte.Spill) /\
   exists b, spilled st !!! slot = Some (Scalar b) /\ bounds_is_constant b = true /\ smin b = 0) ->
  forall k, lo <= k < lo + n -> word_byte x k = 0.
Proof.
  intros -> Hx H k Hk. destruct (access_place _ _ _ _ Hat) as ((Hl & Hn & Hle & _) & _ & _).
  destruct Hslot as [_ [[Hfull (r & Hr & Hs & _)]|(x' & [= <-] & _ & Hz & Hsp)]].
  - destruct H as [H|[_ (b & Hb & _)]]; [|by rewrite Hb in Hr; injection Hr as <-; rewrite Hb in Hs].
    by specialize (H k Hk); rewrite Hfull in H by lia.
  - destruct H as [H|[H (b & Hb & Hc & H0)]]; [by apply Hz; [lia|apply H]|].
    destruct (Hsp k ltac:(lia) (H k Hk)) as (b' & w & Hb' & Hbw & Hw & Hag). rewrite Hb in Hb'. injection Hb' as <-.
    destruct (is_constant_mem b w Hbw Hw Hc) as (-> & _ & _). rewrite (Hag k ltac:(lia) (H k Hk)), H0. apply word_byte_0.
Qed.

Lemma fixed_read_in r :
  fixed_stack_read pc base offset st (stack_byte_index (o + n - 1)) (stack_byte_index o) o n sx = Ok r ->
  s32_ordered r = true -> read_in r v lo n sx.
Proof.
  intros Hread Hord. unfold read_in. case_eq v; [intros cv Hv|done]. pose proof Hslot as Hs. rewrite Hv in Hs.
  destruct (access_place _ _ _ _ Hat) as (Hp & _ & _). pose proof Hp as (Hl & Hn & Hle & Hfull8).
  assert (Hsize : part_size n \/ n = 8) by apply Hat.
  unfold fixed_stack_read in Hread. rewrite end_slot in Hread. cbv zeta in Hread.
  (* the byte-by-byte walk *)
  assert (Hwalk : (exists x, cv = CScalar x /\ is_u64 x) ->
    (if existsb unreadable covered then fail pc (UninitializedStack offset)
     else if (count_byte StackByte.Zero covered =? length covered)%nat ||
             ((count_byte StackByte.Spill covered =? length covered)%nat &&
              match spilled st !!! slot with
              | Some (Scalar b) => bounds_is_constant b && (smin b =? 0)
              | _ => false
              end)
          then Ok (Scalar (bounds_constant 0)) else Ok (Scalar bounds_unknown)) = Ok r ->
    reg_wf r /\ value_in r (concrete_extract cv lo n sx)).
  { intros (x & -> & Hx). destruct (existsb _ _); [done|]. destruct (_ || _) eqn:Hz; intros [= <-]; [|by apply unknown_read].
    apply zero_read; [done|done|done|]. apply (constant_zero_read x Hv Hx).
    apply orb_true_iff in Hz as [Hz|[Hz Hb]%andb_true_iff]; [left|right].
    - apply (covered_positions st o n slot lo (fun b => b = StackByte.Zero) Hat). by apply count_all.
    - split; [apply (covered_positions st o n slot lo (fun b => b = StackByte.Spill) Hat); by apply count_all|].
      destruct (spilled st !!! slot) as [[]|]; try done. apply andb_true_iff in Hb as [Hc H0%Z.eqb_eq]. by eexists. }
  destruct (forallb _ covered) eqn:Hall.
  2: { apply Hwalk; [|exact Hread]. destruct Hs as [_ [[Hf _]|(x & -> & Hx & _)]]; [|by exists x].
       exfalso. apply not_true_iff_false in Hall. apply Hall, forallb_all.
       apply (covered_positions st o n slot lo (fun b => bool_decide (b = StackByte.Spill) = true) Hat).
       intros k Hk. apply bool_decide_eq_true. apply Hf. lia. }
  assert (Hspill : forall k, lo <= k < lo + n -> slot_byte st slot k = StackByte.Spill).
  { apply (covered_positions st o n slot lo (fun b => b = StackByte.Spill) Hat). intros b Hb.
    apply (proj1 (forallb_all _ _) Hall) in Hb. by apply bool_decide_eq_true in Hb. }
  destruct Hs as [_ [[_ (r0 & Hr0 & Hns & Hw & Hin)]|(x & -> & Hx & _ & Hsp)]].
  { rewrite Hr0 in Hread. destruct (Z.eqb_spec n 8) as [->|].
    - injection Hread as <-. rewrite (Hfull8 eq_refl). cbn. done.
    - rewrite Hr0 in Hns. by destruct r0. }
  destruct (Hsp lo ltac:(lia) (Hspill lo ltac:(lia))) as (b & w & Hb & Hbw & Hbm & Hag). rewrite Hb in Hread.
  pose proof Hbm as [(Hwu & _) _]. destruct (Z.eqb_spec n 8) as [->|Hne].
  { injection Hread as <-. rewrite (Hfull8 eq_refl). cbn. split; [done|]. replace x with w; [done|].
    symmetry. apply word_eq; [done|done|]. intros k Hk. rewrite (Hfull8 eq_refl) in Hspill. apply Hag; [lia|]. apply Hspill. lia. }
  destruct Hsize as [Hsize|]; [|done]. destruct (Z.eqb_spec (o mod 8) 0) as [Hm|].
  - injection Hread as <-. assert (lo = 0) as -> by (destruct Hat as (_&_&_&_&_&->); done).
    rewrite (extract_spill x w n sx) by first [done|intros k Hk; apply Hag; [lia|apply Hspill; lia]].
    apply (coerce_in b w n sx); try done. by apply Z.leb_le.
  - rewrite Hb in Hwalk. apply Hwalk; [by exists x|done].
Qed.
End slot_read.

(** What a variable-offset read has checked. *)
Lemma variable_read_ok pc base offset mn mx st l : forall u r,
  variable_read pc base offset mn mx st l u = Ok r ->
  (r = true \/ (l = [] /\ r = u)) /\
  forall i, In i l -> unreadable (bytes st !!! i) = false /\
    (bytes st !!! i = StackByte.Spill -> is_scalar (spilled st !!! (i / 8)%nat) = true).
Proof.
  induction l as [|i l IH]; intros u r; simpl; [intros [= <-]; split; [by right|done]|]. intros H.
  assert (Hr : exists u', variable_read pc base offset mn mx st l true = Ok u' /\ r = u' /\
    unreadable (bytes st !!! i) = false /\
    (bytes st !!! i = StackByte.Spill -> is_scalar (spilled st !!! (i / 8)%nat) = true)).
  { destruct (bytes st !!! i); try done; try (by exists r). destruct (is_scalar _) eqn:Hs; [|done]. by exists r. }
  destruct Hr as (u' & Hv & -> & Hi). destruct (IH _ _ Hv) as [Hu Hl]. split.
  - left. by destruct Hu as [|[_ ->]].
  - intros j [<-|Hj]; [done|by apply Hl].
Qed.

Lemma byte_slot slot lo k o : - o - 1 = 8 * Z.of_nat slot + 7 - lo -> 0 <= k < 8 ->
  (Z.to_nat (8 * Z.of_nat slot + 7 - k) / 8)%nat = slot.
Proof. intros _ Hk. apply Nat2Z.inj. rewrite Nat2Z.inj_div, Z2Nat.id by lia. change (Z.of_nat 8) with 8. div_lia. Qed.

Lemma variable_read_in pc base offset mn mx st v slot lo o n sx u min_off max_off :
  access_at o n slot lo -> slot_in (slot_byte st slot) (spilled st !!! slot) v ->
  min_off <= o -> o + n <= max_off -> max_off <= 0 ->
  variable_read pc base offset mn mx st (range (stack_byte_index (max_off - 1)) (stack_byte_index min_off)) false = Ok u ->
  read_in (Scalar (if u then bounds_unknown else bounds_constant 0)) v lo n sx.
Proof.
  intros Ha Hs Hmn Hmx Hle Hr. destruct (access_place _ _ _ _ Ha) as ((Hl & Hn & Hl8 & _) & Hslot & Hidx).
  assert (Hin : In (Z.to_nat (8 * Z.of_nat slot + 7 - lo)) (range (stack_byte_index (max_off - 1)) (stack_byte_index min_off))).
  { apply in_range_within. unfold within, stack_byte_index. rewrite andb_true_iff, !Nat.leb_le. lia. }
  apply variable_read_ok in Hr as [Hu Hbytes]. destruct (Hbytes _ Hin) as [_ Hsc]. destruct v as [v|]; [|done].
  assert (u = true) as -> by (destruct Hu as [|[Hnil _]]; [done|by rewrite Hnil in Hin]).
  rewrite (byte_slot slot lo lo o Hidx) in Hsc by lia.
  destruct Hs as [_ [[Hf (r & Hr & Hns & _)]|(x & -> & Hx & _)]]; [|by apply unknown_read].
  exfalso. rewrite Hsc in Hns; [done|]. by apply (Hf lo ltac:(lia)).
Qed.

(** * Locating an access *)

Lemma stack_offset addr off :
  - 2 ^ 20 <= as_i64 (addr - STACK_BASE) <= 2 ^ 20 -> -32768 <= off <= 32767 ->
  as_i32 (as_i64 addr - STACK_BASE + off) = as_i64 (addr - STACK_BASE) + off.
Proof.
  intros Hin Hoff. assert (Hv : as_i64 addr - STACK_BASE = as_i64 (addr - STACK_BASE)).
  { rewrite <- as_i64_rebase. symmetry. apply as_i64_id. rewrite <- as_i64_rebase in Hin.
    pose proof (as_i64_range addr) as Hrng. revert Hin Hrng. generalize (as_i64 addr). intros y Hin Hrng.
    destruct (Z.le_gt_cases I64_MIN (y - STACK_BASE)); [lia|].
    assert (Hwrap : as_i64 (y - STACK_BASE) = y - STACK_BASE + 2 ^ 64); [|lia].
    unfold as_i. case_tests; div_lia. }
  rewrite Hv. unfold as_i at 1. case_tests; div_lia.
Qed.

Lemma locate_in pc r off (size : MemSize) addr fr o :
  o = as_i32 (as_i64 addr - STACK_BASE + off) -> -512 <= o -> o + MemSize.bytes size <= 0 -> o mod MemSize.bytes size = 0 ->
  exists slot lo, locate pc r (StackPtr addr fr) off (MemSize.bytes size) = Ok (fr, o, (slot, lo)) /\
    access_at o (MemSize.bytes size) slot lo.
Proof.
  intros Ho H1 H2 H3. pose proof (mem_size_cases size) as Hn. exists (Z.to_nat ((- o - 1) / 8)), (o mod 8).
  assert (Hlo : 7 - (- o - 1) mod 8 = o mod 8) by div_lia.
  split.
  - unfold locate, stack_ptr_frameno, stack_ptr_access_offset, concrete_stack_range. cbn [rbind]. rewrite <- Ho.
    destruct (Z.leb_spec 0 o); [lia|]. destruct (Z.ltb_spec o (- STACK_SIZE)); [lia|]. cbn [orb].
    rewrite (proj2 (Z.eqb_neq (MemSize.bytes size) 0)) by lia. rewrite H3. cbn [Z.eqb negb].
    destruct (Z.ltb_spec 0 (o + MemSize.bytes size)); [lia|]. cbn [rbind]. by rewrite Hlo.
  - unfold access_at, part_size. rewrite Z2Nat.id by div_lia. split_and!; try done. tauto.
Qed.

(** An accepted stack access, on the concrete side. *)
Lemma access_located pc base offset mn mx al fr addr (size : MemSize) :
  value_in (PtrToStack mn mx al fr) (StackPtr addr fr) -> -32768 <= offset <= 32767 ->
  check_stack_access pc base offset mn mx al (MemSize.bytes size) = Ok tt ->
  exists o slot lo, locate pc base (StackPtr addr fr) offset (MemSize.bytes size) = Ok (fr, o, (slot, lo)) /\
    access_at o (MemSize.bytes size) slot lo /\
    mn + offset <= o <= mx + offset /\ -512 <= mn + offset /\ mx + offset + MemSize.bytes size <= 0.
Proof.
  intros (_ & _ & Ho) Hoff Hc. apply stack_access_ok in Hc as (Hal & Ha & _ & Hlo & Hhi).
  pose proof (mem_size_cases size) as Hn.
  destruct Ho as [Hw|[Hin Halign]]; [unfold wide in Hw; lia|]. destruct Halign as [|Halign]; [done|].
  assert (Hb : - 2 ^ 20 <= as_i64 (addr - STACK_BASE) <= 2 ^ 20) by lia.
  pose proof (stack_offset addr offset Hb Hoff) as Hoff'. revert Hoff' Hin Halign. generalize (as_i64 (addr - STACK_BASE)).
  intros z Hoff' Hin Halign.
  destruct (locate_in pc base offset size addr fr (z + offset)) as (slot & lo & Hl & Hat); [done|lia|lia| |].
  { destruct Hn as [Hn|[Hn|[Hn|Hn]]]; rewrite Hn in *; div_lia. }
  exists (z + offset), slot, lo. split_and!; try done; lia.
Qed.

(** * Loads *)

Lemma mirrored_reg a c r : mirrored a c -> 0 <= r < 11 -> reg_wf (reg a r) /\ option_in (reg a r) (creg c r).
Proof. intros [[Hd _] _] Hr. by apply Hd. Qed.

Lemma mirrored_set a c dst r v :
  mirrored a c -> 0 <= dst < 11 -> reg_wf r -> value_in r v -> mirrored (set_reg dst r a) (set_creg dst v c).
Proof.
  intros [(Hd & Hrest) [Hp Hs]] Hdst Hw Hv. split; [|done]. split; [by apply described_set|exact Hrest].
Qed.

Lemma mirrored_read pc a c r x :
  mirrored a c -> 0 <= r -> read_reg pc a r = Ok x ->
  r < 11 /\ reg a r = x /\ reg_wf x /\ exists v, creg c r = Some v /\ value_in x v /\ lread pc c r = Ok v.
Proof.
  intros [(Hd & _) _] Hr Hread. destruct (read_reg_ok _ _ _ _ _ Hd Hr Hread) as (Hlt & Hx & _ & Hw & v & _ & Hc & Hv).
  split_and!; try done. exists v. split_and!; try done. by apply lread_some.
Qed.

Lemma stack_read_in pc a c base offset (size : MemSize) sx r mn mx al fr :
  mirrored a c -> state_typed a -> 0 <= base -> -32768 <= offset <= 32767 ->
  reg a base = PtrToStack mn mx al fr -> stack_read pc base a offset size sx = Ok r -> s32_ordered r = true ->
  exists addr o slot lo cst, creg c base = Some (StackPtr addr fr) /\ base < 11 /\
    locate pc base (StackPtr addr fr) offset (MemSize.bytes size) = Ok (fr, o, (slot, lo)) /\
    concrete_frame_stack c fr = Some cst /\ read_in r (cst !!! slot) lo (MemSize.bytes size) sx.
Proof.
  intros Hm Ht Hb Hoff Hbase Hread Hord. unfold stack_read in Hread. apply rbind_ok in Hread as (x & Hx & Hread).
  destruct (mirrored_read _ _ _ _ _ Hm Hb Hx) as (Hlt & Hreg & _ & v & Hv & Hin & _). rewrite Hbase in Hreg. subst x.
  apply rbind_ok in Hread as ([] & Hc & Hread).
  destruct v as [|addr fr'| | |]; try done. assert (fr' = fr) as -> by (symmetry; apply Hin).
  destruct (access_located _ _ _ _ _ _ _ _ _ Hin Hoff Hc) as (o & slot & lo & Hl & Hat & Ho & Hlo & Hhi).
  pose proof (reg_typed a base Ht) as Hfr. rewrite Hbase in Hfr. simpl in Hfr.
  destruct Hm as (_ & _ & Hst). destruct (Hst fr Hfr) as (st & cst & Hst1 & Hst2 & Hb1 & Hb2 & Hb3 & Hslots).
  destruct (access_place _ _ _ _ Hat) as (_ & Hs64 & _). specialize (Hslots slot Hs64).
  exists addr, o, slot, lo, cst. split_and!; try done. unfold stack_byte_range in Hread. rewrite Hst1 in Hread.
  destruct (Z.eqb_spec mn mx) as [<-|].
  - assert (mn + offset = o) as He by lia. rewrite He in Hread.
    by apply (fixed_read_in pc base offset o _ st _ slot lo sx Hat Hslots r Hread).
  - apply rbind_ok in Hread as (u & Hu & [= <-]).
    eapply (variable_read_in pc base offset mn mx); [exact Hat|exact Hslots| | | |exact Hu]; lia.
Qed.

(** Loads through the stack and the context, the ones the concrete machine has. *)
Definition load_base (r : RegState) : bool := match r with PtrToStack _ _ _ _ | PtrToCtx _ => true | _ => false end.

Lemma width_zero n sx : reg_wf (Scalar (scalar_for_width n sx)) /\ value_in (Scalar (scalar_for_width n sx)) (CScalar 0).
Proof.
  assert (H : forall lo hi, is_i64 lo -> is_i64 hi -> lo <= 0 <= hi ->
    reg_wf (Scalar (bounds_from_signed lo hi)) /\ value_in (Scalar (bounds_from_signed lo hi)) (CScalar 0)).
  { intros lo hi Hlo Hhi Hz. destruct (from_signed_mem lo hi 0) as [Hw Hm]; [lia..|]. split; [done|]. apply Hm.
    change (as_i64 0) with 0. lia. }
  assert (Hu : reg_wf (Scalar bounds_unknown) /\ value_in (Scalar bounds_unknown) (CScalar 0)).
  { split; [apply bounds_unknown_wf|by apply bounds_unknown_mem]. }
  unfold scalar_for_width. repeat case_match; first [exact Hu|apply H; lia].
Qed.

Lemma ctx_offset base_off off addr :
  is_i32 base_off -> -32768 <= off <= 32767 -> addr = as_u64 (CTX_BASE + base_off) ->
  as_i64 (wsub 64 addr CTX_BASE) + off = base_off + off.
Proof.
  intros Hb Ho ->. f_equal. unfold wsub, as_u, as_i.
  rewrite Zmod_mod, Zminus_mod_idemp_l. case_tests; div_lia.
Qed.

Lemma loads_mirror pc a a' c dst base offset size sx :
  mirrored a c -> state_typed a -> 0 <= dst -> 0 <= base -> -32768 <= offset <= 32767 ->
  load_base (reg a base) = true -> ld_mem pc a dst base offset size sx = Ok a' -> s32_ordered (reg a' dst) = true ->
  match concrete_ld_mem pc c dst base offset size sx with
  | Ok c' => mirrored a' c'
  | Err e => exists o, e = Failure (ConcreteFailure.UninitializedStackRead pc o)
  end.
Proof.
  intros Hm Ht Hdst Hb Hoff Hbase Hld Hord. unfold ld_mem in Hld. apply rbind_ok in Hld as (u & Hck & Hld).
  apply check_reg_ok in Hck as [Hlt Hck]. destruct (Z.leb_spec NUM_REGS base); [done|].
  assert (Hset : forall r, reg (set_reg dst r a) dst = r).
  { intros r. apply set_reg_same; [done|]. destruct Hm as [[(Hl & _) _] _]. lia. }
  unfold concrete_ld_mem. rewrite Hck. cbn [lift rbind].
  destruct (mirrored_reg a c base Hm ltac:(lia)) as [Hw Hin].
  destruct (reg a base) as [| |mn mx al fr|boff| | | | | |] eqn:Hreg; try done.
  - apply rbind_ok in Hld as (r & Hread & [= <-]). rewrite Hset in Hord.
    destruct (stack_read_in _ _ _ _ _ _ _ _ _ _ _ _ Hm Ht Hb Hoff Hreg Hread Hord)
      as (addr & o & slot & lo & cst & Hc & Hb11 & Hl & Hst & Hr).
    rewrite (lread_some pc c base _ Hb11 Hc). cbn [rbind]. rewrite Hl. cbn [rbind]. rewrite Hst.
    destruct (cst !!! slot) as [v|]; [|by exists o]. destruct Hr. by apply mirrored_set.
  - apply rbind_ok in Hld as (r & Hread & [= <-]). destruct (creg c base) as [v|] eqn:Hc; [|done].
    destruct v as [| |addr| |]; try done. simpl in Hin. rewrite (lread_some pc c base _ ltac:(lia) Hc). cbn [rbind].
    unfold concrete_ctx_load. rewrite (ctx_offset boff offset addr Hw Hoff Hin).
    destruct Hm as (Hlk & Hp & Hs). rewrite <- Hp. unfold ctx_read in Hread.
    assert (Hsat : forall acc, ctx_table_read (prog_type a) (sat_add_i32 boff offset) (MemSize.bytes size) = Ok acc ->
      sat_add_i32 boff offset = as_i32 (boff + offset)).
    { intros acc Hacc. destruct (ctx_model (prog_type a)) as [m|] eqn:Hmod.
      - destruct (ctx_read_shape _ _ _ _ _ Hmod Hacc) as (_ & H0 & _ & Hlt'). revert H0 Hlt'.
        assert (ctx_size m < 10000) by (destruct m; vm_compute; reflexivity). unfold sat_add_i32, saturate. intros.
        unfold as_i. case_tests; div_lia.
      - unfold ctx_table_read in Hacc. by rewrite Hmod in Hacc. }
    destruct (ctx_table_read _ _ _) as [acc|er] eqn:Hacc; [|by destruct er]. specialize (Hsat acc eq_refl).
    rewrite <- Hsat, Hacc. destruct acc; [|done]. injection Hread as <-.
    destruct (width_zero (MemSize.bytes size) sx). by apply mirrored_set.
Qed.

(** * Stores *)

Lemma byte_index (slot slot' : nat) k k' :
  0 <= k < 8 -> 0 <= k' < 8 ->
  (Z.to_nat (8 * Z.of_nat slot + 7 - k) <= Z.to_nat (8 * Z.of_nat slot' + 7 - k'))%nat <->
  8 * Z.of_nat slot + 7 - k <= 8 * Z.of_nat slot' + 7 - k'.
Proof. intros. lia. Qed.

Lemma destroy_none lo hi st :
  (forall slot, In slot (range (lo / 8) (hi / 8)) -> bytes st !!! (slot * 8)%nat <> StackByte.Dynptr) ->
  destroy_dynptrs lo hi st = (st, None).
Proof.
  unfold destroy_dynptrs. generalize (range (lo / 8) (hi / 8)). intros l. induction l as [|slot l IH]; intros H; [done|].
  simpl. rewrite bool_decide_false by (apply H; by left). apply IH. intros s Hs. apply H. by right.
Qed.

Lemma no_dynptr st cst lo hi : stack_in st cst -> (hi < 512)%nat ->
  forall slot, In slot (range (lo / 8) (hi / 8)) -> bytes st !!! (slot * 8)%nat <> StackByte.Dynptr.
Proof.
  intros (_ & _ & _ & Hs) Hhi slot [_ Hle]%in_range_within%andb_true_iff. apply Nat.leb_le in Hle.
  assert (Hs64 : (slot < 64)%nat).
  { apply Nat.le_lt_trans with (hi / 8)%nat; [done|]. apply Nat.Div0.div_lt_upper_bound. lia. }
  destruct (Hs slot Hs64) as [Hd _]. specialize (Hd 7 ltac:(lia)). unfold slot_byte in Hd.
  by replace (Z.to_nat (8 * Z.of_nat slot + 7 - 7)) with (slot * 8)%nat in Hd by lia.
Qed.

(** A slot after the write of a value: the other slots keep theirs. *)
Lemma stack_in_update st cst st' slot v' :
  stack_in st cst -> (slot < 64)%nat ->
  length (bytes st') = 512%nat -> length (spilled st') = 64%nat ->
  slot_in (slot_byte st' slot) (spilled st' !!! slot) (Some v') ->
  (forall s, (s < 64)%nat -> s <> slot -> slot_in (slot_byte st' s) (spilled st' !!! s) (cst !!! s)) ->
  stack_in st' (<[slot := Some v']> cst).
Proof.
  intros (H1 & H2 & H3 & Hs) Hlt Hb Hsp Hslot Hother. split_and!; [done|done|by rewrite length_insert|].
  intros s Hs64. destruct (decide (s = slot)) as [->|Hne].
  - by rewrite list_lookup_total_insert_eq by lia.
  - rewrite list_lookup_total_insert_ne by done. by apply Hother.
Qed.

Lemma slot_byte_ext st st' s o v :
  (forall k, 0 <= k < 8 -> slot_byte st' s k = slot_byte st s k) ->
  slot_in (slot_byte st s) o v -> slot_in (slot_byte st' s) o v.
Proof.
  intros He [Hd Hv]. split; [intros k Hk; rewrite He by done; by apply Hd|]. destruct v as [v|].
  - destruct Hv as [[Hf Hr]|(x & -> & Hx & Hz & Hs)].
    + left. split; [|done]. intros k Hk. rewrite He by done. by apply Hf.
    + right. exists x. split; [done|]. split; [done|]. split; [intros k Hk; rewrite He by done; by apply Hz|].
      intros k Hk. rewrite He by done. intros Hsp. destruct (Hs k Hk Hsp) as (b & w & H1 & H2 & H3 & H4).
      exists b, w. split_and!; try done. intros k' Hk'. rewrite He by done. by apply H4.
  - intros k Hk. rewrite He by done. by apply Hv.
Qed.

Lemma imap_at {A} `{Inhabited A} (f : nat -> A -> A) (l : list A) i :
  (i < length l)%nat -> imap f l !!! i = f i (l !!! i).
Proof.
  intros Hi. rewrite !list_lookup_total_alt, list_lookup_imap. by destruct (lookup_lt_is_Some_2 _ _ Hi) as [x ->].
Qed.

(** The bytes of a spill. *)
Lemma spill_write_byte r st o n slot s k :
  length (bytes st) = 512%nat -> access_at o n slot 0 -> (s < 64)%nat -> 0 <= k < 8 ->
  slot_byte (spill_write (stack_byte_index (o + n - 1)) (stack_byte_index o) r st) s k =
    if (s =? slot)%nat then if k <? n then StackByte.Spill else StackByte.Misc else slot_byte st s k.
Proof.
  intros Hlen Ha Hs Hk. destruct (access_place _ _ _ _ Ha) as ((_ & Hn & Hle & _) & Hs64 & Hidx). pose proof (end_slot o n slot 0 Ha) as He.
  unfold slot_byte, spill_write. cbn [bytes]. rewrite He.
  assert (Hi : (Z.to_nat (8 * Z.of_nat s + 7 - k) < 512)%nat) by lia.
  rewrite imap_at by (by rewrite length_fill, Hlen). rewrite lookup_fill by (by rewrite Hlen).
  unfold within, stack_byte_index. destruct (Nat.eqb_spec s slot) as [->|Hne].
  - destruct (Z.ltb_spec k n).
    + rewrite (proj2 (Nat.ltb_ge _ _)), andb_false_r by lia.
      by rewrite (proj2 (Nat.leb_le _ _)), (proj2 (Nat.leb_le _ _)) by lia.
    + by rewrite (proj2 (Nat.leb_le _ _)), (proj2 (Nat.ltb_lt _ _)) by lia.
  - destruct (Nat.leb_spec (slot * 8) (Z.to_nat (8 * Z.of_nat s + 7 - k))),
      (Nat.ltb_spec (Z.to_nat (8 * Z.of_nat s + 7 - k)) (Z.to_nat (- (o + n - 1) - 1)));
      cbn [andb]; try lia;
      destruct (Nat.leb_spec (Z.to_nat (- (o + n - 1) - 1)) (Z.to_nat (8 * Z.of_nat s + 7 - k))),
        (Nat.leb_spec (Z.to_nat (8 * Z.of_nat s + 7 - k)) (Z.to_nat (- o - 1))); cbn [andb]; try done; lia.
Qed.

(** The word a store leaves in a slot. *)
Lemma merge_word e lo n v :
  place_ok lo n -> n <> 8 \/ (exists x, v = CScalar x /\ is_u64 x) ->
  exists y, merge_slot e lo n v = CScalar y /\ is_u64 y.
Proof.
  intros (Hl & Hn & Hle & Hf) Hv. unfold merge_slot. destruct ((lo =? 0) && (n =? 8)) eqn:Hc.
  - apply andb_true_iff in Hc as [_ H8%Z.eqb_eq]. destruct Hv as [|(x & -> & Hx)]; [done|]. by exists x.
  - eexists. split; [reflexivity|]. apply lor_u64; [|apply as_u64_range]. apply land_u64_r, unot_u64, as_u64_range.
Qed.

(** An aligned store at a fixed offset: the spilled register describes the value. *)
Lemma spill_in_stack st cst r v o n slot :
  stack_in st cst -> access_at o n slot 0 -> reg_wf r -> value_in r v -> n = 8 \/ is_scalar (Some r) = true ->
  stack_in (spill_write (stack_byte_index (o + n - 1)) (stack_byte_index o) r st)
    (<[slot := Some (merge_slot (cst !!! slot) 0 n v)]> cst).
Proof.
  intros Hst Ha Hw Hv Hn. destruct (access_place _ _ _ _ Ha) as (Hp & Hs64 & _). pose proof Hst as (H1 & H2 & H3 & Hslots).
  pose proof (end_slot o n slot 0 Ha) as He. pose proof Hp as (_ & Hn0 & Hn8 & _).
  assert (Hbyte : forall s k, (s < 64)%nat -> 0 <= k < 8 ->
    slot_byte (spill_write (stack_byte_index (o + n - 1)) (stack_byte_index o) r st) s k =
      if (s =? slot)%nat then if k <? n then StackByte.Spill else StackByte.Misc else slot_byte st s k).
  { intros s k Hs Hk. by apply spill_write_byte. }
  apply (stack_in_update st cst); [done|done|by cbn; rewrite length_imap, length_fill|by cbn; rewrite length_insert| |].
  - cbn [spilled spill_write]. rewrite He, list_lookup_total_insert_eq by lia.
    assert (Hself : forall k, 0 <= k < 8 ->
      slot_byte (spill_write (stack_byte_index (o + n - 1)) (stack_byte_index o) r st) slot k =
      if k <? n then StackByte.Spill else StackByte.Misc).
    { intros k Hk. by rewrite Hbyte, Nat.eqb_refl by done. }
    split; [intros k Hk; rewrite Hself by done; by destruct (k <? n)|].
    destruct (is_scalar (Some r)) eqn:Hsc.
    + right. destruct r as [|b| | | | | | | |]; try done. destruct v as [x| | | |]; try done.
      assert (Hx : is_u64 x) by apply Hv.
      destruct (merge_word (cst !!! slot) 0 n (CScalar x) Hp) as (y & Hy & Hyu); [right; by exists x|].
      exists y. split; [done|]. split; [done|]. split.
      { intros k Hk. rewrite Hself by done. by destruct (k <? n). }
      intros k Hk _. exists b, x. split_and!; try done. intros k' Hk'. rewrite Hself by done.
      destruct (Z.ltb_spec k' n); [|done]. intros _. pose proof (merge_byte (cst !!! slot) 0 n (CScalar x) k' Hp Hk') as Hm.
      rewrite Hy in Hm. cbn [bits] in Hm. rewrite Hm. destruct (Z.leb_spec 0 k'); [|lia].
      rewrite (proj2 (Z.ltb_lt _ _)) by lia. cbn [andb]. by rewrite Z.sub_0_r.
    + left. destruct Hn as [->|]; [|done]. split.
      * intros k Hk. rewrite Hself by done. by rewrite (proj2 (Z.ltb_lt _ _)) by lia.
      * exists r. split_and!; done.
  - intros s Hs Hne. cbn [spilled spill_write]. rewrite He, list_lookup_total_insert_ne by done.
    eapply slot_byte_ext; [|by apply Hslots]. intros k Hk. rewrite Hbyte by done. by rewrite (proj2 (Nat.eqb_neq _ _)).
Qed.

(** The bytes of a partial or variable-offset store. *)
Lemma scrub_write_byte st lo hi zero s k :
  length (bytes st) = 512%nat -> (s < 64)%nat -> 0 <= k < 8 ->
  let i := Z.to_nat (8 * Z.of_nat s + 7 - k) in
  let b := if within lo hi i then if (zero : bool) then StackByte.Zero else StackByte.Misc else slot_byte st s k in
  slot_byte (scrub_write lo hi zero st) s k =
    if within (lo / 8) (hi / 8) s && bool_decide (b = StackByte.Spill) then StackByte.Misc else b.
Proof.
  intros Hlen Hs Hk i b. unfold slot_byte at 1, scrub_write. cbn [bytes]. fold i.
  assert (Hi : (i < 512)%nat) by (unfold i; lia). assert (Hs8 : (i / 8)%nat = s) by (by apply (byte_slot s 0 k (- (8 * Z.of_nat s + 7) - 1)); lia).
  rewrite imap_at by (by rewrite length_fill, Hlen). rewrite lookup_fill by (by rewrite Hlen). by rewrite Hs8.
Qed.

Lemma scrub_in_stack st cst v o n slot lo min_off max_off zero :
  stack_in st cst -> access_at o n slot lo -> -512 <= min_off -> min_off <= o -> o + n <= max_off -> max_off <= 0 ->
  n <> 8 \/ (exists x, v = CScalar x /\ is_u64 x) ->
  (forall s, within (stack_byte_index (max_off - 1) / 8) (stack_byte_index min_off / 8) s = true ->
     is_scalar (spilled st !!! s) = false -> spilled st !!! s = None) ->
  (zero = true -> min_off = o /\ max_off = o + n /\ v = CScalar 0) ->
  stack_in (scrub_write (stack_byte_index (max_off - 1)) (stack_byte_index min_off) zero st)
    (<[slot := Some (merge_slot (cst !!! slot) lo n v)]> cst).
Proof.
  intros Hst Ha Hmin Hmo Hox Hmax Hv Hptr Hzero. destruct (access_place _ _ _ _ Ha) as (Hp & Hs64 & Hidx).
  pose proof Hst as (H1 & H2 & H3 & Hslots). pose proof Hp as (Hl0 & Hn0 & Hn8 & _).
  set (lo_i := stack_byte_index (max_off - 1)) in *. set (hi_i := stack_byte_index min_off) in *.
  assert (Hspilled : forall s, (s < 64)%nat -> spilled (scrub_write lo_i hi_i zero st) !!! s =
    if within (lo_i / 8) (hi_i / 8) s then None else spilled st !!! s).
  { intros s Hs. cbn [spilled scrub_write]. by rewrite imap_at by lia. }
  (* the covered slots hold words *)
  assert (Hword : forall s, (s < 64)%nat -> within (lo_i / 8) (hi_i / 8) s = true ->
    match cst !!! s with
    | None => True
    | Some w => exists x, w = CScalar x /\ is_u64 x /\
        forall k, 0 <= k < 8 -> slot_byte st s k = StackByte.Zero -> word_byte x k = 0
    end).
  { intros s Hs Hin. destruct (Hslots s Hs) as [_ Hw]. destruct (cst !!! s) as [w|]; [|done].
    destruct Hw as [[_ (r & Hr & Hns & _)]|(x & -> & Hx & Hz & _)]; [|by exists x].
    rewrite Hr in Hns. specialize (Hptr s Hin). rewrite Hr in Hptr. by specialize (Hptr Hns). }
  (* the place is inside the range *)
  assert (Hplace : forall k, lo <= k < lo + n -> within lo_i hi_i (Z.to_nat (8 * Z.of_nat slot + 7 - k)) = true).
  { intros k Hk. unfold within, lo_i, hi_i, stack_byte_index. rewrite andb_true_iff, !Nat.leb_le. lia. }
  assert (Hslot_in : within (lo_i / 8) (hi_i / 8) slot = true).
  { pose proof (Hplace lo ltac:(lia)) as [Hl Hh]%andb_true_iff. apply Nat.leb_le in Hl, Hh.
    unfold within. rewrite andb_true_iff, !Nat.leb_le. rewrite <- (byte_slot slot lo lo o Hidx) by lia.
    split; by apply Nat.Div0.div_le_mono. }
  assert (Hexact : zero = true -> forall s k, (s < 64)%nat -> 0 <= k < 8 ->
    within lo_i hi_i (Z.to_nat (8 * Z.of_nat s + 7 - k)) = true -> s = slot /\ lo <= k < lo + n).
  { intros Hz s k Hs Hk [Hl Hh]%andb_true_iff. destruct (Hzero Hz) as (-> & -> & _). apply Nat.leb_le in Hl, Hh.
    unfold lo_i, hi_i, stack_byte_index in Hl, Hh. lia. }
  destruct (merge_word (cst !!! slot) lo n v Hp Hv) as (y & Hy & Hyu).
  assert (Hbytes : forall k, 0 <= k < 8 -> word_byte y k =
    if (lo <=? k) && (k <? lo + n) then word_byte (bits v) (k - lo) else word_byte (slot_bits (cst !!! slot)) k).
  { intros k Hk. rewrite <- (merge_byte (cst !!! slot) lo n v k Hp Hk). by rewrite Hy. }
  rewrite Hy. apply (stack_in_update st cst); [done|done|by cbn; rewrite length_imap, length_fill|by cbn; rewrite length_imap| |].
  - rewrite Hspilled, Hslot_in by done. pose proof (Hslots slot Hs64) as [Hd _]. pose proof (Hword slot Hs64 Hslot_in) as Hw.
    assert (Hb : forall k, 0 <= k < 8 -> slot_byte (scrub_write lo_i hi_i zero st) slot k <> StackByte.Spill /\
      slot_byte (scrub_write lo_i hi_i zero st) slot k <> StackByte.Dynptr /\
      (slot_byte (scrub_write lo_i hi_i zero st) slot k = StackByte.Zero -> word_byte y k = 0)).
    { intros k Hk. rewrite scrub_write_byte by done. rewrite Hslot_in. cbn [andb]. rewrite Hbytes by done.
      destruct (within lo_i hi_i _) eqn:Hin.
      - destruct zero eqn:Hz; [|by rewrite bool_decide_false]. destruct (Hexact eq_refl slot k Hs64 Hk Hin) as [_ Hr].
        destruct (Hzero eq_refl) as (_ & _ & ->). rewrite bool_decide_false by done.
        rewrite (proj2 (Z.leb_le _ _)), (proj2 (Z.ltb_lt _ _)) by lia. cbn [andb bits]. by rewrite word_byte_0.
      - case_bool_decide as Hsp; [done|]. split_and!; [done|by apply Hd|]. intros Hz.
        assert (Hout : (lo <=? k) && (k <? lo + n) = false).
        { apply not_true_iff_false. rewrite andb_true_iff, Z.leb_le, Z.ltb_lt. intros Hr. by rewrite Hplace in Hin. }
        rewrite Hout. destruct (cst !!! slot) as [w|]; [|apply word_byte_0]. destruct Hw as (x & -> & _ & Hw). by apply Hw. }
    split; [intros k Hk; by apply Hb|]. right. exists y. split; [done|]. split; [done|].
    split; intros k Hk H; destruct (Hb k Hk) as (Hb1 & _ & Hb3); [by apply Hb3|done].
  - intros s Hs Hne. rewrite Hspilled by done. destruct (within (lo_i / 8) (hi_i / 8) s) eqn:Hin.
    + pose proof (Hslots s Hs) as [Hd Hold]. pose proof (Hword s Hs Hin) as Hw.
      assert (Hb : forall k, 0 <= k < 8 -> slot_byte (scrub_write lo_i hi_i zero st) s k = StackByte.Misc \/
        (slot_byte (scrub_write lo_i hi_i zero st) s k = slot_byte st s k /\ slot_byte st s k <> StackByte.Spill)).
      { intros k Hk. rewrite scrub_write_byte by done. rewrite Hin. cbn [andb]. destruct (within lo_i hi_i _) eqn:Hi.
        - destruct zero; [|by left; rewrite bool_decide_false]. by destruct (Hexact eq_refl s k Hs Hk Hi).
        - case_bool_decide as Hsp; [by left|by right]. }
      split; [intros k Hk; destruct (Hb k Hk) as [->|[-> _]]; [done|by apply Hd]|].
      destruct (cst !!! s) as [w|].
      * destruct Hw as (x & -> & Hx & Hw). right. exists x. split; [done|]. split; [done|].
        split; intros k Hk; destruct (Hb k Hk) as [->|[-> Hns]]; try done. by apply Hw.
      * intros k Hk. destruct (Hb k Hk) as [->|[-> _]]; [by right|by apply Hold].
    + eapply slot_byte_ext; [|by apply Hslots]. intros k Hk. rewrite scrub_write_byte by done. rewrite Hin. cbn [andb].
      destruct (within lo_i hi_i _) eqn:Hi; [|done]. exfalso. apply not_true_iff_false in Hin. apply Hin.
      apply andb_true_iff in Hi as [Hl Hh]. apply Nat.leb_le in Hl, Hh. unfold within. rewrite andb_true_iff, !Nat.leb_le.
      rewrite <- (byte_slot s 0 k (- (8 * Z.of_nat s + 7) - 1)) by lia. split; by apply Nat.Div0.div_le_mono.
Qed.

Lemma frame_stack_other fr fr' st a :
  0 <= fr -> 0 <= fr' -> fr <> fr' -> frame_stack_of (set_frame_stack fr st a) fr' = frame_stack_of a fr'.
Proof.
  intros Hf Hf' Hne. unfold frame_stack_of, set_frame_stack.
  destruct (Z.eqb_spec fr (curframe a)) as [Hc|Hc]; cbn; destruct (Z.eqb_spec fr' (curframe a)); try done; try lia.
  by rewrite list_lookup_alter_ne by lia.
Qed.

Lemma set_frame_stack_twice fr st st' a : set_frame_stack fr st' (set_frame_stack fr st a) = set_frame_stack fr st' a.
Proof.
  unfold set_frame_stack. destruct (fr =? curframe a) eqn:Hc; cbn; rewrite Hc; [done|]. f_equal.
  apply list_eq. intros i. destruct (decide (i = Z.to_nat fr)) as [->|Hne].
  - rewrite !list_lookup_alter_eq. by destruct (saved a !! Z.to_nat fr) as [[f|]|].
  - by rewrite !list_lookup_alter_ne.
Qed.

Lemma linked_frame_stack a c fr st cst :
  linked a c -> linked (set_frame_stack fr st a) (set_concrete_frame_stack fr cst c).
Proof.
  intros (Hd & Hc & Hp & Hr & Hl & Hl' & Hs).
  assert (Hd' : described (set_frame_stack fr st a) (set_concrete_frame_stack fr cst c)).
  { apply described_iff in Hd. apply described_iff. by rewrite regs_frame_stack, set_cframe_regs. }
  split; [done|]. unfold set_frame_stack, set_concrete_frame_stack. rewrite <- Hc.
  destruct (fr =? curframe a); cbn; [done|]. rewrite !length_alter. split_and!; try done; try lia.
  intros i Hi Hlt. destruct (Hs i Hi Hlt) as (f & g & Hf & Hg & Hfd). destruct (decide (i = Z.to_nat fr)) as [->|Hne].
  - rewrite !list_lookup_alter_eq, Hf, Hg. by eexists _, _.
  - rewrite !list_lookup_alter_ne by done. by exists f, g.
Qed.

Lemma mirrored_frame_stack a c fr st cst cst' :
  mirrored a c -> state_typed a -> 0 <= fr <= curframe a -> concrete_frame_stack c fr = Some cst' ->
  stack_in st cst -> mirrored (set_frame_stack fr st a) (set_concrete_frame_stack fr cst c).
Proof.
  intros (Hl & Hp & Hst) Ht Hf Hc Hin. split; [by apply linked_frame_stack|]. split.
  { unfold set_frame_stack, set_concrete_frame_stack. by destruct (_ =? _), (_ =? _). }
  intros fr'. rewrite set_frame_stack_curframe. intros Hf'. destruct (decide (fr = fr')) as [<-|Hne].
  - exists st, cst. split; [by apply frame_stack_set|]. split; [by eapply cframe_stack_set|done].
  - rewrite frame_stack_other, cframe_stack_other by lia. by apply Hst.
Qed.

(** The value of a store on both machines. *)
Definition store_source (c : ConcreteState) (src imm : option Z) (value : result Stop (option ConcreteValue)) : Prop :=
  match src with
  | Some r => 0 <= r /\ value = (if NUM_REGS <=? r then Err Panic else Ok (creg c r))
  | None => exists i, imm = Some i /\ is_i64 i /\ value = Ok (Some (CScalar (as_u64 i)))
  end.

Lemma stored_value_in pc a c src imm value r :
  mirrored a c -> store_source c src imm value -> stored_value pc a src imm = Ok r ->
  reg_wf r /\ exists v, value = Ok (Some v) /\ value_in r v.
Proof.
  intros Hm Hsrc Hr. destruct src as [s|]; simpl in Hsrc, Hr.
  - destruct Hsrc as [Hs ->]. destruct (mirrored_read _ _ _ _ _ Hm Hs Hr) as (Hlt & _ & Hw & v & Hv & Hin & _).
    split; [done|]. exists v. split; [|done]. destruct (Z.leb_spec NUM_REGS s); [lia|]. by rewrite Hv.
  - destruct Hsrc as (i & -> & Hi & ->). injection Hr as <-. split; [by apply bounds_constant_wf|].
    exists (CScalar (as_u64 i)). split; [done|]. by apply bounds_constant_mem.
Qed.

(** The register a store writes. *)
Definition source_reg (a : VerifierState) (src imm : option Z) : RegState :=
  match src, imm with
  | Some r, _ => reg a r
  | None, Some i => Scalar (bounds_constant i)
  | None, None => Uninit
  end.

Lemma stored_source pc a src imm r : stored_value pc a src imm = Ok r -> r = source_reg a src imm.
Proof.
  destruct src as [s|]; simpl.
  - unfold read_reg. destruct (check_reg pc s); [|done]. simpl. by destruct (reg a s); intros [= <-].
  - destruct imm; [|done]. by intros [= <-].
Qed.

Lemma written_value pc base a offset n src imm aligned foreign lo hi st st' :
  write_bytes pc base a offset n src imm aligned foreign lo hi st = Ok st' ->
  stored_value pc a src imm = Ok (source_reg a src imm).
Proof.
  intros H. assert (exists r, stored_value pc a src imm = Ok r) as [r Hr]; [|by rewrite Hr, (stored_source _ _ _ _ _ Hr)].
  unfold write_bytes in H. destruct aligned; [|destruct (spilled_pointer st lo hi) as [[]|]; [done|]];
    apply rbind_ok in H as (r & Hr & _); by exists r.
Qed.

Lemma zero_scalar_in r v : reg_wf r -> value_in r v -> is_zero_scalar r = true -> v = CScalar 0.
Proof.
  intros Hw Hin. destruct r as [|b| | | | | | | |]; try done. destruct v as [x| | | |]; try done. simpl.
  intros [Hc Hz%Z.eqb_eq]%andb_true_iff. destruct (is_constant_mem b x Hw Hin Hc) as (-> & _ & _). by rewrite Hz.
Qed.

Lemma spilled_pointer_none st lo hi :
  spilled_pointer st lo hi = None -> forall s, within (lo / 8) (hi / 8) s = true ->
    is_scalar (spilled st !!! s) = false -> spilled st !!! s = None.
Proof.
  unfold spilled_pointer. intros H s Hs%in_range_within Hns.
  assert (Hh : forall s, In s (List.filter (fun slot => holds_pointer (spilled st !!! slot)) (range (lo / 8) (hi / 8))) -> False).
  { intros s' Hs'. destruct (List.filter _ _) as [|s0 l] eqn:Hf; [done|].
    assert (Hin : In s0 (s0 :: l)) by (by left). rewrite <- Hf in Hin. apply filter_In in Hin as [_ Hp].
    by destruct (spilled st !!! s0). }
  destruct (spilled st !!! s) as [r|] eqn:Hr; [|done]. exfalso. apply (Hh s). apply filter_In. split; [done|].
  rewrite Hr. by destruct r.
Qed.

(** The stores whose abstract bytes are exact enough: at a fixed offset, or of a
    scalar that is not the constant zero (see [Mem.memory_gaps]). *)
Definition store_covered (a : VerifierState) (base : Z) (value : RegState) : Prop :=
  match reg a base with
  | PtrToStack mn mx _ _ => mn = mx \/ (is_scalar (Some value) = true /\ is_zero_scalar value = false)
  | _ => False
  end.

Lemma written_in pc base a c offset n src imm value r v mn mx o slot lo st cst st' foreign :
  mirrored a c -> store_source c src imm value -> stored_value pc a src imm = Ok r -> value = Ok (Some v) ->
  reg_wf r -> value_in r v -> stack_in st cst -> access_at o n slot lo ->
  mn + offset <= o <= mx + offset -> -512 <= mn + offset -> mx + offset + n <= 0 ->
  mn = mx \/ (is_scalar (Some r) = true /\ is_zero_scalar r = false) ->
  write_bytes pc base a offset n src imm ((mn =? mx) && ((mn + offset) mod 8 =? 0)) foreign
    (stack_byte_index (mx + offset + n - 1)) (stack_byte_index (mn + offset)) st = Ok st' ->
  stack_in st' (<[slot := Some (merge_slot (cst !!! slot) lo n v)]> cst).
Proof.
  intros Hm Hsrc Hr Hv Hw Hin Hst Hat Ho Hlo Hhi Hcov. unfold write_bytes. rewrite Hr. cbn [rbind].
  pose proof Hat as (_ & _ & Hmod & Hsize & _ & Hlo').
  destruct (Z.eqb_spec mn mx) as [Heq|Hne]; [destruct (Z.eqb_spec ((mn + offset) mod 8) 0) as [H8|H8]|]; cbn [andb].
  - destruct (negb (is_scalar (Some r)) && negb (n =? 8)) eqn:Hsp; [done|]. destruct (_ && foreign); [done|].
    intros [= <-]. assert (o = mn + offset) as He by lia. assert (lo = 0) as -> by (rewrite Hlo', He; done).
    rewrite <- Heq, <- He. apply spill_in_stack; try done.
    apply andb_false_iff in Hsp as [Hs%negb_false_iff|H%negb_false_iff%Z.eqb_eq]; [by right|by left].
  - destruct (spilled_pointer _ _ _) as [[]|] eqn:Hp; [done|]. intros [= <-].
    assert (n <> 8) by (intros ->; apply H8; assert (o = mn + offset) as <- by lia; done).
    eapply scrub_in_stack; try done; [lia..|by left|by apply spilled_pointer_none|].
    intros Hz. split; [lia|]. split; [lia|]. by eapply zero_scalar_in.
  - destruct Hcov as [|[Hs Hz]]; [done|]. destruct (spilled_pointer _ _ _) as [[]|] eqn:Hp; [done|]. intros [= <-].
    rewrite Hz. eapply scrub_in_stack; try done; [lia..| |by apply spilled_pointer_none].
    right. destruct r as [|b| | | | | | | |]; try done. destruct v as [x| | | |]; try done. exists x. split; [done|apply Hin].
Qed.

Lemma stores_mirror pc a a' c base offset (size : MemSize) src imm value :
  mirrored a c -> state_typed a -> 0 <= base -> -32768 <= offset <= 32767 -> store_source c src imm value ->
  store_covered a base (source_reg a src imm) -> stack_write pc base a offset size src imm = Ok a' ->
  exists c', concrete_store pc c base offset size value = Ok c' /\ mirrored a' c'.
Proof.
  intros Hm Ht Hb Hoff Hsrc Hcov Hwr.
  unfold stack_write in Hwr. apply rbind_ok in Hwr as (x & Hx & Hwr).
  destruct (mirrored_read _ _ _ _ _ Hm Hb Hx) as (Hlt & Hreg & _ & bv & Hbv & Hbin & Hl). unfold store_covered in Hcov.
  rewrite Hreg in Hcov. destruct x as [| |mn mx al fr| | | | | | |]; try done.
  destruct bv as [|addr fr'| | |]; try done. assert (fr' = fr) as -> by (symmetry; apply Hbin).
  apply rbind_ok in Hwr as ([] & Hc & Hwr).
  destruct (access_located _ _ _ _ _ _ _ _ _ Hbin Hoff Hc) as (o & slot & lo & Hloc & Hat & Ho & Hlo & Hhi).
  pose proof (reg_typed a base Ht) as Hfr. rewrite Hreg in Hfr. simpl in Hfr.
  destruct (proj2 (proj2 Hm) fr Hfr) as (st & cst & Hst1 & Hst2 & Hin').
  unfold stack_byte_range in Hwr. rewrite Hst1 in Hwr. pose proof (mem_size_cases size) as Hn.
  rewrite (destroy_none _ _ st) in Hwr by (apply (no_dynptr st cst); [done|unfold stack_byte_index; lia]).
  apply rbind_ok in Hwr as (st' & Hwb & [= <-]). rewrite set_frame_stack_twice.
  pose proof (written_value _ _ _ _ _ _ _ _ _ _ _ _ _ Hwb) as Hr.
  destruct (stored_value_in _ _ _ _ _ _ _ Hm Hsrc Hr) as (Hw & v & Hval & Hin).
  unfold concrete_store. rewrite Hl. cbn [rbind]. rewrite Hloc. cbn [rbind]. rewrite Hval. cbn [rbind].
  unfold concrete_merge. rewrite Hst2. eexists. split; [reflexivity|].
  eapply mirrored_frame_stack; try done. by eapply written_in.
Qed.

(** * Initial states, calls and returns *)

Lemma fresh_stack_in : stack_in stack_new (replicate 64 None).
Proof.
  split_and!; [done|done|done|]. intros slot Hs.
  assert (Hb : forall k, 0 <= k < 8 -> slot_byte stack_new slot k = StackByte.Invalid).
  { intros k Hk. unfold slot_byte, stack_new. cbn [bytes]. apply lookup_total_replicate_2. lia. }
  rewrite lookup_total_replicate_2 by lia. split; intros k Hk; rewrite Hb by done; [done|by left].
Qed.

Lemma mirrored_initial p : mirrored (initial_with p) (cinitial_with p).
Proof.
  split; [apply initial_linked|]. split; [done|]. intros fr Hfr. simpl in Hfr. assert (fr = 0) as -> by lia.
  exists stack_new, (replicate 64 None). split; [done|]. split; [done|]. apply fresh_stack_in.
Qed.

(** * Properties *)

(** An accepted load through the frame pointer or the context is sound: from
    states that describe each other the concrete load either succeeds, in a state
    the verifier's result describes, or stops because the bytes were never
    written; no other failure and no panic.  (The loaded register must have an
    ordered signed 32-bit range, which a four-byte fill does not always have.) *)
Theorem loads_simulate (pc : Z) (a a' : VerifierState) (c : ConcreteState) (dst base offset : Z) (size : MemSize)
    (sign_extend : bool) :
  mirrored a c -> state_typed a -> 0 <= dst -> 0 <= base -> -32768 <= offset <= 32767 ->
  load_base (reg a base) = true -> ld_mem pc a dst base offset size sign_extend = Ok a' ->
  s32_ordered (reg a' dst) = true ->
  match concrete_ld_mem pc c dst base offset size sign_extend with
  | Ok c' => mirrored a' c'
  | Err e => exists o, e = Failure (ConcreteFailure.UninitializedStackRead pc o)
  end.
Proof. apply loads_mirror. Qed.

Lemma loads_simulate_witness :
  exists a' c', ld_mem 3 initial 2 1 0 MemSize.W false = Ok a' /\
    concrete_ld_mem 3 (cinitial_with ProgType.SocketFilter) 2 1 0 MemSize.W false = Ok c' /\ mirrored a' c'.
Proof.
  destruct (ld_mem 3 initial 2 1 0 MemSize.W false) as [a'|] eqn:E; [|discriminate E].
  pose proof (loads_simulate 3 initial a' (cinitial_with ProgType.SocketFilter) 2 1 0 MemSize.W false
    (mirrored_initial _) (initial_typed _) ltac:(lia) ltac:(lia) ltac:(lia) eq_refl E) as H.
  injection E as <-. specialize (H eq_refl). eexists. eexists. split; [reflexivity|]. split; [reflexivity|exact H].
Defined.

(** An accepted store to the stack is sound: the concrete store of the same
    register or immediate succeeds and the resulting stacks describe each other
    byte by byte, for a fixed offset or a stored scalar other than the constant
    zero. *)
Theorem stores_simulate (pc : Z) (a a' : VerifierState) (c : ConcreteState) (src imm base offset : Z) (size : MemSize) :
  mirrored a c -> state_typed a -> 0 <= src -> is_i32 imm -> 0 <= base -> -32768 <= offset <= 32767 ->
  (store_covered a base (reg a src) -> stack_write pc base a offset size (Some src) None = Ok a' ->
   exists c', concrete_st_mem pc c src base offset size = Ok c' /\ mirrored a' c') /\
  (store_covered a base (Scalar (bounds_constant imm)) -> stack_write pc base a offset size None (Some imm) = Ok a' ->
   exists c', concrete_st_imm pc c imm base offset size = Ok c' /\ mirrored a' c').
Proof.
  intros Hm Ht Hs Hi Hb Ho. split; intros Hc Hw.
  - by eapply (stores_mirror pc a a' c base offset size (Some src) None).
  - eapply (stores_mirror pc a a' c base offset size None (Some imm)); try done. exists imm. split; [done|]. split; [lia|done].
Qed.

Lemma stores_simulate_witness :
  exists a' c', stack_write 3 10 initial (-8) MemSize.DW None (Some 7) = Ok a' /\
    concrete_st_imm 3 (cinitial_with ProgType.SocketFilter) 7 10 (-8) MemSize.DW = Ok c' /\ mirrored a' c'.
Proof.
  destruct (stack_write 3 10 initial (-8) MemSize.DW None (Some 7)) as [a'|] eqn:E; [|discriminate E].
  destruct (stores_simulate 3 initial a' (cinitial_with ProgType.SocketFilter) 1 7 10 (-8) MemSize.DW
    (mirrored_initial _) (initial_typed _) ltac:(lia) ltac:(lia) ltac:(lia) ltac:(lia)) as [_ H].
  destruct (H (or_introl eq_refl) E) as (c' & Hc & Hm). exists a', c'. split; [reflexivity|]. split; [exact Hc|exact Hm].
Defined.
