(* ===== verification/Cross.v ===== *)
(** One step of the abstract machine against one step of the concrete one: every
    successor of a concrete state is described by one of the successors the
    verifier computes, for register instructions, loads and stores, jumps,
    branches with their refinements, links and null checks, calls and exits
    (src/src/exec.rs [successors] against src/src/concrete.rs
    [concrete_successors]).  Scalars and nullable pointers that carry the same
    identity must really be related ([linked_values]). *)
From Stdlib Require Import ZArith Lia List Bool.
From stdpp Require Import base list.
From S2P Require Import Prelude Tnum Bounds Insn Alu Branch Ctx State Concrete Exec Sim Mem Call Step Mini ConcreteMem ConcreteRun CrossMem.
Open Scope Z_scope.

(** * Calls and returns *)

Lemma frame_stack_below a fr : fr <> curframe a ->
  frame_stack_of a fr = match saved a !! Z.to_nat fr with Some (Some f) => Some (frame_stack f) | _ => None end.
Proof. intros H. unfold frame_stack_of. by rewrite (proj2 (Z.eqb_neq _ _)). Qed.
Lemma cframe_stack_below c fr : fr <> ccurframe c ->
  concrete_frame_stack c fr = match csaved c !! Z.to_nat fr with Some (Some g) => Some (cframe_stack g) | _ => None end.
Proof. intros H. unfold concrete_frame_stack. by rewrite (proj2 (Z.eqb_neq _ _)). Qed.

Lemma mirrored_call a c pc a' :
  mirrored a c -> call_subprog a pc = Ok a' -> exists c', ccall_subprog c pc = Ok c' /\ mirrored a' c'.
Proof.
  intros (Hl & Hp & Hs) Hc. pose proof (call_linked a c pc Hl) as H. rewrite Hc in H.
  destruct (ccall_subprog c pc) as [c'|] eqn:Hcc; [|done]. exists c'. split; [done|]. split; [done|].
  destruct Hl as (_ & Hcur & _ & Hr & Hla & Hlc & _).
  unfold call_subprog in Hc. destruct (_ <=? _) eqn:Hd; [done|]. injection Hc as <-.
  unfold ccall_subprog in Hcc. rewrite <- Hcur, Hd in Hcc. injection Hcc as <-. apply Z.leb_gt in Hd.
  split; [exact Hp|]. intros fr Hfr. cbn [curframe] in Hfr. destruct (decide (fr = curframe a + 1)) as [->|Hne].
  { exists stack_new, (replicate 64 None). unfold frame_stack_of, concrete_frame_stack.
    cbn [curframe ccurframe stack cstack]. rewrite !Z.eqb_refl. split; [done|]. split; [done|]. apply fresh_stack_in. }
  destruct (Hs fr ltac:(lia)) as (st & cst & H1 & H2 & H3). exists st, cst.
  rewrite frame_stack_below, cframe_stack_below by (cbn [curframe ccurframe]; lia). cbn [saved csaved].
  destruct (decide (fr = curframe a)) as [->|Hnc].
  - rewrite !list_lookup_insert_eq by lia. unfold frame_stack_of in H1. unfold concrete_frame_stack in H2.
    rewrite Z.eqb_refl in H1. rewrite Hcur, Z.eqb_refl in H2. injection H1 as <-. injection H2 as <-. done.
  - rewrite !list_lookup_insert_ne by lia. rewrite frame_stack_below in H1 by done. rewrite cframe_stack_below in H2 by lia.
    done.
Qed.

Lemma mirrored_return a c :
  mirrored a c -> 0 < curframe a ->
  exists a' c', return_from_subprog a = Some a' /\ creturn_from_subprog c = Some c' /\ mirrored a' c'.
Proof.
  intros (Hl & Hp & Hs) Hpos. pose proof (return_linked a c Hl) as H.
  destruct (return_from_subprog a) as [a'|] eqn:Ha, (creturn_from_subprog c) as [c'|] eqn:Hc; try done; [|lia].
  exists a', c'. split; [done|]. split; [done|]. split; [done|].
  destruct Hl as (_ & Hcur & _ & Hr & Hla & Hlc & _). unfold return_from_subprog in Ha. unfold creturn_from_subprog in Hc.
  rewrite <- Hcur in Hc. rewrite (proj2 (Z.eqb_neq _ _)) in Ha, Hc by lia.
  destruct (Hs (curframe a - 1) ltac:(lia)) as (st & cst & H1 & H2 & H3).
  rewrite frame_stack_below in H1 by lia. rewrite cframe_stack_below in H2 by lia.
  destruct (saved a !! Z.to_nat (curframe a - 1)) as [[f|]|]; try done.
  destruct (csaved c !! Z.to_nat (curframe a - 1)) as [[g|]|]; try done. injection Ha as <-. injection Hc as <-.
  injection H1 as <-. injection H2 as <-. split; [done|]. intros fr Hfr. cbn [curframe] in Hfr.
  destruct (decide (fr = curframe a - 1)) as [->|Hne].
  { exists (frame_stack f), (cframe_stack g). unfold frame_stack_of, concrete_frame_stack.
    cbn [curframe ccurframe stack cstack]. rewrite !Z.eqb_refl. done. }
  destruct (Hs fr ltac:(lia)) as (st & cst & H1 & H2 & H4). exists st, cst.
  rewrite frame_stack_below, cframe_stack_below by (cbn [curframe ccurframe]; lia). cbn [saved csaved].
  rewrite !list_lookup_insert_ne by lia. rewrite frame_stack_below in H1 by lia. rewrite cframe_stack_below in H2 by lia.
  done.
Qed.

(** A register instruction leaves the stacks alone. *)
Lemma mirrored_regs a c a' c' f :
  mirrored a c -> a' = set_regs f a -> described a' c' -> cstack c' = cstack c -> csaved c' = csaved c ->
  ccurframe c' = ccurframe c -> cret_pc c' = cret_pc c -> cprog_type c' = cprog_type c -> mirrored a' c'.
Proof.
  intros ((_ & Hcur & Hret & Hrest) & Hp & Hs) -> Hd Hcs Hsv Hcc Hcr Hcp. split; [|split].
  - split; [done|]. rewrite Hcc, Hcr, Hsv. done.
  - by rewrite Hcp.
  - intros fr Hfr. destruct (Hs fr Hfr) as (st & cst & H1 & H2 & H3). exists st, cst.
    unfold frame_stack_of, concrete_frame_stack in *. rewrite Hcs, Hsv, Hcc. cbn [set_regs curframe saved stack]. done.
Qed.

(** * Values of a state *)

(** The pairs of an abstract and a concrete value that a change of every register
    and every full spill of the current frame sees. *)
Inductive value_pair (a : VerifierState) (c : ConcreteState) : RegState -> ConcreteValue -> Prop :=
| in_register r v : 0 <= r < 11 -> creg c r = Some v -> value_pair a c (reg a r) v
| in_slot slot r v : (slot < 64)%nat -> full_spill (stack a) slot = true -> spilled (stack a) !!! slot = Some r ->
    cstack c !!! slot = Some v -> value_pair a c r v.

Lemma full_spill_bytes st slot :
  length (bytes st) = 512%nat -> (slot < 64)%nat ->
  full_spill st slot = true <-> (forall k, 0 <= k < 8 -> slot_byte st slot k = StackByte.Spill).
Proof.
  intros Hl Hs. unfold full_spill. rewrite forallb_forall. unfold slot_byte.
  assert (Hat : forall j, (j < 8)%nat -> slot_bytes st slot !! j = Some (bytes st !!! (slot * 8 + j)%nat)).
  { intros j Hj. unfold slot_bytes. rewrite lookup_take_lt, lookup_drop by lia. apply list_lookup_lookup_total_lt. lia. }
  split.
  - intros H k Hk. assert (Hj : (Z.to_nat (7 - k) < 8)%nat) by lia. specialize (Hat _ Hj).
    apply list_elem_of_lookup_2, list_elem_of_In, H, bool_decide_eq_true in Hat. rewrite <- Hat. f_equal. lia.
  - intros H b Hb. apply bool_decide_eq_true. apply list_elem_of_In, list_elem_of_lookup in Hb as [j Hj].
    assert (Hj8 : (j < 8)%nat).
    { apply lookup_lt_Some in Hj. unfold slot_bytes in Hj. rewrite length_take in Hj. lia. }
    rewrite Hat in Hj by done. injection Hj as <-. rewrite <- (H (7 - Z.of_nat j)) by lia. f_equal. lia.
Qed.

(** A full slot holds a value its register describes. *)
Lemma full_slot_in B o v :
  (forall k, 0 <= k < 8 -> B k = StackByte.Spill) ->
  slot_in B o v <-> exists r w, o = Some r /\ v = Some w /\ reg_wf r /\ value_in r w.
Proof.
  intros Hf. split.
  - intros [_ Hv]. destruct v as [v|].
    2: { destruct (Hv 0 ltac:(lia)) as [H|H]; by rewrite Hf in H by lia. }
    destruct Hv as [[_ (r & -> & _ & Hw & Hr)]|(x & -> & Hx & _ & Hs)]; [by exists r, v|].
    destruct (Hs 0 ltac:(lia) (Hf 0 ltac:(lia))) as (b & w & -> & Hb & Hw & Hbytes). exists (Scalar b), (CScalar x).
    split_and!; try done. assert (x = w) as ->; [|done]. pose proof Hw as [(Hwu & _) _].
    apply word_eq; [done|done|]. intros k Hk. by apply Hbytes, Hf.
  - intros (r & w & -> & -> & Hw & Hr). split; [intros k Hk; by rewrite Hf|].
    destruct (is_scalar (Some r)) eqn:Hs; [|left; split; [done|by exists r]]. right.
    destruct r as [|b| | | | | | | |]; try done. destruct w as [x| | | |]; try done. exists x.
    split; [done|]. split; [apply Hr|]. split; [by intros k Hk; rewrite Hf|]. intros k Hk _. by exists b, x.
Qed.

Lemma pair_in a c r v : mirrored a c -> value_pair a c r v -> reg_wf r /\ value_in r v.
Proof.
  intros Hm [rn w Hr Hc|slot x w Hs Hf Hsp Hc].
  - destruct (mirrored_reg a c rn Hm Hr) as [Hw Hv]. by rewrite Hc in Hv.
  - destruct Hm as ((_ & Hcur & _ & Hd & _) & _ & Hst). destruct (Hst (curframe a) ltac:(lia)) as (st & cst & H1 & H2 & Hin).
    unfold frame_stack_of in H1. unfold concrete_frame_stack in H2. rewrite Z.eqb_refl in H1. rewrite Hcur, Z.eqb_refl in H2.
    injection H1 as <-. injection H2 as <-. destruct Hin as (Hl & _ & _ & Hin). specialize (Hin slot Hs).
    apply full_slot_in in Hin as (r' & w' & Ho & Hv & Hw & Hr); [|by apply full_spill_bytes].
    rewrite Hsp in Ho. rewrite Hc in Hv. by injection Ho as <-; injection Hv as <-.
Qed.

(** A change of every value that keeps each description keeps the machines in step. *)
Definition map_both (f g : RegState -> RegState) (s : VerifierState) : VerifierState :=
  set_stack (map_full_spills g (stack s)) (set_regs (map f) s).

Lemma reg_map f s r : f Uninit = Uninit -> reg (set_regs (map f) s) r = f (reg s r).
Proof.
  intros Hf. unfold reg, set_regs. cbn [regs]. rewrite !list_lookup_total_alt. change (map f) with (fmap (M:=list) f).
  rewrite list_lookup_fmap. by destruct (regs s !! Z.to_nat r).
Qed.

Lemma map_spill_lookup g st slot :
  spilled (map_full_spills g st) !!! slot =
    match spilled st !!! slot with Some r => if full_spill st slot then Some (g r) else Some r | None => None end.
Proof.
  cbn [map_full_spills spilled]. rewrite !list_lookup_total_alt, list_lookup_imap.
  destruct (spilled st !! slot) as [[r|]|]; [|done|done]. simpl. by destruct (full_spill st slot).
Qed.

Lemma map_both_frames f g s fr :
  frame_stack_of (map_both f g s) fr =
    if fr =? curframe s then Some (map_full_spills g (stack s)) else frame_stack_of s fr.
Proof. unfold frame_stack_of, map_both. cbn [set_stack set_regs curframe stack saved]. by destruct (fr =? curframe s). Qed.

Lemma map_stack_in g st cst :
  stack_in st cst ->
  (forall slot r v, (slot < 64)%nat -> full_spill st slot = true -> spilled st !!! slot = Some r -> cst !!! slot = Some v ->
     reg_wf (g r) /\ value_in (g r) v) ->
  stack_in (map_full_spills g st) cst.
Proof.
  intros (Hb & Hsp & Hc & Hs) Hg. split_and!; [done|by cbn; rewrite length_imap|done|].
  intros slot Hlt. pose proof (Hs slot Hlt) as Hin. rewrite map_spill_lookup.
  change (slot_byte (map_full_spills g st) slot) with (slot_byte st slot).
  destruct (full_spill st slot) eqn:Hf; [|by destruct (spilled st !!! slot)].
  assert (HB : forall k, 0 <= k < 8 -> slot_byte st slot k = StackByte.Spill) by (by apply full_spill_bytes).
  apply full_slot_in in Hin as (r & v & Hr & Hv & _); [|done]. apply full_slot_in; [done|]. rewrite Hr, Hv.
  destruct (Hg slot r v Hlt Hf Hr Hv). by exists (g r), v.
Qed.

Lemma mirrored_map f g a c :
  mirrored a c -> f Uninit = Uninit ->
  (forall r v, value_pair a c r v -> reg_wf (f r) /\ value_in (f r) v) ->
  (forall r v, value_pair a c r v -> reg_wf (g r) /\ value_in (g r) v) ->
  mirrored (map_both f g a) c.
Proof.
  intros Hm Hu Hf Hg. pose proof Hm as ((Hd & Hcur & Hrest) & Hp & Hs). split; [|split; [done|]].
  - split; [|done]. destruct Hd as (Hl & Hlc & Hr). split; [|split; [done|]].
    { unfold map_both. cbn [set_stack set_regs regs]. by rewrite length_map. }
    intros r Hr11. change (reg (map_both f g a) r) with (reg (set_regs (map f) a) r). rewrite reg_map by done.
    destruct (Hr r Hr11) as [Hw Hv]. destruct (creg c r) as [v|] eqn:Hc.
    + simpl. apply Hf. by constructor.
    + simpl in *. by rewrite Hv, Hu.
  - intros fr Hfr. rewrite map_both_frames. change (curframe (map_both f g a)) with (curframe a) in Hfr.
    destruct (Hs fr Hfr) as (st & cst & H1 & H2 & H3). destruct (Z.eqb_spec fr (curframe a)) as [->|Hne].
    + unfold frame_stack_of in H1. unfold concrete_frame_stack in H2. rewrite Z.eqb_refl in H1. rewrite Hcur, Z.eqb_refl in H2.
      injection H1 as <-. injection H2 as <-. do 2 eexists. split; [reflexivity|]. unfold concrete_frame_stack.
      rewrite Hcur, Z.eqb_refl. split; [reflexivity|]. apply map_stack_in; [done|]. intros. apply Hg. by eapply in_slot.
    + by exists st, cst.
Qed.

(** The pairs after a change, and after a write of a register. *)
Lemma pair_map f g a c r v :
  mirrored a c -> f Uninit = Uninit -> value_pair (map_both f g a) c r v ->
  exists r0, value_pair a c r0 v /\ (r = f r0 \/ r = g r0).
Proof.
  intros Hm Hu [rn w Hr Hc|slot x w Hs Hf Hsp Hc].
  - exists (reg a rn). split; [by constructor|]. left. by apply reg_map.
  - change (stack (map_both f g a)) with (map_full_spills g (stack a)) in Hsp, Hf.
    change (full_spill (map_full_spills g (stack a)) slot) with (full_spill (stack a) slot) in Hf.
    rewrite map_spill_lookup, Hf in Hsp. destruct (spilled (stack a) !!! slot) as [r0|] eqn:Ho; [|done].
    injection Hsp as <-. exists r0. split; [by eapply in_slot|by right].
Qed.

Lemma pair_set a c dst r0 r v :
  mirrored a c -> 0 <= dst < 11 -> value_pair (set_reg dst r0 a) c r v ->
  value_pair a c r v \/ (r = r0 /\ creg c dst = Some v).
Proof.
  intros Hm Hd [rn w Hr Hc|slot x w Hs Hf Hsp Hc].
  - unfold reg, set_reg, set_regs. cbn [regs]. rewrite lookup_total_insert by (destruct Hm as [[(Hl & _) _] _]; lia).
    destruct (Z.eqb_spec dst rn) as [->|]; [by right|]. left. by apply (in_register a c rn w).
  - left. by eapply in_slot.
Qed.

Lemma mirrored_set_abstract a c dst r v :
  mirrored a c -> 0 <= dst < 11 -> creg c dst = Some v -> reg_wf r -> value_in r v -> mirrored (set_reg dst r a) c.
Proof.
  intros Hm Hd Hc Hw Hv. pose proof (mirrored_set a c dst r v Hm Hd Hw Hv) as H.
  replace (set_creg dst v c) with c in H; [done|]. unfold set_creg. destruct c as [rs st sv cf rp pt]. f_equal.
  unfold creg in Hc. cbn [cregs] in *. symmetry. apply list_insert_id. rewrite <- Hc.
  apply list_lookup_lookup_total_lt. destruct Hm as [[(_ & Hl & _) _] _]. cbn [cregs] in Hl. lia.
Qed.

(** * Identities *)

(** What an identity promises: linked scalars are at their distances from one
    base, and nullable pointers of one identity are null together. *)
Definition identity_in (base : Z -> Z) (null : Z -> bool) (r : RegState) (v : ConcreteValue) : Prop :=
  match r with
  | Scalar b => id b <> 0 -> is_i32 (delta b) /\ v = CScalar (as_u64 (base (id b) + delta b))
  | PtrToMapValueOrNull _ i =>
      if null i then v = CScalar 0 else exists fd k, v = MapPtr fd (Some k) 0
  | PtrToMem _ _ _ i _ | PtrToMemOrNull i _ _ => null i = true <-> v = CScalar 0
  | _ => True
  end.
Definition linked_values (base : Z -> Z) (null : Z -> bool) (a : VerifierState) (c : ConcreteState) : Prop :=
  forall r v, value_pair a c r v -> identity_in base null r v.

Section identities.
Context (base : Z -> Z) (null : Z -> bool).

(** The machines in step, with true identities. *)
Definition tied (a : VerifierState) (c : ConcreteState) : Prop := mirrored a c /\ linked_values base null a c.

Lemma tied_map f g a c :
  tied a c -> f Uninit = Uninit ->
  (forall r v, value_pair a c r v -> reg_wf r -> value_in r v -> identity_in base null r v ->
     (reg_wf (f r) /\ value_in (f r) v /\ identity_in base null (f r) v) /\
     (reg_wf (g r) /\ value_in (g r) v /\ identity_in base null (g r) v)) ->
  tied (map_both f g a) c.
Proof.
  intros [Hm Hl] Hu H.
  assert (H' : forall r v, value_pair a c r v ->
     (reg_wf (f r) /\ value_in (f r) v /\ identity_in base null (f r) v) /\
     (reg_wf (g r) /\ value_in (g r) v /\ identity_in base null (g r) v)).
  { intros r v Hp. destruct (pair_in _ _ _ _ Hm Hp). auto. }
  split.
  - apply mirrored_map; try done; intros r v Hp; destruct (H' r v Hp) as [(?&?&?) (?&?&?)]; done.
  - intros r v Hp. apply (pair_map f g) in Hp as (r0 & Hp & [-> | ->]); try done; apply (H' r0 v Hp).
Qed.

Lemma tied_set a c dst r v :
  tied a c -> 0 <= dst < 11 -> creg c dst = Some v -> reg_wf r -> value_in r v -> identity_in base null r v ->
  tied (set_reg dst r a) c.
Proof.
  intros [Hm Hl] Hd Hc Hw Hv Hi. split; [by eapply mirrored_set_abstract|]. intros r' v' Hp.
  apply (pair_set a c) in Hp as [Hp|[-> Hc']]; try done; [by apply Hl|]. rewrite Hc in Hc'. by injection Hc' as <-.
Qed.

Lemma tied_read pc a c r x :
  tied a c -> 0 <= r -> read_reg pc a r = Ok x ->
  0 <= r < 11 /\ reg a r = x /\ reg_wf x /\
  exists v, creg c r = Some v /\ value_in x v /\ identity_in base null x v /\ lread pc c r = Ok v.
Proof.
  intros [Hm Hl] Hr Hread. destruct (mirrored_read _ _ _ _ _ Hm Hr Hread) as (Hlt & Hx & Hw & v & Hc & Hv & Hrd).
  split; [done|]. split; [done|]. split; [done|]. exists v. split_and!; try done. rewrite <- Hx. apply Hl. by constructor.
Qed.

(** * Links *)

(** A refined scalar keeps its identity and distance, or has none. *)
Definition keeps_link (b b' : ScalarBounds) : Prop := id b' = 0 \/ (id b' = id b /\ delta b' = delta b).

Lemma keeps_identity b b' v :
  keeps_link b b' -> identity_in base null (Scalar b) v -> identity_in base null (Scalar b') v.
Proof. intros [H|[Hi Hd]] Hv; simpl in *; [done|]. by rewrite Hi, Hd. Qed.

Lemma synced_link b : id (synced b) = id b /\ delta (synced b) = delta b.
Proof. unfold synced. by repeat case_match. Qed.

Lemma refine_link op d s :
  let '((td, ts), (fd, fs)) := refine_cmp op d s in
  keeps_link d td /\ keeps_link s ts /\ keeps_link d fd /\ keeps_link s fs.
Proof.
  assert (Hkeep : forall b b', (id b' = id b /\ delta b' = delta b) \/ id b' = 0 -> keeps_link b (synced b')).
  { intros b b' H. destruct (synced_link b') as [Hi Hd]. unfold keeps_link. rewrite Hi, Hd. tauto. }
  assert (Hex : forall b b', keeps_link b (synced (exclude_bounds b b'))).
  { intros b b'. apply Hkeep. unfold exclude_bounds. destruct (negb _); [by left|by right]. }
  assert (Hin : keeps_link d (intersection d s) /\ keeps_link s (intersection d s)).
  { unfold intersection. split; apply Hkeep; by right. }
  unfold refine_cmp. destruct (CondOp.ord op) as [o|].
  - destruct (CondOp.is_signed op); destruct (refine_ordered _ _ _ _) as [[td ts] [fd fs]]; split_and!;
      apply Hkeep; by left.
  - destruct Hin. destruct op; cbn; by split_and!.
Qed.

Lemma shifted_in i kd known x b v :
  bounds_wf known -> bounds_mem known x -> x = as_u64 (base i + kd) -> is_i32 kd -> i <> 0 ->
  bounds_wf b -> identity_in base null (Scalar b) v -> id b = i ->
  reg_wf (Scalar (shifted_scalar kd known b)) /\ value_in (Scalar (shifted_scalar kd known b)) v /\
  identity_in base null (Scalar (shifted_scalar kd known b)) v.
Proof.
  intros Hw Hx Hxe Hkd Hi Hb Hid Hb'. destruct (Hid ltac:(congruence)) as [Hdelta ->]. rewrite Hb' in *.
  unfold shifted_scalar. cbn zeta. set (k := if _ =? 0 then known else _).
  assert (Hk : bounds_wf k /\ bounds_mem k (as_u64 (base i + delta b))).
  { unfold k. destruct (Z.eqb_spec (delta b - kd) 0) as [He|Hne].
    - split; [done|]. replace (delta b) with kd by lia. by rewrite <- Hxe.
    - assert (Hs : is_i64 (delta b - kd)) by lia. split; [apply apply_alu_wf; [done|by apply bounds_constant_wf]|].
      replace (as_u64 (base i + delta b)) with (alu_value Alu.Add W64 x (as_u64 (delta b - kd))).
      + apply apply_alu_mem; try done; [by apply bounds_constant_wf|by apply bounds_constant_mem|].
        unfold alu_covered. cbn [signed_covered]. by rewrite orb_true_r.
      + cbn [alu_value alu_const64]. unfold wadd. subst x. unfold as_u. rewrite <- Zplus_mod. f_equal. lia. }
  destruct Hk as [Hkw Hkm]. split; [exact Hkw|]. split; [exact Hkm|]. intros _. cbn [id delta]. by rewrite Hb'.
Qed.

Lemma tied_sync i kd known x a c :
  tied a c -> (i <> 0 -> bounds_wf known /\ bounds_mem known x /\ x = as_u64 (base i + kd) /\ is_i32 kd) ->
  tied (sync_linked_scalars i kd known a) c.
Proof.
  intros Ht H. unfold sync_linked_scalars. destruct (Z.eqb_spec i 0) as [|Hi]; [done|].
  destruct (H Hi) as (Hw & Hx & Hxe & Hkd). apply tied_map; [done|done|]. intros r v _ Hr Hv Hid.
  destruct r as [|b| | | | | | | |]; try done. unfold sync_reg, sync_spill.
  destruct (Z.eqb_spec (id b) i) as [Hbi|]; [|done]. cbn [negb orb].
  pose proof (shifted_in i kd known x b v Hw Hx Hxe Hkd Hi Hr Hid Hbi) as Hs. by destruct (bounds_equal b known).
Qed.

(** * Branches *)

(** Every concrete successor has an abstract one that describes it. *)
Definition covers_all (succs : list successor) (l : list csuccessor) : Prop :=
  forall p, In p l -> exists a', In (fst p, a') succs /\ tied a' (snd p).
Definition comparison_failure (pc : Z) (e : Stop) : Prop :=
  exists dst, e = Failure (ConcreteFailure.InvalidComparisonImm pc dst) \/
    exists src, e = Failure (ConcreteFailure.InvalidComparison pc dst src).
(** The concrete machine goes where the verifier has been, or refuses to compare. *)
Definition branch_sim (pc : Z) (succs : list successor) (r : result Stop (list csuccessor)) : Prop :=
  match r with Ok l => covers_all succs l | Err e => comparison_failure pc e end.

Definition jumps (pc offset : Z) (c : ConcreteState) (holds : result Stop bool) : result Stop (list csuccessor) :=
  let? taken := holds in Ok (jump pc offset taken c).

Lemma jump_sim pc offset c taken succs a :
  In (if taken : bool then branch_target pc offset else pc + 1, a) succs -> tied a c ->
  branch_sim pc succs (jumps pc offset c (Ok taken)).
Proof.
  intros Hin Ht p Hp. unfold jump in Hp. destruct Hp as [<-|[]]. exists a. by destruct taken.
Qed.

(** The concrete test of two values. *)
Record tests (pc : Z) (op : CondOp) (vd vs : ConcreteValue) (holds : result Stop bool) : Prop := {
  test_scalars x y : vd = CScalar x -> vs = CScalar y -> holds = Ok (cond_holds op x y);
  test_nullable p : is_equality op = true ->
    (vd = p /\ vs = CScalar 0) \/ (vd = CScalar 0 /\ vs = p) ->
    (exists fd k o, p = MapPtr fd k o) \/ (exists x, p = MemPtr x) ->
    holds = Ok (negb (bool_decide (op = CondOp.Eq)));
  test_ends : match holds with Ok _ => True | Err e => comparison_failure pc e end
}.

Lemma both_sim pc offset c op vd vs holds a :
  tests pc op vd vs holds -> tied a c ->
  branch_sim pc [(branch_target pc offset, a); (pc + 1, a)] (jumps pc offset c holds).
Proof.
  intros [_ _ He] Ht. destruct holds as [[]|e]; [| |exact He]; eapply jump_sim; try done; simpl; auto.
Qed.

Lemma values_tests pc dst src op vd vs : tests pc op vd vs (values_hold pc dst src op vd vs).
Proof.
  split.
  - intros x y -> ->. by destruct x.
  - intros p Hop Hor Hp. destruct Hp as [(fd & k & o & ->)|(x & ->)], Hor as [[-> ->]|[-> ->]]; by destruct op.
  - assert (Hfail : comparison_failure pc (Failure (ConcreteFailure.InvalidComparison pc dst src))) by (exists dst; right; by exists src).
    destruct vd as [[]| | | |], vs as [[]| | | |]; simpl; try done; by destruct op.
Qed.

Lemma immediate_tests pc dst op vd imm :
  is_i32 imm -> tests pc op vd (CScalar (as_u64 imm)) (immediate_holds pc dst op vd imm).
Proof.
  intros Hi. assert (Hz : as_u64 imm = 0 -> imm = 0) by (unfold as_u; intros; div_lia). split.
  - by intros x y -> [= <-].
  - intros p Hop Hor Hp. destruct Hor as [[-> [= H0%Hz]]|[-> Hq]].
    + subst imm. destruct Hp as [(fd & k & o & ->)|(x & ->)]; by destruct op.
    + subst p. by destruct Hp as [(fd & k & o & Hq)|(x & Hq)].
  - assert (Hfail : comparison_failure pc (Failure (ConcreteFailure.InvalidComparisonImm pc dst))) by (exists dst; by left).
    unfold immediate_holds. destruct vd; try done; destruct (imm =? 0); try done; by destruct op.
Qed.

(** The two sides of a comparison of scalars. *)
Lemma link_base b x :
  identity_in base null (Scalar b) (CScalar x) -> id b <> 0 -> x = as_u64 (base (id b) + delta b) /\ is_i32 (delta b).
Proof. intros H Hi. destruct (H Hi) as [Hd [= ->]]. done. Qed.

Lemma tied_scalar_side dst src_reg d b t u a c x y :
  tied a c -> 0 <= dst < 11 -> creg c dst = Some (CScalar x) -> identity_in base null (Scalar d) (CScalar x) ->
  bounds_wf t -> bounds_mem t x -> keeps_link d t ->
  match src_reg with
  | Some r => 0 <= r < 11 /\ creg c r = Some (CScalar y) /\ identity_in base null (Scalar b) (CScalar y) /\
      bounds_wf u /\ bounds_mem u y /\ keeps_link b u
  | None => True
  end ->
  tied (scalar_side dst src_reg d b (t, u) a) c.
Proof.
  intros Ht Hd Hc Hid Hw Hx Hk Hsrc. unfold scalar_side. cbn [fst snd].
  assert (Ht1 : tied (set_reg dst (Scalar t) a) c).
  { eapply tied_set; try done. by eapply keeps_identity. }
  assert (Hsync : forall s, tied s c -> tied (sync_linked_scalars (id d) (delta d) t s) c).
  { intros s Hs. apply (tied_sync _ _ _ x); [done|]. intros Hi. by destruct (link_base _ _ Hid Hi). }
  destruct src_reg as [r|]; [|by apply Hsync]. destruct Hsrc as (Hr & Hcr & Hidr & Hwu & Hyu & Hku).
  apply (tied_sync _ _ _ y); [|intros Hi; by destruct (link_base _ _ Hidr Hi)]. apply Hsync.
  eapply tied_set; try done. by eapply keeps_identity.
Qed.

Lemma scalar_branches_sim pc dst src_reg offset op d b a c x y holds :
  tied a c -> 0 <= dst < 11 -> creg c dst = Some (CScalar x) -> identity_in base null (Scalar d) (CScalar x) ->
  bounds_wf d -> bounds_mem d x -> bounds_wf b -> bounds_mem b y ->
  match src_reg with
  | Some r => 0 <= r < 11 /\ creg c r = Some (CScalar y) /\ identity_in base null (Scalar b) (CScalar y)
  | None => True
  end ->
  tests pc op (CScalar x) (CScalar y) holds -> fallthrough_covered op b = true ->
  branch_sim pc (scalar_branches pc dst src_reg offset op d b a) (jumps pc offset c holds).
Proof.
  intros Ht Hd Hc Hid Hdw Hdx Hbw Hby Hsrc Htest Hcov. rewrite (test_scalars _ _ _ _ _ Htest x y eq_refl eq_refl).
  pose proof (refine_cmp_ok op d b x y Hdw Hbw) as Hr. pose proof (refine_link op d b) as Hl.
  pose proof (is_branch_taken_ok op d b x y Hdw Hbw Hdx Hby) as Hv. unfold scalar_branches.
  destruct (refine_cmp op d b) as [[td ts] [fd fs]]. destruct Hr as [(Hw1 & Hw2 & Hw3 & Hw4) Hm].
  destruct (Hm Hdx Hby) as [Hmt Hmf]. destruct Hl as (Hk1 & Hk2 & Hk3 & Hk4).
  assert (Htaken : cond_holds op x y = true -> tied (scalar_side dst src_reg d b (td, ts) a) c).
  { intros Hh. destruct (Hmt Hh). apply (tied_scalar_side dst src_reg d b _ _ a c x y); try done. destruct src_reg; tauto. }
  assert (Hfall : cond_holds op x y = false -> tied (scalar_side dst src_reg d b (fd, fs) a) c).
  { intros Hh. destruct (Hmf Hh Hcov). apply (tied_scalar_side dst src_reg d b _ _ a c x y); try done. destruct src_reg; tauto. }
  destruct (cond_holds op x y), (is_branch_taken op d b); try done;
    (eapply jump_sim; [|first [by apply Htaken|by apply Hfall]]); simpl; auto.
Qed.

(** * Null checks *)

Lemma zero_in : reg_wf (Scalar (bounds_constant 0)) /\ value_in (Scalar (bounds_constant 0)) (CScalar 0) /\
  identity_in base null (Scalar (bounds_constant 0)) (CScalar 0).
Proof. split; [by apply bounds_constant_wf|]. split; [by apply bounds_constant_mem|]. done. Qed.

Lemma element_in fd k vs i :
  reg_wf (PtrToMapValue 0 0 0 vs i) /\ value_in (PtrToMapValue 0 0 0 vs i) (MapPtr fd (Some k) 0) /\
  identity_in base null (PtrToMapValue 0 0 0 vs i) (MapPtr fd (Some k) 0).
Proof.
  assert (Ho : offset_in 0 0 0 0) by (right; split; [lia|by right]).
  split; [simpl; unfold interval_wf; lia|]. split; [|done]. simpl. split; [lia|done].
Qed.

Lemma tied_drop i a c : tied a c -> tied (default a (drop_ref i a)) c.
Proof.
  intros Ht. unfold drop_ref. destruct (ref_index (held_refs a) i); [|done]. simpl.
  destruct Ht as [((Hd & Hrest) & Hp & Hs) Hl]. split; [split; [split; [exact Hd|exact Hrest]|split; [exact Hp|exact Hs]]|].
  intros r v Hpair. apply Hl. destruct Hpair as [rn w Hr Hc|slot x w H1 H2 H3 H4]; [by apply (in_register a c)|by apply (in_slot a c slot)].
Qed.

Lemma tied_map_value_null i a c : tied a c -> null i = true -> tied (map_values (map_value_null i) a) c.
Proof.
  intros Ht Hn. apply tied_map; [done|done|]. intros r v _ Hw Hv Hid. destruct r; try done. simpl.
  destruct (Z.eqb_spec ptr_id i) as [->|]; [|done]. simpl in Hid. rewrite Hn in Hid. subst v. split; apply zero_in.
Qed.
Lemma tied_map_value_valid i a c : tied a c -> null i = false -> tied (map_values (map_value_valid i) a) c.
Proof.
  intros Ht Hn. apply tied_map; [done|done|]. intros r v _ Hw Hv Hid. destruct r; try done. simpl.
  destruct (Z.eqb_spec ptr_id i) as [->|]; [|done]. simpl in Hid. rewrite Hn in Hid. destruct Hid as (fd & k & ->).
  split; apply element_in.
Qed.
Lemma tied_mem_null i a c : tied a c -> null i = true -> tied (map_values (mem_null i) a) c.
Proof.
  intros Ht Hn. apply tied_map; [done|done|]. intros r v _ Hw Hv Hid. destruct r; try done; simpl.
  - destruct (Z.eqb_spec ptr_id i) as [->|]; [|done]. rewrite (proj1 Hid Hn). split; apply zero_in.
  - destruct (_ && _) eqn:Hc; [|done]. apply andb_true_iff in Hc as [_ ->%Z.eqb_eq]. rewrite (proj1 Hid Hn). split; apply zero_in.
Qed.
Lemma memory_in i parent size v :
  reg_wf (PtrToMemOrNull i parent size) -> value_in (PtrToMemOrNull i parent size) v ->
  identity_in base null (PtrToMemOrNull i parent size) v ->
  let r := PtrToMem 0 (as_i32 (Z.max 0 (size - 8))) 0 i parent in
  reg_wf r /\ value_in r v /\ identity_in base null r v.
Proof.
  intros Hw Hv Hid. cbn zeta. split; [done|]. split; [by destruct v|exact Hid].
Qed.
Lemma tied_mem_valid i a c : tied a c -> tied (map_values (mem_valid i) a) c.
Proof.
  intros Ht. apply tied_map; [done|done|]. intros r v _ Hw Hv Hid. destruct r; try done. simpl.
  destruct (Z.eqb_spec ptr_id i) as [->|]; [|done]. split; by apply memory_in.
Qed.

(** The test of a nullable pointer against zero follows the null flag. *)
Lemma null_test pc op vd vs v n holds :
  tests pc op vd vs holds -> is_equality op = true -> (vd = v /\ vs = CScalar 0) \/ (vd = CScalar 0 /\ vs = v) ->
  (if n : bool then v = CScalar 0 else (exists fd k o, v = MapPtr fd k o) \/ (exists x, v = MemPtr x)) ->
  holds = Ok (if bool_decide (op = CondOp.Eq) then n else negb n).
Proof.
  intros [Hs Hp _] Hop Hor Hn. destruct n.
  - rewrite (Hs 0 0) by (destruct Hor as [[-> ->]|[-> ->]]; congruence). by destruct op.
  - rewrite (Hp v Hop Hor Hn). by destruct op.
Qed.

Lemma null_check_sim pc offset op vd vs v n holds null_state valid c :
  tests pc op vd vs holds -> is_equality op = true -> (vd = v /\ vs = CScalar 0) \/ (vd = CScalar 0 /\ vs = v) ->
  (if n : bool then v = CScalar 0 else (exists fd k o, v = MapPtr fd k o) \/ (exists x, v = MemPtr x)) ->
  (if n then tied null_state c else tied valid c) ->
  branch_sim pc (null_check pc offset op null_state valid) (jumps pc offset c holds).
Proof.
  intros Ht Hop Hor Hn Hside. rewrite (null_test pc op vd vs v n holds Ht Hop Hor Hn). unfold null_check.
  destruct n; destruct op; try done; (eapply jump_sim; [|exact Hside]); simpl; auto.
Qed.

Lemma map_value_check_sim pc offset op pr vsize i a c vd vs v holds :
  tied a c -> 0 <= pr < 11 -> reg a pr = PtrToMapValueOrNull vsize i -> creg c pr = Some v ->
  tests pc op vd vs holds -> is_equality op = true -> (vd = v /\ vs = CScalar 0) \/ (vd = CScalar 0 /\ vs = v) ->
  branch_sim pc (map_value_check pc offset op pr vsize i a) (jumps pc offset c holds).
Proof.
  intros Ht Hp Hr Hc Htest Hop Hor. pose proof (proj2 Ht _ _ (in_register a c pr v Hp Hc)) as Hid.
  rewrite Hr in Hid. simpl in Hid. unfold map_value_check. eapply (null_check_sim pc offset op vd vs v (null i)); try done.
  - destruct (null i); [done|]. destruct Hid as (fd & k & ->). left. by eexists _, _, _.
  - destruct (null i) eqn:Hn.
    + subst v. eapply (tied_set _ _ _ _ (CScalar 0)); [by apply tied_map_value_null|done|done|apply zero_in..].
    + destruct Hid as (fd & k & ->).
      eapply (tied_set _ _ _ _ (MapPtr fd (Some k) 0)); [by apply tied_map_value_valid|done|done|..]; by eapply element_in.
Qed.

Lemma mem_check_sim pc offset op pr i parent size a c vd vs v holds :
  tied a c -> 0 <= pr < 11 -> reg a pr = PtrToMemOrNull i parent size -> creg c pr = Some v ->
  tests pc op vd vs holds -> is_equality op = true -> (vd = v /\ vs = CScalar 0) \/ (vd = CScalar 0 /\ vs = v) ->
  branch_sim pc (mem_check pc offset op pr i a) (jumps pc offset c holds).
Proof.
  intros Ht Hp Hr Hc Htest Hop Hor. pose proof (pair_in _ _ _ _ (proj1 Ht) (in_register a c pr v Hp Hc)) as [Hw Hv].
  pose proof (proj2 Ht _ _ (in_register a c pr v Hp Hc)) as Hid. rewrite Hr in Hid, Hw, Hv. simpl in Hid.
  unfold mem_check. eapply (null_check_sim pc offset op vd vs v (null i)); try done.
  - destruct (null i) eqn:Hn; [by apply Hid|]. destruct v as [x| | | |x]; try done; [|right; by exists x].
    simpl in Hv. subst x. by destruct Hid as [_ H0]; specialize (H0 eq_refl).
  - destruct (null i) eqn:Hn.
    + assert (v = CScalar 0) as -> by (by apply Hid).
      eapply (tied_set _ _ _ _ (CScalar 0)); [apply tied_mem_null; [by apply tied_drop|done]|done|done|apply zero_in..].
    + eapply (tied_set _ _ _ _ v); [by apply tied_mem_valid|done|done|done| |]; [by destruct v|]. simpl. by rewrite Hn.
Qed.

Lemma is_zero_in b x : bounds_wf b -> bounds_mem b x -> bounds_is_zero b = true -> x = 0.
Proof.
  intros Hb [(_ & _ & Hu & _) _]. unfold bounds_is_zero. rewrite !andb_true_iff, !Z.eqb_eq. lia.
Qed.

(** A pointer against a scalar. *)
Lemma pointer_scalar_sim pc dst src_reg offset op a c succs ptr ptr_reg b vd vs vp y holds :
  tied a c -> pointer_scalar pc dst src_reg offset op a ptr ptr_reg b = Ok succs ->
  match ptr_reg with Some pr => 0 <= pr < 11 /\ reg a pr = ptr /\ creg c pr = Some vp | None => True end ->
  bounds_wf b -> bounds_mem b y -> tests pc op vd vs holds ->
  (vd = vp /\ vs = CScalar y) \/ (vd = CScalar y /\ vs = vp) ->
  branch_sim pc succs (jumps pc offset c holds).
Proof.
  intros Ht Hp Hptr Hb Hy Htest Hor. pose proof (both_sim pc offset c op vd vs holds a Htest Ht) as Hboth.
  assert (Hother : (if scalar_comparable ptr then Ok [(branch_target pc offset, a); (pc + 1, a)]
    else match ptr with Uninit => fail pc Panicked | _ => fail pc (DifferentTypes dst src_reg) end) = Ok succs ->
    branch_sim pc succs (jumps pc offset c holds)).
  { destruct (scalar_comparable ptr); [by intros [= <-]|by destruct ptr]. }
  unfold pointer_scalar in Hp. destruct (negb (bounds_is_zero b)) eqn:Hz; [by apply Hother|].
  apply negb_false_iff in Hz. rewrite (is_zero_in b y Hb Hy Hz) in Hor.
  destruct ptr; try (by apply Hother); destruct (is_equality op) eqn:Hop; try done; simpl in Hp.
  - by injection Hp as <-.
  - destruct ptr_reg as [pr|]; [|done]. destruct Hptr as (Hr & Hreg & Hc). injection Hp as <-. by eapply map_value_check_sim.
  - destruct ptr_reg as [pr|]; [|done]. destruct Hptr as (Hr & Hreg & Hc). injection Hp as <-. by eapply mem_check_sim.
Qed.

(** * Conditional jumps *)

(** The comparisons whose fall-through side is exact (see [Branch.refine_ge_fallthrough_gap]). *)
Definition cond_covered (op : CondOp) (src : RegState) : bool :=
  match src with Scalar b => fallthrough_covered op b | _ => true end.

(** The second operand on both machines. *)
Definition operand_in (a : VerifierState) (c : ConcreteState) (src_reg : option Z) (r : RegState) (v : ConcreteValue) : Prop :=
  reg_wf r /\ value_in r v /\
  match src_reg with
  | Some n => 0 <= n < 11 /\ reg a n = r /\ creg c n = Some v /\ identity_in base null r v
  | None => is_scalar (Some r) = true
  end.

Lemma cond_impl_sim pc dst src_reg src offset op a c succs vs :
  tied a c -> 0 <= dst -> operand_in a c src_reg src vs -> cond_covered op src = true ->
  cond_branch_impl pc dst src_reg src offset op a = Ok succs ->
  exists vd, lread pc c dst = Ok vd /\
    forall holds, tests pc op vd vs holds -> branch_sim pc succs (jumps pc offset c holds).
Proof.
  intros Ht Hd (Hsw & Hsv & Hsrc) Hcov Hb. unfold cond_branch_impl in Hb. apply rbind_ok in Hb as (x & Hx & Hb).
  destruct (tied_read _ _ _ _ _ Ht Hd Hx) as (Hd11 & Hreg & Hw & vd & Hc & Hv & Hid & Hl).
  exists vd. split; [done|]. intros holds Htest.
  assert (Hsame : (if same_pointer_type x src then
        if is_equality op then Ok [(branch_target pc offset, a); (pc + 1, a)]
        else fail pc (PointerOrdering dst src_reg)
      else match x, src with Uninit, _ | _, Uninit => fail pc Panicked | _, _ => fail pc (DifferentTypes dst src_reg) end) = Ok succs ->
    branch_sim pc succs (jumps pc offset c holds)).
  { destruct (same_pointer_type x src); [|by destruct x, src]. destruct (is_equality op); [|done].
    intros [= <-]. by apply (both_sim _ _ _ op vd vs). }
  assert (Hptr : forall b, src = Scalar b -> pointer_scalar pc dst src_reg offset op a x (Some dst) b = Ok succs ->
    branch_sim pc succs (jumps pc offset c holds)).
  { intros b -> Hp. destruct vs as [y| | | |]; try done.
    apply (pointer_scalar_sim _ _ _ _ _ _ _ _ _ _ _ vd (CScalar y) vd y holds Ht Hp); [done|apply Hsw|apply Hsv|done|by left]. }
  assert (Hptr2 : forall b, x = Scalar b -> is_scalar (Some src) = false -> pointer_scalar pc dst src_reg offset op a src src_reg b = Ok succs ->
    branch_sim pc succs (jumps pc offset c holds)).
  { intros b -> Hns Hp. destruct vd as [y| | | |]; try done.
    apply (pointer_scalar_sim _ _ _ _ _ _ _ _ _ _ _ (CScalar y) vs vs y holds Ht Hp); [|apply Hw|apply Hv|done|by right].
    destruct src_reg as [n|]; [tauto|done]. }
  destruct x as [|d| | | | | | | |], src as [|b| | | | | | | |]; try (by apply Hsame); try (by eapply Hptr); try (by eapply Hptr2).
  injection Hb as <-. destruct vd as [x| | | |]; try done. destruct vs as [y| | | |]; try done.
  apply (scalar_branches_sim _ _ _ _ _ _ _ _ _ x y); try done. destruct src_reg; [tauto|done].
Qed.

Lemma cond_sim pc dst src offset op a c succs :
  tied a c -> 0 <= dst -> 0 <= src -> (src = dst \/ cond_covered op (reg a src) = true) ->
  cond_branch pc dst src offset op a = Ok succs ->
  branch_sim pc succs (concrete_cond pc dst src offset op c).
Proof.
  intros Ht Hd Hs Hcov Hb. unfold cond_branch in Hb.
  assert (Hother : cond_covered op (reg a src) = true ->
    (let? src_state := read_reg pc a src in cond_branch_impl pc dst (Some src) src_state offset op a) = Ok succs ->
    branch_sim pc succs (concrete_cond pc dst src offset op c)).
  { intros Hcv H. apply rbind_ok in H as (x & Hx & H).
    destruct (tied_read _ _ _ _ _ Ht Hs Hx) as (Hs11 & Hreg & Hw & vs & Hc & Hv & Hid & Hl). rewrite Hreg in Hcv.
    destruct (cond_impl_sim pc dst (Some src) x offset op a c succs vs Ht Hd) as (vd & Hld & Hsim); try done.
    unfold concrete_cond. rewrite Hld, Hl. cbn [rbind]. by apply Hsim, values_tests. }
  destruct (Z.eqb_spec src dst) as [->|Hne].
  - apply rbind_ok in Hb as (x & Hx & Hb).
    destruct (tied_read _ _ _ _ _ Ht Hd Hx) as (Hd11 & Hreg & Hw & vd & Hc & Hv & Hid & Hl).
    destruct (is_scalar (Some x)) eqn:Hsc.
    + injection Hb as <-. destruct x as [|b| | | | | | | |]; try done. destruct vd as [x| | | |]; try done.
      unfold concrete_cond. rewrite Hl. cbn [rbind].
      change (branch_sim pc [if self_comparison op then (branch_target pc offset, a) else (pc + 1, a)]
        (jumps pc offset c (values_hold pc dst dst op (CScalar x) (CScalar x)))).
      destruct (values_tests pc dst dst op (CScalar x) (CScalar x)) as [Hsc' _ _]. rewrite (Hsc' x x eq_refl eq_refl).
      eapply jump_sim; [|done]. left. destruct op; simpl; rewrite ?Z.eqb_refl, ?Z.ltb_irrefl, ?Z.leb_refl; done.
    + apply Hother; [|done]. rewrite Hreg. by destruct x.
  - apply Hother; [|done]. by destruct Hcov.
Qed.

Lemma cond_imm_sim pc dst imm offset op a c succs :
  tied a c -> 0 <= dst -> is_i32 imm ->
  cond_branch_imm pc dst imm offset op a = Ok succs -> branch_sim pc succs (concrete_cond_imm pc dst imm offset op c).
Proof.
  intros Ht Hd Hi Hb. unfold cond_branch_imm in Hb.
  destruct (cond_impl_sim pc dst None (Scalar (bounds_constant imm)) offset op a c succs (CScalar (as_u64 imm)) Ht Hd)
    as (vd & Hl & Hsim); [|by destruct op; simpl; rewrite ?Z.eqb_refl|done|].
  { split; [apply bounds_constant_wf; lia|]. split; [apply bounds_constant_mem; [lia|done]|done]. }
  unfold concrete_cond_imm. rewrite Hl. cbn [rbind]. by apply Hsim, immediate_tests.
Qed.

(** * JSET and the 32-bit jumps *)

Lemma tied_scalar pc a c r b :
  tied a c -> 0 <= r -> read_scalar pc a r = Ok b ->
  exists x, lread pc c r = Ok (CScalar x) /\ bounds_wf b /\ bounds_mem b x /\ 0 <= r < 11 /\ reg a r = Scalar b /\ creg c r = Some (CScalar x).
Proof.
  intros Ht Hr Hb. unfold read_scalar in Hb. apply rbind_ok in Hb as (x & Hx & Hb).
  destruct (tied_read _ _ _ _ _ Ht Hr Hx) as (Hr11 & Hreg & Hw & v & Hc & Hv & Hid & Hl).
  destruct x as [|b0| | | | | | | |]; try done. injection Hb as <-. destruct v as [y| | | |]; try done. by exists y.
Qed.

Lemma verdict_sim pc offset verdict holds a c :
  tied a c -> (forall b, verdict = Some b -> holds = b) ->
  branch_sim pc (branch_or_both pc offset verdict a) (jumps pc offset c (Ok holds)).
Proof.
  intros Ht Hv. eapply jump_sim; [|exact Ht]. unfold branch_or_both. destruct verdict as [[]|].
  - rewrite (Hv true) by done. by left.
  - rewrite (Hv false) by done. by left.
  - destruct holds; simpl; auto.
Qed.

Lemma jset_sim pc dst src offset a c succs :
  tied a c -> 0 <= dst -> 0 <= src ->
  (let? d := read_scalar pc a dst in let? b := read_scalar pc a src in
   Ok (branch_or_both pc offset (jset_verdict d b) a)) = Ok succs ->
  branch_sim pc succs (concrete_jset pc dst src offset c).
Proof.
  intros Ht Hd Hs H. apply rbind_ok in H as (d & Hrd & H). apply rbind_ok in H as (b & Hrb & [= <-]).
  destruct (tied_scalar _ _ _ _ _ Ht Hd Hrd) as (x & Hlx & Hdw & Hdx & _).
  destruct (tied_scalar _ _ _ _ _ Ht Hs Hrb) as (y & Hly & Hbw & Hby & _).
  unfold concrete_jset. rewrite Hlx, Hly. cbn [rbind].
  apply (verdict_sim pc offset (jset_verdict d b) (negb (Z.land x y =? 0)) a c Ht). intros v. by apply jset_verdict_ok.
Qed.

Lemma jset_imm_sim pc dst imm offset a c succs :
  tied a c -> 0 <= dst -> is_i32 imm -> jset_branches pc dst imm offset a = Ok succs ->
  branch_sim pc succs (concrete_jset_imm pc dst imm offset c).
Proof.
  intros Ht Hd Hi H. unfold jset_branches in H. apply rbind_ok in H as (d & Hrd & [= <-]).
  destruct (tied_scalar _ _ _ _ _ Ht Hd Hrd) as (x & Hlx & Hdw & Hdx & Hd11 & Hreg & Hc).
  unfold concrete_jset_imm. rewrite Hlx. cbn [rbind].
  change (Ok (jump pc offset (negb (Z.land x (as_u64 imm) =? 0)) c)) with (jumps pc offset c (Ok (negb (Z.land x (as_u64 imm) =? 0)))).
  assert (Hv : forall b, jset_verdict d (bounds_constant imm) = Some b -> negb (Z.land x (as_u64 imm) =? 0) = b).
  { intros b. apply jset_verdict_ok; try done; [apply bounds_constant_wf; lia|apply bounds_constant_mem; [lia|done]]. }
  destruct (jset_verdict d (bounds_constant imm)) as [[]|].
  - rewrite (Hv true eq_refl). eapply jump_sim; [by left|done].
  - rewrite (Hv false eq_refl). eapply jump_sim; [by left|done].
  - destruct (negb _) eqn:Hz; [eapply jump_sim; [by left|done]|].
    eapply jump_sim; [by right; left|]. unfold jset_not_taken. rewrite Hreg.
    apply negb_false_iff, Z.eqb_eq in Hz. destruct (jset_cleared_ok d imm x Hdw Hi) as [Hw Hm].
    apply (tied_set a c dst _ (CScalar x)); try done; by apply Hm.
Qed.

Lemma jmp32_sim pc dst src imm offset op a c succs :
  tied a c -> 0 <= dst -> match src with Some r => 0 <= r | None => exists i, imm = Some i /\ is_i32 i end ->
  (let? d := read_scalar pc a dst in
   let? b := match src, imm with
             | Some r, _ => read_scalar pc a r
             | None, Some i => Ok (bounds_constant i)
             | None, None => fail pc Panicked
             end in
   Ok (branch_or_both pc offset (jmp32_verdict d b op) a)) = Ok succs ->
  branch_sim pc succs (concrete_jmp32 pc dst src imm offset op c).
Proof.
  intros Ht Hd Hs H. apply rbind_ok in H as (d & Hrd & H). apply rbind_ok in H as (b & Hrb & [= <-]).
  destruct (tied_scalar _ _ _ _ _ Ht Hd Hrd) as (x & Hlx & Hdw & Hdx & _). unfold concrete_jmp32. rewrite Hlx. cbn [rbind].
  assert (Hop : exists y, bounds_wf b /\ bounds_mem b y /\
    match src, imm with
    | Some src, _ => let? v := lread pc c src in match v with CScalar v => Ok (as_u32 v) | _ => cfail (ConcreteFailure.InvalidComparison pc dst src) end
    | None, Some imm => Ok (as_u32 imm)
    | None, None => Err Panic
    end = Ok (as_u32 y)).
  { destruct src as [r|].
    - destruct (tied_scalar _ _ _ _ _ Ht Hs Hrb) as (y & Hly & Hbw & Hby & _). exists y. rewrite Hly. done.
    - destruct Hs as (i & -> & Hi). injection Hrb as <-. exists (as_u64 i).
      split; [apply bounds_constant_wf; lia|]. split; [apply bounds_constant_mem; [lia|done]|]. f_equal. unfold as_u. div_lia. }
  destruct Hop as (y & Hbw & Hby & Hop). rewrite Hop. cbn [rbind].
  apply (verdict_sim pc offset (jmp32_verdict d b op) (jmp32_holds op (as_u32 x) (as_u32 y)) a c Ht). intros v. by apply jmp32_verdict_ok.
Qed.
End identities.

(** * One step *)

(** The instructions the simulation is about, with the conditions under which the
    verifier's result is exact: register arithmetic inside [reg_step_covered],
    loads through the stack or the context, stores inside [store_covered],
    comparisons with an exact fall-through, calls whose offset fits 16 bits. *)
Definition insn_covered (a : VerifierState) (insn : BpfInsn) : Prop :=
  let cond op dst src := src = dst \/ cond_covered op (reg a src) = true in
  match insn with
  | BpfInsn.Jmp _ | BpfInsn.JeqImm _ _ _ | BpfInsn.JneImm _ _ _ | BpfInsn.JgtImm _ _ _ | BpfInsn.JgeImm _ _ _
  | BpfInsn.JltImm _ _ _ | BpfInsn.JleImm _ _ _ | BpfInsn.JsgtImm _ _ _ | BpfInsn.JsgeImm _ _ _
  | BpfInsn.JsltImm _ _ _ | BpfInsn.JsleImm _ _ _ | BpfInsn.Jset _ _ _ | BpfInsn.JsetImm _ _ _
  | BpfInsn.Jmp32 _ _ _ _ _ | BpfInsn.Jeq _ _ _ | BpfInsn.Jne _ _ _ | BpfInsn.Jgt _ _ _ | BpfInsn.Jlt _ _ _
  | BpfInsn.Jle _ _ _ | BpfInsn.Jsgt _ _ _ | BpfInsn.Jslt _ _ _ | BpfInsn.Jsle _ _ _ => True
  | BpfInsn.Jge dst src _ => cond CondOp.Uge dst src
  | BpfInsn.Jsge dst src _ => cond CondOp.Sge dst src
  | BpfInsn.CallSub offset => -32768 <= offset <= 32767
  | BpfInsn.LdMem _ base _ _ _ => load_base (reg a base) = true
  | BpfInsn.StMem src base _ _ => store_covered a base (reg a src)
  | BpfInsn.StMemImm imm base _ _ => store_covered a base (Scalar (bounds_constant imm))
  | BpfInsn.Exit | BpfInsn.Call _ | BpfInsn.CallKfunc _ | BpfInsn.Atomic _ _ _ _ _ _ | BpfInsn.LdAbs _ _
  | BpfInsn.LdInd _ _ _ => False
  | _ => reg_step_covered a insn = true
  end.
(** The signed 32-bit range of a loaded register is not empty. *)
Definition result_ordered (insn : BpfInsn) (a' : VerifierState) : Prop :=
  match insn with BpfInsn.LdMem dst _ _ _ _ => s32_ordered (reg a' dst) = true | _ => True end.

(** The failures of the concrete machine the verifier does not predict. *)
Definition expected_failure (pc : Z) (e : Stop) : Prop :=
  comparison_failure pc e \/ (exists r, e = Failure (ConcreteFailure.PointerArithmetic pc r)) \/
  (exists o, e = Failure (ConcreteFailure.UninitializedStackRead pc o)).
Definition mirrored_by (succs : list successor) (p : csuccessor) : Prop :=
  exists a', In (fst p, a') succs /\ mirrored a' (snd p).
Definition step_sim (pc : Z) (succs : list successor) (r : result Stop (list csuccessor * MapMem)) : Prop :=
  match r with Ok (l, _) => Forall (mirrored_by succs) l | Err e => expected_failure pc e end.

Lemma branch_step base null pc succs r (mem : MapMem) :
  branch_sim base null pc succs r -> step_sim pc succs (let? l := r in Ok (l, mem)).
Proof.
  destruct r as [l|e]; simpl; [|by left]. intros H. apply List.Forall_forall. intros p Hp.
  destruct (H p Hp) as (a' & Hin & Hm & _). by exists a'.
Qed.

Lemma fall_step pc a' r (mem : MapMem) :
  match r with Ok c' => mirrored a' c' | Err e => expected_failure pc e end ->
  step_sim pc [(pc + 1, a')] (let? l := (let? next := r in Ok [(pc + 1, next)]) in Ok (l, mem)).
Proof.
  destruct r as [c'|e]; simpl; [|done]. intros Hm. constructor; [|constructor]. exists a'. split; [by left|done].
Qed.

Lemma reg_step_sim pc insn a a' c :
  mirrored a c -> operands_wf insn = true -> reg_step_covered a insn = true -> step_reg pc a insn = Some (Ok a') ->
  exists res, concrete_step_reg pc c insn = Some res /\
    match res with Ok c' => mirrored a' c' | Err e => e = ConcreteFailure.PointerArithmetic pc (Sim.insn_dst insn) end.
Proof.
  intros Hm Hwf Hcov Hs. pose proof Hm as [[Hd _] _]. destruct (step_reg_covers pc a c insn _ Hd Hwf Hcov Hs) as (res & Hres & Hsim).
  exists res. split; [done|]. specialize (Hsim a' eq_refl). destruct res as [c'|e]; [|by destruct Hsim].
  destruct (step_reg_frame pc a insn a' Hs) as [f Hf]. destruct (concrete_step_reg_frame pc c insn c' Hres) as (Hc1 & Hc2 & Hc3 & Hc4 & Hc5).
  by apply (mirrored_regs a c a' c' f).
Qed.

Lemma reg_successor pc insn a c succs res (mem : MapMem) :
  mirrored a c -> operands_wf insn = true -> reg_step_covered a insn = true ->
  concrete_step_reg pc c insn = Some res -> step_reg pc a insn <> None ->
  (let? next := step pc a insn in Ok [(pc + 1, next)]) = Ok succs ->
  step_sim pc succs (let? l := concrete_fall pc c insn in Ok (l, mem)).
Proof.
  intros Hm Hwf Hcov Hres Hsome Hs. apply rbind_ok in Hs as (a' & Hs & [= <-]). unfold step in Hs.
  destruct (step_reg pc a insn) as [r|] eqn:Hr; [|done]. subst r.
  destruct (reg_step_sim pc insn a a' c Hm Hwf Hcov Hr) as (res' & Hres' & Hsim). unfold concrete_fall. apply fall_step.
  unfold concrete_step. rewrite Hres'. destruct res' as [c'|e]; [done|]. subst e. right. left. by eexists.
Qed.

Lemma map_load_step pc dst v offset_reg a' c (mem : MapMem) :
  match concrete_load pc c dst v with Ok c' => mirrored a' c' | Err e => e = ConcreteFailure.PointerArithmetic pc offset_reg end ->
  step_sim pc [(pc + 1, a')] (let? l := indexed dst (Ok [(pc + 1, set_creg dst v c)]) in Ok (l, mem)).
Proof.
  unfold concrete_load, check_concrete_reg, indexed. destruct (NUM_REGS <=? dst); [done|]. intros Hm.
  constructor; [|constructor]. exists a'. split; [by left|done].
Qed.

Lemma load_not_map a c base : mirrored a c -> 0 <= base < 11 -> load_base (reg a base) = true -> is_map_ptr (creg c base) = false.
Proof.
  intros Hm Hb Hl. destruct (mirrored_reg a c base Hm Hb) as [_ Hv]. destruct (creg c base) as [v|]; [|done].
  by destruct (reg a base), v.
Qed.
Lemma store_base a base r : store_covered a base r -> load_base (reg a base) = true.
Proof. unfold store_covered. by destruct (reg a base). Qed.

Lemma indexed_low {A} r (k : result Stop A) : r < 11 -> indexed r k = k.
Proof. intros Hr. unfold indexed. by destruct (Z.leb_spec NUM_REGS r); [lia|]. Qed.

Lemma call_sub_step pc offset a c succs (mem : MapMem) :
  mirrored a c -> -32768 <= offset <= 32767 ->
  (let? callee := call_sub pc a in Ok [(branch_target pc (as_i16 offset), callee)]) = Ok succs ->
  step_sim pc succs
    (let? l := (let? callee := lift (ccall_subprog c (pc + 1)) in Ok [(as_u32 (as_i32 pc + 1 + offset), callee)]) in Ok (l, mem)).
Proof.
  intros Hm Ho H. apply rbind_ok in H as (a' & Hc & [= <-]). unfold call_sub in Hc.
  destruct (call_subprog a (pc + 1)) as [next|] eqn:Hcs; [|done]. injection Hc as <-.
  destruct (mirrored_call a c (pc + 1) next Hm Hcs) as (c' & -> & Hm'). simpl. constructor; [|constructor].
  exists next. split; [left|done]. simpl. unfold branch_target. do 3 f_equal. unfold as_i. case_tests; div_lia.
Qed.

(** A load or a store that falls through to the memory arm. *)
Lemma memory_step pc insn base a a' c r (mem : MapMem) other :
  mirrored a c -> 0 <= base < 11 -> load_base (reg a base) = true -> concrete_step pc c insn = r ->
  match r with Ok c' => mirrored a' c' | Err e => expected_failure pc e end ->
  step_sim pc [(pc + 1, a')]
    (indexed base (if is_map_ptr (creg c base) then other else let? l := concrete_fall pc c insn in Ok (l, mem))).
Proof.
  intros Hm Hb Hl Hr Hsim. rewrite indexed_low, (load_not_map a c base) by (done || lia).
  unfold concrete_fall. rewrite Hr. by apply fall_step.
Qed.

Lemma load_step pc dst base offset size sx a c succs (mem : MapMem) other :
  mirrored a c -> state_typed a -> 0 <= dst -> 0 <= base -> base < 11 -> -32768 <= offset <= 32767 ->
  load_base (reg a base) = true ->
  (let? next := step pc a (BpfInsn.LdMem dst base offset size sx) in Ok [(pc + 1, next)]) = Ok succs ->
  Forall (fun p => s32_ordered (reg (snd p) dst) = true) succs ->
  step_sim pc succs (indexed base (if is_map_ptr (creg c base) then other
    else let? l := concrete_fall pc c (BpfInsn.LdMem dst base offset size sx) in Ok (l, mem))).
Proof.
  intros Hm Ht Hd Hb Hb11 Ho Hl H Hord. apply rbind_ok in H as (a' & Hld & [= <-]). apply Forall_cons in Hord as [Hord _].
  eapply memory_step; try done. change (concrete_step pc c _) with (concrete_ld_mem pc c dst base offset size sx).
  pose proof (loads_mirror pc a a' c dst base offset size sx Hm Ht Hd Hb Ho Hl Hld Hord) as Hsim.
  destruct (concrete_ld_mem _ _ _ _ _ _ _) as [c'|e]; [done|]. right. right. exact Hsim.
Qed.

Lemma store_step pc insn src imm base offset size value a c succs (mem : MapMem) r :
  mirrored a c -> state_typed a -> 0 <= base -> -32768 <= offset <= 32767 -> store_source c src imm value ->
  store_covered a base (source_reg a src imm) -> step pc a insn = stack_write pc base a offset size src imm ->
  concrete_step pc c insn = concrete_store pc c base offset size value ->
  (let? next := step pc a insn in Ok [(pc + 1, next)]) = Ok succs ->
  r = (let? l := concrete_fall pc c insn in Ok (l, mem)) -> step_sim pc succs r.
Proof.
  intros Hm Ht Hb Ho Hsrc Hcov Hstep Hcs H ->. rewrite Hstep in H. apply rbind_ok in H as (a' & Hw & [= <-]).
  destruct (stores_mirror pc a a' c base offset size src imm value Hm Ht Hb Ho Hsrc Hcov Hw) as (c' & Hc & Hm').
  unfold concrete_fall. rewrite Hcs, Hc. by apply (fall_step pc a' (Ok c')).
Qed.

(** Fields of well-formed instructions. *)
Lemma load_fields dst base offset size sx :
  operands_wf (BpfInsn.LdMem dst base offset size sx) = true ->
  0 <= dst /\ 0 <= base /\ base < 11 /\ -32768 <= offset <= 32767.
Proof.
  cbn [operands_wf]. unfold insn_wf. cbn [encode_fields insn_shape].
  destruct size, sx; try done; rewrite ?andb_true_iff, ?in_range_iff; lia.
Qed.
Lemma jmp32_fields dst src imm offset op :
  operands_wf (BpfInsn.Jmp32 dst src imm offset op) = true ->
  0 <= dst /\ match src with Some r => 0 <= r | None => exists i, imm = Some i /\ is_i32 i end.
Proof.
  cbn [operands_wf]. unfold insn_wf. cbn [encode_fields insn_shape].
  destruct src as [r|], imm as [i|]; rewrite ?andb_true_iff, ?in_range_iff; intros H.
  - lia.
  - lia.
  - split; [lia|]. exists i. split; [done|lia].
  - done.
Qed.

Lemma map_fd_step pc insn dst v a c succs (mem : MapMem) r :
  mirrored a c -> operands_wf insn = true -> reg_step_covered a insn = true -> step_reg pc a insn <> None ->
  concrete_step_reg pc c insn = Some (concrete_load pc c dst v) ->
  (let? next := step pc a insn in Ok [(pc + 1, next)]) = Ok succs ->
  r = (let? l := indexed dst (Ok [(pc + 1, set_creg dst v c)]) in Ok (l, mem)) -> step_sim pc succs r.
Proof.
  intros Hm Hwf Hcov Hsome Hres Hs ->. apply rbind_ok in Hs as (a' & Hs & [= <-]). unfold step in Hs.
  destruct (step_reg pc a insn) as [x|] eqn:Hr; [|done]. subst x.
  destruct (reg_step_sim pc insn a a' c Hm Hwf Hcov Hr) as (res & Hres' & Hsim). rewrite Hres in Hres'. injection Hres' as <-.
  by eapply map_load_step.
Qed.

Ltac same_registers Hwf :=
  cbn [operands_wf] in Hwf; unfold insn_wf in Hwf; cbn [encode_fields insn_shape] in Hwf;
  rewrite ?andb_true_iff, ?in_range_iff, ?Z.leb_le in Hwf.

(** Proved for any identities; the property below. *)
Lemma one_step base null pc insn a c maps mem succs :
  tied base null a c -> state_typed a -> operands_wf insn = true -> insn_covered a insn ->
  successors pc insn a = Ok succs -> Forall (fun p => result_ordered insn (snd p)) succs ->
  step_sim pc succs (concrete_successors pc insn c maps mem).
Proof.
  intros Ht Hty Hwf Hcov Hs Hord. pose proof Ht as [Hm _].
  destruct insn; try contradiction Hcov; cbn [successors insn_covered] in Hs, Hcov; cbn [concrete_successors];
    try (match goal with |- step_sim _ _ (let? _ := concrete_fall _ _ _ in _) =>
      solve [eapply (reg_successor pc); [exact Hm|exact Hwf|exact Hcov|reflexivity|discriminate|exact Hs]] end).
  all: match goal with
  | |- step_sim _ _ (let? _ := concrete_cond _ _ _ _ _ _ in _) => same_registers Hwf;
      apply (branch_step base null); eapply cond_sim; [exact Ht|lia|lia| |exact Hs];
      first [exact Hcov|right; by match goal with |- cond_covered _ ?r = _ => destruct r end]
  | |- step_sim _ _ (let? _ := concrete_cond_imm _ _ _ _ _ _ in _) => same_registers Hwf;
      apply (branch_step base null); eapply cond_imm_sim; [exact Ht|lia|lia|exact Hs]
  | |- step_sim _ _ (let? _ := concrete_jset _ _ _ _ _ in _) => same_registers Hwf;
      apply (branch_step base null); eapply jset_sim; [exact Ht|lia|lia|exact Hs]
  | |- step_sim _ _ (let? _ := concrete_jset_imm _ _ _ _ _ in _) => same_registers Hwf;
      apply (branch_step base null); eapply jset_imm_sim; [exact Ht|lia|lia|exact Hs]
  | |- step_sim _ _ (let? _ := concrete_jmp32 _ _ _ _ _ _ _ in _) => apply jmp32_fields in Hwf as [Hd Hsrc];
      apply (branch_step base null); eapply jmp32_sim; [exact Ht|exact Hd|exact Hsrc|exact Hs]
  | |- context [BpfInsn.LdMem _ _ _ _ _] => apply load_fields in Hwf as (Hd & Hb & Hb11 & Ho);
      by apply (load_step pc _ _ _ _ _ a)
  | |- context [MapPtr _ _ _] => by eapply (map_fd_step pc _ _ _ a)
  | |- step_sim _ _ (let? _ := (let? _ := lift _ in _) in _) => by eapply call_sub_step
  | _ => idtac
  end.
  - same_registers Hwf. rewrite indexed_low, (load_not_map a c) by (first [done|lia|by eapply store_base]).
    apply (store_step pc (BpfInsn.StMem src base0 offset size) (Some src) None base0 offset size
             (if NUM_REGS <=? src then Err Panic else Ok (creg c src)) a c succs mem); try done; try lia. split; [lia|done].
  - same_registers Hwf.
    apply (store_step pc (BpfInsn.StMemImm imm base0 offset size) None (Some imm) base0 offset size
             (Ok (Some (CScalar (as_u64 imm)))) a c succs mem); try done; try lia.
    exists imm. split; [done|]. split; [lia|done].
  - injection Hs as <-. constructor; [|constructor]. exists a. split; [by left|done].
Qed.

(** * Initial states *)

Lemma initial_tied base null p : tied base null (initial_with p) (cinitial_with p).
Proof.
  split; [apply mirrored_initial|]. intros r v [rn w Hr Hc|slot x w Hs _ Hsp _].
  - assert (Hrn : rn = 0 \/ rn = 1 \/ rn = 2 \/ rn = 3 \/ rn = 4 \/ rn = 5 \/ rn = 6 \/ rn = 7 \/ rn = 8 \/ rn = 9 \/ rn = 10) by lia.
    by repeat (destruct Hrn as [->|Hrn]; [exact I|]); subst.
  - cbn [initial_with stack stack_new spilled] in Hsp. by rewrite lookup_total_replicate_2 in Hsp.
Qed.

Lemma tied_set_both base null a c dst r v :
  tied base null a c -> 0 <= dst < 11 -> reg_wf r -> value_in r v -> identity_in base null r v ->
  tied base null (set_reg dst r a) (set_creg dst v c).
Proof.
  intros [Hm Hl] Hd Hw Hv Hi. split; [by apply mirrored_set|]. intros r' v' [rn w Hr Hc|slot x w Hs Hf Hsp Hc].
  - pose proof Hm as [[(Hla & Hlc & _) _] _]. unfold creg, set_creg in Hc. simpl in Hc.
    unfold reg, set_reg, set_regs. simpl. rewrite lookup_total_insert in Hc by lia. rewrite lookup_total_insert by lia.
    destruct (Z.eqb_spec dst rn) as [->|]; [by injection Hc as <-|]. apply Hl. by constructor.
  - apply Hl. by eapply (in_slot a c slot).
Qed.

(** * Properties *)

Definition branching : VerifierState := set_reg 6 (Scalar (bounds_from_signed 0 10)) initial.
Definition cbranching : ConcreteState := set_creg 6 (CScalar 7) (cinitial_with ProgType.SocketFilter).
Lemma branching_tied base null : tied base null branching cbranching.
Proof.
  destruct (from_signed_mem 0 10 7) as [Hw Hm]; [lia..|]. apply tied_set_both; [apply initial_tied|lia|exact Hw| |done].
  apply Hm. change (as_i64 7) with 7. lia.
Qed.

Lemma branching_typed : state_typed branching.
Proof. apply set_reg_typed; [apply initial_typed|done]. Qed.

(** R6 is 7 in [0, 10] and R7 is 10 in [5, 20]. *)
Definition comparing : VerifierState := set_reg 7 (Scalar (bounds_from_signed 5 20)) branching.
Definition ccomparing : ConcreteState := set_creg 7 (CScalar 10) cbranching.
Lemma comparing_tied base null : tied base null comparing ccomparing.
Proof.
  destruct (from_signed_mem 5 20 10) as [Hw Hm]; [lia..|]. apply tied_set_both; [apply branching_tied|lia|exact Hw| |done].
  apply Hm. change (as_i64 10) with 10. lia.
Qed.

(** The computed fall-through of [r6 >= r7] describes R6 as [0, 4]. *)
Lemma ge_fallthrough_escapes : exists succs, cond_branch 3 6 7 2 CondOp.Uge comparing = Ok succs /\
  concrete_cond 3 6 7 2 CondOp.Uge ccomparing = Ok [(4, ccomparing)] /\
  forall a', In (4, a') succs -> ~ mirrored a' ccomparing.
Proof.
  destruct (cond_branch 3 6 7 2 CondOp.Uge comparing) as [succs|e] eqn:Hs; [|vm_compute in Hs; discriminate Hs].
  exists succs. split; [done|]. split; [by vm_compute|]. intros a' Hin Hm.
  destruct (pair_in a' ccomparing (reg a' 6) (CScalar 7) Hm) as [_ Hv]; [by apply in_register; [lia|]|].
  assert (Hr : Forall (fun p => match reg (snd p) 6 with
                                | Scalar b => (fst p =? 4) && (umax b <? 7) || negb (fst p =? 4)
                                | _ => false end = true) succs).
  { vm_compute in Hs. injection Hs as <-. by repeat constructor. }
  rewrite List.Forall_forall in Hr. specialize (Hr _ Hin). cbn [fst snd] in Hr.
  destruct (reg a' 6) as [|b| | | | | | | |]; try discriminate Hr. cbn [value_in] in Hv.
  destruct Hv as [(_ & _ & Hu & _) _]. change (4 =? 4) with true in Hr. cbn [andb negb] in Hr. rewrite orb_false_r in Hr.
  apply Z.ltb_lt in Hr. unfold within in Hu. cbn in Hu. lia.
Qed.



(** C4: each of the ten comparisons, against a register or an immediate, keeps the
    machines in step through the refinement of the operands, of every scalar linked
    to them and of every nullable pointer of the same identity: where the concrete
    machine goes, a computed successor describes it and still has true identities;
    or the concrete machine refuses the comparison (two pointers that only compare
    for equality).  Not covered: JSET and JMP32 (they refine nothing that is linked),
    and a register [>=], signed or not, against a scalar of more than one value in
    another register ([cond_covered]); that comparison is not simulated, as the last
    clause shows. *)
Theorem branches_simulate (base : Z -> Z) (null : Z -> bool) (pc dst src imm offset : Z) (op : CondOp) (a : VerifierState)
    (c : ConcreteState) (succs : list successor) :
  tied base null a c -> 0 <= dst -> 0 <= src -> is_i32 imm ->
  ((src = dst \/ cond_covered op (reg a src) = true) -> cond_branch pc dst src offset op a = Ok succs ->
   branch_sim base null pc succs (concrete_cond pc dst src offset op c)) /\
  (cond_branch_imm pc dst imm offset op a = Ok succs ->
   branch_sim base null pc succs (concrete_cond_imm pc dst imm offset op c)) /\
  (exists a c succs, tied base null a c /\ cond_branch 3 6 7 2 CondOp.Uge a = Ok succs /\
     ~ branch_sim base null 3 succs (concrete_cond 3 6 7 2 CondOp.Uge c)).
Proof.
  intros Ht Hd Hs Hi. split; [by apply cond_sim|]. split; [by apply cond_imm_sim|].
  destruct ge_fallthrough_escapes as (succs' & H1 & H2 & H3). exists comparing, ccomparing, succs'.
  split; [apply comparing_tied|]. split; [done|]. rewrite H2. intros H.
  destruct (H (4, ccomparing)) as (a' & Hin & Hm & _); [by left|]. by apply (H3 a').
Qed.

(** The result of a lookup against null: the null side is a zero in every copy. *)
Definition looked_up : VerifierState :=
  set_reg 7 (PtrToMapValueOrNull 8 5) (set_reg 6 (PtrToMapValueOrNull 8 5) initial).
Definition clooked_up : ConcreteState :=
  set_creg 7 (CScalar 0) (set_creg 6 (CScalar 0) (cinitial_with ProgType.SocketFilter)).
Lemma branches_simulate_witness :
  exists a', cond_branch_imm 3 6 0 2 CondOp.Ne looked_up = Ok [(4, a'); (6, set_reg 6 (PtrToMapValue 0 0 0 8 5)
      (map_values (map_value_valid 5) looked_up))] /\
    reg a' 7 = Scalar (bounds_constant 0) /\ concrete_cond_imm 3 6 0 2 CondOp.Ne clooked_up = Ok [(4, clooked_up)] /\
    mirrored a' clooked_up.
Proof.
  assert (Ht : tied (fun _ => 0) (fun _ => true) looked_up clooked_up).
  { apply tied_set_both; [apply tied_set_both; [apply initial_tied|..]|..]; first [reflexivity|lia|done]. }
  destruct (cond_branch_imm 3 6 0 2 CondOp.Ne looked_up) as [succs|e] eqn:Hs; [|discriminate Hs].
  destruct (branches_simulate (fun _ => 0) (fun _ => true) 3 6 0 0 2 CondOp.Ne looked_up clooked_up succs Ht
    ltac:(lia) ltac:(lia) ltac:(lia)) as (_ & H & _). specialize (H Hs).
  destruct (H (4, clooked_up) (or_introl eq_refl)) as (a' & Hin & Hm & _). injection Hs as <-.
  destruct Hin as [Hin|[Hin|[]]]; [|discriminate Hin]. exists a'. injection Hin as <-.
  split; [reflexivity|]. split; [reflexivity|]. split; [reflexivity|exact Hm].
Defined.

(** Both machines leave a subprogram: the same stack-pointer check and return
    address, and results that describe each other. *)
Definition exits_alike (a : VerifierState) (c : ConcreteState) : Prop :=
  0 < ccurframe c /\ ret_pc a = cret_pc c /\ is_stack_value (creg c 0) = is_stack_ptr (reg a 0) /\
  mirrored (returned_state a) (creturned_state c).

(** The exit of a subprogram keeps the machines in step: both return to the same
    program counter, into frames and stacks that describe each other, and the
    initial states of a run describe each other too. *)
Theorem returns_simulate (a : VerifierState) (c : ConcreteState) (p : ProgType) :
  mirrored (initial_with p) (cinitial_with p) /\
  (mirrored a c -> 0 < curframe a -> exits_alike a c).
Proof.
  split; [apply mirrored_initial|]. intros Hm Hf. pose proof Hm as [(_ & Hc & Hr & _) _].
  split; [lia|]. split; [done|]. split.
  - destruct (mirrored_reg a c 0 Hm ltac:(lia)) as [_ Hv]. destruct (creg c 0) as [v|]; [|simpl in Hv; by rewrite Hv].
    by destruct (reg a 0), v.
  - destruct (mirrored_return a c Hm Hf) as (a' & c' & Ha & Hc' & Hm'). unfold returned_state, creturned_state.
    by rewrite Ha, Hc'.
Qed.

Lemma returns_simulate_witness :
  exists a' c', call_subprog initial 5 = Ok a' /\ ccall_subprog (cinitial_with ProgType.SocketFilter) 5 = Ok c' /\
    mirrored (returned_state a') (creturned_state c').
Proof.
  destruct (returns_simulate initial (cinitial_with ProgType.SocketFilter) ProgType.SocketFilter) as [Hi _].
  destruct (call_subprog initial 5) as [a'|] eqn:Ha; [|discriminate Ha].
  destruct (mirrored_call _ _ 5 a' Hi Ha) as (c' & Hc & Hm). exists a', c'. split; [reflexivity|]. split; [exact Hc|].
  apply (returns_simulate a' c' ProgType.SocketFilter); [exact Hm|]. injection Ha as <-. reflexivity.
Defined.
