(* ===== verification/SpecRange.v ===== *)
(** The value model of the independent safety specification (src/src/spec/value.rs
    and the interval part of src/src/spec/runner.rs): one wrapping interval of
    unsigned words per scalar, its arithmetic, and the refinement of the two sides
    of a comparison.  The theorems compare it with the exact word operations of
    [Alu]; the inputs for which a result is lost are closed theorems. *)
From Stdlib Require Import ZArith Lia List Bool Btauto.
From stdpp Require Import base list.
From S2P Require Import Prelude Tnum Insn Alu.
Open Scope Z_scope.

(** * Values *)

Module SpecValue.
Inductive SpecValue :=
| Uninit
| Scalar (lo hi : Z)
| PtrToStack (lo hi : Z)
| PtrToCtx (off : Z)
| PtrToMap (key_size value_size map_type : Z)
| PtrToMapValue (lo hi size : Z)
| PtrToMapValueOrNull (size id : Z)
| PtrToMem (lo hi size id : Z)
| PtrToMemOrNull (size id : Z).

Definition unknown_scalar : SpecValue := Scalar 0 U64_MAX.
Definition const_scalar (v : Z) : SpecValue := Scalar v v.
Definition is_scalar (v : SpecValue) : bool := match v with Scalar _ _ => true | _ => false end.
Definition as_scalar (v : SpecValue) : option (Z * Z) := match v with Scalar lo hi => Some (lo, hi) | _ => None end.
Definition is_pointer (v : SpecValue) : bool :=
  match v with
  | PtrToStack _ _ | PtrToCtx _ | PtrToMap _ _ _ | PtrToMapValue _ _ _ | PtrToMapValueOrNull _ _
  | PtrToMem _ _ _ _ | PtrToMemOrNull _ _ => true
  | _ => false
  end.
End SpecValue.
Abbreviation SpecValue := SpecValue.SpecValue.
#[global] Instance spec_value_eq_dec : EqDecision SpecValue.
Proof. solve_decision. Defined.
#[global] Instance spec_value_inhabited : Inhabited SpecValue := populate SpecValue.Uninit.

Definition Range : Type := Z * Z.
Definition FULL : Range := (0, U64_MAX).

#[global] Instance range_abstraction : Abstraction Range := {
  abs_wf r := 0 <= fst r /\ fst r <= snd r /\ snd r <= U64_MAX;
  gamma r v := is_u64 v /\ fst r <= v <= snd r;
  gamma_u64 _ _ H := proj1 H
}.

(** * Interval arithmetic *)

Definition rng_add (a b : Range) : Range :=
  let lo := fst a + fst b in
  let hi := snd a + snd b in
  if Z.shiftr lo 64 =? Z.shiftr hi 64 then (as_u64 lo, as_u64 hi) else FULL.

Definition rng_sub (a b : Range) : Range :=
  let lo := fst a - snd b in
  let hi := snd a - fst b in
  let span := hi - lo in
  if span <? Z.shiftl 1 64 then
    let folded_lo := as_u64 (lo mod Z.shiftl 1 64) in
    let folded_hi := folded_lo + span in
    if folded_hi <? Z.shiftl 1 64 then (folded_lo, as_u64 folded_hi) else FULL
  else FULL.

Definition rng_and (a b : Range) : Range := (0, Z.min (snd a) (snd b)).
Definition rng_or (a b : Range) : Range := (Z.max (fst a) (fst b), U64_MAX).
Definition rng_xor (_ _ : Range) : Range := FULL.

Definition rng_lsh (a : Range) (k : Z) : Range :=
  if k =? 0 then a
  else if 64 <=? k then (0, 0)
  else if Z.shiftr (fst a) (64 - k) =? Z.shiftr (snd a) (64 - k)
  then (as_u64 (Z.shiftl (fst a) k), as_u64 (Z.shiftl (snd a) k))
  else FULL.
Definition rng_rsh (a : Range) (k : Z) : Range :=
  if 64 <=? k then (0, 0) else (Z.shiftr (fst a) k, Z.shiftr (snd a) k).
Definition rng_arsh (a : Range) (k : Z) : Range :=
  if 64 <=? k then if as_i64 (fst a) <? 0 then (U64_MAX, U64_MAX) else (0, 0)
  else (as_u64 (Z.shiftr (as_i64 (fst a)) k), as_u64 (Z.shiftr (as_i64 (snd a)) k)).
Definition rng_mul (a b : Range) : Range :=
  if (fst a =? snd a) && (fst b =? snd b) then let v := wmul 64 (fst a) (fst b) in (v, v) else FULL.

Definition truncate32 (x : Z) : Z := Z.land x 0xFFFFFFFF.
Definition range32 (a : Range) : Range :=
  if Z.shiftr (fst a) 32 =? Z.shiftr (snd a) 32 then (truncate32 (fst a), truncate32 (snd a)) else (0, U32_MAX).

(** The signed view of an interval that does not straddle the sign bit. *)
Definition as_signed (a : Range) : option (Z * Z) :=
  if (snd a <? Z.shiftl 1 63) || (Z.shiftl 1 63 <=? fst a) then Some (as_i64 (fst a), as_i64 (snd a)) else None.

(** * The ALU of the specification *)

Module Op.
Inductive Op := Add | Sub | And | Or | Xor | Lsh | Rsh | Arsh | Mul | Div | Mod | Neg.
(** The operation of the machine it stands for. *)
Definition alu (op : Op) : AluOp :=
  match op with
  | Add => Alu.Add | Sub => Alu.Sub | And => Alu.And | Or => Alu.Or | Xor => Alu.Xor | Lsh => Alu.Lsh
  | Rsh => Alu.Rsh | Arsh => Alu.Arsh | Mul => Alu.Mul | Div => Alu.Div | Mod => Alu.Mod | Neg => Alu.Neg
  end.
End Op.
Abbreviation Op := Op.Op.
#[global] Instance spec_op_eq_dec : EqDecision Op.
Proof. solve_decision. Defined.

(** Two constants. *)
Definition fold_const (op : Op) (a b : Z) : Z :=
  match op with
  | Op.Add => wadd 64 a b
  | Op.Sub => wsub 64 a b
  | Op.And => Z.land a b
  | Op.Or => Z.lor a b
  | Op.Xor => Z.lxor a b
  | Op.Mul => wmul 64 a b
  | Op.Div => if b =? 0 then 0 else a / b
  | Op.Mod => if b =? 0 then a else a mod b
  | Op.Neg => wsub 64 0 a
  | Op.Lsh => if 64 <=? b then 0 else as_u64 (Z.shiftl a b)
  | Op.Rsh => if 64 <=? b then 0 else Z.shiftr a b
  | Op.Arsh => if 64 <=? b then as_u64 (Z.shiftr (as_i64 a) 63) else as_u64 (Z.shiftr (as_i64 a) b)
  end.

(** A shift by an amount that is not a constant below 64 is unknown. *)
Definition shift_range (f : Range -> Z -> Range) (d s : Range) : Range :=
  if negb (fst s =? snd s) || (64 <=? fst s) then FULL else f d (fst s).

Definition alu_range (op : Op) (d s : Range) : Range :=
  if (fst d =? snd d) && (fst s =? snd s) then let v := fold_const op (fst d) (fst s) in (v, v)
  else
    match op with
    | Op.Add => rng_add d s
    | Op.Sub => rng_sub d s
    | Op.And => rng_and d s
    | Op.Or => rng_or d s
    | Op.Xor => rng_xor d s
    | Op.Lsh => shift_range rng_lsh d s
    | Op.Rsh => shift_range rng_rsh d s
    | Op.Arsh => shift_range rng_arsh d s
    | Op.Mul => rng_mul d s
    | Op.Div => if fst s =? 0 then FULL else (fst d / Z.max (snd s) 1, snd d / fst s)
    | Op.Mod => if fst s =? 0 then FULL else (0, snd s - 1)
    | Op.Neg => FULL
    end.

(** The 32-bit operation on the 32-bit views of two scalars. *)
Definition alu_range32 (op : Op) (d s : Range) : Range :=
  let out := alu_range op (range32 d) (range32 s) in
  if snd out <=? U32_MAX then out
  else
    match op with
    | Op.Add | Op.Sub => if fst out =? snd out then (as_u32 (fst out), as_u32 (fst out)) else (0, U32_MAX)
    | _ => out
    end.

Definition negate_scalar (v : SpecValue) : SpecValue :=
  match SpecValue.as_scalar v with
  | None => v
  | Some r =>
      match as_signed r with
      | None => SpecValue.unknown_scalar
      | Some (slo, shi) => SpecValue.Scalar (as_u64 (as_i64 (- shi))) (as_u64 (as_i64 (- slo)))
      end
  end.

(** * Comparisons *)

Module Cmp.
Inductive Cmp := Eq | Ne | Lt | Le | Gt | Ge.
Definition negate (c : Cmp) : Cmp :=
  match c with Eq => Ne | Ne => Eq | Lt => Ge | Ge => Lt | Gt => Le | Le => Gt end.
(** The comparison of two numbers. *)
Definition holds (c : Cmp) (x y : Z) : bool :=
  match c with
  | Eq => x =? y | Ne => negb (x =? y) | Lt => x <? y | Le => x <=? y | Gt => y <? x | Ge => y <=? x
  end.
End Cmp.
Abbreviation Cmp := Cmp.Cmp.
#[global] Instance spec_cmp_eq_dec : EqDecision Cmp.
Proof. solve_decision. Defined.

(** The intervals of each side: (taken, fall through). *)
Definition sides : Type := list Range * list Range.

Definition self_compare_refine (c : Cmp) : sides :=
  match c with
  | Cmp.Eq | Cmp.Le | Cmp.Ge => ([FULL], [])
  | Cmp.Ne | Cmp.Lt | Cmp.Gt => ([], [FULL])
  end.

Definition take_unsigned (d s : Range) (c : Cmp) : list Range :=
  match c with
  | Cmp.Eq =>
      let lo := Z.max (fst d) (fst s) in
      let hi := Z.min (snd d) (snd s) in
      if lo <=? hi then [(lo, hi)] else []
  | Cmp.Ne =>
      if (fst s <=? fst d) && (snd d <=? snd s) then []
      else
        (if fst d <? fst s then [(fst d, Z.min (snd d) (fst s - 1))] else []) ++
        (if snd s <? snd d then [(snd s + 1, snd d)] else [])
  | Cmp.Lt =>
      if (fst s =? 0) || (snd s <? fst d) then []
      else let hi := Z.min (snd d) (snd s - 1) in if fst d <=? hi then [(fst d, hi)] else []
  | Cmp.Le => if snd s <? fst d then [] else [(fst d, Z.min (snd d) (snd s))]
  | Cmp.Gt => if (fst s =? U64_MAX) || (snd d <=? fst s) then [] else [(Z.max (fst d) (fst s + 1), snd d)]
  | Cmp.Ge => if snd d <? fst s then [] else [(Z.max (fst d) (fst s), snd d)]
  end.
Definition unsigned_cmp_refine (d s : Range) (c : Cmp) : sides :=
  (take_unsigned d s c, take_unsigned d s (Cmp.negate c)).

Definition take_signed (dlo dhi slo shi : Z) (c : Cmp) : list Range :=
  match c with
  | Cmp.Eq =>
      let lo := Z.max dlo slo in
      let hi := Z.min dhi shi in
      if lo <=? hi then [(as_u64 lo, as_u64 hi)] else []
  | Cmp.Ne =>
      if (slo <=? dlo) && (dhi <=? shi) then []
      else
        (if dlo <? slo then [(as_u64 dlo, as_u64 (Z.min dhi (slo - 1)))] else []) ++
        (if shi <? dhi then [(as_u64 (shi + 1), as_u64 dhi)] else [])
  | Cmp.Lt =>
      if (shi <? dlo) || (shi =? I64_MIN) then []
      else let hi := Z.min dhi (shi - 1) in if dlo <=? hi then [(as_u64 dlo, as_u64 hi)] else []
  | Cmp.Le => if shi <? dlo then [] else [(as_u64 dlo, as_u64 (Z.min dhi shi))]
  | Cmp.Gt => if (dhi <=? slo) || (slo =? I64_MAX) then [] else [(as_u64 (Z.max dlo (slo + 1)), as_u64 dhi)]
  | Cmp.Ge => if dhi <? slo then [] else [(as_u64 (Z.max dlo slo), as_u64 dhi)]
  end.
Definition signed_cmp_refine (d s : Range) (c : Cmp) : sides :=
  match as_signed d, as_signed s with
  | Some (dlo, dhi), Some (slo, shi) =>
      (take_signed dlo dhi slo shi c, take_signed dlo dhi slo shi (Cmp.negate c))
  | _, _ => ([d], [d])
  end.

(** * Accesses *)

Definition aligned_across (lo hi align : Z) : bool :=
  if lo =? hi then lo mod align =? 0
  else (lo mod align =? 0) && (hi mod align =? 0) && (Z.rem (hi - lo) align =? 0).
Definition width_max (bytes : Z) : Z := if 8 <=? bytes then U64_MAX else Z.shiftl 1 (bytes * 8) - 1.
Definition size_bytes (size : MemSize) : Z :=
  match size with MemSize.B => 1 | MemSize.H => 2 | MemSize.W => 4 | MemSize.DW => 8 end.
Definition apply_sign (v bytes : Z) (sign_extend : bool) : Z :=
  if negb sign_extend then v
  else if bytes =? 1 then as_u64 (as_i8 v)
  else if bytes =? 2 then as_u64 (as_i16 v)
  else if bytes =? 4 then as_u64 (as_i32 v)
  else v.

(** * Soundness of the interval arithmetic *)

(** Membership and order of a range, as arithmetic. *)
Ltac range_facts :=
  repeat match goal with
  | H : @abs_wf _ range_abstraction _ |- _ => destruct H as (? & ? & ?)
  | H : @gamma _ range_abstraction _ _ |- _ => destruct H as [? ?]
  end; cbn [abs_wf gamma range_abstraction fst snd] in *.

Lemma full_wf : abs_wf FULL.
Proof. cbn. lia. Qed.
Lemma full_mem x : is_u64 x -> x ∈γ FULL.
Proof. intros. cbn. lia. Qed.
Create HintDb ranges.
#[export] Hint Resolve full_wf full_mem : ranges.

Lemma const_wf v : is_u64 v -> abs_wf ((v, v) : Range).
Proof. intros. cbn. lia. Qed.
Lemma const_mem v : is_u64 v -> v ∈γ ((v, v) : Range).
Proof. intros. cbn. lia. Qed.
Lemma in_const (a : Range) x : fst a = snd a -> x ∈γ a -> x = fst a.
Proof. intros. range_facts. lia. Qed.

Lemma shiftr_64 x : Z.shiftr x 64 = x / 2 ^ 64.
Proof. by rewrite Z.shiftr_div_pow2. Qed.

Lemma rng_add_ok : sound2 rng_add (wadd 64).
Proof.
  intros [a0 a1] [b0 b1] Ha Hb. unfold rng_add, wadd. rewrite !shiftr_64. range_facts.
  destruct (Z.eqb_spec ((a0 + b0) / 2 ^ 64) ((a1 + b1) / 2 ^ 64)).
  - split; [cbn; unfold as_u; div_lia|]. intros x y Hx Hy. range_facts. cbn. unfold as_u. div_lia.
  - split; [apply full_wf|]. intros x y _ _. apply full_mem, as_u64_range.
Qed.

Lemma rng_sub_ok : sound2 rng_sub (wsub 64).
Proof.
  intros [a0 a1] [b0 b1] Ha Hb. unfold rng_sub, wsub. change (Z.shiftl 1 64) with (2 ^ 64). range_facts. rewrite (as_u64_id ((a0 - b1) mod 2 ^ 64)) by div_lia.
  destruct (Z.ltb_spec (a1 - b0 - (a0 - b1)) (2 ^ 64)); [destruct (Z.ltb_spec ((a0 - b1) mod 2 ^ 64 + (a1 - b0 - (a0 - b1))) (2 ^ 64))|].
  - split; [cbn; unfold as_u; div_lia|]. intros x y Hx Hy. range_facts. cbn. unfold as_u. div_lia.
  - split; [apply full_wf|]. intros x y _ _. apply full_mem, as_u64_range.
  - split; [apply full_wf|]. intros x y _ _. apply full_mem, as_u64_range.
Qed.

Lemma rng_and_ok : sound2 rng_and Z.land.
Proof.
  intros [a0 a1] [b0 b1] Ha Hb. unfold rng_and. range_facts. split; [cbn; lia|]. intros x y Hx Hy. range_facts.
  pose proof (land_bounds x y ltac:(lia) ltac:(lia)). cbn. lia.
Qed.
Lemma rng_or_ok : sound2 rng_or Z.lor.
Proof.
  intros [a0 a1] [b0 b1] Ha Hb. unfold rng_or. range_facts. split; [cbn; lia|]. intros x y Hx Hy. range_facts.
  pose proof (lor_bounds x y ltac:(lia) ltac:(lia)). pose proof (lor_u64 x y). cbn. lia.
Qed.
Lemma rng_xor_ok : sound2 rng_xor Z.lxor.
Proof. intros a b Ha Hb. split; [apply full_wf|]. intros x y [Hx _] [Hy _]. by apply full_mem, lxor_u64. Qed.
Lemma rng_mul_ok : sound2 rng_mul (wmul 64).
Proof.
  intros a b Ha Hb. unfold rng_mul. destruct (_ && _) eqn:Hc.
  - apply andb_true_iff in Hc as [Hca%Z.eqb_eq Hcb%Z.eqb_eq]. split; [apply const_wf, as_u64_range|].
    intros x y Hx Hy. rewrite (in_const a x), (in_const b y) by done. apply const_mem, as_u64_range.
  - split; [apply full_wf|]. intros. apply full_mem, as_u64_range.
Qed.

(** Shifts by a constant below the width. *)
Lemma rng_rsh_ok k : 0 <= k < 64 -> sound1 (fun a => rng_rsh a k) (fun x => Z.shiftr x k).
Proof.
  intros Hk [z z0] Ha. unfold rng_rsh. rewrite (proj2 (Z.leb_gt 64 k)) by lia. range_facts.
  assert (Hs : forall x, is_u64 x -> is_u64 (Z.shiftr x k)) by (intros; apply shiftr_u64; lia).
  pose proof (Hs z ltac:(lia)). pose proof (Hs z0 ltac:(lia)).
  split; [pose proof (shiftr_mono z z0 k); cbn; lia|]. intros x Hx. range_facts.
  pose proof (shiftr_mono z x k). pose proof (shiftr_mono x z0 k). pose proof (Hs x). cbn. lia.
Qed.
Lemma rng_lsh_ok k : 0 <= k < 64 -> sound1 (fun a => rng_lsh a k) (fun x => as_u64 (Z.shiftl x k)).
Proof.
  intros Hk a Ha. unfold rng_lsh. destruct (Z.eqb_spec k 0) as [->|].
  { split; [done|]. intros x Hx. pose proof (gamma_u64 a x Hx). by rewrite Z.shiftl_0_r, as_u64_id by lia. }
  rewrite (proj2 (Z.leb_gt 64 k)) by lia. destruct (Z.eqb_spec (Z.shiftr (fst a) (64 - k)) (Z.shiftr (snd a) (64 - k))) as [He|].
  2: { split; [apply full_wf|]. intros. apply full_mem, as_u64_range. }
  assert (Hm : forall x y, is_u64 x -> is_u64 y -> x <= y -> Z.shiftr x (64 - k) = Z.shiftr y (64 - k) ->
    as_u64 (Z.shiftl x k) <= as_u64 (Z.shiftl y k)).
  { intros x y Hx Hy Hle Heq. rewrite !Z.shiftr_div_pow2 in Heq by lia. rewrite !Z.shiftl_mul_pow2 by lia. unfold as_u.
    assert (Hp : 2 ^ 64 = 2 ^ (64 - k) * 2 ^ k) by (rewrite <- Z.pow_add_r by lia; f_equal; lia).
    rewrite Hp, !Zmult_mod_distr_r.
    apply Z.mul_le_mono_nonneg_r; [lia|].
    pose proof (Z.div_mod x (2 ^ (64 - k)) ltac:(lia)). pose proof (Z.div_mod y (2 ^ (64 - k)) ltac:(lia)). nia. }
  assert (Hb : forall x, x ∈γ a -> Z.shiftr x (64 - k) = Z.shiftr (fst a) (64 - k)).
  { intros x [Hx Hr]. pose proof (shiftr_mono (fst a) x (64 - k)). pose proof (shiftr_mono x (snd a) (64 - k)). lia. }
  destruct a as [lo hi]. cbn [fst snd] in *. destruct Ha as (Ha0 & Ha1 & Ha2). cbn [fst snd] in *.
  pose proof (as_u64_range (Z.shiftl lo k)). pose proof (as_u64_range (Z.shiftl hi k)).
  split; [pose proof (Hm lo hi ltac:(lia) ltac:(lia) Ha1 He); cbn; lia|].
  intros x Hx. pose proof (Hb x Hx) as Hxe. destruct Hx as [Hxu [Hxl Hxh]]. cbn [fst snd] in *.
  pose proof (Hm lo x ltac:(lia) Hxu Hxl ltac:(by symmetry)). pose proof (Hm x hi Hxu ltac:(lia) Hxh ltac:(by rewrite Hxe)).
  pose proof (as_u64_range (Z.shiftl x k)). cbn. lia.
Qed.

(** The arithmetic shift is monotone on unsigned words too. *)
Lemma arsh_mono x y k : is_u64 x -> is_u64 y -> 0 <= k < 64 -> x <= y ->
  as_u64 (Z.shiftr (as_i64 x) k) <= as_u64 (Z.shiftr (as_i64 y) k).
Proof.
  intros Hx Hy Hk Hle. pose proof (as_i64_range x). pose proof (as_i64_range y).
  pose proof (shiftr_i64 (as_i64 x) k ltac:(lia) ltac:(lia)). pose proof (shiftr_i64 (as_i64 y) k ltac:(lia) ltac:(lia)).
  destruct (Z.le_gt_cases x I64_MAX), (Z.le_gt_cases y I64_MAX); try lia.
  - rewrite !as_i64_nonneg in * by lia. pose proof (shiftr_mono x y k). pose proof (shiftr_shrinks x k). pose proof (shiftr_shrinks y k).
    rewrite !as_u64_nonneg by lia. lia.
  - rewrite (as_i64_nonneg x), (as_i64_neg y) in * by lia. pose proof (shiftr_shrinks x k).
    pose proof (shiftr_negative (y - 2 ^ 64) k (2 ^ 63)). rewrite as_u64_nonneg, as_u64_neg by lia. lia.
  - rewrite !as_i64_neg in * by lia. pose proof (shiftr_mono (x - 2 ^ 64) (y - 2 ^ 64) k).
    pose proof (shiftr_negative (x - 2 ^ 64) k (2 ^ 63)). pose proof (shiftr_negative (y - 2 ^ 64) k (2 ^ 63)).
    rewrite !as_u64_neg by lia. lia.
Qed.
Lemma rng_arsh_ok k : 0 <= k < 64 -> sound1 (fun a => rng_arsh a k) (fun x => as_u64 (Z.shiftr (as_i64 x) k)).
Proof.
  intros Hk [z z0] Ha. unfold rng_arsh. rewrite (proj2 (Z.leb_gt 64 k)) by lia. range_facts.
  pose proof (as_u64_range (Z.shiftr (as_i64 z) k)). pose proof (as_u64_range (Z.shiftr (as_i64 z0) k)).
  split; [pose proof (arsh_mono z z0 k); cbn; lia|]. intros x Hx. range_facts.
  pose proof (as_u64_range (Z.shiftr (as_i64 x) k)). pose proof (arsh_mono z x k). pose proof (arsh_mono x z0 k). cbn. lia.
Qed.

Lemma truncate32_as x : truncate32 x = as_u32 x.
Proof. unfold truncate32. change 0xFFFFFFFF with (Z.ones 32). by apply Z.land_ones. Qed.
Lemma range32_ok : sound1 range32 as_u32.
Proof.
  intros [z z0] Ha. unfold range32. rewrite !truncate32_as, !Z.shiftr_div_pow2 by lia. range_facts.
  destruct (Z.eqb_spec (z / 2 ^ 32) (z0 / 2 ^ 32)).
  - split; [cbn; unfold as_u; div_lia|]. intros x Hx. range_facts. cbn. unfold as_u. div_lia.
  - split; [cbn; lia|]. intros x Hx. range_facts. cbn. unfold as_u. div_lia.
Qed.
Lemma range32_u32 a : abs_wf a -> snd (range32 a) <= U32_MAX.
Proof.
  intros Ha. unfold range32. rewrite !truncate32_as. destruct (_ =? _); cbn [snd]; [|lia]. pose proof (as_u32_range (snd a)). lia.
Qed.

(** * Soundness of the ALU *)

(** The amounts of constant shifts the fold computes like the machine. *)
Definition amount_ok (op : Op) (d s : Range) : bool :=
  negb (is_shift (Op.alu op)) || negb (fst d =? snd d) || negb (fst s =? snd s) || (fst s <? 64).

Lemma fold_const_ok op x y :
  is_u64 x -> is_u64 y -> is_shift (Op.alu op) = false \/ y < 64 -> fold_const op x y = alu_const64 (Op.alu op) x y.
Proof.
  intros Hx Hy H. assert (Hs : is_shift (Op.alu op) = true -> Z.land (as_u32 y) 63 = y /\ Z.land y 63 = y /\ (64 <=? y) = false).
  { intros Hop. destruct H as [H|H]; [congruence|]. rewrite as_u32_id, land_63 by lia. split_and!; [done|done|lia]. }
  destruct op; try done; destruct (Hs eq_refl) as (H1 & H2 & H3); cbn [fold_const alu_const64 Op.alu]; by rewrite H3, ?H1, ?H2.
Qed.

Lemma shift_range_ok f op d s x y :
  abs_wf d -> abs_wf s -> x ∈γ d -> y ∈γ s ->
  (forall k, 0 <= k < 64 -> sound1 (fun a => f a k) (fun v => alu_const64 op v k)) ->
  abs_wf (shift_range f d s) /\ (is_u64 (alu_const64 op x y) -> alu_const64 op x y ∈γ shift_range f d s).
Proof.
  intros Hd Hs Hx Hy Hf. unfold shift_range. destruct (_ || _) eqn:Hc; [split; [apply full_wf|apply full_mem]|].
  bool_hyps. pose proof (in_const s y ltac:(done) Hy) as ->. destruct s as [s0 s1]. cbn [fst snd] in *.
  destruct Hs as (Hs0 & _ & _). cbn [fst snd] in *. destruct (Hf s0 ltac:(lia) d Hd) as [Hw Hm]. split; [done|]. intros _. by apply Hm.
Qed.

Lemma alu_range_ok op d s x y :
  abs_wf d -> abs_wf s -> x ∈γ d -> y ∈γ s ->
  abs_wf (alu_range op d s) /\ (amount_ok op d s = true -> alu_const64 (Op.alu op) x y ∈γ alu_range op d s).
Proof.
  intros Hd Hs Hx Hy. pose proof (gamma_u64 d x Hx) as Hxu. pose proof (gamma_u64 s y Hy) as Hyu.
  pose proof (alu_const64_u64 (Op.alu op) x y Hxu Hyu) as Hru. unfold alu_range.
  destruct ((fst d =? snd d) && (fst s =? snd s)) eqn:Hc.
  { apply andb_true_iff in Hc as [Hcd%Z.eqb_eq Hcs%Z.eqb_eq]. pose proof (in_const d x Hcd Hx) as Hxd. pose proof (in_const s y Hcs Hy) as Hys.
    assert (Hfu : is_u64 (fold_const op (fst d) (fst s))).
    { rewrite <- Hxd, <- Hys. destruct (is_shift (Op.alu op)) eqn:Hsh.
      - destruct (Z.ltb_spec y 64); [rewrite fold_const_ok by tauto; done|].
        destruct op; try discriminate Hsh; cbn [fold_const]; rewrite (proj2 (Z.leb_le _ _)) by lia; try lia. apply as_u64_range.
      - rewrite fold_const_ok by tauto. done. }
    split; [by apply const_wf|]. unfold amount_ok. rewrite <- Hcd, <- Hcs, !Z.eqb_refl, <- Hxd, <- Hys in *. cbn [negb]. rewrite !orb_false_r.
    intros Ha. rewrite <- fold_const_ok; [by apply const_mem|done|done|].
    destruct (is_shift (Op.alu op)); [right|by left]. simpl in Ha. lia. }
  assert (Hbin : forall F, sound2 F (alu_const64 (Op.alu op)) -> abs_wf (F d s) /\ (amount_ok op d s = true -> alu_const64 (Op.alu op) x y ∈γ F d s)).
  { intros F HF. destruct (HF d s Hd Hs) as [Hw Hm]. split; [done|]. intros _. by apply Hm. }
  assert (Hfull : abs_wf FULL /\ (amount_ok op d s = true -> alu_const64 (Op.alu op) x y ∈γ FULL)).
  { split; [apply full_wf|]. intros _. by apply full_mem. }
  assert (Hsh : forall f, (forall k, 0 <= k < 64 -> sound1 (fun a => f a k) (fun v => alu_const64 (Op.alu op) v k)) ->
    abs_wf (shift_range f d s) /\ (amount_ok op d s = true -> alu_const64 (Op.alu op) x y ∈γ shift_range f d s)).
  { intros f Hf. destruct (shift_range_ok f (Op.alu op) d s x y Hd Hs Hx Hy Hf) as [Hw Hm]. split; [done|]. intros _. by apply Hm. }
  destruct op; cbn [Op.alu] in *.
  - apply Hbin, rng_add_ok.
  - apply Hbin, rng_sub_ok.
  - apply Hbin, rng_and_ok.
  - apply Hbin, rng_or_ok.
  - apply Hbin, rng_xor_ok.
  - apply Hsh. intros k Hk a Ha. cbn [alu_const64]. rewrite as_u32_id, land_63 by lia. by apply rng_lsh_ok.
  - apply Hsh. intros k Hk a Ha. cbn [alu_const64]. rewrite as_u32_id, land_63 by lia. by apply rng_rsh_ok.
  - apply Hsh. intros k Hk a Ha. cbn [alu_const64]. rewrite land_63 by lia. by apply rng_arsh_ok.
  - apply Hbin, rng_mul_ok.
  - destruct (Z.eqb_spec (fst s) 0); [exact Hfull|]. destruct d as [d0 d1], s as [s0 s1]. cbn [alu_const64] in *. range_facts.
    rewrite (proj2 (Z.eqb_neq y 0)) in * by lia. rewrite Z.max_l by lia.
    pose proof (Z.div_le_compat_l x d0 y). assert (d0 / s1 <= x / y) by (etrans; [apply Z.div_le_compat_l|apply Z.div_le_mono]; lia).
    assert (x / y <= d1 / s0) by (etrans; [apply Z.div_le_mono|apply Z.div_le_compat_l]; lia).
    assert (d0 / s1 <= d1 / s0) by lia. assert (0 <= d0 / s1) by (apply Z.div_pos; lia).
    assert (d1 / s0 <= d1) by (apply Z.div_le_upper_bound; nia). split; [lia|]. intros _. lia.
  - destruct (Z.eqb_spec (fst s) 0); [exact Hfull|]. destruct d as [d0 d1], s as [s0 s1]. cbn [alu_const64] in *. range_facts.
    rewrite (proj2 (Z.eqb_neq y 0)) in * by lia. pose proof (Z.mod_pos_bound x y ltac:(lia)). split; [lia|]. intros _. lia.
  - exact Hfull.
Qed.

(** The 32-bit operations whose 64-bit computation is right: no result above the
    width and, for a shift, an amount below it. *)
Definition is_full (r : Range) : bool := (fst r =? 0) && (snd r =? U64_MAX).
Definition alu32_fits (op : Op) (d s : Range) : bool :=
  let d := range32 d in
  let s := range32 s in
  let out := alu_range op d s in
  match op with
  | Op.Mul | Op.Neg => is_full out || (snd out <=? U32_MAX)
  | Op.Lsh => is_full out || ((snd out <=? U32_MAX) && (snd s <? 32))
  | Op.Rsh => is_full out || (snd s <? 32)
  | Op.Arsh => is_full out || ((snd s <? 32) && (snd d <=? I32_MAX))
  | _ => true
  end.

Lemma is_full_mem r x : is_full r = true -> is_u64 x -> x ∈γ r.
Proof. unfold is_full. rewrite andb_true_iff, !Z.eqb_eq. destruct r as [lo hi]. cbn. lia. Qed.

(** The 64-bit result on 32-bit operands. *)
Lemma const32_same op x y :
  is_u32 x -> is_u32 y ->
  match op with
  | Alu.Add | Alu.Mul | Alu.Neg | Alu.Sub => alu_const64 op x y <= U32_MAX
  | Alu.Lsh => alu_const64 op x y <= U32_MAX /\ y < 32
  | Alu.Rsh => y < 32
  | Alu.Arsh => y < 32 /\ x <= I32_MAX
  | _ => True
  end -> alu_const32 op x y = alu_const64 op x y.
Proof.
  intros Hx Hy H. unfold alu_const32. rewrite (as_u32_id x), (as_u32_id y) by lia.
  assert (Hmod : forall v, as_u64 v <= U32_MAX -> as_u32 v = as_u64 v).
  { intros v Hv. unfold as_u in *. pose proof (Z.mod_pos_bound v (2 ^ 64) ltac:(lia)). div_lia. }
  destruct op; cbn [alu_const64] in *; try done; unfold wadd, wsub, wmul in *; try (by apply Hmod).
  - destruct H as [H Hy32]. rewrite (as_u32_id y), land_63 in * by lia. rewrite land_31 by lia. by apply Hmod.
  - rewrite (as_u32_id y), land_63, land_31 by lia. done.
  - destruct H as [Hy32 Hx31]. rewrite land_63, land_31 by lia. pose proof (shiftr_shrinks x y ltac:(lia) ltac:(lia)).
    unfold as_i. rewrite !Z.mod_small by lia. rewrite (proj2 (Z.ltb_lt x (2 ^ (32 - 1)))) by lia.
    rewrite (proj2 (Z.ltb_lt x (2 ^ (64 - 1)))) by lia. unfold as_u. rewrite !Z.mod_small by lia. done.
Qed.

Lemma u32_bounds_wf lo hi : 0 <= lo -> lo <= hi -> hi <= U32_MAX -> abs_wf ((lo, hi) : Range).
Proof. intros. cbn. lia. Qed.

Lemma in_range32 a x : abs_wf a -> x ∈γ a -> is_u32 (as_u32 x) /\ as_u32 x ∈γ range32 a /\ abs_wf (range32 a).
Proof. intros Ha Hx. destruct (range32_ok a Ha) as [Hw Hm]. split; [apply as_u32_range|]. split; [by apply Hm|done]. Qed.

Definition needs_width (op : Op) : bool := match op with Op.Mul | Op.Neg | Op.Lsh => true | _ => false end.

(** The high end decides what a result above the width becomes. *)
Lemma alu_range32_ok op d s x y :
  abs_wf d -> abs_wf s -> x ∈γ d -> y ∈γ s ->
  abs_wf (alu_range32 op d s) /\ (alu32_fits op d s = true -> alu_const32 (Op.alu op) x y ∈γ alu_range32 op d s).
Proof.
  intros Hd Hs Hx Hy. destruct (in_range32 d x Hd Hx) as (Hx32 & Hxm & Hdw). destruct (in_range32 s y Hs Hy) as (Hy32 & Hym & Hsw).
  assert (Hsame : alu_const32 (Op.alu op) x y = alu_const32 (Op.alu op) (as_u32 x) (as_u32 y)).
  { unfold alu_const32. by rewrite !as_u_idem. }
  rewrite Hsame. clear Hsame. pose proof (alu_const32_u32 (Op.alu op) (as_u32 x) (as_u32 y)) as Hru.
  destruct (alu_range_ok op _ _ _ _ Hdw Hsw Hxm Hym) as [Hw Hm]. unfold alu_range32.
  assert (Hfit : alu32_fits op d s = true -> is_full (alu_range op (range32 d) (range32 s)) = true \/
    (amount_ok op (range32 d) (range32 s) = true /\
     (snd (alu_range op (range32 d) (range32 s)) <= U32_MAX \/ needs_width op = false) /\
     (is_shift (Op.alu op) = true -> as_u32 y < 32) /\ (op = Op.Arsh -> as_u32 x <= I32_MAX))).
  { intros Hf. revert Hf. unfold alu32_fits, amount_ok. set (d' := range32 d) in *. set (s' := range32 s) in *.
    pose proof (proj2 Hym) as [? ?]. pose proof (proj2 Hxm) as [? ?].
    destruct op; cbn [Op.alu is_shift negb orb]; intros Hf; try (right; split_and!; [done|by right|done|done]).
    - apply orb_true_iff in Hf as [Hf|Hf]; [by left|right]. bool_hyps. split_and!; [|left; lia|lia|done].
      rewrite (proj2 (Z.ltb_lt _ _)) by lia. by rewrite orb_true_r.
    - apply orb_true_iff in Hf as [Hf|Hf]; [by left|right]. bool_hyps. split_and!; [|by right|lia|done].
      rewrite (proj2 (Z.ltb_lt _ _)) by lia. by rewrite orb_true_r.
    - apply orb_true_iff in Hf as [Hf|Hf]; [by left|right]. bool_hyps. split_and!; [|by right|lia|lia].
      rewrite (proj2 (Z.ltb_lt _ _)) by lia. by rewrite orb_true_r.
    - apply orb_true_iff in Hf as [Hf|Hf]; [by left|right]. bool_hyps. split_and!; [done|left; lia|done|done].
    - apply orb_true_iff in Hf as [Hf|Hf]; [by left|right]. bool_hyps. split_and!; [done|left; lia|done|done]. }
  set (out := alu_range op (range32 d) (range32 s)) in *.
  assert (Hmem : alu32_fits op d s = true -> snd out <= U32_MAX \/ (op <> Op.Add /\ op <> Op.Sub) -> alu_const32 (Op.alu op) (as_u32 x) (as_u32 y) ∈γ out).
  { intros Hf Hor. destruct (Hfit Hf) as [Hfull|(Ha & Hs' & Hlt & Har)]; [apply (is_full_mem _ _ Hfull); lia|]. specialize (Hm Ha).
    rewrite const32_same; [done|done|done|]. pose proof Hm as [_ [_ Hhi]].
    clear Hm Hw Hdw Hsw Hxm Hym Hfit Hru. assert (Hlow : needs_width op = true \/ op = Op.Add \/ op = Op.Sub -> snd out <= U32_MAX).
    { intros [Hn|Hn]; [destruct Hs'; [done|congruence]|]. destruct Hor as [|[? ?]]; [done|]. by destruct Hn. }
    destruct op; cbn [Op.alu is_shift needs_width] in *; first
      [ exact I | split; [specialize (Hlow ltac:(auto)); lia|by apply Hlt] | by apply Hlt
      | split; [by apply Hlt|by apply Har] | specialize (Hlow ltac:(auto)); lia ]. }
  destruct (Z.leb_spec (snd out) U32_MAX) as [Hle|Hgt].
  { split; [done|]. intros Hf. apply Hmem; [done|by left]. }
  assert (Hother : op <> Op.Add -> op <> Op.Sub -> abs_wf out /\ (alu32_fits op d s = true -> alu_const32 (Op.alu op) (as_u32 x) (as_u32 y) ∈γ out)).
  { intros H1 H2. split; [done|]. intros Hf. apply Hmem; [done|by right]. }
  assert (Hwrap : op = Op.Add \/ op = Op.Sub ->
    let r := if fst out =? snd out then (as_u32 (fst out), as_u32 (fst out)) else (0, U32_MAX) in
    abs_wf r /\ (alu32_fits op d s = true -> alu_const32 (Op.alu op) (as_u32 x) (as_u32 y) ∈γ r)).
  { intros Hop. cbn zeta. pose proof (as_u32_range (fst out)). destruct (Z.eqb_spec (fst out) (snd out)) as [Hc|].
    - split; [cbn; lia|]. intros Hf.
      assert (Ha : amount_ok op (range32 d) (range32 s) = true) by (by destruct Hop as [-> | ->]). specialize (Hm Ha).
      pose proof (in_const out _ Hc Hm) as Hv. rewrite <- Hv. replace (alu_const32 _ _ _) with (as_u32 (alu_const64 (Op.alu op) (as_u32 x) (as_u32 y))).
      { apply const_mem. pose proof (as_u32_range (alu_const64 (Op.alu op) (as_u32 x) (as_u32 y))). lia. }
      unfold alu_const32. rewrite !as_u_idem. destruct Hop as [-> | ->]; cbn [Op.alu alu_const64]; unfold wadd, wsub, as_u; div_lia.
    - split; [cbn; lia|]. intros _. cbn. lia. }
  destruct op; try (apply Hother; done); apply Hwrap; tauto.
Qed.

(** * Soundness and exactness of the comparisons *)

(** [!=] drops every value of the other interval although only one of them is
    there, and [<] tests the lower end of the other interval for zero: both are
    right for a constant. *)
Definition unsigned_covered (c : Cmp) (s : Range) : bool :=
  match c with
  | Cmp.Ne => fst s =? snd s
  | Cmp.Lt => (fst s =? snd s) || negb (fst s =? 0)
  | _ => true
  end.
Definition signed_covered_by (c : Cmp) (s : Range) : bool :=
  match c with Cmp.Ne => fst s =? snd s | _ => true end.

(** The sides that add no value: [!=] against an interval below the first operand
    extends it downwards. *)
Definition tight (c : Cmp) (d s : Range) : bool :=
  match c with Cmp.Ne => fst d <=? snd s + 1 | _ => true end.

(** The intervals [l] of one side keep every word of the first operand for which the
    comparison can hold; and they hold no other. *)
Definition keeps_all (view : Z -> Z) (c : Cmp) (d s : Range) (l : list Range) : Prop :=
  forall x y, x ∈γ d -> y ∈γ s -> Cmp.holds c (view x) (view y) = true -> exists r, In r l /\ x ∈γ r.
Definition keeps_only (view : Z -> Z) (c : Cmp) (d s : Range) (l : list Range) : Prop :=
  Forall abs_wf l /\
  forall r x, In r l -> x ∈γ r -> x ∈γ d /\ exists y, y ∈γ s /\ Cmp.holds c (view x) (view y) = true.

Lemma keeps_only_nil view c d s : keeps_only view c d s [].
Proof. split; [constructor|]. intros r x []. Qed.
Lemma keeps_only_one view c d s (r : Range) (y : Z) :
  abs_wf r -> y ∈γ s -> (forall x, x ∈γ r -> x ∈γ d /\ Cmp.holds c (view x) (view y) = true) -> keeps_only view c d s [r].
Proof.
  intros Hw Hy H. split; [by constructor|]. intros r' x [<-|[]] Hx. destruct (H x Hx). split; [done|]. by exists y.
Qed.
Lemma keeps_only_app view c d s l l' :
  keeps_only view c d s l -> keeps_only view c d s l' -> keeps_only view c d s (l ++ l').
Proof.
  intros [Hw H] [Hw' H']. split; [by apply Forall_app|]. intros r x [Hr|Hr]%in_app_iff; [by apply H|by apply H'].
Qed.

Ltac interval := cbn [abs_wf gamma range_abstraction fst snd Cmp.holds] in *; lia.

(** Case on the tests of a goal with the interval facts at hand. *)
Ltac one_range := eexists; split; [by left|interval].

Lemma take_unsigned_keeps d s c :
  abs_wf d -> abs_wf s -> unsigned_covered c s = true -> keeps_all (fun x => x) c d s (take_unsigned d s c).
Proof.
  intros Hd Hs Hc x y Hx Hy Hh. destruct d as [d0 d1], s as [s0 s1]. unfold take_unsigned. cbn [fst snd].
  destruct c; cbn [unsigned_covered fst snd] in Hc; cbn [Cmp.holds] in Hh; bool_hyps.
  - destruct (Z.leb_spec (Z.max d0 s0) (Z.min d1 s1)); [one_range|interval].
  - destruct ((s0 <=? d0) && (d1 <=? s1)) eqn:Hin; [bool_hyps; interval|]. destruct (Z.lt_ge_cases x s0) as [Hlt|Hge].
    + exists (d0, Z.min d1 (s0 - 1)). rewrite (proj2 (Z.ltb_lt d0 s0)) by interval. split; [by left|]. interval.
    + exists (s1 + 1, d1). split; [|interval]. apply in_app_iff. right. rewrite (proj2 (Z.ltb_lt s1 d1)) by interval. by left.
  - destruct (Z.eqb_spec s0 0), (Z.ltb_spec s1 d0); cbn [orb negb] in *;
      try (destruct Hc as [Hc|Hc]; [apply Z.eqb_eq in Hc|discriminate Hc]); try interval.
    destruct (Z.leb_spec d0 (Z.min d1 (s1 - 1))); [one_range|interval].
  - destruct (Z.ltb_spec s1 d0); [interval|one_range].
  - destruct (Z.eqb_spec s0 U64_MAX), (Z.leb_spec d1 s0); cbn [orb]; try interval. one_range.
  - destruct (Z.ltb_spec d1 s0); [interval|one_range].
Qed.

Lemma take_unsigned_only d s c :
  abs_wf d -> abs_wf s -> tight c d s = true -> keeps_only (fun x => x) c d s (take_unsigned d s c).
Proof.
  intros Hd Hs Ht. destruct d as [d0 d1], s as [s0 s1]. unfold take_unsigned, tight in *. cbn [fst snd] in *. destruct c.
  - destruct (Z.leb_spec (Z.max d0 s0) (Z.min d1 s1)); [|apply keeps_only_nil]. split; [constructor; [interval|constructor]|].
    intros r x [<-|[]] Hx. split; [interval|]. exists x. interval.
  - apply Z.leb_le in Ht. destruct (_ && _); [apply keeps_only_nil|]. apply keeps_only_app.
    + destruct (Z.ltb_spec d0 s0); [|apply keeps_only_nil]. apply (keeps_only_one _ _ _ _ _ s0); [interval|interval|].
      intros x Hx. cbn [Cmp.holds]. rewrite (proj2 (Z.eqb_neq x s0)) by interval. interval.
    + destruct (Z.ltb_spec s1 d1); [|apply keeps_only_nil]. apply (keeps_only_one _ _ _ _ _ s1); [interval|interval|].
      intros x Hx. cbn [Cmp.holds]. rewrite (proj2 (Z.eqb_neq x s1)) by interval. interval.
  - destruct (_ || _); [apply keeps_only_nil|]. destruct (Z.leb_spec d0 (Z.min d1 (s1 - 1))); [|apply keeps_only_nil].
    apply (keeps_only_one _ _ _ _ _ s1); [interval|interval|]. intros x Hx. interval.
  - destruct (Z.ltb_spec s1 d0); [apply keeps_only_nil|]. apply (keeps_only_one _ _ _ _ _ s1); [interval|interval|]. intros x Hx. interval.
  - destruct (Z.eqb_spec s0 U64_MAX), (Z.leb_spec d1 s0); cbn [orb]; try apply keeps_only_nil.
    apply (keeps_only_one _ _ _ _ _ s0); [interval|interval|]. intros x Hx. interval.
  - destruct (Z.ltb_spec d1 s0); [apply keeps_only_nil|]. apply (keeps_only_one _ _ _ _ _ s0); [interval|interval|]. intros x Hx. interval.
Qed.

(** ** The signed view *)

(** An interval of signed numbers of one sign. *)
Definition one_sign (lo hi : Z) : Prop := is_i64 lo /\ is_i64 hi /\ lo <= hi /\ (0 <= lo \/ hi < 0).

Lemma signed_wf lo hi : one_sign lo hi -> abs_wf ((as_u64 lo, as_u64 hi) : Range).
Proof. intros (Hl & Hh & Hle & Hs). cbn. unfold as_u. div_lia. Qed.
Lemma signed_mem lo hi x : one_sign lo hi -> x ∈γ ((as_u64 lo, as_u64 hi) : Range) <-> is_u64 x /\ lo <= as_i64 x <= hi.
Proof.
  intros (Hl & Hh & Hle & Hs). cbn. unfold as_i, as_u. split; intros [Hx Hr]; (split; [done|]); revert Hr; case_tests; div_lia.
Qed.
Lemma as_signed_some r lo hi : abs_wf r -> as_signed r = Some (lo, hi) ->
  one_sign lo hi /\ r = (as_u64 lo, as_u64 hi).
Proof.
  intros Hr. unfold as_signed. change (Z.shiftl 1 63) with (2 ^ 63). destruct r as [r0 r1]. cbn [fst snd].
  destruct (_ || _) eqn:Hc; [|done]. intros [= <- <-]. pose proof (as_i64_range r0). pose proof (as_i64_range r1).
  rewrite !as_u64_as_i64 by interval. split; [|done]. unfold one_sign. unfold as_i in *. bool_hyps.
  destruct Hc as [Hc|Hc]; bool_hyps; revert H H0; case_tests; intros; cbn in Hr; div_lia.
Qed.

Lemma take_signed_keeps dlo dhi slo shi c :
  one_sign dlo dhi -> one_sign slo shi -> signed_covered_by c (slo, shi) = true -> (c = Cmp.Ne -> dlo <= slo <= dhi) ->
  keeps_all as_i64 c (as_u64 dlo, as_u64 dhi) (as_u64 slo, as_u64 shi) (take_signed dlo dhi slo shi c).
Proof.
  intros Hd Hs Hc Hne x y Hx Hy Hh. rewrite signed_mem in Hx, Hy by done. destruct Hx as [Hxu Hx], Hy as [Hyu Hy].
  assert (Hone : forall lo hi, one_sign lo hi -> lo <= as_i64 x <= hi -> exists r, In r [(as_u64 lo, as_u64 hi)] /\ x ∈γ (r : Range)).
  { intros lo hi Hlh Hr. eexists. split; [by left|]. by apply signed_mem. }
  pose proof Hd as (Hdl & Hdh & Hdle & Hds). pose proof Hs as (Hsl & Hsh & Hsle & Hss). unfold take_signed.
  destruct c; cbn [signed_covered_by fst snd] in Hc; cbn [Cmp.holds] in Hh; bool_hyps.
  - rewrite (proj2 (Z.leb_le _ _)) by lia. apply Hone; unfold one_sign; lia.
  - specialize (Hne eq_refl). destruct ((slo <=? dlo) && (dhi <=? shi)) eqn:Hin; [bool_hyps; lia|].
    destruct (Z.lt_ge_cases (as_i64 x) slo) as [Hlt|Hge].
    + exists (as_u64 dlo, as_u64 (Z.min dhi (slo - 1))). rewrite (proj2 (Z.ltb_lt dlo slo)) by lia. split; [by left|].
      apply signed_mem; unfold one_sign; lia.
    + exists (as_u64 (shi + 1), as_u64 dhi). rewrite (proj2 (Z.ltb_lt shi dhi)) by lia. split; [apply in_app_iff; right; by left|].
      apply signed_mem; unfold one_sign; lia.
  - destruct (Z.ltb_spec shi dlo), (Z.eqb_spec shi I64_MIN); cbn [orb]; try lia. rewrite (proj2 (Z.leb_le _ _)) by lia.
    apply Hone; unfold one_sign; lia.
  - rewrite (proj2 (Z.ltb_ge _ _)) by lia. apply Hone; unfold one_sign; lia.
  - destruct (Z.leb_spec dhi slo), (Z.eqb_spec slo I64_MAX); cbn [orb]; try lia. apply Hone; unfold one_sign; lia.
  - rewrite (proj2 (Z.ltb_ge _ _)) by lia. apply Hone; unfold one_sign; lia.
Qed.

(** The orderings: the signed comparisons of the machine. *)
Definition is_ordering (c : Cmp) : bool := match c with Cmp.Eq | Cmp.Ne => false | _ => true end.

Lemma holds_negate c x y : Cmp.holds (Cmp.negate c) x y = negb (Cmp.holds c x y).
Proof. destruct c; cbn; rewrite ?negb_involutive; try done; lia. Qed.

Lemma signed_side d s c :
  abs_wf d -> abs_wf s -> is_ordering c = true ->
  let sides := signed_cmp_refine d s c in
  keeps_all as_i64 c d s (fst sides) /\ keeps_all as_i64 (Cmp.negate c) d s (snd sides).
Proof.
  intros Hd Hs Hc. unfold signed_cmp_refine.
  assert (Hopen : forall c', keeps_all as_i64 c' d s [d]) by (intros c' x y Hx _ _; exists d; split; [by left|done]).
  destruct (as_signed d) as [[dlo dhi]|] eqn:Hds; [|by split]. destruct (as_signed s) as [[slo shi]|] eqn:Hss; [|by split].
  destruct (as_signed_some d dlo dhi Hd Hds) as [Hod ->]. destruct (as_signed_some s slo shi Hs Hss) as [Hos ->].
  cbn [fst snd]. split; apply take_signed_keeps; try done; by destruct c.
Qed.

(** * Properties *)

(** The interval arithmetic of the specification: every operation keeps the
    representation invariant and contains the exact result of the machine, for two
    words of the operands, with 64 bits unless it folds a shift by 64 or more, and
    with 32 bits unless a product, a negation or a shift leaves the low half. *)
Theorem alu_ranges_sound (op : Op) (d s : Range) (x y : Z) :
  abs_wf d -> abs_wf s -> x ∈γ d -> y ∈γ s ->
  abs_wf (alu_range op d s) /\ abs_wf (alu_range32 op d s) /\
  (amount_ok op d s = true -> alu_value (Op.alu op) W64 x y ∈γ alu_range op d s) /\
  (alu32_fits op d s = true -> alu_value (Op.alu op) W32 x y ∈γ alu_range32 op d s).
Proof.
  intros Hd Hs Hx Hy. destruct (alu_range_ok op d s x y Hd Hs Hx Hy). destruct (alu_range32_ok op d s x y Hd Hs Hx Hy). done.
Qed.

Lemma alu_ranges_sound_witness :
  alu_value Alu.Sub W32 3 (U64_MAX - 4) ∈γ alu_range32 Op.Sub (1, 7) (U64_MAX - 8, U64_MAX) /\
  alu_value Alu.Arsh W64 (2 ^ 63 + 5) 3 ∈γ alu_range Op.Arsh (2, U64_MAX) (3, 3).
Proof.
  split.
  - apply (alu_ranges_sound Op.Sub (1, 7) (U64_MAX - 8, U64_MAX) 3 (U64_MAX - 4)); [cbn; lia..|reflexivity].
  - apply (alu_ranges_sound Op.Arsh (2, U64_MAX) (3, 3) (2 ^ 63 + 5) 3); [cbn; lia..|reflexivity].
Defined.

(** The constants for which the 32-bit operations of the specification miss the
    result of the machine: a product and a shift above 32 bits, a negation, an
    arithmetic shift of a negative 32-bit number; and a 64-bit shift by 64. *)
Theorem spec_alu_gaps :
  let misses32 op a b := bool_decide (fst (alu_range32 op (a, a) (b, b)) <= alu_const32 (Op.alu op) a b <= snd (alu_range32 op (a, a) (b, b))) = false in
  misses32 Op.Mul 0x10000 0x10000 /\ misses32 Op.Lsh 3 31 /\ misses32 Op.Neg 1 0 /\ misses32 Op.Arsh 0x80000000 1 /\
  alu_range Op.Lsh (1, 1) (64, 64) = (0, 0) /\ alu_const64 Alu.Lsh 1 64 = 1.
Proof. by repeat split. Qed.

(** The two sides of a comparison keep every word that takes them.  For the
    unsigned comparisons [!=] needs a constant operand and [<] one that is constant
    or above zero; and all sides but [!=] against a smaller operand hold nothing
    else.  The signed orderings need nothing. *)
Theorem comparisons_sound (c : Cmp) (d s : Range) (x y : Z) :
  abs_wf d -> abs_wf s -> x ∈γ d -> y ∈γ s ->
  let '(taken, fall) := unsigned_cmp_refine d s c in
  (Cmp.holds c x y = true -> unsigned_covered c s = true -> exists r, In r taken /\ x ∈γ r) /\
  (Cmp.holds c x y = false -> unsigned_covered (Cmp.negate c) s = true -> exists r, In r fall /\ x ∈γ r) /\
  (tight c d s = true -> keeps_only (fun v => v) c d s taken) /\
  let '(taken, fall) := signed_cmp_refine d s c in
  is_ordering c = true ->
  (Cmp.holds c (as_i64 x) (as_i64 y) = true -> exists r, In r taken /\ x ∈γ r) /\
  (Cmp.holds c (as_i64 x) (as_i64 y) = false -> exists r, In r fall /\ x ∈γ r).
Proof.
  intros Hd Hs Hx Hy. unfold unsigned_cmp_refine. pose proof (signed_side d s c Hd Hs) as Hsd. split_and!.
  - intros Hh Hc. by apply (take_unsigned_keeps d s c Hd Hs Hc x y).
  - intros Hh Hc. apply (take_unsigned_keeps d s (Cmp.negate c) Hd Hs Hc x y); try done. by rewrite holds_negate, Hh.
  - by apply take_unsigned_only.
  - destruct (signed_cmp_refine d s c) as [taken fall]. intros Hc. destruct (Hsd Hc) as [Ht Hf]. split.
    + intros Hh. by apply (Ht x y).
    + intros Hh. apply (Hf x y); try done. by rewrite holds_negate, Hh.
Qed.

Lemma comparisons_sound_witness : exists r, In r (fst (unsigned_cmp_refine (0, 100) (9, 9) Cmp.Ne)) /\ 57 ∈γ (r : Range).
Proof.
  pose proof (comparisons_sound Cmp.Ne (0, 100) (9, 9) 57 9) as H. destruct (unsigned_cmp_refine (0, 100) (9, 9) Cmp.Ne) as [taken fall].
  destruct H as [H _]; [cbn; lia..|]. apply H; reflexivity.
Defined.

(** A comparison of two unknown words for (in)equality loses a side; so does [<]
    against an interval from zero; and [!=] enlarges an interval above the constant. *)
Theorem comparison_gaps :
  unsigned_cmp_refine (0, 10) (0, 10) Cmp.Ne = ([], [(0, 10)]) /\
  unsigned_cmp_refine FULL FULL Cmp.Eq = ([FULL], []) /\
  unsigned_cmp_refine (3, 5) (0, 10) Cmp.Lt = ([], [(3, 5)]) /\
  unsigned_cmp_refine (5, 10) (2, 2) Cmp.Ne = ([(3, 10)], []).
Proof. by repeat split. Qed.
