(* ===== verification/SpecState.v ===== *)
(** The state of the specification interpreter (src/src/spec/state.rs, helper.rs and
    the operations of src/src/spec/runner.rs on one state): the byte-granular stack
    with its spilled slots, frames, references, register arithmetic, loads, stores,
    atomic operations and helper calls.  Why an operation stops is a value: a verdict,
    or a panic of the Rust code (an index out of range, a sum that overflows).
    Failures keep the text of the message and the values it interpolates. *)
From Stdlib Require Import ZArith Lia List Bool String.
From stdpp Require Import base list gmap.
From S2P Require Import Prelude Tnum Insn Alu Branch Ctx ConcreteRun SpecRange.
Open Scope Z_scope.

Abbreviation SPEC_STACK_SIZE := 512 (only parsing).
Abbreviation SPEC_SLOTS := 64 (only parsing).

(** * Data *)

Module Spill.
Inductive Spill :=
| Scalar (lo hi : Z)
| Ptr (v : SpecValue).
End Spill.
Abbreviation Spill := Spill.Spill.
#[global] Instance spill_eq_dec : EqDecision Spill.
Proof. solve_decision. Defined.

Record SpecStack := mkSpecStack {
  sbytes : list Z;               (* [u8; 512] *)
  sinit : list bool;             (* [bool; 512] *)
  sspill : list (option Spill);  (* [_; 64] *)
  sdynptr : list bool            (* [bool; 64] *)
}.
#[global] Instance spec_stack_eq_dec : EqDecision SpecStack.
Proof. solve_decision. Defined.

Record SpecFrame := mkSpecFrame {
  sregs : list SpecValue;        (* [_; 11] *)
  sstack : SpecStack;
  sret_pc : Z
}.
#[global] Instance spec_frame_eq_dec : EqDecision SpecFrame.
Proof. solve_decision. Defined.

Definition empty_stack : SpecStack :=
  mkSpecStack (replicate 512 0) (replicate 512 false) (replicate 64 None) (replicate 64 false).

Definition main_frame : SpecFrame :=
  mkSpecFrame
    (<[10%nat := SpecValue.PtrToStack 0 0]> (<[1%nat := SpecValue.PtrToCtx 0]> (replicate 11 SpecValue.Uninit)))
    empty_stack 0.
Definition callee_frame : SpecFrame :=
  mkSpecFrame (<[10%nat := SpecValue.PtrToStack 0 0]> (replicate 11 SpecValue.Uninit)) empty_stack 0.

Record SpecState := mkSpecState {
  cur : SpecFrame;
  saved : list (option SpecFrame);  (* [_; 7] *)
  refs : list Z;                    (* [u32; 8] *)
  refs_cnt : Z
}.
#[global] Instance spec_state_eq_dec : EqDecision SpecState.
Proof. solve_decision. Defined.

Definition initial : SpecState := mkSpecState main_frame (replicate 7 None) (replicate 8 0) 0.

(** The helper table's types. *)
Module SpecArg.
Inductive SpecArg :=
| PtrToMap | PtrToStack | PtrToStackInit (size : Z) | Scalar | PtrToMapValue | PtrToMem | PtrToDynptr | PtrToDynptrW.
End SpecArg.
Abbreviation SpecArg := SpecArg.SpecArg.
Module SpecRet.
Inductive SpecRet := Zero | UnknownScalar | UnknownU32 | MapValueOrNull | MemOrNull.
End SpecRet.
Abbreviation SpecRet := SpecRet.SpecRet.
Record SpecHelper := mkSpecHelper { sargs : list SpecArg; sret : SpecRet }.

(** * Verdicts and failures *)

(** A value interpolated in a message. *)
Inductive Piece :=
| Num (n : Z)
| Value (v : SpecValue)
| Arg (a : SpecArg)
| Name (s : string).
Record SpecFailure := mkSpecFailure { failure_pc : Z; text : string; pieces : list Piece }.

Module SpecVerdict.
Inductive SpecVerdict := Accept | Reject (f : SpecFailure) | Inconclusive.
End SpecVerdict.
Abbreviation SpecVerdict := SpecVerdict.SpecVerdict.

(** Why an operation stops: the verdict it returns in place of a state (a failure,
    or [Inconclusive] for a helper outside the specification), or a panic. *)
Inductive SpecStop :=
| Rejected (f : SpecFailure)
| Unmodelled
| SpecPanic.
Definition stop_verdict (e : SpecStop) : option SpecVerdict :=
  match e with
  | Rejected f => Some (SpecVerdict.Reject f)
  | Unmodelled => Some SpecVerdict.Inconclusive
  | SpecPanic => None
  end.
Definition failure {A} (pc : Z) (msg : string) (vals : list Piece) : result SpecStop A :=
  Err (Rejected (mkSpecFailure pc msg vals)).

(** ** Checked and saturating sums, indexing *)

Definition i64 (x : Z) : result SpecStop Z :=
  match checked I64_MIN I64_MAX x with Some x => Ok x | None => Err SpecPanic end.
Definition sat_i64 (x : Z) : Z := saturate I64_MIN I64_MAX x.

(** [l.get(i as usize)] and [l[i as usize]]. *)
Definition get {A} (l : list A) (i : Z) : option A := if i <? 0 then None else l !! Z.to_nat i.
Definition index {A} (l : list A) (i : Z) : result SpecStop A :=
  match get l i with Some x => Ok x | None => Err SpecPanic end.
(** [for i in first..last { l[i as usize] = x }]. *)
Definition fill {A} (first last : Z) (x : A) (l : list A) : list A :=
  imap (fun i y => if (first <=? Z.of_nat i) && (Z.of_nat i <? last) then x else y) l.
Definition set_range {A} (first last : Z) (x : A) (l : list A) : result SpecStop (list A) :=
  if (last <=? first) || ((0 <=? first) && (last <=? Z.of_nat (length l))) then Ok (fill first last x l) else Err SpecPanic.
(** The integers from [first] below [last]. *)
Definition range (first last : Z) : list Z := seqZ first (last - first).

(** * Registers, frames, references *)

Definition set_cur (f : SpecFrame) (s : SpecState) : SpecState := mkSpecState f (saved s) (refs s) (refs_cnt s).
Definition set_stack (st : SpecStack) (s : SpecState) : SpecState :=
  set_cur (mkSpecFrame (sregs (cur s)) st (sret_pc (cur s))) s.
Definition stack (s : SpecState) : SpecStack := sstack (cur s).

Definition reg (s : SpecState) (r : Z) : result SpecStop SpecValue := index (sregs (cur s)) r.
Definition with_regs (rs : list SpecValue) (s : SpecState) : SpecState :=
  set_cur (mkSpecFrame rs (sstack (cur s)) (sret_pc (cur s))) s.
Definition set_reg (s : SpecState) (r : Z) (v : SpecValue) : result SpecStop SpecState :=
  let? _ := reg s r in Ok (with_regs (<[Z.to_nat r := v]> (sregs (cur s))) s).

Definition acquire_ref (s : SpecState) (id : Z) : result string SpecState :=
  if Z.of_nat (length (refs s)) <=? refs_cnt s then Err "too many active references"%string
  else Ok (mkSpecState (cur s) (saved s) (<[Z.to_nat (refs_cnt s) := id]> (refs s)) (refs_cnt s + 1)).

(** The last reference takes the place of the released one. *)
Definition release_ref (s : SpecState) (id : Z) : SpecState * bool :=
  match list_find (fun r => r = id) (take (Z.to_nat (refs_cnt s)) (refs s)) with
  | Some (i, _) =>
      let last := default 0 (get (refs s) (refs_cnt s - 1)) in
      (mkSpecState (cur s) (saved s) (<[i := last]> (refs s)) (refs_cnt s - 1), true)
  | None => (s, false)
  end.

Definition push_frame (saved : list (option SpecFrame)) (f : SpecFrame) : option (list (option SpecFrame)) :=
  match list_find (fun g => g = None) saved with
  | Some (slot, _) => Some (<[slot := Some f]> saved)
  | None => None
  end.
Definition pop_frame (saved : list (option SpecFrame)) : option (SpecFrame * list (option SpecFrame)) :=
  match list_find (fun g => is_Some g) (reverse saved) with
  | Some (k, Some f) => Some (f, <[(length saved - 1 - k)%nat := None]> saved)
  | _ => None
  end.
Definition caller_exists (saved : list (option SpecFrame)) : bool :=
  existsb (fun f => match f with Some _ => true | None => false end) saved.

(** * The helper table *)

Definition spec_helper (id : Z) : option SpecHelper :=
  match id with
  | 1 => Some (mkSpecHelper [SpecArg.PtrToMap; SpecArg.PtrToStackInit 0] SpecRet.MapValueOrNull)
  | 2 => Some (mkSpecHelper [SpecArg.PtrToMap; SpecArg.PtrToStackInit 0; SpecArg.PtrToStackInit 0; SpecArg.Scalar]
                 SpecRet.Zero)
  | 5 | 8 | 10 | 125 | 160 | 208 => Some (mkSpecHelper [] SpecRet.UnknownScalar)
  | 7 => Some (mkSpecHelper [] SpecRet.UnknownU32)
  | 131 => Some (mkSpecHelper [SpecArg.PtrToMap; SpecArg.Scalar; SpecArg.Scalar] SpecRet.MemOrNull)
  | 132 | 133 => Some (mkSpecHelper [SpecArg.PtrToMem; SpecArg.Scalar] SpecRet.Zero)
  | 197 => Some (mkSpecHelper [SpecArg.PtrToMapValue; SpecArg.Scalar; SpecArg.Scalar; SpecArg.PtrToDynptrW] SpecRet.Zero)
  | 201 => Some (mkSpecHelper
                   [SpecArg.PtrToStack; SpecArg.Scalar; SpecArg.PtrToDynptr; SpecArg.Scalar; SpecArg.Scalar] SpecRet.Zero)
  | 202 => Some (mkSpecHelper
                   [SpecArg.PtrToDynptr; SpecArg.Scalar; SpecArg.PtrToStack; SpecArg.Scalar; SpecArg.Scalar] SpecRet.Zero)
  | 203 => Some (mkSpecHelper [SpecArg.PtrToDynptr; SpecArg.Scalar; SpecArg.Scalar] SpecRet.MemOrNull)
  | _ => None
  end.

(** The two slots of a dynptr at a stack offset. *)
Definition spec_stack_base_check (off : Z) : result SpecStop (option Z) :=
  let? idx := i64 (512 + off) in
  Ok (if (0 <=? idx) && (idx + 16 <=? 512) then Some idx else None).
Definition dynptr_slots_of (off : Z) : result SpecStop (option (Z * Z)) :=
  let? idx := spec_stack_base_check off in
  Ok (match idx with Some idx => Some (Z.quot idx 8, Z.quot idx 8 + 1) | None => None end).

(** * Arithmetic on registers *)

Abbreviation BPF_MAX_VAR_OFF := 536870912 (only parsing).

Definition spec_const (v : SpecValue) : option Z :=
  match v with SpecValue.Scalar lo hi => if lo =? hi then Some lo else None | _ => None end.

Inductive Rhs := Imm (imm : Z) | Reg (src : Z).

(** The signed view of an addend, within the limits of a pointer offset. *)
Definition sane_addend (pc : Z) (a : Range) : result SpecStop (Z * Z) :=
  match as_signed a with
  | None => failure pc "register with unbounded min value is not allowed as an addend" []
  | Some (slo, shi) =>
      if (slo <=? - BPF_MAX_VAR_OFF) || (slo =? I64_MIN) || (BPF_MAX_VAR_OFF <=? shi)
      then failure pc "value {slo}..{shi} makes pointer be out of bounds" [Num slo; Num shi]
      else Ok (slo, shi)
  end.

(** [unwrap] of a scalar view. *)
Definition scalar_of (v : SpecValue) : result SpecStop Range :=
  match SpecValue.as_scalar v with Some r => Ok r | None => Err SpecPanic end.

Definition ptr_add (s : SpecState) (pc dst : Z) (addend : SpecValue) : result SpecStop SpecState :=
  let? a := scalar_of addend in
  let? (slo, shi) := sane_addend pc a in
  let? d := reg s dst in
  match d with
  | SpecValue.PtrToStack lo hi => set_reg s dst (SpecValue.PtrToStack (sat_i64 (lo + slo)) (sat_i64 (hi + shi)))
  | SpecValue.PtrToMapValue lo hi size =>
      set_reg s dst (SpecValue.PtrToMapValue (sat_i64 (lo + slo)) (sat_i64 (hi + shi)) size)
  | SpecValue.PtrToCtx off =>
      if slo =? shi then set_reg s dst (SpecValue.PtrToCtx (sat_i64 (off + slo)))
      else failure pc "arithmetic on a context pointer with a variable addend is not allowed" []
  | other => failure pc "arithmetic on {other:?} is not allowed" [Value other]
  end.

Definition scalar_plus_pointer (s : SpecState) (pc dst : Z) (ptr scalar : SpecValue) : result SpecStop SpecState :=
  let? (slo, shi) :=
    match SpecValue.as_scalar scalar with
    | Some a => sane_addend pc a
    | None => failure pc "register with unbounded min value is not allowed as an addend" []
    end in
  match ptr with
  | SpecValue.PtrToStack lo hi => set_reg s dst (SpecValue.PtrToStack (sat_i64 (lo + slo)) (sat_i64 (hi + shi)))
  | SpecValue.PtrToMapValue lo hi size =>
      set_reg s dst (SpecValue.PtrToMapValue (sat_i64 (lo + slo)) (sat_i64 (hi + shi)) size)
  | other => failure pc "scalar += pointer on {other:?} is not tracked by the spec" [Value other]
  end.

(** The second operand; [name] is the instruction class in the message. *)
Definition read_rhs (s : SpecState) (pc : Z) (rhs : Rhs) (msg : string) : result SpecStop SpecValue :=
  match rhs with
  | Imm imm => Ok (SpecValue.const_scalar (as_u64 imm))
  | Reg src =>
      let? v := reg s src in
      if bool_decide (v = SpecValue.Uninit) then failure pc msg [Num src] else Ok v
  end.

Definition is_r10 (d : SpecValue) : bool := bool_decide (d = SpecValue.PtrToStack 0 0).

Definition alu64 (s : SpecState) (pc dst : Z) (op : Op) (rhs : Rhs) : result SpecStop SpecState :=
  let? d := reg s dst in
  if bool_decide (d = SpecValue.Uninit) then failure pc "register r{dst} is uninitialized (ALU)" [Num dst]
  else
    let? r := read_rhs s pc rhs "register r{src} is uninitialized (ALU)" in
    if SpecValue.is_pointer d then
      if bool_decide (op = Op.Add) && SpecValue.is_scalar r then ptr_add s pc dst r
      else if bool_decide (op = Op.Sub) then
        if SpecValue.is_pointer r then failure pc "math between two pointers is not allowed (SUB)" []
        else if is_r10 d then failure pc "subtraction from stack pointer is not allowed" []
        else ptr_add s pc dst (negate_scalar r)
      else failure pc "arithmetic on a pointer with a non-ADD operation is not allowed" []
    else if SpecValue.is_pointer r then
      if bool_decide (op = Op.Add) then scalar_plus_pointer s pc dst r d
      else failure pc "arithmetic between a scalar and a pointer is not allowed" []
    else
      let? rd := scalar_of d in
      let? rs := scalar_of r in
      let out := alu_range op rd rs in
      set_reg s dst (SpecValue.Scalar (fst out) (snd out)).

Definition alu32 (s : SpecState) (pc dst : Z) (op : Op) (rhs : Rhs) : result SpecStop SpecState :=
  let? d := reg s dst in
  if bool_decide (d = SpecValue.Uninit) then failure pc "register r{dst} is uninitialized (ALU32)" [Num dst]
  else if SpecValue.is_pointer d then failure pc "32-bit arithmetic on a pointer is not allowed" []
  else
    let? r := read_rhs s pc rhs "register r{src} is uninitialized (ALU32)" in
    if SpecValue.is_pointer r then failure pc "32-bit arithmetic on a pointer is not allowed" []
    else
      let? rd := scalar_of d in
      let? rs := scalar_of r in
      let out := alu_range32 op rd rs in
      set_reg s dst (SpecValue.Scalar (fst out) (snd out)).

(** Moves: a 64-bit copy, and the low half of a scalar. *)
Definition mov_reg (s : SpecState) (pc dst src : Z) : result SpecStop SpecState :=
  let? v := reg s src in
  if bool_decide (v = SpecValue.Uninit) then failure pc "register r{src} is uninitialized (read by mov)" [Num src]
  else set_reg s dst v.
Definition mov32_reg (s : SpecState) (pc dst src : Z) : result SpecStop SpecState :=
  let? v := reg s src in
  match v with
  | SpecValue.Uninit => failure pc "register r{src} is uninitialized (read by mov)" [Num src]
  | SpecValue.Scalar lo hi => set_reg s dst (SpecValue.Scalar (Z.land lo 0xFFFFFFFF) (Z.min hi 0xFFFFFFFF))
  | other => failure pc "32-bit mov from a non-scalar {other:?}" [Value other]
  end.
(** The upper half of a product is unknown. *)
Definition mul64 (s : SpecState) (pc dst : Z) (rhs : Rhs) (high : MulHigh) : result SpecStop SpecState :=
  let? s := alu64 s pc dst Op.Mul rhs in
  if bool_decide (high = MulHigh.Low) then Ok s else set_reg s dst SpecValue.unknown_scalar.

(** * Memory *)

(** [slot_of]: the slot of an aligned position of the frame. *)
Definition slot_of (abs : Z) : option Z :=
  if (0 <=? abs) && (Z.rem abs 8 =? 0) && (abs + 8 <=? SPEC_STACK_SIZE) then Some (Z.quot abs 8) else None.

(** The sums wrap, as they may for the length of a dynptr read. *)
Definition mark_range_init (st : SpecStack) (off len : Z) : result SpecStop SpecStack :=
  let base := as_i64 (SPEC_STACK_SIZE + off) in
  let last := as_i64 (base + len) in
  let? init := set_range (Z.max base 0) (Z.min last SPEC_STACK_SIZE) true (sinit st) in
  Ok (mkSpecStack (sbytes st) init (sspill st) (sdynptr st)).

Definition check_stack_range (pc start last size : Z) : result SpecStop unit :=
  if (start <? - SPEC_STACK_SIZE) || (0 <? last) then failure pc "invalid stack access (off {start}..{end})" [Num start; Num last]
  else if (4 <=? size) && negb (aligned_across start (last - size) size)
  then failure pc "misaligned stack access (off {start}, size {size})" [Num start; Num size]
  else Ok tt.
Definition check_map_range (pc start last bound size : Z) : result SpecStop unit :=
  if (start <? 0) || (bound <? last)
  then failure pc "invalid access to map value (off {start}..{end}, bound {bound})" [Num start; Num last; Num bound]
  else if (4 <=? size) && negb (aligned_across start (last - size) size)
  then failure pc "misaligned access (off {start}, size {size})" [Num start; Num size]
  else Ok tt.

(** The bytes an access with an offset in [lo, hi] may touch: [first, last). *)
Definition access_start (lo off : Z) : Z := sat_i64 (lo + off).
Definition access_end (hi off bytes : Z) : Z := sat_i64 (sat_i64 (hi + off) + bytes).

Definition is_spilled_pointer (sp : option Spill) : bool := match sp with Some (Spill.Ptr _) => true | _ => false end.
Definition has_spill (st : SpecStack) (slot : Z) : bool :=
  match get (sspill st) slot with Some (Some _) => true | _ => false end.
Definition spilled (value : SpecValue) : Spill :=
  match value with SpecValue.Scalar lo hi => Spill.Scalar lo hi | other => Spill.Ptr other end.
Definition filled (sp : Spill) : SpecValue :=
  match sp with Spill.Scalar lo hi => SpecValue.Scalar lo hi | Spill.Ptr p => p end.

(** [bytes[abs + i] = (v >> 8 i) as u8] for [i] below [n]. *)
Definition le_bytes (n : nat) (v : Z) : list Z := map (fun i => as_u8 (Z.shiftr v (8 * Z.of_nat i))) (seq 0 n).
Definition put_bytes (abs : Z) (n : nat) (v : Z) (l : list Z) : result SpecStop (list Z) :=
  if (0 <=? abs) && (abs + Z.of_nat n <=? Z.of_nat (length l))
  then Ok (list_inserts (Z.to_nat abs) (le_bytes n v) l) else Err SpecPanic.

(** A full-slot store: the slot holds the value; the bytes are written when it is
    a constant. *)
Definition store_slot (pc start slot : Z) (value : SpecValue) (st : SpecStack) : result SpecStop SpecStack :=
  let? _ := index (sspill st) slot in
  let st := mkSpecStack (sbytes st) (sinit st) (<[Z.to_nat slot := Some (spilled value)]> (sspill st)) (sdynptr st) in
  let? st := mark_range_init st start 8 in
  match spec_const value with
  | Some v =>
      let? b := put_bytes (SPEC_STACK_SIZE + start) 8 v (sbytes st) in
      Ok (mkSpecStack b (sinit st) (sspill st) (sdynptr st))
  | None => Ok st
  end.

(** A store of fewer bytes, or an unaligned one, at a known offset. *)
Definition store_narrow (pc start bytes : Z) (value : SpecValue) (st : SpecStack) : result SpecStop SpecStack :=
  let abs := SPEC_STACK_SIZE + start in
  let slot := Z.quot abs 8 in
  if SPEC_SLOTS <=? slot then failure pc "stack slot out of the frame" []
  else
    let? old := index (sspill st) slot in
    if is_spilled_pointer old then failure pc "attempt to corrupt spilled pointer (narrow write)" []
    else
      let had_spill := match old with Some _ => true | None => false end in
      let sp := <[Z.to_nat slot := None]> (sspill st) in
      let? (b, init) :=
        if (bytes =? 4) && (start mod 8 =? 0) && negb had_spill then
          let? init := set_range (abs + 4) (abs + 8) true (sinit st) in
          let? b := set_range (abs + 4) (abs + 8) 0 (sbytes st) in
          Ok (b, init)
        else Ok (sbytes st, sinit st) in
      let? init := set_range abs (abs + bytes) true init in
      let? b := put_bytes abs (Z.to_nat bytes) (default 0 (spec_const value)) b in
      Ok (mkSpecStack b init sp (sdynptr st)).

(** A store at an unknown offset: every byte that may be written reads as zero. *)
Definition store_variable (pc start last : Z) (st : SpecStack) : result SpecStop SpecStack :=
  let first_slot := Z.quot (SPEC_STACK_SIZE + start) 8 in
  let last_slot := Z.quot (SPEC_STACK_SIZE + last - 1) 8 in
  if existsb (has_spill st) (range first_slot (last_slot + 1)) then failure pc "invalid indirect write to spilled value" []
  else
    let first := Z.max (SPEC_STACK_SIZE + start) 0 in
    let last := Z.min (SPEC_STACK_SIZE + last) SPEC_STACK_SIZE in
    let? init := set_range first last true (sinit st) in
    let? b := set_range first last 0 (sbytes st) in
    Ok (mkSpecStack b init (sspill st) (sdynptr st)).

Definition store_stack (s : SpecState) (pc lo hi off bytes : Z) (value : SpecValue) : result SpecStop SpecState :=
  let start := access_start lo off in
  let last := access_end hi off bytes in
  check_stack_range pc start last bytes ;;?
  let? st :=
    if (bytes =? 8) && (lo =? hi) then
      match slot_of (SPEC_STACK_SIZE + start) with
      | None => failure pc "stack slot out of the frame" []
      | Some slot => store_slot pc start slot value (stack s)
      end
    else if lo =? hi then store_narrow pc start bytes value (stack s)
    else store_variable pc start last (stack s) in
  Ok (set_stack st s).

Definition store (s : SpecState) (pc base off : Z) (size : MemSize) (value : SpecValue) : result SpecStop SpecState :=
  let? base_v := reg s base in
  let bytes := size_bytes size in
  match base_v with
  | SpecValue.PtrToStack lo hi => store_stack s pc lo hi off bytes value
  | SpecValue.PtrToMapValue lo hi bound | SpecValue.PtrToMem lo hi bound _ =>
      check_map_range pc (access_start lo off) (access_end hi off bytes) bound bytes ;;? Ok s
  | SpecValue.PtrToMapValueOrNull _ _ =>
      failure pc "invalid mem access of a map value pointer (NULL not yet refined)" []
  | _ => failure pc "invalid mem access (non-pointer base)" []
  end.

(** [n] initialized bytes from [idx] on, in little-endian order above [i] bytes. *)
Fixpoint read_bytes (pc : Z) (st : SpecStack) (idx i : Z) (n : nat) (v : Z) : result SpecStop Z :=
  match n with
  | O => Ok v
  | S n =>
      let? ready := index (sinit st) idx in
      if negb ready then failure pc "stack read of uninitialized bytes" []
      else
        let? b := index (sbytes st) idx in
        read_bytes pc st (idx + 1) (i + 1) n (Z.lor v (Z.shiftl b (8 * i)))
  end.

Definition load_variable (pc start last : Z) (st : SpecStack) : result SpecStop SpecValue :=
  let first := Z.max (SPEC_STACK_SIZE + start) 0 in
  let last := Z.min (SPEC_STACK_SIZE + last) SPEC_STACK_SIZE in
  if existsb (fun i => negb (default true (get (sinit st) i))) (range first last)
  then failure pc "variable-offset stack read over uninitialized bytes" []
  else if existsb (has_spill st) (range (Z.quot first 8) (Z.quot (last - 1) 8 + 1))
  then failure pc "invalid indirect read from stack over a spilled value" []
  else Ok SpecValue.unknown_scalar.

Definition load_fixed (pc start bytes : Z) (sign_extend : bool) (st : SpecStack) : result SpecStop SpecValue :=
  let abs := SPEC_STACK_SIZE + start in
  let slot := match slot_of abs with Some slot => default None (get (sspill st) slot) | None => None end in
  match slot with
  | Some sp =>
      if bytes =? 8 then Ok (filled sp)
      else if (bytes <? 8) && is_spilled_pointer slot
      then failure pc "narrow fill of a spilled pointer from stack (invalid read)" []
      else let? v := read_bytes pc st abs 0 (Z.to_nat bytes) 0 in
           Ok (SpecValue.const_scalar (apply_sign v bytes sign_extend))
  | None => let? v := read_bytes pc st abs 0 (Z.to_nat bytes) 0 in
            Ok (SpecValue.const_scalar (apply_sign v bytes sign_extend))
  end.

Definition load_stack (s : SpecState) (pc lo hi off bytes : Z) (sign_extend : bool) : result SpecStop SpecValue :=
  let start := access_start lo off in
  let last := access_end hi off bytes in
  check_stack_range pc start last bytes ;;?
  if negb (lo =? hi) then load_variable pc start last (stack s)
  else load_fixed pc start bytes sign_extend (stack s).

Definition load_ctx (prog_type : ProgType) (pc base_off off bytes : Z) (sign_extend : bool)
  : result SpecStop SpecValue :=
  match checked I32_MIN I32_MAX (sat_i64 (base_off + off)) with
  | None => failure pc "context access with an out-of-range offset" []
  | Some total =>
      match ctx_table_read prog_type total bytes with
      | Ok CtxScalar => Ok (if sign_extend then SpecValue.unknown_scalar else SpecValue.Scalar 0 (width_max bytes))
      | Ok (CtxPointer field) =>
          failure pc "ctx load of unmapped pointer field {} (prog type {})" [Name field; Name (ProgType.name prog_type)]
      | Err (Unmodeled field) =>
          failure pc "ctx load of unmodeled field {} (prog type {})" [Name field; Name (ProgType.name prog_type)]
      | Err Invalid => failure pc "invalid bpf_context access off={total} size={bytes}" [Num total; Num bytes]
      end
  end.

Definition load (prog_type : ProgType) (s : SpecState) (pc base off : Z) (size : MemSize) (sign_extend : bool)
  : result SpecStop SpecValue :=
  let? base_v := reg s base in
  let bytes := size_bytes size in
  match base_v with
  | SpecValue.PtrToStack lo hi => load_stack s pc lo hi off bytes sign_extend
  | SpecValue.PtrToCtx base_off => load_ctx prog_type pc base_off off bytes sign_extend
  | SpecValue.PtrToMapValue lo hi bound | SpecValue.PtrToMem lo hi bound _ =>
      check_map_range pc (access_start lo off) (access_end hi off bytes) bound bytes ;;? Ok SpecValue.unknown_scalar
  | SpecValue.PtrToMapValueOrNull _ _ =>
      failure pc "invalid mem access of a map value pointer (NULL not yet refined)" []
  | SpecValue.Uninit => failure pc "invalid mem access (uninitialized base)" []
  | _ => failure pc "invalid mem access (non-pointer base)" []
  end.

(** The stack side of an atomic operation: the old value, and the stack after it. *)
Definition atomic_stack (s : SpecState) (pc lo hi off bytes : Z) : result SpecStop (SpecValue * SpecState) :=
  let start := access_start lo off in
  let last := access_end hi off bytes in
  check_stack_range pc start last bytes ;;?
  let st := stack s in
  let abs := SPEC_STACK_SIZE + start in
  let old :=
    if (bytes =? 8) && (lo =? hi) then
      match slot_of abs with
      | Some slot => match default None (get (sspill st) slot) with Some sp => filled sp | None => SpecValue.unknown_scalar end
      | None => SpecValue.unknown_scalar
      end
    else SpecValue.unknown_scalar in
  let? init := set_range abs (SPEC_STACK_SIZE + last) true (sinit st) in
  let? sp := set_range (Z.quot abs 8) (Z.quot (SPEC_STACK_SIZE + last - 1) 8 + 1) None (sspill st) in
  Ok (old, set_stack (mkSpecStack (sbytes st) init sp (sdynptr st)) s).

Definition atomic (s : SpecState) (pc dst src off : Z) (size : MemSize) (op : AtomicOp) (fetch : bool)
  : result SpecStop SpecState :=
  let bytes := size_bytes size in
  if negb (Z.rem off bytes =? 0) then failure pc "misaligned atomic access" []
  else
    let? operand := reg s src in
    if bool_decide (operand = SpecValue.Uninit) then failure pc "atomic operand is uninitialized" []
    else
      let? d := reg s dst in
      let? (old, s) :=
        match d with
        | SpecValue.PtrToStack lo hi => atomic_stack s pc lo hi off bytes
        | SpecValue.PtrToMapValue lo hi bound =>
            check_map_range pc (access_start lo off) (access_end hi off bytes) bound bytes ;;?
            Ok (SpecValue.unknown_scalar, s)
        | _ => failure pc "atomic access through a non-atomic-able pointer" []
        end in
      if bool_decide (op = AtomicOp.Cmpxchg) then set_reg s 0 old
      else if fetch then set_reg s src old
      else Ok s.

(** * Helper calls *)

Definition init_range (st : SpecStack) (abs n : Z) : bool :=
  (n <=? 0) ||
  ((0 <=? abs) && (abs + n <=? SPEC_STACK_SIZE) && forallb (fun i => default false (get (sinit st) i)) (range abs (abs + n))).

(** The size of a buffer whose contract leaves it to the map in R1. *)
Definition buffer_size (id arg_idx : Z) (r1 : SpecValue) : Z :=
  match r1 with
  | SpecValue.PtrToMap key_size value_size _ =>
      if (id =? 2) && (arg_idx =? 2) then value_size else if (id =? 1) || (id =? 2) then key_size else 0
  | _ => 0
  end.

Definition arg_ok (s : SpecState) (arg_idx : Z) (expected : SpecArg) (actual : SpecValue) (id : Z) : result SpecStop bool :=
  match expected with
  | SpecArg.PtrToMap => Ok (match actual with SpecValue.PtrToMap _ _ _ => true | _ => false end)
  | SpecArg.PtrToStack => Ok (match actual with SpecValue.PtrToStack _ _ => true | _ => false end)
  | SpecArg.PtrToStackInit size =>
      match actual with
      | SpecValue.PtrToStack lo hi =>
          if lo =? hi then
            let? r1 := reg s 1 in
            let? abs := i64 (SPEC_STACK_SIZE + lo) in
            Ok (init_range (stack s) abs (if size =? 0 then buffer_size id arg_idx r1 else size))
          else Ok false
      | _ => Ok false
      end
  | SpecArg.Scalar => Ok (SpecValue.is_scalar actual)
  | SpecArg.PtrToMapValue => Ok (match actual with SpecValue.PtrToMapValue _ _ _ => true | _ => false end)
  | SpecArg.PtrToMem => Ok (match actual with SpecValue.PtrToMem _ _ _ _ => true | _ => false end)
  | SpecArg.PtrToDynptr =>
      match actual with
      | SpecValue.PtrToStack lo hi =>
          if lo =? hi then
            let? slots := dynptr_slots_of lo in
            match slots with
            | Some (s1, s2) =>
                let? d1 := index (sdynptr (stack s)) s1 in
                let? d2 := index (sdynptr (stack s)) s2 in
                Ok (d1 && d2)
            | None => Ok false
            end
          else Ok false
      | _ => Ok false
      end
  | SpecArg.PtrToDynptrW =>
      match actual with
      | SpecValue.PtrToStack lo hi =>
          if lo =? hi then
            let? slots := dynptr_slots_of lo in
            Ok (match slots with Some _ => true | None => false end)
          else Ok false
      | _ => Ok false
      end
  end.

Definition check_arg (s : SpecState) (pc arg_idx reg_no : Z) (expected : SpecArg) (actual : SpecValue) (id : Z)
  : result SpecStop unit :=
  let? ok := arg_ok s arg_idx expected actual id in
  if ok : bool then Ok tt
  else failure pc "R{reg} type mismatch for helper argument {expected:?}" [Num reg_no; Arg expected].

Fixpoint check_args (s : SpecState) (pc id i : Z) (args : list SpecArg) : result SpecStop unit :=
  match args with
  | [] => Ok tt
  | arg :: args =>
      let? v := reg s (i + 1) in
      check_arg s pc i (i + 1) arg v id ;;? check_args s pc id (i + 1) args
  end.

(** [bpf_dynptr_from_mem]: the two slots at R4 become a dynptr. *)
Definition mark_dynptr (s : SpecState) (pc : Z) : result SpecStop SpecState :=
  let? r4 := reg s 4 in
  match r4 with
  | SpecValue.PtrToStack lo hi =>
      if lo =? hi then
        let? slots := dynptr_slots_of lo in
        match slots with
        | None => failure pc "dynptr slot out of frame" []
        | Some (s1, s2) =>
            let st := stack s in
            let? _ := index (sdynptr st) s1 in
            let? _ := index (sdynptr st) s2 in
            let d := <[Z.to_nat s2 := true]> (<[Z.to_nat s1 := true]> (sdynptr st)) in
            let? st := mark_range_init (mkSpecStack (sbytes st) (sinit st) (sspill st) d) lo 16 in
            Ok (set_stack st s)
        end
      else Ok s
  | _ => Ok s
  end.

(** [bpf_dynptr_read]: the buffer at R1 of R2 bytes is written. *)
Definition mark_buffer (s : SpecState) (pc : Z) : result SpecStop SpecState :=
  let? r1 := reg s 1 in
  match r1 with
  | SpecValue.PtrToStack lo hi =>
      if lo =? hi then
        let? r2 := reg s 2 in
        match spec_const r2 with
        | None => failure pc "dynptr_read length is not a constant" []
        | Some v =>
            let len := as_i64 v in
            if lo <? - SPEC_STACK_SIZE then failure pc "dynptr_read dst buffer out of the frame" []
            else
              if 0 <? as_i64 (lo + len) then failure pc "dynptr_read dst buffer out of the frame" []
              else let? st := mark_range_init (stack s) lo len in Ok (set_stack st s)
        end
      else Ok s
  | _ => Ok s
  end.

(** [bpf_ringbuf_submit], [bpf_ringbuf_discard]: the reference of R1 is released. *)
Definition release_arg (s : SpecState) (pc : Z) : result SpecStop SpecState :=
  let? r1 := reg s 1 in
  match r1 with
  | SpecValue.PtrToMem _ _ _ ref_id =>
      let '(s, found) := release_ref s ref_id in
      if found then Ok s else failure pc "release of unacquired reference id={ref_id}" [Num ref_id]
  | _ => Ok s
  end.

(** The next reference number. *)
Definition fresh_id (next_ref_id : Z) : result SpecStop Z :=
  match checked 0 U32_MAX (next_ref_id + 1) with Some n => Ok n | None => Err SpecPanic end.

(** R0 after the call, and the counter of reference numbers. *)
Definition set_return (s : SpecState) (pc : Z) (ret : SpecRet) (next_ref_id : Z) : result SpecStop (SpecState * Z) :=
  match ret with
  | SpecRet.Zero => let? s := set_reg s 0 (SpecValue.const_scalar 0) in Ok (s, next_ref_id)
  | SpecRet.UnknownScalar => let? s := set_reg s 0 SpecValue.unknown_scalar in Ok (s, next_ref_id)
  | SpecRet.UnknownU32 => let? s := set_reg s 0 (SpecValue.Scalar 0 U32_MAX) in Ok (s, next_ref_id)
  | SpecRet.MapValueOrNull =>
      let? r1 := reg s 1 in
      let size := match r1 with SpecValue.PtrToMap _ value_size _ => value_size | _ => 0 end in
      let? id := fresh_id next_ref_id in
      let? s := set_reg s 0 (SpecValue.PtrToMapValueOrNull size id) in Ok (s, id)
  | SpecRet.MemOrNull =>
      let? id := fresh_id next_ref_id in
      let? r2 := reg s 2 in
      let size := match spec_const r2 with Some v => as_u32 v | None => 0 end in
      let? s := set_reg s 0 (SpecValue.PtrToMemOrNull size id) in
      match acquire_ref s id with
      | Ok s => Ok (s, id)
      | Err e => failure pc e []
      end
  end.

(** R1 to R5 are scratch, and a spilled pointer becomes an unknown scalar. *)
Definition clobber_args (s : SpecState) : SpecState :=
  with_regs (fill 1 6 SpecValue.Uninit (sregs (cur s))) s.
Definition unprotect_spills (s : SpecState) : SpecState :=
  let st := stack s in
  let retype sp := if is_spilled_pointer sp then Some (Spill.Scalar 0 U64_MAX) else sp in
  set_stack (mkSpecStack (sbytes st) (sinit st) (map retype (sspill st)) (sdynptr st)) s.

Definition helper_call (s : SpecState) (pc id next_ref_id : Z) : result SpecStop (SpecState * Z) :=
  match spec_helper id with
  | None => Err Unmodelled
  | Some proto =>
      check_args s pc id 0 (sargs proto) ;;?
      let? s := if id =? 197 then mark_dynptr s pc else Ok s in
      let? s := if id =? 201 then mark_buffer s pc else Ok s in
      let? s := if (id =? 132) || (id =? 133) then release_arg s pc else Ok s in
      let? (s, next) := set_return s pc (sret proto) next_ref_id in
      Ok (unprotect_spills (clobber_args s), next)
  end.
