(* ===== verification/SpecRun.v ===== *)
(** The run of the specification interpreter (src/src/spec/runner.rs): branches with
    their refined successors, calls and exits, the dispatch on the instruction, and
    the worklist with the set of visited points.  The theorems: the run ends, and an
    accepted program has every point it reaches visited and executed without a
    violation. *)
From Stdlib Require Import ZArith Lia List Bool String.
From stdpp Require Import base list gmap.
From S2P Require Import Prelude Tnum Insn Alu Branch Ctx ConcreteRun SpecRange SpecState.
Open Scope Z_scope.

(** A point of the exploration: program counter and state. *)
Definition point : Type := Z * SpecState.

(** * Branches *)

Definition spec_branch_target (pc offset : Z) : Z := as_u32 (pc + 1 + offset).

Definition emit_refined (s : SpecState) (dst : Z) (sd : sides) (target fall_pc : Z) : result SpecStop (list point) :=
  let? _ := reg s dst in
  let at_ pc (r : Range) : point :=
    (pc, with_regs (<[Z.to_nat dst := SpecValue.Scalar (fst r) (snd r)]> (sregs (cur s))) s) in
  Ok (map (at_ target) (fst sd) ++ map (at_ fall_pc) (snd sd)).

(** Every register with the identity [id] of a nullable map value. *)
Definition refine_map_value (id : Z) (v : SpecValue) (s : SpecState) : SpecState :=
  let refine r := match r with SpecValue.PtrToMapValueOrNull _ rid => if rid =? id then v else r | _ => r end in
  with_regs (map refine (sregs (cur s))) s.
Definition is_stack_or_ctx (v : SpecValue) : bool :=
  match v with SpecValue.PtrToStack _ _ | SpecValue.PtrToCtx _ => true | _ => false end.
Definition is_null (v : SpecValue) : bool := bool_decide (v = SpecValue.Scalar 0 0).

Definition pointer_branch (s : SpecState) (pc dst : Z) (c : Cmp) (src : SpecValue) (target : Z)
  : result SpecStop (list point) :=
  let? d := reg s dst in
  let open := Ok [(target, s); (pc + 1, s)] in
  let others :=
    if is_stack_or_ctx d && is_stack_or_ctx src then
      match c with
      | Cmp.Eq => Ok [(target, s)]
      | Cmp.Ne => Ok [(pc + 1, s)]
      | _ => failure pc "ordering comparison of pointers is not allowed" []
      end
    else if (SpecValue.is_pointer d && SpecValue.is_scalar src) || (SpecValue.is_scalar d && SpecValue.is_pointer src) then open
    else failure pc "comparing different pointer kinds is not allowed" [] in
  if is_null src then
    match d with
    | SpecValue.PtrToMapValueOrNull size id =>
        let null := refine_map_value id (SpecValue.const_scalar 0) s in
        let valid := refine_map_value id (SpecValue.PtrToMapValue 0 0 size) s in
        match c with
        | Cmp.Eq => Ok [(target, null); (pc + 1, valid)]
        | Cmp.Ne => Ok [(target, valid); (pc + 1, null)]
        | _ => failure pc "ordering comparison on a nullable pointer is not allowed" []
        end
    | SpecValue.PtrToMemOrNull size id =>
        let? null := set_reg s dst (SpecValue.const_scalar 0) in
        let null := fst (release_ref null id) in
        let? valid := set_reg s dst (SpecValue.PtrToMem 0 0 size id) in
        match c with
        | Cmp.Eq => Ok [(target, null); (pc + 1, valid)]
        | Cmp.Ne => Ok [(target, valid); (pc + 1, null)]
        | _ => failure pc "ordering comparison on a nullable mem pointer is not allowed" []
        end
    | _ => others
    end
  else others.

Definition branch (s : SpecState) (pc dst : Z) (c : Cmp) (src : SpecValue) (offset : Z) (same_reg : bool)
  : result SpecStop (list point) :=
  let target := spec_branch_target pc offset in
  let? d := reg s dst in
  if SpecValue.is_pointer d || SpecValue.is_pointer src then pointer_branch s pc dst c src target
  else
    match SpecValue.as_scalar d with
    | None => failure pc "comparison on an uninitialized register" []
    | Some rd =>
        if same_reg then emit_refined s dst (self_compare_refine c) target (pc + 1)
        else
          match SpecValue.as_scalar src with
          | None => failure pc "comparison against an uninitialized register" []
          | Some rs => emit_refined s dst (unsigned_cmp_refine rd rs c) target (pc + 1)
          end
    end.

Definition branch_signed (s : SpecState) (pc dst : Z) (c : Cmp) (src : SpecValue) (offset : Z) (same_reg : bool)
  : result SpecStop (list point) :=
  let target := spec_branch_target pc offset in
  let? d := reg s dst in
  if SpecValue.is_pointer d || SpecValue.is_pointer src then failure pc "signed comparison on pointers is not allowed" []
  else
    match SpecValue.as_scalar d with
    | None => failure pc "signed comparison on an uninitialized register" []
    | Some rd =>
        if same_reg then emit_refined s dst (self_compare_refine c) target (pc + 1)
        else
          match SpecValue.as_scalar src with
          | None => failure pc "signed comparison against an uninitialized register" []
          | Some rs => emit_refined s dst (signed_cmp_refine rd rs c) target (pc + 1)
          end
    end.

Definition is_uninit (v : SpecValue) : bool := bool_decide (v = SpecValue.Uninit).

(** One successor when the test of two constants is known, both otherwise. *)
Definition decided (s : SpecState) (pc offset : Z) (d v : option Z) (test : Z -> Z -> bool) : list point :=
  match d, v with
  | Some d, Some v => [(if test d v then spec_branch_target pc offset else pc + 1, s)]
  | _, _ => [(spec_branch_target pc offset, s); (pc + 1, s)]
  end.

Definition bits_meet (d v : Z) : bool := negb (Z.land d v =? 0).
Definition spec_jset (s : SpecState) (pc dst src offset : Z) : result SpecStop (list point) :=
  let? d := reg s dst in
  let? v := reg s src in
  if is_uninit d || is_uninit v then failure pc "uninitialized register read by jset" []
  else Ok (decided s pc offset (spec_const d) (spec_const v) bits_meet).
Definition spec_jset_imm (s : SpecState) (pc dst imm offset : Z) : result SpecStop (list point) :=
  let? d := reg s dst in
  if is_uninit d then failure pc "uninitialized register read by jset" []
  else Ok (decided s pc offset (spec_const d) (Some (as_u64 imm)) bits_meet).
Definition spec_jmp32 (s : SpecState) (pc dst : Z) (src imm : option Z) (offset : Z) (op : Jmp32Op)
  : result SpecStop (list point) :=
  let? d := reg s dst in
  let? v :=
    match src, imm with
    | Some src, _ => reg s src
    | None, Some imm => Ok (SpecValue.const_scalar (as_u32 imm))
    | None, None => Ok SpecValue.Uninit
    end in
  if is_uninit d || is_uninit v then failure pc "uninitialized register read by a 32-bit jump" []
  else Ok (decided s pc offset (spec_const d) (spec_const v) (fun d v => jmp32_holds op (as_u32 d) (as_u32 v))).

(** * Calls and exits *)

Definition call_sub (s : SpecState) (pc offset : Z) : result SpecStop (list point) :=
  match push_frame (saved s) (cur s) with
  | None => failure pc "call depth exceeded (max call frames)" []
  | Some frames =>
      let rs := sregs (cur s) in
      let callee := sregs callee_frame in
      let regs := take 1 callee ++ take 9 (drop 1 rs) ++ drop 10 callee in
      Ok [(as_u32 (pc + 1 + offset),
           mkSpecState (mkSpecFrame regs empty_stack (pc + 1)) frames (refs s) (refs_cnt s))]
  end.

Definition spec_exit (s : SpecState) (pc : Z) : result SpecStop (list point) :=
  let? r0 := reg s 0 in
  if is_uninit r0 then failure pc "R0 is uninitialized at exit" []
  else if SpecValue.is_pointer r0 then failure pc "R0 is not a scalar value at exit" []
  else if 0 <? refs_cnt s then
    let? first := index (refs s) 0 in failure pc "unreleased reference id={} at exit" [Num first]
  else if caller_exists (saved s) then
    match pop_frame (saved s) with
    | None => Err SpecPanic
    | Some (caller, frames) =>
        match r0 with
        | SpecValue.PtrToStack _ _ => failure pc "cannot return stack pointer to the caller" []
        | _ =>
            let regs := fill 1 6 SpecValue.Uninit (<[0%nat := r0]> (sregs caller)) in
            Ok [(sret_pc (cur s), mkSpecState (mkSpecFrame regs (sstack caller) (sret_pc caller)) frames (refs s) (refs_cnt s))]
        end
    end
  else Ok [].

(** Legacy packet loads: R0 is unknown afterwards. *)
Definition packet_load_allowed (p : ProgType) : bool :=
  match p with
  | ProgType.SocketFilter | ProgType.SchedCls | ProgType.SchedAct | ProgType.CgroupSkb =>
      match ctx_model p with Some _ => true | None => false end
  | _ => false
  end.
Definition ld_abs (prog_type : ProgType) (s : SpecState) (pc : Z) : result SpecStop SpecState :=
  if packet_load_allowed prog_type then set_reg s 0 SpecValue.unknown_scalar
  else failure pc "BPF_LD ABS/IND is not allowed for this program type" [].
Definition ld_ind (prog_type : ProgType) (s : SpecState) (pc src : Z) : result SpecStop SpecState :=
  if packet_load_allowed prog_type then
    let? v := reg s src in
    if is_uninit v then failure pc "register r{src} is uninitialized (read by ldind)" [Num src]
    else set_reg s 0 SpecValue.unknown_scalar
  else failure pc "BPF_LD ABS/IND is not allowed for this program type" [].

(** Map pointers, with the sizes of the registry. *)
Definition map_pointer (maps : Maps) (fd : Z) : SpecValue :=
  match maps !! fd with
  | Some m => SpecValue.PtrToMap (key_size m) (value_size m) (match map_type m with MapType.Ringbuf => 1 | _ => 0 end)
  | None => SpecValue.PtrToMap 0 0 0
  end.
Definition map_value_pointer (maps : Maps) (fd offset : Z) : SpecValue :=
  SpecValue.PtrToMapValue offset offset (match maps !! fd with Some m => value_size m | None => 0 end).

(** * One instruction *)

(** The operation of an arithmetic instruction: register, operation, operand and
    whether it has 32 bits. *)
Definition arith (insn : BpfInsn) : option (Z * Op * Rhs * bool) :=
  match insn with
  | BpfInsn.AddImm dst imm => Some (dst, Op.Add, Imm imm, false)
  | BpfInsn.AddReg dst src => Some (dst, Op.Add, Reg src, false)
  | BpfInsn.SubImm dst imm => Some (dst, Op.Sub, Imm imm, false)
  | BpfInsn.SubReg dst src => Some (dst, Op.Sub, Reg src, false)
  | BpfInsn.AndImm dst imm => Some (dst, Op.And, Imm imm, false)
  | BpfInsn.AndReg dst src => Some (dst, Op.And, Reg src, false)
  | BpfInsn.OrImm dst imm => Some (dst, Op.Or, Imm imm, false)
  | BpfInsn.OrReg dst src => Some (dst, Op.Or, Reg src, false)
  | BpfInsn.XorImm dst imm => Some (dst, Op.Xor, Imm imm, false)
  | BpfInsn.XorReg dst src => Some (dst, Op.Xor, Reg src, false)
  | BpfInsn.LshImm dst imm => Some (dst, Op.Lsh, Imm imm, false)
  | BpfInsn.LshReg dst src => Some (dst, Op.Lsh, Reg src, false)
  | BpfInsn.RshImm dst imm => Some (dst, Op.Rsh, Imm imm, false)
  | BpfInsn.RshReg dst src => Some (dst, Op.Rsh, Reg src, false)
  | BpfInsn.ArshImm dst imm => Some (dst, Op.Arsh, Imm imm, false)
  | BpfInsn.ArshReg dst src => Some (dst, Op.Arsh, Reg src, false)
  | BpfInsn.DivImm dst imm => Some (dst, Op.Div, Imm imm, false)
  | BpfInsn.DivReg dst src => Some (dst, Op.Div, Reg src, false)
  | BpfInsn.ModImm dst imm => Some (dst, Op.Mod, Imm imm, false)
  | BpfInsn.ModReg dst src => Some (dst, Op.Mod, Reg src, false)
  | BpfInsn.Neg dst => Some (dst, Op.Neg, Imm 0, false)
  | _ => None
  end.
Definition arith32 (insn : BpfInsn) : option (Z * Op * Rhs * bool) :=
  match insn with
  | BpfInsn.Add32Imm dst imm => Some (dst, Op.Add, Imm imm, true)
  | BpfInsn.Add32Reg dst src => Some (dst, Op.Add, Reg src, true)
  | BpfInsn.Sub32Imm dst imm => Some (dst, Op.Sub, Imm imm, true)
  | BpfInsn.Sub32Reg dst src => Some (dst, Op.Sub, Reg src, true)
  | BpfInsn.And32Imm dst imm => Some (dst, Op.And, Imm imm, true)
  | BpfInsn.And32Reg dst src => Some (dst, Op.And, Reg src, true)
  | BpfInsn.Or32Imm dst imm => Some (dst, Op.Or, Imm imm, true)
  | BpfInsn.Or32Reg dst src => Some (dst, Op.Or, Reg src, true)
  | BpfInsn.Xor32Imm dst imm => Some (dst, Op.Xor, Imm imm, true)
  | BpfInsn.Xor32Reg dst src => Some (dst, Op.Xor, Reg src, true)
  | BpfInsn.Lsh32Imm dst imm => Some (dst, Op.Lsh, Imm imm, true)
  | BpfInsn.Lsh32Reg dst src => Some (dst, Op.Lsh, Reg src, true)
  | BpfInsn.Rsh32Imm dst imm => Some (dst, Op.Rsh, Imm imm, true)
  | BpfInsn.Rsh32Reg dst src => Some (dst, Op.Rsh, Reg src, true)
  | BpfInsn.Arsh32Imm dst imm => Some (dst, Op.Arsh, Imm imm, true)
  | BpfInsn.Arsh32Reg dst src => Some (dst, Op.Arsh, Reg src, true)
  | BpfInsn.Mul32Imm dst imm => Some (dst, Op.Mul, Imm imm, true)
  | BpfInsn.Mul32Reg dst src => Some (dst, Op.Mul, Reg src, true)
  | BpfInsn.Div32Imm dst imm => Some (dst, Op.Div, Imm imm, true)
  | BpfInsn.Div32Reg dst src => Some (dst, Op.Div, Reg src, true)
  | BpfInsn.Mod32Imm dst imm => Some (dst, Op.Mod, Imm imm, true)
  | BpfInsn.Mod32Reg dst src => Some (dst, Op.Mod, Reg src, true)
  | BpfInsn.Neg32 dst => Some (dst, Op.Neg, Imm 0, true)
  | _ => None
  end.

(** The conditional jumps: register, comparison, operand, offset, signedness. *)
Definition compare (insn : BpfInsn) : option (Z * Cmp * Rhs * Z * bool) :=
  match insn with
  | BpfInsn.Jeq dst src offset => Some (dst, Cmp.Eq, Reg src, offset, false)
  | BpfInsn.Jne dst src offset => Some (dst, Cmp.Ne, Reg src, offset, false)
  | BpfInsn.Jgt dst src offset => Some (dst, Cmp.Gt, Reg src, offset, false)
  | BpfInsn.Jge dst src offset => Some (dst, Cmp.Ge, Reg src, offset, false)
  | BpfInsn.Jlt dst src offset => Some (dst, Cmp.Lt, Reg src, offset, false)
  | BpfInsn.Jle dst src offset => Some (dst, Cmp.Le, Reg src, offset, false)
  | BpfInsn.Jsgt dst src offset => Some (dst, Cmp.Gt, Reg src, offset, true)
  | BpfInsn.Jsge dst src offset => Some (dst, Cmp.Ge, Reg src, offset, true)
  | BpfInsn.Jslt dst src offset => Some (dst, Cmp.Lt, Reg src, offset, true)
  | BpfInsn.Jsle dst src offset => Some (dst, Cmp.Le, Reg src, offset, true)
  | BpfInsn.JeqImm dst imm offset => Some (dst, Cmp.Eq, Imm imm, offset, false)
  | BpfInsn.JneImm dst imm offset => Some (dst, Cmp.Ne, Imm imm, offset, false)
  | BpfInsn.JgtImm dst imm offset => Some (dst, Cmp.Gt, Imm imm, offset, false)
  | BpfInsn.JgeImm dst imm offset => Some (dst, Cmp.Ge, Imm imm, offset, false)
  | BpfInsn.JltImm dst imm offset => Some (dst, Cmp.Lt, Imm imm, offset, false)
  | BpfInsn.JleImm dst imm offset => Some (dst, Cmp.Le, Imm imm, offset, false)
  | BpfInsn.JsgtImm dst imm offset => Some (dst, Cmp.Gt, Imm imm, offset, true)
  | BpfInsn.JsgeImm dst imm offset => Some (dst, Cmp.Ge, Imm imm, offset, true)
  | BpfInsn.JsltImm dst imm offset => Some (dst, Cmp.Lt, Imm imm, offset, true)
  | BpfInsn.JsleImm dst imm offset => Some (dst, Cmp.Le, Imm imm, offset, true)
  | _ => None
  end.
Definition spec_cond (s : SpecState) (pc dst : Z) (c : Cmp) (rhs : Rhs) (offset : Z) (signed : bool)
  : result SpecStop (list point) :=
  let? (v, same) :=
    match rhs with
    | Reg src => let? v := reg s src in Ok (v, dst =? src)
    | Imm imm => Ok (SpecValue.const_scalar (as_u64 imm), false)
    end in
  if signed then branch_signed s pc dst c v offset same else branch s pc dst c v offset same.

Section step.
Context (maps : Maps) (prog_type : ProgType).

(** The instructions with one successor state. *)
Definition straight (insn : BpfInsn) (pc : Z) (s : SpecState) : result SpecStop SpecState :=
  match insn with
  | BpfInsn.MovImm dst imm => set_reg s dst (SpecValue.const_scalar (as_u64 imm))
  | BpfInsn.MovReg dst src => mov_reg s pc dst src
  | BpfInsn.Mov32Imm dst imm => set_reg s dst (SpecValue.const_scalar (as_u32 imm))
  | BpfInsn.Mov32Reg dst src => mov32_reg s pc dst src
  | BpfInsn.LdAbs _ _ => ld_abs prog_type s pc
  | BpfInsn.LdInd src _ _ => ld_ind prog_type s pc src
  | BpfInsn.MulImm dst imm high => mul64 s pc dst (Imm imm) high
  | BpfInsn.MulReg dst src high => mul64 s pc dst (Reg src) high
  | BpfInsn.LdMem dst base offset size sign_extend =>
      let? v := load prog_type s pc base offset size sign_extend in set_reg s dst v
  | BpfInsn.StMem src base offset size =>
      let? value := reg s src in store s pc base offset size value
  | BpfInsn.StMemImm imm base offset size => store s pc base offset size (SpecValue.const_scalar (as_u64 imm))
  | BpfInsn.LdImm64 dst imm => set_reg s dst (SpecValue.const_scalar imm)
  | BpfInsn.LdMapFd dst fd _ _ _ => set_reg s dst (map_pointer maps fd)
  | BpfInsn.LdMapValue dst fd offset _ _ => set_reg s dst (map_value_pointer maps fd offset)
  | BpfInsn.LdImm64Second _ => failure pc "jump into the middle of ldimm64 insn" []
  | BpfInsn.Atomic dst src offset size op fetch => atomic s pc dst src offset size op fetch
  | BpfInsn.CallKfunc btf_id => failure pc "calling kernel function (btf id {btf_id}) is not allowed" [Num btf_id]
  | _ =>
      match arith insn, arith32 insn with
      | Some (dst, op, rhs, _), _ => alu64 s pc dst op rhs
      | None, Some (dst, op, rhs, _) => alu32 s pc dst op rhs
      | None, None => Ok s
      end
  end.

Definition is_ldimm64 (insn : BpfInsn) : bool :=
  match insn with BpfInsn.LdImm64 _ _ | BpfInsn.LdMapFd _ _ _ _ _ | BpfInsn.LdMapValue _ _ _ _ _ => true | _ => false end.

(** The points pushed on the worklist, in that order, and the counter of
    reference numbers. *)
Definition spec_step (insn : BpfInsn) (pc : Z) (s : SpecState) (next_ref_id : Z) : result SpecStop (list point * Z) :=
  let same (r : result SpecStop (list point)) := let? l := r in Ok (l, next_ref_id) in
  match insn with
  | BpfInsn.Jmp offset => Ok ([(spec_branch_target pc offset, s)], next_ref_id)
  | BpfInsn.Jset dst src offset => same (spec_jset s pc dst src offset)
  | BpfInsn.JsetImm dst imm offset => same (spec_jset_imm s pc dst imm offset)
  | BpfInsn.Jmp32 dst src imm offset op => same (spec_jmp32 s pc dst src imm offset op)
  | BpfInsn.Call imm =>
      let? (s, next) := helper_call s pc imm next_ref_id in Ok ([(pc + 1, s)], next)
  | BpfInsn.CallSub offset => same (call_sub s pc offset)
  | BpfInsn.Exit => same (spec_exit s pc)
  | _ =>
      match compare insn with
      | Some (dst, c, rhs, offset, signed) => same (spec_cond s pc dst c rhs offset signed)
      | None =>
          let? s := straight insn pc s in
          Ok ([(if is_ldimm64 insn then pc + 2 else pc + 1, s)], next_ref_id)
      end
  end.
End step.

(** * The exploration *)

Record SpecLimits := mkSpecLimits { max_states : Z; max_steps : Z }.
Definition default_limits : SpecLimits := mkSpecLimits 8192 200000.

(** The target of a jump that can close a loop. *)
Definition jump_target (pc : Z) (insn : BpfInsn) : option Z :=
  match insn with
  | BpfInsn.Jmp offset => Some (spec_branch_target pc offset)
  | _ => match compare insn with Some (_, _, _, offset, _) => Some (spec_branch_target pc offset) | None => None end
  end.
Fixpoint heads_from (pc : Z) (program : list BpfInsn) (heads : list Z) : list Z :=
  match program with
  | [] => heads
  | insn :: rest =>
      let heads :=
        match jump_target pc insn with
        | Some target => if (target <=? pc) && negb (bool_decide (target ∈ heads)) then heads ++ [target] else heads
        | None => heads
        end in
      heads_from (pc + 1) rest heads
  end.
Definition compute_loop_heads (program : list BpfInsn) : list Z := heads_from 0 program [].

Record Runner := mkRunner {
  worklist : list point;   (* the last pushed first *)
  steps : Z;
  visited : list point;
  next_ref_id : Z
}.
Definition start : Runner := mkRunner [(0, initial)] 0 [] 0x40000000.

Definition SpecResult : Type := result SpecStop SpecVerdict.

(** One turn of the loop: [inl] is the result of the run. *)
Definition turn (maps : Maps) (prog_type : ProgType) (program : list BpfInsn) (loop_heads : list Z) (limits : SpecLimits)
    (r : Runner) : SpecResult + Runner :=
  match worklist r with
  | [] => inl (Ok SpecVerdict.Accept)
  | (pc, s) :: rest =>
      let steps := steps r + 1 in
      let r := mkRunner rest steps (visited r) (next_ref_id r) in
      if max_steps limits <? steps then inl (failure pc "spec exploration budget exceeded (max_steps)" [])
      else if max_states limits <? Z.of_nat (length (visited r))
      then inl (failure pc "spec state budget exceeded (max_states — the program may not converge)" [])
      else
        match get program pc with
        | None => inl (failure pc "pc out of program range" [])
        | Some insn =>
            if bool_decide ((pc, s) ∈ visited r) then
              if bool_decide (pc ∈ loop_heads) then inl (failure pc "infinite loop detected" []) else inr r
            else
              match spec_step maps prog_type insn pc s (next_ref_id r) with
              | Err e => inl (Err e)
              | Ok (nexts, id) => inr (mkRunner (reverse nexts ++ rest) steps ((pc, s) :: visited r) id)
              end
        end
  end.

Fixpoint run (fuel : nat) (maps : Maps) (prog_type : ProgType) (program : list BpfInsn) (loop_heads : list Z)
    (limits : SpecLimits) (r : Runner) : option SpecResult :=
  match fuel with
  | O => None
  | S fuel =>
      match turn maps prog_type program loop_heads limits r with
      | inl res => Some res
      | inr r => run fuel maps prog_type program loop_heads limits r
      end
  end.

(** Every turn counts a step, and one more than [max_steps] ends the run. *)
Definition spec_fuel (limits : SpecLimits) : nat := Z.to_nat (max_steps limits) + 2.

(** A verdict that ends the loop early is the verdict of the run. *)
Definition as_verdict (r : SpecResult) : option SpecVerdict :=
  match r with Ok v => Some v | Err e => stop_verdict e end.

Definition verify_spec_run (program : list BpfInsn) (maps : Maps) (limits : SpecLimits) (prog_type : ProgType)
  : option SpecResult :=
  run (spec_fuel limits) maps prog_type program (compute_loop_heads program) limits start.
(** The verdict; a panic has none. *)
Definition verify_spec_limited (program : list BpfInsn) (maps : Maps) (limits : SpecLimits) (prog_type : ProgType)
  : option SpecVerdict :=
  match verify_spec_run program maps limits prog_type with Some r => as_verdict r | None => None end.
Definition verify_spec_with (program : list BpfInsn) (maps : Maps) (prog_type : ProgType) : option SpecVerdict :=
  verify_spec_limited program maps default_limits prog_type.
Definition verify_spec (program : list BpfInsn) (maps : Maps) : option SpecVerdict :=
  verify_spec_with program maps ProgType.SocketFilter.

(** * The run *)

Lemma elem_of_worklist (nexts rest : list point) q : q ∈ reverse nexts ++ rest <-> q ∈ nexts \/ q ∈ rest.
Proof. rewrite elem_of_app, elem_of_reverse. done. Qed.

Section exploration.
Context (maps : Maps) (prog_type : ProgType) (program : list BpfInsn) (loop_heads : list Z) (limits : SpecLimits).

(** The point was executed: its successors, for some value of the reference
    counter, are all among [points]. *)
Definition executed (points : list point) (p : point) : Prop :=
  exists insn id nexts id', get program (fst p) = Some insn /\
    spec_step maps prog_type insn (fst p) (snd p) id = Ok (nexts, id') /\ forall q, q ∈ nexts -> q ∈ points.

Record runner_ok (r : Runner) : Prop := {
  ok_start : (0, initial) ∈ visited r ++ worklist r;
  ok_distinct : NoDup (visited r);
  ok_executed : forall p, p ∈ visited r -> executed (visited r ++ worklist r) p
}.

Lemma executed_mono points points' p : (forall q, q ∈ points -> q ∈ points') -> executed points p -> executed points' p.
Proof. intros Hq (insn & id & nexts & id' & ? & ? & ?). exists insn, id, nexts, id'. auto. Qed.

Lemma start_ok : runner_ok start.
Proof. split; cbn; [by left|constructor|]. intros p Hp. by apply not_elem_of_nil in Hp. Qed.

(** The cases of a turn that does not end the run. *)
Lemma turn_continues r r' :
  turn maps prog_type program loop_heads limits r = inr r' ->
  exists pc s rest insn, worklist r = (pc, s) :: rest /\ steps r' = steps r + 1 /\ steps r' <= max_steps limits /\
    get program pc = Some insn /\
    ((pc, s) ∈ visited r /\ r' = mkRunner rest (steps r + 1) (visited r) (next_ref_id r) \/
     (~ (pc, s) ∈ visited r) /\ exists nexts id,
       spec_step maps prog_type insn pc s (next_ref_id r) = Ok (nexts, id) /\
       r' = mkRunner (reverse nexts ++ rest) (steps r + 1) ((pc, s) :: visited r) id).
Proof.
  unfold turn. destruct (worklist r) as [|[pc s] rest]; [done|]. cbn zeta. cbn [visited next_ref_id].
  destruct (Z.ltb_spec (max_steps limits) (steps r + 1)); [done|]. destruct (_ <? _); [done|].
  destruct (get program pc) as [insn|] eqn:Hg; [|done]. intros Ht. exists pc, s, rest, insn.
  assert (Hsteps : steps r' = steps r + 1).
  { revert Ht. case_bool_decide; [case_bool_decide; [done|]; by intros [= <-]|].
    destruct (spec_step _ _ _ _ _ _) as [[nexts id]|]; [by intros [= <-]|done]. }
  split; [done|]. split; [done|]. split; [lia|]. split; [done|]. revert Ht. case_bool_decide as Hin.
  - case_bool_decide; [done|]. intros [= <-]. by left.
  - destruct (spec_step _ _ _ _ _ _) as [[nexts id]|]; [|done]. intros [= <-]. right. split; [done|]. by exists nexts, id.
Qed.

Lemma turn_ok r r' : runner_ok r -> turn maps prog_type program loop_heads limits r = inr r' -> runner_ok r'.
Proof.
  intros [Hs Hd He] Ht. destruct (turn_continues r r' Ht) as (pc & s & rest & insn & Hw & _ & _ & Hg & [[Hin ->]|(Hnin & nexts & id & Hstep & ->)]);
    rewrite Hw in *.
  - assert (Hsub : forall q, q ∈ visited r ++ (pc, s) :: rest -> q ∈ visited r ++ rest).
    { intros q. rewrite !elem_of_app, elem_of_cons. intros [?|[->|?]]; auto. }
    split; cbn; [by apply Hsub|done|]. intros p Hp. eapply executed_mono; [exact Hsub|by apply He].
  - assert (Hsub : forall q, q ∈ visited r ++ (pc, s) :: rest -> q ∈ ((pc, s) :: visited r) ++ reverse nexts ++ rest).
    { intros q. rewrite !elem_of_app, !elem_of_cons. tauto. }
    split; cbn [visited worklist]; [by apply Hsub|by constructor|]. intros p [->|Hp]%elem_of_cons.
    + exists insn, (next_ref_id r), nexts, id. split; [done|]. split; [done|]. intros q Hq. apply elem_of_app. right. by apply elem_of_worklist; left.
    + eapply executed_mono; [exact Hsub|by apply He].
Qed.

(** What holds at the start and is kept by the turns holds where the run accepts. *)
Lemma run_invariant (P : Runner -> Prop) fuel r v :
  (forall r r', P r -> turn maps prog_type program loop_heads limits r = inr r' -> P r') ->
  P r -> run fuel maps prog_type program loop_heads limits r = Some v ->
  exists r', P r' /\ turn maps prog_type program loop_heads limits r' = inl v.
Proof.
  intros Hstep. revert r. induction fuel as [|fuel IH]; intros r Hr; [done|]. cbn [run].
  destruct (turn _ _ _ _ _ r) as [res|r1] eqn:Ht; [|by eauto]. intros [= <-]. by exists r.
Qed.

Lemma run_total fuel r :
  (Z.to_nat (max_steps limits + 1 - steps r) < fuel)%nat ->
  exists res, run fuel maps prog_type program loop_heads limits r = Some res.
Proof.
  revert r. induction fuel as [|fuel IH]; intros r Hf; [lia|]. cbn [run].
  destruct (turn _ _ _ _ _ r) as [res|r1] eqn:Ht; [by eexists|].
  destruct (turn_continues r r1 Ht) as (_ & _ & _ & _ & _ & Hst & Hle & _). apply IH. lia.
Qed.

(** The turn that ends with [Accept] finds the worklist empty. *)
Lemma accept_empty r v : turn maps prog_type program loop_heads limits r = inl v -> as_verdict v = Some SpecVerdict.Accept -> worklist r = [].
Proof.
  unfold turn. destruct (worklist r) as [|[pc s] rest]; [done|]. cbn zeta. intros Ht Hv. exfalso.
  assert (Herr : forall e, v = Err e -> False) by (intros e ->; by destruct e).
  destruct (_ <? _); [injection Ht as <-; by eapply Herr|]. destruct (_ <? _); [injection Ht as <-; by eapply Herr|].
  destruct (get program pc) as [insn|]; [|injection Ht as <-; by eapply Herr].
  case_bool_decide; [case_bool_decide; [injection Ht as <-; by eapply Herr|done]|].
  destruct (spec_step _ _ _ _ _ _) as [[nexts id]|e]; [done|]. injection Ht as <-. by eapply Herr.
Qed.
End exploration.

Lemma spec_run_total (program : list BpfInsn) (maps : Maps) (limits : SpecLimits) (prog_type : ProgType) :
  exists r, verify_spec_run program maps limits prog_type = Some r.
Proof. apply run_total. unfold spec_fuel. cbn. lia. Qed.

Lemma accepted_run (P : Runner -> Prop) (program : list BpfInsn) (maps : Maps) (limits : SpecLimits) (prog_type : ProgType) :
  (forall r r', P r -> turn maps prog_type program (compute_loop_heads program) limits r = inr r' -> P r') -> P start ->
  verify_spec_limited program maps limits prog_type = Some SpecVerdict.Accept ->
  exists r, P r /\ worklist r = [] /\ runner_ok maps prog_type program r.
Proof.
  intros Hstep Hs. unfold verify_spec_limited, verify_spec_run. destruct (run _ _ _ _ _ _ _) as [v|] eqn:Hr; [|done]. intros Hv.
  destruct (run_invariant maps prog_type program (compute_loop_heads program) limits
    (fun r => P r /\ runner_ok maps prog_type program r) (spec_fuel limits) start v) as (r & [Hp Hok] & Ht); [|by split; [|apply start_ok]|exact Hr|].
  { intros r r' [Hp Hok] Ht. split; [by eapply Hstep|by eapply turn_ok]. }
  exists r. split; [done|]. split; [by eapply accept_empty|done].
Qed.

(** * Properties *)

(** The specification interpreter ends on every program: the step budget bounds
    the turns of its loop, whatever the states and the loop heads. *)
Theorem spec_run_terminates (program : list BpfInsn) (maps : Maps) (limits : SpecLimits) (prog_type : ProgType) :
  exists r, verify_spec_run program maps limits prog_type = Some r.
Proof. apply spec_run_total. Qed.

(** What an accepted program may do was explored: there is a list of distinct
    points that contains the start and is closed under the transfer function; at
    every point there is an instruction, it was executed on the state without a
    violation, and all the points it leads to are in the list. *)
Theorem spec_accept_closed (program : list BpfInsn) (maps : Maps) (limits : SpecLimits) (prog_type : ProgType) :
  verify_spec_limited program maps limits prog_type = Some SpecVerdict.Accept ->
  exists points, NoDup points /\ (0, initial) ∈ points /\ forall p, p ∈ points -> executed maps prog_type program points p.
Proof.
  intros Ha. destruct (accepted_run (fun _ => True) _ _ _ _ (fun _ _ _ _ => I) I Ha) as (r & _ & Hw & [Hs Hd He]).
  rewrite Hw, app_nil_r in *. by exists (visited r).
Qed.

(** A countdown through the stack. *)
Definition spec_countdown : list BpfInsn :=
  [BpfInsn.MovImm 0 2; BpfInsn.StMem 0 10 (-8) MemSize.DW; BpfInsn.LdMem 0 10 (-8) MemSize.DW false; BpfInsn.SubImm 0 1;
   BpfInsn.JneImm 0 0 (-4); BpfInsn.Exit].
Lemma spec_accept_closed_witness :
  verify_spec_limited spec_countdown ∅ default_limits ProgType.SocketFilter = Some SpecVerdict.Accept /\
  exists points, (0, initial) ∈ points /\ forall p, p ∈ points -> executed ∅ ProgType.SocketFilter spec_countdown points p.
Proof.
  assert (Ha : verify_spec_limited spec_countdown ∅ default_limits ProgType.SocketFilter = Some SpecVerdict.Accept) by (vm_compute; reflexivity). split; [exact Ha|].
  destruct (spec_accept_closed spec_countdown ∅ default_limits ProgType.SocketFilter Ha) as (points & _ & Hs & He).
  exists points. split; [exact Hs|exact He].
Defined.
