(* ===== verification/SpecSafe.v ===== *)
(** Well-formed states of the specification interpreter and their preservation: every
    interval is ordered, pointer offsets stay within a bound that grows by 2^29 per
    step, the arrays have their lengths, and the bytes under a spilled slot are
    initialized.  On such states no decoded instruction panics, every stack
    access stays in the frame, and what a load reads was written before. *)
From Stdlib Require Import ZArith Lia List Bool String.
From stdpp Require Import base list gmap.
From S2P Require Import Prelude Tnum Insn Alu Branch Ctx ConcreteRun SpecRange SpecState SpecRun.
Open Scope Z_scope.

(** * Outcomes *)

(** The result satisfies [P] or the operation ends with a rejection; no panic. *)
Definition spec_safely {A} (P : A -> Prop) (m : result SpecStop A) : Prop :=
  match m with
  | Ok a => P a
  | Err SpecPanic => False
  | Err _ => True
  end.

Lemma spec_safely_bind {A B} (P : A -> Prop) (Q : B -> Prop) (m : result SpecStop A) (k : A -> result SpecStop B) :
  spec_safely P m -> (forall a, P a -> spec_safely Q (k a)) -> spec_safely Q (rbind m k).
Proof. destruct m as [a|[]]; cbn; auto. Qed.
Lemma spec_safely_mono {A} (P Q : A -> Prop) (m : result SpecStop A) :
  spec_safely P m -> (forall a, P a -> Q a) -> spec_safely Q m.
Proof. destruct m as [a|[]]; cbn; auto. Qed.
Lemma spec_safely_ok {A} (P : A -> Prop) a : P a -> spec_safely P (Ok a).
Proof. done. Qed.
Lemma spec_safely_fail {A} (P : A -> Prop) pc msg vals : spec_safely P (failure pc msg vals).
Proof. exact I. Qed.
Lemma spec_safely_result {A} (P : A -> Prop) (m : result SpecStop A) a : spec_safely P m -> m = Ok a -> P a.
Proof. by intros H ->. Qed.
Create HintDb spec.
#[export] Hint Resolve spec_safely_fail : spec.

(** Step through a bind, with the hypothesis about its first part from the hints. *)
Ltac spec_bind := eapply spec_safely_bind; [by eauto with spec|].

(** * Well-formed values and states *)

Definition offsets_wf (B lo hi : Z) : Prop := - B <= lo /\ lo <= hi /\ hi <= B.
Definition value_wf (B : Z) (v : SpecValue) : Prop :=
  match v with
  | SpecValue.Scalar lo hi => abs_wf ((lo, hi) : Range)
  | SpecValue.PtrToStack lo hi | SpecValue.PtrToMapValue lo hi _ | SpecValue.PtrToMem lo hi _ _ => offsets_wf B lo hi
  | SpecValue.PtrToCtx off => offsets_wf B off off
  | _ => True
  end.
Definition spill_wf (B : Z) (sp : option Spill) : Prop :=
  match sp with Some sp => value_wf B (filled sp) | None => True end.

(** The eight bytes of every spilled slot are initialized. *)
Definition spills_ready (st : SpecStack) : Prop :=
  forall slot sp i, sspill st !! slot = Some (Some sp) -> (8 * slot <= i < 8 * slot + 8)%nat -> sinit st !! i = Some true.
Record stack_wf (B : Z) (st : SpecStack) : Prop := {
  wf_bytes : length (sbytes st) = 512%nat /\ Forall (fun b => 0 <= b < 256) (sbytes st);
  wf_init : length (sinit st) = 512%nat;
  wf_spill : length (sspill st) = 64%nat /\ Forall (spill_wf B) (sspill st);
  wf_dynptr : length (sdynptr st) = 64%nat;
  wf_ready : spills_ready st
}.
Record frame_wf (B : Z) (f : SpecFrame) : Prop := {
  wf_regs : length (sregs f) = 11%nat /\ Forall (value_wf B) (sregs f);
  wf_stack : stack_wf B (sstack f)
}.
Definition saved_wf (B : Z) (f : option SpecFrame) : Prop := match f with Some f => frame_wf B f | None => True end.
Record state_wf (B : Z) (s : SpecState) : Prop := {
  wf_cur : frame_wf B (cur s);
  wf_saved : length (saved s) = 7%nat /\ Forall (saved_wf B) (saved s);
  wf_refs : length (refs s) = 8%nat /\ 0 <= refs_cnt s <= 8
}.

Lemma value_wf_mono B B' v : B <= B' -> value_wf B v -> value_wf B' v.
Proof. intros HB. destruct v; cbn; unfold offsets_wf; try done; lia. Qed.
Lemma stack_wf_mono B B' st : B <= B' -> stack_wf B st -> stack_wf B' st.
Proof.
  intros HB [? ? [? Hs] ? ?]. split; try done. split; [done|]. eapply Forall_impl; [exact Hs|].
  intros [sp|]; [|done]. by apply value_wf_mono.
Qed.
Lemma frame_wf_mono B B' f : B <= B' -> frame_wf B f -> frame_wf B' f.
Proof.
  intros HB [[Hl Hr] Hs]. split; [split; [done|]|by eapply stack_wf_mono]. eapply Forall_impl; [exact Hr|]. intros v. by apply value_wf_mono.
Qed.
Lemma state_wf_mono B B' s : B <= B' -> state_wf B s -> state_wf B' s.
Proof.
  intros HB [Hc [Hl Hs] Hr]. split; [by eapply frame_wf_mono|split; [done|]|done]. eapply Forall_impl; [exact Hs|].
  intros [f|]; [|done]. by apply frame_wf_mono.
Qed.

Lemma const_scalar_wf B v : is_u64 v -> value_wf B (SpecValue.const_scalar v).
Proof. intros. cbn. lia. Qed.
Lemma unknown_scalar_wf B : value_wf B SpecValue.unknown_scalar.
Proof. cbn. lia. Qed.
Lemma range_wf B (r : Range) : abs_wf r -> value_wf B (SpecValue.Scalar (fst r) (snd r)).
Proof. by destruct r. Qed.
#[export] Hint Resolve unknown_scalar_wf range_wf : spec.

(** ** Arrays *)

Lemma get_ok {A} (P : A -> Prop) (l : list A) i : Forall P l -> 0 <= i < Z.of_nat (length l) -> spec_safely P (index l i).
Proof.
  intros Hl Hi. unfold index, get. rewrite (proj2 (Z.ltb_ge i 0)) by lia.
  destruct (lookup_lt_is_Some_2 l (Z.to_nat i)) as [x Hx]; [lia|]. rewrite Hx. by apply (proj1 (Forall_lookup P l) Hl _ _ Hx).
Qed.
Lemma index_ok {A} (l : list A) i : 0 <= i < Z.of_nat (length l) -> spec_safely (fun x => l !! Z.to_nat i = Some x) (index l i).
Proof.
  intros Hi. unfold index, get. rewrite (proj2 (Z.ltb_ge i 0)) by lia.
  destruct (lookup_lt_is_Some_2 l (Z.to_nat i)) as [x Hx]; [lia|]. by rewrite Hx.
Qed.

Lemma fill_length {A} first last (x : A) l : length (fill first last x l) = length l.
Proof. apply length_imap. Qed.
Lemma fill_lookup {A} first last (x : A) l i :
  fill first last x l !! i = (fun y => if (first <=? Z.of_nat i) && (Z.of_nat i <? last) then x else y) <$> l !! i.
Proof. unfold fill. by rewrite list_lookup_imap. Qed.
Lemma fill_forall {A} (P : A -> Prop) first last x l : P x -> Forall P l -> Forall P (fill first last x l).
Proof.
  rewrite !Forall_lookup. intros Hx Hl i y. rewrite fill_lookup. destruct (l !! i) as [z|] eqn:Hi; [|done].
  cbn. intros [= <-]. destruct (_ && _); [done|by eapply Hl].
Qed.
(** What a loop over a range leaves behind. *)
Definition filled_range {A} (first last : Z) (x : A) (l l' : list A) : Prop := l' = fill first last x l.
Lemma set_range_ok {A} first last (x : A) l :
  0 <= first -> last <= Z.of_nat (length l) -> spec_safely (filled_range first last x l) (set_range first last x l).
Proof.
  intros Hf Hl. unfold set_range. rewrite (proj2 (Z.leb_le 0 first)), (proj2 (Z.leb_le last (Z.of_nat (length l)))) by lia. by rewrite orb_true_r.
Qed.
Lemma i64_ok x : is_i64 x -> spec_safely (fun y => y = x) (i64 x).
Proof.
  intros Hx. unfold i64, checked. rewrite (proj2 (Z.leb_le I64_MIN x)), (proj2 (Z.leb_le x I64_MAX)) by lia. done.
Qed.
Lemma sat_id x : is_i64 x -> sat_i64 x = x.
Proof. unfold sat_i64, saturate. intros. lia. Qed.

(** ** Registers and frames *)

Definition reg_no (r : Z) : Prop := 0 <= r <= 10.

Section wf.
Context (B : Z) (HB : 2 ^ 32 <= B <= 2 ^ 62).

Lemma reg_ok s r : state_wf B s -> reg_no r -> spec_safely (value_wf B) (reg s r).
Proof. intros [[[Hl Hr] _] _ _] Hn. apply get_ok; [done|]. unfold reg_no in Hn. lia. Qed.
Lemma with_regs_wf s rs : state_wf B s -> length rs = 11%nat -> Forall (value_wf B) rs -> state_wf B (with_regs rs s).
Proof. intros [[_ Hs] ? ?] Hl Hr. split; [split|..]; done. Qed.
Lemma set_reg_ok s r v : state_wf B s -> reg_no r -> value_wf B v -> spec_safely (state_wf B) (set_reg s r v).
Proof.
  intros Hs Hr Hv. eapply spec_safely_bind; [by apply reg_ok|]. intros _ _. pose proof Hs as [[[Hl Hf] _] _ _].
  apply with_regs_wf; [done|by rewrite length_insert|]. by apply Forall_insert.
Qed.
Lemma set_stack_wf s st : state_wf B s -> stack_wf B st -> state_wf B (set_stack st s).
Proof. intros [[Hr _] ? ?] Hst. split; [split|..]; done. Qed.
Lemma stack_of_wf s : state_wf B s -> stack_wf B (stack s).
Proof. by intros [[_ ?] _ _]. Qed.
End wf.
#[export] Hint Resolve reg_ok set_reg_ok stack_of_wf set_stack_wf : spec.

(** * Arithmetic *)

Abbreviation STEP := 536870912 (only parsing).

Lemma alu_range_wf op d s : abs_wf d -> abs_wf s -> abs_wf (alu_range op d s) /\ abs_wf (alu_range32 op d s).
Proof.
  intros Hd Hs. assert (Hm : forall r : Range, abs_wf r -> fst r ∈γ r) by (intros [lo hi] ?; cbn in *; lia).
  split; [apply (alu_range_ok op d s (fst d) (fst s)); auto|apply (alu_range32_ok op d s (fst d) (fst s)); auto].
Qed.

(** The signed view of an addend is ordered. *)
Definition ordered_view (a : Range) : Prop := forall lo hi, as_signed a = Some (lo, hi) -> lo <= hi.
Lemma wf_ordered a : abs_wf a -> ordered_view a.
Proof. intros Ha lo hi Hs. destruct (as_signed_some a lo hi Ha Hs) as [(_ & _ & ? & _) _]. lia. Qed.
Lemma negated_ordered a v : abs_wf a -> negate_scalar (SpecValue.Scalar (fst a) (snd a)) = v ->
  exists lo hi, v = SpecValue.Scalar lo hi /\ ordered_view (lo, hi).
Proof.
  intros Ha <-. unfold negate_scalar. cbn [SpecValue.as_scalar]. destruct a as [a0 a1]. cbn [fst snd].
  destruct (as_signed (a0, a1)) as [[slo shi]|] eqn:Hs; [|by exists 0, U64_MAX].
  destruct (as_signed_some _ _ _ Ha Hs) as [(Hl & Hh & Hle & Hsg) _]. eexists _, _. split; [done|].
  intros lo hi. unfold as_signed. cbn [fst snd]. rewrite !as_i64_as_u64_any. change (Z.shiftl 1 63) with (2 ^ 63).
  destruct (_ || _) eqn:Hc; [|done]. intros [= <- <-]. apply orb_true_iff in Hc. rewrite Z.ltb_lt, Z.leb_le in Hc.
  assert (Hi : forall x, as_i64 (as_i64 x) = as_i64 x) by (intros x; apply as_i64_id, as_i64_range). rewrite !Hi.
  destruct (Z.eq_dec slo I64_MIN) as [->|Hn].
  - destruct (Z.eq_dec shi I64_MIN) as [->|Hn']; [done|exfalso].
    rewrite (as_i64_id (- shi)) in Hc by lia. replace (as_u64 (as_i64 (- I64_MIN))) with (2 ^ 63) in Hc by done.
    destruct Hc as [Hc|Hc]; [lia|]. rewrite as_u64_nonneg in Hc; lia.
  - rewrite (as_i64_id (- shi)), (as_i64_id (- slo)) by lia. lia.
Qed.

Definition sane_bounds (p : Z * Z) : Prop := - STEP <= fst p /\ fst p <= snd p /\ snd p <= STEP.
Lemma sane_addend_ok pc a : ordered_view a -> spec_safely sane_bounds (sane_addend pc a).
Proof.
  intros Ha. unfold sane_addend. destruct (as_signed a) as [[slo shi]|] eqn:Hs; [|auto with spec].
  pose proof (Ha _ _ Hs). destruct (_ || _) eqn:Hc; [auto with spec|]. bool_hyps. cbn. unfold sane_bounds. cbn. lia.
Qed.
#[export] Hint Resolve sane_addend_ok wf_ordered : spec.

(** Two well-formed addends of an offset. *)
Lemma shifted_offsets B lo hi slo shi :
  2 ^ 32 <= B <= 2 ^ 62 -> offsets_wf B lo hi -> sane_bounds (slo, shi) ->
  offsets_wf (B + STEP) (sat_i64 (lo + slo)) (sat_i64 (hi + shi)).
Proof. unfold offsets_wf, sane_bounds. cbn. intros. rewrite !sat_id by lia. lia. Qed.

Lemma scalar_of_ok B v : value_wf B v -> SpecValue.is_scalar v = true ->
  spec_safely (fun a => abs_wf a /\ v = SpecValue.Scalar (fst a) (snd a)) (scalar_of v).
Proof. by destruct v. Qed.

Lemma not_pointer_scalar v : SpecValue.is_pointer v = false -> v <> SpecValue.Uninit -> SpecValue.is_scalar v = true.
Proof. by destruct v. Qed.

Section arith.
Context (B : Z) (HB : 2 ^ 32 <= B <= 2 ^ 62).
Let B' := B + STEP.

Lemma grow s : state_wf B s -> state_wf B' s.
Proof. apply state_wf_mono. unfold B'. lia. Qed.
Lemma grow_value v : value_wf B v -> value_wf B' v.
Proof. apply value_wf_mono. unfold B'. lia. Qed.
#[local] Hint Resolve grow grow_value : spec.
Lemma set_grown s r v : state_wf B s -> reg_no r -> value_wf B' v -> spec_safely (state_wf B') (set_reg s r v).
Proof. intros. apply set_reg_ok; auto with spec. Qed.

Lemma ptr_add_ok s pc dst lo hi :
  state_wf B s -> reg_no dst -> ordered_view (lo, hi) ->
  spec_safely (state_wf B') (ptr_add s pc dst (SpecValue.Scalar lo hi)).
Proof.
  intros Hs Hr Ha. unfold ptr_add. cbn [scalar_of SpecValue.as_scalar]. cbn [rbind].
  eapply spec_safely_bind; [by apply sane_addend_ok|]. intros [slo shi] Hsh. spec_bind. intros d Hd.
  pose proof (fun lo hi => shifted_offsets B lo hi slo shi HB) as Hoff.
  destruct d; cbn in Hd; auto with spec.
  - apply set_grown; [done|done|]. by apply Hoff.
  - destruct (Z.eqb_spec slo shi) as [<-|]; [|auto with spec]. apply set_grown; [done|done|]. by apply Hoff.
  - apply set_grown; [done|done|]. by apply Hoff.
Qed.

Lemma scalar_plus_pointer_ok s pc dst ptr scalar :
  state_wf B s -> reg_no dst -> value_wf B ptr -> value_wf B scalar ->
  spec_safely (state_wf B') (scalar_plus_pointer s pc dst ptr scalar).
Proof.
  intros Hs Hr Hp Hv. unfold scalar_plus_pointer. eapply (spec_safely_bind sane_bounds).
  { destruct scalar; cbn in *; auto with spec. }
  intros [slo shi] Hsh. pose proof (fun lo hi => shifted_offsets B lo hi slo shi HB) as Hoff.
  destruct ptr; cbn in Hp; auto with spec; (apply set_grown; [done|done|by apply Hoff]).
Qed.

Definition rhs_ok (rhs : Rhs) : Prop := match rhs with Imm _ => True | Reg r => reg_no r end.
Lemma read_rhs_ok s pc rhs msg :
  state_wf B s -> rhs_ok rhs -> spec_safely (fun v => value_wf B v /\ v <> SpecValue.Uninit) (read_rhs s pc rhs msg).
Proof.
  intros Hs Hr. destruct rhs as [imm|r]; cbn [read_rhs].
  - split; [apply const_scalar_wf, as_u64_range|done].
  - spec_bind. intros v Hv. case_bool_decide; auto with spec. by split.
Qed.

Lemma set_scalar_ok s dst (r : Range) :
  state_wf B s -> reg_no dst -> abs_wf r -> spec_safely (state_wf B') (set_reg s dst (SpecValue.Scalar (fst r) (snd r))).
Proof. intros. apply set_grown; auto with spec. Qed.

Lemma alu64_ok s pc dst op rhs :
  state_wf B s -> reg_no dst -> rhs_ok rhs -> spec_safely (state_wf B') (alu64 s pc dst op rhs).
Proof.
  intros Hs Hd Hr. unfold alu64. spec_bind. intros d Hdv. case_bool_decide as Hu; [auto with spec|].
  eapply spec_safely_bind; [by apply read_rhs_ok|]. intros r [Hrv Hru]. destruct (SpecValue.is_pointer d) eqn:Hp.
  - destruct (_ && _) eqn:Hadd.
    { apply andb_true_iff in Hadd as [_ Hsc]. destruct r; try discriminate Hsc. apply ptr_add_ok; auto with spec. }
    destruct (bool_decide (op = Op.Sub)); [|auto with spec]. destruct (SpecValue.is_pointer r) eqn:Hrp; [auto with spec|].
    destruct (is_r10 d); [auto with spec|]. pose proof (not_pointer_scalar r Hrp Hru) as Hsc. destruct r as [|rlo rhi| | | | | | |]; try discriminate Hsc.
    destruct (negated_ordered (rlo, rhi) _ Hrv eq_refl) as (lo & hi & Heq & Ho). cbn [fst snd] in Heq. rewrite Heq. by apply ptr_add_ok.
  - destruct (SpecValue.is_pointer r) eqn:Hrp.
    + case_bool_decide; [|auto with spec]. by apply scalar_plus_pointer_ok.
    + eapply spec_safely_bind; [apply (scalar_of_ok B); [done|by apply not_pointer_scalar]|]. intros rd [Hrd _].
      eapply spec_safely_bind; [apply (scalar_of_ok B); [done|by apply not_pointer_scalar]|]. intros rs [Hrs _].
      apply set_scalar_ok; [done|done|]. by apply alu_range_wf.
Qed.

Lemma alu32_ok s pc dst op rhs :
  state_wf B s -> reg_no dst -> rhs_ok rhs -> spec_safely (state_wf B') (alu32 s pc dst op rhs).
Proof.
  intros Hs Hd Hr. unfold alu32. spec_bind. intros d Hdv. case_bool_decide as Hu; [auto with spec|].
  destruct (SpecValue.is_pointer d) eqn:Hp; [auto with spec|].
  eapply spec_safely_bind; [by apply read_rhs_ok|]. intros r [Hrv Hru]. destruct (SpecValue.is_pointer r) eqn:Hrp; [auto with spec|].
  eapply spec_safely_bind; [apply (scalar_of_ok B); [done|by apply not_pointer_scalar]|]. intros rd [Hrd _].
  eapply spec_safely_bind; [apply (scalar_of_ok B); [done|by apply not_pointer_scalar]|]. intros rs [Hrs _].
  apply set_scalar_ok; [done|done|]. by apply alu_range_wf.
Qed.

Lemma mov_reg_ok s pc dst src :
  state_wf B s -> reg_no dst -> reg_no src -> spec_safely (state_wf B') (mov_reg s pc dst src).
Proof. intros. unfold mov_reg. spec_bind. intros v Hv. case_bool_decide; auto with spec. Qed.
Lemma mov32_reg_ok s pc dst src :
  state_wf B s -> reg_no dst -> reg_no src -> spec_safely (state_wf B') (mov32_reg s pc dst src).
Proof.
  intros. unfold mov32_reg. spec_bind. intros v Hv. destruct v; auto with spec. apply set_grown; auto.
  fold (truncate32 lo). rewrite truncate32_as. cbn in *. unfold as_u. destruct Hv as (? & ? & ?). cbn in *. div_lia.
Qed.
Lemma mul64_ok s pc dst rhs high :
  state_wf B s -> reg_no dst -> rhs_ok rhs -> spec_safely (state_wf B') (mul64 s pc dst rhs high).
Proof.
  intros. unfold mul64. eapply spec_safely_bind; [by apply alu64_ok|]. intros s' Hs'. case_bool_decide; [done|]. auto with spec.
Qed.
End arith.
#[export] Hint Resolve alu64_ok alu32_ok mov_reg_ok mov32_reg_ok mul64_ok : spec.

(** * Memory *)

(** A range of positions of the frame, and that its bytes are initialized. *)
Definition in_frame (first last : Z) : Prop := 0 <= first /\ first <= last /\ last <= 512.
Definition ready_between (st : SpecStack) (first last : Z) : Prop :=
  forall i, first <= Z.of_nat i < last -> sinit st !! i = Some true.
(** [st'] has no fewer initialized bytes and no more spilled slots than [st]. *)
Definition init_grows (l l' : list bool) : Prop := length l' = length l /\ forall i, l !! i = Some true -> l' !! i = Some true.
Definition spills_shrink (l l' : list (option Spill)) : Prop :=
  length l' = length l /\ forall k sp, l' !! k = Some (Some sp) -> exists sp', l !! k = Some (Some sp').

Lemma fill_init_grows first last l : init_grows l (fill first last true l).
Proof.
  split; [apply fill_length|]. intros i Hi. rewrite fill_lookup, Hi. cbn. by destruct (_ && _).
Qed.
Lemma init_grows_trans l1 l2 l3 : init_grows l1 l2 -> init_grows l2 l3 -> init_grows l1 l3.
Proof. intros [? ?] [? ?]. split; [congruence|auto]. Qed.
Lemma fill_ready first last l i :
  first <= Z.of_nat i < last -> (i < length l)%nat -> fill first last true l !! i = Some true.
Proof.
  intros Hi Hl. rewrite fill_lookup. destruct (lookup_lt_is_Some_2 l i Hl) as [x ->]. cbn.
  by rewrite (proj2 (Z.leb_le _ _)), (proj2 (Z.ltb_lt _ _)) by lia.
Qed.
Lemma fill_none_shrinks first last l : spills_shrink l (fill first last None l).
Proof.
  split; [apply fill_length|]. intros k sp. rewrite fill_lookup. destruct (l !! k) as [y|]; [|done]. cbn.
  destruct (_ && _); [done|]. intros [= ->]. by exists sp.
Qed.
Lemma insert_none_shrinks k l : spills_shrink l (<[k := None]> l).
Proof.
  split; [apply length_insert|]. intros j sp. destruct (decide (j = k)) as [->|].
  - destruct (decide (k < length l)%nat); [by rewrite list_lookup_insert_eq|]. rewrite list_insert_ge by lia. eauto.
  - rewrite list_lookup_insert_ne by done. eauto.
Qed.

Definition bytes_wf (b : list Z) : Prop := length b = 512%nat /\ Forall (fun b => 0 <= b < 256) b.
Lemma changed_stack_wf B st b init sp :
  stack_wf B st -> bytes_wf b -> init_grows (sinit st) init -> spills_shrink (sspill st) sp -> Forall (spill_wf B) sp ->
  stack_wf B (mkSpecStack b init sp (sdynptr st)).
Proof.
  intros [Hb Hi [Hs Hf] Hd Hr] Hb' [Hil Hig] [Hsl Hss] Hsp. split; cbn; try done; [congruence|split; [congruence|done]|].
  intros k x i Hk Hik. destruct (Hss k x Hk) as [x' Hx']. apply Hig. by eapply Hr.
Qed.
Lemma fill_zero_wf first last b : bytes_wf b -> bytes_wf (fill first last 0 b).
Proof. intros [Hl Hf]. split; [by rewrite fill_length|]. by apply fill_forall. Qed.
Lemma put_bytes_ok abs n v b : bytes_wf b -> 0 <= abs -> abs + Z.of_nat n <= 512 ->
  spec_safely (fun b' => b' = list_inserts (Z.to_nat abs) (le_bytes n v) b /\ bytes_wf b') (put_bytes abs n v b).
Proof.
  intros [Hl Hf] Ha Hn. unfold put_bytes. rewrite Hl. change (Z.of_nat 512) with 512.
  rewrite (proj2 (Z.leb_le 0 abs)), (proj2 (Z.leb_le (abs + Z.of_nat n) 512)) by lia. cbn. split; [done|]. split; [by rewrite length_inserts|].
  apply Forall_inserts; [done|]. apply List.Forall_forall. intros x Hx. apply in_map_iff in Hx as (i & <- & _).
  pose proof (as_u_range 8 (Z.shiftr v (8 * Z.of_nat i))). lia.
Qed.

Lemma check_stack_range_ok pc start last size :
  spec_safely (fun _ => - 512 <= start /\ last <= 0 /\ (4 <= size -> aligned_across start (last - size) size = true))
    (check_stack_range pc start last size).
Proof.
  unfold check_stack_range. destruct (_ || _) eqn:Hc; [auto with spec|]. bool_hyps. destruct (_ && _) eqn:Ha; [auto with spec|].
  cbn. split; [lia|]. split; [lia|]. intros Hs. rewrite (proj2 (Z.leb_le 4 size)) in Ha by done. by apply negb_false_iff in Ha.
Qed.
Lemma check_map_range_ok pc start last bound size : spec_safely (fun _ => 0 <= start /\ last <= bound) (check_map_range pc start last bound size).
Proof.
  unfold check_map_range. destruct (_ || _) eqn:Hc; [auto with spec|]. bool_hyps. destruct (_ && _); [auto with spec|]. cbn. lia.
Qed.

Definition width (bytes : Z) : Prop := bytes = 1 \/ bytes = 2 \/ bytes = 4 \/ bytes = 8.
Lemma size_bytes_width size : width (size_bytes size).
Proof. unfold width. destruct size; cbn; lia. Qed.

(** The ends of an accepted access are the exact sums. *)
Lemma access_ends lo hi off bytes :
  lo <= hi -> width bytes -> - 512 <= access_start lo off -> access_end hi off bytes <= 0 -> is_i64 off ->
  access_start lo off + (hi - lo) + bytes <= access_end hi off bytes /\
  - 512 <= lo + off /\ hi + off + bytes <= 0 /\
  access_start lo off = lo + off /\ access_end hi off bytes = hi + off + bytes.
Proof. unfold access_start, access_end, sat_i64, saturate, width. lia. Qed.

Lemma aligned_fixed start size : aligned_across start (start + size - size) size = true -> start mod size = 0.
Proof. unfold aligned_across. replace (start + size - size) with start by lia. rewrite Z.eqb_refl. lia. Qed.

Lemma slot_of_ok abs slot : slot_of abs = Some slot -> abs = 8 * slot /\ 0 <= slot < 64.
Proof.
  unfold slot_of. destruct (_ && _) eqn:Hc; [|done]. intros [= <-]. bool_hyps. rewrite Z.rem_mod_nonneg, Z.quot_div_nonneg in * by lia. div_lia.
Qed.
Lemma slot_of_aligned abs : 0 <= abs -> abs + 8 <= 512 -> abs mod 8 = 0 -> slot_of abs = Some (abs / 8).
Proof.
  intros. unfold slot_of. rewrite Z.rem_mod_nonneg, Z.quot_div_nonneg by lia.
  by rewrite (proj2 (Z.leb_le 0 abs)), (proj2 (Z.eqb_eq (abs mod 8) 0)), (proj2 (Z.leb_le (abs + 8) SPEC_STACK_SIZE)) by lia.
Qed.

(** It stays in the array for any offset and length, whatever wraps. *)
Lemma mark_range_init_safe B st off len : stack_wf B st -> spec_safely (stack_wf B) (mark_range_init st off len).
Proof.
  intros Hst. unfold mark_range_init. cbn zeta.
  eapply (spec_safely_bind (fun init => exists a b, init = fill a b true (sinit st))).
  { unfold set_range. rewrite (wf_init B st Hst), (proj2 (Z.leb_le 0 (Z.max _ 0))), (proj2 (Z.leb_le (Z.min _ SPEC_STACK_SIZE) (Z.of_nat 512)))
      by lia. rewrite orb_true_r. cbn. eauto. }
  intros init (a & b & ->). apply changed_stack_wf; [done|apply (wf_bytes B st Hst)|apply fill_init_grows|split; eauto|apply (wf_spill B st Hst)].
Qed.

Lemma mark_range_init_ok B st off len :
  stack_wf B st -> - 512 <= off <= 0 -> off + len <= 0 -> is_i64 (off + len) ->
  spec_safely (fun st' => stack_wf B st' /\ st' = mkSpecStack (sbytes st) (fill (512 + off) (512 + off + len) true (sinit st)) (sspill st) (sdynptr st))
    (mark_range_init st off len).
Proof.
  intros Hst Ho Hl Hi. unfold mark_range_init. cbn zeta. rewrite !as_i64_id, Z.max_l, Z.min_l by (rewrite ?as_i64_id; lia).
  eapply spec_safely_bind; [apply set_range_ok; [lia|rewrite (wf_init B st Hst); lia]|]. intros init ->. split; [|done].
  apply changed_stack_wf; [done|apply (wf_bytes B st Hst)|apply fill_init_grows|split; eauto|apply (wf_spill B st Hst)].
Qed.

(** ** Stores *)

Section memory.
Context (B : Z) (HB : 2 ^ 32 <= B <= 2 ^ 62).

(** A store leaves a well-formed stack in which the bytes it may write are ready. *)
Definition stored (st : SpecStack) (first last : Z) (st' : SpecStack) : Prop :=
  stack_wf B st' /\ init_grows (sinit st) (sinit st') /\ ready_between st' first last.

Lemma spilled_wf v : value_wf B v -> spill_wf B (Some (spilled v)).
Proof. by destruct v. Qed.

Lemma store_slot_ok pc start slot v st :
  stack_wf B st -> slot_of (512 + start) = Some slot -> value_wf B v ->
  spec_safely (stored st (512 + start) (512 + start + 8)) (store_slot pc start slot v st).
Proof.
  intros Hst [Habs Hslot]%slot_of_ok Hv. pose proof Hst as [Hb Hi [Hsl Hsf] Hd Hr]. unfold store_slot.
  eapply spec_safely_bind; [apply index_ok; lia|]. intros _ _. cbn zeta.
  set (sp := <[Z.to_nat slot := Some (spilled v)]> (sspill st)).
  eapply (spec_safely_bind (stored st (512 + start) (512 + start + 8))).
  { unfold mark_range_init. cbn zeta. rewrite !as_i64_id, Z.max_l, Z.min_l by (rewrite ?as_i64_id; lia). cbn [sinit].
    eapply spec_safely_bind; [apply set_range_ok; lia|]. intros init ->. cbn [sbytes sspill sdynptr].
    assert (Hready : ready_between (mkSpecStack (sbytes st) (fill (512 + start) (512 + start + 8) true (sinit st)) sp (sdynptr st)) (512 + start) (512 + start + 8)).
    { intros i Hin. cbn. apply fill_ready; lia. }
    split; [|split; [apply fill_init_grows|done]]. split; cbn; [done|by rewrite fill_length| |done|].
    - split; [by unfold sp; rewrite length_insert|]. apply Forall_insert; [done|]. by apply spilled_wf.
    - intros k x i Hk Hik. destruct (decide (k = Z.to_nat slot)) as [->|Hne]; [apply Hready; lia|].
      cbn in Hk. unfold sp in Hk. rewrite list_lookup_insert_ne in Hk by done. apply fill_init_grows. by eapply Hr. }
  intros st1 (Hst1 & Hg1 & Hr1). destruct (spec_const v) as [c|]; [|done].
  eapply spec_safely_bind; [apply put_bytes_ok; [apply (wf_bytes B st1 Hst1)|lia|lia]|]. intros b [_ Hbw].
  split; [|split; [exact Hg1|exact Hr1]].
  apply changed_stack_wf; [done|done|by split|by split; eauto|apply (wf_spill B st1 Hst1)].
Qed.

Lemma store_narrow_ok pc start bytes v st :
  stack_wf B st -> width bytes -> bytes <> 8 -> - 512 <= start -> start + bytes <= 0 ->
  spec_safely (stored st (512 + start) (512 + start + bytes)) (store_narrow pc start bytes v st).
Proof.
  intros Hst Hw Hn8 Hs He. pose proof Hst as [Hb Hi [Hsl Hsf] Hd Hr]. unfold store_narrow. cbn zeta. unfold width in Hw.
  rewrite Z.quot_div_nonneg by lia. destruct (Z.leb_spec SPEC_SLOTS ((512 + start) / 8)); [auto with spec|].
  eapply spec_safely_bind; [apply index_ok; rewrite Hsl; div_lia|]. intros old _. destruct (is_spilled_pointer old); [auto with spec|].
  set (sp := <[Z.to_nat ((512 + start) / 8) := None]> (sspill st)).
  eapply (spec_safely_bind (fun p => bytes_wf (fst p) /\ init_grows (sinit st) (snd p))).
  { destruct (_ && _) eqn:Hhalf; [|by split; [exact Hb|split]]. bool_hyps.
    assert (512 + start + 8 <= 512) by div_lia.
    eapply spec_safely_bind; [apply set_range_ok; lia|]. intros init ->.
    eapply spec_safely_bind; [apply set_range_ok; [lia|destruct Hb; lia]|]. intros b ->.
    split; [by apply fill_zero_wf|apply fill_init_grows]. }
  intros [b init] [Hbw Hg]. cbn [fst snd] in *. pose proof Hg as [Hgl _].
  eapply spec_safely_bind; [apply set_range_ok; lia|]. intros init' ->.
  eapply spec_safely_bind; [apply put_bytes_ok; [done|lia|lia]|]. intros b' [_ Hbw'].
  assert (Hg' : init_grows (sinit st) (fill (512 + start) (512 + start + bytes) true init)) by (eapply init_grows_trans; [exact Hg|apply fill_init_grows]).
  split; [|split; [exact Hg'|intros i Hin; cbn; apply fill_ready; lia]].
  apply changed_stack_wf; [done|done|done|apply insert_none_shrinks|by apply Forall_insert].
Qed.

Lemma store_variable_ok pc start last st :
  stack_wf B st -> - 512 <= start -> start <= last -> last <= 0 ->
  spec_safely (stored st (512 + start) (512 + last)) (store_variable pc start last st).
Proof.
  intros Hst Hs Hle He. pose proof Hst as [Hb Hi [Hsl Hsf] Hd Hr]. unfold store_variable. destruct (existsb _ _); [auto with spec|].
  cbn zeta. rewrite Z.max_l, Z.min_l by lia. eapply spec_safely_bind; [apply set_range_ok; lia|]. intros init ->.
  eapply spec_safely_bind; [apply set_range_ok; [lia|destruct Hb; lia]|]. intros b ->.
  split; [|split; [apply fill_init_grows|intros i Hin; cbn; apply fill_ready; lia]].
  apply changed_stack_wf; [done|by apply fill_zero_wf|apply fill_init_grows|split; eauto|done].
Qed.

(** An access through a stack pointer with an offset in [lo, hi]. *)
Definition frame_access (lo hi off bytes : Z) : Prop := - 512 <= lo + off /\ hi + off + bytes <= 0.

Lemma store_stack_ok s pc lo hi off bytes v :
  state_wf B s -> offsets_wf B lo hi -> width bytes -> is_i64 off -> value_wf B v ->
  spec_safely (fun s' => state_wf B s' /\ frame_access lo hi off bytes /\
      stored (stack s) (512 + lo + off) (512 + hi + off + bytes) (stack s'))
    (store_stack s pc lo hi off bytes v).
Proof.
  intros Hs (_ & Hle & _) Hw Hoff Hv. unfold store_stack. pose proof (stack_of_wf B s Hs) as Hst.
  eapply spec_safely_bind; [apply check_stack_range_ok|]. intros _ (Hlo & Hhi & Hal).
  destruct (access_ends lo hi off bytes Hle Hw Hlo Hhi Hoff) as (_ & Hf1 & Hf2 & -> & ->).
  eapply (spec_safely_bind (stored (stack s) (512 + lo + off) (512 + hi + off + bytes))).
  2: { intros st' Hst'. split; [by apply set_stack_wf, Hst'|]. split; [done|exact Hst']. }
  pose proof Hw as Hw'. unfold width in Hw'. destruct (Z.eqb_spec lo hi) as [<-|Hne].
  - replace (512 + lo + off) with (512 + (lo + off)) by lia. replace (512 + lo + off + bytes) with (512 + (lo + off) + bytes) by lia.
    destruct (Z.eqb_spec bytes 8) as [->|]; cbn [andb].
    + destruct (slot_of _) as [slot|] eqn:Hslot; [|auto with spec]. by apply store_slot_ok.
    + by apply store_narrow_ok.
  - rewrite andb_false_r. replace (512 + lo + off) with (512 + (lo + off)) by lia.
    replace (512 + hi + off + bytes) with (512 + (hi + off + bytes)) by lia. apply store_variable_ok; [done|lia..].
Qed.

Lemma spec_store_ok s pc base off size v :
  state_wf B s -> reg_no base -> is_i64 off -> value_wf B v -> spec_safely (state_wf B) (store s pc base off size v).
Proof.
  intros Hs Hr Ho Hv. unfold store. spec_bind. intros b Hb. pose proof (size_bytes_width size). destruct b; cbn in Hb; auto with spec.
  - eapply spec_safely_mono; [by apply store_stack_ok|]. by intros s' [? _].
  - eapply spec_safely_bind; [apply check_map_range_ok|]. done.
  - eapply spec_safely_bind; [apply check_map_range_ok|]. done.
Qed.
End memory.
#[export] Hint Resolve spec_store_ok : spec.

(** ** Loads *)

Lemma shifted_byte v b i : 0 <= i -> 0 <= v < 2 ^ (8 * i) -> 0 <= b < 256 -> 0 <= Z.lor v (Z.shiftl b (8 * i)) < 2 ^ (8 * (i + 1)).
Proof.
  intros Hi Hv Hb. apply bits_range; [lia|]. intros k Hk. rewrite Z.lor_spec, Z.shiftl_spec by lia.
  rewrite (testbit_high (8 * i) v) by lia. apply (testbit_high 8 b); lia.
Qed.

(** The bytes a read finds are initialized, and its value has the width. *)
Lemma read_bytes_ok B pc st idx i n v :
  stack_wf B st -> 0 <= idx -> idx + Z.of_nat n <= 512 -> 0 <= i -> 0 <= v < 2 ^ (8 * i) ->
  spec_safely (fun r => 0 <= r < 2 ^ (8 * (i + Z.of_nat n)) /\ ready_between st idx (idx + Z.of_nat n))
    (read_bytes pc st idx i n v).
Proof.
  intros [[Hbl Hbf] Hi _ _ _]. revert idx i v. induction n as [|n IH]; intros idx i v Hidx Hn Hi0 Hv; cbn [read_bytes].
  { unfold spec_safely. change (Z.of_nat 0) with 0. rewrite !Z.add_0_r. split; [done|]. intros j Hj. lia. }
  eapply spec_safely_bind; [apply index_ok; lia|]. intros ready Hready. destruct ready; cbn [negb]; [|auto with spec].
  eapply spec_safely_bind; [apply get_ok; [exact Hbf|lia]|]. intros b Hb.
  eapply spec_safely_mono; [apply IH; [lia..|]; by apply shifted_byte|]. cbn beta. intros r [Hr Hall].
  replace (i + 1 + Z.of_nat n) with (i + Z.of_nat (S n)) in Hr by lia. split; [done|]. intros j Hj.
  destruct (Z.eq_dec (Z.of_nat j) idx) as [<-|]; [by rewrite Nat2Z.id in Hready|]. apply Hall. lia.
Qed.

Lemma apply_sign_u64 v bytes sign_extend : is_u64 v -> is_u64 (apply_sign v bytes sign_extend).
Proof.
  intros Hv. unfold apply_sign. destruct (negb sign_extend); [done|].
  destruct (bytes =? 1); [apply as_u64_range|]. destruct (bytes =? 2); [apply as_u64_range|].
  destruct (bytes =? 4); [apply as_u64_range|done].
Qed.

Section loads.
Context (B : Z) (HB : 2 ^ 32 <= B <= 2 ^ 62).

Definition loaded (st : SpecStack) (first last : Z) (v : SpecValue) : Prop := value_wf B v /\ ready_between st first last.

Lemma read_value_ok pc st start bytes sign_extend :
  stack_wf B st -> width bytes -> - 512 <= start -> start + bytes <= 0 ->
  spec_safely (loaded st (512 + start) (512 + start + bytes))
    (let? v := read_bytes pc st (512 + start) 0 (Z.to_nat bytes) 0 in Ok (SpecValue.const_scalar (apply_sign v bytes sign_extend))).
Proof.
  intros Hst Hw Hs He. unfold width in Hw. eapply spec_safely_bind; [apply (read_bytes_ok B); [done|lia|lia|lia|cbn; lia]|].
  cbn beta. rewrite Z2Nat.id by lia. intros v [Hv Hr]. split; [|done]. apply const_scalar_wf, apply_sign_u64.
  pose proof (Z.pow_le_mono_r 2 (8 * (0 + bytes)) 64 ltac:(lia) ltac:(lia)). lia.
Qed.

Lemma load_fixed_ok pc start bytes sign_extend st :
  stack_wf B st -> width bytes -> - 512 <= start -> start + bytes <= 0 ->
  spec_safely (loaded st (512 + start) (512 + start + bytes)) (load_fixed pc start bytes sign_extend st).
Proof.
  intros Hst Hw Hs He. unfold load_fixed. cbn zeta. destruct (slot_of (512 + start)) as [slot|] eqn:Hslot; [|by apply read_value_ok].
  destruct (default None (get (sspill st) slot)) as [sp|] eqn:Hsp; [|by apply read_value_ok].
  destruct (Z.eqb_spec bytes 8) as [->|]; [|destruct (_ && _); [auto with spec|by apply read_value_ok]].
  apply slot_of_ok in Hslot as [Habs Hslot]. unfold get in Hsp. rewrite (proj2 (Z.ltb_ge slot 0)) in Hsp by lia.
  destruct (sspill st !! Z.to_nat slot) as [sp'|] eqn:Hl; [cbn in Hsp; subst sp'|done]. split.
  - by apply (proj1 (Forall_lookup _ _) (proj2 (wf_spill B st Hst)) _ _ Hl).
  - intros i Hi. apply (wf_ready B st Hst _ _ _ Hl). lia.
Qed.

Lemma load_variable_ok pc start last st :
  stack_wf B st -> - 512 <= start -> start <= last -> last <= 0 ->
  spec_safely (loaded st (512 + start) (512 + last)) (load_variable pc start last st).
Proof.
  intros Hst Hs Hle He. unfold load_variable. cbn zeta. rewrite Z.max_l, Z.min_l by lia.
  destruct (existsb _ _) eqn:Hinit; [auto with spec|]. destruct (existsb (has_spill st) _); [auto with spec|]. split; [apply unknown_scalar_wf|].
  intros i Hi. destruct (lookup_lt_is_Some_2 (sinit st) i) as [b Hb]; [pose proof (wf_init B st Hst); lia|].
  destruct b; [done|exfalso]. apply not_true_iff_false in Hinit. apply Hinit, existsb_exists. exists (Z.of_nat i). split.
  - apply list_elem_of_In. unfold range. apply elem_of_seqZ. lia.
  - unfold get. rewrite (proj2 (Z.ltb_ge (Z.of_nat i) 0)), Nat2Z.id, Hb by lia. done.
Qed.

Lemma load_stack_ok s pc lo hi off bytes sign_extend :
  state_wf B s -> offsets_wf B lo hi -> width bytes -> is_i64 off ->
  spec_safely (fun v => frame_access lo hi off bytes /\ loaded (stack s) (512 + lo + off) (512 + hi + off + bytes) v)
    (load_stack s pc lo hi off bytes sign_extend).
Proof.
  intros Hs (_ & Hle & _) Hw Hoff. unfold load_stack. pose proof (stack_of_wf B s Hs) as Hst.
  eapply spec_safely_bind; [apply check_stack_range_ok|]. intros _ (Hlo & Hhi & _).
  destruct (access_ends lo hi off bytes Hle Hw Hlo Hhi Hoff) as (_ & Hf1 & Hf2 & -> & ->).
  assert (Hmain : spec_safely (loaded (stack s) (512 + lo + off) (512 + hi + off + bytes))
    (if negb (lo =? hi) then load_variable pc (lo + off) (hi + off + bytes) (stack s)
     else load_fixed pc (lo + off) bytes sign_extend (stack s))).
  { replace (512 + lo + off) with (512 + (lo + off)) by lia. unfold width in Hw. destruct (Z.eqb_spec lo hi) as [<-|]; cbn [negb].
    - replace (512 + lo + off + bytes) with (512 + (lo + off) + bytes) by lia. by apply load_fixed_ok.
    - replace (512 + hi + off + bytes) with (512 + (hi + off + bytes)) by lia. apply load_variable_ok; [done|lia..]. }
  eapply spec_safely_mono; [exact Hmain|]. intros v Hv. split; [by split|exact Hv].
Qed.

Lemma load_ctx_ok prog_type pc base_off off size sign_extend :
  spec_safely (value_wf B) (load_ctx prog_type pc base_off off (size_bytes size) sign_extend).
Proof.
  unfold load_ctx. destruct (checked _ _ _) as [total|]; [|auto with spec].
  destruct (ctx_table_read _ _ _) as [[|f]|[|f]]; auto with spec. destruct sign_extend; [cbn; lia|]. by destruct size.
Qed.

Lemma load_ok prog_type s pc base off size sign_extend :
  state_wf B s -> reg_no base -> is_i64 off -> spec_safely (value_wf B) (load prog_type s pc base off size sign_extend).
Proof.
  intros Hs Hr Ho. unfold load. spec_bind. intros b Hb. pose proof (size_bytes_width size). destruct b; cbn in Hb; auto with spec.
  - eapply spec_safely_mono; [by apply load_stack_ok|]. by intros v (_ & ? & _).
  - apply load_ctx_ok.
  - eapply spec_safely_bind; [apply check_map_range_ok|]. intros. apply unknown_scalar_wf.
  - eapply spec_safely_bind; [apply check_map_range_ok|]. intros. apply unknown_scalar_wf.
Qed.

(** ** Atomic operations *)

Lemma atomic_stack_ok s pc lo hi off bytes :
  state_wf B s -> offsets_wf B lo hi -> width bytes -> is_i64 off ->
  spec_safely (fun p => value_wf B (fst p) /\ state_wf B (snd p) /\ frame_access lo hi off bytes /\
      stored B (stack s) (512 + lo + off) (512 + hi + off + bytes) (stack (snd p)))
    (atomic_stack s pc lo hi off bytes).
Proof.
  intros Hs (_ & Hle & _) Hw Hoff. unfold atomic_stack. pose proof (stack_of_wf B s Hs) as Hst.
  eapply spec_safely_bind; [apply check_stack_range_ok|]. intros _ (Hlo & Hhi & _).
  destruct (access_ends lo hi off bytes Hle Hw Hlo Hhi Hoff) as (_ & Hf1 & Hf2 & -> & ->). cbn zeta. unfold width in Hw.
  pose proof Hst as [Hb Hi [Hsl Hsf] Hd Hr].
  eapply spec_safely_bind; [apply set_range_ok; [lia|rewrite Hi; lia]|]. intros init ->.
  eapply spec_safely_bind; [apply set_range_ok; rewrite ?Hsl, ?Z.quot_div_nonneg by lia; div_lia|]. intros sp ->.
  set (st' := mkSpecStack _ _ _ _).
  assert (Hg : init_grows (sinit (stack s)) (sinit st')) by apply fill_init_grows.
  assert (Hst' : stack_wf B st').
  { apply changed_stack_wf; [done|done|done|apply fill_none_shrinks|by apply fill_forall]. }
  split; [|split; [by apply set_stack_wf|split; [done|split; [done|split; [done|]]]]].
  - cbn [fst]. destruct (_ && _); [|apply unknown_scalar_wf]. destruct (slot_of _) as [slot|]; [|apply unknown_scalar_wf].
    destruct (default None (get (sspill (stack s)) slot)) as [x|] eqn:Hx; [|apply unknown_scalar_wf]. unfold get in Hx.
    destruct (slot <? 0); [done|]. destruct (sspill (stack s) !! Z.to_nat slot) as [y|] eqn:Hy; [|done]. cbn in Hx. subst y.
    by apply (proj1 (Forall_lookup _ _) Hsf _ _ Hy).
  - intros i Hin. cbn. apply fill_ready; lia.
Qed.

Lemma atomic_ok s pc dst src off size op fetch :
  state_wf B s -> reg_no dst -> reg_no src -> is_i64 off -> spec_safely (state_wf B) (atomic s pc dst src off size op fetch).
Proof.
  intros Hs Hd Hr Ho. unfold atomic. cbn zeta. destruct (negb _); [auto with spec|]. spec_bind. intros v _.
  case_bool_decide; [auto with spec|]. spec_bind. intros d Hdv. pose proof (size_bytes_width size).
  eapply (spec_safely_bind (fun p => value_wf B (fst p) /\ state_wf B (snd p))).
  { destruct d; cbn in Hdv; auto with spec.
    - eapply spec_safely_mono; [by apply atomic_stack_ok|]. by intros p (? & ? & _).
    - eapply spec_safely_bind; [apply check_map_range_ok|]. intros _ _. split; [apply unknown_scalar_wf|done]. }
  intros [old s'] [Hold Hs']. cbn [fst snd] in *. case_bool_decide; [apply set_reg_ok; [done|unfold reg_no; lia|done]|].
  destruct fetch; [by apply set_reg_ok|done].
Qed.
End loads.
#[export] Hint Resolve load_ok atomic_ok : spec.

(** * Helper calls *)

Section helpers.
Context (B : Z) (HB : 2 ^ 32 <= B <= 2 ^ 62).

Lemma dynptr_slots_of_ok off : - B <= off <= B ->
  spec_safely (fun o => match o with Some (a, b) => 0 <= a /\ b = a + 1 /\ b <= 63 /\ - 512 <= off /\ off + 16 <= 0 | None => True end)
    (dynptr_slots_of off).
Proof.
  intros Ho. unfold dynptr_slots_of, spec_stack_base_check.
  eapply (spec_safely_bind (fun o => o = if (0 <=? 512 + off) && (512 + off + 16 <=? 512) then Some (512 + off) else None)).
  { eapply spec_safely_bind; [apply i64_ok; lia|]. intros idx ->. done. }
  intros idx ->. destruct (_ && _) eqn:Hc; [|done]. bool_hyps. cbn. rewrite Z.quot_div_nonneg by lia. div_lia.
Qed.

Lemma arg_ok_ok s i expected actual id : state_wf B s -> value_wf B actual -> spec_safely (fun _ => True) (arg_ok s i expected actual id).
Proof.
  intros Hs Hv. destruct expected; try done; destruct actual; try done; cbn in Hv; cbn [arg_ok]; destruct (Z.eqb_spec lo hi) as [<-|]; try done.
  - eapply spec_safely_bind; [apply (reg_ok B); [done|unfold reg_no; lia]|]. intros r1 _. unfold offsets_wf in Hv.
    eapply spec_safely_bind; [apply i64_ok; lia|]. done.
  - eapply spec_safely_bind; [apply dynptr_slots_of_ok; unfold offsets_wf in Hv; lia|]. intros [[a b]|] Hab; [|done].
    pose proof (wf_dynptr B _ (stack_of_wf B s Hs)). eapply spec_safely_bind; [apply index_ok; lia|]. intros d1 _.
    eapply spec_safely_bind; [apply index_ok; lia|]. done.
  - eapply spec_safely_bind; [apply dynptr_slots_of_ok; unfold offsets_wf in Hv; lia|]. done.
Qed.

Lemma spec_check_args_ok s pc id i args :
  state_wf B s -> 0 <= i -> i + Z.of_nat (length args) <= 5 -> spec_safely (fun _ => True) (check_args s pc id i args).
Proof.
  intros Hs. revert i. induction args as [|arg args IH]; intros i Hi Hl; [done|]. cbn [check_args length] in *.
  eapply spec_safely_bind; [apply (reg_ok B); [done|unfold reg_no; lia]|]. intros v Hv.
  eapply (spec_safely_bind (fun _ => True)); [|intros _ _; apply IH; lia]. unfold check_arg.
  eapply spec_safely_bind; [by apply arg_ok_ok|]. intros [] _; [done|auto with spec].
Qed.
Lemma helper_args_length id proto : spec_helper id = Some proto -> (length (sargs proto) <= 5)%nat.
Proof.
  unfold spec_helper. intros H. repeat (case_match; try discriminate H); injection H as <-; cbn; lia.
Qed.

Lemma mark_dynptr_ok s pc : state_wf B s -> spec_safely (state_wf B) (mark_dynptr s pc).
Proof.
  intros Hs. unfold mark_dynptr. eapply spec_safely_bind; [apply (reg_ok B); [done|unfold reg_no; lia]|]. intros r4 Hr4.
  destruct r4; try done. destruct (Z.eqb_spec lo hi) as [<-|]; [|done]. cbn in Hr4. unfold offsets_wf in Hr4.
  eapply spec_safely_bind; [apply dynptr_slots_of_ok; lia|]. intros [[a b]|] Hab; [|auto with spec].
  destruct Hab as (Ha & -> & Hb & Hlo & Hhi). pose proof (stack_of_wf B s Hs) as Hst. pose proof Hst as [Hby Hi Hsp Hd Hr].
  eapply spec_safely_bind; [apply index_ok; lia|]. intros _ _. eapply spec_safely_bind; [apply index_ok; lia|]. intros _ _. cbn zeta.
  eapply spec_safely_bind; [apply (mark_range_init_ok B); [|lia..]|].
  - split; cbn; try done. by rewrite !length_insert.
  - intros st' [Hst' _]. by apply set_stack_wf.
Qed.

Lemma mark_buffer_ok s pc : state_wf B s -> spec_safely (state_wf B) (mark_buffer s pc).
Proof.
  intros Hs. unfold mark_buffer. eapply spec_safely_bind; [apply (reg_ok B); [done|unfold reg_no; lia]|]. intros r1 _.
  destruct r1; try done. destruct (lo =? hi); [|done].
  eapply spec_safely_bind; [apply (reg_ok B); [done|unfold reg_no; lia]|]. intros r2 _.
  destruct (spec_const r2) as [v|]; [|auto with spec]. cbn zeta. destruct (_ <? _); [auto with spec|]. destruct (_ <? _); [auto with spec|].
  eapply spec_safely_bind; [apply (mark_range_init_safe B), (stack_of_wf B s Hs)|]. intros st Hst. by apply set_stack_wf.
Qed.

Lemma release_ref_wf s id : state_wf B s -> state_wf B (fst (release_ref s id)).
Proof.
  intros Hs. unfold release_ref. destruct (list_find _ _) as [[i x]|] eqn:Hf; [|done].
  apply list_find_Some in Hf as (Hi & _ & _). pose proof (lookup_lt_Some _ _ _ Hi) as Hlt. rewrite length_take in Hlt.
  destruct Hs as [Hc Hsv [Hrl Hrc]]. split; cbn; [done|done|]. rewrite length_insert. split; [done|]. lia.
Qed.
Lemma release_arg_ok s pc : state_wf B s -> spec_safely (state_wf B) (release_arg s pc).
Proof.
  intros Hs. unfold release_arg. eapply spec_safely_bind; [apply (reg_ok B); [done|unfold reg_no; lia]|]. intros r1 _.
  destruct r1; try done. pose proof (release_ref_wf s id Hs) as Hr. destruct (release_ref s id) as [s' []]; [done|auto with spec].
Qed.

Definition next_id_ok (id : Z) (s : SpecState * Z) : Prop := state_wf B (fst s) /\ id <= snd s <= id + 1.
Lemma set_return_ok s pc ret id : state_wf B s -> 0 <= id < U32_MAX -> spec_safely (next_id_ok id) (set_return s pc ret id).
Proof.
  intros Hs Hid. assert (H0 : reg_no 0) by (unfold reg_no; lia).
  assert (Hset : forall v next, value_wf B v -> id <= next <= id + 1 -> spec_safely (next_id_ok id) (let? s := set_reg s 0 v in Ok (s, next))).
  { intros v next Hv Hn. eapply spec_safely_bind; [by apply (set_reg_ok B)|]. by intros s' Hs'. }
  assert (Hfresh : spec_safely (fun n => n = id + 1) (fresh_id id)).
  { unfold fresh_id, checked. by rewrite (proj2 (Z.leb_le 0 (id + 1))), (proj2 (Z.leb_le (id + 1) U32_MAX)) by lia. }
  destruct ret; cbn [set_return].
  - apply Hset; [apply const_scalar_wf|]; lia.
  - apply Hset; [apply unknown_scalar_wf|lia].
  - apply Hset; [cbn|]; lia.
  - eapply spec_safely_bind; [apply (reg_ok B); [done|unfold reg_no; lia]|]. intros r1 _. cbn zeta.
    eapply spec_safely_bind; [exact Hfresh|]. intros n ->. apply Hset; [done|lia].
  - eapply spec_safely_bind; [exact Hfresh|]. intros n ->.
    eapply spec_safely_bind; [apply (reg_ok B); [done|unfold reg_no; lia]|]. intros r2 _. cbn zeta.
    eapply spec_safely_bind; [by apply (set_reg_ok B)|]. intros s' Hs'. unfold acquire_ref. destruct (Z.leb_spec (Z.of_nat (length (refs s'))) (refs_cnt s')); [auto with spec|].
    destruct Hs' as [Hc Hsv [Hrl Hrc]]. split; [|cbn; lia]. split; cbn; [done|done|]. rewrite length_insert. split; [done|]. rewrite Hrl in *. lia.
Qed.

Lemma clobber_args_wf s : state_wf B s -> state_wf B (clobber_args s).
Proof.
  intros Hs. pose proof Hs as [[[Hl Hr] _] _ _]. apply with_regs_wf; [done|by rewrite fill_length|]. by apply fill_forall.
Qed.
Lemma unprotect_spills_wf s : state_wf B s -> state_wf B (unprotect_spills s).
Proof.
  intros Hs. pose proof (stack_of_wf B s Hs) as Hst. apply set_stack_wf; [done|]. cbn zeta.
  apply changed_stack_wf; [done|apply (wf_bytes B _ Hst)|by split| |].
  - split; [apply length_map|]. intros k sp. rewrite list_lookup_fmap. destruct (sspill (stack s) !! k) as [[x|]|]; [|done|done].
    intros _. by exists x.
  - apply Forall_fmap. eapply Forall_impl; [apply (wf_spill B _ Hst)|]. intros [[|]|] Hx; done.
Qed.

Lemma helper_call_ok s pc id next :
  state_wf B s -> 0 <= next < U32_MAX -> spec_safely (next_id_ok next) (helper_call s pc id next).
Proof.
  intros Hs Hn. unfold helper_call. destruct (spec_helper id) as [proto|] eqn:Hp; [|done].
  apply helper_args_length in Hp. eapply spec_safely_bind; [apply spec_check_args_ok; [done|lia|lia]|]. intros _ _.
  eapply (spec_safely_bind (state_wf B)); [destruct (id =? 197); [by apply mark_dynptr_ok|done]|]. intros s1 Hs1.
  eapply (spec_safely_bind (state_wf B)); [destruct (id =? 201); [by apply mark_buffer_ok|done]|]. intros s2 Hs2.
  eapply (spec_safely_bind (state_wf B)); [destruct (_ || _); [by apply release_arg_ok|done]|]. intros s3 Hs3.
  eapply spec_safely_bind; [by apply set_return_ok|]. intros [s4 n] [Hs4 Hn4]. split; [by apply unprotect_spills_wf, clobber_args_wf|exact Hn4].
Qed.
End helpers.

(** * Branches *)

Definition sides_wf (sd : sides) : Prop := Forall (@abs_wf Range _) (fst sd) /\ Forall (@abs_wf Range _) (snd sd).
Lemma self_compare_wf c : sides_wf (self_compare_refine c).
Proof. pose proof full_wf. destruct c; split; cbn [self_compare_refine fst snd]; repeat constructor; done. Qed.
Lemma take_unsigned_wf d s c : abs_wf d -> abs_wf s -> Forall (@abs_wf Range _) (take_unsigned d s c).
Proof.
  intros Hd Hs. destruct (tight c d s) eqn:Ht; [by apply take_unsigned_only|]. destruct c; try discriminate Ht.
  destruct d as [d0 d1], s as [s0 s1]. cbn [take_unsigned fst snd]. destruct (_ && _); [constructor|]. apply Forall_app. split.
  - destruct (Z.ltb_spec d0 s0); constructor; [interval|constructor].
  - destruct (Z.ltb_spec s1 d1); constructor; [interval|constructor].
Qed.
Lemma unsigned_sides_wf d s c : abs_wf d -> abs_wf s -> sides_wf (unsigned_cmp_refine d s c).
Proof. intros. split; by apply take_unsigned_wf. Qed.
Lemma take_signed_wf dlo dhi slo shi c :
  one_sign dlo dhi -> one_sign slo shi -> is_ordering c = true -> Forall (@abs_wf Range _) (take_signed dlo dhi slo shi c).
Proof.
  intros Hd Hs Hc. assert (Hone : forall lo hi, one_sign lo hi -> Forall (@abs_wf Range _) [(as_u64 lo, as_u64 hi)]).
  { intros lo hi H. constructor; [by apply signed_wf|constructor]. }
  unfold one_sign in *. destruct c; try discriminate Hc; cbn [take_signed].
  - destruct (_ || _) eqn:E; [constructor|]. bool_hyps. cbn zeta. destruct (Z.leb_spec dlo (Z.min dhi (shi - 1))); [|constructor]. apply Hone. lia.
  - destruct (Z.ltb_spec shi dlo); [constructor|]. apply Hone. lia.
  - destruct (_ || _) eqn:E; [constructor|]. bool_hyps. apply Hone. lia.
  - destruct (Z.ltb_spec dhi slo); [constructor|]. apply Hone. lia.
Qed.
Lemma signed_sides_wf d s c : abs_wf d -> abs_wf s -> is_ordering c = true -> sides_wf (signed_cmp_refine d s c).
Proof.
  intros Hd Hs Hc. unfold signed_cmp_refine. assert (Hopen : sides_wf ([d], [d])) by (split; repeat constructor; apply Hd).
  destruct (as_signed d) as [[dlo dhi]|] eqn:Hds; [|done]. destruct (as_signed s) as [[slo shi]|] eqn:Hss; [|done].
  destruct (as_signed_some d dlo dhi Hd Hds) as [Hod _]. destruct (as_signed_some s slo shi Hs Hss) as [Hos _].
  split; apply take_signed_wf; try done. by destruct c.
Qed.

(** * Steps *)

Section steps.
Context (B : Z) (HB : 2 ^ 32 <= B <= 2 ^ 62).

Definition points_wf (l : list point) : Prop := Forall (fun p => state_wf B (snd p)) l.
Lemma points_one pc s : state_wf B s -> points_wf [(pc, s)].
Proof. intros. by constructor. Qed.
Lemma points_two pc pc' s s' : state_wf B s -> state_wf B s' -> points_wf [(pc, s); (pc', s')].
Proof. intros. constructor; [done|]. constructor; [done|constructor]. Qed.
#[local] Hint Resolve points_one points_two : spec.

Lemma emit_refined_ok s dst sd target fall_pc :
  state_wf B s -> reg_no dst -> sides_wf sd -> spec_safely points_wf (emit_refined s dst sd target fall_pc).
Proof.
  intros Hs Hd [Ht Hf]. unfold emit_refined. eapply spec_safely_bind; [by apply (reg_ok B)|]. intros _ _. cbn zeta.
  assert (Hone : forall pc l, Forall (@abs_wf Range _) l ->
    points_wf (map (fun r => (pc, with_regs (<[Z.to_nat dst := SpecValue.Scalar (fst r) (snd r)]> (sregs (cur s))) s)) l)).
  { intros pc l Hl. apply Forall_fmap. eapply Forall_impl; [exact Hl|]. intros [lo hi] Hr. cbn.
    pose proof Hs as [[[Hlen Hregs] _] _ _]. apply with_regs_wf; [done|by rewrite length_insert|]. by apply Forall_insert. }
  apply Forall_app. split; by apply Hone.
Qed.

Lemma refine_map_value_wf id v s : state_wf B s -> value_wf B v -> state_wf B (refine_map_value id v s).
Proof.
  intros Hs Hv. pose proof Hs as [[[Hl Hr] _] _ _]. apply with_regs_wf; [done|by rewrite length_map|]. apply Forall_fmap.
  eapply Forall_impl; [exact Hr|]. intros r Hrw. cbn. destruct r; try done. by destruct (_ =? _).
Qed.

Lemma pointer_branch_ok s pc dst c src target :
  state_wf B s -> reg_no dst -> spec_safely points_wf (pointer_branch s pc dst c src target).
Proof.
  intros Hs Hd. unfold pointer_branch. eapply spec_safely_bind; [by apply (reg_ok B)|]. intros d Hdv. cbn zeta.
  match goal with |- context [if is_null src then _ else ?o] => assert (Ho : spec_safely points_wf o) end.
  { destruct (_ && _); [destruct c; auto with spec|]; [by apply points_one|by apply points_one|].
    destruct (_ || _); [by apply points_two|auto with spec]. }
  assert (H0 : value_wf B (SpecValue.const_scalar 0)) by (cbn; lia).
  assert (Hz : forall sz, value_wf B (SpecValue.PtrToMapValue 0 0 sz)) by (cbn; unfold offsets_wf; lia).
  destruct (is_null src); [|exact Ho]. destruct d; try exact Ho.
  - destruct c; auto with spec; by apply points_two; apply refine_map_value_wf.
  - eapply spec_safely_bind; [by apply (set_reg_ok B)|]. intros null Hnull. cbn zeta.
    eapply spec_safely_bind; [apply (set_reg_ok B); [done|done|cbn; unfold offsets_wf; lia]|]. intros valid Hvalid.
    pose proof (release_ref_wf B null id Hnull). destruct c; auto with spec; by apply points_two.
Qed.

Lemma scalar_range v r : value_wf B v -> SpecValue.as_scalar v = Some r -> abs_wf r.
Proof. destruct v; try done. cbn [SpecValue.as_scalar]. by intros H [= <-]. Qed.

Lemma branch_ok s pc dst c src offset same :
  state_wf B s -> reg_no dst -> value_wf B src -> spec_safely points_wf (branch s pc dst c src offset same).
Proof.
  intros Hs Hd Hv. unfold branch. cbn zeta. eapply spec_safely_bind; [by apply (reg_ok B)|]. intros d Hdv.
  destruct (_ || _); [by apply pointer_branch_ok|]. destruct (SpecValue.as_scalar d) as [rd|] eqn:Hrd; [|auto with spec].
  destruct same; [apply emit_refined_ok; [done|done|apply self_compare_wf]|].
  destruct (SpecValue.as_scalar src) as [rs|] eqn:Hrs; [|auto with spec].
  apply emit_refined_ok; [done|done|]. apply unsigned_sides_wf; [exact (scalar_range d rd Hdv Hrd)|exact (scalar_range src rs Hv Hrs)].
Qed.
Lemma branch_signed_ok s pc dst c src offset same :
  state_wf B s -> reg_no dst -> value_wf B src -> is_ordering c = true ->
  spec_safely points_wf (branch_signed s pc dst c src offset same).
Proof.
  intros Hs Hd Hv Hc. unfold branch_signed. cbn zeta. eapply spec_safely_bind; [by apply (reg_ok B)|]. intros d Hdv.
  destruct (_ || _); [auto with spec|]. destruct (SpecValue.as_scalar d) as [rd|] eqn:Hrd; [|auto with spec].
  destruct same; [apply emit_refined_ok; [done|done|apply self_compare_wf]|].
  destruct (SpecValue.as_scalar src) as [rs|] eqn:Hrs; [|auto with spec].
  apply emit_refined_ok; [done|done|]. apply signed_sides_wf; [exact (scalar_range d rd Hdv Hrd)|exact (scalar_range src rs Hv Hrs)|done].
Qed.
Lemma spec_cond_ok s pc dst c rhs offset signed :
  state_wf B s -> reg_no dst -> rhs_ok rhs -> (signed = true -> is_ordering c = true) ->
  spec_safely points_wf (spec_cond s pc dst c rhs offset signed).
Proof.
  intros Hs Hd Hr Hc. unfold spec_cond. eapply (spec_safely_bind (fun p => value_wf B (fst p))).
  { destruct rhs as [imm|r]; [apply const_scalar_wf, as_u64_range|]. eapply spec_safely_bind; [by apply (reg_ok B)|]. done. }
  intros [v same] Hv. destruct signed; [apply branch_signed_ok; auto|by apply branch_ok].
Qed.

Lemma decided_wf s pc offset d v test : state_wf B s -> points_wf (decided s pc offset d v test).
Proof. intros Hs. unfold decided. destruct d, v; auto with spec. Qed.
Lemma spec_jset_ok s pc dst src offset :
  state_wf B s -> reg_no dst -> reg_no src -> spec_safely points_wf (spec_jset s pc dst src offset).
Proof.
  intros Hs Hd Hr. unfold spec_jset. eapply spec_safely_bind; [by apply (reg_ok B)|]. intros d _.
  eapply spec_safely_bind; [by apply (reg_ok B)|]. intros v _. destruct (_ || _); [auto with spec|]. by apply decided_wf.
Qed.
Lemma spec_jset_imm_ok s pc dst imm offset : state_wf B s -> reg_no dst -> spec_safely points_wf (spec_jset_imm s pc dst imm offset).
Proof.
  intros Hs Hd. unfold spec_jset_imm. eapply spec_safely_bind; [by apply (reg_ok B)|]. intros d _.
  destruct (is_uninit d); [auto with spec|]. by apply decided_wf.
Qed.
Lemma spec_jmp32_ok s pc dst src imm offset op :
  state_wf B s -> reg_no dst -> (forall r, src = Some r -> reg_no r) -> spec_safely points_wf (spec_jmp32 s pc dst src imm offset op).
Proof.
  intros Hs Hd Hr. unfold spec_jmp32. eapply spec_safely_bind; [by apply (reg_ok B)|]. intros d _.
  eapply (spec_safely_bind (fun _ => True)).
  { destruct src as [r|]; [eapply spec_safely_mono; [apply (reg_ok B); auto|done]|]. by destruct imm. }
  intros v _. destruct (_ || _); [auto with spec|]. by apply decided_wf.
Qed.

(** ** Calls and exits *)

Lemma callee_stack_wf : stack_wf B empty_stack.
Proof.
  split; cbn; try done; [by split; [|repeat constructor]|by split; [|repeat constructor]|].
  intros k sp i Hk. by apply lookup_replicate_1 in Hk as [? _].
Qed.
Lemma push_frame_wf l f l' : length l = 7%nat -> Forall (saved_wf B) l -> frame_wf B f -> push_frame l f = Some l' ->
  length l' = 7%nat /\ Forall (saved_wf B) l'.
Proof.
  intros Hl Hf Hw. unfold push_frame. destruct (list_find _ _) as [[k x]|]; [|done]. intros [= <-].
  rewrite length_insert. split; [done|]. by apply Forall_insert.
Qed.
Lemma pop_frame_wf l f l' : length l = 7%nat -> Forall (saved_wf B) l -> pop_frame l = Some (f, l') ->
  frame_wf B f /\ length l' = 7%nat /\ Forall (saved_wf B) l'.
Proof.
  intros Hl Hf. unfold pop_frame. destruct (list_find _ _) as [[k [g|]]|] eqn:Hg; [|done|done]. intros [= <- <-].
  apply list_find_Some in Hg as (Hk & _ & _). apply list_elem_of_lookup_2 in Hk. rewrite elem_of_reverse in Hk.
  rewrite length_insert. rewrite list_elem_of_In in Hk. pose proof (proj1 (List.Forall_forall _ _) Hf _ Hk) as Hw.
  split; [exact Hw|]. split; [done|]. by apply Forall_insert.
Qed.
Lemma caller_pops l : caller_exists l = true -> exists f l', pop_frame l = Some (f, l').
Proof.
  unfold caller_exists, pop_frame. intros (f & Hin & Hf)%existsb_exists. destruct f as [f|]; [|done].
  destruct (list_find_elem_of (fun g : option SpecFrame => is_Some g) (reverse l) (Some f)) as [[k x] Hx].
  { by apply elem_of_reverse, list_elem_of_In. }
  { by eexists. }
  rewrite Hx. apply list_find_Some in Hx as (_ & [y ->] & _). by eexists _, _.
Qed.

Lemma call_sub_ok s pc offset : state_wf B s -> spec_safely points_wf (call_sub s pc offset).
Proof.
  intros [Hc [Hsl Hsf] Hr]. unfold call_sub. destruct (push_frame _ _) as [l|] eqn:Hp; [|auto with spec]. cbn zeta.
  destruct (push_frame_wf _ _ _ Hsl Hsf Hc Hp). pose proof Hc as [[Hl Hrs] _].
  apply points_one. split; [split|done|done]; cbn [cur sregs sstack callee_frame]; [|apply callee_stack_wf]. split.
  - rewrite !length_app, !length_take, !length_drop. rewrite Hl. done.
  - rewrite !Forall_app. split; [repeat constructor|]. split; [by apply Forall_take, Forall_drop|]. repeat constructor; cbn; unfold offsets_wf; lia.
Qed.

Lemma spec_exit_ok s pc : state_wf B s -> spec_safely points_wf (spec_exit s pc).
Proof.
  intros Hs. pose proof Hs as [Hc [Hsl Hsf] [Hrl Hrc]]. unfold spec_exit.
  eapply spec_safely_bind; [apply (reg_ok B); [done|unfold reg_no; lia]|]. intros r0 Hr0.
  destruct (is_uninit r0); [auto with spec|]. destruct (SpecValue.is_pointer r0); [auto with spec|].
  destruct (0 <? refs_cnt s). { eapply spec_safely_bind; [apply index_ok; lia|]. auto with spec. }
  destruct (caller_exists (saved s)) eqn:Hex; [|constructor]. destruct (caller_pops _ Hex) as (f & l & Hp). rewrite Hp.
  destruct (pop_frame_wf _ _ _ Hsl Hsf Hp) as ([[Hfl Hfr] Hfs] & Hl' & Hf').
  assert (Hpt : points_wf [(sret_pc (cur s),
      mkSpecState (mkSpecFrame (fill 1 6 SpecValue.Uninit (<[0%nat := r0]> (sregs f))) (sstack f) (sret_pc f)) l (refs s) (refs_cnt s))]).
  { apply points_one. split; [split|done|done]; cbn [cur sregs sstack]; [|done]. split; [by rewrite fill_length, length_insert|].
    apply fill_forall; [done|]. by apply Forall_insert. }
  destruct r0; try exact Hpt. auto with spec.
Qed.
End steps.

(** ** Operands *)

Definition rhs_regs (rhs : Rhs) : list Z := match rhs with Imm _ => [] | Reg r => [r] end.
(** The registers an instruction names. *)
Definition spec_operands (insn : BpfInsn) : list Z :=
  match insn with
  | BpfInsn.MovImm dst _ | BpfInsn.Mov32Imm dst _ | BpfInsn.MulImm dst _ _ | BpfInsn.LdImm64 dst _
  | BpfInsn.LdMapFd dst _ _ _ _ | BpfInsn.LdMapValue dst _ _ _ _ | BpfInsn.JsetImm dst _ _ => [dst]
  | BpfInsn.MovReg dst src | BpfInsn.Mov32Reg dst src | BpfInsn.MulReg dst src _ | BpfInsn.LdMem dst src _ _ _
  | BpfInsn.StMem dst src _ _ | BpfInsn.Jset dst src _ | BpfInsn.Atomic dst src _ _ _ _ => [dst; src]
  | BpfInsn.StMemImm _ base _ _ => [base]
  | BpfInsn.LdInd src _ _ => [src]
  | BpfInsn.Jmp32 dst src _ _ _ => dst :: option_list src
  | _ =>
      match arith insn, arith32 insn, compare insn with
      | Some (dst, _, rhs, _), _, _ | _, Some (dst, _, rhs, _), _ | _, _, Some (dst, _, rhs, _, _) => dst :: rhs_regs rhs
      | None, None, None => []
      end
  end.
(** What the decoder guarantees. *)
Definition spec_insn_ok (insn : BpfInsn) : bool :=
  forallb (in_range 0 10) (spec_operands insn) &&
  match insn with
  | BpfInsn.LdImm64 _ imm => in_range 0 U64_MAX imm
  | BpfInsn.LdMapValue _ _ offset _ _ => in_range 0 U32_MAX offset
  | BpfInsn.LdMem _ _ offset _ _ | BpfInsn.StMem _ _ offset _ | BpfInsn.StMemImm _ _ offset _
  | BpfInsn.Atomic _ _ offset _ _ _ => in_range (-32768) 32767 offset
  | _ => true
  end.

Lemma operand_no insn r : spec_insn_ok insn = true -> In r (spec_operands insn) -> reg_no r.
Proof.
  unfold spec_insn_ok. intros [H _]%andb_true_iff Hr. pose proof (proj1 (forallb_forall _ _) H r Hr) as Hi.
  unfold in_range in Hi. bool_hyps. by split.
Qed.
Lemma compare_ordering insn dst c rhs offset : compare insn = Some (dst, c, rhs, offset, true) -> is_ordering c = true.
Proof. destruct insn; try discriminate; cbn; by intros [= _ <- _ _]. Qed.

Section dispatch.
Context (maps : Maps) (prog_type : ProgType) (B : Z) (HB : 2 ^ 32 <= B <= 2 ^ 62).
Let B' := B + STEP.

Lemma straight_ok insn pc s :
  state_wf B s -> spec_insn_ok insn = true -> spec_safely (state_wf B') (straight maps prog_type insn pc s).
Proof.
  intros Hs Hi. assert (Hs' : state_wf B' s) by (by apply grow). pose proof (operand_no insn) as Hop.
  assert (Hr : forall r, In r (spec_operands insn) -> reg_no r) by (intros; by apply Hop). clear Hop.
  assert (Hset : forall dst v, In dst (spec_operands insn) -> value_wf B' v -> spec_safely (state_wf B') (set_reg s dst v)).
  { intros dst v Hd Hv. apply set_reg_ok; auto. }
  assert (Hup : forall m : result SpecStop SpecState, spec_safely (state_wf B) m -> spec_safely (state_wf B') m).
  { intros m Hm. eapply spec_safely_mono; [exact Hm|]. intros t. by apply grow. }
  unfold spec_insn_ok in Hi. apply andb_true_iff in Hi as [_ Hi]. unfold in_range in Hi. rewrite ?andb_true_iff, ?Z.leb_le in Hi.
  assert (H0 : reg_no 0) by (unfold reg_no; lia).
  assert (Hcs : forall v, is_u64 v -> value_wf B' (SpecValue.const_scalar v)) by (intros; by apply const_scalar_wf).
  destruct insn; cbn [straight arith arith32]; cbn [spec_operands arith arith32 compare rhs_regs] in Hr, Hset;
    first
      [ done
      | exact I
      | by apply Hset; [left|apply Hcs; apply as_u64_range]
      | by apply alu64_ok; try done; first [exact I|apply Hr; cbn; tauto]
      | by apply alu32_ok; try done; first [exact I|apply Hr; cbn; tauto]
      | by apply mul64_ok; try done; first [exact I|apply Hr; cbn; tauto]
      | by apply mov_reg_ok; try done; apply Hr; cbn; tauto
      | by apply mov32_reg_ok; try done; apply Hr; cbn; tauto
      | idtac ].
  - apply Hset; [by left|]. apply Hcs. pose proof (as_u32_range imm). lia.
  - eapply spec_safely_bind; [apply (load_ok B); [done|apply Hr; cbn; tauto|lia]|]. intros v Hv. apply Hset; [by left|]. by apply grow_value.
  - eapply spec_safely_bind; [apply (reg_ok B); [done|apply Hr; cbn; tauto]|]. intros v Hv. apply Hup, spec_store_ok; [done|apply Hr; cbn; tauto|lia|done].
  - apply Hup, spec_store_ok; [done|apply Hr; cbn; tauto|lia|apply const_scalar_wf, as_u64_range].
  - apply Hset; [by left|]. apply Hcs. lia.
  - apply Hset; [by left|]. unfold map_pointer. by destruct (maps !! fd).
  - apply Hset; [by left|]. cbn. unfold offsets_wf, B'. lia.
  - apply Hup, atomic_ok; [done|apply Hr; cbn; tauto|apply Hr; cbn; tauto|lia].
  - unfold ld_abs. destruct (packet_load_allowed prog_type); [|auto with spec]. apply set_reg_ok; [done|done|apply unknown_scalar_wf].
  - unfold ld_ind. destruct (packet_load_allowed prog_type); [|auto with spec].
    eapply spec_safely_bind; [apply (reg_ok B); [done|apply Hr; cbn; tauto]|]. intros v _.
    destruct (is_uninit v); [auto with spec|]. apply set_reg_ok; [done|done|apply unknown_scalar_wf].
Qed.

(** What a step may lead to. *)
Definition step_safe (id : Z) (r : list point * Z) : Prop := points_wf B' (fst r) /\ id <= snd r <= id + 1.

Lemma spec_step_safe insn pc s id :
  state_wf B s -> spec_insn_ok insn = true -> 0 <= id < U32_MAX -> spec_safely (step_safe id) (spec_step maps prog_type insn pc s id).
Proof.
  intros Hs Hi Hid. assert (Hr : forall r, In r (spec_operands insn) -> reg_no r) by (intros; by apply (operand_no insn)).
  assert (Hsame : forall m, spec_safely (points_wf B) m -> spec_safely (step_safe id) (let? l := m in Ok (l, id))).
  { intros m Hm. eapply spec_safely_bind; [exact Hm|]. intros l Hl. split; [|cbn; lia]. eapply Forall_impl; [exact Hl|]. intros p. by apply grow. }
  assert (Hstraight : spec_safely (step_safe id)
    (let? s := straight maps prog_type insn pc s in Ok ([(if is_ldimm64 insn then pc + 2 else pc + 1, s)], id))).
  { eapply spec_safely_bind; [by apply straight_ok|]. intros t Ht. split; [by apply points_one|cbn; lia]. }
  assert (Hcond : forall dst c rhs offset signed, compare insn = Some (dst, c, rhs, offset, signed) -> reg_no dst -> rhs_ok rhs ->
    spec_safely (step_safe id) (let? l := spec_cond s pc dst c rhs offset signed in Ok (l, id))).
  { intros dst c rhs offset signed Hc Hd Hrhs. apply Hsame, spec_cond_ok; [done..|]. intros ->. by eapply compare_ordering. }
  destruct insn; cbn [spec_step compare]; cbn [spec_operands arith arith32 compare rhs_regs] in Hr; try exact Hstraight;
    try (apply Hcond; [done|apply Hr; cbn; tauto|first [exact I|apply Hr; cbn; tauto]]).
  - split; [|cbn; lia]. by apply points_one, grow.
  - apply Hsame, spec_jset_ok; [done|apply Hr; cbn; tauto..].
  - apply Hsame, spec_jset_imm_ok; [done|apply Hr; cbn; tauto].
  - apply Hsame, spec_jmp32_ok; [done|apply Hr; cbn; tauto|]. intros r ->. apply Hr. cbn. tauto.
  - eapply spec_safely_bind; [by apply (helper_call_ok B)|].
    intros [t n] [Ht Hn]. split; [|exact Hn]. by apply points_one, grow.
  - by apply Hsame, call_sub_ok.
  - by apply Hsame, spec_exit_ok.
Qed.
End dispatch.
