(* ===== verification/SpecCheck.v ===== *)
(** Properties of the specification interpreter on well-formed states: a verdict
    for every program the decoder yields, the safety of one step and of stack
    accesses, progress in accepted programs, round trips of stores and loads, and the
    programs and values for which the code misses what it means to check. *)
From Stdlib Require Import ZArith Lia List Bool String.
From stdpp Require Import base list gmap.
From S2P Require Import Prelude Tnum Insn Alu Branch Ctx ConcreteRun SpecRange SpecState SpecRun SpecSafe.
Open Scope Z_scope.

(** * Progress *)

Definition some_side (sd : sides) : Prop := fst sd <> [] \/ snd sd <> [].
Lemma unsigned_some_side d s c : abs_wf d -> abs_wf s -> some_side (unsigned_cmp_refine d s c).
Proof.
  intros Hd Hs. unfold some_side, unsigned_cmp_refine. destruct d as [d0 d1], s as [s0 s1]. cbn [fst snd].
  assert (Hne : forall l l' : list Range, (l <> [] \/ l' <> []) -> l' <> [] \/ l <> []) by tauto.
  assert (Heq : take_unsigned (d0, d1) (s0, s1) Cmp.Eq <> [] \/ take_unsigned (d0, d1) (s0, s1) Cmp.Ne <> []).
  { cbn [take_unsigned fst snd]. destruct (Z.leb_spec (Z.max d0 s0) (Z.min d1 s1)); [by left|right].
    destruct (Z.ltb_spec d0 s0); [rewrite (proj2 (Z.leb_gt s0 d0)) by lia; done|].
    destruct (Z.ltb_spec s1 d1); [|interval]. by rewrite (proj2 (Z.leb_gt d1 s1)), andb_false_r by lia. }
  assert (Hlt : take_unsigned (d0, d1) (s0, s1) Cmp.Lt <> [] \/ take_unsigned (d0, d1) (s0, s1) Cmp.Ge <> []).
  { cbn [take_unsigned fst snd]. destruct (Z.ltb_spec d1 s0); [left|by right].
    rewrite (proj2 (Z.eqb_neq s0 0)), (proj2 (Z.ltb_ge s1 d0)) by interval. cbn. by rewrite (proj2 (Z.leb_le _ _)) by interval. }
  assert (Hle : take_unsigned (d0, d1) (s0, s1) Cmp.Le <> [] \/ take_unsigned (d0, d1) (s0, s1) Cmp.Gt <> []).
  { cbn [take_unsigned fst snd]. destruct (Z.ltb_spec s1 d0); [right|by left].
    rewrite (proj2 (Z.eqb_neq s0 U64_MAX)), (proj2 (Z.leb_gt d1 s0)) by interval. done. }
  destruct c; cbn [Cmp.negate]; auto.
Qed.
Lemma signed_some_side d s c : abs_wf d -> abs_wf s -> is_ordering c = true -> some_side (signed_cmp_refine d s c).
Proof.
  intros Hd Hs Hc. unfold some_side, signed_cmp_refine.
  destruct (as_signed d) as [[dlo dhi]|] eqn:Hds; [|by left]. destruct (as_signed s) as [[slo shi]|] eqn:Hss; [|by left].
  destruct (as_signed_some d dlo dhi Hd Hds) as [Hod _]. destruct (as_signed_some s slo shi Hs Hss) as [Hos _].
  unfold one_sign in *. cbn [fst snd].
  assert (Hlt : take_signed dlo dhi slo shi Cmp.Lt <> [] \/ take_signed dlo dhi slo shi Cmp.Ge <> []).
  { cbn [take_signed]. destruct (Z.ltb_spec dhi slo); [left|by right].
    rewrite (proj2 (Z.eqb_neq shi I64_MIN)), (proj2 (Z.ltb_ge shi dlo)) by lia. cbn. by rewrite (proj2 (Z.leb_le _ _)) by lia. }
  assert (Hle : take_signed dlo dhi slo shi Cmp.Le <> [] \/ take_signed dlo dhi slo shi Cmp.Gt <> []).
  { cbn [take_signed]. destruct (Z.ltb_spec shi dlo); [right|by left].
    rewrite (proj2 (Z.eqb_neq slo I64_MAX)), (proj2 (Z.leb_gt dhi slo)) by lia. done. }
  destruct c; try discriminate Hc; cbn [Cmp.negate]; tauto.
Qed.

(** A rejection, a panic, or a list with a point. *)
Definition moves (m : result SpecStop (list point)) : Prop := forall l, m = Ok l -> l <> [].
Lemma moves_bind {A} (m : result SpecStop A) k : (forall a, m = Ok a -> moves (k a)) -> moves (rbind m k).
Proof. intros Hk l (a & Ha & Hl)%rbind_ok. by apply (Hk a). Qed.
Lemma moves_ok (l : list point) : l <> [] -> moves (Ok l).
Proof. by intros Hl l' [= <-]. Qed.
Lemma moves_fail pc msg vals : moves (failure pc msg vals).
Proof. done. Qed.
#[local] Hint Resolve moves_ok moves_fail : spec.

Lemma emit_refined_moves s dst sd target fall_pc : some_side sd -> moves (emit_refined s dst sd target fall_pc).
Proof.
  intros Hsd. apply moves_bind. intros _ _. apply moves_ok. destruct sd as [[|t ts] [|f fs]], Hsd; done.
Qed.
Lemma pointer_branch_moves s pc dst c src target : moves (pointer_branch s pc dst c src target).
Proof.
  apply moves_bind. intros d _. cbn zeta.
  match goal with |- context [if is_null src then _ else ?o] => assert (Ho : moves o) end.
  { destruct (_ && _); [destruct c; auto with spec; by apply moves_ok|]. destruct (_ || _); [by apply moves_ok|auto with spec]. }
  destruct (is_null src); [|exact Ho]. destruct d; try exact Ho.
  - destruct c; auto with spec; by apply moves_ok.
  - apply moves_bind. intros null _. apply moves_bind. intros valid _. destruct c; auto with spec; by apply moves_ok.
Qed.
Lemma spec_cond_moves B s pc dst c rhs offset signed :
  state_wf B s -> reg_no dst -> rhs_ok rhs -> (signed = true -> is_ordering c = true) ->
  moves (spec_cond s pc dst c rhs offset signed).
Proof.
  intros Hs Hd Hr Hc. assert (Hself : some_side (self_compare_refine c)) by (destruct c; unfold some_side; cbn; auto).
  apply moves_bind. intros [v same] Hv. assert (Hvw : value_wf B v).
  { destruct rhs as [imm|r]; [injection Hv as <- <-; apply const_scalar_wf, as_u64_range|].
    apply rbind_ok in Hv as (w & Hw & [= <- <-]). by apply (spec_safely_result _ _ _ (reg_ok B s r Hs Hr)). }
  destruct signed; apply moves_bind; intros d Hdr; pose proof (spec_safely_result _ _ _ (reg_ok B s dst Hs Hd) Hdr) as Hdw.
  - destruct (_ || _); [auto with spec|]. destruct (SpecValue.as_scalar d) as [rd|] eqn:Hrd; [|auto with spec].
    destruct same; [by apply emit_refined_moves|]. destruct (SpecValue.as_scalar v) as [rs|] eqn:Hrs; [|auto with spec].
    apply emit_refined_moves, signed_some_side; [exact (scalar_range B d rd Hdw Hrd)|exact (scalar_range B v rs Hvw Hrs)|auto].
  - destruct (_ || _); [apply pointer_branch_moves|]. destruct (SpecValue.as_scalar d) as [rd|] eqn:Hrd; [|auto with spec].
    destruct same; [by apply emit_refined_moves|]. destruct (SpecValue.as_scalar v) as [rs|] eqn:Hrs; [|auto with spec].
    apply emit_refined_moves, unsigned_some_side; [exact (scalar_range B d rd Hdw Hrd)|exact (scalar_range B v rs Hvw Hrs)].
Qed.
Lemma decided_moves s pc offset d v test : moves (Ok (decided s pc offset d v test)).
Proof. apply moves_ok. by destruct d, v. Qed.

(** The end of the main program: a scalar in R0 and no reference held. *)
Definition main_exit (s : SpecState) : Prop :=
  caller_exists (saved s) = false /\ refs_cnt s <= 0 /\ exists lo hi, reg s 0 = Ok (SpecValue.Scalar lo hi).
Lemma exit_moves s pc : main_exit s \/ moves (spec_exit s pc).
Proof.
  unfold spec_exit. destruct (reg s 0) as [r0|e] eqn:Hr0; [|by right]. cbn [rbind].
  destruct (is_uninit r0) eqn:Hu; [right; auto with spec|]. destruct (SpecValue.is_pointer r0) eqn:Hp; [right; auto with spec|].
  destruct (Z.ltb_spec 0 (refs_cnt s)); [right; by apply moves_bind|].
  destruct (caller_exists (saved s)) eqn:Hc.
  - right. destruct (pop_frame (saved s)) as [[f l]|]; [|done]. destruct r0; auto with spec; by apply moves_ok.
  - left. split; [done|]. split; [done|]. apply bool_decide_eq_false in Hu. destruct r0; try done. by eexists _, _.
Qed.

Lemma spec_step_moves maps prog_type B insn pc s id nexts id' :
  state_wf B s -> spec_insn_ok insn = true -> spec_step maps prog_type insn pc s id = Ok (nexts, id') ->
  nexts <> [] \/ (insn = BpfInsn.Exit /\ main_exit s).
Proof.
  intros Hs Hi. assert (Hr : forall r, In r (spec_operands insn) -> reg_no r) by (intros; by apply (operand_no insn)).
  assert (Hsame : forall m, moves m -> (let? l := m in Ok (l, id)) = Ok (nexts, id') -> nexts <> []).
  { intros m Hm (l & Hl & [= <- <-])%rbind_ok. by apply Hm. }
  assert (Hstraight : (let? s := straight maps prog_type insn pc s in
    Ok ([(if is_ldimm64 insn then pc + 2 else pc + 1, s)], id)) = Ok (nexts, id') -> nexts <> []).
  { intros (t & _ & [= <- <-])%rbind_ok. done. }
  assert (Hcond : forall dst c rhs offset signed, compare insn = Some (dst, c, rhs, offset, signed) -> reg_no dst -> rhs_ok rhs ->
    (let? l := spec_cond s pc dst c rhs offset signed in Ok (l, id)) = Ok (nexts, id') -> nexts <> []).
  { intros dst c rhs offset signed Hc Hd Hrhs. apply Hsame, (spec_cond_moves B); [done..|]. intros ->. by eapply compare_ordering. }
  destruct insn; cbn [spec_step compare]; cbn [spec_operands arith arith32 compare rhs_regs] in Hr; intros Hstep;
    try (left; by apply Hstraight);
    try (left; eapply Hcond; [reflexivity|apply Hr; cbn; tauto| |exact Hstep]; first [exact I|apply Hr; cbn; tauto]).
  - injection Hstep as <- <-. by left.
  - left. eapply Hsame; [|exact Hstep]. apply moves_bind. intros d _. apply moves_bind. intros v _.
    destruct (_ || _); [auto with spec|]. apply decided_moves.
  - left. eapply Hsame; [|exact Hstep]. apply moves_bind. intros d _. destruct (is_uninit d); [auto with spec|]. apply decided_moves.
  - left. eapply Hsame; [|exact Hstep]. apply moves_bind. intros d _. apply moves_bind. intros v _.
    destruct (_ || _); [auto with spec|]. apply decided_moves.
  - left. apply rbind_ok in Hstep as ([t n] & _ & [= <- <-]). done.
  - left. eapply Hsame; [|exact Hstep]. unfold call_sub. destruct (push_frame _ _); [by apply moves_ok|auto with spec].
  - destruct (exit_moves s pc) as [Hm|Hm]; [by right|left]. by eapply Hsame.
Qed.

(** * The run *)

(** The bound on offsets after [n] steps. *)
Definition offset_bound (n : Z) : Z := 2 ^ 32 + n * STEP.
Definition budget_ok (limits : SpecLimits) : Prop := 0 <= max_steps limits <= 2 ^ 31.

Lemma initial_wf : state_wf (offset_bound 0) initial.
Proof.
  assert (Hz : offsets_wf (offset_bound 0) 0 0) by (unfold offsets_wf, offset_bound; lia). split; cbn [initial cur saved refs refs_cnt].
  - split; [|apply callee_stack_wf]. split; [done|]. apply Forall_insert; [apply Forall_insert; [by apply Forall_replicate|exact Hz]|exact Hz].
  - split; [done|]. by apply Forall_replicate.
  - split; [done|lia].
Qed.

Record runner_wf (r : Runner) : Prop := {
  wf_steps : 0 <= steps r;
  wf_counter : 0x40000000 <= next_ref_id r <= 0x40000000 + steps r;
  wf_worklist : points_wf (offset_bound (steps r)) (worklist r);
  wf_visited : points_wf (offset_bound (steps r)) (visited r)
}.
Lemma points_wf_mono B B' l : B <= B' -> points_wf B l -> points_wf B' l.
Proof. intros HB Hl. eapply Forall_impl; [exact Hl|]. intros p. by apply state_wf_mono. Qed.
Lemma offset_bound_step n : 0 <= n <= 2 ^ 31 -> 2 ^ 32 <= offset_bound n <= 2 ^ 62 /\ offset_bound (n + 1) = offset_bound n + STEP.
Proof. unfold offset_bound. lia. Qed.

Section total.
Context (maps : Maps) (prog_type : ProgType) (program : list BpfInsn) (loop_heads : list Z) (limits : SpecLimits).
Context (Hprog : forallb spec_insn_ok program = true) (Hlim : budget_ok limits).

Lemma program_insn_ok pc insn : get program pc = Some insn -> spec_insn_ok insn = true.
Proof.
  unfold get. destruct (pc <? 0); [done|]. intros Hi%list_elem_of_lookup_2. rewrite list_elem_of_In in Hi. by apply (proj1 (forallb_forall _ _) Hprog).
Qed.

Lemma start_wf : runner_wf start.
Proof. split; cbn; [lia|lia| |by constructor]. apply points_one, initial_wf. Qed.

Lemma turn_wf r r' : runner_wf r -> turn maps prog_type program loop_heads limits r = inr r' -> runner_wf r'.
Proof.
  intros [Hst Hid Hw Hv] Ht.
  destruct (turn_continues _ _ _ _ _ r r' Ht) as (pc & s & rest & insn & Hwl & Hs' & Hle & Hg & Hcase).
  rewrite Hwl in Hw. apply Forall_cons in Hw as [Hs Hrest]. unfold budget_ok in Hlim.
  destruct (offset_bound_step (steps r) ltac:(lia)) as [HB HB1].
  assert (Hup : forall l, points_wf (offset_bound (steps r)) l -> points_wf (offset_bound (steps r + 1)) l).
  { intros l. apply points_wf_mono. lia. }
  destruct Hcase as [[_ ->]|(_ & nexts & id & Hstep & ->)]; split; cbn; try lia; try (by apply Hup).
  - pose proof (spec_safely_result _ _ _ (spec_step_safe maps prog_type _ HB insn pc s (next_ref_id r) Hs (program_insn_ok _ _ Hg) ltac:(lia)) Hstep) as [_ Hn].
    cbn in Hn. lia.
  - pose proof (spec_safely_result _ _ _ (spec_step_safe maps prog_type _ HB insn pc s (next_ref_id r) Hs (program_insn_ok _ _ Hg) ltac:(lia)) Hstep) as [Hn _].
    cbn in Hn. rewrite HB1 in *. apply Forall_app. split; [by apply Forall_reverse|by apply Hup].
  - apply Forall_cons. split; [eapply state_wf_mono; [|exact Hs]; lia|by apply Hup].
Qed.

Lemma turn_no_panic r : runner_wf r -> turn maps prog_type program loop_heads limits r <> inl (Err SpecPanic).
Proof.
  intros [Hst Hid Hw Hv]. unfold turn. destruct (worklist r) as [|[pc s] rest]; [done|]. cbn zeta. cbn [visited next_ref_id].
  apply Forall_cons in Hw as [Hs _]. unfold budget_ok in Hlim. destruct (Z.ltb_spec (max_steps limits) (steps r + 1)); [done|].
  destruct (_ <? _); [done|]. destruct (get program pc) as [insn|] eqn:Hg; [|done].
  case_bool_decide; [by case_bool_decide|]. destruct (offset_bound_step (steps r) ltac:(lia)) as [HB _].
  pose proof (spec_step_safe maps prog_type _ HB insn pc s (next_ref_id r) Hs (program_insn_ok _ _ Hg) ltac:(lia)) as Hsafe.
  destruct (spec_step _ _ _ _ _ _) as [[nexts id]|e]; [done|]. intros [= ->]. done.
Qed.
End total.

Lemma spec_verdict_exists (program : list BpfInsn) (maps : Maps) (limits : SpecLimits) (prog_type : ProgType) :
  forallb spec_insn_ok program = true -> budget_ok limits -> exists v, verify_spec_limited program maps limits prog_type = Some v.
Proof.
  intros Hp Hl. destruct (spec_run_total program maps limits prog_type) as [r Hr]. unfold verify_spec_limited. rewrite Hr.
  destruct (run_invariant maps prog_type program (compute_loop_heads program) limits runner_wf (spec_fuel limits) start r)
    as (t & Ht & Hend); [by apply turn_wf|by apply start_wf|exact Hr|].
  pose proof (turn_no_panic maps prog_type program (compute_loop_heads program) limits Hp Hl t Ht) as Hn. rewrite Hend in Hn.
  destruct r as [v|[f| |]]; cbn; eauto. done.
Qed.

(** * Properties *)

(** One step of the specification interpreter is safe: from a well-formed state,
    with offsets below 2^62 and a reference counter that is not exhausted, an
    instruction the decoder yields never panics, and all the
    states it leads to are well-formed, with offsets at most 2^29 larger. *)
Theorem spec_steps_safe (maps : Maps) (prog_type : ProgType) (n : Z) (insn : BpfInsn) (pc : Z) (s : SpecState) (id : Z) :
  0 <= n <= 2 ^ 31 -> state_wf (offset_bound n) s -> spec_insn_ok insn = true -> 0 <= id < U32_MAX ->
  spec_step maps prog_type insn pc s id <> Err SpecPanic /\
  forall nexts id', spec_step maps prog_type insn pc s id = Ok (nexts, id') ->
    (forall p, p ∈ nexts -> state_wf (offset_bound (n + 1)) (snd p)) /\ id <= id' <= id + 1.
Proof.
  intros Hn Hs Hi Hid. destruct (offset_bound_step n Hn) as [HB ->].
  pose proof (spec_step_safe maps prog_type _ HB insn pc s id Hs Hi Hid) as Hsafe. split; [by intros He; rewrite He in Hsafe|].
  intros nexts id' He. rewrite He in Hsafe. destruct Hsafe as [Hp Hn']. split; [|exact Hn']. intros p Hin. rewrite list_elem_of_In in Hin.
  by apply (proj1 (List.Forall_forall _ _) Hp).
Qed.

Lemma spec_steps_safe_witness :
  exists p, spec_step ∅ ProgType.Xdp (BpfInsn.StMem 10 10 (-16) MemSize.DW) 3 initial 7 = Ok ([p], 7) /\
    state_wf (offset_bound 1) (snd p).
Proof.
  destruct (spec_steps_safe ∅ ProgType.Xdp 0 (BpfInsn.StMem 10 10 (-16) MemSize.DW) 3 initial 7) as [_ H];
    [lia|exact initial_wf|reflexivity|lia|].
  destruct (spec_step ∅ ProgType.Xdp (BpfInsn.StMem 10 10 (-16) MemSize.DW) 3 initial 7) as [[[|p [|q l]] n]|e] eqn:E;
    try (vm_compute in E; discriminate E).
  assert (En : n = 7) by (vm_compute in E; injection E as _ <-; reflexivity). subst n.
  exists p. split; [reflexivity|]. apply (proj1 (H [p] 7 eq_refl)). by left.
Defined.

(** C26: The specification interpreter has a verdict for every program of decoded
    instructions, dynptr reads included: it neither runs on nor panics, within any
    step budget up to 2^31. *)
Theorem verify_spec_total (program : list BpfInsn) (maps : Maps) (limits : SpecLimits) (prog_type : ProgType) :
  forallb spec_insn_ok program = true -> budget_ok limits -> exists v, verify_spec_limited program maps limits prog_type = Some v.
Proof. apply spec_verdict_exists. Qed.
Lemma verify_spec_total_witness : exists v, verify_spec_limited spec_countdown ∅ default_limits ProgType.SocketFilter = Some v.
Proof.
  apply (verify_spec_total spec_countdown ∅ default_limits ProgType.SocketFilter); [reflexivity|unfold budget_ok; cbn; lia].
Defined.

(** C25: In a program of decoded instructions that is accepted within a step budget of
    at most 2^31 no explored path gets stuck: from every point that is reached, starting
    with the entry, the program either ends, at the exit of the main function with a
    scalar in R0 and every reference released, or moves on, and every point it may move
    to is reached too. *)
Theorem spec_accept_progress (program : list BpfInsn) (maps : Maps) (limits : SpecLimits) (prog_type : ProgType) :
  forallb spec_insn_ok program = true -> budget_ok limits ->
  verify_spec_limited program maps limits prog_type = Some SpecVerdict.Accept ->
  exists points : list point, (0, initial) ∈ points /\
    forall pc s, (pc, s) ∈ points -> exists insn, get program pc = Some insn /\
      ((insn = BpfInsn.Exit /\ main_exit s) \/
       exists id nexts id', spec_step maps prog_type insn pc s id = Ok (nexts, id') /\ nexts <> [] /\
         forall q, q ∈ nexts -> q ∈ points).
Proof.
  intros Hp Hl Ha.
  destruct (accepted_run runner_wf program maps limits prog_type) as (r & [_ _ _ Hv] & Hw & [Hs _ He]); [by apply turn_wf|by apply start_wf|exact Ha|].
  rewrite Hw, app_nil_r in *. exists (visited r). split; [exact Hs|]. intros pc s Hin.
  destruct (He (pc, s) Hin) as (insn & id & nexts & id' & Hg & Hstep & Hq). cbn [fst snd] in *. exists insn. split; [exact Hg|].
  rewrite list_elem_of_In in Hin. pose proof (proj1 (List.Forall_forall _ _) Hv _ Hin) as Hwf.
  destruct (spec_step_moves maps prog_type _ insn pc s id nexts id' Hwf (program_insn_ok program Hp _ _ Hg) Hstep) as [Hn|Hn]; [right|by left].
  exists id, nexts, id'. split; [exact Hstep|]. split; [exact Hn|exact Hq].
Qed.

Lemma spec_accept_progress_witness :
  exists points : list point, (0, initial) ∈ points /\ forall s, (4, s) ∈ points -> exists id nexts id',
    spec_step ∅ ProgType.SocketFilter (BpfInsn.JneImm 0 0 (-4)) 4 s id = Ok (nexts, id') /\ nexts <> [].
Proof.
  destruct (spec_accept_progress spec_countdown ∅ default_limits ProgType.SocketFilter) as (points & Hs & Hp);
    [reflexivity|unfold budget_ok; cbn; lia|vm_compute; reflexivity|].
  exists points. split; [exact Hs|]. intros s Hin. destruct (Hp 4 s Hin) as (insn & Hg & H).
  assert (Hi : insn = BpfInsn.JneImm 0 0 (-4)) by (injection Hg as <-; reflexivity). subst insn.
  destruct H as [[H _]|(id & nexts & id' & H & Hn & _)]; [discriminate H|]. exists id, nexts, id'. split; [exact H|exact Hn].
Defined.

(** * Stores and loads *)

(** The bytes of the word [v] from position [idx] on. *)
Definition holds_word (st : SpecStack) (idx : Z) (n : nat) (v : Z) : Prop :=
  forall j, (j < n)%nat -> sbytes st !! (Z.to_nat idx + j)%nat = Some (as_u8 (Z.shiftr v (8 * Z.of_nat j))).

Lemma le_bytes_lookup n v j : (j < n)%nat -> le_bytes n v !! j = Some (as_u8 (Z.shiftr v (8 * Z.of_nat j))).
Proof.
  intros Hj. unfold le_bytes. rewrite list_lookup_fmap, lookup_seq_lt by lia. done.
Qed.
Lemma put_bytes_word abs n v b b' : put_bytes abs n v b = Ok b' ->
  forall j, (j < n)%nat -> b' !! (Z.to_nat abs + j)%nat = Some (as_u8 (Z.shiftr v (8 * Z.of_nat j))).
Proof.
  unfold put_bytes. destruct (_ && _) eqn:Hc; [|done]. intros [= <-] j Hj. bool_hyps.
  assert (Hlen : length (le_bytes n v) = n) by (unfold le_bytes; by rewrite length_map, length_seq).
  rewrite list_lookup_inserts by (rewrite ?Hlen; lia). rewrite <- (le_bytes_lookup n v j Hj). f_equal. lia.
Qed.
Lemma mark_range_fields st off len st' : mark_range_init st off len = Ok st' -> sbytes st' = sbytes st /\ sspill st' = sspill st.
Proof. unfold mark_range_init. intros (? & _ & [= <-])%rbind_ok. done. Qed.

Lemma store_slot_contents pc start slot v st st' :
  store_slot pc start slot v st = Ok st' ->
  sspill st' !! Z.to_nat slot = Some (Some (spilled v)) /\
  forall c, spec_const v = Some c -> holds_word st' (512 + start) 8 c.
Proof.
  unfold store_slot. intros (x & Hx & Hr)%rbind_ok. cbn zeta in Hr. apply rbind_ok in Hr as (st1 & H1 & Hr).
  destruct (mark_range_fields _ _ _ _ H1) as [_ Hsp1]. cbn in Hsp1.
  assert (Hlt : (Z.to_nat slot < length (sspill st))%nat).
  { unfold index, get in Hx. destruct (slot <? 0); [done|]. destruct (sspill st !! Z.to_nat slot) eqn:Hl; [|done]. by apply lookup_lt_Some in Hl. }
  assert (Hslot : sspill st1 !! Z.to_nat slot = Some (Some (spilled v))) by (rewrite Hsp1; by apply list_lookup_insert_eq).
  destruct (spec_const v) as [c|] eqn:Hv.
  - apply rbind_ok in Hr as (b & Hb & [= <-]). split; [done|]. intros _ [= <-] j Hj. cbn. by apply (put_bytes_word _ _ _ _ _ Hb).
  - injection Hr as <-. split; [done|]. intros c [=].
Qed.
Lemma store_narrow_contents pc start bytes v st st' :
  store_narrow pc start bytes v st = Ok st' ->
  sspill st' !! Z.to_nat (Z.quot (512 + start) 8) = Some None /\
  forall c, spec_const v = Some c -> holds_word st' (512 + start) (Z.to_nat bytes) c.
Proof.
  unfold store_narrow. cbn zeta. destruct (_ <=? _); [done|]. intros (old & Hold & Hr)%rbind_ok. destruct (is_spilled_pointer old); [done|].
  apply rbind_ok in Hr as ([b init] & _ & Hr). apply rbind_ok in Hr as (init' & _ & Hr). apply rbind_ok in Hr as (b' & Hb & [= <-]). cbn. split.
  - apply list_lookup_insert_eq. unfold index, get in Hold. destruct (_ <? 0); [done|].
    destruct (sspill st !! _) eqn:Hl; [|done]. by apply lookup_lt_Some in Hl.
  - intros c Hc j Hj. rewrite Hc in Hb. by apply (put_bytes_word _ _ _ _ _ Hb).
Qed.

Lemma byte_above v k : 0 <= k -> Z.lor (v mod 2 ^ k) (Z.shiftl (as_u8 (Z.shiftr v k)) k) = v mod 2 ^ (k + 8).
Proof.
  intros Hk. apply Z.bits_inj'. intros i Hi. rewrite Z.lor_spec, Z.shiftl_spec by done. destruct (Z.lt_ge_cases i k).
  - rewrite (Z.testbit_neg_r _ (i - k)), orb_false_r, !Z.mod_pow2_bits_low by lia. done.
  - rewrite Z.mod_pow2_bits_high by lia. cbn [orb]. rewrite as_u_spec, Z.shiftr_spec by lia. replace (i - k + k) with i by lia.
    destruct (Z.ltb_spec (i - k) 8); [rewrite Z.mod_pow2_bits_low by lia; done|by rewrite Z.mod_pow2_bits_high by lia].
Qed.

(** A read of initialized bytes that hold the word, from byte [k] of it on. *)
Lemma read_word pc st idx k n v :
  0 <= idx -> (forall j, (j < n)%nat -> sbytes st !! (Z.to_nat idx + j)%nat = Some (as_u8 (Z.shiftr v (8 * (Z.of_nat k + Z.of_nat j))))) ->
  ready_between st idx (idx + Z.of_nat n) ->
  read_bytes pc st idx (Z.of_nat k) n (v mod 2 ^ (8 * Z.of_nat k)) = Ok (v mod 2 ^ (8 * Z.of_nat (k + n))).
Proof.
  revert idx k. induction n as [|n IH]; intros idx k Hidx Hb Hr; cbn [read_bytes]; [by rewrite Nat.add_0_r|].
  pose proof (Hr (Z.to_nat idx) ltac:(lia)) as Hi. pose proof (Hb 0%nat ltac:(lia)) as Hb0. rewrite Nat.add_0_r, Z.add_0_r in Hb0.
  unfold index, get. rewrite (proj2 (Z.ltb_ge idx 0)) by lia. rewrite Hi, Hb0. cbn [rbind negb].
  rewrite byte_above by lia. replace (8 * Z.of_nat k + 8) with (8 * Z.of_nat (S k)) by lia. replace (Z.of_nat k + 1) with (Z.of_nat (S k)) by lia.
  rewrite (IH (idx + 1) (S k)); [by replace (S k + n)%nat with (k + S n)%nat by lia|lia| |intros i Hin; apply Hr; lia].
  intros j Hj. replace (Z.to_nat (idx + 1) + j)%nat with (Z.to_nat idx + S j)%nat by lia. rewrite Hb by lia. do 3 f_equal. lia.
Qed.

Lemma read_back pc st idx n m v :
  0 <= idx -> holds_word st idx m v -> (n <= m)%nat -> ready_between st idx (idx + Z.of_nat n) ->
  read_bytes pc st idx 0 n 0 = Ok (v mod 2 ^ (8 * Z.of_nat n)).
Proof.
  intros Hi Hw Hnm Hr. change 0 with (Z.of_nat 0) at 1. replace 0 with (v mod 2 ^ (8 * Z.of_nat 0)) at 1 by (cbn; by rewrite Z.mod_1_r).
  rewrite read_word; [done|done| |done]. intros j Hj. rewrite Hw by lia. do 3 f_equal.
Qed.

(** ** An access at a known offset *)

(** An access of [bytes] at [start] that the range check accepts. *)
Definition accepted (start bytes : Z) : Prop := - 512 <= start /\ start + bytes <= 0 /\ (4 <= bytes -> start mod bytes = 0).
Lemma accepted_check pc start bytes : accepted start bytes -> check_stack_range pc start (start + bytes) bytes = Ok tt.
Proof.
  intros (Hs & He & Ha). unfold check_stack_range. rewrite (proj2 (Z.ltb_ge start (- SPEC_STACK_SIZE))), (proj2 (Z.ltb_ge 0 (start + bytes))) by lia. cbn [orb].
  unfold aligned_across. replace (start + bytes - bytes) with start by lia. rewrite Z.eqb_refl. destruct (Z.leb_spec 4 bytes); [|done].
  by rewrite (proj2 (Z.eqb_eq _ _) (Ha ltac:(lia))).
Qed.
Lemma accepted_narrower start bytes bytes' : width bytes -> width bytes' -> bytes' <= bytes -> accepted start bytes -> accepted start bytes'.
Proof.
  intros Hw Hw' Hle (Hs & He & Ha). split; [done|]. split; [lia|]. intros H4. specialize (Ha ltac:(lia)). unfold width in *.
  destruct Hw as [->|[->|[->| ->]]], Hw' as [->|[->|[->| ->]]]; try lia.
  revert Ha. clear. div_lia.
Qed.

(** What a fixed store leaves at its place. *)
Lemma store_fixed B s pc o off bytes v s' :
  2 ^ 32 <= B <= 2 ^ 62 -> state_wf B s -> - B <= o <= B -> width bytes -> is_i64 off -> value_wf B v ->
  store_stack s pc o o off bytes v = Ok s' ->
  state_wf B s' /\ sregs (cur s') = sregs (cur s) /\ accepted (o + off) bytes /\ ready_between (stack s') (512 + (o + off)) (512 + (o + off) + bytes) /\
  (bytes = 8 -> exists slot, slot_of (512 + (o + off)) = Some slot /\ sspill (stack s') !! Z.to_nat slot = Some (Some (spilled v))) /\
  (bytes <> 8 -> sspill (stack s') !! Z.to_nat (Z.quot (512 + (o + off)) 8) = Some None) /\
  (forall c, v = SpecValue.const_scalar c -> holds_word (stack s') (512 + (o + off)) (Z.to_nat bytes) c).
Proof.
  intros HB Hs Ho Hw Hoff Hv Hst. assert (Hor : offsets_wf B o o) by (unfold offsets_wf; lia).
  destruct (spec_safely_result _ _ _ (store_stack_ok B s pc o o off bytes v Hs Hor Hw Hoff Hv) Hst) as (Hs' & [Hlo Hhi] & _ & _ & Hr).
  unfold store_stack in Hst. apply rbind_ok in Hst as ([] & Hc & Hst).
  pose proof (spec_safely_result _ _ _ (check_stack_range_ok pc _ _ _) Hc) as (H1 & H2 & Hal).
  destruct (access_ends o o off bytes ltac:(lia) Hw H1 H2 Hoff) as (_ & _ & _ & Hstart & Hend). rewrite Hstart, Hend in *.
  apply rbind_ok in Hst as (st' & Hst & [= <-]). cbn [stack cur set_stack set_cur sregs sstack] in *.
  replace (512 + o + off) with (512 + (o + off)) in Hr by lia. split; [done|]. split; [done|].
  split; [split; [lia|split; [lia|]]; intros H4; apply aligned_fixed, Hal, H4|]. split; [exact Hr|].
  rewrite Z.eqb_refl, andb_true_r in Hst. destruct (Z.eqb_spec bytes 8) as [->|Hn].
  - destruct (slot_of (512 + (o + off))) as [slot|] eqn:Hslot; [|done]. apply store_slot_contents in Hst as [Hsp Hb].
    split; [by exists slot|]. split; [done|]. intros c ->. apply Hb. cbn. by rewrite Z.eqb_refl.
  - apply store_narrow_contents in Hst as [Hsp Hb]. split; [done|]. split; [by intros _|]. intros c ->. apply Hb. cbn. by rewrite Z.eqb_refl.
Qed.

Lemma index_lookup {A} (l : list A) i x : index l i = Ok x -> 0 <= i /\ l !! Z.to_nat i = Some x.
Proof.
  unfold index, get. destruct (Z.ltb_spec i 0); [done|]. destruct (l !! Z.to_nat i) as [y|] eqn:Hl; [|done]. intros [= <-]. done.
Qed.
Lemma reg_wf B s r v : state_wf B s -> reg s r = Ok v -> value_wf B v.
Proof.
  intros [[[_ Hf] _] _ _] Hr. apply index_lookup in Hr as [_ Hl]. by apply (proj1 (Forall_lookup _ _) Hf _ _ Hl).
Qed.

Lemma load_stack_fixed s pc o off bytes sign_extend :
  o + off = access_start o off -> access_end o off bytes = o + off + bytes -> accepted (o + off) bytes ->
  load_stack s pc o o off bytes sign_extend = load_fixed pc (o + off) bytes sign_extend (stack s).
Proof.
  intros Hs He Ha. unfold load_stack. cbn zeta. rewrite <- Hs, He, (accepted_check pc _ _ Ha), Z.eqb_refl. done.
Qed.
Lemma load_fixed_filled pc start slot sp sign_extend st :
  slot_of (512 + start) = Some slot -> sspill st !! Z.to_nat slot = Some (Some sp) -> load_fixed pc start 8 sign_extend st = Ok (filled sp).
Proof.
  intros Hs Hl. unfold load_fixed. cbn zeta. rewrite Hs. apply slot_of_ok in Hs as [_ Hs]. unfold get.
  rewrite (proj2 (Z.ltb_ge slot 0)) by lia. by rewrite Hl.
Qed.

(** No pointer is spilled under an access of fewer than eight bytes at [start]. *)
Definition no_pointer_at (st : SpecStack) (start : Z) : Prop :=
  forall slot, slot_of (512 + start) = Some slot -> exists sp, sspill st !! Z.to_nat slot = Some sp /\ is_spilled_pointer sp = false.
Lemma load_fixed_word pc start bytes m sign_extend st v :
  width bytes -> bytes <> 8 -> accepted start bytes -> no_pointer_at st start -> holds_word st (512 + start) m v -> (Z.to_nat bytes <= m)%nat ->
  ready_between st (512 + start) (512 + start + bytes) ->
  load_fixed pc start bytes sign_extend st = Ok (SpecValue.const_scalar (apply_sign (v mod 2 ^ (8 * bytes)) bytes sign_extend)).
Proof.
  intros Hw Hn8 (Hs & He & _) Hp Hword Hm Hr. unfold width in Hw.
  assert (Hread : read_bytes pc st (512 + start) 0 (Z.to_nat bytes) 0 = Ok (v mod 2 ^ (8 * bytes))).
  { rewrite (read_back pc st _ _ m v) by (rewrite ?Z2Nat.id by lia; auto; lia). by rewrite Z2Nat.id by lia. }
  unfold load_fixed. cbn zeta. rewrite Hread. cbn [rbind]. destruct (slot_of (512 + start)) as [slot|] eqn:Hslot; [|done].
  destruct (Hp slot Hslot) as (sp & Hl & Hsp). apply slot_of_ok in Hslot as [_ Hslot]. unfold get. rewrite (proj2 (Z.ltb_ge slot 0)), Hl by lia.
  change (default None (Some sp)) with sp. destruct sp as [sp|]; [|done]. rewrite (proj2 (Z.eqb_neq bytes 8)) by done. by rewrite Hsp, andb_false_r.
Qed.

(** Round trips through the stack of the specification at a known offset: an
    eight-byte load after an eight-byte store of any value, pointers included, gives
    the value back; a load of at most the stored bytes after the store of a constant
    gives the low bytes of the constant, zero- or sign-extended. *)
Theorem spec_store_load (n : Z) (prog_type : ProgType) (s s' : SpecState) (pc pc' base o off : Z) (size : MemSize) (v : SpecValue) (sign_extend : bool) :
  0 <= n <= 2 ^ 31 -> state_wf (offset_bound n) s -> reg s base = Ok (SpecValue.PtrToStack o o) -> is_i64 off ->
  value_wf (offset_bound n) v ->
  store s pc base off size v = Ok s' ->
  (size = MemSize.DW -> load prog_type s' pc' base off size sign_extend = Ok v) /\
  (forall c size', v = SpecValue.const_scalar c -> size_bytes size' <= size_bytes size ->
   load prog_type s' pc' base off size' sign_extend =
   Ok (SpecValue.const_scalar (apply_sign (c mod 2 ^ (8 * size_bytes size')) (size_bytes size') sign_extend))).
Proof.
  intros Hn Hs Hb Hoff Hv Hst. destruct (offset_bound_step n Hn) as [HB _]. set (B := offset_bound n) in *.
  pose proof (reg_wf B s base _ Hs Hb) as Hbw. cbn in Hbw. unfold offsets_wf in Hbw.
  unfold store in Hst. rewrite Hb in Hst. cbn [rbind] in Hst. pose proof (size_bytes_width size) as Hw.
  destruct (store_fixed B s pc o off _ v s' HB Hs ltac:(lia) Hw Hoff Hv Hst) as (Hs' & Hregs & Hacc & Hr & H8 & Hn8 & Hword).
  assert (Hb' : reg s' base = Ok (SpecValue.PtrToStack o o)) by (unfold reg; rewrite Hregs; exact Hb).
  assert (Hends : forall bytes, width bytes -> accepted (o + off) bytes -> o + off = access_start o off /\ access_end o off bytes = o + off + bytes).
  { intros bytes Hwb (H1 & H2 & _). unfold access_start, access_end, width in *. rewrite !sat_id by lia. done. }
  assert (Hdw : size = MemSize.DW -> load prog_type s' pc' base off MemSize.DW sign_extend = Ok v).
  { intros ->. unfold load. rewrite Hb'. cbn [rbind]. destruct (Hends 8 ltac:(unfold width; lia) Hacc) as [E1 E2].
    cbn [size_bytes]. rewrite (load_stack_fixed s' pc' o off 8 sign_extend E1 E2 Hacc). destruct (H8 eq_refl) as (slot & Hslot & Hl).
    rewrite (load_fixed_filled _ _ _ _ _ _ Hslot Hl). by destruct v. }
  split; [by intros ->; apply Hdw|]. intros c size' -> Hle. pose proof (size_bytes_width size') as Hw'.
  destruct (Z.eq_dec (size_bytes size') 8) as [E|Hne].
  - assert (size' = MemSize.DW) as -> by (by destruct size'). assert (size = MemSize.DW) as -> by (destruct size; cbn in Hle; [lia..|done]).
    rewrite Hdw by done. cbn in Hv |- *. rewrite Z.mod_small by lia. unfold apply_sign. by destruct sign_extend.
  - assert (Hacc' : accepted (o + off) (size_bytes size')) by (by apply (accepted_narrower _ (size_bytes size))).
    destruct (Hends _ Hw' Hacc') as [E1 E2]. unfold load. rewrite Hb'. cbn [rbind].
    rewrite (load_stack_fixed s' pc' o off _ sign_extend E1 E2 Hacc').
    apply (load_fixed_word _ _ _ (Z.to_nat (size_bytes size))); [done|done|done| |by apply Hword|unfold width in *; lia|].
    + intros slot Hslot. pose proof Hslot as [Habs Hsr]%slot_of_ok. destruct (Z.eq_dec (size_bytes size) 8) as [E|Hne'].
      * destruct (H8 E) as (slot' & Hslot' & Hl). rewrite Hslot in Hslot'. injection Hslot' as <-. by eexists.
      * exists None. split; [|done]. rewrite <- (Hn8 Hne'). do 2 f_equal. rewrite Habs, Z.quot_div_nonneg by lia. div_lia.
    + intros i Hi. apply Hr. unfold width in *. lia.
Qed.

Lemma spec_store_load_witness :
  exists s', store initial 0 10 (-8) MemSize.DW (SpecValue.const_scalar 0xFF80) = Ok s' /\
    load ProgType.SocketFilter s' 1 10 (-8) MemSize.B true = Ok (SpecValue.const_scalar (as_u64 (-128))).
Proof.
  destruct (store initial 0 10 (-8) MemSize.DW (SpecValue.const_scalar 0xFF80)) as [s'|e] eqn:E; [|vm_compute in E; discriminate E].
  exists s'. split; [reflexivity|].
  destruct (spec_store_load 0 ProgType.SocketFilter initial s' 0 1 10 0 (-8) MemSize.DW (SpecValue.const_scalar 0xFF80) true) as [_ H];
    [lia|exact initial_wf|reflexivity|lia|apply const_scalar_wf; lia|exact E|].
  apply (H 0xFF80 MemSize.B); [reflexivity|cbn; lia].
Defined.

(** C27: Every access through a stack pointer that the specification accepts stays in
    the frame for every offset the pointer may have: the bytes it may touch lie in the
    512 bytes below the frame pointer, all of them were initialized before a load and
    all of them are afterwards for a store or an atomic operation. *)
Theorem spec_stack_accesses (n : Z) (prog_type : ProgType) (s : SpecState) (pc base lo hi off : Z) (size : MemSize) :
  0 <= n <= 2 ^ 31 -> state_wf (offset_bound n) s -> reg s base = Ok (SpecValue.PtrToStack lo hi) -> is_i64 off ->
  let first := 512 + lo + off in
  let last := 512 + hi + off + size_bytes size in
  (forall v sign_extend, load prog_type s pc base off size sign_extend = Ok v ->
     in_frame first last /\ ready_between (stack s) first last) /\
  (forall v s', value_wf (offset_bound n) v -> store s pc base off size v = Ok s' -> in_frame first last /\ ready_between (stack s') first last) /\
  (forall src op fetch s', atomic s pc base src off size op fetch = Ok s' -> in_frame first last /\ ready_between (stack s') first last).
Proof.
  intros Hn Hs Hb Hoff. cbn zeta. destruct (offset_bound_step n Hn) as [HB _]. set (B := offset_bound n) in *.
  pose proof (reg_wf B s base _ Hs Hb) as Hbw. cbn in Hbw. pose proof (size_bytes_width size) as Hw.
  assert (Hin : frame_access lo hi off (size_bytes size) -> in_frame (512 + lo + off) (512 + hi + off + size_bytes size)).
  { unfold frame_access, in_frame, offsets_wf, width in *. lia. }
  split; [|split].
  - intros v sign_extend Hl. unfold load in Hl. rewrite Hb in Hl. cbn [rbind] in Hl.
    destruct (spec_safely_result _ _ _ (load_stack_ok B s pc lo hi off _ sign_extend Hs Hbw Hw Hoff) Hl) as (Hf & _ & Hr). auto.
  - intros v s' Hv Hst. unfold store in Hst. rewrite Hb in Hst. cbn [rbind] in Hst.
    destruct (spec_safely_result _ _ _ (store_stack_ok B s pc lo hi off _ v Hs Hbw Hw Hoff Hv) Hst) as (_ & Hf & _ & _ & Hr). auto.
  - intros src op fetch s' Ha. unfold atomic in Ha. cbn zeta in Ha. destruct (negb _); [done|]. apply rbind_ok in Ha as (v & _ & Ha).
    case_bool_decide; [done|]. rewrite Hb in Ha. cbn [rbind] in Ha. apply rbind_ok in Ha as ([old t] & Ht & Ha).
    destruct (spec_safely_result _ _ _ (atomic_stack_ok B s pc lo hi off _ Hs Hbw Hw Hoff) Ht) as (_ & _ & Hf & _ & _ & Hr). cbn [snd] in Hr.
    split; [auto|]. assert (Hset : forall r w, set_reg t r w = Ok s' -> stack s' = stack t) by (intros r w (? & _ & [= <-])%rbind_ok; done).
    case_bool_decide; [by rewrite (Hset _ _ Ha)|]. destruct fetch; [by rewrite (Hset _ _ Ha)|by injection Ha as <-].
Qed.

Lemma spec_stack_accesses_witness :
  exists s', store initial 0 10 (-12) MemSize.W (SpecValue.const_scalar 5) = Ok s' /\ in_frame 500 504 /\ ready_between (stack s') 500 504.
Proof.
  destruct (store initial 0 10 (-12) MemSize.W (SpecValue.const_scalar 5)) as [s'|e] eqn:E; [|vm_compute in E; discriminate E].
  exists s'. split; [reflexivity|].
  destruct (spec_stack_accesses 0 ProgType.SocketFilter initial 0 10 0 0 (-12) MemSize.W) as (_ & H & _);
    [lia|exact initial_wf|reflexivity|lia|].
  apply (H (SpecValue.const_scalar 5) s'); [apply const_scalar_wf; lia|exact E].
Defined.

(** * Gaps *)

Definition spec_text (v : option SpecVerdict) : option string :=
  match v with Some (SpecVerdict.Reject f) => Some (text f) | _ => None end.
(** A JSET that jumps to itself. *)
Definition jset_loop : list BpfInsn := [BpfInsn.MovImm 0 1; BpfInsn.Jset 0 0 (-1); BpfInsn.Exit].
(** A loop of two instructions entered at its second. *)
Definition entered_loop : list BpfInsn := [BpfInsn.MovImm 0 0; BpfInsn.Jmp 1; BpfInsn.MovImm 0 0; BpfInsn.Jmp (-2)].
(** Two paths that meet at the target of a backward jump that is never taken. *)
Definition meeting_paths : list BpfInsn :=
  [BpfInsn.Call 7; BpfInsn.JeqImm 0 5 0; BpfInsn.MovImm 0 0; BpfInsn.MovImm 2 0; BpfInsn.JeqImm 0 1 (-2); BpfInsn.Exit].
(** Two random numbers compared; when they differ, an unset register is read. *)
Definition unequal_randoms : list BpfInsn :=
  [BpfInsn.Call 7; BpfInsn.MovReg 6 0; BpfInsn.Call 7; BpfInsn.Jeq 0 6 1; BpfInsn.MovReg 0 1; BpfInsn.MovImm 0 0; BpfInsn.Exit].
(** Two different stack pointers compared; when they differ, an unset register is read. *)
Definition unequal_pointers : list BpfInsn :=
  [BpfInsn.MovReg 2 10; BpfInsn.AddImm 2 (-8); BpfInsn.Jeq 2 10 1; BpfInsn.MovReg 0 3; BpfInsn.MovImm 0 0; BpfInsn.Exit].
(** A subprogram that reads its caller's stack. *)
Definition callee_reads : list BpfInsn :=
  [BpfInsn.MovImm 0 5; BpfInsn.StMem 0 10 (-8) MemSize.DW; BpfInsn.MovReg 1 10; BpfInsn.AddImm 1 (-8); BpfInsn.CallSub 1;
   BpfInsn.Exit; BpfInsn.LdMem 0 1 0 MemSize.DW false; BpfInsn.Exit].
(** An unset register stored and its slot never read. *)
Definition unset_store : list BpfInsn := [BpfInsn.StMem 3 10 (-8) MemSize.DW; BpfInsn.MovImm 0 0; BpfInsn.Exit].

(** Programs with an endless loop, or that read an unset register, are accepted, and
    two that neither loop nor misuse memory are rejected. *)
Theorem spec_program_gaps :
  verify_spec jset_loop ∅ = Some SpecVerdict.Accept /\ verify_spec entered_loop ∅ = Some SpecVerdict.Accept /\
  verify_spec unequal_randoms ∅ = Some SpecVerdict.Accept /\ verify_spec unequal_pointers ∅ = Some SpecVerdict.Accept /\
  verify_spec unset_store ∅ = Some SpecVerdict.Accept /\
  spec_text (verify_spec meeting_paths ∅) = Some "infinite loop detected"%string /\
  spec_text (verify_spec callee_reads ∅) = Some "stack read of uninitialized bytes"%string.
Proof. vm_compute. repeat split. Qed.

Definition with_reg (r : nat) (v : SpecValue) (s : SpecState) : SpecState := with_regs (<[r := v]> (sregs (cur s))) s.
(** Store, change and read the slot below the frame pointer. *)
Definition read_after (size size' : MemSize) (v v' : SpecValue) : option SpecValue :=
  match (let? s := store initial 0 10 (-8) size v in let? s := store s 1 10 (-8) size v' in
         load ProgType.SocketFilter s 2 10 (-8) size' false) with Ok v => Some v | Err _ => None end.
Definition atomic_after : option SpecValue :=
  match (let? s := store initial 0 10 (-8) MemSize.DW (SpecValue.const_scalar 7) in
         let? s := set_reg s 2 (SpecValue.const_scalar 1) in
         let? s := atomic s 1 10 2 (-8) MemSize.DW AtomicOp.Add false in
         load ProgType.SocketFilter s 2 10 (-8) MemSize.DW false) with Ok v => Some v | Err _ => None end.
Definition dynptr_buffer (len : Z) : SpecState :=
  with_reg 2 (SpecValue.const_scalar len) (with_reg 1 (SpecValue.PtrToStack (-8) (-8)) initial).

(** A narrow store of an unknown value reads back as the constant zero; an eight-byte
    store of an unknown value and an atomic addition leave the bytes of the constant
    that was there; the low half of an interval that crosses 2^32 loses the values
    that wrap; a dynptr read with a negative length is accepted, but with the smallest
    one the sum wraps (a debug build panics there) and the read is rejected. *)
Theorem spec_state_gaps :
  read_after MemSize.W MemSize.W (SpecValue.const_scalar 7) SpecValue.unknown_scalar = Some (SpecValue.const_scalar 0) /\
  read_after MemSize.DW MemSize.B (SpecValue.const_scalar 7) SpecValue.unknown_scalar = Some (SpecValue.const_scalar 7) /\
  atomic_after = Some (SpecValue.const_scalar 7) /\
  (exists s, mov32_reg (with_reg 3 (SpecValue.Scalar 5 (2 ^ 32 + 4)) initial) 0 0 3 = Ok s /\ reg s 0 = Ok (SpecValue.Scalar 5 U32_MAX)) /\
  (exists s, mark_buffer (dynptr_buffer U64_MAX) 0 = Ok s) /\
  (exists e, mark_buffer (dynptr_buffer (2 ^ 63)) 0 = Err e /\ e <> SpecPanic).
Proof.
  split; [vm_compute; reflexivity|]. split; [vm_compute; reflexivity|]. split; [vm_compute; reflexivity|].
  split; [eexists; split; vm_compute; reflexivity|]. split; [eexists; vm_compute; reflexivity|].
  eexists. split; [vm_compute; reflexivity|done].
Qed.
