(* ===== verification/Klog.v ===== *)
(** The kernel's verifier log (src/src/klog.rs): the normalized reasons of a
    rejection, their recognition in a message, and the extraction of the failing
    instruction and its message from a log.  Text is a [string] of bytes; [trim]
    and [lines] are Rust's on ASCII text.  The theorem: what the kernel writes
    between the last instruction trace and the summary is read back. *)
From Stdlib Require Import ZArith Lia List Bool String Ascii.
From stdpp Require Import base list strings.
From S2P Require Import Prelude.
Open Scope Z_scope.

(** * Rust's string functions *)

Definition contains (msg needle : string) : bool :=
  match String.index 0 needle msg with Some _ => true | None => false end.

Definition any_of (msg : string) (needles : list string) : bool := existsb (contains msg) needles.

Fixpoint trim_start (s : string) : string :=
  match s with
  | EmptyString => EmptyString
  | String c r => if Ascii.is_space c then trim_start r else s
  end.

Fixpoint trim_end (s : string) : string :=
  match s with
  | EmptyString => EmptyString
  | String c r =>
      match trim_end r with
      | EmptyString => if Ascii.is_space c then EmptyString else String c EmptyString
      | t => String c t
      end
  end.

Definition trim (s : string) : string := trim_end (trim_start s).

Definition LF : ascii := "010"%char.
Definition CR : ascii := "013"%char.

(** [lines]: at every line feed, with a carriage return before it. *)
Fixpoint lines (s : string) : list string :=
  match s with
  | EmptyString => []
  | String c r =>
      if (c =? LF)%char then EmptyString :: lines r
      else
        match r with
        | String d _ =>
            if (c =? CR)%char && (d =? LF)%char then lines r
            else match lines r with l :: rest => String c l :: rest | [] => [String c EmptyString] end
        | EmptyString => [String c EmptyString]
        end
  end.

(** [split_once]: before and after the first occurrence of a character. *)
Fixpoint split_once (sep : ascii) (s : string) : option (string * string) :=
  match s with
  | EmptyString => None
  | String c r =>
      if (c =? sep)%char then Some (EmptyString, r)
      else match split_once sep r with
           | Some (before, after) => Some (String c before, after)
           | None => None
           end
  end.

Definition starts_with (s p : string) : bool := String.prefix p s.

Fixpoint digits (acc : Z) (s : string) : option Z :=
  match s with
  | EmptyString => Some acc
  | String c r =>
      match Ascii.is_nat c with
      | Some d => digits (10 * acc + Z.of_nat d) r
      | None => None
      end
  end.

(** [parse::<u32>]: an optional plus sign and at least one digit. *)
Definition parse_u32 (s : string) : option Z :=
  let unsigned := match s with String c r => if (c =? "+")%char then r else s | EmptyString => s end in
  match unsigned with
  | EmptyString => None
  | _ =>
      match digits 0 unsigned with
      | Some n => if n <? 2 ^ 32 then Some n else None
      | None => None
      end
  end.

Fixpoint join (sep : string) (l : list string) : string :=
  match l with
  | [] => EmptyString
  | [s] => s
  | s :: rest => s +:+ sep +:+ join sep rest
  end.

(** [trim_end_matches] for one character. *)
Fixpoint trim_end_matches (sep : ascii) (s : string) : string :=
  match s with
  | EmptyString => EmptyString
  | String c r =>
      match trim_end_matches sep r with
      | EmptyString => if (c =? sep)%char then EmptyString else String c EmptyString
      | t => String c t
      end
  end.

(** * Reasons *)

Inductive ReasonCategory :=
| UninitRead | StackBounds | StackAlign | PointerArith | HelperArgs | CfgJump | Loop | Unreachable
| ExitR0 | Complexity | Ref | Other.
#[global] Instance reason_category_eq_dec : EqDecision ReasonCategory.
Proof. solve_decision. Defined.

Local Open Scope string_scope.

Definition categorize_reason (message : string) : ReasonCategory :=
  let msg := trim message in
  if any_of msg ["Unreleased reference"; "release of unacquired reference"; "dynptr"; "kfunc"] then Ref
  else if contains msg "misaligned" then StackAlign
  else if contains msg "stack" && contains msg "off=" && contains msg "invalid" then StackBounds
  else if any_of msg ["!read_ok"; "invalid read from stack"] then UninitRead
  else if contains msg "unreachable insn" then Unreachable
  else if any_of msg ["jump out of range"; "jump into the middle"; "indirect jump out of range";
                      "last insn is not an exit"; "call to invalid destination"] then CfgJump
  else if any_of msg ["back-edge"; "infinite loop detected"] then Loop
  else if any_of msg ["leaks addr as return"; "cannot return"; "not a scalar"] then ExitR0
  else if any_of msg ["pointer arithmetic"; "pointer comparison"; "invalid mem access"; "leaks addr";
                      "leaking pointer"; "subtraction from stack pointer"; "frame pointer is read only";
                      "unbounded min value"; "math between"; "out of bounds"; "pointer offset"]
       then PointerArith
  else if contains msg "variable stack access" then StackBounds
  else if any_of msg ["invalid func"; "unknown func"; "helper"; "arg#"; "expected";
                      "Possibly NULL pointer"] then HelperArgs
  else if any_of msg ["too complex"; "BPF program is too large"; "iteration limit"] then Complexity
  else Other.

(** * The log *)

Definition is_summary (t : string) : bool :=
  (t =? "") || starts_with t "processed " || starts_with t "verification time " ||
  starts_with t "stack depth " || starts_with t "insns processed ".

Definition is_trace (t : string) : bool :=
  let '(num, rest) := match split_once ":" (trim t) with Some p => p | None => ("", "") end in
  starts_with (trim_start rest) "(" && match parse_u32 num with Some _ => true | None => false end.

(** [rposition]: the lines up to the last trace, it, and the lines after it. *)
Fixpoint last_trace (ls : list string) : option (string * list string) :=
  match ls with
  | [] => None
  | l :: rest =>
      match last_trace rest with
      | Some found => Some found
      | None => if is_trace (trim l) then Some (l, rest) else None
      end
  end.

Definition is_error_line (l : string) : bool :=
  let t := trim l in negb (is_summary t) && negb (is_trace t) && negb (starts_with t "from ").

(** The instruction of a message of the control-flow stage: the word after
    "insn". *)
Fixpoint insn_word (ws : list string) : option string :=
  match ws with
  | w :: ((next :: _) as rest) => if w =? "insn" then Some next else insn_word rest
  | _ => None
  end.

Definition parse_verifier_log (log : string) : option (Z * string) :=
  let ls := lines log in
  let error_lines := match last_trace ls with Some (_, after) => after | None => ls end in
  let message := join " " (map trim (List.filter is_error_line error_lines)) in
  if message =? "" then None
  else
    let insn_idx :=
      match last_trace ls with
      | Some (l, _) =>
          match split_once ":" (trim l) with
          | Some (num, _) => match parse_u32 num with Some n => n | None => 0 end
          | None => 0
          end
      | None =>
          match insn_word (String.words message) with
          | Some next => match parse_u32 (trim_end_matches "," next) with Some n => n | None => 0 end
          | None => 0
          end
      end in
    Some (insn_idx, message).

(** * Logs as the kernel writes them *)

(** Text without line ends. *)
Fixpoint one_line (s : string) : bool :=
  match s with
  | EmptyString => true
  | String c r => negb (c =? LF)%char && negb (c =? CR)%char && one_line r
  end.

Fixpoint unlines (ls : list string) : string :=
  match ls with [] => "" | l :: rest => l +:+ String LF (unlines rest) end.

Lemma lines_line l s : one_line l = true -> lines (l +:+ String LF s) = l :: lines s.
Proof.
  induction l as [|c l IH]; [done|]. cbn [one_line]. rewrite !andb_true_iff, !negb_true_iff.
  intros [[Hc Hr] Hl]. specialize (IH Hl). change (String c l +:+ String LF s) with (String c (l +:+ String LF s)).
  cbn [lines]. rewrite Hc, Hr. cbn [andb]. rewrite IH.
  by destruct (l +:+ String LF s).
Qed.

Lemma lines_unlines ls : forallb one_line ls = true -> lines (unlines ls) = ls.
Proof.
  induction ls as [|l ls IH]; [done|]. cbn [forallb unlines]. rewrite andb_true_iff. intros [Hl Hls].
  by rewrite lines_line, IH.
Qed.

Fixpoint is_numeral (s : string) : bool :=
  match s with
  | EmptyString => true
  | String c r => match Ascii.is_nat c with Some _ => is_numeral r | None => false end
  end.

(** An instruction trace: "N: (op) ...". *)
Definition trace (num rest : string) : string := num +:+ ": (" +:+ rest.

Lemma digit_char c d : Ascii.is_nat c = Some d -> Ascii.is_space c = false /\ (c =? ":")%char = false.
Proof.
  destruct c as [[] [] [] [] [] [] [] []]; intros H; try discriminate H; split; reflexivity.
Qed.

Lemma split_numeral num r : is_numeral num = true -> split_once ":" (num +:+ String ":" r) = Some (num, r).
Proof.
  induction num as [|c num IH]; [done|]. cbn [is_numeral]. destruct (Ascii.is_nat c) eqn:E; [|done].
  intros H. change (String c num +:+ String ":" r) with (String c (num +:+ String ":" r)). cbn [split_once].
  destruct (digit_char c n E) as [_ ->]. by rewrite IH.
Qed.

Lemma trim_end_keep s c r :
  Ascii.is_space c = false -> trim_end (s +:+ String c r) = s +:+ String c (trim_end r).
Proof.
  intros Hc. induction s as [|d s IH].
  - change ("" +:+ String c r) with (String c r). change ("" +:+ String c (trim_end r)) with (String c (trim_end r)).
    cbn [trim_end]. rewrite Hc. by destruct (trim_end r).
  - change (String d s +:+ String c r) with (String d (s +:+ String c r)). cbn [trim_end]. rewrite IH.
    change (String d s +:+ String c (trim_end r)) with (String d (s +:+ String c (trim_end r))).
    by destruct s.
Qed.

Lemma trim_trace num n rest :
  is_numeral num = true -> parse_u32 num = Some n -> trim (trace num rest) = trace num (trim_end rest).
Proof.
  intros Hn Hp. unfold trim.
  assert (trim_start (trace num rest) = trace num rest) as ->.
  { destruct num as [|c num]; [done|]. cbn [is_numeral] in Hn. destruct (Ascii.is_nat c) eqn:E; [|done].
    change (trace (String c num) rest) with (String c (trace num rest)). cbn [trim_start].
    by destruct (digit_char c n0 E) as [-> _]. }
  unfold trace. change (": (" +:+ rest) with (String ":" (String " " (String "(" rest))).
  rewrite trim_end_keep by done. f_equal.
  by rewrite (trim_end_keep " " "(" rest eq_refl : trim_end (String " " (String "(" rest)) = _).
Qed.

Lemma trace_is_trace num n rest :
  is_numeral num = true -> parse_u32 num = Some n -> is_trace (trace num rest) = true.
Proof.
  intros Hn Hp. unfold is_trace. rewrite (trim_trace num n) by done. unfold trace.
  change (": (" +:+ trim_end rest) with (String ":" (String " " (String "(" (trim_end rest)))).
  rewrite split_numeral, Hp by done. rewrite andb_true_r. by destruct (trim_end rest).
Qed.

Lemma last_trace_found before l after :
  is_trace (trim l) = true -> forallb (fun l => negb (is_trace (trim l))) after = true ->
  last_trace (before ++ l :: after)%list = Some (l, after).
Proof.
  intros Hl Ha. assert (last_trace after = None) as Hn.
  { induction after as [|a after IH]; [done|]. cbn [forallb] in Ha. apply andb_true_iff in Ha as [Ha H].
    cbn [last_trace]. rewrite (IH H). apply negb_true_iff in Ha. by rewrite Ha. }
  induction before as [|b before IH]; cbn [app last_trace]; [by rewrite Hn, Hl|by rewrite IH].
Qed.

Lemma last_trace_none ls : forallb (fun l => negb (is_trace (trim l))) ls = true -> last_trace ls = None.
Proof.
  induction ls as [|a ls IH]; [done|]. cbn [forallb last_trace]. rewrite andb_true_iff, negb_true_iff.
  intros [Ha H]. by rewrite (IH H), Ha.
Qed.

(** A line that starts with another character than a digit is no trace. *)
Lemma not_trace c r :
  Ascii.is_nat c = None -> Ascii.is_space c = false -> (c =? ":")%char = false -> (c =? "+")%char = false ->
  is_trace (String c r) = false.
Proof.
  intros Hd Hs Hc Hp. unfold is_trace, trim. cbn [trim_start]. rewrite Hs.
  rewrite (trim_end_keep "" c r Hs : trim_end (String c r) = String c (trim_end r)). cbn [split_once]. rewrite Hc.
  destruct (split_once ":" (trim_end r)) as [[num rest]|].
  - assert (parse_u32 (String c num) = None) as ->; [|by rewrite andb_false_r].
    unfold parse_u32. rewrite Hp. cbn [digits]. by rewrite Hd.
  - done.
Qed.

Lemma prefix_head t c p : starts_with t (String c p) = true -> exists r, t = String c r.
Proof.
  unfold starts_with. destruct t as [|d r]; [done|]. cbn [String.prefix].
  destruct (ascii_dec c d) as [->|]; [by exists r|done].
Qed.

Lemma summary_not_trace t : is_summary t = true -> is_trace t = false.
Proof.
  unfold is_summary. rewrite !orb_true_iff. intros [[[[H|H]|H]|H]|H].
  - apply String.eqb_eq in H as ->. reflexivity.
  - apply prefix_head in H as [r ->]. by apply not_trace.
  - apply prefix_head in H as [r ->]. by apply not_trace.
  - apply prefix_head in H as [r ->]. by apply not_trace.
  - apply prefix_head in H as [r ->]. by apply not_trace.
Qed.

(** A line of an error block, and a line of the summary. *)
Definition error_text (l : string) : Prop := trim l = l /\ is_error_line l = true.
Definition summary_line (l : string) : Prop := is_summary (trim l) = true.

Lemma error_block errors summary :
  Forall error_text errors -> Forall summary_line summary ->
  forallb (fun l => negb (is_trace (trim l))) (errors ++ summary)%list = true /\
  map trim (List.filter is_error_line (errors ++ summary)%list) = errors.
Proof.
  intros He Hs. rewrite forallb_app, List.filter_app, map_app.
  assert (forallb (fun l => negb (is_trace (trim l))) summary = true /\ List.filter is_error_line summary = [])
    as [-> ->].
  { induction Hs as [|l summary Hl _ [IH1 IH2]]; [done|]. cbn [forallb List.filter]. rewrite IH1, IH2.
    unfold is_error_line. unfold summary_line in Hl. by rewrite (summary_not_trace _ Hl), Hl. }
  rewrite andb_true_r, app_nil_r.
  induction He as [|l errors [Ht Hl] _ [IH1 IH2]]; [done|]. cbn [forallb List.filter]. rewrite IH1, Hl.
  cbn [map]. rewrite IH2, Ht. split; [|done]. unfold is_error_line in Hl. rewrite Ht in *.
  rewrite !andb_true_iff in Hl. by rewrite (proj2 (proj1 Hl)).
Qed.

Lemma message_empty errors :
  Forall error_text errors -> (join " " errors =? "") = match errors with [] => true | _ => false end.
Proof.
  intros [|l rest [Ht Hl] _]; [done|]. assert (l <> "") as Hne.
  { intros ->. discriminate Hl. }
  destruct l as [|c l]; [done|]. by destruct rest.
Qed.

(** C24: a kernel log is read back. When the log has traces, then an error block
    and then the summary, the result is the number of the last trace and the
    lines of the block joined, and nothing when the block is empty; without a
    trace the message is the block as well. *)
Theorem parse_log_exact (before errors summary : list string) (num rest : string) (n : Z) :
  forallb one_line (before ++ trace num rest :: errors ++ summary)%list = true ->
  is_numeral num = true -> parse_u32 num = Some n ->
  Forall error_text errors -> Forall summary_line summary ->
  parse_verifier_log (unlines (before ++ trace num rest :: errors ++ summary)) =
    match errors with [] => None | _ => Some (n, join " " errors) end /\
  (snd <$> parse_verifier_log (unlines (errors ++ summary))) =
    match errors with [] => None | _ => Some (join " " errors) end.
Proof.
  intros Hone Hn Hp He Hs. destruct (error_block errors summary He Hs) as [Hnt Hmap].
  pose proof (message_empty errors He) as Hm.
  assert (Hone' : forallb one_line (errors ++ summary)%list = true).
  { rewrite forallb_app in Hone. apply andb_true_iff in Hone as [_ Hone]. cbn [forallb] in Hone.
    by apply andb_true_iff in Hone as [_ ?]. }
  unfold parse_verifier_log. rewrite !lines_unlines by done.
  rewrite (last_trace_none (errors ++ summary)) by done.
  rewrite last_trace_found; [| |done].
  - rewrite Hmap, Hm. rewrite (trim_trace num n) by done. unfold trace.
    change (": (" +:+ trim_end rest) with (String ":" (String " " (String "(" (trim_end rest)))).
    rewrite split_numeral, Hp by done. destruct errors; split; done.
  - rewrite (trim_trace num n) by done. by eapply trace_is_trace.
Qed.

Lemma parse_log_exact_witness :
  parse_verifier_log (unlines ["0: (b7) r0 = 1"; "1: (85) call unknown#99"; "invalid func unknown#99";
    "processed 2 insns (limit 1000000)"]) = Some (1, "invalid func unknown#99").
Proof.
  apply (parse_log_exact ["0: (b7) r0 = 1"] ["invalid func unknown#99"] ["processed 2 insns (limit 1000000)"]
    "1" "85) call unknown#99" 1); try reflexivity; repeat constructor.
Defined.
