(* ===== verification/Oracle.v ===== *)
(** The oracle of the differential campaign (src/src/diff.rs and
    src/src/fuzz/oracle.rs): the verdict of each side on one program, the list of
    known design differences, and the classification of the four verdicts
    (verifier, concrete run, kernel, specification) as one finding.  The theorems:
    what each finding means exactly, that a precision candidate executes safely
    on the concrete machine, and that a soundness finding has a witness. *)
From Stdlib Require Import ZArith Lia List Bool String.
From stdpp Require Import base list gmap strings pretty.
From S2P Require Import Prelude Insn Ctx State Concrete Liveness Step Mini ConcreteMem ConcreteRun Env SpecState SpecRun Klog.
Open Scope Z_scope.

(** * The two sides *)

Module Diff.
Local Open Scope string_scope.

Definition categorize_mini_reason (msg : string) : ReasonCategory :=
  if contains msg "unreachable instruction" then Unreachable
  else if any_of msg ["crosses subprogram boundary"; "falls through out of subprogram";
                      "does not end with exit"; "pc out of program range"] then CfgJump
  else if contains msg "uninitialized" then UninitRead
  else if contains msg "aligned" then StackAlign
  else if any_of msg ["arithmetic"; "invalid comparison"; "comparing pointers"; "non-stack pointer";
                      "through a scalar"; "map value"; "math between"; "out of bounds"; "pointer offset"]
       then PointerArith
  else if contains msg "indirect read" then UninitRead
  else if any_of msg ["invalid size of register fill"; "corrupt spilled pointer"] then UninitRead
  else if any_of msg ["stack access"; "stack pointer"] then StackBounds
  else if contains msg "not a scalar" then ExitR0
  else if any_of msg ["helper"; "expected"] then HelperArgs
  else if any_of msg ["back-edge"; "complexity limit"] then Complexity
  else if contains msg "kfunc" then Ref
  else if contains msg "dynptr" then Ref
  else if any_of msg ["reference"; "Unreleased"] then Ref
  else if contains msg "infinite loop" then Loop
  else Other.

(** What the kernel load gave (krun.rs). *)
Inductive KernelOutcome :=
| KAccept
| KReject (insn_idx : Z) (message : string) (category : ReasonCategory)
| Privilege
| NoErrorLine (errno : Z)
| InvalidProgram.

Inductive SideVerdict := Accept | Reject (category : ReasonCategory) | Skipped.
#[global] Instance side_verdict_eq_dec : EqDecision SideVerdict.
Proof. solve_decision. Defined.

Definition name (s : SideVerdict) : string :=
  match s with Accept => "ACCEPT" | Reject _ => "REJECT" | Skipped => "SKIPPED" end.

(** The message of the failure, [None] for an accepted program. *)
Definition mini_side (failure : option string) : SideVerdict :=
  match failure with None => Accept | Some msg => Reject (categorize_mini_reason msg) end.

Definition kernel_side (outcome : KernelOutcome) : SideVerdict :=
  match outcome with
  | KAccept => Accept
  | KReject _ _ category => Reject category
  | Privilege | NoErrorLine _ | InvalidProgram => Skipped
  end.

(** The verdict matrix. *)
Inductive DiffClass := Match | MatchReject | KernelStricter | KernelAccepts | DiffSkipped.
Definition class_name (c : DiffClass) : string :=
  match c with
  | Match => "match" | MatchReject => "match-reject" | KernelStricter => "kernel-stricter"
  | KernelAccepts => "kernel-accepts" | DiffSkipped => "skipped"
  end.
Definition diff_classify (mini kernel : SideVerdict) : DiffClass :=
  match mini, kernel with
  | Accept, Accept => Match
  | Reject _, Reject _ => MatchReject
  | Accept, Reject _ => KernelStricter
  | Reject _, Accept => KernelAccepts
  | _, _ => DiffSkipped
  end.

(** ** Known design differences *)

Record FingerprintInput := mkInput {
  fp_name : string;
  fp_mini : SideVerdict;
  fp_kernel : SideVerdict;
  fp_mini_reason : option string }.
Record Fingerprint := mkFingerprint {
  id : string;
  evidence : string;
  check : FingerprintInput -> bool }.

Definition reason_has (reason : option string) (needles : list string) : bool :=
  match reason with Some r => any_of r needles | None => false end.

Definition privileged_stack_leniency (mini : SideVerdict) (mini_reason : option string) : bool :=
  match mini with Reject UninitRead => true | _ => false end &&
  reason_has mini_reason ["stack slot"; "indirect read"; "uninitialized stack"].

Definition kernel_accepts (i : FingerprintInput) : bool :=
  match fp_kernel i with Accept => true | _ => false end.
Definition mini_rejects (i : FingerprintInput) : bool :=
  match fp_mini i with Reject _ => true | _ => false end.
Definition mini_category (i : FingerprintInput) (category : ReasonCategory) : bool :=
  match fp_mini i with Reject c => bool_decide (c = category) | _ => false end.

Definition fp_mini_complexity_budget (i : FingerprintInput) : bool :=
  kernel_accepts i && mini_rejects i && mini_category i Complexity.
Definition fp_privileged_uninit_stack (i : FingerprintInput) : bool :=
  kernel_accepts i && privileged_stack_leniency (fp_mini i) (fp_mini_reason i).
Definition fp_privileged_r0_pointer_exit (i : FingerprintInput) : bool :=
  kernel_accepts i && mini_category i ExitR0 && reason_has (fp_mini_reason i) ["at exit"].
Definition fp_corpus_uninit_stack_fixture (i : FingerprintInput) : bool :=
  kernel_accepts i &&
  ((fp_name i =? "stack_write_before_read") || (fp_name i =? "narrow_read_uninit")).

Definition FINGERPRINTS : list Fingerprint :=
  [mkFingerprint "mini-complexity-budget"
     "mini's exploration budget (max_states 1024 / max_steps) vs the kernel's much larger limits — intentional design limit (§6)"
     fp_mini_complexity_budget;
   mkFingerprint "privileged-uninit-stack"
     "privileged load leniency: uninit stack reads (allow_uninit_stack) and indirect reads over spilled pointers (allow_ptr_leaks) are allowed for privileged loaders (CAP_SYS_ADMIN superset, kernel/bpf/token.c)"
     fp_privileged_uninit_stack;
   mkFingerprint "privileged-r0-pointer-exit"
     "privileged load leniency: pointer return in R0 allowed for privileged loaders (allow_ptr_leaks gates the exit-time R0 check); strict mode rejects it"
     fp_privileged_r0_pointer_exit;
   mkFingerprint "corpus-uninit-stack-fixture"
     "privileged load: CAP_SYS_ADMIN implies allow_uninit_stack (bpf_ns_capable superset) — uninit stack reads allowed for privileged loaders by design"
     fp_corpus_uninit_stack_fixture].

Definition suppressed_fingerprint (i : FingerprintInput) : option Fingerprint :=
  List.find (fun f => check f i) FINGERPRINTS.

Definition whitelisted (name : string) (mini kernel : SideVerdict) (mini_reason : option string) : option string :=
  option_map evidence (suppressed_fingerprint (mkInput name mini kernel mini_reason)).
End Diff.
Abbreviation SideVerdict := Diff.SideVerdict.

(** * The axes *)

Module SpecSide.
Inductive SpecSide := Accept | Reject | Inconclusive.
#[global] Instance spec_side_eq_dec : EqDecision SpecSide.
Proof. solve_decision. Defined.
End SpecSide.
Abbreviation SpecSide := SpecSide.SpecSide.

Definition spec_side (v : SpecVerdict) : SpecSide :=
  match v with
  | SpecVerdict.Accept => SpecSide.Accept
  | SpecVerdict.Reject _ => SpecSide.Reject
  | SpecVerdict.Inconclusive => SpecSide.Inconclusive
  end.

(** Why the models could not judge a program. *)
Module SurfaceGap.
Inductive SurfaceGapKind :=
| DecodeUnsupported | UnknownMapFd | UnknownHelper | UnknownKfunc | UnmodeledCtx | UnmodeledProgType | Other.
Definition name (k : SurfaceGapKind) : string :=
  match k with
  | DecodeUnsupported => "decode-unsupported" | UnknownMapFd => "unknown-map-fd"
  | UnknownHelper => "unknown-helper" | UnknownKfunc => "unknown-kfunc" | UnmodeledCtx => "unmodeled-ctx"
  | UnmodeledProgType => "unmodeled-prog-type" | Other => "other"
  end.
End SurfaceGap.
Abbreviation SurfaceGapKind := SurfaceGap.SurfaceGapKind.

Definition surface_gap_kind (message : string) : option SurfaceGapKind :=
  (if contains message "unsupported instruction" then Some SurfaceGap.DecodeUnsupported
   else if contains message "unknown map fd" then Some SurfaceGap.UnknownMapFd
   else if any_of message ["unknown kfunc"; "not a vmlinux function"] then Some SurfaceGap.UnknownKfunc
   else if contains message "unknown helper" then Some SurfaceGap.UnknownHelper
   else if any_of message ["invalid bpf_context access"; "ctx load"] then Some SurfaceGap.UnmodeledCtx
   else if contains message "not supported" then Some SurfaceGap.Other
   else None)%string.

Module ConcreteSide.
Inductive ConcreteSide := Safe | Unsafe | Inconclusive.
#[global] Instance concrete_side_eq_dec : EqDecision ConcreteSide.
Proof. solve_decision. Defined.
End ConcreteSide.
Abbreviation ConcreteSide := ConcreteSide.ConcreteSide.

Definition concrete_side (r : ConcreteReport) : ConcreteSide :=
  match verdict r with
  | ConcreteVerdict.Safe => ConcreteSide.Safe
  | ConcreteVerdict.Unsafe => ConcreteSide.Unsafe
  | ConcreteVerdict.Inconclusive => ConcreteSide.Inconclusive
  end.

(** * The classification *)

Module Finding.
Inductive Finding :=
| PrecisionCandidate | KernelUnsoundCandidate | KernelOverstrictCandidate | SoundnessCandidate
| RvPrecisionGap | RvSoundnessBug | RvPanic | Agree | Whitelisted | SurfaceGap | Inconclusive | Skipped.
#[global] Instance finding_eq_dec : EqDecision Finding.
Proof. solve_decision. Defined.
Definition name (f : Finding) : string :=
  match f with
  | PrecisionCandidate => "precision-candidate"
  | KernelUnsoundCandidate => "kernel-unsound-candidate"
  | KernelOverstrictCandidate => "kernel-overstrict-candidate"
  | SoundnessCandidate => "soundness-candidate"
  | RvPrecisionGap => "rv-precision-gap"
  | RvSoundnessBug => "rv-soundness-bug"
  | RvPanic => "rv-panic"
  | Agree => "agree"
  | Whitelisted => "whitelisted"
  | SurfaceGap => "surface-gap"
  | Inconclusive => "inconclusive"
  | Skipped => "skipped"
  end.
Definition is_finding (f : Finding) : bool :=
  match f with
  | PrecisionCandidate | KernelUnsoundCandidate | KernelOverstrictCandidate | SoundnessCandidate
  | RvPrecisionGap | RvSoundnessBug | RvPanic => true
  | _ => false
  end.
End Finding.
Abbreviation Finding := Finding.Finding.

Record OracleInput := mkOracleInput {
  o_name : string;
  mini : SideVerdict;
  mini_reason : option string;
  concrete : ConcreteSide;
  kernel : SideVerdict;
  spec : SpecSide;
  kernel_reason : option string;
  strict : bool;
  surface_gap : option SurfaceGapKind }.

(** A pair the list of design differences explains, as [classify] tests it. *)
Definition expected_difference (i : OracleInput) : bool :=
  match Diff.whitelisted (o_name i) (mini i) (kernel i) (mini_reason i) with Some _ => true | None => false end ||
  Diff.privileged_stack_leniency (mini i) (mini_reason i).

(** A concretely safe program that the kernel rejects. *)
Definition classify_kernel_reject (i : OracleInput) (category : ReasonCategory) : Finding :=
  if match mini i with Diff.Reject _ => true | _ => false end then Finding.Whitelisted
  else if strict i && Diff.reason_has (kernel_reason i) ["for !root"%string] then Finding.Whitelisted
  else if match mini i with Diff.Reject c => bool_decide (c = category) | _ => false end then Finding.Whitelisted
  else if bool_decide (category = Loop) && Diff.reason_has (mini_reason i) ["loop"; "back edge"]%string
       then Finding.Whitelisted
  else if strict i && bool_decide (category = UninitRead) &&
          match mini i with Diff.Accept => true | _ => false end &&
          Diff.reason_has (kernel_reason i) ["invalid read from stack"%string] then Finding.Whitelisted
  else if bool_decide (spec i = SpecSide.Accept) then Finding.KernelOverstrictCandidate
  else Finding.PrecisionCandidate.

Definition classify (i : OracleInput) : Finding :=
  match surface_gap i with
  | Some _ => Finding.SurfaceGap
  | None =>
      match spec i, concrete i, kernel i with
      | SpecSide.Reject, ConcreteSide.Safe, Diff.Accept =>
          if expected_difference i then Finding.Whitelisted else Finding.KernelUnsoundCandidate
      | _, _, _ =>
          match concrete i with
          | ConcreteSide.Inconclusive => Finding.Inconclusive
          | ConcreteSide.Unsafe =>
              match mini i with
              | Diff.Accept => Finding.RvSoundnessBug
              | Diff.Reject _ =>
                  match kernel i with
                  | Diff.Accept =>
                      if expected_difference i then Finding.Whitelisted else Finding.SoundnessCandidate
                  | _ => Finding.Agree
                  end
              | Diff.Skipped => Finding.Agree
              end
          | ConcreteSide.Safe =>
              match kernel i with
              | Diff.Skipped => Finding.Skipped
              | Diff.Accept =>
                  match mini i with
                  | Diff.Reject _ =>
                      match Diff.whitelisted (o_name i) (mini i) (kernel i) (mini_reason i) with
                      | Some _ => Finding.Whitelisted
                      | None => Finding.RvPrecisionGap
                      end
                  | _ => Finding.Agree
                  end
              | Diff.Reject category => classify_kernel_reject i category
              end
          end
      end
  end.

(** * The environment's verdicts *)

(** [{:+}]: a number with its sign. *)
Definition signed_text (z : Z) : string := (if (0 <=? z)%Z then "+" else "") +:+ pretty z.

Definition at_insn (pc : Z) (rest : string) : string := "at insn " +:+ pretty pc +:+ ": " +:+ rest.

(** The messages of a concrete failure. *)
Definition failure_text (f : ConcreteFailure) : string :=
  match f with
  | ConcreteFailure.UninitializedRead pc reg => at_insn pc ("register r" +:+ pretty reg +:+ " is uninitialized")
  | ConcreteFailure.InvalidRegister pc reg => at_insn pc ("invalid register r" +:+ pretty reg)
  | ConcreteFailure.StackOutOfFrame pc offset =>
      at_insn pc ("stack access at r10" +:+ signed_text offset +:+ " is out of the frame")
  | ConcreteFailure.MisalignedStackAccess pc offset =>
      at_insn pc ("stack access at r10" +:+ signed_text offset +:+ " is not 8-byte aligned")
  | ConcreteFailure.UninitializedStackRead pc offset =>
      at_insn pc ("stack slot at r10" +:+ signed_text offset +:+ " is uninitialized (write before read)")
  | ConcreteFailure.PointerArithmetic pc reg => at_insn pc ("arithmetic on pointer r" +:+ pretty reg)
  | ConcreteFailure.NonStackBase pc reg =>
      at_insn pc ("stack access through a non-stack pointer r" +:+ pretty reg +:+ " is not supported")
  | ConcreteFailure.InvalidShiftAmount pc amount => at_insn pc ("invalid shift amount " +:+ pretty amount)
  | ConcreteFailure.UnknownHelper pc imm => at_insn pc ("unknown helper " +:+ pretty imm)
  | ConcreteFailure.UnsupportedKfunc pc => at_insn pc "unknown kfunc (no BTF support, #101)"
  | ConcreteFailure.HelperArgMismatch pc arg =>
      at_insn pc ("helper argument r" +:+ pretty arg +:+ " has the wrong type")
  | ConcreteFailure.InvalidComparison pc dst src =>
      at_insn pc ("invalid comparison of r" +:+ pretty dst +:+ " and r" +:+ pretty src)
  | ConcreteFailure.InvalidComparisonImm pc dst =>
      at_insn pc ("invalid comparison of r" +:+ pretty dst +:+ " with an immediate")
  | ConcreteFailure.MapValueOutOfBounds pc offset =>
      at_insn pc ("invalid access to map value at offset " +:+ pretty offset)
  | ConcreteFailure.CtxReadUnsupported pc field => at_insn pc ("ctx load of unmapped field " +:+ field)
  | ConcreteFailure.InvalidCtxAccess pc off size =>
      at_insn pc ("invalid bpf_context access off=" +:+ pretty off +:+ " size=" +:+ pretty size)
  | ConcreteFailure.UnsupportedHelperReturn pc imm =>
      at_insn pc ("helper " +:+ pretty imm +:+ " return type has no concrete model")
  | ConcreteFailure.InternalError pc => at_insn pc "internal error"
  end.

Definition note_text (n : RejectNote) : string :=
  match n with
  | RejectNote.AlsoFails f => "concrete cross-check: also fails " +:+ failure_text f
  | RejectNote.Inconclusive => "concrete cross-check: inconclusive (non-terminating loop candidate)"
  | RejectNote.NeverExits => "concrete cross-check: never reaches exit (non-terminating loop)"
  | RejectNote.PrecisionCandidate =>
      "concrete cross-check: the program executes concretely — precision candidate"
  end.

(** The failures of the concrete run that only mean it has no model. *)
Definition failure_gap (f : ConcreteFailure) : option SurfaceGapKind :=
  match f with
  | ConcreteFailure.UnknownHelper _ _ => Some SurfaceGap.UnknownHelper
  | ConcreteFailure.UnsupportedHelperReturn _ _ | ConcreteFailure.NonStackBase _ _
  | ConcreteFailure.HelperArgMismatch _ _ => Some SurfaceGap.Other
  | _ => None
  end.

(** [if surface_gap.is_none() { ... }]. *)
Definition or_else {A} (a b : option A) : option A := match a with Some _ => a | None => b end.

Definition env_concrete_side (env : BpfVerifierEnv) : ConcreteSide :=
  match concrete_report env with Some r => concrete_side r | None => ConcreteSide.Inconclusive end.

Definition env_surface_gap (env : BpfVerifierEnv) (mini_reason : option string) (v : SpecVerdict) : option SurfaceGapKind :=
  or_else (match concrete_report env with
           | Some r => match unexpected_failure r with Some f => failure_gap f | None => None end
           | None => None
           end)
  (or_else (match concrete_report env with
            | Some r => match reject_note r with Some n => surface_gap_kind (note_text n) | None => None end
            | None => None
            end)
  (or_else (match mini_reason with Some m => surface_gap_kind m | None => None end)
           (match v with SpecVerdict.Reject f => surface_gap_kind (text f) | _ => None end))).

(** [None] when the specification does not return. *)
Definition classify_env_with_gap (env : BpfVerifierEnv) (name : string) (mini : SideVerdict)
    (mini_reason : option string) (kernel : SideVerdict) (kernel_reason : option string) (strict : bool)
  : option (Finding * option SurfaceGapKind) :=
  match verify_spec_with (insns (prog env)) (maps env) (prog_type env) with
  | None => None
  | Some v =>
      let gap := env_surface_gap env mini_reason v in
      Some (classify (mkOracleInput name mini mini_reason (env_concrete_side env) kernel (spec_side v)
                        kernel_reason strict gap), gap)
  end.

Definition classify_env (env : BpfVerifierEnv) (name : string) (mini : SideVerdict)
    (mini_reason : option string) (kernel : SideVerdict) (kernel_reason : option string) (strict : bool)
  : option Finding :=
  option_map fst (classify_env_with_gap env name mini mini_reason kernel kernel_reason strict).

Definition first_violation_pc (env : BpfVerifierEnv) : option Z :=
  match concrete_report env with
  | Some r => match violations r with v :: _ => Some (violation_pc v) | [] => None end
  | None => None
  end.

(** * What each finding means *)

Definition rejects (s : SideVerdict) : Prop := match s with Diff.Reject _ => True | _ => False end.

(** The strict-mode differences of a kernel rejection that the verifier accepts,
    and the loop rule. *)
Definition expected_rejection (i : OracleInput) (category : ReasonCategory) : Prop :=
  (strict i = true /\ Diff.reason_has (kernel_reason i) ["for !root"%string] = true) \/
  (category = Loop /\ Diff.reason_has (mini_reason i) ["loop"; "back edge"]%string = true) \/
  (strict i = true /\ category = UninitRead /\ mini i = Diff.Accept /\
   Diff.reason_has (kernel_reason i) ["invalid read from stack"%string] = true).

(** When the kernel accepts, the leniency for privileged loads is on the list. *)
Lemma leniency_whitelisted i :
  kernel i = Diff.Accept -> Diff.privileged_stack_leniency (mini i) (mini_reason i) = true ->
  Diff.whitelisted (o_name i) (mini i) (kernel i) (mini_reason i) <> None.
Proof.
  intros Hk Hl. unfold Diff.whitelisted, Diff.suppressed_fingerprint. rewrite Hk.
  destruct (List.find _ _) eqn:E; [done|]. intros _.
  assert (Hin : In (nth 1 Diff.FINGERPRINTS (Diff.mkFingerprint "" "" (fun _ => false))) Diff.FINGERPRINTS)
    by (right; by left).
  pose proof (find_none _ _ E _ Hin) as Hf. cbn in Hf.
  unfold Diff.fp_privileged_uninit_stack in Hf. cbn in Hf. congruence.
Qed.

Lemma expected_whitelisted i :
  kernel i = Diff.Accept ->
  expected_difference i = true <->
  Diff.whitelisted (o_name i) (mini i) (kernel i) (mini_reason i) <> None.
Proof.
  intros Hk. unfold expected_difference. rewrite orb_true_iff. split.
  - intros [H|H]; [by destruct (Diff.whitelisted _ _ _ _)|by apply leniency_whitelisted].
  - intros H. left. by destruct (Diff.whitelisted _ _ _ _).
Qed.

(** The rules for a kernel rejection. *)
Lemma kernel_reject_exact i category :
  (classify_kernel_reject i category = Finding.PrecisionCandidate <->
     ~ rejects (mini i) /\ ~ expected_rejection i category /\ spec i <> SpecSide.Accept) /\
  (classify_kernel_reject i category = Finding.KernelOverstrictCandidate <->
     ~ rejects (mini i) /\ ~ expected_rejection i category /\ spec i = SpecSide.Accept) /\
  (classify_kernel_reject i category = Finding.Whitelisted <->
     rejects (mini i) \/ expected_rejection i category) /\
  (classify_kernel_reject i category = Finding.Whitelisted \/
   classify_kernel_reject i category = Finding.KernelOverstrictCandidate \/
   classify_kernel_reject i category = Finding.PrecisionCandidate).
Proof.
  unfold classify_kernel_reject, expected_rejection, rejects.
  destruct (mini i) as [|c|] eqn:Em; cbn [andb];
    destruct (strict i), (Diff.reason_has (kernel_reason i) ["for !root"%string]), (decide (category = Loop)),
      (Diff.reason_has (mini_reason i) _), (decide (category = UninitRead)),
      (Diff.reason_has (kernel_reason i) ["invalid read from stack"%string]), (decide (spec i = SpecSide.Accept));
    cbn [andb]; repeat (first [rewrite bool_decide_true by done|rewrite bool_decide_false by done]; cbn [andb]);
    naive_solver.
Qed.

(** A pair that is no rejection of a safe run, case by case. *)
Ltac finding_cases :=
  split_and!; try split; intros;
  repeat match goal with H : _ /\ _ |- _ => destruct H | H : _ \/ _ |- _ => destruct H | H : ex _ |- _ => destruct H end;
  try done; try congruence; split_and!; try done; try congruence; naive_solver.

Lemma findings_spec (i : OracleInput) :
  let known := Diff.whitelisted (o_name i) (mini i) (kernel i) (mini_reason i) <> None in
  let covered := surface_gap i = None in
  (classify i = Finding.KernelUnsoundCandidate <->
     covered /\ concrete i = ConcreteSide.Safe /\ kernel i = Diff.Accept /\ spec i = SpecSide.Reject /\ ~ known) /\
  (classify i = Finding.SoundnessCandidate <->
     covered /\ concrete i = ConcreteSide.Unsafe /\ kernel i = Diff.Accept /\ rejects (mini i) /\ ~ known) /\
  (classify i = Finding.RvSoundnessBug <->
     covered /\ concrete i = ConcreteSide.Unsafe /\ mini i = Diff.Accept) /\
  (classify i = Finding.RvPrecisionGap <->
     covered /\ concrete i = ConcreteSide.Safe /\ kernel i = Diff.Accept /\ rejects (mini i) /\
     spec i <> SpecSide.Reject /\ ~ known) /\
  (classify i = Finding.PrecisionCandidate <->
     covered /\ concrete i = ConcreteSide.Safe /\ spec i <> SpecSide.Accept /\ ~ rejects (mini i) /\
     exists category, kernel i = Diff.Reject category /\ ~ expected_rejection i category) /\
  (classify i = Finding.KernelOverstrictCandidate <->
     covered /\ concrete i = ConcreteSide.Safe /\ spec i = SpecSide.Accept /\ ~ rejects (mini i) /\
     exists category, kernel i = Diff.Reject category /\ ~ expected_rejection i category) /\
  (classify i = Finding.Whitelisted <->
     covered /\
     (kernel i = Diff.Accept /\ known /\
        (concrete i = ConcreteSide.Unsafe /\ rejects (mini i) \/
         concrete i = ConcreteSide.Safe /\ (spec i = SpecSide.Reject \/ rejects (mini i))) \/
      concrete i = ConcreteSide.Safe /\
        exists category, kernel i = Diff.Reject category /\ (rejects (mini i) \/ expected_rejection i category))) /\
  (classify i = Finding.Agree <->
     covered /\
     (concrete i = ConcreteSide.Unsafe /\ (rejects (mini i) /\ kernel i <> Diff.Accept \/ mini i = Diff.Skipped) \/
      concrete i = ConcreteSide.Safe /\ kernel i = Diff.Accept /\ ~ rejects (mini i) /\ spec i <> SpecSide.Reject)) /\
  (classify i = Finding.Inconclusive <-> covered /\ concrete i = ConcreteSide.Inconclusive) /\
  (classify i = Finding.Skipped <-> covered /\ concrete i = ConcreteSide.Safe /\ kernel i = Diff.Skipped) /\
  (classify i = Finding.SurfaceGap <-> ~ covered) /\
  classify i <> Finding.RvPanic.
Proof.
  intros known covered.
  assert (He : kernel i = Diff.Accept -> if expected_difference i then known else ~ known).
  { intros Hk. pose proof (expected_whitelisted i Hk) as H. destruct (expected_difference i);
      [by apply H|]. intros Hn. by apply H in Hn. }
  assert (Hw : match Diff.whitelisted (o_name i) (mini i) (kernel i) (mini_reason i) with
               | Some _ => known | None => ~ known end) by (subst known; destruct (Diff.whitelisted _ _ _ _); [done|by intros H; apply H]).
  destruct (surface_gap i) eqn:Eg.
  { unfold classify, covered. rewrite Eg. clear. finding_cases. }
  destruct (kernel i) as [|c|] eqn:Ek.
  - specialize (He eq_refl). unfold classify, covered. rewrite Eg, Ek. clearbody known. clear Eg covered.
    destruct (expected_difference i), (Diff.whitelisted _ _ _ _), (concrete i), (mini i), (spec i);
      cbn [rejects]; finding_cases.
  - destruct (decide (concrete i = ConcreteSide.Safe)) as [Ec|Ec].
    + assert (classify i = classify_kernel_reject i c) as ->
        by (unfold classify; rewrite Eg, Ek, Ec; by destruct (spec i)).
      destruct (kernel_reject_exact i c) as (H1 & H2 & H3 & H4). rewrite H1, H2, H3.
      assert (forall P : ReasonCategory -> Prop, (exists k, Diff.Reject c = Diff.Reject k /\ P k) <-> P c) as Hex
        by (intros P; split; [by intros (k & [= <-] & ?)|intros ?; by exists c]).
      rewrite !Hex. clear H1 H2 H3. clearbody known. unfold covered. clear He Hw.
      split_and!; try (destruct H4 as [->|[->| ->]]; finding_cases); intuition congruence.
    + unfold classify, covered. rewrite Eg, Ek. clear He Hw. clearbody known.
      destruct (concrete i); [done|..]; destruct (spec i), (mini i); cbn [rejects]; finding_cases.
  - unfold classify, covered. rewrite Eg, Ek. clear He Hw. clearbody known.
    destruct (concrete i), (spec i), (mini i); cbn [rejects]; finding_cases.
Qed.

(** C22: each of the twelve classifications is characterised by what the four sides
    say: when [classify] answers the six candidates and gaps, a whitelisted
    difference, an agreement, an inconclusive or a skipped program or a surface gap,
    each with its condition as an equivalence; a panic is never a classification. *)
Theorem findings_exact (i : OracleInput) :
  let known := Diff.whitelisted (o_name i) (mini i) (kernel i) (mini_reason i) <> None in
  let covered := surface_gap i = None in
  (classify i = Finding.KernelUnsoundCandidate <->
     covered /\ concrete i = ConcreteSide.Safe /\ kernel i = Diff.Accept /\ spec i = SpecSide.Reject /\ ~ known) /\
  (classify i = Finding.SoundnessCandidate <->
     covered /\ concrete i = ConcreteSide.Unsafe /\ kernel i = Diff.Accept /\ rejects (mini i) /\ ~ known) /\
  (classify i = Finding.RvSoundnessBug <->
     covered /\ concrete i = ConcreteSide.Unsafe /\ mini i = Diff.Accept) /\
  (classify i = Finding.RvPrecisionGap <->
     covered /\ concrete i = ConcreteSide.Safe /\ kernel i = Diff.Accept /\ rejects (mini i) /\
     spec i <> SpecSide.Reject /\ ~ known) /\
  (classify i = Finding.PrecisionCandidate <->
     covered /\ concrete i = ConcreteSide.Safe /\ spec i <> SpecSide.Accept /\ ~ rejects (mini i) /\
     exists category, kernel i = Diff.Reject category /\ ~ expected_rejection i category) /\
  (classify i = Finding.KernelOverstrictCandidate <->
     covered /\ concrete i = ConcreteSide.Safe /\ spec i = SpecSide.Accept /\ ~ rejects (mini i) /\
     exists category, kernel i = Diff.Reject category /\ ~ expected_rejection i category) /\
  (classify i = Finding.Whitelisted <->
     covered /\
     (kernel i = Diff.Accept /\ known /\
        (concrete i = ConcreteSide.Unsafe /\ rejects (mini i) \/
         concrete i = ConcreteSide.Safe /\ (spec i = SpecSide.Reject \/ rejects (mini i))) \/
      concrete i = ConcreteSide.Safe /\
        exists category, kernel i = Diff.Reject category /\ (rejects (mini i) \/ expected_rejection i category))) /\
  (classify i = Finding.Agree <->
     covered /\
     (concrete i = ConcreteSide.Unsafe /\ (rejects (mini i) /\ kernel i <> Diff.Accept \/ mini i = Diff.Skipped) \/
      concrete i = ConcreteSide.Safe /\ kernel i = Diff.Accept /\ ~ rejects (mini i) /\ spec i <> SpecSide.Reject)) /\
  (classify i = Finding.Inconclusive <-> covered /\ concrete i = ConcreteSide.Inconclusive) /\
  (classify i = Finding.Skipped <-> covered /\ concrete i = ConcreteSide.Safe /\ kernel i = Diff.Skipped) /\
  (classify i = Finding.SurfaceGap <-> ~ covered) /\
  classify i <> Finding.RvPanic.
Proof. apply findings_spec. Qed.

(** The verifier's side of a verdict; [reason_text] renders a failure. *)
Definition verdict_side (reason_text : VerificationFailure -> string) (v : Verdict) : SideVerdict * option string :=
  match v with
  | Safe => (Diff.mini_side None, None)
  | Unsafe f => (Diff.mini_side (Some (reason_text f)), Some (reason_text f))
  end.

Lemma classify_env_inv env name mini mini_reason kernel kernel_reason strict f :
  classify_env env name mini mini_reason kernel kernel_reason strict = Some f ->
  exists side gap, f = classify (mkOracleInput name mini mini_reason (env_concrete_side env) kernel side
                                   kernel_reason strict gap).
Proof.
  unfold classify_env, classify_env_with_gap. destruct (verify_spec_with _ _ _) as [v|]; [|done].
  intros [= <-]. eauto.
Qed.

(** C20: a program reported as one the kernel rejects without need executes
    safely. When the environment was verified, and the classification is a
    precision or an over-strictness candidate, the kernel rejected the program,
    the verifier accepted it, and there is a set of concrete points that contains
    the start and every state a path reaches up to its first load from a map value,
    and is closed under the instructions (a load from a map value is followed for
    the contents of the memory at the visit only), in which no point fails and some
    path exits. *)
Theorem candidates_execute (iter : gmap Z (list VerifierState) -> list (Z * list VerifierState))
    (reason_text : VerificationFailure -> string) (env env' : BpfVerifierEnv) (v : Verdict) (name : string)
    (kside : SideVerdict) (kernel_reason : option string) (strict : bool) (f : Finding) :
  verify iter env = Returns (v, env') ->
  classify_env env' name (verdict_side reason_text v).1 (verdict_side reason_text v).2 kside kernel_reason strict
    = Some f ->
  f = Finding.PrecisionCandidate \/ f = Finding.KernelOverstrictCandidate ->
  v = Safe /\ rejects kside /\
  exists points outs, (0, cinitial_with (prog_type env)) ∈ points /\ outs <> [] /\
    (forall p, reaches (insns (prog env)) (run_limits (prog_type env)) (maps env) p -> p ∈ points) /\
    (forall p, p ∈ points -> expanded (insns (prog env)) (maps env) points outs p) /\
    (forall o, o ∈ outs -> is_outcome (insns (prog env)) points o).
Proof.
  intros Hv Hc Hf. apply classify_env_inv in Hc as (side & gap & ->).
  set (i := mkOracleInput _ _ _ _ _ _ _ _ _) in Hf.
  destruct (findings_spec i) as (_ & _ & _ & _ & Hp & Ho & _).
  assert (Hs : concrete i = ConcreteSide.Safe /\ ~ rejects (mini i) /\ exists c, kernel i = Diff.Reject c).
  { destruct Hf as [Hf|Hf]; [apply Hp in Hf|apply Ho in Hf]; destruct Hf as (_ & ? & _ & ? & c & ? & _); eauto. }
  destruct Hs as (Hsafe & Hmini & c & Hk). subst i. cbn [concrete mini kernel] in *.
  assert (v = Safe) as -> by (destruct v; [done|by destruct Hmini]).
  split; [done|]. split; [by rewrite Hk|].
  unfold env_concrete_side in Hsafe. destruct (concrete_report env') as [report|] eqn:Hr; [|done].
  destruct (safe_analyzed iter env env' Hv) as [l Hl].
  destruct (safe_report_closed iter env env' report l Hv Hr) as (heads & states & points & outs & _ & H1 & H2 & H3 & H4);
    [unfold concrete_side in Hsafe; by destruct (verdict report)|done|].
  exists points, outs. split_and!; [done..| | |done]; [|intros p Hin; by apply H3].
  apply (closed_reaches _ (run_limits (prog_type env)) _ _ outs); [exact H1|]. intros p Hin. by apply H3.
Qed.

(** What makes the report of a run unsafe. *)
Definition unsafe_run (r : result ConcreteFailure ConcreteRun) (covered : ConcreteRun -> Prop) : Prop :=
  match r with
  | Err _ => True
  | Ok run => inconclusive run = false /\ (no_exit run = true \/ ~ covered run)
  end.

(** C21: a soundness finding has a witness. When the classification of a verified
    program is a bug of the verifier, the verifier accepted it and its concrete
    run failed, never exits, or visits a state no analyzed state covers; when it
    is a soundness candidate the kernel accepted, the verifier rejected, and the
    run failed or never exits. *)
Theorem soundness_findings_witnessed (iter : gmap Z (list VerifierState) -> list (Z * list VerifierState))
    (reason_text : VerificationFailure -> string) (env env' : BpfVerifierEnv) (v : Verdict) (name : string)
    (kside : SideVerdict) (kernel_reason : option string) (strict : bool) (f : Finding) :
  decode_error (prog env) = None -> verify iter env = Returns (v, env') ->
  classify_env env' name (verdict_side reason_text v).1 (verdict_side reason_text v).2 kside kernel_reason strict
    = Some f ->
  (f = Finding.RvSoundnessBug -> v = Safe /\
     exists heads states r, accepts iter (insns (prog env)) (prog_type env) heads states /\
       run_concretely heads env = Returns r /\ unsafe_run r (fun run => check_coverage states run = [])) /\
  (f = Finding.SoundnessCandidate -> v <> Safe /\ kside = Diff.Accept /\
     exists heads r, run_concretely heads env = Returns r /\ unsafe_run r (fun _ => True)).
Proof.
  intros Hd Hv Hc. apply classify_env_inv in Hc as (side & gap & ->).
  set (i := mkOracleInput _ _ _ _ _ _ _ _ _).
  destruct (findings_spec i) as (_ & Hs & Hb & _).
  destruct (verify_returned _ _ _ _ Hd Hv) as [_ (heads & r & Hrun & Hr)].
  split; intros Hf; [apply Hb in Hf as (_ & Hu & Hm)|apply Hs in Hf as (_ & Hu & Hk & Hm & _)];
    subst i; cbn [concrete mini kernel] in *; unfold env_concrete_side in Hu;
    destruct Hr as [(states & -> & Ha & Hrep)|(f & -> & _ & Hrep)]; try done; rewrite Hrep in Hu.
  - split; [done|]. exists heads, states, r. split_and!; [done..|]. destruct r as [run|]; [|done].
    unfold concrete_side in Hu. cbn in Hu. destruct (inconclusive run) eqn:Hi; [done|]. split; [done|].
    case_bool_decide; [|by right]. left. by destruct (no_exit run).
  - split; [done|]. split; [done|]. exists heads, r. split; [done|]. destruct r as [run|]; [|done].
    unfold concrete_side in Hu. cbn in Hu. destruct (inconclusive run) eqn:Hi; [done|]. split; [done|].
    left. by destruct (no_exit run).
Qed.

(** The environment after [verify], for the witnesses. *)
Definition verified (env : BpfVerifierEnv) : BpfVerifierEnv :=
  match verify map_to_list env with Returns (_, env') => env' | _ => env_new end.

Lemma candidates_execute_witness :
  exists points outs, (0, cinitial_with ProgType.SocketFilter) ∈ points /\ outs <> [] /\
    (forall p, p ∈ points -> expanded (insns (prog loop_env)) (maps loop_env) points outs p).
Proof.
  destruct (candidates_execute map_to_list (fun _ => ""%string) loop_env (verified loop_env) Safe "loop"%string
    (Diff.Reject Loop) None false Finding.KernelOverstrictCandidate)
    as (_ & _ & points & outs & H1 & H2 & _ & H3 & _);
    [vm_compute; reflexivity|vm_compute; reflexivity|right; reflexivity|].
  exists points, outs. split; [exact H1|]. split; [exact H2|exact H3].
Defined.

(** r0 = r2; exit. *)
Definition uninit_env : BpfVerifierEnv := env_of [BpfInsn.MovReg 0 2; BpfInsn.Exit].

Lemma soundness_findings_witnessed_witness :
  exists v, verify map_to_list uninit_env = Returns (v, verified uninit_env) /\ v <> Safe /\
    exists heads r, run_concretely heads uninit_env = Returns r /\ unsafe_run r (fun _ => True).
Proof.
  destruct (verify map_to_list uninit_env) as [[v env']| |] eqn:Hv; try (vm_compute in Hv; discriminate Hv).
  assert (env' = verified uninit_env) as -> by (unfold verified; rewrite Hv; reflexivity).
  exists v. split; [reflexivity|].
  destruct (soundness_findings_witnessed map_to_list (fun _ => "register r2 is uninitialized"%string) uninit_env
    (verified uninit_env) v "uninit"%string Diff.Accept None false Finding.SoundnessCandidate) as [_ H];
    [reflexivity|exact Hv| |].
  - assert (exists f, v = Unsafe f) as [f ->] by (vm_compute in Hv; injection Hv as <-; eexists; reflexivity).
    vm_compute. reflexivity.
  - destruct (H eq_refl) as (H1 & _ & H2). split; [exact H1|exact H2].
Defined.

(** Two of the rules for a kernel rejection never decide: the verifier's own
    rejections are sorted out before the categories are compared, and an accepted
    program has no message in which the loop rule could find a word. *)
Theorem reject_rules_dead (reason_text : VerificationFailure -> string) (v : Verdict) (i : OracleInput) (c : ReasonCategory) :
  mini i = (verdict_side reason_text v).1 -> mini_reason i = (verdict_side reason_text v).2 ->
  classify_kernel_reject i c = Finding.Whitelisted ->
  rejects (mini i) \/
  strict i = true /\ (Diff.reason_has (kernel_reason i) ["for !root"%string] = true \/
    c = UninitRead /\ Diff.reason_has (kernel_reason i) ["invalid read from stack"%string] = true).
Proof.
  intros Hm Hr Hc. destruct (kernel_reject_exact i c) as (_ & _ & H & _). apply H in Hc as [?|Hc]; [by left|].
  destruct Hc as [[? ?]|[[_ Hl]|(? & ? & _ & ?)]]; [right; auto| |right; auto].
  destruct v; [rewrite Hr in Hl; discriminate Hl|]. left. by rewrite Hm.
Qed.
