(* ===== verification/Reduce.v ===== *)
(** The core of the testcase reducer (src/src/fuzz/reduce/fixup.rs and
    ddmin.rs): deletion of a set of instructions with the branch offsets
    re-based, the memo table of the oracle with its budget, and delta debugging
    over instruction indices.  The oracle (the replay of a candidate against
    the finding) is a parameter with a state of its own, so that nothing is
    assumed about its answers.  The theorems: a deletion moves every branch to
    the image of its old target and is refused exactly when it cannot, the
    search terminates, stays within its budget, returns a deletion of its input
    that the oracle accepted, and is 1-minimal when the budget is unlimited. *)
From Stdlib Require Import ZArith Lia List Bool String.
From stdpp Require Import base gmap list strings.
From S2P Require Import Prelude Insn.
Open Scope Z_scope.

(** * Deleting instructions

    Instruction indices are [nat]: the code's [u32] holds them for every
    program of fewer than 2^32 slots. *)

(** How a deletion fails: [encode] panics, or the function returns [None]. *)
Inductive NoDeletion := EncodePanics | Refused.

(** The code offset of a branch instruction. *)
Definition branch_offset (insn : BpfInsn) : option Z :=
  match insn with
  | BpfInsn.Jmp offset => Some offset
  | BpfInsn.Jeq _ _ offset | BpfInsn.Jne _ _ offset | BpfInsn.Jgt _ _ offset
  | BpfInsn.Jge _ _ offset | BpfInsn.Jlt _ _ offset | BpfInsn.Jle _ _ offset
  | BpfInsn.Jsgt _ _ offset | BpfInsn.Jsge _ _ offset | BpfInsn.Jslt _ _ offset
  | BpfInsn.Jsle _ _ offset
  | BpfInsn.JeqImm _ _ offset | BpfInsn.JneImm _ _ offset | BpfInsn.JgtImm _ _ offset
  | BpfInsn.JgeImm _ _ offset | BpfInsn.JltImm _ _ offset | BpfInsn.JleImm _ _ offset
  | BpfInsn.JsgtImm _ _ offset | BpfInsn.JsgeImm _ _ offset | BpfInsn.JsltImm _ _ offset
  | BpfInsn.JsleImm _ _ offset => Some offset
  | _ => None
  end.

(** Membership in the removal set: the list may be unsorted and repeat. *)
Definition is_removed (remove : list nat) (i : nat) : bool := existsb (Nat.eqb i) remove.

(** The loop that numbers the surviving instructions: old index to new index,
    [None] when removed. *)
Fixpoint new_index_from (remove : list nat) (old next count : nat) : list (option nat) :=
  match count with
  | O => []
  | S count' =>
      if is_removed remove old then None :: new_index_from remove (S old) next count'
      else Some next :: new_index_from remove (S old) (S next) count'
  end.

(** [chunk[2..4].copy_from_slice(&new_off.to_le_bytes())]. *)
Definition set_offset_bytes (chunk : list Z) (off : Z) : list Z :=
  take 2 chunk ++ le16 off ++ drop 4 chunk.

(** One surviving instruction at [old], renumbered [new_idx]. *)
Definition rebase_chunk (len : nat) (new_index : list (option nat)) (old new_idx : nat)
    (insn : BpfInsn) : result NoDeletion (list Z) :=
  match encode insn with
  | None => Err EncodePanics
  | Some chunk =>
      match branch_offset insn with
      | None => Ok chunk
      | Some offset =>
          let target := Z.of_nat old + 1 + offset in
          if (target <? 0) || (Z.of_nat len <=? target) then Err Refused
          else match new_index !! Z.to_nat target with
               | Some (Some new_target) =>
                   let new_off := Z.of_nat new_target - Z.of_nat new_idx - 1 in
                   if in_range (-32768) 32767 new_off then Ok (set_offset_bytes chunk new_off)
                   else Err Refused
               | _ => Err Refused
               end
      end
  end.

(** The loop over the old indices, at index [old]. *)
Fixpoint rebase_from (len : nat) (new_index : list (option nat)) (old : nat)
    (insns : list BpfInsn) : result NoDeletion (list Z) :=
  match insns with
  | [] => Ok []
  | insn :: rest =>
      match new_index !! old with
      | Some (Some new_idx) =>
          let? chunk := rebase_chunk len new_index old new_idx insn in
          let? out := rebase_from len new_index (S old) rest in
          Ok (chunk ++ out)
      | _ => rebase_from len new_index (S old) rest
      end
  end.

Definition delete_insns (bytes : list Z) (remove : list nat) : result NoDeletion (list Z) :=
  if negb (Nat.modulo (length bytes) 8 =? 0)%nat || (length bytes =? 0)%nat then Err Refused
  else
    let len := Nat.div (length bytes) 8 in
    match decode_program bytes with
    | Err _ => Err Refused
    | Ok insns =>
        if existsb (fun i => (len <=? i)%nat) remove then Err Refused
        else rebase_from len (new_index_from remove 0 0 len) 0 insns
    end.

(** * The memo table of the oracle *)

Module OracleCache.
Record OracleCache := {
  results : gmap (list Z) bool;
  max_checks : nat;
  checks : nat;
  hits : nat }.
Definition new (max_checks : nat) : OracleCache :=
  {| results := ∅; max_checks := max_checks; checks := 0; hits := 0 |}.
Definition budget_exhausted (c : OracleCache) : bool :=
  (0 <? max_checks c)%nat && (max_checks c <=? checks c)%nat.
End OracleCache.
Abbreviation OracleCache := OracleCache.OracleCache.

Section Search.
(** The oracle and its state (the environment it consults). *)
Context {W : Type} (oracle : W -> list Z -> bool * W).

(** [check]: [None] when the budget is exhausted. *)
Definition cache_check (c : OracleCache) (w : W) (bytes : list Z)
  : option bool * OracleCache * W :=
  match OracleCache.results c !! bytes with
  | Some result =>
      (Some result,
       {| OracleCache.results := OracleCache.results c;
          OracleCache.max_checks := OracleCache.max_checks c;
          OracleCache.checks := OracleCache.checks c;
          OracleCache.hits := S (OracleCache.hits c) |}, w)
  | None =>
      if OracleCache.budget_exhausted c then (None, c, w)
      else
        let '(result, w') := oracle w bytes in
        (Some result,
         {| OracleCache.results := <[bytes := result]> (OracleCache.results c);
            OracleCache.max_checks := OracleCache.max_checks c;
            OracleCache.checks := S (OracleCache.checks c);
            OracleCache.hits := OracleCache.hits c |}, w')
  end.

(** * Delta debugging *)

(** [keep] minus chunk number [chunk], in ascending order. *)
Definition without_chunk (granularity chunk : nat) (keep : list nat) : list nat :=
  map snd (filter (fun p => Nat.div (fst p) granularity <> chunk)
                  (zip (seq 0 (length keep)) keep)).

(** The indices of the program outside [candidate]. *)
Definition complement (len : nat) (candidate : list nat) : list nat :=
  filter (fun i => is_removed candidate i = false) (seq 0 len).

(** What a pass over the chunks ends with: a smaller program, none, or the
    budget (or a panic of the encoder) stops the search. *)
Inductive Scan := Reduced (keep : list nat) (best : list Z) | NoChunk | OutOfBudget | ScanPanics.

(** The loop over the chunks from [chunk] on, [count] of them left. *)
Fixpoint scan_chunks (bytes : list Z) (len granularity : nat) (keep : list nat)
    (chunk count : nat) (c : OracleCache) (w : W) : Scan * OracleCache * W :=
  match count with
  | O => (NoChunk, c, w)
  | S count' =>
      let candidate := without_chunk granularity chunk keep in
      if (length candidate =? length keep)%nat then
        scan_chunks bytes len granularity keep (S chunk) count' c w
      else
        match delete_insns bytes (complement len candidate) with
        | Err EncodePanics => (ScanPanics, c, w)
        | Err Refused => scan_chunks bytes len granularity keep (S chunk) count' c w
        | Ok candidate_bytes =>
            match cache_check c w candidate_bytes with
            | (Some true, c', w') => (Reduced candidate candidate_bytes, c', w')
            | (Some false, c', w') =>
                scan_chunks bytes len granularity keep (S chunk) count' c' w'
            | (None, c', w') => (OutOfBudget, c', w')
            end
        end
  end.

(** The outcome of [ddmin]: a program, the defensive [None] for an input that
    does not satisfy the oracle, a panic of the encoder, or the model's fuel. *)
Inductive Outcome := Returns (best : list Z) | NotInteresting | Panics | OutOfFuel.

Definition div_ceil (a b : nat) : nat := Nat.div (a + b - 1) b.

Fixpoint ddmin_loop (fuel : nat) (bytes : list Z) (len : nat) (keep : list nat) (best : list Z)
    (n : nat) (c : OracleCache) (w : W) : Outcome * OracleCache * W :=
  match fuel with
  | O => (OutOfFuel, c, w)
  | S fuel' =>
      if (2 <=? length keep)%nat && negb (OracleCache.budget_exhausted c) then
        match scan_chunks bytes len (div_ceil (length keep) n) keep 0 n c w with
        | (Reduced keep' best', c', w') =>
            ddmin_loop fuel' bytes len keep' best' (Nat.max (n - 1) 2) c' w'
        | (NoChunk, c', w') =>
            if (length keep <=? n)%nat then (Returns best, c', w')
            else ddmin_loop fuel' bytes len keep best (Nat.min (n * 2) (length keep)) c' w'
        | (OutOfBudget, c', w') => (Returns best, c', w')
        | (ScanPanics, c', w') => (Panics, c', w')
        end
      else (Returns best, c, w)
  end.

(** Enough for every input (shown below). *)
Definition ddmin_fuel (len : nat) : nat := S ((len + 1) * (len + 1)).

Definition ddmin (bytes : list Z) (c : OracleCache) (w : W) : Outcome * OracleCache * W :=
  let len := Nat.div (length bytes) 8 in
  if (len <? 2)%nat then (Returns bytes, c, w)
  else
    match cache_check c w bytes with
    | (Some true, c', w') => ddmin_loop (ddmin_fuel len) bytes len (seq 0 len) bytes 2 c' w'
    | (Some false, c', w') => (NotInteresting, c', w')
    | (None, c', w') => (Returns bytes, c', w')
    end.
End Search.

(** * Deletion re-targets every branch *)

(** The indices in [old, old + count) that survive, and the new index of an old
    one. *)
Definition survivors (remove : list nat) (old count : nat) : list nat :=
  filter (fun i => is_removed remove i = false) (seq old count).
Definition rank (remove : list nat) (i : nat) : nat := length (survivors remove 0 i).

Lemma survivors_snoc remove old count :
  survivors remove old (S count) =
  survivors remove old count ++ (if is_removed remove (old + count) then [] else [(old + count)%nat]).
Proof.
  unfold survivors. rewrite seq_S, filter_app. f_equal. cbn.
  destruct (is_removed remove (old + count)) eqn:E; case_decide; naive_solver.
Qed.

Lemma rank_S remove i : rank remove (S i) = (rank remove i + if is_removed remove i then 0 else 1)%nat.
Proof. unfold rank. rewrite survivors_snoc, length_app. simpl. by destruct is_removed. Qed.

Lemma rank_mono remove i j :
  (i <= j)%nat -> (rank remove i <= rank remove j <= rank remove i + (j - i))%nat.
Proof.
  induction 1 as [|j Hj IH]; [lia|]. rewrite rank_S.
  destruct is_removed; lia.
Qed.

Lemma new_index_lookup remove count i j :
  (j < count)%nat ->
  new_index_from remove i (rank remove i) count !! j =
  Some (if is_removed remove (i + j) then None else Some (rank remove (i + j))).
Proof.
  revert i j. induction count as [|count IH]; intros i j Hj; [lia|]. cbn [new_index_from].
  pose proof (rank_S remove i) as Hr.
  destruct (is_removed remove i) eqn:E; destruct j as [|j]; cbn; rewrite ?Nat.add_0_r, ?E; try done;
    rewrite <- Nat.add_succ_comm, <- IH by lia; by rewrite Hr, ?Nat.add_0_r, ?Nat.add_1_r.
Qed.

(** The offset between the images of a surviving source and target is no
    farther than the old one. *)
Lemma rank_offset remove i t :
  is_removed remove i = false ->
  let off := Z.of_nat t - Z.of_nat i - 1 in
  let off' := Z.of_nat (rank remove t) - Z.of_nat (rank remove i) - 1 in
  Z.min off 0 <= off' <= Z.max off 0.
Proof.
  intros Hi off off'. pose proof (rank_S remove i) as Hr. rewrite Hi in Hr.
  subst off off'. destruct (decide (S i <= t)%nat) as [H|H].
  - pose proof (rank_mono remove (S i) t H). lia.
  - pose proof (rank_mono remove t i ltac:(lia)). lia.
Qed.

(** A branch with another offset. *)
Definition with_offset (insn : BpfInsn) (offset : Z) : BpfInsn :=
  match insn with
  | BpfInsn.Jmp _ => BpfInsn.Jmp offset
  | BpfInsn.Jeq dst src _ => BpfInsn.Jeq dst src offset
  | BpfInsn.Jne dst src _ => BpfInsn.Jne dst src offset
  | BpfInsn.Jgt dst src _ => BpfInsn.Jgt dst src offset
  | BpfInsn.Jge dst src _ => BpfInsn.Jge dst src offset
  | BpfInsn.Jlt dst src _ => BpfInsn.Jlt dst src offset
  | BpfInsn.Jle dst src _ => BpfInsn.Jle dst src offset
  | BpfInsn.Jsgt dst src _ => BpfInsn.Jsgt dst src offset
  | BpfInsn.Jsge dst src _ => BpfInsn.Jsge dst src offset
  | BpfInsn.Jslt dst src _ => BpfInsn.Jslt dst src offset
  | BpfInsn.Jsle dst src _ => BpfInsn.Jsle dst src offset
  | BpfInsn.JeqImm dst imm _ => BpfInsn.JeqImm dst imm offset
  | BpfInsn.JneImm dst imm _ => BpfInsn.JneImm dst imm offset
  | BpfInsn.JgtImm dst imm _ => BpfInsn.JgtImm dst imm offset
  | BpfInsn.JgeImm dst imm _ => BpfInsn.JgeImm dst imm offset
  | BpfInsn.JltImm dst imm _ => BpfInsn.JltImm dst imm offset
  | BpfInsn.JleImm dst imm _ => BpfInsn.JleImm dst imm offset
  | BpfInsn.JsgtImm dst imm _ => BpfInsn.JsgtImm dst imm offset
  | BpfInsn.JsgeImm dst imm _ => BpfInsn.JsgeImm dst imm offset
  | BpfInsn.JsltImm dst imm _ => BpfInsn.JsltImm dst imm offset
  | BpfInsn.JsleImm dst imm _ => BpfInsn.JsleImm dst imm offset
  | _ => insn
  end.

Lemma with_offset_spec insn off off' :
  branch_offset insn = Some off ->
  branch_offset (with_offset insn off') = Some off' /\
  (forall chunk, encode insn = Some chunk ->
     encode (with_offset insn off') = Some (set_offset_bytes chunk off')) /\
  (insn_wf insn = true -> in_range (-32768) 32767 off = true /\
     (in_range (-32768) 32767 off' = true -> insn_wf (with_offset insn off') = true)).
Proof.
  intros H. destruct insn; try discriminate H; cbn [branch_offset] in H; injection H as ->;
    (split; [reflexivity|]; split;
      [intros chunk Hc; unfold encode in *; cbn [encode_fields with_offset] in *;
       injection Hc as <-; reflexivity
      |unfold insn_wf; cbn [encode_fields with_offset insn_shape];
       rewrite !andb_true_iff; intros ((((?&?)&?)&?)&?); split; [assumption|intros ?; split_and!; assumption]]).
Qed.

(** The image of the instruction at [i]. *)
Definition moved (remove : list nat) (i : nat) (insn : BpfInsn) : BpfInsn :=
  match branch_offset insn with
  | None => insn
  | Some offset =>
      with_offset insn
        (Z.of_nat (rank remove (Z.to_nat (Z.of_nat i + 1 + offset))) - Z.of_nat (rank remove i) - 1)
  end.

(** The surviving instructions of the program suffix that starts at [i]. *)
Fixpoint survivors_of (remove : list nat) (i : nat) (insns : list BpfInsn) : list BpfInsn :=
  match insns with
  | [] => []
  | insn :: rest =>
      if is_removed remove i then survivors_of remove (S i) rest
      else moved remove i insn :: survivors_of remove (S i) rest
  end.

(** The branch at [i] keeps its target. *)
Definition target_kept (remove : list nat) (len i : nat) (insn : BpfInsn) : bool :=
  match branch_offset insn with
  | None => true
  | Some offset =>
      let target := Z.of_nat i + 1 + offset in
      (0 <=? target) && (target <? Z.of_nat len) && negb (is_removed remove (Z.to_nat target))
  end.

Fixpoint targets_kept (remove : list nat) (len i : nat) (insns : list BpfInsn) : bool :=
  match insns with
  | [] => true
  | insn :: rest =>
      (is_removed remove i || target_kept remove len i insn) && targets_kept remove len (S i) rest
  end.

(** What the loop needs of an instruction: [encode] accepts it and a branch
    offset is a 16-bit one. *)
Definition encodable (insn : BpfInsn) : Prop :=
  (exists chunk, encode insn = Some chunk) /\
  forall off, branch_offset insn = Some off -> in_range (-32768) 32767 off = true.

Lemma rebase_chunk_spec remove len i insn :
  (i < len)%nat -> is_removed remove i = false -> encodable insn ->
  rebase_chunk len (new_index_from remove 0 0 len) i (rank remove i) insn =
  if target_kept remove len i insn then
    match encode (moved remove i insn) with Some chunk => Ok chunk | None => Err EncodePanics end
  else Err Refused.
Proof.
  intros Hi Hk [[chunk Hc] Ho]. unfold rebase_chunk, target_kept, moved. rewrite Hc.
  destruct (branch_offset insn) as [off|] eqn:Hb; [|by rewrite Hc]. cbv zeta.
  destruct (with_offset_spec insn off
    (Z.of_nat (rank remove (Z.to_nat (Z.of_nat i + 1 + off))) - Z.of_nat (rank remove i) - 1) Hb)
    as (_ & He & _). rewrite (He chunk Hc). clear He.
  destruct (Z.ltb_spec (Z.of_nat i + 1 + off) 0); [rewrite (proj2 (Z.leb_gt 0 _)) by lia; reflexivity|].
  rewrite (proj2 (Z.leb_le 0 _)) by lia. cbn [orb andb]. rewrite Z.ltb_antisym.
  destruct (Z.leb_spec (Z.of_nat len) (Z.of_nat i + 1 + off)); [reflexivity|]. cbn [negb andb].
  set (t := Z.to_nat (Z.of_nat i + 1 + off)).
  pose proof (new_index_lookup remove len 0 t ltac:(lia)) as Hl. change (rank remove 0) with 0%nat in Hl.
  rewrite Hl. cbn [Nat.add].
  destruct (is_removed remove t) eqn:Ht; [reflexivity|]. cbn [negb].
  pose proof (rank_offset remove i t Hk) as Hr. specialize (Ho off eq_refl).
  rewrite in_range_iff in Ho. cbv zeta in Hr.
  rewrite (proj2 (in_range_iff (-32768) 32767 _)) by lia. reflexivity.
Qed.

Lemma moved_encodes remove i insn :
  encodable insn -> exists chunk, encode (moved remove i insn) = Some chunk.
Proof.
  intros [[chunk Hc] _]. unfold moved. destruct (branch_offset insn) as [off|] eqn:Hb; [|eauto].
  edestruct (with_offset_spec insn off) as (_ & He & _); eauto.
Qed.

Lemma rebase_from_spec remove len i insns :
  Forall encodable insns -> (i + length insns = len)%nat ->
  exists out, encode_program (survivors_of remove i insns) = Some out /\
    rebase_from len (new_index_from remove 0 0 len) i insns =
      if targets_kept remove len i insns then Ok out else Err Refused.
Proof.
  revert i. induction insns as [|insn rest IH]; intros i He Hlen; [by exists []|].
  apply Forall_cons in He as [He Hrest]. simpl in Hlen.
  destruct (IH (S i) Hrest ltac:(lia)) as (out & Hout & Hreb).
  cbn [survivors_of rebase_from targets_kept].
  pose proof (new_index_lookup remove len 0 i ltac:(lia)) as Hl. change (rank remove 0) with 0%nat in Hl.
  rewrite Hl. cbn [Nat.add]. destruct (is_removed remove i) eqn:Ek; [by exists out|]. cbn [orb].
  destruct (moved_encodes remove i insn He) as [chunk Hc].
  cbn [encode_program]. rewrite Hc, Hout. exists (chunk ++ out). split; [done|].
  rewrite rebase_chunk_spec by (done || lia). rewrite Hc, Hreb.
  destruct target_kept; [|done]. cbn. by destruct targets_kept.
Qed.

(** Induction over the slots of a well-formed program. *)
Lemma program_wf_ind (P : list BpfInsn -> Prop) :
  P [] ->
  (forall first rest, insn_wf first = true -> program_wf rest = true -> P rest ->
     P (first :: rest)) ->
  (forall first hi rest, ldimm64_pair first hi = true -> program_wf rest = true -> P rest ->
     P (first :: BpfInsn.LdImm64Second hi :: rest)) ->
  forall insns, program_wf insns = true -> P insns.
Proof.
  intros Hnil Hone Hpair insns.
  assert (forall n l, (length l <= n)%nat -> program_wf l = true -> P l) as H; [|by eapply H].
  induction n as [|n IH]; intros [|first rest] Hn Hw; simpl in Hn; try lia; try done.
  cbn [program_wf] in Hw. destruct (insn_wf first) eqn:Hf.
  - apply Hone; [done..|]. apply IH; [lia|done].
  - destruct rest as [|[] rest']; try done. apply andb_true_iff in Hw as [Hp Hw]. simpl in Hn.
    apply Hpair; [done..|]. apply IH; [lia|done].
Qed.

Lemma pair_no_branch first hi :
  ldimm64_pair first hi = true -> branch_offset first = None.
Proof. unfold ldimm64_pair. rewrite andb_true_iff. intros [_ H]. by destruct first. Qed.

Lemma program_encodable insns : program_wf insns = true -> Forall encodable insns.
Proof.
  revert insns. apply program_wf_ind.
  - constructor.
  - intros first rest Hf _ IH. constructor; [|done]. split.
    + destruct (parse_encoded first Hf) as (b & Hb & _). eauto.
    + intros off Ho. destruct (with_offset_spec first off 0 Ho) as (_ & _ & Hr). by apply Hr.
  - intros first hi rest Hp _ IH.
    destruct (decode_pair 0 first hi [] Hp) as (b1 & b2 & Hb1 & Hb2 & _).
    constructor; [split; [by exists b1|intros off; by rewrite (pair_no_branch first hi Hp)]|].
    constructor; [split; [by exists b2|done]|done].
Qed.

Definition in_program (len : nat) (remove : list nat) : bool :=
  negb (existsb (fun i => (len <=? i)%nat) remove).

(** What the search relies on: the deletion is decided by the branch targets
    alone. *)
Lemma delete_insns_spec bytes insns remove :
  Forall is_byte bytes -> bytes <> [] -> decode_program bytes = Ok insns ->
  existsb is_wide_sign_load insns = false ->
  exists out, encode_program (survivors_of remove 0 insns) = Some out /\
    delete_insns bytes remove =
      if in_program (length insns) remove && targets_kept remove (length insns) 0 insns
      then Ok out else Err Refused.
Proof.
  intros Hb Hne Hd Hw. destruct (decoded_program_slots bytes insns Hb Hd) as [Hlen Hwf].
  destruct (rebase_from_spec remove (length insns) 0 insns) as (out & Hout & Hreb);
    [by apply program_encodable, Hwf|done|]. exists out. split; [done|].
  unfold delete_insns. rewrite Hd, Hlen, (Nat.mul_comm 8), Nat.Div0.mod_mul, Nat.div_mul by done.
  destruct (Nat.eqb_spec (length insns * 8) 0) as [Hz|_]; [destruct bytes; [done|simpl in Hlen; lia]|].
  cbn [negb orb Nat.eqb]. unfold in_program. destruct (existsb _ remove); [done|]. exact Hreb.
Qed.

(** No ldimm64 is cut in half. *)
Definition keeps_pairs (remove : list nat) (i : nat) (insns : list BpfInsn) : Prop :=
  forall k hi, insns !! S k = Some (BpfInsn.LdImm64Second hi) ->
    is_removed remove (i + k) = is_removed remove (i + S k).

Lemma keeps_pairs_tail remove i insn insns :
  keeps_pairs remove i (insn :: insns) -> keeps_pairs remove (S i) insns.
Proof. intros H k hi Hk. specialize (H (S k) hi Hk). by rewrite !Nat.add_succ_comm. Qed.

Lemma moved_wf remove len i insn :
  is_removed remove i = false -> target_kept remove len i insn = true -> insn_wf insn = true ->
  insn_wf (moved remove i insn) = true.
Proof.
  intros Hk Ht Hw. unfold moved, target_kept in *. destruct (branch_offset insn) as [off|] eqn:Hb; [|done].
  destruct (with_offset_spec insn off
    (Z.of_nat (rank remove (Z.to_nat (Z.of_nat i + 1 + off))) - Z.of_nat (rank remove i) - 1) Hb)
    as (_ & _ & Hwf). destruct (Hwf Hw) as [Ho Hr]. apply Hr. clear Hwf Hr.
  cbv zeta in Ht. rewrite !andb_true_iff in Ht. destruct Ht as [[Ht _] _].
  pose proof (rank_offset remove i (Z.to_nat (Z.of_nat i + 1 + off)) Hk) as Hr. cbv zeta in Hr.
  rewrite in_range_iff in *. lia.
Qed.

Lemma survivors_wf remove len insns :
  program_wf insns = true -> forall i, keeps_pairs remove i insns ->
  targets_kept remove len i insns = true -> program_wf (survivors_of remove i insns) = true.
Proof.
  revert insns. refine (program_wf_ind _ _ _ _); [done|..].
  - intros first rest Hf _ IH i Hp Ht. cbn [survivors_of targets_kept] in *.
    apply andb_true_iff in Ht as [Ht Hrest]. specialize (IH (S i) (keeps_pairs_tail _ _ _ _ Hp) Hrest).
    destruct (is_removed remove i) eqn:Ek; [done|]. cbn [orb] in Ht. cbn [program_wf].
    by rewrite (moved_wf remove len).
  - intros first hi rest Hpair _ IH i Hp Ht. cbn [survivors_of targets_kept] in *.
    apply andb_true_iff in Ht as [_ Ht]. apply andb_true_iff in Ht as [_ Hrest].
    specialize (IH (S (S i)) (keeps_pairs_tail _ _ _ _ (keeps_pairs_tail _ _ _ _ Hp)) Hrest).
    specialize (Hp 0%nat hi eq_refl). rewrite Nat.add_0_r, Nat.add_1_r in Hp. rewrite <- Hp.
    destruct (is_removed remove i); [done|].
    unfold moved at 1 2. rewrite (pair_no_branch first hi Hpair). cbn [branch_offset program_wf].
    by rewrite (pair_not_single first hi Hpair), Hpair.
Qed.

Lemma survivors_lookup remove insns i k insn :
  insns !! k = Some insn -> is_removed remove (i + k) = false ->
  survivors_of remove i insns !! (rank remove (i + k) - rank remove i)%nat =
    Some (moved remove (i + k) insn).
Proof.
  revert i k. induction insns as [|first rest IH]; intros i [|k] Hk Hr; try done; cbn [survivors_of].
  - injection Hk as ->. rewrite Nat.add_0_r in *. rewrite Hr, Nat.sub_diag. reflexivity.
  - rewrite <- Nat.add_succ_comm in *. specialize (IH (S i) k Hk Hr).
    pose proof (rank_S remove i) as Hs. pose proof (rank_mono remove (S i) (S i + k) ltac:(lia)).
    destruct (is_removed remove i).
    + replace (rank remove i) with (rank remove (S i)) by lia. done.
    + replace (rank remove (S i + k) - rank remove i)%nat
        with (S (rank remove (S i + k) - rank remove (S i)))%nat by lia. done.
Qed.

Lemma survivors_length remove insns i :
  length (survivors_of remove i insns) = (rank remove (i + length insns) - rank remove i)%nat.
Proof.
  revert i. induction insns as [|first rest IH]; intros i; cbn [survivors_of length].
  { rewrite Nat.add_0_r. lia. }
  pose proof (rank_S remove i) as Hs. pose proof (rank_mono remove (S i) (S i + length rest) ltac:(lia)).
  rewrite <- Nat.add_succ_comm. destruct (is_removed remove i); cbn [length]; rewrite IH; lia.
Qed.

Lemma targets_kept_lookup remove len insns i k insn :
  targets_kept remove len i insns = true -> insns !! k = Some insn ->
  is_removed remove (i + k) = false -> target_kept remove len (i + k) insn = true.
Proof.
  revert i k. induction insns as [|first rest IH]; intros i [|k] Ht Hk Hr; try done;
    cbn [targets_kept] in Ht; apply andb_true_iff in Ht as [Hf Ht].
  - injection Hk as ->. rewrite Nat.add_0_r in *. by rewrite Hr in Hf.
  - rewrite <- Nat.add_succ_comm in *. by eapply IH.
Qed.

Lemma target_kept_false remove len i insn :
  target_kept remove len i insn = false <->
  exists off, branch_offset insn = Some off /\
    let target := Z.of_nat i + 1 + off in
    (target < 0 \/ Z.of_nat len <= target \/ is_removed remove (Z.to_nat target) = true).
Proof.
  unfold target_kept. destruct (branch_offset insn) as [off|]; [|split; [done|by intros (? & ? & _)]].
  cbv zeta. rewrite !andb_false_iff, negb_false_iff, Z.leb_gt, Z.ltb_ge.
  split; [intros H; exists off; naive_solver|intros (o & Ho & H); naive_solver].
Qed.

Lemma targets_kept_false remove len insns :
  targets_kept remove len 0 insns = false <->
  exists i insn off, insns !! i = Some insn /\ is_removed remove i = false /\
    branch_offset insn = Some off /\
    let target := Z.of_nat i + 1 + off in
    (target < 0 \/ Z.of_nat len <= target \/ is_removed remove (Z.to_nat target) = true).
Proof.
  enough (forall i, targets_kept remove len i insns = false <->
    exists k insn, insns !! k = Some insn /\ is_removed remove (i + k) = false /\
      target_kept remove len (i + k) insn = false) as H.
  { rewrite H. setoid_rewrite target_kept_false. cbn [Nat.add]. naive_solver. }
  induction insns as [|first rest IH]; intros i; cbn [targets_kept].
  { split; [done|]. intros (k & ? & ? & _). by destruct k. }
  rewrite andb_false_iff, orb_false_iff, IH. split.
  - intros [[Hr Ht]|(k & insn & Hk & Hr & Ht)].
    + exists 0%nat, first. by rewrite Nat.add_0_r.
    + exists (S k), insn. by rewrite <- Nat.add_succ_comm.
  - intros ([|k] & insn & Hk & Hr & Ht).
    + injection Hk as ->. rewrite Nat.add_0_r in *. by left.
    + right. exists k, insn. by rewrite <- Nat.add_succ_comm in *.
Qed.

(** What the passes rely on (the property below). *)
Lemma deletion_moves_branches (bytes out : list Z) (insns : list BpfInsn) (remove : list nat) :
  Forall is_byte bytes -> decode_program bytes = Ok insns ->
  existsb is_wide_sign_load insns = false -> keeps_pairs remove 0 insns ->
  delete_insns bytes remove = Ok out ->
  exists insns', decode_program out = Ok insns' /\
    length insns' = rank remove (length insns) /\
    forall i insn, insns !! i = Some insn -> is_removed remove i = false ->
    exists insn', insns' !! rank remove i = Some insn' /\
      match branch_offset insn with
      | None => insn' = insn
      | Some off =>
          exists t : nat, Z.of_nat t = Z.of_nat i + 1 + off /\ (t < length insns)%nat /\
            is_removed remove t = false /\
            insn' = with_offset insn (Z.of_nat (rank remove t) - Z.of_nat (rank remove i) - 1) /\
            branch_offset insn' = Some (Z.of_nat (rank remove t) - Z.of_nat (rank remove i) - 1)
      end.
Proof.
  intros Hb Hd Hw Hp Hdel. destruct (decide (bytes = [])) as [->|Hne]; [discriminate Hdel|].
  destruct (delete_insns_spec bytes insns remove Hb Hne Hd Hw) as (out' & Hout & Hspec).
  rewrite Hspec in Hdel. destruct (in_program _ _ && _) eqn:Hc in Hdel; [|done].
  injection Hdel as <-. apply andb_true_iff in Hc as [_ Ht].
  destruct (decoded_program_slots bytes insns Hb Hd) as [_ Hwf].
  exists (survivors_of remove 0 insns). split_and!.
  - destruct (program_roundtrip (survivors_of remove 0 insns)) as (b & Hb' & Hdec);
      [by eapply survivors_wf; eauto|]. congruence.
  - rewrite survivors_length. change (rank remove 0) with 0%nat. by rewrite Nat.sub_0_r.
  - intros i insn Hi Hr. exists (moved remove i insn).
    pose proof (survivors_lookup remove insns 0 i insn Hi Hr) as Hl.
    change (rank remove 0) with 0%nat in Hl. rewrite Nat.sub_0_r in Hl. split; [done|].
    pose proof (targets_kept_lookup remove _ insns 0 i insn Ht Hi Hr) as Htk. cbn [Nat.add] in Htk.
    unfold moved, target_kept in *. destruct (branch_offset insn) as [off|] eqn:Hbo; [|done].
    cbv zeta in Htk. rewrite !andb_true_iff, negb_true_iff in Htk. destruct Htk as [[? ?] ?].
    exists (Z.to_nat (Z.of_nat i + 1 + off)). split_and!; try lia; try done.
    by apply (with_offset_spec insn off).
Qed.

(** The transfers of control that the deletion does not re-base. *)
Definition not_rebased (insn : BpfInsn) : bool :=
  match insn with
  | BpfInsn.Jset _ _ _ | BpfInsn.JsetImm _ _ _ | BpfInsn.Jmp32 _ _ _ _ _ | BpfInsn.CallSub _ => true
  | _ => false
  end.

(** if r1 & 1 goto +1; r0 = 1; r0 = 2; exit, and it without r0 = 1. *)
Definition jset_program : list Z :=
  [0x45; 1; 1; 0; 1; 0; 0; 0;  0xb7; 0; 0; 0; 1; 0; 0; 0;  0xb7; 0; 0; 0; 2; 0; 0; 0;
   0x95; 0; 0; 0; 0; 0; 0; 0].
Definition jset_deleted : list BpfInsn := [BpfInsn.JsetImm 1 1 1; BpfInsn.MovImm 0 2; BpfInsn.Exit].

(** C30: deleting instructions moves every surviving jump and 64-bit compare to the
    image of its old target, and no other transfer of control.  For bytes that
    decode, without the opcode 0x99 and with no ldimm64 cut in half, the output
    decodes to one instruction per survivor, in order; a jump or 64-bit compare
    keeps its operation and operands while its offset leads to the new index of the
    instruction it led to, which survived; and every other instruction is unchanged,
    the JSET, the 32-bit compares and the bpf-to-bpf calls with their old offset
    among them.  So these lead elsewhere after a deletion inside the jump, against
    what the code says of every branch: in the example the JSET led to r0 = 2, now at
    index 1, and leads to the exit at index 2. *)
Theorem delete_insns_retargets (bytes out : list Z) (insns : list BpfInsn) (remove : list nat) :
  (Forall is_byte bytes -> decode_program bytes = Ok insns ->
   existsb is_wide_sign_load insns = false -> keeps_pairs remove 0 insns ->
   delete_insns bytes remove = Ok out ->
   exists insns', decode_program out = Ok insns' /\
     length insns' = rank remove (length insns) /\
     forall i insn, insns !! i = Some insn -> is_removed remove i = false ->
     exists insn', insns' !! rank remove i = Some insn' /\
       (not_rebased insn = true -> insn' = insn) /\
       match branch_offset insn with
       | None => insn' = insn
       | Some off =>
           exists t : nat, Z.of_nat t = Z.of_nat i + 1 + off /\ (t < length insns)%nat /\
             is_removed remove t = false /\
             insn' = with_offset insn (Z.of_nat (rank remove t) - Z.of_nat (rank remove i) - 1) /\
             branch_offset insn' = Some (Z.of_nat (rank remove t) - Z.of_nat (rank remove i) - 1)
       end) /\
  (exists out, delete_insns jset_program [1%nat] = Ok out /\ decode_program out = Ok jset_deleted /\
     rank [1%nat] 2 = 1%nat /\ jset_deleted !! 2%nat = Some BpfInsn.Exit).
Proof.
  split; [|eexists; split; [vm_compute; reflexivity|by vm_compute]].
  intros Hb Hd Hw Hk Hdel. destruct (deletion_moves_branches bytes out insns remove Hb Hd Hw Hk Hdel) as (insns' & H1 & H2 & H3).
  exists insns'. split_and!; [done..|]. intros i insn Hi Hr. destruct (H3 i insn Hi Hr) as (insn' & H4 & H5).
  exists insn'. split_and!; [done| |done]. by destruct insn.
Qed.

(** The test program of the code: r0 = 0; if r0 == 0 goto +2; r1 = 1; r0 = 2;
    exit. *)
Definition jeq_program : list Z :=
  [0xb7; 0; 0; 0; 0; 0; 0; 0;  0x15; 0; 2; 0; 0; 0; 0; 0;  0xb7; 1; 0; 0; 1; 0; 0; 0;
   0xb7; 0; 0; 0; 2; 0; 0; 0;  0x95; 0; 0; 0; 0; 0; 0; 0].
Definition jeq_insns : list BpfInsn :=
  [BpfInsn.MovImm 0 0; BpfInsn.JeqImm 0 0 2; BpfInsn.MovImm 1 1; BpfInsn.MovImm 0 2; BpfInsn.Exit].

Lemma jeq_program_bytes : Forall is_byte jeq_program.
Proof. repeat constructor; unfold is_byte; lia. Qed.

Lemma jeq_keeps_pairs remove : keeps_pairs remove 0 jeq_insns.
Proof. intros k hi H. do 5 (destruct k as [|k]; [discriminate H|]). discriminate H. Qed.

Lemma delete_insns_retargets_witness :
  exists out insns', delete_insns jeq_program [2%nat] = Ok out /\ decode_program out = Ok insns' /\
    length insns' = 4%nat.
Proof.
  destruct (delete_insns jeq_program [2%nat]) as [out|] eqn:E; [|discriminate E].
  destruct (delete_insns_retargets jeq_program out jeq_insns [2%nat]) as [H _].
  destruct H as (insns' & ? & ? & _);
    [apply jeq_program_bytes|reflexivity|reflexivity|apply jeq_keeps_pairs|exact E|].
  exists out, insns'. auto.
Defined.

(** A deletion is refused exactly when an index is out of range or a
    surviving branch loses its target (deleted, or outside the program); the
    re-based offset never overflows its 16 bits. *)
Theorem delete_insns_refuses (bytes : list Z) (insns : list BpfInsn) (remove : list nat) :
  Forall is_byte bytes -> bytes <> [] -> decode_program bytes = Ok insns ->
  existsb is_wide_sign_load insns = false ->
  (delete_insns bytes remove = Err Refused <->
     (exists i, In i remove /\ (length insns <= i)%nat) \/
     (exists i insn off, insns !! i = Some insn /\ is_removed remove i = false /\
        branch_offset insn = Some off /\
        let target := Z.of_nat i + 1 + off in
        (target < 0 \/ Z.of_nat (length insns) <= target \/
         is_removed remove (Z.to_nat target) = true))) /\
  (delete_insns bytes remove = Err Refused \/ exists out, delete_insns bytes remove = Ok out).
Proof.
  intros Hb Hne Hd Hw. destruct (delete_insns_spec bytes insns remove Hb Hne Hd Hw) as (out & Hout & ->).
  split; [|destruct (in_program _ _ && _); eauto].
  transitivity (in_program (length insns) remove && targets_kept remove (length insns) 0 insns = false);
    [by destruct (in_program _ _ && _)|].
  rewrite andb_false_iff, targets_kept_false. apply ZifyClasses.or_morph; [|done].
  unfold in_program. rewrite negb_false_iff, existsb_exists. by setoid_rewrite Nat.leb_le.
Qed.

Lemma delete_insns_refuses_witness :
  delete_insns jeq_program [4%nat] = Err Refused /\
  exists out, delete_insns jeq_program [2%nat] = Ok out.
Proof.
  split.
  - apply (delete_insns_refuses jeq_program jeq_insns [4%nat]);
      [apply jeq_program_bytes|discriminate|reflexivity|reflexivity|].
    right. exists 1%nat, (BpfInsn.JeqImm 0 0 2), 2. split_and!; try reflexivity. right. by right.
  - destruct (delete_insns_refuses jeq_program jeq_insns [2%nat]) as [_ [H|H]];
      [apply jeq_program_bytes|discriminate|reflexivity|reflexivity|discriminate H|exact H].
Defined.

(** * The memo table *)

(** How the table grows: entries are never changed, a new one is an answer of
    the oracle, the budget is respected, and there is one entry per evaluation. *)
Record grows {W} (oracle : W -> list Z -> bool * W) (c c' : OracleCache) : Prop := {
  ext_results : OracleCache.results c ⊆ OracleCache.results c';
  ext_answers : forall b r, OracleCache.results c' !! b = Some r ->
    OracleCache.results c !! b = Some r \/ exists w, fst (oracle w b) = r;
  ext_budget : OracleCache.max_checks c' = OracleCache.max_checks c;
  ext_checks : (OracleCache.checks c <= OracleCache.checks c')%nat;
  ext_bound : (0 < OracleCache.max_checks c)%nat ->
    (OracleCache.checks c <= OracleCache.max_checks c)%nat ->
    (OracleCache.checks c' <= OracleCache.max_checks c)%nat;
  ext_size : size (OracleCache.results c) = OracleCache.checks c ->
    size (OracleCache.results c') = OracleCache.checks c' }.

#[export] Instance grows_preorder {W} (oracle : W -> list Z -> bool * W) : PreOrder (grows oracle).
Proof.
  split.
  - intros c. split; auto.
  - intros a b c [H1 H2 H3 H4 H5 H6] [G1 G2 G3 G4 G5 G6]. split; [by etrans| |congruence|lia|..|auto].
    + intros x r Hx. destruct (G2 x r Hx); auto.
    + intros ? ?. rewrite H3 in G5. auto.
Qed.

Lemma budget_exhausted_spec c :
  OracleCache.budget_exhausted c = true <->
  (0 < OracleCache.max_checks c)%nat /\ (OracleCache.max_checks c <= OracleCache.checks c)%nat.
Proof. unfold OracleCache.budget_exhausted. by rewrite andb_true_iff, Nat.ltb_lt, Nat.leb_le. Qed.

Lemma cache_check_spec {W} (oracle : W -> list Z -> bool * W) c w bytes r c' w' :
  cache_check oracle c w bytes = (r, c', w') ->
  grows oracle c c' /\
  match r with
  | Some b => OracleCache.results c' !! bytes = Some b
  | None => OracleCache.budget_exhausted c' = true
  end.
Proof.
  unfold cache_check. destruct (OracleCache.results c !! bytes) as [b|] eqn:Hl.
  - intros H. injection H as <- <- <-. cbn. split; [split; cbn; auto|done].
  - destruct (OracleCache.budget_exhausted c) eqn:Hb.
    { intros H. injection H as <- <- <-. by split. }
    destruct (oracle w bytes) as [b w1] eqn:Ho. intros H. injection H as <- <- <-. cbn.
    split; [|by rewrite lookup_insert_eq]. split; cbn.
    + by apply insert_subseteq.
    + intros x r [[-> <-]|[_ Hx]]%lookup_insert_Some; [right; exists w; by rewrite Ho|by left].
    + done.
    + lia.
    + intros ? ?. apply Bool.not_true_iff_false in Hb. rewrite budget_exhausted_spec in Hb. lia.
    + intros Hs. by rewrite map_size_insert_None, Hs.
Qed.

(** * The chunks *)

Lemma without_chunk_single j keep : without_chunk 1 j keep = delete j keep.
Proof.
  enough (forall s, map snd (filter (fun p => fst p <> s + j)%nat
    (zip (seq s (length keep)) keep)) = delete j keep) as H.
  { rewrite <- (H 0%nat). unfold without_chunk. f_equal. apply list_filter_iff.
    intros p. by rewrite Nat.div_1_r. }
  revert j. induction keep as [|k keep IH]; intros j s; [by destruct j|]. cbn [length seq zip zip_with].
  rewrite filter_cons. cbn [fst]. destruct j as [|j].
  - rewrite Nat.add_0_r, decide_False by lia. cbn [delete list_delete].
    assert (forall t, (s < t)%nat -> map snd (filter (fun p : nat * nat => fst p <> s)
      (zip (seq t (length keep)) keep)) = keep) as H; [|apply H; lia].
    clear. induction keep as [|k keep IH]; intros t Ht; [done|]. cbn.
    rewrite decide_True by (cbn; lia). cbn. by rewrite IH by lia.
  - rewrite decide_True by lia. cbn [map snd].
    change (delete (S j) (k :: keep)) with (k :: delete j keep). rewrite <- (IH j (S s)).
    f_equal. f_equal. apply list_filter_iff. intros []. cbn. lia.
Qed.

Lemma without_chunk_sublist g j keep : without_chunk g j keep `sublist_of` keep.
Proof.
  unfold without_chunk.
  enough (forall s, map snd (filter (fun p => Nat.div (fst p) g <> j)
    (zip (seq s (length keep)) keep)) `sublist_of` keep) as H by exact (H 0%nat).
  induction keep as [|k keep IH]; intros s; [done|]. cbn. case_decide; cbn; by constructor.
Qed.

(** A chunk of at most all but one instruction leaves something. *)
Lemma without_chunk_nonempty g j keep :
  (0 < g < length keep)%nat -> (0 < length (without_chunk g j keep))%nat.
Proof.
  intros Hg. unfold without_chunk. rewrite length_map.
  set (l := zip _ _). assert (exists i, (i < length keep)%nat /\ Nat.div i g <> j) as (i & Hi & Hd).
  { destruct j as [|j].
    - exists g. split; [lia|]. rewrite Nat.div_same by lia. lia.
    - exists 0%nat. split; [lia|]. rewrite Nat.Div0.div_0_l. lia. }
  destruct (lookup_lt_is_Some_2 keep i Hi) as [x Hx].
  assert ((i, x) ∈ filter (fun p => Nat.div (fst p) g <> j) l) as Hin.
  { apply list_elem_of_filter. split; [done|]. apply list_elem_of_lookup. exists i. subst l.
    apply lookup_zip_with_Some. exists i, x. split_and!; [done| |done].
    by apply lookup_seq. }
  destruct (filter _ l); [by apply not_elem_of_nil in Hin|simpl; lia].
Qed.

Section SearchFacts.
Context {W : Type} (oracle : W -> list Z -> bool * W) (bytes : list Z) (len : nat).

(** A candidate that was considered and not taken. *)
Definition dismissed (c : OracleCache) (candidate : list nat) : Prop :=
  match delete_insns bytes (complement len candidate) with
  | Ok b => OracleCache.results c !! b = Some false
  | Err Refused => True
  | Err EncodePanics => False
  end.

Lemma dismissed_grows c c' candidate :
  grows oracle c c' -> dismissed c candidate -> dismissed c' candidate.
Proof.
  unfold dismissed. intros He. destruct delete_insns as [b|e]; [|by destruct e].
  intros Hb. eapply lookup_weaken; [exact Hb|apply He].
Qed.

(** What a pass over the chunks [chunk], ..., [chunk + count - 1] establishes. *)
Definition scan_ok (g : nat) (keep : list nat) (chunk count : nat) (s : Scan) (c' : OracleCache)
  : Prop :=
  match s with
  | Reduced keep' best' =>
      exists j, keep' = without_chunk g j keep /\ (length keep' < length keep)%nat /\
        delete_insns bytes (complement len keep') = Ok best' /\
        OracleCache.results c' !! best' = Some true
  | NoChunk =>
      forall j, (chunk <= j < chunk + count)%nat ->
        length (without_chunk g j keep) <> length keep -> dismissed c' (without_chunk g j keep)
  | OutOfBudget => OracleCache.budget_exhausted c' = true
  | ScanPanics => exists remove, delete_insns bytes remove = Err EncodePanics
  end.

Lemma scan_ok_skip g keep chunk count s c1 c' :
  grows oracle c1 c' ->
  (length (without_chunk g chunk keep) <> length keep -> dismissed c1 (without_chunk g chunk keep)) ->
  scan_ok g keep (S chunk) count s c' -> scan_ok g keep chunk (S count) s c'.
Proof.
  intros He Hd. destruct s; try done. intros Hm j Hj Hl. destruct (decide (j = chunk)) as [->|Hne].
  - eapply dismissed_grows; eauto.
  - apply Hm; [lia|done].
Qed.

Lemma scan_chunks_spec g keep chunk count c w s c' w' :
  scan_chunks oracle bytes len g keep chunk count c w = (s, c', w') ->
  grows oracle c c' /\ scan_ok g keep chunk count s c'.
Proof.
  revert chunk c w. induction count as [|count IH]; intros chunk c w; cbn [scan_chunks]; cbv zeta.
  { intros H. injection H as <- <- <-. split; [done|]. intros j; lia. }
  assert (Hrest : forall c1 w1, grows oracle c c1 ->
    (length (without_chunk g chunk keep) <> length keep -> dismissed c1 (without_chunk g chunk keep)) ->
    scan_chunks oracle bytes len g keep (S chunk) count c1 w1 = (s, c', w') ->
    grows oracle c c' /\ scan_ok g keep chunk (S count) s c').
  { intros c1 w1 H1 Hdis Hs. destruct (IH _ _ _ Hs) as [He Hm]. split; [by etrans|].
    eapply scan_ok_skip; eauto. }
  destruct (Nat.eqb_spec (length (without_chunk g chunk keep)) (length keep)) as [Heq|Hlen];
    [by apply Hrest|].
  pose proof (sublist_length _ _ (without_chunk_sublist g chunk keep)).
  destruct (delete_insns _ _) as [b|[]] eqn:Hd.
  - destruct (cache_check oracle c w b) as [[[[]|] c1] w1] eqn:Hc;
      destruct (cache_check_spec _ _ _ _ _ _ _ Hc) as [He Hr].
    + intros Hs. injection Hs as <- <- <-. split; [done|]. exists chunk. split_and!; try done. lia.
    + apply Hrest; [done|]. intros _. unfold dismissed. by rewrite Hd.
    + intros Hs. injection Hs as <- <- <-. by split.
  - intros Hs. injection Hs as <- <- <-. split; [done|]. cbn. eauto.
  - apply Hrest; [done|]. intros _. unfold dismissed. by rewrite Hd.
Qed.

(** * The search *)

(** The current best program: a deletion of the input that the oracle accepted. *)
Definition candidate_of (keep : list nat) (best : list Z) : Prop :=
  keep `sublist_of` seq 0 len /\ (0 < length keep)%nat /\
  (keep = seq 0 len /\ best = bytes \/
   (length keep < len)%nat /\ delete_insns bytes (complement len keep) = Ok best).

(** No single instruction of [keep] could be removed. *)
Definition one_minimal (c : OracleCache) (keep : list nat) : Prop :=
  length keep = 1%nat \/ forall j, (j < length keep)%nat -> dismissed c (delete j keep).

Definition measure (keep : list nat) (n : nat) : nat :=
  (length keep * (len + 1) + (len - n))%nat.

Lemma div_ceil_bounds a b : (2 <= a)%nat -> (2 <= b)%nat -> (0 < div_ceil a b < a)%nat.
Proof.
  intros. unfold div_ceil. split; [apply Nat.div_str_pos; lia|].
  apply Nat.Div0.div_lt_upper_bound. nia.
Qed.

Lemma div_ceil_one a b : (0 < a <= b)%nat -> div_ceil a b = 1%nat.
Proof. intros. unfold div_ceil. symmetry. apply (Nat.div_unique _ _ _ (a - 1)); lia. Qed.

Lemma scan_reduced keep n keep' best' c' best :
  candidate_of keep best -> (2 <= length keep)%nat -> (2 <= n)%nat ->
  scan_ok (div_ceil (length keep) n) keep 0 n (Reduced keep' best') c' ->
  candidate_of keep' best' /\ (length keep' < length keep)%nat /\
  OracleCache.results c' !! best' = Some true.
Proof.
  intros (Hs & Hp & Hb) Hk Hn (j & -> & Hl & Hd & Hr). split_and!; [|done..].
  pose proof (sublist_length _ _ Hs) as Hlen. rewrite length_seq in Hlen.
  split_and!; [|apply without_chunk_nonempty, div_ceil_bounds; lia|right; split; [lia|done]].
  etrans; [apply without_chunk_sublist|done].
Qed.

Lemma scan_minimal keep n c' :
  (2 <= length keep <= n)%nat ->
  scan_ok (div_ceil (length keep) n) keep 0 n NoChunk c' -> one_minimal c' keep.
Proof.
  intros Hn Hs. right. intros j Hj. rewrite div_ceil_one in Hs by lia.
  rewrite <- without_chunk_single. apply Hs; [lia|].
  rewrite without_chunk_single, length_delete; [lia|]. by apply lookup_lt_is_Some.
Qed.

(** What the loop returns. *)
Definition search_ok (c c' : OracleCache) (o : Outcome) : Prop :=
  grows oracle c c' /\
  match o with
  | Returns best =>
      exists keep, candidate_of keep best /\ OracleCache.results c' !! best = Some true /\
        (OracleCache.budget_exhausted c' = false -> one_minimal c' keep)
  | Panics => exists remove, delete_insns bytes remove = Err EncodePanics
  | NotInteresting | OutOfFuel => False
  end.

Lemma search_ok_grows c c1 c' o : grows oracle c c1 -> search_ok c1 c' o -> search_ok c c' o.
Proof. intros He [? ?]. split; [by etrans|done]. Qed.

Lemma ddmin_loop_spec fuel keep best n c w :
  candidate_of keep best -> OracleCache.results c !! best = Some true -> (2 <= n)%nat ->
  (measure keep n < fuel)%nat ->
  let '(o, c', _) := ddmin_loop oracle fuel bytes len keep best n c w in search_ok c c' o.
Proof.
  revert keep best n c w. induction fuel as [|fuel IH]; intros keep best n c w Hc Hr Hn Hf; [lia|].
  cbn [ddmin_loop]. pose proof (sublist_length _ _ (proj1 Hc)) as Hlen. rewrite length_seq in Hlen.
  destruct (Nat.leb_spec 2 (length keep)) as [Hk|Hk]; cbn [andb].
  2: { split; [done|]. exists keep. split_and!; [done..|]. intros _. left. destruct Hc. lia. }
  destruct (OracleCache.budget_exhausted c) eqn:Hbud; cbn [negb].
  { split; [done|]. exists keep. rewrite Hbud. by split_and!. }
  destruct (scan_chunks _ _ _ _ _ _ _ _ _) as [[s c1] w1] eqn:Hs.
  destruct (scan_chunks_spec _ _ _ _ _ _ _ _ _ Hs) as [He Hok].
  assert (Hbest : OracleCache.results c1 !! best = Some true)
    by (eapply lookup_weaken; [exact Hr|apply He]).
  destruct s as [keep' best'| | |].
  - destruct (scan_reduced keep n keep' best' c1 best) as (Hc' & Hl' & Hr'); [done..|].
    specialize (IH keep' best' (Nat.max (n - 1) 2) c1 w1 Hc' Hr' ltac:(lia)).
    destruct (ddmin_loop _ _ _ _ _ _ _ _) as [[o c'] w'].
    eapply search_ok_grows; [done|]. apply IH. unfold measure in *. nia.
  - destruct (Nat.leb_spec (length keep) n) as [Hkn|Hkn].
    + split; [done|]. exists keep. split_and!; [done..|]. intros _. by eapply scan_minimal; eauto.
    + specialize (IH keep best (Nat.min (n * 2) (length keep)) c1 w1 Hc Hbest ltac:(lia)).
      destruct (ddmin_loop _ _ _ _ _ _ _ _) as [[o c'] w'].
      eapply search_ok_grows; [done|]. apply IH. unfold measure in *. nia.
  - split; [done|]. exists keep. split_and!; [done..|]. cbn in Hok. by rewrite Hok.
  - by split.
Qed.
End SearchFacts.

(** * Deleting twice

    For a program of one-slot instructions, deleting one more instruction from
    the output of a deletion is the deletion of both sets from the input. *)

Lemma is_removed_spec remove i : is_removed remove i = true <-> In i remove.
Proof.
  unfold is_removed. rewrite existsb_exists. setoid_rewrite Nat.eqb_eq.
  split; [by intros (? & ? & ->)|eauto].
Qed.

Lemma new_index_from_ext r r' old next count :
  (forall k, is_removed r k = is_removed r' k) ->
  new_index_from r old next count = new_index_from r' old next count.
Proof.
  intros H. revert old next. induction count as [|count IH]; intros old next; [done|].
  cbn [new_index_from]. rewrite H. by rewrite !IH.
Qed.

Lemma delete_insns_ext bytes r r' :
  (forall k, is_removed r k = is_removed r' k) -> delete_insns bytes r = delete_insns bytes r'.
Proof.
  intros H. unfold delete_insns. destruct (_ || _); [done|]. cbv zeta.
  destruct (decode_program bytes) as [insns|]; [|done].
  assert (forall f, existsb f r = existsb f r') as ->.
  { intros f. apply eq_true_iff_eq. rewrite !existsb_exists.
    setoid_rewrite <- is_removed_spec. by setoid_rewrite H. }
  by rewrite (new_index_from_ext r r').
Qed.

Lemma rank_cons r i t :
  is_removed r i = false -> (rank (i :: r) t + (if (i <? t)%nat then 1 else 0) = rank r t)%nat.
Proof.
  intros Hi. induction t as [|t IH]; [done|]. rewrite !rank_S. cbn [is_removed existsb].
  destruct (Nat.eqb_spec t i) as [->|Hne]; cbn [orb].
  - rewrite Nat.ltb_irrefl in IH. rewrite (proj2 (Nat.ltb_lt _ _)) by lia.
    fold (is_removed r i). rewrite Hi. lia.
  - fold (is_removed r t). destruct (Nat.ltb_spec i t), (Nat.ltb_spec i (S t)); lia.
Qed.

Lemma rank_nil t : rank [] t = t.
Proof. induction t as [|t IH]; [done|]. rewrite rank_S, IH. cbn. lia. Qed.

Lemma rank_lt r i t : is_removed r i = false -> (rank r i < rank r t <-> i < t)%nat.
Proof.
  intros Hi. pose proof (rank_S r i) as Hs. rewrite Hi in Hs.
  destruct (Nat.le_gt_cases t i) as [H|H].
  - pose proof (rank_mono r t i H). lia.
  - pose proof (rank_mono r (S i) t H). lia.
Qed.

Lemma rank_twice r i t :
  is_removed r i = false -> rank [rank r i] (rank r t) = rank (i :: r) t.
Proof.
  intros Hi. pose proof (rank_cons r i t Hi) as H1.
  pose proof (rank_cons [] (rank r i) (rank r t) eq_refl) as H2. rewrite rank_nil in H2.
  pose proof (rank_lt r i t Hi).
  destruct (Nat.ltb_spec i t), (Nat.ltb_spec (rank r i) (rank r t)); lia.
Qed.

Lemma is_removed_twice r i t :
  is_removed r i = false -> is_removed r t = false ->
  is_removed [rank r i] (rank r t) = is_removed (i :: r) t.
Proof.
  intros Hi Ht. cbn [is_removed existsb]. fold (is_removed r t). rewrite Ht, !orb_false_r.
  pose proof (rank_lt r i t Hi). pose proof (rank_lt r t i Ht).
  destruct (Nat.eqb_spec t i), (Nat.eqb_spec (rank r t) (rank r i)); subst; try done; lia.
Qed.

Lemma with_offset_twice insn a b : with_offset (with_offset insn a) b = with_offset insn b.
Proof. by destruct insn. Qed.

Lemma moved_twice r len i j insn :
  is_removed r i = false -> is_removed r j = false -> target_kept r len j insn = true ->
  moved [rank r i] (rank r j) (moved r j insn) = moved (i :: r) j insn /\
  target_kept [rank r i] (rank r len) (rank r j) (moved r j insn) = target_kept (i :: r) len j insn.
Proof.
  intros Hi Hj Ht. unfold moved, target_kept in *.
  destruct (branch_offset insn) as [off|] eqn:Hb; [|by rewrite Hb]. cbv zeta in Ht.
  rewrite !andb_true_iff, negb_true_iff, Z.leb_le, Z.ltb_lt in Ht. destruct Ht as [[H0 H1] H2].
  set (t := Z.to_nat (Z.of_nat j + 1 + off)) in *.
  destruct (with_offset_spec insn off (Z.of_nat (rank r t) - Z.of_nat (rank r j) - 1) Hb) as [-> _].
  cbv zeta. rewrite with_offset_twice.
  replace (Z.of_nat (rank r j) + 1 + (Z.of_nat (rank r t) - Z.of_nat (rank r j) - 1))
    with (Z.of_nat (rank r t)) by lia.
  rewrite Nat2Z.id, !rank_twice, is_removed_twice by done. split; [done|].
  pose proof (proj2 (rank_lt r t len H2) ltac:(lia)).
  rewrite (proj2 (Z.leb_le _ _)) by lia. rewrite (proj2 (Z.ltb_lt _ _)) by lia.
  rewrite (proj2 (Z.leb_le _ _)) by lia. by rewrite (proj2 (Z.ltb_lt _ _)) by lia.
Qed.

Lemma survivors_twice r len i k insns :
  is_removed r i = false -> targets_kept r len k insns = true ->
  survivors_of [rank r i] (rank r k) (survivors_of r k insns) = survivors_of (i :: r) k insns /\
  targets_kept [rank r i] (rank r len) (rank r k) (survivors_of r k insns) =
    targets_kept (i :: r) len k insns.
Proof.
  intros Hi. revert k. induction insns as [|insn rest IH]; intros k Ht; [done|].
  cbn [survivors_of targets_kept] in *. apply andb_true_iff in Ht as [Hk Ht].
  destruct (IH (S k) Ht) as [IH1 IH2]. rewrite rank_S in IH1, IH2.
  destruct (is_removed r k) eqn:Er.
  - rewrite Nat.add_0_r in IH1, IH2.
    assert (is_removed (i :: r) k = true) as -> by (cbn; fold (is_removed r k); rewrite Er; apply orb_true_r).
    done.
  - cbn [orb] in Hk. rewrite Nat.add_1_r in IH1, IH2. cbn [survivors_of targets_kept].
    destruct (moved_twice r len i k insn Hi Er Hk) as [-> ->].
    rewrite is_removed_twice, IH1, IH2 by done. done.
Qed.

Definition one_slot (insns : list BpfInsn) : Prop := Forall (fun insn => insn_wf insn = true) insns.

Lemma one_slot_program insns :
  one_slot insns ->
  program_wf insns = true /\ existsb is_wide_sign_load insns = false /\
  (forall remove i, keeps_pairs remove i insns).
Proof.
  intros H. split_and!.
  - induction H as [|insn rest Hi _ IH]; [done|]. cbn. by rewrite Hi.
  - induction H as [|insn rest Hi _ IH]; [done|]. cbn. rewrite IH, orb_false_r.
    destruct insn; try done. by destruct size, sign_extend.
  - intros remove i k hi Hk. unfold one_slot in H. rewrite Forall_lookup in H. specialize (H _ _ Hk).
    unfold insn_wf in H. cbn in H. by rewrite andb_false_r in H.
Qed.

Lemma one_slot_bytes insns bytes :
  one_slot insns -> encode_program insns = Some bytes -> Forall is_byte bytes.
Proof.
  intros H. revert bytes. induction H as [|insn rest Hi _ IH]; intros bytes He; cbn in He.
  { by injection He as <-. }
  destruct (parse_encoded insn Hi) as (b & Hb & Hbytes & _). rewrite Hb in He.
  destruct (encode_program rest) as [bs|]; [|done]. injection He as <-.
  apply Forall_app. split; [done|]. by apply IH.
Qed.

Lemma survivors_one_slot remove len i insns :
  one_slot insns -> targets_kept remove len i insns = true -> one_slot (survivors_of remove i insns).
Proof.
  intros H. revert i. induction H as [|insn rest Hi _ IH]; intros i Ht; [by constructor|].
  cbn [survivors_of targets_kept] in *. apply andb_true_iff in Ht as [Hk Ht].
  specialize (IH (S i) Ht). destruct (is_removed remove i) eqn:Er; [done|].
  constructor; [|done]. by eapply moved_wf.
Qed.

Lemma delete_twice bytes insns remove i out :
  Forall is_byte bytes -> decode_program bytes = Ok insns -> one_slot insns ->
  delete_insns bytes remove = Ok out -> (i < length insns)%nat -> is_removed remove i = false ->
  delete_insns out [rank remove i] = delete_insns bytes (i :: remove).
Proof.
  intros Hb Hd Ho Hdel Hi Hr. destruct (one_slot_program insns Ho) as (Hwf & Hw & Hkp).
  destruct (decide (bytes = [])) as [->|Hne]; [discriminate Hdel|].
  destruct (delete_insns_spec bytes insns remove Hb Hne Hd Hw) as (out' & Hout & Hspec).
  rewrite Hspec in Hdel. destruct (in_program _ remove && _) eqn:Hc in Hdel; [|done].
  injection Hdel as ->. apply andb_true_iff in Hc as [Hin Ht].
  destruct (survivors_twice remove (length insns) i 0 insns Hr Ht) as [Hs2 Ht2].
  change (rank remove 0) with 0%nat in Hs2, Ht2.
  pose proof (survivors_one_slot remove _ 0 insns Ho Ht) as Hone.
  destruct (one_slot_program _ Hone) as (Hwf1 & Hw1 & _).
  destruct (program_roundtrip _ Hwf1) as (b1 & Hb1 & Hdec1).
  rewrite Hout in Hb1. injection Hb1 as <-.
  pose proof (one_slot_bytes _ _ Hone Hout) as Hbytes1.
  destruct (decoded_program_slots out _ Hbytes1 Hdec1) as [Hlen1 _].
  pose proof (survivors_length remove insns 0) as Hsl. change (rank remove 0) with 0%nat in Hsl.
  rewrite Nat.sub_0_r in Hsl. cbn [Nat.add] in Hsl.
  pose proof (proj2 (rank_lt remove i (length insns) Hr) Hi).
  destruct (delete_insns_spec out (survivors_of remove 0 insns) [rank remove i] Hbytes1) as (o1 & Ho1 & ->); [|done..|].
  { intros ->. simpl in Hlen1. lia. }
  destruct (delete_insns_spec bytes insns (i :: remove) Hb Hne Hd Hw) as (o2 & Ho2 & ->).
  rewrite Hs2, Ho2 in Ho1. injection Ho1 as ->. rewrite Hsl, Ht2.
  replace (in_program (rank remove (length insns)) [rank remove i]) with true;
    [replace (in_program (length insns) (i :: remove)) with true; [done|]|].
  - unfold in_program in *. cbn [existsb]. rewrite negb_orb, Hin, andb_true_r.
    rewrite (proj2 (Nat.leb_gt _ _)) by lia. done.
  - unfold in_program. cbn [existsb]. by rewrite (proj2 (Nat.leb_gt _ _)) by lia.
Qed.

(** * The theorems on delta debugging *)

Lemma encode_program_length insns bytes :
  encode_program insns = Some bytes -> length bytes = (8 * length insns)%nat.
Proof.
  revert bytes. induction insns as [|insn rest IH]; intros bytes; cbn; [by intros [= <-]|].
  destruct (encode insn) as [b|] eqn:Eb; [|done]. destruct (encode_program rest) as [bs|]; [|done].
  intros [= <-]. rewrite length_app, (encode_length _ _ Eb), (IH bs eq_refl). lia.
Qed.

Lemma deletion_length bytes insns remove out :
  Forall is_byte bytes -> decode_program bytes = Ok insns -> existsb is_wide_sign_load insns = false ->
  delete_insns bytes remove = Ok out -> length out = (8 * rank remove (length insns))%nat.
Proof.
  intros Hb Hd Hw Hdel.
  destruct (decide (bytes = [])) as [->|Hne]; [discriminate Hdel|].
  destruct (delete_insns_spec bytes insns remove Hb Hne Hd Hw) as (out' & Hout & Hspec).
  rewrite Hspec in Hdel. destruct (_ && _) in Hdel; [|done]. injection Hdel as ->.
  rewrite (encode_program_length _ _ Hout), survivors_length.
  change (rank remove 0) with 0%nat. by rewrite Nat.sub_0_r.
Qed.

Lemma is_removed_complement len keep k :
  is_removed (complement len keep) k = (k <? len)%nat && negb (is_removed keep k).
Proof.
  apply eq_true_iff_eq. unfold complement.
  rewrite is_removed_spec, andb_true_iff, Nat.ltb_lt, negb_true_iff, <- list_elem_of_In, list_elem_of_filter,
    elem_of_seq. intuition lia.
Qed.

Lemma sublist_position keep s n j i :
  keep `sublist_of` seq s n -> keep !! j = Some i ->
  (s <= i < s + n)%nat /\ length (filter (fun k => k ∈ keep) (seq s (i - s))) = j.
Proof.
  revert keep s j. induction n as [|n IH]; intros keep s j Hs Hj; cbn [seq] in Hs.
  { apply sublist_nil_r in Hs as ->. done. }
  assert (Hskip : forall l, l `sublist_of` seq (S s) n -> s ∉ l).
  { intros l Hl Hin. apply (sublist_subseteq _ _ Hl), elem_of_seq in Hin. lia. }
  apply sublist_cons_r in Hs as [Hs|(keep' & -> & Hs)].
  - destruct (IH keep (S s) j Hs Hj) as [Hi Hl]. split; [lia|].
    replace (i - s)%nat with (S (i - S s)) by lia. cbn [seq]. rewrite filter_cons, decide_False; auto.
  - destruct j as [|j]; [injection Hj as ->; rewrite Nat.sub_diag; split; [lia|done]|].
    destruct (IH keep' (S s) j Hs Hj) as [Hi Hl]. split; [lia|].
    replace (i - s)%nat with (S (i - S s)) by lia. cbn [seq].
    rewrite filter_cons, decide_True by (by apply list_elem_of_here). cbn [length]. f_equal.
    rewrite <- Hl. clear Hl. generalize (i - S s)%nat as m. intros m.
    assert (forall t, (s < t)%nat -> filter (fun k => k ∈ s :: keep') (seq t m) =
      filter (fun k => k ∈ keep') (seq t m)) as Heq; [|by rewrite Heq by lia].
    clear. induction m as [|m IH]; intros t Ht; [done|]. cbn [seq]. rewrite !filter_cons.
    rewrite IH by lia. destruct (decide (t ∈ keep')) as [Hin|Hin].
    + rewrite decide_True; [done|]. by apply list_elem_of_further.
    + rewrite decide_False; [done|]. rewrite elem_of_cons. intros [->|?]; [lia|done].
Qed.

Lemma rank_complement len keep j i :
  keep `sublist_of` seq 0 len -> keep !! j = Some i ->
  (i < len)%nat /\ rank (complement len keep) i = j.
Proof.
  intros Hs Hj. destruct (sublist_position keep 0 len j i Hs Hj) as [Hi Hl].
  split; [lia|]. rewrite Nat.sub_0_r in Hl. rewrite <- Hl. clear Hl Hj.
  induction i as [|i IH]; [done|]. rewrite rank_S, IH by lia. rewrite seq_S, filter_app, length_app.
  f_equal. rewrite is_removed_complement, (proj2 (Nat.ltb_lt _ _)) by lia. cbn.
  destruct (is_removed keep i) eqn:E.
  - rewrite decide_True; [done|]. by apply list_elem_of_In, is_removed_spec.
  - rewrite decide_False; [done|]. rewrite list_elem_of_In, <- is_removed_spec. by rewrite E.
Qed.

Lemma complement_all len k : is_removed (complement len (seq 0 len)) k = false.
Proof.
  rewrite is_removed_complement. destruct (Nat.ltb_spec k len); [|done]. cbn [andb].
  rewrite negb_false_iff. apply is_removed_spec, in_seq. lia.
Qed.

(** The image of the index after the last one: the number of survivors. *)
Lemma survivor_count len keep :
  keep `sublist_of` seq 0 len -> (0 < length keep)%nat -> rank (complement len keep) len = length keep.
Proof.
  intros Hs Hp. destruct (lookup_lt_is_Some_2 keep (length keep - 1)) as [i Hi]; [lia|].
  destruct (rank_complement len keep _ i Hs Hi) as [Hl Hr].
  pose proof (rank_S (complement len keep) i) as HS. rewrite Hr in HS.
  assert (Hin : forall k x, keep !! k = Some x -> is_removed (complement len keep) x = false).
  { intros k x Hx. rewrite is_removed_complement. apply andb_false_iff. right. rewrite negb_false_iff.
    apply is_removed_spec, list_elem_of_In. by eapply list_elem_of_lookup_2. }
  rewrite (Hin _ _ Hi) in HS.
  enough (rank (complement len keep) len = rank (complement len keep) (S i)) as -> by lia.
  assert (forall m, (S i <= m <= len)%nat ->
    rank (complement len keep) m = rank (complement len keep) (S i)) as H; [|apply H; lia].
  induction m as [|m IH]; intros Hm; [lia|]. destruct (decide (m = i)) as [->|Hne]; [done|].
  rewrite rank_S, IH by lia. destruct (is_removed (complement len keep) m) eqn:Em; [lia|].
  rewrite is_removed_complement, (proj2 (Nat.ltb_lt _ _)) in Em by lia.
  apply negb_false_iff, is_removed_spec, list_elem_of_In, list_elem_of_lookup in Em as [k Hk].
  destruct (rank_complement len keep _ _ Hs Hk) as [_ Hrk].
  pose proof (rank_lt (complement len keep) i m (Hin _ _ Hi)) as Hlt.
  apply lookup_lt_Some in Hk. lia.
Qed.

Lemma complement_delete len keep j i k :
  keep `sublist_of` seq 0 len -> keep !! j = Some i ->
  is_removed (complement len (delete j keep)) k = is_removed (i :: complement len keep) k.
Proof.
  intros Hs Hj. destruct (rank_complement len keep j i Hs Hj) as [Hi _].
  assert (Hnd : NoDup keep) by (eapply sublist_NoDup; [|exact Hs]; apply NoDup_seq).
  apply eq_true_iff_eq. cbn [is_removed existsb].
  fold (is_removed (complement len keep) k). rewrite !is_removed_complement.
  destruct (Nat.ltb_spec k len) as [Hk|Hk]; cbn [andb];
    [|rewrite orb_false_r, Nat.eqb_eq; split; [done|lia]].
  rewrite orb_true_iff, !negb_true_iff, Nat.eqb_eq, <- !not_true_iff_false, !is_removed_spec,
    <- !list_elem_of_In.
  rewrite delete_take_drop. rewrite <- (take_drop_middle keep j i Hj) in Hnd |- * at 3.
  apply NoDup_app in Hnd as (_ & Ha & Hnd). apply NoDup_cons in Hnd as [Hb _].
  rewrite !elem_of_app, elem_of_cons. split.
  - intros H. destruct (decide (k = i)) as [|Hne]; [by left|]. right. tauto.
  - intros [->|H]; [|tauto]. intros [H|H]; [|by apply Hb]. apply (Ha i H). by apply list_elem_of_here.
Qed.

(** [ddmin] as a whole. *)
Lemma ddmin_search {W} (oracle : W -> list Z -> bool * W) bytes c w o c' w' :
  ddmin oracle bytes c w = (o, c', w') ->
  grows oracle c c' /\
  match o with
  | Returns best =>
      (best = bytes /\ ((length bytes / 8 < 2)%nat \/ OracleCache.budget_exhausted c' = true)) \/
      exists keep, candidate_of bytes (length bytes / 8) keep best /\
        OracleCache.results c' !! best = Some true /\
        (OracleCache.budget_exhausted c' = false ->
         one_minimal bytes (length bytes / 8) c' keep)
  | NotInteresting => OracleCache.results c' !! bytes = Some false
  | Panics => exists remove, delete_insns bytes remove = Err EncodePanics
  | OutOfFuel => False
  end.
Proof.
  unfold ddmin. set (len := (length bytes / 8)%nat). destruct (Nat.ltb_spec len 2) as [Hl|Hl].
  { intros H. injection H as <- <- <-. split; [done|]. left. auto. }
  destruct (cache_check oracle c w bytes) as [[[[]|] c1] w1] eqn:Hc;
    destruct (cache_check_spec _ _ _ _ _ _ _ Hc) as [Hg Hr].
  - assert (Hcand : candidate_of bytes len (seq 0 len) bytes).
    { split_and!; [done|rewrite length_seq; lia|by left]. }
    pose proof (ddmin_loop_spec oracle bytes len (ddmin_fuel len) _ _ 2 c1 w1 Hcand Hr (le_n _)) as H.
    assert (measure len (seq 0 len) 2 < ddmin_fuel len)%nat as Hf
      by (unfold measure, ddmin_fuel; rewrite length_seq; nia).
    specialize (H Hf). intros E. rewrite E in H. destruct H as [Hg' H]. split; [by etrans|]. destruct o; try done. by right.
  - intros H. injection H as <- <- <-. by split.
  - intros H. injection H as <- <- <-. split; [done|]. left. auto.
Qed.

(** Delta debugging terminates on every program, whatever the oracle
    answers and whatever the memo table holds: the fuel of the model is never
    exhausted. *)
Theorem ddmin_terminates {W} (oracle : W -> list Z -> bool * W) (bytes : list Z) (c : OracleCache) (w : W) :
  fst (fst (ddmin oracle bytes c w)) <> OutOfFuel.
Proof.
  destruct (ddmin oracle bytes c w) as [[o c'] w'] eqn:E. cbn [fst].
  apply (ddmin_search oracle) in E. destruct E as [_ E]. by destruct o.
Qed.

(** What delta debugging returns is the input or a deletion of it; it is a
    program the oracle accepted, unless the input is returned unexamined because
    it has fewer than two instructions or the budget is exhausted. The memo
    table only gains answers of the oracle, one per evaluation, and never more
    than the budget. *)
Theorem ddmin_sound {W} (oracle : W -> list Z -> bool * W) (bytes best : list Z)
    (c c' : OracleCache) (w w' : W) :
  ddmin oracle bytes c w = (Returns best, c', w') ->
  grows oracle c c' /\
  (best = bytes \/ exists remove, delete_insns bytes remove = Ok best) /\
  (OracleCache.results c' !! best = Some true \/
   best = bytes /\ ((length bytes / 8 < 2)%nat \/ OracleCache.budget_exhausted c' = true)).
Proof.
  intros E. apply (ddmin_search oracle) in E. destruct E as [Hg H]. split; [done|].
  destruct H as [(Hb & Hs)|(keep & (_ & _ & Hc) & Hr & _)].
  - subst best. split; [by left|]. right. auto.
  - split; [|by left]. destruct Hc as [[_ ->]|[_ Hc]]; eauto.
Qed.

(** An oracle for the witnesses: the program still sets r0 to 2. *)
Definition sets_r0_to_2 (_ : unit) (bytes : list Z) : bool * unit :=
  (match decode_program bytes with
   | Ok insns => existsb (fun i => if decide (i = BpfInsn.MovImm 0 2) then true else false) insns
   | Err _ => false
   end, tt).

Lemma ddmin_sound_witness :
  exists best c', ddmin sets_r0_to_2 jeq_program (OracleCache.new 0) tt = (Returns best, c', tt) /\
    OracleCache.results c' !! best = Some true /\ length best = 8%nat.
Proof.
  destruct (ddmin sets_r0_to_2 jeq_program (OracleCache.new 0) tt) as [[[best| | |] c'] []] eqn:E;
    try (vm_compute in E; discriminate E).
  exists best, c'. split; [reflexivity|].
  destruct (ddmin_sound sets_r0_to_2 jeq_program best (OracleCache.new 0) c' tt tt E)
    as (_ & _ & [H|[_ [H|H]]]).
  - split; [exact H|]. vm_compute in E. injection E as <- _. reflexivity.
  - vm_compute in H. lia.
  - vm_compute in E. injection E as _ <-. vm_compute in H. discriminate H.
Defined.

(** C32: for a program of at least two instructions, all of one slot, and while the
    budget is not exhausted, what delta debugging returns is 1-minimal: it is one
    instruction the oracle accepted, or no single instruction of it can be deleted,
    because the deletion is refused or the oracle rejected its result.  A program of
    fewer than two instructions is returned as it is and unexamined, whatever the
    oracle would say. *)
Theorem ddmin_one_minimal {W} (oracle : W -> list Z -> bool * W) (bytes best : list Z)
    (insns : list BpfInsn) (c c' : OracleCache) (w w' : W) :
  Forall is_byte bytes -> decode_program bytes = Ok insns -> one_slot insns ->
  ddmin oracle bytes c w = (Returns best, c', w') ->
  ((2 <= length insns)%nat -> OracleCache.budget_exhausted c' = false ->
   (length best = 8%nat /\ OracleCache.results c' !! best = Some true) \/
   forall p, (p < length best / 8)%nat ->
     delete_insns best [p] = Err Refused \/
     exists b, delete_insns best [p] = Ok b /\ OracleCache.results c' !! b = Some false) /\
  ((length insns < 2)%nat -> best = bytes /\ c' = c).
Proof.
  intros Hb Hd Ho E. pose proof (one_slot_program insns Ho) as (Hwf & Hw & _).
  destruct (decoded_program_slots bytes insns Hb Hd) as [Hbl _].
  assert (Hl8 : (length bytes / 8)%nat = length insns)
    by (rewrite Hbl, Nat.mul_comm; by apply Nat.div_mul).
  split; [intros Hlen Hbud|].
  2: { intros Hlen. unfold ddmin in E. rewrite Hl8, (proj2 (Nat.ltb_lt _ _) Hlen) in E. by injection E as <- <- _. }
  apply (ddmin_search oracle) in E. rewrite Hl8 in E.
  destruct E as [_ [[_ [?|?]]|(keep & (Hs & Hp & Hc) & Hacc & Hmin)]]; [lia|congruence|].
  assert (Hbest : length best = (8 * length keep)%nat /\
    forall p i, keep !! p = Some i ->
      delete_insns best [p] = delete_insns bytes (complement (length insns) (delete p keep))).
  { split.
    - destruct Hc as [[-> ->]|[_ Hc]]; [by rewrite length_seq|].
      by rewrite (deletion_length bytes insns _ best Hb Hd Hw Hc), survivor_count.
    - intros p i Hpi. destruct (rank_complement _ _ _ _ Hs Hpi) as [Hi Hr].
      rewrite (delete_insns_ext bytes _ (i :: complement (length insns) keep))
        by (intros k; by apply complement_delete).
      destruct Hc as [[-> ->]|[_ Hc]].
      + apply lookup_seq in Hpi as [-> _]. apply delete_insns_ext. intros k. cbn [is_removed existsb].
        fold (is_removed (complement (length insns) (seq 0 (length insns))) k).
        by rewrite complement_all.
      + rewrite <- Hr at 1. apply (delete_twice bytes insns); [done..|].
        rewrite is_removed_complement. apply andb_false_iff. right. rewrite negb_false_iff.
        apply is_removed_spec, list_elem_of_In. by eapply list_elem_of_lookup_2. }
  destruct Hbest as [Hbest Hdel]. destruct (Hmin Hbud) as [Hone|Hmin']; [left; split; [lia|exact Hacc]|right].
  intros p Hp'. rewrite Hbest, Nat.mul_comm, Nat.div_mul in Hp' by done.
  destruct (lookup_lt_is_Some_2 keep p Hp') as [i Hi]. rewrite (Hdel p i Hi).
  specialize (Hmin' p Hp'). unfold dismissed in Hmin'.
  revert Hmin'. clear Hc.
  destruct (delete_insns _ _) as [b|[]]; [right; eauto|done|by left].
Qed.

Lemma ddmin_one_minimal_witness :
  exists best c', ddmin sets_r0_to_2 jeq_program (OracleCache.new 0) tt = (Returns best, c', tt) /\
    ((length best = 8%nat /\ OracleCache.results c' !! best = Some true) \/
     forall p, (p < length best / 8)%nat ->
       delete_insns best [p] = Err Refused \/
       exists b, delete_insns best [p] = Ok b /\ OracleCache.results c' !! b = Some false).
Proof.
  destruct (ddmin sets_r0_to_2 jeq_program (OracleCache.new 0) tt) as [[[best| | |] c'] []] eqn:E;
    try (vm_compute in E; discriminate E).
  exists best, c'. split; [reflexivity|].
  apply (ddmin_one_minimal sets_r0_to_2 jeq_program best jeq_insns (OracleCache.new 0) c' tt tt);
    [apply jeq_program_bytes|reflexivity| |exact E|simpl; lia|].
  - repeat constructor.
  - vm_compute in E. injection E as _ <-. reflexivity.
Defined.

(** The branch table of the deletion has no JSET, no JMP32 compare and no
    bpf-to-bpf call: their offset is left as it is, so after a deletion inside
    the jump they lead one instruction too far. *)
Theorem deletion_gaps :
  (* if r1 & 1 goto +1; r0 = 1; r0 = 2; exit, without r0 = 1: the jump now skips r0 = 2 *)
  delete_insns
    [0x45; 1; 1; 0; 1; 0; 0; 0;  0xb7; 0; 0; 0; 1; 0; 0; 0;  0xb7; 0; 0; 0; 2; 0; 0; 0;
     0x95; 0; 0; 0; 0; 0; 0; 0] [1%nat] =
  Ok [0x45; 1; 1; 0; 1; 0; 0; 0;  0xb7; 0; 0; 0; 2; 0; 0; 0;  0x95; 0; 0; 0; 0; 0; 0; 0] /\
  (* the same with a 32-bit compare, whose target is deleted without a refusal *)
  delete_insns
    [0x16; 1; 1; 0; 0; 0; 0; 0;  0xb7; 0; 0; 0; 1; 0; 0; 0;  0xb7; 0; 0; 0; 2; 0; 0; 0;
     0x95; 0; 0; 0; 0; 0; 0; 0] [2%nat] =
  Ok [0x16; 1; 1; 0; 0; 0; 0; 0;  0xb7; 0; 0; 0; 1; 0; 0; 0;  0x95; 0; 0; 0; 0; 0; 0; 0] /\
  (* a call of a function two instructions on, past a deleted instruction *)
  delete_insns
    [0x85; 0x10; 0; 0; 2; 0; 0; 0;  0xb7; 1; 0; 0; 1; 0; 0; 0;  0x95; 0; 0; 0; 0; 0; 0; 0;
     0x95; 0; 0; 0; 0; 0; 0; 0] [1%nat] =
  Ok [0x85; 0x10; 0; 0; 2; 0; 0; 0;  0x95; 0; 0; 0; 0; 0; 0; 0;  0x95; 0; 0; 0; 0; 0; 0; 0] /\
  (* half an ldimm64 is left, which does not decode *)
  (exists out e, delete_insns
    [0x18; 1; 0; 0; 7; 0; 0; 0;  0; 0; 0; 0; 0; 0; 0; 0;  0x95; 0; 0; 0; 0; 0; 0; 0] [1%nat] = Ok out /\
    decode_program out = Err e) /\
  (* the decoder reads opcode 0x99, the encoder panics on it *)
  delete_insns [0x99; 0x21; 0; 0; 0; 0; 0; 0;  0x95; 0; 0; 0; 0; 0; 0; 0] [1%nat] = Err EncodePanics /\
  (* one instruction is returned although the oracle rejects it *)
  fst (fst (ddmin (fun w _ => (false, w)) [0x95; 0; 0; 0; 0; 0; 0; 0] (OracleCache.new 0) tt)) =
    Returns [0x95; 0; 0; 0; 0; 0; 0; 0].
Proof.
  split; [vm_compute; reflexivity|]. split; [vm_compute; reflexivity|]. split; [vm_compute; reflexivity|].
  split; [|split; vm_compute; reflexivity].
  do 2 eexists. split; [vm_compute; reflexivity|vm_compute; reflexivity].
Qed.
