(* ===== verification/ReducePasses.v ===== *)
(** The structural passes of the testcase reducer
    (src/src/fuzz/reduce/passes.rs): successors in the decoded control-flow
    graph, forward and backward reachability, dead-code elimination, the
    backward slice to the failing instruction and the simplification of branches
    with a dead side.  The theorems: both traversals compute reachability in the
    graph they follow exactly, dead-code elimination preserves that graph on what is
    reachable and leaves nothing unreachable, and the slice keeps every instruction
    that can lead to the failure; the graph is the control-flow graph of programs
    without JSET, 32-bit compares and bpf-to-bpf calls. *)
From Stdlib Require Import ZArith Lia List Bool String.
From stdpp Require Import base list relations.
From S2P Require Import Prelude Insn Liveness Reduce.
Open Scope Z_scope.

(** * The decoded control-flow graph *)

(** A branch target, when it is inside the program. *)
Definition target_in (len pc : nat) (offset : Z) : list nat :=
  let target := Z.of_nat pc + 1 + offset in
  if (0 <=? target) && (target <? Z.of_nat len) then [Z.to_nat target] else [].

Definition fall_through (len pc : nat) : list nat :=
  if (pc + 1 <? len)%nat then [(pc + 1)%nat] else [].

(** [successors]; its callers index inside the program. *)
Definition successors (insns : list BpfInsn) (pc : nat) : list nat :=
  let len := length insns in
  match insns !! pc with
  | None => []
  | Some BpfInsn.Exit => []
  | Some (BpfInsn.Jmp offset) => target_in len pc offset
  | Some insn =>
      if is_conditional_branch insn then
        fall_through len pc ++
        match branch_offset insn with
        | Some offset => target_in len pc offset
        | None => []
        end
      else fall_through len pc
  end.

(** The worklist loop of both traversals: the stack's top is the head of the
    list, and [next] lists what is pushed for an instruction, in push order.
    The fuel suffices (see [explore_exact]). *)
Fixpoint explore (next : nat -> list nat) (fuel : nat) (stack : list nat) (seen : list bool)
  : list bool :=
  match fuel, stack with
  | O, _ | _, [] => seen
  | S fuel', pc :: rest =>
      match seen !! pc with
      | Some false => explore next fuel' (rev (next pc) ++ rest) (<[pc := true]> seen)
      | _ => explore next fuel' rest seen
      end
  end.

(** Every instruction's pushes, and the entry. *)
Definition explore_fuel (next : nat -> list nat) (len : nat) : nat :=
  (2 + list_sum (map (fun pc => length (next pc)) (seq 0 len)))%nat.

Definition edge_eqb (e : option (nat * nat)) (pc next : nat) : bool :=
  match e with Some (a, b) => (a =? pc)%nat && (b =? next)%nat | None => false end.

(** The successors [reachable] pushes. *)
Definition kept_successors (insns : list BpfInsn) (skip_edge : option (nat * nat)) (pc : nat) : list nat :=
  filter (fun next => (next <? length insns)%nat && negb (edge_eqb skip_edge pc next) = true)
    (successors insns pc).

Definition reachable (insns : list BpfInsn) (skip_edge : option (nat * nat)) : list bool :=
  let seen := replicate (length insns) false in
  match insns with
  | [] => seen
  | _ =>
      let next := kept_successors insns skip_edge in
      explore next (explore_fuel next (length insns)) [0%nat] seen
  end.

(** The predecessors of an instruction: the entry of the table built by the
    first loop of [backward_reachable]. *)
Definition preds (insns : list BpfInsn) (v : nat) : list nat :=
  flat_map (fun pc => map (fun _ => pc) (filter (fun next => next = v) (successors insns pc)))
    (seq 0 (length insns)).

Definition backward_reachable (insns : list BpfInsn) (anchor : nat) : list bool :=
  let next := preds insns in
  explore next (explore_fuel next (length insns)) [anchor] (replicate (length insns) false).

(** * The passes *)

Definition decode (bytes : list Z) : option (list BpfInsn) :=
  if (length bytes =? 0)%nat || negb (Nat.modulo (length bytes) 8 =? 0)%nat then None
  else match decode_program bytes with Ok insns => Some insns | Err _ => None end.

(** [(0..len).filter(|&i| !marks[i])]. *)
Definition unmarked (len : nat) (marks : list bool) : list nat :=
  filter (fun i => marks !! i = Some false) (seq 0 len).

(** [Err Refused] is the code's [None]. *)
Definition dead_code (bytes : list Z) : result NoDeletion (list Z) :=
  match decode bytes with
  | None => Err Refused
  | Some insns =>
      let remove := unmarked (length insns) (reachable insns None) in
      match remove with
      | [] => Err Refused
      | _ => delete_insns bytes remove
      end
  end.

Definition is_exit (insn : BpfInsn) : bool :=
  match insn with BpfInsn.Exit => true | _ => false end.

Definition slice_to_anchor (bytes : list Z) (anchor : option nat) : result NoDeletion (list Z) :=
  match decode bytes, anchor with
  | Some insns, Some anchor =>
      if (length insns <=? anchor)%nat then Err Refused
      else
        let keep := zip_with (fun insn k => is_exit insn || k) insns (backward_reachable insns anchor) in
        let remove := unmarked (length insns) keep in
        match remove with
        | [] => Err Refused
        | _ => delete_insns bytes remove
        end
  | _, _ => Err Refused
  end.

(** The candidates of the conditional branch at [pc]; [None] where [encode]
    panics. *)
Definition simplify_at (bytes : list Z) (insns : list BpfInsn) (pc : nat) (insn : BpfInsn)
  : option (list (list Z)) :=
  if negb (is_conditional_branch insn) then Some []
  else
    let fall := (pc + 1)%nat in
    match branch_offset insn with
    | None => Some []
    | Some offset =>
        let target := Z.of_nat pc + 1 + offset in
        if (target <? 0) || (Z.of_nat (length insns) <=? target) then Some []
        else
          let target := Z.to_nat target in
          let dead_fall :=
            (fall <? length insns)%nat &&
            bool_decide (reachable insns (Some (pc, fall)) !! fall = Some false) in
          let first :=
            if dead_fall then
              match encode_program (<[pc := BpfInsn.Jmp offset]> insns) with
              | Some out => Some [out]
              | None => None
              end
            else Some [] in
          let second :=
            if bool_decide (reachable insns (Some (pc, target)) !! target = Some false) then
              match delete_insns bytes [pc] with
              | Ok out => Some [out]
              | Err Refused => Some []
              | Err EncodePanics => None
              end
            else Some [] in
          match first, second with
          | Some a, Some b => Some (a ++ b)
          | _, _ => None
          end
    end.

Fixpoint simplify_from (bytes : list Z) (insns : list BpfInsn) (pc : nat) (rest : list BpfInsn)
  : option (list (list Z)) :=
  match rest with
  | [] => Some []
  | insn :: rest' =>
      match simplify_at bytes insns pc insn, simplify_from bytes insns (S pc) rest' with
      | Some a, Some b => Some (a ++ b)
      | _, _ => None
      end
  end.

Definition simplify_dead_side (bytes : list Z) : option (list (list Z)) :=
  match decode bytes with
  | None => Some []
  | Some insns => simplify_from bytes insns 0 insns
  end.

(** * The traversals are exact *)

Definition marked (seen : list bool) (v : nat) : Prop := seen !! v = Some true.

(** The pushes still to come: of the instructions not seen yet. *)
Definition pending (next : nat -> list nat) (seen : list bool) : nat :=
  list_sum (map (fun pc => if bool_decide (seen !! pc = Some false) then length (next pc) else 0%nat)
                (seq 0 (length seen))).

Lemma list_sum_update (f g : nat -> nat) n pc :
  (pc < n)%nat -> (forall i, i <> pc -> f i = g i) ->
  (list_sum (map f (seq 0 n)) + g pc = list_sum (map g (seq 0 n)) + f pc)%nat.
Proof.
  intros Hpc Hfg. induction n as [|n IH]; [lia|].
  rewrite seq_S, !map_app, !list_sum_app. cbn [map list_sum fold_right Nat.add].
  destruct (decide (pc = n)) as [->|Hne].
  - assert (map f (seq 0 n) = map g (seq 0 n)) as ->; [|lia].
    apply map_ext_in. intros i Hi%in_seq. apply Hfg. lia.
  - rewrite (Hfg n) by lia. specialize (IH ltac:(lia)). lia.
Qed.

Lemma pending_mark next seen pc :
  seen !! pc = Some false ->
  (pending next (<[pc := true]> seen) + length (next pc) = pending next seen)%nat.
Proof.
  intros Hpc. unfold pending. rewrite length_insert.
  pose proof (list_sum_update
    (fun i => if bool_decide (<[pc := true]> seen !! i = Some false) then length (next i) else 0%nat)
    (fun i => if bool_decide (seen !! i = Some false) then length (next i) else 0%nat)
    (length seen) pc ltac:(by eapply lookup_lt_Some)) as H.
  cbn beta in H. rewrite Hpc, bool_decide_true in H by done.
  rewrite list_lookup_insert_eq, bool_decide_false in H by (done || by eapply lookup_lt_Some).
  rewrite Nat.add_0_r in H. apply H. intros i Hi. by rewrite list_lookup_insert_ne.
Qed.

(** Everything pushed for a marked instruction is marked or on the stack. *)
Definition closed_upto (next : nat -> list nat) (stack : list nat) (seen : list bool) : Prop :=
  forall u v, marked seen u -> v ∈ next u -> (v < length seen)%nat -> marked seen v \/ v ∈ stack.

Lemma marked_insert seen pc v :
  (pc < length seen)%nat -> marked (<[pc := true]> seen) v <-> v = pc \/ marked seen v.
Proof.
  intros Hpc. unfold marked. destruct (decide (v = pc)) as [->|Hne].
  - rewrite list_lookup_insert_eq by done. tauto.
  - rewrite list_lookup_insert_ne by done. tauto.
Qed.

Lemma explore_spec next (P : nat -> Prop) fuel stack seen :
  (length stack + pending next seen < fuel)%nat ->
  (forall u v, P u -> v ∈ next u -> (v < length seen)%nat -> P v) ->
  (forall u, marked seen u -> P u) -> (forall u, u ∈ stack -> (u < length seen)%nat -> P u) ->
  closed_upto next stack seen ->
  let seen' := explore next fuel stack seen in
  length seen' = length seen /\
  (forall u, marked seen u \/ u ∈ stack /\ (u < length seen)%nat -> marked seen' u) /\
  (forall u v, marked seen' u -> v ∈ next u -> (v < length seen)%nat -> marked seen' v) /\
  (forall u, marked seen' u -> P u).
Proof.
  intros Hf HP. revert stack seen Hf HP. induction fuel as [|fuel IH]; intros stack seen Hf HP Hm Hst Hcl;
    [lia|]. cbn [explore]. destruct stack as [|pc rest].
  { split_and!; [done|..|done].
    - intros u [?|[?%not_elem_of_nil _]]; done.
    - intros u v Hu Hv Hl. destruct (Hcl u v Hu Hv Hl) as [?|?%not_elem_of_nil]; done. }
  assert (Hskip : seen !! pc <> Some false ->
    let seen' := explore next fuel rest seen in
    length seen' = length seen /\
    (forall u, marked seen u \/ u ∈ pc :: rest /\ (u < length seen)%nat -> marked seen' u) /\
    (forall u v, marked seen' u -> v ∈ next u -> (v < length seen)%nat -> marked seen' v) /\
    (forall u, marked seen' u -> P u)).
  { intros Hne. assert (Hpc : (pc < length seen)%nat -> marked seen pc).
    { intros Hl. destruct (lookup_lt_is_Some_2 seen pc Hl) as [[] Hb]; [done|congruence]. }
    destruct (IH rest seen) as (H1 & H2 & H3 & H4); [simpl in Hf; lia|done..| | |].
    - intros u Hu. by apply Hst, list_elem_of_further.
    - intros u v Hu Hv Hl. destruct (Hcl u v Hu Hv Hl) as [?|[->|?]%elem_of_cons]; auto.
    - split_and!; [done| |done..]. intros u [?|[[->|?]%elem_of_cons ?]]; auto. }
  destruct (seen !! pc) as [[]|] eqn:Hpc; try (apply Hskip; congruence). clear Hskip.
  pose proof (lookup_lt_Some _ _ _ Hpc) as Hlt. pose proof (pending_mark next seen pc Hpc) as Hp.
  destruct (IH (rev (next pc) ++ rest) (<[pc := true]> seen)) as (H1 & H2 & H3 & H4).
  - rewrite length_app, length_rev. simpl in Hf. lia.
  - rewrite length_insert. done.
  - intros u [->|?]%marked_insert; [|auto|done]. apply Hst; [by apply list_elem_of_here|done].
  - rewrite length_insert. intros u [Hu|Hu]%elem_of_app Hl.
    + apply list_elem_of_In, in_rev, list_elem_of_In in Hu. apply (HP pc); [|done..].
      apply Hst; [by apply list_elem_of_here|done].
    + by apply Hst; [apply list_elem_of_further|].
  - intros u v Hu Hv Hl. rewrite length_insert in Hl. rewrite elem_of_app, marked_insert by done.
    apply marked_insert in Hu as [->|Hu]; [| |done].
    + right. left. apply list_elem_of_In. rewrite <- in_rev. by apply list_elem_of_In.
    + destruct (Hcl u v Hu Hv Hl) as [?|[->|?]%elem_of_cons]; auto.
  - rewrite length_insert in *. split_and!; [done| |done..].
    intros u Hu. apply H2. rewrite marked_insert, elem_of_app by done.
    destruct Hu as [?|[[->|?]%elem_of_cons ?]]; auto.
Qed.

(** One traversal step inside the program. *)
Definition edge (next : nat -> list nat) (len : nat) (u v : nat) : Prop := v ∈ next u /\ (v < len)%nat.

Lemma explore_exact next len start :
  (start < len)%nat ->
  let seen := explore next (explore_fuel next len) [start] (replicate len false) in
  length seen = len /\ forall v, marked seen v <-> rtc (edge next len) start v.
Proof.
  intros Hs. assert (Hnone : forall u, ~ marked (replicate len false) u).
  { intros u Hu. unfold marked in Hu. apply lookup_replicate in Hu as [? _]. done. }
  destruct (explore_spec next (rtc (edge next len) start) (explore_fuel next len) [start] (replicate len false))
    as (Hl & Hsub & Hcl & HP); rewrite ?length_replicate in *.
  - unfold explore_fuel, pending. rewrite length_replicate. cbn [length].
    assert (forall l, (list_sum (map (fun pc => if bool_decide (replicate len false !! pc = Some false)
      then length (next pc) else 0) l) <= list_sum (map (fun pc => length (next pc)) l))%nat) as H.
    { induction l as [|x l IHl]; [done|]. cbn [map list_sum fold_right] in *. unfold list_sum in *.
      case_bool_decide; lia. }
    specialize (H (seq 0 len)). lia.
  - intros u v Hu Hv Hlv. eapply rtc_r; [exact Hu|]. by split.
  - intros u Hu. by destruct (Hnone u).
  - intros u ->%list_elem_of_singleton _. reflexivity.
  - intros u v Hu. by destruct (Hnone u).
  - split; [done|]. intros v. split; [apply HP|].
    assert (Hstart : marked (explore next (explore_fuel next len) [start] (replicate len false)) start)
      by (apply Hsub; right; split; [by apply list_elem_of_singleton|done]).
    revert Hcl Hstart. clear. generalize (explore next (explore_fuel next len) [start] (replicate len false)) as s.
    intros s Hcl Hstart H. revert Hstart. induction H as [|u v w [Huv Hlv] _ IH]; [done|].
    intros Hu. apply IH. by eapply Hcl.
Qed.

(** The edges [reachable] follows. *)
Definition follows (insns : list BpfInsn) (skip_edge : option (nat * nat)) (u v : nat) : Prop :=
  v ∈ successors insns u /\ skip_edge <> Some (u, v).

Lemma target_in_lt len pc offset v : v ∈ target_in len pc offset -> (v < len)%nat.
Proof.
  unfold target_in. destruct (_ && _) eqn:E; [|by intros ?%not_elem_of_nil].
  intros ->%list_elem_of_singleton. rewrite andb_true_iff, Z.ltb_lt, Z.leb_le in E. lia.
Qed.

Lemma fall_through_lt len pc v : v ∈ fall_through len pc -> v = (pc + 1)%nat /\ (v < len)%nat.
Proof.
  unfold fall_through. destruct (Nat.ltb_spec (pc + 1) len); [|by intros ?%not_elem_of_nil].
  by intros ->%list_elem_of_singleton.
Qed.

Lemma successors_lt insns u v : v ∈ successors insns u -> (v < length insns)%nat.
Proof.
  unfold successors. destruct (insns !! u) as [insn|]; [|by intros ?%not_elem_of_nil].
  assert (v ∈ (if is_conditional_branch insn then fall_through (length insns) u ++
    match branch_offset insn with Some offset => target_in (length insns) u offset | None => [] end
    else fall_through (length insns) u) -> (v < length insns)%nat) as Hgen.
  { destruct is_conditional_branch; [|by intros [_ ?]%fall_through_lt].
    intros [[_ ?]%fall_through_lt|H]%elem_of_app; [done|].
    destruct (branch_offset insn); [by eapply target_in_lt|by apply not_elem_of_nil in H]. }
  destruct insn; try exact Hgen; [by apply target_in_lt|by intros ?%not_elem_of_nil].
Qed.

Lemma edge_eqb_spec e u v : edge_eqb e u v = true <-> e = Some (u, v).
Proof.
  destruct e as [[a b]|]; cbn; [|done]. rewrite andb_true_iff, !Nat.eqb_eq.
  split; [by intros [-> ->]|by intros [= -> ->]].
Qed.

Lemma kept_successors_spec insns skip_edge u v :
  edge (kept_successors insns skip_edge) (length insns) u v <-> follows insns skip_edge u v.
Proof.
  unfold edge, follows, kept_successors. rewrite list_elem_of_filter, andb_true_iff, Nat.ltb_lt,
    negb_true_iff, <- not_true_iff_false, edge_eqb_spec.
  pose proof (successors_lt insns u v). tauto.
Qed.

(** Control can pass from [u] to [v]. *)
Definition flows (insns : list BpfInsn) (u v : nat) : Prop := v ∈ successors insns u.

Lemma rtc_same {A} (R S : A -> A -> Prop) x y :
  (forall u v, R u v <-> S u v) -> rtc R x y <-> rtc S x y.
Proof. intros H. split; apply rtc_subrel; intros u v Huv; by apply H. Qed.

Lemma reachable_spec insns skip_edge :
  length (reachable insns skip_edge) = length insns /\
  (insns <> [] -> forall v, marked (reachable insns skip_edge) v <-> rtc (follows insns skip_edge) 0%nat v).
Proof.
  destruct insns as [|insn insns]; [done|]. unfold reachable.
  destruct (explore_exact (kept_successors (insn :: insns) skip_edge) (length (insn :: insns)) 0)
    as [Hl Hm]; [simpl; lia|]. split; [done|]. intros _ v. rewrite Hm.
  apply rtc_same. apply kept_successors_spec.
Qed.

Lemma preds_spec insns u v : v ∈ preds insns u <-> flows insns v u.
Proof.
  unfold preds, flows. rewrite list_elem_of_In, in_flat_map. split.
  - intros (pc & _ & Hin). apply in_map_iff in Hin as (w & -> & Hw).
    apply list_elem_of_In, list_elem_of_filter in Hw as [-> Hw]. done.
  - intros Hu. exists v. split.
    + apply in_seq. unfold successors in Hu. destruct (insns !! v) eqn:E; [|by apply not_elem_of_nil in Hu].
      apply lookup_lt_Some in E. lia.
    + apply in_map_iff. exists u. split; [done|]. by apply list_elem_of_In, list_elem_of_filter.
Qed.

Lemma flows_lt insns u v : flows insns u v -> (u < length insns)%nat /\ (v < length insns)%nat.
Proof.
  intros H. split; [|by eapply successors_lt]. unfold flows, successors in H.
  destruct (insns !! u) eqn:E; [by eapply lookup_lt_Some|by apply not_elem_of_nil in H].
Qed.

Lemma backward_reachable_spec insns anchor :
  (anchor < length insns)%nat ->
  length (backward_reachable insns anchor) = length insns /\
  forall v, marked (backward_reachable insns anchor) v <-> rtc (flows insns) v anchor.
Proof.
  intros Ha. destruct (explore_exact (preds insns) (length insns) anchor Ha) as [Hl Hm].
  split; [done|]. intros v. unfold backward_reachable. rewrite Hm.
  transitivity (rtc (flip (flows insns)) anchor v).
  - apply rtc_same. intros a b. unfold edge, flip. rewrite preds_spec.
    split; [tauto|]. intros H. split; [done|]. exact (proj1 (flows_lt insns b a H)).
  - split.
    + clear. intros H. induction H as [|a b c Hab _ IH]; [done|]. exact (rtc_r _ _ _ IH Hab).
    + clear. intros H. induction H as [|a b c Hab _ IH]; [done|]. exact (rtc_r _ _ _ IH Hab).
Qed.

(** Both traversals of the reducer are exact and terminate: forward
    reachability marks exactly the instructions to which control can pass from
    the entry without the skipped edge, backward reachability exactly those from
    which it can pass to the anchor. *)
Theorem reachability_exact (insns : list BpfInsn) (skip_edge : option (nat * nat)) (anchor : nat) :
  (anchor < length insns)%nat ->
  (forall v, reachable insns skip_edge !! v = Some true <->
     rtc (fun u v => flows insns u v /\ skip_edge <> Some (u, v)) 0%nat v) /\
  (forall v, backward_reachable insns anchor !! v = Some true <-> rtc (flows insns) v anchor) /\
  length (reachable insns skip_edge) = length insns /\
  length (backward_reachable insns anchor) = length insns.
Proof.
  intros Ha. destruct (reachable_spec insns skip_edge) as [Hl Hr].
  destruct (backward_reachable_spec insns anchor Ha) as [Hlb Hb].
  split_and!; [|exact Hb|done..]. apply Hr. by intros ->; simpl in Ha; lia.
Qed.

Lemma reachability_exact_witness :
  reachable [BpfInsn.Jmp 1; BpfInsn.MovImm 1 5; BpfInsn.Exit] None = [true; false; true] /\
  length (backward_reachable [BpfInsn.Jmp 1; BpfInsn.MovImm 1 5; BpfInsn.Exit] 2) = 3%nat.
Proof.
  split; [reflexivity|].
  apply (reachability_exact [BpfInsn.Jmp 1; BpfInsn.MovImm 1 5; BpfInsn.Exit] None 2). simpl. lia.
Defined.

(** * Dead code *)

Lemma decode_ok bytes insns :
  Forall is_byte bytes -> bytes <> [] -> decode_program bytes = Ok insns ->
  decode bytes = Some insns /\ insns <> [].
Proof.
  intros Hb Hne Hd. destruct (decoded_program_slots bytes insns Hb Hd) as [Hlen _].
  unfold decode. rewrite Hd, Hlen, (Nat.mul_comm 8), Nat.Div0.mod_mul.
  destruct insns; [destruct bytes; [done|simpl in Hlen; lia]|]. done.
Qed.

Lemma is_removed_unmarked len marks v :
  length marks = len -> is_removed (unmarked len marks) v = false <-> marked marks v \/ (len <= v)%nat.
Proof.
  intros Hl. rewrite <- not_true_iff_false, is_removed_spec, <- list_elem_of_In. unfold unmarked, marked.
  rewrite list_elem_of_filter, elem_of_seq. destruct (decide (v < len)%nat) as [Hv|Hv]; [|intuition lia].
  destruct (lookup_lt_is_Some_2 marks v) as [[] Hm]; [lia|..]; rewrite Hm;
    (split; [intros H; left|intros [?|?]; [|lia]]); try done; try (intros [? _]; done).
  exfalso. apply H. split; [done|lia].
Qed.

(** Control enters the second slot of an ldimm64 only from its first. *)
Definition no_jump_inside (insns : list BpfInsn) : Prop :=
  forall u k hi, insns !! S k = Some (BpfInsn.LdImm64Second hi) -> flows insns u (S k) -> u = k.

Lemma second_slot_first insns :
  program_wf insns = true ->
  (forall hi, insns !! 0%nat <> Some (BpfInsn.LdImm64Second hi)) /\
  forall k hi, insns !! S k = Some (BpfInsn.LdImm64Second hi) ->
  exists first, insns !! k = Some first /\ ldimm64_pair first hi = true.
Proof.
  revert insns. refine (program_wf_ind _ _ _ _); [done|..].
  - intros first rest Hf _ [IH0 IH]. split.
    + intros hi [= ->]. unfold insn_wf in Hf. cbn in Hf. by rewrite andb_false_r in Hf.
    + intros [|k] hi Hk; [by destruct (IH0 hi)|]. by apply IH.
  - intros first hi rest Hp _ [IH0 IH]. split.
    + intros hi' [= ->]. unfold ldimm64_pair in Hp. by rewrite andb_false_r in Hp.
    + intros [|[|k]] hi' Hk; cbn in *.
      * injection Hk as ->. eauto.
      * by destruct (IH0 hi').
      * by apply IH.
Qed.

Lemma pair_falls_through insns k first hi :
  insns !! k = Some first -> ldimm64_pair first hi = true -> (S k < length insns)%nat ->
  flows insns k (S k).
Proof.
  intros Hk Hp Hl. unfold flows, successors. rewrite Hk.
  replace (S k) with (k + 1)%nat in * by lia.
  assert ((k + 1)%nat ∈ fall_through (length insns) k) as H.
  { unfold fall_through. rewrite (proj2 (Nat.ltb_lt _ _)) by done. by apply list_elem_of_singleton. }
  unfold ldimm64_pair in Hp. apply andb_true_iff in Hp as [_ Hp]. by destruct first.
Qed.

Lemma rtc_last {A} (R : A -> A -> Prop) x y : rtc R x y -> x = y \/ exists u, rtc R x u /\ R u y.
Proof. intros H%rtc_inv_r. destruct H as [?|(u & ? & ?)]; eauto. Qed.

Lemma dead_code_keeps_pairs insns :
  program_wf insns = true -> no_jump_inside insns ->
  keeps_pairs (unmarked (length insns) (reachable insns None)) 0 insns.
Proof.
  intros Hw Hj k hi Hk. cbn [Nat.add]. destruct (reachable_spec insns None) as [Hl Hr].
  destruct (second_slot_first insns Hw) as [_ Hs]. destruct (Hs k hi Hk) as (first & Hf & Hp).
  pose proof (lookup_lt_Some _ _ _ Hk) as Hlt.
  assert (Hflow : flows insns k (S k)) by (by eapply pair_falls_through).
  enough (is_removed (unmarked (length insns) (reachable insns None)) k = false <->
    is_removed (unmarked (length insns) (reachable insns None)) (S k) = false) as H
    by (destruct (is_removed _ k), (is_removed _ (S k)); intuition congruence).
  rewrite !is_removed_unmarked by done. rewrite !Hr by (by intros ->).
  assert (Hsame : forall u v, follows insns None u v <-> flows insns u v)
    by (intros u v; unfold follows, flows; split; [tauto|by split]).
  rewrite !(rtc_same _ _ _ _ Hsame). split.
  - intros [H|H]; [left|lia]. by eapply rtc_r.
  - intros [H|H]; [left|lia]. apply rtc_last in H as [?|(u & Hu & Hus)]; [done|].
    by rewrite (Hj u k hi Hk Hus) in Hu.
Qed.

(** * What a deletion of unreachable code preserves *)

Lemma rank_surj remove n j :
  (j < rank remove n)%nat -> exists i, (i < n)%nat /\ is_removed remove i = false /\ rank remove i = j.
Proof.
  induction n as [|n IH]; [by cbn; lia|]. rewrite rank_S. intros Hj.
  destruct (is_removed remove n) eqn:E; [destruct IH as (i & ? & ? & ?); [lia|]; exists i; split_and!; lia || done|].
  destruct (decide (j = rank remove n)) as [->|Hne]; [exists n; split_and!; lia || done|].
  destruct IH as (i & ? & ? & ?); [lia|]. exists i. split_and!; lia || done.
Qed.

(** The fall-through of a surviving instruction whose fall-through survives. *)
Lemma fall_through_moved remove len pc :
  (pc < len)%nat -> is_removed remove pc = false ->
  (forall v, v ∈ fall_through len pc -> is_removed remove v = false) ->
  fall_through (rank remove len) (rank remove pc) = map (rank remove) (fall_through len pc).
Proof.
  intros Hpc Hk Hf. unfold fall_through in *. pose proof (rank_S remove pc) as Hr. rewrite Hk in Hr.
  replace (S pc) with (pc + 1)%nat in Hr by lia.
  destruct (Nat.ltb_spec (pc + 1) len) as [Hl|Hl].
  - specialize (Hf (pc + 1)%nat ltac:(by apply list_elem_of_singleton)).
    pose proof (proj2 (rank_lt remove (pc + 1) len Hf) Hl).
    rewrite (proj2 (Nat.ltb_lt _ _)) by lia. cbn. by rewrite Hr.
  - replace len with (pc + 1)%nat by lia. rewrite Hr.
    by rewrite (proj2 (Nat.ltb_ge _ _)) by lia.
Qed.

Lemma target_in_moved remove len pc t :
  (t < len)%nat -> is_removed remove t = false ->
  target_in (rank remove len) (rank remove pc) (Z.of_nat (rank remove t) - Z.of_nat (rank remove pc) - 1) =
  map (rank remove) (target_in len pc (Z.of_nat t - Z.of_nat pc - 1)).
Proof.
  intros Ht Hk. unfold target_in. pose proof (proj2 (rank_lt remove t len Hk) Ht).
  replace (Z.of_nat (rank remove pc) + 1 + (Z.of_nat (rank remove t) - Z.of_nat (rank remove pc) - 1))
    with (Z.of_nat (rank remove t)) by lia.
  replace (Z.of_nat pc + 1 + (Z.of_nat t - Z.of_nat pc - 1)) with (Z.of_nat t) by lia.
  rewrite !(proj2 (Z.leb_le _ _)) by lia. rewrite !(proj2 (Z.ltb_lt _ _)) by lia.
  cbn. by rewrite !Nat2Z.id.
Qed.

(** Whether control can pass to the next instruction. *)
Definition falls (insn : BpfInsn) : bool :=
  match insn with BpfInsn.Exit | BpfInsn.Jmp _ => false | _ => true end.

Lemma successors_eq insns pc insn :
  insns !! pc = Some insn ->
  successors insns pc =
  (if falls insn then fall_through (length insns) pc else []) ++
  match branch_offset insn with Some off => target_in (length insns) pc off | None => [] end.
Proof. intros H. unfold successors. rewrite H. destruct insn; cbn; by rewrite ?app_nil_r. Qed.

Lemma falls_with_offset insn off : falls (with_offset insn off) = falls insn.
Proof. by destruct insn. Qed.

Lemma successors_moved insns insns' remove pc insn insn' :
  length insns' = rank remove (length insns) ->
  insns !! pc = Some insn -> insns' !! rank remove pc = Some insn' ->
  is_removed remove pc = false ->
  (forall v, flows insns pc v -> is_removed remove v = false) ->
  match branch_offset insn with
  | None => insn' = insn
  | Some off =>
      exists t : nat, Z.of_nat t = Z.of_nat pc + 1 + off /\ (t < length insns)%nat /\
        is_removed remove t = false /\
        insn' = with_offset insn (Z.of_nat (rank remove t) - Z.of_nat (rank remove pc) - 1) /\
        branch_offset insn' = Some (Z.of_nat (rank remove t) - Z.of_nat (rank remove pc) - 1)
  end ->
  with_offset insn' 0 = with_offset insn 0 /\
  successors insns' (rank remove pc) = map (rank remove) (successors insns pc).
Proof.
  intros Hl Hpc Hpc' Hk Hflow Hb. pose proof (lookup_lt_Some _ _ _ Hpc) as Hlt.
  unfold flows in Hflow. rewrite (successors_eq insns pc insn Hpc) in *.
  rewrite (successors_eq insns' _ insn' Hpc'), Hl, map_app. setoid_rewrite elem_of_app in Hflow.
  assert (falls insn' = falls insn /\ with_offset insn' 0 = with_offset insn 0) as [-> Hw].
  { destruct (branch_offset insn); [|by subst]. destruct Hb as (t & _ & _ & _ & -> & _).
    by rewrite falls_with_offset, with_offset_twice. }
  split; [done|]. f_equal.
  - destruct (falls insn); [|done]. apply fall_through_moved; [done..|]. intros v Hv. apply Hflow. by left.
  - destruct (branch_offset insn) as [off|] eqn:Ebo.
    + destruct Hb as (t & Ht & Hlt' & Hkt & _ & ->). rewrite target_in_moved by done.
      by replace (Z.of_nat t - Z.of_nat pc - 1) with off by lia.
    + subst insn'. by rewrite Ebo.
Qed.

Lemma follows_none insns u v : follows insns None u v <-> flows insns u v.
Proof. unfold follows, flows. split; [tauto|by split]. Qed.

(** The survivors of dead-code elimination are what is reachable. *)
Lemma dead_code_survivors insns pc :
  insns <> [] -> (pc < length insns)%nat ->
  is_removed (unmarked (length insns) (reachable insns None)) pc = false <-> rtc (flows insns) 0%nat pc.
Proof.
  intros Hne Hpc. destruct (reachable_spec insns None) as [Hl Hr].
  rewrite is_removed_unmarked, (Hr Hne), (rtc_same _ _ _ _ (follows_none insns)) by done.
  intuition lia.
Qed.

Lemma dead_code_deletes bytes insns out :
  decode bytes = Some insns -> dead_code bytes = Ok out ->
  delete_insns bytes (unmarked (length insns) (reachable insns None)) = Ok out.
Proof.
  intros Hd. unfold dead_code. rewrite Hd. by destruct (unmarked _ _) eqn:E.
Qed.

Lemma dead_code_graph bytes out insns :
  Forall is_byte bytes -> decode_program bytes = Ok insns ->
  existsb is_wide_sign_load insns = false -> no_jump_inside insns ->
  dead_code bytes = Ok out ->
  let new := rank (unmarked (length insns) (reachable insns None)) in
  exists insns', decode_program out = Ok insns' /\
    (forall pc insn, insns !! pc = Some insn -> rtc (flows insns) 0%nat pc ->
       exists insn', insns' !! new pc = Some insn' /\ with_offset insn' 0 = with_offset insn 0 /\
         successors insns' (new pc) = map new (successors insns pc)) /\
    (forall pc', (pc' < length insns')%nat -> rtc (flows insns') 0%nat pc').
Proof.
  intros Hb Hd Hw Hj Hdc new.
  assert (bytes <> []) as Hne by (intros ->; discriminate Hdc).
  destruct (decode_ok bytes insns Hb Hne Hd) as [Hdec Hne'].
  destruct (decoded_program_slots bytes insns Hb Hd) as [_ Hwf].
  pose proof (dead_code_deletes bytes insns out Hdec Hdc) as Hdel.
  destruct (deletion_moves_branches bytes out insns _ Hb Hd Hw (dead_code_keeps_pairs insns (Hwf Hw) Hj) Hdel)
    as (insns' & Hd' & Hl' & Hmv). exists insns'. split; [done|].
  assert (Hgraph : forall pc insn, insns !! pc = Some insn -> rtc (flows insns) 0%nat pc ->
    exists insn', insns' !! new pc = Some insn' /\ with_offset insn' 0 = with_offset insn 0 /\
      successors insns' (new pc) = map new (successors insns pc)).
  { intros pc insn Hpc Hreach. pose proof (lookup_lt_Some _ _ _ Hpc) as Hlt.
    pose proof (proj2 (dead_code_survivors insns pc Hne' Hlt) Hreach) as Hk.
    destruct (Hmv pc insn Hpc Hk) as (insn' & Hi' & Hbo). exists insn'. split; [done|].
    apply (successors_moved insns insns' _ pc insn insn'); try done.
    intros v Hv. apply dead_code_survivors; [done|by apply (flows_lt insns pc v)|]. by eapply rtc_r. }
  split; [done|]. intros pc' Hpc'. rewrite Hl' in Hpc'.
  destruct (rank_surj _ _ _ Hpc') as (pc & Hlt & Hk & <-).
  apply dead_code_survivors in Hk; [|done..].
  change 0%nat with (new 0%nat). fold (new pc).
  revert Hgraph Hk. clear. intros Hgraph Hk. revert pc Hk. apply rtc_ind_r; [reflexivity|].
  intros u v Hu Huv IH. eapply rtc_r; [exact IH|]. destruct (flows_lt insns u v Huv) as [Hlt _].
  destruct (lookup_lt_is_Some_2 insns u Hlt) as [insn Hi]. destruct (Hgraph u insn Hi Hu) as (_ & _ & _ & Hs).
  unfold flows in *. rewrite Hs. apply list_elem_of_In, in_map, list_elem_of_In, Huv.
Qed.

(** The transfers of control the passes follow; the others are taken for straight
    code. *)
Definition followed (insn : BpfInsn) : bool :=
  match insn with
  | BpfInsn.Jset _ _ _ | BpfInsn.JsetImm _ _ _ | BpfInsn.Jmp32 _ _ _ _ _ | BpfInsn.CallSub _ => false
  | _ => true
  end.

Lemma followed_no_calls insns : forallb followed insns = true -> call_sites insns = [].
Proof.
  intros H. destruct (call_sites insns) as [|site l] eqn:E; [done|].
  assert (site ∈ call_sites insns) as (off & Hc & _)%call_sites_spec by (rewrite E; apply list_elem_of_here).
  apply list_elem_of_lookup_2, list_elem_of_In in Hc. apply (proj1 (forallb_forall _ _) H) in Hc. discriminate Hc.
Qed.

Lemma followed_successors insns pc : forallb followed insns = true -> successors insns pc = static_successors pc insns.
Proof.
  intros H. pose proof (followed_no_calls insns H) as Hc. unfold successors, static_successors.
  destruct (insns !! pc) as [insn|] eqn:Hi; [|done].
  assert (followed insn = true) as Hf by (eapply forallb_forall; [exact H|]; by eapply list_elem_of_In, list_elem_of_lookup_2).
  destruct insn; try done. destruct (pc =? 0)%nat; [done|]. by destruct (subprog_entry_at pc insns); [rewrite Hc|].
Qed.

(** if r1 & 1 goto +1; exit; r0 = 1; exit, and call +1; exit; r0 = 1; exit. *)
Definition jset_taken : list Z :=
  [0x45; 1; 1; 0; 1; 0; 0; 0;  0x95; 0; 0; 0; 0; 0; 0; 0;  0xb7; 0; 0; 0; 1; 0; 0; 0;
   0x95; 0; 0; 0; 0; 0; 0; 0].
Definition calls_forward : list Z :=
  [0x85; 0x10; 0; 0; 1; 0; 0; 0;  0x95; 0; 0; 0; 0; 0; 0; 0;  0xb7; 0; 0; 0; 1; 0; 0; 0;
   0x95; 0; 0; 0; 0; 0; 0; 0].

(** C31: dead-code elimination preserves the graph its traversal follows and leaves
    nothing unreachable in it.  For bytes that decode, without the opcode 0x99 and
    with no jump between the slots of an ldimm64: every instruction reachable from
    the entry survives, unchanged but for a branch offset, its successors are the
    images of its old ones, and every instruction of the output is reachable (so a
    second elimination finds nothing).  In a program without JSET, 32-bit compares
    and bpf-to-bpf calls that graph is the control-flow graph of the analyses; these
    it takes for straight code, against what the code says, and it deletes what only
    their taken side or the call reaches. *)
Theorem dead_code_preserves_graph (bytes out : list Z) (insns : list BpfInsn) :
  (Forall is_byte bytes -> decode_program bytes = Ok insns ->
   existsb is_wide_sign_load insns = false -> no_jump_inside insns ->
   dead_code bytes = Ok out ->
   let new := rank (unmarked (length insns) (reachable insns None)) in
   exists insns', decode_program out = Ok insns' /\
     (forall pc insn, insns !! pc = Some insn -> rtc (flows insns) 0%nat pc ->
        exists insn', insns' !! new pc = Some insn' /\ with_offset insn' 0 = with_offset insn 0 /\
          successors insns' (new pc) = map new (successors insns pc)) /\
     (forall pc', (pc' < length insns')%nat -> rtc (flows insns') 0%nat pc')) /\
  (forallb followed insns = true -> forall pc, successors insns pc = static_successors pc insns) /\
  (exists jset out, decode_program jset_taken = Ok jset /\ static_successors 0 jset = [1; 2]%nat /\
     dead_code jset_taken = Ok out /\ decode_program out = Ok [BpfInsn.JsetImm 1 1 1; BpfInsn.Exit]) /\
  (exists calls out, decode_program calls_forward = Ok calls /\ static_successors 0 calls = [2]%nat /\
     dead_code calls_forward = Ok out /\ decode_program out = Ok [BpfInsn.CallSub 1; BpfInsn.Exit]).
Proof.
  split; [apply dead_code_graph|]. split; [intros; by apply followed_successors|].
  split; (do 2 eexists; split; [vm_compute; reflexivity|]; split; [reflexivity|]; split; [vm_compute; reflexivity|reflexivity]).
Qed.

(** goto +1; r1 = 5; exit *)
Definition dead_program : list Z :=
  [0x05; 0; 1; 0; 0; 0; 0; 0;  0xb7; 1; 0; 0; 5; 0; 0; 0;  0x95; 0; 0; 0; 0; 0; 0; 0].

Lemma dead_program_bytes : Forall is_byte dead_program.
Proof. repeat constructor; unfold is_byte; lia. Qed.

Lemma dead_code_preserves_graph_witness :
  exists out insns', dead_code dead_program = Ok out /\ decode_program out = Ok insns' /\
    forall pc', (pc' < length insns')%nat -> rtc (flows insns') 0%nat pc'.
Proof.
  destruct (dead_code dead_program) as [out|] eqn:E; [|vm_compute in E; discriminate E].
  destruct (dead_code_preserves_graph dead_program out [BpfInsn.Jmp 1; BpfInsn.MovImm 1 5; BpfInsn.Exit]) as [H _].
  destruct H as (insns' & Hd & _ & Hr); [apply dead_program_bytes|reflexivity|reflexivity| |exact E|].
  - intros u k hi H. do 3 (destruct k as [|k]; [discriminate H|]). discriminate H.
  - exists out, insns'. auto.
Defined.

(** * The backward slice *)

(** A transfer of control between two survivors survives. *)
Lemma flows_moved insns insns' remove u v insn insn' :
  length insns' = rank remove (length insns) ->
  insns !! u = Some insn -> insns' !! rank remove u = Some insn' ->
  is_removed remove u = false -> is_removed remove v = false -> flows insns u v ->
  match branch_offset insn with
  | None => insn' = insn
  | Some off =>
      exists t : nat, Z.of_nat t = Z.of_nat u + 1 + off /\ (t < length insns)%nat /\
        is_removed remove t = false /\
        insn' = with_offset insn (Z.of_nat (rank remove t) - Z.of_nat (rank remove u) - 1) /\
        branch_offset insn' = Some (Z.of_nat (rank remove t) - Z.of_nat (rank remove u) - 1)
  end ->
  flows insns' (rank remove u) (rank remove v).
Proof.
  intros Hl Hu Hu' Hku Hkv Hf Hb. pose proof (flows_lt _ _ _ Hf) as [Hlu Hlv]. unfold flows in *.
  rewrite (successors_eq insns u insn Hu) in Hf. rewrite (successors_eq insns' _ insn' Hu'), Hl.
  apply elem_of_app in Hf. apply elem_of_app.
  assert (falls insn' = falls insn) as ->.
  { destruct (branch_offset insn); [|by subst]. destruct Hb as (t & _ & _ & _ & -> & _).
    by rewrite falls_with_offset. }
  destruct Hf as [Hf|Hf]; [left|right].
  - destruct (falls insn); [|by apply not_elem_of_nil in Hf].
    destruct (fall_through_lt _ _ _ Hf) as [-> _].
    rewrite fall_through_moved by (done || by intros w [-> _]%fall_through_lt).
    by apply list_elem_of_In, in_map, list_elem_of_In.
  - destruct (branch_offset insn) as [off|] eqn:Ebo; [|by apply not_elem_of_nil in Hf].
    destruct Hb as (t & Ht & Hlt' & Hkt & _ & ->). rewrite target_in_moved by done.
    apply list_elem_of_In, in_map, list_elem_of_In.
    by replace (Z.of_nat t - Z.of_nat u - 1) with off by lia.
Qed.

(** What [slice_to_anchor] deletes. *)
Definition off_slice (insns : list BpfInsn) (anchor : nat) : list nat :=
  unmarked (length insns)
    (zip_with (fun insn k => is_exit insn || k) insns (backward_reachable insns anchor)).

Lemma slice_survivors insns anchor pc insn :
  (anchor < length insns)%nat -> insns !! pc = Some insn ->
  is_removed (off_slice insns anchor) pc = false <->
  is_exit insn = true \/ rtc (flows insns) pc anchor.
Proof.
  intros Ha Hpc. destruct (backward_reachable_spec insns anchor Ha) as [Hl Hr].
  unfold off_slice. rewrite is_removed_unmarked by (rewrite length_zip_with, Hl; lia).
  rewrite <- Hr. unfold marked. pose proof (lookup_lt_Some _ _ _ Hpc) as Hlt.
  destruct (lookup_lt_is_Some_2 (backward_reachable insns anchor) pc) as [b Hb]; [lia|].
  assert (zip_with (fun insn k => is_exit insn || k) insns (backward_reachable insns anchor) !! pc =
    Some (is_exit insn || b)) as ->
    by (apply lookup_zip_with_Some; eauto). rewrite Hb.
  split; [intros [[= H]|?]; [|lia]|intros H; left].
  - apply orb_true_iff in H as [H| ->]; auto.
  - destruct H as [->|H]; [done|]. injection H as ->. by rewrite orb_true_r.
Qed.

Lemma slice_deletes bytes insns anchor out :
  decode bytes = Some insns -> slice_to_anchor bytes (Some anchor) = Ok out ->
  (anchor < length insns)%nat /\ delete_insns bytes (off_slice insns anchor) = Ok out.
Proof.
  intros Hd. unfold slice_to_anchor, off_slice. rewrite Hd.
  destruct (Nat.leb_spec (length insns) anchor); [done|]. intros H'. split; [done|].
  by destruct (unmarked _ _).
Qed.

(** The backward slice keeps every path to the failing instruction: the
    exits and every instruction from which the anchor can be reached survive,
    unchanged but for a branch offset, and each transfer of control on the way to
    the anchor is one between their images. *)
Theorem slice_keeps_paths (bytes out : list Z) (insns : list BpfInsn) (anchor : nat) :
  Forall is_byte bytes -> decode_program bytes = Ok insns -> one_slot insns ->
  slice_to_anchor bytes (Some anchor) = Ok out ->
  let new := rank (off_slice insns anchor) in
  exists insns', decode_program out = Ok insns' /\
    (forall pc insn, insns !! pc = Some insn -> is_exit insn = true \/ rtc (flows insns) pc anchor ->
       exists insn', insns' !! new pc = Some insn' /\ with_offset insn' 0 = with_offset insn 0) /\
    (forall u v, flows insns u v -> rtc (flows insns) v anchor -> flows insns' (new u) (new v)).
Proof.
  intros Hb Hd Ho Hsl new. destruct (one_slot_program insns Ho) as (_ & Hw & Hkp).
  assert (bytes <> []) as Hne by (intros ->; discriminate Hsl).
  destruct (decode_ok bytes insns Hb Hne Hd) as [Hdec Hne'].
  destruct (slice_deletes bytes insns anchor out Hdec Hsl) as [Ha Hdel].
  destruct (deletion_moves_branches bytes out insns _ Hb Hd Hw (Hkp _ _) Hdel)
    as (insns' & Hd' & Hl' & Hmv). exists insns'. split; [done|]. split.
  - intros pc insn Hpc Hkeep. apply (slice_survivors _ _ _ _ Ha Hpc) in Hkeep.
    destruct (Hmv pc insn Hpc Hkeep) as (insn' & Hi' & Hbo). exists insn'. split; [done|].
    destruct (branch_offset insn); [|by subst]. destruct Hbo as (t & _ & _ & _ & -> & _).
    by rewrite with_offset_twice.
  - intros u v Huv Hva. destruct (flows_lt _ _ _ Huv) as [Hu Hv].
    destruct (lookup_lt_is_Some_2 insns u Hu) as [iu Hiu].
    destruct (lookup_lt_is_Some_2 insns v Hv) as [iv Hiv].
    assert (is_removed (off_slice insns anchor) u = false) as Hku
      by (eapply slice_survivors; [done..|right; by eapply rtc_l]).
    assert (is_removed (off_slice insns anchor) v = false) as Hkv
      by (eapply slice_survivors; [done..|by right]).
    destruct (Hmv u iu Hiu Hku) as (insn' & Hi' & Hbo).
    by eapply flows_moved.
Qed.

(** if r1 != 0 goto +2; r3 = 3; exit; r4 -= r0; exit: the subtraction is the
    anchor. *)
Definition slice_program : list Z :=
  [0x55; 1; 2; 0; 0; 0; 0; 0;  0xb7; 3; 0; 0; 3; 0; 0; 0;  0x95; 0; 0; 0; 0; 0; 0; 0;
   0x1f; 4; 0; 0; 0; 0; 0; 0;  0x95; 0; 0; 0; 0; 0; 0; 0].
Definition slice_insns : list BpfInsn :=
  [BpfInsn.JneImm 1 0 2; BpfInsn.MovImm 3 3; BpfInsn.Exit; BpfInsn.SubReg 4 0; BpfInsn.Exit].

Lemma slice_keeps_paths_witness :
  exists out insns', slice_to_anchor slice_program (Some 3%nat) = Ok out /\
    decode_program out = Ok insns' /\ flows insns' 0 2.
Proof.
  destruct (slice_to_anchor slice_program (Some 3%nat)) as [out|] eqn:E; [|vm_compute in E; discriminate E].
  destruct (slice_keeps_paths slice_program out slice_insns 3) as (insns' & Hd & _ & Hf);
    [repeat constructor; unfold is_byte; lia|reflexivity|repeat constructor|exact E|].
  exists out, insns'. split; [reflexivity|]. split; [exact Hd|].
  apply (Hf 0%nat 3%nat); [apply list_elem_of_further, list_elem_of_here|apply rtc_refl].
Defined.

(** What the passes miss. The taken side of a JSET or a JMP32 compare is not a
    successor, so dead-code elimination deletes it although it is reachable; nor
    is the callee of a bpf-to-bpf call, so it deletes the function. *)
Theorem successor_gaps :
  (* if r1 & 1 goto +1; exit; r0 = 1; exit: the last two are taken for dead *)
  reachable [BpfInsn.JsetImm 1 1 1; BpfInsn.Exit; BpfInsn.MovImm 0 1; BpfInsn.Exit] None =
    [true; true; false; false] /\
  dead_code
    [0x45; 1; 1; 0; 1; 0; 0; 0;  0x95; 0; 0; 0; 0; 0; 0; 0;  0xb7; 0; 0; 0; 1; 0; 0; 0;
     0x95; 0; 0; 0; 0; 0; 0; 0] =
    Ok [0x45; 1; 1; 0; 1; 0; 0; 0;  0x95; 0; 0; 0; 0; 0; 0; 0] /\
  (* call +1; exit; r0 = 1; exit: the called function is deleted *)
  dead_code
    [0x85; 0x10; 0; 0; 1; 0; 0; 0;  0x95; 0; 0; 0; 0; 0; 0; 0;  0xb7; 0; 0; 0; 1; 0; 0; 0;
     0x95; 0; 0; 0; 0; 0; 0; 0] =
    Ok [0x85; 0x10; 0; 0; 1; 0; 0; 0;  0x95; 0; 0; 0; 0; 0; 0; 0].
Proof. split; [|split]; vm_compute; reflexivity. Qed.
