(* ===== verification/ReduceOperand.v ===== *)
(** Operand minimisation and the driver of the testcase reducer
    (src/src/fuzz/reduce/operand.rs and driver.rs): smaller immediates, the
    immediate form of a register-form ALU instruction whose source is a known
    constant, the renaming of the highest register to the lowest unused one,
    stack offsets closer to zero, and the loop that applies the passes until none
    makes progress.  The theorems: a smaller-immediate candidate is the program
    with that immediate replaced, the immediate form computes what the register
    form did, the tracked constants are right where the code clears what it
    should, renaming lowers a register that is used to one that is not, and the
    driver only ever moves to programs the oracle accepted and never grows the
    program. *)
From Stdlib Require Import ZArith Lia List Bool String.
From stdpp Require Import base gmap list strings.
From S2P Require Import Prelude Insn Alu Ctx State Concrete Reduce ReducePasses.
Open Scope Z_scope.

(** * Operands *)

(** The interesting-values pool, in preference order. *)
Definition VALUE_POOL : list Z := [0; 1; -1; I32_MIN; I32_MAX].

Definition imm_of (insn : BpfInsn) : option Z :=
  match insn with
  | BpfInsn.MovImm _ imm | BpfInsn.AddImm _ imm | BpfInsn.SubImm _ imm | BpfInsn.AndImm _ imm
  | BpfInsn.OrImm _ imm | BpfInsn.XorImm _ imm | BpfInsn.LshImm _ imm | BpfInsn.RshImm _ imm
  | BpfInsn.ArshImm _ imm | BpfInsn.Add32Imm _ imm | BpfInsn.Sub32Imm _ imm
  | BpfInsn.And32Imm _ imm | BpfInsn.Or32Imm _ imm | BpfInsn.Xor32Imm _ imm
  | BpfInsn.Lsh32Imm _ imm | BpfInsn.Rsh32Imm _ imm | BpfInsn.Arsh32Imm _ imm
  | BpfInsn.JeqImm _ imm _ | BpfInsn.JneImm _ imm _ | BpfInsn.JgtImm _ imm _
  | BpfInsn.JgeImm _ imm _ | BpfInsn.JltImm _ imm _ | BpfInsn.JleImm _ imm _
  | BpfInsn.JsgtImm _ imm _ | BpfInsn.JsgeImm _ imm _ | BpfInsn.JsltImm _ imm _
  | BpfInsn.JsleImm _ imm _ | BpfInsn.JsetImm _ imm _
  | BpfInsn.Jmp32 _ _ (Some imm) _ _ => Some imm
  | _ => None
  end.

(** The source register of a register-form ALU instruction. *)
Definition x_form_source (insn : BpfInsn) : option Z :=
  match insn with
  | BpfInsn.MovReg _ src | BpfInsn.AddReg _ src | BpfInsn.SubReg _ src | BpfInsn.AndReg _ src
  | BpfInsn.OrReg _ src | BpfInsn.XorReg _ src | BpfInsn.LshReg _ src | BpfInsn.RshReg _ src
  | BpfInsn.ArshReg _ src | BpfInsn.Add32Reg _ src | BpfInsn.Sub32Reg _ src
  | BpfInsn.And32Reg _ src | BpfInsn.Or32Reg _ src | BpfInsn.Xor32Reg _ src
  | BpfInsn.Lsh32Reg _ src | BpfInsn.Rsh32Reg _ src | BpfInsn.Arsh32Reg _ src => Some src
  | _ => None
  end.

(** Whether an instruction writes an ALU destination register. *)
Definition has_alu_dst (insn : BpfInsn) : bool :=
  match insn with
  | BpfInsn.Call _ | BpfInsn.Exit | BpfInsn.Jmp _ | BpfInsn.StMem _ _ _ _ => false
  | _ => negb (is_conditional_branch insn)
  end.

Definition alu_dst (insn : BpfInsn) : option Z :=
  match insn with
  | BpfInsn.MovImm dst _ | BpfInsn.MovReg dst _ | BpfInsn.AddImm dst _ | BpfInsn.AddReg dst _
  | BpfInsn.SubImm dst _ | BpfInsn.SubReg dst _ | BpfInsn.AndImm dst _ | BpfInsn.AndReg dst _
  | BpfInsn.OrImm dst _ | BpfInsn.OrReg dst _ | BpfInsn.XorImm dst _ | BpfInsn.XorReg dst _
  | BpfInsn.LshImm dst _ | BpfInsn.LshReg dst _ | BpfInsn.RshImm dst _ | BpfInsn.RshReg dst _
  | BpfInsn.ArshImm dst _ | BpfInsn.ArshReg dst _
  | BpfInsn.Add32Imm dst _ | BpfInsn.Add32Reg dst _ | BpfInsn.Sub32Imm dst _
  | BpfInsn.Sub32Reg dst _ | BpfInsn.And32Imm dst _ | BpfInsn.And32Reg dst _
  | BpfInsn.Or32Imm dst _ | BpfInsn.Or32Reg dst _ | BpfInsn.Xor32Imm dst _
  | BpfInsn.Xor32Reg dst _ | BpfInsn.Lsh32Imm dst _ | BpfInsn.Lsh32Reg dst _
  | BpfInsn.Rsh32Imm dst _ | BpfInsn.Rsh32Reg dst _ | BpfInsn.Arsh32Imm dst _
  | BpfInsn.Arsh32Reg dst _
  | BpfInsn.LdMem dst _ _ _ _ => Some dst
  | _ => None
  end.

(** The known-constant map: [known : [Option<i32>; 11]]. *)
Definition clear_known (known : list (option Z)) (r : Z) : list (option Z) :=
  <[Z.to_nat r := None]> known.

Definition apply_def (known : list (option Z)) (insn : BpfInsn) : list (option Z) :=
  match insn with
  | BpfInsn.MovImm dst imm => <[Z.to_nat dst := Some imm]> known
  | BpfInsn.MovReg dst src => <[Z.to_nat dst := known !!! Z.to_nat src]> known
  | BpfInsn.Call _ | BpfInsn.CallSub _ | BpfInsn.CallKfunc _ => replicate 6 None ++ drop 6 known
  | BpfInsn.LdMem dst _ _ _ _ => clear_known known dst
  | BpfInsn.StMem _ _ _ _ => known
  | _ =>
      if has_alu_dst insn then
        match alu_dst insn with Some dst => clear_known known dst | None => known end
      else known
  end.

Definition stack_offset (insn : BpfInsn) : option Z :=
  match insn with
  | BpfInsn.LdMem _ _ offset _ _ | BpfInsn.StMem _ _ offset _ => Some offset
  | _ => None
  end.

(** The registers [mark_regs] marks for an instruction. *)
Definition census (insn : BpfInsn) : list Z :=
  match insn with
  | BpfInsn.MovImm dst _ | BpfInsn.Mov32Imm dst _ | BpfInsn.AddImm dst _ | BpfInsn.SubImm dst _
  | BpfInsn.AndImm dst _ | BpfInsn.OrImm dst _ | BpfInsn.XorImm dst _ | BpfInsn.LshImm dst _
  | BpfInsn.RshImm dst _ | BpfInsn.ArshImm dst _ | BpfInsn.MulImm dst _ _
  | BpfInsn.DivImm dst _ | BpfInsn.ModImm dst _ | BpfInsn.Neg dst
  | BpfInsn.Add32Imm dst _ | BpfInsn.Sub32Imm dst _ | BpfInsn.And32Imm dst _
  | BpfInsn.Or32Imm dst _ | BpfInsn.Xor32Imm dst _ | BpfInsn.Lsh32Imm dst _
  | BpfInsn.Rsh32Imm dst _ | BpfInsn.Arsh32Imm dst _ | BpfInsn.Mul32Imm dst _
  | BpfInsn.Div32Imm dst _ | BpfInsn.Mod32Imm dst _ | BpfInsn.Neg32 dst
  | BpfInsn.LdMem dst _ _ _ _ | BpfInsn.LdImm64 dst _ | BpfInsn.LdMapFd dst _ _ _ _
  | BpfInsn.LdMapValue dst _ _ _ _ => [dst]
  | BpfInsn.LdImm64Second _ => []
  | BpfInsn.Atomic dst src _ _ op _ =>
      dst :: src :: match op with AtomicOp.Cmpxchg => [0] | _ => [] end
  | BpfInsn.LdAbs _ _ => [0]
  | BpfInsn.LdInd src _ _ => [0; src]
  | BpfInsn.MovReg dst src | BpfInsn.Mov32Reg dst src | BpfInsn.Jset dst src _
  | BpfInsn.AddReg dst src | BpfInsn.SubReg dst src | BpfInsn.AndReg dst src
  | BpfInsn.OrReg dst src | BpfInsn.XorReg dst src | BpfInsn.LshReg dst src
  | BpfInsn.RshReg dst src | BpfInsn.ArshReg dst src | BpfInsn.MulReg dst src _
  | BpfInsn.DivReg dst src | BpfInsn.ModReg dst src | BpfInsn.Add32Reg dst src
  | BpfInsn.Sub32Reg dst src | BpfInsn.And32Reg dst src | BpfInsn.Or32Reg dst src
  | BpfInsn.Xor32Reg dst src | BpfInsn.Lsh32Reg dst src | BpfInsn.Rsh32Reg dst src
  | BpfInsn.Arsh32Reg dst src | BpfInsn.Mul32Reg dst src | BpfInsn.Div32Reg dst src
  | BpfInsn.Mod32Reg dst src => [dst; src]
  | BpfInsn.StMem src _ _ _ => [src]
  | BpfInsn.StMemImm _ _ _ _ => []
  | BpfInsn.Jeq dst src _ | BpfInsn.Jne dst src _ | BpfInsn.Jgt dst src _ | BpfInsn.Jge dst src _
  | BpfInsn.Jlt dst src _ | BpfInsn.Jle dst src _ | BpfInsn.Jsgt dst src _
  | BpfInsn.Jsge dst src _ | BpfInsn.Jslt dst src _ | BpfInsn.Jsle dst src _ => [dst; src]
  | BpfInsn.JeqImm dst _ _ | BpfInsn.JneImm dst _ _ | BpfInsn.JgtImm dst _ _
  | BpfInsn.JgeImm dst _ _ | BpfInsn.JltImm dst _ _ | BpfInsn.JleImm dst _ _
  | BpfInsn.JsgtImm dst _ _ | BpfInsn.JsgeImm dst _ _ | BpfInsn.JsltImm dst _ _
  | BpfInsn.JsleImm dst _ _ | BpfInsn.JsetImm dst _ _ | BpfInsn.Jmp32 dst _ _ _ _ => [dst]
  | BpfInsn.Jmp _ | BpfInsn.Call _ | BpfInsn.CallSub _ | BpfInsn.CallKfunc _ | BpfInsn.Exit => []
  end.

(** [used : [bool; 11]]. *)
Definition mark_regs (used : list bool) (insn : BpfInsn) : list bool :=
  foldl (fun used r => <[Z.to_nat r := true]> used) used (census insn).

(** The highest used register of R1..R9 and the lowest unused one below it. *)
Definition lowering_pair (insns : list BpfInsn) : option (Z * Z) :=
  let used := foldl mark_regs (replicate 11 false) insns in
  let is_used r := used !!! Z.to_nat r in
  match List.find is_used [9; 8; 7; 6; 5; 4; 3; 2; 1] with
  | None => None
  | Some highest =>
      match List.find (fun r => negb (is_used r) && (r <? highest)) [1; 2; 3; 4; 5; 6; 7; 8; 9] with
      | None => None
      | Some lowest_unused => Some (highest, lowest_unused)
      end
  end.

(** The register byte of an encoded instruction: dst low nibble, src high. *)
Definition rename_reg (chunk : list Z) (from to : Z) : list Z :=
  let b := nth 1 chunk 0 in
  let dst := Z.land b 0x0f in
  let src := Z.shiftr b 4 in
  let new_dst := if dst =? from then to else dst in
  let new_src := if src =? from then to else src in
  <[1%nat := Z.lor (as_u8 (Z.shiftl new_src 4)) new_dst]> chunk.

(** Replace one encoded instruction in the raw program. *)
Definition patch (bytes : list Z) (pc : nat) (chunk : list Z) : list Z :=
  take (pc * 8) bytes ++ chunk ++ drop (pc * 8 + 8) bytes.

(** * Candidates

    Each candidate has the name of its pass; [None] where the code panics (the
    encoder, or [i16::abs] of the smallest offset in a build with overflow
    checks). *)
Definition OperandCandidate : Type := string * list Z.

Definition set_imm_bytes (chunk : list Z) (value : Z) : list Z := take 4 chunk ++ le32 value.

(** [chunk[0] &= !0x08; chunk[1] &= 0x0f] and the immediate. *)
Definition k_form_bytes (chunk : list Z) (value : Z) : list Z :=
  set_imm_bytes
    (<[1%nat := Z.land (nth 1 chunk 0) 0x0f]> (<[0%nat := Z.land (nth 0 chunk 0) 0xf7]> chunk)) value.

Definition imm_candidates (bytes : list Z) (pc : nat) (insn : BpfInsn) : option (list OperandCandidate) :=
  match imm_of insn with
  | None => Some []
  | Some orig =>
      match encode insn with
      | None => None
      | Some chunk =>
          Some (map (fun value => ("immediate"%string, patch bytes pc (set_imm_bytes chunk value)))
                 (filter (fun value => negb ((value =? orig) || (Z.abs orig <=? Z.abs value)) = true)
                    VALUE_POOL))
      end
  end.

Definition alu_form_candidate (bytes : list Z) (pc : nat) (known : list (option Z)) (insn : BpfInsn)
  : option (list OperandCandidate) :=
  match x_form_source insn with
  | None => Some []
  | Some src =>
      match known !!! Z.to_nat src with
      | None => Some []
      | Some value =>
          match encode insn with
          | None => None
          | Some chunk => Some [("alu-form"%string, patch bytes pc (k_form_bytes chunk value))]
          end
      end
  end.

Definition offset_candidates (bytes : list Z) (pc : nat) (insn : BpfInsn) : option (list OperandCandidate) :=
  match stack_offset insn with
  | None => Some []
  | Some offset =>
      let mag := Z.quot (as_i16 (Z.abs offset)) 8 in
      match encode insn with
      | None => if mag <=? 1 then Some [] else None
      | Some chunk =>
          Some (map (fun k => let k := Z.of_nat k in
                     let value := if offset <? 0 then - (k * 8) else k * 8 in
                     ("stack-offset"%string, patch bytes pc (set_offset_bytes chunk value)))
                  (seq 1 (Z.to_nat (mag - 1))))
      end
  end.

(** A pass over the instructions from index [pc] on. *)
Fixpoint collect (f : nat -> BpfInsn -> option (list OperandCandidate)) (pc : nat) (insns : list BpfInsn)
  : option (list OperandCandidate) :=
  match insns with
  | [] => Some []
  | insn :: rest =>
      match f pc insn, collect f (S pc) rest with
      | Some a, Some b => Some (a ++ b)
      | _, _ => None
      end
  end.

(** The same, with the known constants. *)
Fixpoint collect_known (bytes : list Z) (known : list (option Z)) (pc : nat) (insns : list BpfInsn)
  : option (list OperandCandidate) :=
  match insns with
  | [] => Some []
  | insn :: rest =>
      match alu_form_candidate bytes pc known insn,
            collect_known bytes (apply_def known insn) (S pc) rest with
      | Some a, Some b => Some (a ++ b)
      | _, _ => None
      end
  end.

Fixpoint rename_all (from to : Z) (insns : list BpfInsn) : option (list Z) :=
  match insns with
  | [] => Some []
  | insn :: rest =>
      match encode insn, rename_all from to rest with
      | Some chunk, Some out => Some (rename_reg chunk from to ++ out)
      | _, _ => None
      end
  end.

Definition lowering_candidates (insns : list BpfInsn) : option (list OperandCandidate) :=
  match lowering_pair insns with
  | None => Some []
  | Some (from, to) =>
      match rename_all from to insns with
      | Some rewritten => Some [("reg-lower"%string, rewritten)]
      | None => None
      end
  end.

Definition operand_candidates (bytes : list Z) : option (list OperandCandidate) :=
  match decode bytes with
  | None => Some []
  | Some insns =>
      match collect (imm_candidates bytes) 0 insns,
            collect_known bytes (replicate 11 None) 0 insns,
            lowering_candidates insns,
            collect (offset_candidates bytes) 0 insns with
      | Some imms, Some forms, Some lower, Some offsets => Some (imms ++ forms ++ lower ++ offsets)
      | _, _, _, _ => None
      end
  end.

(** * Patched programs decode to updated ones *)

Lemma as_chunks_patch pc bytes chunk :
  length chunk = 8%nat -> (pc < length (fst (as_chunks bytes)))%nat ->
  as_chunks (patch bytes pc chunk) = (<[pc := chunk]> (fst (as_chunks bytes)), snd (as_chunks bytes)).
Proof.
  intros Hc. revert bytes. induction pc as [|pc IH]; intros bytes Hl;
    do 8 (destruct bytes as [|? bytes]; [simpl in Hl; lia|]).
  - match goal with |- as_chunks ?p = _ => change p with (chunk ++ bytes) end.
    rewrite as_chunks_app by done. cbn [as_chunks]. destruct (as_chunks bytes). reflexivity.
  - assert (Hsame : forall slot, length slot = 8%nat ->
      patch (slot ++ bytes) (S pc) chunk = slot ++ patch bytes pc chunk).
    { intros slot Hs. unfold patch. replace (S pc * 8)%nat with (length slot + pc * 8)%nat by lia.
      rewrite <- Nat.add_assoc, firstn_app_2, skipn_app.
      rewrite (skipn_all2 slot) by lia. cbn [app]. rewrite <- app_assoc. do 4 f_equal. lia. }
    change (z :: z0 :: z1 :: z2 :: z3 :: z4 :: z5 :: z6 :: bytes)
      with ([z; z0; z1; z2; z3; z4; z5; z6] ++ bytes) in *.
    rewrite Hsame, !as_chunks_app by done. rewrite as_chunks_app in Hl by done.
    cbn [fst snd length] in *. rewrite IH by lia. done.
Qed.

Lemma parse_ldimm64_not_wf first second insn :
  parse_ldimm64 first second = Ok insn -> insn_wf insn = false.
Proof.
  intros H. assert (match insn with
    | BpfInsn.LdImm64 _ _ | BpfInsn.LdMapFd _ _ _ _ _ | BpfInsn.LdMapValue _ _ _ _ _ => True
    | _ => False end) as Hs.
  { unfold parse_ldimm64 in H. do 9 (destruct first as [|? first]; try (by destruct (negb _) in H)).
    do 9 (destruct second as [|? second]; try (by destruct (negb _) in H)). cbv zeta in H.
    repeat match type of H with (if ?b then _ else _) = _ => destruct b; [discriminate H|] end.
    destruct (Z.land _ 15) as [|[|[]|]|]; try discriminate H; try (by injection H as <-).
    destruct (negb _); [discriminate H|by injection H as <-]. }
  destruct insn; try done; unfold insn_wf; cbn; by rewrite andb_false_r.
Qed.

Lemma second_not_wf hi : insn_wf (BpfInsn.LdImm64Second hi) = false.
Proof. unfold insn_wf. cbn. by rewrite andb_false_r. Qed.

Lemma decode_slots_update n idx chunks insns pc insn insn' chunk :
  (length chunks <= n)%nat -> decode_slots idx chunks = Ok insns -> insns !! pc = Some insn ->
  insn_wf insn = true -> insn_wf insn' = true -> encode insn' = Some chunk ->
  decode_slots idx (<[pc := chunk]> chunks) = Ok (<[pc := insn']> insns).
Proof.
  intros Hn Hd Hpc Hw Hw' He. revert idx chunks insns pc Hn Hd Hpc.
  induction n as [|n IH]; intros idx [|c rest] insns pc Hn Hd Hpc; simpl in Hn; try lia;
    try (injection Hd as <-; discriminate Hpc).
  cbn [decode_slots] in Hd. cbv zeta in Hd. destruct (hd 0 c =? opcode.LD_IMM64) eqn:Ec.
  - destruct rest as [|second rest]; [done|].
    destruct (parse_ldimm64 c second) as [first|] eqn:Hp; [|done].
    apply rbind_ok in Hd as (rest' & Hrest & Heq). injection Heq as <-. simpl in Hn.
    destruct pc as [|[|pc]]; cbn in Hpc.
    + injection Hpc as ->. apply parse_ldimm64_not_wf in Hp. congruence.
    + injection Hpc as <-. by rewrite second_not_wf in Hw.
    + change (<[S (S pc) := chunk]> (c :: second :: rest)) with (c :: second :: <[pc := chunk]> rest).
      cbn [decode_slots]. cbv zeta. rewrite Ec, Hp.
      by rewrite (IH (idx + 2) rest rest' pc ltac:(lia) Hrest Hpc).
  - destruct (parse_insn c) as [first|] eqn:Hp; [|done].
    apply rbind_ok in Hd as (rest' & Hrest & Heq). injection Heq as <-.
    destruct pc as [|pc]; cbn in Hpc.
    + change (<[0%nat := chunk]> (c :: rest)) with (chunk :: rest). rewrite (decode_single idx insn' chunk rest Hw' He), Hrest. done.
    + change (<[S pc := chunk]> (c :: rest)) with (c :: <[pc := chunk]> rest).
      cbn [decode_slots]. cbv zeta. rewrite Ec, Hp.
      by rewrite (IH (idx + 1) rest rest' pc ltac:(lia) Hrest Hpc).
Qed.

Lemma decode_slots_length n idx chunks insns :
  (length chunks <= n)%nat -> decode_slots idx chunks = Ok insns -> length insns = length chunks.
Proof.
  revert idx chunks insns. induction n as [|n IH]; intros idx [|c rest] insns Hn Hd; simpl in Hn; try lia;
    try (by injection Hd as <-).
  cbn [decode_slots] in Hd. cbv zeta in Hd. destruct (hd 0 c =? opcode.LD_IMM64) eqn:Ec.
  - destruct rest as [|second rest]; [done|].
    destruct (parse_ldimm64 c second) as [first|] eqn:Hp; [|done].
    apply rbind_ok in Hd as (rest' & Hrest & Heq). injection Heq as <-. simpl in Hn.
    pose proof (IH (idx + 2) rest rest' ltac:(lia) Hrest). simpl. lia.
  - destruct (parse_insn c) as [first|] eqn:Hp; [|done].
    apply rbind_ok in Hd as (rest' & Hrest & Heq). injection Heq as <-.
    pose proof (IH (idx + 1) rest rest' ltac:(lia) Hrest). simpl. lia.
Qed.

Lemma decode_program_inv bytes insns :
  decode_program bytes = Ok insns ->
  decode_slots 0 (fst (as_chunks bytes)) = Ok insns /\ snd (as_chunks bytes) = [].
Proof.
  unfold decode_program. destruct (as_chunks bytes) as [chunks rest]. cbn [fst snd].
  destruct (decode_slots 0 chunks) as [is'|]; [|done]. destruct rest; [|done]. by intros [= ->].
Qed.

Lemma decode_patch bytes insns pc insn insn' chunk :
  decode_program bytes = Ok insns -> insns !! pc = Some insn ->
  insn_wf insn = true -> insn_wf insn' = true -> encode insn' = Some chunk ->
  decode_program (patch bytes pc chunk) = Ok (<[pc := insn']> insns).
Proof.
  intros Hd Hpc Hw Hw' He. destruct (decode_program_inv _ _ Hd) as [Hs Hr].
  pose proof (decode_slots_length _ _ _ _ (le_n _) Hs) as Hl.
  unfold decode_program. rewrite as_chunks_patch; [|by eapply encode_length|].
  - rewrite (decode_slots_update _ _ _ _ _ _ _ _ (le_n _) Hs Hpc Hw Hw' He), Hr. done.
  - rewrite <- Hl. by eapply lookup_lt_Some.
Qed.

(** * The rewritten instructions *)

Definition with_imm (insn : BpfInsn) (imm : Z) : BpfInsn :=
  match insn with
  | BpfInsn.MovImm dst _ => BpfInsn.MovImm dst imm
  | BpfInsn.AddImm dst _ => BpfInsn.AddImm dst imm
  | BpfInsn.SubImm dst _ => BpfInsn.SubImm dst imm
  | BpfInsn.AndImm dst _ => BpfInsn.AndImm dst imm
  | BpfInsn.OrImm dst _ => BpfInsn.OrImm dst imm
  | BpfInsn.XorImm dst _ => BpfInsn.XorImm dst imm
  | BpfInsn.LshImm dst _ => BpfInsn.LshImm dst imm
  | BpfInsn.RshImm dst _ => BpfInsn.RshImm dst imm
  | BpfInsn.ArshImm dst _ => BpfInsn.ArshImm dst imm
  | BpfInsn.Add32Imm dst _ => BpfInsn.Add32Imm dst imm
  | BpfInsn.Sub32Imm dst _ => BpfInsn.Sub32Imm dst imm
  | BpfInsn.And32Imm dst _ => BpfInsn.And32Imm dst imm
  | BpfInsn.Or32Imm dst _ => BpfInsn.Or32Imm dst imm
  | BpfInsn.Xor32Imm dst _ => BpfInsn.Xor32Imm dst imm
  | BpfInsn.Lsh32Imm dst _ => BpfInsn.Lsh32Imm dst imm
  | BpfInsn.Rsh32Imm dst _ => BpfInsn.Rsh32Imm dst imm
  | BpfInsn.Arsh32Imm dst _ => BpfInsn.Arsh32Imm dst imm
  | BpfInsn.JeqImm dst _ off => BpfInsn.JeqImm dst imm off
  | BpfInsn.JneImm dst _ off => BpfInsn.JneImm dst imm off
  | BpfInsn.JgtImm dst _ off => BpfInsn.JgtImm dst imm off
  | BpfInsn.JgeImm dst _ off => BpfInsn.JgeImm dst imm off
  | BpfInsn.JltImm dst _ off => BpfInsn.JltImm dst imm off
  | BpfInsn.JleImm dst _ off => BpfInsn.JleImm dst imm off
  | BpfInsn.JsgtImm dst _ off => BpfInsn.JsgtImm dst imm off
  | BpfInsn.JsgeImm dst _ off => BpfInsn.JsgeImm dst imm off
  | BpfInsn.JsltImm dst _ off => BpfInsn.JsltImm dst imm off
  | BpfInsn.JsleImm dst _ off => BpfInsn.JsleImm dst imm off
  | BpfInsn.JsetImm dst _ off => BpfInsn.JsetImm dst imm off
  | BpfInsn.Jmp32 dst src (Some _) off op => BpfInsn.Jmp32 dst src (Some imm) off op
  | _ => insn
  end.

(** The immediate form of a register-form ALU instruction. *)
Definition k_form (insn : BpfInsn) (imm : Z) : BpfInsn :=
  match insn with
  | BpfInsn.MovReg dst _ => BpfInsn.MovImm dst imm
  | BpfInsn.AddReg dst _ => BpfInsn.AddImm dst imm
  | BpfInsn.SubReg dst _ => BpfInsn.SubImm dst imm
  | BpfInsn.AndReg dst _ => BpfInsn.AndImm dst imm
  | BpfInsn.OrReg dst _ => BpfInsn.OrImm dst imm
  | BpfInsn.XorReg dst _ => BpfInsn.XorImm dst imm
  | BpfInsn.LshReg dst _ => BpfInsn.LshImm dst imm
  | BpfInsn.RshReg dst _ => BpfInsn.RshImm dst imm
  | BpfInsn.ArshReg dst _ => BpfInsn.ArshImm dst imm
  | BpfInsn.Add32Reg dst _ => BpfInsn.Add32Imm dst imm
  | BpfInsn.Sub32Reg dst _ => BpfInsn.Sub32Imm dst imm
  | BpfInsn.And32Reg dst _ => BpfInsn.And32Imm dst imm
  | BpfInsn.Or32Reg dst _ => BpfInsn.Or32Imm dst imm
  | BpfInsn.Xor32Reg dst _ => BpfInsn.Xor32Imm dst imm
  | BpfInsn.Lsh32Reg dst _ => BpfInsn.Lsh32Imm dst imm
  | BpfInsn.Rsh32Reg dst _ => BpfInsn.Rsh32Imm dst imm
  | BpfInsn.Arsh32Reg dst _ => BpfInsn.Arsh32Imm dst imm
  | _ => insn
  end.

Definition with_mem_offset (insn : BpfInsn) (offset : Z) : BpfInsn :=
  match insn with
  | BpfInsn.LdMem dst base _ size sx => BpfInsn.LdMem dst base offset size sx
  | BpfInsn.StMem src base _ size => BpfInsn.StMem src base offset size
  | _ => insn
  end.

(** [insn'] is well-formed and encodes to [chunk']. *)
Definition encodes_to (insn' : BpfInsn) (chunk' : list Z) : Prop :=
  insn_wf insn' = true /\ encode insn' = Some chunk'.

Lemma with_imm_encodes insn chunk orig imm :
  imm_of insn = Some orig -> insn_wf insn = true -> encode insn = Some chunk ->
  in_range I32_MIN I32_MAX imm = true ->
  encodes_to (with_imm insn imm) (set_imm_bytes chunk imm) /\ imm_of (with_imm insn imm) = Some imm.
Proof.
  intros Hi Hw He Hr. destruct insn; try discriminate Hi;
    try (unfold encodes_to, insn_wf, encode in *; cbn [encode_fields with_imm insn_shape] in *;
      injection He as <-; rewrite !andb_true_iff in *; intuition reflexivity).
  unfold insn_wf in Hw. cbn in Hw. destruct src; [|destruct imm0; [|done]].
  { destruct imm0; [|done]. rewrite !andb_false_r in Hw. done. }
  unfold encodes_to, insn_wf, encode in *; cbn [encode_fields with_imm insn_shape] in *.
  injection He as <-; rewrite !andb_true_iff in *; intuition reflexivity.
Qed.

Lemma low_nibble src dst :
  0 <= dst <= 10 -> 0 <= src <= 10 ->
  Z.land (Z.lor (as_u8 (Z.shiftl src 4)) (Z.land dst 15)) 15 = Z.lor (as_u8 (Z.shiftl 0 4)) (Z.land dst 15).
Proof.
  intros Hd Hs. destruct (regs_byte dst src Hd Hs) as (_ & -> & _).
  destruct (regs_byte dst 0 Hd ltac:(lia)) as (_ & H0 & _).
  change (Z.lor (as_u8 (Z.shiftl 0 4)) (Z.land dst 15)) with (Z.land dst 15) in *.
  change 15 with (Z.ones 4). rewrite Z.land_ones by lia. symmetry. apply Z.mod_small. lia.
Qed.

Lemma k_form_encodes insn chunk src imm :
  x_form_source insn = Some src -> insn_wf insn = true -> encode insn = Some chunk ->
  in_range I32_MIN I32_MAX imm = true ->
  encodes_to (k_form insn imm) (k_form_bytes chunk imm).
Proof.
  intros Hx Hw He Hr. destruct insn; try discriminate Hx; injection Hx as ->;
    unfold encodes_to, insn_wf, encode in *; cbn [encode_fields k_form insn_shape] in *;
    injection He as <-; rewrite !andb_true_iff, !in_range_iff in *;
    destruct Hw as ((((Hd & Hs) & _) & _) & _);
    (split; [rewrite ?andb_true_iff, ?in_range_iff in *; split_and!; lia || done|]);
    unfold k_form_bytes, set_imm_bytes; cbn [nth insert list_insert take app le16];
    rewrite low_nibble by done; reflexivity.
Qed.

Lemma with_mem_offset_encodes insn chunk orig off :
  stack_offset insn = Some orig -> insn_wf insn = true -> encode insn = Some chunk ->
  in_range (-32768) 32767 off = true ->
  encodes_to (with_mem_offset insn off) (set_offset_bytes chunk off) /\
  stack_offset (with_mem_offset insn off) = Some off.
Proof.
  intros Hi Hw He Hr. destruct insn; try discriminate Hi.
  - destruct size, sign_extend; unfold encodes_to, insn_wf, encode in *;
      cbn [encode_fields with_mem_offset insn_shape] in *; try discriminate He;
      injection He as <-; rewrite !andb_true_iff in *; intuition reflexivity.
  - destruct size; unfold encodes_to, insn_wf, encode in *;
      cbn [encode_fields with_mem_offset insn_shape] in *;
      injection He as <-; rewrite !andb_true_iff in *; intuition reflexivity.
Qed.

(** * Candidates *)

Lemma collect_elem f pc insns out c :
  collect f pc insns = Some out -> c ∈ out ->
  exists k insn l, insns !! k = Some insn /\ f (pc + k)%nat insn = Some l /\ c ∈ l.
Proof.
  revert pc out. induction insns as [|insn rest IH]; intros pc out; cbn [collect].
  { intros [= <-] H. by apply not_elem_of_nil in H. }
  destruct (f pc insn) as [a|] eqn:Ef; [|done]. destruct (collect f (S pc) rest) as [b|] eqn:Er; [|done].
  intros [= <-] [H|H]%elem_of_app.
  - exists 0%nat, insn, a. by rewrite Nat.add_0_r.
  - destruct (IH _ _ Er H) as (k & i & l & Hk & Hf & Hl). exists (S k), i, l.
    by rewrite <- Nat.add_succ_comm.
Qed.

(** The instruction at one index replaced by [insn']. *)
Definition replaces (bytes : list Z) (insns : list BpfInsn) (pc : nat) (insn' : BpfInsn)
    (candidate : list Z) : Prop :=
  insn_wf insn' = true /\ decode_program candidate = Ok (<[pc := insn']> insns) /\
  exists chunk, encode insn' = Some chunk /\ candidate = patch bytes pc chunk.

Lemma replaces_intro bytes insns pc insn insn' chunk :
  decode_program bytes = Ok insns -> insns !! pc = Some insn -> insn_wf insn = true ->
  encodes_to insn' chunk -> replaces bytes insns pc insn' (patch bytes pc chunk).
Proof.
  intros Hd Hpc Hw [Hw' He]. split; [done|]. split; [by eapply decode_patch|]. by exists chunk.
Qed.

Lemma imm_candidate_spec bytes insns pc insn l name cand :
  decode_program bytes = Ok insns -> insns !! pc = Some insn -> insn_wf insn = true ->
  imm_candidates bytes pc insn = Some l -> (name, cand) ∈ l ->
  exists orig value, imm_of insn = Some orig /\ imm_of (with_imm insn value) = Some value /\
    Z.abs value < Z.abs orig /\ replaces bytes insns pc (with_imm insn value) cand.
Proof.
  intros Hd Hpc Hw. unfold imm_candidates. destruct (imm_of insn) as [orig|] eqn:Ei;
    [|intros [= <-] H; by apply not_elem_of_nil in H].
  destruct (encode insn) as [chunk|] eqn:Ee; [|done]. intros [= <-] H.
  apply list_elem_of_In, in_map_iff in H as (value & Heq & Hin). injection Heq as <- <-.
  apply list_elem_of_In, list_elem_of_filter in Hin as [Hm Hin].
  apply negb_true_iff, orb_false_iff in Hm as [_ Hm]. apply Z.leb_gt in Hm.
  assert (in_range I32_MIN I32_MAX value = true) as Hr.
  { unfold VALUE_POOL in Hin. rewrite !elem_of_cons in Hin. apply in_range_iff.
    destruct Hin as [->|[->|[->|[->|[->|Hin]]]]]; try lia. by apply not_elem_of_nil in Hin. }
  destruct (with_imm_encodes insn chunk orig value Ei Hw Ee Hr) as [Henc Himm].
  exists orig, value. split_and!; try done. by eapply replaces_intro.
Qed.

(** The number of steps: [i16::abs] of the smallest offset wraps to itself, and
    there are no steps. *)
Lemma offset_steps o :
  -32768 <= o <= 32767 ->
  Z.quot (as_i16 (Z.abs o)) 8 <= Z.abs o / 8 /\ (o = -32768 -> Z.quot (as_i16 (Z.abs o)) 8 = -4096).
Proof.
  intros Ho. destruct (decide (o = -32768)) as [->|Hne]; [by vm_compute|].
  assert (as_i16 (Z.abs o) = Z.abs o) as -> 
    by (destruct (as_i16_spec (Z.abs o)) as [? He]; unfold as_u in He; revert He; div_lia).
  rewrite Z.quot_div_nonneg by lia. split; [lia|done].
Qed.

Lemma offset_candidate_spec bytes insns pc insn l name cand :
  decode_program bytes = Ok insns -> insns !! pc = Some insn -> insn_wf insn = true ->
  offset_candidates bytes pc insn = Some l -> (name, cand) ∈ l ->
  exists orig value, stack_offset insn = Some orig /\
    stack_offset (with_mem_offset insn value) = Some value /\
    Z.abs value < Z.abs orig /\ replaces bytes insns pc (with_mem_offset insn value) cand.
Proof.
  intros Hd Hpc Hw. unfold offset_candidates. destruct (stack_offset insn) as [orig|] eqn:Ei;
    [|intros [= <-] H; by apply not_elem_of_nil in H].
  cbv zeta. destruct (encode insn) as [chunk|] eqn:Ee.
  2: { destruct (_ <=? 1); [|done]. intros [= <-] H. by apply not_elem_of_nil in H. }
  intros [= <-] H. apply list_elem_of_In, in_map_iff in H as (k & Heq & Hin).
  injection Heq as <- <-. apply in_seq in Hin.
  set (value := if orig <? 0 then - (Z.of_nat k * 8) else Z.of_nat k * 8).
  assert (Ho : -32768 <= orig <= 32767).
  { assert (in_range (-32768) 32767 orig = true) as Ho; [|apply in_range_iff in Ho; lia].
    unfold insn_wf in Hw. destruct insn; try discriminate Ei; injection Ei as ->; cbn [encode_fields] in Hw;
      [destruct size, sign_extend in Hw; try discriminate Hw|]; rewrite !andb_true_iff in Hw; tauto. }
  destruct (offset_steps orig Ho) as [Hst Hmin].
  assert (Hk : 8 * Z.of_nat k < Z.abs orig /\ orig <> -32768)
    by (pose proof (Z.mul_div_le (Z.abs orig) 8); lia).
  assert (Hv : Z.abs value = 8 * Z.of_nat k) by (unfold value; destruct (orig <? 0); lia).
  destruct (with_mem_offset_encodes insn chunk orig value Ei Hw Ee) as [Henc Hoff];
    [apply in_range_iff; lia|].
  exists orig, value. split_and!; [done..|lia|]. by eapply replaces_intro.
Qed.

(** A smaller-immediate candidate decodes to the program with one
    instruction changed in its immediate alone, to a pool value of strictly
    smaller magnitude; a stack-offset candidate to the program with one memory
    offset moved strictly closer to zero. *)
Theorem shrinking_candidates (bytes : list Z) (insns : list BpfInsn) (imms offsets : list OperandCandidate)
    (name : string) (cand : list Z) :
  decode_program bytes = Ok insns -> one_slot insns ->
  collect (imm_candidates bytes) 0 insns = Some imms ->
  collect (offset_candidates bytes) 0 insns = Some offsets ->
  ((name, cand) ∈ imms ->
     exists pc insn orig value, insns !! pc = Some insn /\ imm_of insn = Some orig /\
       Z.abs value < Z.abs orig /\ decode_program cand = Ok (<[pc := with_imm insn value]> insns)) /\
  ((name, cand) ∈ offsets ->
     exists pc insn orig value, insns !! pc = Some insn /\ stack_offset insn = Some orig /\
       Z.abs value < Z.abs orig /\ decode_program cand = Ok (<[pc := with_mem_offset insn value]> insns)).
Proof.
  intros Hd Ho Hi Hof. unfold one_slot in Ho. rewrite Forall_lookup in Ho. split; intros H.
  - destruct (collect_elem _ _ _ _ _ Hi H) as (k & insn & l & Hk & Hl & Hin).
    destruct (imm_candidate_spec bytes insns k insn l name cand) as (orig & value & ? & _ & ? & _ & ? & _);
      [done|done|by eapply Ho|done..|]. by exists k, insn, orig, value.
  - destruct (collect_elem _ _ _ _ _ Hof H) as (k & insn & l & Hk & Hl & Hin).
    destruct (offset_candidate_spec bytes insns k insn l name cand) as (orig & value & ? & _ & ? & _ & ? & _);
      [done|done|by eapply Ho|done..|]. by exists k, insn, orig, value.
Qed.

(** r0 = 255; r1 = *(u64* )(r10 - 16): the second immediate candidate is r0 = 1,
    the only offset candidate r10 - 8. *)
Definition shrink_program : list Z :=
  [0xb7; 0; 0; 0; 255; 0; 0; 0;  0x79; 0xa1; 0xf0; 0xff; 0; 0; 0; 0].
Definition shrink_insns : list BpfInsn :=
  [BpfInsn.MovImm 0 255; BpfInsn.LdMem 1 10 (-16) MemSize.DW false].

Lemma shrinking_candidates_witness :
  exists cand pc insn orig value, shrink_insns !! pc = Some insn /\ imm_of insn = Some orig /\
    Z.abs value < Z.abs orig /\
    decode_program cand = Ok (<[pc := with_imm insn value]> shrink_insns).
Proof.
  destruct (collect (imm_candidates shrink_program) 0 shrink_insns) as [imms|] eqn:Ei;
    [|vm_compute in Ei; discriminate Ei].
  destruct (collect (offset_candidates shrink_program) 0 shrink_insns) as [offsets|] eqn:Eo;
    [|vm_compute in Eo; discriminate Eo].
  exists (patch shrink_program 0 [0xb7; 0; 0; 0; 1; 0; 0; 0]).
  apply (shrinking_candidates shrink_program shrink_insns imms offsets "immediate"
    (patch shrink_program 0 [0xb7; 0; 0; 0; 1; 0; 0; 0]));
    [reflexivity|repeat constructor|exact Ei|exact Eo|].
  vm_compute in Ei. injection Ei as <-. apply list_elem_of_further, list_elem_of_here.
Defined.

(** * The immediate form of an ALU instruction *)

(** The source register holds the tracked constant. *)
Definition holds (s : ConcreteState) (r c : Z) : Prop := creg s r = Some (CScalar (as_u64 c)).

(** The immediate form would be rejected for its shift amount. *)
Definition bad_shift (insn : BpfInsn) (imm : Z) : bool :=
  match insn with
  | BpfInsn.LshReg _ _ | BpfInsn.RshReg _ _ | BpfInsn.ArshReg _ _ => negb (in_range 0 63 imm)
  | BpfInsn.Lsh32Reg _ _ | BpfInsn.Rsh32Reg _ _ | BpfInsn.Arsh32Reg _ _ => negb (in_range 0 31 imm)
  | _ => false
  end.

(** A stack pointer that does not leave the 64-bit range. *)
Definition pointer_fits (s : ConcreteState) (dst imm : Z) : Prop :=
  forall v f, creg s dst = Some (StackPtr v f) ->
    I64_MIN <= as_i64 (as_i64 v - STACK_BASE) + imm <= I64_MAX.

Lemma alu_imm_reg pc s dst src imm op width :
  holds s src imm -> 0 <= src < NUM_REGS -> is_i32 imm -> pointer_fits s dst imm ->
  (is_shift op = true -> 0 <= imm < match width with W64 => 64 | W32 => 32 end) ->
  concrete_alu_imm pc s dst imm op width = concrete_alu_reg pc s dst src op width.
Proof.
  intros Hsrc Hr Hi Hfit Hsh. unfold concrete_alu_imm, concrete_alu_reg.
  destruct (check_concrete_reg pc dst) as [[]|e] eqn:Ec; [|done]. cbn [rbind].
  assert (is_shift op && negb ((0 <=? imm) && (imm <? match width with W64 => 64 | W32 => 32 end)) = false)
    as ->.
  { destruct (is_shift op); [|done]. specialize (Hsh eq_refl). cbn [andb].
    rewrite (proj2 (Z.leb_le _ _)), (proj2 (Z.ltb_lt _ _)) by lia. done. }
  unfold read_concrete_reg at 1 2. rewrite Ec. cbn [rbind].
  destruct (creg s dst) as [d|] eqn:Ed; [|done]. cbn [rbind].
  unfold read_concrete_reg, check_concrete_reg. rewrite (proj2 (Z.leb_gt _ _)) by lia. cbn [rbind].
  rewrite Hsrc. cbn [rbind]. assert (Hai : as_i64 (as_u64 imm) = imm) by (apply as_i64_as_u64; lia).
  destruct d as [d|v f|a|fd index offset|m]; cbv beta; rewrite ?Hai; try done.
  - destruct op, width; try done. pose proof (Hfit v f Ed) as H2. unfold shift_stack_addr.
    rewrite (as_i64_id (as_i64 (as_i64 v - STACK_BASE) + imm)) by lia.
    unfold saturate. by rewrite Z.min_r, Z.max_r by lia.
Qed.

Lemma k_form_step (pc : Z) (s : ConcreteState) (insn : BpfInsn) (src imm : Z) :
  insn_wf insn = true -> x_form_source insn = Some src -> holds s src imm -> is_i32 imm ->
  bad_shift insn imm = false ->
  (forall dst, alu_dst insn = Some dst -> pointer_fits s dst imm) ->
  concrete_step_reg pc s (k_form insn imm) = concrete_step_reg pc s insn.
Proof.
  intros Hw Hx Hh Hi Hb Hfit.
  assert (0 <= src < NUM_REGS) as Hsrc.
  { unfold insn_wf in Hw. destruct insn; try discriminate Hx; injection Hx as ->; cbn in Hw;
      rewrite !andb_true_iff, !in_range_iff in Hw; lia. }
  destruct insn; try discriminate Hx; injection Hx as ->; specialize (Hfit _ eq_refl);
    cbn [k_form concrete_step_reg]; f_equal;
    try (apply alu_imm_reg; try done; cbn; intros _; cbn in Hb; apply negb_false_iff, in_range_iff in Hb; lia).
  unfold concrete_load, concrete_mov_reg. destruct (check_concrete_reg pc dst); [|done]. cbn [rbind].
  unfold read_concrete_reg, check_concrete_reg. rewrite (proj2 (Z.leb_gt _ _)) by lia. cbn [rbind].
  by rewrite Hh.
Qed.

(** The immediate form of a register-form ALU instruction does the same: the
    rewritten slot decodes, and from a state whose source register holds the
    tracked constant the instruction it decodes to and the original reach the
    same state or fail alike, as long as a shift amount is below the width and a
    stack pointer stays in its range. *)
Theorem k_form_same (pc : Z) (s : ConcreteState) (insn : BpfInsn) (chunk : list Z) (src imm : Z) :
  insn_wf insn = true -> encode insn = Some chunk -> x_form_source insn = Some src ->
  holds s src imm -> is_i32 imm -> bad_shift insn imm = false ->
  (forall dst, alu_dst insn = Some dst -> pointer_fits s dst imm) ->
  exists insn', parse_insn (k_form_bytes chunk imm) = Ok insn' /\
    concrete_step_reg pc s insn' = concrete_step_reg pc s insn.
Proof.
  intros Hw He Hx Hh Hi Hb Hf.
  destruct (k_form_encodes insn chunk src imm Hx Hw He) as [Hw' He']; [by apply in_range_iff|].
  destruct (parse_encoded _ Hw') as (b & Hb' & _ & Hp). rewrite He' in Hb'. injection Hb' as <-.
  exists (k_form insn imm). split; [done|]. by eapply k_form_step.
Qed.

Lemma k_form_same_witness :
  let s := set_creg 2 (CScalar 5) (set_creg 1 (CScalar 7) (cinitial_with ProgType.Xdp)) in
  exists insn', parse_insn (k_form_bytes [0x0f; 0x21; 0; 0; 0; 0; 0; 0] 5) = Ok insn' /\
    concrete_step_reg 0 s insn' = concrete_step_reg 0 s (BpfInsn.AddReg 1 2).
Proof.
  intros s. apply (k_form_same 0 s (BpfInsn.AddReg 1 2) [0x0f; 0x21; 0; 0; 0; 0; 0; 0] 2 5);
    try reflexivity; [lia|].
  intros dst H. injection H as <-. intros v f H. discriminate H.
Defined.

(** * The tracked constants *)

(** Every tracked constant is what its register holds. *)
Definition known_ok (known : list (option Z)) (s : ConcreteState) : Prop :=
  forall r c, 0 <= r -> known !! Z.to_nat r = Some (Some c) -> holds s r c.

(** The register instructions whose destination [alu_dst] lists. *)
Definition tracked (insn : BpfInsn) : bool :=
  match alu_dst insn with Some _ => true | None => false end.

Lemma set_creg_known known s dst v o :
  known_ok known s -> length known = 11%nat -> length (cregs s) = 11%nat -> 0 <= dst ->
  (forall c, o = Some c -> v = CScalar (as_u64 c)) ->
  known_ok (<[Z.to_nat dst := o]> known) (set_creg dst v s).
Proof.
  intros Hk Hl Hls Hd Ho r c Hr Hlook. unfold holds, creg, set_creg. cbn [cregs].
  destruct (decide (r = dst)) as [->|Hne].
  - pose proof (lookup_lt_Some _ _ _ Hlook) as Hlt. rewrite length_insert in Hlt.
    rewrite list_lookup_insert_eq in Hlook by done. injection Hlook as ->.
    rewrite list_lookup_total_insert_eq by lia. by rewrite (Ho c eq_refl).
  - rewrite list_lookup_insert_ne in Hlook by lia. rewrite list_lookup_total_insert_ne by lia.
    by apply Hk.
Qed.

Lemma alu_writes pc s dst imm op width s' :
  concrete_alu_imm pc s dst imm op width = Ok s' -> exists v, s' = set_creg dst v s.
Proof.
  unfold concrete_alu_imm. intros H. apply rbind_ok in H as ([] & _ & H).
  destruct (_ && _) in H; [discriminate H|]. apply rbind_ok in H as (d & _ & H).
  destruct d, op, width; try discriminate H; try (injection H as <-; eauto);
    destruct (checked _ _ _) in H; try discriminate H; injection H as <-; eauto.
Qed.

Lemma alu_reg_writes pc s dst src op width s' :
  concrete_alu_reg pc s dst src op width = Ok s' -> exists v, s' = set_creg dst v s.
Proof.
  unfold concrete_alu_reg. intros H. apply rbind_ok in H as ([] & _ & H).
  apply rbind_ok in H as (d & _ & H). apply rbind_ok in H as (e & _ & H).
  destruct d, e, op, width; try discriminate H; try (injection H as <-; eauto);
    destruct (checked _ _ _) in H; try discriminate H; injection H as <-; eauto.
Qed.

(** The constant tracking is right on straight-line code made of the
    instructions whose destination the code knows: after a step of the concrete
    machine every tracked constant is still what its register holds. *)
Theorem apply_def_sound (pc : Z) (s s' : ConcreteState) (known : list (option Z)) (insn : BpfInsn) :
  insn_wf insn = true -> tracked insn = true -> known_ok known s ->
  length known = 11%nat -> length (cregs s) = 11%nat ->
  concrete_step_reg pc s insn = Some (Ok s') ->
  known_ok (apply_def known insn) s' /\ length (apply_def known insn) = 11%nat /\
  length (cregs s') = 11%nat.
Proof.
  intros Hw Ht Hk Hl Hls Hstep.
  assert (Hd : forall dst, alu_dst insn = Some dst -> 0 <= dst).
  { intros dst Hdst. unfold insn_wf in Hw.
    destruct insn; try discriminate Hdst; injection Hdst as ->; cbn in Hw;
      try (rewrite !andb_true_iff, !in_range_iff in Hw; lia). discriminate Hstep. }
  assert (Hset : forall dst v o, alu_dst insn = Some dst -> s' = set_creg dst v s ->
    (forall c, o = Some c -> v = CScalar (as_u64 c)) -> apply_def known insn = <[Z.to_nat dst := o]> known ->
    known_ok (apply_def known insn) s' /\ length (apply_def known insn) = 11%nat /\
    length (cregs s') = 11%nat).
  { intros dst v o Hdst -> Ho ->. split_and!.
    - apply set_creg_known; auto.
    - by rewrite length_insert.
    - cbn [set_creg cregs]. by rewrite length_insert. }
  destruct insn; try discriminate Ht; try discriminate Hstep; cbn [concrete_step_reg] in Hstep;
    injection Hstep as Hstep;
    try (apply alu_writes in Hstep as [v Hv]; apply (Hset dst v None); [reflexivity|exact Hv|discriminate|reflexivity]);
    try (apply alu_reg_writes in Hstep as [v Hv]; apply (Hset dst v None); [reflexivity|exact Hv|discriminate|reflexivity]).
  { unfold concrete_load in Hstep. apply rbind_ok in Hstep as ([] & _ & Hs). injection Hs as <-.
    eapply Hset; [reflexivity|reflexivity| |reflexivity]. by intros c [= ->]. }
  { unfold concrete_mov_reg, read_concrete_reg in Hstep. apply rbind_ok in Hstep as ([] & _ & Hs).
    apply rbind_ok in Hs as (v & Hv & Hs). injection Hs as <-.
    apply rbind_ok in Hv as ([] & _ & Hv). destruct (creg s src) as [v'|] eqn:Es; [|discriminate Hv].
    injection Hv as <-. eapply Hset; [reflexivity|reflexivity| |reflexivity]. intros c Hc.
    assert (known !! Z.to_nat src = Some (Some c)) as Hks.
    { unfold insn_wf in Hw. cbn in Hw. rewrite !andb_true_iff, !in_range_iff in Hw.
      destruct (lookup_lt_is_Some_2 known (Z.to_nat src)) as [x Hx]; [lia|].
      rewrite (list_lookup_total_correct _ _ _ Hx) in Hc. by rewrite Hx, Hc. }
    unfold insn_wf in Hw. cbn in Hw. rewrite !andb_true_iff, !in_range_iff in Hw.
    specialize (Hk src c ltac:(lia) Hks). unfold holds in Hk. congruence. }
Qed.

Lemma apply_def_sound_witness :
  known_ok (apply_def (replicate 11 None) (BpfInsn.MovImm 2 5)) (set_creg 2 (CScalar 5) (cinitial_with ProgType.Xdp)).
Proof.
  apply (apply_def_sound 0 (cinitial_with ProgType.Xdp) (set_creg 2 (CScalar 5) (cinitial_with ProgType.Xdp))
    (replicate 11 None) (BpfInsn.MovImm 2 5)); try reflexivity.
  intros r c Hr H. apply lookup_replicate in H as [H _]. discriminate H.
Defined.

(** * Register lowering *)

Lemma mark_length used insn : length (mark_regs used insn) = length used.
Proof.
  unfold mark_regs. generalize (census insn) as l. intros l. revert used.
  induction l as [|r l IH]; intros used; cbn; [done|]. by rewrite IH, length_insert.
Qed.

Lemma mark_regs_spec used insn k :
  (k < length used)%nat ->
  mark_regs used insn !! k = Some true <-> used !! k = Some true \/ exists r, r ∈ census insn /\ Z.to_nat r = k.
Proof.
  unfold mark_regs. generalize (census insn) as l. intros l. revert used.
  induction l as [|r l IH]; intros used Hk; cbn.
  { split; [auto|]. intros [?|(r & Hr & _)]; [done|]. by apply not_elem_of_nil in Hr. }
  rewrite IH by (by rewrite length_insert). setoid_rewrite elem_of_cons.
  destruct (decide (Z.to_nat r = k)) as [<-|Hne].
  - rewrite list_lookup_insert_eq by done. split; [|by left]. intros _. right. eauto.
  - rewrite list_lookup_insert_ne by done. split; [intros [?|(x & ? & ?)]; eauto|].
    intros [?|(x & [->|?] & ?)]; eauto. done.
Qed.

Lemma used_spec insns used k :
  (k < length used)%nat ->
  foldl mark_regs used insns !! k = Some true <->
  used !! k = Some true \/ exists insn r, insn ∈ insns /\ r ∈ census insn /\ Z.to_nat r = k.
Proof.
  revert used. induction insns as [|insn rest IH]; intros used Hk; cbn.
  { split; [auto|]. intros [?|(i & r & Hi & _)]; [done|]. by apply not_elem_of_nil in Hi. }
  rewrite IH by (by rewrite mark_length). rewrite mark_regs_spec by done. setoid_rewrite elem_of_cons.
  split.
  - intros [[?|(r & ? & ?)]|(i & r & ? & ? & ?)]; eauto 8.
  - intros [?|(i & r & [->|?] & ? & ?)]; eauto 8.
Qed.

Lemma find_split {A} (f : A -> bool) l x :
  List.find f l = Some x -> exists l1 l2, l = l1 ++ x :: l2 /\ f x = true /\ forall y, y ∈ l1 -> f y = false.
Proof.
  induction l as [|a l IH]; [done|]. cbn. destruct (f a) eqn:Ea.
  - intros [= ->]. exists [], l. split_and!; [done..|]. by intros y ?%not_elem_of_nil.
  - intros H. destruct (IH H) as (l1 & l2 & -> & Hx & Hl). exists (a :: l1), l2.
    split_and!; [done..|]. intros y [->|?]%elem_of_cons; auto.
Qed.

Definition high_to_low : list Z := [9; 8; 7; 6; 5; 4; 3; 2; 1].

Lemma high_to_low_split l1 x l2 y :
  high_to_low = l1 ++ x :: l2 -> x < y <= 9 -> y ∈ l1.
Proof.
  intros H Hy. unfold high_to_low in H.
  do 9 (destruct l1 as [|? l1]; [injection H as <- <-; repeat
    (first [by apply list_elem_of_here | apply list_elem_of_further]); lia|injection H as <- H;
    match goal with |- _ ∈ ?a :: _ =>
      destruct (decide (y = a)) as [->|]; [by apply list_elem_of_here|apply list_elem_of_further] end]).
  by destruct l1.
Qed.

Lemma census_range insn r : insn_wf insn = true -> r ∈ census insn -> 0 <= r <= 10.
Proof.
  unfold insn_wf. intros Hw Hr.
  destruct insn; cbn [encode_fields census] in *;
    rewrite ?elem_of_cons in Hr;
    repeat match goal with
    | H : context [match ?x with _ => _ end] |- _ => is_var x; destruct x; cbn in H
    end; rewrite ?elem_of_cons, ?elem_of_nil in Hr; try done;
    rewrite ?andb_true_iff, ?in_range_iff in Hw; intuition lia.
Qed.

Lemma census_program insns :
  program_wf insns = true -> Forall (fun insn => forall r, r ∈ census insn -> 0 <= r) insns.
Proof.
  revert insns. apply program_wf_ind.
  - constructor.
  - intros first rest Hf _ IH. constructor; [|done]. intros r Hr.
    by destruct (census_range first r Hf Hr).
  - intros first hi rest Hp _ IH. constructor; [|constructor; [|done]].
    + intros r Hr. unfold ldimm64_pair in Hp. apply andb_true_iff in Hp as [_ Hp].
      destruct first; try discriminate Hp; cbn in Hr; apply list_elem_of_singleton in Hr as ->;
        rewrite !andb_true_iff, ?in_range_iff in Hp; lia.
    + intros r Hr. by apply not_elem_of_nil in Hr.
Qed.

Lemma is_used_spec insns r :
  program_wf insns = true -> 0 <= r <= 10 ->
  foldl mark_regs (replicate 11 false) insns !!! Z.to_nat r = true <->
  exists insn, insn ∈ insns /\ r ∈ census insn.
Proof.
  intros Ho Hr. set (used := foldl mark_regs (replicate 11 false) insns).
  assert (length used = 11%nat) as Hl.
  { assert (forall l u, length (foldl mark_regs u l) = length u) as H; [|apply H].
    induction l as [|i l IH]; intros u; cbn; [done|]. by rewrite IH, mark_length. }
  assert (used !!! Z.to_nat r = true <-> used !! Z.to_nat r = Some true) as ->.
  { destruct (lookup_lt_is_Some_2 used (Z.to_nat r)) as [b Hb]; [lia|].
    rewrite (list_lookup_total_correct _ _ _ Hb), Hb. split; congruence. }
  subst used. rewrite used_spec by (rewrite length_replicate; lia). split.
  - intros [H|(insn & x & Hi & Hx & Heq)]; [by apply lookup_replicate in H as [? _]|].
    exists insn. split; [done|]. pose proof (census_program insns Ho) as Hc. rewrite Forall_forall in Hc.
    specialize (Hc insn Hi x Hx). by replace r with x by lia.
  - intros (insn & Hi & Hx). right. eauto.
Qed.

(** What the driver relies on (the property below). *)
Lemma lowering_pair_spec (insns : list BpfInsn) (from to : Z) :
  program_wf insns = true -> lowering_pair insns = Some (from, to) ->
  1 <= to < from /\ from <= 9 /\
  (exists insn, insn ∈ insns /\ from ∈ census insn) /\
  (forall insn, insn ∈ insns -> to ∉ census insn) /\
  (forall r insn, from < r <= 9 -> insn ∈ insns -> r ∉ census insn).
Proof.
  intros Ho. unfold lowering_pair. set (used := foldl mark_regs (replicate 11 false) insns).
  assert (Hspec : forall r, 0 <= r <= 10 ->
    used !!! Z.to_nat r = true <-> exists insn, insn ∈ insns /\ r ∈ census insn)
    by (intros r Hr; by apply is_used_spec).
  destruct (List.find _ [9; 8; 7; 6; 5; 4; 3; 2; 1]) as [high|] eqn:Eh; [|done].
  destruct (List.find _ [1; 2; 3; 4; 5; 6; 7; 8; 9]) as [low|] eqn:El; [|done]. intros [= <- <-].
  destruct (find_split _ _ _ Eh) as (h1 & h2 & Hh & Huse & Hfirst). cbn beta in Huse.
  pose proof (find_some _ _ El) as [Hin Hlow]. apply andb_true_iff in Hlow as [Hun Hlt].
  apply negb_true_iff in Hun. apply Z.ltb_lt in Hlt.
  assert (1 <= high <= 9) as Hhr.
  { assert (In high [9; 8; 7; 6; 5; 4; 3; 2; 1]) as H by (rewrite Hh; apply in_elt). simpl in H. lia. }
  assert (1 <= low) as Hlr by (simpl in Hin; lia).
  split_and!; try lia.
  - apply (Hspec high); [lia|done].
  - intros insn Hi Hc. enough (used !!! Z.to_nat low = true) by congruence. apply Hspec; [lia|eauto].
  - intros r insn Hr Hi Hc. pose proof (high_to_low_split h1 high h2 r Hh Hr) as H1.
    specialize (Hfirst r H1). cbn beta in Hfirst.
    enough (used !!! Z.to_nat r = true) by congruence. apply Hspec; [lia|eauto].
Qed.

(** Register lowering renames the highest register of R1..R9 that an
    instruction of the census uses to a lower one that none uses; the frame
    pointer and the return register are never renamed. *)
Theorem lowering_pair_lowers (insns : list BpfInsn) (from to : Z) :
  program_wf insns = true -> lowering_pair insns = Some (from, to) ->
  1 <= to < from /\ from <= 9 /\
  (exists insn, insn ∈ insns /\ from ∈ census insn) /\
  (forall insn, insn ∈ insns -> to ∉ census insn) /\
  (forall r insn, from < r <= 9 -> insn ∈ insns -> r ∉ census insn).
Proof. apply lowering_pair_spec. Qed.

Lemma lowering_pair_lowers_witness :
  lowering_pair [BpfInsn.MovImm 9 1; BpfInsn.MovReg 0 9; BpfInsn.Exit] = Some (9, 1) /\ 1 <= 1 < 9.
Proof.
  split; [reflexivity|].
  apply (lowering_pair_lowers [BpfInsn.MovImm 9 1; BpfInsn.MovReg 0 9; BpfInsn.Exit] 9 1);
    reflexivity.
Defined.

(** What the operand passes miss. The constant of r2 survives a multiplication,
    a division by a constant, a 32-bit move and an ldimm64, and is carried past
    a join of two paths, so the immediate form uses a stale value; the base
    register of a store is not in the census, so a register is renamed onto it;
    renaming r2 changes the class of a kfunc call, kept in the same nibble;
    and the smallest memory offset, whose [abs] wraps to itself, is never shrunk
    (a debug build panics there). *)
Theorem operand_gaps :
  (* r2 = 5; r2 *= 3; r1 += r2 becomes r1 += 5 *)
  collect_known [] (replicate 11 None) 0
    [BpfInsn.MovImm 2 5; BpfInsn.MulImm 2 3 MulHigh.Low; BpfInsn.AddReg 1 2] =
    Some [("alu-form"%string, [0x07; 1; 0; 0; 5; 0; 0; 0])] /\
  apply_def [None; None; Some 5] (BpfInsn.Mov32Imm 2 7) = [None; None; Some 5] /\
  apply_def [None; None; Some 5] (BpfInsn.DivImm 2 7) = [None; None; Some 5] /\
  apply_def [None; None; Some 5] (BpfInsn.Neg 2) = [None; None; Some 5] /\
  apply_def [None; None; Some 5] (BpfInsn.LdImm64 2 7) = [None; None; Some 5] /\
  (* r2 = 5; if r1 == 0 goto +1; r2 = 9; r1 += r2: 9 on both paths *)
  collect_known [] (replicate 11 None) 0
    [BpfInsn.MovImm 2 5; BpfInsn.JeqImm 1 0 1; BpfInsn.MovImm 2 9; BpfInsn.AddReg 1 2] =
    Some [("alu-form"%string, [0x07; 1; 0; 0; 9; 0; 0; 0])] /\
  (* r5 = 1; *(u64* )(r1 + 0) = r5: r5 is renamed onto the base register *)
  lowering_pair [BpfInsn.MovImm 5 1; BpfInsn.StMem 5 1 0 MemSize.DW] = Some (5, 1) /\
  (* r2 = 1; call kfunc 7: renaming r2 to r1 makes it a bpf-to-bpf call *)
  lowering_pair [BpfInsn.MovImm 2 1; BpfInsn.CallKfunc 7] = Some (2, 1) /\
  (exists out, rename_all 2 1 [BpfInsn.MovImm 2 1; BpfInsn.CallKfunc 7] = Some out /\
     decode_program out = Ok [BpfInsn.MovImm 1 1; BpfInsn.CallSub 7]) /\
  (* r0 = *(u64* )(r10 - 32768) *)
  operand_candidates [0x79; 0xa0; 0; 0x80; 0; 0; 0; 0] = Some [].
Proof.
  do 8 (split; [vm_compute; reflexivity|]). split; [|vm_compute; reflexivity].
  eexists. split; [vm_compute; reflexivity|]. vm_compute; reflexivity.
Qed.
