(* ===== verification/ReduceAnchor.v ===== *)
(** The failure anchor of the testcase reducer (failure_anchor of
    src/src/fuzz/reduce/passes.rs): where a run of the verifier on the program
    locates the failure, and that the run ends on every program.  The run panics
    where the verifier does, and the reducer with it. *)
From Stdlib Require Import ZArith Lia List Bool String.
From stdpp Require Import base list gmap strings.
From S2P Require Import Prelude Insn Ctx State Mini ConcreteRun Env Oracle.
Open Scope Z_scope.

(** The order in which the hash map of the analyzed states is iterated. *)
Definition IterOrder : Type := gmap Z (list VerifierState) -> list (Z * list VerifierState).

(** The failing instruction of a rejected program, the first violation of an
    accepted one; [None] when the verifier panics (or would not return). *)
Definition failure_anchor (iter : IterOrder) (bytes : list Z) : option (option nat) :=
  match setup_prog_bytes bytes env_new with
  | Err _ => Some None
  | Ok (_, env) =>
      match verify iter env with
      | Returns (Unsafe failure, _) => Some (Some (Z.to_nat (insn_idx failure)))
      | Returns (Safe, env') => Some (option_map Z.to_nat (first_violation_pc env'))
      | Panics | NoResult => None
      end
  end.

(** The verifier panics on the program. *)
Definition verifier_panics (iter : IterOrder) (bytes : list Z) : Prop :=
  exists n env, setup_prog_bytes bytes env_new = Ok (n, env) /\ verify iter env = Panics.

Lemma failure_anchor_none iter bytes :
  Forall is_byte bytes -> failure_anchor iter bytes = None -> verifier_panics iter bytes.
Proof.
  intros Hb. unfold failure_anchor. destruct (setup_prog_bytes bytes env_new) as [[n env]|] eqn:Hs; [|done].
  destruct (verify_loaded iter bytes _ _ _ _ Hb Hs) as [Hn _]. exists n, env. split; [done|].
  by destruct (verify iter env) as [[[|] ?]| |].
Qed.

(** The two ways to panic: a call of the dynptr write, or the concrete run. *)
Lemma verifier_panics_inv iter bytes :
  Forall is_byte bytes -> verifier_panics iter bytes ->
  exists n env, setup_prog_bytes bytes env_new = Ok (n, env) /\
    (BpfInsn.Call 202 ∈ insns (prog env) \/ exists heads, run_concretely heads env = Panics).
Proof.
  intros Hb (n & env & Hs & Hp). exists n, env. split; [done|].
  by apply (verify_loaded iter bytes _ _ _ _ Hb Hs).
Qed.

(** The bytes of two functions, the second of which ends with a call: the
    cross-check of the rejected program panics. *)
Definition trailing_call_bytes : list Z :=
  [0xb7; 0; 0; 0; 0; 0; 0; 0;  0x95; 0; 0; 0; 0; 0; 0; 0;
   0x95; 0; 0; 0; 0; 0; 0; 0;  0x85; 0x10; 0; 0; 0xfe; 0xff; 0xff; 0xff].

Lemma trailing_call_anchor iter : failure_anchor iter trailing_call_bytes = None.
Proof. vm_compute. reflexivity. Qed.
