(* ===== verification/ReduceDriver.v ===== *)
(** The driver of the testcase reducer (src/src/fuzz/reduce/driver.rs): the
    cycle of structural passes, delta debugging and operand minimisation, and the
    loop that repeats it until a cycle makes no progress.  The oracle is a
    parameter that returns; the failure anchor is a run of the verifier, whose hash
    map may be iterated in another order in every cycle.  The theorems: the driver
    moves only to programs the oracle accepted, never grows the program, and
    reaches a fixpoint without any budget (unless the verifier panics on a program
    on the way), because every
    accepted candidate is smaller in a well-founded order (instructions, then
    conditional branches, then register-form ALU instructions, then register
    numbers, then operand magnitudes). *)
From Stdlib Require Import ZArith Lia List Bool String Sorted.
From stdpp Require Import base gmap list strings.
From S2P Require Import Prelude Insn Reduce ReducePasses ReduceOperand ReduceAnchor.
Open Scope Z_scope.

Definition insn_count (bytes : list Z) : nat := Nat.div (length bytes) 8.

Section Driver.
Context {W : Type} (oracle : W -> list Z -> bool * W) (iter : W -> IterOrder).

(** [apply]: the candidate must differ and pass the oracle. *)
Definition apply_candidate (current candidate : list Z) (c : OracleCache) (w : W)
  : option (list Z) * OracleCache * W :=
  if decide (candidate = current) then (None, c, w)
  else
    match cache_check oracle c w candidate with
    | (Some true, c', w') => (Some candidate, c', w')
    | (_, c', w') => (None, c', w')
    end.

(** The loop over candidates that stops at the first one accepted. *)
Fixpoint first_accepted (current : list Z) (candidates : list (list Z)) (c : OracleCache) (w : W)
  : option (list Z) * OracleCache * W :=
  match candidates with
  | [] => (None, c, w)
  | candidate :: rest =>
      match apply_candidate current candidate c w with
      | (Some next, c', w') => (Some next, c', w')
      | (None, c', w') => first_accepted current rest c' w'
      end
  end.

(** An optional candidate; [None] where the encoder panics. *)
Definition one_candidate (r : result NoDeletion (list Z)) : option (list (list Z)) :=
  match r with
  | Ok out => Some [out]
  | Err Refused => Some []
  | Err EncodePanics => None
  end.

Definition cfg_candidates (order : IterOrder) (current : list Z) : option (list (list Z)) :=
  anchor ← failure_anchor order current;
  match one_candidate (dead_code current),
        one_candidate (slice_to_anchor current anchor),
        one_candidate (let? d := dead_code current in slice_to_anchor d anchor),
        simplify_dead_side current with
  | Some a, Some b, Some d, Some e => Some (a ++ b ++ d ++ e)
  | _, _, _, _ => None
  end.

Definition TimelineEntry : Type := string * nat.

(** One cycle: the program it ends with, the entries it added to the timeline
    and whether it made progress; or a panic of the encoder or of the verifier. *)
Inductive Cycle :=
| Cycled (current : list Z) (entries : list TimelineEntry) (progress : bool)
| CyclePanics.

Definition after_pass (name : string) (current : list Z) (next : option (list Z))
    (entries : list TimelineEntry) (progress : bool) : list Z * list TimelineEntry * bool :=
  match next with
  | Some next => (next, entries ++ [(name, insn_count next)], true)
  | None => (current, entries, progress)
  end.

Definition run_cycle (current : list Z) (c : OracleCache) (w : W) : Cycle * OracleCache * W :=
  match cfg_candidates (iter w) current with
  | None => (CyclePanics, c, w)
  | Some candidates =>
      let '(next, c, w) := first_accepted current candidates c w in
      let '(current, entries, progress) := after_pass "cfg" current next [] false in
      let '(outcome, c, w) := ddmin oracle current c w in
      match outcome with
      | Panics | OutOfFuel => (CyclePanics, c, w)
      | NotInteresting | Returns _ =>
          let next :=
            match outcome with
            | Returns reduced => if decide (reduced = current) then None else Some reduced
            | _ => None
            end in
          let '(current, entries, progress) := after_pass "ddmin" current next entries progress in
          match operand_candidates current with
          | None => (CyclePanics, c, w)
          | Some candidates =>
              let '(next, c, w) := first_accepted current (map snd candidates) c w in
              let '(current, entries, progress) := after_pass "operand" current next entries progress in
              (Cycled current entries progress, c, w)
          end
      end
  end.

(** The loop of [reduce_finding], to its fixpoint. *)
Inductive Reduction :=
| Finished (current : list Z) (timeline : list TimelineEntry)
| DriverPanics
| Unfinished.

Fixpoint reduce_loop (fuel : nat) (current : list Z) (timeline : list TimelineEntry)
    (c : OracleCache) (w : W) : Reduction * OracleCache * W :=
  match fuel with
  | O => (Unfinished, c, w)
  | S fuel' =>
      match run_cycle current c w with
      | (CyclePanics, c', w') => (DriverPanics, c', w')
      | (Cycled current' entries progress, c', w') =>
          if progress then reduce_loop fuel' current' (timeline ++ entries) c' w'
          else (Finished current' (timeline ++ entries), c', w')
      end
  end.

(** The part of [reduce_finding] between the replay and the final re-check. *)
Definition reduce (fuel : nat) (original : list Z) (budget : nat) (w : W) : Reduction * OracleCache * W :=
  reduce_loop fuel original [("start"%string, insn_count original)] (OracleCache.new budget) w.
End Driver.

(** * Weights *)

Definition cond_op (op : Z) : bool :=
  ((Z.land op 7 =? 5) || (Z.land op 7 =? 6)) &&
  negb ((op =? opcode.JMP) || (op =? opcode.CALL) || (op =? opcode.EXIT)).

Definition x_op (op : Z) : bool :=
  existsb (Z.eqb op)
    [opcode.MOV_REG; opcode.ADD_REG; opcode.SUB_REG; opcode.AND_REG; opcode.OR_REG; opcode.XOR_REG;
     opcode.LSH_REG; opcode.RSH_REG; opcode.ARSH_REG; opcode.ADD32_REG; opcode.SUB32_REG;
     opcode.AND32_REG; opcode.OR32_REG; opcode.XOR32_REG; opcode.LSH32_REG; opcode.RSH32_REG;
     opcode.ARSH32_REG].

Definition cond_weight (insn : BpfInsn) : nat :=
  match encode_fields insn with Some (op, _, _, _, _) => if cond_op op then 1 else 0 | None => 0 end%nat.
Definition x_weight (insn : BpfInsn) : nat :=
  match encode_fields insn with Some (op, _, _, _, _) => if x_op op then 1 else 0 | None => 0 end%nat.
Definition reg_weight (insn : BpfInsn) : nat :=
  match encode_fields insn with Some (_, dst, src, _, _) => Z.to_nat dst + Z.to_nat src | None => 0 end%nat.
Definition operand_weight (insn : BpfInsn) : nat :=
  (match imm_of insn with Some imm => Z.to_nat (Z.abs imm) | None => 0 end +
   match stack_offset insn with Some off => Z.to_nat (Z.abs off) | None => 0 end)%nat.

Definition total (f : BpfInsn -> nat) (insns : list BpfInsn) : nat := list_sum (map f insns).

Definition weights (bytes : list Z) : nat * nat * nat * nat :=
  match decode_program bytes with
  | Ok insns => (total cond_weight insns, total x_weight insns, total reg_weight insns,
                 total operand_weight insns)
  | Err _ => (0, 0, 0, 0)%nat
  end.

(** The lexicographic order. *)
Definition lower4 (a b : nat * nat * nat * nat) : Prop :=
  let '(c, x, r, o) := a in let '(c', x', r', o') := b in
  (c < c' \/ c = c' /\ (x < x' \/ x = x' /\ (r < r' \/ r = r' /\ o < o')))%nat.

Definition lower (a b : list Z) : Prop :=
  (length a < length b)%nat \/ length a = length b /\ lower4 (weights a) (weights b).

Lemma lower4_trans a b c : lower4 a b -> lower4 b c -> lower4 a c.
Proof. destruct a as [[[? ?] ?] ?], b as [[[? ?] ?] ?], c as [[[? ?] ?] ?]. cbn. lia. Qed.

Lemma lower_trans a b c : lower a b -> lower b c -> lower a c.
Proof.
  unfold lower. intros [H1|[Hl1 H1]] [H2|[Hl2 H2]]; [left; lia|left; lia|left; lia|right]. split; [lia|].
  by eapply lower4_trans.
Qed.

Lemma lower4_wf : well_founded lower4.
Proof.
  assert (forall c x r o, Acc lower4 (c, x, r, o)) as H; [|intros [[[c x] r] o]; apply H].
  induction c as [c IHc] using lt_wf_ind. induction x as [x IHx] using lt_wf_ind.
  induction r as [r IHr] using lt_wf_ind. induction o as [o IHo] using lt_wf_ind.
  constructor. intros [[[c' x'] r'] o']. cbn.
  intros [?|[-> [?|[-> [?|[-> ?]]]]]]; [by apply IHc|by apply IHx|by apply IHr|by apply IHo].
Qed.

Lemma lower_wf : well_founded lower.
Proof.
  assert (forall n q a, length a = n -> weights a = q -> Acc lower a) as H; [|intros a; by eapply H].
  induction n as [n IHn] using lt_wf_ind. induction q as [q IHq] using (well_founded_ind lower4_wf).
  intros a <- <-. constructor. intros b [?|[? ?]]; [by eapply IHn|by eapply IHq].
Qed.

Lemma total_update f insns pc insn insn' :
  insns !! pc = Some insn -> (total f (<[pc := insn']> insns) + f insn = total f insns + f insn')%nat.
Proof.
  unfold total. revert pc. induction insns as [|first rest IH]; intros [|pc] H; try done.
  - injection H as ->. change (<[0%nat := insn']> (insn :: rest)) with (insn' :: rest).
    cbn [map list_sum fold_right]. lia.
  - change (<[S pc := insn']> (first :: rest)) with (first :: <[pc := insn']> rest).
    specialize (IH pc H). unfold list_sum in *. cbn [map fold_right]. lia.
Qed.

(** A replaced instruction with smaller weights makes the program lower. *)
Lemma replaces_lower bytes insns pc insn insn' cand :
  decode_program bytes = Ok insns -> insns !! pc = Some insn -> length cand = length bytes ->
  decode_program cand = Ok (<[pc := insn']> insns) ->
  lower4 (cond_weight insn', x_weight insn', reg_weight insn', operand_weight insn')
         (cond_weight insn, x_weight insn, reg_weight insn, operand_weight insn) ->
  lower cand bytes.
Proof.
  intros Hd Hpc Hl Hc Hw. right. split; [done|]. unfold weights. rewrite Hd, Hc.
  pose proof (total_update cond_weight insns pc insn insn' Hpc).
  pose proof (total_update x_weight insns pc insn insn' Hpc).
  pose proof (total_update reg_weight insns pc insn insn' Hpc).
  pose proof (total_update operand_weight insns pc insn insn' Hpc).
  cbn in *. lia.
Qed.

(** * Programs without the opcode the encoder does not know

    The decoder reads opcode 0x99, on which the encoder panics; no pass
    introduces it. *)

Definition good_slot (chunk : list Z) : Prop :=
  length chunk = 8%nat /\ Forall is_byte chunk /\ hd 0 chunk <> 0x99.

Definition good (bytes : list Z) : Prop :=
  exists chunks, Forall good_slot chunks /\ bytes = concat chunks.

Lemma good_chunks chunks :
  Forall good_slot chunks -> as_chunks (concat chunks) = (chunks, []).
Proof.
  induction 1 as [|c rest [Hl _] _ IH]; [done|]. cbn [concat].
  by rewrite as_chunks_app, IH by done.
Qed.

Lemma good_bytes bytes : good bytes -> Forall is_byte bytes.
Proof.
  intros (chunks & H & ->). induction H as [|c rest (_ & Hb & _) _ IH]; [by constructor|].
  by apply Forall_app.
Qed.

Lemma good_app a b : good a -> good b -> good (a ++ b).
Proof.
  intros (ca & Ha & ->) (cb & Hb & ->). exists (ca ++ cb). split; [by apply Forall_app|].
  by rewrite concat_app.
Qed.

Lemma good_slot_good chunk : good_slot chunk -> good chunk.
Proof. intros H. exists [chunk]. split; [by apply Forall_singleton|]. cbn. by rewrite app_nil_r. Qed.

Lemma wide_op op dst src offset imm insn :
  0 <= op < 256 -> decode_op op dst src offset imm = Ok insn -> is_wide_sign_load insn = true ->
  op = 0x99.
Proof.
  intros Hop. apply u8_list in Hop. vm_compute in Hop.
  repeat (destruct Hop as [<-|Hop]); [..|done]; intros H Hw; try discriminate H; try reflexivity.
  all: exfalso; unfold decode_op in H; cbn in H;
    unfold parse_alu, parse_packet_load, parse_call, parse_mem, parse_atomic,
      src_form_reserved, is_x, size_of_op in H; cbn in H; rewrite ?andb_true_r in H; accept_tests;
    discriminate Hw.
Qed.

Lemma parse_not_wide chunk insn :
  good_slot chunk -> parse_insn chunk = Ok insn -> is_wide_sign_load insn = false.
Proof.
  intros (Hl & Hb & Hh) Hp. do 9 (destruct chunk as [|? chunk]; try discriminate Hl).
  cbn [parse_insn] in Hp. cbv zeta in Hp. destruct (10 <? _); [done|]. destruct (10 <? _); [done|].
  apply Forall_cons in Hb as [Hb _]. apply not_true_iff_false. intros Hw. apply Hh. cbn.
  by eapply wide_op.
Qed.

Lemma decode_slots_not_wide n idx chunks insns :
  (length chunks <= n)%nat -> Forall good_slot chunks -> decode_slots idx chunks = Ok insns ->
  existsb is_wide_sign_load insns = false.
Proof.
  revert idx chunks insns. induction n as [|n IH]; intros idx [|c rest] insns Hn Hg Hd; simpl in Hn; try lia;
    try (by injection Hd as <-).
  apply Forall_cons in Hg as [Hc Hg]. cbn [decode_slots] in Hd. cbv zeta in Hd.
  destruct (hd 0 c =? opcode.LD_IMM64) eqn:Ec.
  - destruct rest as [|second rest]; [done|]. apply Forall_cons in Hg as [_ Hg].
    destruct (parse_ldimm64 c second) as [first|] eqn:Hp; [|done].
    apply rbind_ok in Hd as (rest' & Hrest & Heq). injection Heq as <-. simpl in Hn.
    cbn [existsb]. rewrite (IH (idx + 2) rest rest') by (lia || done).
    apply parse_ldimm64_not_wf in Hp as Hnw. unfold parse_ldimm64 in Hp.
    destruct first; try done. destruct size, sign_extend; try done. exfalso.
    do 9 (destruct c as [|? c]; try (by destruct (negb _) in Hp)).
    do 9 (destruct second as [|? second]; try (by destruct (negb _) in Hp)). cbv zeta in Hp.
    repeat match type of Hp with (if ?b then _ else _) = _ => destruct b; [discriminate Hp|] end.
    destruct (Z.land _ 15) as [|[|[]|]|]; try discriminate Hp.
    destruct (negb _); discriminate Hp.
  - destruct (parse_insn c) as [first|] eqn:Hp; [|done].
    apply rbind_ok in Hd as (rest' & Hrest & Heq). injection Heq as <-.
    cbn [existsb]. rewrite (parse_not_wide c first Hc Hp). by apply (IH (idx + 1) rest); [lia|..].
Qed.

Lemma good_decoded bytes insns :
  good bytes -> decode_program bytes = Ok insns ->
  existsb is_wide_sign_load insns = false /\ program_wf insns = true /\
  length bytes = (8 * length insns)%nat.
Proof.
  intros Hg Hd. destruct (decoded_program_slots bytes insns (good_bytes _ Hg) Hd) as [Hl Hwf].
  assert (existsb is_wide_sign_load insns = false) as Hw; [|auto].
  destruct Hg as (chunks & Hc & ->). destruct (decode_program_inv _ _ Hd) as [Hs _].
  rewrite good_chunks in Hs by done. by eapply decode_slots_not_wide.
Qed.

Lemma regs_is_byte a b : 0 <= b < 16 -> is_byte (Z.lor (as_u8 a) b).
Proof.
  intros Hb. unfold is_byte. apply (bits_range 8); [lia|]. intros i Hi.
  rewrite Z.lor_spec. pose proof (as_u_range 8 a).
  rewrite (testbit_high 8 (as_u8 a)), (testbit_high 8 b) by lia. done.
Qed.

Lemma encode_op_known insn op dst src off imm :
  encode_fields insn = Some (op, dst, src, off, imm) -> op <> 0x99.
Proof.
  intros He. destruct insn; cbn in He;
    repeat match goal with
    | H : context [match ?x with _ => _ end] |- _ => is_var x; destruct x; cbn in *; try discriminate
    end; injection He; intros; subst; try done;
    match goal with o : Jmp32Op |- _ => destruct o; cbn; lia end.
Qed.

Lemma encode_good insn chunk : encode insn = Some chunk -> good_slot chunk.
Proof.
  intros He. split; [by eapply encode_length|]. unfold encode in He.
  destruct (encode_fields insn) as [[[[[op dst] src] off] imm]|] eqn:Ef; [|done].
  injection He as <-. split; [|by eapply encode_op_known].
  pose proof (encode_op_byte _ _ _ _ _ _ Ef). unfold le16, le32. simpl.
  constructor; [done|]. constructor; [apply regs_is_byte, nibble|].
  repeat (constructor; [apply as_u8_byte|]). constructor.
Qed.

Lemma encode_program_good insns out : encode_program insns = Some out -> good out.
Proof.
  revert out. induction insns as [|insn rest IH]; intros out; cbn.
  { intros [= <-]. by exists []. }
  destruct (encode insn) as [b|] eqn:Eb; [|done]. destruct (encode_program rest) as [bs|]; [|done].
  intros [= <-]. apply good_app; [by eapply good_slot_good, encode_good|by apply IH].
Qed.

Lemma patch_good bytes pc chunk :
  good bytes -> (8 * pc + 8 <= length bytes)%nat -> good_slot chunk -> good (patch bytes pc chunk).
Proof.
  intros (chunks & Hc & ->) Hl Hg.
  assert (forall l, Forall good_slot l -> length (concat l) = (8 * length l)%nat) as Hlen.
  { induction 1 as [|c rest [Hs _] _ IH]; [done|]. cbn. rewrite length_app, Hs, IH. lia. }
  rewrite (Hlen _ Hc) in Hl. assert (pc < length chunks)%nat as Hpc by lia. clear Hl.
  destruct (lookup_lt_is_Some_2 chunks pc Hpc) as [c Hlook].
  pose proof (take_drop_middle chunks pc c Hlook) as Hsplit.
  rewrite <- Hsplit in Hc |- *. apply Forall_app in Hc as [H1 H2]. apply Forall_cons in H2 as [[H3 _] H2].
  exists (take pc chunks ++ chunk :: drop (S pc) chunks). split.
  { apply Forall_app. split; [done|]. by constructor. }
  rewrite !concat_app. cbn [concat]. unfold patch.
  assert (length (concat (take pc chunks)) = pc * 8)%nat as Htl by (rewrite (Hlen _ H1), length_take; lia).
  rewrite <- Htl. rewrite take_app_length. f_equal. f_equal.
  rewrite skipn_app, (skipn_all2 (concat (take pc chunks))) by lia. cbn [app].
  replace (length (concat (take pc chunks)) + 8 - length (concat (take pc chunks)))%nat with (length c) by lia.
  by rewrite drop_app_length.
Qed.

(** * Structural candidates are lower *)

(** A candidate that is a good program below the current one. *)
Definition improves (cand current : list Z) : Prop := good cand /\ lower cand current.

Lemma rank_lt_len remove i len :
  (i < len)%nat -> is_removed remove i = true -> (rank remove len < len)%nat.
Proof.
  intros Hi Hr. pose proof (rank_mono remove 0 i ltac:(lia)) as H1. change (rank remove 0) with 0%nat in H1.
  pose proof (rank_S remove i) as H2. rewrite Hr in H2.
  pose proof (rank_mono remove (S i) len ltac:(lia)) as H3. lia.
Qed.

Lemma delete_good bytes remove out :
  good bytes -> delete_insns bytes remove = Ok out ->
  exists insns, decode_program bytes = Ok insns /\ good out /\
    length bytes = (8 * length insns)%nat /\ length out = (8 * rank remove (length insns))%nat.
Proof.
  intros Hg Hdel. destruct (decode_program bytes) as [insns|] eqn:Hd.
  2: { unfold delete_insns in Hdel. rewrite Hd in Hdel. by destruct (_ || _) in Hdel. }
  destruct (good_decoded bytes insns Hg Hd) as (Hw & _ & Hl). pose proof (good_bytes _ Hg) as Hb.
  exists insns. split; [done|]. destruct (decide (bytes = [])) as [->|Hne]; [discriminate Hdel|].
  split_and!; [|done|by eapply deletion_length].
  destruct (delete_insns_spec bytes insns remove Hb Hne Hd Hw) as (out' & Hout & Hspec).
  rewrite Hspec in Hdel. destruct (_ && _) in Hdel; [|done]. injection Hdel as ->.
  by eapply encode_program_good.
Qed.

Lemma delete_improves bytes remove out i :
  good bytes -> delete_insns bytes remove = Ok out -> is_removed remove i = true ->
  (forall insns, decode_program bytes = Ok insns -> i < length insns)%nat -> improves out bytes.
Proof.
  intros Hg Hdel Hr Hi. destruct (delete_good bytes remove out Hg Hdel) as (insns & Hd & Hgo & Hl & Hlo).
  split; [done|]. left. pose proof (rank_lt_len remove i _ (Hi insns Hd) Hr). lia.
Qed.

Lemma decode_inv bytes insns : decode bytes = Some insns -> decode_program bytes = Ok insns.
Proof. unfold decode. destruct (_ || _); [done|]. destruct (decode_program bytes); [by intros [= ->]|done]. Qed.

Lemma unmarked_improves bytes insns marks out :
  good bytes -> decode_program bytes = Ok insns -> unmarked (length insns) marks <> [] ->
  delete_insns bytes (unmarked (length insns) marks) = Ok out -> improves out bytes.
Proof.
  intros Hg Hd Hne Hdel. destruct (unmarked (length insns) marks) as [|i l] eqn:E; [done|].
  apply (delete_improves bytes (i :: l) out i); [done|done|cbn; by rewrite Nat.eqb_refl|].
  intros insns' Hd'. rewrite Hd in Hd'. injection Hd' as <-.
  assert (i ∈ unmarked (length insns) marks) as Hi by (rewrite E; apply list_elem_of_here).
  unfold unmarked in Hi. apply list_elem_of_filter in Hi as [_ Hi]. apply elem_of_seq in Hi. lia.
Qed.

Lemma dead_code_improves bytes out : good bytes -> dead_code bytes = Ok out -> improves out bytes.
Proof.
  intros Hg. unfold dead_code. destruct (decode bytes) as [insns|] eqn:Hd; [|done].
  destruct (unmarked _ _) eqn:E; [done|]. rewrite <- E. intros H.
  eapply unmarked_improves; [done|by apply decode_inv| |exact H]. by rewrite E.
Qed.

Lemma slice_improves bytes anchor out : good bytes -> slice_to_anchor bytes anchor = Ok out -> improves out bytes.
Proof.
  intros Hg. unfold slice_to_anchor. destruct (decode bytes) as [insns|] eqn:Hd; [|done].
  destruct anchor as [a|]; [|done]. destruct (_ <=? _)%nat; [done|].
  destruct (unmarked _ _) eqn:E; [done|]. rewrite <- E. intros H.
  eapply unmarked_improves; [done|by apply decode_inv| |exact H]. by rewrite E.
Qed.

(** An instruction of one slot. *)
Definition single (insn : BpfInsn) : bool :=
  match insn with
  | BpfInsn.LdImm64 _ _ | BpfInsn.LdMapFd _ _ _ _ _ | BpfInsn.LdMapValue _ _ _ _ _
  | BpfInsn.LdImm64Second _ => false
  | _ => true
  end.

Lemma pair_first first hi : ldimm64_pair first hi = true -> single first = false.
Proof. unfold ldimm64_pair. rewrite andb_true_iff. intros [_ H]. by destruct first. Qed.

Lemma program_wf_cons first rest :
  insn_wf first = true -> program_wf (first :: rest) = program_wf rest.
Proof. intros H. cbn. by rewrite H. Qed.

Lemma program_wf_slot insns :
  program_wf insns = true -> forall pc insn, insns !! pc = Some insn -> single insn = true ->
  insn_wf insn = true /\
  forall insn', insn_wf insn' = true -> program_wf (<[pc := insn']> insns) = true.
Proof.
  revert insns. refine (program_wf_ind _ _ _ _); [done|..].
  - intros first rest Hf Hw IH [|pc] insn Hi Hs; cbn in Hi.
    + injection Hi as ->. split; [done|]. intros insn' Hw'. by rewrite <- (program_wf_cons insn') in Hw.
    + destruct (IH pc insn Hi Hs) as [H1 H2]. split; [done|]. intros insn' Hw'.
      change (<[S pc := insn']> (first :: rest)) with (first :: <[pc := insn']> rest).
      rewrite program_wf_cons by done. by apply H2.
  - intros first hi rest Hp Hw IH [|[|pc]] insn Hi Hs; cbn in Hi.
    + injection Hi as ->. by rewrite (pair_first _ _ Hp) in Hs.
    + by injection Hi as <-.
    + destruct (IH pc insn Hi Hs) as [H1 H2]. split; [done|]. intros insn' Hw'.
      change (<[S (S pc) := insn']> (first :: BpfInsn.LdImm64Second hi :: rest))
        with (first :: BpfInsn.LdImm64Second hi :: <[pc := insn']> rest).
      cbn [program_wf]. rewrite (pair_not_single first hi Hp), Hp. by apply H2.
Qed.

Lemma cond_weight_branch insn :
  insn_wf insn = true -> is_conditional_branch insn = true -> cond_weight insn = 1%nat.
Proof.
  intros Hw Hc. unfold insn_wf, cond_weight in *. destruct insn; try discriminate Hc; try reflexivity.
  cbn in *. destruct src, imm, op; try discriminate Hw; reflexivity.
Qed.

Lemma simplify_at_improves bytes insns pc insn cands cand :
  good bytes -> decode_program bytes = Ok insns -> insns !! pc = Some insn ->
  simplify_at bytes insns pc insn = Some cands -> cand ∈ cands -> improves cand bytes.
Proof.
  intros Hg Hd Hpc. destruct (good_decoded bytes insns Hg Hd) as (_ & Hwf & Hl).
  unfold simplify_at. destruct (is_conditional_branch insn) eqn:Hc; cbn [negb];
    [|intros [= <-] H; by apply not_elem_of_nil in H].
  destruct (branch_offset insn) as [off|] eqn:Hb; [|intros [= <-] H; by apply not_elem_of_nil in H].
  cbv zeta. destruct (_ || _); [intros [= <-] H; by apply not_elem_of_nil in H|].
  assert (single insn = true) as Hsing by (by destruct insn).
  destruct (program_wf_slot insns Hwf pc insn Hpc Hsing) as [Hiw Hupd].
  assert (insn_wf (BpfInsn.Jmp off) = true) as Hjw.
  { destruct (with_offset_spec insn off 0 Hb) as (_ & _ & Hr). destruct (Hr Hiw) as [Ho _].
    unfold insn_wf. cbn. by rewrite Ho. }
  assert (Hfirst : forall out, encode_program (<[pc := BpfInsn.Jmp off]> insns) = Some out -> improves out bytes).
  { intros out Hout. split; [by eapply encode_program_good|].
    destruct (program_roundtrip _ (Hupd _ Hjw)) as (b & Hb' & Hdec). rewrite Hout in Hb'. injection Hb' as <-.
    eapply replaces_lower; [done|done| |exact Hdec|].
    - rewrite (encode_program_length _ _ Hout), length_insert. done.
    - rewrite (cond_weight_branch insn) by done. change (cond_weight (BpfInsn.Jmp off)) with 0%nat.
      left. lia. }
  assert (Hsecond : forall out, delete_insns bytes [pc] = Ok out -> improves out bytes).
  { intros out Hout. apply (delete_improves bytes [pc] out pc); [done|done|cbn; by rewrite Nat.eqb_refl|].
    intros insns' Hd'. rewrite Hd in Hd'. injection Hd' as <-. by eapply lookup_lt_Some. }
  destruct (if (_ && _)%bool then _ else _) as [a|] eqn:Ea; [|done].
  destruct (if bool_decide _ then _ else _) as [b|] eqn:Eb; [|done]. intros [= <-] [H|H]%elem_of_app.
  - destruct (_ && _) in Ea; [|injection Ea as <-; by apply not_elem_of_nil in H].
    destruct (encode_program _) as [out|] eqn:Eo; [|done]. injection Ea as <-.
    apply list_elem_of_singleton in H as ->. by apply Hfirst.
  - destruct (bool_decide _) in Eb; [|injection Eb as <-; by apply not_elem_of_nil in H].
    destruct (delete_insns bytes [pc]) as [out|[]] eqn:Eo; [|done|].
    + injection Eb as <-. apply list_elem_of_singleton in H as ->. by apply Hsecond.
    + injection Eb as <-. by apply not_elem_of_nil in H.
Qed.

Lemma simplify_improves bytes cands cand :
  good bytes -> simplify_dead_side bytes = Some cands -> cand ∈ cands -> improves cand bytes.
Proof.
  intros Hg. unfold simplify_dead_side. destruct (decode bytes) as [insns|] eqn:Hd;
    [|intros [= <-] H; by apply not_elem_of_nil in H].
  apply decode_inv in Hd.
  enough (forall rest pc cands, (forall k insn, rest !! k = Some insn -> insns !! (pc + k)%nat = Some insn) ->
    simplify_from bytes insns pc rest = Some cands -> cand ∈ cands -> improves cand bytes) as H
    by (apply (H insns 0%nat); auto).
  induction rest as [|insn rest IH]; intros pc cs Hsub; cbn [simplify_from].
  { intros [= <-] H. by apply not_elem_of_nil in H. }
  destruct (simplify_at _ _ _ _) as [a|] eqn:Ea; [|done].
  destruct (simplify_from _ _ _ _) as [b|] eqn:Eb; [|done]. intros [= <-] [H|H]%elem_of_app.
  - eapply simplify_at_improves; [done|done| |exact Ea|done].
    rewrite <- (Nat.add_0_r pc). by apply Hsub.
  - eapply (IH (S pc)); [|exact Eb|done]. intros k i Hk. rewrite Nat.add_succ_comm. by apply Hsub.
Qed.

Lemma one_candidate_elem r l x : one_candidate r = Some l -> x ∈ l -> r = Ok x.
Proof.
  destruct r as [y|[]]; [|done|]; intros [= <-] H; [by apply list_elem_of_singleton in H as ->|].
  by apply not_elem_of_nil in H.
Qed.

Lemma improves_trans a b c : improves a b -> improves b c -> improves a c.
Proof. intros [? ?] [_ ?]. split; [done|]. by eapply lower_trans. Qed.

Lemma cfg_improves order current cands cand :
  good current -> cfg_candidates order current = Some cands -> cand ∈ cands ->
  improves cand current.
Proof.
  intros Hg. unfold cfg_candidates. destruct (failure_anchor order current) as [anchor|]; [|done]. cbn [mbind option_bind].
  destruct (one_candidate (dead_code current)) as [a|] eqn:Ea; [|done].
  destruct (one_candidate (slice_to_anchor current _)) as [b|] eqn:Eb; [|done].
  destruct (one_candidate (rbind _ _)) as [d|] eqn:Ed; [|done].
  destruct (simplify_dead_side current) as [e|] eqn:Ee; [|done].
  intros [= <-]. rewrite !elem_of_app. intros [H|[H|[H|H]]].
  - by apply dead_code_improves, (one_candidate_elem _ _ _ Ea).
  - by eapply slice_improves, one_candidate_elem.
  - apply (one_candidate_elem _ _ _ Ed) in H. apply rbind_ok in H as (x & Hx & H).
    pose proof (dead_code_improves _ _ Hg Hx) as Hi. eapply improves_trans; [|exact Hi].
    eapply slice_improves; [apply Hi|exact H].
  - by eapply simplify_improves.
Qed.

Lemma ddmin_improves {W} (oracle : W -> list Z -> bool * W) bytes c w best c' w' :
  good bytes -> ddmin oracle bytes c w = (Returns best, c', w') -> best = bytes \/ improves best bytes.
Proof.
  intros Hg E. apply (ddmin_search oracle) in E. destruct E as [_ [[? _]|(keep & (Hs & Hp & Hc) & _ & _)]];
    [by left|]. destruct Hc as [[_ ?]|[Hlt Hdel]]; [by left|right].
  destruct (delete_good _ _ _ Hg Hdel) as (insns & Hd & Hgo & Hl & Hlo). split; [done|]. left.
  assert (length bytes / 8 = length insns)%nat as H8 by (rewrite Hl, Nat.mul_comm; by apply Nat.div_mul).
  rewrite H8 in *. rewrite (survivor_count _ _ Hs Hp) in Hlo. lia.
Qed.

(** * Operand candidates are lower *)

Lemma patch_length bytes pc chunk :
  length chunk = 8%nat -> (8 * pc + 8 <= length bytes)%nat -> length (patch bytes pc chunk) = length bytes.
Proof. intros Hc Hl. unfold patch. rewrite !length_app, length_take, length_drop. lia. Qed.

Lemma replaces_improves bytes insns pc insn insn' cand :
  good bytes -> decode_program bytes = Ok insns -> insns !! pc = Some insn ->
  replaces bytes insns pc insn' cand ->
  lower4 (cond_weight insn', x_weight insn', reg_weight insn', operand_weight insn')
         (cond_weight insn, x_weight insn, reg_weight insn, operand_weight insn) ->
  improves cand bytes.
Proof.
  intros Hg Hd Hpc (_ & Hdec & chunk & He & ->) Hw.
  destruct (good_decoded bytes insns Hg Hd) as (_ & _ & Hl).
  pose proof (lookup_lt_Some _ _ _ Hpc) as Hlt. split.
  - apply patch_good; [done|lia|by eapply encode_good].
  - eapply replaces_lower; [done|done| |done|done].
    apply patch_length; [by eapply encode_length|lia].
Qed.

Lemma with_imm_weights insn orig imm :
  imm_of insn = Some orig ->
  single insn = true /\ cond_weight (with_imm insn imm) = cond_weight insn /\
  x_weight (with_imm insn imm) = x_weight insn /\ reg_weight (with_imm insn imm) = reg_weight insn /\
  stack_offset (with_imm insn imm) = stack_offset insn.
Proof. intros H. destruct insn; try discriminate H; try done. destruct src, imm0; done. Qed.

Lemma with_mem_offset_weights insn orig off :
  stack_offset insn = Some orig ->
  single insn = true /\ cond_weight (with_mem_offset insn off) = cond_weight insn /\
  x_weight (with_mem_offset insn off) = x_weight insn /\
  reg_weight (with_mem_offset insn off) = reg_weight insn /\
  imm_of (with_mem_offset insn off) = imm_of insn.
Proof. intros H. destruct insn; try discriminate H; try done. by destruct size, sign_extend. Qed.

Lemma k_form_weights insn src imm :
  x_form_source insn = Some src ->
  single insn = true /\ cond_weight (k_form insn imm) = cond_weight insn /\
  x_weight (k_form insn imm) = 0%nat /\ x_weight insn = 1%nat.
Proof. intros H. destruct insn; try discriminate H; done. Qed.

(** The tracked constants are 32-bit immediates. *)
Definition known_i32 (known : list (option Z)) : Prop :=
  Forall (fun o => forall c, o = Some c -> in_range I32_MIN I32_MAX c = true) known.

Lemma known_i32_insert known r o :
  known_i32 known -> (forall c, o = Some c -> in_range I32_MIN I32_MAX c = true) ->
  known_i32 (<[r := o]> known).
Proof. intros H Ho. by apply Forall_insert. Qed.

Lemma known_i32_lookup known r c :
  known_i32 known -> known !!! r = Some c -> in_range I32_MIN I32_MAX c = true.
Proof.
  intros H Hr. destruct (known !! r) as [o|] eqn:E.
  - rewrite (list_lookup_total_correct _ _ _ E) in Hr. unfold known_i32 in H. rewrite Forall_lookup in H.
    by eapply H.
  - rewrite list_lookup_total_alt, E in Hr. done.
Qed.

Lemma apply_def_i32 known insn :
  known_i32 known -> (forall dst imm, insn = BpfInsn.MovImm dst imm -> in_range I32_MIN I32_MAX imm = true) ->
  known_i32 (apply_def known insn).
Proof.
  intros Hk Hi.
  assert (Hclear : forall r, known_i32 (<[r := None]> known)) by (intros r; by apply known_i32_insert).
  assert (Hcall : known_i32 (replicate 6 None ++ drop 6 known)).
  { apply Forall_app. split; [by apply Forall_replicate|by apply Forall_drop]. }
  destruct insn; cbn [apply_def has_alu_dst alu_dst is_conditional_branch negb]; unfold clear_known; auto.
  - apply known_i32_insert; [done|]. intros c Hc. injection Hc as <-. exact (Hi dst imm eq_refl).
  - apply known_i32_insert; [done|]. intros c Hc. exact (known_i32_lookup _ _ _ Hk Hc).
Qed.

Lemma mov_imm_i32 insns pc dst imm :
  program_wf insns = true -> insns !! pc = Some (BpfInsn.MovImm dst imm) ->
  in_range I32_MIN I32_MAX imm = true.
Proof.
  intros Hw Hpc. destruct (program_wf_slot insns Hw pc _ Hpc eq_refl) as [H _].
  unfold insn_wf in H. cbn in H. rewrite !andb_true_iff in H. tauto.
Qed.

Lemma alu_forms_improve bytes insns cand :
  good bytes -> decode_program bytes = Ok insns ->
  forall rest pc known out, (forall k insn, rest !! k = Some insn -> insns !! (pc + k)%nat = Some insn) ->
    known_i32 known -> collect_known bytes known pc rest = Some out -> cand ∈ map snd out ->
    improves cand bytes.
Proof.
  intros Hg Hd. destruct (good_decoded bytes insns Hg Hd) as (_ & Hwf & _).
  induction rest as [|insn rest IH]; intros pc known out Hsub Hk; cbn [collect_known].
  { intros [= <-] H. by apply not_elem_of_nil in H. }
  assert (Hpc : insns !! pc = Some insn) by (rewrite <- (Nat.add_0_r pc); by apply Hsub).
  destruct (alu_form_candidate _ _ _ _) as [a|] eqn:Ea; [|done].
  destruct (collect_known _ _ _ _) as [b|] eqn:Eb; [|done]. intros [= <-]. rewrite map_app.
  intros [H|H]%elem_of_app.
  - unfold alu_form_candidate in Ea. destruct (x_form_source insn) as [src|] eqn:Ex;
      [|injection Ea as <-; by apply not_elem_of_nil in H].
    destruct (known !!! Z.to_nat src) as [value|] eqn:Ev; [|injection Ea as <-; by apply not_elem_of_nil in H].
    destruct (encode insn) as [chunk|] eqn:Ee; [|done]. injection Ea as <-. cbn in H.
    apply list_elem_of_singleton in H as ->.
    destruct (k_form_weights insn src value Ex) as (Hs & Hc & Hx0 & Hx1).
    destruct (program_wf_slot insns Hwf pc insn Hpc Hs) as [Hw _].
    eapply replaces_improves; [done|done|exact Hpc| |].
    + eapply replaces_intro; [done|done|done|].
      eapply k_form_encodes; [done|done|done|by eapply known_i32_lookup].
    + rewrite Hc, Hx0, Hx1. right. split; [done|]. left. lia.
  - eapply (IH (S pc)); [| |exact Eb|done].
    + intros k i Hi. rewrite Nat.add_succ_comm. by apply Hsub.
    + apply apply_def_i32; [done|]. intros dst imm ->. by eapply mov_imm_i32.
Qed.

Lemma imms_improve bytes insns out cand :
  good bytes -> decode_program bytes = Ok insns ->
  collect (imm_candidates bytes) 0 insns = Some out -> cand ∈ map snd out -> improves cand bytes.
Proof.
  intros Hg Hd Hc H. destruct (good_decoded bytes insns Hg Hd) as (_ & Hwf & _).
  apply list_elem_of_In, in_map_iff in H as ([name c] & Heq & Hin). cbn in Heq. subst c.
  apply list_elem_of_In in Hin. destruct (collect_elem _ _ _ _ _ Hc Hin) as (k & insn & l & Hk & Hl & Hel).
  cbn [Nat.add] in Hl.
  assert (single insn = true) as Hs.
  { unfold imm_candidates in Hl. destruct (imm_of insn) as [o|] eqn:Ei;
      [by apply (with_imm_weights insn o 0)|injection Hl as <-; by apply not_elem_of_nil in Hel]. }
  destruct (program_wf_slot insns Hwf k insn Hk Hs) as [Hw _].
  destruct (imm_candidate_spec bytes insns k insn l name cand Hd Hk Hw Hl Hel)
    as (orig & value & Ho & Hv & Hlt & Hr).
  destruct (with_imm_weights insn orig value Ho) as (_ & H1 & H2 & H3 & H4).
  eapply replaces_improves; [done|done|exact Hk|exact Hr|].
  unfold operand_weight. rewrite H1, H2, H3, H4, Ho, Hv. do 3 (right; split; [done|]). lia.
Qed.

Lemma offsets_improve bytes insns out cand :
  good bytes -> decode_program bytes = Ok insns ->
  collect (offset_candidates bytes) 0 insns = Some out -> cand ∈ map snd out -> improves cand bytes.
Proof.
  intros Hg Hd Hc H. destruct (good_decoded bytes insns Hg Hd) as (_ & Hwf & _).
  apply list_elem_of_In, in_map_iff in H as ([name c] & Heq & Hin). cbn in Heq. subst c.
  apply list_elem_of_In in Hin. destruct (collect_elem _ _ _ _ _ Hc Hin) as (k & insn & l & Hk & Hl & Hel).
  cbn [Nat.add] in Hl.
  assert (single insn = true) as Hs.
  { unfold offset_candidates in Hl. destruct (stack_offset insn) as [o|] eqn:Ei;
      [by apply (with_mem_offset_weights insn o 0)|injection Hl as <-; by apply not_elem_of_nil in Hel]. }
  destruct (program_wf_slot insns Hwf k insn Hk Hs) as [Hw _].
  destruct (offset_candidate_spec bytes insns k insn l name cand Hd Hk Hw Hl Hel)
    as (orig & value & Ho & Hv & Hlt & Hr).
  destruct (with_mem_offset_weights insn orig value Ho) as (_ & H1 & H2 & H3 & H4).
  eapply replaces_improves; [done|done|exact Hk|exact Hr|].
  unfold operand_weight. rewrite H1, H2, H3, H4, Ho, Hv. do 3 (right; split; [done|]). lia.
Qed.

(** * The renaming *)

Definition rename (from to r : Z) : Z := if r =? from then to else r.

(** What the renaming does to the weights of an instruction that decodes. *)
Definition lighter (from : Z) (insn insn' : BpfInsn) : Prop :=
  (cond_weight insn' <= cond_weight insn /\ x_weight insn' <= x_weight insn /\
   reg_weight insn' <= reg_weight insn /\
   (from ∈ census insn -> reg_weight insn' < reg_weight insn))%nat.

Lemma ignored_renamed insn op dst src off imm src' :
  encode_fields insn = Some (op, dst, src, off, imm) -> insn_wf insn = true -> (src = 0 -> src' = 0) ->
  ignored_fields op src' off imm = false.
Proof.
  intros He Hw H0. unfold insn_wf in Hw. rewrite He in Hw.
  destruct insn; cbn in He;
    repeat match goal with
    | H : context [match ?x with _ => _ end] |- _ => is_var x; destruct x; cbn in *; try discriminate
    end; injection He as <- <- <- <- <-; try reflexivity;
    try (rewrite H0 by reflexivity; reflexivity);
    try (match goal with o : AtomicOp |- _ => destruct o; reflexivity end);
    try (match goal with o : Jmp32Op |- _ => destruct o; reflexivity end).
Qed.

Lemma census_fields insn op dst src off imm r :
  encode_fields insn = Some (op, dst, src, off, imm) -> r ∈ census insn -> 0 < r -> r = dst \/ r = src.
Proof.
  intros He Hr Hp.
  destruct insn; cbn in He, Hr;
    repeat match goal with
    | H : context [match ?x with _ => _ end] |- _ => is_var x; destruct x; cbn in *; try discriminate
    end; injection He as <- <- <- <- <-; rewrite ?elem_of_cons, ?elem_of_nil in Hr; intuition lia.
Qed.

Lemma rename_le from to r : 1 <= to < from -> 0 <= r -> 0 <= rename from to r <= r.
Proof. intros H Hr. unfold rename. destruct (Z.eqb_spec r from); lia. Qed.

Lemma lighter_fields from to insn insn' op dst src off imm off' imm' :
  1 <= to < from -> encode_fields insn = Some (op, dst, src, off, imm) -> 0 <= dst -> 0 <= src ->
  encode_fields insn' = Some (op, rename from to dst, rename from to src, off', imm') \/
    encode_fields insn' = None ->
  lighter from insn insn'.
Proof.
  intros Ht He Hd Hs He'. unfold lighter, cond_weight, x_weight, reg_weight. rewrite He.
  assert (Hc : from ∈ census insn -> from = dst \/ from = src)
    by (intros H; eapply census_fields; [done|done|lia]).
  pose proof (rename_le from to dst Ht Hd). pose proof (rename_le from to src Ht Hs).
  destruct He' as [-> | ->].
  - split_and!; [lia..|]. intros H'. destruct (Hc H') as [-> | ->].
    + unfold rename at 1. rewrite Z.eqb_refl. lia.
    + unfold rename at 2. rewrite Z.eqb_refl. lia.
  - split_and!; [lia..|]. intros H'. destruct (Hc H') as [-> | ->]; lia.
Qed.

(** The renamed slot of an encoded instruction. *)
Lemma rename_encoded insn chunk op dst src off imm from to :
  encode_fields insn = Some (op, dst, src, off, imm) -> encode insn = Some chunk ->
  0 <= dst <= 10 -> 0 <= src <= 10 -> 1 <= to < from -> from <= 9 ->
  rename_reg chunk from to =
    op :: Z.lor (as_u8 (Z.shiftl (rename from to src) 4)) (Z.land (rename from to dst) 0x0F)
       :: le16 off ++ le32 imm.
Proof.
  intros He Hc Hd Hs Ht Hf. unfold encode in Hc. rewrite He in Hc. injection Hc as <-.
  destruct (regs_byte dst src Hd Hs) as (Hb & Hbd & Hbs). unfold rename_reg. cbn [nth].
  set (b := Z.lor (as_u8 (Z.shiftl src 4)) (Z.land dst 15)) in *. rewrite Hbd.
  assert (Z.shiftr b 4 = src) as ->.
  { rewrite <- Hbs. change 15 with (Z.ones 4). rewrite Z.land_ones by lia. symmetry. apply Z.mod_small.
    rewrite Z.shiftr_div_pow2 by lia. split; [apply Z.div_pos; lia|]. apply Z.div_lt_upper_bound; lia. }
  pose proof (rename_le from to dst Ht ltac:(lia)) as Hr. unfold rename in *. cbn [insert list_insert].
  f_equal. f_equal. f_equal. change 15 with (Z.ones 4). rewrite Z.land_ones by lia.
  symmetry. apply Z.mod_small. lia.
Qed.

Lemma insn_fields insn :
  insn_wf insn = true -> exists op dst src off imm,
    encode_fields insn = Some (op, dst, src, off, imm) /\ 0 <= dst <= 10 /\ 0 <= src <= 10 /\
    -32768 <= off <= 32767 /\ I32_MIN <= imm <= I32_MAX.
Proof.
  unfold insn_wf. destruct (encode_fields insn) as [[[[[op dst] src] off] imm]|]; [|done].
  rewrite !andb_true_iff, !in_range_iff. intros ((((?&?)&?)&?)&?). by exists op, dst, src, off, imm.
Qed.

Lemma rename_range from to r : 1 <= to < from -> from <= 9 -> 0 <= r <= 10 -> 0 <= rename from to r <= 10.
Proof. intros Ht Hf Hr. pose proof (rename_le from to r Ht ltac:(lia)). lia. Qed.

Lemma rename_zero from to : 1 <= to < from -> rename from to 0 = 0.
Proof. intros H. unfold rename. destruct (Z.eqb_spec 0 from); lia. Qed.

Lemma parse_renamed insn chunk from to insn' :
  insn_wf insn = true -> encode insn = Some chunk -> 1 <= to < from -> from <= 9 ->
  parse_insn (rename_reg chunk from to) = Ok insn' -> lighter from insn insn'.
Proof.
  intros Hw He Ht Hf. destruct (insn_fields insn Hw) as (op & dst & src & off & imm & Hfs & Hd & Hs & Ho & Hi).
  rewrite (rename_encoded insn chunk op dst src off imm) by done.
  pose proof (rename_range from to dst Ht Hf Hd) as Hd'. pose proof (rename_range from to src Ht Hf Hs) as Hs'.
  destruct (regs_byte _ _ Hd' Hs') as (_ & Hrd & Hrs).
  unfold le16, le32. cbn [app parse_insn]. cbv zeta. rewrite Hrd, Hrs.
  rewrite as_i16_of_le, i32_le_id by lia. rewrite !(proj2 (Z.ltb_ge 10 _)) by lia.
  intros Hdec. pose proof (encode_op_byte _ _ _ _ _ _ Hfs) as Hop.
  assert (Hign : ignored_fields op (rename from to src) off imm = false).
  { eapply ignored_renamed; [done|done|]. intros ->. by apply rename_zero. }
  apply decode_op_accepts in Hdec as [Hor Henc]; [|done|by apply in_range_iff..].
  eapply lighter_fields; [done|exact Hfs|lia|lia|]. destruct Hor as [Hw' | ->]; [left|by right].
  by apply Henc.
Qed.

Lemma rename_head insn chunk from to :
  insn_wf insn = true -> encode insn = Some chunk -> (hd 0 (rename_reg chunk from to) =? opcode.LD_IMM64) = false.
Proof.
  intros Hw He. pose proof (encoded_head insn chunk Hw He) as H.
  assert (hd 0 (rename_reg chunk from to) = hd 0 chunk) as ->; [|done].
  unfold rename_reg. by destruct chunk as [|? [|]].
Qed.

Lemma second_lighter hi insn' from :
  match insn' with BpfInsn.LdImm64Second _ => True | _ => False end ->
  lighter from (BpfInsn.LdImm64Second hi) insn'.
Proof.
  destruct insn'; try done. intros _. unfold lighter. cbn. split_and!; try lia.
  by intros ?%not_elem_of_nil.
Qed.

Lemma rename_second hi chunk from to :
  encode (BpfInsn.LdImm64Second hi) = Some chunk -> 1 <= to < from -> from <= 9 ->
  rename_reg chunk from to = chunk.
Proof.
  intros He Ht Hf. rewrite (rename_encoded (BpfInsn.LdImm64Second hi) chunk 0 0 0 0 (as_i32 hi))
    by (done || lia). rewrite rename_zero by done. unfold encode in He. cbn [encode_fields] in He.
  by injection He as <-.
Qed.

(** The first slot of an ldimm64, renamed. *)
Lemma parse_renamed_pair first hi b1 b2 from to insn' :
  ldimm64_pair first hi = true -> encode first = Some b1 -> encode (BpfInsn.LdImm64Second hi) = Some b2 ->
  1 <= to < from -> from <= 9 ->
  (hd 0 (rename_reg b1 from to) =? opcode.LD_IMM64) = true /\
  (parse_ldimm64 (rename_reg b1 from to) b2 = Ok insn' -> lighter from first insn').
Proof.
  intros Hp H1 H2 Ht Hf.
  assert (exists dst src lo, encode_fields first = Some (0x18, dst, src, 0, as_i32 lo) /\
    0 <= dst <= 10 /\ 0 <= src <= 10) as (dst & src & lo & Hfs & Hd & Hs).
  { unfold ldimm64_pair in Hp. apply andb_true_iff in Hp as [_ Hp].
    destruct first; try discriminate Hp; rewrite !andb_true_iff, ?in_range_iff in Hp.
    - exists dst, 0, (as_u32 imm). cbn. split_and!; try done; lia.
    - exists dst, 1, fd. cbn. split_and!; try done; lia.
    - exists dst, 2, fd. cbn. split_and!; try done; lia. }
  rewrite (rename_encoded first b1 0x18 dst src 0 (as_i32 lo)) by done. split; [done|].
  unfold ldimm64_pair in Hp. apply andb_true_iff in Hp as [Hhi _].
  destruct (second_slot hi) as (h0 & h1 & h2 & h3 & He2 & _); [by apply in_range_iff in Hhi|].
  rewrite H2 in He2. injection He2 as ->.
  pose proof (rename_range from to dst Ht Hf Hd) as Hd'. pose proof (rename_range from to src Ht Hf Hs) as Hs'.
  rewrite parse_pair by done. cbv zeta. intros Hres.
  assert (exists off' imm', encode_fields insn' = Some (0x18, rename from to dst, rename from to src, off', imm'))
    as (off' & imm' & Hfs').
  { destruct (rename from to src) as [|[|[]|]|]; try discriminate Hres.
    - injection Hres as <-. cbn. eauto.
    - injection Hres as <-. cbn. eauto.
    - destruct (negb _); [discriminate Hres|]. injection Hres as <-. cbn. eauto. }
  eapply lighter_fields; [exact Ht|exact Hfs|lia|lia|]. left. exact Hfs'.
Qed.

Lemma rename_good_slot chunk from to :
  good_slot chunk -> 0 <= to <= 9 -> good_slot (rename_reg chunk from to).
Proof.
  intros (Hl & Hb & Hh) Ht. unfold rename_reg.
  do 9 (destruct chunk as [|? chunk]; try discriminate Hl).
  cbn [nth insert list_insert hd] in *. apply Forall_cons in Hb as [H0 Hb]. apply Forall_cons in Hb as [_ Hb].
  split; [done|]. split; [|done]. constructor; [done|]. constructor; [|done]. apply regs_is_byte.
  pose proof (nibble z0). destruct (_ =? from); lia.
Qed.

Lemma rename_all_spec insns :
  program_wf insns = true -> forall from to, 1 <= to < from -> from <= 9 ->
  exists chunks, rename_all from to insns = Some (concat chunks) /\ Forall good_slot chunks /\
    length chunks = length insns /\
    forall idx insns', decode_slots idx chunks = Ok insns' -> Forall2 (lighter from) insns insns'.
Proof.
  revert insns. refine (program_wf_ind _ _ _ _).
  - intros from to _ _. exists []. split_and!; [done..|]. intros idx insns' [= <-]. constructor.
  - intros first rest Hf _ IH from to Ht Hfr. destruct (IH from to Ht Hfr) as (chunks & Hr & Hg & Hl & Hdec).
    destruct (parse_encoded first Hf) as (b & Hb & _). exists (rename_reg b from to :: chunks).
    cbn [rename_all concat length]. rewrite Hb, Hr. split_and!; [done| |lia|].
    + constructor; [|done]. apply rename_good_slot; [by eapply encode_good|lia].
    + intros idx insns' H. cbn [decode_slots] in H. rewrite (rename_head first) in H by done. cbv zeta in H.
      destruct (parse_insn _) as [i'|] eqn:Ep; [|done]. apply rbind_ok in H as (r' & Hr' & Heq).
      injection Heq as <-. constructor; [by eapply parse_renamed|by eapply Hdec].
  - intros first hi rest Hp _ IH from to Ht Hfr. destruct (IH from to Ht Hfr) as (chunks & Hr & Hg & Hl & Hdec).
    destruct (decode_pair 0 first hi [] Hp) as (b1 & b2 & Hb1 & Hb2 & _).
    exists (rename_reg b1 from to :: b2 :: chunks). cbn [rename_all concat length].
    rewrite Hb1, Hb2, Hr, (rename_second hi b2) by done. split_and!; [done| |lia|].
    + constructor; [apply rename_good_slot; [by eapply encode_good|lia]|]. constructor; [by eapply encode_good|done].
    + intros idx insns' H. cbn [decode_slots] in H. cbv zeta in H.
      destruct (parse_ldimm64 (rename_reg b1 from to) b2) as [i'|] eqn:Ep.
      * destruct (parse_renamed_pair first hi b1 b2 from to i' Hp Hb1 Hb2 Ht Hfr) as [Hh Hl1].
        rewrite Hh in H. apply rbind_ok in H as (r' & Hr' & Heq). injection Heq as <-.
        constructor; [by apply Hl1|]. constructor; [by apply second_lighter|by eapply Hdec].
      * destruct (parse_renamed_pair first hi b1 b2 from to first Hp Hb1 Hb2 Ht Hfr) as [Hh _].
        by rewrite Hh in H.
Qed.

Lemma total_lighter from insns insns' :
  Forall2 (lighter from) insns insns' ->
  (total cond_weight insns' <= total cond_weight insns)%nat /\
  (total x_weight insns' <= total x_weight insns)%nat /\
  (total reg_weight insns' <= total reg_weight insns)%nat /\
  ((exists insn, insn ∈ insns /\ from ∈ census insn) ->
   (total reg_weight insns' < total reg_weight insns)%nat).
Proof.
  induction 1 as [|a b l l' (Hc & Hx & Hr & Hs) _ (IHc & IHx & IHr & IHs)].
  { split_and!; [done..|]. intros (i & Hi & _). by apply not_elem_of_nil in Hi. }
  unfold total, list_sum in *. cbn [map fold_right]. split_and!; [lia..|].
  intros (i & [->|Hi]%elem_of_cons & Hin); [specialize (Hs Hin)|specialize (IHs (ex_intro _ i (conj Hi Hin)))]; lia.
Qed.

Lemma used_any insns used k :
  (k < length used)%nat -> foldl mark_regs used insns !! k = Some true -> used !! k = Some false ->
  exists insn r, insn ∈ insns /\ r ∈ census insn /\ Z.to_nat r = k.
Proof. intros Hk H Hu. apply used_spec in H; [|done]. destruct H as [H|H]; [congruence|done]. Qed.

Lemma lowering_improves bytes insns out cand :
  good bytes -> decode_program bytes = Ok insns ->
  lowering_candidates insns = Some out -> cand ∈ map snd out -> improves cand bytes.
Proof.
  intros Hg Hd. destruct (good_decoded bytes insns Hg Hd) as (_ & Hwf & Hl).
  unfold lowering_candidates. destruct (lowering_pair insns) as [[from to]|] eqn:Ep;
    [|intros [= <-] H; by apply not_elem_of_nil in H].
  destruct (lowering_pair_spec insns from to Hwf Ep) as (Ht & Hf & Hused & _).
  destruct (rename_all_spec insns Hwf from to Ht Hf) as (chunks & -> & Hgc & Hlc & Hdec).
  intros [= <-] H. cbn in H. apply list_elem_of_singleton in H as ->.
  assert (Hcl : forall l, Forall good_slot l -> length (concat l) = (8 * length l)%nat).
  { induction 1 as [|c rest [Hs _] _ IH]; [done|]. cbn. rewrite length_app, Hs, IH. lia. }
  split; [by exists chunks|]. right. split; [rewrite (Hcl _ Hgc), Hl; lia|].
  unfold weights at 2. rewrite Hd. unfold weights, decode_program. rewrite good_chunks by done.
  destruct (decode_slots 0 chunks) as [insns'|] eqn:Es.
  - destruct (total_lighter from insns insns' (Hdec _ _ Es)) as (Hc & Hx & _ & Hr).
    specialize (Hr Hused). cbn. lia.
  - assert (Hpos : (0 < total reg_weight insns)%nat).
    { destruct Hused as (insn & Hin & Hcen).
      assert (forall l, insn ∈ l -> (reg_weight insn <= total reg_weight l)%nat) as Hle.
      { induction l as [|x l IH]; [by intros ?%not_elem_of_nil|].
        unfold total, list_sum in *. cbn [map fold_right].
        intros [->|H]%elem_of_cons; [lia|specialize (IH H); lia]. }
      specialize (Hle insns Hin). enough (0 < reg_weight insn)%nat by lia.
      apply list_elem_of_lookup in Hin as [k Hk].
      assert (exists op dst src off imm, encode_fields insn = Some (op, dst, src, off, imm)) as
        (op & dst & src & off & imm & Hfs).
      { pose proof (program_encodable insns Hwf) as He. rewrite Forall_lookup in He.
        destruct (He k insn Hk) as [[chunk Hc] _]. unfold encode in Hc.
        destruct (encode_fields insn) as [[[[[op dst] src] off] imm]|]; [eauto 8|done]. }
      unfold reg_weight. rewrite Hfs.
      destruct (census_fields insn op dst src off imm from Hfs Hcen) as [<- | <-]; lia. }
    cbn. lia.
Qed.

Lemma operand_improves bytes cands cand :
  good bytes -> operand_candidates bytes = Some cands -> cand ∈ map snd cands -> improves cand bytes.
Proof.
  intros Hg. unfold operand_candidates. destruct (decode bytes) as [insns|] eqn:Hd;
    [|intros [= <-] H; by apply not_elem_of_nil in H].
  apply decode_inv in Hd.
  destruct (collect (imm_candidates bytes) 0 insns) as [a|] eqn:Ea; [|done].
  destruct (collect_known _ _ _ _) as [b|] eqn:Eb; [|done].
  destruct (lowering_candidates insns) as [d|] eqn:Ed; [|done].
  destruct (collect (offset_candidates bytes) 0 insns) as [e|] eqn:Ee; [|done].
  intros [= <-]. rewrite !map_app, !elem_of_app. intros [H|[H|[H|H]]].
  - by eapply imms_improve.
  - eapply alu_forms_improve; [done|done|..|exact Eb|done]; [done|]. by apply Forall_replicate.
  - by eapply lowering_improves.
  - by eapply offsets_improve.
Qed.

(** * Panics

    The one panic left is [i16::abs] of the smallest memory offset. *)

Lemma delete_no_panic bytes remove : good bytes -> delete_insns bytes remove <> Err EncodePanics.
Proof.
  intros Hg H. destruct (decode_program bytes) as [insns|] eqn:Hd.
  2: { unfold delete_insns in H. rewrite Hd in H. by destruct (_ || _) in H. }
  destruct (decide (bytes = [])) as [->|Hne]; [discriminate H|].
  destruct (good_decoded bytes insns Hg Hd) as (Hw & _ & _).
  destruct (delete_insns_spec bytes insns remove (good_bytes _ Hg) Hne Hd Hw) as (out & _ & Hs).
  rewrite Hs in H. by destruct (_ && _) in H.
Qed.

Lemma encodes bytes insns pc insn :
  good bytes -> decode_program bytes = Ok insns -> insns !! pc = Some insn -> exists chunk, encode insn = Some chunk.
Proof.
  intros Hg Hd Hpc. destruct (good_decoded bytes insns Hg Hd) as (_ & Hwf & _).
  pose proof (program_encodable insns Hwf) as He. rewrite Forall_lookup in He. apply (He pc insn Hpc).
Qed.

Lemma encode_program_total insns :
  (forall pc insn, insns !! pc = Some insn -> exists chunk, encode insn = Some chunk) ->
  exists out, encode_program insns = Some out.
Proof.
  induction insns as [|insn rest IH]; intros H; [by exists []|]. cbn [encode_program].
  destruct (H 0%nat insn eq_refl) as [chunk ->].
  destruct IH as [out ->]; [intros pc i Hi; by apply (H (S pc))|]. eauto.
Qed.

Lemma dead_code_no_panic bytes : good bytes -> dead_code bytes <> Err EncodePanics.
Proof.
  intros Hg. unfold dead_code. destruct (decode bytes); [|done]. destruct (unmarked _ _) eqn:E; [done|].
  by apply delete_no_panic.
Qed.

Lemma slice_no_panic bytes anchor : good bytes -> slice_to_anchor bytes anchor <> Err EncodePanics.
Proof.
  intros Hg. unfold slice_to_anchor. destruct (decode bytes), anchor; try done.
  destruct (_ <=? _)%nat; [done|]. destruct (unmarked _ _) eqn:E; [done|]. by apply delete_no_panic.
Qed.

Lemma simplify_no_panic bytes : good bytes -> simplify_dead_side bytes <> None.
Proof.
  intros Hg. unfold simplify_dead_side. destruct (decode bytes) as [insns|] eqn:Hd; [|done].
  apply decode_inv in Hd.
  enough (forall rest pc, simplify_from bytes insns pc rest <> None) as H by apply H.
  induction rest as [|insn rest IH]; intros pc; cbn [simplify_from]; [done|].
  assert (simplify_at bytes insns pc insn <> None) as H1.
  { unfold simplify_at. destruct (negb _); [done|]. destruct (branch_offset insn) as [off|]; [|done].
    cbv zeta. destruct (_ || _); [done|].
    destruct (encode_program_total (<[pc := BpfInsn.Jmp off]> insns)) as [out ->].
    { intros k i [(_ & <- & _)|[_ Hi]]%list_lookup_insert_Some; [by eexists|by eapply encodes]. }
    pose proof (delete_no_panic bytes [pc] Hg) as Hdel.
    destruct (_ && bool_decide _), (bool_decide _), (delete_insns bytes [pc]) as [|[]]; done. }
  specialize (IH (S pc)).
  destruct (simplify_at _ _ _ _); [|done]. by destruct (simplify_from _ _ _ _).
Qed.

Lemma one_candidate_panics r : one_candidate r = None -> r = Err EncodePanics.
Proof. by destruct r as [|[]]. Qed.

Lemma cfg_panics order current :
  good current -> cfg_candidates order current = None -> verifier_panics order current.
Proof.
  intros Hg. unfold cfg_candidates. destruct (failure_anchor order current) as [anchor|] eqn:Ea;
    [|intros _; by apply failure_anchor_none; [apply good_bytes|]].
  cbn [mbind option_bind].
  destruct (one_candidate (dead_code current)) eqn:E1;
    [|by apply one_candidate_panics, dead_code_no_panic in E1].
  destruct (one_candidate (slice_to_anchor current _)) eqn:E2;
    [|by apply one_candidate_panics, slice_no_panic in E2].
  destruct (one_candidate (rbind _ _)) eqn:E3.
  - destruct (simplify_dead_side current) eqn:E4; [done|by apply simplify_no_panic in E4].
  - apply one_candidate_panics in E3. destruct (dead_code current) as [d|e] eqn:Ed; cbn in E3.
    + apply slice_no_panic in E3; [done|]. by apply dead_code_improves in Ed as [? _].
    + injection E3 as ->. by apply dead_code_no_panic in Ed.
Qed.

Lemma collect_none f insns : forall pc,
  collect f pc insns = None -> exists k insn, insns !! k = Some insn /\ f (pc + k)%nat insn = None.
Proof.
  induction insns as [|insn rest IH]; intros pc; cbn [collect]; [done|].
  destruct (f pc insn) eqn:E; [|intros _; exists 0%nat, insn; by rewrite Nat.add_0_r].
  destruct (collect f (S pc) rest) eqn:E'; [done|]. intros _.
  destruct (IH _ E') as (k & i & Hk & Hf). exists (S k), i. by rewrite <- Nat.add_succ_comm.
Qed.

Lemma collect_known_total bytes insns : 
  (forall pc insn, insns !! pc = Some insn -> exists chunk, encode insn = Some chunk) ->
  forall known pc, collect_known bytes known pc insns <> None.
Proof.
  induction insns as [|insn rest IH]; intros H known pc; cbn [collect_known]; [done|].
  destruct (H 0%nat insn eq_refl) as [chunk Hc].
  assert (alu_form_candidate bytes pc known insn <> None) as Ha.
  { unfold alu_form_candidate. destruct (x_form_source insn) as [src|]; [|done].
    destruct (known !!! Z.to_nat src); [|done]. by rewrite Hc. }
  destruct (alu_form_candidate _ _ _ _); [|done].
  pose proof (IH (fun k i Hi => H (S k) i Hi) (apply_def known insn) (S pc)) as Hr.
  by destruct (collect_known _ _ _ _).
Qed.

Lemma operand_no_panic bytes : good bytes -> operand_candidates bytes <> None.
Proof.
  intros Hg. unfold operand_candidates. destruct (decode bytes) as [insns|] eqn:Hd; [|done].
  apply decode_inv in Hd. destruct (good_decoded bytes insns Hg Hd) as (_ & Hwf & _).
  pose proof (encodes bytes insns) as He.
  destruct (collect (imm_candidates bytes) 0 insns) eqn:E1.
  2: { apply collect_none in E1 as (k & i & Hk & Hf). destruct (He k i Hg Hd Hk) as [chunk Hc].
       unfold imm_candidates in Hf. rewrite Hc in Hf. by destruct (imm_of i). }
  destruct (collect_known _ _ _ _) eqn:E2.
  2: { apply collect_known_total in E2; [done|]. intros; by eapply He. }
  assert (lowering_candidates insns <> None) as E3.
  { unfold lowering_candidates. destruct (lowering_pair insns) as [[from to]|] eqn:Ep; [|done].
    destruct (lowering_pair_spec insns from to Hwf Ep) as (Ht & Hf & _).
    by destruct (rename_all_spec insns Hwf from to Ht Hf) as (chunks & -> & _). }
  destruct (lowering_candidates insns); [|done].
  destruct (collect (offset_candidates bytes) 0 insns) eqn:E4; [done|]. intros _.
  apply collect_none in E4 as (k & i & Hk & Hf). destruct (He k i Hg Hd Hk) as [chunk Hc].
  unfold offset_candidates in Hf. rewrite Hc in Hf. by destruct (stack_offset i).
Qed.

Lemma ddmin_no_panic {W} (oracle : W -> list Z -> bool * W) bytes c w o c' w' :
  good bytes -> ddmin oracle bytes c w = (o, c', w') -> o <> Panics /\ o <> OutOfFuel.
Proof.
  intros Hg E. apply (ddmin_search oracle) in E. destruct E as [_ H]. destruct o; try done.
  destruct H as [remove H]. by apply delete_no_panic in H.
Qed.

(** * The driver *)

Section DriverFacts.
Context {W : Type} (oracle : W -> list Z -> bool * W) (iter : W -> IterOrder).

Lemma first_accepted_spec current cands c w next c' w' :
  first_accepted oracle current cands c w = (next, c', w') ->
  grows oracle c c' /\
  match next with
  | Some n => n ∈ cands /\ n <> current /\ OracleCache.results c' !! n = Some true
  | None => True
  end.
Proof.
  revert c w. induction cands as [|cand rest IH]; intros c w; cbn [first_accepted].
  { intros [= <- <- <-]. by split. }
  destruct (apply_candidate oracle current cand c w) as [[o c1] w1] eqn:Ea.
  assert (grows oracle c c1 /\ match o with
    | Some n => n = cand /\ n <> current /\ OracleCache.results c1 !! n = Some true
    | None => True end) as [Hg Ho].
  { unfold apply_candidate in Ea. destruct (decide (cand = current)); [by injection Ea as <- <- <-|].
    destruct (cache_check oracle c w cand) as [[[[]|] c2] w2] eqn:Ec; injection Ea as <- <- <-;
      destruct (cache_check_spec _ _ _ _ _ _ _ Ec) as [Hg Hr]; by split. }
  destruct o as [n|].
  - intros [= <- <- <-]. destruct Ho as (-> & ? & ?). split; [done|].
    split_and!; [apply list_elem_of_here|done..].
  - intros E. destruct (IH _ _ E) as [Hg' Hn]. split; [by etrans|]. destruct next; [|done].
    destruct Hn as (? & ? & ?). split_and!; [by apply list_elem_of_further|done..].
Qed.

(** The sizes never grow along a timeline. *)
Definition descending (entries : list TimelineEntry) : Prop :=
  StronglySorted (fun a b => (snd b <= snd a)%nat) entries.

Lemma descending_app a b :
  descending a -> descending b -> (forall x y, x ∈ a -> y ∈ b -> (snd y <= snd x)%nat) -> descending (a ++ b).
Proof.
  unfold descending. induction 1 as [|x l Hl IH Hx]; intros Hb Hab; [done|]. cbn. constructor.
  - apply IH; [done|]. intros y z Hy Hz. apply Hab; [by apply list_elem_of_further|done].
  - apply Forall_app. split; [done|]. apply Forall_forall. intros y Hy.
    apply Hab; [apply list_elem_of_here|done].
Qed.

(** The state after some passes: the program is the old one or a lower good one
    that the oracle accepted, and the timeline holds the sizes on the way. *)
Definition pass_ok (before after : list Z) (c' : OracleCache) (entries : list TimelineEntry)
    (progress : bool) : Prop :=
  good after /\
  (if progress then improves after before /\ OracleCache.results c' !! after = Some true
   else after = before /\ entries = []) /\
  Forall (fun e => (insn_count after <= snd e <= insn_count before)%nat) entries /\
  descending entries.

Lemma count_le a b : lower a b -> (insn_count a <= insn_count b)%nat.
Proof. unfold insn_count. intros [H|[H _]]; [apply Nat.Div0.div_le_mono; lia|by rewrite H]. Qed.

Lemma pass_ok_grows before after c1 c2 entries progress :
  grows oracle c1 c2 -> pass_ok before after c1 entries progress -> pass_ok before after c2 entries progress.
Proof.
  intros Hg (H1 & H2 & H3 & H4). split_and!; [done| |done|done]. destruct progress; [|done].
  destruct H2 as [? Hr]. split; [done|]. eapply lookup_weaken; [exact Hr|apply Hg].
Qed.

Lemma after_pass_ok before current c1 c2 entries progress name next cur' entries' progress' :
  grows oracle c1 c2 -> pass_ok before current c1 entries progress ->
  match next with
  | Some n => improves n current /\ OracleCache.results c2 !! n = Some true
  | None => True
  end ->
  after_pass name current next entries progress = (cur', entries', progress') ->
  pass_ok before cur' c2 entries' progress'.
Proof.
  intros Hg Hok Hn. destruct next as [n|]; intros [= <- <- <-]; [|by eapply pass_ok_grows].
  destruct Hn as [Hi Hr]. destruct Hok as (Hgc & Hp & Ht & Hd).
  assert (Hl : improves n before).
  { destruct progress; [destruct Hp as [Hp _]; by eapply improves_trans|by destruct Hp as [-> _]]. }
  assert (Hle : (insn_count n <= insn_count current <= insn_count before)%nat).
  { split; [apply count_le, Hi|]. destruct progress; [apply count_le, Hp|by destruct Hp as [-> _]]. }
  split; [apply Hi|]. split; [done|]. split; [apply Forall_app; split|].
  - eapply Forall_impl; [exact Ht|]. intros e He. cbn beta in *. lia.
  - apply Forall_singleton. cbn [snd]. lia.
  - apply descending_app; [done|by repeat constructor|]. intros x y Hx ->%list_elem_of_singleton.
    rewrite Forall_forall in Ht. specialize (Ht x Hx). cbn beta in Ht. cbn [snd]. lia.
Qed.

Lemma run_cycle_spec current c w cyc c' w' :
  good current -> run_cycle oracle iter current c w = (cyc, c', w') ->
  match cyc with
  | Cycled after entries progress => grows oracle c c' /\ pass_ok current after c' entries progress
  | CyclePanics => grows oracle c c' /\
      exists w0 p, verifier_panics (iter w0) p /\ (p = current \/ OracleCache.results c' !! p = Some true)
  end.
Proof.
  intros Hg. unfold run_cycle.
  destruct (cfg_candidates (iter w) current) as [cands|] eqn:Ec.
  2: { intros [= <- <- <-]. split; [done|]. exists w, current. split; [by apply cfg_panics|by left]. }
  destruct (first_accepted oracle current cands c w) as [[n1 c1] w1] eqn:E1.
  destruct (first_accepted_spec _ _ _ _ _ _ _ E1) as [G1 H1].
  destruct (after_pass "cfg" current n1 [] false) as [[cur1 t1] p1] eqn:A1.
  assert (Hok1 : pass_ok current cur1 c1 t1 p1).
  { eapply (after_pass_ok current current c c1 [] false); [done| | |exact A1].
    - split_and!; [done..|constructor].
    - destruct n1; [|done]. destruct H1 as (Hin & _ & Hr). split; [|done]. by eapply cfg_improves. }
  destruct (ddmin oracle cur1 c1 w1) as [[o c2] w2] eqn:E2.
  assert (G2 : grows oracle c1 c2) by (by destruct (ddmin_search _ _ _ _ _ _ _ E2)).
  assert (G12 : grows oracle c c2) by (by etrans).
  set (next := match o with
    | Returns reduced => if decide (reduced = cur1) then None else Some reduced
    | _ => None end).
  assert (Hn2 : match next with
    | Some n => improves n cur1 /\ OracleCache.results c2 !! n = Some true
    | None => True end).
  { subst next. destruct o as [r| | |]; try done. destruct (decide (r = cur1)) as [|Hne]; [done|].
    destruct (ddmin_improves oracle cur1 c1 w1 r c2 w2) as [?|Hi]; [by apply Hok1|done|done|].
    split; [done|]. destruct (ddmin_search _ _ _ _ _ _ _ E2) as [_ [[? _]|(k & _ & Hr & _)]]; done. }
  intros E. assert (Hrest : forall cyc c' w',
    (let '(current, entries, progress) := after_pass "ddmin" cur1 next t1 p1 in
     match operand_candidates current with
     | None => (CyclePanics, c2, w2)
     | Some candidates =>
         let '(next, c, w) := first_accepted oracle current (map snd candidates) c2 w2 in
         let '(current, entries, progress) := after_pass "operand" current next entries progress in
         (Cycled current entries progress, c, w)
     end) = (cyc, c', w') ->
    match cyc with
    | Cycled after entries progress => grows oracle c c' /\ pass_ok current after c' entries progress
    | CyclePanics => grows oracle c c' /\
        exists w0 p, verifier_panics (iter w0) p /\ (p = current \/ OracleCache.results c' !! p = Some true) end).
  { clear E. intros cyc0 c0 w0.
    destruct (after_pass "ddmin" cur1 next t1 p1) as [[cur2 t2] p2] eqn:A2.
    pose proof (after_pass_ok current cur1 c1 c2 t1 p1 _ _ _ _ _ G2 Hok1 Hn2 A2) as Hok2.
    destruct (operand_candidates cur2) as [cands2|] eqn:Eo.
    2: { by apply operand_no_panic in Eo; [|apply Hok2]. }
    destruct (first_accepted oracle cur2 _ c2 w2) as [[n3 c3] w3] eqn:E3.
    destruct (first_accepted_spec _ _ _ _ _ _ _ E3) as [G3 H3].
    destruct (after_pass "operand" cur2 n3 t2 p2) as [[cur3 t3] p3] eqn:A3.
    intros [= <- <- <-]. split; [by etrans|].
    eapply (after_pass_ok current cur2 c2 c3); [done|exact Hok2| |exact A3].
    destruct n3; [|done]. destruct H3 as (Hin & _ & Hr). split; [|done].
    eapply operand_improves; [apply Hok2|exact Eo|done]. }
  destruct (ddmin_no_panic oracle cur1 c1 w1 o c2 w2) as [? ?]; [by apply Hok1|done|].
  destruct o; try done; by eapply Hrest.
Qed.

Lemma run_cycle_fixpoint current c w after entries c' w' :
  good current -> run_cycle oracle iter current c w = (Cycled after entries false, c', w') ->
  after = current /\ entries = [].
Proof. intros Hg E. by destruct (run_cycle_spec _ _ _ _ _ _ Hg E) as (_ & _ & H & _). Qed.

Lemma reduce_loop_spec fuel current timeline c w r c' w' :
  good current -> descending timeline ->
  Forall (fun e => (insn_count current <= snd e)%nat) timeline ->
  reduce_loop oracle iter fuel current timeline c w = (r, c', w') ->
  grows oracle c c' /\
  match r with
  | Finished final final_timeline =>
      good final /\ (final = current \/ OracleCache.results c' !! final = Some true) /\
      (insn_count final <= insn_count current)%nat /\ descending final_timeline /\
      exists c0 w0 w1 c1, run_cycle oracle iter final c0 w0 = (Cycled final [] false, c1, w1)
  | DriverPanics => exists w0 p, verifier_panics (iter w0) p /\ (p = current \/ OracleCache.results c' !! p = Some true)
  | Unfinished => True
  end.
Proof.
  revert current timeline c w. induction fuel as [|fuel IH]; intros current timeline c w Hg Hs Hf;
    cbn [reduce_loop]; [by intros [= <- <- <-]|].
  destruct (run_cycle oracle iter current c w) as [[cyc c1] w1] eqn:E.
  pose proof (run_cycle_spec _ _ _ _ _ _ Hg E) as Hc.
  destruct cyc as [after entries progress|]; [|by intros [= <- <- <-]; destruct Hc].
  destruct Hc as (G & Hga & Hp & Ht & Hd). destruct progress.
  - destruct Hp as [Hi Hr]. intros El.
    destruct (IH after (timeline ++ entries) c1 w1 Hga) as [G' Hres]; [| |exact El|].
    + apply descending_app; [done..|]. intros x y Hx Hy. rewrite !Forall_forall in *.
      specialize (Hf x Hx). specialize (Ht y Hy). cbn beta in *. lia.
    + pose proof (count_le _ _ (proj2 Hi)). rewrite Forall_app. split.
      * eapply Forall_impl; [exact Hf|]. intros e He. cbn beta in *. lia.
      * eapply Forall_impl; [exact Ht|]. intros e He. cbn beta in *. lia.
    + split; [by etrans|]. destruct r as [final tl| |]; [| |done].
      2: { destruct Hres as (o & q & Hq & Hor); exists o, q; split; [done|]; right. destruct Hor as [->|?]; [|done].
           eapply lookup_weaken; [exact Hr|apply G']. }
      destruct Hres as (H1 & H2 & H3 & H4 & H5). pose proof (count_le _ _ (proj2 Hi)).
      split_and!; [done| |lia|done|done]. right.
      destruct H2 as [->|?]; [|done]. eapply lookup_weaken; [exact Hr|apply G'].
  - destruct Hp as [-> ->]. intros [= <- <- <-]. rewrite app_nil_r. split; [done|].
    split_and!; [done|by left|lia|done|]. by exists c, w, w1, c1.
Qed.

Lemma reduce_loop_ends current :
  good current -> forall timeline c w, exists fuel,
    fst (fst (reduce_loop oracle iter fuel current timeline c w)) <> Unfinished.
Proof.
  induction current as [current IH] using (well_founded_ind lower_wf). intros Hg timeline c w.
  destruct (run_cycle oracle iter current c w) as [[cyc c1] w1] eqn:E.
  pose proof (run_cycle_spec _ _ _ _ _ _ Hg E) as Hc.
  destruct cyc as [after entries []|].
  - destruct Hc as (_ & Hga & [Hi _] & _).
    destruct (IH after (proj2 Hi) Hga (timeline ++ entries) c1 w1) as [fuel Hf].
    exists (S fuel). cbn [reduce_loop]. by rewrite E.
  - exists 1%nat. cbn [reduce_loop]. by rewrite E.
  - exists 1%nat. cbn [reduce_loop]. by rewrite E.
Qed.
End DriverFacts.

(** r2 = *(i64* )(r1 + 0), which no encoder can write; exit; exit. *)
Definition unencodable_program : list Z :=
  [0x99; 0x12; 0; 0; 0; 0; 0; 0;  0x95; 0; 0; 0; 0; 0; 0; 0;  0x95; 0; 0; 0; 0; 0; 0; 0].

(** C28: on an input of whole slots without the opcode 0x99, and for an oracle that
    returns, whatever it answers and without any budget, the reducer ends: either at
    a fixpoint, since every candidate that can be accepted is smaller in a
    well-founded order, or in a panic of the verifier run for the failure anchor of
    the input or of a program the oracle accepted.  Both exceptions are real: a
    program with the opcode 0x99 panics the encoder in the first cycle whatever the
    oracle answers, and the program that ends with a call panics the verifier. *)
Theorem reduce_terminates {W} (oracle : W -> list Z -> bool * W) (iter : W -> IterOrder)
    (original : list Z) (budget : nat) (w : W) :
  (good original ->
   exists fuel r c' w', reduce oracle iter fuel original budget w = (r, c', w') /\
     ((exists final timeline, r = Finished final timeline) \/
      r = DriverPanics /\
      exists w0 p, verifier_panics (iter w0) p /\ (p = original \/ OracleCache.results c' !! p = Some true))) /\
  fst (fst (reduce oracle iter 1 unencodable_program budget w)) = DriverPanics /\
  good trailing_call_bytes /\ fst (fst (reduce oracle iter 1 trailing_call_bytes budget w)) = DriverPanics.
Proof.
  split; [|split; [|split]].
  2: { unfold reduce. cbn [reduce_loop]. unfold run_cycle, cfg_candidates.
       assert (dead_code unencodable_program = Err EncodePanics) as -> by (vm_compute; reflexivity).
       by destruct (failure_anchor _ _). }
  2: { exists (fst (as_chunks trailing_call_bytes)). split; [|by vm_compute].
       repeat constructor; unfold is_byte; try lia; cbn; lia. }
  2: { unfold reduce. cbn [reduce_loop]. unfold run_cycle, cfg_candidates. by rewrite trailing_call_anchor. }
  intros Hg. destruct (reduce_loop_ends oracle iter original Hg
    [("start"%string, insn_count original)] (OracleCache.new budget) w) as [fuel Hf].
  exists fuel. unfold reduce.
  destruct (reduce_loop _ _ _ _ _ _ _) as [[r c'] w'] eqn:E. exists r, c', w'. split; [done|].
  destruct (reduce_loop_spec oracle iter fuel original
    [("start"%string, insn_count original)] (OracleCache.new budget) w r c' w' Hg)
    as (_ & H); [by repeat constructor|by apply Forall_singleton|exact E|].
  destruct r; [left; eauto|by right|done].
Qed.

(** C29: what the reducer finishes with is the input or a program the oracle
    accepted, it is no longer than the input, the sizes along the timeline never
    grow, no further cycle would have made progress, and the oracle was not
    asked more often than the budget allows. *)
Theorem reduce_sound {W} (oracle : W -> list Z -> bool * W) (iter : W -> IterOrder)
    (fuel : nat) (original final : list Z) (timeline : list TimelineEntry) (budget : nat)
    (c' : OracleCache) (w w' : W) :
  good original ->
  reduce oracle iter fuel original budget w = (Finished final timeline, c', w') ->
  (final = original \/ OracleCache.results c' !! final = Some true) /\
  (insn_count final <= insn_count original)%nat /\
  StronglySorted (fun a b => (snd b <= snd a)%nat) timeline /\
  (exists c0 w0 w1 c1, run_cycle oracle iter final c0 w0 = (Cycled final [] false, c1, w1)) /\
  ((0 < budget)%nat -> (OracleCache.checks c' <= budget)%nat) /\
  (forall b r, OracleCache.results c' !! b = Some r -> exists w, fst (oracle w b) = r).
Proof.
  intros Hg E. unfold reduce in E.
  destruct (reduce_loop_spec oracle iter fuel original
    [("start"%string, insn_count original)] (OracleCache.new budget) w (Finished final timeline) c' w' Hg)
    as (G & H1 & H2 & H3 & H4 & H5); [by repeat constructor|by apply Forall_singleton|exact E|].
  split_and!; [done..| |].
  - intros Hb. apply (ext_bound _ _ _ G); cbn; lia.
  - intros b r Hr. destruct (ext_answers _ _ _ G b r Hr) as [H|H]; [|done]. cbn in H. by rewrite lookup_empty in H.
Qed.

(** r1 = 7; r0 = 2; exit, and an oracle that wants r0 set to 2. *)
Definition padded_program : list Z :=
  [0xb7; 1; 0; 0; 7; 0; 0; 0;  0xb7; 0; 0; 0; 2; 0; 0; 0;  0x95; 0; 0; 0; 0; 0; 0; 0].

Lemma padded_good : good padded_program.
Proof.
  exists [[0xb7; 1; 0; 0; 7; 0; 0; 0]; [0xb7; 0; 0; 0; 2; 0; 0; 0]; [0x95; 0; 0; 0; 0; 0; 0; 0]].
  split; [|reflexivity]. repeat constructor; unfold is_byte; try lia; cbn; lia.
Qed.

Lemma reduce_terminates_witness :
  exists fuel r c' w',
    reduce sets_r0_to_2 (fun _ => map_to_list) fuel padded_program 0 tt = (r, c', w') /\
    ((exists final timeline, r = Finished final timeline) \/
     r = DriverPanics /\
     exists (w0 : unit) p, verifier_panics map_to_list p /\ (p = padded_program \/ OracleCache.results c' !! p = Some true)).
Proof. apply (reduce_terminates sets_r0_to_2 (fun _ => map_to_list)). exact padded_good. Defined.

Lemma reduce_sound_witness :
  exists final timeline c',
    reduce sets_r0_to_2 (fun _ => map_to_list) 5 padded_program 0 tt = (Finished final timeline, c', tt) /\
    (final = padded_program \/ OracleCache.results c' !! final = Some true) /\
    final = [0xb7; 0; 0; 0; 2; 0; 0; 0].
Proof.
  destruct (reduce sets_r0_to_2 (fun _ => map_to_list) 5 padded_program 0 tt) as [[[final timeline| |] c'] []] eqn:E;
    try (vm_compute in E; discriminate E).
  exists final, timeline, c'. split; [reflexivity|]. split.
  - apply (reduce_sound sets_r0_to_2 (fun _ => map_to_list) 5 padded_program final timeline 0 c' tt tt);
      [exact padded_good|exact E].
  - vm_compute in E. injection E as <- _ _. reflexivity.
Defined.

(** The anchor of the slice taken after dead-code elimination is an index of
    the program before it. Here the failing r4 -= r0 is at index 2 of the input
    and at index 1 after the elimination: with the stale anchor the combined
    candidate is empty, with the moved one it would drop r0 = 1. *)
Theorem stale_anchor :
  let program : list Z :=
    [0x05; 0; 1; 0; 0; 0; 0; 0;  0xb7; 1; 0; 0; 5; 0; 0; 0;  0x1f; 4; 0; 0; 0; 0; 0; 0;
     0xb7; 0; 0; 0; 1; 0; 0; 0;  0x95; 0; 0; 0; 0; 0; 0; 0] in
  exists d, dead_code program = Ok d /\
    slice_to_anchor d (Some 2%nat) = Err Refused /\
    slice_to_anchor d (Some 1%nat) =
      Ok [0x05; 0; 0; 0; 0; 0; 0; 0;  0x1f; 4; 0; 0; 0; 0; 0; 0;  0x95; 0; 0; 0; 0; 0; 0; 0].
Proof. eexists. split; [vm_compute; reflexivity|]. split; vm_compute; reflexivity. Qed.
