(* ===== verification/Replay.v ===== *)
(** Replay of a finding and the invariant of its reduction
    (src/src/fuzz/reduce/replay.rs), and [reduce_finding] of driver.rs around the
    reducer's loop.  Reading the two files of a finding is a parameter (their
    contents, if they can be read), and so is the evaluation of a program by the
    verifier, the concrete run, the specification and the kernel, which returns and
    has a state of its own.  The theorems: a finding that replays, with the kernel's recorded
    reason, satisfies its own invariant, so that with a deterministic evaluation
    the mandatory final check never fails and the reduced program still exhibits
    the finding; and what is read back of a written finding. *)
From Stdlib Require Import ZArith Lia List Bool String Ascii.
From stdpp Require Import base list gmap strings.
From S2P Require Import Prelude Insn Reduce ReducePasses ReduceOperand ReduceAnchor ReduceDriver Klog Oracle.
Open Scope Z_scope.
Local Open Scope string_scope.

(** * The recorded finding *)

(** What is wrong with a finding directory. *)
Inductive Problem :=
| Unreadable (file : string)
| MissingField (key : string)
| UnparsableField (key : string)
| UnknownLabel (label : string)
| NotInstructionStream
| FlipWithoutVerdict.

(** Why a replay or the final check disagrees: the two values compared. *)
Inductive Compared :=
| Sides (s : SideVerdict)
| SpecSides (s : SpecSide)
| Findings (f : string)
| Summary.

Inductive ReduceError :=
| KernelRequired (why : string)
| ReplayMismatch (expected actual : Compared)
| FinalCheckFailed (expected actual : Compared)
| InvalidFinding (p : Problem)
| Pipeline.

(** How an evaluation fails: the kernel gave no verdict, or the program could not
    be verified at all. *)
Inductive EvalError := NoKernelVerdict (why : string) | NotEvaluated.
Definition eval_error (e : EvalError) : ReduceError :=
  match e with NoKernelVerdict why => KernelRequired why | NotEvaluated => Pipeline end.

Record FindingSpec := mkFindingSpec {
  f_name : string;
  label : string;
  finding : option Finding;
  f_mini : SideVerdict;
  f_kernel : SideVerdict;
  f_spec : SpecSide;
  spec_recorded : bool }.

(** The sides of one program, re-derived. *)
Record ProgSides := mkSides {
  s_mini : SideVerdict;
  s_mini_reason : option string;
  s_concrete : ConcreteSide;
  s_kernel : SideVerdict;
  s_kernel_reason : option string;
  s_spec : SpecSide }.

Inductive Invariant :=
| Classification (finding : Finding) (kernel_category : option ReasonCategory)
| VerdictFlip (after : string).

Record Baseline := mkBaseline { b_spec : FindingSpec; b_sides : ProgSides; b_invariant : Invariant }.

Definition input_of (name : string) (sides : ProgSides) (strict : bool) : OracleInput :=
  mkOracleInput name (s_mini sides) (s_mini_reason sides) (s_concrete sides) (s_kernel sides) (s_spec sides)
    (s_kernel_reason sides) strict None.

(** Whether candidate sides still exhibit the finding. *)
Definition preserves (inv : Invariant) (name : string) (sides : ProgSides) (strict : bool) : bool :=
  match inv with
  | VerdictFlip after => Diff.name (s_mini sides) =? after
  | Classification finding kernel_category =>
      if negb (bool_decide (classify (input_of name sides strict) = finding)) then false
      else
        match kernel_category with
        | Some expected =>
            match s_kernel sides with
            | Diff.Reject category => bool_decide (category = expected)
            | _ => false
            end
        | None => true
        end
  end.

Definition is_kernel_dependent (label : string) : bool :=
  existsb (String.eqb label)
    ["precision-candidate"; "soundness-candidate"; "rv-precision-gap"; "kernel-unsound-candidate";
     "kernel-overstrict-candidate"; "whitelisted"].

(** * Reading meta.json *)

Definition QUOTE : ascii := "034"%char.

Definition quoted (key : string) : string := String QUOTE (key +:+ String QUOTE "").

(** [find]: the text after the first occurrence of a needle. *)
Fixpoint after_first (needle text : string) : option string :=
  if String.prefix needle text
  then Some (String.substring (String.length needle) (String.length text - String.length needle) text)
  else match text with String _ rest => after_first needle rest | EmptyString => None end.

(** The text up to the next quote. *)
Fixpoint until_quote (s : string) : option string :=
  match s with
  | EmptyString => None
  | String c r =>
      if (c =? QUOTE)%char then Some ""
      else match until_quote r with Some v => Some (String c v) | None => None end
  end.

(** The loop of [meta_value]; each turn goes past an occurrence of the key. *)
Fixpoint meta_value_from (fuel : nat) (needle rest : string) : option string :=
  match fuel with
  | O => None
  | S fuel' =>
      match after_first needle rest with
      | None => None
      | Some next =>
          match trim_start next with
          | String c after =>
              if (c =? ":")%char then
                match trim_start after with
                | String q value => if (q =? QUOTE)%char then until_quote value else None
                | EmptyString => None
                end
              else meta_value_from fuel' needle next
          | EmptyString => meta_value_from fuel' needle next
          end
      end
  end.

Definition meta_value (text key : string) : option string :=
  meta_value_from (S (String.length text)) (quoted key) text.

Definition parse_spec_side (s : option string) : SpecSide :=
  match s with
  | Some v => if v =? "ACCEPT" then SpecSide.Accept else if v =? "REJECT" then SpecSide.Reject
              else SpecSide.Inconclusive
  | None => SpecSide.Inconclusive
  end.

Definition parse_category (s : string) : option ReasonCategory :=
  if s =? "UninitRead" then Some UninitRead
  else if s =? "StackBounds" then Some StackBounds
  else if s =? "StackAlign" then Some StackAlign
  else if s =? "PointerArith" then Some PointerArith
  else if s =? "HelperArgs" then Some HelperArgs
  else if s =? "CfgJump" then Some CfgJump
  else if s =? "Loop" then Some Loop
  else if s =? "Unreachable" then Some Unreachable
  else if s =? "ExitR0" then Some ExitR0
  else if s =? "Complexity" then Some Complexity
  else if s =? "Other" then Some Other
  else None.

(** The text inside "REJECT(...)". *)
Definition reject_body (s : string) : option string :=
  if String.prefix "REJECT(" s then
    let n := String.length s in
    match String.get (n - 1) s with
    | Some c => if (c =? ")")%char then Some (String.substring 7 (n - 1 - 7) s) else None
    | None => None
    end
  else None.

Definition parse_side (s : string) : option SideVerdict :=
  if s =? "ACCEPT" then Some Diff.Accept
  else if s =? "SKIPPED" then Some Diff.Skipped
  else match reject_body s with
       | Some category => option_map Diff.Reject (parse_category category)
       | None => None
       end.

Definition parse_finding (label : string) : option Finding :=
  List.find (fun f => Finding.name f =? label)
    [Finding.PrecisionCandidate; Finding.KernelUnsoundCandidate; Finding.KernelOverstrictCandidate;
     Finding.SoundnessCandidate; Finding.RvPrecisionGap; Finding.RvSoundnessBug; Finding.Agree;
     Finding.Whitelisted; Finding.Inconclusive; Finding.Skipped].

(** The debug name of a category. *)
Definition category_name (c : ReasonCategory) : string :=
  match c with
  | UninitRead => "UninitRead" | StackBounds => "StackBounds" | StackAlign => "StackAlign"
  | PointerArith => "PointerArith" | HelperArgs => "HelperArgs" | CfgJump => "CfgJump" | Loop => "Loop"
  | Unreachable => "Unreachable" | ExitR0 => "ExitR0" | Complexity => "Complexity" | Ref => "Ref"
  | Other => "Other"
  end.

Definition side_str (s : SideVerdict) : string :=
  match s with
  | Diff.Accept => "ACCEPT"
  | Diff.Skipped => "SKIPPED"
  | Diff.Reject category => "REJECT(" +:+ category_name category +:+ ")"
  end.

(** [ok_or_else]. *)
Definition field {A} (p : Problem) (o : option A) : result ReduceError A :=
  match o with Some a => Ok a | None => Err (InvalidFinding p) end.

(** [load_finding], from the contents of the two files. *)
Definition load_finding (meta : option string) (prog : option (list Z)) : result ReduceError (FindingSpec * list Z) :=
  let? text := field (Unreadable "meta.json") meta in
  let? name := field (MissingField "name") (meta_value text "name") in
  let? label := field (MissingField "label") (meta_value text "label") in
  let? mini := field (MissingField "mini") (meta_value text "mini") in
  let? mini := field (UnparsableField "mini") (parse_side mini) in
  let? kernel := field (MissingField "kernel") (meta_value text "kernel") in
  let? kernel := field (UnparsableField "kernel") (parse_side kernel) in
  let spec_raw := meta_value text "spec" in
  let? finding :=
    if is_kernel_dependent label || (label =? "rv-soundness-bug")
    then let? f := field (UnknownLabel label) (parse_finding label) in Ok (Some f)
    else Ok None in
  let? bytes := field (Unreadable "prog.bin") prog in
  if (length bytes =? 0)%nat || negb (Nat.modulo (length bytes) 8 =? 0)%nat
  then Err (InvalidFinding NotInstructionStream)
  else Ok (mkFindingSpec name label finding mini kernel (parse_spec_side spec_raw)
             match spec_raw with Some _ => true | None => false end, bytes).

(** * Replay and invariant *)

Definition replay_check (spec : FindingSpec) (sides : ProgSides) (strict : bool) : result ReduceError unit :=
  if is_kernel_dependent (label spec) && bool_decide (s_kernel sides = Diff.Skipped)
  then Err (KernelRequired (label spec))
  else if negb (bool_decide (s_mini sides = f_mini spec))
  then Err (ReplayMismatch (Sides (f_mini spec)) (Sides (s_mini sides)))
  else if spec_recorded spec && negb (bool_decide (s_spec sides = f_spec spec))
  then Err (ReplayMismatch (SpecSides (f_spec spec)) (SpecSides (s_spec sides)))
  else
    match finding spec with
    | Some f =>
        let actual := classify (input_of (f_name spec) sides strict) in
        if negb (bool_decide (actual = f))
        then Err (ReplayMismatch (Findings (Finding.name f)) (Findings (Finding.name actual)))
        else Ok tt
    | None => Ok tt
    end.

Definition invariant_for (spec : FindingSpec) : result ReduceError Invariant :=
  if label spec =? "verdict-flip" then
    let mini := Diff.name (f_mini spec) in
    if (mini =? "ACCEPT") || (mini =? "REJECT") then Ok (VerdictFlip mini)
    else Err (InvalidFinding FlipWithoutVerdict)
  else
    let? f := field (UnknownLabel (label spec)) (parse_finding (label spec)) in
    let kernel_category := match f_kernel spec with Diff.Reject category => Some category | _ => None end in
    Ok (Classification f kernel_category).

(** * Writing meta.json (bin/fuzz.rs) *)

Definition NL : string := String LF "".

Fixpoint json_escape (s : string) : string :=
  match s with
  | EmptyString => ""
  | String c r =>
      (if (c =? QUOTE)%char then String "\" (String QUOTE "")
       else if (c =? "\")%char then "\\"
       else if (c =? LF)%char then "\n"
       else String c "") +:+ json_escape r
  end.

(** One line of the file. *)
Definition meta_line (key value sep : string) : string :=
  "  " +:+ quoted key +:+ ": " +:+ quoted value +:+ sep.

Definition spec_json (s : SpecSide) : string :=
  match s with
  | SpecSide.Accept => "ACCEPT" | SpecSide.Reject => "REJECT" | SpecSide.Inconclusive => "INCONCLUSIVE"
  end.

Definition meta_json (label name : string) (finding : Finding) (mini kernel : SideVerdict) (spec : SpecSide) : string :=
  "{" +:+ NL +:+
  meta_line "label" (json_escape label) ("," +:+ NL) +:+
  meta_line "name" (json_escape name) ("," +:+ NL) +:+
  meta_line "finding" (Finding.name finding) ("," +:+ NL) +:+
  meta_line "mini" (side_str mini) ("," +:+ NL) +:+
  meta_line "kernel" (side_str kernel) ("," +:+ NL) +:+
  meta_line "spec" (spec_json spec) NL +:+
  "}" +:+ NL.

(** * The reduction of a finding *)

Record ReduceReport := mkReduceReport {
  r_name : string;
  r_label : string;
  original_insns : nat;
  final_insns : nat;
  timeline : list TimelineEntry;
  r_checks : nat;
  r_hits : nat;
  budget : nat;
  final_mini : string;
  final_kernel : string }.

Inductive ReduceOutcome :=
| Reported (report : ReduceReport) (final : list Z)
| FailedWith (e : ReduceError)
| ReducerPanics
| NoFuel.

Definition label_of (baseline : Baseline) (sides : ProgSides) : string :=
  match b_invariant baseline with
  | Classification finding _ => Finding.name finding
  | VerdictFlip _ => "verdict-flip " +:+ Diff.name (s_mini sides)
  end.

Section ReduceFinding.
Context {W : Type} (evaluate : W -> list Z -> result EvalError ProgSides * W)
  (iter : W -> IterOrder).

(** The oracle of the reduction: a failed evaluation rejects. *)
Definition oracle_of (inv : Invariant) (name : string) (strict : bool) (w : W) (bytes : list Z) : bool * W :=
  let '(r, w') := evaluate w bytes in
  (match r with Ok sides => preserves inv name sides strict | Err _ => false end, w').

Definition load_and_replay (meta : option string) (prog : option (list Z)) (strict : bool) (w : W)
  : result ReduceError Baseline * W :=
  match load_finding meta prog with
  | Err e => (Err e, w)
  | Ok (spec, bytes) =>
      let '(r, w') := evaluate w bytes in
      (let? sides := match r with Ok sides => Ok sides | Err e => Err (eval_error e) end in
       let? _ := replay_check spec sides strict in
       let? inv := invariant_for spec in
       Ok (mkBaseline spec sides inv), w')
  end.

Definition reduce_finding (fuel budget : nat) (meta : option string) (prog : option (list Z)) (strict : bool) (w : W)
  : ReduceOutcome * W :=
  match load_and_replay meta prog strict w with
  | (Err e, w) => (FailedWith e, w)
  | (Ok baseline, w) =>
      match prog with
      | None => (FailedWith (InvalidFinding (Unreadable "prog.bin")), w)
      | Some original =>
          let name := f_name (b_spec baseline) in
          match reduce (oracle_of (b_invariant baseline) name strict) iter fuel original budget w with
          | (DriverPanics, _, w) => (ReducerPanics, w)
          | (Unfinished, _, w) => (NoFuel, w)
          | (Finished current timeline, cache, w) =>
              match evaluate w current with
              | (Err e, w) => (FailedWith (eval_error e), w)
              | (Ok final_sides, w) =>
                  if preserves (b_invariant baseline) name final_sides strict
                  then (Reported (mkReduceReport name (label (b_spec baseline)) (insn_count original)
                                    (insn_count current) timeline (OracleCache.checks cache)
                                    (OracleCache.hits cache) budget
                                    (Diff.name (s_mini final_sides)) (Diff.name (s_kernel final_sides))) current, w)
                  else (FailedWith (FinalCheckFailed (Findings (label_of baseline final_sides)) Summary), w)
              end
          end
      end
  end.
End ReduceFinding.

(** * A reproduced finding satisfies its invariant *)

(** The labels whose replay re-derives what the invariant asks for. *)
Definition reducible (label : string) : bool :=
  (label =? "verdict-flip") || is_kernel_dependent label || (label =? "rv-soundness-bug").

Lemma side_name_flip s : ((Diff.name s =? "ACCEPT") || (Diff.name s =? "REJECT"))%bool = bool_decide (s <> Diff.Skipped).
Proof. by destruct s. Qed.

Lemma load_finding_label meta prog spec bytes :
  load_finding meta prog = Ok (spec, bytes) ->
  prog = Some bytes /\
  (is_kernel_dependent (label spec) || (label spec =? "rv-soundness-bug") = true ->
     finding spec = parse_finding (label spec)).
Proof.
  unfold load_finding. destruct meta as [text|]; [cbn [field rbind]|done].
  destruct (meta_value text "name") as [name|]; [cbn [field rbind]|done].
  destruct (meta_value text "label") as [lab|]; [cbn [field rbind]|done].
  destruct (meta_value text "mini") as [m|]; [cbn [field rbind]|done].
  destruct (parse_side m) as [ms|]; [cbn [field rbind]|done].
  destruct (meta_value text "kernel") as [k|]; [cbn [field rbind]|done].
  destruct (parse_side k) as [ks|]; [cbn [field rbind]|done].
  destruct (is_kernel_dependent lab || (lab =? "rv-soundness-bug"))%bool eqn:El.
  - destruct (parse_finding lab) as [f|] eqn:Ef; [cbn [field rbind]|done].
    destruct prog as [b|]; [cbn [field rbind]|done]. destruct ((length b =? 0)%nat || _)%bool; [done|]. intros [= <- <-].
    cbn [label finding]. split; [done|]. intros _. by rewrite Ef.
  - cbn [rbind]. destruct prog as [b|]; [cbn [field rbind]|done]. destruct ((length b =? 0)%nat || _)%bool; [done|]. intros [= <- <-].
    cbn [label finding]. split; [done|]. by rewrite El.
Qed.

Lemma replay_invariant meta prog spec bytes sides strict inv :
  load_finding meta prog = Ok (spec, bytes) -> replay_check spec sides strict = Ok tt ->
  invariant_for spec = Ok inv -> reducible (label spec) = true ->
  (forall category, f_kernel spec = Diff.Reject category -> s_kernel sides = Diff.Reject category) ->
  preserves inv (f_name spec) sides strict = true.
Proof.
  intros Hl Hc Hi Hred Hk. destruct (load_finding_label _ _ _ _ Hl) as [_ Hf].
  unfold replay_check in Hc. destruct (_ && _)%bool; [done|].
  destruct (bool_decide (s_mini sides = f_mini spec)) eqn:Em; [|done]. cbn [negb] in Hc.
  apply bool_decide_eq_true in Em. destruct (_ && _)%bool; [done|].
  unfold invariant_for in Hi. destruct (label spec =? "verdict-flip") eqn:Ev.
  - destruct (_ || _)%bool; [|done]. injection Hi as <-. cbn. rewrite Em. apply String.eqb_refl.
  - unfold reducible in Hred. rewrite Ev in Hred. cbn [orb] in Hred. rewrite (Hf Hred) in Hc.
    destruct (parse_finding (label spec)) as [f|]; [|done]. cbn [field rbind] in Hi. injection Hi as <-.
    cbn [preserves]. destruct (bool_decide _) eqn:Ec; [cbn [negb]|done].
    destruct (f_kernel spec) as [|category|]; try done. rewrite (Hk category eq_refl). by apply bool_decide_eq_true.
Qed.

(** * The reduced finding *)

(** What the invariant of a recorded finding says of a program's sides. *)
Definition exhibits (spec : FindingSpec) (sides : ProgSides) (strict : bool) : Prop :=
  if label spec =? "verdict-flip" then Diff.name (s_mini sides) = Diff.name (f_mini spec)
  else Finding.name (classify (input_of (f_name spec) sides strict)) = label spec /\
       forall category, f_kernel spec = Diff.Reject category -> s_kernel sides = Diff.Reject category.

Lemma parse_finding_name l f : parse_finding l = Some f -> Finding.name f = l.
Proof. intros H. apply find_some in H as [_ H]. by apply String.eqb_eq. Qed.

Lemma invariant_exhibits spec inv sides strict :
  invariant_for spec = Ok inv -> preserves inv (f_name spec) sides strict = true <-> exhibits spec sides strict.
Proof.
  unfold invariant_for, exhibits. destruct (label spec =? "verdict-flip").
  - destruct (_ || _)%bool; [|done]. intros [= <-]. cbn. apply String.eqb_eq.
  - destruct (parse_finding (label spec)) as [f|] eqn:Ef; [|done]. cbn [field rbind]. intros [= <-].
    apply find_some in Ef as [Hin Hn]. apply String.eqb_eq in Hn. cbn [preserves]. rewrite <- Hn.
    assert (Hinj : forall g, Finding.name g = Finding.name f <-> g = f).
    { intros g. split; [|by intros ->]. destruct g, f; try done; intros H; discriminate H. }
    rewrite Hinj. destruct (bool_decide (_ = f)) eqn:Ec; cbn [negb];
      [apply bool_decide_eq_true in Ec|apply bool_decide_eq_false in Ec; naive_solver].
    destruct (f_kernel spec) as [|c|]; [naive_solver| |naive_solver].
    destruct (s_kernel sides) as [|k|]; [naive_solver| |naive_solver].
    rewrite bool_decide_eq_true. naive_solver.
Qed.

Section Reduced.
Context {W : Type} (evaluate : W -> list Z -> result EvalError ProgSides * W)
  (iter : W -> IterOrder) (eval : list Z -> result EvalError ProgSides).
(** The evaluation of a program does not depend on what was evaluated before. *)
Hypothesis deterministic : forall w bytes, fst (evaluate w bytes) = eval bytes.

Lemma replay_no_final spec sides strict e :
  replay_check spec sides strict = Err e -> match e with FinalCheckFailed _ _ => False | _ => True end.
Proof.
  unfold replay_check. destruct (_ && _)%bool; [by intros [= <-]|]. destruct (negb _); [by intros [= <-]|].
  destruct (_ && _)%bool; [by intros [= <-]|]. destruct (finding spec); [|done].
  destruct (negb _); [by intros [= <-]|done].
Qed.

Lemma invariant_no_final spec e :
  invariant_for spec = Err e -> match e with FinalCheckFailed _ _ => False | _ => True end.
Proof.
  unfold invariant_for. destruct (_ =? _).
  - destruct (_ || _)%bool; [done|by intros [= <-]].
  - destruct (parse_finding _); [done|]. cbn. by intros [= <-].
Qed.

Lemma oracle_det inv name strict w bytes :
  fst (oracle_of evaluate inv name strict w bytes) =
  match eval bytes with Ok sides => preserves inv name sides strict | Err _ => false end.
Proof. unfold oracle_of. rewrite <- (deterministic w bytes). by destruct (evaluate w bytes). Qed.

(** A candidate the oracle accepted satisfies the invariant. *)
Lemma accepted_preserves inv name strict budget cache p :
  grows (oracle_of evaluate inv name strict) (OracleCache.new budget) cache ->
  OracleCache.results cache !! p = Some true ->
  exists fs, eval p = Ok fs /\ preserves inv name fs strict = true.
Proof.
  intros G Hres. destruct (ext_answers _ _ _ G p true Hres) as [H|[w' H]]; [cbn in H; by rewrite lookup_empty in H|].
  rewrite oracle_det in H. destruct (eval p) as [fs|]; [|done]. by exists fs.
Qed.

Lemma reduced_kept fuel budget meta original strict w spec :
  load_finding meta (Some original) = Ok (spec, original) -> good original -> reducible (label spec) = true ->
  (forall sides category, eval original = Ok sides -> f_kernel spec = Diff.Reject category ->
     s_kernel sides = Diff.Reject category) ->
  match fst (reduce_finding evaluate iter fuel budget meta (Some original) strict w) with
  | Reported report final =>
      (exists sides, eval final = Ok sides /\ exhibits spec sides strict) /\
      (final_insns report <= original_insns report)%nat /\
      ((0 < budget)%nat -> (r_checks report <= budget)%nat)
  | FailedWith e =>
      fst (load_and_replay evaluate meta (Some original) strict w) = Err e /\
      match e with FinalCheckFailed _ _ => False | _ => True end
  | ReducerPanics =>
      exists w0 p, verifier_panics (iter w0) p /\ (p = original \/ exists sides, eval p = Ok sides /\ exhibits spec sides strict)
  | NoFuel => True
  end.
Proof.
  intros Hl Hg Hred Hk. unfold reduce_finding, load_and_replay. rewrite Hl.
  pose proof (deterministic w original) as Hd. destruct (evaluate w original) as [r w1]. cbn [fst] in Hd. subst r.
  destruct (eval original) as [sides|e] eqn:Eo; cbn [rbind fst]; [|by destruct e].
  destruct (replay_check spec sides strict) as [[]|e] eqn:Ec; cbn [rbind fst];
    [|split; [done|by eapply replay_no_final; rewrite Ec]].
  destruct (invariant_for spec) as [inv|e] eqn:Ei; cbn [rbind fst]; [|split; [done|by eapply invariant_no_final]].
  cbn [b_spec b_invariant].
  assert (Hp : preserves inv (f_name spec) sides strict = true) by (eapply replay_invariant; eauto).
  destruct (reduce _ _ _ _ _ _) as [[r cache] w2] eqn:Er. unfold reduce in Er.
  destruct (reduce_loop_spec (oracle_of evaluate inv (f_name spec) strict) iter fuel original
    [("start", insn_count original)] (OracleCache.new budget) w1 r cache w2 Hg)
    as [G Hr]; [by repeat constructor|by apply Forall_singleton|exact Er|].
  assert (Hans : forall p, OracleCache.results cache !! p = Some true ->
    exists fs, eval p = Ok fs /\ preserves inv (f_name spec) fs strict = true)
    by (intros p; by eapply accepted_preserves).
  destruct r as [final tl| |]; [| |done].
  - destruct Hr as (_ & Hfin & Hle & _).
    assert (Hok : exists fs, eval final = Ok fs /\ preserves inv (f_name spec) fs strict = true).
    { destruct Hfin as [->|Hres]; [by exists sides|by apply Hans]. }
    destruct Hok as (fs & Hev & Hpf). pose proof (deterministic w2 final) as Hd.
    destruct (evaluate w2 final) as [rf w3]. cbn [fst] in Hd. rewrite Hd, Hev, Hpf. cbn [fst].
    split_and!; [|done|].
    + exists fs. split; [done|]. by apply (invariant_exhibits spec inv).
    + intros Hb. apply (ext_bound _ _ _ G); cbn; lia.
  - cbn [fst]. destruct Hr as (w0 & p & Hov & Hp'). exists w0, p. split; [done|]. destruct Hp' as [->|Hres]; [by left|right].
    destruct (Hans p Hres) as (fs & Hev & Hpf). exists fs. split; [done|]. by apply (invariant_exhibits spec inv).
Qed.

Lemma reduce_finding_ends budget meta original strict w :
  good original ->
  exists enough,
    fst (reduce_finding evaluate iter enough budget meta (Some original) strict w) <> NoFuel.
Proof.
  intros Hg. unfold reduce_finding.
  destruct (load_and_replay evaluate meta (Some original) strict w) as [[baseline|e] w1]; [|by exists 0%nat].
  destruct (reduce_loop_ends (oracle_of evaluate (b_invariant baseline) (f_name (b_spec baseline)) strict)
    iter original Hg [("start", insn_count original)] (OracleCache.new budget) w1) as [enough He].
  exists enough. unfold reduce. destruct (reduce_loop _ _ _ _ _ _ _) as [[r cache] w2]. cbn [fst] in He.
  destruct r; [|done|done]. destruct (evaluate w2 _) as [[fs|e] w3]; [|done]. by destruct (preserves _ _ _ _).
Qed.
End Reduced.


(** * Reading what was written

    The file is a sequence of texts without quotes, joined by quotes. *)

Fixpoint no_quote (s : string) : bool :=
  match s with EmptyString => true | String c r => negb (c =? QUOTE)%char && no_quote r end.

Fixpoint weave (segs : list string) : string :=
  match segs with
  | [] => ""
  | [s] => s
  | s :: rest => s +:+ String QUOTE (weave rest)
  end.

(** The texts after the first one that is the key, between quotes. *)
Fixpoint seek (key : string) (segs : list string) : option (list string) :=
  match segs with
  | k :: ((_ :: _) as rest) => if k =? key then Some rest else seek key rest
  | _ => None
  end.

Lemma append_cons_char c s r : String c s +:+ r = String c (s +:+ r).
Proof. reflexivity. Qed.

Lemma append_empty r : "" +:+ r = r.
Proof. reflexivity. Qed.

Lemma append_assoc (a b c : string) : (a +:+ b) +:+ c = a +:+ (b +:+ c).
Proof. induction a as [|x a IH]; [done|]. rewrite !append_cons_char. by rewrite IH. Qed.

Lemma length_append a b : String.length (a +:+ b) = (String.length a + String.length b)%nat.
Proof. induction a as [|x a IH]; [done|]. rewrite append_cons_char. cbn. by rewrite IH. Qed.

Lemma substring_rest a b :
  String.substring (String.length a) (String.length (a +:+ b) - String.length a) (a +:+ b) = b.
Proof.
  induction a as [|x a IH].
  - rewrite append_empty. cbn [String.length]. rewrite Nat.sub_0_r.
    induction b as [|y b IHb]; [done|]. cbn. by rewrite IHb.
  - rewrite append_cons_char. cbn. exact IH.
Qed.

Lemma prefix_append a b : String.prefix a (a +:+ b) = true.
Proof.
  induction a as [|x a IH]; [by destruct b|]. rewrite append_cons_char. cbn.
  destruct (ascii_dec x x); [exact IH|done].
Qed.

Lemma prefix_value key v r :
  no_quote key = true -> no_quote v = true ->
  String.prefix (key +:+ String QUOTE "") (v +:+ String QUOTE r) = (v =? key).
Proof.
  revert v. induction key as [|k key IH]; intros [|c v]; rewrite ?append_cons_char, ?append_empty;
    cbn [no_quote String.prefix]; rewrite ?andb_true_iff, ?negb_true_iff.
  - intros _ _. destruct (ascii_dec QUOTE QUOTE); [by destruct r|done].
  - intros _ [Hc _]. destruct (ascii_dec QUOTE c) as [<-|]; [by rewrite Ascii.eqb_refl in Hc|done].
  - intros [Hk _] _. destruct (ascii_dec k QUOTE) as [->|]; [by rewrite Ascii.eqb_refl in Hk|done].
  - intros [_ Hk] [_ Hv]. cbn [String.eqb]. destruct (ascii_dec k c) as [->|Hne].
    + rewrite Ascii.eqb_refl. by apply IH.
    + destruct (Ascii.eqb_spec c k) as [->|]; done.
Qed.

Lemma prefix_last key v : no_quote v = true -> String.prefix (key +:+ String QUOTE "") v = false.
Proof.
  revert v. induction key as [|k key IH]; intros [|c v]; rewrite ?append_cons_char, ?append_empty;
    cbn [no_quote String.prefix]; rewrite ?andb_true_iff, ?negb_true_iff; try done.
  - intros [Hc _]. destruct (ascii_dec QUOTE c) as [<-|]; [by rewrite Ascii.eqb_refl in Hc|done].
  - intros [_ Hv]. destruct (ascii_dec k c); [by apply IH|done].
Qed.

Lemma after_first_skip key s r :
  no_quote s = true ->
  after_first (quoted key) (s +:+ String QUOTE r) = after_first (quoted key) (String QUOTE r).
Proof.
  induction s as [|c s IH]; [done|]. cbn [no_quote]. rewrite andb_true_iff, negb_true_iff. intros [Hc Hs].
  rewrite append_cons_char. cbn [after_first]. unfold quoted at 1. cbn [String.prefix].
  destruct (ascii_dec QUOTE c) as [<-|]; [by rewrite Ascii.eqb_refl in Hc|]. by apply IH.
Qed.

Lemma after_first_none key s : no_quote s = true -> after_first (quoted key) s = None.
Proof.
  induction s as [|c s IH]; [done|]. cbn [no_quote]. rewrite andb_true_iff, negb_true_iff. intros [Hc Hs].
  cbn [after_first]. unfold quoted at 1. cbn [String.prefix].
  destruct (ascii_dec QUOTE c) as [<-|]; [by rewrite Ascii.eqb_refl in Hc|]. by apply IH.
Qed.

Lemma after_first_quote key r :
  after_first (quoted key) (String QUOTE r) =
  if String.prefix (key +:+ String QUOTE "") r
  then Some (String.substring (String.length (quoted key))
               (String.length (String QUOTE r) - String.length (quoted key)) (String QUOTE r))
  else after_first (quoted key) r.
Proof.
  cbn [after_first]. unfold quoted at 1. cbn [String.prefix].
  by destruct (ascii_dec QUOTE QUOTE).
Qed.

Lemma after_first_weave key s segs :
  no_quote key = true -> forallb no_quote (s :: segs) = true ->
  after_first (quoted key) (weave (s :: segs)) = option_map weave (seek key segs).
Proof.
  intros Hk. revert s. induction segs as [|k segs IH]; intros s; cbn [forallb]; rewrite ?andb_true_iff.
  - intros [Hs _]. by apply after_first_none.
  - intros (Hs & Hq & Hrest). change (weave (s :: k :: segs)) with (s +:+ String QUOTE (weave (k :: segs))).
    rewrite after_first_skip, after_first_quote by done. destruct segs as [|n segs].
    + cbn [weave seek option_map]. rewrite prefix_last by done. by apply after_first_none.
    + change (weave (k :: n :: segs)) with (k +:+ String QUOTE (weave (n :: segs))).
      rewrite prefix_value by done. cbn [seek]. destruct (String.eqb_spec k key) as [->|Hne].
      * cbn [option_map]. f_equal. unfold quoted.
        change (String QUOTE (key +:+ String QUOTE (weave (n :: segs))))
          with (String QUOTE (key +:+ (String QUOTE "" +:+ weave (n :: segs)))).
        rewrite <- (append_assoc key). rewrite <- append_cons_char. apply substring_rest.
      * change (k +:+ String QUOTE (weave (n :: segs))) with (weave (k :: n :: segs)).
        apply IH. cbn [forallb]. by rewrite Hq.
Qed.

(** What [meta_value_from] does with the text after a key. *)
Definition inspect (fuel : nat) (key : string) (rest : list string) : option string :=
  match trim_start (weave rest) with
  | String c after =>
      if (c =? ":")%char then
        match trim_start after with
        | String q value => if (q =? QUOTE)%char then until_quote value else None
        | EmptyString => None
        end
      else meta_value_from fuel (quoted key) (weave rest)
  | EmptyString => meta_value_from fuel (quoted key) (weave rest)
  end.

Lemma meta_value_weave fuel key s segs :
  no_quote key = true -> forallb no_quote (s :: segs) = true ->
  meta_value_from (S fuel) (quoted key) (weave (s :: segs)) =
  match seek key segs with Some rest => inspect fuel key rest | None => None end.
Proof.
  intros Hk Hs. cbn [meta_value_from]. rewrite after_first_weave by done. by destruct (seek key segs).
Qed.

Lemma until_quote_value v r : no_quote v = true -> until_quote (v +:+ String QUOTE r) = Some v.
Proof.
  induction v as [|c v IH]; [done|]. cbn [no_quote]. rewrite andb_true_iff, negb_true_iff. intros [Hc Hv].
  rewrite append_cons_char. cbn [until_quote]. by rewrite Hc, IH.
Qed.

(** ** Fields *)

Definition separator (last : bool) : string := if last then NL +:+ "}" +:+ NL else "," +:+ NL +:+ "  ".

Fixpoint field_segs (fields : list (string * string)) : list string :=
  match fields with
  | [] => []
  | (k, v) :: rest => k :: ": " :: v :: separator (match rest with [] => true | _ => false end) :: field_segs rest
  end.

Fixpoint assoc (key : string) (fields : list (string * string)) : option string :=
  match fields with
  | [] => None
  | (k, v) :: rest => if k =? key then Some v else assoc key rest
  end.

Definition clean_field (f : string * string) : bool := no_quote (fst f) && no_quote (snd f).

Lemma field_segs_clean fields : forallb clean_field fields = true -> forallb no_quote (field_segs fields) = true.
Proof.
  induction fields as [|[k v] rest IH]; [done|]. cbn [forallb clean_field fst snd]. unfold clean_field at 1. cbn [fst snd].
  rewrite !andb_true_iff. intros [[Hk Hv] Hr]. cbn [field_segs forallb]. rewrite Hk, Hv, (IH Hr).
  by destruct rest.
Qed.

Lemma no_quote_separator b : no_quote (separator b) = true.
Proof. by destruct b. Qed.

(** The key of a field is none of the texts around the fields. *)
Definition field_key (key : string) : bool :=
  no_quote key && negb (": " =? key) && negb (separator true =? key) && negb (separator false =? key).

Lemma meta_value_fields key fields : forall fuel s,
  field_key key = true -> forallb clean_field fields = true -> no_quote s = true -> (length fields < fuel)%nat ->
  meta_value_from fuel (quoted key) (weave (s :: field_segs fields)) = assoc key fields.
Proof.
  intros fuel s Hkey. revert fuel s. unfold field_key in Hkey. rewrite !andb_true_iff, !negb_true_iff in Hkey.
  destruct Hkey as [[[Hnq H1] H2] H3].
  induction fields as [|[k v] rest IH]; intros fuel s Hc Hs Hf; (destruct fuel as [|fuel]; [lia|]).
  { rewrite meta_value_weave by (done || cbn; by rewrite Hs). done. }
  pose proof (field_segs_clean _ Hc) as Hsegs.
  rewrite meta_value_weave; [|done|by cbn [forallb]; rewrite Hs, Hsegs].
  cbn [forallb] in Hc. apply andb_true_iff in Hc as [Hkv Hc]. unfold clean_field in Hkv. cbn [fst snd] in Hkv.
  apply andb_true_iff in Hkv as [Hk Hv]. pose proof (field_segs_clean _ Hc) as Hrest.
  set (sep := separator (match rest with [] => true | _ => false end)).
  assert (Hsep : (sep =? key) = false) by (subst sep; by destruct rest).
  assert (Hsq : no_quote sep = true) by apply no_quote_separator.
  cbn [length] in Hf. cbn [field_segs seek assoc]. fold sep.
  destruct (String.eqb_spec k key) as [->|Hne].
  - unfold inspect. change (weave (": " :: v :: sep :: field_segs rest))
      with (": " +:+ String QUOTE (v +:+ String QUOTE (weave (sep :: field_segs rest)))).
    rewrite !append_cons_char, append_empty. cbn. by apply until_quote_value.
  - rewrite H1. destruct (String.eqb_spec v key) as [->|Hnv].
    + unfold inspect. assert (Hi : meta_value_from fuel (quoted key) (weave (sep :: field_segs rest)) = assoc key rest)
        by (apply IH; [done..|lia]).
      rewrite <- Hi. subst sep. destruct rest as [|[k' v'] rest]; reflexivity.
    + assert (Hi : meta_value_from (S fuel) (quoted key) (weave (sep :: field_segs rest)) = assoc key rest)
        by (apply IH; [done..|lia]).
      rewrite meta_value_weave in Hi; [|done|by cbn [forallb]; rewrite Hsq, Hrest].
      rewrite <- Hi. destruct (field_segs rest) as [|x xs]; [done|]. by rewrite Hsep.
Qed.

(** Text that the escaping leaves alone. *)
Fixpoint plain (s : string) : bool :=
  match s with
  | EmptyString => true
  | String c r => negb (c =? QUOTE)%char && negb (c =? "\")%char && negb (c =? LF)%char && plain r
  end.

Lemma plain_escape s : plain s = true -> json_escape s = s /\ no_quote s = true.
Proof.
  induction s as [|c s IH]; [done|]. cbn [plain json_escape no_quote]. rewrite !andb_true_iff, !negb_true_iff.
  intros [[[Hq Hb] Hl] Hs]. rewrite Hq, Hb, Hl. destruct (IH Hs) as [-> ->]. done.
Qed.

Definition meta_fields (label name : string) (finding : Finding) (mini kernel : SideVerdict) (spec : SpecSide)
  : list (string * string) :=
  [("label", label); ("name", name); ("finding", Finding.name finding); ("mini", side_str mini);
   ("kernel", side_str kernel); ("spec", spec_json spec)].

Lemma meta_json_weave label name finding mini kernel spec :
  plain label = true -> plain name = true ->
  meta_json label name finding mini kernel spec =
  weave (("{" +:+ NL +:+ "  ") :: field_segs (meta_fields label name finding mini kernel spec)).
Proof.
  intros Hl Hn. unfold meta_json, meta_line, meta_fields, quoted, NL.
  destruct (plain_escape label Hl) as [-> _]. destruct (plain_escape name Hn) as [-> _].
  cbn [field_segs weave separator]. unfold NL.
  generalize (Finding.name finding) (side_str mini) (side_str kernel) (spec_json spec). intros a b c d.
  repeat (rewrite append_assoc || rewrite append_cons_char || rewrite append_empty). reflexivity.
Qed.

Lemma meta_value_written key label name finding mini kernel spec :
  field_key key = true -> plain label = true -> plain name = true ->
  meta_value (meta_json label name finding mini kernel spec) key =
  assoc key (meta_fields label name finding mini kernel spec).
Proof.
  intros Hk Hl Hn. unfold meta_value. rewrite meta_json_weave by done.
  apply meta_value_fields; [done| |done|].
  - unfold meta_fields. cbn [forallb]. unfold clean_field. cbn [fst snd].
    rewrite (proj2 (plain_escape label Hl)), (proj2 (plain_escape name Hn)).
    destruct finding, spec, mini as [|[]|], kernel as [|[]|]; reflexivity.
  - rewrite <- meta_json_weave by done. unfold meta_json, meta_line, quoted.
    unfold NL. rewrite !append_assoc, !append_cons_char, !append_empty, !append_cons_char.
    cbn [String.length meta_fields length]. lia.
Qed.

(** A side whose category the reader knows. *)
Definition readable (s : SideVerdict) : bool :=
  match s with Diff.Reject Ref => false | _ => true end.

Lemma parse_side_str s : readable s = true -> parse_side (side_str s) = Some s.
Proof. destruct s as [|[]|]; try done; intros; vm_compute; reflexivity. Qed.

Lemma parse_spec_json s : parse_spec_side (Some (spec_json s)) = s.
Proof. by destruct s. Qed.

Lemma parse_side_unreadable s : readable s = false -> parse_side (side_str s) = None.
Proof. by destruct s as [|[]|]. Qed.

(** The labels whose classification is read all have one. *)
Lemma dependent_label_parses label :
  (is_kernel_dependent label || (label =? "rv-soundness-bug") = true)%bool ->
  exists f, parse_finding label = Some f.
Proof.
  unfold is_kernel_dependent. cbn [existsb]. intros Ed.
  repeat match goal with
  | H : (_ || _)%bool = true |- _ => apply orb_true_iff in H as [H|H]
  | H : (_ =? _) = true |- _ => apply String.eqb_eq in H as ->
  end; try done; eexists; vm_compute; reflexivity.
Qed.

(** C23: what is read back of the meta.json the campaign writes, for a label and a
    name free of quotes, backslashes and line feeds.  When both sides are of the
    categories the reader knows, which are all but the reference category, and the
    program is a non-empty stream of whole slots, loading gives the same name,
    label and sides, marks the specification's side as recorded, and parses the
    classification of the labels that depend on it; otherwise it fails and names
    what it cannot read.  The bound on names is needed: a name with a quote in it
    comes back cut off.  And a panic that was read back is not reduced: its label
    has no invariant. *)
Theorem finding_roundtrip (label name : string) (f : Finding) (mini kernel : SideVerdict) (spec : SpecSide)
    (bytes : list Z) :
  (plain label = true -> plain name = true ->
   load_finding (Some (meta_json label name f mini kernel spec)) (Some bytes) =
   if negb (readable mini) then Err (InvalidFinding (UnparsableField "mini"))
   else if negb (readable kernel) then Err (InvalidFinding (UnparsableField "kernel"))
   else if ((length bytes =? 0)%nat || negb (Nat.modulo (length bytes) 8 =? 0)%nat)%bool
   then Err (InvalidFinding NotInstructionStream)
   else Ok (mkFindingSpec name label
              (if is_kernel_dependent label || (label =? "rv-soundness-bug") then parse_finding label else None)%bool
              mini kernel spec true, bytes)) /\
  (forall s, readable s = false <-> s = Diff.Reject Ref) /\
  (exists read, load_finding (Some (meta_json "agree" ("a" +:+ quoted "b") f Diff.Accept Diff.Accept spec))
     (Some [0x95; 0; 0; 0; 0; 0; 0; 0]%Z) = Ok read /\ f_name (fst read) = "a\") /\
  (forall read, Replay.label read = "rv-panic" -> invariant_for read = Err (InvalidFinding (UnknownLabel "rv-panic"))).
Proof.
  split; [|split; [|split]].
  2: { intros [|[]|]; by split. }
  2: { destruct f, spec; (eexists; split; [vm_compute; reflexivity|reflexivity]). }
  2: { intros read Hr. unfold invariant_for. rewrite Hr. reflexivity. }
  intros Hl Hn. unfold load_finding. cbn [field rbind].
  rewrite !meta_value_written by done. unfold meta_fields. cbn [assoc String.eqb Ascii.eqb Bool.eqb].
  cbn [field rbind]. destruct (readable mini) eqn:Hm; cbn [negb]; [|by rewrite parse_side_unreadable].
  rewrite (parse_side_str mini) by done. cbn [field rbind].
  destruct (readable kernel) eqn:Hk; cbn [negb]; [|by rewrite parse_side_unreadable].
  rewrite (parse_side_str kernel) by done. cbn [field rbind].
  destruct (is_kernel_dependent label || (label =? "rv-soundness-bug"))%bool eqn:Ed.
  - destruct (dependent_label_parses label Ed) as [g ->]. cbn [field rbind]. by rewrite parse_spec_json.
  - cbn [field rbind]. by rewrite parse_spec_json.
Qed.

Lemma finding_roundtrip_witness :
  load_finding (Some (meta_json "precision-candidate" "mseed-1" Finding.PrecisionCandidate Diff.Accept
    (Diff.Reject Loop) SpecSide.Accept)) (Some [0x95; 0; 0; 0; 0; 0; 0; 0]%Z) =
  Ok (mkFindingSpec "mseed-1" "precision-candidate" (Some Finding.PrecisionCandidate) Diff.Accept
        (Diff.Reject Loop) SpecSide.Accept true, [0x95; 0; 0; 0; 0; 0; 0; 0]%Z).
Proof.
  destruct (finding_roundtrip "precision-candidate" "mseed-1" Finding.PrecisionCandidate Diff.Accept
    (Diff.Reject Loop) SpecSide.Accept [0x95; 0; 0; 0; 0; 0; 0; 0]%Z) as [H _]. apply H; reflexivity.
Defined.

(** An evaluation that accepts with the kernel's loop rejection as long as r0 is
    set to 2. *)
Definition loop_rejected (bytes : list Z) : result EvalError ProgSides :=
  Ok (mkSides Diff.Accept None ConcreteSide.Safe
        (if fst (sets_r0_to_2 tt bytes) then Diff.Reject Loop else Diff.Accept) None SpecSide.Inconclusive).

Definition padded_meta : option string :=
  Some (meta_json "precision-candidate" "pad-1" Finding.PrecisionCandidate Diff.Accept (Diff.Reject Loop)
          SpecSide.Inconclusive).


(** What replay does not check. The kernel's recorded reason is part of the
    invariant but is not compared on replay: a verifier bug recorded with a kernel
    rejection and reduced without the kernel replays, and then the final check
    blames the reducer; so does a label without a classification of its own.
    The reader does not know the reference category, nor a panic; and it does not
    undo the writer's escapes. *)
Theorem replay_gaps :
  let program : list Z := [0xb7; 0; 0; 0; 2; 0; 0; 0; 0x95; 0; 0; 0; 0; 0; 0; 0]%Z in
  let bug := fun (w : unit) (b : list Z) =>
    (Ok (mkSides Diff.Accept None ConcreteSide.Unsafe Diff.Skipped None SpecSide.Inconclusive), w) in
  fst (reduce_finding bug (fun _ => map_to_list) 5 0
    (Some (meta_json "rv-soundness-bug" "bug-1" Finding.RvSoundnessBug Diff.Accept (Diff.Reject Loop)
             SpecSide.Inconclusive)) (Some program) false tt) =
    FailedWith (FinalCheckFailed (Findings "rv-soundness-bug") Summary) /\
  fst (reduce_finding bug (fun _ => map_to_list) 5 0
    (Some (meta_json "agree" "same-1" Finding.Agree Diff.Accept Diff.Accept SpecSide.Inconclusive))
    (Some program) false tt) = FailedWith (FinalCheckFailed (Findings "agree") Summary) /\
  fst (reduce_finding bug (fun _ => map_to_list) 5 0
    (Some (meta_json "rv-panic" "panic-1" Finding.RvPanic Diff.Accept Diff.Accept SpecSide.Inconclusive))
    (Some program) false tt) = FailedWith (InvalidFinding (UnknownLabel "rv-panic")) /\
  load_finding (Some (meta_json "rv-precision-gap" "ref-1" Finding.RvPrecisionGap (Diff.Reject Ref) Diff.Accept
    SpecSide.Inconclusive)) (Some program) = Err (InvalidFinding (UnparsableField "mini")) /\
  (let name := "a" +:+ quoted "b" in
   meta_value (meta_json "agree" name Finding.Agree Diff.Accept Diff.Accept SpecSide.Accept) "name" = Some "a\").
Proof. do 4 (split; [vm_compute; reflexivity|]). vm_compute. reflexivity. Qed.
