(* ===== verification/Prng.v ===== *)
(** The campaign's pseudo-random generator (src/src/fuzz/prng.rs): SplitMix64,
    its draws, and the mixing of a campaign's seed with an iteration.  A drawing
    is a state-passing computation that may panic (an empty range, an empty pool).
    The theorems: the stream of a seed takes each 64-bit value once per period,
    whatever the seed, so that a loop that waits for a value ends; and two pairs
    of a seed and an iteration are mixed alike in the cases listed only. *)
From Stdlib Require Import ZArith Lia List Bool Btauto.
From stdpp Require Import base list numbers.
From S2P Require Import Prelude.
Open Scope Z_scope.

(** * The generator *)

Record SplitMix64 := mkSplitMix64 { state : Z }.

Definition GAMMA : Z := 0x9E3779B97F4A7C15.
Definition MIX1 : Z := 0xBF58476D1CE4E5B9.
Definition MIX2 : Z := 0x94D049BB133111EB.

(** [z ^ (z >> k)]. *)
Definition xorshift (k z : Z) : Z := Z.lxor z (Z.shiftr z k).

(** The two multiplications that scramble a state. *)
Definition scramble (z : Z) : Z :=
  xorshift 31 (wmul 64 (xorshift 27 (wmul 64 (xorshift 30 z) MIX1)) MIX2).

Definition new (seed : Z) : SplitMix64 := mkSplitMix64 seed.

Definition next (g : SplitMix64) : Z * SplitMix64 :=
  let s := wadd 64 (state g) GAMMA in (scramble s, mkSplitMix64 s).

Definition mix_seed (seed iter : Z) : Z :=
  let z := Z.lxor seed (rotate_left iter 32) in
  let z := wmul 64 z MIX1 in
  let z := wmul 64 (xorshift 30 z) MIX2 in
  xorshift 31 z.

(** * Drawing *)

(** [Exhausted] is the model's own: a loop has used up its bound. *)
Inductive drawn (A : Type) :=
| Drew (a : A) (g : SplitMix64)
| DrawPanics
| Exhausted.
Arguments Drew {A} a g.
Arguments DrawPanics {A}.
Arguments Exhausted {A}.

Definition rand (A : Type) : Type := SplitMix64 -> drawn A.
Definition rret {A} (a : A) : rand A := fun g => Drew a g.
Definition rpanic {A} : rand A := fun _ => DrawPanics.
Definition rand_bind {A B} (m : rand A) (k : A -> rand B) : rand B :=
  fun g => match m g with Drew a g' => k a g' | DrawPanics => DrawPanics | Exhausted => Exhausted end.

Declare Scope rand_scope.
Delimit Scope rand_scope with rand.
Notation "'let~' x ':=' m 'in' k" := (rand_bind m (fun x => k))
  (at level 10, x pattern, m at level 100, k at level 200) : rand_scope.
Open Scope rand_scope.

(** [next() % n]: a remainder by zero panics. *)
Definition below (n : Z) : rand Z :=
  fun g => if n =? 0 then DrawPanics else let '(x, g') := next g in Drew (x mod n) g'.

Definition pick {A} (pool : list A) : rand A :=
  let~ i := below (Z.of_nat (length pool)) in
  match pool !! Z.to_nat i with Some x => rret x | None => rpanic end.

(** [while]: at most [p] turns of a loop that stops with [inr]. *)
Fixpoint turns {S R} (p : positive) (turn : S -> S + R) (s : S) : S + R :=
  match p with
  | xH => turn s
  | xO p => match turns p turn s with inl s => turns p turn s | inr r => inr r end
  | xI p =>
      match turn s with
      | inl s => match turns p turn s with inl s => turns p turn s | inr r => inr r end
      | inr r => inr r
      end
  end.

(** Draw until a value passes a test; the bound is the period of the generator. *)
Definition draw_until {A} (m : rand A) (stop : A -> bool) : rand A :=
  fun g =>
    match turns (2 ^ 64) (fun g => match m g with
                                   | Drew a g' => if stop a then inr (Drew a g') else inl g'
                                   | r => inr r
                                   end) g with
    | inl _ => Exhausted
    | inr r => r
    end.

(** * Mixing is a bijection of the words *)

(** Functions on the words that undo each other. *)
Record inverse (f g : Z -> Z) : Prop := {
  inv_word : forall z, is_u64 z -> is_u64 (f z) /\ is_u64 (g z);
  inv_left : forall z, is_u64 z -> g (f z) = z;
  inv_right : forall z, is_u64 z -> f (g z) = z }.

Lemma inverse_compose f1 g1 f2 g2 :
  inverse f1 g1 -> inverse f2 g2 -> inverse (fun z => f2 (f1 z)) (fun z => g1 (g2 z)).
Proof.
  intros [W1 L1 R1] [W2 L2 R2]. split; intros z Hz.
  - split; [by apply W2, W1|by apply W1, W2].
  - rewrite L2 by (by apply W1). by apply L1.
  - rewrite R1 by (by apply W2). by apply R2.
Qed.

Lemma inverse_injective f g x y : inverse f g -> is_u64 x -> is_u64 y -> f x = f y -> x = y.
Proof. intros [_ L _] Hx Hy H. by rewrite <- (L x Hx), <- (L y Hy), H. Qed.

(** The shift that undoes [xorshift k] when three shifts leave the word. *)
Definition unshift (k z : Z) : Z := Z.lxor (xorshift k z) (Z.shiftr z (2 * k)).

Lemma xorshift_inverse k : 22 <= k -> inverse (xorshift k) (unshift k).
Proof.
  intros Hk. split; intros z Hz.
  - split; apply bits_u64; intros i Hi; unfold unshift, xorshift;
      rewrite !Z.lxor_spec, !Z.shiftr_spec, !testbit_u64_high by lia; done.
  - apply Z.bits_inj_iff'; intros i Hi; unfold unshift, xorshift.
    rewrite !Z.lxor_spec, !Z.shiftr_spec, !Z.lxor_spec, !Z.shiftr_spec by lia.
    replace (i + 2 * k + k) with (i + 3 * k) by lia. replace (i + k + k) with (i + 2 * k) by lia.
    rewrite (testbit_u64_high z (i + 3 * k)) by lia. btauto.
  - apply Z.bits_inj_iff'; intros i Hi; unfold unshift, xorshift.
    rewrite !Z.lxor_spec, !Z.shiftr_spec, !Z.lxor_spec, !Z.shiftr_spec by lia.
    replace (i + k + 2 * k) with (i + 3 * k) by lia. replace (i + k + k) with (i + 2 * k) by lia.
    rewrite (testbit_u64_high z (i + 3 * k)) by lia. btauto.
Qed.

Lemma wmul_word a b : is_u64 (wmul 64 a b).
Proof. pose proof (as_u_range 64 (a * b) ltac:(lia)). unfold wmul. lia. Qed.

Lemma mul_undone a b z : (a * b) mod 2 ^ 64 = 1 -> is_u64 z -> wmul 64 (wmul 64 z a) b = z.
Proof.
  intros Hab Hz. unfold wmul, as_u.
  rewrite Z.mul_mod_idemp_l, <- Z.mul_assoc, <- Z.mul_mod_idemp_r, Hab, Z.mul_1_r by lia.
  apply Z.mod_small. lia.
Qed.

Lemma wmul_inverse a b : (a * b) mod 2 ^ 64 = 1 -> inverse (fun z => wmul 64 z a) (fun z => wmul 64 z b).
Proof.
  intros Hab. split; intros z Hz; [by split; apply wmul_word|by apply mul_undone|].
  apply mul_undone; [by rewrite Z.mul_comm|done].
Qed.

Definition MIX1_INV : Z := 0x96DE1B173F119089.
Definition MIX2_INV : Z := 0x319642B2D24D8EC3.
Definition GAMMA_INV : Z := 0xF1DE83E19937733D.

(** The two mixers undone. *)
Definition unscramble (z : Z) : Z :=
  unshift 30 (wmul 64 (unshift 27 (wmul 64 (unshift 31 z) MIX2_INV)) MIX1_INV).
Definition mix (z : Z) : Z := xorshift 31 (wmul 64 (xorshift 30 (wmul 64 z MIX1)) MIX2).
Definition unmix (z : Z) : Z := wmul 64 (unshift 30 (wmul 64 (unshift 31 z) MIX2_INV)) MIX1_INV.

#[local] Hint Resolve xorshift_inverse wmul_inverse : core.
#[local] Hint Extern 1 (_ <= _) => lia : core.

Lemma scramble_inverse : inverse scramble unscramble.
Proof.
  apply (inverse_compose (fun z => wmul 64 (xorshift 27 (wmul 64 (xorshift 30 z) MIX1)) MIX2)
    (fun z => unshift 30 (wmul 64 (unshift 27 (wmul 64 z MIX2_INV)) MIX1_INV))); [|auto].
  apply (inverse_compose (fun z => xorshift 27 (wmul 64 (xorshift 30 z) MIX1))
    (fun z => unshift 30 (wmul 64 (unshift 27 z) MIX1_INV)) (fun z => wmul 64 z MIX2)); [|auto].
  apply (inverse_compose (fun z => wmul 64 (xorshift 30 z) MIX1) (fun z => unshift 30 (wmul 64 z MIX1_INV))); [|auto].
  apply (inverse_compose (xorshift 30) (unshift 30) (fun z => wmul 64 z MIX1)); auto.
Qed.

Lemma mix_inverse : inverse mix unmix.
Proof.
  apply (inverse_compose (fun z => wmul 64 (xorshift 30 (wmul 64 z MIX1)) MIX2)
    (fun z => wmul 64 (unshift 30 (wmul 64 z MIX2_INV)) MIX1_INV)); [|auto].
  apply (inverse_compose (fun z => xorshift 30 (wmul 64 z MIX1)) (fun z => wmul 64 (unshift 30 z) MIX1_INV)
    (fun z => wmul 64 z MIX2)); [|auto].
  apply (inverse_compose (fun z => wmul 64 z MIX1) (fun z => wmul 64 z MIX1_INV)); auto.
Qed.

(** * The stream *)

(** The generator after [n] draws, and the draw after that. *)
Definition after (n : nat) (g : SplitMix64) : SplitMix64 := Nat.iter n (fun g => snd (next g)) g.
Definition draw (n : nat) (g : SplitMix64) : Z := fst (next (after n g)).

Lemma after_state n g : state (after n g) mod 2 ^ 64 = (state g + Z.of_nat n * GAMMA) mod 2 ^ 64.
Proof.
  induction n as [|n IH]; [unfold after; simpl; f_equal; lia|].
  change (after (S n) g) with (snd (next (after n g))). cbn [next snd state].
  unfold wadd, as_u. rewrite Z.mod_mod by lia.
  rewrite <- Z.add_mod_idemp_l, IH, Z.add_mod_idemp_l by lia. f_equal. lia.
Qed.

Lemma draw_state n g : draw n g = scramble ((state g + (Z.of_nat n + 1) * GAMMA) mod 2 ^ 64).
Proof.
  unfold draw, next, wadd, as_u. cbn [fst]. rewrite <- Z.add_mod_idemp_l, after_state, Z.add_mod_idemp_l by lia.
  do 2 f_equal. lia.
Qed.


Lemma as_u_word x : is_u64 (as_u64 x).
Proof. pose proof (as_u_range 64 x ltac:(lia)). lia. Qed.

Lemma draws_agree i j g : draw i g = draw j g <-> Z.of_nat i mod 2 ^ 64 = Z.of_nat j mod 2 ^ 64.
Proof.
  rewrite !draw_state. set (s := state g). split.
  - intros H. apply (inverse_injective _ _ _ _ scramble_inverse) in H;
      try (pose proof (Z.mod_pos_bound (s + (Z.of_nat i + 1) * GAMMA) (2 ^ 64) ltac:(lia));
           pose proof (Z.mod_pos_bound (s + (Z.of_nat j + 1) * GAMMA) (2 ^ 64) ltac:(lia)); lia).
    assert (Hk : forall k, (((s + (k + 1) * GAMMA) mod 2 ^ 64 - s) * GAMMA_INV - 1) mod 2 ^ 64 = k mod 2 ^ 64).
    { intros k. set (t := s + (k + 1) * GAMMA). rewrite (Z.mod_eq t) by lia.
      replace ((t - 2 ^ 64 * (t / 2 ^ 64) - s) * GAMMA_INV - 1)
        with (k + ((k + 1) * 10771413168148108919 - t / 2 ^ 64 * GAMMA_INV) * 2 ^ 64)
        by (subst t; unfold GAMMA, GAMMA_INV; ring).
      by rewrite Z.mod_add by lia. }
    by rewrite <- (Hk (Z.of_nat i)), <- (Hk (Z.of_nat j)), H.
  - intros H. f_equal. rewrite (Z.div_mod (Z.of_nat i) (2 ^ 64)), (Z.div_mod (Z.of_nat j) (2 ^ 64)), H by lia.
    set (r := Z.of_nat j mod 2 ^ 64).
    assert (Hm : forall q, (s + (2 ^ 64 * q + r + 1) * GAMMA) mod 2 ^ 64 = (s + (r + 1) * GAMMA) mod 2 ^ 64).
    { intros q. rewrite <- (Z.mod_add (s + (r + 1) * GAMMA) (q * GAMMA)) by lia. f_equal. ring. }
    by rewrite !Hm.
Qed.

Lemma every_word_drawn v g : is_u64 v -> exists i, Z.of_nat i < 2 ^ 64 /\ draw i g = v.
Proof.
  intros Hv. set (k := ((unscramble v - state g) * GAMMA_INV - 1) mod 2 ^ 64).
  pose proof (Z.mod_pos_bound ((unscramble v - state g) * GAMMA_INV - 1) (2 ^ 64) ltac:(lia)) as Hk. fold k in Hk.
  exists (Z.to_nat k). rewrite Z2Nat.id by lia. split; [lia|]. rewrite draw_state, Z2Nat.id by lia.
  assert (Hu : (state g + (k + 1) * GAMMA) mod 2 ^ 64 = unscramble v); [|by rewrite Hu; apply scramble_inverse].
  assert (Hw : is_u64 (unscramble v)) by (by apply (inv_word _ _ scramble_inverse)).
  rewrite <- (Z.mod_small (unscramble v) (2 ^ 64)) by lia. subst k.
  set (u := unscramble v) in *. set (s := state g). rewrite (Z.mod_eq ((u - s) * GAMMA_INV - 1)) by lia.
  set (q := ((u - s) * GAMMA_INV - 1) / 2 ^ 64).
  replace (s + ((u - s) * GAMMA_INV - 1 - 2 ^ 64 * q + 1) * GAMMA)
    with (u + ((u - s) * 10771413168148108919 - q * GAMMA) * 2 ^ 64) by (unfold GAMMA, GAMMA_INV; ring).
  by rewrite Z.mod_add by lia.
Qed.

(** * Loops *)

(** [turns] with its bound as a number. *)
Fixpoint turns_nat {S R} (n : nat) (turn : S -> S + R) (s : S) : S + R :=
  match n with
  | O => inl s
  | Datatypes.S n => match turn s with inl s => turns_nat n turn s | inr r => inr r end
  end.

Lemma turns_nat_add {S R} n m (turn : S -> S + R) s :
  turns_nat (n + m) turn s = match turns_nat n turn s with inl s => turns_nat m turn s | inr r => inr r end.
Proof.
  revert s. induction n as [|n IH]; intros s; [reflexivity|]. cbn [turns_nat Nat.add].
  destruct (turn s); [apply IH|done].
Qed.

Lemma turns_bound {S R} p (turn : S -> S + R) : forall s, turns p turn s = turns_nat (Pos.to_nat p) turn s.
Proof.
  induction p as [p IH|p IH|]; intros s; cbn [turns].
  - rewrite Pos2Nat.inj_xI. cbn [turns_nat]. destruct (turn s) as [s1|]; [|done]. rewrite IH.
    replace (2 * Pos.to_nat p)%nat with (Pos.to_nat p + Pos.to_nat p)%nat by lia. rewrite turns_nat_add.
    by destruct (turns_nat _ _ s1).
  - rewrite IH, Pos2Nat.inj_xO. replace (2 * Pos.to_nat p)%nat with (Pos.to_nat p + Pos.to_nat p)%nat by lia.
    rewrite turns_nat_add. by destruct (turns_nat _ _ s).
  - change (Pos.to_nat 1) with 1%nat. cbn [turns_nat]. by destruct (turn s).
Qed.

Lemma after_succ n g : after (S n) g = after n (snd (next g)).
Proof. induction n as [|n IH]; [done|]. change (after (S (S n)) g) with (snd (next (after (S n) g))). by rewrite IH. Qed.

Lemma draw_succ n g : draw (S n) g = draw n (snd (next g)).
Proof. unfold draw. by rewrite after_succ. Qed.

(** A loop that draws until a value passes ends, when some word passes. *)
Lemma draw_until_ends {A} (m : rand A) (f : Z -> A) (stop : A -> bool) v g :
  (forall g, m g = Drew (f (fst (next g))) (snd (next g))) -> is_u64 v -> stop (f v) = true ->
  exists x g', draw_until m stop g = Drew (f x) g' /\ is_u64 x /\ stop (f x) = true.
Proof.
  intros Hm Hv Hs. destruct (every_word_drawn v g Hv) as (i & Hi & Hd). unfold draw_until.
  rewrite turns_bound. replace (Pos.to_nat (2 ^ 64)) with (S i + (Pos.to_nat (2 ^ 64) - S i))%nat by lia.
  match goal with |- context [turns_nat _ ?t g] => set (turn := t) end. rewrite turns_nat_add.
  assert (H : exists x g', turns_nat (S i) turn g = inr (Drew (f x) g') /\ is_u64 x /\ stop (f x) = true);
    [|destruct H as (x & g' & -> & ? & ?); by exists x, g'].
  clear Hi. revert g Hd. induction i as [|i IH]; intros g Hd; cbn [turns_nat]; subst turn; cbn beta; rewrite Hm.
  - change (fst (next g)) with (draw 0 g). rewrite Hd, Hs. by exists v, (snd (next g)).
  - destruct (stop (f (fst (next g)))) eqn:E.
    + exists (fst (next g)), (snd (next g)). split; [reflexivity|]. split; [|exact E].
      destruct g; cbn [next fst]. apply (inv_word _ _ scramble_inverse), as_u_word.
    + cbn [turns_nat] in IH. apply IH. by rewrite draw_succ in Hd.
Qed.

(** * Properties *)

(** C35: the stream of a generator has the full period: two draws agree exactly
    when their positions agree modulo 2^64, and every word is drawn within one
    period, whatever the seed. *)
Theorem stream_full_period (g : SplitMix64) :
  (forall i j, draw i g = draw j g <-> Z.of_nat i mod 2 ^ 64 = Z.of_nat j mod 2 ^ 64) /\
  (forall v, is_u64 v -> exists i, Z.of_nat i < 2 ^ 64 /\ draw i g = v).
Proof. split; [intros i j; apply draws_agree|intros v; apply every_word_drawn]. Qed.

Lemma stream_full_period_witness : exists i, Z.of_nat i < 2 ^ 64 /\ draw i (new 7) = 42.
Proof. apply (proj2 (stream_full_period (new 7)) 42). lia. Defined.

Lemma rotated_word x : is_u64 x -> is_u64 (rotate_left x 32).
Proof.
  intros Hx. apply bits_u64. intros i Hi. unfold rotate_left.
  rewrite Z.lor_spec, as_u_spec, Z.shiftr_spec, (testbit_u64_high x) by lia.
  by destruct (Z.ltb_spec i 64); [lia|].
Qed.

(** Below 2^32 the rotation moves an iteration above the seed. *)
Lemma mixed_halves seed iter :
  0 <= seed < 2 ^ 32 -> 0 <= iter < 2 ^ 32 -> Z.lxor seed (rotate_left iter 32) = seed + iter * 2 ^ 32.
Proof.
  intros Hs Hi. unfold rotate_left. change (64 - 32) with 32.
  rewrite (Z.shiftr_div_pow2 iter), (Z.div_small iter), Z.lor_0_r by lia.
  rewrite as_u_small by (rewrite Z.shiftl_mul_pow2; lia).
  rewrite Z.lxor_comm, <- Z.add_nocarry_lxor; [rewrite Z.shiftl_mul_pow2 by lia; lia|].
  apply Z.bits_inj_iff'. intros n Hn. rewrite Z.land_spec, Z.bits_0, Z.shiftl_spec by lia.
  destruct (Z.lt_ge_cases n 32); [by rewrite Z.testbit_neg_r by lia|].
  rewrite (testbit_high 32 seed) by lia. btauto.
Qed.

(** A seed and an iteration are mixed without loss: two pairs get the same
    generator seed exactly when the seeds and the rotated iterations have the
    same exclusive or, so that below 2^32 no two pairs do. *)
Theorem mix_seed_exact (seed iter seed' iter' : Z) :
  is_u64 seed -> is_u64 iter -> is_u64 seed' -> is_u64 iter' ->
  (mix_seed seed iter = mix_seed seed' iter' <->
   Z.lxor seed (rotate_left iter 32) = Z.lxor seed' (rotate_left iter' 32)) /\
  (seed < 2 ^ 32 -> iter < 2 ^ 32 -> seed' < 2 ^ 32 -> iter' < 2 ^ 32 ->
   mix_seed seed iter = mix_seed seed' iter' -> seed = seed' /\ iter = iter').
Proof.
  intros Hs Hi Hs' Hi'.
  assert (H : mix_seed seed iter = mix_seed seed' iter' <->
    Z.lxor seed (rotate_left iter 32) = Z.lxor seed' (rotate_left iter' 32)).
  { change (mix (Z.lxor seed (rotate_left iter 32)) = mix (Z.lxor seed' (rotate_left iter' 32)) <->
      Z.lxor seed (rotate_left iter 32) = Z.lxor seed' (rotate_left iter' 32)).
    split; [|by intros ->]. apply (inverse_injective _ _ _ _ mix_inverse); apply lxor_u64; auto using rotated_word. }
  split; [done|]. intros ? ? ? ? E. apply H in E. rewrite !mixed_halves in E by lia. lia.
Qed.

Lemma mix_seed_exact_witness : mix_seed 8 3 <> mix_seed 3 8 /\ mix_seed 0 1 = mix_seed (2 ^ 32) 0.
Proof.
  split.
  - intros H. destruct (mix_seed_exact 8 3 3 8) as [_ Hd]; [lia..|].
    destruct (Hd ltac:(lia) ltac:(lia) ltac:(lia) ltac:(lia) H) as [H1 _]. discriminate H1.
  - apply (mix_seed_exact 0 1 (2 ^ 32) 0); [lia..|reflexivity].
Defined.
