(* ===== verification/Generator.v ===== *)
(** Random programs (src/src/fuzz/generator.rs, fuzz/idiom.rs, and the value pools
    of fuzz/insn_lib.rs): weighted instructions inside a frame, and the idiom
    templates.  The theorem: whatever the seed, drawing a program never panics and
    ends, and the program is well-formed and passes the control-flow check, as the
    module's documentation says. *)
From Stdlib Require Import ZArith Lia List Bool Relations.
From stdpp Require Import base option list sorting.
From S2P Require Import Prelude Insn State Liveness Cfg Prng.
Open Scope Z_scope.

(** * Pools *)

Definition OFFSETS : list Z :=
  [0; 1; 2; 4; 6; 8; 12; 16; 24; 32; 48; 64; 80; 128; 256; -1; -2; -4; -8; -12; -16; -32; -64].
Definition IMMEDIATES : list Z := [0; 1; 4; 8; 16; -1; -4; -16; I32_MIN; I32_MAX].
Definition LARGE_IMMEDIATES : list Z :=
  [1000000000; -1000000000; 2000000000; -2000000000; I32_MAX; I32_MIN; 0x7FFFFFFF; -0x40000000].
Definition ALU_REGS : list Z := [0; 1; 2; 3; 4; 5; 6; 7; 8; 9].

(** * The generator *)

Record GenConfig := mkGenConfig { min_len : nat; max_len : nat }.

Definition WEIGHT_ALU64 : Z := 35.
Definition WEIGHT_ALU32 : Z := 15.
Definition WEIGHT_CMP : Z := 30.
Definition WEIGHT_STACK : Z := 15.
Definition WEIGHT_HELPER : Z := 5.
Definition SUBPROG_PERCENT : Z := 15.
Definition JMP_LAST_PERCENT : Z := 20.
Definition BACKWARD_PERCENT : Z := 30.

(** [rng.below(100) < percent]. *)
Definition chance (percent : Z) : rand bool := let~ roll := below 100 in rret (roll <? percent).

(** [*rng.pick(IMMEDIATES)] as the last operand. *)
Definition with_imm (insn : Z -> BpfInsn) : rand BpfInsn := let~ imm := pick IMMEDIATES in rret (insn imm).
Definition with_reg (insn : Z -> BpfInsn) : rand BpfInsn := let~ src := pick ALU_REGS in rret (insn src).

Definition nonzero_imm : rand Z := let~ imm := pick IMMEDIATES in rret (if imm =? 0 then 1 else imm).

Definition gen_alu (alu32 : bool) : rand BpfInsn :=
  let~ op := if alu32 then let~ r := below 12 in rret (1 + r) else below 13 in
  let~ dst := pick ALU_REGS in
  let~ form := below 2 in
  let k_form := form =? 0 in
  match alu32, k_form, op with
  | false, true, 0 => with_imm (BpfInsn.MovImm dst)
  | false, false, 0 => with_reg (BpfInsn.MovReg dst)
  | false, true, 1 => with_imm (BpfInsn.AddImm dst)
  | false, false, 1 => with_reg (BpfInsn.AddReg dst)
  | false, true, 2 => with_imm (BpfInsn.SubImm dst)
  | false, false, 2 => with_reg (BpfInsn.SubReg dst)
  | false, true, 3 => with_imm (BpfInsn.AndImm dst)
  | false, false, 3 => with_reg (BpfInsn.AndReg dst)
  | false, true, 4 => with_imm (BpfInsn.OrImm dst)
  | false, false, 4 => with_reg (BpfInsn.OrReg dst)
  | false, true, 5 => with_imm (BpfInsn.XorImm dst)
  | false, false, 5 => with_reg (BpfInsn.XorReg dst)
  | false, true, 6 => with_imm (BpfInsn.LshImm dst)
  | false, false, 6 => with_reg (BpfInsn.LshReg dst)
  | false, true, 7 => with_imm (BpfInsn.RshImm dst)
  | false, false, 7 => with_reg (BpfInsn.RshReg dst)
  | false, true, 8 => with_imm (BpfInsn.ArshImm dst)
  | false, false, 8 => with_reg (BpfInsn.ArshReg dst)
  | true, true, 1 => with_imm (BpfInsn.Add32Imm dst)
  | true, false, 1 => with_reg (BpfInsn.Add32Reg dst)
  | true, true, 2 => with_imm (BpfInsn.Sub32Imm dst)
  | true, false, 2 => with_reg (BpfInsn.Sub32Reg dst)
  | true, true, 3 => with_imm (BpfInsn.And32Imm dst)
  | true, false, 3 => with_reg (BpfInsn.And32Reg dst)
  | true, true, 4 => with_imm (BpfInsn.Or32Imm dst)
  | true, false, 4 => with_reg (BpfInsn.Or32Reg dst)
  | true, true, 5 => with_imm (BpfInsn.Xor32Imm dst)
  | true, false, 5 => with_reg (BpfInsn.Xor32Reg dst)
  | true, true, 6 => with_imm (BpfInsn.Lsh32Imm dst)
  | true, false, 6 => with_reg (BpfInsn.Lsh32Reg dst)
  | true, true, 7 => with_imm (BpfInsn.Rsh32Imm dst)
  | true, false, 7 => with_reg (BpfInsn.Rsh32Reg dst)
  | true, true, 8 => with_imm (BpfInsn.Arsh32Imm dst)
  | true, false, 8 => with_reg (BpfInsn.Arsh32Reg dst)
  | false, true, 9 =>
      let~ high := below 5 in
      let~ high := if high =? 0
                   then let~ signed := below 2 in
                        rret (if signed =? 0 then MulHigh.UnsignedHigh else MulHigh.SignedHigh)
                   else rret MulHigh.Low in
      with_imm (fun imm => BpfInsn.MulImm dst imm high)
  | false, false, 9 =>
      let~ high := below 5 in
      let high := if high =? 0 then MulHigh.UnsignedHigh else MulHigh.Low in
      with_reg (fun src => BpfInsn.MulReg dst src high)
  | false, true, 10 => let~ imm := nonzero_imm in rret (BpfInsn.DivImm dst imm)
  | false, false, 10 => with_reg (BpfInsn.DivReg dst)
  | false, true, 11 => let~ imm := nonzero_imm in rret (BpfInsn.ModImm dst imm)
  | false, false, 11 => with_reg (BpfInsn.ModReg dst)
  | false, _, 12 => rret (BpfInsn.Neg dst)
  | true, true, 9 => with_imm (BpfInsn.Mul32Imm dst)
  | true, false, 9 => with_reg (BpfInsn.Mul32Reg dst)
  | true, true, 10 => let~ imm := nonzero_imm in rret (BpfInsn.Div32Imm dst imm)
  | true, false, 10 => with_reg (BpfInsn.Div32Reg dst)
  | true, true, 11 => let~ imm := nonzero_imm in rret (BpfInsn.Mod32Imm dst imm)
  | true, false, 11 => with_reg (BpfInsn.Mod32Reg dst)
  | true, _, 12 => rret (BpfInsn.Neg32 dst)
  | _, _, _ => rpanic
  end.

(** [(target as i64 - pc as i64 - 1) as i16]. *)
Definition offset_to (target : Z) (pc : nat) : Z := as_i16 (target - Z.of_nat pc - 1).

(** The subtraction of the source underflows for [pc > body_len]; no caller has that. *)
Definition gen_branch_offset (pc body_len : nat) : rand Z :=
  let~ backward := if (0 <? pc)%nat then chance BACKWARD_PERCENT else rret false in
  if backward : bool then
    let~ target := below (Z.of_nat pc) in rret (offset_to target pc)
  else if (body_len <? pc)%nat then rpanic
  else
    let~ ahead := below (Z.of_nat body_len - Z.of_nat pc) in
    rret (offset_to (Z.of_nat pc + 1 + ahead) pc).

Definition gen_cmp (pc body_len : nat) : rand BpfInsn :=
  let~ op := below 10 in
  let~ dst := pick ALU_REGS in
  let~ form := below 2 in
  let k_form := form =? 0 in
  let~ offset := gen_branch_offset pc body_len in
  let~ src := pick ALU_REGS in
  let~ imm := pick IMMEDIATES in
  match k_form, op with
  | false, 0 => rret (BpfInsn.Jeq dst src offset)
  | true, 0 => rret (BpfInsn.JeqImm dst imm offset)
  | false, 1 => rret (BpfInsn.Jne dst src offset)
  | true, 1 => rret (BpfInsn.JneImm dst imm offset)
  | false, 2 => rret (BpfInsn.Jgt dst src offset)
  | true, 2 => rret (BpfInsn.JgtImm dst imm offset)
  | false, 3 => rret (BpfInsn.Jge dst src offset)
  | true, 3 => rret (BpfInsn.JgeImm dst imm offset)
  | false, 4 => rret (BpfInsn.Jlt dst src offset)
  | true, 4 => rret (BpfInsn.JltImm dst imm offset)
  | false, 5 => rret (BpfInsn.Jle dst src offset)
  | true, 5 => rret (BpfInsn.JleImm dst imm offset)
  | false, 6 => rret (BpfInsn.Jsgt dst src offset)
  | true, 6 => rret (BpfInsn.JsgtImm dst imm offset)
  | false, 7 => rret (BpfInsn.Jsge dst src offset)
  | true, 7 => rret (BpfInsn.JsgeImm dst imm offset)
  | false, 8 => rret (BpfInsn.Jslt dst src offset)
  | true, 8 => rret (BpfInsn.JsltImm dst imm offset)
  | false, 9 => rret (BpfInsn.Jsle dst src offset)
  | true, 9 => rret (BpfInsn.JsleImm dst imm offset)
  | _, _ => rpanic
  end.

Definition ld_stack (dst offset : Z) : BpfInsn := BpfInsn.LdMem dst 10 offset MemSize.DW false.
Definition st_stack (src offset : Z) : BpfInsn := BpfInsn.StMem src 10 offset MemSize.DW.

Definition gen_stack : rand BpfInsn :=
  let~ reg := pick ALU_REGS in
  let~ offset := pick OFFSETS in
  let~ load := below 2 in
  rret (if load =? 0 then ld_stack reg offset else st_stack reg offset).

Definition gen_helper : rand BpfInsn := rret (BpfInsn.Call 7).

Definition gen_body_insn (pc body_len : nat) : rand BpfInsn :=
  let~ roll := below 100 in
  if roll <? WEIGHT_ALU64 then gen_alu false
  else if roll <? WEIGHT_ALU64 + WEIGHT_ALU32 then gen_alu true
  else if roll <? WEIGHT_ALU64 + WEIGHT_ALU32 + WEIGHT_CMP then gen_cmp pc body_len
  else if roll <? WEIGHT_ALU64 + WEIGHT_ALU32 + WEIGHT_CMP + WEIGHT_STACK then gen_stack
  else if roll <? WEIGHT_ALU64 + WEIGHT_ALU32 + WEIGHT_CMP + WEIGHT_STACK + WEIGHT_HELPER then gen_helper
  else rpanic.

(** One turn of the loop over the body. *)
Definition body_turn (with_subprog : bool) (pc body_len : nat) : rand BpfInsn :=
  let is_last := (pc =? body_len - 1)%nat in
  if is_last && with_subprog then rret (BpfInsn.CallSub 1)
  else
    let~ jump := if is_last then chance JMP_LAST_PERCENT else rret false in
    if jump : bool then rret (BpfInsn.Jmp (as_i16 (Z.of_nat (body_len - pc - 1))))
    else gen_body_insn pc body_len.

(** [for pc in pc..body_len], with [n] turns left. *)
Fixpoint gen_body (with_subprog : bool) (n pc body_len : nat) : rand (list BpfInsn) :=
  match n with
  | O => rret []
  | S n =>
      let~ insn := body_turn with_subprog pc body_len in
      let~ rest := gen_body with_subprog n (S pc) body_len in
      rret (insn :: rest)
  end.

Definition gen_program (cfg : GenConfig) : rand (list BpfInsn) :=
  let span := (max_len cfg - min_len cfg + 1)%nat in
  let~ extra := below (Z.of_nat span) in
  let body_len := (min_len cfg + Z.to_nat extra)%nat in
  let~ with_subprog := if (3 <=? body_len)%nat then chance SUBPROG_PERCENT else rret false in
  let~ body := gen_body with_subprog body_len 0 body_len in
  if with_subprog : bool then
    let~ imm := pick IMMEDIATES in
    rret (BpfInsn.MovImm 0 0 :: body ++ [BpfInsn.Exit; BpfInsn.MovImm 0 imm; BpfInsn.Exit])
  else rret (BpfInsn.MovImm 0 0 :: body ++ [BpfInsn.Exit]).

(** * Idiom templates *)

Module Idiom.
Inductive Idiom :=
| OverflowChain | Alu32Roundtrip | DualRefine | NarrowingChain | SpillFill | NullCheck | BoundedLoop.
End Idiom.
Abbreviation Idiom := Idiom.Idiom.

Definition ALL_IDIOMS : list Idiom :=
  [Idiom.OverflowChain; Idiom.Alu32Roundtrip; Idiom.DualRefine; Idiom.NarrowingChain; Idiom.SpillFill;
   Idiom.NullCheck; Idiom.BoundedLoop].

Definition work_reg : rand Z := let~ r := below 9 in rret (1 + r).

(** [for _ in 0..n { insns.push(...) }]. *)
Fixpoint rand_repeat {A} (n : nat) (m : rand A) : rand (list A) :=
  match n with
  | O => rret []
  | S n => let~ a := m in let~ rest := rand_repeat n m in rret (a :: rest)
  end.

Definition push_add_sub (dst : Z) : rand BpfInsn :=
  let~ op := below 2 in
  let~ form := below 2 in
  let k_form := form =? 0 in
  match op, k_form with
  | 0, true => let~ imm := pick LARGE_IMMEDIATES in rret (BpfInsn.AddImm dst imm)
  | 0, false => rret (BpfInsn.AddReg dst dst)
  | 1, true => let~ imm := pick LARGE_IMMEDIATES in rret (BpfInsn.SubImm dst imm)
  | 1, false => rret (BpfInsn.SubReg dst dst)
  | _, _ => rpanic
  end.

Definition overflow_chain : rand (list BpfInsn) :=
  let~ helper := below 2 in
  let~ extra := below 5 in
  let chain_len := (2 + Z.to_nat extra)%nat in
  if helper =? 0 then
    let~ chain := rand_repeat chain_len (push_add_sub 0) in
    rret (BpfInsn.Call 7 :: chain ++ [BpfInsn.Exit])
  else
    let~ reg := work_reg in
    let~ imm := pick LARGE_IMMEDIATES in
    let~ chain := rand_repeat chain_len (push_add_sub reg) in
    rret (BpfInsn.MovImm reg imm :: chain ++ [BpfInsn.MovReg 0 reg; BpfInsn.Exit]).

Definition alu32_op (reg : Z) : rand BpfInsn :=
  let~ op := below 4 in
  let~ form := below 2 in
  let k_form := form =? 0 in
  match op, k_form with
  | 0, true => with_imm (BpfInsn.Add32Imm reg)
  | 0, false => rret (BpfInsn.Add32Reg reg reg)
  | 1, true => with_imm (BpfInsn.Sub32Imm reg)
  | 1, false => rret (BpfInsn.Sub32Reg reg reg)
  | 2, true => with_imm (BpfInsn.Xor32Imm reg)
  | 2, false => rret (BpfInsn.Xor32Reg reg reg)
  | 3, true => with_imm (BpfInsn.And32Imm reg)
  | 3, false => rret (BpfInsn.And32Reg reg reg)
  | _, _ => rpanic
  end.

Definition alu32_roundtrip : rand (list BpfInsn) :=
  let~ reg := work_reg in
  let~ imm := pick IMMEDIATES in
  let~ extra := below 4 in
  let~ chain := rand_repeat (1 + Z.to_nat extra) (alu32_op reg) in
  let~ add := below 2 in
  rret (BpfInsn.MovImm reg imm :: chain ++
    [if add =? 0 then BpfInsn.AddImm reg 1 else BpfInsn.SubImm reg 1; BpfInsn.MovReg 0 reg; BpfInsn.Exit]).

Definition dual_refine : rand (list BpfInsn) :=
  let~ c := work_reg in
  let~ imm := pick IMMEDIATES in
  rret [BpfInsn.Call 7; BpfInsn.MovImm c imm; BpfInsn.Jsgt 0 c 2; BpfInsn.Jgt 0 c 1; BpfInsn.MovReg 0 0;
        BpfInsn.Exit].

Definition narrowing_compare (c imm offset : Z) : rand BpfInsn :=
  let~ op := below 8 in
  let~ form := below 2 in
  let k_form := form =? 0 in
  match op, k_form with
  | 0, true => rret (BpfInsn.JgtImm 0 imm offset)
  | 0, false => rret (BpfInsn.Jgt 0 c offset)
  | 1, true => rret (BpfInsn.JgeImm 0 imm offset)
  | 1, false => rret (BpfInsn.Jge 0 c offset)
  | 2, true => rret (BpfInsn.JltImm 0 imm offset)
  | 2, false => rret (BpfInsn.Jlt 0 c offset)
  | 3, true => rret (BpfInsn.JleImm 0 imm offset)
  | 3, false => rret (BpfInsn.Jle 0 c offset)
  | 4, true => rret (BpfInsn.JsgtImm 0 imm offset)
  | 4, false => rret (BpfInsn.Jsgt 0 c offset)
  | 5, true => rret (BpfInsn.JsgeImm 0 imm offset)
  | 5, false => rret (BpfInsn.Jsge 0 c offset)
  | 6, true => rret (BpfInsn.JsltImm 0 imm offset)
  | 6, false => rret (BpfInsn.Jslt 0 c offset)
  | 7, true => rret (BpfInsn.JsleImm 0 imm offset)
  | 7, false => rret (BpfInsn.Jsle 0 c offset)
  | _, _ => rpanic
  end.

(** [for j in 0..n]: [remaining + 1] compares are left, this one included. *)
Fixpoint narrowing (remaining : nat) (c imm : Z) : rand (list BpfInsn) :=
  match remaining with
  | O => rret []
  | S remaining =>
      let~ insn := narrowing_compare c imm (as_i16 (Z.of_nat remaining + 1)) in
      let~ rest := narrowing remaining c imm in
      rret (insn :: rest)
  end.

Definition narrowing_chain : rand (list BpfInsn) :=
  let~ c := work_reg in
  let~ imm := pick IMMEDIATES in
  let~ extra := below 5 in
  let~ compares := narrowing (2 + Z.to_nat extra) c imm in
  rret (BpfInsn.Call 7 :: BpfInsn.MovImm c imm :: compares ++ [BpfInsn.MovReg 0 0; BpfInsn.Exit]).

Definition spill_fill : rand (list BpfInsn) :=
  let~ reg := work_reg in
  let~ slot := below 4 in
  let offset := -8 * (1 + slot) in
  let~ imm := pick IMMEDIATES in
  rret [BpfInsn.MovImm reg imm; st_stack reg offset; BpfInsn.MovImm reg 0; ld_stack reg offset;
        BpfInsn.MovReg 0 reg; BpfInsn.Exit].

Definition null_check : rand (list BpfInsn) :=
  let~ c := work_reg in
  rret [BpfInsn.Call 7; BpfInsn.MovImm c 0; BpfInsn.Jne 0 c 1; BpfInsn.Exit; BpfInsn.MovImm 0 1; BpfInsn.Exit].

(** The second register is drawn until it differs from the first. *)
Definition bounded_loop : rand (list BpfInsn) :=
  let~ count := below 100 in
  let~ cnt_reg := work_reg in
  let~ idx_reg := draw_until work_reg (fun r => negb (r =? cnt_reg)) in
  rret [BpfInsn.MovImm cnt_reg (1 + count); BpfInsn.MovImm idx_reg 0; BpfInsn.AddImm idx_reg 1;
        BpfInsn.Jlt idx_reg cnt_reg (-2); BpfInsn.MovReg 0 idx_reg; BpfInsn.Exit].

Definition gen_idiom_body (idiom : Idiom) : rand (list BpfInsn) :=
  match idiom with
  | Idiom.OverflowChain => overflow_chain
  | Idiom.Alu32Roundtrip => alu32_roundtrip
  | Idiom.DualRefine => dual_refine
  | Idiom.NarrowingChain => narrowing_chain
  | Idiom.SpillFill => spill_fill
  | Idiom.NullCheck => null_check
  | Idiom.BoundedLoop => bounded_loop
  end.

Definition gen_idiom_program (idiom : Idiom) : rand (list BpfInsn) :=
  let~ body := gen_idiom_body idiom in
  let insns := BpfInsn.MovImm 0 0 :: body in
  rret (match last insns with Some BpfInsn.Exit => insns | _ => insns ++ [BpfInsn.Exit] end).

Definition gen_mixed_program (cfg : GenConfig) (idiom_ratio_percent : Z) : rand (list BpfInsn) :=
  let~ idiom := chance idiom_ratio_percent in
  if idiom : bool then
    let~ idx := below (Z.of_nat (length ALL_IDIOMS)) in
    match ALL_IDIOMS !! Z.to_nat idx with Some idiom => gen_idiom_program idiom | None => rpanic end
  else gen_program cfg.

(** [gen_program_bytes]; [None]: an instruction the encoder has no arm for. *)
Definition gen_program_bytes (cfg : GenConfig) : rand (option (list Z)) :=
  let~ insns := gen_program cfg in rret (encode_program insns).

(** * Drawing without a panic *)

(** Every draw of [m] gives a value with [P]. *)
Definition always {A} (m : rand A) (P : A -> Prop) : Prop :=
  forall g, exists a g', m g = Drew a g' /\ P a.

Lemma always_ret {A} (a : A) (P : A -> Prop) : P a -> always (rret a) P.
Proof. intros H g. by exists a, g. Qed.

Lemma always_bind {A B} (m : rand A) (k : A -> rand B) (P : A -> Prop) (Q : B -> Prop) :
  always m P -> (forall a, P a -> always (k a) Q) -> always (rand_bind m k) Q.
Proof.
  intros Hm Hk g. destruct (Hm g) as (a & g1 & E & Ha). unfold rand_bind. rewrite E. by apply Hk.
Qed.

Lemma always_mono {A} (m : rand A) (P Q : A -> Prop) : always m P -> (forall a, P a -> Q a) -> always m Q.
Proof. intros Hm HPQ g. destruct (Hm g) as (a & g' & E & Ha). exists a, g'. auto. Qed.

Lemma always_below n : 0 < n -> always (below n) (fun r => 0 <= r < n).
Proof.
  intros Hn g. unfold below. destruct (Z.eqb_spec n 0); [lia|]. destruct (next g) as [x g'].
  exists (x mod n), g'. split; [done|]. by apply Z.mod_pos_bound.
Qed.

Lemma always_pick {A} (pool : list A) : pool <> [] -> always (pick pool) (fun x => x ∈ pool).
Proof.
  intros Hne. unfold pick. eapply always_bind; [apply always_below; destruct pool; [done|cbn; lia]|].
  intros i Hi. cbn beta in Hi. destruct (lookup_lt_is_Some_2 pool (Z.to_nat i)) as [x Hx]; [lia|].
  rewrite Hx. apply always_ret. by eapply list_elem_of_lookup_2.
Qed.

Lemma always_if {A} (b : bool) (m1 m2 : rand A) P :
  (b = true -> always m1 P) -> (b = false -> always m2 P) -> always (if b then m1 else m2) P.
Proof. destruct b; auto. Qed.

Lemma always_chance p : always (chance p) (fun _ => True).
Proof. eapply always_bind; [by apply always_below|]. intros. by apply always_ret. Qed.

Tactic Notation "drew" ident(x) ident(H) := intros x H; cbn beta in H.

(** Operands from the pools. *)
Abbreviation is_reg r := (0 <= r <= 10).
Abbreviation is_i16 x := (-32768 <= x <= 32767).

Lemma always_within lo hi pool :
  pool <> [] -> forallb (in_range lo hi) pool = true -> always (pick pool) (fun x => lo <= x <= hi).
Proof.
  intros Hne Hp. eapply always_mono; [by apply always_pick|]. intros x Hx. cbn beta in Hx.
  rewrite forallb_forall in Hp. apply list_elem_of_In, Hp in Hx. unfold in_range in Hx. rewrite andb_true_iff, !Z.leb_le in Hx. lia.
Qed.

Lemma always_reg : always (pick ALU_REGS) (fun r => is_reg r).
Proof. by apply always_within. Qed.
Lemma always_imm : always (pick IMMEDIATES) (fun imm => is_i32 imm).
Proof. by apply always_within. Qed.
Lemma always_large : always (pick LARGE_IMMEDIATES) (fun imm => is_i32 imm).
Proof. by apply always_within. Qed.
Lemma always_offset : always (pick OFFSETS) (fun off => is_i16 off).
Proof. by apply always_within. Qed.

Lemma always_nonzero : always nonzero_imm (fun imm => is_i32 imm /\ imm <> 0).
Proof.
  eapply always_bind; [apply always_imm|]. drew imm Hi. apply always_ret.
  destruct (Z.eqb_spec imm 0); cbn beta in *; lia.
Qed.

Lemma always_work_reg : always work_reg (fun r => 1 <= r <= 9).
Proof. eapply always_bind; [by apply always_below|]. drew r Hr. apply always_ret. lia. Qed.

Create HintDb draws.
#[local] Hint Resolve always_ret always_reg always_imm always_large always_offset always_nonzero
  always_work_reg always_chance : draws.

(** * Instructions that fall through *)

Definition straight (insn : BpfInsn) : bool :=
  match insn with
  | BpfInsn.Jmp _ | BpfInsn.CallSub _ | BpfInsn.Exit | BpfInsn.LdImm64Second _ => false
  | _ => true
  end.

(** At index [i] of a subprogram from [lo] to [hi]. *)
Definition placed (lo hi i : Z) (insn : BpfInsn) : Prop :=
  insn_wf insn = true /\ straight insn = true /\
  forall off, cond_offset insn = Some off -> lo <= i + 1 + off < hi.

(** Without a branch. *)
Definition plain (insn : BpfInsn) : Prop :=
  insn_wf insn = true /\ straight insn = true /\ cond_offset insn = None.

Lemma plain_placed lo hi i insn : plain insn -> placed lo hi i insn.
Proof. intros (? & ? & H). split_and!; [done..|]. intros off. by rewrite H. Qed.

(** A constructor applied to operands in range. *)
Ltac well_formed :=
  unfold insn_wf, in_range; cbn;
  rewrite ?andb_true_iff, ?negb_true_iff, ?Z.leb_le, ?Z.eqb_neq; repeat split; try lia; try reflexivity.

Ltac plain_insn := split; [well_formed|split; reflexivity].

Lemma with_imm_plain (C : Z -> BpfInsn) :
  (forall imm, is_i32 imm -> plain (C imm)) -> always (with_imm C) plain.
Proof. intros H. eapply always_bind; [apply always_imm|]. drew imm Hi. apply always_ret. by apply H. Qed.

Lemma with_reg_plain (C : Z -> BpfInsn) :
  (forall src, is_reg src -> plain (C src)) -> always (with_reg C) plain.
Proof. intros H. eapply always_bind; [apply always_reg|]. drew src Hs. apply always_ret. by apply H. Qed.

Lemma with_nonzero_plain (C : Z -> BpfInsn) :
  (forall imm, is_i32 imm /\ imm <> 0 -> plain (C imm)) -> always (let~ imm := nonzero_imm in rret (C imm)) plain.
Proof. intros H. eapply always_bind; [apply always_nonzero|]. drew imm Hi. apply always_ret. by apply H. Qed.

(** The cases of a number below a bound. *)
Ltac number_cases x :=
  let rec go n :=
    first [exfalso; lia
          |destruct (Z.eq_dec x n) as [->|]; [try (exfalso; lia)|let n' := eval vm_compute in (n + 1) in go n']] in
  go 0.

Ltac draw_plain :=
  first [apply with_imm_plain; intros ? ?; plain_insn
        |apply with_reg_plain; intros ? ?; plain_insn
        |apply with_nonzero_plain; intros ? ?; plain_insn
        |apply always_ret; plain_insn].

Lemma gen_alu_plain alu32 : always (gen_alu alu32) plain.
Proof.
  unfold gen_alu.
  apply (always_bind _ _ (fun op => (if alu32 then 1 else 0) <= op < 13)).
  { destruct alu32; [|by apply always_below].
    eapply always_bind; [by apply always_below|]. drew r Hr. apply always_ret. lia. }
  drew op Hop. eapply always_bind; [apply always_reg|]. drew dst Hd.
  eapply always_bind; [by apply always_below|]. intros form _.
  destruct alu32, (form =? 0); cbn [andb] in *; number_cases op; try draw_plain.
  - eapply always_bind; [by apply always_below|]. intros h _.
    apply (always_bind _ _ (fun _ => True)).
    { apply always_if; intros _; [|by apply always_ret].
      eapply always_bind; [by apply always_below|]. intros. by apply always_ret. }
    intros high _. apply with_imm_plain. drew imm Hi. destruct high; plain_insn.
  - eapply always_bind; [by apply always_below|]. intros h _.
    apply with_reg_plain. drew src Hs. destruct (h =? 0); plain_insn.
Qed.

Lemma as_i16_small x : is_i16 x -> as_i16 x = x.
Proof. intros. unfold as_i. cbv zeta. destruct (Z.ltb_spec (x mod 2 ^ 16) (2 ^ (16 - 1))); div_lia. Qed.

Lemma as_i32_small x : is_i32 x -> as_i32 x = x.
Proof. intros. unfold as_i. cbv zeta. destruct (Z.ltb_spec (x mod 2 ^ 32) (2 ^ (32 - 1))); div_lia. Qed.

Lemma gen_branch_offset_inside pc body_len :
  (pc < body_len)%nat -> Z.of_nat body_len <= 32767 ->
  always (gen_branch_offset pc body_len)
    (fun off => is_i16 off /\ 0 <= Z.of_nat pc + 1 + off < Z.of_nat body_len + 1).
Proof.
  intros Hpc Hb. unfold gen_branch_offset.
  apply (always_bind _ _ (fun b : bool => b = true -> (0 < pc)%nat)).
  { apply always_if; intros E; [|by apply always_ret]. apply Nat.ltb_lt in E.
    eapply always_mono; [apply always_chance|]. done. }
  intros b Hpos. cbn beta in Hpos. apply always_if; intros E.
  - specialize (Hpos E). eapply always_bind; [apply always_below; lia|]. drew t Ht. apply always_ret.
    unfold offset_to. rewrite as_i16_small by lia. lia.
  - destruct (Nat.ltb_spec body_len pc); [lia|].
    eapply always_bind; [apply always_below; lia|]. drew t Ht. apply always_ret.
    unfold offset_to. rewrite as_i16_small by lia. lia.
Qed.

Lemma gen_cmp_placed pc body_len :
  (pc < body_len)%nat -> Z.of_nat body_len <= 32767 ->
  always (gen_cmp pc body_len) (placed 0 (Z.of_nat body_len + 1) (Z.of_nat pc)).
Proof.
  intros Hpc Hb. unfold gen_cmp. eapply always_bind; [by apply always_below|]. drew op Hop.
  eapply always_bind; [apply always_reg|]. drew dst Hd.
  eapply always_bind; [by apply always_below|]. intros form _.
  eapply always_bind; [by apply gen_branch_offset_inside|]. drew off Hoff.
  eapply always_bind; [apply always_reg|]. drew src Hs.
  eapply always_bind; [apply always_imm|]. drew imm Hi.
  destruct (form =? 0); number_cases op; apply always_ret;
    (split; [well_formed|split; [reflexivity|intros ? [= <-]; lia]]).
Qed.

Lemma gen_stack_plain : always gen_stack plain.
Proof.
  unfold gen_stack. eapply always_bind; [apply always_reg|]. drew reg Hr.
  eapply always_bind; [apply always_offset|]. drew off Ho.
  eapply always_bind; [by apply always_below|]. intros load _. apply always_ret.
  destruct (load =? 0); plain_insn.
Qed.

Lemma gen_body_insn_placed pc body_len :
  (pc < body_len)%nat -> Z.of_nat body_len <= 32767 ->
  always (gen_body_insn pc body_len) (placed 0 (Z.of_nat body_len + 1) (Z.of_nat pc)).
Proof.
  intros Hpc Hb. unfold gen_body_insn. eapply always_bind; [by apply always_below|]. drew roll Hr.
  assert (Hp : forall m, always m plain -> always m (placed 0 (Z.of_nat body_len + 1) (Z.of_nat pc))).
  { intros m Hm. eapply always_mono; [done|]. intros insn. apply plain_placed. }
  repeat (apply always_if; intros ?);
    [apply Hp, gen_alu_plain|apply Hp, gen_alu_plain|by apply gen_cmp_placed|apply Hp, gen_stack_plain| |].
  - apply Hp, always_ret. plain_insn.
  - unfold WEIGHT_ALU64, WEIGHT_ALU32, WEIGHT_CMP, WEIGHT_STACK, WEIGHT_HELPER in *. lia.
Qed.

Lemma placed_shift lo hi i insn k : placed lo hi i insn -> placed (lo + k) (hi + k) (i + k) insn.
Proof. intros (? & ? & H). split_and!; [done..|]. intros off Ho. specialize (H off Ho). lia. Qed.

Lemma placed_weaken lo hi lo' hi' i insn : lo' <= lo -> hi <= hi' -> placed lo hi i insn -> placed lo' hi' i insn.
Proof. intros ? ? (? & ? & H). split_and!; [done..|]. intros off Ho. specialize (H off Ho). lia. Qed.

(** * Programs the control-flow check accepts *)

(** An instruction that goes on to the next one. *)
Definition goes_on (lo hi i : Z) (insn : BpfInsn) : Prop := placed lo hi i insn \/ insn = BpfInsn.Jmp 0.

Section accept.
Context (insns : list BpfInsn) (subprogs : list Z) (lo hi : Z).
Hypothesis Hbounds : 0 <= lo /\ hi <= Z.of_nat (length insns) /\ Z.of_nat (length insns) <= I32_MAX.
Hypothesis Hsingle : forall i imm_hi, insns !! i <> Some (BpfInsn.LdImm64Second imm_hi).

Lemma target_accepted i off crosses :
  0 <= i < I32_MAX -> lo <= i + 1 + off < hi ->
  checked_target i off lo hi insns crosses = Ok (i + 1 + off).
Proof using Hbounds Hsingle.
  intros Hi Ht. unfold checked_target. assert (as_i32 i = i) as -> by (apply as_i32_small; lia).
  rewrite as_u_small by lia. cbv zeta.
  destruct (Z.ltb_spec (i + 1 + off) lo); [lia|]. destruct (Z.leb_spec hi (i + 1 + off)); [lia|]. cbn [orb].
  unfold check_ldimm64_target. destruct (insns !! Z.to_nat (i + 1 + off)) as [insn|] eqn:E; [|done].
  destruct insn; try done. by apply Hsingle in E.
Qed.

Lemma visit_goes_on i insn :
  insns !! Z.to_nat i = Some insn -> 0 <= i -> i + 1 < hi -> lo <= i ->
  find_subprog_range i subprogs (Z.of_nat (length insns)) = (lo, hi) -> goes_on lo hi i insn ->
  exists nexts, visit_insn i insns subprogs = Some (Ok nexts) /\ (i + 1) ∈ nexts.
Proof using Hbounds Hsingle.
  intros Hl Hi Hlt Hlo Hr Hg. unfold visit_insn. rewrite Hl, Hr.
  assert (Hraw : exists nexts, raw_nexts i insns subprogs lo hi insn = Ok nexts /\ (i + 1) ∈ nexts).
  { destruct Hg as [(_ & Hs & Ho)| ->].
    - destruct (cond_offset insn) as [off|] eqn:E.
      + exists [i + 1 + off; i + 1]. split; [|right; by left]. specialize (Ho off eq_refl).
        destruct insn; try discriminate E; cbn [raw_nexts cond_offset] in *; injection E as ->;
          by rewrite target_accepted by lia.
      + exists [i + 1]. split; [|by left]. by destruct insn.
    - exists [i + 1]. split; [|by left]. cbn [raw_nexts]. rewrite target_accepted by lia. cbn. do 2 f_equal. lia. }
  destruct Hraw as (nexts & -> & Hin). exists nexts. split; [|done]. cbn [rbind].
  destruct (Z.leb_spec hi (i + 1)); [lia|]. by rewrite andb_false_r.
Qed.
End accept.

Lemma collect_starts_app n l r : forall pc starts,
  (forall offset, BpfInsn.CallSub offset ∉ l) ->
  collect_starts n pc (l ++ r) starts = collect_starts n (pc + length l) r starts.
Proof.
  induction l as [|insn l IH]; intros pc starts Hl; [by rewrite Nat.add_0_r|].
  cbn [app length]. rewrite Nat.add_succ_r. rewrite <- Nat.add_succ_l, <- IH.
  - destruct insn; try done. by destruct (Hl offset ltac:(by left)).
  - intros offset Hin. apply (Hl offset). by right.
Qed.

(** A reachable chain of instructions. *)
Lemma chain_reached insns subprogs n :
  (forall i, 0 <= i < n -> edge insns subprogs i (i + 1)) ->
  forall i, 0 <= i <= n -> clos_refl_trans Z (edge insns subprogs) 0 i.
Proof.
  intros H i Hi. replace i with (Z.of_nat (Z.to_nat i)) by lia.
  assert (Hk : (Z.of_nat (Z.to_nat i)) <= n) by lia. clear Hi. induction (Z.to_nat i) as [|k IH]; [apply rt_refl|].
  apply rt_trans with (Z.of_nat k); [apply IH; lia|]. apply rt_step.
  replace (Z.of_nat (S k)) with (Z.of_nat k + 1) by lia. apply H. lia.
Qed.

Lemma lookup_Z {A} (l : list A) (i : Z) : 0 <= i < Z.of_nat (length l) -> exists x, l !! Z.to_nat i = Some x.
Proof. intros Hi. apply lookup_lt_is_Some_2. lia. Qed.

Lemma goes_on_shape lo hi i insn : goes_on lo hi i insn ->
  match insn with BpfInsn.LdImm64Second _ | BpfInsn.CallSub _ => False | _ => True end.
Proof. intros [(_ & Hs & _)| ->]; [|done]. by destruct insn. Qed.

(** What [add_subprog] and [check_cfg] accept together. *)
Definition passes_checks (insns : list BpfInsn) : Prop :=
  exists subprogs heads, add_subprog insns = Ok subprogs /\ check_cfg insns subprogs = Some (Ok heads).

(** A straight body with an exit at its end. *)
Section linear.
Context (body : list BpfInsn).
Hypothesis Hlen : Z.of_nat (length body) < I32_MAX.
Hypothesis Hbody : forall i insn,
  body !! i = Some insn -> goes_on 0 (Z.of_nat (length body) + 1) (Z.of_nat i) insn.

Abbreviation insns := (body ++ [BpfInsn.Exit]).
Abbreviation b := (Z.of_nat (length body)).

Lemma linear_length : Z.of_nat (length insns) = b + 1.
Proof using. rewrite length_app. cbn [length]. lia. Qed.

Lemma linear_exit : insns !! Z.to_nat b = Some BpfInsn.Exit.
Proof using. rewrite Nat2Z.id. by apply list_lookup_middle. Qed.

Lemma linear_shape insn : insn ∈ insns ->
  match insn with BpfInsn.LdImm64Second _ | BpfInsn.CallSub _ => False | _ => True end.
Proof using Hbody.
  intros [(i & E)%list_elem_of_lookup| ->%list_elem_of_singleton]%elem_of_app; [|done].
  eapply goes_on_shape. by eapply Hbody.
Qed.

Lemma linear_subprog : add_subprog insns = Ok [0].
Proof using Hbody.
  unfold add_subprog. rewrite <- (app_nil_r insns), collect_starts_app; [done|].
  by intros offset Hin%linear_shape.
Qed.

Lemma linear_range i : 0 <= i -> find_subprog_range i [0] (Z.of_nat (length insns)) = (0, Z.of_nat (length insns)).
Proof using.
  intros Hi. unfold find_subprog_range. cbn [filter list_filter]. rewrite decide_True by lia.
  by rewrite decide_False by lia.
Qed.

Lemma linear_visit i : 0 <= i < b -> exists nexts, visit_insn i insns [0] = Some (Ok nexts) /\ (i + 1) ∈ nexts.
Proof using Hlen Hbody.
  intros Hi. pose proof linear_length as Hn. destruct (lookup_Z body i Hi) as [insn E].
  apply (visit_goes_on insns [0] 0 (Z.of_nat (length insns))) with insn; try lia.
  - intros j imm_hi Hj. by apply list_elem_of_lookup_2, linear_shape in Hj.
  - by apply lookup_app_l_Some.
  - apply linear_range. lia.
  - rewrite Hn. rewrite <- (Z2Nat.id i) by lia. by apply Hbody.
Qed.

Lemma linear_accepted : passes_checks insns.
Proof using Hlen Hbody.
  pose proof linear_length as Hn. pose proof linear_exit as Hexit.
  destruct (check_cfg_accepts insns [0]) as [heads Hc].
  - apply add_subprog_ok, linear_subprog.
  - by destruct body.
  - cbn [check_ends]. unfold subprog_end. cbn [lookup list_lookup default from_option].
    replace (Z.of_nat (length insns) - 1) with b by lia. by rewrite Hexit.
  - intros i Hi. split.
    + apply (chain_reached insns [0] b); [|lia].
      intros j Hj. destruct (linear_visit j Hj) as (nexts & Hv & Hin). by exists nexts.
    + destruct (decide (i = b)) as [->|Hne].
      * exists []. unfold visit_insn. rewrite Hexit, linear_range by lia. reflexivity.
      * destruct (linear_visit i ltac:(lia)) as (nexts & Hv & _). by exists nexts.
  - exists [0], heads. split; [apply linear_subprog|done].
Qed.
End linear.

(** A body whose last instruction calls the subprogram after the exit. *)
Section called.
Context (body : list BpfInsn) (first : BpfInsn).
Hypothesis Hlen : Z.of_nat (length body) + 4 < I32_MAX.
Hypothesis Hbody : forall i insn,
  body !! i = Some insn -> placed 0 (Z.of_nat (length body) + 2) (Z.of_nat i) insn.
Hypothesis Hfirst : plain first.

Abbreviation insns := (body ++ [BpfInsn.CallSub 1; BpfInsn.Exit; first; BpfInsn.Exit]).
Abbreviation b := (Z.of_nat (length body)).
Abbreviation entries := [0; b + 2].

Lemma called_length : Z.of_nat (length insns) = b + 4.
Proof using. rewrite length_app. cbn [length]. lia. Qed.

Lemma called_at k :
  insns !! Z.to_nat (b + Z.of_nat k) = [BpfInsn.CallSub 1; BpfInsn.Exit; first; BpfInsn.Exit] !! k.
Proof using. rewrite lookup_app_r by lia. f_equal. lia. Qed.

Lemma called_split i insn : insns !! i = Some insn ->
  body !! i = Some insn \/ (i = length body /\ insn = BpfInsn.CallSub 1) \/ insn = BpfInsn.Exit \/ insn = first.
Proof using.
  rewrite lookup_app. destruct (body !! i) as [x|] eqn:Ei; intros E; [by left|right]. apply lookup_ge_None in Ei.
  destruct (i - length body)%nat as [|[|[|[|k]]]] eqn:Ek; cbn in E; try (injection E as <-); auto; [|done].
  left. split; [lia|done].
Qed.

Lemma called_shape i insn : insns !! i = Some insn ->
  match insn with
  | BpfInsn.LdImm64Second _ => False
  | BpfInsn.CallSub offset => i = length body /\ offset = 1
  | _ => True
  end.
Proof using Hbody Hfirst.
  intros [E|[[-> ->]|[->| ->]]]%called_split; [|done|done|].
  - apply Hbody in E as (_ & Hs & _). by destruct insn.
  - destruct Hfirst as (_ & Hs & _). by destruct first.
Qed.

Lemma called_target : call_target (length body) 1 = b + 2.
Proof using Hlen. unfold call_target. rewrite as_i32_small by lia. rewrite as_u_small by lia. lia. Qed.

Lemma called_subprog : add_subprog insns = Ok entries.
Proof using Hlen Hbody Hfirst.
  pose proof called_length as Hn. unfold add_subprog. rewrite collect_starts_app.
  2: { intros offset (i & E)%list_elem_of_lookup. apply Hbody in E as (_ & Hs & _). discriminate Hs. }
  assert (Hrest : forall pc starts, collect_starts (b + 4) pc [BpfInsn.Exit; first; BpfInsn.Exit] starts = Ok starts).
  { intros pc starts. destruct Hfirst as (_ & Hs & _). by destruct first. }
  assert (Hc : collect_starts (b + 4) (length body) (BpfInsn.CallSub 1 :: [BpfInsn.Exit; first; BpfInsn.Exit]) [0] =
    Ok entries).
  { change (collect_starts (b + 4) (length body) (BpfInsn.CallSub 1 :: [BpfInsn.Exit; first; BpfInsn.Exit]) [0])
      with (if b + 4 <=? call_target (length body) 1 then fail b (CallOutOfProgram (call_target (length body) 1))
            else collect_starts (b + 4) (S (length body)) [BpfInsn.Exit; first; BpfInsn.Exit]
              (if bool_decide (call_target (length body) 1 ∈ [0]) then [0] else [0] ++ [call_target (length body) 1])).
    rewrite called_target, Hrest. destruct (Z.leb_spec (b + 4) (b + 2)); [lia|].
    by rewrite bool_decide_false by (intros ?%list_elem_of_singleton; lia). }
  rewrite Hn, Nat.add_0_l.
  rewrite Hc. cbn [rbind]. f_equal. unfold merge_sort. cbn. by rewrite decide_True by lia.
Qed.

Lemma called_range i :
  0 <= i -> find_subprog_range i entries (Z.of_nat (length insns)) =
  if i <? b + 2 then (0, b + 2) else (b + 2, Z.of_nat (length insns)).
Proof using.
  intros Hi. unfold find_subprog_range. cbn [filter list_filter].
  rewrite !(decide_True (P := 0 <= i)), !(decide_False (P := i < 0)) by lia.
  destruct (Z.ltb_spec i (b + 2)).
  - by rewrite (decide_False (P := b + 2 <= i)), (decide_True (P := i < b + 2)) by lia.
  - by rewrite (decide_True (P := b + 2 <= i)), (decide_False (P := i < b + 2)) by lia.
Qed.

Lemma called_visit i : 0 <= i < b -> exists nexts, visit_insn i insns entries = Some (Ok nexts) /\ (i + 1) ∈ nexts.
Proof using Hlen Hbody Hfirst.
  intros Hi. pose proof called_length as Hn. destruct (lookup_Z body i Hi) as [insn E].
  apply (visit_goes_on insns entries 0 (b + 2)) with insn; try lia.
  - intros j imm_hi Hj. by apply called_shape in Hj.
  - by apply lookup_app_l_Some.
  - rewrite called_range by lia. by destruct (Z.ltb_spec i (b + 2)); [|lia].
  - left. rewrite <- (Z2Nat.id i) by lia. by apply Hbody.
Qed.

Lemma called_visit_call : visit_insn b insns entries = Some (Ok [b + 2]).
Proof using Hlen.
  unfold visit_insn. pose proof (called_at 0) as H0. rewrite Z.add_0_r in H0. rewrite H0, called_range by lia.
  destruct (Z.ltb_spec b (b + 2)); [|lia]. cbn [raw_nexts lookup list_lookup].
  assert (as_u32 (as_i32 b + 1 + 1) = b + 2) as -> by (rewrite as_i32_small, as_u_small by lia; lia).
  rewrite bool_decide_true by (right; by left). cbn [rbind].
  by rewrite bool_decide_false by (intros ?%list_elem_of_singleton; lia).
Qed.

Lemma called_visit_exit : visit_insn (b + 1) insns entries = Some (Ok []).
Proof using.
  unfold visit_insn. pose proof (called_at 1) as H1. change (Z.of_nat 1) with 1 in H1. rewrite H1, called_range by lia.
  by destruct (Z.ltb_spec (b + 1) (b + 2)); [|lia].
Qed.

Lemma called_visit_first : exists nexts, visit_insn (b + 2) insns entries = Some (Ok nexts) /\ (b + 3) ∈ nexts.
Proof using Hlen Hbody Hfirst.
  pose proof called_length as Hn. replace (b + 3) with (b + 2 + 1) by lia.
  apply (visit_goes_on insns entries (b + 2) (Z.of_nat (length insns))) with first; try lia.
  - intros j imm_hi Hj. by apply called_shape in Hj.
  - apply (called_at 2).
  - rewrite called_range by lia. by destruct (Z.ltb_spec (b + 2) (b + 2)); [lia|].
  - left. by apply plain_placed.
Qed.

(** The subprogram returns behind its call. *)
Lemma called_visit_return : exists nexts, visit_insn (b + 3) insns entries = Some (Ok nexts) /\ (b + 1) ∈ nexts.
Proof using Hlen Hbody Hfirst.
  pose proof called_length as Hn. unfold visit_insn. pose proof (called_at 3) as H3. change (Z.of_nat 3) with 3 in H3.
  rewrite H3, called_range by lia. destruct (Z.ltb_spec (b + 3) (b + 2)); [lia|].
  cbn [raw_nexts lookup list_lookup]. destruct (Z.eqb_spec (b + 2) 0); [lia|]. cbn [rbind]. set (nexts := map _ _).
  assert (Hnext : forall v, v ∈ nexts <-> v = b + 1).
  { intros v. subst nexts. rewrite list_elem_of_fmap. split.
    - intros ([pc t] & -> & [Ht Hin]%list_elem_of_filter). cbn [fst snd] in *.
      apply call_sites_ok in Hin as (offset & Hpc & _). apply called_shape in Hpc as [-> _]. lia.
    - intros ->. exists (length body, b + 2). split; [cbn; lia|]. apply list_elem_of_filter. split; [done|].
      rewrite <- called_target. apply call_sites_in. pose proof (called_at 0) as H0.
      rewrite Z.add_0_r, Nat2Z.id in H0. exact H0. }
  exists nexts. split; [|by apply Hnext]. by rewrite bool_decide_false by (rewrite Hnext; lia).
Qed.

Lemma called_reached i : 0 <= i < b + 4 ->
  clos_refl_trans Z (edge insns entries) 0 i /\ exists nexts, visit_insn i insns entries = Some (Ok nexts).
Proof using Hlen Hbody Hfirst.
  destruct called_visit_first as (nexts2 & Hv2 & Hin2). destruct called_visit_return as (nexts3 & Hv3 & Hin3).
  assert (Hreach : forall i, 0 <= i <= b -> clos_refl_trans Z (edge insns entries) 0 i).
  { intros j Hj. apply (chain_reached insns entries b); [|lia].
    intros k Hk. destruct (called_visit k Hk) as (nexts & Hv & Hin). by exists nexts. }
  assert (Hstep : forall u v nexts, clos_refl_trans Z (edge insns entries) 0 u ->
    visit_insn u insns entries = Some (Ok nexts) -> v ∈ nexts -> clos_refl_trans Z (edge insns entries) 0 v).
  { intros u v nexts Hu Hv Hin. apply rt_trans with u; [done|]. apply rt_step. by exists nexts. }
  pose proof (Hstep b (b + 2) _ (Hreach b ltac:(lia)) called_visit_call ltac:(by left)) as R2.
  pose proof (Hstep _ _ _ R2 Hv2 Hin2) as R3. pose proof (Hstep _ _ _ R3 Hv3 Hin3) as R1.
  intros Hi. destruct (Z.lt_ge_cases i b) as [Hlt|Hge].
  { split; [apply Hreach; lia|]. destruct (called_visit i ltac:(lia)) as (nexts & Hv & _). by exists nexts. }
  assert (i = b \/ i = b + 1 \/ i = b + 2 \/ i = b + 3) as [->|[->|[->| ->]]] by lia; (split; [|eexists]).
  - apply Hreach. lia.
  - apply called_visit_call.
  - exact R1.
  - apply called_visit_exit.
  - exact R2.
  - exact Hv2.
  - exact R3.
  - exact Hv3.
Qed.

Lemma called_accepted : passes_checks insns.
Proof using Hlen Hbody Hfirst.
  pose proof called_length as Hn. destruct (check_cfg_accepts insns entries) as [heads Hc].
  - apply add_subprog_ok, called_subprog.
  - by destruct body.
  - cbn [check_ends]. change (subprog_end entries 0 (Z.of_nat (length insns))) with (b + 2).
    change (subprog_end entries 1 (Z.of_nat (length insns))) with (Z.of_nat (length insns)).
    replace (b + 2 - 1) with (b + Z.of_nat 1) by lia. rewrite (called_at 1). cbn [lookup list_lookup].
    replace (Z.of_nat (length insns) - 1) with (b + Z.of_nat 3) by lia. by rewrite (called_at 3).
  - intros i Hi. apply called_reached. lia.
  - exists entries, heads. split; [apply called_subprog|done].
Qed.
End called.

(** * Generated programs *)

(** Encodable, with every slot decoded back, and accepted by the structural checks. *)
Definition valid_program (insns : list BpfInsn) : Prop := program_wf insns = true /\ passes_checks insns.

Lemma all_wf insns : Forall (fun insn => insn_wf insn = true) insns -> program_wf insns = true.
Proof. induction 1 as [|insn insns Hi _ IH]; [done|]. cbn [program_wf]. by rewrite Hi. Qed.

Lemma goes_on_wf lo hi i insn : goes_on lo hi i insn -> insn_wf insn = true.
Proof. by intros [[? _]| ->]. Qed.

Lemma linear_valid body :
  Z.of_nat (length body) < I32_MAX ->
  (forall i insn, body !! i = Some insn -> goes_on 0 (Z.of_nat (length body) + 1) (Z.of_nat i) insn) ->
  valid_program (body ++ [BpfInsn.Exit]).
Proof.
  intros Hlen Hb. split; [|by apply linear_accepted]. apply all_wf, Forall_app. split; [|by repeat constructor].
  apply Forall_lookup. intros i insn Hi. eapply goes_on_wf. by apply Hb.
Qed.

Lemma called_valid body first :
  Z.of_nat (length body) + 4 < I32_MAX ->
  (forall i insn, body !! i = Some insn -> placed 0 (Z.of_nat (length body) + 2) (Z.of_nat i) insn) ->
  plain first ->
  valid_program (body ++ [BpfInsn.CallSub 1; BpfInsn.Exit; first; BpfInsn.Exit]).
Proof.
  intros Hlen Hb Hf. split; [|by apply called_accepted]. apply all_wf, Forall_app. split.
  - apply Forall_lookup. intros i insn Hi. apply (Hb _ _ Hi).
  - repeat constructor. apply Hf.
Qed.

(** What the turn at index [pc] of the body draws. *)
Definition body_at (with_subprog : bool) (pc body_len : nat) (insn : BpfInsn) : Prop :=
  if (pc =? body_len - 1)%nat
  then if with_subprog then insn = BpfInsn.CallSub 1
       else goes_on 0 (Z.of_nat body_len + 1) (Z.of_nat pc) insn
  else placed 0 (Z.of_nat body_len + 1) (Z.of_nat pc) insn.

Lemma body_turn_at ws pc body_len :
  (pc < body_len)%nat -> Z.of_nat body_len <= 32767 ->
  always (body_turn ws pc body_len) (body_at ws pc body_len).
Proof.
  intros Hpc Hb. unfold body_turn, body_at. pose proof (gen_body_insn_placed pc body_len Hpc Hb) as Hg.
  destruct (Nat.eqb_spec pc (body_len - 1)) as [->|Hne]; cbn [andb].
  - destruct ws; [by apply always_ret|]. eapply always_bind; [apply always_chance|]. intros jump _.
    apply always_if; intros _.
    + apply always_ret. right. by replace (body_len - (body_len - 1) - 1)%nat with 0%nat by lia.
    + eapply always_mono; [done|]. intros insn. by left.
  - eapply always_bind; [by apply always_ret with (P := fun b => b = false)|]. intros b ->. exact Hg.
Qed.

Lemma gen_body_at ws body_len n : forall pc,
  (pc + n = body_len)%nat -> Z.of_nat body_len <= 32767 ->
  always (gen_body ws n pc body_len)
    (fun body => length body = n /\ forall j insn, body !! j = Some insn -> body_at ws (pc + j) body_len insn).
Proof.
  induction n as [|n IH]; intros pc Hpc Hb; cbn [gen_body]; [by apply always_ret|].
  eapply always_bind; [apply body_turn_at; [lia|done]|]. drew insn Hi.
  eapply always_bind; [apply IH; [lia|done]|]. drew rest Hr. apply always_ret. destruct Hr as [Hl Hr].
  split; [cbn; lia|]. intros [|j] x Hj; cbn in Hj; [injection Hj as <-; by rewrite Nat.add_0_r|].
  replace (pc + S j)%nat with (S pc + j)%nat by lia. by apply Hr.
Qed.

Lemma zero_plain : plain (BpfInsn.MovImm 0 0).
Proof. by split. Qed.

(** The frame around a body of placed instructions. *)
Lemma framed_lookup body body_len :
  (forall j insn, body !! j = Some insn -> placed 0 (Z.of_nat body_len + 1) (Z.of_nat j) insn) ->
  forall i insn, (BpfInsn.MovImm 0 0 :: body) !! i = Some insn ->
    placed 0 (Z.of_nat body_len + 2) (Z.of_nat i) insn.
Proof.
  intros H [|i] insn; cbn; [intros [= <-]; apply plain_placed, zero_plain|]. intros Hi. apply H in Hi.
  apply (placed_shift _ _ _ _ 1) in Hi. replace (Z.of_nat (S i)) with (Z.of_nat i + 1) by lia.
  eapply placed_weaken; [| |exact Hi]; lia.
Qed.

Lemma gen_program_valid cfg :
  Z.of_nat (Nat.max (min_len cfg) (max_len cfg)) <= 32767 ->
  always (gen_program cfg)
    (fun insns => valid_program insns /\ (min_len cfg + 2 <= length insns <= Nat.max (min_len cfg) (max_len cfg) + 4)%nat).
Proof.
  intros Hm. unfold gen_program. eapply always_bind; [apply always_below; lia|]. drew extra He.
  set (body_len := (min_len cfg + Z.to_nat extra)%nat).
  assert (Hlen : (min_len cfg <= body_len <= Nat.max (min_len cfg) (max_len cfg))%nat) by lia.
  apply (always_bind _ _ (fun ws : bool => ws = true -> (3 <= body_len)%nat)).
  { apply always_if; intros E; [|by apply always_ret]. apply Nat.leb_le in E.
    eapply always_mono; [apply always_chance|]. done. }
  intros ws Hws. cbn beta in Hws. eapply always_bind; [apply gen_body_at; [done|lia]|]. drew body Hb.
  destruct Hb as [Hl Hb]. cbn [Nat.add] in Hb. apply always_if; intros E; subst ws.
  - specialize (Hws eq_refl). eapply always_bind; [apply always_imm|]. drew imm Hi. apply always_ret.
    destruct body as [|lst front _] using rev_ind; [cbn in Hl; lia|]. rewrite length_app in Hl. cbn in Hl.
    assert (lst = BpfInsn.CallSub 1) as ->.
    { specialize (Hb (length front) lst ltac:(by apply list_lookup_middle)). unfold body_at in Hb.
      by destruct (Nat.eqb_spec (length front) (body_len - 1)); [|lia]. }
    split; [|cbn [length]; rewrite !length_app; cbn; lia]. rewrite <- app_assoc. cbn [app].
    change (valid_program ((BpfInsn.MovImm 0 0 :: front) ++ [BpfInsn.CallSub 1; BpfInsn.Exit; BpfInsn.MovImm 0 imm; BpfInsn.Exit])).
    apply called_valid; [cbn [length]; lia| |plain_insn].
    replace (Z.of_nat (length (BpfInsn.MovImm 0 0 :: front))) with (Z.of_nat body_len) by (cbn [length]; lia).
    apply framed_lookup. intros j insn Hj. pose proof (lookup_lt_Some _ _ _ Hj) as Hlt.
    specialize (Hb j insn ltac:(by apply lookup_app_l_Some)). unfold body_at in Hb.
    by destruct (Nat.eqb_spec j (body_len - 1)); [lia|].
  - apply always_ret. split; [|cbn [length]; rewrite length_app; cbn; lia].
    change (valid_program ((BpfInsn.MovImm 0 0 :: body) ++ [BpfInsn.Exit])).
    apply linear_valid; [cbn [length]; lia|]. cbn [length]. rewrite Hl. intros [|i] insn Hi; cbn in Hi.
    { injection Hi as <-. left. apply plain_placed, zero_plain. }
    specialize (Hb i insn Hi). unfold body_at in Hb.
    assert (Hg : goes_on 0 (Z.of_nat body_len + 1) (Z.of_nat i) insn) by (destruct (i =? body_len - 1)%nat; [done|by left]).
    destruct Hg as [Hg| ->]; [left|by right]. apply (placed_shift _ _ _ _ 1) in Hg.
    replace (Z.of_nat (S i)) with (Z.of_nat i + 1) by lia. eapply placed_weaken; [| |exact Hg]; lia.
Qed.

(** * Idiom programs *)

(** What [gen_idiom_program] makes of a body. *)
Definition idiom_body (body : list BpfInsn) : Prop :=
  valid_program (BpfInsn.MovImm 0 0 :: body) /\ last (BpfInsn.MovImm 0 0 :: body) = Some BpfInsn.Exit.

Lemma linear_idiom l :
  Z.of_nat (length l) < 1000 ->
  (forall i insn, l !! i = Some insn -> placed 0 (Z.of_nat (length l) + 2) (Z.of_nat i + 1) insn) ->
  idiom_body (l ++ [BpfInsn.Exit]).
Proof.
  intros Hlen Hl. split; [|by rewrite app_comm_cons, last_snoc]. rewrite app_comm_cons.
  apply linear_valid; [cbn [length]; lia|]. cbn [length].
  intros [|i] insn Hi; cbn in Hi; left; [injection Hi as <-; apply plain_placed, zero_plain|].
  replace (Z.of_nat (S (length l)) + 1) with (Z.of_nat (length l) + 2) by lia.
  replace (Z.of_nat (S i)) with (Z.of_nat i + 1) by lia. by apply Hl.
Qed.

Lemma plain_idiom l : Z.of_nat (length l) < 1000 -> Forall plain l -> idiom_body (l ++ [BpfInsn.Exit]).
Proof.
  intros Hlen Hl. apply linear_idiom; [done|]. intros i insn Hi. apply plain_placed.
  rewrite Forall_lookup in Hl. by eapply Hl.
Qed.

Lemma repeat_always {A} n (m : rand A) P :
  always m P -> always (rand_repeat n m) (fun l => length l = n /\ Forall P l).
Proof.
  intros Hm. induction n as [|n IH]; cbn [rand_repeat]; [by apply always_ret|].
  eapply always_bind; [done|]. drew a Ha. eapply always_bind; [done|]. drew l Hl. apply always_ret.
  destruct Hl as [<- Hl]. split; [done|by constructor].
Qed.

Lemma push_add_sub_plain dst : is_reg dst -> always (push_add_sub dst) plain.
Proof.
  intros Hd. unfold push_add_sub. eapply always_bind; [by apply always_below|]. drew op Ho.
  eapply always_bind; [by apply always_below|]. intros form _. destruct (form =? 0); number_cases op;
    try (apply always_ret; plain_insn);
    (eapply always_bind; [apply always_large|]; drew imm Hi; apply always_ret; plain_insn).
Qed.

Lemma overflow_chain_idiom : always overflow_chain idiom_body.
Proof.
  unfold overflow_chain. eapply always_bind; [by apply always_below|]. intros helper _.
  eapply always_bind; [by apply always_below|]. drew extra He. apply always_if; intros _.
  - eapply always_bind; [apply repeat_always, push_add_sub_plain; lia|]. drew chain Hc. apply always_ret.
    destruct Hc as [Hl Hc]. rewrite app_comm_cons. apply plain_idiom; [cbn [length]; lia|].
    constructor; [plain_insn|done].
  - eapply always_bind; [apply always_work_reg|]. drew reg Hr. eapply always_bind; [apply always_large|]. drew imm Hi.
    eapply always_bind; [apply repeat_always, push_add_sub_plain; lia|]. drew chain Hc. apply always_ret.
    destruct Hc as [Hl Hc].
    change (chain ++ [BpfInsn.MovReg 0 reg; BpfInsn.Exit]) with (chain ++ [BpfInsn.MovReg 0 reg] ++ [BpfInsn.Exit]).
    rewrite app_assoc, app_comm_cons. apply plain_idiom; [cbn [length]; rewrite length_app; cbn [length]; lia|].
    constructor; [plain_insn|]. apply Forall_app. split; [done|]. repeat constructor; well_formed.
Qed.

Lemma alu32_op_plain reg : is_reg reg -> always (alu32_op reg) plain.
Proof.
  intros Hd. unfold alu32_op. eapply always_bind; [by apply always_below|]. drew op Ho.
  eapply always_bind; [by apply always_below|]. intros form _. destruct (form =? 0); number_cases op; draw_plain.
Qed.

Lemma alu32_roundtrip_idiom : always alu32_roundtrip idiom_body.
Proof.
  unfold alu32_roundtrip. eapply always_bind; [apply always_work_reg|]. drew reg Hr.
  eapply always_bind; [apply always_imm|]. drew imm Hi. eapply always_bind; [by apply always_below|]. drew extra He.
  eapply always_bind; [apply repeat_always, alu32_op_plain; lia|]. drew chain Hc.
  eapply always_bind; [by apply always_below|]. intros add _. apply always_ret. destruct Hc as [Hl Hc].
  set (op := if add =? 0 then _ else _).
  change (chain ++ [op; BpfInsn.MovReg 0 reg; BpfInsn.Exit])
    with (chain ++ [op; BpfInsn.MovReg 0 reg] ++ [BpfInsn.Exit]).
  rewrite app_assoc, app_comm_cons. apply plain_idiom; [cbn [length]; rewrite length_app; cbn [length]; lia|].
  constructor; [plain_insn|]. apply Forall_app. split; [done|].
  constructor; [subst op; destruct (add =? 0); plain_insn|]. repeat constructor; well_formed.
Qed.

Lemma spill_fill_idiom : always spill_fill idiom_body.
Proof.
  unfold spill_fill. eapply always_bind; [apply always_work_reg|]. drew reg Hr.
  eapply always_bind; [by apply always_below|]. drew slot Hs. eapply always_bind; [apply always_imm|]. drew imm Hi.
  apply always_ret. apply (plain_idiom [_; _; _; _; _]); [cbn; lia|].
  repeat (constructor; [plain_insn|]). constructor.
Qed.

(** A fixed list of instructions, each placed. *)
Ltac place_each i Hi :=
  repeat (destruct i as [|i]; [cbn in Hi; injection Hi as <-; split;
    [well_formed|split; [reflexivity|intros ? [= <-]; cbn; lia]]|]); try discriminate Hi.

Lemma dual_refine_idiom : always dual_refine idiom_body.
Proof.
  unfold dual_refine. eapply always_bind; [apply always_work_reg|]. drew c Hc.
  eapply always_bind; [apply always_imm|]. drew imm Hi. apply always_ret.
  apply (linear_idiom [_; _; _; _; _]); [cbn; lia|]. intros i insn Hl. place_each i Hl.
Qed.

Lemma bounded_loop_idiom : always bounded_loop idiom_body.
Proof.
  unfold bounded_loop. eapply always_bind; [by apply always_below|]. drew count Hc.
  eapply always_bind; [apply always_work_reg|]. drew cnt Hr.
  apply (always_bind _ _ (fun r => 1 <= r <= 9)).
  { intros g. destruct (draw_until_ends work_reg (fun x => 1 + x mod 9) (fun r => negb (r =? cnt))
      (if cnt =? 1 then 1 else 0) g) as (x & g' & E & Hx & Hs).
    - intros g0. unfold work_reg, rand_bind, below. cbn [Z.eqb]. by destruct (next g0).
    - by destruct (cnt =? 1).
    - destruct (Z.eqb_spec cnt 1) as [->|Hne]; [done|]. apply negb_true_iff, Z.eqb_neq. change (1 <> cnt). lia.
    - exists (1 + x mod 9), g'. split; [done|]. pose proof (Z.mod_pos_bound x 9). lia. }
  drew idx Hx. apply always_ret. apply (linear_idiom [_; _; _; _; _]); [cbn; lia|]. intros i insn Hl. place_each i Hl.
Qed.

Lemma null_check_idiom : always null_check idiom_body.
Proof.
  unfold null_check. eapply always_bind; [apply always_work_reg|]. drew c Hc. apply always_ret.
  split; [split|reflexivity].
  - apply all_wf. repeat (constructor; [well_formed|]). constructor.
  - exists [0], []. split; reflexivity.
Qed.

Lemma narrowing_compare_placed c imm off :
  is_reg c -> is_i32 imm -> is_i16 off ->
  always (narrowing_compare c imm off)
    (fun insn => insn_wf insn = true /\ straight insn = true /\ cond_offset insn = Some off).
Proof.
  intros Hc Hi Ho. unfold narrowing_compare. eapply always_bind; [by apply always_below|]. drew op Hop.
  eapply always_bind; [by apply always_below|]. intros form _. destruct (form =? 0); number_cases op;
    apply always_ret; (split; [well_formed|split; reflexivity]).
Qed.

(** Each compare jumps behind the instruction after the compares. *)
Lemma narrowing_placed c imm n : is_reg c -> is_i32 imm -> Z.of_nat n < 100 ->
  always (narrowing n c imm) (fun l => length l = n /\
    forall j insn, l !! j = Some insn ->
      insn_wf insn = true /\ straight insn = true /\ cond_offset insn = Some (Z.of_nat n - Z.of_nat j)).
Proof.
  intros Hc Hi. induction n as [|n IH]; intros Hn; cbn [narrowing]; [by apply always_ret|].
  eapply always_bind; [apply narrowing_compare_placed; [done|done|]|].
  { rewrite as_i16_small by lia. lia. }
  drew insn Hins. rewrite as_i16_small in Hins by lia. eapply always_bind; [apply IH; lia|]. drew l Hl. apply always_ret.
  destruct Hl as [<- Hl]. split; [done|]. intros [|j] x Hj; cbn in Hj.
  - injection Hj as <-. replace (Z.of_nat (S (length l)) - Z.of_nat 0) with (Z.of_nat (length l) + 1) by lia. exact Hins.
  - replace (Z.of_nat (S (length l)) - Z.of_nat (S j)) with (Z.of_nat (length l) - Z.of_nat j) by lia. by apply Hl.
Qed.

Lemma narrowing_chain_idiom : always narrowing_chain idiom_body.
Proof.
  unfold narrowing_chain. eapply always_bind; [apply always_work_reg|]. drew c Hc.
  eapply always_bind; [apply always_imm|]. drew imm Hi. eapply always_bind; [by apply always_below|]. drew extra He.
  eapply always_bind; [apply narrowing_placed; lia|]. drew l Hl. apply always_ret. destruct Hl as [Hlen Hl].
  change (l ++ [BpfInsn.MovReg 0 0; BpfInsn.Exit]) with (l ++ [BpfInsn.MovReg 0 0] ++ [BpfInsn.Exit]).
  rewrite app_assoc, !app_comm_cons. apply linear_idiom; [cbn [length]; rewrite length_app; cbn [length]; lia|].
  cbn [length]. rewrite length_app. cbn [length]. intros i insn Hi'.
  destruct i as [|[|i]]; [cbn in Hi'; injection Hi' as <-; apply plain_placed; plain_insn..|].
  cbn in Hi'. apply lookup_app_Some in Hi' as [Hi'|[Hge Hi']].
  - pose proof (lookup_lt_Some _ _ _ Hi'). destruct (Hl _ _ Hi') as (? & ? & Ho). split_and!; [done..|].
    intros off. rewrite Ho. intros [= <-]. lia.
  - destruct (i - length l)%nat as [|k]; [|done]. cbn in Hi'. injection Hi' as <-. apply plain_placed. plain_insn.
Qed.

Lemma gen_idiom_body_always idiom : always (gen_idiom_body idiom) idiom_body.
Proof.
  destruct idiom; [apply overflow_chain_idiom|apply alu32_roundtrip_idiom|apply dual_refine_idiom
    |apply narrowing_chain_idiom|apply spill_fill_idiom|apply null_check_idiom|apply bounded_loop_idiom].
Qed.

Lemma gen_idiom_program_valid idiom : always (gen_idiom_program idiom) valid_program.
Proof.
  unfold gen_idiom_program. eapply always_bind; [apply gen_idiom_body_always|]. drew body Hb. apply always_ret.
  destruct Hb as [Hv Hl]. by rewrite Hl.
Qed.

Lemma valid_roundtrip insns : valid_program insns ->
  exists bytes, encode_program insns = Some bytes /\ decode_program bytes = Ok insns.
Proof.
  intros [Hw _]. destruct (decode_encoded (length insns) 0 insns (le_n _) Hw) as (bs & Hbs & Hrem & Hdec).
  exists bs. split; [done|]. unfold decode_program. destruct (as_chunks bs). cbn [fst snd] in *. by rewrite Hdec, Hrem.
Qed.

Lemma gen_mixed_program_valid cfg ratio :
  Z.of_nat (Nat.max (min_len cfg) (max_len cfg)) <= 32767 -> always (gen_mixed_program cfg ratio) valid_program.
Proof.
  intros Hm. unfold gen_mixed_program. eapply always_bind; [apply always_chance|]. intros b _. apply always_if; intros _.
  - eapply always_bind; [by apply always_below|]. drew idx Hi.
    destruct (lookup_lt_is_Some_2 ALL_IDIOMS (Z.to_nat idx)) as [idiom ->]; [cbn in *; lia|].
    apply gen_idiom_program_valid.
  - eapply always_mono; [by apply gen_program_valid|]. by intros insns [? _].
Qed.

(** * Properties *)

(** C33: generated programs are valid by construction. Whatever the seed, the
    configuration (with a body that branch offsets can span) and the share of
    idioms, drawing a program ends without a panic, and the program encodes,
    decodes to itself, and passes the subprogram and control-flow checks, so that
    every instruction is reachable and every branch stays inside; a program that
    is no idiom has the configured length, also as bytes. *)
Theorem generated_programs_valid (cfg : GenConfig) (idiom_ratio_percent : Z) (g : SplitMix64) :
  Z.of_nat (Nat.max (min_len cfg) (max_len cfg)) <= 32767 ->
  (exists insns g', gen_mixed_program cfg idiom_ratio_percent g = Drew insns g' /\
     (exists bytes, encode_program insns = Some bytes /\ decode_program bytes = Ok insns) /\
     exists subprogs heads, add_subprog insns = Ok subprogs /\ check_cfg insns subprogs = Some (Ok heads)) /\
  exists bytes insns g', gen_program_bytes cfg g = Drew (Some bytes) g' /\ decode_program bytes = Ok insns /\
    (min_len cfg + 2 <= length insns <= Nat.max (min_len cfg) (max_len cfg) + 4)%nat.
Proof.
  intros Hm. split.
  - destruct (gen_mixed_program_valid cfg idiom_ratio_percent Hm g) as (insns & g' & E & Hv). exists insns, g'.
    split; [done|]. split; [by apply valid_roundtrip|apply Hv].
  - destruct (gen_program_valid cfg Hm g) as (insns & g' & E & Hv & Hl).
    destruct (valid_roundtrip insns Hv) as (bytes & Hb & Hd). exists bytes, insns, g'. split; [|done].
    unfold gen_program_bytes, rand_bind. by rewrite E, <- Hb.
Qed.

Lemma generated_programs_valid_witness :
  exists insns g', gen_mixed_program (mkGenConfig 1 12) 50 (new 77) = Drew insns g' /\
    exists subprogs heads, add_subprog insns = Ok subprogs /\ check_cfg insns subprogs = Some (Ok heads).
Proof.
  destruct (generated_programs_valid (mkGenConfig 1 12) 50 (new 77)) as [(insns & g' & H1 & _ & H2) _]; [cbn; lia|].
  exists insns, g'. split; [exact H1|exact H2].
Defined.
