(* ===== verification/Mutator.v ===== *)
(** Mutation of seed programs (src/src/fuzz/mutator.rs): a field, an insertion, a
    deletion or a splice, kept when the structural checks accept it.  The theorem:
    a mutation never panics, changes the seed in one place behind its first
    instruction and before its exit, and what it keeps is well-formed and passes
    the checks.  A seed with an instruction of two slots is the exception. *)
From Stdlib Require Import ZArith Lia List Bool Relations.
From stdpp Require Import base option list sorting.
From S2P Require Import Prelude Insn State Liveness Cfg Prng Generator.
Open Scope Z_scope.

(** * Replacing a field *)

Definition replace_imm (insn : BpfInsn) (imm : Z) : BpfInsn :=
  match insn with
  | BpfInsn.MovImm dst _ => BpfInsn.MovImm dst imm
  | BpfInsn.AddImm dst _ => BpfInsn.AddImm dst imm
  | BpfInsn.SubImm dst _ => BpfInsn.SubImm dst imm
  | BpfInsn.AndImm dst _ => BpfInsn.AndImm dst imm
  | BpfInsn.OrImm dst _ => BpfInsn.OrImm dst imm
  | BpfInsn.XorImm dst _ => BpfInsn.XorImm dst imm
  | BpfInsn.LshImm dst _ => BpfInsn.LshImm dst imm
  | BpfInsn.RshImm dst _ => BpfInsn.RshImm dst imm
  | BpfInsn.ArshImm dst _ => BpfInsn.ArshImm dst imm
  | BpfInsn.Add32Imm dst _ => BpfInsn.Add32Imm dst imm
  | BpfInsn.Sub32Imm dst _ => BpfInsn.Sub32Imm dst imm
  | BpfInsn.And32Imm dst _ => BpfInsn.And32Imm dst imm
  | BpfInsn.Or32Imm dst _ => BpfInsn.Or32Imm dst imm
  | BpfInsn.Xor32Imm dst _ => BpfInsn.Xor32Imm dst imm
  | BpfInsn.Lsh32Imm dst _ => BpfInsn.Lsh32Imm dst imm
  | BpfInsn.Rsh32Imm dst _ => BpfInsn.Rsh32Imm dst imm
  | BpfInsn.Arsh32Imm dst _ => BpfInsn.Arsh32Imm dst imm
  | BpfInsn.JeqImm dst _ offset => BpfInsn.JeqImm dst imm offset
  | BpfInsn.JneImm dst _ offset => BpfInsn.JneImm dst imm offset
  | BpfInsn.JgtImm dst _ offset => BpfInsn.JgtImm dst imm offset
  | BpfInsn.JgeImm dst _ offset => BpfInsn.JgeImm dst imm offset
  | BpfInsn.JltImm dst _ offset => BpfInsn.JltImm dst imm offset
  | BpfInsn.JleImm dst _ offset => BpfInsn.JleImm dst imm offset
  | BpfInsn.JsgtImm dst _ offset => BpfInsn.JsgtImm dst imm offset
  | BpfInsn.JsgeImm dst _ offset => BpfInsn.JsgeImm dst imm offset
  | BpfInsn.JsltImm dst _ offset => BpfInsn.JsltImm dst imm offset
  | BpfInsn.JsleImm dst _ offset => BpfInsn.JsleImm dst imm offset
  | BpfInsn.Call _ => BpfInsn.Call imm
  | other => other
  end.

(** A replaced memory access is relative to the frame pointer. *)
Definition replace_off (insn : BpfInsn) (offset : Z) : BpfInsn :=
  match insn with
  | BpfInsn.LdMem dst _ _ size sign_extend => BpfInsn.LdMem dst 10 offset size sign_extend
  | BpfInsn.StMem src _ _ size => BpfInsn.StMem src 10 offset size
  | BpfInsn.Jeq dst src _ => BpfInsn.Jeq dst src offset
  | BpfInsn.Jne dst src _ => BpfInsn.Jne dst src offset
  | BpfInsn.Jgt dst src _ => BpfInsn.Jgt dst src offset
  | BpfInsn.Jge dst src _ => BpfInsn.Jge dst src offset
  | BpfInsn.Jlt dst src _ => BpfInsn.Jlt dst src offset
  | BpfInsn.Jle dst src _ => BpfInsn.Jle dst src offset
  | BpfInsn.Jsgt dst src _ => BpfInsn.Jsgt dst src offset
  | BpfInsn.Jsge dst src _ => BpfInsn.Jsge dst src offset
  | BpfInsn.Jslt dst src _ => BpfInsn.Jslt dst src offset
  | BpfInsn.Jsle dst src _ => BpfInsn.Jsle dst src offset
  | BpfInsn.JeqImm dst imm _ => BpfInsn.JeqImm dst imm offset
  | BpfInsn.JneImm dst imm _ => BpfInsn.JneImm dst imm offset
  | BpfInsn.JgtImm dst imm _ => BpfInsn.JgtImm dst imm offset
  | BpfInsn.JgeImm dst imm _ => BpfInsn.JgeImm dst imm offset
  | BpfInsn.JltImm dst imm _ => BpfInsn.JltImm dst imm offset
  | BpfInsn.JleImm dst imm _ => BpfInsn.JleImm dst imm offset
  | BpfInsn.JsgtImm dst imm _ => BpfInsn.JsgtImm dst imm offset
  | BpfInsn.JsgeImm dst imm _ => BpfInsn.JsgeImm dst imm offset
  | BpfInsn.JsltImm dst imm _ => BpfInsn.JsltImm dst imm offset
  | BpfInsn.JsleImm dst imm _ => BpfInsn.JsleImm dst imm offset
  | BpfInsn.Jmp _ => BpfInsn.Jmp offset
  | other => other
  end.

(** The destination, or the stored register. *)
Definition replace_reg (insn : BpfInsn) (reg : Z) : BpfInsn :=
  match insn with
  | BpfInsn.MovImm _ imm => BpfInsn.MovImm reg imm
  | BpfInsn.MovReg _ src => BpfInsn.MovReg reg src
  | BpfInsn.AddImm _ imm => BpfInsn.AddImm reg imm
  | BpfInsn.AddReg _ src => BpfInsn.AddReg reg src
  | BpfInsn.SubImm _ imm => BpfInsn.SubImm reg imm
  | BpfInsn.SubReg _ src => BpfInsn.SubReg reg src
  | BpfInsn.AndImm _ imm => BpfInsn.AndImm reg imm
  | BpfInsn.AndReg _ src => BpfInsn.AndReg reg src
  | BpfInsn.OrImm _ imm => BpfInsn.OrImm reg imm
  | BpfInsn.OrReg _ src => BpfInsn.OrReg reg src
  | BpfInsn.XorImm _ imm => BpfInsn.XorImm reg imm
  | BpfInsn.XorReg _ src => BpfInsn.XorReg reg src
  | BpfInsn.LshImm _ imm => BpfInsn.LshImm reg imm
  | BpfInsn.LshReg _ src => BpfInsn.LshReg reg src
  | BpfInsn.RshImm _ imm => BpfInsn.RshImm reg imm
  | BpfInsn.RshReg _ src => BpfInsn.RshReg reg src
  | BpfInsn.ArshImm _ imm => BpfInsn.ArshImm reg imm
  | BpfInsn.ArshReg _ src => BpfInsn.ArshReg reg src
  | BpfInsn.Add32Imm _ imm => BpfInsn.Add32Imm reg imm
  | BpfInsn.Add32Reg _ src => BpfInsn.Add32Reg reg src
  | BpfInsn.Sub32Imm _ imm => BpfInsn.Sub32Imm reg imm
  | BpfInsn.Sub32Reg _ src => BpfInsn.Sub32Reg reg src
  | BpfInsn.And32Imm _ imm => BpfInsn.And32Imm reg imm
  | BpfInsn.And32Reg _ src => BpfInsn.And32Reg reg src
  | BpfInsn.Or32Imm _ imm => BpfInsn.Or32Imm reg imm
  | BpfInsn.Or32Reg _ src => BpfInsn.Or32Reg reg src
  | BpfInsn.Xor32Imm _ imm => BpfInsn.Xor32Imm reg imm
  | BpfInsn.Xor32Reg _ src => BpfInsn.Xor32Reg reg src
  | BpfInsn.Lsh32Imm _ imm => BpfInsn.Lsh32Imm reg imm
  | BpfInsn.Lsh32Reg _ src => BpfInsn.Lsh32Reg reg src
  | BpfInsn.Rsh32Imm _ imm => BpfInsn.Rsh32Imm reg imm
  | BpfInsn.Rsh32Reg _ src => BpfInsn.Rsh32Reg reg src
  | BpfInsn.Arsh32Imm _ imm => BpfInsn.Arsh32Imm reg imm
  | BpfInsn.Arsh32Reg _ src => BpfInsn.Arsh32Reg reg src
  | BpfInsn.LdMem _ _ offset size sign_extend => BpfInsn.LdMem reg 10 offset size sign_extend
  | BpfInsn.StMem _ _ offset size => BpfInsn.StMem reg 10 offset size
  | BpfInsn.Jeq _ src offset => BpfInsn.Jeq reg src offset
  | BpfInsn.Jne _ src offset => BpfInsn.Jne reg src offset
  | BpfInsn.Jgt _ src offset => BpfInsn.Jgt reg src offset
  | BpfInsn.Jge _ src offset => BpfInsn.Jge reg src offset
  | BpfInsn.Jlt _ src offset => BpfInsn.Jlt reg src offset
  | BpfInsn.Jle _ src offset => BpfInsn.Jle reg src offset
  | BpfInsn.Jsgt _ src offset => BpfInsn.Jsgt reg src offset
  | BpfInsn.Jsge _ src offset => BpfInsn.Jsge reg src offset
  | BpfInsn.Jslt _ src offset => BpfInsn.Jslt reg src offset
  | BpfInsn.Jsle _ src offset => BpfInsn.Jsle reg src offset
  | BpfInsn.JeqImm _ imm offset => BpfInsn.JeqImm reg imm offset
  | BpfInsn.JneImm _ imm offset => BpfInsn.JneImm reg imm offset
  | BpfInsn.JgtImm _ imm offset => BpfInsn.JgtImm reg imm offset
  | BpfInsn.JgeImm _ imm offset => BpfInsn.JgeImm reg imm offset
  | BpfInsn.JltImm _ imm offset => BpfInsn.JltImm reg imm offset
  | BpfInsn.JleImm _ imm offset => BpfInsn.JleImm reg imm offset
  | BpfInsn.JsgtImm _ imm offset => BpfInsn.JsgtImm reg imm offset
  | BpfInsn.JsgeImm _ imm offset => BpfInsn.JsgeImm reg imm offset
  | BpfInsn.JsltImm _ imm offset => BpfInsn.JsltImm reg imm offset
  | BpfInsn.JsleImm _ imm offset => BpfInsn.JsleImm reg imm offset
  | other => other
  end.

(** * The four mutations *)

Definition field_replace (seed : list BpfInsn) : rand (list BpfInsn) :=
  let~ r := below (Z.of_nat (length seed) - 2) in
  let idx := (1 + Z.to_nat r)%nat in
  let~ field := below 3 in
  match seed !! idx with
  | None => rpanic
  | Some insn =>
      let~ replaced := match field with
                       | 0 => let~ imm := pick IMMEDIATES in rret (replace_imm insn imm)
                       | 1 => let~ off := pick OFFSETS in rret (replace_off insn off)
                       | _ => let~ reg := pick ALU_REGS in rret (replace_reg insn reg)
                       end in
      rret (<[idx := replaced]> seed)
  end.

Definition insert (seed : list BpfInsn) : rand (list BpfInsn) :=
  let~ r := below (Z.of_nat (length seed) - 1) in
  let pos := (1 + Z.to_nat r)%nat in
  let~ insn := gen_body_insn pos (length seed) in
  rret (take pos seed ++ insn :: drop pos seed).

Definition delete (seed : list BpfInsn) : rand (list BpfInsn) :=
  if (3 <? length seed)%nat then
    let~ r := below (Z.of_nat (length seed) - 2) in
    let pos := (1 + Z.to_nat r)%nat in
    rret (take pos seed ++ drop (S pos) seed)
  else rret seed.

Definition splice (a b : list BpfInsn) : rand (list BpfInsn) :=
  let~ ra := below (Z.of_nat (length a) - 1) in
  let~ rb := below (Z.of_nat (length b) - 1) in
  rret (take (1 + Z.to_nat ra) a ++ drop (1 + Z.to_nat rb) b).

(** The mutant, if the structural checks accept it. *)
Definition checked_mutant (mutant : list BpfInsn) : rand (option (list BpfInsn)) :=
  match add_subprog mutant with
  | Err _ => rret None
  | Ok subprogs =>
      match check_cfg mutant subprogs with
      | Some (Ok _) => rret (Some mutant)
      | Some (Err _) => rret None
      | None => rpanic
      end
  end.

Definition try_mutate (seed : list BpfInsn) (other : option (list BpfInsn)) : rand (option (list BpfInsn)) :=
  if (length seed <? 3)%nat then rret None
  else
    let~ roll := below 100 in
    let~ mutant :=
      if roll <? 50 then field_replace seed
      else if roll <? 70 then insert seed
      else if roll <? 85 then delete seed
      else match other with
           | Some b => if (2 <=? length b)%nat then splice seed b else field_replace seed
           | None => field_replace seed
           end in
    checked_mutant mutant.

(** * What a mutation changes *)

(** Instructions of one slot, whose encoding decodes to them. *)
Definition single_slots (insns : list BpfInsn) : Prop := Forall (fun insn => insn_wf insn = true) insns.

Inductive mutation (seed : list BpfInsn) : option (list BpfInsn) -> list BpfInsn -> Prop :=
| Unchanged other : mutation seed other seed
| Replaced other i insn : (0 < i < length seed - 1)%nat -> mutation seed other (<[i := insn]> seed)
| Inserted other i insn : (0 < i < length seed)%nat -> mutation seed other (take i seed ++ insn :: drop i seed)
| Deleted other i : (0 < i < length seed - 1)%nat -> mutation seed other (take i seed ++ drop (S i) seed)
| Spliced b i j : (0 < i < length seed)%nat -> (0 < j < length b)%nat ->
    mutation seed (Some b) (take i seed ++ drop j b).

(** The fields stay in range. *)
Ltac field_case :=
  unfold insn_wf, in_range; cbn; rewrite ?andb_true_iff, ?negb_true_iff, ?Z.leb_le, ?Z.eqb_neq;
  let H := fresh in intros H; decompose [and] H; repeat split; first [assumption|lia].

Lemma replace_imm_wf insn imm : insn_wf insn = true -> is_i32 imm -> insn_wf (replace_imm insn imm) = true.
Proof. intros Hw Hi. revert Hw. destruct insn; try (intros H; exact H); field_case. Qed.

Lemma replace_off_wf insn off : insn_wf insn = true -> is_i16 off -> insn_wf (replace_off insn off) = true.
Proof.
  intros Hw Hi. revert Hw.
  destruct insn;
    try (intros H; exact H); try field_case; destruct size; try destruct sign_extend; try field_case; done.
Qed.

Lemma replace_reg_wf insn reg : insn_wf insn = true -> is_reg reg -> insn_wf (replace_reg insn reg) = true.
Proof.
  intros Hw Hi. revert Hw.
  destruct insn; try (intros H; exact H); try field_case; destruct size; try destruct sign_extend; try field_case; done.
Qed.

Lemma single_lookup insns i insn : single_slots insns -> insns !! i = Some insn -> insn_wf insn = true.
Proof. intros H Hi. unfold single_slots in H. rewrite Forall_lookup in H. by eapply H. Qed.

(** A drawn mutant of a seed. *)
Definition mutant_of (seed : list BpfInsn) (other : option (list BpfInsn)) (m : list BpfInsn) : Prop :=
  mutation seed other m /\ single_slots m.

Section mutations.
Context (seed : list BpfInsn) (other : option (list BpfInsn)).
Hypothesis Hlen : (3 <= length seed)%nat.
Hypothesis Hsingle : single_slots seed.

Lemma field_replace_mutant : always (field_replace seed) (mutant_of seed other).
Proof using Hlen Hsingle.
  unfold field_replace. eapply always_bind; [apply always_below; lia|]. drew r Hr.
  eapply always_bind; [by apply always_below|]. intros field _. set (idx := (1 + Z.to_nat r)%nat).
  destruct (lookup_lt_is_Some_2 seed idx) as [insn Hi]; [lia|]. rewrite Hi.
  pose proof (single_lookup _ _ _ Hsingle Hi) as Hw.
  apply (always_bind _ _ (fun insn => insn_wf insn = true)).
  - destruct field as [|[]|]; try (eapply always_bind; [apply always_reg|]; drew x Hx; apply always_ret; by apply replace_reg_wf).
    + eapply always_bind; [apply always_imm|]. drew x Hx. apply always_ret. by apply replace_imm_wf.
    + eapply always_bind; [apply always_offset|]. drew x Hx. apply always_ret. by apply replace_off_wf.
  - drew x Hx. apply always_ret. split; [apply Replaced; lia|]. by apply Forall_insert.
Qed.

Lemma insert_mutant : Z.of_nat (length seed) <= 32767 -> always (insert seed) (mutant_of seed other).
Proof using Hlen Hsingle.
  intros Hmax. unfold insert. eapply always_bind; [apply always_below; lia|]. drew r Hr.
  eapply always_bind; [apply gen_body_insn_placed; lia|]. drew insn Hi. apply always_ret.
  split; [apply Inserted; lia|]. apply Forall_app. split; [by apply Forall_take|].
  constructor; [apply Hi|by apply Forall_drop].
Qed.

Lemma delete_mutant : always (delete seed) (mutant_of seed other).
Proof using Hlen Hsingle.
  unfold delete. destruct (Nat.ltb_spec 3 (length seed)); [|by apply always_ret; split; [constructor|]].
  eapply always_bind; [apply always_below; lia|]. drew r Hr. apply always_ret.
  split; [apply Deleted; lia|]. apply Forall_app. split; [by apply Forall_take|by apply Forall_drop].
Qed.

Lemma splice_mutant b : other = Some b -> (2 <= length b)%nat -> single_slots b ->
  always (splice seed b) (mutant_of seed other).
Proof using Hlen Hsingle.
  intros -> Hb Hsb. unfold splice. eapply always_bind; [apply always_below; lia|]. drew ra Ha.
  eapply always_bind; [apply always_below; lia|]. drew rb Hrb. apply always_ret.
  split; [apply Spliced; lia|]. apply Forall_app. split; [by apply Forall_take|by apply Forall_drop].
Qed.
End mutations.

Lemma checked_mutant_always (P : list BpfInsn -> Prop) m :
  P m -> always (checked_mutant m) (fun r => forall m', r = Some m' -> P m' /\ passes_checks m').
Proof.
  intros HP. unfold checked_mutant. destruct (add_subprog m) as [subprogs|e] eqn:Es; [|by apply always_ret].
  destruct (check_cfg_total m subprogs Es) as [[heads|e] Hc]; rewrite Hc; apply always_ret; [|done].
  intros m' [= <-]. split; [done|]. by exists subprogs, heads.
Qed.

Lemma try_mutate_always seed other :
  Z.of_nat (length seed) <= 32767 -> single_slots seed -> (forall b, other = Some b -> single_slots b) ->
  always (try_mutate seed other)
    (fun r => forall m, r = Some m -> mutant_of seed other m /\ passes_checks m).
Proof.
  intros Hmax Hs Ho. unfold try_mutate. destruct (Nat.ltb_spec (length seed) 3); [by apply always_ret|].
  eapply always_bind; [by apply always_below|]. intros roll _.
  apply (always_bind _ _ (mutant_of seed other)); [|intros m Hm; by apply checked_mutant_always].
  apply always_if; intros _; [by apply field_replace_mutant|].
  apply always_if; intros _; [by apply insert_mutant|]. apply always_if; intros _; [by apply delete_mutant|].
  destruct other as [b|]; [|by apply field_replace_mutant].
  destruct (Nat.leb_spec 2 (length b)); [apply splice_mutant; auto|by apply field_replace_mutant].
Qed.

(** The first instruction is the seed's and the last one the seed's or the other's. *)
Lemma mutation_frame seed other m :
  (3 <= length seed)%nat -> mutation seed other m ->
  head m = head seed /\ (last m = last seed \/ exists b, other = Some b /\ last m = last b).
Proof.
  intros Hlen. destruct seed as [|first seed]; [cbn in Hlen; lia|]. cbn [length] in Hlen.
  assert (Happ : forall (l r : list BpfInsn), r <> [] -> last (l ++ r) = last r).
  { intros l r Hr. rewrite last_app. destruct (last r) eqn:E; [done|]. by apply last_None in E. }
  assert (Hne : forall (l : list BpfInsn) k, (k < length l)%nat -> drop k l <> []).
  { intros l k Hk E. apply (f_equal length) in E. rewrite length_drop in E. cbn in E. lia. }
  assert (Hdrop : forall (l : list BpfInsn) k, (k < length l)%nat -> last (drop k l) = last l).
  { intros l k Hk. transitivity (last (take k l ++ drop k l)); [by rewrite Happ by auto|by rewrite take_drop]. }
  assert (Hcons : forall x (l : list BpfInsn), l <> [] -> last (x :: l) = last l) by (intros x [|] ?; done).
  intros [other'|other' i insn Hi|other' i insn Hi|other' i Hi|b i j Hi Hj]; cbn [length] in *.
  - auto.
  - split; [destruct i; [lia|done]|]. left. rewrite !last_lookup, length_insert. cbn [length].
    rewrite list_lookup_insert_ne by (cbn; lia). done.
  - split; [destruct i; [lia|done]|]. left. rewrite Happ, Hcons by (done || apply Hne; cbn; lia).
    apply Hdrop. cbn. lia.
  - split; [destruct i; [lia|done]|]. left. rewrite Happ by (apply Hne; cbn; lia). apply Hdrop. cbn. lia.
  - split; [destruct i; [lia|done]|]. right. exists b. split; [done|]. rewrite Happ by (apply Hne; lia). apply Hdrop. lia.
Qed.

(** * Properties *)

(** A seed of one-slot instructions. *)
Definition small_seed : list BpfInsn := [BpfInsn.MovImm 0 0; BpfInsn.AddImm 0 1; BpfInsn.Exit].
(** A seed with an instruction of two slots. *)
Definition wide_seed : list BpfInsn :=
  [BpfInsn.MovImm 0 0; BpfInsn.LdImm64 1 5; BpfInsn.LdImm64Second 0; BpfInsn.Exit].

Definition undecodable (insns : list BpfInsn) : Prop :=
  match encode_program insns with Some bytes => is_ok (decode_program bytes) = false | None => False end.



(** A mutation of a seed with a two-slot instruction may keep one of the slots, or
    part them, and pass the structural checks although it does not decode. *)
Theorem mutants_may_not_decode :
  match try_mutate wide_seed None (new 4) with
  | Drew (Some m) _ => m = [BpfInsn.MovImm 0 0; BpfInsn.LdImm64Second 0; BpfInsn.Exit] /\ undecodable m
  | _ => False
  end /\
  match try_mutate wide_seed None (new 1) with
  | Drew (Some m) _ =>
      m !! 1%nat = Some (BpfInsn.LdImm64 1 5) /\ m !! 3%nat = Some (BpfInsn.LdImm64Second 0) /\ undecodable m
  | _ => False
  end.
Proof. vm_compute. auto. Qed.
