(* ===== verification/Triage.v ===== *)
(** Triage of findings (src/src/fuzz/triage.rs): grouping by a key that stands for
    the root cause, a representative per group, and an order of analysis.  The
    theorem: the groups partition the findings by their keys, each is represented
    by its least name, they come in the order of priority, and the result does not
    depend on the order in which the findings were made. *)
From Stdlib Require Import ZArith Lia List Bool String.
From stdpp Require Import base option list sorting strings.
From S2P Require Import Prelude Klog Oracle.
Open Scope Z_scope.

(** * Findings and their keys *)

Record Divergence := mkDivergence {
  mini_insn : option Z;
  kernel_insn : option Z;
  concrete_pc : option Z }.

Record Candidate := mkCandidate {
  c_name : string;
  c_finding : Finding;
  c_mini : SideVerdict;
  c_kernel : SideVerdict;
  c_divergence : Divergence }.

Record GroupKey := mkGroupKey {
  k_finding : Finding;
  mini_category : option ReasonCategory;
  kernel_category : option ReasonCategory;
  div_insn : option Z;
  k_concrete_pc : option Z }.
#[global] Instance group_key_eq_dec : EqDecision GroupKey.
Proof. solve_decision. Defined.

Record Group := mkGroup {
  key : GroupKey;
  count : Z;
  representative : string;
  priority : Z }.

Definition category_of (side : SideVerdict) : option ReasonCategory :=
  match side with Diff.Reject category => Some category | _ => None end.

Definition priority_of (finding : Finding) : Z :=
  match finding with
  | Finding.RvSoundnessBug => 4
  | Finding.KernelUnsoundCandidate => 3
  | Finding.SoundnessCandidate | Finding.KernelOverstrictCandidate => 2
  | Finding.PrecisionCandidate => 1
  | _ => 0
  end.

(** [a.or(b)] on options. *)
Definition option_or {A} (a b : option A) : option A := match a with Some _ => a | None => b end.

Definition key_of (c : Candidate) : GroupKey :=
  mkGroupKey (c_finding c) (category_of (c_mini c)) (category_of (c_kernel c))
    (option_or (mini_insn (c_divergence c)) (kernel_insn (c_divergence c))) (concrete_pc (c_divergence c)).

(** * The derived order of the keys *)

(** The place of a constructor in its declaration. *)
Definition finding_rank (f : Finding) : Z :=
  match f with
  | Finding.PrecisionCandidate => 0 | Finding.KernelUnsoundCandidate => 1
  | Finding.KernelOverstrictCandidate => 2 | Finding.SoundnessCandidate => 3 | Finding.RvPrecisionGap => 4
  | Finding.RvSoundnessBug => 5 | Finding.RvPanic => 6 | Finding.Agree => 7 | Finding.Whitelisted => 8
  | Finding.SurfaceGap => 9 | Finding.Inconclusive => 10 | Finding.Skipped => 11
  end.
Definition category_rank (c : ReasonCategory) : Z :=
  match c with
  | UninitRead => 0 | StackBounds => 1 | StackAlign => 2 | PointerArith => 3 | HelperArgs => 4 | CfgJump => 5
  | Loop => 6 | Unreachable => 7 | ExitR0 => 8 | Complexity => 9 | Ref => 10 | Other => 11
  end.

(** [None] comes before every [Some]. *)
Definition option_code {A} (rank : A -> Z) (o : option A) : list Z :=
  match o with None => [0; 0] | Some a => [1; rank a] end.

Definition key_code (k : GroupKey) : list Z :=
  finding_rank (k_finding k) :: option_code category_rank (mini_category k) ++
  option_code category_rank (kernel_category k) ++ option_code id (div_insn k) ++ option_code id (k_concrete_pc k).

(** Field by field. *)
Fixpoint lex (a b : list Z) : comparison :=
  match a, b with
  | [], [] => Eq
  | [], _ => Lt
  | _, [] => Gt
  | x :: a, y :: b => match x ?= y with Eq => lex a b | c => c end
  end.

Definition key_compare (k k' : GroupKey) : comparison := lex (key_code k) (key_code k').

(** * Grouping *)

(** [counts.entry(key).or_insert((0, name)).0 += 1], on the sorted entries of the map. *)
Fixpoint bump (k : GroupKey) (name : string) (counts : list (GroupKey * (Z * string)))
  : list (GroupKey * (Z * string)) :=
  match counts with
  | [] => [(k, (1, name))]
  | (k', (n, r)) :: rest =>
      match key_compare k k' with
      | Lt => (k, (1, name)) :: counts
      | Eq => (k', (n + 1, r)) :: rest
      | Gt => (k', (n, r)) :: bump k name rest
      end
  end.

Definition name_le (a b : Candidate) : Prop := String.le (c_name a) (c_name b).
#[global] Instance name_le_dec : RelDecision name_le.
Proof. intros a b. unfold name_le. apply _. Defined.

Definition counts_of (candidates : list Candidate) : list (GroupKey * (Z * string)) :=
  fold_left (fun counts c => bump (key_of c) (c_name c) counts) (merge_sort name_le candidates) [].

Definition group_of (entry : GroupKey * (Z * string)) : Group :=
  let '(k, (n, r)) := entry in mkGroup k n r (priority_of (k_finding k)).

(** [b.priority.cmp(&a.priority).then_with(|| a.key.cmp(&b.key))]. *)
Definition group_compare (a b : Group) : comparison :=
  match priority b ?= priority a with Eq => key_compare (key a) (key b) | c => c end.
Definition group_le (a b : Group) : Prop := group_compare a b <> Gt.
#[global] Instance group_le_dec : RelDecision group_le.
Proof. intros a b. unfold group_le. apply _. Defined.

Definition group (candidates : list Candidate) : list Group :=
  merge_sort group_le (map group_of (counts_of candidates)).


(** * The order of the keys is total *)

Lemma lex_eq a b : lex a b = Eq <-> a = b.
Proof.
  split; [|intros ->; induction b as [|y b IH]; cbn; [done|by rewrite Z.compare_refl]].
  revert b. induction a as [|x a IH]; intros [|y b]; cbn; try done.
  destruct (Z.compare_spec x y) as [->| |]; try done. intros H. f_equal. by apply IH.
Qed.

Lemma lex_opp a b : lex b a = CompOpp (lex a b).
Proof.
  revert b. induction a as [|x a IH]; intros [|y b]; cbn; try done.
  rewrite (Z.compare_antisym x y). destruct (x ?= y); cbn; [apply IH|done|done].
Qed.

Lemma lex_trans a b c : lex a b = Lt -> lex b c = Lt -> lex a c = Lt.
Proof.
  revert b c. induction a as [|x a IH]; intros [|y b] [|z c]; cbn; try done.
  destruct (Z.compare_spec x y) as [->| |], (Z.compare_spec y z) as [->| |]; try done; intros H1 H2;
    first [by eapply IH|by destruct (Z.compare_spec x z); [lia| |lia]|by rewrite (proj2 (Z.compare_lt_iff _ _))].
Qed.

Lemma option_code_inj {A} (rank : A -> Z) (Hr : forall x y, rank x = rank y -> x = y) o o' rest rest' :
  option_code rank o ++ rest = option_code rank o' ++ rest' -> o = o' /\ rest = rest'.
Proof. destruct o as [x|], o' as [y|]; cbn; intros [= ]; try done. split; [f_equal; auto|done]. Qed.

Lemma key_code_inj k k' : key_code k = key_code k' -> k = k'.
Proof.
  destruct k as [f m kk d c], k' as [f' m' kk' d' c']. unfold key_code. cbn [k_finding mini_category kernel_category div_insn k_concrete_pc].
  assert (Hf : forall x y, finding_rank x = finding_rank y -> x = y) by (intros [] []; done).
  assert (Hc : forall x y, category_rank x = category_rank y -> x = y) by (intros [] []; done).
  intros [= E1 E]. apply Hf in E1 as ->. apply option_code_inj in E as [-> E]; [|done].
  apply option_code_inj in E as [-> E]; [|done]. apply option_code_inj in E as [-> E]; [|done].
  rewrite <- (app_nil_r (option_code id c)), <- (app_nil_r (option_code id c')) in E.
  by apply option_code_inj in E as [-> _].
Qed.

Lemma key_compare_eq k k' : key_compare k k' = Eq <-> k = k'.
Proof. unfold key_compare. rewrite lex_eq. split; [apply key_code_inj|by intros ->]. Qed.

Lemma key_compare_opp k k' : key_compare k' k = CompOpp (key_compare k k').
Proof. apply lex_opp. Qed.

Lemma key_compare_trans k1 k2 k3 : key_compare k1 k2 = Lt -> key_compare k2 k3 = Lt -> key_compare k1 k3 = Lt.
Proof. apply lex_trans. Qed.

(** * The map of counts *)

Abbreviation entry := (GroupKey * (Z * string))%type.

Definition entry_lt (a b : entry) : Prop := key_compare (fst a) (fst b) = Lt.
Abbreviation ordered := (Sorted.StronglySorted entry_lt).

Fixpoint entry_at (k : GroupKey) (counts : list entry) : option (Z * string) :=
  match counts with
  | [] => None
  | (k', v) :: rest => if decide (k = k') then Some v else entry_at k rest
  end.

Lemma entry_at_absent k counts : Forall (fun e => key_compare k (fst e) = Lt) counts -> entry_at k counts = None.
Proof.
  induction 1 as [|[k' v] rest Hk _ IH]; [done|]. cbn [entry_at fst] in *.
  rewrite decide_False; [done|]. intros ->. by rewrite (proj2 (key_compare_eq k' k') eq_refl) in Hk.
Qed.

Lemma ordered_above k v rest k' :
  ordered ((k, v) :: rest) -> key_compare k' k = Lt -> Forall (fun e => key_compare k' (fst e) = Lt) ((k, v) :: rest).
Proof.
  intros [_ Hf]%Sorted.StronglySorted_inv Hk. constructor; [done|]. eapply Forall_impl; [done|].
  intros e He. by eapply key_compare_trans.
Qed.

Lemma bump_keys k name counts e : e ∈ bump k name counts -> fst e = k \/ exists e', e' ∈ counts /\ fst e' = fst e.
Proof.
  induction counts as [|[k' [n r]] rest IH]; cbn [bump]; [intros ->%list_elem_of_singleton; by left|].
  destruct (key_compare k k'); rewrite ?elem_of_cons.
  - intros [->|Hin]; right; [exists (k', (n, r))|exists e]; (split; [rewrite elem_of_cons; auto|done]).
  - intros [->|[->|Hin]]; [by left|right; exists (k', (n, r))|right; exists e]; (split; [rewrite elem_of_cons; auto|done]).
  - intros [->|Hin]; [right; exists (k', (n, r)); split; [rewrite elem_of_cons; auto|done]|].
    destruct (IH Hin) as [|(e' & He' & ?)]; [by left|right; exists e'; split; [rewrite elem_of_cons; auto|done]].
Qed.

Lemma bump_ordered k name counts : ordered counts -> ordered (bump k name counts).
Proof.
  induction counts as [|[k' [n r]] rest IH]; intros Ho; cbn [bump]; [by repeat constructor|].
  destruct (key_compare k k') eqn:E.
  - apply Sorted.StronglySorted_inv in Ho as [Ho Hf]. by constructor.
  - constructor; [done|]. by eapply ordered_above.
  - pose proof Ho as [Ho' Hf]%Sorted.StronglySorted_inv. constructor; [by apply IH|]. apply Forall_forall. intros e He.
    apply bump_keys in He as [He|(e' & He' & Hk)]; unfold entry_lt; cbn [fst].
    + rewrite He, key_compare_opp, E. done.
    + rewrite <- Hk. rewrite Forall_forall in Hf. by apply (Hf e').
Qed.

Lemma bump_at k name counts q : ordered counts ->
  entry_at q (bump k name counts) =
  if decide (q = k) then Some (match entry_at k counts with Some (n, r) => (n + 1, r) | None => (1, name) end)
  else entry_at q counts.
Proof.
  induction counts as [|[k' [n r]] rest IH]; intros Ho; cbn [bump].
  { cbn [entry_at]. by destruct (decide (q = k)). }
  destruct (key_compare k k') eqn:E; cbn [entry_at].
  - apply key_compare_eq in E as ->. rewrite (decide_True (P := k' = k')) by done. by destruct (decide (q = k')).
  - rewrite (entry_at_absent k) by (by eapply Forall_inv_tail, ordered_above).
    rewrite (decide_False (P := k = k')); [done|]. intros ->. by rewrite (proj2 (key_compare_eq k' k') eq_refl) in E.
  - assert (k <> k') as Hne by (intros ->; by rewrite (proj2 (key_compare_eq k' k') eq_refl) in E).
    rewrite (decide_False (P := k = k')) by done. rewrite IH by (by apply Sorted.StronglySorted_inv in Ho as [? _]).
    destruct (decide (q = k')) as [->|]; [by rewrite decide_False|done].
Qed.

(** Sorted entries are determined by what is found under each key. *)
Lemma ordered_unique l1 : forall l2, ordered l1 -> ordered l2 -> (forall k, entry_at k l1 = entry_at k l2) -> l1 = l2.
Proof.
  induction l1 as [|[k1 v1] l1 IH]; intros [|[k2 v2] l2] H1 H2 He; [done| | |].
  - specialize (He k2). cbn in He. by rewrite decide_True in He.
  - specialize (He k1). cbn in He. by rewrite decide_True in He.
  - assert (k1 = k2) as ->.
    { apply key_compare_eq. destruct (key_compare k1 k2) eqn:E; [done| |].
      - pose proof (He k1) as Hk. rewrite (entry_at_absent k1 ((k2, v2) :: l2)) in Hk by (by eapply ordered_above).
        cbn in Hk. by rewrite decide_True in Hk.
      - pose proof (He k2) as Hk. rewrite (entry_at_absent k2 ((k1, v1) :: l1)) in Hk.
        + cbn in Hk. by rewrite decide_True in Hk.
        + eapply ordered_above; [done|]. by rewrite key_compare_opp, E. }
    pose proof (He k2) as Hv. cbn in Hv. rewrite !decide_True in Hv by done. injection Hv as ->. f_equal.
    apply Sorted.StronglySorted_inv in H1 as [H1 F1]. apply Sorted.StronglySorted_inv in H2 as [H2 F2].
    apply IH; [done..|]. intros k. specialize (He k). cbn in He. destruct (decide (k = k2)) as [->|]; [|done].
    by rewrite !entry_at_absent.
Qed.

(** * The counts of a list of candidates *)

Abbreviation with_key k := (filter (fun c => key_of c = k)).

(** The number of candidates and the name of the first. *)
Definition summary (l : list Candidate) : option (Z * string) :=
  match l with [] => None | c :: _ => Some (Z.of_nat (length l), c_name c) end.

Lemma summary_snoc l c : summary (l ++ [c]) =
  Some (match summary l with Some (n, r) => (n + 1, r) | None => (1, c_name c) end).
Proof. destruct l as [|c' l]; [done|]. cbn [app summary length]. rewrite length_app. cbn [length]. do 2 f_equal. lia. Qed.

Abbreviation fold_counts l := (fold_left (fun counts c => bump (key_of c) (c_name c) counts) l []).

Lemma fold_counts_at l : ordered (fold_counts l) /\ forall k, entry_at k (fold_counts l) = summary (with_key k l).
Proof.
  induction l as [|c l [IHo IH]] using rev_ind; [split; [constructor|done]|].
  rewrite fold_left_app. cbn [fold_left]. split; [by apply bump_ordered|]. intros k.
  rewrite bump_at, IH, filter_app by done. cbn [filter list_filter]. destruct (decide (k = key_of c)) as [->|Hne].
  - rewrite decide_True by done. rewrite summary_snoc. done.
  - rewrite decide_False by done. by rewrite app_nil_r, IH.
Qed.


(** * The order of the names *)

#[local] Instance name_le_trans : Transitive name_le.
Proof. intros a b c Hab Hbc. unfold name_le in *. by etrans. Qed.
#[local] Instance name_le_total : Total name_le.
Proof. intros a b. unfold name_le. apply (total String.le). Qed.

Lemma sorted_filter_names k l :
  Sorted.StronglySorted name_le l -> Sorted.StronglySorted name_le (with_key k l).
Proof.
  induction 1 as [|c l Hl IH Hf]; [constructor|]. cbn [filter list_filter]. destruct (decide _); [|done].
  constructor; [done|]. rewrite !Forall_forall in *. intros x [_ Hx]%list_elem_of_filter. by apply Hf.
Qed.

(** Summaries do not see the order of equal names. *)
Lemma summary_permuted l l' :
  Sorted.StronglySorted name_le l -> Sorted.StronglySorted name_le l' -> l ≡ₚ l' -> summary l = summary l'.
Proof.
  intros Hl Hl' Hp. pose proof (Permutation_length Hp) as Hn. destruct l as [|c l], l' as [|c' l']; try done.
  cbn [summary]. do 2 f_equal; [by rewrite Hn|].
  apply Sorted.StronglySorted_inv in Hl as [_ Hc]. apply Sorted.StronglySorted_inv in Hl' as [_ Hc'].
  rewrite Forall_forall in Hc, Hc'.
  assert (H1 : name_le c' c).
  { assert (Hin : c ∈ c' :: l') by (rewrite <- Hp; by left). apply elem_of_cons in Hin as [->|Hin]; [|by apply Hc'].
    apply (reflexivity (R := String.le)). }
  assert (H2 : name_le c c').
  { assert (Hin : c' ∈ c :: l) by (rewrite Hp; by left). apply elem_of_cons in Hin as [->|Hin]; [|by apply Hc].
    apply (reflexivity (R := String.le)). }
  by apply (anti_symm String.le).
Qed.

Lemma counts_at cs k : entry_at k (counts_of cs) = summary (with_key k (merge_sort name_le cs)).
Proof. apply fold_counts_at. Qed.

Lemma counts_ordered cs : ordered (counts_of cs).
Proof. apply fold_counts_at. Qed.

Lemma names_sorted cs : Sorted.StronglySorted name_le (merge_sort name_le cs).
Proof. apply (StronglySorted_merge_sort name_le). Qed.

Lemma counts_permuted cs cs' : cs ≡ₚ cs' -> counts_of cs = counts_of cs'.
Proof.
  intros Hp. apply ordered_unique; [apply counts_ordered..|]. intros k. rewrite !counts_at.
  apply summary_permuted; [apply sorted_filter_names, names_sorted..|].
  apply filter_Permutation. by rewrite !merge_sort_Permutation.
Qed.

(** * The groups *)

Lemma group_le_iff a b :
  group_le a b <-> priority b < priority a \/ priority a = priority b /\ key_compare (key a) (key b) <> Gt.
Proof.
  unfold group_le, group_compare. destruct (Z.compare_spec (priority b) (priority a)) as [E|E|E]; split; try done.
  - intros H. right. split; [lia|done].
  - by intros [?|[_ H]]; [lia|].
  - intros _. by left.
  - intros [?|[? _]]; lia.
Qed.

Lemma key_le_trans k1 k2 k3 : key_compare k1 k2 <> Gt -> key_compare k2 k3 <> Gt -> key_compare k1 k3 <> Gt.
Proof.
  destruct (key_compare k1 k2) eqn:E1, (key_compare k2 k3) eqn:E2; try done; intros _ _;
    try (apply key_compare_eq in E1 as ->); try (apply key_compare_eq in E2 as ->); rewrite ?E1, ?E2; try done.
  - by rewrite (proj2 (key_compare_eq k3 k3) eq_refl).
  - by rewrite (key_compare_trans _ _ _ E1 E2).
Qed.

#[local] Instance group_le_trans : Transitive group_le.
Proof.
  intros a b c. rewrite !group_le_iff. intros [?|[? H1]] [?|[? H2]]; [left; lia..|].
  right. split; [lia|]. by eapply key_le_trans.
Qed.
#[local] Instance group_le_total : Total group_le.
Proof.
  intros a b. rewrite !group_le_iff. rewrite (key_compare_opp (key a) (key b)).
  destruct (Z.lt_trichotomy (priority a) (priority b)) as [?|[?|?]]; [right; by left| |left; by left].
  destruct (key_compare (key a) (key b)); [left|left|right]; right; done.
Qed.

Lemma entry_at_found k v counts : ordered counts -> (k, v) ∈ counts <-> entry_at k counts = Some v.
Proof.
  induction counts as [|[k' v'] rest IH]; intros Ho; cbn [entry_at]; [split; [by intros ?%not_elem_of_nil|done]|].
  apply Sorted.StronglySorted_inv in Ho as [Ho Hf]. rewrite elem_of_cons, IH by done.
  destruct (decide (k = k')) as [->|Hne].
  - assert (Hno : entry_at k' rest = None) by (by apply entry_at_absent). rewrite Hno.
    split; [intros [[= ->]|]; done|intros [= ->]; by left].
  - split; [intros [[= ]|]; done|by right].
Qed.

Lemma ordered_nodup counts : ordered counts -> NoDup (map fst counts).
Proof.
  induction 1 as [|[k v] rest Ho IH Hf]; [constructor|]. cbn [map fst]. constructor; [|done].
  intros ([k' v'] & Hk & Hin)%list_elem_of_fmap. cbn [fst] in Hk. subst k'. rewrite Forall_forall in Hf.
  specialize (Hf _ Hin). unfold entry_lt in Hf. cbn [fst] in Hf. by rewrite (proj2 (key_compare_eq _ _) eq_refl) in Hf.
Qed.

(** Each group comes from the candidates of its key. *)
Lemma group_summary cs g : g ∈ group cs <->
  summary (with_key (key g) (merge_sort name_le cs)) = Some (count g, representative g) /\
  priority g = priority_of (k_finding (key g)).
Proof.
  unfold group. rewrite merge_sort_Permutation, list_elem_of_fmap. rewrite <- counts_at. split.
  - intros ([k [n r]] & -> & Hin). cbn [group_of key count representative priority]. split; [|done].
    apply entry_at_found; [apply counts_ordered|done].
  - intros [Hs Hp]. exists (key g, (count g, representative g)). split; [destruct g; cbn in *; by subst|].
    apply entry_at_found; [apply counts_ordered|done].
Qed.

Lemma keys_distinct cs : NoDup (map key (group cs)).
Proof.
  unfold group. rewrite merge_sort_Permutation, map_map.
  erewrite map_ext; [apply ordered_nodup, counts_ordered|]. by intros [k [n r]].
Qed.

(** * Properties *)

(** C36: the groups partition the findings. There is one group for each key of a
    finding; it counts the findings with the key and is represented by the least
    of their names; groups of a higher priority come first, those of one priority in
    the order of their keys; and the result is the same for any order of the findings. *)
Theorem group_exact (cs : list Candidate) :
  NoDup (map key (group cs)) /\
  (forall c, c ∈ cs -> exists g, g ∈ group cs /\ key g = key_of c) /\
  (forall g, g ∈ group cs ->
     count g = Z.of_nat (length (with_key (key g) cs)) /\ priority g = priority_of (k_finding (key g)) /\
     (exists c, c ∈ cs /\ key_of c = key g /\ c_name c = representative g) /\
     (forall c, c ∈ cs -> key_of c = key g -> String.le (representative g) (c_name c))) /\
  Sorted.StronglySorted (fun a b => priority b < priority a \/
     priority a = priority b /\ key_compare (key a) (key b) <> Gt) (group cs) /\
  (forall cs', cs ≡ₚ cs' -> group cs = group cs').
Proof.
  assert (Hsame : forall k, with_key k (merge_sort name_le cs) ≡ₚ with_key k cs).
  { intros k. apply filter_Permutation, merge_sort_Permutation. }
  split_and!.
  - apply keys_distinct.
  - intros c Hc. set (l := with_key (key_of c) (merge_sort name_le cs)).
    assert (Hin : c ∈ l) by (subst l; rewrite Hsame; by apply list_elem_of_filter).
    destruct l as [|c0 l0] eqn:El; [by apply not_elem_of_nil in Hin|].
    exists (mkGroup (key_of c) (Z.of_nat (length l)) (c_name c0) (priority_of (k_finding (key_of c)))).
    split; [|done]. apply group_summary. cbn [key count representative priority]. subst l. by rewrite El.
  - intros g [Hs Hp]%group_summary. specialize (Hsame (key g)). pose proof (sorted_filter_names (key g) _ (names_sorted cs)) as Hsort.
    destruct (with_key (key g) (merge_sort name_le cs)) as [|c0 l0] eqn:El; [done|]. cbn [summary] in Hs.
    injection Hs as Hn Hr. split_and!; [by rewrite <- Hn, <- Hsame|done| |].
    + assert (Hin : c0 ∈ with_key (key g) cs) by (rewrite <- Hsame; by left).
      apply list_elem_of_filter in Hin as [Hk Hin]. by exists c0.
    + intros c Hc Hk. rewrite <- Hr. assert (Hin : c ∈ c0 :: l0) by (rewrite Hsame; by apply list_elem_of_filter).
      apply Sorted.StronglySorted_inv in Hsort as [_ Hf]. rewrite Forall_forall in Hf.
      apply elem_of_cons in Hin as [->|Hin]; [apply (reflexivity (R := String.le))|by apply (Hf c)].
  - pose proof (StronglySorted_merge_sort group_le (map group_of (counts_of cs))) as Hs. fold (group cs) in Hs.
    induction Hs as [|g l Hl IH Hf]; constructor; [done|]. eapply Forall_impl; [done|]. by intros g' Hg'%group_le_iff.
  - intros cs' Hp. unfold group. by rewrite (counts_permuted cs cs' Hp).
Qed.

(** Two findings of one cause and one of another, in two orders. *)
Definition triage_example : list Candidate :=
  let d := mkDivergence None (Some 3) None in
  [mkCandidate "b" Finding.PrecisionCandidate Diff.Accept (Diff.Reject Loop) d;
   mkCandidate "c" Finding.RvSoundnessBug Diff.Accept Diff.Accept d;
   mkCandidate "a" Finding.PrecisionCandidate Diff.Accept (Diff.Reject Loop) d].

Lemma group_exact_witness :
  group triage_example = group (rev triage_example) /\
  map (fun g => (representative g, count g, priority g)) (group triage_example) = [("c"%string, 1, 4); ("a"%string, 2, 1)].
Proof.
  split; [|vm_compute; reflexivity].
  apply (group_exact triage_example). apply Permutation_rev.
Defined.
