(* ===== verification/Smt.v ===== *)
(** The soundness harness of the abstract operators (src/src/smt/mod.rs, tnum.rs,
    range.rs, verify.rs, and bin/smt_verify.rs): the encodings of the operators as
    bit-vector terms, the queries to the solver, the exhaustive and the random
    checks.  The solver is an interface whose laws are the semantics of SMT-LIB.
    The theorems: the encodings compute what the Rust operators compute; a
    violation a query reports is a counterexample and an unsatisfiable query is a
    proof; and a run of the whole harness finds nothing. *)
From Stdlib Require Import ZArith Lia List Bool String Btauto.
From stdpp Require Import base option list numbers.
From S2P Require Import Prelude Tnum SpecRange.
Open Scope Z_scope.

(** * The solver *)

Inductive SatResult (M : Type) := Sat (m : M) | Unsat | Unknown.
Arguments Sat {M} m.
Arguments Unsat {M}.
Arguments Unknown {M}.

(** What the code calls of the z3 crate. [fresh_const n w] is the [n]-th constant
    that is made in a context, [check] the answer to a list of assertions with the
    model of a satisfiable one, [eval] the number a model gives to a term. *)
Class Z3 := {
  BV : Type;
  Bool : Type;
  Model : Type;
  from_u64 : Z -> Z -> BV;
  fresh_const : nat -> Z -> BV;
  bvnot : BV -> BV;
  bvadd : BV -> BV -> BV;
  bvsub : BV -> BV -> BV;
  bvmul : BV -> BV -> BV;
  bvand : BV -> BV -> BV;
  bvor : BV -> BV -> BV;
  bvxor : BV -> BV -> BV;
  bvshl : BV -> BV -> BV;
  bvlshr : BV -> BV -> BV;
  bvashr : BV -> BV -> BV;
  zero_ext : Z -> BV -> BV;
  extract : Z -> Z -> BV -> BV;
  ite : Bool -> BV -> BV -> BV;
  bveq : BV -> BV -> Bool;
  bvuge : BV -> BV -> Bool;
  bvule : BV -> BV -> Bool;
  bvugt : BV -> BV -> Bool;
  ball : list Bool -> Bool;
  bnot : Bool -> Bool;
  check : list Bool -> SatResult Model;
  eval : Model -> BV -> Z
}.

(** The value of a shift, with the counts of SMT-LIB. *)
Definition shifted_left (w x k : Z) : Z := if k <? w then as_u w (Z.shiftl x k) else 0.
Definition shifted_right (w x k : Z) : Z := if k <? w then Z.shiftr x k else 0.
Definition shifted_signed (w x k : Z) : Z := as_u w (Z.shiftr (as_i w x) (Z.min k w)).

(** The documented meaning: a term has a width, a model gives it a word of that
    width, the operations are those of the words, the constants are free, and the
    solver's answers are right. *)
Class SmtLib `{Z3} := {
  width : BV -> Z;
  value : Model -> BV -> Z;
  holds : Model -> Bool -> bool;
  value_range : forall m t, 0 <= value m t < 2 ^ width t;
  eval_value : forall m t, width t <= 64 -> eval m t = value m t;
  const_spec : forall m v w, 0 < w -> 0 <= v < 2 ^ w -> width (from_u64 v w) = w /\ value m (from_u64 v w) = v;
  fresh_width : forall n w, 0 < w -> width (fresh_const n w) = w;
  fresh_free : forall f : nat -> Z, exists m, forall n w, 0 < w -> value m (fresh_const n w) = f n mod 2 ^ w;
  not_spec : forall m x, width (bvnot x) = width x /\ value m (bvnot x) = unot (width x) (value m x);
  binary_spec : forall m x y, width x = width y ->
    (width (bvadd x y) = width x /\ value m (bvadd x y) = wadd (width x) (value m x) (value m y)) /\
    (width (bvsub x y) = width x /\ value m (bvsub x y) = wsub (width x) (value m x) (value m y)) /\
    (width (bvmul x y) = width x /\ value m (bvmul x y) = wmul (width x) (value m x) (value m y)) /\
    (width (bvand x y) = width x /\ value m (bvand x y) = Z.land (value m x) (value m y)) /\
    (width (bvor x y) = width x /\ value m (bvor x y) = Z.lor (value m x) (value m y)) /\
    (width (bvxor x y) = width x /\ value m (bvxor x y) = Z.lxor (value m x) (value m y)) /\
    (width (bvshl x y) = width x /\ value m (bvshl x y) = shifted_left (width x) (value m x) (value m y)) /\
    (width (bvlshr x y) = width x /\ value m (bvlshr x y) = shifted_right (width x) (value m x) (value m y)) /\
    (width (bvashr x y) = width x /\ value m (bvashr x y) = shifted_signed (width x) (value m x) (value m y));
  zero_ext_spec : forall m n x, 0 <= n -> width (zero_ext n x) = width x + n /\ value m (zero_ext n x) = value m x;
  extract_spec : forall m hi lo x, 0 <= lo <= hi -> hi < width x ->
    width (extract hi lo x) = hi - lo + 1 /\ value m (extract hi lo x) = as_u (hi - lo + 1) (Z.shiftr (value m x) lo);
  ite_spec : forall m c x y, width x = width y ->
    width (ite c x y) = width x /\ value m (ite c x y) = if holds m c then value m x else value m y;
  compare_spec : forall m x y, width x = width y ->
    holds m (bveq x y) = (value m x =? value m y) /\ holds m (bvuge x y) = (value m y <=? value m x) /\
    holds m (bvule x y) = (value m x <=? value m y) /\ holds m (bvugt x y) = (value m y <? value m x);
  ball_spec : forall m fs, holds m (ball fs) = forallb (holds m) fs;
  bnot_spec : forall m f, holds m (bnot f) = negb (holds m f);
  check_sat : forall fs m, check fs = Sat m -> forallb (holds m) fs = true;
  check_unsat : forall fs, check fs = Unsat -> forall m, forallb (holds m) fs = false
}.

(** * Encodings of the tracked-number operators (smt/tnum.rs) *)

Section encodings.
Context `{Z3}.

Record SymTnum := mkSymTnum { sym_value : BV; sym_mask : BV }.
Record SymRange := mkSymRange { sym_lo : BV; sym_hi : BV }.

Definition concretize (t : SymTnum) (x : BV) : Bool :=
  let known := bvnot (sym_mask t) in bveq (bvand x known) (bvand (sym_value t) known).

Definition encode_add (a b : SymTnum) : SymTnum :=
  let sm := bvadd (sym_mask a) (sym_mask b) in
  let sv := bvadd (sym_value a) (sym_value b) in
  let sigma := bvadd sm sv in
  let chi := bvxor sigma sv in
  let mu := bvor (bvor chi (sym_mask a)) (sym_mask b) in
  mkSymTnum (bvand sv (bvnot mu)) mu.

Definition encode_sub (a b : SymTnum) : SymTnum :=
  let dv := bvsub (sym_value a) (sym_value b) in
  let alpha := bvadd dv (sym_mask a) in
  let beta := bvsub dv (sym_mask b) in
  let chi := bvxor alpha beta in
  let mu := bvor (bvor chi (sym_mask a)) (sym_mask b) in
  mkSymTnum (bvand dv (bvnot mu)) mu.

Definition encode_xor (a b : SymTnum) : SymTnum :=
  let value := bvxor (sym_value a) (sym_value b) in
  let mask := bvor (sym_mask a) (sym_mask b) in
  mkSymTnum (bvand value (bvnot mask)) mask.

Definition encode_and (a b : SymTnum) : SymTnum :=
  let alpha := bvor (sym_value a) (sym_mask a) in
  let beta := bvor (sym_value b) (sym_mask b) in
  let value := bvand (sym_value a) (sym_value b) in
  mkSymTnum value (bvxor (bvand alpha beta) value).

Definition encode_or (a b : SymTnum) : SymTnum :=
  let known_one :=
    bvor (bvand (sym_value a) (bvnot (sym_mask a))) (bvand (sym_value b) (bvnot (sym_mask b))) in
  let known_zero :=
    bvand (bvand (bvand (bvnot (sym_value a)) (bvnot (sym_mask a))) (bvnot (sym_value b))) (bvnot (sym_mask b)) in
  mkSymTnum known_one (bvnot (bvor known_one known_zero)).

Definition encode_lshift (a : SymTnum) (k : BV) : SymTnum := mkSymTnum (bvshl (sym_value a) k) (bvshl (sym_mask a) k).
Definition encode_rshift (a : SymTnum) (k : BV) : SymTnum := mkSymTnum (bvlshr (sym_value a) k) (bvlshr (sym_mask a) k).
Definition encode_arshift (a : SymTnum) (k : BV) : SymTnum := mkSymTnum (bvashr (sym_value a) k) (bvashr (sym_mask a) k).

(** * Encodings of the interval operators (smt/range.rs) *)

Definition RANGE_WIDTH : Z := 64.
Definition full_range : BV * BV := (from_u64 0 RANGE_WIDTH, from_u64 U64_MAX RANGE_WIDTH).

Definition in_range (x : BV) (r : SymRange) : Bool := ball [bvuge x (sym_lo r); bvule x (sym_hi r)].

Definition encode_uadd (a b : SymRange) : BV * BV :=
  let lo := bvadd (zero_ext 1 (sym_lo a)) (zero_ext 1 (sym_lo b)) in
  let hi := bvadd (zero_ext 1 (sym_hi a)) (zero_ext 1 (sym_hi b)) in
  let same_block := bveq (extract 64 64 lo) (extract 64 64 hi) in
  (ite same_block (extract 63 0 lo) (from_u64 0 64), ite same_block (extract 63 0 hi) (from_u64 U64_MAX 64)).

Definition encode_usub (a b : SymRange) : BV * BV :=
  let dlo := bvsub (sym_lo a) (sym_hi b) in
  let span := bvadd (zero_ext 1 (bvsub (sym_hi a) (sym_lo a))) (zero_ext 1 (bvsub (sym_hi b) (sym_lo b))) in
  let span_ok := bveq (extract 64 64 span) (from_u64 0 1) in
  let fold_ok := bveq (extract 64 64 (bvadd (zero_ext 1 dlo) span)) (from_u64 0 1) in
  let ok := ball [span_ok; fold_ok] in
  let dhi := bvadd dlo (extract 63 0 span) in
  let '(fl, fh) := full_range in
  (ite ok dlo fl, ite ok dhi fh).

Definition encode_umul (a b : SymRange) : BV * BV :=
  let both_const := ball [bveq (sym_lo a) (sym_hi a); bveq (sym_lo b) (sym_hi b)] in
  let prod := bvmul (sym_lo a) (sym_lo b) in
  let '(fl, fh) := full_range in
  (ite both_const prod fl, ite both_const prod fh).

Definition encode_uor (a b : SymRange) : BV * BV :=
  (ite (bvugt (sym_lo a) (sym_lo b)) (sym_lo a) (sym_lo b), from_u64 U64_MAX 64).

Definition encode_uxor (a b : SymRange) : BV * BV := (from_u64 0 64, from_u64 U64_MAX 64).

End encodings.

(** * The harness (smt/verify.rs) *)

Inductive InputClass := Exhaustive (width : Z) | Symbolic | SymbolicShift (k : Z) | Random.

(** The numbers of the rendered inputs and of the counterexample. *)
Record Violation := mkViolation {
  operator : string;
  input_class : InputClass;
  inputs : list Z;
  counterexample : list Z }.

Module TnumConcreteOp.
Inductive TnumConcreteOp := Add | Sub | Xor | And | Or.
Definition apply (op : TnumConcreteOp) (x y : Z) : Z :=
  match op with
  | Add => wadd 64 x y | Sub => wsub 64 x y | Xor => Z.lxor x y | And => Z.land x y | Or => Z.lor x y
  end.
Definition apply_bv `{Z3} (op : TnumConcreteOp) (x y : BV) : BV :=
  match op with
  | Add => bvadd x y | Sub => bvsub x y | Xor => bvxor x y | And => bvand x y | Or => bvor x y
  end.
End TnumConcreteOp.
Abbreviation TnumConcreteOp := TnumConcreteOp.TnumConcreteOp.

Definition rust_tnum_op (op : TnumConcreteOp) : Tnum -> Tnum -> Tnum :=
  match op with
  | TnumConcreteOp.Add => tnum_add | TnumConcreteOp.Sub => tnum_sub | TnumConcreteOp.Xor => tnum_xor
  | TnumConcreteOp.And => tnum_and | TnumConcreteOp.Or => tnum_or
  end.
Definition encode_tnum_op `{Z3} (op : TnumConcreteOp) : SymTnum -> SymTnum -> SymTnum :=
  match op with
  | TnumConcreteOp.Add => encode_add | TnumConcreteOp.Sub => encode_sub | TnumConcreteOp.Xor => encode_xor
  | TnumConcreteOp.And => encode_and | TnumConcreteOp.Or => encode_or
  end.
Definition op_name (op : TnumConcreteOp) : string :=
  match op with
  | TnumConcreteOp.Add => "tnum_add" | TnumConcreteOp.Sub => "tnum_sub" | TnumConcreteOp.Xor => "tnum_xor"
  | TnumConcreteOp.And => "tnum_and" | TnumConcreteOp.Or => "tnum_or"
  end.

(** [for x in xs { ... }]: a body goes on with [inl] and returns with [inr]. *)
Fixpoint for_in {A S R} (xs : list A) (body : A -> S -> S + R) (s : S) : S + R :=
  match xs with
  | [] => inl s
  | x :: xs => match body x s with inl s => for_in xs body s | inr r => inr r end
  end.
Definition either {S} (r : S + S) : S := match r with inl s => s | inr s => s end.

(** [0..=max] and [lo..=hi]. *)
Definition through (lo hi : Z) : list Z := seqZ lo (hi - lo + 1).

(** The largest value of a width; the shift panics above 64. *)
Definition width_max (w : Z) : option Z :=
  if w =? 64 then Some U64_MAX else if w <? 64 then Some (Z.shiftl 1 w - 1) else None.

Definition tnum_members (t : Tnum) (wmask : Z) : list Z :=
  let value := Z.land (tvalue t) wmask in
  let mask := Z.land (tmask t) wmask in
  filter (fun v => Z.land v (unot 64 mask) = Z.land value (unot 64 mask)) (through 0 wmask).

(** The normalized tracked numbers of a width, in the order of the loops. *)
Definition for_tnums {S R} (max : Z) (body : Tnum -> S -> S + R) (s : S) : S + R :=
  for_in (through 0 max) (fun v s =>
    for_in (through 0 max) (fun m s =>
      if negb (Z.land v m =? 0) then inl s else body (mkTnum v m) s) s) s.

(** The first pair of members whose result is outside. *)
Definition outside_pair (f : Z -> Z -> Z) (max : Z) (out : Tnum) (xs ys : list Z) : option (list Z) :=
  let out_v := Z.land (tvalue out) max in
  let out_m := Z.land (tmask out) max in
  match for_in xs (fun x _ =>
    for_in ys (fun y _ =>
      let r := Z.land (f x y) max in
      if negb (Z.land r (unot 64 out_m) =? Z.land out_v (unot 64 out_m)) then inr [x; y; r; out_v; out_m]
      else inl tt) tt) tt with
  | inl _ => None
  | inr cex => Some cex
  end.

(** The exhaustive check of the operator [rust] against [f]; [None] is a panic. *)
Definition exhaustive_tnum (name : string) (rust : Tnum -> Tnum -> option Tnum) (f : Z -> Z -> Z)
  (w limit : Z) : option (list Violation) :=
  max ← width_max w;
  match for_tnums max (fun a =>
    let members_a := tnum_members a max in
    for_tnums max (fun b violations =>
      match rust a b with
      | None => inr None
      | Some out =>
          let violations :=
            match outside_pair f max out members_a (tnum_members b max) with
            | Some cex =>
                violations ++ [mkViolation name (Exhaustive w) [tvalue a; tmask a; tvalue b; tmask b] cex]
            | None => violations
            end in
          if limit <=? Z.of_nat (length violations) then inr (Some violations) else inl violations
      end)) [] with
  | inl violations => Some violations
  | inr r => r
  end.

Definition exhaustive_tnum_binary (op : TnumConcreteOp) (w : Z) : option (list Violation) :=
  exhaustive_tnum (op_name op) (fun a b => Some (rust_tnum_op op a b)) (TnumConcreteOp.apply op) w 1000000.
Definition exhaustive_tnum_mul (w : Z) : option (list Violation) :=
  exhaustive_tnum "tnum_mul" tnum_mul (wmul 64) w 100000.

(** * Queries to the solver *)

Section queries.
Context `{Z3}.

(** The assertions of a query: normalized operands, their members, and a result
    outside of what the encoding gives. *)
Definition outside (out : SymTnum) (r : BV) : Bool :=
  let known := bvnot (sym_mask out) in bnot (bveq (bvand r known) (bvand (sym_value out) known)).
Definition normalized (t : SymTnum) : Bool := bveq (bvand (sym_value t) (sym_mask t)) (from_u64 0 64).

Definition tnum_query (out a b : SymTnum) (x y r : BV) : list Bool :=
  [ball [normalized a; normalized b]; concretize a x; concretize b y; outside out r].

(** One round with the constants from [base] on. *)
Definition tnum_round (name : string) (encode : SymTnum -> SymTnum -> SymTnum) (apply_bv : BV -> BV -> BV)
  (base : nat) : option Violation :=
  let a := mkSymTnum (fresh_const base 64) (fresh_const (base + 1) 64) in
  let b := mkSymTnum (fresh_const (base + 2) 64) (fresh_const (base + 3) 64) in
  let x := fresh_const (base + 4) 64 in
  let y := fresh_const (base + 5) 64 in
  let out := encode a b in
  let r := apply_bv x y in
  match check (tnum_query out a b x y r) with
  | Sat m =>
      Some (mkViolation name Symbolic
              [eval m (sym_value a); eval m (sym_mask a); eval m (sym_value b); eval m (sym_mask b)]
              [eval m x; eval m y; eval m r; eval m (sym_value out); eval m (sym_mask out)])
  | _ => None
  end.

(** [for round in 0..limit.max(1)], until the limit is reached; a round makes six constants. *)
Definition symbolic_rounds (limit : nat) (round : nat -> option Violation) : list Violation :=
  either (for_in (seq 0 (Nat.max limit 1)) (fun i violations =>
    match round (6 * i)%nat with
    | None => inl violations
    | Some v =>
        let violations := violations ++ [v] in
        if (limit <=? length violations)%nat then inr violations else inl violations
    end) []).

Definition symbolic_tnum_binary (op : TnumConcreteOp) (limit : nat) : list Violation :=
  symbolic_rounds limit (tnum_round (op_name op) (encode_tnum_op op) (TnumConcreteOp.apply_bv op)).

Definition shift_ops : list (string * (SymTnum -> BV -> SymTnum) * (BV -> BV -> BV)) :=
  [("tnum_lshift"%string, encode_lshift, bvshl); ("tnum_rshift"%string, encode_rshift, bvlshr);
   ("tnum_arshift"%string, encode_arshift, bvashr)].

(** One shift operator with the constant count [k]. *)
Definition shift_round (op : string * (SymTnum -> BV -> SymTnum) * (BV -> BV -> BV)) (k : Z) (base : nat)
  : option Violation :=
  let '(name, enc, apply) := op in
  let a := mkSymTnum (fresh_const base 64) (fresh_const (base + 1) 64) in
  let x := fresh_const (base + 2) 64 in
  let kk := from_u64 k 64 in
  let out := enc a kk in
  let r := apply x kk in
  match check [concretize a x; outside out r] with
  | Sat m =>
      Some (mkViolation name (SymbolicShift k) [eval m (sym_value a); eval m (sym_mask a)]
              [eval m x; eval m r; eval m (sym_value out); eval m (sym_mask out)])
  | _ => None
  end.

Definition symbolic_tnum_shifts (limit : nat) : list Violation :=
  either (for_in (seq 0 64) (fun k =>
    for_in (combine (seq 0 3) shift_ops) (fun op violations =>
      match shift_round (snd op) (Z.of_nat k) (3 * (3 * k + fst op)) with
      | None => inl violations
      | Some v =>
          let violations := violations ++ [v] in
          if (limit <=? length violations)%nat then inr violations else inl violations
      end)) []).
End queries.

(** * The interval operators *)

Module RangeOp.
Inductive RangeOp := Add | Sub | Mul | Or | Xor.
Definition name (op : RangeOp) : string :=
  match op with
  | Add => "range_add" | Sub => "range_sub" | Mul => "range_mul" | Or => "range_or" | Xor => "range_xor"
  end.
(** The result of the operator on two words. *)
Definition apply (op : RangeOp) (x y : Z) : Z :=
  match op with
  | Add => wadd 64 x y | Sub => wsub 64 x y | Mul => wmul 64 x y | Or => Z.lor x y | Xor => Z.lxor x y
  end.
Definition apply_bv `{Z3} (op : RangeOp) (x y : BV) : BV :=
  match op with Add => bvadd x y | Sub => bvsub x y | Mul => bvmul x y | Or => bvor x y | Xor => bvxor x y end.
Definition rust (op : RangeOp) : Range -> Range -> Range :=
  match op with Add => rng_add | Sub => rng_sub | Mul => rng_mul | Or => rng_or | Xor => rng_xor end.
Definition encode `{Z3} (op : RangeOp) : SymRange -> SymRange -> BV * BV :=
  match op with
  | Add => encode_uadd | Sub => encode_usub | Mul => encode_umul | Or => encode_uor | Xor => encode_uxor
  end.
End RangeOp.
Abbreviation RangeOp := RangeOp.RangeOp.

(** [a + b], [a - b] and a shift of [u64]s, with the panic of an overflow. *)
Abbreviation cadd a b := (checked 0 U64_MAX (a + b)).
Abbreviation csub a b := (checked 0 U64_MAX (a - b)).
Definition cshl1 (w : Z) : option Z := if w <? 64 then Some (Z.shiftl 1 w) else None.
Definition cshr (x w : Z) : option Z := if w <? 64 then Some (Z.shiftr x w) else None.

(** The interval arithmetic of a width. *)
Definition range_op_w (op : RangeOp) (a b : Range) (w : Z) : option Range :=
  wmask ← width_max w;
  match op with
  | RangeOp.Add =>
      lo ← cadd (fst a) (fst b);
      hi ← cadd (snd a) (snd b);
      top_lo ← cshr lo w;
      top_hi ← cshr hi w;
      Some (if top_lo =? top_hi then (Z.land lo wmask, Z.land hi wmask) else (0, wmask))
  | RangeOp.Sub =>
      let dlo := Z.land (wsub 64 (fst a) (snd b)) wmask in
      da ← csub (snd a) (fst a);
      db ← csub (snd b) (fst b);
      span ← cadd da db;
      block ← cshl1 w;
      if span <? block then
        dhi ← cadd dlo span;
        Some (if dhi <? block then (dlo, dhi) else (0, wmask))
      else Some (0, wmask)
  | RangeOp.Mul =>
      Some (if (fst a =? snd a) && (fst b =? snd b)
            then let p := Z.land (wmul 64 (fst a) (fst b)) wmask in (p, p) else (0, wmask))
  | RangeOp.Or => Some (Z.land (Z.max (fst a) (fst b)) wmask, wmask)
  | RangeOp.Xor => Some (0, wmask)
  end.

(** The first members whose result is outside, among the first million and one. *)
Definition outside_range (op : RangeOp) (max : Z) (out a b : Range) : option (list Z) :=
  match for_in (through (fst a) (snd a)) (fun x =>
    for_in (through (fst b) (snd b)) (fun y checked =>
      let r := Z.land (RangeOp.apply op x y) max in
      if (r <? fst out) || (snd out <? r) then inr (Some [x; y; r; fst out; snd out])
      else if 1000000 <? checked + 1 then inr None else inl (checked + 1))) 0 with
  | inl _ => None
  | inr cex => cex
  end.

Definition for_ranges {S R} (max : Z) (body : Range -> S -> S + R) (s : S) : S + R :=
  for_in (through 0 max) (fun lo => for_in (through lo max) (fun hi => body (lo, hi))) s.

Definition exhaustive_range_binary (op : RangeOp) (w : Z) : option (list Violation) :=
  max ← width_max w;
  match for_ranges max (fun a =>
    for_ranges max (fun b violations =>
      match range_op_w op a b w with
      | None => inr None
      | Some out =>
          let violations :=
            match outside_range op max out a b with
            | Some cex =>
                violations ++ [mkViolation (RangeOp.name op) (Exhaustive w) [fst a; snd a; fst b; snd b] cex]
            | None => violations
            end in
          if 100000 <=? Z.of_nat (length violations) then inr (Some violations) else inl violations
      end)) [] with
  | inl violations => Some violations
  | inr r => r
  end.

Section range_queries.
Context `{Z3}.

Definition range_query (out : BV * BV) (a b : SymRange) (x y r : BV) : list Bool :=
  [bvule (sym_lo a) (sym_hi a); bvule (sym_lo b) (sym_hi b); in_range x a; in_range y b;
   bnot (ball [bvuge r (fst out); bvule r (snd out)])].

Definition range_round (name : string) (encode : SymRange -> SymRange -> BV * BV) (apply_bv : BV -> BV -> BV)
  (base : nat) : option Violation :=
  let a := mkSymRange (fresh_const base 64) (fresh_const (base + 1) 64) in
  let b := mkSymRange (fresh_const (base + 2) 64) (fresh_const (base + 3) 64) in
  let x := fresh_const (base + 4) 64 in
  let y := fresh_const (base + 5) 64 in
  let out := encode a b in
  let r := apply_bv x y in
  match check (range_query out a b x y r) with
  | Sat m =>
      Some (mkViolation name Symbolic
              [eval m (sym_lo a); eval m (sym_hi a); eval m (sym_lo b); eval m (sym_hi b)]
              [eval m x; eval m y; eval m r; eval m (fst out); eval m (snd out)])
  | _ => None
  end.

Definition symbolic_range_binary (op : RangeOp) (limit : nat) : list Violation :=
  symbolic_rounds limit (range_round (RangeOp.name op) (RangeOp.encode op) (RangeOp.apply_bv op)).
End range_queries.

(** * Random checks *)

(** The state after a draw is also the value drawn. *)
Definition xorshift_next (x : Z) : Z :=
  let x := Z.lxor x (as_u64 (Z.shiftl x 13)) in
  let x := Z.lxor x (Z.shiftr x 7) in
  Z.lxor x (as_u64 (Z.shiftl x 17)).

(** A random member of a normalized tracked number, and the next state. *)
Definition tnum_member (t : Tnum) (rng : Z) : Z * Z :=
  let rng := xorshift_next rng in (Z.lor (tvalue t) (Z.land (tmask t) rng), rng).

Definition random_tnum (rng : Z) : Tnum * Z :=
  let value := xorshift_next rng in
  let mask := xorshift_next value in
  (mkTnum (Z.land value (unot 64 mask)) mask, mask).

Definition random_tnum_mul (pairs members_per_pair : nat) : option (list Violation) :=
  match for_in (seq 0 pairs) (fun _ '(rng, violations) =>
    let '(a, rng) := random_tnum rng in
    let '(b, rng) := random_tnum rng in
    match tnum_mul a b with
    | None => inr None
    | Some out =>
        for_in (seq 0 members_per_pair) (fun _ '(rng, violations) =>
          let '(x, rng) := tnum_member a rng in
          let '(y, rng) := tnum_member b rng in
          let r := wmul 64 x y in
          if negb (Z.land r (unot 64 (tmask out)) =? Z.land (tvalue out) (unot 64 (tmask out))) then
            let violations := violations ++
              [mkViolation "tnum_mul" Random [tvalue a; tmask a; tvalue b; tmask b] [x; y; r; tvalue out; tmask out]] in
            if (100 <=? length violations)%nat then inr (Some violations) else inl (rng, violations)
          else inl (rng, violations)) (rng, violations)
    end) (0x5EED20260817, []) with
  | inl (_, violations) => Some violations
  | inr r => r
  end.

(** Two draws in order, and a member [lo + next() % (hi - lo + 1)], whose addition
    or remainder panics for the full range. *)
Definition random_range (rng : Z) : Range * Z :=
  let x := xorshift_next rng in
  let y := xorshift_next x in
  ((Z.min x y, Z.max x y), y).
Definition range_member (a : Range) (rng : Z) : option (Z * Z) :=
  let rng := xorshift_next rng in
  size ← cadd (snd a - fst a) 1;
  Some (fst a + rng mod size, rng).

Definition random_range_binary (op : RangeOp) (pairs members_per_pair : nat) : option (list Violation) :=
  match for_in (seq 0 pairs) (fun _ '(rng, violations) =>
    let '(a, rng) := random_range rng in
    let '(b, rng) := random_range rng in
    let out := RangeOp.rust op a b in
    for_in (seq 0 members_per_pair) (fun _ '(rng, violations) =>
      match range_member a rng with
      | None => inr None
      | Some (x, rng) =>
          match range_member b rng with
          | None => inr None
          | Some (y, rng) =>
              let r := RangeOp.apply op x y in
              if (r <? fst out) || (snd out <? r) then
                let violations := violations ++
                  [mkViolation (RangeOp.name op) Random [fst a; snd a; fst b; snd b] [x; y; r; fst out; snd out]] in
                if (100 <=? length violations)%nat then inr (Some violations) else inl (rng, violations)
              else inl (rng, violations)
          end
      end) (rng, violations)) (0x8A1120260817, []) with
  | inl (_, violations) => Some violations
  | inr r => r
  end.

(** * The run (bin/smt_verify.rs) *)

(** [violations.extend(...)] with each list in turn. *)
Fixpoint extend_all (lists : list (option (list Violation))) : option (list Violation) :=
  match lists with
  | [] => Some []
  | l :: rest => found ← l; more ← extend_all rest; Some (found ++ more)
  end.

Definition smt_verify_violations `{Z3} : option (list Violation) :=
  extend_all
    (flat_map (fun op => [exhaustive_tnum_binary op 4; exhaustive_tnum_binary op 6; Some (symbolic_tnum_binary op 20)])
       [TnumConcreteOp.Add; TnumConcreteOp.Sub; TnumConcreteOp.Xor; TnumConcreteOp.And; TnumConcreteOp.Or] ++
     [Some (symbolic_tnum_shifts 20); exhaustive_tnum_mul 4; random_tnum_mul 2000 8] ++
     map (fun op => exhaustive_range_binary op 4) [RangeOp.Add; RangeOp.Sub; RangeOp.Mul] ++
     [Some (symbolic_range_binary RangeOp.Add 5); Some (symbolic_range_binary RangeOp.Sub 5)] ++
     map (fun op => random_range_binary op 2000 16) [RangeOp.Add; RangeOp.Sub; RangeOp.Mul]).

(** * Loops that go on *)

(** A loop keeps [P] and only returns with [Q]. *)
Definition goes {S R} (P : S -> Prop) (Q : R -> Prop) (r : S + R) : Prop :=
  match r with inl s => P s | inr r => Q r end.

Lemma for_in_goes {A S R} (P : S -> Prop) (Q : R -> Prop) (xs : list A) body s :
  P s -> (forall x s, x ∈ xs -> P s -> goes P Q (body x s)) -> goes P Q (for_in xs body s).
Proof.
  revert s. induction xs as [|x xs IH]; intros s Hs Hb; cbn [for_in]; [done|].
  pose proof (Hb x s ltac:(left) Hs) as Hx. destruct (body x s) as [s'|r]; [|done].
  apply IH; [done|]. intros y s'' Hy. apply Hb. by right.
Qed.

Abbreviation never := (fun _ => False).

Lemma through_elem lo hi x : x ∈ through lo hi <-> lo <= x <= hi.
Proof. unfold through. rewrite elem_of_seqZ. lia. Qed.

Lemma for_tnums_goes {S R} (P : S -> Prop) (Q : R -> Prop) w max body s :
  width_max w = Some max -> 0 <= w -> P s ->
  (forall t s, tnum_wf t -> tvalue t <= max -> tmask t <= max -> P s -> goes P Q (body t s)) ->
  goes P Q (for_tnums max body s).
Proof.
  intros Hw Hpos Hs Hb. assert (Hmax : max <= U64_MAX).
  { unfold width_max in Hw. destruct (Z.eqb_spec w 64); [injection Hw as <-; lia|].
    destruct (Z.ltb_spec w 64); [|done]. injection Hw as <-. rewrite Z.shiftl_1_l.
    pose proof (Z.pow_le_mono_r 2 w 64 ltac:(lia) ltac:(lia)). lia. }
  apply for_in_goes; [done|]. intros v s' Hv%through_elem Hs'. apply for_in_goes; [done|].
  intros m s'' Hm%through_elem Hs''. destruct (Z.eqb_spec (Z.land v m) 0) as [E|]; cbn [negb]; [|done].
  apply Hb; [|cbn; lia..|done]. split_and!; cbn; lia || done.
Qed.

(** * The exhaustive checks *)

Lemma width_max_ones w max : 0 <= w -> width_max w = Some max -> max = Z.ones w /\ w <= 64.
Proof.
  unfold width_max. intros Hw. destruct (Z.eqb_spec w 64) as [->|]; [by intros [= <-]|].
  destruct (Z.ltb_spec w 64); [|done]. intros [= <-]. split; [|lia]. rewrite Z.ones_equiv, Z.shiftl_1_l. lia.
Qed.

Lemma width_max_bit w max i : 0 <= w -> width_max w = Some max -> 0 <= i -> Z.testbit max i = (i <? w).
Proof. intros Hw [-> _]%width_max_ones Hi; [|done]. by apply Z.testbit_ones_nonneg. Qed.

Lemma width_bound_bit w max v i : 0 <= w -> width_max w = Some max -> 0 <= v <= max -> w <= i -> Z.testbit v i = false.
Proof.
  intros Hw [-> _]%width_max_ones Hv Hi; [|done]. apply (testbit_high w); [|lia].
  rewrite Z.ones_equiv in Hv. lia.
Qed.

(** The members of a tracked number of a small width are members of it as a word. *)
Lemma members_are_members w max t x : 0 <= w -> width_max w = Some max -> tnum_wf t -> tvalue t <= max -> tmask t <= max ->
  x ∈ tnum_members t max -> x ∈γ t.
Proof.
  intros Hw Hmax (Hv & Hm & _) Hvm Hmm. unfold tnum_members.
  rewrite list_elem_of_filter, through_elem. intros [Hx Hr].
  assert (Hid : forall v, 0 <= v <= max -> Z.land v max = v).
  { intros v Hb. pose proof (width_max_ones w max Hw Hmax) as [-> Hw64]. rewrite Z.land_ones by done.
    apply Z.mod_small. rewrite Z.ones_equiv in Hb. lia. }
  rewrite !Hid in Hx by lia. pose proof (width_max_ones w max Hw Hmax) as [Hmo Hw64].
  split; [|by apply Z.eqb_eq]. rewrite Z.ones_equiv in Hmo.
  pose proof (Z.pow_le_mono_r 2 w 64 ltac:(lia) ltac:(lia)). lia.
Qed.

(** A result inside the operator's is inside at a smaller width. *)
Lemma inside_masked w max out r : 0 <= w -> width_max w = Some max -> tnum_wf out -> r ∈γ out ->
  let out_v := Z.land (tvalue out) max in
  let out_m := Z.land (tmask out) max in
  Z.land (Z.land r max) (unot 64 out_m) = Z.land out_v (unot 64 out_m).
Proof.
  intros Hw Hmax Ho Hr. pose proof (gamma_u64 _ _ Hr) as Hu. pose proof Ho as (Hv & Hm & _). cbv zeta.
  apply u64_ext; [eauto with bits..|]. intros i Hi. autorewrite with bits.
  rewrite (width_max_bit w max i) by (done || lia).
  destruct (Z.ltb_spec i w); [|btauto]. rewrite !andb_true_r.
  destruct (Z.testbit (tmask out) i) eqn:E; cbn; [idx; cbn; btauto|].
  by rewrite (tnum_mem_bit out r i Ho Hr Hi E).
Qed.

Definition sound_operator (rust : Tnum -> Tnum -> option Tnum) (f : Z -> Z -> Z) : Prop :=
  forall a b, tnum_wf a -> tnum_wf b -> exists out, rust a b = Some out /\ tnum_wf out /\
  forall x y, x ∈γ a -> y ∈γ b -> f x y ∈γ out.

Lemma no_outside_pair w max f a b out :
  0 <= w -> width_max w = Some max -> tnum_wf a -> tnum_wf b -> tnum_wf out ->
  tvalue a <= max -> tmask a <= max -> tvalue b <= max -> tmask b <= max ->
  (forall x y, x ∈γ a -> y ∈γ b -> f x y ∈γ out) ->
  outside_pair f max out (tnum_members a max) (tnum_members b max) = None.
Proof.
  intros Hw Hmax Ha Hb Ho ? ? ? ? Hf. unfold outside_pair. cbv zeta.
  match goal with |- context [for_in ?xs ?body tt] =>
    assert (Hg : goes (fun _ => True) never (for_in xs body tt)) end.
  - apply for_in_goes; [done|]. intros x _ Hx _. apply for_in_goes; [done|]. intros y _ Hy _.
    rewrite (inside_masked w max out (f x y)) by eauto using members_are_members. by rewrite Z.eqb_refl.
  - by destruct (for_in _ _ tt).
Qed.

Lemma exhaustive_nothing name rust f w limit :
  0 <= w <= 64 -> 0 < limit -> sound_operator rust f -> exhaustive_tnum name rust f w limit = Some [].
Proof.
  intros Hw Hl Hs. unfold exhaustive_tnum. destruct (width_max w) as [max|] eqn:Hmax; cbn [mbind option_bind].
  2: { unfold width_max in Hmax. destruct (Z.eqb_spec w 64); [done|]. destruct (Z.ltb_spec w 64); [done|lia]. }
  match goal with |- match ?r with _ => _ end = _ => assert (Hg : goes (fun v => v = []) never r) end.
  - eapply for_tnums_goes; [done|lia|done|]. intros a s Ha Hva Hma ->.
    eapply for_tnums_goes; [done|lia|done|]. intros b s Hb Hvb Hmb ->.
    destruct (Hs a b Ha Hb) as (out & -> & Ho & Hf).
    rewrite (no_outside_pair w max f a b out) by (done || lia). cbn [length].
    destruct (Z.leb_spec limit (Z.of_nat 0)); [lia|done].
  - destruct (for_tnums _ _ _); [cbn in Hg; by subst|done].
Qed.

Lemma tnum_ops_sound op : sound_operator (fun a b => Some (rust_tnum_op op a b)) (TnumConcreteOp.apply op).
Proof.
  intros a b Ha Hb. exists (rust_tnum_op op a b). split; [done|]. destruct op; cbn [rust_tnum_op TnumConcreteOp.apply].
  - by apply tnum_add_ok.
  - by apply tnum_sub_ok.
  - by apply tnum_xor_ok.
  - by apply tnum_and_ok.
  - by apply tnum_or_ok.
Qed.

Lemma tnum_mul_operator : sound_operator tnum_mul (wmul 64).
Proof. intros a b Ha Hb. by apply tnum_mul_sound. Qed.

Lemma for_ranges_goes {S R} (P : S -> Prop) (Q : R -> Prop) max body s :
  P s -> (forall lo hi s, 0 <= lo <= hi -> hi <= max -> P s -> goes P Q (body (lo, hi) s)) ->
  goes P Q (for_ranges max body s).
Proof.
  intros Hs Hb. apply for_in_goes; [done|]. intros lo s' Hlo%through_elem Hs'.
  apply for_in_goes; [done|]. intros hi s'' Hhi%through_elem Hs''. apply Hb; [lia..|done].
Qed.

Lemma checked_some lo hi x : lo <= x <= hi -> checked lo hi x = Some x.
Proof. unfold checked. intros. destruct (Z.leb_spec lo x), (Z.leb_spec x hi); cbn; lia || done. Qed.

(** The interval arithmetic of a small width over-approximates the words of it. *)
Lemma range_op_w_sound op w max a b :
  0 <= w <= 63 -> width_max w = Some max ->
  0 <= fst a <= snd a -> snd a <= max -> 0 <= fst b <= snd b -> snd b <= max ->
  exists out, range_op_w op a b w = Some out /\
  forall x y, fst a <= x <= snd a -> fst b <= y <= snd b ->
    fst out <= Z.land (RangeOp.apply op x y) max <= snd out.
Proof.
  intros Hw Hmax Ha Ha' Hb Hb'. pose proof (width_max_ones w max ltac:(lia) Hmax) as [Hmo _].
  pose proof (Z.pow_le_mono_r 2 w 63 ltac:(lia) ltac:(lia)) as Hp63.
  assert (Hm1 : max = 2 ^ w - 1) by (rewrite Hmo, Z.ones_equiv; lia).
  assert (Hpos : 0 < 2 ^ w) by lia.
  assert (Hmod : forall x, Z.land x max = x mod 2 ^ w) by (intros x; rewrite Hmo; apply Z.land_ones; lia).
  assert (Hfit : forall x, 0 <= x mod 2 ^ w <= max) by (intros x; pose proof (Z.mod_pos_bound x _ Hpos); lia).
  assert (H64 : forall x, as_u64 x mod 2 ^ w = x mod 2 ^ w).
  { intros x. unfold as_u. apply Z.mod_mod_divide. exists (2 ^ (64 - w)). rewrite <- Z.pow_add_r by lia. f_equal. lia. }
  assert (Hs64 : (w <? 64) = true) by (apply Z.ltb_lt; lia).
  unfold range_op_w. rewrite Hmax. cbn [mbind option_bind].
  assert (Hfull : forall x y, 0 <= Z.land (RangeOp.apply op x y) max <= max) by (intros x y; rewrite Hmod; apply Hfit).
  destruct op.
  - do 2 (rewrite checked_some by lia; cbn [mbind option_bind]). unfold cshr. rewrite Hs64. cbn [mbind option_bind].
    eexists. split; [done|]. intros x y Hx Hy.
    destruct (Z.eqb_spec (Z.shiftr (fst a + fst b) w) (Z.shiftr (snd a + snd b) w)) as [E|_]; [|apply Hfull].
    cbn [fst snd RangeOp.apply]. unfold wadd. rewrite !Hmod, H64. rewrite !Z.shiftr_div_pow2 in E by lia.
    pose proof (Z.div_mod (fst a + fst b) (2 ^ w) ltac:(lia)). pose proof (Z.div_mod (snd a + snd b) (2 ^ w) ltac:(lia)).
    pose proof (Z.div_le_mono (fst a + fst b) (x + y) (2 ^ w) ltac:(lia) ltac:(lia)).
    pose proof (Z.div_le_mono (x + y) (snd a + snd b) (2 ^ w) ltac:(lia) ltac:(lia)).
    pose proof (Z.div_mod (x + y) (2 ^ w) ltac:(lia)). nia.
  - do 3 (rewrite checked_some by lia; cbn [mbind option_bind]). unfold cshl1. rewrite Hs64. cbn [mbind option_bind].
    rewrite Z.shiftl_1_l. unfold wsub. rewrite Hmod, H64.
    set (dlo := (fst a - snd b) mod 2 ^ w). pose proof (Hfit (fst a - snd b)) as Hd. fold dlo in Hd.
    destruct (Z.ltb_spec (snd a - fst a + (snd b - fst b)) (2 ^ w)); [|exists (0, max); split; [done|]; intros; apply Hfull].
    rewrite checked_some by lia. cbn [mbind option_bind]. eexists. split; [done|]. intros x y Hx Hy.
    destruct (Z.ltb_spec (dlo + (snd a - fst a + (snd b - fst b))) (2 ^ w)); [|apply Hfull].
    cbn [fst snd RangeOp.apply]. unfold wsub. rewrite Hmod, H64.
    pose proof (Z.div_mod (fst a - snd b) (2 ^ w) ltac:(lia)) as Hdm. fold dlo in Hdm.
    rewrite <- (Z.mod_unique_pos (x - y) (2 ^ w) ((fst a - snd b) / 2 ^ w) (dlo + (x - y - (fst a - snd b)))); lia.
  - eexists. split; [done|]. intros x y Hx Hy.
    destruct (Z.eqb_spec (fst a) (snd a)) as [E1|], (Z.eqb_spec (fst b) (snd b)) as [E2|]; cbn [andb]; try apply Hfull.
    cbn [fst snd RangeOp.apply]. replace x with (fst a) by lia. replace y with (fst b) by lia. lia.
  - eexists. split; [done|]. intros x y Hx Hy. cbn [fst snd RangeOp.apply].
    assert (Hl : Z.land (Z.lor x y) max = Z.lor x y).
    { rewrite Hmod. apply Z.mod_small. apply bits_range; [lia|]. intros i Hi.
      rewrite Z.lor_spec, !(testbit_high w) by lia. done. }
    rewrite (Hmod (Z.max _ _)), Z.mod_small by lia. pose proof (Hfull x y) as Hf. cbn [RangeOp.apply] in Hf.
    rewrite Hl in *. pose proof (Alu.lor_bounds x y ltac:(lia) ltac:(lia)). lia.
  - eexists. split; [done|]. intros x y _ _. apply Hfull.
Qed.

Lemma exhaustive_range_nothing op w : 0 <= w <= 63 -> exhaustive_range_binary op w = Some [].
Proof.
  intros Hw. unfold exhaustive_range_binary. destruct (width_max w) as [max|] eqn:Hmax; cbn [mbind option_bind].
  2: { unfold width_max in Hmax. destruct (Z.eqb_spec w 64); [done|]. destruct (Z.ltb_spec w 64); [done|lia]. }
  match goal with |- match ?r with _ => _ end = _ => assert (Hg : goes (fun v => v = []) never r) end.
  - apply for_ranges_goes; [done|]. intros lo hi s ? ? ->. apply for_ranges_goes; [done|]. intros lo2 hi2 s ? ? ->.
    destruct (range_op_w_sound op w max (lo, hi) (lo2, hi2)) as (out & -> & Hin); [done|done|cbn; lia..|].
    assert (Hno : outside_range op max out (lo, hi) (lo2, hi2) = None).
    { unfold outside_range. match goal with |- match ?r with _ => _ end = _ =>
        assert (Hg : goes (fun _ => True) (fun c => c = None) r); [|by destruct r] end.
      apply for_in_goes; [done|]. intros x s Hx%through_elem _. apply for_in_goes; [done|]. intros y c Hy%through_elem _.
      specialize (Hin x y Hx Hy). cbv zeta.
      destruct (Z.ltb_spec (Z.land (RangeOp.apply op x y) max) (fst out)); [lia|].
      destruct (Z.ltb_spec (snd out) (Z.land (RangeOp.apply op x y) max)); [lia|]. cbn [orb].
      by destruct (_ <? _). }
    by rewrite Hno.
  - destruct (for_ranges _ _ _); [cbn in Hg; by subst|done].
Qed.

(** * The random checks *)

Lemma xorshift_nonzero x : is_u64 x -> x <> 0 -> is_u64 (xorshift_next x) /\ xorshift_next x <> 0.
Proof.
  intros Hx Hnz. unfold xorshift_next.
  assert (Hleft : forall k z, 0 < k < 64 -> is_u64 z -> z <> 0 ->
    is_u64 (Z.lxor z (as_u64 (Z.shiftl z k))) /\ Z.lxor z (as_u64 (Z.shiftl z k)) <> 0).
  { intros k z Hk Hz Hn. split; [eauto with bits|]. intros E%Z.lxor_eq. apply Hn.
    apply u64_ext; [done|lia|]. intros i Hi. rewrite Z.testbit_0_l.
    assert (Hall : forall n : nat, forall j, 0 <= j < 64 -> j < Z.of_nat n -> Z.testbit z j = false).
    { induction n as [|n IH]; intros j Hj Hn'; [lia|]. rewrite E. autorewrite with bits.
      destruct (Z.lt_ge_cases j k); [rewrite (Z.testbit_neg_r z) by lia|rewrite IH by lia]; btauto. }
    apply (Hall 64%nat); lia. }
  destruct (Hleft 13 x ltac:(lia) Hx Hnz) as [H1 N1]. set (x1 := Z.lxor x _) in *.
  assert (H2 : is_u64 (Z.lxor x1 (Z.shiftr x1 7)) /\ Z.lxor x1 (Z.shiftr x1 7) <> 0).
  { assert (is_u64 (Z.shiftr x1 7)) by (rewrite Z.shiftr_div_pow2 by lia; div_lia).
    split; [by apply lxor_u64|]. intros E%Z.lxor_eq. rewrite Z.shiftr_div_pow2 in E by lia. div_lia. }
  apply Hleft; [lia|apply H2|apply H2].
Qed.

Abbreviation live g := (is_u64 g%Z /\ g%Z <> 0).

Lemma random_tnum_wf rng : live rng -> tnum_wf (fst (random_tnum rng)) /\ live (snd (random_tnum rng)).
Proof.
  intros [H1 N1]. destruct (xorshift_nonzero _ H1 N1) as [H2 N2]. destruct (xorshift_nonzero _ H2 N2) as [H3 N3].
  split; [by apply masked_wf|done].
Qed.

Lemma tnum_member_mem t rng : tnum_wf t -> live rng -> fst (tnum_member t rng) ∈γ t /\ live (snd (tnum_member t rng)).
Proof.
  intros Ht [H1 N1]. destruct (xorshift_nonzero _ H1 N1) as [H2 N2]. split; [|done]. pose proof Ht as (Hv & Hm & _).
  cbn [tnum_member fst]. apply tnum_mem_bits; [done..|]. split; [eauto with bits|]. intros i Hi E.
  autorewrite with bits. rewrite E. cbn. btauto.
Qed.

Lemma random_mul_nothing pairs members : random_tnum_mul pairs members = Some [].
Proof.
  unfold random_tnum_mul.
  match goal with |- match ?r with _ => _ end = _ =>
    assert (Hg : goes (fun '(rng, v) => live rng /\ v = []) never r) end.
  - apply for_in_goes; [done|]. intros _ [rng v] _ [Hrng ->].
    destruct (random_tnum_wf rng Hrng) as [Ha H1]. destruct (random_tnum rng) as [a rng1]. cbn [fst snd] in *.
    destruct (random_tnum_wf rng1 H1) as [Hb H2]. destruct (random_tnum rng1) as [b rng2]. cbn [fst snd] in *.
    destruct (tnum_mul_operator a b Ha Hb) as (out & -> & Ho & Hf).
    apply for_in_goes; [done|]. intros _ [rng3 v] _ [H3 ->].
    destruct (tnum_member_mem a rng3 Ha H3) as [Hx H4]. destruct (tnum_member a rng3) as [x rng4]. cbn [fst snd] in *.
    destruct (tnum_member_mem b rng4 Hb H4) as [Hy H5]. destruct (tnum_member b rng4) as [y rng5]. cbn [fst snd] in *.
    destruct (Hf x y Hx Hy) as [_ Hc]. unfold tnum_contains in Hc. rewrite Hc. done.
  - destruct (for_in _ _ _) as [[rng v]|]; [destruct Hg as [_ ->]; done|done].
Qed.

Lemma random_range_wf rng : live rng ->
  abs_wf (fst (random_range rng)) /\ 0 < fst (fst (random_range rng)) /\ live (snd (random_range rng)).
Proof.
  intros [H1 N1]. destruct (xorshift_nonzero _ H1 N1) as [H2 N2]. destruct (xorshift_nonzero _ H2 N2) as [H3 N3].
  unfold random_range. cbv zeta. cbn [fst snd abs_wf range_abstraction]. split_and!; lia.
Qed.

Lemma range_member_mem a rng : abs_wf a -> 0 < fst a -> live rng ->
  exists x rng', range_member a rng = Some (x, rng') /\ x ∈γ a /\ live rng'.
Proof.
  intros (Ha0 & Ha1 & Ha2) Hp [H1 N1]. destruct (xorshift_nonzero _ H1 N1) as [H2 N2]. unfold range_member.
  rewrite checked_some by lia. cbn [mbind option_bind]. eexists _, _. split; [done|]. split; [|done].
  pose proof (Z.mod_pos_bound (xorshift_next rng) (snd a - fst a + 1) ltac:(lia)). cbn. lia.
Qed.

Lemma range_ops_sound op : sound2 (RangeOp.rust op) (RangeOp.apply op).
Proof. destruct op; [apply rng_add_ok|apply rng_sub_ok|apply rng_mul_ok|apply rng_or_ok|apply rng_xor_ok]. Qed.

Lemma random_range_nothing op pairs members : random_range_binary op pairs members = Some [].
Proof.
  unfold random_range_binary.
  match goal with |- match ?r with _ => _ end = _ =>
    assert (Hg : goes (fun '(rng, v) => live rng /\ v = []) never r) end.
  - apply for_in_goes; [done|]. intros _ [rng v] _ [Hrng ->].
    destruct (random_range_wf rng Hrng) as (Ha & Hpa & H1). destruct (random_range rng) as [a rng1]. cbn [fst snd] in *.
    destruct (random_range_wf rng1 H1) as (Hb & Hpb & H2). destruct (random_range rng1) as [b rng2]. cbn [fst snd] in *.
    apply for_in_goes; [done|]. intros _ [rng3 v] _ [H3 ->].
    destruct (range_member_mem a rng3 Ha Hpa H3) as (x & rng4 & -> & Hx & H4).
    destruct (range_member_mem b rng4 Hb Hpb H4) as (y & rng5 & -> & Hy & H5).
    destruct (proj2 (range_ops_sound op a b Ha Hb) x y Hx Hy) as [_ [Hl Hh]]. cbv zeta.
    destruct (Z.ltb_spec (RangeOp.apply op x y) (fst (RangeOp.rust op a b))); [lia|].
    destruct (Z.ltb_spec (snd (RangeOp.rust op a b)) (RangeOp.apply op x y)); [lia|]. done.
  - destruct (for_in _ _ _) as [[rng v]|]; [destruct Hg as [_ ->]; done|done].
Qed.

(** * The encodings compute the operators *)

Section meaning.
Context {z3 : Z3} {laws : SmtLib}.

(** A term of width [w] with the value [v] in [m]. *)
Definition word (m : Model) (w : Z) (t : BV) (v : Z) : Prop := width t = w /\ value m t = v.

Lemma word_value m t : word m (width t) t (value m t).
Proof using. done. Qed.

Lemma word_const m v w : 0 < w -> 0 <= v < 2 ^ w -> word m w (from_u64 v w) v.
Proof using. intros. by apply const_spec. Qed.

Lemma word_not m w x a : word m w x a -> word m w (bvnot x) (unot w a).
Proof using. intros [<- <-]. apply not_spec. Qed.

Section binary.
Context (m : Model) (w : Z) (x y : BV) (a b : Z) (Hx : word m w x a) (Hy : word m w y b).
#[local] Ltac op := destruct Hx as [<- <-], Hy as [Hw <-]; apply (binary_spec m x y); done.
Lemma word_add : word m w (bvadd x y) (wadd w a b). Proof using Hx Hy. op. Qed.
Lemma word_sub : word m w (bvsub x y) (wsub w a b). Proof using Hx Hy. op. Qed.
Lemma word_mul : word m w (bvmul x y) (wmul w a b). Proof using Hx Hy. op. Qed.
Lemma word_and : word m w (bvand x y) (Z.land a b). Proof using Hx Hy. op. Qed.
Lemma word_or : word m w (bvor x y) (Z.lor a b). Proof using Hx Hy. op. Qed.
Lemma word_xor : word m w (bvxor x y) (Z.lxor a b). Proof using Hx Hy. op. Qed.
Lemma word_shl : word m w (bvshl x y) (shifted_left w a b). Proof using Hx Hy. op. Qed.
Lemma word_lshr : word m w (bvlshr x y) (shifted_right w a b). Proof using Hx Hy. op. Qed.
Lemma word_ashr : word m w (bvashr x y) (shifted_signed w a b). Proof using Hx Hy. op. Qed.
Lemma word_ite c : word m w (ite c x y) (if holds m c then a else b).
Proof using Hx Hy. destruct Hx as [<- <-], Hy as [Hw <-]. by apply ite_spec. Qed.
Lemma word_equal : holds m (bveq x y) = (a =? b).
Proof using Hx Hy. destruct Hx as [<- <-], Hy as [Hw <-]. by apply (compare_spec m x y). Qed.
Lemma word_uge : holds m (bvuge x y) = (b <=? a).
Proof using Hx Hy. destruct Hx as [<- <-], Hy as [Hw <-]. by apply (compare_spec m x y). Qed.
Lemma word_ule : holds m (bvule x y) = (a <=? b).
Proof using Hx Hy. destruct Hx as [<- <-], Hy as [Hw <-]. by apply (compare_spec m x y). Qed.
Lemma word_ugt : holds m (bvugt x y) = (b <? a).
Proof using Hx Hy. destruct Hx as [<- <-], Hy as [Hw <-]. by apply (compare_spec m x y). Qed.
End binary.

Lemma word_ext m w n x a : 0 <= n -> word m w x a -> word m (w + n) (zero_ext n x) a.
Proof using. intros Hn [<- <-]. by apply zero_ext_spec. Qed.

Lemma word_extract m w hi lo x a : 0 <= lo <= hi -> hi < w -> word m w x a ->
  word m (hi - lo + 1) (extract hi lo x) (as_u (hi - lo + 1) (Z.shiftr a lo)).
Proof using. intros Hl Hh [<- <-]. by apply extract_spec. Qed.

(** What a symbolic operand stands for in a model. *)
Definition stands (m : Model) (t : SymTnum) (a : Tnum) : Prop :=
  word m 64 (sym_value t) (tvalue a) /\ word m 64 (sym_mask t) (tmask a).
Definition spans (m : Model) (r : BV * BV) (a : Range) : Prop := word m 64 (fst r) (fst a) /\ word m 64 (snd r) (snd a).

Create HintDb words.
#[local] Hint Resolve word_not word_add word_sub word_mul word_and word_or word_xor word_shl word_lshr word_ashr
  word_ite : words.

Lemma encode_op_stands m op s t a b : stands m s a -> stands m t b ->
  stands m (encode_tnum_op op s t) (rust_tnum_op op a b).
Proof using.
  intros [Hv Hm] [Hv' Hm'].
  destruct op; unfold stands; cbn [encode_tnum_op rust_tnum_op]; unfold encode_add, encode_sub, encode_xor, encode_and,
    encode_or, tnum_add, tnum_sub, tnum_xor, tnum_and, tnum_or, tnum_known_ones; cbn [sym_value sym_mask tvalue tmask];
    rewrite ?Z.land_assoc; split; eauto 20 with words.
Qed.

Lemma shifted_left_word x k : shifted_left 64 x k = shl64 x k.
Proof using. done. Qed.
Lemma shifted_signed_word x k : 0 <= k -> is_u64 x -> shifted_signed 64 x k = sar64 x k.
Proof using.
  intros Hk Hx. unfold shifted_signed, sar64. destruct (Z.ltb_spec k 64); [by rewrite Z.min_l by lia|].
  rewrite Z.min_r by lia. pose proof (as_i64_range x) as Hr. rewrite Z.shiftr_div_pow2 by lia.
  destruct (Z.ltb_spec (as_i64 x) 0).
  - replace (as_i64 x / 2 ^ 64) with (-1); [done|]. apply Z.div_unique with (as_i64 x + 2 ^ 64); lia.
  - rewrite Z.div_small by lia. done.
Qed.

(** The three shift encodings and what they stand for. *)
Lemma encode_shift_stands m s a k kk : 0 <= k -> stands m s a -> is_u64 (tvalue a) -> is_u64 (tmask a) -> word m 64 kk k ->
  stands m (encode_lshift s kk) (tnum_lshift a k) /\ stands m (encode_rshift s kk) (tnum_rshift a k) /\
  stands m (encode_arshift s kk) (tnum_arshift a k).
Proof using.
  intros Hk [Hv Hm] Hv64 Hm64 Hkk. unfold stands, tnum_lshift, tnum_rshift, tnum_arshift. cbn [encode_lshift encode_rshift
    encode_arshift sym_value sym_mask tvalue tmask]. rewrite <- !shifted_signed_word by done.
  split_and!; [by apply word_shl|by apply word_shl|by apply word_lshr|by apply word_lshr|by apply word_ashr|by apply word_ashr].
Qed.

Lemma full_spans m : spans m full_range FULL.
Proof using. split; apply (word_const m _ 64); cbn; lia. Qed.

Lemma top_bit a : 0 <= a < 2 ^ 65 -> as_u 1 (Z.shiftr a 64) = Z.shiftr a 64.
Proof using. intros Ha. rewrite Z.shiftr_div_pow2 by lia. apply as_u_small. div_lia. Qed.

Lemma encode_uadd_spans m s t a b : abs_wf a -> abs_wf b -> spans m (sym_lo s, sym_hi s) a -> spans m (sym_lo t, sym_hi t) b ->
  spans m (encode_uadd s t) (rng_add a b).
Proof using.
  intros Ha Hb [Hl Hh] [Hl' Hh']. range_facts.
  assert (Hlo : word m 65 (bvadd (zero_ext 1 (sym_lo s)) (zero_ext 1 (sym_lo t))) (fst a + fst b)).
  { rewrite <- (as_u_small 65 (fst a + fst b)) by lia. apply word_add; by apply (word_ext m 64 1). }
  assert (Hhi : word m 65 (bvadd (zero_ext 1 (sym_hi s)) (zero_ext 1 (sym_hi t))) (snd a + snd b)).
  { rewrite <- (as_u_small 65 (snd a + snd b)) by lia. apply word_add; by apply (word_ext m 64 1). }
  pose proof (word_extract m 65 64 64 _ _ ltac:(lia) ltac:(lia) Hlo) as Tl.
  pose proof (word_extract m 65 64 64 _ _ ltac:(lia) ltac:(lia) Hhi) as Th.
  pose proof (word_extract m 65 63 0 _ _ ltac:(lia) ltac:(lia) Hlo) as Bl.
  pose proof (word_extract m 65 63 0 _ _ ltac:(lia) ltac:(lia) Hhi) as Bh.
  change (64 - 64 + 1) with 1 in *. change (63 - 0 + 1) with 64 in *. rewrite !top_bit in Tl, Th by lia.
  rewrite Z.shiftr_0_r in *. unfold encode_uadd, rng_add, spans. cbv zeta.
  pose proof (word_ite m 64 _ _ _ _ Bl (word_const m 0 64 ltac:(lia) ltac:(lia))) as Il.
  pose proof (word_ite m 64 _ _ _ _ Bh (word_const m U64_MAX 64 ltac:(lia) ltac:(lia))) as Ih.
  specialize (Il (bveq (extract 64 64 (bvadd (zero_ext 1 (sym_lo s)) (zero_ext 1 (sym_lo t))))
    (extract 64 64 (bvadd (zero_ext 1 (sym_hi s)) (zero_ext 1 (sym_hi t)))))).
  specialize (Ih (bveq (extract 64 64 (bvadd (zero_ext 1 (sym_lo s)) (zero_ext 1 (sym_lo t))))
    (extract 64 64 (bvadd (zero_ext 1 (sym_hi s)) (zero_ext 1 (sym_hi t)))))).
  rewrite (word_equal _ _ _ _ _ _ Tl Th) in Il, Ih. by destruct (_ =? _).
Qed.

Lemma bit_zero m t a : 0 <= a < 2 ^ 65 -> word m 65 t a ->
  holds m (bveq (extract 64 64 t) (from_u64 0 1)) = (a <? 2 ^ 64).
Proof using.
  intros Ha Ht. pose proof (word_extract m 65 64 64 _ _ ltac:(lia) ltac:(lia) Ht) as Hb.
  change (64 - 64 + 1) with 1 in Hb. rewrite top_bit in Hb by done.
  rewrite (word_equal _ _ _ _ _ _ Hb (word_const m 0 1 ltac:(lia) ltac:(lia))). rewrite Z.shiftr_div_pow2 by lia.
  destruct (Z.eqb_spec (a / 2 ^ 64) 0), (Z.ltb_spec a (2 ^ 64)); div_lia || done.
Qed.

Lemma encode_usub_spans m s t a b : abs_wf a -> abs_wf b -> spans m (sym_lo s, sym_hi s) a -> spans m (sym_lo t, sym_hi t) b ->
  spans m (encode_usub s t) (rng_sub a b).
Proof using.
  intros Ha Hb [Hl Hh] [Hl' Hh']. range_facts.
  set (span := snd a - fst a + (snd b - fst b)). set (dlo := wsub 64 (fst a) (snd b)).
  assert (Hdlo : word m 64 (bvsub (sym_lo s) (sym_hi t)) dlo) by (by apply word_sub).
  assert (Hd : is_u64 dlo) by (apply as_u64_range).
  assert (Hspan : word m 65 (bvadd (zero_ext 1 (bvsub (sym_hi s) (sym_lo s))) (zero_ext 1 (bvsub (sym_hi t) (sym_lo t)))) span).
  { rewrite <- (as_u_small 65 span) by lia. apply word_add; apply (word_ext m 64 1); [lia| |lia|].
    - rewrite <- (as_u_small 64 (snd a - fst a)) by lia. by apply word_sub.
    - rewrite <- (as_u_small 64 (snd b - fst b)) by lia. by apply word_sub. }
  pose proof (bit_zero m _ span ltac:(lia) Hspan) as Hok.
  pose proof (word_add m 65 _ _ _ _ (word_ext m 64 1 _ _ ltac:(lia) Hdlo) Hspan) as Hfold.
  pose proof (bit_zero m _ _ (as_u_range 65 _ ltac:(lia)) Hfold) as Hok2.
  pose proof (word_extract m 65 63 0 _ _ ltac:(lia) ltac:(lia) Hspan) as Hlow.
  change (63 - 0 + 1) with 64 in Hlow. rewrite Z.shiftr_0_r in Hlow.
  destruct (full_spans m) as [Hfl Hfh]. cbn [fst snd full_range FULL] in Hfl, Hfh.
  pose proof (word_ite m 64 _ _ _ _ Hdlo Hfl) as Il.
  pose proof (word_ite m 64 _ _ _ _ (word_add m 64 _ _ _ _ Hdlo Hlow) Hfh) as Ih.
  unfold encode_usub, rng_sub, spans. cbn [full_range fst snd].
  set (ok := ball _). specialize (Il ok). specialize (Ih ok).
  assert (Hk : holds m ok = (span <? 2 ^ 64) && (dlo + span <? 2 ^ 64)).
  { unfold ok. rewrite ball_spec. cbn [forallb]. rewrite Hok, Hok2, andb_true_r.
    destruct (Z.ltb_spec span (2 ^ 64)); [|done]. unfold wadd. by rewrite (as_u_small 65) by lia. }
  rewrite Hk in Il, Ih. replace (snd a - fst b - (fst a - snd b)) with span by lia.
  change (Z.shiftl 1 64) with (2 ^ 64). fold (as_u64 (fst a - snd b)). fold (wsub 64 (fst a) (snd b)). fold dlo.
  rewrite (as_u64_id dlo) by done.
  destruct (Z.ltb_spec span (2 ^ 64)); [|done]. destruct (Z.ltb_spec (dlo + span) (2 ^ 64)); [|done].
  cbn [andb] in Il, Ih. cbn [fst snd]. split; [done|]. unfold wadd in Ih. rewrite (as_u_small 64 span) in Ih by lia. done.
Qed.

Lemma encode_umul_spans m s t a b : spans m (sym_lo s, sym_hi s) a -> spans m (sym_lo t, sym_hi t) b ->
  spans m (encode_umul s t) (rng_mul a b).
Proof using.
  intros [Hl Hh] [Hl' Hh']. destruct (full_spans m) as [Hfl Hfh]. cbn [fst snd full_range FULL] in *.
  pose proof (word_mul m 64 _ _ _ _ Hl Hl') as Hp.
  pose proof (word_ite m 64 _ _ _ _ Hp Hfl) as Il. pose proof (word_ite m 64 _ _ _ _ Hp Hfh) as Ih.
  unfold encode_umul, rng_mul, spans. cbn [full_range fst snd]. set (c := ball _). specialize (Il c). specialize (Ih c).
  assert (Hc : holds m c = (fst a =? snd a) && (fst b =? snd b)).
  { unfold c. rewrite ball_spec. cbn [forallb]. by rewrite (word_equal _ _ _ _ _ _ Hl Hh), (word_equal _ _ _ _ _ _ Hl' Hh'), andb_true_r. }
  rewrite Hc in Il, Ih. by destruct (_ && _).
Qed.

Lemma encode_range_spans m op s t a b : abs_wf a -> abs_wf b -> spans m (sym_lo s, sym_hi s) a -> spans m (sym_lo t, sym_hi t) b ->
  spans m (RangeOp.encode op s t) (RangeOp.rust op a b).
Proof using.
  intros Ha Hb Hs Ht. destruct op; cbn [RangeOp.encode RangeOp.rust].
  - by apply encode_uadd_spans.
  - by apply encode_usub_spans.
  - by apply encode_umul_spans.
  - destruct Hs as [Hl Hh], Ht as [Hl' Hh']. cbn [fst snd] in *.
    pose proof (word_ite m 64 _ _ _ _ Hl Hl' (bvugt (sym_lo s) (sym_lo t))) as Il.
    rewrite (word_ugt _ _ _ _ _ _ Hl Hl') in Il. split; cbn [encode_uor rng_or fst snd]; [|by apply (word_const m _ 64)].
    destruct (Z.ltb_spec (fst b) (fst a)); [by rewrite Z.max_l by lia|by rewrite Z.max_r by lia].
  - split; cbn [encode_uxor rng_xor FULL fst snd]; by apply (word_const m _ 64).
Qed.

Lemma apply_tnum_word m op x y a b : word m 64 x a -> word m 64 y b ->
  word m 64 (TnumConcreteOp.apply_bv op x y) (TnumConcreteOp.apply op a b).
Proof using. destruct op; cbn; eauto with words. Qed.

Lemma apply_range_word m op x y a b : word m 64 x a -> word m 64 y b ->
  word m 64 (RangeOp.apply_bv op x y) (RangeOp.apply op a b).
Proof using. destruct op; cbn; eauto with words. Qed.

(** * What the queries say *)

Lemma word_is m t a : word m 64 t a -> is_u64 a.
Proof using. intros [Hw <-]. pose proof (value_range m t). rewrite Hw in *. lia. Qed.

Lemma concretize_holds m t a x v : stands m t a -> word m 64 x v -> holds m (concretize t x) = tnum_contains a v.
Proof using.
  intros [Hv Hm] Hx. unfold concretize. pose proof (word_not m 64 _ _ Hm) as Hn.
  by rewrite (word_equal _ _ _ _ _ _ (word_and m 64 _ _ _ _ Hx Hn) (word_and m 64 _ _ _ _ Hv Hn)).
Qed.

Lemma outside_holds m t a x v : stands m t a -> word m 64 x v -> holds m (outside t x) = negb (tnum_contains a v).
Proof using. intros. unfold outside. rewrite bnot_spec. f_equal. by apply concretize_holds. Qed.

Lemma normalized_holds m t a : stands m t a -> holds m (normalized t) = (Z.land (tvalue a) (tmask a) =? 0).
Proof using.
  intros [Hv Hm]. apply (word_equal _ _ _ _ _ _ (word_and m 64 _ _ _ _ Hv Hm) (word_const m 0 64 ltac:(lia) ltac:(lia))).
Qed.

(** A query asks for well-formed operands with members whose result is outside. *)
Lemma tnum_query_holds m out a b x y r o ta tb vx vy vr :
  stands m out o -> stands m a ta -> stands m b tb -> word m 64 x vx -> word m 64 y vy -> word m 64 r vr ->
  forallb (holds m) (tnum_query out a b x y r) = true <->
  tnum_wf ta /\ tnum_wf tb /\ vx ∈γ ta /\ vy ∈γ tb /\ ~ vr ∈γ o.
Proof using.
  intros Ho Ha Hb Hx Hy Hr. cbn [tnum_query forallb]. rewrite ball_spec. cbn [forallb].
  rewrite (normalized_holds m a ta Ha), (normalized_holds m b tb Hb), (concretize_holds m a ta x vx),
    (concretize_holds m b tb y vy), (outside_holds m out o r vr) by done.
  rewrite !andb_true_r, !andb_true_iff, !Z.eqb_eq, negb_true_iff.
  pose proof (word_is m _ _ Hx). pose proof (word_is m _ _ Hy). pose proof (word_is m _ _ Hr).
  destruct Ha as [Ha1%word_is Ha2%word_is], Hb as [Hb1%word_is Hb2%word_is].
  unfold gamma, tnum_abstraction, tnum_mem, tnum_wf. split.
  - intros ((E1 & E2) & Hcx & Hcy & Hout). split_and!; try lia; try done. intros [_ Hin]. congruence.
  - intros ([_ [_ E1]] & [_ [_ E2]] & [_ Hcx] & [_ Hcy] & Hno). split_and!; try lia; try done.
    apply not_true_is_false. intros Hin. by apply Hno.
Qed.

Lemma range_query_holds m out a b x y r o ra rb vx vy vr :
  spans m out o -> spans m (sym_lo a, sym_hi a) ra -> spans m (sym_lo b, sym_hi b) rb ->
  word m 64 x vx -> word m 64 y vy -> word m 64 r vr ->
  forallb (holds m) (range_query out a b x y r) = true <->
  abs_wf ra /\ abs_wf rb /\ vx ∈γ ra /\ vy ∈γ rb /\ ~ vr ∈γ o.
Proof using.
  intros [Ho Ho'] [Ha Ha'] [Hb Hb'] Hx Hy Hr. cbn [fst snd] in *. cbn [range_query forallb]. unfold in_range.
  rewrite bnot_spec, !ball_spec. cbn [forallb].
  rewrite (word_ule _ _ _ _ _ _ Ha Ha'), (word_ule _ _ _ _ _ _ Hb Hb'), (word_uge _ _ _ _ _ _ Hx Ha),
    (word_ule _ _ _ _ _ _ Hx Ha'), (word_uge _ _ _ _ _ _ Hy Hb), (word_ule _ _ _ _ _ _ Hy Hb'),
    (word_uge _ _ _ _ _ _ Hr Ho), (word_ule _ _ _ _ _ _ Hr Ho').
  apply word_is in Ha, Ha', Hb, Hb', Hx, Hy, Hr, Ho, Ho'. cbn [abs_wf gamma range_abstraction].
  rewrite !andb_true_r, !andb_true_iff, negb_true_iff, andb_false_iff, !Z.leb_le, !Z.leb_gt. lia.
Qed.
End meaning.

(** The shifts keep members also of operands that are not normalized. *)
Lemma shifts_contain t x k : is_u64 (tvalue t) -> is_u64 (tmask t) -> x ∈γ t -> 0 <= k ->
  tnum_mem (tnum_lshift t k) (shl64 x k) /\ tnum_mem (tnum_rshift t k) (shr64 x k) /\
  tnum_mem (tnum_arshift t k) (sar64 x k).
Proof.
  intros Hv Hm Hx Hk. apply tnum_mem_bits in Hx as [Hu Hx]; [|done..]. split_and!; prove_mem.
  - rewrite !shl64_bit in * by lia. destruct (Z.ltb_spec k 64); cbn [andb] in *; [|done].
    destruct (Z.lt_ge_cases i k); [by rewrite !Z.testbit_neg_r by lia|apply Hx; lia || done].
  - rewrite !shr64_bit in * by lia. destruct (Z.lt_ge_cases (i + k) 64); [apply Hx; lia || done|].
    by rewrite !testbit_u64_high by lia.
  - rewrite !sar64_bit in * by lia. apply Hx; lia || done.
Qed.

Section answers.
Context {z3 : Z3} {laws : SmtLib}.

Lemma fresh_word m n : word m 64 (fresh_const n 64) (value m (fresh_const n 64)).
Proof using. split; [by apply fresh_width|done]. Qed.

Lemma stands_fresh m i j :
  stands m (mkSymTnum (fresh_const i 64) (fresh_const j 64)) (mkTnum (value m (fresh_const i 64)) (value m (fresh_const j 64))).
Proof using. split; apply fresh_word. Qed.

Lemma rounds_nothing limit round : (forall n, round n = None) -> symbolic_rounds limit round = [].
Proof using.
  intros Hn. unfold symbolic_rounds.
  match goal with |- either ?r = _ => assert (Hg : goes (fun v => v = []) never r) end.
  - apply for_in_goes; [done|]. intros i s _ ->. by rewrite Hn.
  - by destruct (for_in _ _ []).
Qed.

Section binary_round.
Context (encode : SymTnum -> SymTnum -> SymTnum) (apply_bv : BV -> BV -> BV) (F : Tnum -> Tnum -> Tnum) (f : Z -> Z -> Z)
  (encode_ok : forall m s t a b, stands m s a -> stands m t b -> stands m (encode s t) (F a b))
  (apply_ok : forall m x y a b, word m 64 x a -> word m 64 y b -> word m 64 (apply_bv x y) (f a b)).

(** The query of a round in a model: what the six constants are. *)
Lemma round_query m base :
  let v i := value m (fresh_const i 64) in
  let s := mkSymTnum (fresh_const base 64) (fresh_const (base + 1) 64) in
  let t := mkSymTnum (fresh_const (base + 2) 64) (fresh_const (base + 3) 64) in
  let x := fresh_const (base + 4) 64 in
  let y := fresh_const (base + 5) 64 in
  let a := mkTnum (v base) (v (base + 1)%nat) in
  let b := mkTnum (v (base + 2)%nat) (v (base + 3)%nat) in
  forallb (holds m) (tnum_query (encode s t) s t x y (apply_bv x y)) = true <->
  tnum_wf a /\ tnum_wf b /\ v (base + 4)%nat ∈γ a /\ v (base + 5)%nat ∈γ b /\
  ~ f (v (base + 4)%nat) (v (base + 5)%nat) ∈γ F a b.
Proof using encode_ok apply_ok.
  cbv zeta. apply tnum_query_holds; try apply stands_fresh; try apply fresh_word;
    [apply encode_ok; apply stands_fresh|apply apply_ok; apply fresh_word].
Qed.

Lemma round_genuine name base v : tnum_round name encode apply_bv base = Some v ->
  exists a b x y, tnum_wf a /\ tnum_wf b /\ x ∈γ a /\ y ∈γ b /\ ~ f x y ∈γ F a b /\
    inputs v = [tvalue a; tmask a; tvalue b; tmask b] /\
    counterexample v = [x; y; f x y; tvalue (F a b); tmask (F a b)].
Proof using encode_ok apply_ok.
  unfold tnum_round. cbv zeta. destruct (check _) as [m| |] eqn:E; intros [= <-].
  apply check_sat, round_query in E as (Ha & Hb & Hx & Hy & Hno). eexists _, _, _, _. split_and!; [exact Ha|exact Hb|exact Hx|exact Hy|exact Hno| |];
    cbn [inputs counterexample sym_value sym_mask tvalue tmask].
  - by rewrite !eval_value by (by rewrite fresh_width).
  - pose proof (encode_ok m _ _ _ _ (stands_fresh m base (base + 1)) (stands_fresh m (base + 2) (base + 3))) as [[W1 V1] [W2 V2]].
    pose proof (apply_ok m _ _ _ _ (fresh_word m (base + 4)) (fresh_word m (base + 5))) as [W3 V3].
    rewrite !eval_value by (rewrite ?fresh_width, ?W1, ?W2, ?W3; done). by rewrite V1, V2, V3.
Qed.

(** Operands with a result outside are found by a solver that decides. *)
Lemma round_complete name base a b x y :
  tnum_wf a -> tnum_wf b -> x ∈γ a -> y ∈γ b -> ~ f x y ∈γ F a b ->
  (forall fs, check fs <> Unknown) -> tnum_round name encode apply_bv base <> None.
Proof using encode_ok apply_ok.
  intros Ha Hb Hx Hy Hno Hdec.
  destruct (fresh_free (fun n => nth (n - base) [tvalue a; tmask a; tvalue b; tmask b; x; y] 0)) as [m Hm].
  unfold tnum_round. cbv zeta. destruct (check _) as [m'| |] eqn:E; [done| |by apply Hdec in E].
  apply check_unsat with (m := m) in E. exfalso. apply not_true_iff_false in E. apply E, round_query.
  assert (Hf : forall i, is_u64 (nth i [tvalue a; tmask a; tvalue b; tmask b; x; y] 0) ->
    value m (fresh_const (base + i) 64) = nth i [tvalue a; tmask a; tvalue b; tmask b; x; y] 0).
  { intros i Hi. rewrite Hm by done. replace (base + i - base)%nat with i by lia. apply Z.mod_small. lia. }
  pose proof Ha as (? & ? & _). pose proof Hb as (? & ? & _).
  pose proof (gamma_u64 _ _ Hx). pose proof (gamma_u64 _ _ Hy).
  pose proof (Hf 0%nat) as Hbase. rewrite Nat.add_0_r in Hbase. cbn [nth] in Hf, Hbase.
  rewrite Hbase, (Hf 1%nat), (Hf 2%nat), (Hf 3%nat), (Hf 4%nat), (Hf 5%nat) by (cbn [nth]; lia). by destruct a, b.
Qed.
End binary_round.

Lemma tnum_rounds_nothing op n : tnum_round (op_name op) (encode_tnum_op op) (TnumConcreteOp.apply_bv op) n = None.
Proof using laws.
  destruct (tnum_round _ _ _ n) as [v|] eqn:E; [exfalso|done].
  apply (round_genuine _ _ _ _ (fun m => encode_op_stands m op) (fun m => apply_tnum_word m op)) in E
    as (a & b & x & y & Ha & Hb & Hx & Hy & Hno & _).
  destruct (tnum_ops_sound op a b Ha Hb) as (out & [= <-] & _ & Hin). by apply Hno, Hin.
Qed.

Lemma range_rounds_nothing op n : range_round (RangeOp.name op) (RangeOp.encode op) (RangeOp.apply_bv op) n = None.
Proof using laws.
  unfold range_round. cbv zeta. destruct (check _) as [m| |] eqn:E; [exfalso|done..].
  set (v i := value m (fresh_const i 64)).
  set (a := (v n, v (n + 1)%nat) : Range). set (b := (v (n + 2)%nat, v (n + 3)%nat) : Range).
  pose proof (check_sat _ _ E) as Hs. cbn [range_query forallb sym_lo sym_hi] in Hs.
  rewrite !andb_true_iff in Hs. destruct Hs as (H1 & H2 & _).
  rewrite (word_ule _ _ _ _ _ _ (fresh_word m n) (fresh_word m (n + 1))) in H1.
  rewrite (word_ule _ _ _ _ _ _ (fresh_word m (n + 2)) (fresh_word m (n + 3))) in H2.
  pose proof (word_is m _ _ (fresh_word m n)). pose proof (word_is m _ _ (fresh_word m (n + 1))).
  pose proof (word_is m _ _ (fresh_word m (n + 2))). pose proof (word_is m _ _ (fresh_word m (n + 3))).
  assert (Ha : abs_wf a) by (cbn; unfold v; bool_hyps; lia). assert (Hb : abs_wf b) by (cbn; unfold v; bool_hyps; lia).
  apply check_sat in E.
  eapply (range_query_holds m _ _ _ _ _ _ (RangeOp.rust op a b) a b) in E as (_ & _ & Hx & Hy & Hno).
  - apply Hno. by apply range_ops_sound.
  - apply encode_range_spans; [done|done|split; apply fresh_word..].
  - split; apply fresh_word.
  - split; apply fresh_word.
  - apply fresh_word.
  - apply fresh_word.
  - apply apply_range_word; apply fresh_word.
Qed.

Lemma shift_round_nothing op k n : op ∈ shift_ops -> 0 <= k < 64 -> shift_round op k n = None.
Proof using laws.
  intros Hop Hk. unfold shift_round. destruct op as [[name enc] apply]. cbv zeta.
  destruct (check _) as [m| |] eqn:E; [exfalso|done..]. apply check_sat in E. cbn [forallb] in E.
  rewrite !andb_true_iff in E. destruct E as (Hx & Hout & _).
  set (a := mkTnum (value m (fresh_const n 64)) (value m (fresh_const (n + 1) 64))).
  pose proof (stands_fresh m n (n + 1)) as Ha. fold a in Ha. pose proof (fresh_word m (n + 2)) as Hw.
  pose proof (word_const m k 64 ltac:(lia) ltac:(lia)) as Hkk.
  rewrite (concretize_holds m _ a _ _ Ha Hw) in Hx.
  assert (Hv : is_u64 (tvalue a)) by (by eapply word_is, Ha). assert (Hm : is_u64 (tmask a)) by (by eapply word_is, Ha).
  assert (Hmem : value m (fresh_const (n + 2) 64) ∈γ a) by (split; [by eapply word_is|done]).
  destruct (encode_shift_stands m _ a k _ ltac:(lia) Ha Hv Hm Hkk) as (Hl & Hr & Hs).
  destruct (shifts_contain a _ k Hv Hm Hmem ltac:(lia)) as ([_ Cl] & [_ Cr] & [_ Cs]).
  apply elem_of_cons in Hop as [[= -> -> ->]|Hop].
  { rewrite (outside_holds m _ _ _ _ Hl (word_shl m 64 _ _ _ _ Hw Hkk)) in Hout.
    rewrite shifted_left_word in Hout. by rewrite Cl in Hout. }
  apply elem_of_cons in Hop as [[= -> -> ->]|Hop].
  { rewrite (outside_holds m _ _ _ _ Hr (word_lshr m 64 _ _ _ _ Hw Hkk)) in Hout.
    change (shifted_right 64) with shr64 in Hout. by rewrite Cr in Hout. }
  apply list_elem_of_singleton in Hop as [= -> -> ->].
  rewrite (outside_holds m _ _ _ _ Hs (word_ashr m 64 _ _ _ _ Hw Hkk)) in Hout.
  rewrite shifted_signed_word in Hout by (lia || by eapply word_is). by rewrite Cs in Hout.
Qed.

Lemma shifts_nothing limit : symbolic_tnum_shifts limit = [].
Proof using laws.
  unfold symbolic_tnum_shifts.
  match goal with |- either ?r = _ => assert (Hg : goes (fun v => v = []) never r) end.
  - apply for_in_goes; [done|]. intros k s Hk%elem_of_seq ->. apply for_in_goes; [done|]. intros [i op] s Hop ->.
    cbn [fst snd]. rewrite shift_round_nothing; [done| |lia].
    apply list_elem_of_In in Hop. apply in_combine_r in Hop. by apply list_elem_of_In.
  - by destruct (for_in _ _ []).
Qed.
End answers.

(** * A concrete solver *)

(** Terms as functions of the constants; a solver that tries a few assignments and
    answers [Unknown] when none satisfies. *)
Module Trial.
Record term := mkTerm { bits : nat; den : (nat -> Z) -> Z }.
Abbreviation size t := (Z.of_nat (bits t)).
Definition val (m : nat -> Z) (t : term) : Z := as_u (size t) (den t m).
Definition bin (f : Z -> Z -> Z -> Z) (x y : term) : term := mkTerm (bits x) (fun m => f (size x) (val m x) (val m y)).
Definition candidates : list (nat -> Z) :=
  [fun _ => 0; fun i => Z.of_nat i mod 2; fun i => if (i =? 1)%nat || (i =? 3)%nat then 0 else 1; fun i => Z.of_nat i].
Definition satisfies (fs : list ((nat -> Z) -> bool)) (m : nat -> Z) : bool := forallb (fun f => f m) fs.

Definition trial : Z3 := {|
  BV := term;
  Bool := (nat -> Z) -> bool;
  Model := nat -> Z;
  from_u64 v w := mkTerm (Z.to_nat w) (fun _ => v);
  fresh_const n w := mkTerm (Z.to_nat w) (fun m => m n);
  bvnot x := mkTerm (bits x) (fun m => unot (size x) (val m x));
  bvadd := bin wadd;
  bvsub := bin wsub;
  bvmul := bin wmul;
  bvand := bin (fun _ => Z.land);
  bvor := bin (fun _ => Z.lor);
  bvxor := bin (fun _ => Z.lxor);
  bvshl := bin shifted_left;
  bvlshr := bin shifted_right;
  bvashr := bin shifted_signed;
  zero_ext n x := mkTerm (bits x + Z.to_nat n) (fun m => val m x);
  extract hi lo x := mkTerm (Z.to_nat (hi - lo + 1)) (fun m => Z.shiftr (val m x) lo);
  ite c x y := mkTerm (bits x) (fun m => if c m : bool then val m x else val m y);
  bveq x y := fun m => val m x =? val m y;
  bvuge x y := fun m => val m y <=? val m x;
  bvule x y := fun m => val m x <=? val m y;
  bvugt x y := fun m => val m y <? val m x;
  ball fs := fun m => satisfies fs m;
  bnot f := fun m => negb (f m);
  check fs := match List.find (satisfies fs) candidates with Some m => Sat m | None => Unknown end;
  eval m x := val m x
|}.

Lemma val_range m t : 0 <= val m t < 2 ^ size t.
Proof. apply as_u_range. lia. Qed.

Lemma word_bits w v i : 0 <= v < 2 ^ w -> 0 <= w <= i -> Z.testbit v i = false.
Proof. apply testbit_high. Qed.

(** A function of words of a width whose high bits are clear. *)
Lemma fits w v : 0 <= w -> (forall i, w <= i -> Z.testbit v i = false) -> as_u w v = v.
Proof. intros Hw Hv. apply as_u_small. by apply bits_range. Qed.

Lemma val_bin f m x y : as_u (size x) (f (size x) (val m x) (val m y)) = f (size x) (val m x) (val m y) ->
  size (bin f x y) = size x /\ val m (bin f x y) = f (size x) (val m x) (val m y).
Proof. intros H. split; [done|exact H]. Qed.

Definition trial_laws : @SmtLib trial.
Proof.
  refine (@Build_SmtLib trial (fun t => size t) val (fun m f => f m) _ _ _ _ _ _ _ _ _ _ _ _ _ _ _).
  - apply val_range.
  - done.
  - intros m v w Hw Hv. cbn. unfold val. cbn [bits den]. rewrite Z2Nat.id by lia. split; [done|by apply as_u_small].
  - intros n w Hw. cbn. lia.
  - intros f. exists f. intros n w Hw. cbn. unfold val. cbn [bits den]. by rewrite Z2Nat.id by lia.
  - intros m x. split; [done|]. cbn. unfold val at 1. cbn [bits den]. pose proof (val_range m x).
    apply fits; [lia|]. intros i Hi. rewrite unot_spec by lia. rewrite (word_bits (size x)) by lia.
    destruct (Z.ltb_spec i (size x)); [lia|done].
  - intros m x y E. cbn in E. assert (Hy : 0 <= val m y < 2 ^ size x) by (rewrite E; apply val_range).
    pose proof (val_range m x) as Hx. cbn.
    assert (Hhigh : forall i, size x <= i -> Z.testbit (val m x) i = false /\ Z.testbit (val m y) i = false).
    { intros i Hi. split; apply (word_bits (size x)); lia. }
    refine (conj (val_bin wadd m x y _) (conj (val_bin wsub m x y _) (conj (val_bin wmul m x y _)
      (conj (val_bin (fun _ => Z.land) m x y _) (conj (val_bin (fun _ => Z.lor) m x y _) (conj (val_bin (fun _ => Z.lxor) m x y _)
      (conj (val_bin shifted_left m x y _) (conj (val_bin shifted_right m x y _) (val_bin shifted_signed m x y _)))))))));
      try (apply as_u_idem); try (apply fits; [lia|]; intros i Hi; destruct (Hhigh i Hi) as [Ex Ey];
        rewrite ?Z.land_spec, ?Z.lor_spec, ?Z.lxor_spec, ?Ex, ?Ey; done).
    + unfold shifted_left. destruct (_ <? _); [apply as_u_idem|by rewrite as_u_small by lia].
    + unfold shifted_right. destruct (_ <? _); [|by rewrite as_u_small by lia].
      apply as_u_small. pose proof (Z.shiftr_nonneg (val m x) (val m y)). rewrite Z.shiftr_div_pow2 in * by lia.
      pose proof (Z.div_le_upper_bound (val m x) (2 ^ val m y) (val m x) ltac:(lia) ltac:(nia)). lia.
  - intros m n x Hn. cbn. unfold val at 1. cbn [bits den]. split; [lia|]. apply as_u_small. pose proof (val_range m x).
    pose proof (Z.pow_le_mono_r 2 (size x) (Z.of_nat (bits x + Z.to_nat n)) ltac:(lia) ltac:(lia)). lia.
  - intros m hi lo x Hl Hh. cbn. unfold val at 1. cbn [bits den]. rewrite Z2Nat.id by lia. split; [done|done].
  - intros m c x y E. cbn in *. split; [done|]. unfold val at 1. cbn [bits den].
    destruct (c m); apply as_u_small; [apply val_range|rewrite E; apply val_range].
  - done.
  - done.
  - done.
  - intros fs m. change (match List.find (satisfies fs) candidates with Some m => Sat m | None => Unknown end = Sat m ->
      satisfies fs m = true). destruct (List.find (satisfies fs) candidates) as [m'|] eqn:E; [|done].
    intros Hs. injection Hs as Hs. rewrite <- Hs. apply List.find_some in E as [_ E]. exact E.
  - intros fs. change (match List.find (satisfies fs) candidates with Some m => Sat m | None => Unknown end = Unsat ->
      forall m, satisfies fs m = false). by destruct (List.find (satisfies fs) candidates).
Defined.
End Trial.

(** * Properties *)

(** C38: the encodings are the operators. Under the semantics of SMT-LIB, what the
    encoding of a tracked-number operator gives stands for what the operator of
    tnum.rs computes, for all words and every shift count; and the encoding of an
    interval operator stands for the operator of the specification on every
    interval. *)
Theorem encodings_exact {z3 : Z3} {laws : SmtLib} (m : Model) :
  (forall op s t a b, stands m s a -> stands m t b -> stands m (encode_tnum_op op s t) (rust_tnum_op op a b)) /\
  (forall s a k kk, 0 <= k -> stands m s a -> word m 64 kk k ->
     stands m (encode_lshift s kk) (tnum_lshift a k) /\ stands m (encode_rshift s kk) (tnum_rshift a k) /\
     stands m (encode_arshift s kk) (tnum_arshift a k)) /\
  (forall op s t a b, fst a <= snd a -> fst b <= snd b ->
     spans m (sym_lo s, sym_hi s) a -> spans m (sym_lo t, sym_hi t) b ->
     spans m (RangeOp.encode op s t) (RangeOp.rust op a b)).
Proof.
  split_and!.
  - intros *. apply encode_op_stands.
  - intros s a k kk Hk [Hv Hm] Hkk. by apply encode_shift_stands; [..|split|eapply word_is, Hv|eapply word_is, Hm|].
  - intros op s t a b Ha Hb Hs Ht. pose proof Hs as [H1%word_is H2%word_is]. pose proof Ht as [H3%word_is H4%word_is].
    apply encode_range_spans; [cbn; lia|cbn; lia|done|done].
Qed.

(** A query is exact. For an encoding of an operator [F] and a word operation
    [f], a reported violation is a genuine one, with well-formed operands, members
    of them and a result outside; and if there is one, a solver that decides
    reports some. *)
Theorem queries_exact {z3 : Z3} {laws : SmtLib} (name : string) (encode : SymTnum -> SymTnum -> SymTnum)
  (apply_bv : BV -> BV -> BV) (F : Tnum -> Tnum -> Tnum) (f : Z -> Z -> Z) (base : nat) :
  (forall m s t a b, stands m s a -> stands m t b -> stands m (encode s t) (F a b)) ->
  (forall m x y a b, word m 64 x a -> word m 64 y b -> word m 64 (apply_bv x y) (f a b)) ->
  (forall v, tnum_round name encode apply_bv base = Some v ->
     exists a b x y, tnum_wf a /\ tnum_wf b /\ x ∈γ a /\ y ∈γ b /\ ~ f x y ∈γ F a b /\
       inputs v = [tvalue a; tmask a; tvalue b; tmask b] /\
       counterexample v = [x; y; f x y; tvalue (F a b); tmask (F a b)]) /\
  ((forall fs, check fs <> Unknown) ->
   tnum_round name encode apply_bv base = None ->
   forall a b x y, tnum_wf a -> tnum_wf b -> x ∈γ a -> y ∈γ b -> f x y ∈γ F a b).
Proof.
  intros He Ha. split; [intros v; by apply round_genuine|].
  intros Hd Hn a b x y Wa Wb Hx Hy. destruct (decide (tnum_contains (F a b) (f x y) = true)) as [Hc|Hc].
  - split; [|done]. destruct (fresh_free (fun n => if decide (n = 0)%nat then x else y)) as [m Hm].
    pose proof (gamma_u64 _ _ Hx). pose proof (gamma_u64 _ _ Hy).
    assert (V0 : value m (fresh_const 0 64) = x) by (rewrite Hm by lia; apply Z.mod_small; cbn; lia).
    assert (V1 : value m (fresh_const 1 64) = y) by (rewrite Hm by lia; apply Z.mod_small; cbn; lia).
    pose proof (Ha m _ _ _ _ (fresh_word m 0) (fresh_word m 1)) as Hw. rewrite V0, V1 in Hw. by eapply word_is.
  - exfalso. eapply (round_complete encode apply_bv F f He Ha name base a b x y); try done. by intros [_ Hin].
Qed.

(** C37: the harness finds nothing. Whatever the solver, as long as its answers are
    right, a run of smt_verify ends without a panic and reports no violation; and
    so do the exhaustive checks at any width they can run at, the random checks of
    any size, and the queries with any limit. *)
Theorem harness_clean {z3 : Z3} {laws : SmtLib} :
  smt_verify_violations = Some [] /\
  (forall op w, 0 <= w <= 64 -> exhaustive_tnum_binary op w = Some []) /\
  (forall w, 0 <= w <= 64 -> exhaustive_tnum_mul w = Some []) /\
  (forall op w, 0 <= w <= 63 -> exhaustive_range_binary op w = Some []) /\
  (forall pairs members, random_tnum_mul pairs members = Some []) /\
  (forall op pairs members, random_range_binary op pairs members = Some []) /\
  (forall op limit, symbolic_tnum_binary op limit = []) /\
  (forall limit, symbolic_tnum_shifts limit = []) /\
  (forall op limit, symbolic_range_binary op limit = []).
Proof.
  assert (H1 : forall op w, 0 <= w <= 64 -> exhaustive_tnum_binary op w = Some [])
    by (intros; by apply exhaustive_nothing, tnum_ops_sound).
  assert (H2 : forall w, 0 <= w <= 64 -> exhaustive_tnum_mul w = Some [])
    by (intros; by apply exhaustive_nothing, tnum_mul_operator).
  assert (H3 : forall op limit, symbolic_tnum_binary op limit = [])
    by (intros; apply rounds_nothing; intros; apply tnum_rounds_nothing).
  assert (H4 : forall op limit, symbolic_range_binary op limit = [])
    by (intros; apply rounds_nothing; intros; apply range_rounds_nothing).
  split_and!; [|done|done|apply exhaustive_range_nothing|apply random_mul_nothing|apply random_range_nothing|done
    |apply shifts_nothing|done].
  unfold smt_verify_violations. cbn [flat_map map app].
  rewrite !H1, !H2, !H3, !H4, !exhaustive_range_nothing, random_mul_nothing, !random_range_nothing, shifts_nothing by lia.
  reflexivity.
Qed.

Lemma encodings_exact_witness :
  let m i := Z.of_nat i : Z in
  spans (z3 := Trial.trial) (laws := Trial.trial_laws) m
    (encode_usub (mkSymRange (fresh_const 3 64) (fresh_const 9 64)) (mkSymRange (from_u64 1 64) (from_u64 2 64))) (1, 8).
Proof.
  apply (proj2 (proj2 (encodings_exact (laws := Trial.trial_laws) (fun i => Z.of_nat i))) RangeOp.Sub
    (mkSymRange (fresh_const 3 64) (fresh_const 9 64)) (mkSymRange (from_u64 1 64) (from_u64 2 64)) (3, 9) (1, 2));
    [cbn; lia|cbn; lia|split; split; reflexivity|split; split; reflexivity].
Defined.

(** An encoding that forgets the carries is refuted by the concrete solver. *)
Lemma queries_exact_witness :
  exists v, tnum_round (H := Trial.trial) "xor for add" encode_xor bvadd 0 = Some v /\
  exists a b x y, tnum_wf a /\ tnum_wf b /\ x ∈γ a /\ y ∈γ b /\ ~ wadd 64 x y ∈γ tnum_xor a b /\
    counterexample v = [x; y; wadd 64 x y; tvalue (tnum_xor a b); tmask (tnum_xor a b)].
Proof.
  destruct (queries_exact (laws := Trial.trial_laws) "xor for add" encode_xor bvadd tnum_xor (wadd 64) 0) as [H _].
  - intros m s t a b. apply (encode_op_stands m TnumConcreteOp.Xor).
  - intros m x y a b. apply word_add.
  - destruct (tnum_round (H := Trial.trial) "xor for add" encode_xor bvadd 0) as [v|] eqn:E; [|vm_compute in E; discriminate E].
    exists v. split; [reflexivity|]. destruct (H v eq_refl) as (a & b & x & y & H1 & H2 & H3 & H4 & H5 & _ & H7).
    exists a, b, x, y. split_and!; assumption.
Defined.

Lemma harness_clean_witness : smt_verify_violations (H := Trial.trial) = Some [].
Proof. exact (proj1 (harness_clean (laws := Trial.trial_laws))). Defined.
