(* ===== verification/Synth.v ===== *)
(** Precision witnesses (src/src/smt/synth.rs and the searches of
    bin/witness_synth.rs): interval operators that go through tracked numbers, the
    search for operands on which they are more precise than the specification's,
    and the program that shows such a pair.  The theorems: the candidates
    over-approximate the word operations, a search ends without a panic and every
    witness it returns is genuine, and the program of a witness computes the
    operation of its words, unless one lies between 2^31 and 2^32. *)
From Stdlib Require Import ZArith Lia List Bool String.
From stdpp Require Import base option list relations gmap.
From S2P Require Import Prelude Tnum Insn Alu Ctx State Concrete ConcreteMem ConcreteRun SpecRange Smt.
Open Scope Z_scope.

(** * Candidate operators *)

Record PrecisionWitness := mkWitness {
  w_operator : string;
  w_width : Z;
  w_inputs : list Z;
  concrete : Z * Z;
  old_result : Range;
  new_result : Range;
  old_width : Z;
  new_width : Z }.

Definition interval_width (r : Range) : Z := if fst r <=? snd r then snd r - fst r else U64_MAX.

Definition tnum_to_range (t : Tnum) : Range := (tvalue t, Z.lor (tvalue t) (tmask t)).

(** An operator on the tracked numbers of two intervals. *)
Definition through_tnums (f : Tnum -> Tnum -> Tnum) (a b : Range) : Range :=
  tnum_to_range (f (tnum_from_range (fst a) (snd a)) (tnum_from_range (fst b) (snd b))).

Definition add_tnum : Range -> Range -> Range := through_tnums tnum_add.
Definition sub_tnum : Range -> Range -> Range := through_tnums tnum_sub.
Definition and_tnum : Range -> Range -> Range := through_tnums tnum_and.
Definition or_tnum : Range -> Range -> Range := through_tnums tnum_or.
Definition xor_tnum : Range -> Range -> Range := through_tnums tnum_xor.

(** * The search *)

(** One random interval of a width: two draws, reduced below the full width. *)
Definition drawn_range (w max rng : Z) : Range * Z :=
  let x := xorshift_next rng in
  let y := xorshift_next x in
  let reduce d := if w =? 64 then d else d mod (max + 1) in
  ((Z.min (reduce x) (reduce y), Z.max (reduce x) (reduce y)), y).

Definition member_pair (a b : Range) (rng : Z) : option (Z * Z * Z) :=
  '(x, rng) ← range_member a rng;
  '(y, rng) ← range_member b rng;
  Some (x, y, rng).

Definition find_gaps (operator : string) (old new : Range -> Range -> Range) (w : Z) (limit : nat)
  : option (list PrecisionWitness) :=
  max ← width_max w;
  match for_in (seq 0 (Nat.max limit 1)) (fun _ '(rng, out) =>
    let '(a, rng) := drawn_range w max rng in
    let '(b, rng) := drawn_range w max rng in
    let old_r := old a b in
    let new_r := new a b in
    let old_w := interval_width old_r in
    let new_w := interval_width new_r in
    if new_w <? old_w then
      match member_pair a b rng with
      | None => inr None
      | Some (x, y, rng) =>
          let out := out ++ [mkWitness operator w [fst a; snd a; fst b; snd b] (x, y) old_r new_r old_w new_w] in
          if (limit <=? length out)%nat then inr (Some out) else inl (rng, out)
      end
    else inl (rng, out)) (0xD1FF20260817, []) with
  | inl (_, out) => Some out
  | inr r => r
  end.

(** * The witness program *)

Module opcodes.
Definition ADD : Z := 0x0f.
Definition SUB : Z := 0x1f.
Definition AND : Z := 0x5f.
Definition OR : Z := 0x4f.
Definition XOR : Z := 0xaf.
End opcodes.

Definition insn (op dst src off imm : Z) : list Z :=
  op :: Z.lor (as_u8 (Z.shiftl src 4)) (Z.land dst 0x0F) :: le16 off ++ le32 imm.

Definition load_bytes (dst v : Z) : list Z :=
  if v <=? U32_MAX then insn 0xb7 dst 0 0 (as_u32 v)
  else insn 0x18 dst 0 0 (as_u32 v) ++ insn 0x00 0 0 0 (as_u32 (Z.shiftr v 32)).

Definition witness_program (w : PrecisionWitness) (opcode : Z) : list Z :=
  load_bytes 1 (fst (concrete w)) ++ load_bytes 2 (snd (concrete w)) ++ insn opcode 1 2 0 0 ++ insn 0xbf 0 1 0 0 ++
  insn 0x95 0 0 0 0.

(** The operators of the searches. *)
Module SearchOp.
Inductive SearchOp := Xor | Or | And | Add | Sub.
Definition name (op : SearchOp) : string :=
  match op with Xor => "xor" | Or => "or" | And => "and" | Add => "add" | Sub => "sub" end.
Definition old (op : SearchOp) : Range -> Range -> Range :=
  match op with Xor => rng_xor | Or => rng_or | And => rng_and | Add => rng_add | Sub => rng_sub end.
Definition new (op : SearchOp) : Range -> Range -> Range :=
  match op with Xor => xor_tnum | Or => or_tnum | And => and_tnum | Add => add_tnum | Sub => sub_tnum end.
Definition opcode (op : SearchOp) : Z :=
  match op with
  | Xor => opcodes.XOR | Or => opcodes.OR | And => opcodes.AND | Add => opcodes.ADD | Sub => opcodes.SUB
  end.
(** The operation on words. *)
Definition apply (op : SearchOp) (x y : Z) : Z :=
  match op with
  | Xor => Z.lxor x y | Or => Z.lor x y | And => Z.land x y | Add => wadd 64 x y | Sub => wsub 64 x y
  end.
(** The instruction of the opcode, on the registers of the program. *)
Definition reg_insn (op : SearchOp) (dst src : Z) : BpfInsn :=
  match op with
  | Xor => BpfInsn.XorReg dst src | Or => BpfInsn.OrReg dst src | And => BpfInsn.AndReg dst src
  | Add => BpfInsn.AddReg dst src | Sub => BpfInsn.SubReg dst src
  end.
End SearchOp.
Abbreviation SearchOp := SearchOp.SearchOp.

(** The witnesses of one operator: a small width, then the full one. *)
Definition search (op : SearchOp) : option (list PrecisionWitness) :=
  small ← find_gaps (SearchOp.name op) (SearchOp.old op) (SearchOp.new op) 6 50;
  full ← find_gaps (SearchOp.name op) (SearchOp.old op) (SearchOp.new op) 64 50;
  Some (small ++ full).

(** * The candidates over-approximate *)

Lemma tnum_to_range_ok t x : tnum_wf t -> x ∈γ t -> abs_wf (tnum_to_range t) /\ x ∈γ tnum_to_range t.
Proof.
  intros Ht Hx. pose proof Ht as (Hv & Hm & _). pose proof (gamma_u64 _ _ Hx) as Hu.
  assert (Hlow : tvalue t <= x).
  { apply bits_le; [lia..|]. intros i Hi Hb. destruct (Z.lt_ge_cases i 64); [|by rewrite testbit_u64_high in Hb by lia].
    rewrite (tnum_mem_bit t x i Ht Hx) by (lia || by apply tnum_wf_bit). done. }
  assert (Hhigh : x <= Z.lor (tvalue t) (tmask t)).
  { apply bits_le; [lia|by apply lor_u64|]. intros i Hi Hb. rewrite Z.lor_spec.
    destruct (Z.testbit (tmask t) i) eqn:E; [apply orb_true_r|].
    destruct (Z.lt_ge_cases i 64); [|by rewrite testbit_u64_high in Hb by lia].
    rewrite <- (tnum_mem_bit t x i Ht Hx) by (lia || done). by rewrite Hb. }
  pose proof (lor_u64 _ _ Hv Hm). cbn. split; lia.
Qed.

Lemma through_tnums_ok f g : sound2 f g -> sound2 (through_tnums f) g.
Proof.
  intros Hf a b (Ha0 & Ha1 & Ha2) (Hb0 & Hb1 & Hb2).
  destruct (tnum_from_range_ok (fst a) (snd a)) as [Wa Ma]; [lia..|].
  destruct (tnum_from_range_ok (fst b) (snd b)) as [Wb Mb]; [lia..|].
  destruct (Hf _ _ Wa Wb) as [Wf Mf]. split.
  - apply (tnum_to_range_ok _ (tvalue (f (tnum_from_range (fst a) (snd a)) (tnum_from_range (fst b) (snd b)))) Wf).
    by apply tnum_mem_value.
  - intros x y [_ Hx] [_ Hy]. apply tnum_to_range_ok; [done|]. apply Mf; [by apply Ma|by apply Mb].
Qed.

Lemma candidates_ok op : sound2 (SearchOp.new op) (SearchOp.apply op).
Proof.
  destruct op; apply through_tnums_ok; [apply tnum_xor_ok|apply tnum_or_ok|apply tnum_and_ok|apply tnum_add_ok|apply tnum_sub_ok].
Qed.

Lemma current_ok op : sound2 (SearchOp.old op) (SearchOp.apply op).
Proof. destruct op; [apply rng_xor_ok|apply rng_or_ok|apply rng_and_ok|apply rng_add_ok|apply rng_sub_ok]. Qed.

(** * The search *)

Lemma drawn_range_ok w max rng : 0 <= w -> width_max w = Some max -> live rng ->
  let a := fst (drawn_range w max rng) in
  abs_wf a /\ snd a <= max /\ snd a - fst a < U64_MAX /\ live (snd (drawn_range w max rng)).
Proof.
  intros Hw Hmax [H1 N1]. destruct (xorshift_nonzero _ H1 N1) as [H2 N2]. destruct (xorshift_nonzero _ H2 N2) as [H3 N3].
  unfold drawn_range. cbn [fst snd abs_wf range_abstraction]. unfold width_max in Hmax.
  destruct (Z.eqb_spec w 64); [injection Hmax as <-; split_and!; lia|].
  destruct (Z.ltb_spec w 64); [|done]. injection Hmax as <-. rewrite Z.shiftl_1_l.
  pose proof (Z.pow_le_mono_r 2 w 63 ltac:(lia) ltac:(lia)). assert (0 < 2 ^ w) by lia.
  replace (2 ^ w - 1 + 1) with (2 ^ w) by lia.
  pose proof (Z.mod_pos_bound (xorshift_next rng) (2 ^ w) ltac:(lia)).
  pose proof (Z.mod_pos_bound (xorshift_next (xorshift_next rng)) (2 ^ w) ltac:(lia)). split_and!; lia.
Qed.

Lemma member_in a rng : abs_wf a -> snd a - fst a < U64_MAX -> live rng ->
  exists x rng', range_member a rng = Some (x, rng') /\ x ∈γ a /\ live rng'.
Proof.
  intros (Ha0 & Ha1 & Ha2) Hs [H1 N1]. destruct (xorshift_nonzero _ H1 N1) as [H2 N2]. unfold range_member.
  rewrite checked_some by lia. cbn [mbind option_bind]. eexists _, _. split; [done|]. split; [|done].
  pose proof (Z.mod_pos_bound (xorshift_next rng) (snd a - fst a + 1) ltac:(lia)). cbn. lia.
Qed.

(** What a witness of a search says. *)
Record genuine (operator : string) (old new : Range -> Range -> Range) (w max : Z) (p : PrecisionWitness) : Prop := {
  genuine_name : w_operator p = operator /\ w_width p = w;
  genuine_operands : exists a b, abs_wf a /\ abs_wf b /\ snd a <= max /\ snd b <= max /\
    w_inputs p = [fst a; snd a; fst b; snd b] /\ fst (concrete p) ∈γ a /\ snd (concrete p) ∈γ b /\
    old_result p = old a b /\ new_result p = new a b;
  genuine_gap : interval_width (new_result p) < interval_width (old_result p) /\
    new_width p = interval_width (new_result p) /\ old_width p = interval_width (old_result p) }.

Lemma find_gaps_ok operator old new w limit : 0 <= w <= 64 ->
  exists max out, width_max w = Some max /\ find_gaps operator old new w limit = Some out /\
  (length out <= Nat.max limit 1)%nat /\ Forall (genuine operator old new w max) out.
Proof.
  intros Hw. destruct (width_max w) as [max|] eqn:Hmax.
  2: { unfold width_max in Hmax. destruct (Z.eqb_spec w 64); [done|]. destruct (Z.ltb_spec w 64); [done|lia]. }
  exists max. set (good out := Forall (genuine operator old new w max) out).
  unfold find_gaps. rewrite Hmax. cbn [mbind option_bind].
  match goal with |- context [match ?run with inl _ => _ | inr _ => _ end] =>
    assert (Hg : goes (fun '(rng, out) => live rng /\ good out /\ (length out < Nat.max limit 1)%nat)
      (fun res => exists out, res = Some out /\ good out /\ (length out <= Nat.max limit 1)%nat) run) end.
  - apply for_in_goes; [split; [done|split; [constructor|cbn; lia]]|].
    intros _ [rng out] _ (Hrng & Hout & Hlen).
    destruct (drawn_range_ok w max rng ltac:(lia) Hmax Hrng) as (Ha & Ha' & Hsa & H1).
    destruct (drawn_range w max rng) as [a rng1]. cbn [fst snd] in *.
    destruct (drawn_range_ok w max rng1 ltac:(lia) Hmax H1) as (Hb & Hb' & Hsb & H2).
    destruct (drawn_range w max rng1) as [b rng2]. cbn [fst snd] in *. cbv zeta.
    destruct (Z.ltb_spec (interval_width (new a b)) (interval_width (old a b))) as [Hlt|]; [|done]. unfold member_pair.
    destruct (member_in a rng2 Ha Hsa H2) as (x & rng3 & -> & Hx & H3). cbn [mbind option_bind].
    destruct (member_in b rng3 Hb Hsb H3) as (y & rng4 & -> & Hy & H4). cbn [mbind option_bind].
    set (p := mkWitness _ _ _ _ _ _ _ _).
    assert (Hp : good (out ++ [p])).
    { apply Forall_app. split; [done|]. constructor; [|constructor]. split; [done| |done]. exists a, b. done. }
    rewrite length_app in *. cbn [length] in *. destruct (Nat.leb_spec limit (length out + 1)).
    + exists (out ++ [p]). split; [done|]. split; [done|]. rewrite length_app. cbn [length]. lia.
    + split; [done|]. split; [done|]. rewrite length_app. cbn [length]. lia.
  - destruct (for_in _ _ _) as [[rng out]|r].
    + destruct Hg as (_ & Hout & Hlen). exists out. split_and!; [done|done|lia|done].
    + destruct Hg as (out & -> & Hout & Hlen). exists out. done.
Qed.

(** * The program of a witness *)

Definition load_insns (dst v : Z) : list BpfInsn :=
  if v <=? U32_MAX then [BpfInsn.MovImm dst (as_i32 v)] else [BpfInsn.LdImm64 dst v; BpfInsn.LdImm64Second (Z.shiftr v 32)].
Definition witness_insns (op : SearchOp) (x y : Z) : list BpfInsn :=
  load_insns 1 x ++ load_insns 2 y ++ [SearchOp.reg_insn op 1 2; BpfInsn.MovReg 0 1; BpfInsn.Exit].

(** What a load leaves in its register: the immediate is extended with its sign. *)
Definition loaded (v : Z) : Z := if v <=? U32_MAX then as_u64 (as_i32 v) else v.

Lemma le32_signed v : le32 (as_i32 v) = le32 v.
Proof.
  unfold le32, as_i. assert (H : exists q, (if v mod 2 ^ 32 <? 2 ^ (32 - 1) then v mod 2 ^ 32 else v mod 2 ^ 32 - 2 ^ 32) = v + q * 2 ^ 32).
  { pose proof (Z.div_mod v (2 ^ 32) ltac:(lia)). destruct (_ <? _); [exists (- (v / 2 ^ 32))|exists (- (v / 2 ^ 32) - 1)]; lia. }
  destruct H as [q ->]. unfold as_u.
  assert (Hk : forall k, 0 <= k <= 24 -> Z.shiftr (v + q * 2 ^ 32) k mod 2 ^ 8 = Z.shiftr v k mod 2 ^ 8).
  { intros k Hk. rewrite !Z.shiftr_div_pow2 by lia. replace (q * 2 ^ 32) with (q * 2 ^ (24 - k) * 2 ^ 8 * 2 ^ k).
    - by rewrite Z.div_add, Z.mod_add by lia.
    - rewrite <- !Z.mul_assoc, <- !Z.pow_add_r by lia. do 2 f_equal. lia. }
  pose proof (Hk 0 ltac:(lia)) as H0. rewrite !Z.shiftr_0_r in H0. by rewrite H0, !Hk by lia.
Qed.

Lemma encode_loads dst v rest bytes : is_u64 v -> dst = 1 \/ dst = 2 -> encode_program rest = Some bytes ->
  encode_program (load_insns dst v ++ rest) = Some (load_bytes dst v ++ bytes) /\
  program_wf (load_insns dst v ++ rest) = program_wf rest.
Proof.
  intros Hv Hd Hr. unfold load_insns, load_bytes. destruct (Z.leb_spec v U32_MAX).
  - rewrite (as_u32_small v) by lia. split.
    + cbn [app encode_program]. rewrite Hr. unfold encode. cbn [encode_fields]. unfold insn. rewrite le32_signed.
      by destruct Hd as [-> | ->].
    + pose proof (as_i32_range v) as Hi. cbn [app program_wf].
      assert (Hw : insn_wf (BpfInsn.MovImm dst (as_i32 v)) = true); [|by rewrite Hw].
      unfold insn_wf, Insn.in_range. cbn [encode_fields insn_shape]. rewrite !andb_true_iff, !Z.leb_le. lia.
  - assert (Hh : is_u32 (Z.shiftr v 32)) by (rewrite Z.shiftr_div_pow2 by lia; div_lia). split.
    + cbn [app encode_program]. rewrite Hr. unfold encode. cbn [encode_fields]. unfold insn. rewrite !le32_signed.
      rewrite (as_u32_small (Z.shiftr v 32)) by done. rewrite <- !app_assoc. by destruct Hd as [-> | ->].
    + cbn [app program_wf]. assert (Hn : insn_wf (BpfInsn.LdImm64 dst v) = false) by apply andb_false_r. rewrite Hn.
      assert (Hp : ldimm64_pair (BpfInsn.LdImm64 dst v) (Z.shiftr v 32) = true); [|by rewrite Hp].
      unfold ldimm64_pair, Insn.in_range. rewrite !andb_true_iff, !Z.leb_le, Z.eqb_eq. lia.
Qed.

Lemma witness_decodes op w x y : concrete w = (x, y) -> is_u64 x -> is_u64 y ->
  decode_program (witness_program w (SearchOp.opcode op)) = Ok (witness_insns op x y).
Proof.
  intros Hw Hx Hy. unfold witness_program. rewrite Hw. cbn [fst snd].
  assert (Ht : encode_program [SearchOp.reg_insn op 1 2; BpfInsn.MovReg 0 1; BpfInsn.Exit] =
    Some (insn (SearchOp.opcode op) 1 2 0 0 ++ insn 0xbf 0 1 0 0 ++ insn 0x95 0 0 0 0)) by (by destruct op).
  destruct (encode_loads 2 y _ _ Hy ltac:(by right) Ht) as [E2 W2].
  destruct (encode_loads 1 x _ _ Hx ltac:(by left) E2) as [E1 W1].
  destruct (program_roundtrip (witness_insns op x y)) as (bytes & Hb & Hd).
  { unfold witness_insns. rewrite W1, W2. by destruct op. }
  unfold witness_insns in Hb. rewrite E1 in Hb. injection Hb as <-. exact Hd.
Qed.

(** One step with one successor, which leaves the maps alone. *)
Definition moves (program : list BpfInsn) (maps : Maps) (p q : csuccessor) : Prop :=
  exists insn, program !! Z.to_nat (fst p) = Some insn /\ insn <> BpfInsn.Exit /\
  forall mem, concrete_successors (fst p) insn (snd p) maps mem = Ok ([q], mem).

Lemma moves_step program maps n insn pc s q :
  program !! n = Some insn -> pc = Z.of_nat n -> insn <> BpfInsn.Exit ->
  (forall mem, concrete_successors pc insn s maps mem = Ok ([q], mem)) -> moves program maps (pc, s) q.
Proof. intros Hp -> Hi Hs. exists insn. cbn [fst snd]. by rewrite Nat2Z.id. Qed.

Lemma load_moves program maps n dst v s :
  dst = 1 \/ dst = 2 -> length (cregs s) = 11%nat ->
  (forall i insn, load_insns dst v !! i = Some insn -> program !! (n + i)%nat = Some insn) ->
  rtc (moves program maps) (Z.of_nat n, s) (Z.of_nat (n + length (load_insns dst v)), set_creg dst (CScalar (loaded v)) s).
Proof.
  intros Hd Hl Hp. unfold load_insns, loaded in *. destruct (v <=? U32_MAX).
  - apply rtc_once. apply (moves_step _ _ n (BpfInsn.MovImm dst (as_i32 v))); [|done|done|].
    + rewrite <- (Nat.add_0_r n). by apply Hp.
    + intros mem. destruct Hd as [-> | ->]; cbn [length]; rewrite Nat2Z.inj_add; reflexivity.
  - eapply rtc_l; [|apply rtc_once].
    + apply (moves_step _ _ n (BpfInsn.LdImm64 dst v)); [rewrite <- (Nat.add_0_r n); by apply Hp|done|done|].
      intros mem. destruct Hd as [-> | ->]; reflexivity.
    + apply (moves_step _ _ (n + 1) (BpfInsn.LdImm64Second (Z.shiftr v 32))); [by apply Hp|lia|done|].
      intros mem. cbn [length]. replace (Z.of_nat (n + 2)) with (Z.of_nat n + 1 + 1) by lia. reflexivity.
Qed.

Lemma loaded_u64 v : is_u64 v -> is_u64 (loaded v).
Proof. intros. unfold loaded. destruct (_ <=? _); [apply as_u64_range|done]. Qed.

Lemma loads_length dst v : (0 < length (load_insns dst v) <= 2)%nat.
Proof. unfold load_insns. destruct (_ <=? _); cbn; lia. Qed.

(** The run of the program, up to its exit. *)
Lemma witness_runs op x y maps p : is_u64 x -> is_u64 y ->
  exists n s, rtc (moves (witness_insns op x y) maps) (0, cinitial_with p) (Z.of_nat n, s) /\
    witness_insns op x y !! n = Some BpfInsn.Exit /\ ccurframe s = 0 /\
    read_concrete_reg (Z.of_nat n) s 0 = Ok (CScalar (SearchOp.apply op (loaded x) (loaded y))).
Proof.
  intros Hx Hy. set (program := witness_insns op x y).
  set (n1 := length (load_insns 1 x)). set (n2 := (n1 + length (load_insns 2 y))%nat).
  set (s1 := set_creg 1 (CScalar (loaded x)) (cinitial_with p)).
  set (s2 := set_creg 2 (CScalar (loaded y)) s1).
  set (v := SearchOp.apply op (loaded x) (loaded y)).
  assert (H1 : rtc (moves program maps) (0, cinitial_with p) (Z.of_nat n1, s1)).
  { apply (load_moves program maps 0 1 x); [by left|done|]. intros i insn Hi. unfold program, witness_insns.
    by apply lookup_app_l_Some. }
  assert (H2 : rtc (moves program maps) (Z.of_nat n1, s1) (Z.of_nat n2, s2)).
  { apply (load_moves program maps n1 2 y); [by right|done|]. intros i insn Hi. unfold program, witness_insns.
    rewrite lookup_app_r by lia. apply lookup_app_l_Some. by rewrite Nat.add_sub_swap, Nat.sub_diag by lia. }
  assert (Ht : forall i, program !! (n2 + i)%nat = [SearchOp.reg_insn op 1 2; BpfInsn.MovReg 0 1; BpfInsn.Exit] !! i).
  { intros i. unfold program, witness_insns. rewrite !lookup_app_r by lia. f_equal. lia. }
  exists (n2 + 2)%nat, (set_creg 0 (CScalar v) (set_creg 1 (CScalar v) s2)). split_and!.
  - etrans; [exact H1|]. etrans; [exact H2|]. eapply rtc_l; [|apply rtc_once].
    + apply (moves_step _ _ n2 (SearchOp.reg_insn op 1 2) _ _ (Z.of_nat n2 + 1, set_creg 1 (CScalar v) s2));
        [by rewrite <- (Nat.add_0_r n2), Ht|done|by destruct op|]. intros mem. by destruct op.
    + apply (moves_step _ _ (n2 + 1) (BpfInsn.MovReg 0 1)); [by rewrite Ht|lia|done|]. intros mem.
      replace (Z.of_nat (n2 + 2)) with (Z.of_nat n2 + 1 + 1) by lia. reflexivity.
  - by rewrite Ht.
  - done.
  - done.
Qed.

(** * Properties *)

(** C39: what the searches find is genuine. For each of the five operators the
    search ends without a panic, with at most fifty witnesses at each of the two
    widths; a witness has operands and members of them, its candidate interval is
    strictly narrower than the specification's, and both intervals contain the
    result on the members. *)
Theorem searches_genuine (op : SearchOp) :
  exists found, search op = Some found /\ (length found <= 100)%nat /\
  forall p, p ∈ found ->
    interval_width (new_result p) < interval_width (old_result p) /\
    SearchOp.apply op (fst (concrete p)) (snd (concrete p)) ∈γ new_result p /\
    SearchOp.apply op (fst (concrete p)) (snd (concrete p)) ∈γ old_result p /\
    exists a b, abs_wf a /\ abs_wf b /\ fst (concrete p) ∈γ a /\ snd (concrete p) ∈γ b /\
      w_inputs p = [fst a; snd a; fst b; snd b] /\
      old_result p = SearchOp.old op a b /\ new_result p = SearchOp.new op a b.
Proof.
  unfold search.
  destruct (find_gaps_ok (SearchOp.name op) (SearchOp.old op) (SearchOp.new op) 6 50 ltac:(lia)) as (m1 & out1 & _ & -> & L1 & G1).
  destruct (find_gaps_ok (SearchOp.name op) (SearchOp.old op) (SearchOp.new op) 64 50 ltac:(lia)) as (m2 & out2 & _ & -> & L2 & G2).
  cbn [mbind option_bind]. exists (out1 ++ out2). split; [done|]. split; [rewrite length_app; lia|].
  intros p Hp. assert (Hg : exists m w, genuine (SearchOp.name op) (SearchOp.old op) (SearchOp.new op) w m p).
  { rewrite Forall_forall in G1, G2. apply elem_of_app in Hp as [Hp|Hp]; eauto. }
  destruct Hg as (m & w & Hg). destruct (genuine_operands _ _ _ _ _ _ Hg) as (a & b & Ha & Hb & _ & _ & Hi & Hx & Hy & Eo & En).
  split; [apply Hg|]. rewrite Eo, En. split; [by apply candidates_ok|]. split; [by apply current_ok|].
  exists a, b. done.
Qed.

Lemma searches_genuine_witness :
  exists found p, search SearchOp.Xor = Some found /\ head found = Some p /\
    SearchOp.apply SearchOp.Xor (fst (concrete p)) (snd (concrete p)) ∈γ new_result p.
Proof.
  destruct (searches_genuine SearchOp.Xor) as (found & Hs & _ & Hf).
  destruct found as [|p found]; [vm_compute in Hs; discriminate Hs|].
  exists (p :: found), p. split; [exact Hs|]. split; [reflexivity|]. apply Hf. left.
Defined.

(** C40: the program of a witness shows it. It decodes to the loads of the two
    words, the operation, a move and the exit, and the concrete machine runs it to
    the exit with the result of the operation in R0, unless a word lies between
    2^31 and 2^32. *)
Theorem witness_program_computes (op : SearchOp) (w : PrecisionWitness) (maps : Maps) (p : ProgType) :
  is_u64 (fst (concrete w)) -> is_u64 (snd (concrete w)) ->
  ~ (2 ^ 31 <= fst (concrete w) < 2 ^ 32) -> ~ (2 ^ 31 <= snd (concrete w) < 2 ^ 32) ->
  exists insns n s, decode_program (witness_program w (SearchOp.opcode op)) = Ok insns /\
    rtc (moves insns maps) (0, cinitial_with p) (Z.of_nat n, s) /\
    insns !! n = Some BpfInsn.Exit /\ ccurframe s = 0 /\
    read_concrete_reg (Z.of_nat n) s 0 = Ok (CScalar (SearchOp.apply op (fst (concrete w)) (snd (concrete w)))).
Proof.
  intros Hx Hy Hgx Hgy. destruct (concrete w) as [x y] eqn:E. cbn [fst snd] in *.
  exists (witness_insns op x y). destruct (witness_runs op x y maps p Hx Hy) as (n & s & Hr & He & Hc & H0).
  exists n, s. split; [by apply witness_decodes|]. split; [done|]. split; [done|]. split; [done|].
  assert (Hl : forall v, is_u64 v -> ~ (2 ^ 31 <= v < 2 ^ 32) -> loaded v = v).
  { intros v Hv Hg. unfold loaded. destruct (Z.leb_spec v U32_MAX); [|done].
    unfold as_i. rewrite (Z.mod_small v) by lia. rewrite (proj2 (Z.ltb_lt _ _)) by lia. by apply as_u64_id. }
  by rewrite !Hl in H0 by done.
Qed.

Definition xor_witness : PrecisionWitness :=
  mkWitness "xor" 6 [0x50; 0x5f; 0; 1] (0x5a, 2 ^ 40) FULL FULL U64_MAX 15.

Lemma witness_program_computes_witness :
  exists insns n s, decode_program (witness_program xor_witness opcodes.XOR) = Ok insns /\
    insns !! n = Some BpfInsn.Exit /\ read_concrete_reg (Z.of_nat n) s 0 = Ok (CScalar (2 ^ 40 + 0x5a)).
Proof.
  destruct (witness_program_computes SearchOp.Xor xor_witness ∅ ProgType.SocketFilter)
    as (insns & n & s & Hd & _ & He & _ & H0); [cbn; lia..|].
  exists insns, n, s. split; [exact Hd|]. split; [exact He|exact H0].
Defined.

(** A word between 2^31 and 2^32 is loaded with its sign: the program of the
    witness with the members 2^31 and 0 computes another sum. *)
Theorem witness_program_gap :
  exists n s, decode_program (witness_program (mkWitness "add" 64 [] (2 ^ 31, 0) FULL FULL 0 0) opcodes.ADD) =
      Ok (witness_insns SearchOp.Add (2 ^ 31) 0) /\
    rtc (moves (witness_insns SearchOp.Add (2 ^ 31) 0) ∅) (0, cinitial_with ProgType.SocketFilter) (Z.of_nat n, s) /\
    witness_insns SearchOp.Add (2 ^ 31) 0 !! n = Some BpfInsn.Exit /\
    read_concrete_reg (Z.of_nat n) s 0 = Ok (CScalar (2 ^ 64 - 2 ^ 31)).
Proof.
  destruct (witness_runs SearchOp.Add (2 ^ 31) 0 ∅ ProgType.SocketFilter) as (n & s & Hr & He & _ & H0); [lia..|].
  exists n, s. split; [vm_compute; reflexivity|]. split; [done|]. split; [done|]. rewrite H0. vm_compute. reflexivity.
Qed.
